(* ===== verification/_CoqProject ===== *)
-Q . S2P
Prelude.v
BTree.v
Frame.v
ResidentSet.v
Flags.v
FileDesc.v
MapArea.v
Buddy.v
FrameAlloc.v
FrameOwnership.v
VmaList.v
MemorySet.v
MsInv.v
Sv39.v
MsInsert.v
Machine.v
MsUnmap.v
MsCow.v
MsFork.v
MsCache.v
MsFault.v
MsBytes.v
UserCopy.v
UserVa.v
Tlb.v
Asid.v
Task.v
ReadyQueue.v
BlockCache.v
BlockWake.v
Signals.v
Process.v
ProcessInv.v
ProcessSteps.v
ProcessCorrect.v
SignalCalls.v
WaitCalls.v
MemFile.v
IoStore.v
FdOps.v
Pipe.v
FdTable.v
FdLedger.v
Mmap.v
MmapCorrect.v
Writeback.v
IoCalls.v
FileLocks.v
FileLockCalls.v
Futex.v
FutexCalls.v
Paths.v
Access.v
