(* ===== verification/Prelude.v ===== *)
(** * wll_OS: verification development

    wll_OS is a kernel in Rust for RISC-V and LoongArch machines (src/os/src).  This library
    models the parts of it that decide whether programs see the memory, the files and the
    other processes they should: physical frames, address spaces and page faults, TLB
    shootdown, scheduling, blocking and waking, processes and signals, open files and the
    system calls over them.  The model is the release build of the RISC-V port, without the
    cargo features [buildstorm-diagnostics] and [smp-regression].

    ** Conventions

    Machine words are integers [Z] in [0, 2^64), with the wrap-around, saturation or check
    of the operator the source uses ([wrap], [sat_add], [checked_add], [checked_sub]).
    Fallible code returns [result] with the error numbers of src/os/src/utils/error.rs;
    code that could panic returns [outcome], and the theorems show that it does not.  A
    vector is a list, a [BTreeMap] a sorted association list (BTree.v), a table keyed by
    handles or pids a [gmap].  [Arc<Mutex<..>>] objects live in a store and are named by
    handles, so aliasing is visible.  Code that threads state takes and returns it.  A
    diagnostic, a log line or a counter that nothing reads back is left out.

    Loops are structural where the source iterates over a collection.  The others have
    fuel: [page_steps n] for a walk over a range of pages (the range has no more pages),
    64 and 65 for the loops over pending signals (each turn clears one of 64 bits), 3 for
    reading a string of at most 4096 bytes (two page borders at most), the length of the
    list for searches and bisections, the order count for the buddy allocator, three turns per
    lock for unlocking a range, one per waiting owner for the search for deadlocks and one
    per waiter for a futex wake-up, and 2048 for a robust list, as in the source.  The
    theorems are about the call with the fuel the definition passes; each shows that the
    result is the one of the loop that ran to its end.

    ** The parts, the files and the source

    Frames.  Buddy.v is the vendored buddy allocator, FrameAlloc.v the allocator of
    src/os/src/mm/frame_allocator.rs over it (per-CPU caches, reference counts, contiguous
    blocks, boot memory), Frame.v the tracker handles.  FrameOwnership.v shows that free,
    tracked and raw frames always partition the managed ones, so that no frame has two
    owners and none is lost, and that no owner's operation panics.

    Address spaces (src/os/src/mm/map_area.rs, memory_set.rs, page_table.rs).  ResidentSet.v
    is the run-length map of resident pages, a refinement of a finite map; Flags.v and
    FileDesc.v the permissions and backings; MapArea.v an area, VmaList.v the sorted list of
    areas with its searches, MemorySet.v every operation of [MemorySet].  MsInv.v states the
    invariant: areas sorted and disjoint, page table coherent with the resident pages, each
    resident frame owned, shared private frames never writable, and no frame dropped before
    the translations to it were flushed.  MsInsert.v, MsUnmap.v, MsCow.v, MsFork.v,
    MsCache.v, MsFault.v and MsBytes.v prove the operations against it.  The page table, the
    frames and the files are the classes [PageTableOps], [FrameService] and [FileLayer];
    Sv39.v implements the first (src/patch/polyhal/src/pagetable), Machine.v the second from
    FrameAlloc.v and joins them into a machine on which witnesses run.

    User memory and its calls.  UserCopy.v (src/os/src/syscall/user.rs) is every access of
    the kernel to user memory; UserVa.v (src/os/src/config/user_va.rs) the placement of
    mappings; Mmap.v, MmapCorrect.v and Writeback.v the calls of src/os/src/syscall/mm.rs
    from [brk] to [msync].

    Translations on several CPUs.  Tlb.v (src/os/src/platform.rs) interleaves the atomic
    accesses of a shootdown with the page walkers of all CPUs; Asid.v the life of
    address-space identifiers.

    Tasks.  Task.v holds the fields of a task block; ReadyQueue.v the ready queues and the
    registry (src/os/src/task/manager.rs); BlockWake.v the protocol by which a task blocks
    and others wake it, one shared access per step (src/os/src/task/wait_queue.rs, mod.rs).

    Processes and signals.  Signals.v is the signal state of one task and Process.v the
    process tree, thread groups, [clone], exit, stop, continue, reaping and delivery
    (src/os/src/task/mod.rs, src/os/src/syscall/process.rs and signal.rs).  ProcessInv.v and
    ProcessSteps.v show that every operation keeps the invariant [ps_ok]; ProcessCorrect.v
    has the step relation [proc_step], its reachable states and the theorems about them.
    SignalCalls.v and WaitCalls.v are the signal calls, handler frames and [wait4] and
    [waitid] over UserCopy.v.

    Files.  BlockCache.v is the block cache (src/os/src/fs/block_dev.rs).  MemFile.v is the
    contents of in-memory files, IoStore.v the shared objects, FdOps.v every method of an
    open descriptor, Pipe.v and FdLedger.v what pipes and their counts guarantee, FdTable.v
    the descriptor tables (src/os/src/fs/fd.rs).  FileLocks.v is the tables of file locks, of
    whole-file locks and of waiting owners, FileLockCalls.v [fcntl], [flock], [close] and
    [dup], IoCalls.v [read], [write], [pread64], [pwrite64], [lseek], [pipe2] and [eventfd2]
    (src/os/src/syscall/fs.rs).

    Futexes (src/os/src/syscall/other.rs, src/os/src/timer.rs).  Futex.v is the list of waiters
    and that of deadlines, with the interleaving of wakers, timers and blocking; FutexCalls.v
    [futex] and the words of a dying thread over UserCopy.v.

    ** How the parts interact

    A system call of a process acts on its address space through UserCopy.v, on its
    descriptors through FdTable.v and on other processes through Process.v.  A page fault is
    [handle_page_fault] of MemorySet.v; every access of the kernel to user memory resolves
    the same faults first ([prepare_read], [prepare_write]).  Unmapping logs the shootdown
    that Tlb.v proves safe, before the frames go back to FrameAlloc.v.  What Process.v asks
    of the scheduler, the wait queues, memory, descriptors and locks is its log [plog], in
    the order of the calls.

    ** What the theorems show

    Invariants and safety: frame ownership, the process tree, TLB and identifier isolation,
    a task runs on at most one CPU, pipe ends are counted, file locks never conflict, the futex
    calls keep memory and lists in order.  Functional correctness on every
    branch: page faults, [fork], copy-on-write, [mmap], [munmap], [brk], copies to user
    memory, strings read from it, [kill] with SIGKILL, delivery of signals, reaping,
    [wait4], file locks, futex waits and wake-ups.  Refinement and equivalence: resident
    sets, page tables, memory files and the block cache against finite maps, lists and the raw device; batched page
    table walks against single ones.  Round trips: memory through a
    pipe and through a file to memory, signal frames, reported file locks.  Termination and liveness: the shootdown is wait-free, the loop
    over pending signals ends, no wake-up is lost, blocked pipe users are woken, a
    futex waiter is never out of reach.

    ** What is not modelled, and why

    Drivers, consoles, trap entry, context switches and boot are device or assembly code
    around the parts above.  The ext4 volume and the VFAT reader are front ends of crates
    and devices; here they are the classes [FileLayer] and [BackingFiles].  The network
    calls drive a loopback socket store outside of the descriptors' byte queues.  The path
    layer, [execve] beyond its effect on peers, signals and descriptors, interval timers and
    the other calls of src/os/src/syscall/fs.rs and other.rs are work left over: each would
    be a component beside those above.  The LoongArch variants differ in registers and page
    table formats only.  Code under src/vendor and src/patch is modelled where the kernel's
    memory safety rests on it (buddy allocator, page tables, trap frame) and not otherwise. *)

From stdpp Require Export base option list list_numbers strings gmap sorting.
From Stdlib Require Export ZArith Lia.

#[global] Open Scope Z_scope.

(** ** Machine integers

    A [usize] of the 64-bit kernel is a [Z] in [0, USIZE_MAX]; the source's
    arithmetic is written with the operator the code uses. *)

Definition USIZE_MAX : Z := 2 ^ 64 - 1.

Definition is_usize (x : Z) : Prop := 0 ≤ x ≤ USIZE_MAX.

(** [a.saturating_add(b)] *)
Definition sat_add (a b : Z) : Z := Z.min (a + b) USIZE_MAX.

(** [a.saturating_sub(b)] *)
Definition sat_sub (a b : Z) : Z := Z.max (a - b) 0.

(** [a.checked_add(b)] *)
Definition checked_add (a b : Z) : option Z :=
  if bool_decide (a + b ≤ USIZE_MAX) then Some (a + b) else None.

(** [a.checked_sub(b)] *)
Definition checked_sub (a b : Z) : option Z :=
  if bool_decide (b ≤ a) then Some (a - b) else None.

(** [a + b], [a - b] and [a * b] in a release build wrap around. *)
Definition wrap (x : Z) : Z := x mod 2 ^ 64.

(** [trailing_zeros] of a 64-bit word *)
Fixpoint pos_tz (p : positive) : nat :=
  match p with
  | xO q => S (pos_tz q)
  | _ => O
  end.

Definition trailing_zeros (x : Z) : nat :=
  match x with
  | Zpos p => pos_tz p
  | _ => 64%nat
  end.

(** The little-endian bytes of a word and back ([to_le_bytes], [from_le_bytes]; the target's
    native order is little-endian). *)
Fixpoint le_bytes (n : nat) (x : Z) : list Z :=
  match n with O => [] | S n => x mod 256 :: le_bytes n (x / 256) end.
Fixpoint of_le_bytes (l : list Z) : Z :=
  match l with [] => 0 | b :: l => b + 256 * of_le_bytes l end.

(** ** Page geometry (src/os/src/config/rv.rs) *)

Definition PAGE_SIZE : Z := 4096.

(** [value / PAGE_SIZE * PAGE_SIZE] *)
Definition align_down (value : Z) : Z := value / PAGE_SIZE * PAGE_SIZE.

(** [checked_add(PAGE_SIZE - 1)] and then rounded down *)
Definition align_up (value : Z) : option Z :=
  match checked_add value (PAGE_SIZE - 1) with
  | Some v => Some (v / PAGE_SIZE * PAGE_SIZE)
  | None => None
  end.

Definition page_aligned (x : Z) : Prop := x mod PAGE_SIZE = 0.

#[export] Instance page_aligned_dec x : Decision (page_aligned x).
Proof. unfold page_aligned. apply _. Defined.

(** [MAX_CPUS] of src/os/src/config/mod.rs *)
Definition MAX_CPUS : nat := 12.

(** ** Errors (src/os/src/utils/error.rs) *)

Inductive SysErrNo : Set :=
  | EPERM | ENOENT | ESRCH | EINTR | EIO | ENXIO | E2BIG | ENOEXEC | EBADF
  | ECHILD | EAGAIN | ENOMEM | EACCES | EFAULT | ENOTBLK | EBUSY | EEXIST
  | EXDEV | ENODEV | ENOTDIR | EISDIR | EINVAL | ENFILE | EMFILE | ENOTTY
  | ETXTBSY | EFBIG | ENOSPC | ESPIPE | EROFS | EMLINK | EPIPE | EDOM
  | ERANGE | EDEADLK | ENAMETOOLONG | ENOTEMPTY | ELOOP | ECANCELED | ENODATA
  | ENOTSOCK | EDESTADDRREQ | EMSGSIZE | ENOPROTOOPT | EPROTONOSUPPORT
  | EOPNOTSUPP | EAFNOSUPPORT | EADDRINUSE | EADDRNOTAVAIL | EISCONN
  | ENOTCONN | ETIMEDOUT | ECONNREFUSED | EALREADY | EINPROGRESS
  | ERESTARTSYS | ENOSYS.

#[export] Instance SysErrNo_eq_dec : EqDecision SysErrNo.
Proof. solve_decision. Defined.

(** The enum discriminant as an [i32]. *)
Definition errno_code (e : SysErrNo) : Z :=
  match e with
  | EPERM => 1 | ENOENT => 2 | ESRCH => 3 | EINTR => 4 | EIO => 5 | ENXIO => 6
  | E2BIG => 7 | ENOEXEC => 8 | EBADF => 9 | ECHILD => 10 | EAGAIN => 11
  | ENOMEM => 12 | EACCES => 13 | EFAULT => 14 | ENOTBLK => 15 | EBUSY => 16
  | EEXIST => 17 | EXDEV => 18 | ENODEV => 19 | ENOTDIR => 20 | EISDIR => 21
  | EINVAL => 22 | ENFILE => 23 | EMFILE => 24 | ENOTTY => 25 | ETXTBSY => 26
  | EFBIG => 27 | ENOSPC => 28 | ESPIPE => 29 | EROFS => 30 | EMLINK => 31
  | EPIPE => 32 | EDOM => 33 | ERANGE => 34 | EDEADLK => 35
  | ENAMETOOLONG => 36 | ENOTEMPTY => 39 | ELOOP => 40 | ECANCELED => 47
  | ENODATA => 61 | ENOTSOCK => 88 | EDESTADDRREQ => 89 | EMSGSIZE => 90
  | ENOPROTOOPT => 92 | EPROTONOSUPPORT => 93 | EOPNOTSUPP => 95
  | EAFNOSUPPORT => 97 | EADDRINUSE => 98 | EADDRNOTAVAIL => 99
  | EISCONN => 106 | ENOTCONN => 107 | ETIMEDOUT => 110 | ECONNREFUSED => 111
  | EALREADY => 114 | EINPROGRESS => 115 | ERESTARTSYS => 512 | ENOSYS => 38
  end.

(** the negated discriminant cast to [usize]: sign extension to 64 bits. *)
Definition as_ret (e : SysErrNo) : Z := wrap (- errno_code e).

(** [Result<A, E>] *)
Inductive result (A E : Type) : Type :=
  | Ok (a : A)
  | Err (e : E).
Arguments Ok {A E} a.
Arguments Err {A E} e.

(** The result of code that may panic ([unreachable!], [assert!], [expect]). *)
Inductive outcome (A : Type) : Type :=
  | Ret (a : A)
  | Panic.
Arguments Ret {A} a.
Arguments Panic {A}.

(** The length of a [Vec] or slice as a [usize]. *)
Definition zlen {A} (l : list A) : Z := Z.of_nat (length l).

Declare Scope kernel_scope.
Delimit Scope kernel_scope with kernel.

(** The [?] operator on a [Result]. *)
Notation "x ←? c ; k" :=
  (match c with Ok x => k | Err e => Err e end)
  (at level 100, c at next level, k at level 200, right associativity)
  : kernel_scope.

(** Sequencing of code that may panic. *)
Notation "x ←! c ; k" :=
  (match c with Ret x => k | Panic => Panic end)
  (at level 100, c at next level, k at level 200, right associativity)
  : kernel_scope.

(** The same binding a pair. *)
Notation "' ( x , y ) ←! c ; k" :=
  (match c with Ret (x, y) => k | Panic => Panic end)
  (at level 100, c at next level, k at level 200, right associativity)
  : kernel_scope.

#[global] Open Scope kernel_scope.

(** ** Tactics *)

(** [lia] reasons about division and modulo by constants. *)
Ltac Zify.zify_post_hook ::= Z.to_euclidean_division_equations.

(** Case analysis on the scrutinee of a [match] or [if] in the goal. *)
Ltac cases_goal :=
  match goal with
  | |- context [match ?x with _ => _ end] =>
      lazymatch x with
      | context [match _ with _ => _ end] => fail
      | _ => let E := fresh "E" in destruct x eqn:E
      end
  end.

(** The same in a hypothesis. *)
Ltac cases_in H :=
  match type of H with
  | context [match ?x with _ => _ end] =>
      lazymatch x with
      | context [match _ with _ => _ end] => fail
      | _ => let E := fresh "E" in destruct x eqn:E
      end
  end.

(** Turn decided booleans into the propositions they decide. *)
Ltac reflect_bools :=
  repeat match goal with
  | H : bool_decide _ = true |- _ => apply bool_decide_eq_true_1 in H
  | H : bool_decide _ = false |- _ => apply bool_decide_eq_false_1 in H
  | H : (_ && _)%bool = true |- _ => apply andb_true_iff in H as [? ?]
  | H : (_ || _)%bool = false |- _ => apply orb_false_iff in H as [? ?]
  | H : negb _ = true |- _ => apply negb_true_iff in H
  | H : negb _ = false |- _ => apply negb_false_iff in H
  end.

Create HintDb kernel.

(** ** Generic lemmas *)

Lemma checked_add_Some a b c :
  checked_add a b = Some c ↔ c = a + b ∧ a + b ≤ USIZE_MAX.
Proof.
  unfold checked_add. case_bool_decide; split; [intros [= <-]; done|by intros [-> _]|done|].
  by intros [_ ?].
Qed.

Lemma sat_add_exact a b : a + b ≤ USIZE_MAX → sat_add a b = a + b.
Proof. unfold sat_add. lia. Qed.

Lemma wrap_small x : is_usize x → wrap x = x.
Proof. unfold wrap, is_usize, USIZE_MAX. intros. apply Z.mod_small. lia. Qed.

(** The lowest bit set. *)
Lemma trailing_zeros_spec x :
  0 < x → Z.testbit x (Z.of_nat (trailing_zeros x)) = true ∧
  ∀ k, 0 ≤ k < Z.of_nat (trailing_zeros x) → Z.testbit x k = false.
Proof.
  destruct x as [|p|p]; [lia| |lia]. intros _. simpl. induction p as [p IH|p IH|]; [split; [done|simpl; lia]| |split; [done|simpl; lia]].
  destruct IH as [IH1 IH2]. change (Z.pos p~0) with (2 * Z.pos p). cbn [pos_tz]. rewrite Nat2Z.inj_succ. split.
  - by rewrite Z.double_bits_succ.
  - intros k Hk. destruct (decide (k = 0)) as [->|]; [apply Z.testbit_even_0|].
    replace k with (Z.succ (k - 1)) by lia. rewrite Z.double_bits_succ by lia. apply IH2. lia.
Qed.

Lemma Ret_inj {A} (a b : A) : Ret a = Ret b → a = b.
Proof. by intros [= ->]. Qed.

Lemma align_down_le x : 0 ≤ x → 0 ≤ align_down x ≤ x.
Proof. unfold align_down, PAGE_SIZE. intros. lia. Qed.

Lemma align_down_aligned x : page_aligned (align_down x).
Proof. unfold page_aligned, align_down, PAGE_SIZE. apply Z.mod_mul. lia. Qed.

Lemma align_down_id x : page_aligned x → align_down x = x.
Proof. unfold page_aligned, align_down, PAGE_SIZE. lia. Qed.

Lemma align_up_Some x y :
  align_up x = Some y →
  page_aligned y ∧ x ≤ y < x + PAGE_SIZE ∧ y ≤ USIZE_MAX.
Proof.
  unfold align_up, page_aligned, PAGE_SIZE.
  destruct (checked_add _ _) as [v|] eqn:E; [|done].
  apply checked_add_Some in E as [-> ?]. intros [= <-].
  unfold USIZE_MAX in *. split; [apply Z.mod_mul; lia | lia].
Qed.

Lemma align_up_id x :
  0 ≤ x → page_aligned x → x + (PAGE_SIZE - 1) ≤ USIZE_MAX →
  align_up x = Some x.
Proof.
  unfold align_up, page_aligned, checked_add, PAGE_SIZE. intros.
  rewrite bool_decide_eq_true_2 by lia. f_equal. lia.
Qed.

Lemma page_aligned_sub x y : page_aligned x → page_aligned y → page_aligned (x - y).
Proof. unfold page_aligned, PAGE_SIZE. lia. Qed.

Lemma page_aligned_add x y : page_aligned x → page_aligned y → page_aligned (x + y).
Proof. unfold page_aligned, PAGE_SIZE. lia. Qed.

Lemma page_aligned_mul x : page_aligned (x * PAGE_SIZE).
Proof. unfold page_aligned, PAGE_SIZE. apply Z.mod_mul. lia. Qed.

Lemma page_aligned_div x : page_aligned x → x / PAGE_SIZE * PAGE_SIZE = x.
Proof. unfold page_aligned, PAGE_SIZE. lia. Qed.

Lemma zlen_nil {A} : zlen (@nil A) = 0.
Proof. done. Qed.

Lemma zlen_cons {A} (x : A) l : zlen (x :: l) = zlen l + 1.
Proof. unfold zlen. simpl. lia. Qed.

Lemma zlen_app {A} (l1 l2 : list A) : zlen (l1 ++ l2) = zlen l1 + zlen l2.
Proof. unfold zlen. rewrite length_app. lia. Qed.

Lemma zlen_fmap {A B} (f : A → B) (l : list A) : zlen (f <$> l) = zlen l.
Proof. unfold zlen. by rewrite length_fmap. Qed.

Lemma zlen_nonneg {A} (l : list A) : 0 ≤ zlen l.
Proof. unfold zlen. lia. Qed.

Lemma zlen_pos {A} (l : list A) : l ≠ [] ↔ 0 < zlen l.
Proof. unfold zlen. destruct l; simpl; split; [done|lia|lia|done]. Qed.

#[export] Instance zlen_perm A : Proper ((≡ₚ) ==> (=)) (@zlen A).
Proof. intros l l' H. unfold zlen. by rewrite H. Qed.

Lemma perm_block_move {A} (a d b r : list A) : a ++ d ++ b ++ r ≡ₚ (b ++ a) ++ d ++ r.
Proof.
  rewrite (Permutation_app_comm b a), <-app_assoc. apply Permutation_app_head.
  rewrite !app_assoc. by rewrite (Permutation_app_comm d b).
Qed.

#[export] Hint Rewrite @zlen_nil @zlen_cons @zlen_app : kernel.

Section filters.
Context {A : Type} (P : A → Prop) `{!∀ x, Decision (P x)}.

Lemma filter_keep_all l : Forall P l → filter P l = l.
Proof. induction 1; [done|]. by rewrite filter_cons_True, IHForall. Qed.

Lemma filter_drop_all l : Forall (λ x, ¬ P x) l → filter P l = [].
Proof. induction 1; [done|]. by rewrite filter_cons_False, IHForall. Qed.

Lemma zlen_filter_split l : zlen (filter (λ x, ¬ P x) l) + zlen (filter P l) = zlen l.
Proof.
  induction l as [|x l IH]; [done|]. rewrite !filter_cons. destruct (decide (P x)).
  - rewrite decide_False by tauto. rewrite !zlen_cons. lia.
  - rewrite decide_True by done. rewrite !zlen_cons. lia.
Qed.

End filters.

#[export] Hint Resolve align_down_aligned page_aligned_sub page_aligned_add
  page_aligned_mul : kernel.

Lemma Forall_filter_2 {A} (P Q : A → Prop) `{!∀ x, Decision (Q x)} (l : list A) :
  Forall P l → Forall P (filter Q l).
Proof.
  rewrite !Forall_forall. intros Hl x. rewrite list_elem_of_filter. naive_solver.
Qed.
