(* ===== verification/BTree.v ===== *)
(** * Ordered collections of [alloc::collections]

    [BTreeMap<usize, V>] as an association list sorted by key and
    [BTreeSet<A>] as a sorted list, with the operations the kernel uses:
    [get], [insert], [remove], [range(..k).next_back()],
    [range(..=k).next_back()] and [iter().next()].  Iteration follows the list,
    so it is in ascending order as in the source. *)

From S2P Require Import Prelude.

Abbreviation bmap V := (list (Z * V)).

(** ** Maps *)

Fixpoint bt_get {V} (l : bmap V) (k : Z) : option V :=
  match l with
  | [] => None
  | (k', v) :: l' => if bool_decide (k = k') then Some v else bt_get l' k
  end.

Fixpoint bt_insert {V} (l : bmap V) (k : Z) (v : V) : bmap V :=
  match l with
  | [] => [(k, v)]
  | (k', v') :: l' =>
      if bool_decide (k < k') then (k, v) :: l
      else if bool_decide (k = k') then (k, v) :: l'
      else (k', v') :: bt_insert l' k v
  end.

Fixpoint bt_remove {V} (l : bmap V) (k : Z) : bmap V :=
  match l with
  | [] => []
  | (k', v') :: l' => if bool_decide (k = k') then l' else (k', v') :: bt_remove l' k
  end.

(** [range(..k).next_back()] *)
Definition bt_range_lt {V} (l : bmap V) (k : Z) : option (Z * V) :=
  last (filter (λ p, p.1 < k) l).

(** [range(..=k).next_back()] *)
Definition bt_range_le {V} (l : bmap V) (k : Z) : option (Z * V) :=
  last (filter (λ p, p.1 ≤ k) l).

Definition bt_sorted {V} (l : bmap V) : Prop := StronglySorted (λ p q, p.1 < q.1) l.

Definition keys_lt {V} (k : Z) (l : bmap V) : Prop := Forall (λ p, p.1 < k) l.
Definition keys_ge {V} (k : Z) (l : bmap V) : Prop := Forall (λ p, k ≤ p.1) l.
Definition keys_gt {V} (k : Z) (l : bmap V) : Prop := Forall (λ p, k < p.1) l.

(** ** Sets over a strict order *)

Class StrictTotal {A} (R : relation A) := {
  stotal_irrefl : ∀ x, ¬ R x x;
  stotal_trans : ∀ x y z, R x y → R y z → R x z;
  stotal_total : ∀ x y, R x y ∨ x = y ∨ R y x
}.

Fixpoint bset_insert {A} (R : relation A) `{!RelDecision R, !EqDecision A}
    (l : list A) (x : A) : list A :=
  match l with
  | [] => [x]
  | y :: l' =>
      if bool_decide (R x y) then x :: l
      else if bool_decide (x = y) then l
      else y :: bset_insert R l' x
  end.

(** Membership of the removed element is [bool_decide (x ∈ l)], the value
    [BTreeSet::remove] returns. *)
Definition bset_remove {A} `{!EqDecision A} (l : list A) (x : A) : list A :=
  filter (λ y, y ≠ x) l.

#[export] Instance Zlt_StrictTotal : StrictTotal Z.lt.
Proof. split; intros; lia. Qed.

(** ** Lemmas on maps *)

Section maps.
Context {V : Type}.
Implicit Types (l : bmap V) (k : Z) (v : V).

Lemma bt_sorted_nil : bt_sorted (@nil (Z * V)).
Proof. constructor. Qed.

Lemma bt_sorted_app l1 l2 :
  bt_sorted (l1 ++ l2) ↔
  bt_sorted l1 ∧ bt_sorted l2 ∧ (∀ p q, p ∈ l1 → q ∈ l2 → p.1 < q.1).
Proof. unfold bt_sorted. rewrite StronglySorted_app. naive_solver. Qed.

(** Every sorted map splits at a key: the strictly smaller keys, then the rest. *)
Lemma bt_split l k :
  bt_sorted l → ∃ l1 l2, l = l1 ++ l2 ∧ keys_lt k l1 ∧ keys_ge k l2.
Proof.
  induction l as [|[k' v'] l IH]; intros Hs.
  { exists [], []. split_and!; [done|constructor..]. }
  apply StronglySorted_inv in Hs as [Hs Hf].
  destruct (decide (k' < k)).
  - destruct (IH Hs) as (l1&l2&->&?&?). exists ((k', v') :: l1), l2.
    split_and!; [done|by constructor|done].
  - exists [], ((k', v') :: l). split_and!; [done|constructor|].
    constructor; [simpl; lia|]. eapply Forall_impl; [done|]. simpl. intros; lia.
Qed.

Lemma keys_ge_inv k l :
  bt_sorted l → keys_ge k l →
  (∃ v l', l = (k, v) :: l' ∧ keys_gt k l') ∨ keys_gt k l.
Proof.
  intros Hs Hge. destruct l as [|[k' v] l']; [right; constructor|].
  apply StronglySorted_inv in Hs as [Hs Hf]. apply Forall_cons in Hge as [? ?].
  simpl in *. destruct (decide (k = k')) as [<-|].
  - left. exists v, l'. split; [done|]. done.
  - right. constructor; [simpl; lia|]. eapply Forall_impl; [exact Hf|]. simpl; intros; lia.
Qed.

Lemma keys_gt_ge k l : keys_gt k l → keys_ge k l.
Proof. intros. eapply Forall_impl; [done|]. simpl; intros; lia. Qed.

Lemma bt_insert_fresh l1 l2 k v :
  keys_lt k l1 → keys_gt k l2 → bt_insert (l1 ++ l2) k v = l1 ++ (k, v) :: l2.
Proof.
  intros H1 H2. induction H1 as [|[k' v'] l1 ? H1 IH]; simpl in *.
  - destruct H2 as [|[k' v'] l2]; [done|]. simpl in *.
    by rewrite bool_decide_eq_true_2.
  - rewrite bool_decide_eq_false_2 by lia. rewrite bool_decide_eq_false_2 by lia.
    by rewrite IH.
Qed.

Lemma bt_insert_replace l1 l2 k v w :
  keys_lt k l1 → bt_insert (l1 ++ (k, w) :: l2) k v = l1 ++ (k, v) :: l2.
Proof.
  intros H1. induction H1 as [|[k' v'] l1 ? H1 IH]; simpl in *.
  - rewrite bool_decide_eq_false_2 by lia. by rewrite bool_decide_eq_true_2.
  - rewrite bool_decide_eq_false_2 by lia. rewrite bool_decide_eq_false_2 by lia.
    by rewrite IH.
Qed.

Lemma bt_remove_found l1 l2 k w :
  keys_lt k l1 → bt_remove (l1 ++ (k, w) :: l2) k = l1 ++ l2.
Proof.
  intros H1. induction H1 as [|[k' v'] l1 ? H1 IH]; simpl in *.
  - by rewrite bool_decide_eq_true_2.
  - rewrite bool_decide_eq_false_2 by lia. by rewrite IH.
Qed.

Lemma bt_get_found l1 l2 k w :
  keys_lt k l1 → bt_get (l1 ++ (k, w) :: l2) k = Some w.
Proof.
  intros H1. induction H1 as [|[k' v'] l1 ? H1 IH]; simpl in *.
  - by rewrite bool_decide_eq_true_2.
  - rewrite bool_decide_eq_false_2 by lia. by rewrite IH.
Qed.

Lemma bt_get_absent l1 l2 k :
  keys_lt k l1 → keys_gt k l2 → bt_get (l1 ++ l2) k = None.
Proof.
  intros H1 H2. induction H1 as [|[k' v'] l1 ? H1 IH]; simpl in *.
  - induction H2 as [|[k' v'] l2 ? H2 IH]; [done|]. simpl in *.
    by rewrite bool_decide_eq_false_2 by lia.
  - by rewrite bool_decide_eq_false_2 by lia.
Qed.

Lemma filter_lt_split l1 l2 k :
  keys_lt k l1 → keys_ge k l2 → filter (λ p : Z * V, p.1 < k) (l1 ++ l2) = l1.
Proof.
  intros H1 H2. rewrite filter_app.
  rewrite (filter_keep_all _ l1), (filter_drop_all _ l2); [|..|done].
  2:{ eapply Forall_impl; [exact H2|]. simpl; intros; lia. }
  by rewrite app_nil_r.
Qed.

Lemma bt_range_lt_split l1 l2 k :
  keys_lt k l1 → keys_ge k l2 → bt_range_lt (l1 ++ l2) k = last l1.
Proof. intros. unfold bt_range_lt. by rewrite filter_lt_split. Qed.

Lemma bt_range_le_lt l k : bt_range_le l k = bt_range_lt l (k + 1).
Proof.
  unfold bt_range_le, bt_range_lt. f_equal. apply list_filter_iff. intros; lia.
Qed.

Lemma bt_sorted_middle l1 l2 k v :
  bt_sorted (l1 ++ (k, v) :: l2) ↔
  bt_sorted l1 ∧ bt_sorted l2 ∧ keys_lt k l1 ∧ keys_gt k l2 ∧
  (∀ p q, p ∈ l1 → q ∈ l2 → p.1 < q.1).
Proof.
  rewrite bt_sorted_app. split.
  - intros (?&[? Hf]%StronglySorted_inv&Hlt). split_and!; [done..| |done|].
    + apply Forall_forall. intros p ?. apply (Hlt p (k, v)); set_solver.
    + intros p q ??. apply Hlt; set_solver.
  - intros (?&?&Hlt&Hgt&Hx). split_and!; [done| |].
    + constructor; done.
    + intros p q ? [->|?]%elem_of_cons; [|by eauto].
      unfold keys_lt in Hlt. rewrite Forall_forall in Hlt. by apply Hlt.
Qed.

Lemma elem_of_bt_get l k v : bt_sorted l → (k, v) ∈ l → bt_get l k = Some v.
Proof.
  intros Hs (l1&l2&->)%list_elem_of_split.
  apply bt_sorted_middle in Hs as (?&?&?&?&?). by apply bt_get_found.
Qed.

End maps.

(** ** Lemmas on sets *)

Section sets.
Context {A : Type} (R : relation A) `{!RelDecision R, !EqDecision A, !StrictTotal R}.
Implicit Types (l : list A) (x y : A).

Lemma elem_of_bset_insert l x y : y ∈ bset_insert R l x ↔ y = x ∨ y ∈ l.
Proof.
  induction l as [|z l IH]; simpl; [set_solver|].
  repeat case_bool_decide; set_solver.
Qed.

Lemma bset_insert_sorted l x :
  StronglySorted R l → StronglySorted R (bset_insert R l x).
Proof.
  induction l as [|z l IH]; intros Hs; simpl.
  { repeat constructor. }
  pose proof Hs as [Hs' Hf]%StronglySorted_inv.
  repeat case_bool_decide; [|done|].
  - constructor; [done|]. constructor; [done|].
    eapply Forall_impl; [done|]. simpl. intros; by eapply stotal_trans.
  - constructor; [by apply IH|]. apply Forall_forall. intros w Hw.
    rewrite Forall_forall in Hf.
    apply elem_of_bset_insert in Hw as [->|?]; [|by apply Hf].
    destruct (stotal_total x z) as [?|[?|?]]; done.
Qed.

Lemma elem_of_bset_remove l x y : y ∈ bset_remove l x ↔ y ≠ x ∧ y ∈ l.
Proof. unfold bset_remove. by rewrite list_elem_of_filter. Qed.

Lemma bset_remove_sorted l x :
  StronglySorted R l → StronglySorted R (bset_remove l x).
Proof.
  unfold bset_remove. induction 1 as [|z l Hs IH Hf]; [constructor|].
  rewrite filter_cons. case_decide; [|done]. constructor; [done|].
  apply Forall_forall. intros w [? ?]%list_elem_of_filter.
  rewrite Forall_forall in Hf. by apply Hf.
Qed.

Lemma bset_sorted_NoDup l : StronglySorted R l → NoDup l.
Proof.
  induction 1 as [|z l Hs IH Hf]; constructor; [|done].
  rewrite Forall_forall in Hf. intros ?%Hf. by eapply stotal_irrefl.
Qed.

(** [iter().next()] is the least element. *)
Lemma bset_head_least l x y :
  StronglySorted R l → head l = Some x → y ∈ l → y = x ∨ R x y.
Proof.
  intros Hs Hh Hy. destruct l as [|z l]; simplify_eq/=.
  apply StronglySorted_inv in Hs as [_ Hf]. rewrite Forall_forall in Hf.
  apply elem_of_cons in Hy as [->|?]; [by left|right; by apply Hf].
Qed.

End sets.
