(* ===== verification/Frame.v ===== *)
(** * Physical page numbers and frame trackers
    (src/os/src/mm/frame_allocator.rs)

    A [FrameTracker] is the owning handle of a frame; the number of live handles
    of a frame is the frame's reference count, kept by the allocator
    ([FrameAlloc.v]). *)

From S2P Require Import Prelude.

(** [PhysPageNum(pub usize)] *)
Record PhysPageNum := mkPPN { ppn_raw : Z }.

(** [self.0 * PAGE_SIZE] *)
Definition ppn_addr (p : PhysPageNum) : Z := wrap (ppn_raw p * PAGE_SIZE).

(** [TryFrom<PhysAddr>]: only a page-aligned address has a page number. *)
Definition ppn_try_from (paddr : Z) : result PhysPageNum unit :=
  if bool_decide (paddr mod PAGE_SIZE = 0)
  then Ok (mkPPN (paddr / PAGE_SIZE)) else Err tt.

Record FrameTracker := mkTracker { ft_ppn : PhysPageNum }.

#[export] Instance PhysPageNum_eq_dec : EqDecision PhysPageNum.
Proof. solve_decision. Defined.

#[export] Instance FrameTracker_eq_dec : EqDecision FrameTracker.
Proof. solve_decision. Defined.

(** Page numbers of the physical address space round-trip through addresses. *)
Lemma ppn_addr_try_from p :
  0 ≤ ppn_raw p < 2 ^ 52 → ppn_try_from (ppn_addr p) = Ok p.
Proof.
  destruct p as [n]. unfold ppn_addr, ppn_try_from. simpl. intros.
  rewrite wrap_small by (unfold is_usize, USIZE_MAX, PAGE_SIZE; lia).
  rewrite bool_decide_eq_true_2 by apply page_aligned_mul.
  unfold PAGE_SIZE. by rewrite Z.div_mul.
Qed.
