(* ===== verification/ResidentSet.v ===== *)
(** * Resident pages of a VMA (src/os/src/mm/map_area.rs, [ResidentSet])

    The runs are keyed by VMA-relative page number and hold contiguous resident
    pages.  [rmap] is the abstract content, a finite map from page numbers to
    pages; [rs_wf] says the runs are the canonical (maximal, disjoint, in-range)
    representation of it and that the cached count is its size.  Every operation
    is shown to implement the corresponding finite-map operation, and the
    [unreachable!] branches of the source are shown unreachable. *)

From S2P Require Import Prelude BTree Frame.

(** ** Data *)

Inductive PageState : Set := Private | Cow | Shared | FileClean | FileDirty.

#[export] Instance PageState_eq_dec : EqDecision PageState.
Proof. solve_decision. Defined.

Record ResidentPage := mkPage { rp_frame : FrameTracker; rp_state : PageState }.

#[export] Instance ResidentPage_eq_dec : EqDecision ResidentPage.
Proof. solve_decision. Defined.

(** [ResidentPage::new] *)
Definition resident_page_new (frame : FrameTracker) : ResidentPage :=
  mkPage frame Private.

Definition resident_page_set_state (st : PageState) (p : ResidentPage) : ResidentPage :=
  mkPage (rp_frame p) st.

(** A [ResidentRun] is its vector of pages. *)
Record ResidentSet := mkRS {
  rs_runs : bmap (list ResidentPage);
  rs_count : Z
}.

(** ** Queries *)

Definition rs_new : ResidentSet := mkRS [] 0.

Definition rs_is_empty (rs : ResidentSet) : bool := bool_decide (rs_count rs = 0).

Definition rs_len (rs : ResidentSet) : Z := rs_count rs.

Definition rs_lookup (rs : ResidentSet) (vpn : Z) : option ResidentPage :=
  match bt_range_le (rs_runs rs) vpn with
  | None => None
  | Some (start, run) =>
      match checked_sub vpn start with
      | None => None
      | Some offset => run !! Z.to_nat offset
      end
  end.

Definition rs_iter (rs : ResidentSet) : list ResidentPage :=
  concat (snd <$> rs_runs rs).

Definition iter_range_run (start_vpn end_vpn : Z) (p : Z * list ResidentPage)
    : list (Z * ResidentPage) :=
  let '(run_start, run) := p in
  let first := Z.to_nat (sat_sub start_vpn run_start) in
  let last := Nat.min (Z.to_nat (sat_sub end_vpn run_start)) (length run) in
  take (last - Nat.min first (length run))
    (drop (Nat.min first (length run))
      (imap (λ offset page, (run_start + Z.of_nat offset, page)) run)).

(** [iter_range]: the pages of [start_vpn, end_vpn) with their page numbers. *)
Definition rs_iter_range (rs : ResidentSet) (start_vpn end_vpn : Z)
    : list (Z * ResidentPage) :=
  mjoin (iter_range_run start_vpn end_vpn <$>
    filter (λ p, p.1 < end_vpn) (rs_runs rs)).

Definition rs_into_frames (rs : ResidentSet) : list FrameTracker :=
  rp_frame <$> rs_iter rs.

(** ** In-place updates through [lookup_mut] and [iter_mut] *)

Definition rs_update (rs : ResidentSet) (vpn : Z) (f : ResidentPage → ResidentPage)
    : option ResidentSet :=
  match bt_range_le (rs_runs rs) vpn with
  | None => None
  | Some (start, run) =>
      match checked_sub vpn start with
      | None => None
      | Some offset =>
          match run !! Z.to_nat offset with
          | None => None
          | Some page =>
              Some (mkRS (bt_insert (rs_runs rs) start (<[Z.to_nat offset := f page]> run))
                         (rs_count rs))
          end
      end
  end.

Definition rs_map_pages (f : ResidentPage → ResidentPage) (rs : ResidentSet) : ResidentSet :=
  mkRS ((λ p : Z * list ResidentPage, (p.1, f <$> p.2)) <$> rs_runs rs) (rs_count rs).

(** ** Insertion *)

(** [coalesce_adjacent] *)
Definition rs_coalesce_adjacent (runs : bmap (list ResidentPage)) (start_vpn : Z)
    : bmap (list ResidentPage) :=
  match bt_get runs start_vpn with
  | None => runs
  | Some run0 =>
      let runs := bt_remove runs start_vpn in
      let '(runs, run, key) :=
        match bt_range_lt runs start_vpn with
        | Some (left_start, lrun) =>
            if bool_decide (sat_add left_start (zlen lrun) = start_vpn)
            then (bt_remove runs left_start, lrun ++ run0, left_start)
            else (runs, run0, start_vpn)
        | None => (runs, run0, start_vpn)
        end in
      let right_start := sat_add key (zlen run) in
      match bt_get runs right_start with
      | Some rrun => bt_insert (bt_remove runs right_start) key (run ++ rrun)
      | None => bt_insert runs key run
      end
  end.

(** [pages.iter().enumerate().any(|(offset, _)| self.lookup(..).is_some())] *)
Definition rs_overlaps (rs : ResidentSet) (start_vpn : Z) (n : nat) : bool :=
  existsb (λ offset, bool_decide (is_Some (rs_lookup rs (sat_add start_vpn (Z.of_nat offset)))))
    (seq 0 n).

(** [insert_run_pages] *)
Definition rs_insert_run_pages (rs : ResidentSet) (start_vpn : Z) (pages : list ResidentPage)
    : ResidentSet * result unit (list ResidentPage) :=
  if bool_decide (pages = []) || rs_overlaps rs start_vpn (length pages)
  then (rs, Err pages)
  else
    (mkRS (rs_coalesce_adjacent (bt_insert (rs_runs rs) start_vpn pages) start_vpn)
          (sat_add (rs_count rs) (zlen pages)), Ok tt).

(** [insert_run_pages(..).unwrap_or_else(|_| unreachable!(..))] *)
Definition rs_insert_unwrap (rs : ResidentSet) (start_vpn : Z) (pages : list ResidentPage)
    : outcome ResidentSet :=
  match rs_insert_run_pages rs start_vpn pages with
  | (rs', Ok _) => Ret rs'
  | (_, Err _) => Panic
  end.

(** [insert_page]: one page; the error returns it to the caller. *)
Definition rs_insert_page (rs : ResidentSet) (page : ResidentPage) (vpn : Z)
    : outcome (ResidentSet * result unit ResidentPage) :=
  match rs_insert_run_pages rs vpn [page] with
  | (rs', Ok _) => Ret (rs', Ok tt)
  | (rs', Err pages) =>
      match last pages with
      | Some p => Ret (rs', Err p)
      | None => Panic
      end
  end.

(** [insert] *)
Definition rs_insert (rs : ResidentSet) (vpn : Z) (page : FrameTracker)
    : outcome (ResidentSet * result unit FrameTracker) :=
  match rs_lookup rs vpn with
  | Some _ => Ret (rs, Err page)
  | None =>
      r ←! rs_insert_page rs (resident_page_new page) vpn;
      match r with
      | (rs', Ok _) => Ret (rs', Ok tt)
      | (_, Err _) => Panic
      end
  end.

(** [insert_page_with_state] *)
Definition rs_insert_page_with_state (rs : ResidentSet) (vpn : Z) (page : ResidentPage)
    : outcome (ResidentSet * result unit FrameTracker) :=
  r ←! rs_insert_page rs page vpn;
  match r with
  | (rs', Ok _) => Ret (rs', Ok tt)
  | (rs', Err p) => Ret (rs', Err (rp_frame p))
  end.

(** [insert_run] *)
Definition rs_insert_run (rs : ResidentSet) (start_vpn : Z) (pages : list FrameTracker)
    : outcome (ResidentSet * result unit (list FrameTracker)) :=
  if rs_overlaps rs start_vpn (length pages) then Ret (rs, Err pages)
  else
    rs' ←! rs_insert_unwrap rs start_vpn (resident_page_new <$> pages);
    Ret (rs', Ok tt).

(** [insert_run_with_state] *)
Definition rs_insert_run_with_state (rs : ResidentSet) (start_vpn : Z)
    (pages : list FrameTracker) (state : PageState)
    : ResidentSet * result unit (list FrameTracker) :=
  if rs_overlaps rs start_vpn (length pages) then (rs, Err pages)
  else
    match rs_insert_run_pages rs start_vpn ((λ p, mkPage p state) <$> pages) with
    | (rs', Ok _) => (rs', Ok tt)
    | (rs', Err ps) => (rs', Err (rp_frame <$> ps))
    end.

(** ** Extraction, splitting and merging *)

(** One iteration of the loop of [extract_range] over the old runs. *)
Definition extract_step (start_vpn end_vpn : Z) (self extracted : ResidentSet)
    (run_start : Z) (pages : list ResidentPage) : outcome (ResidentSet * ResidentSet) :=
  let run_end := sat_add run_start (zlen pages) in
  let overlap_start := Z.max start_vpn run_start in
  let overlap_end := Z.min end_vpn run_end in
  if bool_decide (overlap_end ≤ overlap_start) then
    self' ←! rs_insert_unwrap self run_start pages;
    Ret (self', extracted)
  else
    let left_len := Z.to_nat (overlap_start - run_start) in
    self1 ←! (if bool_decide (left_len = 0%nat) then Ret self
              else rs_insert_unwrap self run_start (take left_len pages));
    let pages := drop left_len pages in
    let middle_len := Z.to_nat (overlap_end - overlap_start) in
    extracted' ←! rs_insert_unwrap extracted (overlap_start - start_vpn) (take middle_len pages);
    let pages := drop middle_len pages in
    self2 ←! (if bool_decide (pages = []) then Ret self1
              else rs_insert_unwrap self1 overlap_end pages);
    Ret (self2, extracted').

Fixpoint extract_loop (start_vpn end_vpn : Z) (self extracted : ResidentSet)
    (old_runs : bmap (list ResidentPage)) : outcome (ResidentSet * ResidentSet) :=
  match old_runs with
  | [] => Ret (self, extracted)
  | (run_start, pages) :: rest =>
      r ←! extract_step start_vpn end_vpn self extracted run_start pages;
      extract_loop start_vpn end_vpn r.1 r.2 rest
  end.

(** [extract_range]: the set that remains and the extracted set, if any. *)
Definition rs_extract_range (rs : ResidentSet) (start_vpn end_vpn : Z)
    : outcome (ResidentSet * option ResidentSet) :=
  if bool_decide (end_vpn < start_vpn) then Ret (rs, None)
  else
    r ←! extract_loop start_vpn end_vpn (mkRS [] 0) rs_new (rs_runs rs);
    Ret (r.1, Some r.2).

(** [drain_all]: the emptied set and the old content. *)
Definition rs_drain_all (rs : ResidentSet) : ResidentSet * ResidentSet :=
  (mkRS [] 0, rs).

(** End of the last run, [next_back().map(|(start, run)| start + len)]. *)
Definition rs_last_end (rs : ResidentSet) : option Z :=
  (λ p : Z * list ResidentPage, sat_add p.1 (zlen p.2)) <$> last (rs_runs rs).

(** [split_off] *)
Definition rs_split_off (rs : ResidentSet) (vpn : Z)
    : outcome (ResidentSet * option ResidentSet) :=
  if bool_decide (vpn = 0) then
    let '(rs', all) := rs_drain_all rs in Ret (rs', Some all)
  else
    rs_extract_range rs vpn (Z.max (default vpn (rs_last_end rs)) vpn).

Fixpoint merge_loop (offset : Z) (self : ResidentSet) (runs : bmap (list ResidentPage))
    : outcome ResidentSet :=
  match runs with
  | [] => Ret self
  | (start, run) :: rest =>
      self' ←! rs_insert_unwrap self (sat_add start offset) run;
      merge_loop offset self' rest
  end.

(** [merge_from_at]: [other] is emptied. *)
Definition rs_merge_from_at (rs : ResidentSet) (offset : Z) (other : ResidentSet)
    : outcome (ResidentSet * ResidentSet) :=
  self ←! merge_loop offset rs (rs_runs other);
  Ret (self, mkRS [] 0).

(** [merge_from] *)
Definition rs_merge_from (rs other : ResidentSet) : outcome ResidentSet :=
  r ←! rs_merge_from_at rs (default 0 (rs_last_end rs)) other;
  Ret r.1.

(** [replace_all]: the old content is returned; the result of the insertion is
    discarded. *)
Definition rs_replace_all (rs : ResidentSet) (pages : list FrameTracker)
    : outcome (ResidentSet * ResidentSet) :=
  let '(rs', old) := rs_drain_all rs in
  r ←! rs_insert_run rs' 0 pages;
  Ret (r.1, old).

(** ** Abstraction and invariant *)

(** The finite map a list of runs denotes. *)
Definition rmap_runs (l : bmap (list ResidentPage)) : gmap Z ResidentPage :=
  foldr (λ p m, map_seqZ p.1 p.2 ∪ m) ∅ l.

Definition rmap (rs : ResidentSet) : gmap Z ResidentPage := rmap_runs (rs_runs rs).

(** Consecutive runs are separated by a hole. *)
Definition run_gap (p q : Z * list ResidentPage) : Prop := p.1 + zlen p.2 < q.1.

Definition run_ok (p : Z * list ResidentPage) : Prop :=
  0 ≤ p.1 ∧ p.2 ≠ [] ∧ p.1 + zlen p.2 ≤ USIZE_MAX.

Definition runs_wf (l : bmap (list ResidentPage)) : Prop :=
  StronglySorted run_gap l ∧ Forall run_ok l.

Definition runs_total (l : bmap (list ResidentPage)) : Z :=
  foldr (λ p n, zlen p.2 + n) 0 l.

Definition rs_wf (rs : ResidentSet) : Prop :=
  runs_wf (rs_runs rs) ∧ rs_count rs = runs_total (rs_runs rs).

(** ** Runs as finite maps *)

Lemma rmap_runs_app l1 l2 : rmap_runs (l1 ++ l2) = rmap_runs l1 ∪ rmap_runs l2.
Proof.
  unfold rmap_runs. induction l1 as [|p l1 IH]; simpl; [by rewrite map_empty_union|].
  by rewrite IH, map_union_assoc.
Qed.

Lemma rmap_runs_None l v :
  rmap_runs l !! v = None ↔ ∀ s ps, (s, ps) ∈ l → v < s ∨ s + zlen ps ≤ v.
Proof.
  unfold rmap_runs, zlen. induction l as [|[s ps] l IH]; simpl.
  { split; [by intros _ s ps ?%not_elem_of_nil|done]. }
  rewrite lookup_union_None, IH, lookup_map_seqZ_None. simpl. split.
  - intros [??] s' ps' [[= -> ->]|?]%elem_of_cons; [lia|eauto].
  - intros Hall. split; [|intros; apply Hall; by right].
    specialize (Hall s ps ltac:(by left)). lia.
Qed.

Lemma run_gap_trans_ok p q r : run_gap p q → run_ok q → run_gap q r → run_gap p r.
Proof. unfold run_gap, run_ok. pose proof (zlen_nonneg (p.2)). pose proof (zlen_nonneg (q.2)). lia. Qed.

Lemma runs_wf_nil : runs_wf [].
Proof. split; constructor. Qed.

Lemma runs_wf_app l1 l2 :
  runs_wf (l1 ++ l2) ↔
  runs_wf l1 ∧ runs_wf l2 ∧ (∀ p q, p ∈ l1 → q ∈ l2 → run_gap p q).
Proof. unfold runs_wf. rewrite StronglySorted_app, Forall_app. naive_solver. Qed.

Lemma runs_wf_cons p l :
  runs_wf (p :: l) ↔ run_ok p ∧ runs_wf l ∧ (∀ q, q ∈ l → run_gap p q).
Proof.
  unfold runs_wf. rewrite StronglySorted_cons, Forall_cons, (Forall_forall (run_gap p)).
  naive_solver.
Qed.

Lemma runs_wf_snoc p l :
  runs_wf (l ++ [p]) ↔ run_ok p ∧ runs_wf l ∧ (∀ q, q ∈ l → run_gap q p).
Proof.
  rewrite runs_wf_app, runs_wf_cons. split.
  - intros (?&(?&?&?)&Hx). split; [done|]. split; [done|].
    intros; apply Hx; [done|by left].
  - intros (?&?&Hx). split; [done|]. split.
    + split; [done|]. split; [apply runs_wf_nil|by intros ? ?%not_elem_of_nil].
    + by intros p' q ? ->%list_elem_of_singleton; apply Hx.
Qed.

Lemma run_ok_len p : run_ok p → 0 < zlen p.2.
Proof. intros (?&?%zlen_pos&?). done. Qed.

Lemma runs_wf_sorted l : runs_wf l → bt_sorted l.
Proof.
  intros [Hs Hok]. induction Hs as [|p l Hs IH Hf]; [constructor|].
  apply Forall_cons in Hok as [Hp Hok]. constructor; [by apply IH|].
  eapply Forall_impl; [exact Hf|]. unfold run_gap. intros q ?.
  pose proof (zlen_nonneg p.2). lia.
Qed.

Lemma runs_wf_elem l s ps : runs_wf l → (s, ps) ∈ l → run_ok (s, ps).
Proof. intros [_ Hok] ?. rewrite Forall_forall in Hok. by apply Hok. Qed.

(** A run's key is resident. *)
Lemma runs_wf_key_resident l s ps :
  runs_wf l → (s, ps) ∈ l → rmap_runs l !! s ≠ None.
Proof.
  intros Hwf Hin Hn. rewrite rmap_runs_None in Hn. specialize (Hn _ _ Hin).
  pose proof (run_ok_len _ (runs_wf_elem _ _ _ Hwf Hin)). simpl in *. lia.
Qed.

Lemma rmap_runs_disjoint l1 l2 : runs_wf (l1 ++ l2) → rmap_runs l1 ##ₘ rmap_runs l2.
Proof.
  intros (_&_&Hx)%runs_wf_app. apply map_disjoint_spec.
  intros v x y Hx1 Hx2.
  destruct (decide (rmap_runs l1 !! v = None)) as [|H1]; [congruence|].
  destruct (decide (rmap_runs l2 !! v = None)) as [|H2]; [congruence|].
  rewrite rmap_runs_None in H1, H2.
  apply H1. intros s1 ps1 Hin1. destruct (decide (v < s1 ∨ s1 + zlen ps1 ≤ v)); [done|].
  exfalso. apply H2. intros s2 ps2 Hin2.
  specialize (Hx _ _ Hin1 Hin2). unfold run_gap in Hx. simpl in Hx. lia.
Qed.

(** The run covering a page, when there is one, is the last that starts at or
    before it. *)
Lemma rs_lookup_split l1 l2 s ps v n :
  runs_wf (l1 ++ (s, ps) :: l2) → s ≤ v → keys_gt v l2 →
  rmap_runs (l1 ++ (s, ps) :: l2) !! v = ps !! Z.to_nat (v - s) ∧
  rs_lookup (mkRS (l1 ++ (s, ps) :: l2) n) v = ps !! Z.to_nat (v - s).
Proof.
  intros Hwf Hs Hgt. pose proof (runs_wf_sorted _ Hwf) as Hsort.
  apply bt_sorted_middle in Hsort as (?&?&Hlt&?&?).
  assert (Hn2 : rmap_runs l2 !! v = None).
  { apply rmap_runs_None. intros s' ps' ?. left.
    unfold keys_gt in Hgt. rewrite Forall_forall in Hgt. by apply (Hgt (s', ps')). }
  assert (Hn1 : rmap_runs l1 !! v = None).
  { apply rmap_runs_None. intros s' ps' ?. right.
    apply runs_wf_app in Hwf as (_&_&Hx).
    specialize (Hx (s', ps') (s, ps) ltac:(done) ltac:(by left)).
    unfold run_gap in Hx; simpl in Hx. lia. }
  split.
  - rewrite rmap_runs_app. simpl. rewrite lookup_union_r by done.
    rewrite lookup_union_l by done. rewrite lookup_map_seqZ.
    by rewrite option_guard_True.
  - unfold rs_lookup. simpl. rewrite bt_range_le_lt.
    replace (l1 ++ (s, ps) :: l2) with ((l1 ++ [(s, ps)]) ++ l2) by (by rewrite <-app_assoc).
    rewrite bt_range_lt_split.
    + rewrite last_snoc. unfold checked_sub. by rewrite bool_decide_eq_true_2.
    + apply Forall_app. split; [|repeat constructor; simpl; lia].
      eapply Forall_impl; [exact Hlt|]. simpl; intros; lia.
    + eapply Forall_impl; [exact Hgt|]. simpl; intros; lia.
Qed.

Lemma rs_lookup_before l v n :
  runs_wf l → keys_gt v l →
  rmap_runs l !! v = None ∧ rs_lookup (mkRS l n) v = None.
Proof.
  intros Hwf Hgt. split.
  - apply rmap_runs_None. intros s ps ?. left.
    unfold keys_gt in Hgt. rewrite Forall_forall in Hgt. by apply (Hgt (s, ps)).
  - unfold rs_lookup. simpl. rewrite bt_range_le_lt.
    rewrite <-(app_nil_l l). rewrite bt_range_lt_split; [done|constructor|].
    eapply Forall_impl; [exact Hgt|]. simpl; intros; lia.
Qed.

(** [lookup] computes the finite map. *)
Lemma rs_lookup_rmap rs v : rs_wf rs → rs_lookup rs v = rmap rs !! v.
Proof.
  destruct rs as [l n]. intros [Hwf _]. simpl in Hwf. unfold rmap. simpl.
  destruct (bt_split l (v + 1) (runs_wf_sorted _ Hwf)) as (l1&l2&->&Hlt&Hge).
  assert (keys_gt v l2).
  { eapply Forall_impl; [exact Hge|]. simpl; intros; lia. }
  destruct l1 as [|[s ps] l1] using rev_ind.
  - simpl in *. by destruct (rs_lookup_before l2 v n) as [-> ->].
  - clear IHl1. rewrite <-app_assoc in *. simpl in *.
    apply Forall_app in Hlt as [_ [Hs _]%Forall_cons]. simpl in Hs.
    assert (s ≤ v) by lia.
    by destruct (rs_lookup_split l1 l2 s ps v n) as [-> ->].
Qed.

(** ** Insertion keeps the canonical form *)

Lemma runs_total_app l1 l2 : runs_total (l1 ++ l2) = runs_total l1 + runs_total l2.
Proof. unfold runs_total. induction l1; simpl; lia. Qed.

(** The part of a canonical run list left of a free range ends at or before it. *)
Lemma free_range_left l1 s n :
  keys_lt s l1 → 0 < n → (∀ v, s ≤ v < s + n → rmap_runs l1 !! v = None) →
  ∀ p, p ∈ l1 → p.1 + zlen p.2 ≤ s.
Proof.
  intros Hlt Hn Hfree [ls lp] Hin. unfold keys_lt in Hlt. rewrite Forall_forall in Hlt.
  specialize (Hlt _ Hin). specialize (Hfree s ltac:(lia)).
  rewrite rmap_runs_None in Hfree. specialize (Hfree _ _ Hin). simpl in *. lia.
Qed.

(** The part right of it starts at or after its end. *)
Lemma free_range_right l2 s n :
  runs_wf l2 → keys_ge s l2 → (∀ v, s ≤ v < s + n → rmap_runs l2 !! v = None) →
  ∀ q, q ∈ l2 → s + n ≤ q.1.
Proof.
  intros Hwf Hge Hfree [rs rp] Hin. unfold keys_ge in Hge. rewrite Forall_forall in Hge.
  specialize (Hge _ Hin). simpl in *. destruct (decide (rs < s + n)); [|lia].
  exfalso. eapply runs_wf_key_resident; [done..|]. apply Hfree. lia.
Qed.

(** The merge with the left neighbour. *)
Lemma coalesce_left l1 l2 s (ps : list ResidentPage) :
  runs_wf l1 → keys_lt s l1 → keys_ge s l2 → run_ok (s, ps) →
  (∀ p, p ∈ l1 → p.1 + zlen p.2 ≤ s) →
  ∃ l1' run key,
    match bt_range_lt (l1 ++ l2) s with
    | Some (left_start, lrun) =>
        if bool_decide (sat_add left_start (zlen lrun) = s)
        then (bt_remove (l1 ++ l2) left_start, lrun ++ ps, left_start)
        else (l1 ++ l2, ps, s)
    | None => (l1 ++ l2, ps, s)
    end = (l1' ++ l2, run, key) ∧
    runs_wf (l1' ++ [(key, run)]) ∧ key + zlen run = s + zlen ps ∧ key ≤ s ∧
    rmap_runs (l1' ++ [(key, run)]) = rmap_runs (l1 ++ [(s, ps)]) ∧
    runs_total (l1' ++ [(key, run)]) = runs_total (l1 ++ [(s, ps)]).
Proof.
  intros Hwf Hlt Hge Hok Hend. rewrite bt_range_lt_split by done.
  destruct l1 as [|[ls lp] l1 _] using rev_ind.
  - exists [], ps, s. split_and!; [done| |lia|lia|done..].
    apply (runs_wf_snoc _ []). split; [done|]. split; [apply runs_wf_nil|].
    by intros ? ?%not_elem_of_nil.
  - rewrite last_snoc. pose proof (Hend (ls, lp) ltac:(apply elem_of_app; right; by left)) as He.
    simpl in He. pose proof Hwf as (Hlok&Hwf1&Hgap)%runs_wf_snoc.
    assert (sat_add ls (zlen lp) = ls + zlen lp) as ->.
    { apply sat_add_exact. destruct Hlok as (?&?&?). done. }
    case_bool_decide as Hadj.
    + exists l1, (lp ++ ps), ls. rewrite <-app_assoc. simpl.
      assert (Hls : keys_lt ls l1).
      { apply runs_wf_sorted, bt_sorted_middle in Hwf as (_&_&?&_); done. }
      rewrite bt_remove_found by done.
      destruct Hlok as (?&?&?), Hok as (?&?&?). simpl in *.
      split_and!; [done| | | | |].
      * apply runs_wf_snoc. split_and!; [|done|].
        -- unfold run_ok; simpl; rewrite zlen_app. split_and!; [lia|by destruct lp|lia].
        -- intros q ?. by apply (Hgap q).
      * rewrite zlen_app. lia.
      * pose proof (zlen_nonneg lp). lia.
      * rewrite !rmap_runs_app. simpl. rewrite map_seqZ_app.
        replace (ls + Z.of_nat (length lp)) with s by (unfold zlen in *; lia).
        by rewrite !map_union_empty, map_union_assoc.
      * rewrite !runs_total_app. simpl. rewrite zlen_app. lia.
    + exists (l1 ++ [(ls, lp)]), ps, s. split_and!; [done| |lia|lia|done..].
      apply runs_wf_snoc. split; [done|]. split; [done|].
      intros q Hq. specialize (Hend q Hq). unfold run_gap. simpl.
      apply elem_of_app in Hq as [Hq| ->%list_elem_of_singleton]; [|simpl in *; lia].
      specialize (Hgap q Hq). unfold run_gap in Hgap. simpl in *.
      pose proof (run_ok_len _ Hlok). simpl in *. lia.
Qed.

(** The merge with the right neighbour and the final insertion. *)
Lemma coalesce_right l1 l2 key (run : list ResidentPage) :
  runs_wf (l1 ++ [(key, run)]) → runs_wf l2 →
  (∀ q, q ∈ l2 → key + zlen run ≤ q.1) →
  let res := match bt_get (l1 ++ l2) (sat_add key (zlen run)) with
             | Some rrun => bt_insert (bt_remove (l1 ++ l2) (sat_add key (zlen run)))
                              key (run ++ rrun)
             | None => bt_insert (l1 ++ l2) key run
             end in
  runs_wf res ∧ rmap_runs res = rmap_runs (l1 ++ [(key, run)]) ∪ rmap_runs l2 ∧
  runs_total res = runs_total (l1 ++ [(key, run)]) + runs_total l2.
Proof.
  intros Hwf1 Hwf2 Hge res. pose proof Hwf1 as (Hok&Hwf1'&Hgap)%runs_wf_snoc.
  pose proof (run_ok_len _ Hok) as Hpos. simpl in Hpos.
  assert (Hlt : ∀ p, p ∈ l1 → p.1 < key).
  { intros p Hp. specialize (Hgap p Hp). unfold run_gap in Hgap. simpl in Hgap.
    pose proof (zlen_nonneg p.2). lia. }
  assert (Hsat : sat_add key (zlen run) = key + zlen run).
  { apply sat_add_exact. destruct Hok as (?&?&?). done. }
  subst res. rewrite Hsat.
  assert (keys_lt key l1) by (by apply Forall_forall).
  assert (keys_lt (key + zlen run) l1).
  { apply Forall_forall. intros p Hp. specialize (Hlt p Hp). lia. }
  assert (Hge2 : keys_ge (key + zlen run) l2) by (by apply Forall_forall).
  destruct (keys_ge_inv _ _ (runs_wf_sorted _ Hwf2) Hge2) as [(rrun&l2'&->&Hgt)|Hgt].
  - rewrite bt_get_found, bt_remove_found by done.
    assert (keys_gt key l2') by (eapply Forall_impl; [exact Hgt|]; simpl; intros; lia).
    rewrite bt_insert_fresh by done.
    apply runs_wf_cons in Hwf2 as (Hrok&Hwf2&Hrgap).
    assert (Hok' : run_ok (key, run ++ rrun)).
    { destruct Hok as (?&?&?), Hrok as (?&?&?). unfold run_ok. simpl in *.
      rewrite zlen_app. split_and!; [done|by destruct run|lia]. }
    split_and!.
    + apply runs_wf_app. split; [done|]. split.
      * apply runs_wf_cons. split; [done|]. split; [done|].
        intros q Hq. specialize (Hrgap q Hq). unfold run_gap in *. simpl in *.
        rewrite zlen_app. lia.
      * intros p q Hp [->|Hq]%elem_of_cons; [by apply (Hgap p)|].
        specialize (Hgap p Hp). unfold keys_gt in *. rewrite !Forall_forall in *.
        unfold run_gap in *. simpl in *. specialize (Hgt q Hq). lia.
    + rewrite !rmap_runs_app. simpl. rewrite map_seqZ_app, map_union_empty.
      unfold zlen. by rewrite !map_union_assoc.
    + rewrite !runs_total_app. simpl. rewrite zlen_app. lia.
  - assert (keys_gt key l2) by (eapply Forall_impl; [exact Hgt|]; simpl; intros; lia).
    rewrite bt_get_absent, bt_insert_fresh by done. split_and!.
    + apply runs_wf_app. split; [done|]. split.
      * apply runs_wf_cons. split; [done|]. split; [done|].
        intros q Hq. unfold keys_gt in *. rewrite !Forall_forall in *.
        unfold run_gap. simpl in *. by apply (Hgt q).
      * intros p q Hp [->|Hq]%elem_of_cons; [by apply (Hgap p)|].
        specialize (Hgap p Hp). unfold keys_gt in *. rewrite !Forall_forall in *.
        unfold run_gap in *. simpl in *. specialize (Hgt q Hq). lia.
    + rewrite !rmap_runs_app. simpl. by rewrite map_union_empty, map_union_assoc.
    + rewrite !runs_total_app. simpl. lia.
Qed.

(** Inserting a run into a free range of a canonical run list. *)
Lemma coalesce_insert l s (ps : list ResidentPage) :
  runs_wf l → run_ok (s, ps) →
  (∀ v, s ≤ v < s + zlen ps → rmap_runs l !! v = None) →
  let res := rs_coalesce_adjacent (bt_insert l s ps) s in
  runs_wf res ∧ rmap_runs res = map_seqZ s ps ∪ rmap_runs l ∧
  runs_total res = zlen ps + runs_total l.
Proof.
  intros Hwf Hok Hfree res.
  destruct (bt_split l s (runs_wf_sorted _ Hwf)) as (l1&l2&->&Hlt&Hge).
  pose proof (run_ok_len _ Hok) as Hpos. simpl in Hpos.
  pose proof Hwf as (Hwf1&Hwf2&Hx)%runs_wf_app.
  assert (Hfree1 : ∀ v, s ≤ v < s + zlen ps → rmap_runs l1 !! v = None).
  { intros v Hv. specialize (Hfree v Hv). rewrite rmap_runs_app in Hfree.
    by apply lookup_union_None in Hfree as [? ?]. }
  assert (Hfree2 : ∀ v, s ≤ v < s + zlen ps → rmap_runs l2 !! v = None).
  { intros v Hv. specialize (Hfree v Hv). rewrite rmap_runs_app in Hfree.
    by apply lookup_union_None in Hfree as [? ?]. }
  pose proof (free_range_left _ _ _ Hlt Hpos Hfree1) as Hl.
  pose proof (free_range_right _ _ _ Hwf2 Hge Hfree2) as Hr.
  assert (keys_gt s l2).
  { apply Forall_forall. intros q Hq. specialize (Hr q Hq). lia. }
  subst res. unfold rs_coalesce_adjacent.
  rewrite bt_insert_fresh, bt_get_found, bt_remove_found by done.
  destruct (coalesce_left l1 l2 s ps) as (l1'&run&key&->&Hwf'&Hend&Hle&Hrm&Htot); [done..|].
  destruct (coalesce_right l1' l2 key run) as (?&Hrm'&Htot'); [done..| |].
  { intros q Hq. rewrite Hend. by apply Hr. }
  split_and!; [done| |].
  - rewrite Hrm', Hrm, !rmap_runs_app. simpl. rewrite map_union_empty.
    rewrite (map_union_comm (rmap_runs l1)); [by rewrite map_union_assoc|].
    apply map_disjoint_spec. intros v x y Hx1 (?&Hx2)%lookup_map_seqZ_Some.
    apply lookup_lt_Some in Hx2. rewrite Hfree1 in Hx1; [done|]. unfold zlen. lia.
  - rewrite Htot', Htot, !runs_total_app. simpl. lia.
Qed.

Lemma runs_total_bound l b :
  runs_wf l → 0 ≤ b ≤ USIZE_MAX → keys_ge b l → 0 ≤ runs_total l ≤ USIZE_MAX - b.
Proof.
  revert b. induction l as [|[s ps] l IH]; intros b Hwf Hb Hge; simpl; [lia|].
  apply runs_wf_cons in Hwf as (Hok&Hwf&Hgap). apply Forall_cons in Hge as [? _].
  destruct Hok as (?&?&?). simpl in *. pose proof (zlen_nonneg ps).
  assert (0 ≤ runs_total l ≤ USIZE_MAX - (s + zlen ps)); [|lia].
  apply IH; [done|lia|]. apply Forall_forall. intros q Hq.
  specialize (Hgap q Hq). unfold run_gap in Hgap. simpl in Hgap. lia.
Qed.

Lemma runs_total_usize l : runs_wf l → 0 ≤ runs_total l ≤ USIZE_MAX.
Proof.
  intros Hwf. pose proof (runs_total_bound l 0 Hwf) as H.
  rewrite Z.sub_0_r in H. apply H; [unfold USIZE_MAX; lia|].
  apply Forall_forall. intros [s ps] Hin. by destruct (runs_wf_elem _ _ _ Hwf Hin).
Qed.

(** The cached count is the number of resident pages. *)
Lemma runs_total_size l : runs_wf l → runs_total l = Z.of_nat (size (rmap_runs l)).
Proof.
  induction l as [|[s ps] l IH]; intros Hwf; simpl; [by rewrite map_size_empty|].
  pose proof (rmap_runs_disjoint [(s, ps)] l Hwf) as Hd. simpl in Hd.
  rewrite map_union_empty in Hd. rewrite map_size_disj_union by done.
  apply runs_wf_cons in Hwf as (_&Hwf&_). rewrite (IH Hwf).
  unfold zlen. assert (size (map_seqZ s ps : gmap Z ResidentPage) = length ps) as ->; [|lia].
  clear. revert s. induction ps as [|x ps IHp]; intros s; simpl; [apply map_size_empty|].
  rewrite map_size_insert_None, IHp; [done|]. apply map_seqZ_cons_disjoint.
Qed.

Lemma rs_overlaps_spec rs s n :
  rs_wf rs → s + Z.of_nat n ≤ USIZE_MAX →
  rs_overlaps rs s n = false ↔ (∀ v, s ≤ v < s + Z.of_nat n → rmap rs !! v = None).
Proof.
  intros Hwf Hs. unfold rs_overlaps. rewrite <-not_true_iff_false, existsb_exists. split.
  - intros Hno v Hv. destruct (rmap rs !! v) eqn:E; [|done]. exfalso. apply Hno.
    exists (Z.to_nat (v - s)). split; [apply in_seq; lia|].
    apply bool_decide_eq_true_2. rewrite rs_lookup_rmap by done.
    rewrite sat_add_exact by lia. replace (s + Z.of_nat (Z.to_nat (v - s))) with v by lia.
    by rewrite E.
  - intros Hfree (i&Hi%in_seq&Hx). apply bool_decide_eq_true_1 in Hx.
    rewrite rs_lookup_rmap, sat_add_exact in Hx by (done || lia).
    rewrite Hfree in Hx by lia. by destruct Hx.
Qed.

Lemma rs_insert_run_pages_ok rs s ps :
  rs_wf rs → run_ok (s, ps) →
  (∀ v, s ≤ v < s + zlen ps → rmap rs !! v = None) →
  ∃ rs', rs_insert_run_pages rs s ps = (rs', Ok tt) ∧ rs_wf rs' ∧
         rmap rs' = map_seqZ s ps ∪ rmap rs.
Proof.
  intros [Hwf Hc] Hok Hfree. pose proof Hok as (?&?&?). simpl in *.
  destruct (coalesce_insert (rs_runs rs) s ps) as (Hwf'&Hrm&Htot); [done..|].
  unfold rs_insert_run_pages. rewrite bool_decide_eq_false_2 by done.
  rewrite (proj2 (rs_overlaps_spec rs s (length ps) (conj Hwf Hc) ltac:(done))) by done.
  simpl. eexists. split; [done|]. split; [|done]. split; [done|]. simpl.
  rewrite Htot, Hc. rewrite sat_add_exact; [lia|].
  pose proof (runs_total_usize _ Hwf'). lia.
Qed.

(** A rejected insertion leaves the set unchanged and returns the pages. *)
Lemma rs_insert_run_pages_err rs s ps v :
  rs_wf rs → s + zlen ps ≤ USIZE_MAX → s ≤ v < s + zlen ps → is_Some (rmap rs !! v) →
  rs_insert_run_pages rs s ps = (rs, Err ps).
Proof.
  intros Hwf Hs Hv [x Hx]. unfold rs_insert_run_pages.
  destruct (rs_overlaps rs s (length ps)) eqn:E; [by rewrite orb_true_r|].
  rewrite rs_overlaps_spec in E by done. specialize (E v Hv). congruence.
Qed.

Lemma rs_insert_unwrap_ok rs s ps :
  rs_wf rs → run_ok (s, ps) →
  (∀ v, s ≤ v < s + zlen ps → rmap rs !! v = None) →
  ∃ rs', rs_insert_unwrap rs s ps = Ret rs' ∧ rs_wf rs' ∧
         rmap rs' = map_seqZ s ps ∪ rmap rs.
Proof.
  intros Hwf Hok Hfree. unfold rs_insert_unwrap.
  destruct (rs_insert_run_pages_ok rs s ps) as (rs'&->&?&?); [done..|]. eauto.
Qed.

Lemma rs_wf_new : rs_wf rs_new.
Proof. split; [apply runs_wf_nil|done]. Qed.

Lemma rmap_new : rmap rs_new = ∅.
Proof. done. Qed.

Lemma rs_len_size rs : rs_wf rs → rs_len rs = Z.of_nat (size (rmap rs)).
Proof. intros [Hwf Hc]. unfold rs_len, rmap. rewrite Hc. by apply runs_total_size. Qed.

Lemma rs_is_empty_rmap rs : rs_wf rs → rs_is_empty rs = true ↔ rmap rs = ∅.
Proof.
  intros Hwf. unfold rs_is_empty. rewrite bool_decide_eq_true.
  change (rs_count rs) with (rs_len rs). rewrite rs_len_size by done.
  rewrite <-map_size_empty_iff. lia.
Qed.

(** Resident page numbers are bounded. *)
Lemma rmap_bounds rs v p : rs_wf rs → rmap rs !! v = Some p → 0 ≤ v < USIZE_MAX.
Proof.
  intros [Hwf _] Hv. destruct (decide (0 ≤ v < USIZE_MAX)); [done|].
  assert (rmap rs !! v = None); [|congruence]. apply rmap_runs_None.
  intros s ps Hin. destruct (runs_wf_elem _ _ _ Hwf Hin) as (?&?&?). simpl in *. lia.
Qed.

Lemma run_ok_singleton v p : 0 ≤ v < USIZE_MAX → run_ok (v, [p]).
Proof. intros. unfold run_ok. simpl. unfold zlen. simpl. split_and!; [lia|done|lia]. Qed.

Lemma rs_insert_page_ok rs v p :
  rs_wf rs → 0 ≤ v < USIZE_MAX → rmap rs !! v = None →
  ∃ rs', rs_insert_page rs p v = Ret (rs', Ok tt) ∧ rs_wf rs' ∧
         rmap rs' = <[v := p]> (rmap rs).
Proof.
  intros Hwf Hv Hn. unfold rs_insert_page.
  destruct (rs_insert_run_pages_ok rs v [p]) as (rs'&->&?&Hrm);
    [done|by apply run_ok_singleton| |].
  { intros w Hw. unfold zlen in Hw. simpl in Hw. by replace w with v by lia. }
  exists rs'. split; [done|]. split; [done|].
  rewrite Hrm, map_seqZ_singleton. by rewrite <-insert_union_singleton_l.
Qed.

Lemma rs_insert_page_err rs v p :
  rs_wf rs → v < USIZE_MAX → is_Some (rmap rs !! v) →
  rs_insert_page rs p v = Ret (rs, Err p).
Proof.
  intros Hwf Hv Hx. unfold rs_insert_page.
  rewrite (rs_insert_run_pages_err rs v [p] v); [done|done|..|done]; unfold zlen; simpl; lia.
Qed.

(** ** Extraction *)

Lemma map_seqZ_outside s (ps : list ResidentPage) v :
  v < s ∨ s + zlen ps ≤ v → (map_seqZ s ps : gmap Z ResidentPage) !! v = None.
Proof. unfold zlen. intros. apply lookup_map_seqZ_None. lia. Qed.

Lemma map_seqZ_shift s d (ps : list ResidentPage) v :
  (map_seqZ (s - d) ps : gmap Z ResidentPage) !! v = (map_seqZ s ps : gmap Z _) !! (v + d).
Proof.
  rewrite !lookup_map_seqZ. replace (v + d - s) with (v - (s - d)) by lia.
  repeat case_guard; simpl; (done || lia).
Qed.

(** An insertion the code skips when there is nothing to insert. *)
Lemma rs_insert_optional (b : bool) rs s ps :
  (b = true ↔ ps = []) → rs_wf rs → 0 ≤ s → s + zlen ps ≤ USIZE_MAX →
  (∀ v, s ≤ v < s + zlen ps → rmap rs !! v = None) →
  ∃ rs', (if b then Ret rs else rs_insert_unwrap rs s ps) = Ret rs' ∧ rs_wf rs' ∧
         rmap rs' = map_seqZ s ps ∪ rmap rs.
Proof.
  intros Hb Hwf Hs Hm Hfree. destruct b.
  - destruct Hb as [->%(λ f, f eq_refl) _]. exists rs. split; [done|]. split; [done|].
    simpl. by rewrite map_empty_union.
  - apply rs_insert_unwrap_ok; [done| |done]. unfold run_ok. simpl.
    split_and!; [done| |done]. intros ->. by destruct Hb as [_ ?%(λ f, f eq_refl)].
Qed.

(** A run cut at the two ends of a range. *)
Lemma run_cut (ps : list ResidentPage) a b :
  (a + b ≤ length ps)%nat →
  ps = take a ps ++ take b (drop a ps) ++ drop b (drop a ps) ∧
  length (take a ps) = a ∧ length (take b (drop a ps)) = b.
Proof.
  intros. rewrite !take_drop. split; [done|]. rewrite !length_take, length_drop. lia.
Qed.

Lemma extract_step_ok s e self ext rs0 ps :
  rs_wf self → rs_wf ext → run_ok (rs0, ps) → 0 ≤ s ≤ e →
  (∀ v, rs0 ≤ v → rmap self !! v = None) →
  (∀ v, rs0 ≤ v + s → 0 ≤ v → rmap ext !! v = None) →
  ∃ self' ext', extract_step s e self ext rs0 ps = Ret (self', ext') ∧
    rs_wf self' ∧ rs_wf ext' ∧
    (∀ v, rmap self' !! v = if decide (s ≤ v < e) then rmap self !! v
                            else (map_seqZ rs0 ps ∪ rmap self) !! v) ∧
    (∀ v, rmap ext' !! v = if decide (0 ≤ v < e - s)
                           then union (map_seqZ (M:=gmap Z _) rs0 ps !! (v + s)) (rmap ext !! v)
                           else rmap ext !! v).
Proof.
  intros Hws Hwe Hok Hse Hself Hext. pose proof Hok as (Hr0&Hne&Hmax). simpl in *.
  pose proof (proj1 (zlen_pos ps) Hne) as Hpos.
  unfold extract_step. rewrite sat_add_exact by done.
  case_bool_decide as Hov.
  - destruct (rs_insert_unwrap_ok self rs0 ps) as (self'&->&Hw'&Hrm); [done..| |].
    { intros; apply Hself; lia. }
    exists self', ext. split_and!; [done..| |]; intros v.
    + rewrite Hrm. case_decide; [|done]. rewrite lookup_union_r; [done|].
      apply map_seqZ_outside. lia.
    + case_decide; [|done]. rewrite map_seqZ_outside by lia. by destruct (rmap ext !! v).
  - set (os := Z.max s rs0) in *. set (oe := Z.min e (rs0 + zlen ps)) in *.
    destruct (run_cut ps (Z.to_nat (os - rs0)) (Z.to_nat (oe - os))) as (Hps&HlL&HlM);
      [unfold zlen in *; lia|].
    set (L := take _ ps) in *. set (M := take _ (drop _ ps)) in *.
    set (R := drop _ (drop _ ps)) in *.
    assert (HzL : zlen L = os - rs0) by (unfold zlen; lia).
    assert (HzM : zlen M = oe - os) by (unfold zlen; lia).
    assert (HzR : zlen R = rs0 + zlen ps - oe).
    { rewrite Hps, !zlen_app. lia. }
    assert (Hsplit : (map_seqZ rs0 ps : gmap Z ResidentPage) =
      map_seqZ rs0 L ∪ (map_seqZ os M ∪ map_seqZ oe R)).
    { rewrite Hps, !map_seqZ_app. unfold zlen in *.
      by replace (rs0 + Z.of_nat (length L)) with os by lia;
         replace (os + Z.of_nat (length M)) with oe by lia. }
    destruct (rs_insert_optional (bool_decide (Z.to_nat (os - rs0) = 0%nat)) self rs0 L)
      as (self1&->&Hw1&Hrm1); [|done|lia|lia|intros; apply Hself; lia|].
    { rewrite bool_decide_eq_true, <-HlL. by rewrite length_zero_iff_nil. }
    destruct (rs_insert_unwrap_ok ext (os - s) M) as (ext'&->&Hwe'&Hrme); [done| | |].
    { unfold run_ok. simpl. split_and!; [lia| |lia]. apply zlen_pos. lia. }
    { intros; apply Hext; lia. }
    destruct (rs_insert_optional (bool_decide (R = [])) self1 oe R)
      as (self2&->&Hw2&Hrm2); [by rewrite bool_decide_eq_true|done|lia|lia| |].
    { intros v Hv. rewrite Hrm1. apply lookup_union_None.
      split; [apply map_seqZ_outside; lia|apply Hself; lia]. }
    exists self2, ext'. split_and!; [done..| |]; intros v.
    + rewrite Hrm2, Hrm1, Hsplit. rewrite !lookup_union.
      case_decide.
      * rewrite (map_seqZ_outside oe R), (map_seqZ_outside rs0 L) by lia.
        by rewrite !(left_id_L None union).
      * rewrite (map_seqZ_outside os M), (left_id_L None union) by lia.
        destruct (decide (v < oe)).
        { rewrite (map_seqZ_outside oe R), !(left_id_L None union) by lia.
          by rewrite (right_id_L None union). }
        { by rewrite (map_seqZ_outside rs0 L), !(left_id_L None union) by lia. }
    + rewrite Hrme, lookup_union, map_seqZ_shift. case_decide.
      * rewrite Hsplit, !lookup_union.
        rewrite (map_seqZ_outside rs0 L), (left_id_L None union) by lia.
        rewrite (map_seqZ_outside oe R), (right_id_L None union) by lia. done.
      * rewrite (map_seqZ_outside os M) by lia. by rewrite (left_id_L None union).
Qed.

Lemma extract_loop_ok s e old self ext :
  rs_wf self → rs_wf ext → runs_wf old → 0 ≤ s ≤ e →
  (∀ p v, p ∈ old → p.1 ≤ v → rmap self !! v = None) →
  (∀ p v, p ∈ old → p.1 ≤ v + s → 0 ≤ v → rmap ext !! v = None) →
  ∃ self' ext', extract_loop s e self ext old = Ret (self', ext') ∧
    rs_wf self' ∧ rs_wf ext' ∧
    (∀ v, rmap self' !! v = if decide (s ≤ v < e) then rmap self !! v
                            else (rmap_runs old ∪ rmap self) !! v) ∧
    (∀ v, rmap ext' !! v = if decide (0 ≤ v < e - s)
                           then union (rmap_runs old !! (v + s)) (rmap ext !! v)
                           else rmap ext !! v).
Proof.
  revert self ext. induction old as [|[rs0 ps] old IH]; intros self ext Hws Hwe Hwf Hse Hself Hext.
  { exists self, ext. split_and!; [done..| |]; intros v; case_decide; try done; simpl.
    - by rewrite map_empty_union.
    - rewrite lookup_empty. by rewrite (left_id_L None union). }
  apply runs_wf_cons in Hwf as (Hok&Hwf&Hgap). simpl.
  destruct (extract_step_ok s e self ext rs0 ps) as (self1&ext1&->&Hw1&Hwe1&Hs1&He1); [done..| | |].
  { intros v ?. apply (Hself (rs0, ps)); [by left|done]. }
  { intros v ??. apply (Hext (rs0, ps)); [by left|done..]. }
  simpl. destruct (IH self1 ext1) as (self2&ext2&->&?&?&Hs2&He2); [done..| | |].
  { intros p v Hp Hv. specialize (Hgap p Hp). unfold run_gap in Hgap. simpl in Hgap.
    rewrite Hs1. assert (rmap self !! v = None) as Hn by (apply (Hself p); [by right|done]).
    case_decide; [done|]. apply lookup_union_None. split; [|done].
    apply map_seqZ_outside. lia. }
  { intros p v Hp Hv Hv0. specialize (Hgap p Hp). unfold run_gap in Hgap. simpl in Hgap.
    rewrite He1. assert (rmap ext !! v = None) as Hn by (apply (Hext p); [by right|done..]).
    case_decide; [|done]. rewrite Hn, map_seqZ_outside by lia. done. }
  exists self2, ext2. split_and!; [done..| |]; intros v.
  - rewrite Hs2, Hs1. case_decide; [done|]. rewrite !lookup_union, Hs1.
    rewrite decide_False, lookup_union by done.
    assert (Hd : rmap_runs [(rs0, ps)] ##ₘ rmap_runs old).
    { apply rmap_runs_disjoint. simpl. apply runs_wf_cons. done. }
    simpl in Hd. rewrite map_union_empty in Hd. rewrite map_disjoint_alt in Hd.
    destruct (Hd v) as [-> | ->]; by rewrite ?(left_id_L None union), ?(right_id_L None union).
  - rewrite He2, He1. case_decide; [|done]. rewrite lookup_union.
    assert (Hd : rmap_runs [(rs0, ps)] ##ₘ rmap_runs old).
    { apply rmap_runs_disjoint. simpl. apply runs_wf_cons. done. }
    simpl in Hd. rewrite map_union_empty in Hd. rewrite map_disjoint_alt in Hd.
    destruct (Hd (v + s)) as [-> | ->]; by rewrite ?(left_id_L None union), ?(right_id_L None union).
Qed.

(** Extraction on a canonical set never panics and cuts the content at the range. *)
Lemma rs_extract_range_ok rs s e :
  rs_wf rs → 0 ≤ s ≤ e →
  ∃ rs' ext, rs_extract_range rs s e = Ret (rs', Some ext) ∧ rs_wf rs' ∧ rs_wf ext ∧
    (∀ v, rmap rs' !! v = if decide (s ≤ v < e) then None else rmap rs !! v) ∧
    (∀ v, rmap ext !! v = if decide (0 ≤ v < e - s) then rmap rs !! (v + s) else None).
Proof.
  intros Hwf Hse. unfold rs_extract_range. rewrite bool_decide_eq_false_2 by lia.
  destruct (extract_loop_ok s e (rs_runs rs) (mkRS [] 0) rs_new)
    as (rs'&ext&->&?&?&Hs&He); [apply rs_wf_new..|apply Hwf|done|done|done|].
  exists rs', ext. simpl. split_and!; [done..| |]; intros v.
  - rewrite Hs. change (mkRS [] 0) with rs_new. rewrite rmap_new. case_decide; [done|].
    by rewrite map_union_empty.
  - rewrite He. case_decide; [|done]. rewrite rmap_new, lookup_empty.
    by rewrite (right_id_L None union).
Qed.

Lemma rs_last_end_bound rs v p :
  rs_wf rs → rmap rs !! v = Some p → ∃ e, rs_last_end rs = Some e ∧ v < e.
Proof.
  destruct rs as [l n]. intros [Hwf _] Hv. unfold rs_last_end, rmap in *. simpl in *.
  destruct l as [|[s ps] l _] using rev_ind; [done|]. rewrite last_snoc. simpl.
  apply runs_wf_snoc in Hwf as (Hok&Hwf&Hgap). pose proof Hok as (?&?&?). simpl in *.
  eexists; split; [done|]. rewrite sat_add_exact by done.
  destruct (decide (v < s + zlen ps)) as [|Hge]; [done|].
  exfalso. assert (rmap_runs (l ++ [(s, ps)]) !! v = None); [|congruence].
  apply rmap_runs_None. intros s' ps' [Hin|Hin]%elem_of_app.
  - specialize (Hgap _ Hin). unfold run_gap in Hgap. simpl in Hgap.
    pose proof (zlen_nonneg ps). lia.
  - apply list_elem_of_singleton in Hin as [= -> ->]. lia.
Qed.

(** [split_off] divides the content at a page number, renumbering the right part. *)
Lemma rs_split_off_ok rs n :
  rs_wf rs → 0 ≤ n →
  ∃ l r, rs_split_off rs n = Ret (l, Some r) ∧ rs_wf l ∧ rs_wf r ∧
    (∀ v, rmap l !! v = if decide (v < n) then rmap rs !! v else None) ∧
    (∀ v, rmap r !! v = if decide (0 ≤ v) then rmap rs !! (v + n) else None).
Proof.
  intros Hwf Hn. unfold rs_split_off. case_bool_decide.
  - subst. simpl. exists rs_new, rs. split; [done|]. split; [apply rs_wf_new|].
    split; [done|]. split; intros v; rewrite ?rmap_new, ?lookup_empty, ?Z.add_0_r.
    + case_decide; [|done]. destruct (rmap rs !! v) eqn:E; [|done].
      apply rmap_bounds in E; [lia|done].
    + case_decide; [done|]. destruct (rmap rs !! v) eqn:E; [|done].
      apply rmap_bounds in E; [lia|done].
  - set (e := Z.max _ _). destruct (rs_extract_range_ok rs n e) as (l&r&->&?&?&Hl&Hr);
      [done|lia|]. exists l, r. split_and!; [done..| |]; intros v.
    + rewrite Hl. repeat case_decide; try (done || lia).
      destruct (rmap rs !! v) eqn:E; [|done].
      destruct (rs_last_end_bound _ _ _ Hwf E) as (e'&He'&?).
      exfalso. unfold e in *. rewrite He' in *. simpl in *. lia.
    + rewrite Hr. repeat case_decide; try (done || lia).
      destruct (rmap rs !! (v + n)) eqn:E; [|done].
      destruct (rs_last_end_bound _ _ _ Hwf E) as (e'&He'&?).
      exfalso. unfold e in *. rewrite He' in *. simpl in *. lia.
Qed.

(** ** Merging *)

Lemma merge_loop_ok off self old :
  rs_wf self → runs_wf old → 0 ≤ off →
  (∀ p, p ∈ old → p.1 + zlen p.2 + off ≤ USIZE_MAX) →
  (∀ v, is_Some (rmap_runs old !! v) → rmap self !! (v + off) = None) →
  ∃ self', merge_loop off self old = Ret self' ∧ rs_wf self' ∧
    (∀ v, rmap self' !! v = union (rmap_runs old !! (v - off)) (rmap self !! v)).
Proof.
  revert self. induction old as [|[s ps] old IH]; intros self Hw Hwf Hoff Hmax Hd.
  { exists self. split_and!; [done..|]. intros v. simpl. rewrite lookup_empty.
    by rewrite (left_id_L None union). }
  pose proof Hwf as (Hok&Hwf'&Hgap)%runs_wf_cons. pose proof Hok as (?&?&?). simpl in *.
  pose proof (Hmax (s, ps) ltac:(by left)) as Hm. simpl in Hm.
  pose proof (zlen_nonneg ps). rewrite sat_add_exact by lia.
  assert (Hdj : rmap_runs [(s, ps)] ##ₘ rmap_runs old).
  { apply rmap_runs_disjoint. done. }
  simpl in Hdj. rewrite map_union_empty in Hdj.
  destruct (rs_insert_unwrap_ok self (s + off) ps) as (self1&->&Hw1&Hrm); [done| | |].
  { unfold run_ok. simpl. split_and!; [lia|done|lia]. }
  { intros v Hv. replace v with ((v - off) + off) by lia. apply Hd.
    apply lookup_union_is_Some. left. apply lookup_map_seqZ_is_Some. unfold zlen in *. lia. }
  destruct (IH self1) as (self2&->&?&Hs2); [done..| | |].
  { intros p Hp. apply Hmax. by right. }
  { intros v [x Hx]. rewrite Hrm. apply lookup_union_None. split.
    - replace (s + off) with (s - (- off)) by lia. rewrite map_seqZ_shift.
      replace (v + off + - off) with v by lia. by eapply map_disjoint_Some_r.
    - apply Hd. apply lookup_union_is_Some. right. by exists x. }
  exists self2. split_and!; [done..|]. intros v. rewrite Hs2, Hrm, !lookup_union.
  replace (s + off) with (s - (- off)) by lia. rewrite map_seqZ_shift.
  replace (v + - off) with (v - off) by lia. rewrite map_disjoint_alt in Hdj.
  destruct (Hdj (v - off)) as [-> | ->]; rewrite ?(left_id_L None union), ?(right_id_L None union); done.
Qed.

Lemma rs_merge_from_at_ok rs off other :
  rs_wf rs → rs_wf other → 0 ≤ off →
  (∀ p, p ∈ rs_runs other → p.1 + zlen p.2 + off ≤ USIZE_MAX) →
  (∀ v, is_Some (rmap other !! v) → rmap rs !! (v + off) = None) →
  ∃ rs', rs_merge_from_at rs off other = Ret (rs', rs_new) ∧ rs_wf rs' ∧
    (∀ v, rmap rs' !! v = union (rmap other !! (v - off)) (rmap rs !! v)).
Proof.
  intros Hw [Ho _] Hoff Hmax Hd. unfold rs_merge_from_at.
  destruct (merge_loop_ok off rs (rs_runs other)) as (rs'&->&?&?); [done..|]. by exists rs'.
Qed.

(** The last page of a run is resident. *)
Lemma runs_wf_last_resident l s ps :
  runs_wf l → (s, ps) ∈ l → is_Some (rmap_runs l !! (s + zlen ps - 1)).
Proof.
  intros Hwf Hin. apply not_eq_None_Some. rewrite rmap_runs_None. intros Hn.
  pose proof (run_ok_len _ (runs_wf_elem _ _ _ Hwf Hin)). specialize (Hn _ _ Hin).
  simpl in *. lia.
Qed.

(** ** The canonical form is unique *)

Lemma runs_wf_head_least s ps l v :
  runs_wf ((s, ps) :: l) → is_Some (rmap_runs ((s, ps) :: l) !! v) → s ≤ v.
Proof.
  intros (Hok&Hwf&Hgap)%runs_wf_cons Hv. destruct (decide (s ≤ v)); [done|].
  exfalso. assert (rmap_runs ((s, ps) :: l) !! v = None) as Hn; [|rewrite Hn in Hv; by destruct Hv].
  apply rmap_runs_None. intros s' ps' [[= -> ->]|Hin]%elem_of_cons; [lia|].
  specialize (Hgap _ Hin). unfold run_gap in Hgap. simpl in Hgap.
  pose proof (zlen_nonneg ps). lia.
Qed.

Lemma runs_wf_hole s ps l :
  runs_wf ((s, ps) :: l) → rmap_runs ((s, ps) :: l) !! (s + zlen ps) = None.
Proof.
  intros (Hok&Hwf&Hgap)%runs_wf_cons. apply rmap_runs_None.
  intros s' ps' [[= -> ->]|Hin]%elem_of_cons; [lia|].
  specialize (Hgap _ Hin). unfold run_gap in Hgap. simpl in Hgap. lia.
Qed.

Lemma runs_wf_head_lookup s ps l v :
  runs_wf ((s, ps) :: l) → s ≤ v ≤ s + zlen ps →
  rmap_runs ((s, ps) :: l) !! v = ps !! Z.to_nat (v - s).
Proof.
  intros Hwf Hv. destruct (decide (v = s + zlen ps)) as [->|].
  - rewrite runs_wf_hole by done. symmetry. apply lookup_ge_None. unfold zlen. lia.
  - simpl. rewrite lookup_union_l'.
    + by rewrite lookup_map_seqZ, option_guard_True by lia.
    + apply lookup_map_seqZ_is_Some. unfold zlen in *. lia.
Qed.

Lemma runs_wf_unique l1 l2 :
  runs_wf l1 → runs_wf l2 → rmap_runs l1 = rmap_runs l2 → l1 = l2.
Proof.
  revert l2. induction l1 as [|[s1 p1] l1 IH]; intros [|[s2 p2] l2] Hw1 Hw2 Heq; [done|..].
  { exfalso. apply (runs_wf_key_resident _ s2 p2 Hw2); [by left|]. by rewrite <-Heq. }
  { exfalso. apply (runs_wf_key_resident _ s1 p1 Hw1); [by left|]. by rewrite Heq. }
  assert (s1 = s2) as <-.
  { apply Z.le_antisymm.
    - apply (runs_wf_head_least _ _ _ _ Hw1). rewrite Heq. apply not_eq_None_Some.
      eapply runs_wf_key_resident; [done|by left].
    - apply (runs_wf_head_least _ _ _ _ Hw2). rewrite <-Heq. apply not_eq_None_Some.
      eapply runs_wf_key_resident; [done|by left]. }
  assert (p1 = p2) as <-.
  { apply list_eq. intros i.
    destruct (decide (Z.of_nat i ≤ zlen p1)), (decide (Z.of_nat i ≤ zlen p2)).
    - pose proof (runs_wf_head_lookup _ _ _ (s1 + Z.of_nat i) Hw1 ltac:(lia)) as H1.
      pose proof (runs_wf_head_lookup _ _ _ (s1 + Z.of_nat i) Hw2 ltac:(lia)) as H2.
      rewrite Heq in H1. replace (Z.to_nat (s1 + Z.of_nat i - s1)) with i in * by lia. congruence.
    - pose proof (zlen_nonneg p2).
      pose proof (runs_wf_head_lookup _ _ _ (s1 + zlen p2) Hw1 ltac:(lia)) as H1.
      rewrite Heq, runs_wf_hole in H1 by done. symmetry in H1. apply lookup_ge_None in H1.
      unfold zlen in *. lia.
    - pose proof (zlen_nonneg p1).
      pose proof (runs_wf_head_lookup _ _ _ (s1 + zlen p1) Hw2 ltac:(lia)) as H1.
      rewrite <-Heq, runs_wf_hole in H1 by done. symmetry in H1. apply lookup_ge_None in H1.
      unfold zlen in *. lia.
    - rewrite !(proj2 (lookup_ge_None _ _)); [done|unfold zlen in *; lia..]. }
  f_equal. apply runs_wf_cons in Hw1 as Hw1'. apply runs_wf_cons in Hw2 as Hw2'.
  apply IH; [apply Hw1'|apply Hw2'|]. simpl in Heq.
  pose proof (rmap_runs_disjoint [(s1, p1)] l1 Hw1) as Hd1.
  pose proof (rmap_runs_disjoint [(s1, p1)] l2 Hw2) as Hd2.
  simpl in Hd1, Hd2. rewrite map_union_empty in Hd1, Hd2. by eapply map_union_cancel_l.
Qed.

Lemma rs_canonical a b : rs_wf a → rs_wf b → rmap a = rmap b → a = b.
Proof.
  destruct a as [la na], b as [lb nb]. intros [Hwa Hca] [Hwb Hcb] Heq.
  unfold rmap in Heq. simpl in *. assert (la = lb) as <- by (by apply runs_wf_unique).
  by subst.
Qed.

(** ** Updates in place *)

Lemma runs_wf_replace l1 l2 s ps ps' :
  length ps' = length ps → runs_wf (l1 ++ (s, ps) :: l2) → runs_wf (l1 ++ (s, ps') :: l2).
Proof.
  intros Hlen (?&(Hok&?&Hg)%runs_wf_cons&Hx)%runs_wf_app.
  assert (Hz : zlen ps' = zlen ps) by (unfold zlen; lia).
  apply runs_wf_app. split; [done|]. split.
  - apply runs_wf_cons. split; [|split; [done|]].
    + destruct Hok as (?&?%zlen_pos&?). unfold run_ok. simpl in *.
      split_and!; [done|apply zlen_pos; lia|lia].
    + intros q Hq. specialize (Hg q Hq). unfold run_gap in *. simpl in *. lia.
  - intros p q Hp [->|Hq]%elem_of_cons.
    + apply (Hx p (s, ps)); [done|by left].
    + apply Hx; [done|by right].
Qed.

Lemma map_seqZ_insert s (ps : list ResidentPage) i p :
  (i < length ps)%nat →
  (map_seqZ s (<[i := p]> ps) : gmap Z ResidentPage) = <[s + Z.of_nat i := p]> (map_seqZ s ps).
Proof.
  intros Hi. apply map_eq. intros v. rewrite lookup_map_seqZ.
  destruct (decide (v = s + Z.of_nat i)) as [->|].
  - rewrite lookup_insert_eq, option_guard_True by lia.
    replace (Z.to_nat (s + Z.of_nat i - s)) with i by lia. by apply list_lookup_insert_eq.
  - rewrite lookup_insert_ne, lookup_map_seqZ by done. case_guard; simpl; [|done].
    apply list_lookup_insert_ne. lia.
Qed.

Lemma rs_update_ok rs v f :
  rs_wf rs →
  match rmap rs !! v with
  | None => rs_update rs v f = None
  | Some p => ∃ rs', rs_update rs v f = Some rs' ∧ rs_wf rs' ∧ rmap rs' = <[v := f p]> (rmap rs)
  end.
Proof.
  intros Hw. pose proof (rs_lookup_rmap rs v Hw) as Hl. rewrite <-Hl.
  unfold rs_lookup, rs_update in *. destruct rs as [l n]. destruct Hw as [Hwf Hc].
  unfold rmap in *. simpl in *. revert Hl. rewrite bt_range_le_lt.
  destruct (bt_split l (v + 1) (runs_wf_sorted _ Hwf)) as (l1&l2&->&Hlt&Hge).
  rewrite bt_range_lt_split by done.
  destruct l1 as [|[s ps] l1 _] using rev_ind; [done|]. rewrite last_snoc.
  apply Forall_app in Hlt as [_ [Hs _]%Forall_cons]. simpl in Hs.
  unfold checked_sub. rewrite bool_decide_eq_true_2 by lia. rewrite <-app_assoc in *. simpl in *.
  destruct (ps !! Z.to_nat (v - s)) as [p|] eqn:Hp; [|done]. intros Hv.
  pose proof (lookup_lt_Some _ _ _ Hp) as Hlen.
  pose proof (runs_wf_sorted _ Hwf) as (_&_&Hkl&_)%bt_sorted_middle.
  rewrite bt_insert_replace by done. eexists. split; [done|]. split; [split|]; simpl.
  - eapply runs_wf_replace; [|exact Hwf]. apply length_insert.
  - rewrite Hc, !runs_total_app. simpl. unfold zlen. by rewrite length_insert.
  - rewrite !rmap_runs_app. simpl. rewrite map_seqZ_insert by done.
    replace (s + Z.of_nat (Z.to_nat (v - s))) with v by lia.
    rewrite <-insert_union_l. rewrite (insert_union_r (rmap_runs l1)); [done|].
    apply rmap_runs_None. intros s' ps' Hin. right. apply runs_wf_app in Hwf as (_&_&Hx).
    specialize (Hx (s', ps') (s, ps) Hin ltac:(by left)).
    unfold run_gap in Hx; simpl in Hx. lia.
Qed.

Lemma rmap_map_pages f rs : rmap (rs_map_pages f rs) = f <$> rmap rs.
Proof.
  unfold rmap, rmap_runs. destruct rs as [l n]. simpl.
  induction l as [|[s ps] l IH]; simpl; [by rewrite fmap_empty|].
  rewrite map_fmap_union, fmap_map_seqZ. f_equal. exact IH.
Qed.

Lemma rs_wf_map_pages f rs : rs_wf rs → rs_wf (rs_map_pages f rs).
Proof.
  destruct rs as [l n]. unfold rs_wf, runs_wf. simpl. intros [[Hs Hok] ->]. split; [split|].
  - clear Hok. induction Hs as [|p l Hs IH Hf]; simpl; constructor; [done|].
    apply Forall_fmap. eapply Forall_impl; [exact Hf|]. unfold run_gap, zlen. simpl.
    intros q. by rewrite length_fmap.
  - apply Forall_fmap. eapply Forall_impl; [exact Hok|]. unfold run_ok, zlen. simpl.
    intros q (?&Hne&?). rewrite length_fmap. split_and!; [done| |done].
    intros Hx%fmap_nil_inv. done.
  - clear. unfold runs_total. induction l as [|p l IH]; simpl; [done|]. unfold zlen in *.
    rewrite length_fmap. f_equal. exact IH.
Qed.

(** ** Iteration over a range *)

Lemma elem_of_iter_range_run s e r ps v p :
  (v, p) ∈ iter_range_run s e (r, ps) ↔
  s ≤ v < e ∧ (map_seqZ r ps : gmap Z ResidentPage) !! v = Some p.
Proof.
  unfold iter_range_run. rewrite list_elem_of_lookup, lookup_map_seqZ_Some. split.
  - intros [i Hi]. apply lookup_take_Some in Hi as [Hi Hlt].
    rewrite lookup_drop, list_lookup_imap_Some in Hi. destruct Hi as (x&Hx&[= -> ->]).
    pose proof (lookup_lt_Some _ _ _ Hx). unfold sat_sub in *. split; [lia|].
    split; [lia|]. by match goal with |- _ !! ?n = _ => replace n with (Nat.min (Z.to_nat (Z.max (s - r) 0)) (length ps) + i)%nat by lia end.
  - intros (Hv&Hr&Hx). pose proof (lookup_lt_Some _ _ _ Hx). unfold sat_sub.
    exists (Z.to_nat (v - r) - Nat.min (Z.to_nat (Z.max (s - r) 0)) (length ps))%nat.
    apply lookup_take_Some. split; [|lia].
    rewrite lookup_drop, list_lookup_imap_Some. exists p.
    replace (Nat.min _ _ + _)%nat with (Z.to_nat (v - r)) by lia.
    split; [done|]. f_equal. lia.
Qed.

Lemma rmap_runs_Some l v p :
  runs_wf l →
  rmap_runs l !! v = Some p ↔
  ∃ r ps, (r, ps) ∈ l ∧ (map_seqZ r ps : gmap Z ResidentPage) !! v = Some p.
Proof.
  intros Hwf. split.
  - clear Hwf. induction l as [|[r ps] l IH]; simpl; [done|].
    intros [Hx|[_ Hx]]%lookup_union_Some_raw.
    + exists r, ps. split; [by left|done].
    + destruct (IH Hx) as (r'&ps'&?&?). exists r', ps'. split; [by right|done].
  - intros (r&ps&Hin&Hx). apply list_elem_of_split in Hin as (l1&l2&->).
    rewrite rmap_runs_app. apply lookup_union_Some_r; [by apply rmap_runs_disjoint|].
    by apply lookup_union_Some_l.
Qed.

Lemma elem_of_rs_iter_range rs s e v p :
  rs_wf rs →
  (v, p) ∈ rs_iter_range rs s e ↔ s ≤ v < e ∧ rmap rs !! v = Some p.
Proof.
  intros [Hwf _]. unfold rs_iter_range, rmap. rewrite list_elem_of_join, rmap_runs_Some by done.
  setoid_rewrite list_elem_of_fmap. split.
  - intros (l&Hl&([r ps]&->&[Hr Hin]%list_elem_of_filter)).
    apply elem_of_iter_range_run in Hl as [Hv Hx]. eauto.
  - intros [Hv (r&ps&Hin&Hx)]. exists (iter_range_run s e (r, ps)). split.
    + by apply elem_of_iter_range_run.
    + exists (r, ps). split; [done|]. apply list_elem_of_filter. split; [|done]. simpl.
      apply lookup_map_seqZ_Some in Hx. lia.
Qed.

(** The pages are visited in ascending order of page number. *)
Lemma iter_range_run_sorted s e r ps : StronglySorted Z.lt (iter_range_run s e (r, ps)).*1.
Proof.
  unfold iter_range_run. rewrite fmap_take, fmap_drop.
  set (l := (imap _ _).*1). assert (Hl : StronglySorted Z.lt l).
  { subst l. generalize r. clear. induction ps as [|p ps IH]; intros r; [constructor|].
    simpl. constructor.
    - erewrite imap_ext; [apply (IH (r + 1))|]. intros. simpl. f_equal. lia.
    - apply Forall_fmap, Forall_forall. intros [v q] (i&Hi)%list_elem_of_lookup.
      apply list_lookup_imap_Some in Hi as (?&?&[= -> ->]). simpl. lia. }
  clearbody l. revert Hl. generalize (Nat.min (Z.to_nat (sat_sub s r)) (length ps)).
  intros n Hl. rewrite <-(take_drop n l) in Hl. apply StronglySorted_app_1_r in Hl.
  eapply StronglySorted_app_1_l. by rewrite take_drop.
Qed.

Lemma rs_iter_range_sorted rs s e :
  rs_wf rs → StronglySorted Z.lt (rs_iter_range rs s e).*1.
Proof.
  intros [Hwf _]. unfold rs_iter_range. induction (rs_runs rs) as [|[r ps] l IH]; [constructor|].
  apply runs_wf_cons in Hwf as (Hok&Hwf&Hgap). rewrite filter_cons. simpl.
  case_decide; [|by apply IH]. simpl. rewrite fmap_app. apply StronglySorted_app_2.
  - intros v w ([v' p]&->&Hv)%list_elem_of_fmap ([w' q]&->&Hw)%list_elem_of_fmap. simpl.
    apply elem_of_iter_range_run in Hv as [_ Hv]. apply lookup_map_seqZ_Some in Hv as [? Hv].
    apply lookup_lt_Some in Hv. apply list_elem_of_join in Hw as (l'&Hl'&Hw).
    apply list_elem_of_fmap in Hw as ([r' ps']&->&[_ Hin]%list_elem_of_filter).
    apply elem_of_iter_range_run in Hl' as [_ Hw]. apply lookup_map_seqZ_Some in Hw as [? _].
    specialize (Hgap _ Hin). unfold run_gap, zlen in Hgap. simpl in Hgap. lia.
  - apply iter_range_run_sorted.
  - by apply IH.
Qed.

(** ** Properties *)

#[export] Hint Resolve rs_wf_new rs_wf_map_pages : kernel.

(** A run of frames stored with a state. *)
Lemma rs_insert_run_with_state_ok rs s fs st :
  rs_wf rs → 0 ≤ s → fs ≠ [] → s + zlen fs ≤ USIZE_MAX →
  (∀ v, s ≤ v < s + zlen fs → rmap rs !! v = None) →
  ∃ rs', rs_insert_run_with_state rs s fs st = (rs', Ok tt) ∧ rs_wf rs' ∧
         rmap rs' = map_seqZ s ((λ f, mkPage f st) <$> fs) ∪ rmap rs.
Proof.
  intros Hw Hs Hne Hm Hfree. unfold rs_insert_run_with_state.
  rewrite (proj2 (rs_overlaps_spec rs s (length fs) Hw Hm)) by done.
  destruct (rs_insert_run_pages_ok rs s ((λ f, mkPage f st) <$> fs)) as (rs'&->&?&?);
    [done|..]; unfold run_ok, zlen in *; simpl; rewrite ?length_fmap.
  - split_and!; [done|by destruct fs|done].
  - done.
  - eauto.
Qed.

(** Inserting one page ([insert_page_with_state]) implements insertion into
    the finite map of resident pages: a vacant page number gets the page, the
    count grows by one and the canonical form is kept; an occupied one is never
    overwritten, the set is unchanged and the caller gets its frame back. *)
Theorem resident_insert_refines rs v p :
  rs_wf rs → 0 ≤ v < USIZE_MAX →
  match rmap rs !! v with
  | None => ∃ rs', rs_insert_page_with_state rs v p = Ret (rs', Ok tt) ∧ rs_wf rs' ∧
              rmap rs' = <[v := p]> (rmap rs) ∧ rs_len rs' = rs_len rs + 1
  | Some _ => rs_insert_page_with_state rs v p = Ret (rs, Err (rp_frame p))
  end.
Proof.
  intros Hw Hv. unfold rs_insert_page_with_state. destruct (rmap rs !! v) eqn:E.
  - rewrite rs_insert_page_err; [done|done|lia|by rewrite E].
  - destruct (rs_insert_page_ok rs v p) as (rs'&->&?&Hrm); [done..|].
    exists rs'. split_and!; [done..|]. rewrite !rs_len_size by done.
    rewrite Hrm, map_size_insert_None by done. lia.
Qed.

(** Inserting a run of frames with a state is all or nothing: either every
    page of the range was vacant and the run becomes resident, or the set is
    unchanged and all frames come back. *)
Theorem resident_insert_run_refines rs s fs st :
  rs_wf rs → 0 ≤ s → fs ≠ [] → s + zlen fs ≤ USIZE_MAX →
  (∃ v, s ≤ v < s + zlen fs ∧ is_Some (rmap rs !! v) ∧
        rs_insert_run_with_state rs s fs st = (rs, Err fs)) ∨
  (∃ rs', (∀ v, s ≤ v < s + zlen fs → rmap rs !! v = None) ∧
          rs_insert_run_with_state rs s fs st = (rs', Ok tt) ∧ rs_wf rs' ∧
          rmap rs' = map_seqZ s ((λ f, mkPage f st) <$> fs) ∪ rmap rs).
Proof.
  intros Hw Hs Hne Hm. destruct (rs_overlaps rs s (length fs)) eqn:E.
  - left. pose proof E as (i&Hi%in_seq&Hx%bool_decide_eq_true_1)%existsb_exists.
    rewrite rs_lookup_rmap, sat_add_exact in Hx by (done || unfold zlen in *; lia).
    exists (s + Z.of_nat i). split; [unfold zlen; lia|]. split; [done|].
    unfold rs_insert_run_with_state. by rewrite E.
  - right. rewrite rs_overlaps_spec in E by done.
    destruct (rs_insert_run_with_state_ok rs s fs st) as (rs'&?&?&?); [done..|]. by exists rs'.
Qed.

(** Extracting a range never reaches the [unreachable!] branches, leaves
    exactly the pages outside the range, and returns exactly the pages inside it
    renumbered from zero; both sets are canonical. *)
Theorem resident_extract_refines rs s e :
  rs_wf rs → 0 ≤ s ≤ e →
  ∃ rs' ext, rs_extract_range rs s e = Ret (rs', Some ext) ∧ rs_wf rs' ∧ rs_wf ext ∧
    (∀ v, rmap rs' !! v = if decide (s ≤ v < e) then None else rmap rs !! v) ∧
    (∀ v, rmap ext !! v = if decide (0 ≤ v < e - s) then rmap rs !! (v + s) else None).
Proof. apply rs_extract_range_ok. Qed.

(** Splitting a resident set at a page number and merging the right part
    back at the same number restores the very same set, runs and count. *)
Theorem resident_split_merge_roundtrip rs n :
  rs_wf rs → 0 ≤ n →
  ∃ l r, rs_split_off rs n = Ret (l, Some r) ∧ rs_merge_from_at l n r = Ret (rs, rs_new).
Proof.
  intros Hw Hn. destruct (rs_split_off_ok rs n) as (l&r&Hsp&Hwl&Hwr&Hl&Hr); [done..|].
  exists l, r. split; [done|].
  destruct (rs_merge_from_at_ok l n r) as (rs'&->&Hw'&Hm); [done..| | |].
  - intros [s ps] Hin. pose proof (runs_wf_last_resident _ _ _ (proj1 Hwr) Hin) as [x Hx].
    change (rmap r !! (s + zlen ps - 1) = Some x) in Hx. rewrite Hr in Hx.
    case_decide; [|done]. apply rmap_bounds in Hx; [|done]. simpl. lia.
  - intros v [x Hx]. pose proof (rmap_bounds r v x Hwr Hx). rewrite Hl.
    by rewrite decide_False by lia.
  - do 2 f_equal. apply rs_canonical; [done..|]. apply map_eq. intros v.
    rewrite Hm, Hr, Hl. repeat case_decide; try lia.
    + rewrite (right_id_L None union). by replace (v - n + n) with v by lia.
    + by rewrite (left_id_L None union).
Qed.

(** The representation is canonical: two well-formed resident sets with the
    same resident pages are equal, so runs are maximal and the count is exact. *)
Theorem resident_canonical a b : rs_wf a → rs_wf b → rmap a = rmap b → a = b.
Proof. apply rs_canonical. Qed.

(** [lookup] and [iter_range] read the finite map: lookup returns its value,
    and the iteration yields every resident page of the range exactly once, in
    ascending order. *)
Theorem resident_lookup_iter_refines rs s e :
  rs_wf rs →
  (∀ v, rs_lookup rs v = rmap rs !! v) ∧
  (∀ v p, (v, p) ∈ rs_iter_range rs s e ↔ s ≤ v < e ∧ rmap rs !! v = Some p) ∧
  StronglySorted Z.lt (rs_iter_range rs s e).*1.
Proof.
  intros Hw. split_and!.
  - intros v. by apply rs_lookup_rmap.
  - intros v p. by apply elem_of_rs_iter_range.
  - by apply rs_iter_range_sorted.
Qed.

(** ** Witnesses *)

Definition demo_frame (n : Z) : FrameTracker := mkTracker (mkPPN n).
Definition demo_page (n : Z) : ResidentPage := mkPage (demo_frame n) Private.

(** Two runs: pages 2, 3 and page 7. *)
Definition demo_rs : ResidentSet :=
  mkRS [(2, [demo_page 10; demo_page 11]); (7, [demo_page 12])] 3.

Lemma demo_rs_wf : rs_wf demo_rs.
Proof.
  split; [|done]. split; repeat constructor; done.
Qed.

Example demo_rs_bridge :
  rs_insert_run_with_state demo_rs 4 [demo_frame 20; demo_frame 21; demo_frame 22] Private =
  (mkRS [(2, [demo_page 10; demo_page 11; demo_page 20; demo_page 21; demo_page 22; demo_page 12])] 6,
   Ok tt).
Proof. vm_compute. done. Qed.

Lemma resident_insert_refines_witness :
  ∃ rs', rs_insert_page_with_state demo_rs 5 (demo_page 9) = Ret (rs', Ok tt) ∧ rs_len rs' = 4.
Proof.
  pose proof (resident_insert_refines demo_rs 5 (demo_page 9) demo_rs_wf ltac:(done)) as H.
  assert (E : rmap demo_rs !! 5 = None) by (vm_compute; done). rewrite E in H.
  destruct H as (rs'&?&?&?&?). exists rs'. split; done.
Defined.

Lemma resident_insert_run_refines_witness :
  ∃ rs', rs_insert_run_with_state demo_rs 4 [demo_frame 20; demo_frame 21] Shared = (rs', Ok tt).
Proof.
  destruct (resident_insert_run_refines demo_rs 4 [demo_frame 20; demo_frame 21] Shared demo_rs_wf
    ltac:(done) ltac:(done) ltac:(done)) as [(v&?&?&E)|(rs'&?&E&?)].
  - vm_compute in E. done.
  - by exists rs'.
Defined.

Lemma resident_extract_refines_witness :
  ∃ rs' ext, rs_extract_range demo_rs 3 8 = Ret (rs', Some ext) ∧ rs_len ext = 2.
Proof.
  destruct (resident_extract_refines demo_rs 3 8 demo_rs_wf ltac:(lia)) as (rs'&ext&H&?).
  exists rs', ext. split; [done|]. vm_compute in H. by injection H as <- <-.
Defined.

Lemma resident_split_merge_witness :
  ∃ l r, rs_split_off demo_rs 3 = Ret (l, Some r) ∧ rs_merge_from_at l 3 r = Ret (demo_rs, rs_new).
Proof. apply (resident_split_merge_roundtrip demo_rs 3 demo_rs_wf). lia. Defined.

Lemma resident_canonical_witness : demo_rs = rs_map_pages id demo_rs.
Proof.
  apply (resident_canonical demo_rs (rs_map_pages id demo_rs) demo_rs_wf).
  - apply rs_wf_map_pages, demo_rs_wf.
  - vm_compute. done.
Defined.

Lemma resident_lookup_iter_witness :
  rs_lookup demo_rs 3 = Some (demo_page 11) ∧ (7, demo_page 12) ∈ rs_iter_range demo_rs 4 9.
Proof.
  destruct (resident_lookup_iter_refines demo_rs 4 9 demo_rs_wf) as (Hl&Hi&_).
  split; [rewrite Hl; vm_compute; done|]. apply Hi. split; [lia|]. vm_compute. done.
Defined.
