(* ===== verification/Flags.v ===== *)
(** * Page permission flags
    (src/os/src/mm/page_table.rs [PTEFlags];
     src/patch/polyhal/src/pagetable/mod.rs [MappingFlags])

    Bit sets are integers with the bit operations of the [bitflags] crate. *)

From S2P Require Import Prelude.

(** ** The bit-set operations *)

Definition flags_contains (f g : Z) : bool := bool_decide (Z.land f g = g).
Definition flags_intersects (f g : Z) : bool := bool_decide (Z.land f g ≠ 0).
Definition flags_union (f g : Z) : Z := Z.lor f g.
(** [remove] and [difference] *)
Definition flags_difference (f g : Z) : Z := Z.ldiff f g.

(** ** [PTEFlags] *)

Definition PTE_V : Z := Z.shiftl 1 0.
Definition PTE_R : Z := Z.shiftl 1 1.
Definition PTE_W : Z := Z.shiftl 1 2.
Definition PTE_X : Z := Z.shiftl 1 3.
Definition PTE_U : Z := Z.shiftl 1 4.
Definition PTE_G : Z := Z.shiftl 1 5.
Definition PTE_A : Z := Z.shiftl 1 6.
Definition PTE_D : Z := Z.shiftl 1 7.
Definition PTE_COW : Z := Z.shiftl 1 8.

(** ** [MappingFlags] *)

Definition MF_U : Z := Z.shiftl 1 1.
Definition MF_R : Z := Z.shiftl 1 2.
Definition MF_W : Z := Z.shiftl 1 3.
Definition MF_X : Z := Z.shiftl 1 4.

(** [impl From<PTEFlags> for MappingFlags] *)
Definition mapping_flags_of_pte (flags : Z) : Z :=
  let mf := 0 in
  let mf := if flags_contains flags PTE_R then flags_union mf MF_R else mf in
  let mf := if flags_contains flags PTE_W then flags_union mf MF_W else mf in
  let mf := if flags_contains flags PTE_X then flags_union mf MF_X else mf in
  let mf := if flags_contains flags PTE_U then flags_union mf MF_U else mf in
  mf.

(** [has_leaf_permission] (src/os/src/mm/memory_set.rs) *)
Definition has_leaf_permission (flags : Z) : bool :=
  flags_intersects flags (flags_union (flags_union PTE_R PTE_W) PTE_X).

(** [effective_mapping_flags] (src/os/src/mm/memory_set.rs) *)
Definition effective_mapping_flags (flags : Z) : Z :=
  let effective := if flags_contains flags PTE_COW then flags_difference flags PTE_W else flags in
  mapping_flags_of_pte effective.

(** ** Bits *)

(** A single-bit flag is contained exactly when its bit is set. *)
Lemma flags_contains_bit f n : 0 ≤ n → flags_contains f (Z.shiftl 1 n) = Z.testbit f n.
Proof.
  intros Hn. unfold flags_contains. rewrite Z.shiftl_1_l.
  destruct (Z.testbit f n) eqn:E.
  - apply bool_decide_eq_true_2. apply Z.bits_inj'. intros m Hm.
    rewrite Z.land_spec, Z.pow2_bits_eqb by done.
    destruct (Z.eqb_spec n m) as [<-|]; [by rewrite E|by rewrite andb_false_r].
  - apply bool_decide_eq_false_2. intros H.
    assert (Z.testbit (Z.land f (2 ^ n)) n = true).
    { rewrite H. by apply Z.pow2_bits_true. }
    rewrite Z.land_spec, E in H0. done.
Qed.

Lemma flags_difference_bit f n m :
  0 ≤ n → Z.testbit (flags_difference f (Z.shiftl 1 n)) m = Z.testbit f m && negb (n =? m).
Proof.
  intros Hn. unfold flags_difference.
  destruct (decide (0 ≤ m)).
  - rewrite Z.ldiff_spec, Z.shiftl_1_l, Z.pow2_bits_eqb by done. done.
  - rewrite !Z.testbit_neg_r by lia. done.
Qed.

Lemma flags_union_bit f n m :
  0 ≤ n → Z.testbit (flags_union f (Z.shiftl 1 n)) m = Z.testbit f m || (n =? m).
Proof.
  intros Hn. unfold flags_union. rewrite Z.lor_spec, Z.shiftl_1_l, Z.pow2_bits_eqb by done. done.
Qed.

Lemma mapping_flags_bit flags m :
  Z.testbit (mapping_flags_of_pte flags) m =
  (Z.testbit flags 1 && (2 =? m)) || (Z.testbit flags 2 && (3 =? m)) ||
  (Z.testbit flags 3 && (4 =? m)) || (Z.testbit flags 4 && (1 =? m)).
Proof.
  unfold mapping_flags_of_pte, PTE_R, PTE_W, PTE_X, PTE_U, MF_R, MF_W, MF_X, MF_U.
  rewrite !flags_contains_bit by lia.
  destruct (Z.testbit flags 1), (Z.testbit flags 2), (Z.testbit flags 3), (Z.testbit flags 4);
    rewrite ?flags_union_bit by lia; rewrite ?Z.bits_0, ?orb_false_r, ?orb_false_l; done.
Qed.

(** The hardware mapping has exactly the permissions of the policy bits. *)
Lemma mapping_flags_perms flags :
  flags_contains (mapping_flags_of_pte flags) MF_R = flags_contains flags PTE_R ∧
  flags_contains (mapping_flags_of_pte flags) MF_W = flags_contains flags PTE_W ∧
  flags_contains (mapping_flags_of_pte flags) MF_X = flags_contains flags PTE_X ∧
  flags_contains (mapping_flags_of_pte flags) MF_U = flags_contains flags PTE_U.
Proof.
  unfold MF_R, MF_W, MF_X, MF_U, PTE_R, PTE_W, PTE_X, PTE_U.
  rewrite !flags_contains_bit by lia. rewrite !mapping_flags_bit. simpl.
  rewrite ?andb_false_r, ?andb_true_r, ?orb_false_r, ?orb_false_l. done.
Qed.

Lemma mapping_flags_range flags : 0 ≤ mapping_flags_of_pte flags < 2 ^ 10.
Proof.
  unfold mapping_flags_of_pte.
  repeat match goal with |- context [flags_contains ?f ?g] => destruct (flags_contains f g) end;
    vm_compute; split; congruence.
Qed.

Lemma mapping_flags_W flags :
  flags_contains (mapping_flags_of_pte flags) MF_W = flags_contains flags PTE_W.
Proof. apply mapping_flags_perms. Qed.

(** Removing write leaves the other permissions. *)
Lemma difference_W_perms flags :
  flags_contains (flags_difference flags PTE_W) PTE_R = flags_contains flags PTE_R ∧
  flags_contains (flags_difference flags PTE_W) PTE_W = false ∧
  flags_contains (flags_difference flags PTE_W) PTE_X = flags_contains flags PTE_X ∧
  flags_contains (flags_difference flags PTE_W) PTE_U = flags_contains flags PTE_U.
Proof.
  unfold PTE_R, PTE_W, PTE_X, PTE_U. rewrite !flags_contains_bit, !flags_difference_bit by lia.
  simpl. rewrite ?andb_false_r, ?andb_true_r. done.
Qed.

Lemma has_leaf_permission_bits flags :
  has_leaf_permission flags = Z.testbit flags 1 || Z.testbit flags 2 || Z.testbit flags 3.
Proof.
  unfold has_leaf_permission, flags_intersects.
  assert (Hm : flags_union (flags_union PTE_R PTE_W) PTE_X = 14) by done. rewrite Hm.
  destruct (Z.testbit flags 1 || Z.testbit flags 2 || Z.testbit flags 3) eqn:E.
  - apply bool_decide_eq_true_2. intros H0.
    assert (H : ∀ n, 0 ≤ n → Z.testbit flags n && Z.testbit 14 n = false).
    { intros n Hn. rewrite <-Z.land_spec, H0. apply Z.bits_0. }
    pose proof (H 1 ltac:(lia)). pose proof (H 2 ltac:(lia)). pose proof (H 3 ltac:(lia)).
    simpl in *. rewrite !andb_true_r in *. by rewrite H1, H2, H3 in E.
  - apply bool_decide_eq_false_2. intros Hn. apply Hn. clear Hn.
    apply orb_false_iff in E as [[E1 E2]%orb_false_iff E3].
    apply Z.bits_inj'. intros n Hn. rewrite Z.land_spec, Z.bits_0.
    destruct (decide (n = 1)) as [->|]; [by rewrite E1|].
    destruct (decide (n = 2)) as [->|]; [by rewrite E2|].
    destruct (decide (n = 3)) as [->|]; [by rewrite E3|].
    destruct (decide (n = 0)) as [->|]; [by rewrite andb_false_r|].
    rewrite (Z.bits_above_log2 14) by (simpl; lia). by rewrite andb_false_r.
Qed.

(** The copy-on-write bit is not a permission. *)
Lemma has_leaf_permission_cow flags :
  has_leaf_permission (flags_union flags PTE_COW) = has_leaf_permission flags.
Proof.
  rewrite !has_leaf_permission_bits. unfold PTE_COW. rewrite !flags_union_bit by lia.
  simpl. by rewrite !orb_false_r.
Qed.

Lemma union_cow_perms flags g :
  g ∈ [PTE_R; PTE_W; PTE_X; PTE_U] →
  flags_contains (flags_union flags PTE_COW) g = flags_contains flags g.
Proof.
  unfold PTE_COW, PTE_R, PTE_W, PTE_X, PTE_U. rewrite !elem_of_cons.
  intros [->|[->|[->|[->|?%not_elem_of_nil]]]]; [..|done];
    rewrite !flags_contains_bit, flags_union_bit by lia; simpl; by rewrite orb_false_r.
Qed.

Lemma contains_has_leaf flags g :
  g ∈ [PTE_R; PTE_W; PTE_X] → flags_contains flags g = true → has_leaf_permission flags = true.
Proof.
  rewrite has_leaf_permission_bits. unfold PTE_R, PTE_W, PTE_X. rewrite !elem_of_cons.
  intros [->|[->|[->|?%not_elem_of_nil]]]; [..|done]; rewrite flags_contains_bit by lia; intros ->;
    rewrite ?orb_true_r; done.
Qed.
