(* ===== verification/FileDesc.v ===== *)
(** * Open file descriptors (src/os/src/fs/fd.rs, [FileDescriptor])

    The variants of the descriptor.  A shared, mutable object
    ([Arc<Mutex<..>>]) is a handle into a store, so that two descriptors share
    the object exactly when the handles are equal ([Arc::ptr_eq]). *)

From S2P Require Import Prelude.

Abbreviation handle := Z.

Inductive VfsNodeKind : Set := NodeRegular | NodeDirectory | NodeSymlink | NodeOther.

#[export] Instance VfsNodeKind_eq_dec : EqDecision VfsNodeKind.
Proof. solve_decision. Defined.

(** [MemNodeMetadata] (src/os/src/fs/mod.rs) *)
Record MemNodeMetadata := mkMeta {
  node_mode : Z; node_uid : Z; node_gid : Z; node_ino : Z; node_flags : Z
}.

#[export] Instance MemNodeMetadata_eq_dec : EqDecision MemNodeMetadata.
Proof. solve_decision. Defined.

Record DirEntryRecord := mkDirEntry { de_name : string; de_is_dir : bool }.

#[export] Instance DirEntryRecord_eq_dec : EqDecision DirEntryRecord.
Proof. solve_decision. Defined.

Inductive FileDescriptor : Type :=
  | Stdin
  | Stdout
  | Stderr
  | MemFile (name : string) (backing : handle) (offset : Z) (ofd_owner : handle)
      (readable writable append linked : bool) (node : option MemNodeMetadata)
  | MemDir (path host_path : string) (entries : list DirEntryRecord) (offset : Z)
  | Ext4Regular (ino : Z) (offset : Z) (ofd_owner : handle)
      (readable writable append : bool)
  | Ext4Dir (path : string) (ino : Z) (offset : Z)
  | PathFd (logical_path host_path : string) (kind : VfsNodeKind) (flags : Z)
  | LoopControl
  | LoopDevice (index : Z) (offset : Z) (readable writable : bool)
  | PipeRead (state : handle) (nonblock : bool)
  | PipeWrite (state : handle) (nonblock : bool)
  | Socket (state : handle)
  | EventFd (state : handle)
  | Epoll (state : handle).

#[export] Instance FileDescriptor_eq_dec : EqDecision FileDescriptor.
Proof. solve_decision. Defined.

(** [same_file_identity] *)
Definition same_file_identity (self other : FileDescriptor) : bool :=
  match self, other with
  | MemFile _ b1 _ _ _ _ _ _ _, MemFile _ b2 _ _ _ _ _ _ _ => bool_decide (b1 = b2)
  | Ext4Regular ino1 _ _ _ _ _, Ext4Regular ino2 _ _ _ _ _ => bool_decide (ino1 = ino2)
  | PathFd _ h1 _ _, PathFd _ h2 _ _ => bool_decide (h1 = h2)
  | _, _ => false
  end.

Lemma same_file_sym f g : same_file_identity f g = same_file_identity g f.
Proof. destruct f, g; simpl; try done; apply bool_decide_ext; split; congruence. Qed.

Lemma same_file_trans f g h :
  same_file_identity f g = true → same_file_identity g h = true →
  same_file_identity f h = true.
Proof.
  destruct f, g; simpl; try done; destruct h; simpl; try done;
    rewrite !bool_decide_eq_true; congruence.
Qed.

(** Equal, or the same file through another descriptor. *)
Definition file_equiv (f g : FileDescriptor) : Prop :=
  f = g ∨ same_file_identity f g = true.

#[export] Instance file_equiv_equivalence : Equivalence file_equiv.
Proof.
  split.
  - intros f. by left.
  - intros f g [->|H]; [by left|right]. by rewrite same_file_sym.
  - intros f g h [->|H1] [->|H2]; [by left|by right|by right|right].
    by eapply same_file_trans.
Qed.
