(* ===== verification/MapArea.v ===== *)
(** * Virtual memory areas (src/os/src/mm/map_area.rs, [MapAreaBacking], [MapArea])

    An area maps a page-aligned address range with a permission policy, a
    backing, and the resident pages of the range keyed relative to its start.
    [area_page] is what an area says about one address; splitting and merging are
    shown to preserve it at every address, which is what lets the memory set cut
    and coalesce areas freely. *)

From S2P Require Import Prelude BTree Frame Flags FileDesc ResidentSet.

(** ** Backing *)

Inductive MapAreaBacking : Type :=
  | Anonymous
  | AnonymousShared
  | FileBacked (file : FileDescriptor) (offset : Z) (shared : bool)
  | SharedMemory (shmid base offset : Z).

#[export] Instance MapAreaBacking_eq_dec : EqDecision MapAreaBacking.
Proof. solve_decision. Defined.

(** [split_right] *)
Definition split_right (b : MapAreaBacking) (delta : Z) : MapAreaBacking :=
  match b with
  | Anonymous => Anonymous
  | AnonymousShared => AnonymousShared
  | FileBacked file offset shared => FileBacked file (sat_add offset delta) shared
  | SharedMemory shmid base offset => SharedMemory shmid base (sat_add offset delta)
  end.

(** [MapAreaBacking::can_merge_with] *)
Definition backing_can_merge_with (self : MapAreaBacking) (left_len : Z)
    (rgt : MapAreaBacking) : bool :=
  match self, rgt with
  | Anonymous, Anonymous => true
  | AnonymousShared, AnonymousShared => true
  | FileBacked lf lo ls, FileBacked rf ro rsh =>
      bool_decide (ls = rsh) && same_file_identity lf rf &&
      bool_decide (sat_add lo left_len = ro)
  | SharedMemory lid lb lo, SharedMemory rid rb ro =>
      bool_decide (lid = rid) && bool_decide (lb = rb) &&
      bool_decide (sat_add lo left_len = ro)
  | _, _ => false
  end.

(** ** Areas *)

Record MapArea := mkArea {
  start_va : Z;
  end_va : Z;
  area_flags : Z;
  area_resident : ResidentSet;
  area_backing : MapAreaBacking
}.

(** [with_backing] *)
Definition area_with_backing (start end_ flags : Z) (backing : MapAreaBacking) : MapArea :=
  mkArea start end_ flags rs_new backing.

(** [new] *)
Definition area_new (start end_ flags : Z) : MapArea :=
  area_with_backing start end_ flags Anonymous.

Definition area_set_resident (a : MapArea) (r : ResidentSet) : MapArea :=
  mkArea (start_va a) (end_va a) (area_flags a) r (area_backing a).

Definition area_set_flags (a : MapArea) (f : Z) : MapArea :=
  mkArea (start_va a) (end_va a) f (area_resident a) (area_backing a).

Definition area_size (a : MapArea) : Z := end_va a - start_va a.

Definition area_contains (a : MapArea) (va : Z) : bool :=
  bool_decide (start_va a ≤ va) && bool_decide (va < end_va a).

Definition area_page_count (a : MapArea) : Z := area_size a / PAGE_SIZE.

Definition area_has_frames (a : MapArea) : bool := negb (rs_is_empty (area_resident a)).

Definition area_has_full_frames (a : MapArea) : bool :=
  bool_decide (rs_len (area_resident a) = area_page_count a).

Definition area_overlaps (a : MapArea) (start end_ : Z) : bool :=
  bool_decide (start_va a < end_) && bool_decide (start < end_va a).

(** [extract_resident_range]: an inverted range extracts nothing. *)
Definition area_extract_resident_range (a : MapArea) (start_vpn end_vpn : Z)
    : outcome (MapArea * ResidentSet) :=
  r ←! rs_extract_range (area_resident a) start_vpn end_vpn;
  Ret (area_set_resident a r.1, default rs_new r.2).

(** [append_resident] *)
Definition area_append_resident (a : MapArea) (page : FrameTracker)
    : outcome (MapArea * result unit FrameTracker) :=
  r ←! rs_insert (area_resident a) (rs_len (area_resident a)) page;
  Ret (area_set_resident a r.1, r.2).

(** [insert_resident_page] *)
Definition area_insert_resident_page (a : MapArea) (vpn : Z) (page : FrameTracker)
    (state : PageState) : outcome (MapArea * result unit FrameTracker) :=
  r ←! rs_insert_page_with_state (area_resident a) vpn (mkPage page state);
  Ret (area_set_resident a r.1, r.2).

(** [insert_resident_run] *)
Definition area_insert_resident_run (a : MapArea) (start_vpn : Z)
    (pages : list FrameTracker) (state : PageState)
    : MapArea * result unit (list FrameTracker) :=
  let '(rs', r) := rs_insert_run_with_state (area_resident a) start_vpn pages state in
  (area_set_resident a rs', r).

(** [replace_resident_page]: the previous frame, or the given one when absent. *)
Definition area_replace_resident_page (a : MapArea) (vpn : Z) (frame : FrameTracker)
    : MapArea * result FrameTracker FrameTracker :=
  match rs_lookup (area_resident a) vpn,
        rs_update (area_resident a) vpn (λ p, mkPage frame (rp_state p)) with
  | Some old, Some rs' => (area_set_resident a rs', Ok (rp_frame old))
  | _, _ => (a, Err frame)
  end.

(** [set_resident_state] *)
Definition area_set_resident_state (a : MapArea) (vpn : Z) (state : PageState)
    : MapArea * bool :=
  match rs_update (area_resident a) vpn (resident_page_set_state state) with
  | None => (a, false)
  | Some rs' => (area_set_resident a rs', true)
  end.

(** [set_all_resident_state] *)
Definition area_set_all_resident_state (a : MapArea) (state : PageState) : MapArea :=
  area_set_resident a (rs_map_pages (resident_page_set_state state) (area_resident a)).

(** [replace_resident] *)
Definition area_replace_resident (a : MapArea) (pages : list FrameTracker)
    : outcome (MapArea * ResidentSet) :=
  r ←! rs_replace_all (area_resident a) pages;
  Ret (area_set_resident a r.1, r.2).

(** [clone_resident_from]: the reference counts of the cloned frames are the
    memory set's concern. *)
Definition area_clone_resident_from (a source : MapArea) : MapArea :=
  area_set_resident a (area_resident source).

(** [MapArea::can_merge_with] *)
Definition area_can_merge_with (a next : MapArea) : bool :=
  bool_decide (end_va a = start_va next) &&
  bool_decide (area_flags a = area_flags next) &&
  backing_can_merge_with (area_backing a) (area_size a) (area_backing next).

(** [merge_with] *)
Definition area_merge_with (a next : MapArea) : outcome MapArea :=
  let offset := area_page_count a in
  r ←! rs_merge_from_at (area_resident a) offset (area_resident next);
  Ret (mkArea (start_va a) (end_va next) (area_flags a) r.1 (area_backing a)).

(** [split_at]: the left part stays in place and the right part, if any, is
    returned. *)
Definition area_split_at (a : MapArea) (split : Z) : outcome (MapArea * option MapArea) :=
  if bool_decide (split ≤ start_va a) || bool_decide (end_va a ≤ split)
  then Ret (a, None)
  else if negb (bool_decide (split mod PAGE_SIZE = 0)) then Ret (a, None)
  else
    let right_idx := (split - start_va a) / PAGE_SIZE in
    r ←! (if rs_is_empty (area_resident a) then Ret (area_resident a, Some rs_new)
          else rs_split_off (area_resident a) right_idx);
    match r with
    | (l, None) => Ret (area_set_resident a l, None)
    | (l, Some right_resident) =>
        Ret (mkArea (start_va a) split (area_flags a) l (area_backing a),
             Some (mkArea split (end_va a) (area_flags a) right_resident
                     (split_right (area_backing a) (split - start_va a))))
    end.

(** ** Well-formedness and the view of one page *)

Record area_wf (a : MapArea) : Prop := {
  wf_start : 0 ≤ start_va a;
  wf_lt : start_va a < end_va a;
  wf_max : end_va a ≤ USIZE_MAX;
  wf_start_aligned : page_aligned (start_va a);
  wf_end_aligned : page_aligned (end_va a);
  wf_resident : rs_wf (area_resident a);
  wf_inside : ∀ v p, rmap (area_resident a) !! v = Some p → v < area_page_count a
}.

(** Same backing of one page, files compared by identity. *)
Definition backing_equiv (b c : MapAreaBacking) : Prop :=
  match b, c with
  | Anonymous, Anonymous => True
  | AnonymousShared, AnonymousShared => True
  | FileBacked f o s, FileBacked g o' s' => file_equiv f g ∧ o = o' ∧ s = s'
  | SharedMemory i b o, SharedMemory i' b' o' => i = i' ∧ b = b' ∧ o = o'
  | _, _ => False
  end.

Record page_view := mkView {
  pv_flags : Z;
  pv_backing : MapAreaBacking;
  pv_page : option ResidentPage
}.

Definition page_view_equiv (v w : page_view) : Prop :=
  pv_flags v = pv_flags w ∧ backing_equiv (pv_backing v) (pv_backing w) ∧
  pv_page v = pv_page w.

#[export] Instance page_view_Equiv : Equiv page_view := page_view_equiv.

(** What an area says of the page at address [va]. *)
Definition area_page (a : MapArea) (va : Z) : option page_view :=
  if area_contains a va then
    Some (mkView (area_flags a)
            (split_right (area_backing a) (align_down va - start_va a))
            (rmap (area_resident a) !! ((align_down va - start_va a) / PAGE_SIZE)))
  else None.

(** ** Equivalence of views *)

#[export] Instance backing_equiv_equivalence : Equivalence backing_equiv.
Proof.
  split.
  - intros []; simpl; done.
  - intros [] []; simpl; try done; [|intuition congruence].
    intros (H1&->&->). split_and!; [by symmetry|done..].
  - intros [] []; simpl; try done; intros [];  simpl; try done; [|intuition congruence].
    intros (H1&->&->) (H2&->&->). split_and!; [by etransitivity|done..].
Qed.

#[export] Instance page_view_equivalence : Equivalence (≡@{page_view}).
Proof.
  split.
  - intros v. split_and!; [done| |done]. reflexivity.
  - intros v w (?&?&?). split_and!; [done| |done]. by symmetry.
  - intros u v w (H1&?&H3) (H1'&?&H3'). split_and!; [congruence| |congruence]. by etransitivity.
Qed.

Lemma sat_add_assoc a b c : 0 ≤ a → 0 ≤ b → 0 ≤ c → sat_add (sat_add a b) c = sat_add a (b + c).
Proof. unfold sat_add. lia. Qed.

(** Offsets of a backing are machine words. *)
Definition backing_ok (b : MapAreaBacking) : Prop :=
  match b with
  | FileBacked _ o _ | SharedMemory _ _ o => is_usize o
  | _ => True
  end.

Lemma split_right_0 b : backing_ok b → split_right b 0 = b.
Proof. destruct b; simpl; unfold is_usize, sat_add; intros; f_equal; lia. Qed.

Lemma split_right_ok b d : 0 ≤ d → backing_ok b → backing_ok (split_right b d).
Proof. destruct b; simpl; unfold is_usize, sat_add, USIZE_MAX; lia. Qed.

Lemma split_right_add b d e :
  backing_ok b → 0 ≤ d → 0 ≤ e → split_right (split_right b d) e = split_right b (d + e).
Proof. destruct b; simpl; unfold is_usize; intros; f_equal; apply sat_add_assoc; lia. Qed.

(** Mergeable backings continue each other. *)
Lemma backing_merge_equiv b c len d :
  backing_can_merge_with b len c = true → backing_ok b → 0 ≤ len → 0 ≤ d →
  backing_equiv (split_right c d) (split_right b (len + d)).
Proof.
  destruct b, c; simpl; try done; intros H Hok Hl Hd; unfold is_usize in *.
  - apply andb_true_iff in H as [[H1 H2]%andb_true_iff H3].
    apply bool_decide_eq_true_1 in H1, H3. subst. split_and!; [|by apply sat_add_assoc; lia|done].
    right. by rewrite same_file_sym.
  - apply andb_true_iff in H as [[H1 H2]%andb_true_iff H3].
    apply bool_decide_eq_true_1 in H1, H2, H3. subst. split_and!; [done..|by apply sat_add_assoc; lia].
Qed.

(** ** Arithmetic of an area *)

Lemma page_index_bound s va e :
  page_aligned s → page_aligned e → s ≤ va < e →
  0 ≤ align_down va - s ∧ align_down va + PAGE_SIZE ≤ e ∧ page_aligned (align_down va - s) ∧
  (align_down va - s) / PAGE_SIZE < (e - s) / PAGE_SIZE.
Proof. unfold page_aligned, align_down, PAGE_SIZE. lia. Qed.

Lemma area_contains_spec a va : area_contains a va = true ↔ start_va a ≤ va < end_va a.
Proof. unfold area_contains. rewrite andb_true_iff, !bool_decide_eq_true. done. Qed.

Lemma area_page_Some a va :
  start_va a ≤ va < end_va a →
  area_page a va = Some (mkView (area_flags a)
    (split_right (area_backing a) (align_down va - start_va a))
    (rmap (area_resident a) !! ((align_down va - start_va a) / PAGE_SIZE))).
Proof. intros H. unfold area_page. by rewrite (proj2 (area_contains_spec a va) H). Qed.

Lemma area_page_None a va : ¬ (start_va a ≤ va < end_va a) → area_page a va = None.
Proof.
  intros H. unfold area_page. destruct (area_contains a va) eqn:E; [|done].
  by apply area_contains_spec in E.
Qed.

Lemma area_page_count_pos a : area_wf a → 0 < area_page_count a.
Proof.
  intros []. unfold area_page_count, area_size, page_aligned, PAGE_SIZE in *. lia.
Qed.

Lemma area_resident_bounds a v p :
  area_wf a → rmap (area_resident a) !! v = Some p → 0 ≤ v < area_page_count a.
Proof.
  intros Hwf H. split; [|by eapply wf_inside]. by eapply rmap_bounds; [apply Hwf|].
Qed.

Lemma area_wf_set_resident a r :
  area_wf a → rs_wf r → (∀ v p, rmap r !! v = Some p → v < area_page_count a) →
  area_wf (area_set_resident a r).
Proof. intros [] Hr Hb. by split. Qed.

Lemma area_wf_with_backing s e f b :
  0 ≤ s < e → e ≤ USIZE_MAX → page_aligned s → page_aligned e →
  area_wf (area_with_backing s e f b).
Proof. intros. split; simpl; [lia..|done|done|apply rs_wf_new|]. intros v p. by rewrite rmap_new. Qed.

#[export] Hint Resolve wf_resident area_wf_set_resident : kernel.

(** ** Splitting *)

(** The resident part of [split_at]. *)
Lemma split_resident_ok rs n :
  rs_wf rs → 0 ≤ n →
  ∃ l r, (if rs_is_empty rs then Ret (rs, Some rs_new) else rs_split_off rs n) = Ret (l, Some r) ∧
    rs_wf l ∧ rs_wf r ∧
    (∀ v, rmap l !! v = if decide (v < n) then rmap rs !! v else None) ∧
    (∀ v, rmap r !! v = if decide (0 ≤ v) then rmap rs !! (v + n) else None).
Proof.
  intros Hw Hn. destruct (rs_is_empty rs) eqn:E.
  - apply rs_is_empty_rmap in E; [|done]. exists rs, rs_new.
    split_and!; [done|done|apply rs_wf_new|..]; intros v; rewrite ?rmap_new, E, ?lookup_empty;
      by case_decide.
  - by apply rs_split_off_ok.
Qed.

Lemma area_split_at_ok a x :
  area_wf a → backing_ok (area_backing a) → start_va a < x < end_va a → page_aligned x →
  ∃ l r, area_split_at a x = Ret (l, Some r) ∧ area_wf l ∧ area_wf r ∧
    start_va l = start_va a ∧ end_va l = x ∧ start_va r = x ∧ end_va r = end_va a ∧
    area_flags l = area_flags a ∧ area_flags r = area_flags a ∧
    area_backing l = area_backing a ∧ area_backing r = split_right (area_backing a) (x - start_va a) ∧
    (∀ va, area_page a va = if decide (va < x) then area_page l va else area_page r va).
Proof.
  intros Hwf Hbk Hx Hal. pose proof Hwf as [].
  unfold area_split_at. rewrite !bool_decide_eq_false_2 by lia. simpl.
  rewrite bool_decide_eq_true_2 by done. simpl.
  set (n := (x - start_va a) / PAGE_SIZE).
  assert (Hn : 0 ≤ n ∧ n * PAGE_SIZE = x - start_va a).
  { subst n. unfold page_aligned, PAGE_SIZE in *. lia. }
  destruct (split_resident_ok (area_resident a) n) as (l&r&->&Hwl&Hwr&Hl&Hr); [done|lia|].
  eexists _, _. split; [done|]. split; [|split].
  - split; simpl; try done; [lia..|]. unfold area_page_count, area_size. simpl.
    intros v p Hv. rewrite Hl in Hv. case_decide; [|done]. lia.
  - split; simpl; try done; [lia..|]. unfold area_page_count, area_size. simpl.
    intros v p Hv. rewrite Hr in Hv. case_decide; [|done].
    apply wf_inside0 in Hv. unfold area_page_count, area_size in Hv.
    unfold page_aligned, PAGE_SIZE in *. lia.
  - split_and!; [done..|]. intros va.
    destruct (decide (start_va a ≤ va < end_va a)) as [Hva|Hva].
    2:{ rewrite area_page_None by done. case_decide; symmetry; apply area_page_None; simpl; lia. }
    rewrite area_page_Some by done. case_decide.
    + rewrite area_page_Some by (simpl; lia). simpl. rewrite Hl, decide_True; [done|].
      apply (page_index_bound _ va x); [done..|lia].
    + rewrite area_page_Some by (simpl; lia). simpl.
      destruct (page_index_bound x va (end_va a)) as (?&?&?&?); [done..|lia|].
      rewrite Hr, decide_True by (unfold PAGE_SIZE; lia). do 2 f_equal.
      * rewrite split_right_add by (done || lia). f_equal. lia.
      * f_equal. unfold page_aligned, PAGE_SIZE in *. lia.
Qed.

(** ** Merging *)

Lemma area_merge_with_ok a b :
  area_wf a → area_wf b → backing_ok (area_backing a) → area_can_merge_with a b = true →
  ∃ m, area_merge_with a b = Ret m ∧ area_wf m ∧
    start_va m = start_va a ∧ end_va m = end_va b ∧ area_flags m = area_flags a ∧
    area_backing m = area_backing a ∧
    (∀ va, area_page m va ≡ if decide (va < end_va a) then area_page a va else area_page b va).
Proof.
  intros Hwa Hwb Hok Hm. pose proof Hwa as []. pose proof Hwb as [].
  unfold area_can_merge_with in Hm. apply andb_true_iff in Hm as [[H1 H2]%andb_true_iff H3].
  apply bool_decide_eq_true_1 in H1, H2.
  assert (Hsz : area_size a = area_page_count a * PAGE_SIZE).
  { unfold area_page_count, area_size, page_aligned, PAGE_SIZE in *. lia. }
  pose proof (area_page_count_pos a Hwa) as Hpc.
  destruct (rs_merge_from_at_ok (area_resident a) (area_page_count a) (area_resident b))
    as (rs'&Hrs&Hw'&Hrm); [done|done|lia| | |].
  { intros [s ps] Hin.
    pose proof (runs_wf_last_resident _ _ _ (proj1 wf_resident1) Hin) as [p Hp].
    change (rmap (area_resident b) !! (s + zlen ps - 1) = Some p) in Hp.
    apply area_resident_bounds in Hp; [|done]. simpl.
    unfold area_page_count, area_size, PAGE_SIZE, USIZE_MAX in *. lia. }
  { intros v [p Hp]. apply area_resident_bounds in Hp; [|done].
    destruct (rmap (area_resident a) !! _) eqn:E; [|done].
    apply area_resident_bounds in E; [lia|done]. }
  unfold area_merge_with. rewrite Hrs. eexists. split; [done|]. simpl.
  assert (Hpcm : (end_va b - start_va a) / PAGE_SIZE = area_page_count a + area_page_count b).
  { unfold area_page_count, area_size, page_aligned, PAGE_SIZE in *. lia. }
  split; [|split_and!; [done..|]].
  - split; simpl; try done; [lia..|]. intros v p. unfold area_page_count at 1, area_size. simpl.
    rewrite Hpcm, Hrm. pose proof (area_page_count_pos b Hwb).
    intros [Hp|[_ Hp]]%union_Some; apply area_resident_bounds in Hp; try done; lia.
  - intros va. destruct (decide (start_va a ≤ va < end_va b)) as [Hva|Hva].
    2:{ rewrite area_page_None by done. case_decide; rewrite area_page_None by lia; done. }
    rewrite area_page_Some by done. simpl. case_decide.
    + rewrite area_page_Some by lia. constructor. split_and!; [done|reflexivity|]. simpl.
      destruct (page_index_bound (start_va a) va (end_va a)) as (?&?&?&?); [done..|lia|].
      rewrite Hrm. destruct (rmap (area_resident b) !! _) eqn:E.
      { apply area_resident_bounds in E; [|done]. unfold area_page_count, area_size in E. lia. }
      by rewrite (left_id_L None union).
    + rewrite area_page_Some by lia.
      destruct (page_index_bound (start_va b) va (end_va b)) as (?&?&?&?); [done..|lia|].
      constructor. split_and!; [done| |]; simpl.
      * replace (align_down va - start_va a) with (area_size a + (align_down va - start_va b))
          by (unfold area_size; lia). symmetry. apply backing_merge_equiv; [done..| |lia].
        unfold area_size. lia.
      * rewrite Hrm. destruct (rmap (area_resident a) !! _) eqn:E.
        { apply area_resident_bounds in E; [|done].
          exfalso. unfold area_page_count, area_size, page_aligned, PAGE_SIZE in *. lia. }
        rewrite (right_id_L None union). f_equal.
        unfold area_page_count, area_size, page_aligned, PAGE_SIZE in *. lia.
Qed.
