(* ===== verification/Buddy.v ===== *)
(** * The buddy frame allocator behind the kernel's frame allocator
    (src/vendor/buddy_system_allocator/src/frame.rs)

    [free_list] has one ordered set of block starts per order.  [buddy_frames]
    lists every free frame; allocation and deallocation are shown to move exactly
    the frames of one aligned block out of, and back into, that list, whatever
    splitting and merging the order lists need. *)

From S2P Require Import Prelude BTree.

(** ** Machine arithmetic of the source *)

(** [next_power_of_two]: wraps to zero past [2^63] in a release build. *)
Definition next_power_of_two (n : Z) : Z :=
  if bool_decide (n ≤ 1) then 1 else wrap (2 ^ Z.log2_up n).

(** [1 << (usize::BITS - num.leading_zeros() - 1)] *)
Definition prev_power_of_two (num : Z) : Z := 2 ^ Z.log2 num.

(** [x & (!x + 1)] *)
Definition lowbit (x : Z) : Z := Z.land x (wrap (- x)).

(** ** The allocator *)

Definition ORDER : nat := 32.

Record Buddy := mkBuddy {
  free_list : list (list Z);
  allocated : Z;
  total : Z
}.

Definition buddy_new : Buddy := mkBuddy (replicate ORDER []) 0 0.

(** [self.free_list[i].insert(x)] *)
Definition fl_insert (fl : list (list Z)) (i : nat) (x : Z) : list (list Z) :=
  <[i := bset_insert Z.lt (fl !!! i) x]> fl.

(** [self.free_list[i].remove(&x)] *)
Definition fl_remove (fl : list (list Z)) (i : nat) (x : Z) : list (list Z) :=
  <[i := bset_remove (fl !!! i) x]> fl.

(** The loop of [add_frame]; each iteration adds at least one frame, so
    [end - start] iterations are enough. *)
Fixpoint add_frame_loop (fuel : nat) (fl : list (list Z)) (acc current_start end_ : Z)
    : list (list Z) * Z :=
  match fuel with
  | O => (fl, acc)
  | S fuel' =>
      if bool_decide (current_start < end_) then
        let lb := if bool_decide (0 < current_start) then lowbit current_start else 32 in
        let size := Z.min (Z.min lb (prev_power_of_two (end_ - current_start)))
                          (2 ^ Z.of_nat (ORDER - 1)) in
        add_frame_loop fuel' (fl_insert fl (trailing_zeros size) current_start)
          (acc + size) (current_start + size) end_
      else (fl, acc)
  end.

(** [add_frame]; [assert!(start <= end)] *)
Definition buddy_add_frame (b : Buddy) (start end_ : Z) : outcome Buddy :=
  if bool_decide (start ≤ end_) then
    let '(fl, n) := add_frame_loop (Z.to_nat (end_ - start)) (free_list b) 0 start end_ in
    Ret (mkBuddy fl (allocated b) (wrap (total b + n)))
  else Panic.

(** [for j in (class + 1..class + k + 1).rev()]: split a block of order
    [class + k] down; [false] is the early [return None]. *)
Fixpoint split_loop (fl : list (list Z)) (class k : nat) : list (list Z) * bool :=
  match k with
  | O => (fl, true)
  | S k' =>
      let j := (class + k)%nat in
      match head (fl !!! j) with
      | Some block =>
          let fl := fl_insert fl (j - 1) (block + 2 ^ Z.of_nat (j - 1)) in
          let fl := fl_insert fl (j - 1) block in
          let fl := fl_remove fl j block in
          split_loop fl class k'
      | None => (fl, false)
      end
  end.

(** The first non-empty order from [class] on. *)
Fixpoint first_nonempty (fl : list (list Z)) (orders : list nat) : option nat :=
  match orders with
  | [] => None
  | i :: rest => if bool_decide (fl !!! i = []) then first_nonempty fl rest else Some i
  end.

(** [alloc_power_of_two] *)
Definition alloc_power_of_two (b : Buddy) (size : Z) : Buddy * option Z :=
  let class := trailing_zeros size in
  match first_nonempty (free_list b) (seq class (length (free_list b) - class)) with
  | None => (b, None)
  | Some i =>
      let '(fl, ok) := split_loop (free_list b) class (i - class) in
      if ok then
        match head (fl !!! class) with
        | Some result =>
            (mkBuddy (fl_remove fl class result) (wrap (allocated b + size)) (total b),
             Some result)
        | None => (mkBuddy fl (allocated b) (total b), None)
        end
      else (mkBuddy fl (allocated b) (total b), None)
  end.

(** [alloc] *)
Definition buddy_alloc (b : Buddy) (count : Z) : Buddy * option Z :=
  alloc_power_of_two b (next_power_of_two count).

(** The merge loop of [dealloc_power_of_two]: at most one iteration per order. *)
Fixpoint merge_buddies (fuel : nat) (fl : list (list Z)) (current_ptr : Z) (current_class : nat)
    : list (list Z) :=
  match fuel with
  | O => fl
  | S fuel' =>
      if bool_decide (current_class < length fl)%nat then
        let buddy := Z.lxor current_ptr (2 ^ Z.of_nat current_class) in
        if bool_decide (buddy ∈ fl !!! current_class) then
          merge_buddies fuel' (fl_remove fl current_class buddy)
            (Z.min current_ptr buddy) (S current_class)
        else fl_insert fl current_class current_ptr
      else fl
  end.

(** [dealloc_power_of_two] *)
Definition dealloc_power_of_two (b : Buddy) (start_frame size : Z) : Buddy :=
  let class := trailing_zeros size in
  mkBuddy (merge_buddies (S (length (free_list b)) - class) (free_list b) start_frame class)
    (wrap (allocated b - size)) (total b).

(** [dealloc] *)
Definition buddy_dealloc (b : Buddy) (start_frame count : Z) : Buddy :=
  dealloc_power_of_two b start_frame (next_power_of_two count).

(** ** Free frames and invariant *)

(** The frames of the blocks of one order. *)
Definition class_frames (i : nat) (blocks : list Z) : list Z :=
  mjoin ((λ b, seqZ b (2 ^ Z.of_nat i)) <$> blocks).

Definition fl_frames (fl : list (list Z)) : list Z := mjoin (imap class_frames fl).

Definition buddy_frames (b : Buddy) : list Z := fl_frames (free_list b).

(** Blocks of order [i] start at multiples of [2^i]. *)
Definition block_aligned (i : nat) (x : Z) : Prop := 0 ≤ x ∧ (2 ^ Z.of_nat i | x).

Record fl_wf (fl : list (list Z)) : Prop := {
  fl_order : length fl = ORDER;
  fl_sorted : ∀ i l, fl !! i = Some l → StronglySorted Z.lt l;
  fl_aligned : ∀ i l x, fl !! i = Some l → x ∈ l → block_aligned i x
}.

(** No frame is free twice. *)
Record buddy_wf (b : Buddy) : Prop := {
  buddy_fl : fl_wf (free_list b);
  buddy_nodup : NoDup (buddy_frames b)
}.

(** ** Arithmetic *)

Lemma trailing_zeros_pow2 k : trailing_zeros (2 ^ Z.of_nat k) = k.
Proof.
  induction k as [|k IH]; [done|]. rewrite Nat2Z.inj_succ, Z.pow_succ_r by lia.
  destruct (2 ^ Z.of_nat k) as [|p|p] eqn:E; [lia| |lia].
  change (2 * Z.pos p) with (Z.pos p~0). simpl in *. by rewrite IH.
Qed.

Lemma next_power_of_two_spec n :
  1 ≤ n ≤ 2 ^ 63 →
  ∃ k : nat, next_power_of_two n = 2 ^ Z.of_nat k ∧ n ≤ 2 ^ Z.of_nat k ∧ (k ≤ 63)%nat ∧
    (n ≠ 1 → 2 ^ (Z.of_nat k - 1) < n).
Proof.
  intros Hn. unfold next_power_of_two. case_bool_decide.
  - exists 0%nat. simpl. split_and!; lia.
  - pose proof (Z.log2_up_spec n ltac:(lia)) as [H1 H2].
    assert (Z.log2_up n ≤ 63).
    { rewrite <-(Z.log2_up_pow2 63) by lia. apply Z.log2_up_le_mono. lia. }
    pose proof (Z.log2_up_nonneg n). exists (Z.to_nat (Z.log2_up n)). rewrite Z2Nat.id by lia.
    split_and!; [|lia|lia|intros _; by replace (Z.log2_up n - 1) with (Z.pred (Z.log2_up n)) by lia].
    apply wrap_small. unfold is_usize, USIZE_MAX. split; [lia|].
    assert (2 ^ Z.log2_up n ≤ 2 ^ 63); [|lia]. apply Z.pow_le_mono_r; lia.
Qed.

Lemma next_power_of_two_pow2 (k : nat) :
  (k ≤ 63)%nat → next_power_of_two (2 ^ Z.of_nat k) = 2 ^ Z.of_nat k.
Proof.
  intros Hk. unfold next_power_of_two. case_bool_decide as H.
  - assert (0 < 2 ^ Z.of_nat k) by (apply Z.pow_pos_nonneg; lia). lia.
  - rewrite Z.log2_up_pow2 by lia. apply wrap_small. unfold is_usize, USIZE_MAX.
    assert (2 ^ Z.of_nat k ≤ 2 ^ 63) by (apply Z.pow_le_mono_r; lia).
    assert (0 < 2 ^ Z.of_nat k) by (apply Z.pow_pos_nonneg; lia). lia.
Qed.

Lemma pow2_pos k : 0 < 2 ^ Z.of_nat k.
Proof. apply Z.pow_pos_nonneg; lia. Qed.

Lemma pow2_S k : 2 ^ Z.of_nat (S k) = 2 ^ Z.of_nat k + 2 ^ Z.of_nat k.
Proof. rewrite Nat2Z.inj_succ, Z.pow_succ_r by lia. lia. Qed.

(** The buddy of an aligned block is its neighbour in the enclosing block. *)
Lemma buddy_of_aligned k p :
  block_aligned k p →
  let q := Z.lxor p (2 ^ Z.of_nat k) in
  block_aligned k q ∧ block_aligned (S k) (Z.min p q) ∧
  ((q = p + 2 ^ Z.of_nat k ∧ Z.min p q = p) ∨ (p = q + 2 ^ Z.of_nat k ∧ Z.min p q = q)).
Proof.
  intros [Hp [m ->]]. pose proof (pow2_pos k). pose proof (pow2_S k) as H2.
  set (K := Z.of_nat k) in *.
  assert (Hm : 0 ≤ m) by nia.
  assert (Hx : Z.lxor (m * 2 ^ K) (2 ^ K) = Z.lxor m 1 * 2 ^ K).
  { rewrite <-!Z.shiftl_mul_pow2 by lia. rewrite <-(Z.shiftl_1_l K) at 1.
    by rewrite Z.shiftl_lxor. }
  cbv zeta. rewrite Hx. destruct (Z.Even_or_Odd m) as [[n ->]|[n ->]].
  - replace (Z.lxor (2 * n) 1) with (2 * n + 1) by (rewrite <-Z.add_nocarry_lxor; [done|]; by destruct n).
    split; [split; [nia|by exists (2 * n + 1)]|]. rewrite Z.min_l by nia.
    split; [split; [nia|]|left; split; lia]. exists n. rewrite H2. lia.
  - replace (Z.lxor (2 * n + 1) 1) with (2 * n).
    2:{ replace (2 * n + 1) with (Z.lxor (2 * n) 1).
        - by rewrite Z.lxor_assoc, Z.lxor_nilpotent, Z.lxor_0_r.
        - rewrite <-Z.add_nocarry_lxor; [done|]. by destruct n. }
    split; [split; [nia|by exists (2 * n)]|]. rewrite Z.min_r by nia.
    split; [split; [nia|]|right; split; lia]. exists n. rewrite H2. lia.
Qed.

(** ** Free lists and their frames *)

#[export] Instance class_frames_perm i : Proper ((≡ₚ) ==> (≡ₚ)) (class_frames i).
Proof. intros l l' Hl. unfold class_frames. by rewrite Hl. Qed.

Lemma class_frames_cons i x l : class_frames i (x :: l) = seqZ x (2 ^ Z.of_nat i) ++ class_frames i l.
Proof. done. Qed.

Lemma fl_frames_at fl i l :
  fl !! i = Some l → fl_frames fl ≡ₚ class_frames i l ++ fl_frames (<[i := []]> fl).
Proof.
  intros Hl. pose proof (lookup_lt_Some _ _ _ Hl) as Hlt.
  rewrite <-(take_drop_middle fl i l Hl) at 1. rewrite insert_take_drop by done.
  unfold fl_frames. rewrite !imap_app, !join_app. simpl.
  rewrite length_take, Nat.min_l, Nat.add_0_r by lia.
  rewrite !app_assoc. by rewrite (Permutation_app_comm (class_frames i l)).
Qed.

Lemma fl_frames_set fl i l l' :
  fl !! i = Some l →
  fl_frames (<[i := l']> fl) ≡ₚ class_frames i l' ++ fl_frames (<[i := []]> fl).
Proof.
  intros Hl. rewrite (fl_frames_at (<[i:=l']> fl) i l').
  - by rewrite list_insert_insert_eq.
  - apply list_lookup_insert_eq. by eapply lookup_lt_Some.
Qed.

Lemma bset_insert_perm (l : list Z) x : x ∉ l → bset_insert Z.lt l x ≡ₚ x :: l.
Proof.
  induction l as [|y l IH]; simpl; intros Hx; [done|].
  apply not_elem_of_cons in Hx as [??]. repeat case_bool_decide; try done.
  rewrite IH by done. by apply perm_swap.
Qed.

Lemma bset_remove_perm (l : list Z) x :
  StronglySorted Z.lt l → x ∈ l → l ≡ₚ x :: bset_remove l x.
Proof.
  intros Hs Hx. pose proof (bset_sorted_NoDup Z.lt l Hs) as Hnd.
  apply NoDup_Permutation; [done| |].
  - constructor; [|by apply NoDup_filter]. rewrite elem_of_bset_remove. naive_solver.
  - intros y. rewrite elem_of_cons, elem_of_bset_remove. destruct (decide (y = x)); naive_solver.
Qed.

Lemma lookup_total_Some (fl : list (list Z)) i l : fl !! i = Some l → fl !!! i = l.
Proof. intros H. by rewrite list_lookup_total_alt, H. Qed.

Lemma fl_lookup fl i : fl_wf fl → (i < ORDER)%nat → fl !! i = Some (fl !!! i).
Proof. intros Hw Hi. apply list_lookup_lookup_total_lt. by rewrite (fl_order _ Hw). Qed.

Lemma elem_of_fl_frames fl i l x :
  fl !! i = Some l → x ∈ l → ∀ y, y ∈ seqZ x (2 ^ Z.of_nat i) → y ∈ fl_frames fl.
Proof.
  intros Hl Hx y Hy. rewrite (fl_frames_at fl i l Hl). apply elem_of_app. left.
  unfold class_frames. apply list_elem_of_join. eexists. split; [exact Hy|].
  apply list_elem_of_fmap. eauto.
Qed.

Lemma fl_insert_frames fl i x :
  fl_wf fl → (i < ORDER)%nat → x ∉ fl !!! i →
  fl_frames (fl_insert fl i x) ≡ₚ seqZ x (2 ^ Z.of_nat i) ++ fl_frames fl.
Proof.
  intros Hw Hi Hx. pose proof (fl_lookup fl i Hw Hi) as Hl. unfold fl_insert.
  rewrite (fl_frames_set _ _ _ _ Hl), (fl_frames_at _ _ _ Hl), bset_insert_perm by done.
  by rewrite class_frames_cons, app_assoc.
Qed.

Lemma fl_remove_frames fl i x :
  fl_wf fl → (i < ORDER)%nat → x ∈ fl !!! i →
  fl_frames fl ≡ₚ seqZ x (2 ^ Z.of_nat i) ++ fl_frames (fl_remove fl i x).
Proof.
  intros Hw Hi Hx. pose proof (fl_lookup fl i Hw Hi) as Hl. unfold fl_remove.
  rewrite (fl_frames_set _ _ _ _ Hl), (fl_frames_at _ _ _ Hl).
  rewrite (bset_remove_perm (fl !!! i) x) at 1; [|by eapply fl_sorted|done].
  by rewrite class_frames_cons, app_assoc.
Qed.

Lemma fl_wf_set fl i l :
  fl_wf fl → StronglySorted Z.lt l → (∀ x, x ∈ l → block_aligned i x) → fl_wf (<[i := l]> fl).
Proof.
  intros [] Hs Ha. split.
  - by rewrite length_insert.
  - intros j l' Hj. apply list_lookup_insert_Some in Hj as [(->&->&_)|[_ Hj]]; [done|by eauto].
  - intros j l' x Hj Hx. apply list_lookup_insert_Some in Hj as [(->&->&_)|[_ Hj]]; [by auto|by eauto].
Qed.

Lemma fl_wf_insert fl i x :
  fl_wf fl → (i < ORDER)%nat → block_aligned i x → fl_wf (fl_insert fl i x).
Proof.
  intros Hw Hi Hx. pose proof (fl_lookup fl i Hw Hi) as Hl. apply fl_wf_set; [done| |].
  - apply (bset_insert_sorted Z.lt). by eapply fl_sorted.
  - intros y Hy. apply (elem_of_bset_insert Z.lt) in Hy as [->|Hy]; [done|]. by eapply fl_aligned.
Qed.

Lemma fl_wf_remove fl i x : fl_wf fl → (i < ORDER)%nat → fl_wf (fl_remove fl i x).
Proof.
  intros Hw Hi. pose proof (fl_lookup fl i Hw Hi) as Hl. apply fl_wf_set; [done| |].
  - apply bset_remove_sorted. by eapply fl_sorted.
  - intros y [_ Hy]%elem_of_bset_remove. by eapply fl_aligned.
Qed.

Lemma fl_insert_lookup_ne fl i j x : i ≠ j → fl_insert fl i x !!! j = fl !!! j.
Proof. intros. unfold fl_insert. by rewrite list_lookup_total_insert_ne. Qed.

Lemma fl_remove_lookup_ne fl i j x : i ≠ j → fl_remove fl i x !!! j = fl !!! j.
Proof. intros. unfold fl_remove. by rewrite list_lookup_total_insert_ne. Qed.

Lemma fl_remove_insert_comm fl i j x y :
  i ≠ j → fl_remove (fl_insert fl i x) j y = fl_insert (fl_remove fl j y) i x.
Proof.
  intros. unfold fl_remove, fl_insert. rewrite !list_lookup_total_insert_ne by done.
  by rewrite list_insert_insert_ne.
Qed.

(** A block whose frames are not free is in no list. *)
Lemma block_not_free fl i x :
  fl_wf fl → (i < ORDER)%nat → x ∉ fl_frames fl → x ∉ fl !!! i.
Proof.
  intros Hw Hi Hx Hin. apply Hx. eapply elem_of_fl_frames; [by apply fl_lookup|exact Hin|].
  apply elem_of_seqZ. pose proof (pow2_pos i). lia.
Qed.

(** ** Splitting *)

Lemma seqZ_halves x k :
  seqZ x (2 ^ Z.of_nat (S k)) = seqZ x (2 ^ Z.of_nat k) ++ seqZ (x + 2 ^ Z.of_nat k) (2 ^ Z.of_nat k).
Proof. rewrite pow2_S. pose proof (pow2_pos k). apply seqZ_app; lia. Qed.

Lemma block_aligned_halves k x :
  block_aligned (S k) x → block_aligned k x ∧ block_aligned k (x + 2 ^ Z.of_nat k).
Proof.
  intros [Hx [m ->]]. rewrite pow2_S. pose proof (pow2_pos k). pose proof (pow2_S k).
  split; (split; [nia|]).
  - exists (2 * m). lia.
  - exists (2 * m + 1). lia.
Qed.

(** Splitting one block keeps the frames and makes the lower order non-empty. *)
Lemma split_once fl k x :
  fl_wf fl → NoDup (fl_frames fl) → (S k < ORDER)%nat → x ∈ fl !!! S k →
  let fl' := fl_remove (fl_insert (fl_insert fl k (x + 2 ^ Z.of_nat k)) k x) (S k) x in
  fl_wf fl' ∧ fl_frames fl' ≡ₚ fl_frames fl ∧ fl' !!! k ≠ [].
Proof.
  intros Hw Hnd Hk Hx fl'.
  pose proof (fl_remove_frames fl (S k) x Hw Hk Hx) as Hrm.
  set (R := fl_remove fl (S k) x) in *.
  assert (HwR : fl_wf R) by (by apply fl_wf_remove).
  destruct (block_aligned_halves k x) as [Ha1 Ha2].
  { eapply (fl_aligned fl Hw); [by apply fl_lookup|done]. }
  assert (Hfl' : fl' = fl_insert (fl_insert R k (x + 2 ^ Z.of_nat k)) k x).
  { subst fl' R. by rewrite !fl_remove_insert_comm by lia. }
  rewrite Hrm, seqZ_halves in Hnd. apply NoDup_app in Hnd as (Hnd1&Hdj&Hnd2).
  pose proof (pow2_pos k) as Hp.
  assert (Hn2 : x + 2 ^ Z.of_nat k ∉ R !!! k).
  { apply block_not_free; [done|lia|]. apply Hdj. apply elem_of_app. right.
    apply elem_of_seqZ. lia. }
  set (R2 := fl_insert R k (x + 2 ^ Z.of_nat k)) in *.
  assert (HwR2 : fl_wf R2) by (apply fl_wf_insert; [done|lia|done]).
  assert (Hn1 : x ∉ R2 !!! k).
  { subst R2. unfold fl_insert. rewrite list_lookup_total_insert_eq by (rewrite (fl_order _ HwR); lia).
    intros Hin. apply (elem_of_bset_insert Z.lt) in Hin as [?|Hin]; [lia|]. revert Hin.
    apply block_not_free; [done|lia|]. apply Hdj. apply elem_of_app. left. apply elem_of_seqZ. lia. }
  split_and!.
  - rewrite Hfl'. apply fl_wf_insert; [done|lia|done].
  - rewrite Hfl', fl_insert_frames by (done || lia). subst R2.
    rewrite fl_insert_frames by (done || lia). rewrite Hrm, seqZ_halves. by rewrite app_assoc.
  - rewrite Hfl'. unfold fl_insert at 1.
    rewrite list_lookup_total_insert_eq by (rewrite (fl_order _ HwR2); lia).
    intros Hnil. assert (x ∈ ([] : list Z)) as Hin by (rewrite <-Hnil; apply (elem_of_bset_insert Z.lt); by left).
    by apply not_elem_of_nil in Hin.
Qed.

Lemma split_loop_ok fl class k :
  fl_wf fl → NoDup (fl_frames fl) → (class + k < ORDER)%nat → fl !!! (class + k)%nat ≠ [] →
  ∃ fl', split_loop fl class k = (fl', true) ∧ fl_wf fl' ∧ fl_frames fl' ≡ₚ fl_frames fl ∧
         fl' !!! class ≠ [].
Proof.
  revert fl. induction k as [|k IH]; intros fl Hw Hnd Hk Hne.
  { exists fl. rewrite Nat.add_0_r in Hne. done. }
  destruct (fl !!! (class + S k)%nat) as [|x l] eqn:Hl; [done|].
  assert (Hj : (class + S k)%nat = S (class + k)) by lia.
  destruct (split_once fl (class + k) x) as (Hw'&Hfr&Hne'); [done|done|lia| |].
  { rewrite <-Hj, Hl. by left. }
  simpl. rewrite Hl. simpl. rewrite Hj. rewrite Nat.sub_succ, Nat.sub_0_r.
  destruct (IH (fl_remove (fl_insert (fl_insert fl (class + k) (x + 2 ^ Z.of_nat (class + k)))
    (class + k) x) (S (class + k)) x)) as (fl'&->&?&Hfr'&?); [done|by rewrite Hfr|lia|done|].
  exists fl'. split_and!; [done..| |done]. by rewrite Hfr'.
Qed.

(** ** Allocation *)

Lemma first_nonempty_spec fl orders :
  match first_nonempty fl orders with
  | Some i => i ∈ orders ∧ fl !!! i ≠ []
  | None => ∀ i, i ∈ orders → fl !!! i = []
  end.
Proof.
  induction orders as [|i orders IH]; simpl; [by intros i ?%not_elem_of_nil|].
  case_bool_decide as H.
  - destruct (first_nonempty fl orders).
    + destruct IH. split; [by right|done].
    + intros j [->|?]%elem_of_cons; auto.
  - split; [by left|done].
Qed.

Lemma alloc_power_of_two_ok b (k : nat) :
  buddy_wf b → (k < ORDER)%nat →
  match alloc_power_of_two b (2 ^ Z.of_nat k) with
  | (b', Some r) => buddy_wf b' ∧ block_aligned k r ∧
      buddy_frames b ≡ₚ seqZ r (2 ^ Z.of_nat k) ++ buddy_frames b'
  | (b', None) => b' = b ∧ (∀ i, (k ≤ i < ORDER)%nat → free_list b !!! i = [])
  end.
Proof.
  intros [Hw Hnd] Hk. unfold alloc_power_of_two. rewrite trailing_zeros_pow2.
  rewrite (fl_order _ Hw). pose proof (first_nonempty_spec (free_list b) (seq k (ORDER - k))) as Hf.
  destruct (first_nonempty _ _) as [i|].
  - destruct Hf as [Hi Hne]. rewrite elem_of_seq in Hi.
    destruct (split_loop_ok (free_list b) k (i - k)) as (fl'&->&Hw'&Hfr&Hne'); [done|done|lia| |].
    { by replace (k + (i - k))%nat with i by lia. }
    destruct (fl' !!! k) as [|r l] eqn:Hl; [done|]. simpl.
    assert (Hr : r ∈ fl' !!! k) by (rewrite Hl; by left).
    pose proof (fl_remove_frames fl' k r Hw' ltac:(lia) Hr) as Hrm.
    assert (Hperm : fl_frames (free_list b) ≡ₚ
      seqZ r (2 ^ Z.of_nat k) ++ fl_frames (fl_remove fl' k r)) by (by rewrite <-Hfr).
    split; [split|split]; simpl.
    + by apply fl_wf_remove.
    + unfold buddy_frames in Hnd. rewrite Hperm in Hnd. by apply NoDup_app in Hnd as (_&_&?).
    + eapply fl_aligned; [done|by apply fl_lookup|done].
    + done.
  - split; [done|]. intros i Hi. apply Hf. apply elem_of_seq. lia.
Qed.

(** ** Deallocation *)

Lemma merge_buddies_ok fuel fl p k :
  fl_wf fl → block_aligned k p → (k + fuel = S ORDER)%nat → (k < ORDER)%nat →
  NoDup (seqZ p (2 ^ Z.of_nat k) ++ fl_frames fl) →
  Forall (λ x, x < 2 ^ Z.of_nat (ORDER - 1)) (seqZ p (2 ^ Z.of_nat k) ++ fl_frames fl) →
  fl_wf (merge_buddies fuel fl p k) ∧
  fl_frames (merge_buddies fuel fl p k) ≡ₚ seqZ p (2 ^ Z.of_nat k) ++ fl_frames fl.
Proof.
  revert fl p k. induction fuel as [|fuel IH]; intros fl p k Hw Ha Hf Hk Hnd Hlt; [lia|].
  simpl. rewrite bool_decide_eq_true_2 by (rewrite (fl_order _ Hw); lia).
  destruct (buddy_of_aligned k p Ha) as (Hab&Ham&Hcase). set (q := Z.lxor p _) in *.
  pose proof (pow2_pos k) as Hp.
  case_bool_decide as Hq.
  - pose proof (fl_remove_frames fl k q Hw Hk Hq) as Hrm.
    set (R := fl_remove fl k q) in *.
    assert (Hjoin : seqZ p (2 ^ Z.of_nat k) ++ fl_frames fl ≡ₚ
      seqZ (Z.min p q) (2 ^ Z.of_nat (S k)) ++ fl_frames R).
    { rewrite Hrm, seqZ_halves. destruct Hcase as [[Hq' ->]|[Hp' ->]].
      - rewrite <-Hq'. by rewrite app_assoc.
      - rewrite <-Hp'. rewrite !app_assoc. by rewrite (Permutation_app_comm (seqZ p _)). }
    rewrite Hjoin in Hnd, Hlt.
    destruct (decide (S k < ORDER)%nat) as [Hk'|Hk'].
    + destruct (IH R (Z.min p q) (S k)) as [? ->]; [by apply fl_wf_remove|done|lia|done|done|done|].
      split; [done|]. by symmetry.
    + exfalso. assert (k = ORDER - 1)%nat as -> by lia. apply Forall_app in Hlt as [Hlt _].
      rewrite Forall_seqZ in Hlt. pose proof (pow2_S (ORDER - 1)).
      destruct Ham as [Hm0 _]. specialize (Hlt (Z.min p q + 2 ^ Z.of_nat (ORDER - 1)) ltac:(lia)).
      simpl in Hlt. lia.
  - apply NoDup_app in Hnd as (_&Hdj&_). assert (p ∉ fl !!! k).
    { apply block_not_free; [done..|]. apply Hdj. apply elem_of_seqZ. lia. }
    split; [by apply fl_wf_insert|]. by apply fl_insert_frames.
Qed.

Lemma dealloc_power_of_two_ok b p (k : nat) :
  buddy_wf b → block_aligned k p → (k < ORDER)%nat →
  NoDup (seqZ p (2 ^ Z.of_nat k) ++ buddy_frames b) →
  Forall (λ x, x < 2 ^ Z.of_nat (ORDER - 1)) (seqZ p (2 ^ Z.of_nat k) ++ buddy_frames b) →
  let b' := dealloc_power_of_two b p (2 ^ Z.of_nat k) in
  buddy_wf b' ∧ buddy_frames b' ≡ₚ seqZ p (2 ^ Z.of_nat k) ++ buddy_frames b.
Proof.
  intros [Hw Hnd0] Ha Hk Hnd Hlt b'. subst b'. unfold dealloc_power_of_two, buddy_frames.
  rewrite trailing_zeros_pow2, (fl_order _ Hw). cbn [free_list].
  destruct (merge_buddies_ok (S ORDER - k) (free_list b) p k) as [? Hp]; [done|done|lia|done|done|done|].
  split; [split; [done|]|done]. unfold buddy_frames. simpl. by rewrite Hp.
Qed.

(** ** Adding a range *)

Lemma ldiff_pred_pow2 p : Z.ldiff (Zpos p) (Zpos p - 1) = 2 ^ Z.of_nat (pos_tz p).
Proof.
  induction p as [q _|q IH|]; [|simpl pos_tz|done].
  - rewrite Pos2Z.inj_xI. replace (2 * Z.pos q + 1 - 1) with (2 * Z.pos q) by lia.
    apply Z.bits_inj'. intros n Hn. rewrite Z.ldiff_spec. simpl (pos_tz _).
    change (2 ^ Z.of_nat 0) with (2 * 0 + 1).
    destruct (Z.eq_dec n 0) as [->|Hn0].
    + by rewrite !Z.testbit_odd_0, Z.testbit_even_0.
    + replace n with (Z.succ (n - 1)) by lia. rewrite !Z.testbit_odd_succ, Z.testbit_even_succ by lia.
      rewrite Z.bits_0. by destruct (Z.testbit _ _).
  - rewrite Nat2Z.inj_succ, Z.pow_succ_r, <-IH by lia. rewrite Pos2Z.inj_xO.
    replace (2 * Z.pos q - 1) with (2 * (Z.pos q - 1) + 1) by lia.
    apply Z.bits_inj'. intros n Hn. rewrite Z.ldiff_spec. destruct (Z.eq_dec n 0) as [->|Hn0].
    + by rewrite Z.testbit_odd_0, !Z.testbit_even_0.
    + replace n with (Z.succ (n - 1)) by lia.
      by rewrite Z.testbit_odd_succ, !Z.testbit_even_succ, Z.ldiff_spec by lia.
Qed.

Lemma lowbit_pow2 p :
  Zpos p ≤ USIZE_MAX → lowbit (Zpos p) = 2 ^ Z.of_nat (pos_tz p).
Proof.
  unfold USIZE_MAX. intros Hp. rewrite <-ldiff_pred_pow2. unfold lowbit, wrap.
  rewrite <-Z.land_ones by lia. rewrite (Z.land_comm (- _)), Z.land_assoc.
  rewrite (Z.land_ones (Z.pos p)), Z.mod_small by lia.
  rewrite Z.ldiff_land. f_equal. unfold Z.lnot. lia.
Qed.

Lemma pos_tz_divide p : (2 ^ Z.of_nat (pos_tz p) | Zpos p).
Proof.
  induction p as [q _|q IH|]; simpl pos_tz; [by exists (Zpos q~1); lia| |by exists 1].
  destruct IH as [m Hm]. exists m. rewrite Nat2Z.inj_succ, Z.pow_succ_r by lia.
  rewrite (Pos2Z.inj_xO q), Hm at 1. lia.
Qed.

Lemma pow2_min (a b : nat) : Z.min (2 ^ Z.of_nat a) (2 ^ Z.of_nat b) = 2 ^ Z.of_nat (Nat.min a b).
Proof.
  destruct (Nat.le_ge_cases a b).
  - rewrite Nat.min_l by done. apply Z.min_l. apply Z.pow_le_mono_r; lia.
  - rewrite Nat.min_r by done. apply Z.min_r. apply Z.pow_le_mono_r; lia.
Qed.

Lemma block_aligned_le (a b : nat) x : (a ≤ b)%nat → block_aligned b x → block_aligned a x.
Proof.
  intros Hab [Hx Hd]. split; [done|]. etransitivity; [|exact Hd].
  exists (2 ^ Z.of_nat (b - a)). rewrite <-Z.pow_add_r by lia. f_equal. lia.
Qed.

(** The size of each block that [add_frame] inserts: a power of two that divides the
    start, fits the range and has a free list. *)
Lemma add_frame_size start end_ :
  0 < start < end_ → end_ ≤ USIZE_MAX →
  ∃ k : nat, (k < ORDER)%nat ∧ block_aligned k start ∧ 2 ^ Z.of_nat k ≤ end_ - start ∧
    Z.min (Z.min (lowbit start) (prev_power_of_two (end_ - start))) (2 ^ Z.of_nat (ORDER - 1))
    = 2 ^ Z.of_nat k.
Proof.
  intros Hs He. destruct start as [|p|p]; [lia| |lia]. rewrite lowbit_pow2 by lia.
  unfold prev_power_of_two. pose proof (Z.log2_nonneg (end_ - Z.pos p)) as Hl.
  rewrite <-(Z2Nat.id (Z.log2 _)) by done. rewrite !pow2_min.
  set (m := Z.to_nat (Z.log2 _)). eexists. split; [|split; [|split; [|reflexivity]]].
  - unfold ORDER. lia.
  - eapply block_aligned_le; [|split; [lia|apply pos_tz_divide]]. lia.
  - etransitivity; [apply (Z.pow_le_mono_r 2 _ (Z.of_nat m)); lia|].
    subst m. rewrite Z2Nat.id by done. pose proof (Z.log2_spec (end_ - Z.pos p)). lia.
Qed.

Lemma add_frame_loop_ok fuel fl acc start end_ :
  fl_wf fl → 0 < start ≤ end_ → end_ ≤ USIZE_MAX → end_ - start ≤ Z.of_nat fuel →
  NoDup (seqZ start (end_ - start) ++ fl_frames fl) →
  let '(fl', n) := add_frame_loop fuel fl acc start end_ in
  fl_wf fl' ∧ n = acc + (end_ - start) ∧
  fl_frames fl' ≡ₚ seqZ start (end_ - start) ++ fl_frames fl.
Proof.
  revert fl acc start. induction fuel as [|fuel IH]; intros fl acc start Hw Hs He Hf Hnd; cbn [add_frame_loop].
  { rewrite seqZ_nil by lia. split_and!; [done|lia|done]. }
  case_bool_decide as Hlt; [|rewrite seqZ_nil by lia; split_and!; [done|lia|done]].
  rewrite bool_decide_eq_true_2 by lia.
  destruct (add_frame_size start end_) as (k&Hk&Ha&Hfit&Hsz); [lia|done|].
  rewrite Hsz, trailing_zeros_pow2. pose proof (pow2_pos k) as Hp.
  replace (end_ - start) with (2 ^ Z.of_nat k + (end_ - (start + 2 ^ Z.of_nat k))) in Hnd |- * by lia.
  rewrite seqZ_app in Hnd |- * by lia. set (rest := seqZ (start + _) _) in *.
  assert (Hnf : start ∉ fl !!! k).
  { apply NoDup_app in Hnd as (_&Hdj&_). apply block_not_free; [done..|]. apply Hdj.
    apply elem_of_app. left. apply elem_of_seqZ. lia. }
  pose proof (fl_insert_frames fl k start Hw Hk Hnf) as Hins.
  specialize (IH (fl_insert fl k start) (acc + 2 ^ Z.of_nat k) (start + 2 ^ Z.of_nat k)
    (fl_wf_insert _ _ _ Hw Hk Ha) ltac:(lia) He ltac:(lia)).
  fold rest in IH. destruct (add_frame_loop fuel _ _ _ _) as [fl' n].
  assert (Hperm : rest ++ fl_frames (fl_insert fl k start) ≡ₚ
    (seqZ start (2 ^ Z.of_nat k) ++ rest) ++ fl_frames fl).
  { rewrite Hins, !app_assoc. by rewrite (Permutation_app_comm rest). }
  destruct IH as (?&->&Hfr); [by rewrite Hperm|]. split_and!; [done|lia|]. by rewrite Hfr.
Qed.

Lemma buddy_add_frame_ok b start end_ :
  buddy_wf b → 0 < start ≤ end_ → end_ ≤ USIZE_MAX →
  NoDup (seqZ start (end_ - start) ++ buddy_frames b) →
  ∃ b', buddy_add_frame b start end_ = Ret b' ∧ buddy_wf b' ∧ allocated b' = allocated b ∧
    buddy_frames b' ≡ₚ seqZ start (end_ - start) ++ buddy_frames b.
Proof.
  intros [Hw _] Hs He Hnd. unfold buddy_add_frame. rewrite bool_decide_eq_true_2 by lia.
  pose proof (add_frame_loop_ok (Z.to_nat (end_ - start)) (free_list b) 0 start end_ Hw Hs He
    ltac:(lia) Hnd) as H.
  destruct (add_frame_loop _ _ _ _ _) as [fl' n]. destruct H as (?&_&Hfr).
  eexists. split; [done|]. split; [split; [done|]|split; [done|done]].
  unfold buddy_frames in *. simpl. by rewrite Hfr.
Qed.

(** ** Theorems *)

(** An allocation takes exactly one aligned power-of-two block of free frames,
    fails (changing nothing) only when no block of that order or above is free, and
    deallocating the block restores the free frames and the statistics. *)
Theorem buddy_alloc_dealloc b count k :
  buddy_wf b → (k < ORDER)%nat → next_power_of_two count = 2 ^ Z.of_nat k →
  is_usize (allocated b) → Forall (λ x, x < 2 ^ 31) (buddy_frames b) →
  match buddy_alloc b count with
  | (b', Some r) =>
      buddy_wf b' ∧ (2 ^ Z.of_nat k | r) ∧
      buddy_frames b ≡ₚ seqZ r (2 ^ Z.of_nat k) ++ buddy_frames b' ∧
      let b'' := buddy_dealloc b' r count in
      buddy_wf b'' ∧ buddy_frames b'' ≡ₚ buddy_frames b ∧ allocated b'' = allocated b
  | (b', None) => b' = b ∧ ∀ i, (k ≤ i < ORDER)%nat → free_list b !!! i = []
  end.
Proof.
  intros Hw Hk Hc Ha Hlt. unfold buddy_alloc. rewrite Hc.
  pose proof (alloc_power_of_two_ok b k Hw Hk) as H.
  assert (Hstat : ∀ r, (alloc_power_of_two b (2 ^ Z.of_nat k)).2 = Some r →
    allocated (alloc_power_of_two b (2 ^ Z.of_nat k)).1 = wrap (allocated b + 2 ^ Z.of_nat k)).
  { intros r. unfold alloc_power_of_two. repeat case_match; simpl; congruence. }
  destruct (alloc_power_of_two b _) as [b' [r|]]; [|done]. specialize (Hstat r eq_refl).
  destruct H as (Hw'&Hal&Hfr). split; [done|]. split; [apply Hal|]. split; [done|].
  unfold buddy_dealloc. rewrite Hc.
  destruct (dealloc_power_of_two_ok b' r k Hw' Hal Hk) as [Hw'' Hfr''].
  - rewrite <-Hfr. apply Hw.
  - by rewrite <-Hfr.
  - split_and!; [done|by rewrite Hfr'', Hfr|]. simpl in *. rewrite Hstat. unfold wrap, is_usize, USIZE_MAX in *.
    set (S := 2 ^ Z.of_nat k). rewrite Zminus_mod_idemp_l. replace (allocated b + S - S) with (allocated b) by lia.
    apply Z.mod_small. lia.
Qed.

Definition demo_buddy : Buddy :=
  match buddy_add_frame buddy_new 3 14 with Ret b => b | Panic => buddy_new end.

Lemma demo_buddy_wf : buddy_wf demo_buddy.
Proof.
  destruct (buddy_add_frame_ok (mkBuddy (replicate ORDER []) 0 0) 3 14) as (b&Hb&Hw&_).
  - split; [split|].
    + done.
    + intros i l Hl. apply lookup_replicate_1 in Hl as [-> _]. constructor.
    + intros i l x Hl Hx. apply lookup_replicate_1 in Hl as [-> _]. by apply not_elem_of_nil in Hx.
    + constructor.
  - lia.
  - unfold USIZE_MAX. lia.
  - rewrite app_nil_r. apply NoDup_seqZ.
  - unfold demo_buddy. change buddy_new with (mkBuddy (replicate ORDER []) 0 0). by rewrite Hb.
Qed.

Lemma buddy_alloc_dealloc_witness :
  (buddy_alloc demo_buddy 3).2 = Some 4 ∧
  match buddy_alloc demo_buddy 3 with
  | (b', Some r) => buddy_frames demo_buddy ≡ₚ seqZ r 4 ++ buddy_frames b'
  | (b', None) => False
  end.
Proof.
  split; [vm_compute; reflexivity|].
  pose proof (buddy_alloc_dealloc demo_buddy 3 2 demo_buddy_wf) as H.
  assert (E : (buddy_alloc demo_buddy 3).2 = Some 4) by (vm_compute; reflexivity).
  destruct (buddy_alloc demo_buddy 3) as [b' [r|]].
  - apply H.
    + unfold ORDER. lia.
    + vm_compute. reflexivity.
    + vm_compute. split; discriminate.
    + change (buddy_frames demo_buddy) with [3; 12; 13; 4; 5; 6; 7; 8; 9; 10; 11].
      repeat constructor.
  - simpl in E. discriminate E.
Defined.
