(* ===== verification/FrameAlloc.v ===== *)
(** * The physical frame allocator (src/os/src/mm/frame_allocator.rs)

    The allocator has a central buddy allocator, one array cache of free frames per
    CPU, a table of reference counters per managed frame and two counters of managed
    and free frames.  Every operation takes the state and the index of the CPU it
    runs on.  The client side of the buddy allocator is the class [FrameBackend], so
    that the theorems of this file hold for any backend with its laws; [Buddy.v]
    discharges them.

    Ownership is stated against two ghost lists: [T], the page numbers of the live
    [FrameTracker]s, and [R], the [(start, pages)] blocks handed out raw (page-table
    frames and contiguous DMA blocks). *)

From S2P Require Import Prelude BTree Frame Buddy.

(** ** The interface of the central allocator *)

(** The operations [frame_allocator.rs] calls on [buddy_system_allocator]. *)
Class FrameBackend (B : Type) := {
  fb_new : B;
  fb_add_frame : B → Z → Z → outcome B;
  fb_alloc : B → Z → B * option Z;
  fb_dealloc : B → Z → Z → B;
  fb_frames : B → list Z
}.

(** What the frame allocator relies on.  [fb_block_ok count p] says that the block
    for [count] frames may start at [p]. *)
Class FrameBackendLaws (B : Type) `{FrameBackend B} := {
  fb_wf : B → Prop;
  fb_block_ok : Z → Z → Prop;
  fb_new_wf : fb_wf fb_new ∧ fb_frames fb_new = [];
  fb_single_ok : ∀ p, 0 ≤ p → fb_block_ok 1 p;
  fb_add_frame_ok : ∀ b start end_, fb_wf b → 0 < start ≤ end_ → end_ ≤ USIZE_MAX →
    NoDup (seqZ start (end_ - start) ++ fb_frames b) →
    ∃ b', fb_add_frame b start end_ = Ret b' ∧ fb_wf b' ∧
      fb_frames b' ≡ₚ seqZ start (end_ - start) ++ fb_frames b;
  fb_alloc_ok : ∀ b count, fb_wf b → 1 ≤ count ≤ USIZE_MAX →
    match fb_alloc b count with
    | (b', Some p) => fb_wf b' ∧ fb_block_ok count p ∧ count ≤ 2 ^ 31 ∧
        fb_frames b ≡ₚ seqZ p (next_power_of_two count) ++ fb_frames b'
    | (b', None) => b' = b ∧ (count = 1 → fb_frames b = [])
    end;
  fb_dealloc_ok : ∀ b p count, fb_wf b → 1 ≤ count ≤ 2 ^ 31 → fb_block_ok count p →
    NoDup (seqZ p (next_power_of_two count) ++ fb_frames b) →
    Forall (λ x, x < 2 ^ 31) (seqZ p (next_power_of_two count) ++ fb_frames b) →
    fb_wf (fb_dealloc b p count) ∧
    fb_frames (fb_dealloc b p count) ≡ₚ seqZ p (next_power_of_two count) ++ fb_frames b
}.

#[export] Instance buddy_backend : FrameBackend Buddy := {
  fb_new := buddy_new;
  fb_add_frame := buddy_add_frame;
  fb_alloc := buddy_alloc;
  fb_dealloc := buddy_dealloc;
  fb_frames := buddy_frames
}.

(** ** Per-CPU caches *)

Definition FRAME_CACHE_CAPACITY : nat := 256.
Definition FRAME_CACHE_REFILL : nat := 64.
Definition FRAME_CACHE_FLUSH : nat := 64.

(** [LocalFrameCache] *)
Record LocalFrameCache := mkCache { lc_frames : list Z; lc_len : nat }.

Definition cache_empty : LocalFrameCache := mkCache (replicate FRAME_CACHE_CAPACITY 0) 0.

#[export] Instance cache_inhabited : Inhabited LocalFrameCache := populate cache_empty.

Definition cache_pop (c : LocalFrameCache) : LocalFrameCache * option Z :=
  if bool_decide (lc_len c = 0%nat) then (c, None)
  else let len := (lc_len c - 1)%nat in
       (mkCache (lc_frames c) len, Some (lc_frames c !!! len)).

Definition cache_push (c : LocalFrameCache) (ppn : Z) : LocalFrameCache * bool :=
  if bool_decide (lc_len c = FRAME_CACHE_CAPACITY) then (c, false)
  else (mkCache (<[lc_len c := ppn]> (lc_frames c)) (S (lc_len c)), true).

(** [drain(output)] with [room = output.len()]: the popped frames in order. *)
Fixpoint cache_drain (c : LocalFrameCache) (room : nat) : LocalFrameCache * list Z :=
  match room with
  | O => (c, [])
  | S room' =>
      match cache_pop c with
      | (c', Some ppn) =>
          let '(c'', out) := cache_drain c' room' in (c'', ppn :: out)
      | (c', None) => (c', [])
      end
  end.

(** ** Reference counters *)

Definition FRAME_REF_CHUNK_FRAMES : Z := 2 ^ 18.

Record FrameRefRegion := mkRegion {
  rr_start : Z;
  rr_end : Z;
  rr_chunks : list (list Z)
}.

(** The loop of [FrameRefRegion::new]: one chunk per iteration. *)
Fixpoint region_chunks (fuel : nat) (remaining : Z) : list (list Z) :=
  match fuel with
  | O => []
  | S fuel' =>
      if bool_decide (remaining ≠ 0) then
        let chunk_pages := Z.min remaining FRAME_REF_CHUNK_FRAMES in
        replicate (Z.to_nat chunk_pages) 0 :: region_chunks fuel' (remaining - chunk_pages)
      else []
  end.

(** [FrameRefRegion::new]; [pages.div_ceil(FRAME_REF_CHUNK_FRAMES)] chunks. *)
Definition region_new (start_ppn end_ppn : Z) : FrameRefRegion :=
  let pages := end_ppn - start_ppn in
  let chunks := (pages + FRAME_REF_CHUNK_FRAMES - 1) / FRAME_REF_CHUNK_FRAMES in
  mkRegion start_ppn end_ppn (region_chunks (Z.to_nat chunks) pages).

(** [slot]: the chunk's index and the index in the chunk. *)
Definition region_slot (r : FrameRefRegion) (ppn : Z) : option (nat * nat) :=
  if bool_decide (ppn < rr_start r ∨ rr_end r ≤ ppn) then None
  else
    let offset := ppn - rr_start r in
    let ci := Z.to_nat (offset / FRAME_REF_CHUNK_FRAMES) in
    match rr_chunks r !! ci with
    | Some _ => Some (ci, Z.to_nat (offset mod FRAME_REF_CHUNK_FRAMES))
    | None => None
    end.

(** [counter] *)
Definition region_counter (r : FrameRefRegion) (ppn : Z) : option Z :=
  match region_slot r ppn with
  | Some (ci, slot) => (rr_chunks r !!! ci) !! slot
  | None => None
  end.

(** A store through the reference [counter] returns. *)
Definition region_store (r : FrameRefRegion) (ppn v : Z) : FrameRefRegion :=
  match region_slot r ppn with
  | Some (ci, slot) =>
      mkRegion (rr_start r) (rr_end r)
        (<[ci := <[slot := v]> (rr_chunks r !!! ci)]> (rr_chunks r))
  | None => r
  end.

(** [iter().find_map(|region| region.counter(ppn))] *)
Fixpoint find_counter (rs : list FrameRefRegion) (ppn : Z) : option Z :=
  match rs with
  | [] => None
  | r :: rs' =>
      match region_counter r ppn with
      | Some c => Some c
      | None => find_counter rs' ppn
      end
  end.

Fixpoint store_counter (rs : list FrameRefRegion) (ppn v : Z) : list FrameRefRegion :=
  match rs with
  | [] => []
  | r :: rs' =>
      match region_counter r ppn with
      | Some _ => region_store r ppn v :: rs'
      | None => r :: store_counter rs' ppn v
      end
  end.

Definition U32_MAX : Z := 2 ^ 32 - 1.

Section allocator.
Context {B : Type} `{!FrameBackend B}.

(** ** State: the statics of the module, and the frames' bytes *)

Record FrameState := mkFS {
  FRAME_ALLOCATOR : B;
  MEM_REGIONS : list (Z * Z);
  FRAME_REF_REGIONS : option (list FrameRefRegion);
  FRAME_CACHES : list LocalFrameCache;
  TOTAL_MANAGED_FRAMES : Z;
  FREE_MANAGED_FRAMES : Z;
  phys : gmap Z (list Z)
}.

Definition fs_init : FrameState :=
  mkFS fb_new [] None (replicate MAX_CPUS cache_empty) 0 0 ∅.

Definition set_backend (s : FrameState) (b : B) : FrameState :=
  mkFS b (MEM_REGIONS s) (FRAME_REF_REGIONS s) (FRAME_CACHES s)
    (TOTAL_MANAGED_FRAMES s) (FREE_MANAGED_FRAMES s) (phys s).
Definition set_refs (s : FrameState) (rs : list FrameRefRegion) : FrameState :=
  mkFS (FRAME_ALLOCATOR s) (MEM_REGIONS s) (Some rs) (FRAME_CACHES s)
    (TOTAL_MANAGED_FRAMES s) (FREE_MANAGED_FRAMES s) (phys s).
Definition set_caches (s : FrameState) (cs : list LocalFrameCache) : FrameState :=
  mkFS (FRAME_ALLOCATOR s) (MEM_REGIONS s) (FRAME_REF_REGIONS s) cs
    (TOTAL_MANAGED_FRAMES s) (FREE_MANAGED_FRAMES s) (phys s).
Definition set_free (s : FrameState) (n : Z) : FrameState :=
  mkFS (FRAME_ALLOCATOR s) (MEM_REGIONS s) (FRAME_REF_REGIONS s) (FRAME_CACHES s)
    (TOTAL_MANAGED_FRAMES s) (wrap n) (phys s).
Definition set_phys (s : FrameState) (m : gmap Z (list Z)) : FrameState :=
  mkFS (FRAME_ALLOCATOR s) (MEM_REGIONS s) (FRAME_REF_REGIONS s) (FRAME_CACHES s)
    (TOTAL_MANAGED_FRAMES s) (FREE_MANAGED_FRAMES s) m.

(** ** Boot *)

(** [add_frames_range] *)
Definition add_frames_range (s : FrameState) (start end_ : Z) : outcome FrameState :=
  let start_ppn := Z.max (wrap (start + PAGE_SIZE - 1) / PAGE_SIZE) 1 in
  let end_ppn := end_ / PAGE_SIZE in
  if bool_decide (start_ppn < end_ppn) then
    b ←! fb_add_frame (FRAME_ALLOCATOR s) start_ppn end_ppn;
    let pages := end_ppn - start_ppn in
    Ret (mkFS b (MEM_REGIONS s ++ [(start_ppn, end_ppn)]) (FRAME_REF_REGIONS s) (FRAME_CACHES s)
      (wrap (TOTAL_MANAGED_FRAMES s + pages)) (wrap (FREE_MANAGED_FRAMES s + pages)) (phys s))
  else Ret s.

(** [finalize_frame_refcounts]: [call_once] *)
Definition finalize_frame_refcounts (s : FrameState) : FrameState :=
  match FRAME_REF_REGIONS s with
  | Some _ => s
  | None => set_refs s ((λ '(start, end_), region_new start end_) <$> MEM_REGIONS s)
  end.

(** ** Counters *)

(** [frame_ref_counter(ppn)]: panics without a table or outside of it. *)
Definition frame_ref_counter (s : FrameState) (ppn : Z) : outcome Z :=
  match FRAME_REF_REGIONS s with
  | Some rs => match find_counter rs ppn with Some c => Ret c | None => Panic end
  | None => Panic
  end.

(** [fetch_add]/[fetch_sub] on the [AtomicU32]: the old value and the state after. *)
Definition fetch_add_counter (s : FrameState) (ppn d : Z) : outcome (FrameState * Z) :=
  match FRAME_REF_REGIONS s with
  | Some rs =>
      match find_counter rs ppn with
      | Some old => Ret (set_refs s (store_counter rs ppn ((old + d) mod 2 ^ 32)), old)
      | None => Panic
      end
  | None => Panic
  end.

(** [is_managed_range] *)
Definition is_managed_range (s : FrameState) (start_ppn pages : Z) : bool :=
  if bool_decide (pages = 0) then true
  else
    match checked_add start_ppn pages with
    | None => false
    | Some end_ppn =>
        match FRAME_REF_REGIONS s with
        | Some rs => existsb (λ r, bool_decide (rr_start r ≤ start_ppn ∧ end_ppn ≤ rr_end r)) rs
        | None => existsb (λ r, bool_decide (r.1 ≤ start_ppn ∧ end_ppn ≤ r.2)) (MEM_REGIONS s)
        end
    end.

(** [frame_cache_cpu] *)
Definition frame_cache_cpu (cpu : nat) : nat := Nat.min cpu (MAX_CPUS - 1).

(** ** The central allocator *)

(** The loop of [central_alloc_run]; an iteration halves [pages] or discards at least
    one frame, so [64] plus the number of free frames iterations are enough. *)
Fixpoint central_alloc_loop (fuel : nat) (s : FrameState) (pages : Z)
    : FrameState * option (Z * Z) :=
  match fuel with
  | O => (s, None)
  | S fuel' =>
      if bool_decide (pages ≠ 0) then
        match fb_alloc (FRAME_ALLOCATOR s) pages with
        | (b, Some ppn) =>
            let s := set_backend s b in
            if is_managed_range s ppn pages then (s, Some (ppn, pages))
            else central_alloc_loop fuel' s pages
        | (b, None) => central_alloc_loop fuel' (set_backend s b) (Z.shiftr pages 1)
        end
      else (s, None)
  end.

(** [central_alloc_run] *)
Definition central_alloc_run (s : FrameState) (max_pages : Z) : FrameState * option (Z * Z) :=
  if bool_decide (max_pages = 0) then (s, None)
  else central_alloc_loop (64 + length (fb_frames (FRAME_ALLOCATOR s))) s (2 ^ Z.log2 max_pages).

(** [central_dealloc_pages] *)
Definition central_dealloc_pages (s : FrameState) (pages : list Z) : FrameState :=
  set_backend s (foldl (λ b ppn, fb_dealloc b ppn 1) (FRAME_ALLOCATOR s) pages).

(** The loop of [drain_all_frame_caches] from cache [i] on. *)
Fixpoint drain_caches_from (s : FrameState) (i n : nat) : FrameState :=
  match n with
  | O => s
  | S n' =>
      let '(c, pages) := cache_drain (FRAME_CACHES s !!! i) FRAME_CACHE_CAPACITY in
      let s := set_caches s (<[i := c]> (FRAME_CACHES s)) in
      drain_caches_from (central_dealloc_pages s pages) (S i) n'
  end.

(** [drain_all_frame_caches] *)
Definition drain_all_frame_caches (s : FrameState) : FrameState :=
  drain_caches_from s 0 (length (FRAME_CACHES s)).

(** ** The cached paths *)

(** The refill loop: push each frame, collecting those that do not fit. *)
Fixpoint cache_refill (c : LocalFrameCache) (ppns : list Z) : LocalFrameCache * list Z :=
  match ppns with
  | [] => (c, [])
  | ppn :: rest =>
      let '(c', pushed) := cache_push c ppn in
      let '(c'', overflow) := cache_refill c' rest in
      (c'', if pushed then overflow else ppn :: overflow)
  end.

(** [alloc_cached_frame] *)
Definition alloc_cached_frame (s : FrameState) (cpu : nat) : FrameState * option Z :=
  let cpu := frame_cache_cpu cpu in
  match cache_pop (FRAME_CACHES s !!! cpu) with
  | (c, Some ppn) => (set_caches s (<[cpu := c]> (FRAME_CACHES s)), Some ppn)
  | (_, None) =>
      let '(s, run) :=
        match central_alloc_run s (Z.of_nat FRAME_CACHE_REFILL) with
        | (s, Some run) => (s, Some run)
        | (s, None) =>
            central_alloc_run (drain_all_frame_caches s) (Z.of_nat FRAME_CACHE_REFILL)
        end in
      match run with
      | None => (s, None)
      | Some (start_ppn, pages) =>
          let '(c, overflow) :=
            cache_refill (FRAME_CACHES s !!! cpu) (seqZ (start_ppn + 1) (pages - 1)) in
          let s := set_caches s (<[cpu := c]> (FRAME_CACHES s)) in
          (central_dealloc_pages s overflow, Some start_ppn)
      end
  end.

(** [cache_deallocated_frame] *)
Definition cache_deallocated_frame (s : FrameState) (cpu : nat) (ppn : Z) : FrameState :=
  let cpu := frame_cache_cpu cpu in
  let '(c, flushed) :=
    match cache_push (FRAME_CACHES s !!! cpu) ppn with
    | (c, true) => (c, [])
    | (c, false) =>
        let '(c, out) := cache_drain c FRAME_CACHE_FLUSH in
        ((cache_push c ppn).1, out)
    end in
  central_dealloc_pages (set_caches s (<[cpu := c]> (FRAME_CACHES s))) flushed.

(** [dealloc_frame_inner]: an unmanaged frame is ignored. *)
Definition dealloc_frame_inner (s : FrameState) (cpu : nat) (ppn : Z) : FrameState :=
  if is_managed_range s ppn 1 then
    cache_deallocated_frame (set_free s (FREE_MANAGED_FRAMES s + 1)) cpu ppn
  else s.

(** ** Frame trackers *)

(** [FrameTracker::new]: [assert_eq!(old, 0)] *)
Definition tracker_new (s : FrameState) (ppn : Z) : outcome (FrameState * FrameTracker) :=
  '(s, old) ←! fetch_add_counter s ppn 1;
  if bool_decide (old = 0) then Ret (s, mkTracker (mkPPN ppn)) else Panic.

(** [clone]: [assert!(old != 0 && old != u32::MAX)] *)
Definition tracker_clone (s : FrameState) (t : FrameTracker) : outcome (FrameState * FrameTracker) :=
  '(s, old) ←! fetch_add_counter s (ppn_raw (ft_ppn t)) 1;
  if bool_decide (old ≠ 0 ∧ old ≠ U32_MAX) then Ret (s, t) else Panic.

(** [drop]: [assert!(old != 0)]; the last owner frees the frame. *)
Definition tracker_drop (s : FrameState) (cpu : nat) (t : FrameTracker) : outcome FrameState :=
  let ppn := ppn_raw (ft_ppn t) in
  '(s, old) ←! fetch_add_counter s ppn (-1);
  if bool_decide (old ≠ 0) then
    if bool_decide (old = 1) then Ret (dealloc_frame_inner s cpu ppn) else Ret s
  else Panic.

(** [ref_count] *)
Definition tracker_ref_count (s : FrameState) (t : FrameTracker) : outcome Z :=
  frame_ref_counter s (ppn_raw (ft_ppn t)).

(** [into_raw_ppn]: [assert_eq!(old, 1)] *)
Definition tracker_into_raw_ppn (s : FrameState) (t : FrameTracker)
    : outcome (FrameState * PhysPageNum) :=
  '(s, old) ←! fetch_add_counter s (ppn_raw (ft_ppn t)) (-1);
  if bool_decide (old = 1) then Ret (s, ft_ppn t) else Panic.

Definition ZERO_PAGE : list Z := replicate (Z.to_nat PAGE_SIZE) 0.

(** [alloc_frame]: the tracked frame is zeroed. *)
Definition alloc_frame (s : FrameState) (cpu : nat) : outcome (FrameState * option FrameTracker) :=
  match alloc_cached_frame s cpu with
  | (s, None) => Ret (s, None)
  | (s, Some ppn) =>
      let s := set_free s (FREE_MANAGED_FRAMES s - 1) in
      '(s, tracker) ←! tracker_new s ppn;
      Ret (set_phys s (<[ppn := ZERO_PAGE]> (phys s)), Some tracker)
  end.

(** [dealloc_frame]: [assert_eq!(load, 0)] *)
Definition dealloc_frame (s : FrameState) (cpu : nat) (p : PhysPageNum) : outcome FrameState :=
  c ←! frame_ref_counter s (ppn_raw p);
  if bool_decide (c = 0) then Ret (dealloc_frame_inner s cpu (ppn_raw p)) else Panic.

(** ** Contiguous runs *)

(** The loop of [alloc_contiguous_frames]: it drains the caches once, and otherwise
    returns or discards at least one frame. *)
Fixpoint alloc_contiguous_loop (fuel : nat) (s : FrameState) (pages : Z) (drained : bool)
    : FrameState * option Z :=
  match fuel with
  | O => (s, None)
  | S fuel' =>
      match fb_alloc (FRAME_ALLOCATOR s) pages with
      | (b, None) =>
          let s := set_backend s b in
          if drained then (s, None)
          else alloc_contiguous_loop fuel' (drain_all_frame_caches s) pages true
      | (b, Some ppn) =>
          let s := set_backend s b in
          if is_managed_range s ppn pages
          then (set_free s (FREE_MANAGED_FRAMES s - pages), Some ppn)
          else alloc_contiguous_loop fuel' s pages drained
      end
  end.

(** Every frame a cache of the state holds. *)
Definition cache_content (c : LocalFrameCache) : list Z := take (lc_len c) (lc_frames c).
Definition cached_frames (s : FrameState) : list Z := mjoin (cache_content <$> FRAME_CACHES s).

(** [alloc_contiguous_frames] *)
Definition alloc_contiguous_frames (s : FrameState) (pages : Z) : FrameState * option Z :=
  if bool_decide (pages = 0) then (s, Some 0)
  else alloc_contiguous_loop
         (2 + length (fb_frames (FRAME_ALLOCATOR s)) + length (cached_frames s)) s pages false.

(** [dealloc_contiguous_frames] *)
Definition dealloc_contiguous_frames (s : FrameState) (start_ppn pages : Z) : FrameState :=
  if bool_decide (pages ≠ 0) then
    if is_managed_range s start_ppn pages then
      let s := set_backend s (fb_dealloc (FRAME_ALLOCATOR s) start_ppn pages) in
      set_free s (FREE_MANAGED_FRAMES s + pages)
    else s
  else s.

(** [remaining_frames] and [total_frames] *)
Definition remaining_frames (s : FrameState) : Z := FREE_MANAGED_FRAMES s.
Definition total_frames (s : FrameState) : Z := TOTAL_MANAGED_FRAMES s.

(** ** Boot and page-table frames (src/os/src/main.rs) *)

(** [add_available_frames] for a kernel image [_start.._end]: what lies inside the
    page-rounded image is not handed to the allocator. *)
Definition add_available_frames (s : FrameState) (kernel_start kernel_end_sym start end_ : Z)
    : outcome (FrameState * Z) :=
  let kernel_end := sat_add kernel_end_sym (PAGE_SIZE - 1) / PAGE_SIZE * PAGE_SIZE in
  if bool_decide (end_ ≤ start) then Ret (s, 0)
  else if bool_decide (end_ ≤ kernel_start ∨ kernel_end ≤ start) then
    s ←! add_frames_range s start end_; Ret (s, 1)
  else
    '(s, count) ←! (if bool_decide (start < kernel_start)
                    then (s ←! add_frames_range s start kernel_start; Ret (s, 1))
                    else Ret (s, 0));
    (if bool_decide (kernel_end < end_)
     then (s ←! add_frames_range s kernel_end end_; Ret (s, count + 1))
     else Ret (s, count)).

(** The loop of [rust_main] over the memory areas of the platform, [(start, len)]. *)
Fixpoint add_memory_areas (s : FrameState) (kernel_start kernel_end_sym : Z)
    (areas : list (Z * Z)) : outcome FrameState :=
  match areas with
  | [] => Ret s
  | (start, len) :: rest =>
      if bool_decide (0 < len) then
        '(s, _) ←! add_available_frames s kernel_start kernel_end_sym start (sat_add start len);
        add_memory_areas s kernel_start kernel_end_sym rest
      else add_memory_areas s kernel_start kernel_end_sym rest
  end.

(** The frame allocator as [rust_main] leaves it. *)
Definition boot_frames (kernel_start kernel_end_sym : Z) (areas : list (Z * Z))
    : outcome FrameState :=
  s ←! add_memory_areas fs_init kernel_start kernel_end_sym areas;
  Ret (finalize_frame_refcounts s).

(** [KernelPageAlloc::alloc]: the physical address of a cleared page-table frame, [0]
    when there is none. *)
Definition page_alloc_alloc (s : FrameState) (cpu : nat) : outcome (FrameState * Z) :=
  '(s, frame) ←! alloc_frame s cpu;
  match frame with
  | None => Ret (s, 0)
  | Some frame =>
      '(s, ppn) ←! tracker_into_raw_ppn s frame;
      Ret (set_phys s (<[ppn_raw ppn := ZERO_PAGE]> (phys s)), ppn_addr ppn)
  end.

(** [KernelPageAlloc::dealloc]: only a page-aligned address names a frame. *)
Definition page_alloc_dealloc (s : FrameState) (cpu : nat) (paddr : Z) : outcome FrameState :=
  match ppn_try_from paddr with
  | Ok ppn => dealloc_frame s cpu ppn
  | Err _ => Ret s
  end.

End allocator.
Arguments FrameState : clear implicits.

(** ** The buddy allocator is such a backend *)

Lemma fl_frames_all_nil fl : (∀ i, (i < length fl)%nat → fl !!! i = []) → fl_frames fl = [].
Proof.
  intros H. unfold fl_frames. apply elem_of_nil_inv. intros x Hx.
  apply list_elem_of_join in Hx as (l&Hxl&Hl). apply list_elem_of_lookup in Hl as [i Hi].
  rewrite list_lookup_imap in Hi. destruct (fl !! i) as [l'|] eqn:E; [|done].
  simplify_eq/=. pose proof (lookup_lt_Some _ _ _ E). apply lookup_total_Some in E.
  rewrite H in E by done. subst l'. by apply not_elem_of_nil in Hxl.
Qed.

Lemma buddy_new_wf : buddy_wf buddy_new ∧ buddy_frames buddy_new = [].
Proof.
  assert (H : ∀ i l, replicate ORDER [] !! i = Some l → l = ([] : list Z)).
  { intros i l Hl. by apply lookup_replicate_1 in Hl as [-> _]. }
  assert (Hn : buddy_frames buddy_new = []) by done.
  split; [|done]. split; [split|rewrite Hn; constructor].
  - done.
  - intros i l Hl. rewrite (H i l Hl). constructor.
  - intros i l x Hl Hx. rewrite (H i l Hl) in Hx. by apply not_elem_of_nil in Hx.
Qed.

(** The order class of a request, when it has one. *)
Lemma request_class count :
  1 ≤ count ≤ USIZE_MAX →
  (∃ k : nat, (k < ORDER)%nat ∧ next_power_of_two count = 2 ^ Z.of_nat k ∧ count ≤ 2 ^ 31 ∧
     (count = 1 → k = 0%nat)) ∨
  (1 < count ∧ (ORDER ≤ trailing_zeros (next_power_of_two count))%nat).
Proof.
  intros Hc. destruct (decide (count ≤ 2 ^ 63)) as [Hle|Hgt].
  - destruct (next_power_of_two_spec count) as (k&Hk&Hck&Hk63&Hmin); [lia|].
    destruct (decide (k < ORDER)%nat) as [Hko|Hko].
    + left. exists k. split_and!; [done|done| |].
      * etransitivity; [done|]. apply Z.pow_le_mono_r; unfold ORDER in *; lia.
      * intros ->. unfold next_power_of_two in Hk. rewrite bool_decide_eq_true_2 in Hk by lia.
        destruct k; [done|]. rewrite pow2_S in Hk. pose proof (pow2_pos k). lia.
    + right. rewrite Hk, trailing_zeros_pow2. split; [|lia].
      destruct (decide (count = 1)) as [->|]; [|lia]. exfalso.
      unfold next_power_of_two in Hk. rewrite bool_decide_eq_true_2 in Hk by lia.
      destruct k; [unfold ORDER in *; lia|]. rewrite pow2_S in Hk. pose proof (pow2_pos k). lia.
  - right. split; [lia|]. unfold next_power_of_two. rewrite bool_decide_eq_false_2 by lia.
    assert (Z.log2_up count = 64) as ->; [|by vm_compute; lia].
    apply Z.log2_up_unique; unfold USIZE_MAX in *; lia.
Qed.

Lemma next_power_of_two_1 : next_power_of_two 1 = 2 ^ Z.of_nat 0.
Proof. done. Qed.

#[export] Program Instance buddy_backend_laws : FrameBackendLaws Buddy := {
  fb_wf := buddy_wf;
  fb_block_ok := λ count p, ∃ k : nat, (k < ORDER)%nat ∧
    next_power_of_two count = 2 ^ Z.of_nat k ∧ block_aligned k p
}.
Next Obligation. exact buddy_new_wf. Qed.
Next Obligation.
  intros p Hp. exists 0%nat. split_and!; [unfold ORDER; lia|done|].
  split; [done|]. exists p. simpl. lia.
Qed.
Next Obligation.
  intros b start end_ Hw Hs He Hnd.
  destruct (buddy_add_frame_ok b start end_ Hw Hs He Hnd) as (b'&?&?&_&?). eauto.
Qed.
Next Obligation.
  intros b count Hw Hc. unfold fb_alloc, buddy_backend, buddy_alloc.
  destruct (request_class count Hc) as [(k&Hk&Hn&Hle&H1)|[Hgt Hcls]].
  - rewrite Hn. pose proof (alloc_power_of_two_ok b k Hw Hk) as H.
    destruct (alloc_power_of_two b _) as [b' [p|]].
    + destruct H as (?&?&?). split_and!; [done|by exists k|done|done].
    + destruct H as [-> H]. split; [done|]. intros Hone. apply fl_frames_all_nil. intros i Hi.
      apply H. rewrite (fl_order _ (buddy_fl _ Hw)) in Hi. rewrite (H1 Hone). lia.
  - unfold alloc_power_of_two. rewrite (fl_order _ (buddy_fl _ Hw)).
    replace (ORDER - trailing_zeros (next_power_of_two count))%nat with 0%nat by lia. simpl.
    split; [done|lia].
Qed.
Next Obligation.
  intros b p count Hw Hc (k&Hk&Hn&Ha) Hnd Hlt. unfold fb_dealloc, fb_frames, buddy_backend in *.
  rewrite Hn in *. unfold buddy_dealloc. rewrite Hn. by apply dealloc_power_of_two_ok.
Qed.

(** ** Caches *)

Record cache_wf (c : LocalFrameCache) : Prop := {
  cache_capacity : length (lc_frames c) = FRAME_CACHE_CAPACITY;
  cache_len : (lc_len c ≤ FRAME_CACHE_CAPACITY)%nat
}.

Lemma cache_empty_wf : cache_wf cache_empty ∧ cache_content cache_empty = [].
Proof. split; [split|done]; [done|simpl; lia]. Qed.

Lemma cache_pop_ok c :
  cache_wf c →
  match cache_pop c with
  | (c', Some p) => cache_wf c' ∧ cache_content c = cache_content c' ++ [p] ∧ S (lc_len c') = lc_len c
  | (c', None) => c' = c ∧ lc_len c = 0%nat
  end.
Proof.
  intros [Hcap Hlen]. unfold cache_pop. case_bool_decide as H0; [done|].
  split; [split; simpl; [done|lia]|]. simpl. split; [|lia].
  unfold cache_content. simpl. rewrite <-(take_S_r (lc_frames c) (lc_len c - 1)).
  - f_equal. lia.
  - apply list_lookup_lookup_total_lt. lia.
Qed.

Lemma cache_push_ok c p :
  cache_wf c →
  match cache_push c p with
  | (c', true) => cache_wf c' ∧ cache_content c' = cache_content c ++ [p]
  | (c', false) => c' = c ∧ lc_len c = FRAME_CACHE_CAPACITY
  end.
Proof.
  intros [Hcap Hlen]. unfold cache_push. case_bool_decide as Hf; [done|].
  split; [split; simpl; [by rewrite length_insert|lia]|].
  unfold cache_content. simpl. rewrite (take_S_r _ _ p).
  - by rewrite take_insert_ge by lia.
  - apply list_lookup_insert_eq. lia.
Qed.

Lemma cache_drain_ok c room :
  cache_wf c →
  let '(c', out) := cache_drain c room in
  cache_wf c' ∧ cache_content c ≡ₚ out ++ cache_content c' ∧ lc_len c' = (lc_len c - room)%nat.
Proof.
  revert c. induction room as [|room IH]; intros c Hw; simpl; [split_and!; [done|done|lia]|].
  pose proof (cache_pop_ok c Hw) as Hp. destruct (cache_pop c) as [c' [p|]].
  - destruct Hp as (Hw'&Hc&Hl). specialize (IH c' Hw').
    destruct (cache_drain c' room) as [c'' out]. destruct IH as (?&Hc'&?).
    split_and!; [done| |lia]. rewrite Hc, Hc', (Permutation_app_comm _ [p]). done.
  - destruct Hp as [-> H0]. split_and!; [done|done|lia].
Qed.

Lemma cache_refill_ok c ppns :
  cache_wf c →
  let '(c', overflow) := cache_refill c ppns in
  cache_wf c' ∧ overflow ++ cache_content c' ≡ₚ ppns ++ cache_content c.
Proof.
  revert c. induction ppns as [|p ppns IH]; intros c Hw; simpl; [done|].
  pose proof (cache_push_ok c p Hw) as Hp. destruct (cache_push c p) as [c' []].
  - destruct Hp as [Hw' Hc]. specialize (IH c' Hw'). destruct (cache_refill c' ppns) as [c'' ov].
    destruct IH as [? IH]. split; [done|]. rewrite IH, Hc. rewrite app_assoc.
    by rewrite (Permutation_app_comm _ [p]).
  - destruct Hp as [-> _]. specialize (IH c Hw). destruct (cache_refill c ppns) as [c'' ov].
    destruct IH as [? IH]. split; [done|]. simpl. by rewrite IH.
Qed.

(** ** Reference counters *)

Lemma region_chunks_lookup fuel remaining i :
  0 ≤ remaining ≤ Z.of_nat fuel * FRAME_REF_CHUNK_FRAMES →
  Z.of_nat i * FRAME_REF_CHUNK_FRAMES < remaining →
  region_chunks fuel remaining !! i =
    Some (replicate (Z.to_nat (Z.min (remaining - Z.of_nat i * FRAME_REF_CHUNK_FRAMES)
                                     FRAME_REF_CHUNK_FRAMES)) 0).
Proof.
  assert (0 < FRAME_REF_CHUNK_FRAMES) by done.
  revert remaining i. induction fuel as [|fuel IH]; intros remaining i Hr Hi; [lia|].
  cbn [region_chunks]. rewrite bool_decide_eq_true_2 by lia. destruct i as [|i].
  - simpl. do 4 f_equal. lia.
  - simpl. rewrite IH by lia. do 4 f_equal. lia.
Qed.

Definition region_ok (r : FrameRefRegion) : Prop :=
  ∀ p, rr_start r ≤ p < rr_end r → is_Some (region_counter r p).

Lemma region_counter_range r p : is_Some (region_counter r p) → rr_start r ≤ p < rr_end r.
Proof. unfold region_counter, region_slot. case_bool_decide; [by intros [? ?]|lia]. Qed.

Lemma region_new_counter start end_ p :
  start ≤ p < end_ → region_counter (region_new start end_) p = Some 0.
Proof.
  intros Hp. unfold region_counter, region_slot. cbn [region_new rr_start rr_end rr_chunks].
  rewrite bool_decide_eq_false_2 by lia.
  assert (HC : FRAME_REF_CHUNK_FRAMES = 262144) by done.
  set (C := FRAME_REF_CHUNK_FRAMES) in *.
  assert (Hl := region_chunks_lookup (Z.to_nat ((end_ - start + C - 1) / C)) (end_ - start)
    (Z.to_nat ((p - start) / C)) ltac:(fold C; lia) ltac:(fold C; lia)). fold C in Hl.
  rewrite Hl. rewrite (list_lookup_total_correct _ _ _ Hl).
  apply lookup_replicate_2. lia.
Qed.

Lemma region_new_ok start end_ : region_ok (region_new start end_).
Proof. intros p Hp. eexists. by apply region_new_counter. Qed.

Lemma region_store_bounds r p v :
  rr_start (region_store r p v) = rr_start r ∧ rr_end (region_store r p v) = rr_end r.
Proof. unfold region_store. by destruct (region_slot r p) as [[??]|]. Qed.

Lemma region_store_counter r p v q :
  is_Some (region_counter r p) →
  region_counter (region_store r p v) q = if bool_decide (q = p) then Some v else region_counter r q.
Proof.
  intros Hp. pose proof (region_counter_range r p Hp) as Hr. revert Hp.
  unfold region_counter, region_store.
  destruct (region_slot r p) as [[ci slot]|] eqn:Hslot; [|by intros [? ?]].
  intros [c Hc]. unfold region_slot in *. cbn [rr_start rr_end rr_chunks].
  rewrite bool_decide_eq_false_2 in Hslot by lia.
  assert (HC : FRAME_REF_CHUNK_FRAMES = 262144) by done. set (C := FRAME_REF_CHUNK_FRAMES) in *.
  destruct (rr_chunks r !! _) as [chunk|] eqn:Hchunk; [|done]. injection Hslot as <- <-.
  pose proof (lookup_lt_Some _ _ _ Hchunk) as Hlt.
  destruct (decide (q < rr_start r ∨ rr_end r ≤ q)) as [Hq|Hq].
  { rewrite bool_decide_eq_true_2 by done. rewrite bool_decide_eq_false_2 by lia. done. }
  rewrite (bool_decide_eq_false_2 (q < _ ∨ _)) by lia.
  set (ci := Z.to_nat ((p - rr_start r) / C)) in *.
  set (cq := Z.to_nat ((q - rr_start r) / C)) in *.
  destruct (decide (cq = ci)) as [Heq|Hne].
  - rewrite Heq, list_lookup_insert_eq by done. rewrite Hchunk, list_lookup_total_insert_eq by done.
    case_bool_decide as Hqp.
    + subst q. apply list_lookup_insert_eq. by eapply lookup_lt_Some.
    + apply list_lookup_insert_ne. subst ci cq. rewrite HC in *. lia.
  - rewrite list_lookup_insert_ne by done. rewrite bool_decide_eq_false_2 by (intros ->; done).
    destruct (rr_chunks r !! cq); [|done]. by rewrite list_lookup_total_insert_ne.
Qed.

Lemma find_store_counter rs p v q :
  is_Some (find_counter rs p) →
  find_counter (store_counter rs p v) q = if bool_decide (q = p) then Some v else find_counter rs q.
Proof.
  induction rs as [|r rs IH]; simpl; [by intros [? ?]|].
  destruct (region_counter r p) as [c|] eqn:Hc; simpl.
  - intros _. rewrite region_store_counter by done. by case_bool_decide.
  - intros Hs. rewrite IH by done. case_bool_decide as Hqp; [by subst; rewrite Hc|done].
Qed.

Lemma store_counter_bounds rs p v :
  (λ r, (rr_start r, rr_end r)) <$> store_counter rs p v = (λ r, (rr_start r, rr_end r)) <$> rs.
Proof.
  induction rs as [|r rs IH]; cbn [store_counter]; [done|].
  destruct (region_counter r p); rewrite !fmap_cons.
  - destruct (region_store_bounds r p v) as [-> ->]. done.
  - by rewrite IH.
Qed.
