(* ===== verification/FrameOwnership.v ===== *)
(** * Ownership of physical frames

    The invariant of the frame allocator of [FrameAlloc.v]: the free frames (central
    and cached), the frames with live trackers and the raw blocks partition the
    managed frames, every reference counter is the number of live trackers, and the
    free counter is what [remaining_frames] promises.  Every operation of
    src/os/src/mm/frame_allocator.rs keeps it and does not panic when its caller
    owns what it gives back. *)

From S2P Require Import Prelude BTree Frame Buddy FrameAlloc.

(** Frames that may be given back to a backend together. *)
Definition frames_ok (l : list Z) : Prop := NoDup l ∧ Forall (λ x, 0 < x < 2 ^ 31) l.

#[export] Instance frames_ok_perm : Proper ((≡ₚ) ==> iff) frames_ok.
Proof. intros l l' Hl. unfold frames_ok. by rewrite Hl. Qed.

Lemma frames_ok_app_r l l' : frames_ok (l ++ l') → frames_ok l'.
Proof. intros [Hn Hf]. apply NoDup_app in Hn as (_&_&?). apply Forall_app in Hf as [_ ?]. done. Qed.

Lemma frames_ok_app_l l l' : frames_ok (l ++ l') → frames_ok l.
Proof. rewrite Permutation_app_comm. apply frames_ok_app_r. Qed.

Section ownership.
Context {B : Type} `{HB : FrameBackend B, !FrameBackendLaws B}.
Implicit Types s : FrameState B.

(** ** Free frames *)

Definition fs_free s : list Z := fb_frames (FRAME_ALLOCATOR s) ++ cached_frames s.

Record caches_ok (cs : list LocalFrameCache) : Prop := {
  caches_len : length cs = MAX_CPUS;
  caches_wf : Forall cache_wf cs
}.

Record fs_base s : Prop := {
  base_backend : fb_wf (FRAME_ALLOCATOR s);
  base_caches : caches_ok (FRAME_CACHES s)
}.

(** What moving free frames about does not touch. *)
Definition fs_shell s := (MEM_REGIONS s, FRAME_REF_REGIONS s, TOTAL_MANAGED_FRAMES s,
                          FREE_MANAGED_FRAMES s, phys s).

(** [s'] is [s] with the free frames moved about, less those in [out]. *)
Definition fs_moves s s' (out : list Z) : Prop :=
  fs_base s' ∧ fs_shell s' = fs_shell s ∧ fs_free s ≡ₚ out ++ fs_free s'.

Lemma fs_moves_trans s s' s'' out out' :
  fs_moves s s' out → fs_moves s' s'' out' → fs_moves s s'' (out ++ out').
Proof.
  intros (_&Hsh&Hp) (Hb&Hsh'&Hp'). split_and!; [done|by rewrite Hsh'|].
  rewrite Hp, Hp'. by rewrite app_assoc.
Qed.

Lemma is_managed_range_shell s s' p n :
  fs_shell s' = fs_shell s → is_managed_range s' p n = is_managed_range s p n.
Proof. intros [=Hm Hr _ _ _]. unfold is_managed_range. by rewrite Hm, Hr. Qed.

(** ** Caches of the state *)

Definition caches_content (cs : list LocalFrameCache) : list Z := mjoin (cache_content <$> cs).

Lemma caches_content_at cs i c :
  cs !! i = Some c → caches_content cs ≡ₚ cache_content c ++ caches_content (delete i cs).
Proof.
  intros Hc. unfold caches_content. by rewrite (delete_Permutation cs i c Hc) at 1.
Qed.

Lemma caches_content_set cs i c :
  (i < length cs)%nat →
  caches_content (<[i := c]> cs) ≡ₚ cache_content c ++ caches_content (delete i cs).
Proof.
  intros Hi. rewrite (caches_content_at (<[i:=c]> cs) i c) by (by apply list_lookup_insert_eq).
  rewrite insert_take_drop by done. rewrite !delete_take_drop.
  rewrite take_app_le by (rewrite length_take; lia).
  rewrite take_take, Nat.min_id. rewrite drop_app_ge by (rewrite length_take; lia).
  rewrite length_take, Nat.min_l by lia. by replace (S i - i)%nat with 1%nat by lia.
Qed.

Lemma caches_ok_lookup cs i :
  caches_ok cs → (i < MAX_CPUS)%nat → cs !! i = Some (cs !!! i) ∧ cache_wf (cs !!! i).
Proof.
  intros [Hl Hw] Hi. assert (cs !! i = Some (cs !!! i)) as E
    by (apply list_lookup_lookup_total_lt; lia).
  split; [done|]. by eapply Forall_lookup_1 in E.
Qed.

Lemma caches_ok_set cs i c : caches_ok cs → cache_wf c → caches_ok (<[i := c]> cs).
Proof. intros [Hl Hw] Hc. split; [by rewrite length_insert|by apply Forall_insert]. Qed.

(** Replacing one cache moves frames between it and [out]. *)
Lemma fs_free_set_cache s i c out :
  fs_base s → (i < MAX_CPUS)%nat →
  cache_content (FRAME_CACHES s !!! i) ≡ₚ out ++ cache_content c →
  fs_free s ≡ₚ out ++ fs_free (set_caches s (<[i := c]> (FRAME_CACHES s))).
Proof.
  intros [_ Hc] Hi Hp. unfold fs_free, cached_frames. simpl.
  change (mjoin (cache_content <$> ?cs)) with (caches_content cs).
  destruct (caches_ok_lookup _ i Hc Hi) as [Hl _].
  rewrite (caches_content_at _ _ _ Hl), caches_content_set by (rewrite (caches_len _ Hc); lia).
  rewrite Hp. rewrite !app_assoc. by rewrite (Permutation_app_comm _ out).
Qed.

Lemma fs_free_give_cache s i c inn :
  fs_base s → (i < MAX_CPUS)%nat →
  inn ++ cache_content (FRAME_CACHES s !!! i) ≡ₚ cache_content c →
  inn ++ fs_free s ≡ₚ fs_free (set_caches s (<[i := c]> (FRAME_CACHES s))).
Proof.
  intros [_ Hc] Hi Hp. unfold fs_free, cached_frames. simpl.
  change (mjoin (cache_content <$> ?cs)) with (caches_content cs).
  destruct (caches_ok_lookup _ i Hc Hi) as [Hl _].
  rewrite (caches_content_at _ _ _ Hl), caches_content_set by (rewrite (caches_len _ Hc); lia).
  rewrite <-Hp. rewrite !app_assoc. by rewrite (Permutation_app_comm inn).
Qed.

(** ** The central allocator *)

Lemma dealloc_fold_ok (b : B) pages :
  fb_wf b → frames_ok (pages ++ fb_frames b) →
  let b' := foldl (λ b ppn, fb_dealloc b ppn 1) b pages in
  fb_wf b' ∧ fb_frames b' ≡ₚ pages ++ fb_frames b.
Proof.
  revert b. induction pages as [|p pages IH]; intros b Hw Hok; simpl; [done|].
  assert (Hperm : pages ++ p :: fb_frames b ≡ₚ (p :: pages) ++ fb_frames b)
    by (by rewrite <-Permutation_middle).
  assert (Hok' : frames_ok (pages ++ p :: fb_frames b)) by (by rewrite Hperm).
  pose proof (frames_ok_app_r _ _ Hok') as [Hnd Hall].
  assert (Hone : seqZ p (next_power_of_two 1) = [p]).
  { change (next_power_of_two 1) with 1. rewrite seqZ_cons by lia. by rewrite seqZ_nil by lia. }
  destruct (fb_dealloc_ok b p 1) as [Hw' Hfr'].
  - done.
  - lia.
  - apply fb_single_ok. apply Forall_cons in Hall. lia.
  - by rewrite Hone.
  - rewrite Hone. eapply Forall_impl; [exact Hall|]. simpl. lia.
  - rewrite Hone in Hfr'. simpl in Hfr'. destruct (IH (fb_dealloc b p 1)) as [? ->]; [done| |].
    + by rewrite Hfr'.
    + split; [done|]. by rewrite Hfr'.
Qed.

Lemma central_dealloc_pages_ok s pages :
  fs_base s → frames_ok (pages ++ fs_free s) →
  let s' := central_dealloc_pages s pages in
  fs_base s' ∧ fs_shell s' = fs_shell s ∧ fs_free s' ≡ₚ pages ++ fs_free s.
Proof.
  intros [Hb Hc] Hok. unfold fs_free in Hok. rewrite app_assoc in Hok.
  apply frames_ok_app_l in Hok. destruct (dealloc_fold_ok _ _ Hb Hok) as [Hw Hfr].
  split_and!; [by split|done|]. unfold fs_free, cached_frames. simpl.
  rewrite Hfr. by rewrite app_assoc.
Qed.

Lemma drain_caches_from_ok i n s :
  fs_base s → frames_ok (fs_free s) → (i + n = MAX_CPUS)%nat →
  fs_moves s (drain_caches_from s i n) [] ∧
  (∀ j, (i ≤ j < MAX_CPUS)%nat → cache_content (FRAME_CACHES (drain_caches_from s i n) !!! j) = []) ∧
  (∀ j, (j < i)%nat → FRAME_CACHES (drain_caches_from s i n) !!! j = FRAME_CACHES s !!! j).
Proof.
  revert i s. induction n as [|n IH]; intros i s Hb Hok Hin; cbn [drain_caches_from].
  { split_and!; [by split_and!|lia|done]. }
  destruct (caches_ok_lookup _ i (base_caches _ Hb) ltac:(lia)) as [Hl Hw].
  pose proof (cache_drain_ok _ FRAME_CACHE_CAPACITY Hw) as Hd.
  destruct (cache_drain _ _) as [c pages]. destruct Hd as (Hwc&Hperm&Hlen).
  assert (Hnil : cache_content c = []).
  { unfold cache_content. rewrite Hlen. pose proof (cache_len _ Hw).
    by replace (_ - _)%nat with 0%nat by lia. }
  pose proof (fs_free_set_cache s i c pages Hb ltac:(lia) Hperm) as Hfree.
  set (s1 := set_caches s _) in *.
  assert (Hb1 : fs_base s1) by (split; [apply Hb|apply caches_ok_set; [apply Hb|done]]).
  destruct (central_dealloc_pages_ok s1 pages Hb1) as (Hb2&Hsh2&Hfr2); [by rewrite <-Hfree|].
  assert (Hfr2' : fs_free (central_dealloc_pages s1 pages) ≡ₚ fs_free s) by (by rewrite Hfr2, Hfree).
  destruct (IH (S i) (central_dealloc_pages s1 pages) Hb2) as ((?&Hsh&Hfr)&Hz&Hk);
    [by rewrite Hfr2'|lia|]. split_and!.
  - split_and!; [done|by rewrite Hsh, Hsh2|]. by rewrite <-Hfr2'.
  - intros j Hj. destruct (decide (j = i)) as [->|]; [|apply Hz; lia].
    rewrite Hk by lia. subst s1. simpl. rewrite list_lookup_total_insert_eq; [done|].
    rewrite (caches_len _ (base_caches _ Hb)). lia.
  - intros j Hj. rewrite Hk by lia. subst s1. simpl. rewrite list_lookup_total_insert_ne; [done|lia].
Qed.

Lemma drain_all_ok s :
  fs_base s → frames_ok (fs_free s) →
  fs_moves s (drain_all_frame_caches s) [] ∧ cached_frames (drain_all_frame_caches s) = [].
Proof.
  intros Hb Hok. unfold drain_all_frame_caches. rewrite (caches_len _ (base_caches _ Hb)).
  destruct (drain_caches_from_ok 0 MAX_CPUS s Hb Hok eq_refl) as (Hm&Hz&_).
  split; [done|]. destruct Hm as ([_ Hc]&_&_). set (s' := drain_caches_from _ _ _) in *.
  unfold cached_frames. apply elem_of_nil_inv. intros x (l&Hx&Hl)%list_elem_of_join.
  apply list_elem_of_fmap in Hl as (c&->&Hc'). apply list_elem_of_lookup in Hc' as [j Hj].
  pose proof (lookup_lt_Some _ _ _ Hj) as Hlt. rewrite (caches_len _ Hc) in Hlt.
  apply list_lookup_total_correct in Hj. rewrite <-Hj, Hz in Hx by lia.
  by apply not_elem_of_nil in Hx.
Qed.

(** Every run of frames of [L] lies in one managed region. *)
Definition runs_managed s (L : list Z) : Prop :=
  ∀ p n, 1 ≤ n → (∀ x, p ≤ x < p + n → x ∈ L) → is_managed_range s p n = true.

Lemma set_backend_id s : set_backend s (FRAME_ALLOCATOR s) = s.
Proof. by destruct s. Qed.

Lemma central_alloc_loop_ok fuel k s :
  fs_base s → runs_managed s (fs_free s) → (k < 32)%nat → (S k < fuel)%nat →
  match central_alloc_loop fuel s (2 ^ Z.of_nat k) with
  | (s', Some (p, n)) => 1 ≤ n ∧ fs_moves s s' (seqZ p n)
  | (s', None) => s' = s ∧ fb_frames (FRAME_ALLOCATOR s) = []
  end.
Proof.
  intros Hb Hm. revert fuel. induction k as [|k IH]; intros fuel Hk Hf;
    (destruct fuel as [|fuel]; [lia|]); cbn [central_alloc_loop].
  all: match goal with |- context [2 ^ Z.of_nat ?k] => pose proof (pow2_pos k) as Hp;
    assert (2 ^ Z.of_nat k ≤ 2 ^ 31) by (apply Z.pow_le_mono_r; lia);
    pose proof (fb_alloc_ok (FRAME_ALLOCATOR s) (2 ^ Z.of_nat k) (base_backend _ Hb)
      ltac:(unfold USIZE_MAX; lia)) as Ha;
    rewrite next_power_of_two_pow2 in Ha by lia end;
    rewrite bool_decide_eq_true_2 by lia;
    destruct (fb_alloc _ _) as [b [p|]].
  1,3: destruct Ha as (Hw&_&_&Hfr); rewrite (is_managed_range_shell s) by done;
    rewrite Hm by (lia || (intros x Hx; unfold fs_free; rewrite Hfr, !elem_of_app, elem_of_seqZ; lia));
    split; [lia|]; split_and!; [split; [done|apply Hb]|done|];
    unfold fs_free; rewrite Hfr; by rewrite <-app_assoc.
  - destruct Ha as [-> Ha]. rewrite set_backend_id. simpl.
    rewrite Ha by done. destruct fuel; [done|]. cbn [central_alloc_loop].
    rewrite bool_decide_eq_false_2; [done|]. intros Hn. by apply Hn.
  - destruct Ha as [-> _]. rewrite set_backend_id.
    replace (Z.shiftr (2 ^ Z.of_nat (S k)) 1) with (2 ^ Z.of_nat k).
    + apply IH; lia.
    + rewrite pow2_S, Z.shiftr_div_pow2 by lia. change (2 ^ 1) with 2. lia.
Qed.

Lemma central_alloc_run_ok s :
  fs_base s → runs_managed s (fs_free s) →
  match central_alloc_run s (Z.of_nat FRAME_CACHE_REFILL) with
  | (s', Some (p, n)) => 1 ≤ n ∧ fs_moves s s' (seqZ p n)
  | (s', None) => s' = s ∧ fb_frames (FRAME_ALLOCATOR s) = []
  end.
Proof.
  intros Hb Hm. unfold central_alloc_run. rewrite bool_decide_eq_false_2 by done.
  change (2 ^ Z.log2 (Z.of_nat FRAME_CACHE_REFILL)) with (2 ^ Z.of_nat 6).
  apply central_alloc_loop_ok; [done|done|lia|lia].
Qed.

Lemma runs_managed_mono s s' L L' :
  fs_shell s' = fs_shell s → (∀ x, x ∈ L' → x ∈ L) → runs_managed s L → runs_managed s' L'.
Proof.
  intros Hsh Hsub Hm p n Hn Hx. rewrite (is_managed_range_shell s) by done. apply Hm; eauto.
Qed.

(** ** The cached paths *)

Lemma frame_cache_cpu_lt cpu : (frame_cache_cpu cpu < MAX_CPUS)%nat.
Proof. unfold frame_cache_cpu, MAX_CPUS. lia. Qed.

(** The tail of [alloc_cached_frame]: keep the first frame of the run, cache the rest. *)
Lemma refill_ok s cpu p n :
  fs_base s → 1 ≤ n → frames_ok (seqZ p n ++ fs_free s) → (cpu < MAX_CPUS)%nat →
  let '(c, overflow) := cache_refill (FRAME_CACHES s !!! cpu) (seqZ (p + 1) (n - 1)) in
  let s1 := set_caches s (<[cpu := c]> (FRAME_CACHES s)) in
  let s2 := central_dealloc_pages s1 overflow in
  fs_base s2 ∧ fs_shell s2 = fs_shell s ∧ seqZ p n ++ fs_free s ≡ₚ p :: fs_free s2.
Proof.
  intros Hb Hn Hok Hcpu. destruct (caches_ok_lookup _ cpu (base_caches _ Hb) Hcpu) as [Hl Hw].
  pose proof (cache_refill_ok _ (seqZ (p + 1) (n - 1)) Hw) as Hr.
  destruct (cache_refill _ _) as [c ov]. destruct Hr as [Hwc Hp]. cbv zeta.
  set (s1 := set_caches s _). assert (Hb1 : fs_base s1).
  { split; [apply Hb|apply caches_ok_set; [apply Hb|done]]. }
  assert (Hsplit : seqZ p n = p :: seqZ (p + 1) (n - 1)).
  { rewrite seqZ_cons by lia. by rewrite <-Z.add_1_r, <-Z.sub_1_r. }
  assert (Hfr : ov ++ fs_free s1 ≡ₚ seqZ (p + 1) (n - 1) ++ fs_free s).
  { unfold fs_free, cached_frames. subst s1. simpl.
    change (mjoin (cache_content <$> ?cs)) with (caches_content cs).
    rewrite (caches_content_at _ _ _ Hl), caches_content_set
      by (rewrite (caches_len _ (base_caches _ Hb)); lia).
    rewrite (Permutation_app_comm (fb_frames _)), (Permutation_app_comm (fb_frames _) (_ ++ _)).
    rewrite !app_assoc. by rewrite Hp. }
  rewrite Hsplit in Hok |- *. simpl in Hok |- *.
  destruct (central_dealloc_pages_ok s1 ov Hb1) as (?&Hsh&Hfr2).
  { rewrite Hfr. by apply (frames_ok_app_r [p]). }
  split_and!; [done|done|]. by rewrite Hfr2, Hfr.
Qed.

Lemma alloc_cached_frame_ok s cpu :
  fs_base s → frames_ok (fs_free s) → runs_managed s (fs_free s) →
  match alloc_cached_frame s cpu with
  | (s', Some p) => fs_moves s s' [p]
  | (s', None) => fs_moves s s' [] ∧ fs_free s = []
  end.
Proof.
  intros Hb Hok Hm. unfold alloc_cached_frame. pose proof (frame_cache_cpu_lt cpu) as Hcpu.
  set (c := frame_cache_cpu cpu) in *.
  destruct (caches_ok_lookup _ c (base_caches _ Hb) Hcpu) as [Hl Hw].
  pose proof (cache_pop_ok _ Hw) as Hpop. destruct (cache_pop _) as [c' [p|]].
  { destruct Hpop as (Hw'&Hc&_). split_and!; [|done|].
    - split; [apply Hb|apply caches_ok_set; [apply Hb|done]].
    - apply fs_free_set_cache; [done..|]. by rewrite Hc, Permutation_app_comm. }
  clear Hpop c'.
  assert (Hrun : ∀ s1, fs_moves s s1 [] → match central_alloc_run s1 (Z.of_nat FRAME_CACHE_REFILL) with
    | (s', Some (p, n)) => 1 ≤ n ∧ fs_moves s s' (seqZ p n)
    | (s', None) => s' = s1 ∧ fb_frames (FRAME_ALLOCATOR s1) = []
    end).
  { intros s1 Hs1. pose proof Hs1 as (Hb1&Hsh1&Hfr1).
    assert (Hm1 : runs_managed s1 (fs_free s1)).
    { eapply runs_managed_mono; [exact Hsh1| |exact Hm]. intros x Hx. rewrite Hfr1. done. }
    pose proof (central_alloc_run_ok s1 Hb1 Hm1) as H.
    destruct (central_alloc_run s1 _) as [s' [[p n]|]]; [|done]. destruct H as [? H].
    split; [done|]. exact (fs_moves_trans _ _ _ _ _ Hs1 H). }
  assert (Hfin : ∀ s1 p n, 1 ≤ n → fs_moves s s1 (seqZ p n) →
    match (let '(c0, overflow) := cache_refill (FRAME_CACHES s1 !!! c) (seqZ (p + 1) (n - 1)) in
      (central_dealloc_pages (set_caches s1 (<[c:=c0]> (FRAME_CACHES s1))) overflow, Some p)) with
    | (s', Some p) => fs_moves s s' [p]
    | (s', None) => fs_moves s s' [] ∧ fs_free s = []
    end).
  { intros s1 p n Hn (Hb1&Hsh1&Hfr1). assert (Hok1 : frames_ok (seqZ p n ++ fs_free s1)) by (by rewrite <-Hfr1).
    pose proof (refill_ok s1 c p n Hb1 Hn Hok1 Hcpu) as H.
    destruct (cache_refill _ _) as [c0 ov]. destruct H as (?&Hsh&Hfr).
    split_and!; [done|by rewrite Hsh|]. by rewrite Hfr1, Hfr. }
  assert (Hid : fs_moves s s []) by done.
  pose proof (Hrun s Hid) as H1. destruct (central_alloc_run s _) as [s1 [[p n]|]].
  { destruct H1. by apply Hfin. }
  destruct H1 as [-> Hnil]. destruct (drain_all_ok s Hb Hok) as [Hd Hdn].
  pose proof (Hrun _ Hd) as H2. destruct (central_alloc_run (drain_all_frame_caches s) _) as [s2 [[p n]|]].
  { destruct H2. by apply Hfin. }
  destruct H2 as [-> Hnil2]. split; [done|]. destruct Hd as (_&_&Hfr). simpl in Hfr.
  apply Permutation_nil. rewrite Hfr. unfold fs_free. by rewrite Hnil2, Hdn.
Qed.

Lemma cache_deallocated_frame_ok s cpu p :
  fs_base s → frames_ok (p :: fs_free s) →
  let s' := cache_deallocated_frame s cpu p in
  fs_base s' ∧ fs_shell s' = fs_shell s ∧ fs_free s' ≡ₚ p :: fs_free s.
Proof.
  intros Hb Hok. unfold cache_deallocated_frame. pose proof (frame_cache_cpu_lt cpu) as Hcpu.
  set (c := frame_cache_cpu cpu) in *.
  destruct (caches_ok_lookup _ c (base_caches _ Hb) Hcpu) as [Hl Hw].
  assert (Hgen : ∀ c' out, cache_wf c' →
    p :: cache_content (FRAME_CACHES s !!! c) ≡ₚ out ++ cache_content c' →
    let s' := central_dealloc_pages (set_caches s (<[c:=c']> (FRAME_CACHES s))) out in
    fs_base s' ∧ fs_shell s' = fs_shell s ∧ fs_free s' ≡ₚ p :: fs_free s).
  { intros c' out Hw' Hp s'. subst s'. set (s1 := set_caches s _).
    assert (Hb1 : fs_base s1) by (split; [apply Hb|apply caches_ok_set; [apply Hb|done]]).
    assert (Hfr : out ++ fs_free s1 ≡ₚ p :: fs_free s).
    { unfold fs_free, cached_frames. subst s1. simpl.
      change (mjoin (cache_content <$> ?cs)) with (caches_content cs).
      rewrite (caches_content_at _ _ _ Hl), caches_content_set
        by (rewrite (caches_len _ (base_caches _ Hb)); lia).
      rewrite (Permutation_app_comm (fb_frames _)), (Permutation_app_comm (fb_frames _) (_ ++ _)).
      rewrite !app_assoc, <-Hp. done. }
    destruct (central_dealloc_pages_ok s1 out Hb1) as (?&?&Hfr2); [by rewrite Hfr|].
    split_and!; [done|done|]. by rewrite Hfr2. }
  pose proof (cache_push_ok _ p Hw) as Hpush. destruct (cache_push _ p) as [c1 []].
  { destruct Hpush as [? Hc]. apply Hgen; [done|]. rewrite Hc. simpl.
    by rewrite Permutation_app_comm. }
  destruct Hpush as [-> Hfull]. pose proof (cache_drain_ok _ FRAME_CACHE_FLUSH Hw) as Hd.
  destruct (cache_drain _ _) as [c2 out]. destruct Hd as (Hw2&Hc2&Hlen).
  pose proof (cache_push_ok c2 p Hw2) as Hpush2. destruct (cache_push c2 p) as [c3 []].
  - destruct Hpush2 as [? Hc3]. apply Hgen; [done|]. rewrite Hc2. simpl. rewrite Hc3.
    by rewrite Permutation_cons_append, <-app_assoc.
  - destruct Hpush2 as [_ Hl2]. exfalso. rewrite Hlen, Hfull in Hl2.
    unfold FRAME_CACHE_CAPACITY, FRAME_CACHE_FLUSH in Hl2. lia.
Qed.

(** ** Contiguous runs *)

Lemma alloc_contiguous_loop_ok s s0 pages fuel drained :
  fs_moves s s0 [] → (drained = true → cached_frames s0 = []) →
  frames_ok (fs_free s) → runs_managed s (fs_free s) → 1 ≤ pages ≤ USIZE_MAX →
  (if drained then 1 ≤ fuel else 2 ≤ fuel)%nat →
  match alloc_contiguous_loop fuel s0 pages drained with
  | (s', Some p) => pages ≤ 2 ^ 31 ∧ fb_block_ok pages p ∧ is_managed_range s p pages = true ∧
      ∃ s1, s' = set_free s1 (FREE_MANAGED_FRAMES s1 - pages) ∧
            fs_moves s s1 (seqZ p (next_power_of_two pages))
  | (s', None) => fs_moves s s' [] ∧ (pages = 1 → fs_free s = [])
  end.
Proof.
  intros Hmv Hdr Hok Hm Hpg. revert s0 drained Hmv Hdr.
  induction fuel as [|fuel IH]; intros s0 drained Hmv Hdr Hf; [destruct drained; lia|].
  cbn [alloc_contiguous_loop]. pose proof Hmv as (Hb0&Hsh0&Hfr0). simpl in Hfr0.
  pose proof (fb_alloc_ok (FRAME_ALLOCATOR s0) pages (base_backend _ Hb0) Hpg) as Ha.
  destruct (fb_alloc _ _) as [b [p|]].
  - destruct Ha as (Hw&Hbk&Hle&Hfr).
    destruct (next_power_of_two_spec pages) as (k&Hk&Hpk&_&_); [lia|].
    rewrite (is_managed_range_shell s) by (by rewrite <-Hsh0).
    assert (Hmg : is_managed_range s p pages = true).
    { apply Hm; [lia|]. intros x Hx. rewrite Hfr0. unfold fs_free.
      rewrite Hfr, !elem_of_app, elem_of_seqZ. lia. }
    rewrite Hmg. split_and!; [done|done|done|]. eexists. split; [reflexivity|]. split_and!.
    + split; [done|apply Hb0].
    + done.
    + rewrite Hfr0. unfold fs_free. rewrite Hfr. by rewrite <-app_assoc.
  - destruct Ha as [-> Hnil]. rewrite set_backend_id. destruct drained.
    + split; [done|]. intros H1. apply Permutation_nil. rewrite Hfr0. unfold fs_free.
      by rewrite Hnil, Hdr.
    + destruct (drain_all_ok s0 Hb0) as [Hd Hdn]; [by rewrite <-Hfr0|].
      apply IH; [exact (fs_moves_trans _ _ _ _ _ Hmv Hd)|done|lia].
Qed.

(** ** The invariant *)

(** The frames of the managed regions. *)
Definition region_frames (regions : list (Z * Z)) : list Z :=
  mjoin ((λ r, seqZ r.1 (r.2 - r.1)) <$> regions).

(** Managed regions do not touch: at least one frame lies between two of them. *)
Record regions_ok (regions : list (Z * Z)) : Prop := {
  regions_bounds : Forall (λ r, 0 < r.1 < r.2 ∧ r.2 ≤ 2 ^ 31) regions;
  regions_apart : ∀ i j a b, i ≠ j → regions !! i = Some a → regions !! j = Some b →
    a.2 < b.1 ∨ b.2 < a.1
}.

(** The number of live trackers of a frame. *)
Definition count_of (p : Z) (T : list Z) : Z := zlen (filter (λ x, x = p) T).

Definition raw_frames (R : list (Z * Z)) : list Z :=
  mjoin ((λ r, seqZ r.1 (next_power_of_two r.2)) <$> R).

Definition raw_pages (R : list (Z * Z)) : Z := foldr (λ r acc, r.2 + acc) 0 R.

(** Every managed frame has a counter, which counts its trackers. *)
Definition refs_ok s (T : list Z) : Prop :=
  ∃ rs, FRAME_REF_REGIONS s = Some rs ∧
    (λ r, (rr_start r, rr_end r)) <$> rs = MEM_REGIONS s ∧
    ∀ p, p ∈ region_frames (MEM_REGIONS s) → find_counter rs p = Some (count_of p T).

Record fs_inv s (T : list Z) (R : list (Z * Z)) : Prop := {
  inv_base : fs_base s;
  inv_regions : regions_ok (MEM_REGIONS s);
  inv_refs : refs_ok s T;
  inv_counts : ∀ p, count_of p T ≤ U32_MAX;
  inv_part : fs_free s ++ remove_dups T ++ raw_frames R ≡ₚ region_frames (MEM_REGIONS s);
  inv_raw : Forall (λ r, 1 ≤ r.2 ≤ 2 ^ 31 ∧ fb_block_ok r.2 r.1) R;
  inv_total : TOTAL_MANAGED_FRAMES s = zlen (region_frames (MEM_REGIONS s));
  inv_free : FREE_MANAGED_FRAMES s =
    zlen (region_frames (MEM_REGIONS s)) - zlen (remove_dups T) - raw_pages R
}.

(** ** Regions *)

Lemma elem_of_region_frames regions x :
  x ∈ region_frames regions ↔ ∃ i a, regions !! i = Some a ∧ a.1 ≤ x < a.2.
Proof.
  unfold region_frames. rewrite list_elem_of_join. split.
  - intros (l&Hx&Hl). apply list_elem_of_fmap in Hl as (a&->&Ha).
    apply list_elem_of_lookup in Ha as [i Hi]. exists i, a. apply elem_of_seqZ in Hx.
    split; [done|lia].
  - intros (i&a&Hi&Hx). eexists. split; [|apply list_elem_of_fmap; exists a; split; [done|]].
    + apply elem_of_seqZ. lia.
    + by apply list_elem_of_lookup_2 in Hi.
Qed.

Lemma regions_ok_cons a regions : regions_ok (a :: regions) → regions_ok regions.
Proof.
  intros [Hb Ha]. split; [by apply Forall_cons in Hb as [_ ?]|].
  intros i j x y Hij Hx Hy. apply (Ha (S i) (S j)); [lia|done|done].
Qed.

Lemma region_frames_ok regions : regions_ok regions → frames_ok (region_frames regions).
Proof.
  induction regions as [|a regions IH]; intros Hr; [by split; constructor|].
  destruct (IH (regions_ok_cons _ _ Hr)) as [Hnd Hall].
  pose proof (regions_bounds _ Hr) as Hb. apply Forall_cons in Hb as [Hb _].
  unfold region_frames. rewrite fmap_cons. cbn [mjoin list_join].
  change (mjoin (_ <$> regions)) with (region_frames regions). split.
  - apply NoDup_app. split_and!; [apply NoDup_seqZ| |done].
    intros x Hx Hx'. apply elem_of_seqZ in Hx.
    apply elem_of_region_frames in Hx' as (j&b&Hj&Hb').
    destruct (regions_apart _ Hr 0 (S j) a b) as [?|?]; [done|done|done|lia|lia].
  - apply Forall_app. split; [|done]. apply Forall_seqZ. lia.
Qed.

Lemma region_frames_len regions : regions_ok regions → zlen (region_frames regions) ≤ 2 ^ 31.
Proof.
  intros Hr. destruct (region_frames_ok _ Hr) as [Hnd Hall].
  assert (Hsub : region_frames regions ⊆+ seqZ 1 (2 ^ 31)).
  { apply NoDup_submseteq; [done|]. intros x Hx. rewrite Forall_forall in Hall.
    specialize (Hall x Hx). apply elem_of_seqZ. lia. }
  apply submseteq_length in Hsub. rewrite length_seqZ in Hsub. unfold zlen. lia.
Qed.

(** A run of managed frames lies in one region. *)
Lemma runs_in_region regions p n :
  regions_ok regions → 1 ≤ n → (∀ x, p ≤ x < p + n → x ∈ region_frames regions) →
  ∃ i a, regions !! i = Some a ∧ a.1 ≤ p ∧ p + n ≤ a.2.
Proof.
  intros Hr Hn Hall. pose proof (Hall p ltac:(lia)) as Hp.
  apply elem_of_region_frames in Hp as (i&a&Hi&Ha). exists i, a. split_and!; [done|lia|].
  destruct (decide (p + n ≤ a.2)) as [|Hgt]; [done|exfalso].
  pose proof (Hall a.2 ltac:(lia)) as He.
  apply elem_of_region_frames in He as (j&b&Hj&Hb).
  destruct (decide (i = j)) as [->|Hne]; [simplify_eq; lia|].
  destruct (regions_apart _ Hr i j a b); [done|done|done|lia|lia].
Qed.

Lemma inv_runs_managed s T L :
  regions_ok (MEM_REGIONS s) → refs_ok s T →
  (∀ x, x ∈ L → x ∈ region_frames (MEM_REGIONS s)) → runs_managed s L.
Proof.
  intros Hr (rs&Hrs&Hbd&_) HL p n Hn Hx.
  destruct (runs_in_region _ p n Hr Hn) as (i&a&Hi&Ha1&Ha2); [by eauto|].
  unfold is_managed_range. rewrite bool_decide_eq_false_2 by lia.
  pose proof (regions_bounds _ Hr) as Hb. eapply Forall_lookup_1 in Hb; [|exact Hi].
  assert (checked_add p n = Some (p + n)) as ->.
  { apply checked_add_Some. unfold USIZE_MAX. lia. }
  rewrite Hrs. apply existsb_exists. rewrite <-Hbd, list_lookup_fmap in Hi.
  destruct (rs !! i) as [r|] eqn:Er; [|done]. simplify_eq/=. exists r. split.
  - apply list_elem_of_In. by eapply list_elem_of_lookup_2.
  - apply bool_decide_eq_true_2. lia.
Qed.

(** ** Counting owners *)

Lemma count_of_cons p q T : count_of p (q :: T) = (if bool_decide (q = p) then 1 else 0) + count_of p T.
Proof.
  unfold count_of. rewrite filter_cons. case_bool_decide as H; case_decide; try done.
  rewrite zlen_cons. lia.
Qed.

Lemma count_of_nonneg p T : 0 ≤ count_of p T.
Proof. apply zlen_nonneg. Qed.

Lemma count_of_zero p T : count_of p T = 0 ↔ p ∉ T.
Proof.
  induction T as [|q T IH]; [split; [by intros _ ?%not_elem_of_nil|done]|].
  rewrite count_of_cons, elem_of_cons. pose proof (count_of_nonneg p T).
  case_bool_decide; [split; [lia|naive_solver]|]. rewrite Z.add_0_l, IH. naive_solver.
Qed.

#[export] Instance count_of_perm p : Proper ((≡ₚ) ==> (=)) (count_of p).
Proof. intros T T' HT. unfold count_of. by rewrite HT. Qed.

Lemma remove_dups_perm (T T' : list Z) : T ≡ₚ T' → remove_dups T ≡ₚ remove_dups T'.
Proof.
  intros HT. apply NoDup_Permutation; [apply NoDup_remove_dups..|].
  intros x. rewrite !elem_of_remove_dups. by rewrite HT.
Qed.

Lemma remove_dups_cons_in (p : Z) T : p ∈ T → remove_dups (p :: T) = remove_dups T.
Proof. intros H. simpl. by case_decide. Qed.

Lemma remove_dups_cons_new (p : Z) T : p ∉ T → remove_dups (p :: T) = p :: remove_dups T.
Proof. intros H. simpl. by case_decide. Qed.

Lemma fs_inv_perm s T T' R : T ≡ₚ T' → fs_inv s T R → fs_inv s T' R.
Proof.
  intros HT []. split; try done.
  - destruct inv_refs0 as (rs&?&?&Hc). exists rs. split_and!; [done|done|].
    intros p Hp. rewrite Hc by done. by rewrite HT.
  - intros p. by rewrite <-HT.
  - by rewrite <-(remove_dups_perm _ _ HT).
  - by rewrite inv_free0, (remove_dups_perm _ _ HT).
Qed.

#[export] Instance raw_pages_perm : Proper ((≡ₚ) ==> (=)) raw_pages.
Proof. intros R R' HR. unfold raw_pages. induction HR; simpl; lia. Qed.

Lemma fs_inv_raw_perm s T R R' : R ≡ₚ R' → fs_inv s T R → fs_inv s T R'.
Proof.
  intros HR []. split; try done.
  - unfold raw_frames. by rewrite <-HR.
  - by rewrite <-HR.
  - by rewrite inv_free0, HR.
Qed.

(** ** Consequences of the invariant *)

Lemma inv_all_frames_ok s T R :
  fs_inv s T R → frames_ok (fs_free s ++ remove_dups T ++ raw_frames R).
Proof. intros Hi. rewrite (inv_part _ _ _ Hi). apply region_frames_ok, Hi. Qed.

Lemma raw_pages_le R :
  Forall (λ r, 1 ≤ r.2 ≤ 2 ^ 31) R → 0 ≤ raw_pages R ≤ zlen (raw_frames R).
Proof.
  induction 1 as [|[p n] R Hn _ IH]; [done|]. simpl in Hn.
  unfold raw_frames. rewrite fmap_cons. cbn [mjoin list_join raw_pages foldr].
  change (mjoin (_ <$> R)) with (raw_frames R). rewrite zlen_app. simpl.
  destruct (next_power_of_two_spec n) as (k&->&Hk&_&_); [lia|].
  unfold zlen at 1. rewrite length_seqZ. fold (raw_pages R). pose proof (pow2_pos k). lia.
Qed.

Lemma inv_free_bounds s T R :
  fs_inv s T R → zlen (fs_free s) ≤ FREE_MANAGED_FRAMES s ≤ 2 ^ 31.
Proof.
  intros Hi. pose proof (region_frames_len _ (inv_regions _ _ _ Hi)).
  pose proof (raw_pages_le R) as Hr. rewrite (inv_free _ _ _ Hi).
  assert (Hl : zlen (region_frames (MEM_REGIONS s)) =
    zlen (fs_free s) + (zlen (remove_dups T) + zlen (raw_frames R))).
  { by rewrite <-(inv_part _ _ _ Hi), !zlen_app. }
  pose proof (zlen_nonneg (remove_dups T)). assert (Hraw : Forall (λ r, 1 ≤ r.2 ≤ 2 ^ 31) R).
  { eapply Forall_impl; [apply Hi|]. naive_solver. }
  specialize (Hr Hraw). lia.
Qed.

Lemma inv_elem s T R x :
  fs_inv s T R → x ∈ fs_free s ∨ x ∈ T ∨ x ∈ raw_frames R → x ∈ region_frames (MEM_REGIONS s).
Proof.
  intros Hi Hx. rewrite <-(inv_part _ _ _ Hi), !elem_of_app, elem_of_remove_dups. naive_solver.
Qed.

Lemma inv_owned_not_free s T R x : fs_inv s T R → x ∈ T → x ∉ fs_free s ∧ x ∉ raw_frames R.
Proof.
  intros Hi Hx. destruct (inv_all_frames_ok _ _ _ Hi) as [Hnd _].
  apply NoDup_app in Hnd as (_&H1&Hnd). apply NoDup_app in Hnd as (_&H2&_). split.
  - intros Hf. apply (H1 x Hf). rewrite elem_of_app, elem_of_remove_dups. by left.
  - apply H2. by apply elem_of_remove_dups.
Qed.

Lemma inv_free_runs_managed s T R : fs_inv s T R → runs_managed s (region_frames (MEM_REGIONS s)).
Proof. intros Hi. by eapply inv_runs_managed; [apply Hi|apply Hi|]. Qed.

Lemma inv_runs_free s T R : fs_inv s T R → runs_managed s (fs_free s).
Proof.
  intros Hi. eapply runs_managed_mono; [done| |by eapply inv_free_runs_managed].
  intros x Hx. eapply inv_elem; eauto.
Qed.

Lemma refs_ok_same s s' T :
  FRAME_REF_REGIONS s' = FRAME_REF_REGIONS s → MEM_REGIONS s' = MEM_REGIONS s →
  refs_ok s T → refs_ok s' T.
Proof. intros Hr Hm (rs&?&?&?). exists rs. rewrite Hr, Hm. done. Qed.

(** ** Counter updates *)

Lemma fetch_add_counter_ok s T p d :
  refs_ok s T → p ∈ region_frames (MEM_REGIONS s) →
  ∃ rs, fetch_add_counter s p d = Ret (set_refs s rs, count_of p T) ∧
    ∀ T', (∀ q, count_of q T' = if bool_decide (q = p) then (count_of p T + d) mod 2 ^ 32
                                 else count_of q T) → refs_ok (set_refs s rs) T'.
Proof.
  intros (rs&Hrs&Hbd&Hc) Hp. unfold fetch_add_counter. rewrite Hrs, (Hc p Hp).
  eexists. split; [reflexivity|]. intros T' HT'. eexists. split_and!; [done| |].
  - cbn [set_refs MEM_REGIONS]. by rewrite store_counter_bounds.
  - cbn [set_refs MEM_REGIONS]. intros q Hq. rewrite find_store_counter by (eexists; by apply Hc).
    rewrite HT'. case_bool_decide; [done|by apply Hc].
Qed.

Lemma fetch_inc_ok s T p :
  refs_ok s T → p ∈ region_frames (MEM_REGIONS s) → count_of p T < U32_MAX →
  ∃ rs, fetch_add_counter s p 1 = Ret (set_refs s rs, count_of p T) ∧ refs_ok (set_refs s rs) (p :: T).
Proof.
  intros Hr Hp Hc. destruct (fetch_add_counter_ok s T p 1 Hr Hp) as (rs&->&H).
  exists rs. split; [done|]. apply H. intros q. rewrite count_of_cons.
  pose proof (count_of_nonneg p T). unfold U32_MAX in Hc.
  destruct (decide (q = p)) as [->|Hne].
  - rewrite !bool_decide_eq_true_2 by done. lia.
  - rewrite !bool_decide_eq_false_2 by done. lia.
Qed.

Lemma fetch_dec_ok s T p :
  refs_ok s (p :: T) → p ∈ region_frames (MEM_REGIONS s) → count_of p (p :: T) ≤ U32_MAX →
  ∃ rs, fetch_add_counter s p (-1) = Ret (set_refs s rs, count_of p T + 1) ∧
        refs_ok (set_refs s rs) T.
Proof.
  intros Hr Hp Hc. destruct (fetch_add_counter_ok s _ p (-1) Hr Hp) as (rs&->&H).
  rewrite count_of_cons, bool_decide_eq_true_2 in * by done.
  exists rs. split; [do 2 f_equal; lia|]. apply H. intros q.
  pose proof (count_of_nonneg p T). unfold U32_MAX in Hc.
  case_bool_decide as Hq; [subst; lia|]. rewrite count_of_cons, bool_decide_eq_false_2 by done. lia.
Qed.

(** ** Giving a frame back *)

Lemma dealloc_frame_inner_ok s cpu p :
  fs_base s → is_managed_range s p 1 = true → frames_ok (p :: fs_free s) →
  0 ≤ FREE_MANAGED_FRAMES s ≤ 2 ^ 32 →
  let s' := dealloc_frame_inner s cpu p in
  fs_base s' ∧ fs_free s' ≡ₚ p :: fs_free s ∧
  fs_shell s' = (MEM_REGIONS s, FRAME_REF_REGIONS s, TOTAL_MANAGED_FRAMES s,
                 FREE_MANAGED_FRAMES s + 1, phys s).
Proof.
  intros Hb Hm Hok Hfree. unfold dealloc_frame_inner. rewrite Hm. cbv zeta.
  destruct (cache_deallocated_frame_ok (set_free s (FREE_MANAGED_FRAMES s + 1)) cpu p)
    as (?&Hsh&?); [by split; apply Hb|done|].
  split_and!; [done|done|]. rewrite Hsh. unfold fs_shell. simpl.
  by rewrite wrap_small by (unfold is_usize, USIZE_MAX; lia).
Qed.

(** Reassembles the invariant after an operation that keeps regions and totals. *)
Lemma fs_inv_rebuild s s' T R T' R' :
  fs_inv s T R → fs_base s' → MEM_REGIONS s' = MEM_REGIONS s →
  TOTAL_MANAGED_FRAMES s' = TOTAL_MANAGED_FRAMES s → refs_ok s' T' →
  (∀ p, count_of p T' ≤ U32_MAX) →
  fs_free s' ++ remove_dups T' ++ raw_frames R' ≡ₚ fs_free s ++ remove_dups T ++ raw_frames R →
  Forall (λ r, 1 ≤ r.2 ≤ 2 ^ 31 ∧ fb_block_ok r.2 r.1) R' →
  FREE_MANAGED_FRAMES s' + zlen (remove_dups T') + raw_pages R' =
    FREE_MANAGED_FRAMES s + zlen (remove_dups T) + raw_pages R →
  fs_inv s' T' R'.
Proof.
  intros Hi Hb Hm Ht Hrf Hc Hp Hr Hf. split; try done.
  - rewrite Hm. apply Hi.
  - rewrite Hm. rewrite Hp. apply Hi.
  - rewrite Ht, Hm. apply Hi.
  - rewrite Hm. pose proof (inv_free _ _ _ Hi). lia.
Qed.

(** ** The operations *)

Lemma alloc_frame_inv s T R cpu :
  fs_inv s T R →
  ∃ s' o, alloc_frame s cpu = Ret (s', o) ∧
    match o with
    | Some t => let p := ppn_raw (ft_ppn t) in
        p ∈ fs_free s ∧ p ∉ T ∧ fs_inv s' (p :: T) R ∧ phys s' = <[p := ZERO_PAGE]> (phys s)
    | None => fs_free s = [] ∧ fs_inv s' T R ∧ phys s' = phys s
    end.
Proof.
  intros Hi. pose proof (inv_all_frames_ok _ _ _ Hi) as Hok. pose proof (inv_free_bounds _ _ _ Hi) as Hfb.
  pose proof (alloc_cached_frame_ok s cpu (inv_base _ _ _ Hi) (frames_ok_app_l _ _ Hok)
    (inv_runs_free _ _ _ Hi)) as Ha. unfold alloc_frame.
  destruct (alloc_cached_frame s cpu) as [s1 [p|]].
  - destruct Ha as (Hb1&Hsh&Hfr). injection Hsh as Hm Hr Ht Hf Hph. simpl in Hfr.
    assert (Hin : p ∈ fs_free s) by (rewrite Hfr; by left).
    assert (HpT : p ∉ T) by (intros HpT; by destruct (inv_owned_not_free _ _ _ _ Hi HpT)).
    assert (Hlen : 1 ≤ zlen (fs_free s)) by (rewrite Hfr, zlen_cons; pose proof (zlen_nonneg (fs_free s1)); lia).
    set (s2 := set_free s1 (FREE_MANAGED_FRAMES s1 - 1)).
    destruct (fetch_inc_ok s2 T p) as (rs&Hfa&Hrs).
    { eapply (refs_ok_same s); [done|done|apply Hi]. }
    { simpl. rewrite Hm. eapply inv_elem; eauto. }
    { rewrite (proj2 (count_of_zero p T) HpT). done. }
    unfold tracker_new. rewrite Hfa, (proj2 (count_of_zero p T) HpT).
    rewrite bool_decide_eq_true_2 by done. eexists _, _. split; [reflexivity|]. cbn [ft_ppn ppn_raw].
    split_and!; [done|done| |subst s2; simpl; by rewrite Hph].
    apply (fs_inv_rebuild s _ T R); [done|by split; apply Hb1|done|done| | | |apply Hi|].
    + eapply refs_ok_same; [| |exact Hrs]; done.
    + intros q. rewrite count_of_cons. case_bool_decide as Hq; [|by apply Hi].
      subst q. by rewrite (proj2 (count_of_zero p T) HpT).
    + rewrite remove_dups_cons_new by done. rewrite Hfr. simpl. by rewrite <-Permutation_middle.
    + rewrite remove_dups_cons_new, zlen_cons by done. subst s2. simpl. rewrite Hf.
      rewrite wrap_small by (unfold is_usize, USIZE_MAX; lia). lia.
  - destruct Ha as [(Hb1&Hsh&Hfr) Hnil]. injection Hsh as Hm Hr Ht Hf Hph.
    eexists _, _. split; [reflexivity|]. split_and!; [done| |done].
    apply (fs_inv_rebuild s _ T R); [done|done|done|done| |apply Hi| |apply Hi|lia].
    + eapply (refs_ok_same s); [done|done|apply Hi].
    + by rewrite Hfr.
Qed.

Lemma tracker_clone_inv s T R t :
  let p := ppn_raw (ft_ppn t) in
  fs_inv s T R → p ∈ T → count_of p T < U32_MAX →
  ∃ s', tracker_clone s t = Ret (s', t) ∧ fs_inv s' (p :: T) R ∧
        fs_free s' = fs_free s ∧ phys s' = phys s.
Proof.
  intros p Hi Hp Hc. destruct (fetch_inc_ok s T p) as (rs&Hfa&Hrs);
    [apply Hi|eapply inv_elem; eauto|done|].
  unfold tracker_clone. fold p. rewrite Hfa.
  rewrite bool_decide_eq_true_2 by (split; [by rewrite count_of_zero; naive_solver|lia]).
  eexists. split; [reflexivity|]. split_and!; [|done|done].
  apply (fs_inv_rebuild s _ T R); [done|by split; apply Hi|done|done|done| | |apply Hi|].
  - intros q. rewrite count_of_cons. case_bool_decide; [subst; lia|by apply Hi].
  - by rewrite remove_dups_cons_in.
  - by rewrite remove_dups_cons_in.
Qed.

(** Taking the counter of a tracked frame down by one. *)
Lemma inv_dec s T R p :
  fs_inv s (p :: T) R →
  ∃ rs, fetch_add_counter s p (-1) = Ret (set_refs s rs, count_of p T + 1) ∧
        refs_ok (set_refs s rs) T ∧ p ∈ region_frames (MEM_REGIONS s) ∧
        ∀ q, count_of q T ≤ U32_MAX.
Proof.
  intros Hi. assert (Hp : p ∈ region_frames (MEM_REGIONS s)).
  { eapply inv_elem; [done|]. right. left. by left. }
  destruct (fetch_dec_ok s T p) as (rs&?&?); [apply Hi|done|apply Hi|].
  exists rs. split_and!; [done|done|done|]. intros q.
  pose proof (inv_counts _ _ _ Hi q) as Hq. rewrite count_of_cons in Hq.
  case_bool_decide; lia.
Qed.

Lemma tracker_drop_inv s T R cpu t :
  let p := ppn_raw (ft_ppn t) in
  fs_inv s (p :: T) R →
  ∃ s', tracker_drop s cpu t = Ret s' ∧ fs_inv s' T R ∧ phys s' = phys s ∧
    fs_free s' ≡ₚ (if bool_decide (p ∈ T) then [] else [p]) ++ fs_free s.
Proof.
  intros p Hi. destruct (inv_dec s T R p Hi) as (rs&Hfa&Hrs&Hp&Hcs).
  unfold tracker_drop. fold p. rewrite Hfa.
  pose proof (count_of_nonneg p T). rewrite bool_decide_eq_true_2 by lia.
  assert (Hb1 : fs_base (set_refs s rs)) by (split; apply Hi).
  destruct (decide (p ∈ T)) as [HpT|HpT].
  - assert (Hne : count_of p T ≠ 0) by (by rewrite count_of_zero; intros Hn; apply Hn).
    rewrite bool_decide_eq_false_2 by lia. rewrite bool_decide_eq_true_2 by done.
    eexists. split; [reflexivity|]. split_and!; [|done|done].
    apply (fs_inv_rebuild s _ (p :: T) R); [done..| |apply Hi|].
    + by rewrite remove_dups_cons_in.
    + by rewrite remove_dups_cons_in.
  - rewrite (proj2 (count_of_zero p T) HpT), Z.add_0_l, bool_decide_eq_true_2 by done.
    rewrite bool_decide_eq_false_2 by done.
    pose proof (inv_all_frames_ok _ _ _ Hi) as Hok. pose proof (inv_free_bounds _ _ _ Hi) as Hfb.
    pose proof (zlen_nonneg (fs_free s)).
    destruct (dealloc_frame_inner_ok (set_refs s rs) cpu p) as (Hb2&Hfr&Hsh);
      [done| | |simpl; lia|].
    { eapply (inv_runs_managed _ T [p]); [apply Hi|done| |lia|].
      - by intros x ->%list_elem_of_singleton.
      - intros x Hx. assert (x = p) as -> by lia. by left. }
    { rewrite remove_dups_cons_new in Hok by done. simpl in Hok.
      rewrite <-Permutation_middle, app_comm_cons in Hok. by apply frames_ok_app_l in Hok. }
    eexists. split; [reflexivity|]. injection Hsh as Hm Hr Ht Hf Hph.
    split_and!; [|done|done].
    apply (fs_inv_rebuild s _ (p :: T) R); [done|done|done|done| |done| |apply Hi|].
    + eapply refs_ok_same; [| |exact Hrs]; done.
    + rewrite Hfr, remove_dups_cons_new by done. simpl. by rewrite <-Permutation_middle.
    + rewrite Hf, remove_dups_cons_new, zlen_cons by done. simpl. lia.
Qed.

Lemma seqZ_single p : seqZ p (next_power_of_two 1) = [p].
Proof. change (next_power_of_two 1) with 1. rewrite seqZ_cons by lia. by rewrite seqZ_nil by lia. Qed.

Lemma raw_frames_cons p n R : raw_frames ((p, n) :: R) = seqZ p (next_power_of_two n) ++ raw_frames R.
Proof. done. Qed.

Lemma raw_pages_cons p n R : raw_pages ((p, n) :: R) = n + raw_pages R.
Proof. done. Qed.

Lemma managed_positive s T R p : fs_inv s T R → p ∈ region_frames (MEM_REGIONS s) → 0 < p < 2 ^ 31.
Proof.
  intros Hi Hp. destruct (region_frames_ok _ (inv_regions _ _ _ Hi)) as [_ Hall].
  rewrite Forall_forall in Hall. by apply Hall.
Qed.

(** The only owner of a frame gives it to the page-table code. *)
Lemma tracker_into_raw_inv s T R t :
  let p := ppn_raw (ft_ppn t) in
  fs_inv s (p :: T) R → p ∉ T →
  ∃ s', tracker_into_raw_ppn s t = Ret (s', ft_ppn t) ∧ fs_inv s' T ((p, 1) :: R) ∧
        fs_free s' = fs_free s ∧ phys s' = phys s.
Proof.
  intros p Hi HpT. destruct (inv_dec s T R p Hi) as (rs&Hfa&Hrs&Hp&Hcs).
  unfold tracker_into_raw_ppn. fold p. rewrite Hfa.
  rewrite (proj2 (count_of_zero p T) HpT), Z.add_0_l, bool_decide_eq_true_2 by done.
  eexists. split; [reflexivity|]. split_and!; [|done|done].
  apply (fs_inv_rebuild s _ (p :: T) R); [done|by split; apply Hi|done|done|done|done| | |].
  - rewrite remove_dups_cons_new, raw_frames_cons, seqZ_single by done. simpl.
    by rewrite <-Permutation_middle.
  - constructor; [|apply Hi]. cbn [fst snd]. split; [lia|]. apply fb_single_ok.
    pose proof (managed_positive _ _ _ _ Hi Hp). simpl. lia.
  - rewrite remove_dups_cons_new, zlen_cons, raw_pages_cons by done. simpl. lia.
Qed.

Lemma dealloc_frame_inv s T R cpu p :
  fs_inv s T ((ppn_raw p, 1) :: R) →
  ∃ s', dealloc_frame s cpu p = Ret s' ∧ fs_inv s' T R ∧ phys s' = phys s ∧
        fs_free s' ≡ₚ ppn_raw p :: fs_free s.
Proof.
  destruct p as [p]. simpl. intros Hi. pose proof (inv_all_frames_ok _ _ _ Hi) as Hok.
  rewrite raw_frames_cons, seqZ_single in Hok. simpl in Hok.
  rewrite <-Permutation_middle in Hok. rewrite <-Permutation_middle in Hok.
  assert (HpT : p ∉ T).
  { intros HpT. destruct Hok as [Hnd _]. apply NoDup_cons in Hnd as [Hnd _]. apply Hnd.
    rewrite !elem_of_app, elem_of_remove_dups. auto. }
  assert (Hp : p ∈ region_frames (MEM_REGIONS s)).
  { eapply inv_elem; [done|]. right. right. rewrite raw_frames_cons, seqZ_single. by left. }
  pose proof (inv_free_bounds _ _ _ Hi) as Hfb. pose proof (zlen_nonneg (fs_free s)).
  unfold dealloc_frame, frame_ref_counter. pose proof (inv_refs _ _ _ Hi) as (rs&Hrs&Hbd&Hc).
  rewrite Hrs. simpl. rewrite (Hc p Hp), (proj2 (count_of_zero p T) HpT), bool_decide_eq_true_2 by done.
  destruct (dealloc_frame_inner_ok s cpu p) as (Hb2&Hfr&Hsh); [apply Hi| | |lia|].
  { eapply (inv_free_runs_managed _ _ _ Hi); [lia|]. intros x Hx. by assert (x = p) as -> by lia. }
  { rewrite app_comm_cons in Hok. by apply frames_ok_app_l in Hok. }
  eexists. split; [reflexivity|]. injection Hsh as Hm Hr Ht Hf Hph. split_and!; [|done|done].
  apply (fs_inv_rebuild s _ T ((p, 1) :: R)); [done|done|done|done| |apply Hi| | |].
  - eapply (refs_ok_same s); [done|done|apply Hi].
  - rewrite raw_frames_cons, seqZ_single, Hfr. simpl. by rewrite <-!Permutation_middle.
  - pose proof (inv_raw _ _ _ Hi) as Hraw. by apply Forall_cons in Hraw as [_ ?].
  - rewrite Hf, raw_pages_cons. simpl. lia.
Qed.

Lemma alloc_contiguous_inv s T R pages :
  fs_inv s T R → 1 ≤ pages ≤ USIZE_MAX →
  let '(s', o) := alloc_contiguous_frames s pages in
  phys s' = phys s ∧ MEM_REGIONS s' = MEM_REGIONS s ∧
  match o with
  | Some p => fs_inv s' T ((p, pages) :: R) ∧
      fs_free s ≡ₚ seqZ p (next_power_of_two pages) ++ fs_free s'
  | None => fs_inv s' T R ∧ (pages = 1 → fs_free s = [])
  end.
Proof.
  intros Hi Hpg. unfold alloc_contiguous_frames. rewrite bool_decide_eq_false_2 by lia.
  pose proof (inv_all_frames_ok _ _ _ Hi) as Hok. pose proof (inv_free_bounds _ _ _ Hi) as Hfb.
  assert (Hid : fs_moves s s []) by (split_and!; [apply Hi|done|done]).
  pose proof (alloc_contiguous_loop_ok s s pages
    (2 + length (fb_frames (FRAME_ALLOCATOR s)) + length (cached_frames s)) false Hid
    ltac:(done) (frames_ok_app_l _ _ Hok) (inv_runs_free _ _ _ Hi) Hpg ltac:(simpl; lia)) as Ha.
  destruct (alloc_contiguous_loop _ s pages false) as [s' [p|]].
  - destruct Ha as (Hle&Hbk&Hmg&s1&->&Hb1&Hsh&Hfr). injection Hsh as Hm Hr Ht Hf Hph.
    split; [done|]. split; [done|]. split; [|done].
    assert (Hlen : pages ≤ zlen (fs_free s)).
    { rewrite Hfr, zlen_app. destruct (next_power_of_two_spec pages) as (k&->&Hk&_&_); [lia|].
      unfold zlen at 1. rewrite length_seqZ. pose proof (zlen_nonneg (fs_free s1)). lia. }
    apply (fs_inv_rebuild s _ T R); [done|by split; apply Hb1|done|done| |apply Hi| | |].
    + eapply (refs_ok_same s); [done|done|apply Hi].
    + rewrite raw_frames_cons, Hfr. change (fs_free (set_free s1 _)) with (fs_free s1).
      apply perm_block_move.
    + constructor; [|apply Hi]. simpl. split; [lia|done].
    + rewrite raw_pages_cons. simpl. rewrite Hf, wrap_small by (unfold is_usize, USIZE_MAX; lia). lia.
  - destruct Ha as [(Hb1&Hsh&Hfr) Hnil]. injection Hsh as Hm Hr Ht Hf Hph.
    split; [done|]. split; [done|]. split; [|done].
    apply (fs_inv_rebuild s _ T R); [done|done|done|done| |apply Hi| |apply Hi|lia].
    + eapply (refs_ok_same s); [done|done|apply Hi].
    + by rewrite Hfr.
Qed.

Lemma dealloc_contiguous_inv s T R p pages :
  fs_inv s T ((p, pages) :: R) →
  let s' := dealloc_contiguous_frames s p pages in
  fs_inv s' T R ∧ phys s' = phys s ∧ fs_free s' ≡ₚ seqZ p (next_power_of_two pages) ++ fs_free s.
Proof.
  intros Hi. pose proof (inv_raw _ _ _ Hi) as Hraw. apply Forall_cons in Hraw as [[Hn Hbk] Hraw].
  cbn [fst snd] in Hn, Hbk. pose proof (inv_all_frames_ok _ _ _ Hi) as Hok.
  rewrite raw_frames_cons, perm_block_move in Hok.
  destruct (next_power_of_two_spec pages) as (k&Hk&Hpk&_&_); [lia|].
  unfold dealloc_contiguous_frames. rewrite bool_decide_eq_true_2 by lia.
  assert (Hmg : is_managed_range s p pages = true).
  { apply (inv_free_runs_managed _ _ _ Hi); [lia|]. intros x Hx. eapply inv_elem; [done|].
    right. right. rewrite raw_frames_cons, elem_of_app, elem_of_seqZ. left. lia. }
  rewrite Hmg. pose proof (inv_free_bounds _ _ _ Hi) as Hfb. pose proof (zlen_nonneg (fs_free s)).
  apply frames_ok_app_l in Hok. pose proof Hok as Hok'. unfold fs_free in Hok'.
  rewrite app_assoc in Hok'. apply frames_ok_app_l in Hok' as [Hnd Hall].
  destruct (fb_dealloc_ok (FRAME_ALLOCATOR s) p pages) as [Hw Hfr]; [apply Hi|lia|done|done| |].
  { eapply Forall_impl; [exact Hall|]. simpl. lia. }
  assert (Hfr' : fs_free (set_backend s (fb_dealloc (FRAME_ALLOCATOR s) p pages)) ≡ₚ
    seqZ p (next_power_of_two pages) ++ fs_free s).
  { unfold fs_free, cached_frames. simpl. rewrite Hfr. by rewrite <-app_assoc. }
  split; [|split; [done|exact Hfr']].
  apply (fs_inv_rebuild s _ T ((p, pages) :: R)); [done|split; [done|apply Hi]|done|done| |apply Hi| |done|].
  - eapply (refs_ok_same s); [done|done|apply Hi].
  - rewrite raw_frames_cons, perm_block_move.
    change (fs_free (set_free ?x _)) with (fs_free x). by rewrite Hfr'.
  - rewrite raw_pages_cons. simpl. rewrite wrap_small by (unfold is_usize, USIZE_MAX; lia). lia.
Qed.

(** ** Steps

    The allocator's clients as a step relation over the state and the two ghost
    lists; a caller gives back only what it owns. *)

Inductive fstep : FrameState B * list Z * list (Z * Z) → FrameState B * list Z * list (Z * Z) → Prop :=
  | step_alloc s T R cpu s' t :
      alloc_frame s cpu = Ret (s', Some t) → fstep (s, T, R) (s', ppn_raw (ft_ppn t) :: T, R)
  | step_alloc_none s T R cpu s' :
      alloc_frame s cpu = Ret (s', None) → fstep (s, T, R) (s', T, R)
  | step_clone s T R t s' t' :
      ppn_raw (ft_ppn t) ∈ T → tracker_clone s t = Ret (s', t') →
      fstep (s, T, R) (s', ppn_raw (ft_ppn t') :: T, R)
  | step_drop s T T' R cpu t s' :
      T ≡ₚ ppn_raw (ft_ppn t) :: T' → tracker_drop s cpu t = Ret s' → fstep (s, T, R) (s', T', R)
  | step_into_raw s T T' R t s' ppn :
      T ≡ₚ ppn_raw (ft_ppn t) :: T' → tracker_into_raw_ppn s t = Ret (s', ppn) →
      fstep (s, T, R) (s', T', (ppn_raw ppn, 1) :: R)
  | step_dealloc_frame s T R R' cpu ppn s' :
      R ≡ₚ (ppn_raw ppn, 1) :: R' → dealloc_frame s cpu ppn = Ret s' → fstep (s, T, R) (s', T, R')
  | step_alloc_contiguous s T R pages s' p :
      1 ≤ pages ≤ USIZE_MAX → alloc_contiguous_frames s pages = (s', Some p) →
      fstep (s, T, R) (s', T, (p, pages) :: R)
  | step_alloc_contiguous_none s T R pages s' :
      1 ≤ pages ≤ USIZE_MAX → alloc_contiguous_frames s pages = (s', None) →
      fstep (s, T, R) (s', T, R)
  | step_dealloc_contiguous s T R R' p pages :
      R ≡ₚ (p, pages) :: R' →
      fstep (s, T, R) (dealloc_contiguous_frames s p pages, T, R').

Lemma tracker_clone_Ret s T R t s' t' :
  fs_inv s T R → ppn_raw (ft_ppn t) ∈ T → tracker_clone s t = Ret (s', t') →
  count_of (ppn_raw (ft_ppn t)) T < U32_MAX.
Proof.
  intros Hi Ht Hc. pose proof (inv_counts _ _ _ Hi (ppn_raw (ft_ppn t))) as Hle.
  destruct (fetch_add_counter_ok s T (ppn_raw (ft_ppn t)) 1) as (rs&Hfa&_);
    [apply Hi|eapply inv_elem; eauto|].
  unfold tracker_clone in Hc. rewrite Hfa in Hc. case_bool_decide as Hb; [|done]. lia.
Qed.

Lemma tracker_into_raw_Ret s T R t s' ppn :
  fs_inv s (ppn_raw (ft_ppn t) :: T) R → tracker_into_raw_ppn s t = Ret (s', ppn) →
  ppn_raw (ft_ppn t) ∉ T.
Proof.
  intros Hi Hc. destruct (inv_dec s T R _ Hi) as (rs&Hfa&_).
  unfold tracker_into_raw_ppn in Hc. rewrite Hfa in Hc. case_bool_decide as Hb; [|done].
  apply count_of_zero. lia.
Qed.

Definition config_inv (c : FrameState B * list Z * list (Z * Z)) : Prop :=
  fs_inv c.1.1 c.1.2 c.2.

Lemma fstep_inv c c' : fstep c c' → config_inv c → config_inv c'.
Proof.
  unfold config_inv.
  intros [s T R cpu s' t Ha|s T R cpu s' Ha|s T R t s' t' Ht Ha|s T T' R cpu t s' HT Ha
    |s T T' R t s' ppn HT Ha|s T R R' cpu ppn s' HR Ha|s T R n s' p Hn Ha|s T R n s' Hn Ha
    |s T R R' p n HR] Hi; simpl in Hi |- *.
  - destruct (alloc_frame_inv s T R cpu Hi) as (?&?&He&H'). rewrite Ha in He. simplify_eq. apply H'.
  - destruct (alloc_frame_inv s T R cpu Hi) as (?&?&He&H'). rewrite Ha in He. simplify_eq. apply H'.
  - pose proof (tracker_clone_Ret _ _ _ _ _ _ Hi Ht Ha) as Hlt.
    destruct (tracker_clone_inv s T R t Hi Ht Hlt) as (?&He&?&?). rewrite Ha in He. by simplify_eq.
  - apply (fs_inv_perm _ _ _ _ HT) in Hi.
    destruct (tracker_drop_inv s T' R cpu t Hi) as (?&He&?&?). rewrite Ha in He. by simplify_eq.
  - apply (fs_inv_perm _ _ _ _ HT) in Hi. pose proof (tracker_into_raw_Ret _ _ _ _ _ _ Hi Ha) as HnT.
    destruct (tracker_into_raw_inv s T' R t Hi HnT) as (?&He&?&?). rewrite Ha in He. by simplify_eq.
  - apply (fs_inv_raw_perm _ _ _ _ HR) in Hi.
    destruct (dealloc_frame_inv s T R' cpu ppn Hi) as (?&He&?&?). rewrite Ha in He. by simplify_eq.
  - pose proof (alloc_contiguous_inv s T R n Hi Hn) as H. rewrite Ha in H. apply H.
  - pose proof (alloc_contiguous_inv s T R n Hi Hn) as H. rewrite Ha in H. apply H.
  - apply (fs_inv_raw_perm _ _ _ _ HR) in Hi.
    by destruct (dealloc_contiguous_inv s T R' p n Hi) as (?&?&?).
Qed.

(** ** Boot *)

(** The state while memory is being added: everything managed is free. *)
Record fs_boot s : Prop := {
  boot_base : fs_base s;
  boot_regions : regions_ok (MEM_REGIONS s);
  boot_refs : FRAME_REF_REGIONS s = None;
  boot_part : fs_free s ≡ₚ region_frames (MEM_REGIONS s);
  boot_total : TOTAL_MANAGED_FRAMES s = zlen (region_frames (MEM_REGIONS s));
  boot_free : FREE_MANAGED_FRAMES s = zlen (region_frames (MEM_REGIONS s))
}.

(** The region lies between the byte addresses [lo] and [hi]. *)
Definition region_within (lo hi : Z) (r : Z * Z) : Prop :=
  lo ≤ r.1 * PAGE_SIZE ∧ r.2 * PAGE_SIZE ≤ hi.

(** The region does not meet the bytes [lo..hi). *)
Definition region_clear (lo hi : Z) (r : Z * Z) : Prop :=
  r.2 * PAGE_SIZE ≤ lo ∨ hi ≤ r.1 * PAGE_SIZE.

(** The highest address of the physical memory the allocator can manage. *)
Definition PHYS_LIMIT : Z := 2 ^ 43.

Lemma regions_ok_snoc regions a :
  regions_ok regions → 0 < a.1 < a.2 → a.2 ≤ 2 ^ 31 →
  Forall (λ r, r.2 < a.1 ∨ a.2 < r.1) regions → regions_ok (regions ++ [a]).
Proof.
  intros [Hb Ha] H1 H2 Hsep. rewrite Forall_lookup in Hsep. split.
  { apply Forall_app. split; [done|]. by constructor. }
  intros i j x y Hij Hx Hy. apply lookup_snoc_Some in Hx, Hy.
  destruct Hx as [[_ Hx]|[-> <-]], Hy as [[_ Hy]|[-> <-]]; [by eauto| | |done].
  - specialize (Hsep i x Hx). simpl in Hsep. lia.
  - specialize (Hsep j y Hy). simpl in Hsep. lia.
Qed.

Lemma region_frames_snoc regions a :
  region_frames (regions ++ [a]) ≡ₚ seqZ a.1 (a.2 - a.1) ++ region_frames regions.
Proof.
  unfold region_frames. rewrite fmap_app, join_app, Permutation_app_comm.
  simpl. by rewrite app_nil_r.
Qed.

Lemma fs_init_boot : fs_boot (fs_init (B := B)).
Proof.
  destruct fb_new_wf as [Hw Hn]. destruct cache_empty_wf as [Hc Hcn].
  split; [| |done| |done|done].
  - split; [done|]. split; [done|]. by apply Forall_replicate.
  - split; [constructor|]. intros ????? Hx. done.
  - unfold fs_free. simpl. rewrite Hn. done.
Qed.

Lemma add_frames_range_boot s start end_ :
  fs_boot s → 0 ≤ start → start + PAGE_SIZE ≤ USIZE_MAX → 0 ≤ end_ ≤ PHYS_LIMIT →
  Forall (λ r, r.2 < start / PAGE_SIZE ∨ end_ / PAGE_SIZE < r.1) (MEM_REGIONS s) →
  ∃ s' new, add_frames_range s start end_ = Ret s' ∧ fs_boot s' ∧
    MEM_REGIONS s' = MEM_REGIONS s ++ new ∧ Forall (region_within start end_) new.
Proof.
  unfold PAGE_SIZE, PHYS_LIMIT, USIZE_MAX. intros Hb Hs Hsm He Hsep. unfold add_frames_range, PAGE_SIZE.
  rewrite wrap_small by (unfold is_usize, USIZE_MAX; lia).
  set (sp := Z.max _ 1). set (ep := end_ / 4096).
  case_bool_decide as Hlt; [|exists s, []; split_and!; [done|done|by rewrite app_nil_r|done]].
  assert (Hr : regions_ok (MEM_REGIONS s ++ [(sp, ep)])).
  { apply regions_ok_snoc; [apply Hb|simpl; lia|simpl; lia|].
    eapply Forall_impl; [exact Hsep|]. simpl. intros r Hr. lia. }
  pose proof (region_frames_ok _ Hr) as Hok. pose proof (region_frames_len _ Hr) as Hlen.
  pose proof (region_frames_snoc (MEM_REGIONS s) (sp, ep)) as Hfr. simpl in Hfr.
  rewrite Hfr in Hok, Hlen. rewrite <-(boot_part _ Hb) in Hok. unfold fs_free in Hok.
  rewrite app_assoc in Hok. apply frames_ok_app_l in Hok as [Hnd _].
  destruct (fb_add_frame_ok (FRAME_ALLOCATOR s) sp ep) as (b&->&Hw&Hbf);
    [apply Hb|lia|unfold USIZE_MAX; lia|done|].
  rewrite zlen_app in Hlen. assert (Hseq : zlen (seqZ sp (ep - sp)) = ep - sp).
  { unfold zlen. rewrite length_seqZ. lia. }
  pose proof (zlen_nonneg (region_frames (MEM_REGIONS s))) as Hnn.
  eexists _, [(sp, ep)]. split; [reflexivity|]. split_and!; [|done|].
  - split; simpl.
    + split; [done|apply Hb].
    + done.
    + apply Hb.
    + rewrite Hfr. rewrite <-(boot_part _ Hb). unfold fs_free, cached_frames. simpl.
      rewrite Hbf. by rewrite app_assoc.
    + rewrite Hfr, zlen_app, Hseq, (boot_total _ Hb).
      rewrite wrap_small by (unfold is_usize, USIZE_MAX; lia). lia.
    + rewrite Hfr, zlen_app, Hseq, (boot_free _ Hb).
      rewrite wrap_small by (unfold is_usize, USIZE_MAX; lia). lia.
  - constructor; [|done]. unfold region_within, PAGE_SIZE. simpl. lia.
Qed.

Lemma finalize_inv s : fs_boot s → fs_inv (finalize_frame_refcounts s) [] [].
Proof.
  intros Hb. unfold finalize_frame_refcounts. rewrite (boot_refs _ Hb).
  set (rs := (λ '(a, b), region_new a b) <$> MEM_REGIONS s). split; simpl.
  - by split; apply Hb.
  - apply Hb.
  - exists rs. split_and!; [done| |].
    + subst rs. rewrite <-list_fmap_compose. simpl. rewrite <-(list_fmap_id (MEM_REGIONS s)) at 2.
      apply list_fmap_ext. by intros _ [a b] _.
    + simpl. intros p Hp. apply elem_of_region_frames in Hp as (i&a&Hi&Ha).
      subst rs. clear -Hi Ha. revert i Hi. induction (MEM_REGIONS s) as [|[x y] l IH]; intros i Hi; [done|].
      rewrite fmap_cons. cbn [find_counter]. destruct (decide (x ≤ p < y)) as [Hin|Hout].
      * by rewrite region_new_counter.
      * destruct (region_counter (region_new x y) p) eqn:E.
        { exfalso. apply Hout. apply (region_counter_range (region_new x y)). by eexists. }
        destruct i as [|i]; [simpl in Hi; simplify_eq; simpl in *; lia|]. by apply (IH i).
  - intros p. unfold count_of. simpl. unfold zlen, U32_MAX. simpl. lia.
  - rewrite app_nil_r. apply Hb.
  - constructor.
  - apply Hb.
  - rewrite (boot_free _ Hb). rewrite zlen_nil. simpl. lia.
Qed.

(** The memory areas of the platform are below [PHYS_LIMIT] and a page apart. *)
Definition area_apart (a b : Z * Z) : Prop :=
  a.1 + a.2 + PAGE_SIZE ≤ b.1 ∨ b.1 + b.2 + PAGE_SIZE ≤ a.1.

Fixpoint areas_ok (areas : list (Z * Z)) : Prop :=
  match areas with
  | [] => True
  | a :: rest =>
      (0 ≤ a.1 ∧ 0 ≤ a.2 ∧ a.1 + a.2 ≤ PHYS_LIMIT) ∧ Forall (area_apart a) rest ∧ areas_ok rest
  end.

(** A region far from an area. *)
Definition region_apart (a r : Z * Z) : Prop :=
  r.2 * PAGE_SIZE + PAGE_SIZE ≤ a.1 ∨ a.1 + a.2 + PAGE_SIZE ≤ r.1 * PAGE_SIZE.

Lemma region_within_apart a b r :
  area_apart a b → region_within a.1 (a.1 + a.2) r → region_apart b r.
Proof. unfold area_apart, region_within, region_apart, PAGE_SIZE. lia. Qed.

Lemma add_available_frames_boot s ks ke a :
  fs_boot s → 0 ≤ ks < ke → ke + PAGE_SIZE ≤ PHYS_LIMIT → 0 ≤ a.1 → 0 ≤ a.2 →
  a.1 + a.2 ≤ PHYS_LIMIT → Forall (region_apart a) (MEM_REGIONS s) →
  ∃ s' c new, add_available_frames s ks ke a.1 (a.1 + a.2) = Ret (s', c) ∧ fs_boot s' ∧
    MEM_REGIONS s' = MEM_REGIONS s ++ new ∧ Forall (region_within a.1 (a.1 + a.2)) new ∧
    Forall (region_clear ks ke) new.
Proof.
  destruct a as [start len]. cbn [fst snd]. intros Hb Hk Hke Hs Hl Hlim Hap.
  unfold PHYS_LIMIT in *. unfold add_available_frames.
  assert (HP : PAGE_SIZE = 4096) by done. rewrite HP in *.
  rewrite sat_add_exact by (unfold USIZE_MAX; lia).
  set (kend := (ke + (4096 - 1)) / 4096 * 4096).
  assert (Hkend : ke ≤ kend < ke + 4096) by lia. assert (Hka : kend mod 4096 = 0) by lia.
  assert (Hap' : ∀ lo hi, start ≤ lo → hi ≤ start + len →
    Forall (λ r, r.2 < lo / PAGE_SIZE ∨ hi / PAGE_SIZE < r.1) (MEM_REGIONS s)).
  { intros lo hi Hlo Hhi. eapply Forall_impl; [exact Hap|]. unfold region_apart. simpl.
    intros r. rewrite HP. lia. }
  case_bool_decide as He.
  { exists s, 0, []. rewrite app_nil_r. done. }
  assert (Hadd : ∀ s1 lo hi, fs_boot s1 → start ≤ lo → lo < 2 ^ 43 → hi ≤ start + len → 0 ≤ hi →
    Forall (λ r, r.2 < lo / PAGE_SIZE ∨ hi / PAGE_SIZE < r.1) (MEM_REGIONS s1) →
    hi ≤ ks ∨ kend ≤ lo →
    ∃ s' new, add_frames_range s1 lo hi = Ret s' ∧ fs_boot s' ∧ MEM_REGIONS s' = MEM_REGIONS s1 ++ new ∧
      Forall (region_within lo hi) new ∧ Forall (region_within start (start + len)) new ∧
      Forall (region_clear ks ke) new).
  { intros s1 lo hi Hb1 Hlo Hlo2 Hhi Hhi0 Hsep Hclr.
    destruct (add_frames_range_boot s1 lo hi) as (s'&new&->&?&?&Hin);
      [done|lia|unfold USIZE_MAX; lia|unfold PHYS_LIMIT; lia|done|].
    exists s', new. split_and!; [done..| |].
    all: eapply Forall_impl; [exact Hin|]; unfold region_within, region_clear; simpl; rewrite HP; lia. }
  case_bool_decide as Hout.
  { destruct (Hadd s start (start + len)) as (s'&new&->&?&?&?&?&?); [done|lia|lia|lia|lia|by apply Hap'|lia|].
    eexists _, _, new. done. }
  assert (Hleft : ∃ s1 c1 new1, (if bool_decide (start < ks)
      then (s ←! add_frames_range s start ks; Ret (s, 1)) else Ret (s, 0)) = Ret (s1, c1) ∧ fs_boot s1 ∧
      MEM_REGIONS s1 = MEM_REGIONS s ++ new1 ∧ Forall (region_within start (start + len)) new1 ∧
      Forall (λ r, r.2 * 4096 ≤ ks) new1).
  { case_bool_decide as Hsk; [|exists s, 0, []; rewrite app_nil_r; done].
    destruct (Hadd s start ks) as (s'&new&->&?&?&Hw&?&?); [done|lia|lia|lia|lia|apply Hap'; lia|lia|].
    eexists _, _, new. split_and!; [done..|]. eapply Forall_impl; [exact Hw|].
    unfold region_within. simpl. rewrite HP. lia. }
  destruct Hleft as (s1&c1&new1&->&Hb1&Hm1&Hw1&Hk1).
  assert (Hc1 : Forall (region_clear ks ke) new1).
  { eapply Forall_impl; [exact Hk1|]. unfold region_clear. simpl. rewrite HP. lia. }
  case_bool_decide as Hke2; [|by eexists _, _, new1].
  destruct (Hadd s1 kend (start + len)) as (s2&new2&->&?&Hm2&_&?&?); [done|lia|lia|lia|lia| |lia|].
  { rewrite Hm1. apply Forall_app. split; [apply Hap'; lia|]. eapply Forall_impl; [exact Hk1|].
    simpl. intros r Hr. rewrite HP. lia. }
  eexists _, _, (new1 ++ new2). split; [reflexivity|]. rewrite Hm2, Hm1, app_assoc.
  split_and!; [done|done|by apply Forall_app|by apply Forall_app].
Qed.

Lemma add_memory_areas_boot s ks ke areas :
  fs_boot s → 0 ≤ ks < ke → ke + PAGE_SIZE ≤ PHYS_LIMIT → areas_ok areas →
  Forall (λ r, Forall (λ a, region_apart a r) areas) (MEM_REGIONS s) →
  Forall (region_clear ks ke) (MEM_REGIONS s) →
  ∃ s', add_memory_areas s ks ke areas = Ret s' ∧ fs_boot s' ∧
        Forall (region_clear ks ke) (MEM_REGIONS s').
Proof.
  intros Hb Hk Hke. revert s Hb.
  induction areas as [|[start len] areas IH]; intros s Hb Hok Hap Hclr; simpl; [by eauto|].
  destruct Hok as ((H1&H2&H3)&Hap0&Hok). simpl in H1, H2, H3.
  assert (Hap1 : Forall (λ r, Forall (λ a, region_apart a r) areas) (MEM_REGIONS s)).
  { eapply Forall_impl; [exact Hap|]. intros r Hr. by apply Forall_cons in Hr as [_ ?]. }
  case_bool_decide as Hl; [|by apply IH].
  rewrite sat_add_exact by (unfold USIZE_MAX, PHYS_LIMIT in *; lia).
  destruct (add_available_frames_boot s ks ke (start, len)) as (s'&c&new&Heq&Hb'&Hm&Hw&Hc);
    [done..| |].
  { eapply Forall_impl; [exact Hap|]. intros r Hr. by apply Forall_cons in Hr as [? _]. }
  simpl in Heq. rewrite Heq. apply IH; [done|done| |].
  - rewrite Hm. apply Forall_app. split; [done|]. rewrite Forall_forall in Hw |- *.
    intros r Hr. eapply Forall_impl; [exact Hap0|]. intros b Hb2.
    by eapply region_within_apart, Hw.
  - rewrite Hm. by apply Forall_app.
Qed.

Lemma boot_frames_inv ks ke areas :
  0 ≤ ks < ke → ke + PAGE_SIZE ≤ PHYS_LIMIT → areas_ok areas →
  ∃ s, boot_frames (B := B) ks ke areas = Ret s ∧ fs_inv s [] [] ∧
       Forall (region_clear ks ke) (MEM_REGIONS s).
Proof.
  intros Hk Hke Hok. unfold boot_frames.
  destruct (add_memory_areas_boot fs_init ks ke areas) as (s&->&Hb&Hc);
    [apply fs_init_boot|done|done|done|by constructor|by constructor|].
  eexists. split; [reflexivity|]. split; [by apply finalize_inv|].
  unfold finalize_frame_refcounts. by rewrite (boot_refs _ Hb).
Qed.

(** ** Theorems *)


(** [alloc_frame] never panics; it returns a tracker of a frame that was free and
    had no owner, zeroed and with no other frame's bytes changed, and it returns
    nothing only when no frame is free in the central allocator or in any CPU's
    cache. *)
Theorem alloc_frame_fresh_zeroed s T R cpu :
  fs_inv s T R →
  ∃ s' o, alloc_frame s cpu = Ret (s', o) ∧
    match o with
    | Some t => let p := ppn_raw (ft_ppn t) in
        p ∈ fs_free s ∧ p ∉ T ∧ p ∉ fs_free s' ∧ tracker_ref_count s' t = Ret 1 ∧
        phys s' !! p = Some ZERO_PAGE ∧ (∀ q, q ≠ p → phys s' !! q = phys s !! q)
    | None => fs_free s = [] ∧ fs_free s' = []
    end.
Proof.
  intros Hi. destruct (alloc_frame_inv s T R cpu Hi) as (s'&o&Ha&Ho). exists s', o.
  split; [done|]. destruct o as [t|].
  - destruct Ho as (Hf&HT&Hi'&Hph). pose proof (inv_owned_not_free _ _ _ (ppn_raw (ft_ppn t)) Hi') as Hn.
    split_and!; [done|done|apply Hn; by left| | |].
    + pose proof (inv_refs _ _ _ Hi') as (rs&Hrs&_&Hc). unfold tracker_ref_count, frame_ref_counter.
      rewrite Hrs, Hc; [|eapply inv_elem; [done|right; left; by left]].
      rewrite count_of_cons, bool_decide_eq_true_2 by done. by rewrite (proj2 (count_of_zero _ T) HT).
    + rewrite Hph. apply lookup_insert_eq.
    + intros q Hq. rewrite Hph. by apply lookup_insert_ne.
  - destruct Ho as (Hnil&Hi'&_). split; [done|]. apply Permutation_nil.
    pose proof (alloc_cached_frame_ok s cpu (inv_base _ _ _ Hi)
      (frames_ok_app_l _ _ (inv_all_frames_ok _ _ _ Hi)) (inv_runs_free _ _ _ Hi)) as Hac.
    unfold alloc_frame in Ha. destruct (alloc_cached_frame s cpu) as [s1 [q|]].
    + by destruct (tracker_new _ _) as [[??]|].
    + destruct Hac as [(_&_&Hfr) _]. simplify_eq. by rewrite <-Hfr, Hnil.
Qed.

(** A clone adds an owner and a drop removes one; neither panics (a clone below
    the limit of the counter), and the frame becomes free again exactly when its last
    tracker is dropped. *)
Theorem tracker_clone_drop s T R cpu t :
  let p := ppn_raw (ft_ppn t) in
  fs_inv s T R → p ∈ T → count_of p T < U32_MAX →
  ∃ s1 s2, tracker_clone s t = Ret (s1, t) ∧
    tracker_ref_count s1 t = Ret (count_of p T + 1) ∧
    tracker_drop s1 cpu t = Ret s2 ∧ fs_inv s2 T R ∧ fs_free s2 ≡ₚ fs_free s ∧
    (∀ T', T ≡ₚ p :: T' →
      ∃ s3, tracker_drop s2 cpu t = Ret s3 ∧ fs_inv s3 T' R ∧ (p ∈ fs_free s3 ↔ p ∉ T')).
Proof.
  intros p Hi Hp Hc. destruct (tracker_clone_inv s T R t Hi Hp Hc) as (s1&Hcl&Hi1&Hf1&_).
  destruct (tracker_drop_inv s1 T R cpu t Hi1) as (s2&Hd&Hi2&_&Hf2).
  fold p in Hf2. rewrite bool_decide_eq_true_2 in Hf2 by done. simpl in Hf2.
  exists s1, s2. split_and!; [done| |done|done|by rewrite Hf2, Hf1|].
  - pose proof (inv_refs _ _ _ Hi1) as (rs&Hrs&_&Hcn). unfold tracker_ref_count, frame_ref_counter.
    fold p. rewrite Hrs, Hcn; [|eapply inv_elem; [done|right; left; by left]].
    rewrite count_of_cons, bool_decide_eq_true_2 by done. f_equal. lia.
  - intros T' HT. apply (fs_inv_perm _ _ _ _ HT) in Hi2.
    destruct (tracker_drop_inv s2 T' R cpu t Hi2) as (s3&Hd3&Hi3&_&Hf3). exists s3.
    split_and!; [done|done|]. fold p in Hf3. rewrite Hf3, elem_of_app.
    case_bool_decide as HpT; [|split; [done|intros _; left; by left]].
    split; [|done]. intros [?%not_elem_of_nil|Hin]; [done|].
    destruct (inv_owned_not_free s2 (p :: T') R p Hi2) as [Hn _]; [by left|done].
Qed.

(** A contiguous allocation that succeeds gives [pages] managed frames that were
    free, and freeing it restores the free frames and the free counter; a request for
    one page fails only when nothing is free. *)
Theorem contiguous_alloc_dealloc s T R pages :
  fs_inv s T R → 1 ≤ pages ≤ USIZE_MAX →
  match alloc_contiguous_frames s pages with
  | (s', Some p) =>
      (∀ x, p ≤ x < p + pages → x ∈ fs_free s ∧ x ∉ fs_free s') ∧
      is_managed_range s p pages = true ∧
      remaining_frames s' = remaining_frames s - pages ∧
      let s'' := dealloc_contiguous_frames s' p pages in
      fs_inv s'' T R ∧ fs_free s'' ≡ₚ fs_free s ∧ remaining_frames s'' = remaining_frames s
  | (s', None) => fs_inv s' T R ∧ (pages = 1 → fs_free s = [])
  end.
Proof.
  intros Hi Hpg. pose proof (alloc_contiguous_inv s T R pages Hi Hpg) as Ha.
  destruct (alloc_contiguous_frames s pages) as [s' [p|]]; destruct Ha as (_&Hm&Ha).
  - destruct Ha as [Hi' Hfr]. pose proof (inv_raw _ _ _ Hi') as Hle.
    apply Forall_cons in Hle as [[Hle _] _]. simpl in Hle.
    destruct (next_power_of_two_spec pages) as (k&Hk&Hpk&_&_); [lia|].
    assert (Hx : ∀ x, p ≤ x < p + pages → x ∈ fs_free s).
    { intros x Hx. rewrite Hfr, elem_of_app, elem_of_seqZ. left. lia. }
    destruct (dealloc_contiguous_inv s' T R p pages Hi') as (Hi''&_&Hfr'').
    assert (Hfree : remaining_frames s' = remaining_frames s - pages).
    { unfold remaining_frames. rewrite (inv_free _ _ _ Hi), (inv_free _ _ _ Hi'), Hm, raw_pages_cons. lia. }
    cbv zeta. split_and!; [| |done|done|by rewrite Hfr'', Hfr|].
    + intros x Hx'. split; [by apply Hx|]. intros Hin.
      destruct (frames_ok_app_l _ _ (inv_all_frames_ok _ _ _ Hi)) as [Hnd _].
      rewrite Hfr in Hnd. apply NoDup_app in Hnd as (_&Hdj&_). eapply (Hdj x); [|done].
      apply elem_of_seqZ. lia.
    + apply (inv_runs_free _ _ _ Hi); [lia|done].
    + unfold remaining_frames in *. rewrite (inv_free _ _ _ Hi''), (inv_free _ _ _ Hi).
      f_equal; f_equal; f_equal. unfold dealloc_contiguous_frames.
      repeat case_match; simpl; by rewrite ?Hm.
  - done.
Qed.

(** The boot code registers the platform's memory areas without panicking, hands
    out nothing that meets the kernel image, and leaves every managed frame free with
    reference count zero. *)
Theorem boot_frames_avoid_kernel ks ke areas :
  0 ≤ ks < ke → ke + PAGE_SIZE ≤ PHYS_LIMIT → areas_ok areas →
  ∃ s, boot_frames (B := B) ks ke areas = Ret s ∧ fs_inv s [] [] ∧
    remaining_frames s = total_frames s ∧
    ∀ p, p ∈ fs_free s → (p + 1) * PAGE_SIZE ≤ ks ∨ ke ≤ p * PAGE_SIZE.
Proof.
  intros Hk Hke Hok. destruct (boot_frames_inv ks ke areas Hk Hke Hok) as (s&Hb&Hi&Hc).
  exists s. split_and!; [done|done| |].
  - unfold remaining_frames, total_frames. rewrite (inv_free _ _ _ Hi), (inv_total _ _ _ Hi).
    change (zlen (remove_dups [])) with 0. simpl. lia.
  - intros p Hp. assert (Hin : p ∈ region_frames (MEM_REGIONS s)) by (eapply inv_elem; eauto).
    apply elem_of_region_frames in Hin as (i&a&Ha&Hr). rewrite Forall_lookup in Hc.
    specialize (Hc i a Ha). unfold region_clear, PAGE_SIZE in *. lia.
Qed.

(** The frame source of the page-table code: [alloc] returns the non-zero,
    page-aligned address of a cleared frame, [0] only when nothing is free, and
    [dealloc] of that address gives the frame back. *)
Theorem page_alloc_roundtrip s T R cpu cpu' :
  fs_inv s T R →
  ∃ s' a, page_alloc_alloc s cpu = Ret (s', a) ∧
    (a = 0 → fs_free s = [] ∧ fs_inv s' T R) ∧
    (a ≠ 0 → ∃ p, a = p * PAGE_SIZE ∧ p ∈ fs_free s ∧ fs_inv s' T ((p, 1) :: R) ∧
       phys s' !! p = Some ZERO_PAGE ∧
       ∃ s'', page_alloc_dealloc s' cpu' a = Ret s'' ∧ fs_inv s'' T R).
Proof.
  intros Hi. unfold page_alloc_alloc. destruct (alloc_frame_inv s T R cpu Hi) as (s1&o&->&Ho).
  destruct o as [[[p]]|]; [|exists s1, 0; naive_solver]. simpl in Ho.
  destruct Ho as (Hf&HT&Hi1&_).
  destruct (tracker_into_raw_inv s1 T R (mkTracker (mkPPN p)) Hi1 HT) as (s2&->&Hi2&_&_). simpl.
  set (s3 := set_phys s2 _). assert (Hi3 : fs_inv s3 T ((p, 1) :: R)).
  { apply (fs_inv_rebuild s2 _ T ((p, 1) :: R)); [done|by split; apply Hi2|done|done| |apply Hi2
      |done|apply Hi2|done]. eapply (refs_ok_same s2); [done|done|apply Hi2]. }
  assert (Hp : 0 < p < 2 ^ 31).
  { eapply (managed_positive s T R); [done|]. eapply inv_elem; eauto. }
  assert (Haddr : ppn_addr (mkPPN p) = p * PAGE_SIZE).
  { unfold ppn_addr. simpl. apply wrap_small. unfold is_usize, USIZE_MAX, PAGE_SIZE. lia. }
  exists s3, (p * PAGE_SIZE). rewrite <-Haddr. split_and!; [done| |].
  - rewrite Haddr. unfold PAGE_SIZE. lia.
  - intros _. exists p. split_and!; [done|done|done|apply lookup_insert_eq|].
    unfold page_alloc_dealloc. rewrite ppn_addr_try_from by (simpl; lia).
    destruct (dealloc_frame_inv s3 T R cpu' (mkPPN p) Hi3) as (s4&->&?&_). eauto.
Qed.

End ownership.

(** ** A concrete allocator

    A kernel image at [0x3000..0x5000) in an area of nine pages: frames 1, 2 and 5 to
    9 are managed. *)

Definition demo_boot : FrameState Buddy :=
  match boot_frames 0x3000 0x5000 [(0x1000, 0x9000)] with Ret s => s | Panic => fs_init end.

Definition demo_tracker : FrameTracker :=
  match alloc_frame demo_boot 0 with
  | Ret (_, Some t) => t
  | _ => mkTracker (mkPPN 0)
  end.

Definition demo_alloc : FrameState Buddy :=
  match alloc_frame demo_boot 0 with Ret (s, _) => s | Panic => demo_boot end.

Lemma demo_areas_ok : areas_ok [(0x1000, 0x9000)].
Proof. simpl. unfold PHYS_LIMIT. split_and!; [lia|lia|lia|constructor|done]. Qed.

Lemma demo_boot_eq : boot_frames 0x3000 0x5000 [(0x1000, 0x9000)] = Ret demo_boot.
Proof. vm_compute. reflexivity. Qed.

Lemma demo_boot_inv : fs_inv demo_boot [] [].
Proof.
  destruct (boot_frames_inv (B := Buddy) 0x3000 0x5000 [(0x1000, 0x9000)]) as (s&Hs&Hi&_);
    [lia|unfold PAGE_SIZE, PHYS_LIMIT; lia|apply demo_areas_ok|].
  rewrite demo_boot_eq in Hs. apply Ret_inj in Hs. rewrite Hs. exact Hi.
Qed.

Lemma demo_alloc_eq : alloc_frame demo_boot 0 = Ret (demo_alloc, Some demo_tracker).
Proof. vm_compute. reflexivity. Qed.

Lemma demo_alloc_inv : fs_inv demo_alloc [ppn_raw (ft_ppn demo_tracker)] [].
Proof.
  destruct (alloc_frame_inv demo_boot [] [] 0 demo_boot_inv) as (s&o&Ha&Ho).
  rewrite demo_alloc_eq in Ha. apply Ret_inj, pair_equal_spec in Ha as [Hs Ht].
  rewrite <-Hs, <-Ht in Ho. apply Ho.
Qed.


Lemma alloc_frame_fresh_zeroed_witness :
  ∃ s' o, alloc_frame demo_boot 3 = Ret (s', o) ∧
    match o with
    | Some t => let p := ppn_raw (ft_ppn t) in
        p ∈ fs_free demo_boot ∧ p ∉ [] ∧ p ∉ fs_free s' ∧ tracker_ref_count s' t = Ret 1 ∧
        phys s' !! p = Some ZERO_PAGE ∧ (∀ q, q ≠ p → phys s' !! q = phys demo_boot !! q)
    | None => fs_free demo_boot = [] ∧ fs_free s' = []
    end.
Proof. exact (alloc_frame_fresh_zeroed demo_boot [] [] 3 demo_boot_inv). Defined.

Lemma tracker_clone_drop_witness :
  ∃ s1 s2, tracker_clone demo_alloc demo_tracker = Ret (s1, demo_tracker) ∧
    tracker_drop s1 1 demo_tracker = Ret s2 ∧ fs_free s2 ≡ₚ fs_free demo_alloc.
Proof.
  destruct (tracker_clone_drop demo_alloc [ppn_raw (ft_ppn demo_tracker)] [] 1 demo_tracker
    demo_alloc_inv) as (s1&s2&H1&_&H2&_&H3&_).
  - by left.
  - vm_compute. reflexivity.
  - exact (ex_intro _ s1 (ex_intro _ s2 (conj H1 (conj H2 H3)))).
Defined.

Lemma contiguous_alloc_dealloc_witness :
  (alloc_contiguous_frames demo_boot 3).2 = None ∧ (alloc_contiguous_frames demo_boot 2).2 = Some 6 ∧
  match alloc_contiguous_frames demo_boot 2 with
  | (s', Some p) =>
      (∀ x, p ≤ x < p + 2 → x ∈ fs_free demo_boot ∧ x ∉ fs_free s') ∧
      is_managed_range demo_boot p 2 = true ∧
      remaining_frames s' = remaining_frames demo_boot - 2 ∧
      let s'' := dealloc_contiguous_frames s' p 2 in
      fs_inv s'' [] [] ∧ fs_free s'' ≡ₚ fs_free demo_boot ∧
      remaining_frames s'' = remaining_frames demo_boot
  | (s', None) => fs_inv s' [] [] ∧ (2 = 1 → fs_free demo_boot = [])
  end.
Proof.
  split; [vm_compute; reflexivity|]. split; [vm_compute; reflexivity|].
  assert (H2 : 1 ≤ 2 ≤ USIZE_MAX) by (unfold USIZE_MAX; lia).
  exact (contiguous_alloc_dealloc demo_boot [] [] 2 demo_boot_inv H2).
Defined.

Lemma boot_frames_avoid_kernel_witness :
  ∃ s, boot_frames (B := Buddy) 0x3000 0x5000 [(0x1000, 0x9000)] = Ret s ∧ fs_inv s [] [] ∧
    remaining_frames s = total_frames s ∧
    ∀ p, p ∈ fs_free s → (p + 1) * PAGE_SIZE ≤ 0x3000 ∨ 0x5000 ≤ p * PAGE_SIZE.
Proof.
  apply (boot_frames_avoid_kernel 0x3000 0x5000 [(0x1000, 0x9000)]);
    [lia|unfold PAGE_SIZE, PHYS_LIMIT; lia|apply demo_areas_ok].
Defined.

Lemma page_alloc_roundtrip_witness :
  ∃ s' a, page_alloc_alloc demo_boot 0 = Ret (s', a) ∧
    (a = 0 → fs_free demo_boot = [] ∧ fs_inv s' [] []).
Proof.
  destruct (page_alloc_roundtrip demo_boot [] [] 0 0 demo_boot_inv) as (s'&a&H1&H2&_).
  exists s', a. split; assumption.
Defined.

(** ** Touching regions

    Two regions that touch: once a freed frame merges with its buddy across the
    border, the merged block belongs to no single region, and
    [central_alloc_run] discards it. *)

Definition touching : FrameState Buddy :=
  match (s ←! add_frames_range fs_init 0x2000 0x3000; add_frames_range s 0x3000 0x4000) with
  | Ret s => finalize_frame_refcounts s
  | Panic => fs_init
  end.

(** Two frames are free; allocating one, freeing it to the central allocator and
    allocating again loses both. *)
Lemma touching_regions_lose_frames :
  fs_free touching = [2; 3] ∧
  match central_alloc_run touching 1 with
  | (s, Some (p, _)) =>
      let s := central_dealloc_pages s [p] in
      fs_free s = [2; 3] ∧
      match central_alloc_run s 64 with
      | (s', r) => r = None ∧ fs_free s' = [] ∧ remaining_frames s' = 2
      end
  | _ => False
  end.
Proof. vm_compute. done. Qed.

