(* ===== verification/VmaList.v ===== *)
(** * The sorted list of areas of an address space
    (src/os/src/mm/memory_set.rs: the searches and the restructuring of [areas])

    The memory set keeps its areas in a vector sorted by start address and searches
    it by bisection.  [vmas_wf] is the invariant of that vector; [vma_page] is what it
    says about one address.  Splitting, sorting and coalescing are shown to keep the
    invariant and the view of every address, and the searches to find what they
    promise. *)

From S2P Require Import Prelude BTree Frame Flags FileDesc ResidentSet MapArea.

#[export] Instance MapArea_inhabited : Inhabited MapArea :=
  populate (mkArea 0 0 0 rs_new Anonymous).

(** ** Searches *)

(** The loop of [area_index_containing]; the interval shrinks at every iteration. *)
Fixpoint index_containing_loop (fuel : nat) (areas : list MapArea) (addr : Z)
    (lo hi : nat) : option nat :=
  match fuel with
  | O => None
  | S fuel' =>
      if bool_decide (lo < hi)%nat then
        let mid := (lo + (hi - lo) / 2)%nat in
        let area := areas !!! mid in
        if bool_decide (addr < start_va area) then index_containing_loop fuel' areas addr lo mid
        else if bool_decide (end_va area ≤ addr) then
          index_containing_loop fuel' areas addr (mid + 1) hi
        else Some mid
      else None
  end.

Definition area_index_containing (areas : list MapArea) (addr : Z) : option nat :=
  index_containing_loop (S (length areas)) areas addr 0 (length areas).

(** The loop of [first_area_ending_after]. *)
Fixpoint ending_after_loop (fuel : nat) (areas : list MapArea) (addr : Z) (lo hi : nat) : nat :=
  match fuel with
  | O => lo
  | S fuel' =>
      if bool_decide (lo < hi)%nat then
        let mid := (lo + (hi - lo) / 2)%nat in
        if bool_decide (end_va (areas !!! mid) ≤ addr)
        then ending_after_loop fuel' areas addr (mid + 1) hi
        else ending_after_loop fuel' areas addr lo mid
      else lo
  end.

Definition first_area_ending_after (areas : list MapArea) (addr : Z) : nat :=
  ending_after_loop (S (length areas)) areas addr 0 (length areas).

(** [range_overlaps] *)
Definition range_overlaps (areas : list MapArea) (start end_ : Z) : bool :=
  if bool_decide (end_ ≤ start) then false
  else
    let index := first_area_ending_after areas start in
    bool_decide (index < length areas)%nat && bool_decide (start_va (areas !!! index) < end_).

(** The loop of [range_covered]: each iteration moves past one more area. *)
Fixpoint range_covered_loop (fuel : nat) (areas : list MapArea) (cursor end_ : Z) : bool :=
  if bool_decide (cursor < end_) then
    match fuel with
    | O => false
    | S fuel' =>
        match area_index_containing areas cursor with
        | None => false
        | Some index => range_covered_loop fuel' areas (end_va (areas !!! index)) end_
        end
    end
  else true.

Definition range_covered (areas : list MapArea) (start end_ : Z) : bool :=
  range_covered_loop (S (length areas)) areas start end_.

(** The inner loop of [find_free_area]: skip areas that end at or before [candidate]. *)
Fixpoint skip_ended (fuel : nat) (areas : list MapArea) (candidate : Z) (index : nat) : nat :=
  match fuel with
  | O => index
  | S fuel' =>
      if bool_decide (index < length areas)%nat && bool_decide (end_va (areas !!! index) ≤ candidate)
      then skip_ended fuel' areas candidate (S index) else index
  end.

(** The outer loop of [find_free_area]; the index grows at every iteration. *)
Fixpoint find_free_loop (fuel : nat) (areas : list MapArea) (candidate length_ limit : Z)
    (index : nat) : option Z :=
  match fuel with
  | O => None
  | S fuel' =>
      match checked_add candidate length_ with
      | None => None
      | Some end_ =>
          if bool_decide (limit < end_) then None
          else
            let index := skip_ended (length areas) areas candidate index in
            if bool_decide (index = length areas) || bool_decide (end_ ≤ start_va (areas !!! index))
            then Some candidate
            else
              match align_up (end_va (areas !!! index)) with
              | None => None
              | Some candidate => find_free_loop fuel' areas candidate length_ limit (S index)
              end
      end
  end.

Definition find_free_area (areas : list MapArea) (hint length_ limit : Z) : option Z :=
  if bool_decide (length_ = 0) then None
  else
    match align_up (Z.max hint PAGE_SIZE) with
    | None => None
    | Some candidate =>
        find_free_loop (S (length areas)) areas candidate length_ limit
          (first_area_ending_after areas candidate)
    end.

(** ** Restructuring *)

(** [split_area_at] *)
Definition split_area_at (areas : list MapArea) (addr : Z) : outcome (list MapArea) :=
  if bool_decide (addr mod PAGE_SIZE ≠ 0) then Ret areas
  else
    match area_index_containing areas addr with
    | None => Ret areas
    | Some index =>
        '(a, right_) ←! area_split_at (areas !!! index) addr;
        let areas := <[index := a]> areas in
        match right_ with
        | Some r => Ret (take (S index) areas ++ r :: drop (S index) areas)
        | None => Ret areas
        end
    end.

(** [sort_areas]: [sort_by] on the start address is stable. *)
Fixpoint sort_insert (a : MapArea) (l : list MapArea) : list MapArea :=
  match l with
  | [] => [a]
  | b :: l' => if bool_decide (start_va a ≤ start_va b) then a :: l else b :: sort_insert a l'
  end.

Definition sort_areas (areas : list MapArea) : list MapArea := foldr sort_insert [] areas.

(** The loop of [coalesce_areas]: [merged] is the vector built so far. *)
Fixpoint coalesce_loop (merged areas : list MapArea) : outcome (list MapArea) :=
  match areas with
  | [] => Ret merged
  | area :: rest =>
      match last merged with
      | Some l =>
          if area_can_merge_with l area then
            m ←! area_merge_with l area;
            coalesce_loop (take (length merged - 1) merged ++ [m]) rest
          else coalesce_loop (merged ++ [area]) rest
      | None => coalesce_loop (merged ++ [area]) rest
      end
  end.

Definition coalesce_areas (areas : list MapArea) : outcome (list MapArea) :=
  coalesce_loop [] (sort_areas areas).

(** The loop of [coalesce_changed_range]; each iteration merges two areas or moves on. *)
Fixpoint coalesce_changed_loop (fuel : nat) (areas : list MapArea) (index : nat) (end_ : Z)
    : outcome (list MapArea) :=
  match fuel with
  | O => Ret areas
  | S fuel' =>
      if bool_decide (index + 1 < length areas)%nat then
        if bool_decide (end_ ≤ start_va (areas !!! index)) then Ret areas
        else if area_can_merge_with (areas !!! index) (areas !!! S index) then
          m ←! area_merge_with (areas !!! index) (areas !!! S index);
          coalesce_changed_loop fuel' (<[index := m]> (delete (S index) areas)) index end_
        else coalesce_changed_loop fuel' areas (S index) end_
      else Ret areas
  end.

Definition coalesce_changed_range (areas : list MapArea) (start end_ : Z)
    : outcome (list MapArea) :=
  if bool_decide (length areas < 2)%nat then Ret areas
  else coalesce_changed_loop (length areas) areas (first_area_ending_after areas start - 1) end_.

(** ** Invariant and view *)

(** Disjoint areas, in either order. *)
Definition area_disjoint (a b : MapArea) : Prop := end_va a ≤ start_va b ∨ end_va b ≤ start_va a.

Definition area_ok (a : MapArea) : Prop := area_wf a ∧ backing_ok (area_backing a).

(** [a] lies below [b]. *)
Definition area_below (a b : MapArea) : Prop := end_va a ≤ start_va b.

(** The vector is sorted and its areas are disjoint. *)
Record vmas_wf (areas : list MapArea) : Prop := {
  vmas_ok : Forall area_ok areas;
  vmas_sorted : StronglySorted area_below areas
}.

(** What the areas say of the page at [va]. *)
Fixpoint vma_page (areas : list MapArea) (va : Z) : option page_view :=
  match areas with
  | [] => None
  | a :: rest => match area_page a va with Some v => Some v | None => vma_page rest va end
  end.

(** ** The view *)

Lemma area_page_inside a va : is_Some (area_page a va) ↔ start_va a ≤ va < end_va a.
Proof.
  destruct (decide (start_va a ≤ va < end_va a)) as [H|H].
  - rewrite area_page_Some by done. split; [done|by eexists].
  - rewrite area_page_None by done. split; [by intros [??]|done].
Qed.

Lemma vma_page_app l1 l2 va :
  vma_page (l1 ++ l2) va = match vma_page l1 va with Some v => Some v | None => vma_page l2 va end.
Proof. induction l1 as [|a l1 IH]; simpl; [done|]. by destruct (area_page a va). Qed.

Lemma vma_page_None l va :
  vma_page l va = None ↔ Forall (λ a, ¬ (start_va a ≤ va < end_va a)) l.
Proof.
  induction l as [|a l IH]; simpl; [done|]. rewrite Forall_cons, <-IH.
  destruct (area_page a va) eqn:E.
  - split; [done|]. intros [H _]. rewrite area_page_None in E by done. done.
  - split; [|by intros [_ ?]]. intros H. split; [|done].
    intros Hin. rewrite area_page_Some in E by done. done.
Qed.

Lemma vma_page_at l i a va :
  vmas_wf l → l !! i = Some a → start_va a ≤ va < end_va a → vma_page l va = area_page a va.
Proof.
  intros [_ Hs] Hi Hva. rewrite <-(take_drop_middle l i a Hi) in Hs |- *.
  apply StronglySorted_app in Hs as (Hx&_&_). rewrite vma_page_app.
  assert (vma_page (take i l) va = None) as ->.
  { apply vma_page_None, Forall_forall. intros b Hb. specialize (Hx b a Hb ltac:(by left)).
    unfold area_below in Hx. lia. }
  simpl. by rewrite area_page_Some.
Qed.

(** Views of an address in a cut list. *)
Lemma vma_page_middle l1 a l2 va :
  vmas_wf (l1 ++ a :: l2) →
  vma_page (l1 ++ a :: l2) va =
    if bool_decide (start_va a ≤ va < end_va a) then area_page a va
    else match vma_page l1 va with Some v => Some v | None => vma_page l2 va end.
Proof.
  intros Hw. case_bool_decide as H.
  - eapply vma_page_at; [done| |done]. by rewrite lookup_app_r, Nat.sub_diag by done.
  - rewrite vma_page_app. simpl. by rewrite (area_page_None a).
Qed.

(** ** Shape of well-formed lists *)

Lemma vmas_wf_nil : vmas_wf [].
Proof. split; constructor. Qed.

Lemma vmas_wf_lookup l i j a b :
  vmas_wf l → l !! i = Some a → l !! j = Some b → (i < j)%nat → end_va a ≤ start_va b.
Proof.
  intros [_ Hs] Hi Hj Hij. rewrite <-(take_drop_middle l i a Hi) in Hs.
  apply StronglySorted_app in Hs as (_&_&Hs). apply StronglySorted_inv in Hs as [_ Hall].
  rewrite Forall_forall in Hall. apply (Hall b). apply list_elem_of_lookup.
  exists (j - S i)%nat. rewrite lookup_drop. by replace (S i + (j - S i))%nat with j by lia.
Qed.

Lemma vmas_area_ok l i a : vmas_wf l → l !! i = Some a → area_ok a.
Proof. intros [Ho _] Hi. by eapply Forall_lookup_1 in Ho. Qed.

Lemma area_ok_lt a : area_ok a → 0 ≤ start_va a < end_va a.
Proof. intros [[] _]. lia. Qed.

(** Replacing an area by areas inside its range. *)
Lemma vmas_wf_replace l1 a l2 new :
  vmas_wf (l1 ++ a :: l2) → vmas_wf new →
  Forall (λ b, start_va a ≤ start_va b ∧ end_va b ≤ end_va a) new → vmas_wf (l1 ++ new ++ l2).
Proof.
  intros [Ho Hs] [Hon Hsn] Hin. apply Forall_app in Ho as [Ho1 Ho2]. apply Forall_cons in Ho2 as [_ Ho2].
  apply StronglySorted_app in Hs as (Hx&Hs1&Hs2). apply StronglySorted_inv in Hs2 as [Hs2 Ha].
  rewrite Forall_forall in Hin, Ha. split.
  - rewrite !Forall_app. done.
  - apply StronglySorted_app. split_and!; [|done|].
    + intros x y Hx' [Hy|Hy]%elem_of_app.
      * specialize (Hin y Hy). specialize (Hx x a Hx' ltac:(by left)). unfold area_below in *. lia.
      * apply Hx; [done|by right].
    + apply StronglySorted_app. split_and!; [|done|done].
      intros x y Hx' Hy. specialize (Hin x Hx'). specialize (Ha y Hy). unfold area_below in *. lia.
Qed.

Lemma lookup_total_middle (l : list MapArea) i :
  (i < length l)%nat → ∃ l1 l2, l = l1 ++ (l !!! i) :: l2 ∧ length l1 = i.
Proof.
  intros Hi. exists (take i l), (drop (S i) l). rewrite length_take, Nat.min_l by lia.
  split; [|done]. symmetry. apply take_drop_middle. by apply list_lookup_lookup_total_lt.
Qed.

(** ** The searches are right *)

Lemma index_containing_loop_ok fuel l addr lo hi :
  vmas_wf l → (lo ≤ hi ≤ length l)%nat → (hi - lo < fuel)%nat →
  (∀ j b, (j < lo)%nat → l !! j = Some b → end_va b ≤ addr) →
  (∀ j b, (hi ≤ j)%nat → l !! j = Some b → addr < start_va b) →
  match index_containing_loop fuel l addr lo hi with
  | Some i => (i < length l)%nat ∧ start_va (l !!! i) ≤ addr < end_va (l !!! i)
  | None => vma_page l addr = None
  end.
Proof.
  intros Hw. revert lo hi. induction fuel as [|fuel IH]; intros lo hi Hb Hf Hlo Hhi; [lia|].
  cbn [index_containing_loop]. case_bool_decide as Hlt.
  - set (mid := (lo + (hi - lo) / 2)%nat).
    assert (Hmid : (lo ≤ mid < hi)%nat).
    { subst mid. pose proof (Nat.div_lt (hi - lo) 2). lia. }
    clearbody mid.
    assert (Hm : l !! mid = Some (l !!! mid)) by (apply list_lookup_lookup_total_lt; lia).
    case_bool_decide as H1; [|case_bool_decide as H2].
    + apply IH; [lia|lia|done|]. intros j b Hj Hjb. destruct (decide (j = mid)) as [->|].
      * by simplify_eq.
      * pose proof (vmas_wf_lookup l mid j _ b Hw Hm Hjb ltac:(lia)).
        pose proof (area_ok_lt _ (vmas_area_ok l mid _ Hw Hm)). lia.
    + apply IH; [lia|lia| |done]. intros j b Hj Hjb. destruct (decide (j = mid)) as [->|].
      * by simplify_eq.
      * pose proof (vmas_wf_lookup l j mid b _ Hw Hjb Hm ltac:(lia)).
        pose proof (area_ok_lt _ (vmas_area_ok l mid _ Hw Hm)). lia.
    + split; [lia|lia].
  - apply vma_page_None, Forall_lookup. intros j b Hj.
    destruct (decide (j < lo)%nat); [specialize (Hlo j b ltac:(lia) Hj); lia|].
    specialize (Hhi j b ltac:(lia) Hj). lia.
Qed.

Lemma area_index_containing_ok l addr :
  vmas_wf l →
  match area_index_containing l addr with
  | Some i => (i < length l)%nat ∧ start_va (l !!! i) ≤ addr < end_va (l !!! i)
  | None => vma_page l addr = None
  end.
Proof.
  intros Hw. apply index_containing_loop_ok; [done|lia|lia|lia|].
  intros j b Hj Hb. apply lookup_lt_Some in Hb. lia.
Qed.

Lemma ending_after_loop_ok fuel l addr lo hi :
  vmas_wf l → (lo ≤ hi ≤ length l)%nat → (hi - lo < fuel)%nat →
  (∀ j b, (j < lo)%nat → l !! j = Some b → end_va b ≤ addr) →
  (∀ j b, (hi ≤ j)%nat → l !! j = Some b → addr < end_va b) →
  let i := ending_after_loop fuel l addr lo hi in
  (i ≤ length l)%nat ∧ (∀ j b, (j < i)%nat → l !! j = Some b → end_va b ≤ addr) ∧
  (∀ j b, (i ≤ j)%nat → l !! j = Some b → addr < end_va b).
Proof.
  intros Hw. revert lo hi. induction fuel as [|fuel IH]; intros lo hi Hb Hf Hlo Hhi; [lia|].
  cbn [ending_after_loop]. case_bool_decide as Hlt.
  - set (mid := (lo + (hi - lo) / 2)%nat).
    assert (Hmid : (lo ≤ mid < hi)%nat).
    { subst mid. pose proof (Nat.div_lt (hi - lo) 2). lia. }
    clearbody mid.
    assert (Hm : l !! mid = Some (l !!! mid)) by (apply list_lookup_lookup_total_lt; lia).
    case_bool_decide as H1; apply IH; try lia; try done; intros j b Hj Hjb;
      (destruct (decide (j = mid)) as [->|]; [simplify_eq; lia|]).
    + pose proof (vmas_wf_lookup l j mid b _ Hw Hjb Hm ltac:(lia)).
      pose proof (area_ok_lt _ (vmas_area_ok l mid _ Hw Hm)). lia.
    + pose proof (vmas_wf_lookup l mid j _ b Hw Hm Hjb ltac:(lia)).
      pose proof (area_ok_lt _ (vmas_area_ok l j b Hw Hjb)). lia.
  - split_and!; [lia|done|]. intros j b Hj. apply Hhi. lia.
Qed.

Lemma first_area_ending_after_ok l addr :
  vmas_wf l →
  let i := first_area_ending_after l addr in
  (i ≤ length l)%nat ∧ (∀ j b, (j < i)%nat → l !! j = Some b → end_va b ≤ addr) ∧
  (∀ j b, (i ≤ j)%nat → l !! j = Some b → addr < end_va b).
Proof.
  intros Hw. apply ending_after_loop_ok; [done|lia|lia|lia|].
  intros j b Hj Hb. apply lookup_lt_Some in Hb. lia.
Qed.

Lemma vma_page_is_Some l va :
  is_Some (vma_page l va) ↔ ∃ i a, l !! i = Some a ∧ start_va a ≤ va < end_va a.
Proof.
  rewrite <-not_eq_None_Some, vma_page_None, Forall_lookup. split.
  - intros H. destruct (decide (Exists (λ a, start_va a ≤ va < end_va a) l)) as [He|He].
    + apply Exists_exists in He as (a&[i Hi]%list_elem_of_lookup&?). eauto.
    + exfalso. apply H. intros i a Hi Hin. apply He. apply Exists_exists. exists a.
      split; [by eapply list_elem_of_lookup_2|done].
  - intros (i&a&Hi&Ha) H. by eapply H.
Qed.

Lemma range_overlaps_ok l s e :
  vmas_wf l → range_overlaps l s e = true ↔ ∃ va, s ≤ va < e ∧ is_Some (vma_page l va).
Proof.
  intros Hw. unfold range_overlaps. case_bool_decide as Hse; [split; [done|intros (?&?&_); lia]|].
  destruct (first_area_ending_after_ok l s Hw) as (Hi&Hlo&Hhi).
  set (i := first_area_ending_after l s) in *. rewrite andb_true_iff, !bool_decide_eq_true. split.
  - intros [Hlt Hst]. assert (Hl : l !! i = Some (l !!! i)) by (by apply list_lookup_lookup_total_lt).
    specialize (Hhi i _ ltac:(lia) Hl). pose proof (area_ok_lt _ (vmas_area_ok l i _ Hw Hl)).
    exists (Z.max s (start_va (l !!! i))). split; [lia|]. apply vma_page_is_Some.
    exists i, (l !!! i). split; [done|lia].
  - intros (va&Hva&Hs). apply vma_page_is_Some in Hs as (j&a&Hj&Ha).
    assert (Hij : (i ≤ j)%nat).
    { destruct (decide (i ≤ j)%nat); [done|]. specialize (Hlo j a ltac:(lia) Hj). lia. }
    pose proof (lookup_lt_Some _ _ _ Hj). split; [lia|].
    assert (Hl : l !! i = Some (l !!! i)) by (apply list_lookup_lookup_total_lt; lia).
    destruct (decide (i = j)) as [->|]; [rewrite Hl in Hj; simplify_eq; lia|].
    pose proof (vmas_wf_lookup l i j _ a Hw Hl Hj ltac:(lia)).
    pose proof (area_ok_lt _ (vmas_area_ok l i _ Hw Hl)). lia.
Qed.

Lemma range_covered_loop_ok fuel l k cursor e :
  vmas_wf l → (length l - k < fuel)%nat → (k ≤ length l)%nat →
  (∀ j b, (j < k)%nat → l !! j = Some b → end_va b ≤ cursor) →
  range_covered_loop fuel l cursor e = true ↔ ∀ va, cursor ≤ va < e → is_Some (vma_page l va).
Proof.
  intros Hw. revert k cursor. induction fuel as [|fuel IH]; intros k cursor Hf Hk Hlo; [lia|].
  simpl. case_bool_decide as Hce; [|split; [intros _ va; lia|done]].
  pose proof (area_index_containing_ok l cursor Hw) as Hi.
  destruct (area_index_containing l cursor) as [i|].
  - destruct Hi as [Hlt Hin].
    assert (Hl : l !! i = Some (l !!! i)) by (by apply list_lookup_lookup_total_lt).
    assert (Hki : (k ≤ i)%nat).
    { destruct (decide (k ≤ i)%nat); [done|]. specialize (Hlo i _ ltac:(lia) Hl). lia. }
    rewrite (IH (S i)); [|lia|lia|].
    + split; intros H va Hva; [|apply H; lia].
      destruct (decide (va < end_va (l !!! i))); [|apply H; lia].
      apply vma_page_is_Some. exists i, (l !!! i). split; [done|lia].
    + intros j b Hj Hjb. destruct (decide (j = i)) as [->|]; [by simplify_eq|].
      pose proof (vmas_wf_lookup l j i b _ Hw Hjb Hl ltac:(lia)).
      pose proof (area_ok_lt _ (vmas_area_ok l i _ Hw Hl)). lia.
  - split; [done|]. intros H. destruct (H cursor ltac:(lia)) as [v Hv]. by rewrite Hi in Hv.
Qed.

Lemma range_covered_ok l s e :
  vmas_wf l → range_covered l s e = true ↔ ∀ va, s ≤ va < e → is_Some (vma_page l va).
Proof. intros Hw. apply (range_covered_loop_ok _ l 0); [done|lia|lia|lia]. Qed.

Lemma skip_ended_ok fuel l c k :
  (k ≤ length l)%nat → (length l - k ≤ fuel)%nat →
  (∀ j b, (j < k)%nat → l !! j = Some b → end_va b ≤ c) →
  let i := skip_ended fuel l c k in
  (k ≤ i ≤ length l)%nat ∧ (∀ j b, (j < i)%nat → l !! j = Some b → end_va b ≤ c) ∧
  ((i < length l)%nat → c < end_va (l !!! i)).
Proof.
  revert k. induction fuel as [|fuel IH]; intros k Hk Hf Hlo; simpl; [split_and!; [lia|lia|done|lia]|].
  case_bool_decide as H1; simpl; [case_bool_decide as H2|].
  - destruct (IH (S k)) as (?&?&?); [lia|lia| |].
    + intros j b Hj Hjb. destruct (decide (j = k)) as [->|]; [|apply (Hlo j b); [lia|done]].
      by rewrite (list_lookup_total_correct _ _ _ Hjb) in H2.
    + split_and!; [lia|lia|done|done].
  - split_and!; [lia|lia|done|lia].
  - split_and!; [lia|lia|done|lia].
Qed.

(** Some address of [c .. c + len) is mapped. *)
Definition blocked (l : list MapArea) (c len : Z) : Prop :=
  ∃ va, c ≤ va < c + len ∧ is_Some (vma_page l va).

Lemma find_free_loop_ok fuel l c len limit k lo :
  vmas_wf l → 0 < len → limit ≤ USIZE_MAX → page_aligned c → lo ≤ c →
  (k ≤ length l)%nat → (length l - k < fuel)%nat →
  (∀ j b, (j < k)%nat → l !! j = Some b → end_va b ≤ c) →
  (∀ c', lo ≤ c' < c → blocked l c' len) →
  match find_free_loop fuel l c len limit k with
  | Some r => page_aligned r ∧ lo ≤ r ∧ r + len ≤ limit ∧ ¬ blocked l r len ∧
      (∀ c', lo ≤ c' < r → blocked l c' len)
  | None => ∀ c', lo ≤ c' → c' + len ≤ limit → blocked l c' len
  end.
Proof.
  intros Hw Hlen Hlim. revert c k. induction fuel as [|fuel IH]; intros c k Hc Hlo Hk Hf Hend Hblk; [lia|].
  cbn [find_free_loop]. destruct (checked_add c len) as [e|] eqn:He.
  2:{ intros c' H1 H2. apply Hblk. unfold checked_add in He. case_bool_decide; [done|]. lia. }
  apply checked_add_Some in He as [-> He].
  case_bool_decide as Hle; [intros c' H1 H2; apply Hblk; lia|].
  destruct (skip_ended_ok (length l) l c k) as (Hi&Hi1&Hi2); [lia|lia|done|].
  set (i := skip_ended _ _ _ _) in *.
  assert (Hfree : i = length l ∨ c + len ≤ start_va (l !!! i) → ¬ blocked l c len).
  { intros Hor (va&Hva&Hs). apply vma_page_is_Some in Hs as (j&a&Hj&Ha).
    assert (Hij : (i ≤ j)%nat).
    { destruct (decide (i ≤ j)%nat); [done|]. specialize (Hi1 j a ltac:(lia) Hj). lia. }
    pose proof (lookup_lt_Some _ _ _ Hj). destruct Hor as [|Hor]; [lia|].
    assert (Hl : l !! i = Some (l !!! i)) by (apply list_lookup_lookup_total_lt; lia).
    destruct (decide (i = j)) as [->|]; [rewrite Hl in Hj; simplify_eq; lia|].
    pose proof (vmas_wf_lookup l i j _ a Hw Hl Hj ltac:(lia)).
    pose proof (area_ok_lt _ (vmas_area_ok l i _ Hw Hl)). lia. }
  case_bool_decide as H1; simpl; [split_and!; [done|done|lia|auto|done]|].
  case_bool_decide as H2; simpl; [split_and!; [done|done|lia|auto|done]|].
  assert (Hl : l !! i = Some (l !!! i)) by (apply list_lookup_lookup_total_lt; lia).
  specialize (Hi2 ltac:(lia)). destruct (vmas_area_ok l i _ Hw Hl) as [[] _].
  set (a := l !!! i) in *.
  rewrite align_up_id; [|lia|done|unfold page_aligned, PAGE_SIZE, USIZE_MAX in *; lia].
  apply IH; [done|lia|lia|lia| |].
  - intros j b Hj Hjb. destruct (decide (j = i)) as [->|]; [rewrite Hl in Hjb; by simplify_eq|].
    pose proof (vmas_wf_lookup l j i b _ Hw Hjb Hl ltac:(lia)). fold a in H. lia.
  - intros c' Hc'. destruct (decide (c' < c)); [apply Hblk; lia|].
    exists (Z.max c' (start_va a)). split; [lia|]. apply vma_page_is_Some. exists i, a. split; [done|lia].
Qed.

Lemma find_free_area_ok l hint len limit :
  vmas_wf l → 0 < len → 0 ≤ hint → limit ≤ USIZE_MAX →
  match find_free_area l hint len limit with
  | Some r => page_aligned r ∧ Z.max hint PAGE_SIZE ≤ r ∧ r + len ≤ limit ∧ ¬ blocked l r len ∧
      (∀ c, page_aligned c → Z.max hint PAGE_SIZE ≤ c < r → blocked l c len)
  | None => ∀ c, page_aligned c → Z.max hint PAGE_SIZE ≤ c → c + len ≤ limit → blocked l c len
  end.
Proof.
  intros Hw Hlen Hh Hlim. unfold find_free_area. rewrite bool_decide_eq_false_2 by lia.
  destruct (align_up _) as [c|] eqn:Ha.
  2:{ intros c Hc H1 H2. exfalso. unfold align_up, checked_add in Ha. case_bool_decide; [done|].
      unfold page_aligned, PAGE_SIZE, USIZE_MAX in *. lia. }
  apply align_up_Some in Ha as (Hca&Hc1&Hc2).
  destruct (first_area_ending_after_ok l c Hw) as (Hi&Hlo&_).
  pose proof (find_free_loop_ok (S (length l)) l c len limit (first_area_ending_after l c) c
    Hw Hlen Hlim Hca ltac:(lia) Hi ltac:(lia) Hlo ltac:(lia)) as H.
  assert (Hge : ∀ x, page_aligned x → Z.max hint PAGE_SIZE ≤ x → c ≤ x).
  { unfold page_aligned, PAGE_SIZE in *. lia. }
  destruct (find_free_loop _ _ _ _ _ _) as [r|].
  - destruct H as (?&?&?&?&Hb). split_and!; [done|lia|done|done|]. intros x Hx Hxr. apply Hb.
    pose proof (Hge x Hx). lia.
  - intros x Hx H1 H2. apply H; [by apply Hge|done].
Qed.

(** ** Splitting *)

Lemma vma_page_replace l1 a l2 new va :
  vma_page new va = area_page a va → vma_page (l1 ++ new ++ l2) va = vma_page (l1 ++ a :: l2) va.
Proof. intros H. rewrite !vma_page_app. simpl. rewrite H. done. Qed.

(** No area straddles [x]. *)
Definition clear_of (x : Z) (a : MapArea) : Prop := end_va a ≤ x ∨ x ≤ start_va a.

Lemma split_area_at_ok l addr :
  vmas_wf l →
  ∃ l', split_area_at l addr = Ret l' ∧ vmas_wf l' ∧ (∀ va, vma_page l' va = vma_page l va) ∧
    (page_aligned addr → Forall (clear_of addr) l') ∧
    (∀ x, Forall (clear_of x) l → Forall (clear_of x) l').
Proof.
  intros Hw. unfold split_area_at. case_bool_decide as Hal; [by exists l|].
  pose proof (area_index_containing_ok l addr Hw) as Hi.
  destruct (area_index_containing l addr) as [i|].
  2:{ exists l. split_and!; [done|done|done| |done]. intros _. apply vma_page_None in Hi.
      eapply Forall_impl; [exact Hi|]. unfold clear_of. simpl. lia. }
  destruct Hi as [Hlt Hin]. destruct (lookup_total_middle l i Hlt) as (l1&l2&Hl&Hl1).
  set (a := l !!! i) in *. clearbody a. subst i. rewrite Hl in Hw.
  assert (Hsep : ∀ b, b ∈ l1 ++ l2 → end_va b ≤ start_va a ∨ end_va a ≤ start_va b).
  { intros b Hb. destruct Hw as [_ Hs]. apply StronglySorted_app in Hs as (Hx&_&Hs).
    apply StronglySorted_inv in Hs as [_ Ha]. rewrite Forall_forall in Ha.
    apply elem_of_app in Hb as [Hb|Hb]; [left; apply (Hx b a); [done|by left]|right; by apply Ha]. }
  assert (Hoka : area_ok a).
  { apply (vmas_area_ok (l1 ++ a :: l2) (length l1)); [done|]. by rewrite lookup_app_r, Nat.sub_diag. }
  destruct (decide (start_va a = addr)) as [Hst|Hst].
  - unfold area_split_at. rewrite bool_decide_eq_true_2 by lia. simpl.
    rewrite Hl, insert_app_r_alt, Nat.sub_diag by lia. simpl. eexists. split; [reflexivity|].
    split_and!; [done|done| |done]. intros _. apply Forall_forall. intros b Hb. unfold clear_of.
    rewrite elem_of_app, elem_of_cons in Hb. destruct Hb as [Hb|[->|Hb]]; [|lia|];
      (destruct (Hsep b); [rewrite elem_of_app; auto|lia|lia]).
  - destruct Hoka as [Hwa Hbk].
    destruct (area_split_at_ok a addr Hwa Hbk) as (lf&r&->&Hwl&Hwr&E1&E2&E3&E4&_&_&Hb1&Hb2&Hview); [lia|done|].
    rewrite Hl, insert_app_r_alt, Nat.sub_diag by lia. simpl.
    rewrite (cons_middle lf l1 l2), app_assoc, take_app_length', drop_app_length'
      by (rewrite length_app; simpl; lia).
    rewrite <-app_assoc. change ([lf] ++ r :: l2) with ([lf; r] ++ l2).
    eexists. split; [reflexivity|]. split_and!.
    + eapply vmas_wf_replace; [exact Hw| |].
      * split.
        { constructor; [|constructor; [|constructor]]; (split; [done|]).
          - by rewrite Hb1.
          - rewrite Hb2. apply split_right_ok; [lia|done]. }
        constructor; [constructor; constructor|]. constructor; [unfold area_below; lia|constructor].
      * constructor; [|constructor; [|constructor]]; simpl; destruct Hwl, Hwr; lia.
    + intros va. apply vma_page_replace. simpl. rewrite (Hview va). case_decide as Hva.
      * destruct (area_page lf va) eqn:E; [done|]. rewrite area_page_None; [done|lia].
      * rewrite (area_page_None lf) by lia. by destruct (area_page r va).
    + intros _. apply Forall_forall. intros b Hb. rewrite !elem_of_app, !elem_of_cons in Hb.
      unfold clear_of. destruct Hb as [Hb|[[->|[->|?%not_elem_of_nil]]|Hb]]; [|lia|lia|done|];
        (destruct (Hsep b); [rewrite elem_of_app; auto|lia|lia]).
    + intros x. rewrite !Forall_app, !Forall_cons. unfold clear_of. rewrite E1, E2, E3, E4.
      intros (?&?&?). split_and!; [done|lia|lia|done|done].
Qed.

(** Splitting at both ends of a range. *)
Lemma split_range_ok l s e :
  vmas_wf l → page_aligned s → page_aligned e →
  ∃ l1 l2, split_area_at l s = Ret l1 ∧ split_area_at l1 e = Ret l2 ∧ vmas_wf l2 ∧
    (∀ va, vma_page l2 va = vma_page l va) ∧ Forall (clear_of s) l2 ∧ Forall (clear_of e) l2.
Proof.
  intros Hw Hs He. destruct (split_area_at_ok l s Hw) as (l1&E1&Hw1&Hv1&Hc1&_).
  destruct (split_area_at_ok l1 e Hw1) as (l2&E2&Hw2&Hv2&Hc2&Hk). exists l1, l2.
  split_and!; [done|done|done|intros va; by rewrite Hv2|by apply Hk, Hc1|by apply Hc2].
Qed.

(** ** Sorting *)

Lemma area_disjoint_sym : Symmetric area_disjoint.
Proof. intros a b [|]; [by right|by left]. Qed.

Lemma StronglySorted_sym_perm {A} (R : A → A → Prop) l l' :
  Symmetric R → l ≡ₚ l' → StronglySorted R l → StronglySorted R l'.
Proof.
  intros HR. induction 1 as [|x l l' Hp IH|x y l|l1 l2 l3 _ IH1 _ IH2]; [done| | |auto].
  - intros [Hs Hf]%StronglySorted_inv. constructor; [auto|]. by rewrite <-Hp.
  - intros [[Hs Hx]%StronglySorted_inv Hy]%StronglySorted_inv. apply Forall_cons in Hy as [Hyx Hy].
    constructor; [by constructor|]. constructor; [by apply HR|done].
Qed.

Lemma vma_page_perm l l' va :
  l ≡ₚ l' → StronglySorted area_disjoint l → vma_page l va = vma_page l' va.
Proof.
  induction 1 as [|x l l' Hp IH|x y l|l1 l2 l3 Hp1 IH1 Hp2 IH2]; simpl.
  - done.
  - intros [Hs _]%StronglySorted_inv. by rewrite IH.
  - intros [_ Hy]%StronglySorted_inv. apply Forall_cons in Hy as [Hyx _].
    destruct (area_page y va) eqn:Ey, (area_page x va) eqn:Ex; try done. exfalso.
    assert (Hy1 : is_Some (area_page y va)) by (by eexists).
    assert (Hx1 : is_Some (area_page x va)) by (by eexists).
    apply area_page_inside in Hy1, Hx1. destruct Hyx; lia.
  - intros Hs. rewrite IH1 by done. apply IH2. eapply StronglySorted_sym_perm; eauto using area_disjoint_sym.
Qed.

Lemma sort_insert_perm a l : sort_insert a l ≡ₚ a :: l.
Proof.
  induction l as [|b l IH]; simpl; [done|]. case_bool_decide; [done|].
  rewrite IH. by apply perm_swap.
Qed.

Lemma sort_areas_perm l : sort_areas l ≡ₚ l.
Proof. induction l as [|a l IH]; simpl; [done|]. by rewrite sort_insert_perm, IH. Qed.

Lemma sort_areas_sorted l : StronglySorted (λ a b, start_va a ≤ start_va b) (sort_areas l).
Proof.
  assert (Hins : ∀ a k, StronglySorted (λ a b, start_va a ≤ start_va b) k →
    StronglySorted (λ a b, start_va a ≤ start_va b) (sort_insert a k)).
  { intros a k. induction 1 as [|b k Hs IH Hf]; simpl; [repeat constructor|].
    case_bool_decide as Hab.
    - constructor; [by constructor|]. constructor; [done|]. eapply Forall_impl; [exact Hf|]. simpl. lia.
    - constructor; [done|]. rewrite sort_insert_perm. constructor; [lia|done]. }
  induction l as [|a l IH]; simpl; [constructor|]. auto.
Qed.

Lemma sort_areas_ok l :
  Forall area_ok l → StronglySorted area_disjoint l →
  vmas_wf (sort_areas l) ∧ ∀ va, vma_page (sort_areas l) va = vma_page l va.
Proof.
  intros Hok Hd. split; [|intros va; symmetry; apply vma_page_perm; [symmetry; apply sort_areas_perm|done]].
  assert (Hok' : Forall area_ok (sort_areas l)) by (by rewrite sort_areas_perm). split; [done|].
  assert (Hd' : StronglySorted area_disjoint (sort_areas l)).
  { eapply StronglySorted_sym_perm; [apply area_disjoint_sym|symmetry; apply sort_areas_perm|done]. }
  pose proof (sort_areas_sorted l) as Hs. induction (sort_areas l) as [|a k IH]; [constructor|].
  apply StronglySorted_inv in Hs as [Hs Hsa]. apply StronglySorted_inv in Hd' as [Hd' Hda].
  apply Forall_cons in Hok' as [Ha Hk]. constructor; [auto|].
  rewrite Forall_forall in Hk, Hsa, Hda |- *. intros b Hb.
  specialize (Hsa b Hb). specialize (Hda b Hb). pose proof (area_ok_lt b (Hk b Hb)).
  pose proof (area_ok_lt a Ha). unfold area_below. destruct Hda; lia.
Qed.

Lemma vmas_wf_disjoint l : vmas_wf l → StronglySorted area_disjoint l.
Proof.
  intros [_ Hs]. induction Hs as [|a l Hs IH Hf]; constructor; [done|].
  eapply Forall_impl; [exact Hf|]. intros b Hb. by left.
Qed.

(** ** Coalescing *)

(** No two neighbours could be merged. *)
Definition coalesced (l : list MapArea) : Prop :=
  ∀ i a b, l !! i = Some a → l !! S i = Some b → area_can_merge_with a b = false.

Lemma coalesced_snoc l a :
  coalesced l → (∀ b, last l = Some b → area_can_merge_with b a = false) → coalesced (l ++ [a]).
Proof.
  intros Hc Hl i x y Hx Hy. apply lookup_snoc_Some in Hy as [[Hi Hy]|[Hi <-]].
  - apply lookup_snoc_Some in Hx as [[_ Hx]|[Hi' _]]; [by eapply Hc|lia].
  - apply lookup_snoc_Some in Hx as [[_ Hx]|[Hi' _]]; [|lia]. apply Hl. rewrite last_lookup.
    by replace (Nat.pred (length l)) with i by lia.
Qed.

(** Replacing two neighbours by their merge. *)
Lemma merge_neighbours l1 a b l2 m :
  vmas_wf (l1 ++ a :: b :: l2) → area_can_merge_with a b = true → area_merge_with a b = Ret m →
  vmas_wf (l1 ++ m :: l2) ∧ start_va m = start_va a ∧ area_flags m = area_flags a ∧
  area_backing m = area_backing a ∧
  (∀ va, vma_page (l1 ++ m :: l2) va ≡ vma_page (l1 ++ a :: b :: l2) va).
Proof.
  intros Hw Hm Hmm. pose proof Hw as [Hok Hs]. apply Forall_app in Hok as [Hok1 Hok2].
  apply Forall_cons in Hok2 as [[Hwa Hba] Hok2]. apply Forall_cons in Hok2 as [[Hwb Hbb] Hok2].
  destruct (area_merge_with_ok a b Hwa Hwb Hba Hm) as (m'&Hm'&Hwm&E1&E2&E3&E4&Hv).
  rewrite Hmm in Hm'. apply Ret_inj in Hm' as <-.
  apply StronglySorted_app in Hs as (Hx&Hs1&Hs2). apply StronglySorted_inv in Hs2 as [Hs2 Ha].
  apply StronglySorted_inv in Hs2 as [Hs2 Hb]. apply Forall_cons in Ha as [Hab Ha].
  split_and!; [|done|done|done|].
  - split.
    + apply Forall_app. split; [done|]. constructor; [split; [done|by rewrite E4]|done].
    + apply StronglySorted_app. split_and!; [|done|].
      * intros x y Hx' [->|Hy]%elem_of_cons.
        -- specialize (Hx x a Hx' ltac:(by left)). unfold area_below in *. by rewrite E1.
        -- apply Hx; [done|]. by right; right.
      * constructor; [done|]. eapply Forall_impl; [exact Hb|]. unfold area_below. intros y. by rewrite E2.
  - intros va. rewrite !vma_page_app. destruct (vma_page l1 va); [reflexivity|]. simpl.
    pose proof (Hv va) as Hva. unfold area_below in Hab.
    assert (Hnext : end_va a = start_va b).
    { unfold area_can_merge_with in Hm. apply andb_true_iff in Hm as [Hm _].
      apply andb_true_iff in Hm as [Hm _]. by apply bool_decide_eq_true_1 in Hm. }
    case_decide as Hlt.
    + destruct (area_page a va) as [v|] eqn:Ea.
      * inversion Hva; subst. by constructor.
      * inversion Hva; subst. rewrite (area_page_None b); [reflexivity|]. lia.
    + rewrite (area_page_None a) by lia. destruct (area_page b va) as [v|] eqn:Eb;
        inversion Hva; subst; [by constructor|reflexivity].
Qed.

Lemma can_merge_start a m b :
  start_va m = start_va b → area_flags m = area_flags b → area_backing m = area_backing b →
  area_can_merge_with a m = area_can_merge_with a b.
Proof. unfold area_can_merge_with. by intros -> -> ->. Qed.

Lemma coalesce_loop_ok merged areas :
  vmas_wf (merged ++ areas) → coalesced merged →
  ∃ r, coalesce_loop merged areas = Ret r ∧ vmas_wf r ∧ coalesced r ∧
       ∀ va, vma_page r va ≡ vma_page (merged ++ areas) va.
Proof.
  revert merged. induction areas as [|area rest IH]; intros merged Hw Hc; cbn [coalesce_loop].
  { rewrite app_nil_r in *. by exists merged. }
  assert (Hpush : (∀ b, last merged = Some b → area_can_merge_with b area = false) →
    ∃ r, coalesce_loop (merged ++ [area]) rest = Ret r ∧ vmas_wf r ∧ coalesced r ∧
         ∀ va, vma_page r va ≡ vma_page (merged ++ area :: rest) va).
  { intros Hl. rewrite (cons_middle area merged rest), app_assoc in Hw |- *. by apply IH, coalesced_snoc. }
  destruct (last merged) as [l|] eqn:Hlast; [|by apply Hpush].
  destruct (area_can_merge_with l area) eqn:Hm; [|apply Hpush; by intros b [= <-]].
  apply last_Some in Hlast as [init ->]. rewrite <-app_assoc in Hw. simpl in Hw.
  pose proof Hw as [Hok _]. apply Forall_app in Hok as [_ Hok].
  apply Forall_cons in Hok as [[Hwl Hbl] Hok]. apply Forall_cons in Hok as [[Hwa _] _].
  destruct (area_merge_with_ok l area Hwl Hwa Hbl Hm) as (m&Hmm&_). rewrite Hmm.
  destruct (merge_neighbours init l area rest m Hw Hm Hmm) as (Hw'&E1&E2&E3&Hv).
  rewrite length_app, Nat.add_sub, take_app_length.
  destruct (IH (init ++ [m])) as (r&->&?&?&Hr).
  - by rewrite <-app_assoc.
  - apply coalesced_snoc.
    + intros i x y Hx Hy. eapply (Hc i); by apply lookup_app_l_Some.
    + intros b Hb. rewrite (can_merge_start b m l) by done. apply last_lookup in Hb || rewrite last_lookup in Hb.
      pose proof (lookup_lt_Some _ _ _ Hb). eapply (Hc (Nat.pred (length init))).
      * by rewrite lookup_app_l.
      * rewrite lookup_app_r by lia. by replace (S (Nat.pred (length init)) - length init)%nat with 0%nat by lia.
  - exists r. split_and!; [done|done|done|]. intros va. rewrite (Hr va), <-!app_assoc. simpl. apply Hv.
Qed.

Lemma coalesce_areas_ok l :
  Forall area_ok l → StronglySorted area_disjoint l →
  ∃ r, coalesce_areas l = Ret r ∧ vmas_wf r ∧ coalesced r ∧ ∀ va, vma_page r va ≡ vma_page l va.
Proof.
  intros Hok Hd. destruct (sort_areas_ok l Hok Hd) as [Hw Hv]. unfold coalesce_areas.
  destruct (coalesce_loop_ok [] (sort_areas l) Hw) as (r&->&?&?&Hr); [by intros ???|].
  exists r. split_and!; [done|done|done|]. intros va. rewrite (Hr va). simpl. by rewrite Hv.
Qed.

Lemma coalesce_changed_loop_ok fuel l i e :
  vmas_wf l →
  ∃ r, coalesce_changed_loop fuel l i e = Ret r ∧ vmas_wf r ∧ ∀ va, vma_page r va ≡ vma_page l va.
Proof.
  revert l i. induction fuel as [|fuel IH]; intros l i Hw; cbn [coalesce_changed_loop]; [by exists l|].
  case_bool_decide as Hi; [|by exists l]. case_bool_decide as He; [by exists l|].
  destruct (area_can_merge_with _ _) eqn:Hm; [|by apply IH].
  destruct (lookup_total_middle l i) as (l1&l2&Hl&Hl1); [lia|].
  set (a := l !!! i) in *. assert (Hb : l !! S i = Some (l !!! S i)) by (apply list_lookup_lookup_total_lt; lia).
  set (b := l !!! S i) in *. clearbody a b. subst i. rewrite Hl in Hb.
  rewrite lookup_app_r in Hb by lia. replace (S (length l1) - length l1)%nat with 1%nat in Hb by lia.
  destruct l2 as [|b' l2]; [done|]. simpl in Hb. injection Hb as ->. rewrite Hl in Hw |- *.
  pose proof Hw as [Hok _]. apply Forall_app in Hok as [_ Hok].
  apply Forall_cons in Hok as [[Hwa Hba] Hok]. apply Forall_cons in Hok as [[Hwb _] _].
  destruct (area_merge_with_ok a b Hwa Hwb Hba Hm) as (m&Hmm&_). rewrite Hmm.
  destruct (merge_neighbours l1 a b l2 m Hw Hm Hmm) as (Hw'&_&_&_&Hv).
  rewrite delete_take_drop, take_app_ge, drop_app_ge by lia.
  replace (S (length l1) - length l1)%nat with 1%nat by lia.
  replace (S (S (length l1)) - length l1)%nat with 2%nat by lia. simpl.
  rewrite <-app_assoc. simpl. rewrite insert_app_r_alt, Nat.sub_diag by lia. simpl.
  rewrite drop_0. destruct (IH (l1 ++ m :: l2) (length l1) Hw') as (r&->&?&Hr). exists r.
  split_and!; [done|done|]. intros va. rewrite (Hr va). apply Hv.
Qed.

Lemma coalesce_changed_range_ok l s e :
  vmas_wf l →
  ∃ r, coalesce_changed_range l s e = Ret r ∧ vmas_wf r ∧ ∀ va, vma_page r va ≡ vma_page l va.
Proof.
  intros Hw. unfold coalesce_changed_range. case_bool_decide; [by exists l|].
  by apply coalesce_changed_loop_ok.
Qed.

(** ** Theorems *)

Lemma area_index_containing_iff l addr i :
  vmas_wf l →
  area_index_containing l addr = Some i ↔ ∃ a, l !! i = Some a ∧ start_va a ≤ addr < end_va a.
Proof.
  intros Hw. pose proof (area_index_containing_ok l addr Hw) as H. split.
  - intros Hi. rewrite Hi in H. destruct H as [Hlt Hin]. exists (l !!! i). split; [|done].
    by apply list_lookup_lookup_total_lt.
  - intros (a&Ha&Hin). destruct (area_index_containing l addr) as [j|].
    + destruct H as [Hlt Hinj]. f_equal.
      assert (Hj : l !! j = Some (l !!! j)) by (by apply list_lookup_lookup_total_lt).
      destruct (Nat.lt_trichotomy i j) as [Hij|[Hij|Hij]]; [|done|].
      * pose proof (vmas_wf_lookup l i j a _ Hw Ha Hj Hij). lia.
      * pose proof (vmas_wf_lookup l j i _ a Hw Hj Ha Hij). lia.
    + apply vma_page_None in H. eapply Forall_lookup_1 in H; [|exact Ha]. done.
Qed.

(** The bisections are right on every sorted vector of areas: the index search
    finds exactly the area that contains the address, [range_overlaps] holds exactly
    when some address of the range is mapped, and [range_covered] exactly when every
    address of it is. *)
Theorem vma_searches_correct l addr s e :
  vmas_wf l →
  (∀ i, area_index_containing l addr = Some i ↔
        ∃ a, l !! i = Some a ∧ start_va a ≤ addr < end_va a) ∧
  (range_overlaps l s e = true ↔ ∃ va, s ≤ va < e ∧ is_Some (vma_page l va)) ∧
  (range_covered l s e = true ↔ ∀ va, s ≤ va < e → is_Some (vma_page l va)).
Proof.
  intros Hw. split_and!; [|by apply range_overlaps_ok|by apply range_covered_ok].
  intros i. by apply area_index_containing_iff.
Qed.

(** [find_free_area] is first fit: it returns the lowest page-aligned address at or
    above the hint (and above the zero page) whose whole range is unmapped and below
    the limit, and nothing only when there is none. *)
Theorem find_free_area_first_fit l hint len limit :
  vmas_wf l → 0 < len → 0 ≤ hint → limit ≤ USIZE_MAX →
  match find_free_area l hint len limit with
  | Some r =>
      page_aligned r ∧ Z.max hint PAGE_SIZE ≤ r ∧ r + len ≤ limit ∧
      range_overlaps l r (r + len) = false ∧
      (∀ c, page_aligned c → Z.max hint PAGE_SIZE ≤ c < r → range_overlaps l c (c + len) = true)
  | None =>
      ∀ c, page_aligned c → Z.max hint PAGE_SIZE ≤ c → c + len ≤ limit →
           range_overlaps l c (c + len) = true
  end.
Proof.
  intros Hw Hlen Hh Hlim. pose proof (find_free_area_ok l hint len limit Hw Hlen Hh Hlim) as H.
  destruct (find_free_area l hint len limit) as [r|].
  - destruct H as (?&?&?&Hn&Hb). split_and!; [done|done|done| |].
    + destruct (range_overlaps l r (r + len)) eqn:E; [|done]. by apply range_overlaps_ok in E.
    + intros c Hc Hcr. apply range_overlaps_ok; [done|]. by apply Hb.
  - intros c Hc H1 H2. apply range_overlaps_ok; [done|]. by apply H.
Qed.

(** Splitting the areas at an address never panics, keeps the vector sorted and
    disjoint, changes the view of no address, and leaves no area across a page-aligned
    split point. *)
Theorem split_area_at_preserves l addr :
  vmas_wf l →
  ∃ l', split_area_at l addr = Ret l' ∧ vmas_wf l' ∧ (∀ va, vma_page l' va = vma_page l va) ∧
    (page_aligned addr → ∀ a, a ∈ l' → end_va a ≤ addr ∨ addr ≤ start_va a).
Proof.
  intros Hw. destruct (split_area_at_ok l addr Hw) as (l'&?&?&?&Hs&_). exists l'.
  split_and!; [done|done|done|]. intros Hal a Ha. specialize (Hs Hal). rewrite Forall_forall in Hs.
  by apply Hs.
Qed.

(** Coalescing disjoint areas in any order never panics, yields a sorted, disjoint
    vector in which no two neighbours could still be merged, and preserves the view of
    every address: permissions, resident page, and backing up to the identity of the
    file. *)
Theorem coalesce_areas_preserves l :
  Forall area_ok l → StronglySorted area_disjoint l →
  ∃ r, coalesce_areas l = Ret r ∧ vmas_wf r ∧ coalesced r ∧ ∀ va, vma_page r va ≡ vma_page l va.
Proof. apply coalesce_areas_ok. Qed.

(** ** A concrete vector *)

Definition demo_area : MapArea :=
  mkArea 0x10000 0x18000 (Z.lor PTE_R (Z.lor PTE_W PTE_U)) demo_rs Anonymous.
Definition demo_file_area : MapArea :=
  mkArea 0x20000 0x22000 (Z.lor PTE_R PTE_U) rs_new
    (FileBacked (Ext4Regular 5 0 0 true false false) 0x3000 false).
Definition demo_vmas : list MapArea := [demo_area; demo_file_area].

Lemma demo_area_ok : area_ok demo_area.
Proof.
  split; [|done].
  split; [simpl; lia|simpl; lia|unfold USIZE_MAX; simpl; lia|done|done|apply demo_rs_wf|].
  intros v p. change (area_page_count demo_area) with 8.
  intros Hv. apply elem_of_map_to_list in Hv. vm_compute in Hv.
  repeat (apply elem_of_cons in Hv as [Hv|Hv]; [by injection Hv as -> _|]).
  by apply not_elem_of_nil in Hv.
Qed.

Lemma demo_vmas_wf : vmas_wf demo_vmas.
Proof.
  split.
  - constructor; [apply demo_area_ok|]. constructor; [|constructor]. split.
    + apply area_wf_with_backing; [lia|unfold USIZE_MAX; lia|done|done].
    + simpl. unfold is_usize, USIZE_MAX. lia.
  - constructor; [constructor; constructor|]. constructor; [|constructor].
    unfold area_below. simpl. lia.
Qed.

Lemma vma_searches_correct_witness :
  area_index_containing demo_vmas 0x21004 = Some 1%nat ∧ range_covered demo_vmas 0x10000 0x18000 = true ∧
  range_overlaps demo_vmas 0x18000 0x20000 = false.
Proof.
  destruct (vma_searches_correct demo_vmas 0x21004 0x18000 0x20000 demo_vmas_wf) as (H1&H2&_).
  split_and!.
  - apply H1. exists demo_file_area. split; [reflexivity|simpl; lia].
  - vm_compute. reflexivity.
  - vm_compute. reflexivity.
Defined.

Lemma find_free_area_first_fit_witness :
  find_free_area demo_vmas 0x11000 0x8000 0x40000 = Some 0x18000 ∧
  ∀ c, page_aligned c → Z.max 0x11000 PAGE_SIZE ≤ c < 0x18000 →
       range_overlaps demo_vmas c (c + 0x8000) = true.
Proof.
  pose proof (find_free_area_first_fit demo_vmas 0x11000 0x8000 0x40000 demo_vmas_wf
    ltac:(lia) ltac:(lia) ltac:(unfold USIZE_MAX; lia)) as H.
  assert (E : find_free_area demo_vmas 0x11000 0x8000 0x40000 = Some 0x18000)
    by (vm_compute; reflexivity).
  rewrite E in H. split; [exact E|]. apply H.
Defined.

Lemma split_area_at_preserves_witness :
  ∃ l', split_area_at demo_vmas 0x13000 = Ret l' ∧ length l' = 3%nat ∧
        vma_page l' 0x12345 = vma_page demo_vmas 0x12345.
Proof.
  destruct (split_area_at_preserves demo_vmas 0x13000 demo_vmas_wf) as (l'&Hl&_&Hv&_).
  exists l'. split; [exact Hl|]. split; [|apply Hv].
  vm_compute in Hl. injection Hl as <-. reflexivity.
Defined.

Lemma coalesce_areas_preserves_witness :
  ∃ r, coalesce_areas (rev demo_vmas) = Ret r ∧ vmas_wf r.
Proof.
  destruct (coalesce_areas_preserves (rev demo_vmas)) as (r&Hr&Hw&_).
  - change (rev demo_vmas) with [demo_file_area; demo_area].
    destruct demo_vmas_wf as [Hok _]. apply Forall_cons in Hok as [H1 H2].
    apply Forall_cons in H2 as [H2 _]. constructor; [exact H2|]. constructor; [exact H1|constructor].
  - constructor; [constructor; constructor|]. constructor; [|constructor]. right. simpl. lia.
  - exists r. split; assumption.
Defined.
