(* ===== verification/MemorySet.v ===== *)
(** * Per-process address spaces (src/os/src/mm/memory_set.rs, [MemorySet])

    An address space is a page table, an address-space identifier and the sorted
    vector of areas of [VmaList.v].  Its operations also act on the frame allocator,
    on the TLBs and, for file mappings, on the file layer; the first two are part of
    the state [St] every operation threads, as the allocator's state and as a log of
    page-table and TLB events in program order.

    Three interfaces are classes: [PageTableOps] is what the code uses of the
    hardware page table (src/patch/polyhal/src/pagetable/mod.rs), [FrameService] what
    it uses of the frame allocator, and [FileLayer] what it uses of files.  This file
    holds the operations; their theorems are in the files that follow. *)

From S2P Require Import Prelude BTree Frame Flags FileDesc ResidentSet MapArea VmaList.

(** ** Interfaces *)

(** One 4 KiB leaf per page; the tables in between are the page table's own. *)
Class PageTableOps (PT : Type) := {
  pt_root : PT → Z;
  pt_map : PT → Z → Z → Z → PT;
  pt_unmap : PT → Z → PT;
  pt_translate : PT → Z → option (Z * Z)
}.

(** The frame allocator and the bytes of the frames, by page number. *)
Class FrameService (F : Type) := {
  svc_alloc : F → outcome (F * option FrameTracker);
  svc_clone : F → FrameTracker → outcome (F * FrameTracker);
  svc_drop : F → FrameTracker → outcome F;
  svc_ref_count : F → FrameTracker → outcome Z;
  svc_page : F → Z → list Z;
  svc_store : F → Z → Z → list Z → F
}.

(** [FileDescriptor::read_at] (the bytes read, at most as many as asked for) and the
    clean page cache of the ext4 volume. *)
Class FileLayer (F : Type) := {
  file_read_at : F → FileDescriptor → Z → Z → F * result (list Z) SysErrNo;
  can_use_clean_page_cache : F → Z → bool;
  clean_page_cache_frames : F → Z → Z → Z → Z → outcome (F * result (list FrameTracker) SysErrNo)
}.

(** Page-table stores, TLB operations and drops of frame trackers, in order. *)
Inductive Event : Type :=
  | EvSet (va : Z)
  | EvClear (va : Z)
  | EvFlushVa (va : Z)
  | EvFlushAll
  | EvShootdown (root : Z)
  | EvDrop (ppn : Z).

#[export] Instance Event_eq_dec : EqDecision Event.
Proof. solve_decision. Defined.

Definition CLEAN_FILE_FAULT_WINDOW_PAGES : Z := 64.
Definition CLEAN_FILE_FAULT_READ_AHEAD_PAGES : Z := 16.
Definition ANONYMOUS_FAULT_WINDOW_PAGES : Z := 8.

(** [effective_mapping_flags_for_page] *)
Definition effective_mapping_flags_for_page (flags : Z) (page : ResidentPage) : Z :=
  let effective := if bool_decide (rp_state page = Cow) then flags_difference flags PTE_W else flags in
  mapping_flags_of_pte effective.

(** The area's backing is private and may be made copy-on-write. *)
Definition is_private_backing (b : MapAreaBacking) : bool :=
  match b with
  | Anonymous => true
  | FileBacked _ _ shared => negb shared
  | _ => false
  end.

(** [is_private_cow_candidate] *)
Definition is_private_cow_candidate (area : MapArea) : bool :=
  is_private_backing (area_backing area) && area_has_frames area &&
  flags_contains (area_flags area) PTE_W && has_leaf_permission (area_flags area).

(** [is_readonly_share_candidate] *)
Definition is_readonly_share_candidate (area : MapArea) : bool :=
  match area_backing area with Anonymous | FileBacked _ _ _ => true | _ => false end &&
  area_has_frames area && negb (flags_contains (area_flags area) PTE_W) &&
  has_leaf_permission (area_flags area).

(** [is_shared_mapping] *)
Definition is_shared_mapping (area : MapArea) : bool :=
  match area_backing area with
  | AnonymousShared | SharedMemory _ _ _ => true
  | FileBacked _ _ shared => shared
  | Anonymous => false
  end.

(** The address of the area's page [idx]. *)
Definition page_va (area : MapArea) (idx : Z) : Z := wrap (start_va area + idx * PAGE_SIZE).

(** The physical address of a resident page. *)
Definition page_pa (page : ResidentPage) : Z := ppn_addr (ft_ppn (rp_frame page)).

(** The page number of a tracker. *)
Definition frame_no (t : FrameTracker) : Z := ppn_raw (ft_ppn t).

(** The frames an area holds, in the order a drop visits them. *)
Definition area_frames (area : MapArea) : list FrameTracker :=
  rp_frame <$> rs_iter (area_resident area).

(** Indices [lo..] at which consecutive pages are absent, at most [n]. *)
Fixpoint absent_run (rs : ResidentSet) (next : Z → Z) (n : nat) (count : Z) : Z :=
  match n with
  | O => count
  | S n' =>
      match rs_lookup rs (next count) with
      | None => absent_run rs next n' (count + 1)
      | Some _ => count
      end
  end.

Section memory_set.
Context {PT F : Type} `{!PageTableOps PT, !FrameService F, !FileLayer F}.

(** ** State *)

Record St := mkSt {
  st_frames : F;
  st_current_root : Z;
  st_log : list Event
}.

Record MemorySet := mkMS {
  page_table : PT;
  address_space_id : Z;
  areas : list MapArea
}.

Definition set_frames (st : St) (f : F) : St := mkSt f (st_current_root st) (st_log st).
Definition emit (st : St) (evs : list Event) : St :=
  mkSt (st_frames st) (st_current_root st) (st_log st ++ evs).
Definition set_page_table (ms : MemorySet) (pt : PT) : MemorySet :=
  mkMS pt (address_space_id ms) (areas ms).
Definition set_areas (ms : MemorySet) (l : list MapArea) : MemorySet :=
  mkMS (page_table ms) (address_space_id ms) l.
Definition set_area (ms : MemorySet) (i : nat) (a : MapArea) : MemorySet :=
  set_areas ms (<[i := a]> (areas ms)).

(** ** Page-table stores and TLB operations *)

(** [PageTable::map_page] *)
Definition map_page (st : St) (pt : PT) (va pa mf : Z) : St * PT :=
  (emit st [EvSet va; EvFlushVa va], pt_map pt va pa mf).

(** [PageTable::unmap_page] *)
Definition unmap_page (st : St) (pt : PT) (va : Z) : St * PT :=
  (emit st [EvClear va; EvFlushVa va], pt_unmap pt va).

(** [map_pages_without_flush]: the number of leaves stored. *)
Fixpoint map_pages_without_flush (st : St) (pt : PT) (pages : list (Z * Z * Z)) : St * PT * Z :=
  match pages with
  | [] => (st, pt, 0)
  | (va, pa, mf) :: rest =>
      let '(st, pt, n) := map_pages_without_flush (emit st [EvSet va]) (pt_map pt va pa mf) rest in
      (st, pt, n + 1)
  end.

(** [unmap_pages_without_flush]: only valid leaves are cleared and counted. *)
Fixpoint unmap_pages_without_flush (st : St) (pt : PT) (vas : list Z) : St * PT * Z :=
  match vas with
  | [] => (st, pt, 0)
  | va :: rest =>
      match pt_translate pt va with
      | Some _ =>
          let '(st, pt, n) := unmap_pages_without_flush (emit st [EvClear va]) (pt_unmap pt va) rest in
          (st, pt, n + 1)
      | None => unmap_pages_without_flush st pt rest
      end
  end.

(** [platform::tlb_shootdown(root)] *)
Definition tlb_shootdown (st : St) (pt : PT) : St := emit st [EvShootdown (pt_root pt)].

(** [commit_page_table_batch] *)
Definition commit_page_table_batch (st : St) (pt : PT) (writes : Z) : St :=
  if bool_decide (writes = 0) then st
  else if bool_decide (st_current_root st = pt_root pt) then emit st [EvFlushAll] else st.

(** [commit_page_table_retirement] *)
Definition commit_page_table_retirement (st : St) (pt : PT) (writes : Z) : St :=
  if bool_decide (writes = 0) then st else tlb_shootdown (emit st [EvFlushAll]) pt.

(** The leaves of a batch of resident pages of [area]. *)
Definition area_leaves (area : MapArea) (pages : list (Z * ResidentPage)) : list (Z * Z * Z) :=
  (λ p, (page_va area p.1, page_pa p.2, effective_mapping_flags_for_page (area_flags area) p.2))
    <$> pages.

(** [map_area_pages] *)
Definition map_area_pages (st : St) (pt : PT) (area : MapArea) : St * PT :=
  if negb (has_leaf_permission (area_flags area)) then (st, pt)
  else
    let '(st, pt, writes) := map_pages_without_flush st pt
      (area_leaves area (rs_iter_range (area_resident area) 0 (area_page_count area))) in
    (commit_page_table_batch st pt writes, pt).

(** [map_area_page] *)
Definition map_area_page (st : St) (pt : PT) (area : MapArea) (vpn : Z) : St * PT :=
  match rs_lookup (area_resident area) vpn with
  | None => (st, pt)
  | Some page =>
      if negb (has_leaf_permission (area_flags area)) then (st, pt)
      else map_page st pt (page_va area vpn) (page_pa page)
             (effective_mapping_flags_for_page (area_flags area) page)
  end.

(** [map_area_page_window] *)
Definition map_area_page_window (st : St) (pt : PT) (area : MapArea) (start_idx page_count : Z)
    : St * PT :=
  if negb (has_leaf_permission (area_flags area)) then (st, pt)
  else
    let end_idx := Z.min (sat_add start_idx page_count) (area_page_count area) in
    let '(st, pt, writes) := map_pages_without_flush st pt
      (area_leaves area (rs_iter_range (area_resident area) start_idx end_idx)) in
    (commit_page_table_batch st pt writes, pt).

Definition unmap_pages (st : St) (pt : PT) (vas : list Z) : St * PT :=
  foldl (λ '(st, pt) va, unmap_page st pt va) (st, pt) vas.

(** [unmap_area_pages_without_shootdown] *)
Definition unmap_area_pages_without_shootdown (st : St) (pt : PT) (area : MapArea) (flags : Z)
    : St * PT :=
  if negb (has_leaf_permission flags) || negb (area_has_frames area) then (st, pt)
  else unmap_pages st pt
         ((λ p, page_va area p.1) <$> rs_iter_range (area_resident area) 0 (area_page_count area)).

(** [unmap_area_resident_range_without_flush] *)
Definition unmap_area_resident_range_without_flush (st : St) (pt : PT) (area : MapArea)
    (start_idx end_idx : Z) : St * PT * Z :=
  if negb (has_leaf_permission (area_flags area)) || bool_decide (end_idx ≤ start_idx)
  then (st, pt, 0)
  else unmap_pages_without_flush st pt
         ((λ p, page_va area p.1) <$> rs_iter_range (area_resident area) start_idx end_idx).

(** [unmap_area_pages] *)
Definition unmap_area_pages (st : St) (pt : PT) (area : MapArea) (flags : Z) : St * PT :=
  let '(st, pt) := unmap_area_pages_without_shootdown st pt area flags in
  if negb (has_leaf_permission flags) || negb (area_has_frames area) then (st, pt)
  else (tlb_shootdown st pt, pt).

(** [remap_area_pages] *)
Definition remap_area_pages (st : St) (pt : PT) (area : MapArea) (old_flags : Z) : St * PT :=
  let '(st, pt) := unmap_area_pages st pt area old_flags in
  map_area_pages st pt area.

(** ** Frames *)

Definition new_frame (st : St) : outcome (St * option FrameTracker) :=
  '(f, o) ←! svc_alloc (st_frames st); Ret (set_frames st f, o).

Definition clone_frame (st : St) (t : FrameTracker) : outcome (St * FrameTracker) :=
  '(f, t) ←! svc_clone (st_frames st) t; Ret (set_frames st f, t).

Definition drop_frame (st : St) (t : FrameTracker) : outcome St :=
  f ←! svc_drop (st_frames st) t; Ret (emit (set_frames st f) [EvDrop (frame_no t)]).

(** Dropping a vector of trackers. *)
Fixpoint drop_frames (st : St) (ts : list FrameTracker) : outcome St :=
  match ts with
  | [] => Ret st
  | t :: rest => st ←! drop_frame st t; drop_frames st rest
  end.

(** Dropping an optional tracker. *)
Definition drop_option (st : St) (o : option FrameTracker) : outcome St :=
  match o with Some t => drop_frame st t | None => Ret st end.

(** Cloning every tracker of a resident set ([ResidentSet::clone]). *)
Fixpoint clone_frames (st : St) (ts : list FrameTracker) : outcome St :=
  match ts with
  | [] => Ret st
  | t :: rest => '(st, _) ←! clone_frame st t; clone_frames st rest
  end.

(** [copy_nonoverlapping] of a page between two frames. *)
Definition copy_page (st : St) (src dst : FrameTracker) : St :=
  set_frames st (svc_store (st_frames st) (frame_no dst) 0 (svc_page (st_frames st) (frame_no src))).

(** A store of bytes into a frame. *)
Definition store_frame (st : St) (t : FrameTracker) (off : Z) (bytes : list Z) : St :=
  set_frames st (svc_store (st_frames st) (frame_no t) off bytes).

(** [read_backing_page]: a zeroed page with what the backing has. *)
Definition read_backing_page (st : St) (backing : MapAreaBacking) (page_offset : Z)
    : St * result (list Z) SysErrNo :=
  match backing with
  | FileBacked file offset _ =>
      let '(f, r) := file_read_at (st_frames st) file (sat_add page_offset offset) PAGE_SIZE in
      (set_frames st f,
       match r with
       | Ok bytes => Ok (take (Z.to_nat PAGE_SIZE) (bytes ++ replicate (Z.to_nat PAGE_SIZE) 0))
       | Err e => Err e
       end)
  | _ => (st, Ok (replicate (Z.to_nat PAGE_SIZE) 0))
  end.

(** ** Creation *)

(** [new_bare] around a fresh root [pt] and an allocated identifier. *)
Definition new_bare (pt : PT) (asid : Z) : MemorySet := mkMS pt asid [].

(** The loop of [insert_framed_area_with_backing] over [start_vpn + n ..]. *)
Fixpoint framed_loop (st : St) (pt : PT) (area : MapArea) (permission start_vpn : Z) (vpns : list Z)
    : outcome (St * PT * result MapArea SysErrNo) :=
  match vpns with
  | [] => Ret (st, pt, Ok area)
  | vpn :: rest =>
      '(st, frame) ←! new_frame st;
      match frame with
      | None =>
          let '(st, pt) := unmap_pages st pt
            ((λ v, wrap (v * PAGE_SIZE)) <$> seqZ start_vpn (vpn - start_vpn)) in
          st ←! drop_frames st (area_frames area);
          Ret (st, pt, Err ENOMEM)
      | Some frame =>
          let '(st, pt) :=
            if has_leaf_permission permission
            then map_page st pt (wrap (vpn * PAGE_SIZE)) (ppn_addr (ft_ppn frame))
                   (effective_mapping_flags permission)
            else (st, pt) in
          '(area, r) ←! area_append_resident area frame;
          match r with
          | Err frame =>
              st ←! drop_frame st frame;
              st ←! drop_frames st (area_frames area);
              Ret (st, pt, Err EFAULT)
          | Ok _ => framed_loop st pt area permission start_vpn rest
          end
      end
  end.

(** Push an area and coalesce. *)
Definition push_area (ms : MemorySet) (area : MapArea) : outcome MemorySet :=
  l ←! coalesce_areas (areas ms ++ [area]); Ret (set_areas ms l).

(** [insert_framed_area_with_backing] *)
Definition insert_framed_area_with_backing (st : St) (ms : MemorySet) (start_va_ end_va_ : Z)
    (permission : Z) (backing : MapAreaBacking) : outcome (St * MemorySet * result unit SysErrNo) :=
  let start := align_down start_va_ in
  match align_up end_va_ with
  | None => Ret (st, ms, Err EINVAL)
  | Some end_ =>
      if bool_decide (end_ ≤ start) then Ret (st, ms, Err EINVAL)
      else
        let area := area_with_backing start end_ permission backing in
        if negb (has_leaf_permission permission) then
          ms ←! push_area ms area; Ret (st, ms, Ok tt)
        else
          let start_vpn := start / PAGE_SIZE in
          let end_vpn := end_ / PAGE_SIZE in
          '(sp, r) ←! framed_loop st (page_table ms) area permission start_vpn
                        (seqZ start_vpn (end_vpn - start_vpn));
          let '(st, pt) := sp in
          let ms := set_page_table ms pt in
          match r with
          | Err e => Ret (st, ms, Err e)
          | Ok area =>
              let area := if is_shared_mapping area then area_set_all_resident_state area Shared
                          else area in
              ms ←! push_area ms area; Ret (st, ms, Ok tt)
          end
  end.

(** [insert_framed_area] *)
Definition insert_framed_area (st : St) (ms : MemorySet) (start_va_ end_va_ permission : Z)
    : outcome (St * MemorySet * result unit SysErrNo) :=
  insert_framed_area_with_backing st ms start_va_ end_va_ permission Anonymous.

(** [insert_lazy_area_with_backing] *)
Definition insert_lazy_area_with_backing (ms : MemorySet) (start_va_ end_va_ permission : Z)
    (backing : MapAreaBacking) : outcome (MemorySet * result unit SysErrNo) :=
  let start := align_down start_va_ in
  match align_up end_va_ with
  | None => Ret (ms, Err EINVAL)
  | Some end_ =>
      if bool_decide (end_ ≤ start) then Ret (ms, Err EINVAL)
      else
        ms ←! push_area ms (area_with_backing start end_ permission backing);
        Ret (ms, Ok tt)
  end.

(** [insert_shared_framed_area]; [frames.to_vec()] clones the trackers. *)
Definition insert_shared_framed_area (st : St) (ms : MemorySet) (start_va_ end_va_ permission : Z)
    (backing : MapAreaBacking) (frames : list FrameTracker)
    : outcome (St * MemorySet * result unit SysErrNo) :=
  let start := align_down start_va_ in
  match align_up end_va_ with
  | None => Ret (st, ms, Err EINVAL)
  | Some end_ =>
      if bool_decide (end_ ≤ start) || negb (bool_decide (zlen frames = (end_ - start) / PAGE_SIZE))
      then Ret (st, ms, Err EINVAL)
      else if range_overlaps (areas ms) start end_ then Ret (st, ms, Err ENOMEM)
      else
        let area := area_with_backing start end_ permission backing in
        st ←! clone_frames st frames;
        '(area, _) ←! area_replace_resident area frames;
        let '(st, pt) :=
          if has_leaf_permission permission then
            foldl (λ '(st, pt) p,
                     map_page st pt (wrap (start + p.1 * PAGE_SIZE)) (page_pa p.2)
                       (effective_mapping_flags permission))
              (st, page_table ms)
              (rs_iter_range (area_resident area) 0 (area_page_count area))
          else (st, page_table ms) in
        ms ←! push_area (set_page_table ms pt) area;
        Ret (st, ms, Ok tt)
  end.

(** The loop of [insert_framed_area_with_frames]: frames that cannot be allocated are
    skipped. *)
Fixpoint framed_with_frames_loop (st : St) (pt : PT) (permission : Z) (vpns : list Z)
    : outcome (St * PT * list FrameTracker) :=
  match vpns with
  | [] => Ret (st, pt, [])
  | vpn :: rest =>
      '(st, o) ←! new_frame st;
      match o with
      | None => framed_with_frames_loop st pt permission rest
      | Some frame =>
          let '(st, pt) :=
            if has_leaf_permission permission
            then map_page st pt (wrap (vpn * PAGE_SIZE)) (ppn_addr (ft_ppn frame))
                   (effective_mapping_flags permission)
            else (st, pt) in
          '(sp, frames) ←! framed_with_frames_loop st pt permission rest;
          Ret (sp, frame :: frames)
      end
  end.

(** [insert_framed_area_with_frames]: the caller owns the frames. *)
Definition insert_framed_area_with_frames (st : St) (ms : MemorySet) (start_va_ end_va_ permission : Z)
    : outcome (St * MemorySet * list FrameTracker) :=
  let start := align_down start_va_ in
  let end_ := default start (align_up end_va_) in
  let l := sort_areas (areas ms ++ [area_new start end_ permission]) in
  '(sp, frames) ←! framed_with_frames_loop st (page_table ms) permission
      (seqZ (start / PAGE_SIZE) (end_ / PAGE_SIZE - start / PAGE_SIZE));
  Ret (sp.1, mkMS sp.2 (address_space_id ms) l, frames).

(** [copy_area_frames]: new frames with the same bytes; the old ones are returned. *)
Fixpoint copy_frames (st : St) (pages : list ResidentPage)
    : outcome (St * list FrameTracker * bool) :=
  match pages with
  | [] => Ret (st, [], true)
  | src :: rest =>
      '(st, o) ←! new_frame st;
      match o with
      | None => Ret (st, [], false)
      | Some frame =>
          r ←! copy_frames (copy_page st (rp_frame src) frame) rest;
          let '(st, frames, ok) := r in Ret (st, frame :: frames, ok)
      end
  end.

Definition copy_area_frames (st : St) (area : MapArea)
    : outcome (St * MapArea * result (list FrameTracker) SysErrNo) :=
  if rs_is_empty (area_resident area) then Ret (st, area, Ok [])
  else
    r ←! copy_frames st (rs_iter (area_resident area));
    let '(st, frames, ok) := r in
    if ok then
      '(area, old) ←! area_replace_resident area frames;
      Ret (st, area, Ok (rs_into_frames old))
    else st ←! drop_frames st frames; Ret (st, area, Err ENOMEM).

(** ** Queries *)

(** [translate] and [is_mapped] *)
Definition translate (ms : MemorySet) (vaddr : Z) : option Z :=
  fst <$> pt_translate (page_table ms) vaddr.
Definition is_mapped (ms : MemorySet) (vaddr : Z) : bool :=
  bool_decide (is_Some (translate ms vaddr)).

(** [satp_token] *)
Definition satp_token (ms : MemorySet) : Z :=
  let root_ppn := Z.shiftr (pt_root (page_table ms)) 12 in
  Z.lor (Z.lor (Z.shiftl 8 60) (wrap (Z.shiftl (address_space_id ms) 44))) root_ppn.

(** [is_shared_mapping_at] *)
Definition is_shared_mapping_at (ms : MemorySet) (addr : Z) : bool :=
  match area_index_containing (areas ms) addr with
  | Some index => is_shared_mapping (areas ms !!! index)
  | None => false
  end.

(** ** Removal *)

(** The argument checks the range operations share. *)
Definition bad_range (start end_ : Z) : bool :=
  bool_decide (end_ ≤ start) || negb (bool_decide (start mod PAGE_SIZE = 0)) ||
  negb (bool_decide (end_ mod PAGE_SIZE = 0)).

(** The loop of [unmap_range]: an overlapping area is unmapped and, at the end of its
    iteration, dropped. *)
Fixpoint unmap_loop (st : St) (pt : PT) (start end_ : Z) (l : list MapArea)
    : outcome (St * PT * list MapArea) :=
  match l with
  | [] => Ret (st, pt, [])
  | area :: rest =>
      if area_overlaps area start end_ then
        let '(st, pt) := unmap_area_pages st pt area (area_flags area) in
        st ←! drop_frames st (area_frames area);
        unmap_loop st pt start end_ rest
      else
        '(sp, kept) ←! unmap_loop st pt start end_ rest;
        Ret (sp, area :: kept)
  end.

(** [unmap_range] *)
Definition unmap_range (st : St) (ms : MemorySet) (start end_ : Z)
    : outcome (St * MemorySet * result unit SysErrNo) :=
  if bad_range start end_ then Ret (st, ms, Err EINVAL)
  else
    l ←! split_area_at (areas ms) start;
    l ←! split_area_at l end_;
    '(sp, kept) ←! unmap_loop st (page_table ms) start end_ l;
    let '(st, pt) := sp in
    l ←! coalesce_areas kept;
    Ret (st, mkMS pt (address_space_id ms) l, Ok tt).

(** [unmap_area] *)
Definition unmap_area (st : St) (ms : MemorySet) (start : Z)
    : outcome (St * MemorySet) :=
  match list_find (λ a, start_va a = start) (areas ms) with
  | None => Ret (st, ms)
  | Some (_, area) => '(sm, _) ←! unmap_range st ms start (end_va area); Ret sm
  end.

(** [remove_area]: the areas that start there are dropped; no leaf is cleared. *)
Definition remove_area (st : St) (ms : MemorySet) (start : Z) : outcome (St * MemorySet) :=
  st ←! drop_frames st (mjoin (area_frames <$> filter (λ a, start_va a = start) (areas ms)));
  Ret (st, set_areas ms (filter (λ a, start_va a ≠ start) (areas ms))).

(** [release_user_areas]: all areas are unmapped, then the vector is cleared. *)
Definition release_user_areas (st : St) (ms : MemorySet) : outcome (St * MemorySet) :=
  let '(st, pt) :=
    foldl (λ '(st, pt) area, unmap_area_pages st pt area (area_flags area))
      (st, page_table ms) (areas ms) in
  st ←! drop_frames st (mjoin (area_frames <$> areas ms));
  Ret (st, mkMS pt (address_space_id ms) []).

(** The loop of [discard_anonymous_range]: the state, the page table, the areas, the
    revoked leaves, the discarded pages and the retired owners. *)
Fixpoint discard_loop (st : St) (pt : PT) (start end_ : Z) (l : list MapArea)
    : outcome (St * PT * list MapArea * Z * Z * list FrameTracker) :=
  match l with
  | [] => Ret (st, pt, [], 0, 0, [])
  | area :: rest =>
      if negb (area_overlaps area start end_) ||
         negb (bool_decide (area_backing area = Anonymous)) then
        r ←! discard_loop st pt start end_ rest;
        let '(st, pt, l, revoked, discarded, retired) := r in
        Ret (st, pt, area :: l, revoked, discarded, retired)
      else
        let overlap_start := Z.max start (start_va area) in
        let overlap_end := Z.min end_ (end_va area) in
        let start_idx := (overlap_start - start_va area) / PAGE_SIZE in
        let end_idx := (overlap_end - start_va area) / PAGE_SIZE in
        let '(st, pt, n) := unmap_area_resident_range_without_flush st pt area start_idx end_idx in
        '(area, owner) ←! area_extract_resident_range area start_idx end_idx;
        r ←! discard_loop st pt start end_ rest;
        let '(st, pt, l, revoked, discarded, retired) := r in
        Ret (st, pt, area :: l, sat_add n revoked, sat_add (rs_len owner) discarded,
             (rp_frame <$> rs_iter owner) ++ retired)
  end.

(** [discard_anonymous_range] *)
Definition discard_anonymous_range (st : St) (ms : MemorySet) (start end_ : Z)
    : outcome (St * MemorySet * result Z SysErrNo) :=
  if bad_range start end_ then Ret (st, ms, Err EINVAL)
  else if negb (range_covered (areas ms) start end_) then Ret (st, ms, Err ENOMEM)
  else
    r ←! discard_loop st (page_table ms) start end_ (areas ms);
    let '(st, pt, l, revoked, discarded, retired) := r in
    let st := commit_page_table_retirement st pt revoked in
    st ←! drop_frames st retired;
    Ret (st, mkMS pt (address_space_id ms) l, Ok discarded).

(** The loop of [invalidate_file_range]. *)
Definition invalidate_step (start end_ : Z) : St * PT → MapArea → St * PT :=
  λ '(st, pt) area,
    if bool_decide (start ≤ start_va area) && bool_decide (end_va area ≤ end_) &&
       match area_backing area with FileBacked _ _ _ => true | _ => false end
    then unmap_area_pages st pt area (area_flags area) else (st, pt).

(** [invalidate_file_range] *)
Definition invalidate_file_range (st : St) (ms : MemorySet) (start end_ : Z)
    : outcome (St * MemorySet * result unit SysErrNo) :=
  if bad_range start end_ then Ret (st, ms, Err EINVAL)
  else if negb (range_covered (areas ms) start end_) then Ret (st, ms, Err ENOMEM)
  else
    l ←! split_area_at (areas ms) start;
    l ←! split_area_at l end_;
    let '(st, pt) := foldl (invalidate_step start end_) (st, page_table ms) l in
    l ←! coalesce_areas l;
    Ret (st, mkMS pt (address_space_id ms) l, Ok tt).

(** ** Protection *)

(** [already_protected] of [protect_range]: from [index] on, every area below [end_]
    has the flags, up to the copy-on-write bit. *)
Fixpoint already_protected (fuel : nat) (l : list MapArea) (index : nat) (end_ flags : Z) : bool :=
  match fuel with
  | O => true
  | S fuel' =>
      if bool_decide (index < length l)%nat && bool_decide (start_va (l !!! index) < end_) then
        if bool_decide (flags_difference (area_flags (l !!! index)) PTE_COW ≠ flags) then false
        else already_protected fuel' l (S index) end_ flags
      else true
  end.

(** [resident().iter().any(|frame| frame.ref_count() > 1)] *)
Fixpoint any_shared_frame (f : F) (pages : list ResidentPage) : outcome bool :=
  match pages with
  | [] => Ret false
  | p :: rest =>
      n ←! svc_ref_count f (rp_frame p);
      if bool_decide (1 < n) then Ret true else any_shared_frame f rest
  end.

(** The flags [protect_range] gives an area. *)
Definition protect_flags (f : F) (area : MapArea) (flags : Z) : outcome Z :=
  if is_private_backing (area_backing area) && flags_contains flags PTE_W && area_has_frames area then
    if flags_contains (area_flags area) PTE_COW then Ret (flags_union flags PTE_COW)
    else
      s ←! any_shared_frame f (rs_iter (area_resident area));
      if s then Ret (flags_union flags PTE_COW) else Ret flags
  else Ret flags.

(** One iteration of the second loop of [protect_range]; [true] when leaves changed. *)
Definition protect_area (st : St) (pt : PT) (area : MapArea) (flags : Z)
    : outcome (St * PT * MapArea * bool) :=
  let old_flags := area_flags area in
  if bool_decide (flags_difference old_flags PTE_COW = flags) then Ret (st, pt, area, false)
  else
    new_flags ←! protect_flags (st_frames st) area flags;
    let area := area_set_flags area new_flags in
    if area_has_frames area && (has_leaf_permission old_flags || has_leaf_permission new_flags) then
      let '(st, pt) :=
        if has_leaf_permission new_flags then map_area_pages st pt area
        else unmap_area_pages_without_shootdown st pt area old_flags in
      Ret (st, pt, area, true)
    else Ret (st, pt, area, false).

Fixpoint protect_loop (fuel : nat) (st : St) (pt : PT) (l : list MapArea) (index : nat)
    (end_ flags : Z) (changed : bool) : outcome (St * PT * list MapArea * bool) :=
  match fuel with
  | O => Ret (st, pt, l, changed)
  | S fuel' =>
      if bool_decide (index < length l)%nat && bool_decide (start_va (l !!! index) < end_) then
        r ←! protect_area st pt (l !!! index) flags;
        let '(st, pt, area, c) := r in
        protect_loop fuel' st pt (<[index := area]> l) (S index) end_ flags (changed || c)
      else Ret (st, pt, l, changed)
  end.

(** [protect_range] *)
Definition protect_range (st : St) (ms : MemorySet) (start end_ flags : Z)
    : outcome (St * MemorySet * result unit SysErrNo) :=
  if bad_range start end_ then Ret (st, ms, Err EINVAL)
  else if negb (range_covered (areas ms) start end_) then Ret (st, ms, Err ENOMEM)
  else if already_protected (length (areas ms)) (areas ms)
            (first_area_ending_after (areas ms) start) end_ flags
  then Ret (st, ms, Ok tt)
  else
    l ←! split_area_at (areas ms) start;
    l ←! split_area_at l end_;
    r ←! protect_loop (length l) st (page_table ms) l (first_area_ending_after l start) end_ flags false;
    let '(st, pt, l, changed) := r in
    let st := if changed then tlb_shootdown st pt else st in
    l ←! coalesce_changed_range l start end_;
    Ret (st, mkMS pt (address_space_id ms) l, Ok tt).

(** ** Copy-on-write *)

(** The rest of [resolve_cow_page] once the page has its private frame: publish the
    new leaf between two shootdowns, then drop the old frame. *)
Definition publish_private (st : St) (ms : MemorySet) (index : nat) (page_idx page_start : Z)
    (old_frame : option FrameTracker) : outcome (St * MemorySet * result Z SysErrNo) :=
  let '(area, _) := area_set_resident_state (areas ms !!! index) page_idx Private in
  let ms := set_area ms index area in
  let '(st, pt) := unmap_page st (page_table ms) page_start in
  let st := tlb_shootdown st pt in
  let '(st, pt) := map_area_page st pt area page_idx in
  let st := tlb_shootdown st pt in
  st ←! drop_option st old_frame;
  Ret (st, set_page_table ms pt, Ok 1).

(** [resolve_cow_page]; [lookup(page_idx).cloned()] takes a second reference to the
    resident frame, dropped when [source_page] goes out of scope. *)
Definition resolve_cow_page (st : St) (ms : MemorySet) (page_start : Z)
    : outcome (St * MemorySet * result Z SysErrNo) :=
  match area_index_containing (areas ms) page_start with
  | None => Ret (st, ms, Err EFAULT)
  | Some source_index =>
      let area := areas ms !!! source_index in
      let page_idx := (page_start - start_va area) / PAGE_SIZE in
      let flags := area_flags area in
      let resident_page := rp_frame <$> rs_lookup (area_resident area) page_idx in
      st ←! match resident_page with
            | Some t => '(st, _) ←! clone_frame st t; Ret st
            | None => Ret st
            end;
      if negb (is_private_backing (area_backing area)) || negb (flags_contains flags PTE_COW) ||
         negb (flags_contains flags PTE_W)
      then st ←! drop_option st resident_page; Ret (st, ms, Err EFAULT)
      else
        match resident_page with
        | Some source_page =>
            n ←! svc_ref_count (st_frames st) source_page;
            if bool_decide (1 < n) then
              '(st, o) ←! new_frame st;
              match o with
              | None => st ←! drop_frame st source_page; Ret (st, ms, Err ENOMEM)
              | Some frame =>
                  let st := copy_page st source_page frame in
                  st ←! drop_frame st source_page;
                  match area_replace_resident_page area page_idx frame with
                  | (area, Ok old) =>
                      publish_private st (set_area ms source_index area) source_index
                        page_idx page_start (Some old)
                  | (_, Err frame) => st ←! drop_frame st frame; Ret (st, ms, Err EFAULT)
                  end
              end
            else
              st ←! drop_frame st source_page;
              publish_private st ms source_index page_idx page_start None
        | None =>
            '(st, o) ←! new_frame st;
            match o with
            | None => Ret (st, ms, Err ENOMEM)
            | Some frame =>
                let backing_offset := sat_sub page_start (start_va area) in
                match read_backing_page st (area_backing area) backing_offset with
                | (st, Err e) => st ←! drop_frame st frame; Ret (st, ms, Err e)
                | (st, Ok data) =>
                    let st := store_frame st frame 0 data in
                    '(area, r) ←! area_insert_resident_page area page_idx frame Private;
                    match r with
                    | Err frame => st ←! drop_frame st frame; Ret (st, ms, Err EFAULT)
                    | Ok _ =>
                        publish_private st (set_area ms source_index area) source_index
                          page_idx page_start None
                    end
                end
            end
        end
  end.

(** ** Page faults *)

(** Allocate up to [n] frames for an anonymous window. *)
Fixpoint alloc_window (st : St) (n : nat) : outcome (St * list FrameTracker) :=
  match n with
  | O => Ret (st, [])
  | S n' =>
      '(st, o) ←! new_frame st;
      match o with
      | None => Ret (st, [])
      | Some frame => '(st, frames) ←! alloc_window st n'; Ret (st, frame :: frames)
      end
  end.

(** The window of absent pages around a faulting page: [(start, pages)]. *)
Definition anonymous_window (area : MapArea) (page_start page_idx : Z) : Z * Z :=
  let pages_to_end := (end_va area - page_start) / PAGE_SIZE in
  let max_forward_pages := Z.min pages_to_end ANONYMOUS_FAULT_WINDOW_PAGES in
  let forward_pages := absent_run (area_resident area) (λ n, page_idx + n)
                         (Z.to_nat max_forward_pages) 0 in
  let backward_pages :=
    if bool_decide (forward_pages < ANONYMOUS_FAULT_WINDOW_PAGES) then
      let max_backward_pages := Z.min (page_idx + 1) ANONYMOUS_FAULT_WINDOW_PAGES in
      absent_run (area_resident area) (λ n, page_idx - n) (Z.to_nat (max_backward_pages - 1)) 1
    else 1 in
  if bool_decide (forward_pages < backward_pages)
  then (page_idx + 1 - backward_pages, backward_pages)
  else (page_idx, forward_pages).

(** The demand-zero branch of [handle_page_fault]. *)
Definition fault_anonymous (st : St) (ms : MemorySet) (area : MapArea) (page_start page_idx : Z)
    : outcome (St * MemorySet * result unit SysErrNo) :=
  let '(window_start_idx, window_pages) := anonymous_window area page_start page_idx in
  '(st, frames) ←! alloc_window st (Z.to_nat window_pages);
  match frames with
  | [] => Ret (st, ms, Err (if bool_decide (0 < window_pages) then ENOMEM else EFAULT))
  | _ =>
      match area_index_containing (areas ms) page_start with
      | None => st ←! drop_frames st frames; Ret (st, ms, Err EFAULT)
      | Some idx =>
          match area_insert_resident_run (areas ms !!! idx) window_start_idx frames Private with
          | (_, Err frames) => st ←! drop_frames st frames; Ret (st, ms, Err EFAULT)
          | (area, Ok _) =>
              let '(st, pt) :=
                map_area_page_window st (page_table ms) area window_start_idx (zlen frames) in
              Ret (st, set_page_table (set_area ms idx area) pt, Ok tt)
          end
      end
  end.

(** The clean-page-cache branch of [handle_page_fault]. *)
Definition fault_clean_file (st : St) (ms : MemorySet) (area : MapArea)
    (page_start page_idx ino file_offset : Z) : outcome (St * MemorySet * result unit SysErrNo) :=
  let pages_to_end := (end_va area - page_start) / PAGE_SIZE in
  let max_window_pages := Z.min pages_to_end CLEAN_FILE_FAULT_WINDOW_PAGES in
  let window_pages := absent_run (area_resident area) (λ n, page_idx + n)
                        (Z.to_nat max_window_pages) 0 in
  if bool_decide (window_pages = 0) then Ret (st, ms, Err EFAULT)
  else
    '(f, r) ←! clean_page_cache_frames (st_frames st) ino file_offset window_pages
                 CLEAN_FILE_FAULT_READ_AHEAD_PAGES;
    let st := set_frames st f in
    match r with
    | Err e => Ret (st, ms, Err e)
    | Ok [] => Ret (st, ms, Err ENOMEM)
    | Ok cache_frames =>
        match area_index_containing (areas ms) page_start with
        | None => st ←! drop_frames st cache_frames; Ret (st, ms, Err EFAULT)
        | Some idx =>
            match area_insert_resident_run (areas ms !!! idx) page_idx cache_frames FileClean with
            | (_, Err frames) => st ←! drop_frames st frames; Ret (st, ms, Err EFAULT)
            | (area, Ok _) =>
                let '(st, pt) :=
                  map_area_page_window st (page_table ms) area page_idx (zlen cache_frames) in
                Ret (st, set_page_table (set_area ms idx area) pt, Ok tt)
            end
        end
    end.

(** The state of a page read from the area's backing. *)
Definition backing_page_state (b : MapAreaBacking) : PageState :=
  match b with
  | AnonymousShared | SharedMemory _ _ _ => Shared
  | FileBacked _ _ shared => if shared then Shared else FileClean
  | Anonymous => Private
  end.

(** The fallback of [handle_page_fault]: one page from the backing. *)
Definition fault_backing (st : St) (ms : MemorySet) (page_start page_idx : Z)
    : outcome (St * MemorySet * result unit SysErrNo) :=
  match area_index_containing (areas ms) page_start with
  | None => Ret (st, ms, Err EFAULT)
  | Some idx =>
      let area := areas ms !!! idx in
      match rs_lookup (area_resident area) page_idx with
      | Some _ =>
          let '(st, pt) := map_area_page st (page_table ms) area page_idx in
          Ret (st, set_page_table ms pt, Ok tt)
      | None =>
          '(st, o) ←! new_frame st;
          match o with
          | None => Ret (st, ms, Err ENOMEM)
          | Some frame =>
              let backing_offset := sat_sub page_start (start_va area) in
              match read_backing_page st (area_backing area) backing_offset with
              | (st, Err e) => st ←! drop_frame st frame; Ret (st, ms, Err e)
              | (st, Ok data) =>
                  let st := store_frame st frame 0 data in
                  '(area, r) ←! area_insert_resident_page area page_idx frame
                                  (backing_page_state (area_backing area));
                  match r with
                  | Err frame => st ←! drop_frame st frame; Ret (st, ms, Err EFAULT)
                  | Ok _ =>
                      let '(st, pt) := map_area_page st (page_table ms) area page_idx in
                      Ret (st, set_page_table (set_area ms idx area) pt, Ok tt)
                  end
              end
          end
      end
  end.

(** The permission checks of [handle_page_fault]. *)
Definition fault_allowed (flags : Z) (is_store is_exec : bool) : bool :=
  has_leaf_permission flags &&
  flags_contains flags (if is_exec then PTE_X else if is_store then PTE_W else PTE_R).

(** The clean-cache page of a fault, if the area may use the cache. *)
Definition clean_cache_page (f : F) (area : MapArea) (page_start : Z) (is_store : bool)
    : option (Z * Z) :=
  if negb is_store && negb (flags_contains (area_flags area) PTE_W) then
    match area_backing area with
    | FileBacked (Ext4Regular ino _ _ _ _ _) offset _ =>
        if can_use_clean_page_cache f ino
        then Some (ino, sat_add offset (page_start - start_va area)) else None
    | _ => None
    end
  else None.

(** [handle_page_fault] *)
Definition handle_page_fault (st : St) (ms : MemorySet) (fault_addr : Z) (is_store is_exec : bool)
    : outcome (St * MemorySet * result unit SysErrNo) :=
  let page_start := align_down fault_addr in
  match area_index_containing (areas ms) fault_addr with
  | None => Ret (st, ms, Err EFAULT)
  | Some area_index =>
      let area := areas ms !!! area_index in
      if negb (fault_allowed (area_flags area) is_store is_exec) then Ret (st, ms, Err EFAULT)
      else if is_store && flags_contains (area_flags area) PTE_COW then
        '(sm, r) ←! resolve_cow_page st ms page_start;
        Ret (sm, match r with Ok _ => Ok tt | Err e => Err e end)
      else
        let clean := clean_cache_page (st_frames st) area page_start is_store in
        match translate ms page_start with
        | Some _ => Ret (st, ms, Ok tt)
        | None =>
            let page_idx := (page_start - start_va area) / PAGE_SIZE in
            match rs_lookup (area_resident area) page_idx with
            | Some _ =>
                let '(st, pt) := map_area_page st (page_table ms) area page_idx in
                Ret (st, set_page_table ms pt, Ok tt)
            | None =>
                if bool_decide (area_backing area = Anonymous) &&
                   negb (flags_contains (area_flags area) PTE_COW) &&
                   negb (flags_contains (area_flags area) PTE_X)
                then fault_anonymous st ms area page_start page_idx
                else
                  match clean with
                  | Some (ino, file_offset) =>
                      fault_clean_file st ms area page_start page_idx ino file_offset
                  | None => fault_backing st ms page_start page_idx
                  end
            end
        end
  end.

(** ** Kernel access to user memory *)

(** [ensure_page_writable] *)
Definition ensure_page_writable (st : St) (ms : MemorySet) (page_start : Z)
    : outcome (St * MemorySet * result unit SysErrNo) :=
  match area_index_containing (areas ms) page_start with
  | None => Ret (st, ms, Err EFAULT)
  | Some index =>
      let flags := area_flags (areas ms !!! index) in
      if negb (has_leaf_permission flags) || negb (flags_contains flags PTE_W)
      then Ret (st, ms, Err EFAULT)
      else if flags_contains flags PTE_COW then
        '(sm, r) ←! resolve_cow_page st ms page_start;
        Ret (sm, match r with Ok _ => Ok tt | Err e => Err e end)
      else
        match translate ms page_start with
        | None => handle_page_fault st ms page_start true false
        | Some _ => Ret (st, ms, Ok tt)
        end
  end.

(** [ensure_page_readable] *)
Definition ensure_page_readable (st : St) (ms : MemorySet) (page_start : Z)
    : outcome (St * MemorySet * result unit SysErrNo) :=
  match area_index_containing (areas ms) page_start with
  | None => Ret (st, ms, Err EFAULT)
  | Some index =>
      let flags := area_flags (areas ms !!! index) in
      if negb (has_leaf_permission flags) || negb (flags_contains flags PTE_R)
      then Ret (st, ms, Err EFAULT)
      else
        match translate ms page_start with
        | None => handle_page_fault st ms page_start false false
        | Some _ => Ret (st, ms, Ok tt)
        end
  end.

(** The loop of [prepare_read] and [prepare_write]: one page per iteration. *)
Fixpoint prepare_loop (ensure : St → MemorySet → Z → outcome (St * MemorySet * result unit SysErrNo))
    (fuel : nat) (st : St) (ms : MemorySet) (base checked len : Z)
    : outcome (St * MemorySet * result unit SysErrNo) :=
  match fuel with
  | O => Ret (st, ms, Ok tt)
  | S fuel' =>
      if bool_decide (checked < len) then
        match checked_add base checked with
        | None => Ret (st, ms, Err EFAULT)
        | Some addr =>
            '(sm, r) ←! ensure st ms (align_down addr);
            let '(st, ms) := sm in
            match r with
            | Err e => Ret (st, ms, Err e)
            | Ok _ =>
                prepare_loop ensure fuel' st ms base
                  (checked + Z.min (PAGE_SIZE - addr mod PAGE_SIZE) (len - checked)) len
            end
        end
      else Ret (st, ms, Ok tt)
  end.

(** Iterations of a loop over the pages of [len] bytes, rounded up. *)
Definition page_steps (len : Z) : nat := S (S (Z.to_nat (len / PAGE_SIZE))).

Definition prepare_read (st : St) (ms : MemorySet) (src len : Z) :=
  prepare_loop ensure_page_readable (page_steps len) st ms src 0 len.

Definition prepare_write (st : St) (ms : MemorySet) (dst len : Z) :=
  prepare_loop ensure_page_writable (page_steps len) st ms dst 0 len.

(** The loop of [write_bytes] over the bytes not yet copied. *)
Fixpoint write_bytes_loop (fuel : nat) (st : St) (ms : MemorySet) (dst copied : Z) (src : list Z)
    : St * MemorySet * result unit SysErrNo :=
  match fuel with
  | O => (st, ms, Ok tt)
  | S fuel' =>
      if bool_decide (0 < zlen src) then
        match checked_add dst copied with
        | None => (st, ms, Err EFAULT)
        | Some addr =>
            match area_index_containing (areas ms) addr with
            | None => (st, ms, Err EFAULT)
            | Some index =>
                let area := areas ms !!! index in
                let page_idx := (align_down addr - start_va area) / PAGE_SIZE in
                let page_off := addr mod PAGE_SIZE in
                let copy_len := Z.min (zlen src) (PAGE_SIZE - page_off) in
                match rs_lookup (area_resident area) page_idx with
                | None => (st, ms, Err EFAULT)
                | Some page =>
                    let st := store_frame st (rp_frame page) page_off (take (Z.to_nat copy_len) src) in
                    let ms :=
                      match area_backing area with
                      | FileBacked _ _ true =>
                          set_area ms index (area_set_resident_state area page_idx FileDirty).1
                      | _ => ms
                      end in
                    write_bytes_loop fuel' st ms dst (copied + copy_len) (drop (Z.to_nat copy_len) src)
                end
            end
        end
      else (st, ms, Ok tt)
  end.

(** [write_bytes] *)
Definition write_bytes (st : St) (ms : MemorySet) (dst : Z) (src : list Z)
    : St * MemorySet * result unit SysErrNo :=
  write_bytes_loop (page_steps (zlen src)) st ms dst 0 src.

(** ** Duplication *)

(** Copy the resident pages of an area, one new frame each. *)
Fixpoint copy_pages (st : St) (pt : PT) (area new_area : MapArea) (flags : Z)
    (pages : list (Z * ResidentPage)) : outcome (St * PT * MapArea * result unit SysErrNo) :=
  match pages with
  | [] => Ret (st, pt, new_area, Ok tt)
  | (idx, src) :: rest =>
      '(st, o) ←! new_frame st;
      match o with
      | None => Ret (st, pt, new_area, Err ENOMEM)
      | Some frame =>
          let st := copy_page st (rp_frame src) frame in
          let '(st, pt) :=
            if has_leaf_permission (area_flags area)
            then map_page st pt (page_va area idx) (ppn_addr (ft_ppn frame))
                   (effective_mapping_flags_for_page flags src)
            else (st, pt) in
          '(new_area, r) ←! area_insert_resident_page new_area idx frame Private;
          match r with
          | Err frame => st ←! drop_frame st frame; Ret (st, pt, new_area, Err EFAULT)
          | Ok _ => copy_pages st pt area new_area flags rest
          end
      end
  end.

(** The sharing branches of [fork_cow]: both sides refer to the same frames. *)
Definition share_area (st : St) (npt : PT) (area new_area : MapArea)
    : outcome (St * PT * MapArea * MapArea) :=
  let area := area_set_all_resident_state area Shared in
  st ←! clone_frames st (area_frames area);
  let new_area := area_clone_resident_from new_area area in
  let '(st, npt) := map_area_pages st npt new_area in
  Ret (st, npt, area, new_area).

(** The copy-on-write branch of [fork_cow]. *)
Definition cow_area (st : St) (pt npt : PT) (area new_area : MapArea)
    : outcome (St * PT * PT * MapArea * MapArea) :=
  let old_flags := area_flags area in
  let needs_parent_remap :=
    negb (flags_contains old_flags PTE_COW) ||
    existsb (λ p, negb (bool_decide (rp_state p = Cow))) (rs_iter (area_resident area)) in
  let area := area_set_flags (area_set_all_resident_state area Cow) (flags_union old_flags PTE_COW) in
  let '(st, pt) := if needs_parent_remap then remap_area_pages st pt area old_flags else (st, pt) in
  st ←! clone_frames st (area_frames area);
  let new_area := area_clone_resident_from (area_set_flags new_area (area_flags area)) area in
  let '(st, npt) := map_area_pages st npt new_area in
  Ret (st, pt, npt, area, new_area).

(** One area of [fork_cow]: the state, both page tables, the parent's area and the
    child's, or an error. *)
Definition fork_area (st : St) (pt npt : PT) (area : MapArea)
    : outcome (St * PT * PT * MapArea * MapArea * result unit SysErrNo) :=
  let new_area := area_with_backing (start_va area) (end_va area) (area_flags area)
                    (area_backing area) in
  if is_shared_mapping area then
    r ←! share_area st npt area new_area;
    let '(st, npt, area, new_area) := r in Ret (st, pt, npt, area, new_area, Ok tt)
  else if is_private_cow_candidate area then
    r ←! cow_area st pt npt area new_area;
    let '(st, pt, npt, area, new_area) := r in Ret (st, pt, npt, area, new_area, Ok tt)
  else if is_readonly_share_candidate area then
    r ←! share_area st npt area new_area;
    let '(st, npt, area, new_area) := r in Ret (st, pt, npt, area, new_area, Ok tt)
  else
    r ←! copy_pages st npt area new_area (area_flags area)
           (rs_iter_range (area_resident area) 0 (area_page_count area));
    let '(st, npt, new_area, r) := r in
    Ret (st, pt, npt, area, new_area, r).

(** The loop of [fork_cow]; [done_] and [child] are the areas already processed, in
    order.  On an error the child's areas are returned in the order they are dropped:
    the one being built, then those of the new memory set. *)
Fixpoint fork_loop (st : St) (pt npt : PT) (done_ child rest : list MapArea)
    : outcome (St * PT * PT * list MapArea * list MapArea * result unit SysErrNo) :=
  match rest with
  | [] => Ret (st, pt, npt, done_, child, Ok tt)
  | area :: rest =>
      r ←! fork_area st pt npt area;
      let '(st, pt, npt, area, new_area, r) := r in
      match r with
      | Err e => Ret (st, pt, npt, done_ ++ area :: rest, new_area :: child, Err e)
      | Ok _ => fork_loop st pt npt (done_ ++ [area]) (child ++ [new_area]) rest
      end
  end.

(** [fork_cow] into a fresh page table; on an error the half-built child is dropped. *)
Definition fork_cow (st : St) (ms : MemorySet) (new_pt : PT) (new_asid : Z)
    : outcome (St * MemorySet * result MemorySet SysErrNo) :=
  r ←! fork_loop st (page_table ms) new_pt [] [] (areas ms);
  let '(st, pt, npt, parent, child, r) := r in
  let ms := mkMS pt (address_space_id ms) parent in
  match r with
  | Err e =>
      st ←! drop_frames st (mjoin (area_frames <$> child));
      Ret (st, ms, Err e)
  | Ok _ =>
      l ←! coalesce_areas child;
      Ret (st, ms, Ok (mkMS npt new_asid l))
  end.

(** One area of [Clone::clone]: frames that cannot be allocated are skipped. *)
Fixpoint clone_copy_pages (st : St) (pt : PT) (area new_area : MapArea) (flags : Z)
    (pages : list (Z * ResidentPage)) : outcome (St * PT * MapArea) :=
  match pages with
  | [] => Ret (st, pt, new_area)
  | (idx, src) :: rest =>
      '(st, o) ←! new_frame st;
      match o with
      | None => clone_copy_pages st pt area new_area flags rest
      | Some frame =>
          let st := copy_page st (rp_frame src) frame in
          let '(st, pt) :=
            if has_leaf_permission (area_flags area)
            then map_page st pt (page_va area idx) (ppn_addr (ft_ppn frame))
                   (effective_mapping_flags_for_page flags src)
            else (st, pt) in
          '(new_area, r) ←! area_insert_resident_page new_area idx frame Private;
          st ←! match r with Err frame => drop_frame st frame | Ok _ => Ret st end;
          clone_copy_pages st pt area new_area flags rest
      end
  end.

Fixpoint clone_loop (st : St) (pt : PT) (child rest : list MapArea)
    : outcome (St * PT * list MapArea) :=
  match rest with
  | [] => Ret (st, pt, child)
  | area :: rest =>
      let new_flags := flags_difference (area_flags area) PTE_COW in
      let new_area := area_with_backing (start_va area) (end_va area) new_flags (area_backing area) in
      match area_backing area with
      | AnonymousShared | SharedMemory _ _ _ =>
          let new_area := area_set_all_resident_state new_area Shared in
          st ←! clone_frames st (area_frames area);
          let new_area := area_clone_resident_from new_area area in
          let '(st, pt) := map_area_pages st pt new_area in
          clone_loop st pt (child ++ [new_area]) rest
      | _ =>
          r ←! clone_copy_pages st pt area new_area new_flags
                 (rs_iter_range (area_resident area) 0 (area_page_count area));
          let '(st, pt, new_area) := r in
          clone_loop st pt (child ++ [new_area]) rest
      end
  end.

(** [Clone::clone] into a fresh page table. *)
Definition clone_memory_set (st : St) (ms : MemorySet) (new_pt : PT) (new_asid : Z)
    : outcome (St * MemorySet) :=
  r ←! clone_loop st new_pt [] (areas ms);
  let '(st, pt, child) := r in
  l ←! coalesce_areas child;
  Ret (st, mkMS pt new_asid l).

End memory_set.
Arguments St : clear implicits.
Arguments MemorySet : clear implicits.
