(* ===== verification/MsInv.v ===== *)
(** * Invariants of an address space

    The laws of the interfaces of [MemorySet.v], the map of resident pages an address
    space denotes, the coherence of the page table with the areas, the ownership of
    the frames, and the order of TLB shootdowns and frame drops.  The theorems about
    the operations of src/os/src/mm/memory_set.rs build on the lemmas of this file. *)

From S2P Require Import Prelude BTree Frame Flags FileDesc ResidentSet MapArea VmaList MemorySet.

(** ** Laws of the interfaces *)

(** The addresses three levels of 512 entries tell apart, without the root entries
    2 to 127, which hold the kernel's mappings ([PageTable::is_user_root_entry]). *)
Definition VA_LIMIT : Z := 2 ^ 39.

Definition user_va (va : Z) : Prop :=
  0 ≤ va < VA_LIMIT ∧ (va / 2 ^ 30 < 2 ∨ 128 ≤ va / 2 ^ 30).

Definition user_page (va : Z) : Prop := page_aligned va ∧ user_va va.

(** The addresses of frames a leaf can hold; a leaf for address 0 is not valid. *)
Definition frame_pa (pa : Z) : Prop := page_aligned pa ∧ 0 < pa < 2 ^ 56.

(** What the memory set relies on of the page table.  [pt_ext] is what a leaf reads
    back: the flags stored and the present, accessed and dirty bits. *)
Class PageTableLaws (PT : Type) `{PageTableOps PT} := {
  pt_ext : Z → Z;
  pt_ext_perms : ∀ mf g, g ∈ [MF_U; MF_R; MF_W; MF_X] →
    flags_contains (pt_ext mf) g = flags_contains mf g;
  pt_map_root : ∀ pt va pa mf, pt_root (pt_map pt va pa mf) = pt_root pt;
  pt_unmap_root : ∀ pt va, pt_root (pt_unmap pt va) = pt_root pt;
  pt_map_same : ∀ pt va pa mf, user_page va → frame_pa pa → 0 ≤ mf < 2 ^ 10 →
    pt_translate (pt_map pt va pa mf) va = if bool_decide (mf = 0) then None else Some (pa, pt_ext mf);
  pt_map_other : ∀ pt va pa mf va', user_page va → user_page va' → va ≠ va' →
    pt_translate (pt_map pt va pa mf) va' = pt_translate pt va';
  pt_unmap_same : ∀ pt va, user_page va → pt_translate (pt_unmap pt va) va = None;
  pt_unmap_other : ∀ pt va va', user_page va → user_page va' → va ≠ va' →
    pt_translate (pt_unmap pt va) va' = pt_translate pt va';
  pt_translate_offset : ∀ pt va, user_va va →
    pt_translate pt va = (λ leaf, (wrap (leaf.1 + va mod PAGE_SIZE), leaf.2)) <$> pt_translate pt (align_down va)
}.

(** The number of live trackers of a frame among [T]. *)
Definition owners (p : Z) (T : list Z) : Z := zlen (filter (λ x, x = p) T).

Definition MAX_OWNERS : Z := 2 ^ 32 - 1.

(** What the memory set relies on of the frame allocator.  [svc_inv f T] says that
    [T] lists the page numbers of all live trackers. *)
Class FrameServiceLaws (F : Type) `{FrameService F} := {
  svc_inv : F → list Z → Prop;
  svc_inv_perm : ∀ f T T', T ≡ₚ T' → svc_inv f T → svc_inv f T';
  svc_inv_pos : ∀ f T p, svc_inv f T → p ∈ T → 0 < p < 2 ^ 31;
  svc_alloc_ok : ∀ f T, svc_inv f T →
    ∃ f' o, svc_alloc f = Ret (f', o) ∧
      match o with
      | Some t => svc_inv f' (frame_no t :: T) ∧ frame_no t ∉ T ∧
          svc_page f' (frame_no t) = replicate (Z.to_nat PAGE_SIZE) 0 ∧
          (∀ q, q ≠ frame_no t → svc_page f' q = svc_page f q)
      | None => svc_inv f' T ∧ (∀ q, svc_page f' q = svc_page f q)
      end;
  svc_clone_ok : ∀ f T t, svc_inv f T → frame_no t ∈ T → owners (frame_no t) T < MAX_OWNERS →
    ∃ f', svc_clone f t = Ret (f', t) ∧ svc_inv f' (frame_no t :: T) ∧
          (∀ q, svc_page f' q = svc_page f q);
  svc_drop_ok : ∀ f T t, svc_inv f (frame_no t :: T) →
    ∃ f', svc_drop f t = Ret f' ∧ svc_inv f' T ∧ (∀ q, svc_page f' q = svc_page f q);
  svc_ref_count_ok : ∀ f T t, svc_inv f T → frame_no t ∈ T →
    svc_ref_count f t = Ret (owners (frame_no t) T);
  svc_page_len : ∀ f T p, svc_inv f T → zlen (svc_page f p) = PAGE_SIZE;
  svc_store_ok : ∀ f T p off bytes, svc_inv f T → 0 ≤ off → off + zlen bytes ≤ PAGE_SIZE →
    svc_inv (svc_store f p off bytes) T ∧
    svc_page (svc_store f p off bytes) p =
      take (Z.to_nat off) (svc_page f p) ++ bytes ++
      drop (Z.to_nat off + length bytes) (svc_page f p) ∧
    (∀ q, q ≠ p → svc_page (svc_store f p off bytes) q = svc_page f q)
}.

#[export] Instance svc_inv_proper {F} `{FrameServiceLaws F} (f : F) : Proper ((≡ₚ) ==> iff) (svc_inv f).
Proof. intros T T' HT. split; by apply svc_inv_perm. Qed.

(** [CLEAN_PAGE_CACHE_MAX_PAGES] of src/os/src/fs/ext4_vol.rs. *)
Definition FILE_CACHE_MAX : Z := 65536.

(** What the memory set relies on of files: reading a file neither takes nor returns
    frames and reads at most what was asked for; the clean page cache hands out shared
    owners of its frames.  [file_cache] are the trackers the cache itself holds, which only
    the operations of the cache change. *)
Class FileLayerLaws (F : Type) `{FrameServiceLaws F, FileLayer F} := {
  file_cache : F → list Z;
  file_read_ok : ∀ f T fd off len f' r, svc_inv f T → 0 ≤ len → file_read_at f fd off len = (f', r) →
    svc_inv f' T ∧ (∀ q, svc_page f' q = svc_page f q) ∧ (∀ bytes, r = Ok bytes → zlen bytes ≤ len);
  file_read_cache : ∀ f fd off len, file_cache (file_read_at f fd off len).1 = file_cache f;
  file_cache_bound : ∀ f X, svc_inv f (file_cache f ++ X) → zlen (file_cache f) ≤ FILE_CACHE_MAX;
  file_cache_alloc : ∀ f f' o, svc_alloc f = Ret (f', o) → file_cache f' = file_cache f;
  file_cache_clone : ∀ f t f' t', svc_clone f t = Ret (f', t') → file_cache f' = file_cache f;
  file_cache_drop : ∀ f t f', svc_drop f t = Ret f' → file_cache f' = file_cache f;
  file_cache_store : ∀ f p off bytes, file_cache (svc_store f p off bytes) = file_cache f;
  clean_cache_ok : ∀ f X ino off n ahead, svc_inv f (file_cache f ++ X) →
    ∃ f' r, clean_page_cache_frames f ino off n ahead = Ret (f', r) ∧
      (∀ q, q ∈ X → svc_page f' q = svc_page f q) ∧
      match r with
      | Ok frames => svc_inv f' ((frame_no <$> frames) ++ file_cache f' ++ X) ∧ zlen frames ≤ n
      | Err _ => svc_inv f' (file_cache f' ++ X)
      end
}.

(** Storing a whole page. *)
Lemma svc_store_page {F} `{FrameServiceLaws F} f T p bytes :
  svc_inv f T → zlen bytes = PAGE_SIZE →
  svc_inv (svc_store f p 0 bytes) T ∧ svc_page (svc_store f p 0 bytes) p = bytes ∧
  (∀ q, q ≠ p → svc_page (svc_store f p 0 bytes) q = svc_page f q).
Proof.
  intros Hi Hlen. pose proof (svc_page_len f T p Hi) as Hp.
  destruct (svc_store_ok f T p 0 bytes Hi) as (?&Hs&?); [lia|lia|]. split_and!; [done| |done].
  rewrite Hs. simpl. unfold zlen in *. rewrite drop_ge by lia. by rewrite app_nil_r.
Qed.

(** ** The map of resident pages *)

(** Page address to resident page. *)
Definition area_map (a : MapArea) : gmap Z ResidentPage :=
  kmap (λ i, start_va a + i * PAGE_SIZE) (rmap (area_resident a)).

Definition vma_map (l : list MapArea) : gmap Z ResidentPage :=
  foldr (λ a m, area_map a ∪ m) ∅ l.

#[export] Instance page_key_inj s : Inj (=) (=) (λ i, s + i * PAGE_SIZE).
Proof. intros i j. unfold PAGE_SIZE. lia. Qed.

Lemma area_map_lookup a va :
  area_wf a →
  area_map a !! va = if decide (page_aligned va) then area_page a va ≫= pv_page else None.
Proof.
  intros Hw. pose proof Hw as []. unfold area_map. apply option_eq. intros p.
  rewrite lookup_kmap_Some by apply _. split.
  - intros (i&->&Hi). pose proof (area_resident_bounds a i p Hw Hi) as Hb.
    assert (Hal : page_aligned (start_va a + i * PAGE_SIZE)) by auto with kernel.
    rewrite decide_True by done. unfold area_page_count, area_size in Hb.
    rewrite area_page_Some by (unfold page_aligned, PAGE_SIZE in *; lia). simpl.
    rewrite align_down_id by done. rewrite <-Hi. f_equal. unfold PAGE_SIZE. lia.
  - case_decide as Hal; [|done]. destruct (decide (start_va a ≤ va < end_va a)) as [Hin|Hin].
    + rewrite area_page_Some by done. simpl. rewrite align_down_id by done. intros Hp.
      eexists. split; [|exact Hp]. unfold page_aligned, PAGE_SIZE in *. lia.
    + by rewrite area_page_None.
Qed.

Lemma vma_map_lookup l va :
  Forall area_ok l → StronglySorted area_disjoint l →
  vma_map l !! va = if decide (page_aligned va) then vma_page l va ≫= pv_page else None.
Proof.
  induction l as [|a l IH]; intros Hok Hd; simpl.
  { rewrite lookup_empty. by case_decide. }
  apply Forall_cons in Hok as [[Ha _] Hok]. apply StronglySorted_inv in Hd as [Hd Hda].
  specialize (IH Hok Hd). apply option_eq. intros p. rewrite lookup_union_Some_raw.
  rewrite IH, (area_map_lookup a va Ha). case_decide; [|naive_solver].
  destruct (area_page a va) as [v|] eqn:E; [|naive_solver].
  assert (vma_page l va = None) as ->.
  { apply vma_page_None. assert (Hs : is_Some (area_page a va)) by (by eexists).
    apply area_page_inside in Hs. eapply Forall_impl; [exact Hda|]. intros b [|]; lia. }
  simpl. naive_solver.
Qed.

Lemma vma_map_equiv l l' :
  vmas_wf l → Forall area_ok l' → StronglySorted area_disjoint l' →
  (∀ va, vma_page l va ≡ vma_page l' va) → vma_map l = vma_map l'.
Proof.
  intros Hw Hok Hd Hv. apply map_eq. intros va.
  rewrite !vma_map_lookup; [|done|done|apply Hw|by apply vmas_wf_disjoint].
  case_decide; [|done]. destruct (Hv va) as [v w (_&_&Hp)|]; [|done]. done.
Qed.

(** ** Frames of maps and lists *)

Definition map_frames (m : gmap Z ResidentPage) : list FrameTracker :=
  rp_frame <$> (map_to_list m).*2.

Definition vma_frames (l : list MapArea) : list FrameTracker := mjoin (area_frames <$> l).

Lemma map_to_list_disjoint_union (m1 m2 : gmap Z ResidentPage) :
  m1 ##ₘ m2 → map_to_list (m1 ∪ m2) ≡ₚ map_to_list m1 ++ map_to_list m2.
Proof.
  intros Hd. apply NoDup_Permutation.
  - apply NoDup_map_to_list.
  - apply NoDup_app. split_and!; [apply NoDup_map_to_list| |apply NoDup_map_to_list].
    intros [k x] H1 H2. apply elem_of_map_to_list in H1, H2. by eapply map_disjoint_spec.
  - intros [k x]. rewrite elem_of_app, !elem_of_map_to_list. by rewrite lookup_union_Some.
Qed.

Lemma rs_iter_frames rs :
  rs_wf rs → rp_frame <$> rs_iter rs ≡ₚ map_frames (rmap rs).
Proof.
  intros [[Hs Ho] _]. unfold rs_iter, map_frames, rmap.
  induction (rs_runs rs) as [|[s ps] l IH]; [done|].
  apply StronglySorted_inv in Hs as [Hs Hg]. apply Forall_cons in Ho as [Ho Hol].
  cbn [rmap_runs foldr fst snd]. rewrite map_to_list_disjoint_union.
  - rewrite fmap_cons. cbn [concat]. rewrite !fmap_app.
    change (foldr _ ∅ l) with (rmap_runs l). apply Permutation_app; [|by apply IH].
    rewrite map_to_list_seqZ. rewrite snd_zip; [done|]. rewrite length_seqZ. lia.
  - change (foldr _ ∅ l) with (rmap_runs l). apply map_disjoint_spec. intros i x y Hx Hy.
    apply lookup_map_seqZ_Some in Hx as [Hi Hx]. apply lookup_lt_Some in Hx.
    assert (Hge : ∀ l' : bmap (list ResidentPage), Forall (run_gap (s, ps)) l' →
      rmap_runs l' !! i = Some y → s + zlen ps < i).
    { clear -Hx. intros l' Hl'. induction Hl' as [|[s' ps'] l' Hg' _ IH']; simpl; [done|].
      intros [Hy|[_ Hy]]%lookup_union_Some_raw; [|auto].
      apply lookup_map_seqZ_Some in Hy as [Hy _]. unfold run_gap in Hg'. simpl in Hg'. lia. }
    specialize (Hge l Hg Hy). unfold zlen in Hge. lia.
Qed.

(** The same argument for the pages themselves. *)
Lemma elem_of_rs_iter rs p : rs_wf rs → p ∈ rs_iter rs ↔ ∃ v, rmap rs !! v = Some p.
Proof.
  intros [Hw _]. unfold rs_iter, rmap. rewrite list_elem_of_In, in_concat.
  setoid_rewrite <-list_elem_of_In. split.
  - intros (ps&Hin&Hp). apply list_elem_of_fmap in Hin as ([s ps']&->&Hin). simpl in Hp.
    apply list_elem_of_lookup in Hp as [i Hi]. exists (s + Z.of_nat i). rewrite rmap_runs_Some by done.
    exists s, ps'. split; [done|]. apply lookup_map_seqZ_Some. split; [lia|].
    by replace (Z.to_nat (s + Z.of_nat i - s)) with i by lia.
  - intros (v&Hv). rewrite rmap_runs_Some in Hv by done. destruct Hv as (s&ps&Hin&Hp).
    apply lookup_map_seqZ_Some in Hp as [_ Hp].
    exists ps. split; [|by eapply list_elem_of_lookup_2]. apply list_elem_of_fmap. by exists (s, ps).
Qed.

Lemma vma_frames_map l :
  Forall area_ok l → StronglySorted area_disjoint l → vma_frames l ≡ₚ map_frames (vma_map l).
Proof.
  induction l as [|a l IH]; intros Hok Hd; [done|].
  apply Forall_cons in Hok as [[Ha Hb] Hok]. apply StronglySorted_inv in Hd as [Hd Hda].
  unfold vma_frames. rewrite fmap_cons. cbn [mjoin list_join vma_map foldr].
  change (mjoin (area_frames <$> l)) with (vma_frames l). change (foldr _ ∅ l) with (vma_map l).
  rewrite (IH Hok Hd). unfold map_frames. rewrite map_to_list_disjoint_union.
  - rewrite !fmap_app. apply Permutation_app; [|done]. unfold area_frames. rewrite rs_iter_frames by apply Ha.
    unfold map_frames, area_map. rewrite (map_to_list_kmap (λ i, start_va a + i * PAGE_SIZE)).
    by rewrite <-(list_fmap_compose _ snd (map_to_list _)).
  - apply map_disjoint_spec. intros va x y Hx Hy.
    rewrite area_map_lookup in Hx by done. rewrite vma_map_lookup in Hy by done.
    case_decide; [|done]. destruct (area_page a va) eqn:Ea; [|done].
    destruct (vma_page l va) eqn:El; [|done].
    assert (Hsa : is_Some (area_page a va)) by (by eexists). apply area_page_inside in Hsa.
    assert (Hsl : is_Some (vma_page l va)) by (by eexists). apply vma_page_is_Some in Hsl as (i&b&Hi&Hb').
    eapply Forall_lookup_1 in Hda; [|exact Hi]. destruct Hda; lia.
Qed.

(** Same view, same frames. *)
Lemma vma_frames_equiv l l' :
  vmas_wf l → Forall area_ok l' → StronglySorted area_disjoint l' →
  (∀ va, vma_page l va ≡ vma_page l' va) → vma_frames l ≡ₚ vma_frames l'.
Proof.
  intros Hw Hok Hd Hv. rewrite !vma_frames_map; [|done|done|apply Hw|by apply vmas_wf_disjoint].
  by rewrite (vma_map_equiv l l').
Qed.

(** ** Coherence of the page table *)

(** A leaf grants at most what the area and the page's state allow. *)
Definition leaf_perms (mf flags : Z) (page : ResidentPage) : Prop :=
  (flags_contains mf MF_R = true → flags_contains flags PTE_R = true) ∧
  (flags_contains mf MF_W = true → flags_contains flags PTE_W = true ∧ rp_state page ≠ Cow) ∧
  (flags_contains mf MF_X = true → flags_contains flags PTE_X = true) ∧
  (flags_contains mf MF_U = true → flags_contains flags PTE_U = true).

(** A valid leaf maps the resident frame of its page. *)
Definition leaf_ok (l : list MapArea) (va : Z) (leaf : Z * Z) : Prop :=
  ∃ v page, vma_page l va = Some v ∧ pv_page v = Some page ∧ leaf.1 = page_pa page ∧
    has_leaf_permission (pv_flags v) = true ∧ leaf_perms leaf.2 (pv_flags v) page.

Lemma leaf_ok_equiv l l' va leaf :
  vma_page l va ≡ vma_page l' va → leaf_ok l va leaf → leaf_ok l' va leaf.
Proof.
  intros Heq (v&page&Hv&Hp&Ha&Hl&Hpm). rewrite Hv in Heq. inversion Heq as [? w Hw Heq'|]; subst.
  destruct Hw as (Hf&_&Hpg). exists w, page. rewrite <-Hf, <-Hpg. done.
Qed.

Lemma effective_perms flags page :
  leaf_perms (effective_mapping_flags_for_page flags page) flags page.
Proof.
  unfold leaf_perms, effective_mapping_flags_for_page.
  destruct (difference_W_perms flags) as (D1&D2&D3&D4). case_bool_decide as Hc.
  - destruct (mapping_flags_perms (flags_difference flags PTE_W)) as (->&->&->&->).
    rewrite D1, D2, D3, D4. naive_solver.
  - destruct (mapping_flags_perms flags) as (->&->&->&->). naive_solver.
Qed.

Lemma leaf_perms_ext {PT} `{PageTableLaws PT} mf flags page :
  leaf_perms mf flags page → leaf_perms (pt_ext mf) flags page.
Proof.
  unfold leaf_perms. rewrite !pt_ext_perms; [done|..]; rewrite !elem_of_cons; auto.
Qed.

Section coherence.
Context {PT F : Type} `{HPT : PageTableOps PT, !PageTableLaws PT}.
Implicit Types (pt : PT) (st : St F) (l : list MapArea) (a : MapArea).

Definition coherent l pt : Prop :=
  ∀ va leaf, user_page va → pt_translate pt va = Some leaf → leaf_ok l va leaf.

Lemma coherent_equiv l l' pt :
  (∀ va, vma_page l va ≡ vma_page l' va) → coherent l pt → coherent l' pt.
Proof. intros Hv Hc va leaf Hu Ht. eapply leaf_ok_equiv; [apply Hv|by apply Hc]. Qed.

(** Storing good leaves keeps coherence. *)
Lemma coherent_map l pt va pa mf :
  user_page va → frame_pa pa → 0 ≤ mf < 2 ^ 10 → (mf ≠ 0 → leaf_ok l va (pa, pt_ext mf)) → coherent l pt →
  coherent l (pt_map pt va pa mf).
Proof.
  intros Hu Hpa Hmf Hl Hc va' leaf Hu' Ht. destruct (decide (va = va')) as [->|Hne].
  - rewrite pt_map_same in Ht by done. case_bool_decide; [done|]. simplify_eq. by apply Hl.
  - rewrite pt_map_other in Ht by done. by apply Hc.
Qed.

Lemma coherent_unmap l pt va : user_page va → coherent l pt → coherent l (pt_unmap pt va).
Proof.
  intros Hu Hc va' leaf Hu' Ht. destruct (decide (va = va')) as [->|Hne].
  - by rewrite pt_unmap_same in Ht.
  - rewrite pt_unmap_other in Ht by done. by apply Hc.
Qed.

(** ** Batches *)

(** The events between two states. *)
Definition events st st' (evs : list Event) : Prop :=
  st_frames st' = st_frames st ∧ st_current_root st' = st_current_root st ∧
  st_log st' = st_log st ++ evs.

Lemma events_refl st : events st st [].
Proof. unfold events. by rewrite app_nil_r. Qed.

Lemma events_emit st evs : events st (emit st evs) evs.
Proof. done. Qed.

Lemma events_trans st st' st'' e e' : events st st' e → events st' st'' e' → events st st'' (e ++ e').
Proof.
  intros (H1&H2&H3) (H1'&H2'&H3'). unfold events. rewrite H1', H2', H3', H3, app_assoc. done.
Qed.

Definition good_leaf l (p : Z * Z * Z) : Prop :=
  user_page p.1.1 ∧ frame_pa p.1.2 ∧ 0 ≤ p.2 < 2 ^ 10 ∧
  (p.2 ≠ 0 → leaf_ok l p.1.1 (p.1.2, pt_ext p.2)).

Lemma map_pages_ok l pt st pages :
  Forall (good_leaf l) pages →
  coherent l pt →
  let '(st', pt', n) := map_pages_without_flush st pt pages in
  coherent l pt' ∧ pt_root pt' = pt_root pt ∧ events st st' ((λ p, EvSet p.1.1) <$> pages) ∧
  n = zlen pages.
Proof.
  intros Hp. revert st pt. induction Hp as [|[[va pa] mf] pages (Hu&Hpa&Hmf&Hl) Hp IH]; intros st pt Hc; simpl.
  { split_and!; [done|done|apply events_refl|done]. }
  specialize (IH (emit st [EvSet va]) (pt_map pt va pa mf) (coherent_map l pt va pa mf Hu Hpa Hmf Hl Hc)).
  destruct (map_pages_without_flush _ _ pages) as [[st' pt'] n]. destruct IH as (?&Hr&He&Hn).
  split_and!; [done|by rewrite Hr, pt_map_root| |by rewrite zlen_cons, Hn].
  exact (events_trans _ _ _ [EvSet va] _ (events_emit st _) He).
Qed.

(** Where a batch of stores changes nothing. *)
Lemma map_pages_other pt st pages va :
  Forall (λ p, user_page p.1.1 ∧ p.1.1 ≠ va) pages → user_page va →
  pt_translate (map_pages_without_flush st pt pages).1.2 va = pt_translate pt va.
Proof.
  intros Hp Hu. revert st pt. induction Hp as [|[[va' pa] mf] pages [Hu' Hne] Hp IH]; intros st pt; [done|].
  simpl in Hu', Hne |- *. specialize (IH (emit st [EvSet va']) (pt_map pt va' pa mf)).
  destruct (map_pages_without_flush _ _ pages) as [[st' pt'] n]. simpl in IH |- *.
  rewrite IH. by apply pt_map_other.
Qed.

Lemma unmap_pages_ok pt st vas :
  Forall user_page vas →
  let '(st', pt') := unmap_pages st pt vas in
  pt_root pt' = pt_root pt ∧
  events st st' (mjoin ((λ va, [EvClear va; EvFlushVa va]) <$> vas)) ∧
  (∀ va, user_page va → pt_translate pt' va = if decide (va ∈ vas) then None else pt_translate pt va).
Proof.
  intros Hp. unfold unmap_pages. revert st pt. induction Hp as [|va vas Hu Hp IH]; intros st pt; cbn [foldl].
  { split_and!; [done|apply events_refl|]. intros va _. by rewrite decide_False by apply not_elem_of_nil. }
  specialize (IH (emit st [EvClear va; EvFlushVa va]) (pt_unmap pt va)). unfold unmap_page at 2.
  destruct (foldl _ _ vas) as [st' pt']. destruct IH as (Hr&He&Ht). split_and!.
  - by rewrite Hr, pt_unmap_root.
  - exact (events_trans _ _ _ [EvClear va; EvFlushVa va] _ (events_emit st _) He).
  - intros va' Hu'. rewrite Ht by done. destruct (decide (va' ∈ vas)) as [Hin|Hin].
    + by rewrite decide_True by (by right).
    + destruct (decide (va' = va)) as [->|Hne].
      * rewrite decide_True by (by left). by apply pt_unmap_same.
      * rewrite decide_False by (rewrite elem_of_cons; naive_solver). by apply pt_unmap_other.
Qed.

Lemma unmap_pages_without_flush_ok pt st vas :
  Forall user_page vas →
  let '(st', pt', n) := unmap_pages_without_flush st pt vas in
  pt_root pt' = pt_root pt ∧ 0 ≤ n ∧
  (∃ cleared, events st st' (EvClear <$> cleared) ∧ (n = 0 → cleared = [])) ∧
  (∀ va, user_page va → pt_translate pt' va = if decide (va ∈ vas) then None else pt_translate pt va).
Proof.
  intros Hp. revert st pt. induction Hp as [|va vas Hu Hp IH]; intros st pt; cbn [unmap_pages_without_flush].
  { split_and!; [done|done|exists []; split; [apply events_refl|done]|].
    intros va _. by rewrite decide_False by apply not_elem_of_nil. }
  destruct (pt_translate pt va) as [leaf|] eqn:E.
  - specialize (IH (emit st [EvClear va]) (pt_unmap pt va)).
    destruct (unmap_pages_without_flush _ _ vas) as [[st' pt'] n].
    destruct IH as (Hr&Hn&(cl&He&_)&Ht). split_and!; [by rewrite Hr, pt_unmap_root|lia| |].
    + exists (va :: cl). split; [|lia]. rewrite fmap_cons.
      exact (events_trans _ _ _ [EvClear va] _ (events_emit st _) He).
    + intros va' Hu'. rewrite Ht by done. destruct (decide (va' ∈ vas)) as [Hin|Hin].
      * by rewrite decide_True by (by right).
      * destruct (decide (va' = va)) as [->|Hne].
        -- rewrite decide_True by (by left). by apply pt_unmap_same.
        -- rewrite decide_False by (rewrite elem_of_cons; naive_solver). by apply pt_unmap_other.
  - specialize (IH st pt). destruct (unmap_pages_without_flush st pt vas) as [[st' pt'] n].
    destruct IH as (Hr&Hn&Hev&Ht). split_and!; [done|done|done|].
    intros va' Hu'. rewrite Ht by done. destruct (decide (va' ∈ vas)) as [Hin|Hin].
    + by rewrite decide_True by (by right).
    + destruct (decide (va' = va)) as [->|Hne].
      * by rewrite decide_True by (by left).
      * by rewrite decide_False by (rewrite elem_of_cons; naive_solver).
Qed.

End coherence.

(** ** The order of clears, shootdowns and drops *)

(** Leaves cleared since the last shootdown. *)
Definition pend_step (p : list Z) (e : Event) : list Z :=
  match e with
  | EvClear va => va :: p
  | EvShootdown _ => []
  | _ => p
  end.

Definition pend (p : list Z) (evs : list Event) : list Z := foldl pend_step p evs.

(** No tracker is dropped while a cleared leaf may still be cached by some CPU. *)
Fixpoint drops_ok (p : list Z) (evs : list Event) : Prop :=
  match evs with
  | [] => True
  | e :: rest => match e with EvDrop _ => p = [] | _ => True end ∧ drops_ok (pend_step p e) rest
  end.

Lemma pend_app p l1 l2 : pend p (l1 ++ l2) = pend (pend p l1) l2.
Proof. apply foldl_app. Qed.

Lemma drops_ok_app p l1 l2 : drops_ok p (l1 ++ l2) ↔ drops_ok p l1 ∧ drops_ok (pend p l1) l2.
Proof. revert p. induction l1 as [|e l1 IH]; intros p; simpl; [naive_solver|]. rewrite IH. naive_solver. Qed.

(** Events after which nothing is pending, with every drop in a safe place. *)
Definition settled (evs : list Event) : Prop := drops_ok [] evs ∧ pend [] evs = [].

Lemma settled_nil : settled [].
Proof. done. Qed.

Lemma settled_app l1 l2 : settled l1 → settled l2 → settled (l1 ++ l2).
Proof.
  intros [H1 P1] [H2 P2]. split.
  - apply drops_ok_app. by rewrite P1.
  - by rewrite pend_app, P1.
Qed.

(** Events that neither clear a leaf nor drop a frame. *)
Definition harmless (e : Event) : Prop :=
  match e with EvSet _ | EvFlushVa _ | EvFlushAll | EvShootdown _ => True | _ => False end.

Lemma settled_harmless evs : Forall harmless evs → settled evs.
Proof.
  intros H. split.
  - revert H. generalize ([] : list Z). intros p H. revert p.
    induction H as [|e evs He _ IH]; intros p; simpl; [done|]. split; [by destruct e|apply IH].
  - induction H as [|e evs He _ IH]; [done|]. simpl. by destruct e.
Qed.

Lemma settled_drops ps : settled (EvDrop <$> ps).
Proof. induction ps as [|p ps [IH1 IH2]]; [done|]. split; simpl; [split; [done|exact IH1]|exact IH2]. Qed.

Lemma drops_ok_no_drop p evs : Forall (λ e, ∀ q, e ≠ EvDrop q) evs → drops_ok p evs.
Proof.
  intros H. revert p. induction H as [|e evs He _ IH]; intros p; simpl; [done|].
  split; [|apply IH]. destruct e; try done. by destruct (He ppn).
Qed.

(** Clears followed by a shootdown. *)
Lemma settled_shootdown evs r :
  Forall (λ e, ∀ q, e ≠ EvDrop q) evs → settled (evs ++ [EvShootdown r]).
Proof.
  intros H. split.
  - apply drops_ok_app. split; [by apply drops_ok_no_drop|done].
  - by rewrite pend_app.
Qed.

(** ** Areas in range *)

Definition area_user (a : MapArea) : Prop := ∀ va, start_va a ≤ va < end_va a → user_va va.

Lemma area_user_bound a : area_wf a → area_user a → end_va a ≤ VA_LIMIT.
Proof. intros [] Hu. specialize (Hu (end_va a - 1)). unfold user_va in Hu. lia. Qed.

(** Frame numbers of the machine; the allocator only hands out such frames. *)
Definition good_page (p : ResidentPage) : Prop := 0 < frame_no (rp_frame p) < 2 ^ 31.

Definition area_good (a : MapArea) : Prop :=
  ∀ idx p, rmap (area_resident a) !! idx = Some p → good_page p.

Lemma good_page_pa p : good_page p → frame_pa (page_pa p).
Proof.
  unfold good_page, frame_pa, page_pa, ppn_addr, frame_no. intros H.
  rewrite wrap_small by (unfold is_usize, USIZE_MAX, PAGE_SIZE; lia).
  split; [apply page_aligned_mul|unfold PAGE_SIZE; lia].
Qed.

Lemma page_va_ok a idx :
  area_wf a → area_user a → 0 ≤ idx < area_page_count a →
  page_va a idx = start_va a + idx * PAGE_SIZE ∧ user_page (page_va a idx) ∧
  start_va a ≤ page_va a idx < end_va a.
Proof.
  intros Hwf Hl Hi. pose proof Hwf as []. pose proof (area_user_bound a Hwf Hl) as Hb'.
  unfold VA_LIMIT in Hb'. unfold area_page_count, area_size in Hi.
  assert (Hb : start_va a + idx * PAGE_SIZE < end_va a) by (unfold page_aligned, PAGE_SIZE in *; lia).
  assert (Hw : page_va a idx = start_va a + idx * PAGE_SIZE).
  { unfold page_va. apply wrap_small. unfold is_usize, USIZE_MAX, PAGE_SIZE in *. lia. }
  rewrite Hw. split_and!; [done|split; [auto with kernel|apply Hl]|..]; unfold PAGE_SIZE in *; lia.
Qed.

(** The addresses of the resident pages [s..e) of an area. *)
Definition resident_vas (a : MapArea) (s e : Z) : list Z :=
  (λ p, page_va a p.1) <$> rs_iter_range (area_resident a) s e.

Lemma elem_of_resident_vas a s e va :
  area_wf a → area_user a →
  va ∈ resident_vas a s e ↔
  ∃ idx p, s ≤ idx < e ∧ rmap (area_resident a) !! idx = Some p ∧
           va = start_va a + idx * PAGE_SIZE.
Proof.
  intros Hw Hl. unfold resident_vas. rewrite list_elem_of_fmap. split.
  - intros ([idx p]&->&Hin). apply elem_of_rs_iter_range in Hin as [Hi Hp]; [|apply Hw].
    exists idx, p. split_and!; [lia|lia|done|]. simpl.
    apply page_va_ok; [done|done|by eapply area_resident_bounds].
  - intros (idx&p&Hi&Hp&->). exists (idx, p). simpl. split.
    + symmetry. apply page_va_ok; [done|done|by eapply area_resident_bounds].
    + apply elem_of_rs_iter_range; [apply Hw|]. done.
Qed.

Lemma resident_vas_user a s e : area_wf a → area_user a → Forall user_page (resident_vas a s e).
Proof.
  intros Hw Hl. apply Forall_forall. intros va Hva.
  apply elem_of_resident_vas in Hva as (idx&p&Hi&Hp&->); [|done|done].
  destruct (page_va_ok a idx Hw Hl) as (<-&?&_); [by eapply area_resident_bounds|done].
Qed.

(** The page of an address inside an area. *)
Lemma area_page_at a va :
  area_wf a → page_aligned va → start_va a ≤ va < end_va a →
  ∃ idx, 0 ≤ idx < area_page_count a ∧ va = start_va a + idx * PAGE_SIZE ∧
    area_page a va = Some (mkView (area_flags a) (split_right (area_backing a) (va - start_va a))
                             (rmap (area_resident a) !! idx)).
Proof.
  intros [] Hal Hin. exists ((va - start_va a) / PAGE_SIZE).
  rewrite area_page_Some, align_down_id by done.
  unfold area_page_count, area_size, page_aligned, PAGE_SIZE in *. split_and!; [lia|lia|lia|done].
Qed.

(** An area is what the list says of its range. *)
Definition area_of (l : list MapArea) (a : MapArea) : Prop :=
  ∀ va, start_va a ≤ va < end_va a → vma_page l va ≡ area_page a va.

Lemma area_of_lookup l i a : vmas_wf l → l !! i = Some a → area_of l a.
Proof. intros Hw Hi va Hva. by rewrite (vma_page_at l i a va). Qed.

Section area_ops.
Context {PT F : Type} `{HPT : PageTableOps PT, !PageTableLaws PT}.
Implicit Types (pt : PT) (st : St F) (l : list MapArea) (a : MapArea).

(** The leaves the code stores for an area are good. *)
Lemma effective_mf_range flags page : 0 ≤ effective_mapping_flags_for_page flags page < 2 ^ 10.
Proof. unfold effective_mapping_flags_for_page. apply mapping_flags_range. Qed.

Lemma area_leaf_ok l a idx p :
  area_wf a → area_user a → area_good a → area_of l a → has_leaf_permission (area_flags a) = true →
  rmap (area_resident a) !! idx = Some p →
  good_leaf l (page_va a idx, page_pa p, effective_mapping_flags_for_page (area_flags a) p).
Proof.
  intros Hw Hl Hg Hof Hleaf Hp. pose proof (area_resident_bounds a idx p Hw Hp) as Hb.
  destruct (page_va_ok a idx Hw Hl Hb) as (Hva&Hu&Hin). split; [done|].
  split; [by apply good_page_pa, (Hg idx)|]. split; [apply effective_mf_range|]. intros _. simpl.
  destruct (area_page_at a (page_va a idx) Hw) as (idx'&_&Hva'&Hpg); [apply Hu|done|].
  assert (idx' = idx) as -> by (unfold PAGE_SIZE in *; lia).
  apply (leaf_ok_equiv [a]).
  - simpl. rewrite Hpg. rewrite <-Hpg. symmetry. by apply Hof.
  - eexists _, p. simpl. rewrite Hpg. split_and!; [done|done|done|done|].
    apply leaf_perms_ext. apply effective_perms.
Qed.

Lemma area_leaves_ok l a s e :
  area_wf a → area_user a → area_good a → area_of l a → has_leaf_permission (area_flags a) = true →
  Forall (good_leaf l) (area_leaves a (rs_iter_range (area_resident a) s e)).
Proof.
  intros Hw Hl Hg Hof Hleaf. apply Forall_forall. intros x Hx. unfold area_leaves in Hx.
  apply list_elem_of_fmap in Hx as ([idx p]&->&Hin).
  apply elem_of_rs_iter_range in Hin as [_ Hp]; [|apply Hw]. by apply area_leaf_ok.
Qed.

Lemma commit_batch_events pt st n :
  ∃ evs, events st (commit_page_table_batch st pt n) evs ∧ Forall harmless evs.
Proof.
  unfold commit_page_table_batch. repeat case_bool_decide.
  - exists []. split; [apply events_refl|done].
  - exists [EvFlushAll]. split; [apply events_emit|by repeat constructor].
  - exists []. split; [apply events_refl|done].
Qed.

Lemma map_area_pages_ok l pt st a :
  area_wf a → area_user a → area_good a → area_of l a → coherent l pt →
  let '(st', pt') := map_area_pages st pt a in
  coherent l pt' ∧ pt_root pt' = pt_root pt ∧
  ∃ evs, events st st' evs ∧ Forall harmless evs.
Proof.
  intros Hw Hl Hg Hof Hc. unfold map_area_pages.
  destruct (has_leaf_permission (area_flags a)) eqn:Hleaf; simpl.
  2:{ split_and!; [done|done|]. exists []. split; [apply events_refl|done]. }
  pose proof (map_pages_ok l pt st _ (area_leaves_ok l a 0 (area_page_count a) Hw Hl Hg Hof Hleaf) Hc) as H.
  destruct (map_pages_without_flush _ _ _) as [[st1 pt1] n]. destruct H as (?&?&He&_).
  destruct (commit_batch_events pt1 st1 n) as (evs&He'&Hh).
  split_and!; [done|done|]. eexists. split; [exact (events_trans _ _ _ _ _ He He')|].
  apply Forall_app. split; [|done]. apply Forall_fmap, Forall_true. by intros [[??]?].
Qed.

Lemma map_area_pages_other pt st a va :
  area_wf a → area_user a → user_page va → ¬ (start_va a ≤ va < end_va a) →
  pt_translate (map_area_pages st pt a).2 va = pt_translate pt va.
Proof.
  intros Hw Hl Hu Hout. unfold map_area_pages. destruct (has_leaf_permission _); simpl; [|done].
  pose proof (map_pages_other pt st
    (area_leaves a (rs_iter_range (area_resident a) 0 (area_page_count a))) va) as H.
  destruct (map_pages_without_flush _ _ _) as [[st1 pt1] n]. simpl in H |- *. apply H; [|done].
  apply Forall_forall. intros x Hx. unfold area_leaves in Hx.
  apply list_elem_of_fmap in Hx as ([idx p]&->&Hin). simpl.
  apply elem_of_rs_iter_range in Hin as [_ Hp]; [|apply Hw].
  destruct (page_va_ok a idx Hw Hl) as (_&?&Hin); [by eapply area_resident_bounds|].
  split; [done|]. intros Heq. by rewrite Heq in Hin.
Qed.

(** The valid leaves of an area are those of its resident pages. *)
Definition leaves_resident pt a : Prop :=
  ∀ va leaf, user_page va → start_va a ≤ va < end_va a → pt_translate pt va = Some leaf →
    has_leaf_permission (area_flags a) = true ∧ va ∈ resident_vas a 0 (area_page_count a).

Lemma coherent_leaves_resident l pt a :
  area_wf a → area_user a → area_of l a → coherent l pt → leaves_resident pt a.
Proof.
  intros Hw Hl Hof Hc va leaf Hu Hin Ht. pose proof (Hc va leaf Hu Ht) as Hlf.
  apply (leaf_ok_equiv l [a]) in Hlf.
  2:{ assert (vma_page [a] va = area_page a va) as -> by (simpl; by destruct (area_page a va)).
      by apply Hof. }
  destruct Hlf as (v&page&Hv&Hp&_&Hlp&_). simpl in Hv.
  destruct (area_page_at a va Hw) as (idx&Hi&Hva&Hpg); [apply Hu|done|]. rewrite Hpg in Hv.
  injection Hv as <-. simpl in Hp, Hlp. split; [done|].
  apply elem_of_resident_vas; [done|done|]. eauto.
Qed.

(** [unmap_area_pages] clears every leaf of the area and shoots it down. *)
Lemma unmap_area_pages_flags_ok pt st a flags :
  area_wf a → area_user a →
  (∀ va leaf, user_page va → start_va a ≤ va < end_va a → pt_translate pt va = Some leaf →
     has_leaf_permission flags = true ∧ va ∈ resident_vas a 0 (area_page_count a)) →
  let '(st', pt') := unmap_area_pages st pt a flags in
  pt_root pt' = pt_root pt ∧
  (∀ va, user_page va → pt_translate pt' va =
     if bool_decide (start_va a ≤ va < end_va a) then None else pt_translate pt va) ∧
  ∃ evs, events st st' evs ∧ settled evs.
Proof.
  intros Hw Hl Hres. unfold unmap_area_pages, unmap_area_pages_without_shootdown.
  change ((λ p, page_va a p.1) <$> rs_iter_range (area_resident a) 0 (area_page_count a))
    with (resident_vas a 0 (area_page_count a)).
  destruct (negb (has_leaf_permission flags) || negb (area_has_frames a)) eqn:Eskip.
  - rewrite ?Eskip. split_and!; [done| |exists []; split; [apply events_refl|apply settled_nil]].
    intros va Hu. case_bool_decide as Hin; [|done].
    destruct (pt_translate pt va) as [leaf|] eqn:Et; [|done]. exfalso.
    destruct (Hres va leaf Hu Hin Et) as [Hlp Hva]. rewrite Hlp in Eskip. simpl in Eskip.
    apply elem_of_resident_vas in Hva as (idx&p&_&Hp&_); [|done|done].
    unfold area_has_frames in Eskip. rewrite negb_involutive in Eskip.
    apply rs_is_empty_rmap in Eskip; [|apply Hw]. by rewrite Eskip in Hp.
  - pose proof (unmap_pages_ok pt st _ (resident_vas_user a 0 (area_page_count a) Hw Hl)) as H.
    destruct (unmap_pages _ _ _) as [st1 pt1]. destruct H as (Hr&He&Ht). rewrite ?Eskip.
    split_and!; [done| |].
    + intros va Hu. rewrite Ht by done. case_decide as Hin.
      * apply elem_of_resident_vas in Hin as (idx&p&_&Hp&->); [|done|done].
        destruct (page_va_ok a idx Hw Hl) as (<-&_&Hb); [by eapply area_resident_bounds|].
        by rewrite bool_decide_eq_true_2.
      * case_bool_decide as Hin'; [|done]. destruct (pt_translate pt va) as [leaf|] eqn:Et; [|done].
        by destruct (Hres va leaf Hu Hin' Et).
    + eexists. split; [exact (events_trans _ _ _ _ _ He (events_emit st1 _))|].
      apply settled_shootdown. apply Forall_forall. intros e Hin q ->.
      apply list_elem_of_join in Hin as (x&Hx&Hin). apply list_elem_of_fmap in Hin as (y&->&_).
      rewrite !elem_of_cons in Hx. destruct Hx as [?|[?|?%not_elem_of_nil]]; done.
Qed.

Lemma unmap_area_pages_ok pt st a :
  area_wf a → area_user a → leaves_resident pt a →
  let '(st', pt') := unmap_area_pages st pt a (area_flags a) in
  pt_root pt' = pt_root pt ∧
  (∀ va, user_page va → pt_translate pt' va =
     if bool_decide (start_va a ≤ va < end_va a) then None else pt_translate pt va) ∧
  ∃ evs, events st st' evs ∧ settled evs.
Proof. apply unmap_area_pages_flags_ok. Qed.

End area_ops.

(** ** Frames *)

Section frames.
Context {F : Type} `{HF : FrameService F, !FrameServiceLaws F}.
Implicit Types (st : St F).

(** The log grows by [evs]; frames may change. *)
Definition logged st st' (evs : list Event) : Prop :=
  st_current_root st' = st_current_root st ∧ st_log st' = st_log st ++ evs.

Lemma events_logged st st' evs : events st st' evs → logged st st' evs.
Proof. by intros (_&?&?). Qed.

Lemma logged_refl st : logged st st [].
Proof. unfold logged. by rewrite app_nil_r. Qed.

Lemma logged_trans st st' st'' e e' : logged st st' e → logged st' st'' e' → logged st st'' (e ++ e').
Proof. intros (H2&H3) (H2'&H3'). unfold logged. rewrite H2', H3', H3, app_assoc. done. Qed.

(** The same bytes in every frame. *)
Definition same_pages st st' : Prop :=
  ∀ q, svc_page (st_frames st') q = svc_page (st_frames st) q.

Lemma drop_frame_ok st t T :
  svc_inv (st_frames st) (frame_no t :: T) →
  ∃ st', drop_frame st t = Ret st' ∧ svc_inv (st_frames st') T ∧ same_pages st st' ∧
         logged st st' [EvDrop (frame_no t)].
Proof.
  intros Hi. destruct (svc_drop_ok _ _ _ Hi) as (f'&Hd&Hi'&Hp). unfold drop_frame. rewrite Hd.
  eexists. split; [reflexivity|]. split; [done|]. split; [exact Hp|done].
Qed.

Lemma drop_frames_ok st ts T :
  svc_inv (st_frames st) ((frame_no <$> ts) ++ T) →
  ∃ st', drop_frames st ts = Ret st' ∧ svc_inv (st_frames st') T ∧ same_pages st st' ∧
         logged st st' (EvDrop <$> (frame_no <$> ts)).
Proof.
  revert st. induction ts as [|t ts IH]; intros st Hi; simpl.
  { exists st. split_and!; [done|done|done|apply logged_refl]. }
  destruct (drop_frame_ok st t _ Hi) as (st1&->&Hi1&Hp1&Hl1).
  destruct (IH st1 Hi1) as (st2&->&Hi2&Hp2&Hl2). exists st2. split_and!; [done|done| |].
  - intros q. by rewrite Hp2, Hp1.
  - exact (logged_trans _ _ _ [EvDrop (frame_no t)] _ Hl1 Hl2).
Qed.

(** Cloning every tracker of a list adds the list to the live trackers. *)
Lemma clone_frames_ok st ts T :
  svc_inv (st_frames st) T → (∀ t, t ∈ ts → frame_no t ∈ T) →
  zlen T + zlen ts ≤ MAX_OWNERS →
  ∃ st', clone_frames st ts = Ret st' ∧ svc_inv (st_frames st') ((frame_no <$> ts) ++ T) ∧
         same_pages st st' ∧ logged st st' [].
Proof.
  revert st T. induction ts as [|t ts IH]; intros st T Hi Hin Hlen; simpl.
  { exists st. split_and!; [done|done|done|apply logged_refl]. }
  assert (Hown : owners (frame_no t) T ≤ zlen T).
  { unfold owners, zlen. pose proof (length_filter (λ x, x = frame_no t) T). lia. }
  rewrite zlen_cons in Hlen. pose proof (zlen_nonneg ts).
  destruct (svc_clone_ok _ _ t Hi) as (f'&Hc&Hi'&Hp'); [apply Hin; by left|lia|].
  unfold clone_frame. rewrite Hc.
  destruct (IH (set_frames st f') (frame_no t :: T)) as (st'&->&Hi2&Hp2&Hl2).
  - done.
  - intros t' Ht'. right. apply Hin. by right.
  - rewrite zlen_cons. lia.
  - exists st'. split_and!; [done| | |done].
    + eapply svc_inv_perm; [|exact Hi2]. by rewrite <-Permutation_middle.
    + intros q. rewrite Hp2. apply Hp'.
Qed.

End frames.

(** ** The invariant of an address space *)

Section invariant.
Context {PT F : Type} `{HPT : PageTableOps PT, !PageTableLaws PT,
                        HF : FrameService F, !FrameServiceLaws F}.

(** The frame numbers a list of areas owns. *)
Definition owned (l : list MapArea) : list Z := frame_no <$> vma_frames l.

(** [T] are the live trackers outside of the address space. *)
Record ms_inv (st : St F) (ms : MemorySet PT) (T : list Z) : Prop := {
  inv_vmas : vmas_wf (areas ms);
  inv_user : Forall area_user (areas ms);
  inv_coherent : coherent (areas ms) (page_table ms);
  inv_frames : svc_inv (st_frames st) (owned (areas ms) ++ T)
}.

Lemma owned_equiv l l' :
  vmas_wf l → Forall area_ok l' → StronglySorted area_disjoint l' →
  (∀ va, vma_page l va ≡ vma_page l' va) → owned l ≡ₚ owned l'.
Proof. intros. unfold owned. by rewrite (vma_frames_equiv l l'). Qed.

Lemma owned_cons a l : owned (a :: l) = (frame_no <$> area_frames a) ++ owned l.
Proof. unfold owned, vma_frames. rewrite fmap_cons. cbn [mjoin list_join]. by rewrite fmap_app. Qed.

(** All mapped addresses are low. *)
Definition view_user (l : list MapArea) : Prop := ∀ va, is_Some (vma_page l va) → user_va va.

Lemma areas_view_user l : Forall area_user l → view_user l.
Proof.
  intros Hl va Hva. apply vma_page_is_Some in Hva as (i&a&Hi&Ha).
  eapply Forall_lookup_1 in Hl; [|exact Hi]. by apply Hl.
Qed.

Lemma view_user_areas l : vmas_wf l → view_user l → Forall area_user l.
Proof.
  intros Hw Hv. apply Forall_lookup. intros i a Hi va Hva. apply Hv.
  apply vma_page_is_Some. by exists i, a.
Qed.

Lemma user_equiv l l' :
  vmas_wf l' → (∀ va, vma_page l' va ≡ vma_page l va) → Forall area_user l → Forall area_user l'.
Proof.
  intros Hw Hv Hl. apply view_user_areas; [done|]. intros va [v Hva]. apply (areas_view_user l Hl).
  specialize (Hv va). rewrite Hva in Hv. inversion Hv. by eexists.
Qed.

End invariant.
