(* ===== verification/Sv39.v ===== *)
(** * Sv39 page tables (src/patch/polyhal/src/pagetable/{mod,riscv64}.rs)

    The user part of a three-level page table as a tree: a root entry, if present, is a
    table of tables of 64-bit leaf entries.  Each table is a frame of its own, taken
    zeroed from the frame allocator when a walk first needs it, so two entries never
    share a table and an absent entry of a leaf table is the word 0.  The root entries
    2 to 127 are shared kernel entries and not part of the tree.

    [Sv39] is an instance of the interface [PageTableOps] the memory set is verified
    against, and the batch operations, which walk once per leaf table, are equivalent
    to one walk per page. *)

From S2P Require Import Prelude BTree Frame Flags FileDesc ResidentSet MapArea VmaList MemorySet MsInv.

(** ** Entries *)

Definition MF_P : Z := Z.shiftl 1 0.
Definition MF_A : Z := Z.shiftl 1 5.
Definition MF_D : Z := Z.shiftl 1 6.

(** [impl From<MappingFlags> for PTEFlags] *)
Definition pte_flags_of_mapping (flags : Z) : Z :=
  if bool_decide (flags = 0) then 0
  else
    let res := PTE_V in
    let res := if flags_contains flags MF_R then flags_union res (flags_union PTE_R PTE_A) else res in
    let res := if flags_contains flags MF_W then flags_union res (flags_union PTE_W PTE_D) else res in
    let res := if flags_contains flags MF_X then flags_union res (flags_union PTE_X PTE_A) else res in
    if flags_contains flags MF_U then flags_union res PTE_U else res.

(** [impl From<PTEFlags> for MappingFlags] *)
Definition mapping_of_pte_flags (value : Z) : Z :=
  let mf := 0 in
  let mf := if flags_contains value PTE_V then flags_union mf MF_P else mf in
  let mf := if flags_contains value PTE_R then flags_union mf MF_R else mf in
  let mf := if flags_contains value PTE_W then flags_union mf MF_W else mf in
  let mf := if flags_contains value PTE_X then flags_union mf MF_X else mf in
  let mf := if flags_contains value PTE_U then flags_union mf MF_U else mf in
  let mf := if flags_contains value PTE_A then flags_union mf MF_A else mf in
  if flags_contains value PTE_D then flags_union mf MF_D else mf.

(** [PTE::new_page], [PTE::address], [PTE::flags] and [PTE::is_valid] *)
Definition pte_new_page (paddr flags : Z) : Z := Z.lor (Z.shiftr paddr 2) flags.
Definition pte_address (w : Z) : Z :=
  wrap (Z.shiftl (Z.land (Z.shiftr w 10) 0x003FFFFFFFFFFFFF) 12).
Definition pte_flags (w : Z) : Z := Z.land w 0xff.
Definition pte_is_valid (w : Z) : bool :=
  flags_contains (pte_flags w) PTE_V && bool_decide (255 < w).

(** [VirtAddr::pn_index] *)
Definition pn_index (va n : Z) : Z := Z.land (Z.shiftr va (12 + 9 * n)) 0x1ff.

(** ** The tree *)

Notation LeafTable := (gmap Z Z).

Record Sv39 := mkSv39 {
  sv_root : Z;
  sv_tables : gmap Z (gmap Z LeafTable)
}.

(** The leaf table of a pair of upper indices. *)
Definition sv_leaf_table (pt : Sv39) (i2 i1 : Z) : option LeafTable :=
  sv_tables pt !! i2 ≫= λ t, t !! i1.

Definition sv_set_leaf_table (pt : Sv39) (i2 i1 : Z) (t : LeafTable) : Sv39 :=
  mkSv39 (sv_root pt) (<[i2 := <[i1 := t]> (default ∅ (sv_tables pt !! i2))]> (sv_tables pt)).

(** [leaf_table_for_mapping]: missing tables are created empty. *)
Definition leaf_table_for_mapping (pt : Sv39) (va : Z) : Sv39 * (Z * Z) :=
  let i2 := pn_index va 2 in
  let i1 := pn_index va 1 in
  match sv_leaf_table pt i2 i1 with
  | Some _ => (pt, (i2, i1))
  | None => (sv_set_leaf_table pt i2 i1 ∅, (i2, i1))
  end.

(** [leaf_table_for_unmapping] *)
Definition leaf_table_for_unmapping (pt : Sv39) (va : Z) : option (Z * Z) :=
  let i2 := pn_index va 2 in
  let i1 := pn_index va 1 in
  match sv_leaf_table pt i2 i1 with Some _ => Some (i2, i1) | None => None end.

(** A store into an entry of an existing leaf table. *)
Definition sv_store (pt : Sv39) (tbl : Z * Z) (i0 w : Z) : Sv39 :=
  sv_set_leaf_table pt tbl.1 tbl.2 (<[i0 := w]> (default ∅ (sv_leaf_table pt tbl.1 tbl.2))).

(** A load from one. *)
Definition sv_load (pt : Sv39) (tbl : Z * Z) (i0 : Z) : Z :=
  default 0 (default ∅ (sv_leaf_table pt tbl.1 tbl.2) !! i0).

(** [map_page], without the flush *)
Definition sv_map (pt : Sv39) (va pa flags : Z) : Sv39 :=
  let '(pt, tbl) := leaf_table_for_mapping pt va in
  sv_store pt tbl (pn_index va 0) (pte_new_page pa (pte_flags_of_mapping flags)).

(** [unmap_page], without the flush *)
Definition sv_unmap (pt : Sv39) (va : Z) : Sv39 :=
  match leaf_table_for_unmapping pt va with
  | None => pt
  | Some tbl => sv_store pt tbl (pn_index va 0) 0
  end.

(** [translate] *)
Definition sv_translate (pt : Sv39) (va : Z) : option (Z * Z) :=
  match leaf_table_for_unmapping pt va with
  | None => None
  | Some tbl =>
      let pte := sv_load pt tbl (pn_index va 0) in
      if pte_is_valid pte
      then Some (wrap (pte_address pte + Z.land va 0xfff), mapping_of_pte_flags (pte_flags pte))
      else None
  end.

#[export] Instance sv39_ops : PageTableOps Sv39 := {
  pt_root := sv_root;
  pt_map := sv_map;
  pt_unmap := sv_unmap;
  pt_translate := sv_translate
}.

(** The loop of [map_pages_without_flush]: the walk is repeated only when the 2 MiB
    region changes. *)
Fixpoint map_batch_loop (pt : Sv39) (leaf_tag : Z) (leaf_table : Z * Z) (pages : list (Z * Z * Z))
    : Sv39 * Z :=
  match pages with
  | [] => (pt, 0)
  | (va, pa, flags) :: rest =>
      let current_tag := Z.shiftr va 21 in
      let '(pt, tbl) :=
        if bool_decide (current_tag ≠ leaf_tag) then leaf_table_for_mapping pt va
        else (pt, leaf_table) in
      let pt := sv_store pt tbl (pn_index va 0) (pte_new_page pa (pte_flags_of_mapping flags)) in
      let '(pt, mapped) := map_batch_loop pt current_tag tbl rest in
      (pt, mapped + 1)
  end.

Definition sv_map_pages_without_flush (pt : Sv39) (pages : list (Z * Z * Z)) : Sv39 * Z :=
  map_batch_loop pt USIZE_MAX (0, 0) pages.

(** The loop of [unmap_pages_without_flush]. *)
Fixpoint unmap_batch_loop (pt : Sv39) (leaf_tag : Z) (leaf_table : option (Z * Z)) (vas : list Z)
    : Sv39 * Z :=
  match vas with
  | [] => (pt, 0)
  | va :: rest =>
      let current_tag := Z.shiftr va 21 in
      let tbl := if bool_decide (current_tag ≠ leaf_tag) then leaf_table_for_unmapping pt va
                 else leaf_table in
      match tbl with
      | None => unmap_batch_loop pt current_tag tbl rest
      | Some t =>
          if pte_is_valid (sv_load pt t (pn_index va 0)) then
            let '(pt, unmapped) :=
              unmap_batch_loop (sv_store pt t (pn_index va 0) 0) current_tag tbl rest in
            (pt, unmapped + 1)
          else unmap_batch_loop pt current_tag tbl rest
      end
  end.

Definition sv_unmap_pages_without_flush (pt : Sv39) (vas : list Z) : Sv39 * Z :=
  unmap_batch_loop pt USIZE_MAX None vas.

(** ** Entries encode and decode *)

Lemma lor_low k f n : 0 ≤ n → 0 ≤ f < 2 ^ n → Z.lor (Z.shiftl k n) f = k * 2 ^ n + f.
Proof.
  intros Hn Hf. rewrite <-Z.shiftl_mul_pow2 by lia.
  assert (Hz : Z.land (Z.shiftl k n) f = 0).
  { apply Z.bits_inj'. intros i Hi. rewrite Z.land_spec, Z.bits_0.
    destruct (decide (i < n)) as [Hin|Hin].
    - by rewrite Z.shiftl_spec_low.
    - rewrite <-(Z.mod_small f (2 ^ n)) by done. rewrite Z.mod_pow2_bits_high by lia. apply andb_false_r. }
  rewrite Z.add_nocarry_lxor by done. by rewrite Z.lxor_lor.
Qed.

Lemma land_low a n : 0 ≤ n → Z.land a (2 ^ n - 1) = a mod 2 ^ n.
Proof. intros Hn. rewrite <-Z.land_ones by done. by rewrite Z.ones_equiv. Qed.

Lemma pte_flags_range mf : 0 ≤ pte_flags_of_mapping mf < 256.
Proof.
  unfold pte_flags_of_mapping. case_bool_decide; [lia|].
  repeat match goal with |- context [flags_contains ?f ?g] => destruct (flags_contains f g) end;
    vm_compute; split; congruence.
Qed.

Lemma pte_flags_V mf : mf ≠ 0 → flags_contains (pte_flags_of_mapping mf) PTE_V = true.
Proof.
  intros H. unfold pte_flags_of_mapping. rewrite bool_decide_eq_false_2 by done.
  repeat match goal with |- context [flags_contains mf ?g] => destruct (flags_contains mf g) end;
    vm_compute; reflexivity.
Qed.

(** A leaf for a frame decodes to its address and flags. *)
Lemma pte_page_decode pa f :
  frame_pa pa → 0 ≤ f < 256 →
  pte_address (pte_new_page pa f) = pa ∧ pte_flags (pte_new_page pa f) = f ∧ 255 < pte_new_page pa f.
Proof.
  intros [Hal Hpa] Hf. unfold page_aligned, PAGE_SIZE in Hal.
  assert (Hw : pte_new_page pa f = (pa / 4096) * 2 ^ 10 + f).
  { unfold pte_new_page. rewrite <-lor_low by lia. f_equal.
    rewrite Z.shiftr_div_pow2, Z.shiftl_mul_pow2 by lia. lia. }
  rewrite Hw. split_and!; [| |lia].
  - unfold pte_address. rewrite Z.shiftr_div_pow2 by lia.
    change 0x003FFFFFFFFFFFFF with (2 ^ 54 - 1). rewrite land_low, Z.shiftl_mul_pow2 by lia.
    rewrite Z.mod_small by lia. rewrite wrap_small; [lia|]. unfold is_usize, USIZE_MAX. lia.
  - unfold pte_flags. change 0xff with (2 ^ 8 - 1). rewrite land_low by lia. lia.
Qed.

(** What a leaf reads back. *)
Definition sv_ext (mf : Z) : Z := mapping_of_pte_flags (pte_flags_of_mapping mf).

Lemma sv_ext_perms mf g :
  g ∈ [MF_U; MF_R; MF_W; MF_X] → flags_contains (sv_ext mf) g = flags_contains mf g.
Proof.
  intros Hg. unfold sv_ext, pte_flags_of_mapping. case_bool_decide as H0.
  { subst. rewrite !elem_of_cons in Hg. destruct Hg as [->|[->|[->|[->|?%not_elem_of_nil]]]]; done. }
  rewrite !elem_of_cons in Hg.
  destruct (flags_contains mf MF_R) eqn:ER, (flags_contains mf MF_W) eqn:EW,
    (flags_contains mf MF_X) eqn:EX, (flags_contains mf MF_U) eqn:EU;
  destruct Hg as [->|[->|[->|[->|?%not_elem_of_nil]]]]; try done;
  rewrite ?ER, ?EW, ?EX, ?EU; vm_compute; reflexivity.
Qed.

(** ** Walks *)

Lemma sv_leaf_table_set pt i2 i1 t j2 j1 :
  sv_leaf_table (sv_set_leaf_table pt i2 i1 t) j2 j1 =
  if decide ((i2, i1) = (j2, j1)) then Some t else sv_leaf_table pt j2 j1.
Proof.
  unfold sv_leaf_table, sv_set_leaf_table. simpl. destruct (decide (i2 = j2)) as [->|H2].
  - rewrite lookup_insert_eq. simpl. destruct (decide (i1 = j1)) as [->|H1].
    + by rewrite lookup_insert_eq, decide_True.
    + rewrite lookup_insert_ne, decide_False by congruence. by destruct (sv_tables pt !! j2).
  - by rewrite lookup_insert_ne, decide_False by congruence.
Qed.

Lemma sv_load_store pt t i w t' j :
  sv_load (sv_store pt t i w) t' j = if decide (t = t' ∧ i = j) then w else sv_load pt t' j.
Proof.
  destruct t as [a b], t' as [a' b']. unfold sv_load, sv_store. simpl. rewrite sv_leaf_table_set.
  destruct (decide ((a, b) = (a', b'))) as [Heq|Hne]; [|by rewrite decide_False by naive_solver].
  injection Heq as -> ->. simpl. destruct (decide (i = j)) as [->|Hij].
  - by rewrite lookup_insert_eq, decide_True.
  - by rewrite lookup_insert_ne, decide_False by naive_solver.
Qed.

(** The table indices of an address. *)
Definition sv_path (va : Z) : Z * Z := (pn_index va 2, pn_index va 1).

Lemma mapping_walk pt va :
  (leaf_table_for_mapping pt va).2 = sv_path va ∧
  (∀ t i, sv_load (leaf_table_for_mapping pt va).1 t i = sv_load pt t i) ∧
  sv_root (leaf_table_for_mapping pt va).1 = sv_root pt.
Proof.
  unfold leaf_table_for_mapping. fold (sv_path va).
  destruct (sv_leaf_table pt _ _) eqn:E; [done|]. split_and!; [done| |done].
  intros [a b] i. unfold sv_load. simpl. rewrite sv_leaf_table_set. case_decide as H; [|done].
  injection H as <- <-. by rewrite E.
Qed.

Lemma unmapping_walk pt va :
  leaf_table_for_unmapping pt va = Some (sv_path va) ∨
  leaf_table_for_unmapping pt va = None ∧ ∀ i, sv_load pt (sv_path va) i = 0.
Proof.
  unfold leaf_table_for_unmapping, sv_load, sv_path. simpl.
  destruct (sv_leaf_table pt _ _); [by left|right]. by split.
Qed.

(** An absent table reads as invalid entries. *)
Definition sv_decode (w off : Z) : option (Z * Z) :=
  if pte_is_valid w then Some (wrap (pte_address w + off), mapping_of_pte_flags (pte_flags w)) else None.

Lemma sv_translate_decode pt va :
  sv_translate pt va = sv_decode (sv_load pt (sv_path va) (pn_index va 0)) (Z.land va 0xfff).
Proof.
  unfold sv_translate. destruct (unmapping_walk pt va) as [->|[-> H]]; [done|]. by rewrite H.
Qed.

Lemma sv_map_load pt va pa mf t i :
  sv_load (sv_map pt va pa mf) t i =
  if decide (sv_path va = t ∧ pn_index va 0 = i)
  then pte_new_page pa (pte_flags_of_mapping mf) else sv_load pt t i.
Proof.
  unfold sv_map. destruct (mapping_walk pt va) as (H1&H2&_).
  destruct (leaf_table_for_mapping pt va) as [pt1 tbl]. simpl in *. subst tbl.
  rewrite sv_load_store. by case_decide.
Qed.

Lemma sv_unmap_load pt va t i :
  sv_load (sv_unmap pt va) t i =
  if decide (sv_path va = t ∧ pn_index va 0 = i) then 0 else sv_load pt t i.
Proof.
  unfold sv_unmap. destruct (unmapping_walk pt va) as [->|[-> H]].
  - rewrite sv_load_store. by case_decide.
  - case_decide as Heq; [|done]. destruct Heq as [<- <-]. apply H.
Qed.

Lemma pn_index_div va n : 0 ≤ n → pn_index va n = (va / 2 ^ (12 + 9 * n)) mod 512.
Proof.
  intros. unfold pn_index. rewrite Z.shiftr_div_pow2 by lia.
  change 0x1ff with (2 ^ 9 - 1). by rewrite land_low.
Qed.

(** Three levels of indices tell the pages of the address space apart. *)
Lemma sv_path_inj va va' :
  user_page va → user_page va' → sv_path va = sv_path va' → pn_index va 0 = pn_index va' 0 → va = va'.
Proof.
  intros [Ha [Hu _]] [Ha' [Hu' _]] [= H2 H1] H0. rewrite !pn_index_div in H0, H1, H2 by lia.
  unfold page_aligned, PAGE_SIZE, VA_LIMIT in *.
  change (2 ^ (12 + 9 * 2)) with 1073741824 in H2. change (2 ^ (12 + 9 * 1)) with 2097152 in H1.
  change (2 ^ (12 + 9 * 0)) with 4096 in H0. lia.
Qed.

Lemma page_offset_0 va : page_aligned va → Z.land va 0xfff = 0.
Proof. intros H. change 0xfff with (2 ^ 12 - 1). by rewrite land_low. Qed.

(** [Sv39] keeps what the memory set relies on. *)
#[export] Program Instance sv39_laws : PageTableLaws Sv39 := {
  pt_ext := sv_ext;
  pt_ext_perms := sv_ext_perms
}.
Next Obligation.
  intros. simpl. unfold sv_map. destruct (mapping_walk pt va) as (_&_&<-).
  by destruct (leaf_table_for_mapping pt va).
Qed.
Next Obligation. intros. simpl. unfold sv_unmap. by destruct (leaf_table_for_unmapping _ _). Qed.
Next Obligation.
  intros pt va pa mf [Hal Hu] Hpa Hmf. simpl. rewrite sv_translate_decode, sv_map_load, decide_True by done.
  rewrite page_offset_0 by done. unfold sv_decode, sv_ext, pte_is_valid.
  destruct (pte_page_decode pa (pte_flags_of_mapping mf) Hpa (pte_flags_range mf)) as (->&->&Hgt).
  rewrite (bool_decide_eq_true_2 (255 < _)), andb_true_r by done. case_bool_decide as H0.
  - by subst.
  - rewrite pte_flags_V by done. destruct Hpa. rewrite wrap_small, Z.add_0_r; [done|].
    unfold is_usize, USIZE_MAX. lia.
Qed.
Next Obligation.
  intros. simpl. rewrite !sv_translate_decode, sv_map_load, decide_False; [done|].
  intros [??]. by destruct (sv_path_inj va va').
Qed.
Next Obligation. intros pt va Hu. simpl. by rewrite sv_translate_decode, sv_unmap_load, decide_True. Qed.
Next Obligation.
  intros. simpl. rewrite !sv_translate_decode, sv_unmap_load, decide_False; [done|].
  intros [??]. by destruct (sv_path_inj va va').
Qed.

Next Obligation.
  intros pt va _. simpl. rewrite !sv_translate_decode.
  assert (Hidx : ∀ n, 0 ≤ n ≤ 2 → pn_index (align_down va) n = pn_index va n).
  { intros n Hn. unfold pn_index. f_equal. rewrite !Z.shiftr_div_pow2 by lia. unfold align_down, PAGE_SIZE.
    assert (n = 0 ∨ n = 1 ∨ n = 2) as [-> |[-> | ->]] by lia; simpl; lia. }
  unfold sv_path. rewrite !Hidx by lia. rewrite (page_offset_0 (align_down va)) by apply align_down_aligned.
  unfold sv_decode. destruct (pte_is_valid _); [|done]. cbn [fmap option_fmap option_map fst snd]. do 2 f_equal.
  change 0xfff with (Z.ones 12). rewrite Z.land_ones by lia. unfold wrap, PAGE_SIZE.
  rewrite Z.add_0_r, Zplus_mod_idemp_l. done.
Qed.

(** ** Batches *)

(** Addresses of one 2 MiB region share their leaf table. *)
Lemma sv_path_tag va va' : Z.shiftr va 21 = Z.shiftr va' 21 → sv_path va = sv_path va'.
Proof.
  intros H. unfold sv_path, pn_index. change (12 + 9 * 2) with (21 + 9). change (12 + 9 * 1) with 21.
  by rewrite <-!Z.shiftr_shiftr, H by lia.
Qed.

(** Once a walk made the table, the next walk finds it. *)
Lemma mapping_walk_store pt va va' i w :
  sv_path va = sv_path va' →
  leaf_table_for_mapping (sv_store pt (sv_path va) i w) va' = (sv_store pt (sv_path va) i w, sv_path va).
Proof.
  intros H. unfold leaf_table_for_mapping. fold (sv_path va'). rewrite <-H. unfold sv_path, sv_store. simpl.
  injection H as <- <-. rewrite sv_leaf_table_set. by rewrite decide_True.
Qed.

Lemma map_batch_loop_ok pages pt tag tbl :
  (∀ va, Z.shiftr va 21 = tag → leaf_table_for_mapping pt va = (pt, tbl)) →
  map_batch_loop pt tag tbl pages =
  (foldl (λ pt p, sv_map pt p.1.1 p.1.2 p.2) pt pages, zlen pages).
Proof.
  revert pt tag tbl. induction pages as [|[[va pa] mf] pages IH]; intros pt tag tbl Ht; [done|].
  cbn [map_batch_loop foldl fst snd]. unfold sv_map at 2.
  assert ((if bool_decide (Z.shiftr va 21 ≠ tag) then leaf_table_for_mapping pt va else (pt, tbl)) =
    leaf_table_for_mapping pt va) as ->.
  { case_bool_decide as H; [done|]. rewrite Ht; [done|]. by destruct (decide (Z.shiftr va 21 = tag)). }
  pose proof (mapping_walk pt va) as [H1 _]. destruct (leaf_table_for_mapping pt va) as [pt1 tbl1].
  simpl in H1. subst tbl1. rewrite IH; [by rewrite zlen_cons|].
  intros va' Hva'. apply mapping_walk_store. by apply sv_path_tag.
Qed.

Lemma unmap_walk_store pt va va' i w :
  leaf_table_for_unmapping pt va' = Some (sv_path va') →
  leaf_table_for_unmapping (sv_store pt (sv_path va) i w) va' = Some (sv_path va').
Proof.
  unfold leaf_table_for_unmapping. fold (sv_path va'). unfold sv_store. simpl. rewrite sv_leaf_table_set.
  case_decide; [done|]. done.
Qed.

Lemma unmap_batch_loop_ok vas pt tag tbl :
  (∀ va, Z.shiftr va 21 = tag → leaf_table_for_unmapping pt va = tbl) →
  unmap_batch_loop pt tag tbl vas =
  foldr (λ va k pt, if bool_decide (is_Some (sv_translate pt va))
                    then let '(pt, n) := k (sv_unmap pt va) in (pt, n + 1) else k pt) (λ pt, (pt, 0)) vas pt.
Proof.
  revert pt tag tbl. induction vas as [|va vas IH]; intros pt tag tbl Ht; [done|].
  cbn [unmap_batch_loop foldr].
  assert ((if bool_decide (Z.shiftr va 21 ≠ tag) then leaf_table_for_unmapping pt va else tbl) =
    leaf_table_for_unmapping pt va) as ->.
  { case_bool_decide as H; [done|]. rewrite Ht; [done|]. by destruct (decide (Z.shiftr va 21 = tag)). }
  assert (Hsame : ∀ va', Z.shiftr va' 21 = Z.shiftr va 21 →
    leaf_table_for_unmapping pt va' = leaf_table_for_unmapping pt va).
  { intros va' Hva'. pose proof (sv_path_tag va' va Hva') as Hp. injection Hp as H2 H1.
    unfold leaf_table_for_unmapping. by rewrite H2, H1. }
  rewrite sv_translate_decode. unfold sv_decode, sv_unmap.
  destruct (unmapping_walk pt va) as [Hs|[Hn H0]].
  - rewrite Hs. destruct (pte_is_valid _) eqn:Ev.
    + rewrite bool_decide_eq_true_2 by (by eexists). rewrite (IH _ (Z.shiftr va 21)); [done|].
      intros va' Hva'. rewrite (sv_path_tag va va') by done. apply unmap_walk_store.
      rewrite Hsame, Hs by done. by rewrite (sv_path_tag va va').
    + rewrite bool_decide_eq_false_2 by (by intros [??]). apply IH. intros va' Hva'. by rewrite Hsame.
  - rewrite Hn, H0. rewrite bool_decide_eq_false_2 by (by intros [??]). apply IH.
    intros va' Hva'. by rewrite Hsame.
Qed.

(** ** Theorems *)

Lemma usize_tag va : is_usize va → Z.shiftr va 21 ≠ USIZE_MAX.
Proof. unfold is_usize. intros H. rewrite Z.shiftr_div_pow2 by lia. unfold USIZE_MAX in *. lia. Qed.

Lemma map_pages_fold {F} (st : St F) pt pages :
  (map_pages_without_flush st pt pages).1.2 = foldl (λ pt p, sv_map pt p.1.1 p.1.2 p.2) pt pages ∧
  (map_pages_without_flush st pt pages).2 = zlen pages.
Proof.
  revert st pt. induction pages as [|[[va pa] mf] pages IH]; intros st pt; [done|].
  cbn [map_pages_without_flush foldl fst snd].
  destruct (IH (emit st [EvSet va]) (pt_map pt va pa mf)) as [H1 H2].
  destruct (map_pages_without_flush _ _ pages) as [[st' pt'] n]. simpl in H1, H2 |- *.
  by rewrite zlen_cons, H2.
Qed.

Lemma unmap_pages_fold {F} (st : St F) pt vas :
  ((unmap_pages_without_flush st pt vas).1.2, (unmap_pages_without_flush st pt vas).2) =
  foldr (λ va k pt, if bool_decide (is_Some (sv_translate pt va))
                    then let '(pt, n) := k (sv_unmap pt va) in (pt, n + 1) else k pt) (λ pt, (pt, 0)) vas pt.
Proof.
  revert st pt. induction vas as [|va vas IH]; intros st pt; [done|].
  cbn [unmap_pages_without_flush foldr]. simpl (pt_translate pt va).
  destruct (sv_translate pt va) as [leaf|] eqn:E.
  - rewrite bool_decide_eq_true_2 by (by eexists).
    rewrite <-(IH (emit st [EvClear va]) (sv_unmap pt va)). simpl (pt_unmap pt va).
    by destruct (unmap_pages_without_flush _ _ vas) as [[??]?].
  - rewrite bool_decide_eq_false_2 by (by intros [??]). apply IH.
Qed.

(** C38: The batch operations of the page table, which walk the tables once per 2 MiB
    region, do to every entry exactly what the page-at-a-time operations of the memory
    set's model do, and report the same number of written and of revoked leaves. *)
Theorem sv39_batches_equiv {F} (st : St F) pt pages vas :
  Forall (λ p, is_usize p.1.1) pages → Forall is_usize vas →
  sv_map_pages_without_flush pt pages =
    ((map_pages_without_flush st pt pages).1.2, (map_pages_without_flush st pt pages).2) ∧
  sv_unmap_pages_without_flush pt vas =
    ((unmap_pages_without_flush st pt vas).1.2, (unmap_pages_without_flush st pt vas).2).
Proof.
  intros Hp Hv. split.
  - destruct (map_pages_fold st pt pages) as [-> ->]. unfold sv_map_pages_without_flush.
    destruct Hp as [|[[va pa] mf] pages Hva _]; [done|]. simpl in Hva.
    cbn [map_batch_loop foldl fst snd]. rewrite bool_decide_eq_true_2 by (by apply usize_tag).
    unfold sv_map at 2. pose proof (mapping_walk pt va) as [H1 _].
    destruct (leaf_table_for_mapping pt va) as [pt1 tbl1]. simpl in H1. subst tbl1.
    rewrite map_batch_loop_ok; [by rewrite zlen_cons|].
    intros va' Hva'. apply mapping_walk_store. by apply sv_path_tag.
  - rewrite unmap_pages_fold. unfold sv_unmap_pages_without_flush.
    destruct Hv as [|va vas Hva _]; [done|].
    rewrite <-(unmap_batch_loop_ok (va :: vas) pt (Z.shiftr va 21) (leaf_table_for_unmapping pt va)).
    + cbn [unmap_batch_loop]. rewrite (bool_decide_eq_true_2 (_ ≠ USIZE_MAX)) by (by apply usize_tag).
      by rewrite (bool_decide_eq_false_2 (Z.shiftr va 21 ≠ Z.shiftr va 21)) by naive_solver.
    + intros va' Hva'. pose proof (sv_path_tag va' va Hva') as Hx. injection Hx as H2 H1.
      unfold leaf_table_for_unmapping. by rewrite H2, H1.
Qed.


Lemma user_page_check va :
  bool_decide (va mod PAGE_SIZE = 0 ∧ 0 ≤ va < VA_LIMIT ∧ (va / 2 ^ 30 < 2 ∨ 128 ≤ va / 2 ^ 30)) = true →
  user_page va.
Proof. intros (?&?&?)%bool_decide_eq_true_1. by split. Qed.

Lemma sv39_batches_equiv_witness :
  let pages := [(0x10000, 0x80001000, 6); (0x11000, 0x80002000, 6); (0x4000000000, 0x80003000, 6)] in
  sv_map_pages_without_flush (mkSv39 0x80000000 ∅) pages =
    ((map_pages_without_flush (mkSt tt 0 []) (mkSv39 0x80000000 ∅) pages).1.2, 3) ∧
  sv_translate (sv_map_pages_without_flush (mkSv39 0x80000000 ∅) pages).1 0x11000 = Some (0x80002000, 39).
Proof.
  split; [|vm_compute; reflexivity].
  apply (sv39_batches_equiv (mkSt tt 0 []) (mkSv39 0x80000000 ∅)
           [(0x10000, 0x80001000, 6); (0x11000, 0x80002000, 6); (0x4000000000, 0x80003000, 6)] []).
  - repeat constructor; unfold is_usize, USIZE_MAX; simpl; lia.
  - constructor.
Defined.

