(* ===== verification/MsInsert.v ===== *)
(** * Adding mappings

    [insert_framed_area_with_backing] and [insert_lazy_area_with_backing] of
    src/os/src/mm/memory_set.rs: the new area gets exactly its range, an eager area
    gets fresh zeroed frames and their translations, and when frames run out nothing is
    left behind. *)

From S2P Require Import Prelude BTree Frame Flags FileDesc ResidentSet MapArea VmaList MemorySet MsInv.

Notation zero_page := (replicate (Z.to_nat PAGE_SIZE) 0).

(** ** Frames of areas *)

Lemma elem_of_area_frames a t :
  area_wf a → t ∈ area_frames a ↔ ∃ v p, rmap (area_resident a) !! v = Some p ∧ t = rp_frame p.
Proof.
  intros Hw. unfold area_frames. rewrite rs_iter_frames by apply Hw. unfold map_frames.
  rewrite list_elem_of_fmap. setoid_rewrite list_elem_of_fmap. split.
  - intros (p&->&[v p']&->&Hin). apply elem_of_map_to_list in Hin. eauto.
  - intros (v&p&Hp&->). exists p. split; [done|]. exists (v, p). by rewrite elem_of_map_to_list.
Qed.

Lemma elem_of_owned_single a q :
  area_wf a → q ∈ owned [a] ↔ ∃ v p, rmap (area_resident a) !! v = Some p ∧ q = frame_no (rp_frame p).
Proof.
  intros Hw. unfold owned, vma_frames. rewrite fmap_cons. cbn [mjoin list_join fmap list_fmap].
  rewrite app_nil_r, list_elem_of_fmap. setoid_rewrite (elem_of_area_frames a _ Hw). naive_solver.
Qed.

(** Adding a page to a resident set adds its frame. *)
Lemma area_frames_insert a a' v p :
  area_wf a → area_wf a' → rmap (area_resident a) !! v = None →
  rmap (area_resident a') = <[v := p]> (rmap (area_resident a)) →
  area_frames a' ≡ₚ rp_frame p :: area_frames a.
Proof.
  intros Hw Hw' Hn Hm. unfold area_frames. rewrite !rs_iter_frames by (apply Hw || apply Hw').
  unfold map_frames. rewrite Hm, map_to_list_insert by done. done.
Qed.

Lemma area_page_set_resident a r va :
  start_va a ≤ va < end_va a → page_aligned va →
  area_page (area_set_resident a r) va =
  Some (mkView (area_flags a) (split_right (area_backing a) (va - start_va a))
          (rmap r !! ((va - start_va a) / PAGE_SIZE))).
Proof. intros Hin Hal. rewrite area_page_Some by done. simpl. by rewrite align_down_id. Qed.

Section insert.
Context {PT F : Type} `{HPT : PageTableOps PT, !PageTableLaws PT,
                        HF : FrameService F, !FrameServiceLaws F, HL : FileLayer F}.
Implicit Types (pt : PT) (st : St F) (ms : MemorySet PT) (l : list MapArea) (a : MapArea) (T : list Z).

(** The leaf an eager mapping stores for a resident page. *)
Definition eager_leaf (perm : Z) (p : ResidentPage) : option (Z * Z) :=
  if bool_decide (effective_mapping_flags perm = 0) then None
  else Some (page_pa p, pt_ext (effective_mapping_flags perm)).

(** The loop has filled the pages [0..i) of the new area [a]. *)
Record filled (st0 st : St F) pt0 pt (l : list MapArea) (T : list Z) (perm i : Z) a0 a : Prop := {
  fr_ok : area_ok a;
  fr_shape : start_va a = start_va a0 ∧ end_va a = end_va a0 ∧ area_flags a = area_flags a0 ∧
             area_backing a = area_backing a0;
  fr_len : rs_len (area_resident a) = i;
  fr_dom : ∀ v, is_Some (rmap (area_resident a) !! v) ↔ 0 ≤ v < i;
  fr_page : ∀ v p, rmap (area_resident a) !! v = Some p →
    rp_state p = Private ∧ frame_no (rp_frame p) ∉ owned l ++ T ∧
    svc_page (st_frames st) (frame_no (rp_frame p)) = zero_page ∧
    pt_translate pt (start_va a0 + v * PAGE_SIZE) = eager_leaf perm p;
  fr_absent : ∀ va, user_page va → start_va a0 + i * PAGE_SIZE ≤ va < end_va a0 → pt_translate pt va = None;
  fr_out : ∀ va, user_page va → ¬ (start_va a0 ≤ va < end_va a0) → pt_translate pt va = pt_translate pt0 va;
  fr_inv : svc_inv (st_frames st) (owned [a] ++ owned l ++ T);
  fr_nodup : NoDup (owned [a]);
  fr_same : ∀ q, q ∈ owned l ++ T → svc_page (st_frames st) q = svc_page (st_frames st0) q;
  fr_log : ∃ evs, logged st0 st evs ∧ Forall harmless evs
}.

Lemma effective_range perm : 0 ≤ effective_mapping_flags perm < 2 ^ 10.
Proof. apply mapping_flags_range. Qed.

(** One iteration, when a frame is available. *)
Lemma filled_step st0 st pt0 pt l T perm i a0 a f' t :
  filled st0 st pt0 pt l T perm i a0 a → area_user a0 → 0 ≤ i < area_page_count a0 →
  svc_inv f' (frame_no t :: owned [a] ++ owned l ++ T) → frame_no t ∉ owned [a] ++ owned l ++ T →
  svc_page f' (frame_no t) = zero_page →
  (∀ q, q ≠ frame_no t → svc_page f' q = svc_page (st_frames st) q) →
  ∃ a', area_append_resident a t = Ret (a', Ok tt) ∧
    let va := start_va a0 + i * PAGE_SIZE in
    filled st0 (emit (set_frames st f') [EvSet va; EvFlushVa va]) pt0
      (pt_map pt va (ppn_addr (ft_ppn t)) (effective_mapping_flags perm)) l T perm (i + 1) a0 a'.
Proof.
  intros [[Hw Hb] (Hs&He&Hfl&Hbk) Hlen Hdom Hpage Habs Hout Hinv Hnd Hsame (evs&Hlog&Hharm)] Hu Hi Hinv' Hnew Hz Hoth.
  assert (Hcnt : area_page_count a = area_page_count a0) by (unfold area_page_count, area_size; congruence).
  assert (Hua : area_user a) by (intros va Hva; apply Hu; lia).
  destruct (page_va_ok a i Hw Hua) as (Hva&Hup&Hin); [lia|]. rewrite Hva, Hs in Hup, Hin.
  assert (Hnone : rmap (area_resident a) !! i = None).
  { destruct (rmap (area_resident a) !! i) eqn:E; [|done]. assert (0 ≤ i < i); [|lia].
    apply Hdom. rewrite E. by eexists. }
  assert (Hpc : i < USIZE_MAX).
  { destruct Hw. unfold area_page_count, area_size, PAGE_SIZE in *. lia. }
  unfold area_append_resident, rs_insert. rewrite Hlen, rs_lookup_rmap, Hnone by apply Hw.
  destruct (rs_insert_page_ok (area_resident a) i (resident_page_new t)) as (rs'&->&Hw'&Hm);
    [apply Hw|lia|done|]. simpl.
  assert (Hwa : area_wf (area_set_resident a rs')).
  { apply area_wf_set_resident; [done|done|]. intros v p. rewrite Hm. intros [[<- _]|[_ Hp]]%lookup_insert_Some; [lia|].
    by apply (area_resident_bounds a v p). }
  assert (Hfr : owned [area_set_resident a rs'] ≡ₚ frame_no t :: owned [a]).
  { rewrite !owned_cons. rewrite (area_frames_insert a _ i (resident_page_new t)) by done. done. }
  assert (Htpa : frame_pa (ppn_addr (ft_ppn t))).
  { apply (good_page_pa (resident_page_new t)). eapply svc_inv_pos; [exact Hinv'|by left]. }
  eexists. split; [reflexivity|]. split; simpl.
  - by split.
  - done.
  - rewrite rs_len_size, Hm, map_size_insert_None by done. rewrite rs_len_size in Hlen by apply Hw. lia.
  - intros v. rewrite Hm, lookup_insert_is_Some, Hdom. destruct (decide (i = v)); lia.
  - intros v p. rewrite Hm. intros [[<- <-]|[Hne Hp]]%lookup_insert_Some.
    + split_and!; [done| |done|].
      * intros Hx. apply Hnew. rewrite elem_of_app. by right.
      * by rewrite pt_map_same by (done || apply effective_range).
    + destruct (Hpage v p Hp) as (?&?&?&Ht). split_and!; [done|done| |].
      * rewrite Hoth; [done|]. intros Heq. apply Hnew. rewrite elem_of_app. left.
        apply elem_of_owned_single; [done|]. exists v, p. done.
      * rewrite pt_map_other; [done|done| |unfold PAGE_SIZE; lia].
        destruct (page_va_ok a v Hw Hua) as (Hva'&Hup'&_); [by eapply area_resident_bounds|].
        by rewrite Hva', Hs in Hup'.
  - intros va Hv Hr. rewrite pt_map_other; [|done|done|unfold PAGE_SIZE in *; lia].
    apply Habs; [done|]. unfold PAGE_SIZE in *. lia.
  - intros va Hv Hr. rewrite pt_map_other; [by apply Hout|done|done|]. intros <-. apply Hr. lia.
  - eapply svc_inv_perm; [|exact Hinv']. by rewrite Hfr.
  - rewrite Hfr. apply NoDup_cons. split; [|done]. intros Hx. apply Hnew. rewrite elem_of_app. by left.
  - intros q Hq. rewrite Hoth; [by apply Hsame|]. intros ->. apply Hnew. rewrite elem_of_app. by right.
  - eexists. split; [eapply logged_trans; [exact Hlog|done]|]. apply Forall_app. split; [done|by repeat constructor].
Qed.

(** What is left when the frames run out: nothing of the new area. *)
Definition rolled_back (st0 st : St F) pt0 pt (l : list MapArea) (T : list Z) a0 : Prop :=
  svc_inv (st_frames st) (owned l ++ T) ∧
  (∀ va, user_page va → pt_translate pt va =
     if bool_decide (start_va a0 ≤ va < end_va a0) then None else pt_translate pt0 va) ∧
  (∀ q, q ∈ owned l ++ T → svc_page (st_frames st) q = svc_page (st_frames st0) q) ∧
  ∃ evs, logged st0 st evs.

Lemma vpn_va_ok a0 svpn k :
  area_wf a0 → area_user a0 → start_va a0 = svpn * PAGE_SIZE → 0 ≤ k < area_page_count a0 →
  wrap ((svpn + k) * PAGE_SIZE) = start_va a0 + k * PAGE_SIZE ∧ user_page (start_va a0 + k * PAGE_SIZE) ∧
  start_va a0 ≤ start_va a0 + k * PAGE_SIZE < end_va a0.
Proof.
  intros Hw Hu Hs Hk. destruct (page_va_ok a0 k Hw Hu Hk) as (Hva&Hup&Hin). rewrite <-Hva.
  split_and!; [|done|lia|lia]. unfold page_va. f_equal. lia.
Qed.

Lemma filled_abort st0 st pt0 pt l T perm i a0 a f' svpn :
  filled st0 st pt0 pt l T perm i a0 a → area_ok a0 → area_user a0 → start_va a0 = svpn * PAGE_SIZE →
  0 ≤ i < area_page_count a0 →
  svc_inv f' (owned [a] ++ owned l ++ T) → (∀ q, svc_page f' q = svc_page (st_frames st) q) →
  let '(st1, pt1) := unmap_pages (set_frames st f') pt
    ((λ v, wrap (v * PAGE_SIZE)) <$> seqZ svpn (svpn + i - svpn)) in
  ∃ st2, drop_frames st1 (area_frames a) = Ret st2 ∧ rolled_back st0 st2 pt0 pt1 l T a0.
Proof.
  intros [_ _ _ Hdom Hpage Habs Hout _ _ Hsame (evs&Hlog&Hharm)] [Hw0 _] Hu Hs Hi Hinv Hpg.
  set (vas := (λ v, wrap (v * PAGE_SIZE)) <$> seqZ svpn (svpn + i - svpn)).
  assert (Hvas : ∀ va, va ∈ vas ↔ ∃ k, 0 ≤ k < i ∧ va = start_va a0 + k * PAGE_SIZE).
  { intros va. unfold vas. rewrite list_elem_of_fmap. split.
    - intros (v&->&Hv). apply elem_of_seqZ in Hv. exists (v - svpn). split; [lia|].
      destruct (vpn_va_ok a0 svpn (v - svpn)) as (<-&_); [done|done|done|lia|]. f_equal. lia.
    - intros (k&Hk&->). exists (svpn + k). rewrite elem_of_seqZ. split; [|lia].
      symmetry. apply vpn_va_ok; [done|done|done|lia]. }
  pose proof (unmap_pages_ok pt (set_frames st f') vas) as Hun.
  destruct (unmap_pages (set_frames st f') pt vas) as [st1 pt1]. destruct Hun as (_&He&Ht).
  { apply Forall_forall. intros va (k&Hk&->)%Hvas. apply (vpn_va_ok a0 svpn k); [done|done|done|lia]. }
  pose proof He as (Hf1&_&_). simpl in Hf1.
  destruct (drop_frames_ok st1 (area_frames a) (owned l ++ T)) as (st2&Hd&Hi2&Hp2&Hl2).
  { rewrite Hf1. rewrite owned_cons, <-app_assoc in Hinv. exact Hinv. }
  exists st2. split; [done|]. split_and!; [done| | |].
  - intros va Hva. rewrite Ht by done. case_decide as Hin.
    + apply Hvas in Hin as (k&Hk&->).
      destruct (vpn_va_ok a0 svpn k) as (_&_&?); [done|done|done|lia|]. by rewrite bool_decide_eq_true_2 by lia.
    + case_bool_decide as Hr; [|by apply Hout].
      destruct (area_page_at a0 va Hw0) as (idx&Hidx&Hva'&_); [apply Hva|done|].
      apply Habs; [done|]. destruct (decide (idx < i)); [|unfold PAGE_SIZE in *; lia].
      destruct Hin. apply Hvas. exists idx. split; [lia|done].
  - intros q Hq. rewrite Hp2. rewrite Hf1, Hpg. by apply Hsame.
  - eexists. eapply logged_trans; [exact Hlog|]. eapply logged_trans; [|exact Hl2].
    apply events_logged in He. exact He.
Qed.

Lemma framed_loop_ok st0 pt0 l T perm a0 svpn n st pt a :
  area_ok a0 → area_user a0 → start_va a0 = svpn * PAGE_SIZE → has_leaf_permission perm = true →
  let i := area_page_count a0 - Z.of_nat n in 0 ≤ i →
  filled st0 st pt0 pt l T perm i a0 a →
  ∃ st' pt' r, framed_loop st pt a perm svpn (seqZ (svpn + i) (Z.of_nat n)) = Ret (st', pt', r) ∧
    match r with
    | Ok a' => filled st0 st' pt0 pt' l T perm (area_page_count a0) a0 a'
    | Err e => e = ENOMEM ∧ rolled_back st0 st' pt0 pt' l T a0
    end.
Proof.
  intros Ha0 Hu Hs Hleaf. revert st pt a. induction n as [|n IH]; intros st pt a i Hi Hf.
  { subst i. eexists _, _, _. split; [reflexivity|]. simpl in Hf. by rewrite Z.sub_0_r in Hf. }
  rewrite seqZ_cons by lia. cbn [framed_loop]. unfold new_frame.
  destruct (svc_alloc_ok _ _ (fr_inv _ _ _ _ _ _ _ _ _ _ Hf)) as (f'&o&->&Ho). destruct o as [t|].
  - destruct Ho as (Hi'&Hnew&Hz&Hoth). rewrite Hleaf. unfold map_page.
    destruct (vpn_va_ok a0 svpn i (proj1 Ha0) Hu Hs) as (Hva&_&_); [lia|]. rewrite Hva.
    destruct (filled_step st0 st pt0 pt l T perm i a0 a f' t) as (a'&->&Hf'); [done|done|lia|done..|].
    simpl in Hf'. replace (Z.succ (svpn + i)) with (svpn + (area_page_count a0 - Z.of_nat n)) by lia.
    replace (Z.pred (Z.of_nat (S n))) with (Z.of_nat n) by lia. apply IH; [lia|].
    by replace (area_page_count a0 - Z.of_nat n) with (i + 1) by lia.
  - destruct Ho as (Hi'&Hoth).
    pose proof (filled_abort st0 st pt0 pt l T perm i a0 a f' svpn Hf Ha0 Hu Hs) as Hab.
    destruct (unmap_pages _ _ _) as [st1 pt1]. destruct Hab as (st2&->&Hrb); [lia|done|done|].
    eexists _, _, _. split; [reflexivity|]. done.
Qed.

(** ** Adding the area *)

Lemma no_overlap l s e b :
  vmas_wf l → s < e → range_overlaps l s e = false → b ∈ l → end_va b ≤ s ∨ e ≤ start_va b.
Proof.
  intros Hw Hse Hno Hb. destruct (decide (end_va b ≤ s ∨ e ≤ start_va b)) as [|Hx]; [done|].
  exfalso. apply list_elem_of_lookup in Hb as [i Hi]. pose proof (area_ok_lt b (vmas_area_ok l i b Hw Hi)).
  assert (range_overlaps l s e = true); [|congruence]. apply range_overlaps_ok; [done|].
  exists (Z.max s (start_va b)). split; [lia|]. apply vma_page_is_Some. exists i, b. split; [done|lia].
Qed.

Lemma push_area_ok ms a :
  vmas_wf (areas ms) → area_ok a → range_overlaps (areas ms) (start_va a) (end_va a) = false →
  ∃ l', push_area ms a = Ret (set_areas ms l') ∧ vmas_wf l' ∧
    (∀ va, vma_page l' va ≡
       if bool_decide (start_va a ≤ va < end_va a) then area_page a va else vma_page (areas ms) va) ∧
    owned l' ≡ₚ owned [a] ++ owned (areas ms).
Proof.
  intros Hw Ha Hno. pose proof (area_ok_lt a Ha) as Hlt.
  assert (Hd : StronglySorted area_disjoint (areas ms ++ [a])).
  { apply StronglySorted_app. split_and!; [|by apply vmas_wf_disjoint|by repeat constructor].
    intros b x Hb ->%list_elem_of_singleton. unfold area_disjoint.
    destruct (no_overlap _ _ _ b Hw (proj2 Hlt) Hno Hb); lia. }
  assert (Hok : Forall area_ok (areas ms ++ [a])).
  { apply Forall_app. split; [apply Hw|by constructor]. }
  destruct (coalesce_areas_ok (areas ms ++ [a]) Hok Hd) as (l'&Hl&Hw'&_&Hv).
  unfold push_area. rewrite Hl. exists l'. split_and!; [done|done| |].
  - intros va. rewrite (Hv va), vma_page_app. simpl. case_bool_decide as Hin.
    + assert (vma_page (areas ms) va = None) as ->; [|by destruct (area_page a va)].
      apply vma_page_None, Forall_forall. intros b Hb.
      destruct (no_overlap _ _ _ b Hw (proj2 Hlt) Hno Hb); lia.
    + rewrite area_page_None by done. by destruct (vma_page (areas ms) va).
  - rewrite (owned_equiv l' (areas ms ++ [a])) by done. unfold owned, vma_frames.
    rewrite fmap_app, join_app, fmap_app. by rewrite Permutation_app_comm.
Qed.

(** The page an eager mapping provides at [va]. *)
Definition eager_page st pt (l : list MapArea) (T : list Z) (perm va : Z) (o : option ResidentPage) : Prop :=
  if has_leaf_permission perm then
    ∃ p, o = Some p ∧ frame_no (rp_frame p) ∉ owned l ++ T ∧
      svc_page (st_frames st) (frame_no (rp_frame p)) = zero_page ∧
      (page_aligned va → pt_translate pt va = eager_leaf perm p)
  else o = None ∧ (page_aligned va → pt_translate pt va = None).

(** The state of the pages of a new area. *)
Definition settle_state a : MapArea :=
  if is_shared_mapping a then area_set_all_resident_state a Shared else a.

Lemma settle_state_ok a :
  area_ok a →
  area_ok (settle_state a) ∧ start_va (settle_state a) = start_va a ∧ end_va (settle_state a) = end_va a ∧
  area_flags (settle_state a) = area_flags a ∧ area_backing (settle_state a) = area_backing a ∧
  owned [settle_state a] ≡ₚ owned [a] ∧
  ∃ g, (∀ p, rp_frame (g p) = rp_frame p) ∧ (∀ p, rp_state p ≠ Cow → rp_state (g p) ≠ Cow) ∧
    rmap (area_resident (settle_state a)) = g <$> rmap (area_resident a).
Proof.
  intros [Hw Hb]. unfold settle_state. destruct (is_shared_mapping a).
  2:{ split; [by split|]. repeat (split; [done|]). exists id. by rewrite map_fmap_id. }
  unfold area_set_all_resident_state.
  assert (Hw' : area_wf (area_set_resident a (rs_map_pages (resident_page_set_state Shared) (area_resident a)))).
  { apply area_wf_set_resident; [done|apply rs_wf_map_pages, Hw|]. intros v p. rewrite rmap_map_pages, lookup_fmap.
    intros (p'&Hp&_)%fmap_Some. by apply (area_resident_bounds a v p'). }
  split; [by split|]. do 4 (split; [done|]). split.
  - rewrite !owned_cons. apply Permutation_app; [|done]. unfold area_frames.
    rewrite !rs_iter_frames by (apply Hw || apply Hw'). unfold map_frames. simpl.
    rewrite rmap_map_pages, map_to_list_fmap. rewrite <-!list_fmap_compose. done.
  - exists (resident_page_set_state Shared). split_and!; [done|done|]. apply rmap_map_pages.
Qed.

(** The empty area the loop starts from. *)
Lemma filled_start st ms T perm a0 :
  ms_inv st ms T → area_ok a0 → area_resident a0 = rs_new →
  range_overlaps (areas ms) (start_va a0) (end_va a0) = false →
  filled st st (page_table ms) (page_table ms) (areas ms) T perm 0 a0 a0.
Proof.
  intros [Hw Hu Hc Hf] Ha Hres Hno. pose proof (area_ok_lt a0 Ha).
  assert (Hem : rmap (area_resident a0) = ∅) by (by rewrite Hres, rmap_new). split.
  - done.
  - done.
  - rewrite Hres. done.
  - intros v. rewrite Hem, lookup_empty. split; [by intros [??]|lia].
  - intros v p. by rewrite Hem.
  - intros va Hva Hr. destruct (pt_translate _ va) as [leaf|] eqn:Et; [|done].
    destruct (Hc va leaf Hva Et) as (v&?&Hv&_).
    assert (range_overlaps (areas ms) (start_va a0) (end_va a0) = true); [|congruence].
    apply range_overlaps_ok; [done|]. exists va. split; [lia|]. rewrite Hv. by eexists.
  - done.
  - rewrite owned_cons. unfold area_frames. rewrite Hres. exact Hf.
  - rewrite owned_cons. unfold area_frames. rewrite Hres. constructor.
  - done.
  - exists []. split; [apply logged_refl|constructor].
Qed.

Lemma effective_perms_plain flags page :
  rp_state page ≠ Cow → leaf_perms (effective_mapping_flags flags) flags page.
Proof.
  intros Hs. unfold leaf_perms, effective_mapping_flags.
  destruct (difference_W_perms flags) as (D1&D2&D3&D4). destruct (flags_contains flags PTE_COW).
  - destruct (mapping_flags_perms (flags_difference flags PTE_W)) as (->&->&->&->).
    rewrite D1, D2, D3, D4. naive_solver.
  - destruct (mapping_flags_perms flags) as (->&->&->&->). naive_solver.
Qed.

(** A filled area, with its final page state, among the others. *)
Lemma filled_finish st0 st ms pt l' T perm a0 a :
  ms_inv st0 ms T → area_user a0 → area_flags a0 = perm → has_leaf_permission perm = true →
  filled st0 st (page_table ms) pt (areas ms) T perm (area_page_count a0) a0 a →
  vmas_wf l' → owned l' ≡ₚ owned [settle_state a] ++ owned (areas ms) →
  (∀ va, vma_page l' va ≡ if bool_decide (start_va a0 ≤ va < end_va a0)
     then area_page (settle_state a) va else vma_page (areas ms) va) →
  ms_inv st (mkMS pt (address_space_id ms) l') T ∧
  ∀ va, user_va va → start_va a0 ≤ va < end_va a0 →
    ∃ o, vma_page l' va ≡ Some (mkView perm (split_right (area_backing a0) (align_down va - start_va a0)) o) ∧
         eager_page st pt (areas ms) T perm va o.
Proof.
  intros [Hw Hu Hc Hf] Hua Hfl Hleaf Hfill Hw' Hown Hview.
  destruct (settle_state_ok a (fr_ok _ _ _ _ _ _ _ _ _ _ Hfill)) as ([Hws Hbs]&E1&E2&E3&E4&E5&g&Hg1&Hg2&Hg3).
  destruct Hfill as [[Hwa Hba] (S1&S2&S3&S4) Hlen Hdom Hpage _ Hout Hinv _ _ _].
  assert (Hat : ∀ va, start_va a0 ≤ va < end_va a0 → ∃ p, let v := (align_down va - start_va a0) / PAGE_SIZE in
    rmap (area_resident a) !! v = Some p ∧ start_va a0 + v * PAGE_SIZE = align_down va ∧
    area_page (settle_state a) va =
      Some (mkView perm (split_right (area_backing a0) (align_down va - start_va a0)) (Some (g p)))).
  { intros va Hva. rewrite area_page_Some by (rewrite E1, E2, S1, S2; done).
    rewrite E1, E3, E4, S1, S3, S4, Hfl, Hg3, lookup_fmap.
    destruct Hwa as [? ? ? Has Hae _ _]. rewrite S1 in Has. rewrite S2 in Hae.
    destruct (page_index_bound _ _ _ Has Hae Hva) as (H1&H2&H3&H4).
    destruct (proj2 (Hdom ((align_down va - start_va a0) / PAGE_SIZE))) as [p Hp].
    { unfold area_page_count, area_size, PAGE_SIZE in *. lia. }
    exists p. rewrite Hp. split_and!; [done| |done]. unfold page_aligned, PAGE_SIZE in *. lia. }
  split.
  - split; simpl; [done| | |].
    + apply view_user_areas; [done|]. intros va [v Hv]. specialize (Hview va). rewrite Hv in Hview.
      case_bool_decide as Hin; [by apply Hua|]. apply (areas_view_user _ Hu). inversion Hview. by eexists.
    + intros va leaf Hva Ht. pose proof (Hview va) as Hv. case_bool_decide as Hin.
      * destruct (Hat va Hin) as (p&Hp&Hr&Hpg). rewrite Hpg in Hv.
        destruct (Hpage _ p Hp) as (Hst&_&_&Htr). rewrite Hr, align_down_id in Htr by apply Hva.
        rewrite Ht in Htr. unfold eager_leaf in Htr. case_bool_decide; [done|]. injection Htr as ->.
        apply (leaf_ok_equiv [settle_state a]); [simpl; by rewrite Hpg|].
        eexists _, (g p). simpl. rewrite Hpg. split_and!; [done|done| |done|].
        -- unfold page_pa. by rewrite Hg1.
        -- apply leaf_perms_ext, effective_perms_plain. apply Hg2. by rewrite Hst.
      * rewrite Hout in Ht by done. eapply leaf_ok_equiv; [symmetry; exact Hv|by apply Hc].
    + eapply svc_inv_perm; [|exact Hinv]. by rewrite Hown, E5, <-app_assoc.
  - intros va Hva Hin. destruct (Hat va Hin) as (p&Hp&Hr&Hpg). specialize (Hview va).
    rewrite bool_decide_eq_true_2, Hpg in Hview by done. exists (Some (g p)). split; [done|].
    destruct (Hpage _ p Hp) as (Hst&Hn&Hz&Htr). unfold eager_page. rewrite Hleaf. exists (g p).
    rewrite Hg1. split_and!; [done|done|done|]. intros Hal. rewrite Hr, align_down_id in Htr by done.
    rewrite Htr. unfold eager_leaf, page_pa. by rewrite Hg1.
Qed.

(** ** Theorems *)

(** Frames that were not in use before have a single owner. *)
Definition fresh_frames ms ms' (T : list Z) : Prop :=
  ∀ q, q ∈ owned (areas ms') → q ∈ owned (areas ms) ++ T ∨ owners q (owned (areas ms') ++ T) = 1.

Lemma owners_app q (T T' : list Z) : owners q (T ++ T') = owners q T + owners q T'.
Proof. unfold owners. by rewrite filter_app, zlen_app. Qed.

Lemma owners_0 q (T : list Z) : q ∉ T → owners q T = 0.
Proof.
  intros Hq. unfold owners. destruct (filter (λ x, x = q) T) as [|x xs] eqn:E; [done|].
  assert (x ∈ filter (λ x, x = q) T) as [-> ?]%list_elem_of_filter; [|done]. rewrite E. by left.
Qed.

Lemma owners_nodup q (T : list Z) : NoDup T → q ∈ T → owners q T = 1.
Proof.
  induction 1 as [|x T Hx Hnd IH]; intros Hq; [by apply elem_of_nil in Hq|].
  unfold owners in *. rewrite filter_cons. apply elem_of_cons in Hq as [->|Hq].
  - rewrite decide_True, zlen_cons by done. fold (owners x T). by rewrite owners_0.
  - rewrite decide_False by (by intros ->). by apply IH.
Qed.

#[export] Instance owners_perm q : Proper ((≡ₚ) ==> eq) (owners q).
Proof. intros T T' HT. unfold owners, zlen. by rewrite HT. Qed.

Lemma fresh_frames_new ms ms' T new :
  owned (areas ms') ≡ₚ new ++ owned (areas ms) → NoDup new →
  (∀ q, q ∈ new → q ∉ owned (areas ms) ++ T) → fresh_frames ms ms' T.
Proof.
  intros Hown Hnd Hnew q Hq. rewrite Hown, elem_of_app in Hq. destruct Hq as [Hq|Hq].
  - right. rewrite Hown, <-app_assoc, owners_app, owners_nodup, owners_0 by auto. lia.
  - left. rewrite elem_of_app. by left.
Qed.

Lemma fresh_frames_same ms ms' T : areas ms' = areas ms → fresh_frames ms ms' T.
Proof. intros E q. rewrite E, elem_of_app. tauto. Qed.

(** The page range of a request. *)
Definition request_ok ms (s e : Z) (backing : MapAreaBacking) (start end_ : Z) : Prop :=
  start = align_down s ∧ align_up e = Some end_ ∧ start < end_ ∧ 0 ≤ s ∧
  (∀ va, start ≤ va < end_ → user_va va) ∧ range_overlaps (areas ms) start end_ = false ∧
  backing_ok backing.

Lemma request_area ms s e backing start end_ perm :
  request_ok ms s e backing start end_ → area_ok (area_with_backing start end_ perm backing).
Proof.
  intros (->&Hup&Hlt&H0&_&_&Hb). apply align_up_Some in Hup as (Hal&_&Hm). split; [|done].
  apply area_wf_with_backing; [|done|auto with kernel|done]. unfold align_down, PAGE_SIZE in *. lia.
Qed.

(** A new area without frames. *)
Lemma push_empty st ms T s e perm backing start end_ :
  ms_inv st ms T → request_ok ms s e backing start end_ →
  ∃ l', push_area ms (area_with_backing start end_ perm backing) = Ret (set_areas ms l') ∧
    ms_inv st (set_areas ms l') T ∧
    (∀ va, vma_page l' va ≡ if bool_decide (start ≤ va < end_)
       then Some (mkView perm (split_right backing (align_down va - start)) None)
       else vma_page (areas ms) va) ∧
    (∀ va, user_page va → start ≤ va < end_ → pt_translate (page_table ms) va = None) ∧
    owned l' ≡ₚ owned (areas ms).
Proof.
  intros Hi Hr. pose proof (request_area ms s e backing start end_ perm Hr) as Ha.
  destruct Hr as (_&_&Hlt&_&Hu&Hno&_). pose proof Hi as [Hw Hus Hc Hf].
  destruct (push_area_ok ms _ Hw Ha Hno) as (l'&Hp&Hw'&Hv&Ho). simpl in Hv.
  assert (Hv' : ∀ va, vma_page l' va ≡ if bool_decide (start ≤ va < end_)
     then Some (mkView perm (split_right backing (align_down va - start)) None) else vma_page (areas ms) va).
  { intros va. rewrite (Hv va). case_bool_decide as Hin; [|done]. rewrite area_page_Some by done. simpl.
    rewrite rmap_new. by rewrite lookup_empty. }
  assert (Hnone : ∀ va, user_page va → start ≤ va < end_ → pt_translate (page_table ms) va = None).
  { intros va Hva Hin. apply (fr_absent _ _ _ _ _ _ perm 0 (area_with_backing start end_ perm backing) _
      (filled_start st ms T perm _ Hi Ha eq_refl Hno)); [done|simpl; lia]. }
  rewrite owned_cons in Ho. exists l'. split_and!; [done| |done|done|done]. split; simpl.
  - done.
  - apply view_user_areas; [done|]. intros va [v Hva]. specialize (Hv va). rewrite Hva in Hv.
    case_bool_decide as Hin; [by apply Hu|]. apply (areas_view_user _ Hus). inversion Hv. by eexists.
  - intros va leaf Hva Ht. specialize (Hv va). case_bool_decide as Hin.
    + by rewrite Hnone in Ht.
    + eapply leaf_ok_equiv; [symmetry; exact Hv|by apply Hc].
  - eapply svc_inv_perm; [|exact Hf]. by rewrite Ho.
Qed.

Lemma insert_framed_area_strong st ms T s e perm backing start end_ :
  ms_inv st ms T → request_ok ms s e backing start end_ →
  ∃ st' ms' r, insert_framed_area_with_backing st ms s e perm backing = Ret (st', ms', r) ∧
    ms_inv st' ms' T ∧
    (∀ q, q ∈ owned (areas ms) ++ T → svc_page (st_frames st') q = svc_page (st_frames st) q) ∧
    (∀ va, ¬ (start ≤ va < end_) → vma_page (areas ms') va ≡ vma_page (areas ms) va ∧
       (user_page va → pt_translate (page_table ms') va = pt_translate (page_table ms) va)) ∧
    fresh_frames ms ms' T ∧
    match r with
    | Ok _ => ∀ va, start ≤ va < end_ →
        ∃ o, vma_page (areas ms') va ≡
               Some (mkView perm (split_right backing (align_down va - start)) o) ∧
             eager_page st' (page_table ms') (areas ms) T perm va o
    | Err err => err = ENOMEM ∧ areas ms' = areas ms ∧
        ∀ va, user_page va → pt_translate (page_table ms') va = pt_translate (page_table ms) va
    end.
Proof.
  intros Hi Hr. pose proof (request_area ms s e backing start end_ perm Hr) as Ha.
  pose proof Hr as (->&Hup&Hlt&H0&Hu&Hno&Hb). unfold insert_framed_area_with_backing. rewrite Hup.
  set (start := align_down s) in *. rewrite bool_decide_eq_false_2 by lia.
  destruct (push_empty st ms T s e perm backing start end_ Hi Hr) as (l0&Hp0&Hi0&Hv0&Hn0&Ho0).
  destruct (has_leaf_permission perm) eqn:Hleaf; cbn [negb].
  2:{ rewrite Hp0. eexists _, _, _. split; [reflexivity|]. split_and!; [done|done| | |].
      - intros va Hout. specialize (Hv0 va). by rewrite bool_decide_eq_false_2 in Hv0.
      - apply (fresh_frames_new ms _ T []); [done|constructor|set_solver].
      - intros va Hin. specialize (Hv0 va). rewrite bool_decide_eq_true_2 in Hv0 by done.
        exists None. split; [done|]. unfold eager_page. rewrite Hleaf. split; [done|].
        intros Hal. apply Hn0; [|done]. split; [done|by apply Hu]. }
  set (a0 := area_with_backing start end_ perm backing) in *.
  assert (Hcnt : area_page_count a0 = end_ / PAGE_SIZE - start / PAGE_SIZE).
  { destruct Ha as [[]]. unfold area_page_count, area_size, page_aligned, PAGE_SIZE in *. simpl in *. lia. }
  assert (Hs0 : start_va a0 = start / PAGE_SIZE * PAGE_SIZE).
  { unfold a0, start, align_down, PAGE_SIZE. simpl. lia. }
  pose proof (area_page_count_pos a0 (proj1 Ha)) as Hpos.
  destruct (framed_loop_ok st (page_table ms) (areas ms) T perm a0 (start / PAGE_SIZE)
    (Z.to_nat (area_page_count a0)) st (page_table ms) a0) as (st'&pt'&r&Hloop&Hres); [done|done|done|done|lia| |].
  { replace (area_page_count a0 - Z.of_nat (Z.to_nat (area_page_count a0))) with 0 by lia.
    by apply filled_start. }
  replace (start / PAGE_SIZE + (area_page_count a0 - Z.of_nat (Z.to_nat (area_page_count a0))))
    with (start / PAGE_SIZE) in Hloop by lia.
  rewrite Z2Nat.id in Hloop by lia. rewrite <-Hcnt, Hloop. destruct r as [a|err].
  - destruct (settle_state_ok a (fr_ok _ _ _ _ _ _ _ _ _ _ Hres)) as (Has&E1&E2&_&_&E5&_).
    destruct (fr_shape _ _ _ _ _ _ _ _ _ _ Hres) as (S1&S2&_&_).
    change (if is_shared_mapping a then area_set_all_resident_state a Shared else a) with (settle_state a).
    destruct (push_area_ok (set_page_table ms pt') (settle_state a)) as (l'&->&Hw'&Hv&Ho);
      [apply Hi|done|by rewrite E1, E2, S1, S2|].
    rewrite E1, E2, S1, S2 in Hv. simpl in Hv, Ho.
    destruct (filled_finish st st' ms pt' l' T perm a0 a) as [Hi' Hpg]; [done|done|done|done|done|done|done|done|].
    eexists _, _, _. split; [reflexivity|]. split_and!; [exact Hi'|exact (fr_same _ _ _ _ _ _ _ _ _ _ Hres)| | |].
    + intros va Hout. split; [|intros Hva; by apply (fr_out _ _ _ _ _ _ _ _ _ _ Hres)]. specialize (Hv va). by rewrite bool_decide_eq_false_2 in Hv.
    + apply (fresh_frames_new ms _ T (owned [a])); [by rewrite <-E5|exact (fr_nodup _ _ _ _ _ _ _ _ _ _ Hres)|].
      intros q (v&p&Hp&->)%elem_of_owned_single; [|apply (fr_ok _ _ _ _ _ _ _ _ _ _ Hres)].
      by destruct (fr_page _ _ _ _ _ _ _ _ _ _ Hres v p Hp) as (_&?&_).
    + intros va Hin. apply Hpg; [by apply Hu|done].
  - destruct Hres as (->&Hinv&Ht&Hsame&_). pose proof Hi as [Hw Hus Hc Hf].
    assert (Ht' : ∀ va, user_page va → pt_translate pt' va = pt_translate (page_table ms) va).
    { intros va Hva. rewrite Ht by done. case_bool_decide as Hin; [|done]. symmetry. by apply Hn0. }
    eexists _, _, _. split; [reflexivity|]. split_and!; [|done| |by apply fresh_frames_same|done|done|done].
    + split; simpl; [done|done| |done]. intros va leaf Hva Hl. rewrite Ht' in Hl by done. by apply Hc.
    + intros va Hout. split; [done|]. apply Ht'.
Qed.

Lemma insert_framed_area_ok st ms T s e perm backing start end_ :
  ms_inv st ms T → request_ok ms s e backing start end_ →
  ∃ st' ms' r, insert_framed_area_with_backing st ms s e perm backing = Ret (st', ms', r) ∧
    ms_inv st' ms' T ∧
    (∀ q, q ∈ owned (areas ms) ++ T → svc_page (st_frames st') q = svc_page (st_frames st) q) ∧
    (∀ va, ¬ (start ≤ va < end_) → vma_page (areas ms') va ≡ vma_page (areas ms) va ∧
       (user_page va → pt_translate (page_table ms') va = pt_translate (page_table ms) va)) ∧
    match r with
    | Ok _ => ∀ va, start ≤ va < end_ →
        ∃ o, vma_page (areas ms') va ≡
               Some (mkView perm (split_right backing (align_down va - start)) o) ∧
             eager_page st' (page_table ms') (areas ms) T perm va o
    | Err err => err = ENOMEM ∧ areas ms' = areas ms ∧
        ∀ va, user_page va → pt_translate (page_table ms') va = pt_translate (page_table ms) va
    end.
Proof.
  intros Hi Hr. destruct (insert_framed_area_strong st ms T s e perm backing start end_ Hi Hr)
    as (st'&ms'&r&?&?&?&?&_&?). by exists st', ms', r.
Qed.

(** An eager mapping of a free user range either succeeds with a fresh zeroed frame
    behind every page and the translations of the requested permissions, or gives
    [ENOMEM] and leaves neither area nor translation nor frame behind.  Other addresses,
    their translations and the bytes of all frames in use are the same either way, and
    the invariant of the address space holds.  Without any access permission the area is
    only reserved. *)
Theorem insert_framed_area_correct st ms T s e perm backing start end_ :
  ms_inv st ms T → request_ok ms s e backing start end_ →
  ∃ st' ms' r, insert_framed_area_with_backing st ms s e perm backing = Ret (st', ms', r) ∧
    ms_inv st' ms' T ∧
    (∀ q, q ∈ owned (areas ms) ++ T → svc_page (st_frames st') q = svc_page (st_frames st) q) ∧
    (∀ va, ¬ (start ≤ va < end_) → vma_page (areas ms') va ≡ vma_page (areas ms) va ∧
       (user_page va → pt_translate (page_table ms') va = pt_translate (page_table ms) va)) ∧
    match r with
    | Ok _ => ∀ va, start ≤ va < end_ →
        ∃ o, vma_page (areas ms') va ≡
               Some (mkView perm (split_right backing (align_down va - start)) o) ∧
             eager_page st' (page_table ms') (areas ms) T perm va o
    | Err err => err = ENOMEM ∧ areas ms' = areas ms ∧
        ∀ va, user_page va → pt_translate (page_table ms') va = pt_translate (page_table ms) va
    end.
Proof. apply insert_framed_area_ok. Qed.

(** A lazy mapping of a free user range always succeeds: it reserves exactly the
    range with its permissions and backing and touches neither frames nor the page
    table.  An empty or overflowing range gives [EINVAL]. *)
Theorem insert_lazy_area_correct st ms T s e perm backing start end_ :
  ms_inv st ms T → request_ok ms s e backing start end_ →
  (∃ l', insert_lazy_area_with_backing ms s e perm backing = Ret (set_areas ms l', Ok tt) ∧
     ms_inv st (set_areas ms l') T ∧
     (∀ va, vma_page l' va ≡ if bool_decide (start ≤ va < end_)
        then Some (mkView perm (split_right backing (align_down va - start)) None)
        else vma_page (areas ms) va)) ∧
  (∀ s' e', match align_up e' with Some x => x ≤ align_down s' | None => True end →
     insert_lazy_area_with_backing ms s' e' perm backing = Ret (ms, Err EINVAL)).
Proof.
  intros Hi Hr. split.
  - destruct (push_empty st ms T s e perm backing start end_ Hi Hr) as (l'&Hp&Hi'&Hv&_).
    destruct Hr as (->&Hup&Hlt&_). exists l'. split_and!; [|done|done].
    unfold insert_lazy_area_with_backing. rewrite Hup, bool_decide_eq_false_2 by lia. by rewrite Hp.
  - intros s' e' He. unfold insert_lazy_area_with_backing. destruct (align_up e'); [|done].
    by rewrite bool_decide_eq_true_2.
Qed.

End insert.
