(* ===== verification/Machine.v ===== *)
(** * The memory set over the frame allocator

    The frame allocator of [FrameAlloc.v], as seen by one CPU, is an instance of the
    [FrameService] the memory set uses, and the ownership theorems of
    [FrameOwnership.v] discharge its laws.  With the page tables of [Sv39.v] this gives
    a machine on which the memory set runs; [demo_st] and [demo_ms] are a state of it,
    reached by an eager mapping of two pages. *)

From S2P Require Import Prelude BTree Frame Flags FileDesc ResidentSet MapArea Buddy FrameAlloc.
From S2P Require Import FrameOwnership VmaList MemorySet MsInv Sv39 MsInsert.

(** ** The allocator as a service *)

(** The allocator and the CPU that runs. *)
Record LocalFrames (B : Type) := mkLocal { lf_cpu : nat; lf_state : FrameState B }.
Arguments mkLocal {B}.
Arguments lf_cpu {B}.
Arguments lf_state {B}.

Section service.
Context {B : Type} `{HB : FrameBackend B, !FrameBackendLaws B}.

Definition lf_page (f : LocalFrames B) (p : Z) : list Z :=
  default ZERO_PAGE (phys (lf_state f) !! p).

(** A store of [bytes] at [off] of frame [p]. *)
Definition lf_store (f : LocalFrames B) (p off : Z) (bytes : list Z) : LocalFrames B :=
  let page := lf_page f p in
  let page' := take (Z.to_nat off) page ++ bytes ++ drop (Z.to_nat off + length bytes) page in
  mkLocal (lf_cpu f) (set_phys (lf_state f) (<[p := page']> (phys (lf_state f)))).

#[export] Instance local_frame_service : FrameService (LocalFrames B) := {
  svc_alloc f :=
    '(s, o) ←! alloc_frame (lf_state f) (lf_cpu f); Ret (mkLocal (lf_cpu f) s, o);
  svc_clone f t := '(s, t) ←! tracker_clone (lf_state f) t; Ret (mkLocal (lf_cpu f) s, t);
  svc_drop f t := s ←! tracker_drop (lf_state f) (lf_cpu f) t; Ret (mkLocal (lf_cpu f) s);
  svc_ref_count f t := tracker_ref_count (lf_state f) t;
  svc_page := lf_page;
  svc_store := lf_store
}.

(** [T] are the live trackers; every page has its size. *)
Definition lf_inv (f : LocalFrames B) (T : list Z) : Prop :=
  (∃ R, fs_inv (lf_state f) T R) ∧ map_Forall (λ _ page, zlen page = PAGE_SIZE) (phys (lf_state f)).

Lemma fs_inv_set_phys (s : FrameState B) m T R : fs_inv s T R → fs_inv (set_phys s m) T R.
Proof. intros [[] ? ? ? ? ? ? ?]. split; [by split|done..]. Qed.

#[export] Program Instance local_frame_laws : FrameServiceLaws (LocalFrames B) := {
  svc_inv f T := lf_inv f T
}.
Next Obligation. intros f T T' HT [[R Hi] Hp]. split; [|done]. exists R. by eapply fs_inv_perm. Qed.
Next Obligation.
  intros f T p [[R Hi] _] Hp. eapply managed_positive; [done|]. eapply inv_elem; eauto.
Qed.
Next Obligation.
  intros f T [[R Hi] Hsz]. destruct (alloc_frame_inv (lf_state f) T R (lf_cpu f) Hi) as (s'&o&Ha&Ho).
  exists (mkLocal (lf_cpu f) s'), o. simpl. rewrite Ha. split; [done|]. destruct o as [t|].
  - destruct Ho as (_&HT&Hi'&Hph). unfold lf_page, lf_inv. cbn [lf_state]. rewrite Hph.
    split_and!; [by exists R| |done| |].
    + apply map_Forall_insert_2; [|done]. unfold ZERO_PAGE, zlen. rewrite length_replicate. done.
    + unfold frame_no. by rewrite lookup_insert_eq.
    + intros q Hq. by rewrite lookup_insert_ne.
  - destruct Ho as (_&Hi'&Hph). unfold lf_page, lf_inv. cbn [lf_state]. rewrite Hph.
    split_and!; [by exists R|done|done].
Qed.
Next Obligation.
  intros f T t [[R Hi] Hsz] Ht Ho. destruct (tracker_clone_inv (lf_state f) T R t Hi Ht Ho) as (s'&Hc&Hi'&_&Hph).
  exists (mkLocal (lf_cpu f) s'). cbn [svc_clone local_frame_service]. rewrite Hc. unfold lf_page, lf_inv.
  cbn [lf_state svc_page local_frame_service]. unfold lf_page. cbn [lf_state]. rewrite Hph. split_and!; [done|by exists R|done|done].
Qed.
Next Obligation.
  intros f T t [[R Hi] Hsz]. destruct (tracker_drop_inv (lf_state f) T R (lf_cpu f) t Hi) as (s'&Hd&Hi'&Hph&_).
  exists (mkLocal (lf_cpu f) s'). cbn [svc_drop local_frame_service]. rewrite Hd. unfold lf_inv.
  cbn [lf_state svc_page local_frame_service]. unfold lf_page. cbn [lf_state]. rewrite Hph. split_and!; [done|by exists R|done|done].
Qed.
Next Obligation.
  intros f T t [[R Hi] _] Ht. simpl. pose proof (inv_refs _ _ _ Hi) as (rs&Hrs&_&Hc).
  unfold tracker_ref_count, frame_ref_counter. rewrite Hrs. fold (frame_no t). rewrite Hc; [done|].
  eapply inv_elem; eauto.
Qed.
Next Obligation.
  intros f T p [_ Hsz]. simpl. unfold lf_page. destruct (phys (lf_state f) !! p) as [page|] eqn:E.
  - by apply (Hsz p).
  - unfold ZERO_PAGE, zlen. cbn [default]. by rewrite length_replicate.
Qed.
Next Obligation.
  intros f T p off bytes Hi Hoff Hlen. pose proof (local_frame_laws_obligation_7 f T p Hi) as Hp.
  destruct Hi as [[R Hi] Hsz]. cbn [svc_store svc_page local_frame_service] in *.
  unfold lf_store, lf_inv. cbn [lf_state]. split_and!.
  - exists R. by apply fs_inv_set_phys.
  - apply map_Forall_insert_2; [|done]. unfold zlen in *. rewrite !length_app, length_take, length_drop. lia.
  - unfold lf_page at 1. cbn [lf_state phys set_phys]. by rewrite lookup_insert_eq.
  - intros q Hq. unfold lf_page. cbn [lf_state phys set_phys]. by rewrite lookup_insert_ne.
Qed.

End service.

(** ** A concrete address space *)

(** A file layer with an empty file and no page cache. *)
#[export] Instance empty_files : FileLayer (LocalFrames Buddy) := {
  file_read_at f _ _ _ := (f, Ok []);
  can_use_clean_page_cache _ _ := false;
  clean_page_cache_frames f _ _ _ _ := Ret (f, Err ENOMEM)
}.

#[export] Program Instance empty_files_laws : FileLayerLaws (LocalFrames Buddy) := {
  file_cache _ := []
}.
Next Obligation. intros f T fd off len f' r Hi Hl [= <- <-]. split_and!; [done|done|]. by intros bytes [= <-]. Qed.
Next Obligation. done. Qed.
Next Obligation. intros. unfold FILE_CACHE_MAX, zlen. simpl. lia. Qed.
Next Obligation. done. Qed.
Next Obligation. done. Qed.
Next Obligation. done. Qed.
Next Obligation. done. Qed.
Next Obligation. intros f X ino off n ahead Hi. by exists f, (Err ENOMEM). Qed.

Definition demo_perm : Z := Z.lor PTE_R (Z.lor PTE_W PTE_U).

Definition demo_st0 : St (LocalFrames Buddy) := mkSt (mkLocal 0 demo_boot) 0x80000000 [].
Definition demo_ms0 : MemorySet Sv39 := new_bare (mkSv39 0x80000000 ∅) 1.

Lemma demo_inv0 : ms_inv demo_st0 demo_ms0 [].
Proof.
  split; [apply vmas_wf_nil|constructor| |].
  - intros va leaf _ Ht. simpl in Ht. rewrite sv_translate_decode in Ht. by vm_compute in Ht.
  - split; [exists []; apply demo_boot_inv|]. vm_compute. by intros ? ? ?.
Qed.

Definition demo_insert := insert_framed_area_with_backing demo_st0 demo_ms0 0x10000 0x12000 demo_perm Anonymous.

Definition demo_st : St (LocalFrames Buddy) :=
  match demo_insert with Ret (st, _, _) => st | Panic => demo_st0 end.
Definition demo_ms : MemorySet Sv39 :=
  match demo_insert with Ret (_, ms, _) => ms | Panic => demo_ms0 end.

Lemma demo_insert_eq :
  insert_framed_area_with_backing demo_st0 demo_ms0 0x10000 0x12000 demo_perm Anonymous =
  Ret (demo_st, demo_ms, Ok tt).
Proof. vm_compute. reflexivity. Qed.

Lemma low_range_user s e : 0 ≤ s → e ≤ 2 ^ 31 → ∀ va, s ≤ va < e → user_va va.
Proof. intros. unfold user_va, VA_LIMIT. lia. Qed.

Lemma demo_request : request_ok demo_ms0 0x10000 0x12000 Anonymous 0x10000 0x12000.
Proof.
  unfold request_ok. split; [reflexivity|]. split; [vm_compute; reflexivity|]. split; [lia|]. split; [lia|].
  split; [apply low_range_user; lia|]. split; [vm_compute; reflexivity|done].
Qed.

Lemma demo_inv : ms_inv demo_st demo_ms [].
Proof.
  destruct (insert_framed_area_ok demo_st0 demo_ms0 [] 0x10000 0x12000 demo_perm Anonymous
    0x10000 0x12000 demo_inv0 demo_request) as (st&ms&r&He&Hi&_).
  rewrite demo_insert_eq in He.
  apply Ret_inj, pair_equal_spec in He as [He _].
  apply pair_equal_spec in He as [Hst Hms]. rewrite <-Hst, <-Hms in Hi. exact Hi.
Qed.

Lemma insert_framed_area_correct_witness :
  ms_inv demo_st demo_ms [] ∧
  ∃ o, vma_page (areas demo_ms) 0x11000 ≡ Some (mkView demo_perm Anonymous o) ∧
       eager_page demo_st (page_table demo_ms) (areas demo_ms0) [] demo_perm 0x11000 o.
Proof.
  destruct (insert_framed_area_correct demo_st0 demo_ms0 [] 0x10000 0x12000 demo_perm Anonymous
    0x10000 0x12000 demo_inv0 demo_request) as (st&ms&r&He&Hi&_&_&Hr).
  rewrite demo_insert_eq in He. apply Ret_inj, pair_equal_spec in He as [He Hok].
  apply pair_equal_spec in He as [Hst Hms]. rewrite <-Hok in Hr. rewrite <-Hst, <-Hms in *.
  split; [exact Hi|]. destruct (Hr 0x11000) as (o&Hv&Hp); [lia|]. exists o. split; [exact Hv|exact Hp].
Defined.

Lemma insert_lazy_area_correct_witness :
  ∃ l', insert_lazy_area_with_backing demo_ms0 0x10000 0x12000 demo_perm Anonymous =
          Ret (set_areas demo_ms0 l', Ok tt) ∧ ms_inv demo_st0 (set_areas demo_ms0 l') [].
Proof.
  destruct (insert_lazy_area_correct demo_st0 demo_ms0 [] 0x10000 0x12000 demo_perm Anonymous
    0x10000 0x12000 demo_inv0 demo_request) as [(l'&He&Hi&_) _].
  exists l'. split; [exact He|exact Hi].
Defined.
