(* ===== verification/MsUnmap.v ===== *)
(** * Removing mappings

    [unmap_range], [release_user_areas] and [discard_anonymous_range] of
    src/os/src/mm/memory_set.rs: exactly the range is removed, the page table stays
    coherent, the frames go back to the allocator, and no frame is dropped while a
    cleared leaf may be cached. *)

From S2P Require Import Prelude BTree Frame Flags FileDesc ResidentSet MapArea VmaList MemorySet MsInv.
From S2P Require Import Buddy FrameAlloc Sv39 MsInsert Machine.

Section unmap.
Context {PT F : Type} `{HPT : PageTableOps PT, !PageTableLaws PT,
                        HF : FrameService F, !FrameServiceLaws F, HL : FileLayer F}.
Implicit Types (pt : PT) (st : St F) (ms : MemorySet PT) (l : list MapArea) (a : MapArea) (T : list Z).

Lemma area_overlaps_spec a s e : area_overlaps a s e = true ↔ start_va a < e ∧ s < end_va a.
Proof. unfold area_overlaps. by rewrite andb_true_iff, !bool_decide_eq_true. Qed.

(** The areas an unmap keeps and removes. *)
Definition kept_areas (s e : Z) l : list MapArea := filter (λ a, area_overlaps a s e = false) l.
Definition cut_areas (s e : Z) l : list MapArea := filter (λ a, area_overlaps a s e = true) l.

Lemma unmap_loop_ok l pt st s e T :
  Forall area_ok l → Forall area_user l → StronglySorted area_below l →
  Forall (leaves_resident pt) l → svc_inv (st_frames st) (owned l ++ T) →
  ∃ st' pt', unmap_loop st pt s e l = Ret (st', pt', kept_areas s e l) ∧
    (∀ va, user_page va → pt_translate pt' va =
       match vma_page (cut_areas s e l) va with Some _ => None | None => pt_translate pt va end) ∧
    svc_inv (st_frames st') (owned (kept_areas s e l) ++ T) ∧ same_pages st st' ∧
    ∃ evs, logged st st' evs ∧ settled evs.
Proof.
  revert pt st T. induction l as [|a l IH]; intros pt st T Hok Hlow Hs Hres Hi; cbn [unmap_loop].
  { eexists _, _. split; [done|]. split_and!; [done|done|done|]. exists [].
    split; [apply logged_refl|apply settled_nil]. }
  apply Forall_cons in Hok as [Ha Hok]. apply Forall_cons in Hlow as [Hla Hlow].
  apply StronglySorted_inv in Hs as [Hs Hbelow]. apply Forall_cons in Hres as [Hra Hres].
  rewrite owned_cons, <-app_assoc in Hi. unfold kept_areas, cut_areas in *. rewrite !filter_cons.
  destruct (area_overlaps a s e) eqn:Eo.
  - rewrite (decide_False (P := true = false)), decide_True by done.
    pose proof (unmap_area_pages_ok pt st a (proj1 Ha) Hla Hra) as Hu.
    destruct (unmap_area_pages st pt a (area_flags a)) as [st1 pt1].
    destruct Hu as (Hr1&Ht1&evs1&He1&Hset1). pose proof He1 as (Hf1&_&_).
    rewrite <-Hf1 in Hi. destruct (drop_frames_ok st1 (area_frames a) _ Hi) as (st2&->&Hi2&Hp2&Hl2).
    destruct (IH pt1 st2 T) as (st3&pt3&->&Ht3&Hi3&Hp3&evs3&Hl3&Hset3); [done|done|done| |done|].
    { eapply Forall_impl; [exact Hres|]. intros b Hb va leaf Hu Hin Ht. eapply Hb; [done|done|].
      rewrite Ht1 in Ht by done. by case_bool_decide. }
    eexists _, _. split; [done|]. split_and!; [|done| |].
    + intros va Hu. rewrite Ht3 by done. simpl. rewrite (Ht1 va Hu).
      destruct (vma_page (filter _ l) va) eqn:Ev.
      * by destruct (area_page a va).
      * case_bool_decide as Hin; [by rewrite area_page_Some|by rewrite area_page_None].
    + intros q. rewrite Hp3, Hp2. by rewrite Hf1.
    + eexists. split.
      * eapply logged_trans; [exact (events_logged _ _ _ He1)|]. eapply logged_trans; [exact Hl2|exact Hl3].
      * apply settled_app; [done|]. apply settled_app; [apply settled_drops|done].
  - rewrite (decide_True (P := false = false)), (decide_False (P := false = true)) by done.
    destruct (IH pt st ((frame_no <$> area_frames a) ++ T)) as (st3&pt3&->&Ht3&Hi3&Hp3&evs3&Hl3&Hset3);
      [done|done|done|done| |].
    { eapply svc_inv_perm; [|exact Hi]. rewrite !app_assoc. by rewrite (Permutation_app_comm (owned l)). }
    eexists _, _. split; [done|]. split_and!; [done| |done|by eauto].
    rewrite owned_cons, <-app_assoc. eapply svc_inv_perm; [|exact Hi3].
    rewrite !app_assoc. by rewrite (Permutation_app_comm (frame_no <$> _)).
Qed.

(** ** [unmap_range] *)

Lemma bad_range_false s e : bad_range s e = false → s < e ∧ page_aligned s ∧ page_aligned e.
Proof.
  unfold bad_range, page_aligned. intros [[H1 H2]%orb_false_iff H3]%orb_false_iff.
  apply bool_decide_eq_false_1 in H1. apply negb_false_iff, bool_decide_eq_true_1 in H2, H3. lia.
Qed.

(** Areas clear of both ends are inside the range or outside of it. *)
Lemma vma_page_filter_inside l s e va :
  Forall (clear_of s) l → Forall (clear_of e) l → s < e →
  vma_page (cut_areas s e l) va = (if bool_decide (s ≤ va < e) then vma_page l va else None) ∧
  vma_page (kept_areas s e l) va = (if bool_decide (s ≤ va < e) then None else vma_page l va).
Proof.
  intros Hs He Hlt. unfold cut_areas, kept_areas. induction l as [|a l IH]; [by case_bool_decide|].
  apply Forall_cons in Hs as [Hsa Hs]. apply Forall_cons in He as [Hea He].
  destruct (IH Hs He) as [IH1 IH2]. rewrite !filter_cons. unfold clear_of in *.
  destruct (area_overlaps a s e) eqn:Eo.
  - apply area_overlaps_spec in Eo. rewrite decide_True, decide_False by done. simpl. rewrite IH1, IH2.
    case_bool_decide; [done|]. by rewrite area_page_None by lia.
  - assert (Hno : ¬ (start_va a < e ∧ s < end_va a)) by (rewrite <-area_overlaps_spec; congruence).
    rewrite decide_False, decide_True by done. simpl. rewrite IH1, IH2.
    case_bool_decide; [|done]. by rewrite area_page_None by lia.
Qed.

Lemma vmas_wf_filter (P : MapArea → Prop) `{!∀ a, Decision (P a)} l : vmas_wf l → vmas_wf (filter P l).
Proof.
  intros [Ho Hs]. split; [by apply Forall_filter_2|]. clear Ho.
  induction Hs as [|a l Hs IH Hf]; [constructor|]. rewrite filter_cons. case_decide; [|done].
  constructor; [done|]. by apply Forall_filter_2.
Qed.

Lemma areas_leaves_resident l pt :
  vmas_wf l → Forall area_user l → coherent l pt → Forall (leaves_resident pt) l.
Proof.
  intros Hw Hl Hc. apply Forall_lookup. intros i a Hi. apply (coherent_leaves_resident l).
  - by apply (vmas_area_ok l i a).
  - by apply (Forall_lookup_1 _ _ _ _ Hl Hi).
  - by eapply area_of_lookup.
  - done.
Qed.

Lemma unmap_range_ok st ms s e T :
  ms_inv st ms T →
  if bad_range s e then unmap_range st ms s e = Ret (st, ms, Err EINVAL)
  else ∃ st' ms', unmap_range st ms s e = Ret (st', ms', Ok tt) ∧ ms_inv st' ms' T ∧
    (∀ va, vma_page (areas ms') va ≡
       if bool_decide (s ≤ va < e) then None else vma_page (areas ms) va) ∧
    (∀ va, user_page va → pt_translate (page_table ms') va =
       if bool_decide (s ≤ va < e) then None else pt_translate (page_table ms) va) ∧
    same_pages st st' ∧ ∃ evs, logged st st' evs ∧ settled evs.
Proof.
  intros [Hw Hlow Hc Hf]. unfold unmap_range. destruct (bad_range s e) eqn:Eb; [done|].
  apply bad_range_false in Eb as (Hlt&Hs&He).
  destruct (split_range_ok (areas ms) s e Hw Hs He) as (l1&l2&E1&E2&Hw2&Hv2&Hcs&Hce).
  rewrite E1. rewrite E2.
  assert (Heq : ∀ va, vma_page l2 va ≡ vma_page (areas ms) va) by (intros va; by rewrite Hv2).
  assert (Hl2 : Forall area_user l2) by (by eapply user_equiv).
  assert (Hc2 : coherent l2 (page_table ms)) by (eapply coherent_equiv; [|exact Hc]; done).
  destruct (unmap_loop_ok l2 (page_table ms) st s e T) as (st'&pt'&->&Ht&Hi&Hp&Hev);
    [apply Hw2|done|apply Hw2|by apply areas_leaves_resident| |].
  { eapply svc_inv_perm; [|exact Hf]. apply Permutation_app; [|done].
    apply owned_equiv; [done|apply Hw2|by apply vmas_wf_disjoint|done]. }
  pose proof (vma_page_filter_inside l2 s e) as Hfi.
  assert (Hwk : vmas_wf (kept_areas s e l2)) by (by apply vmas_wf_filter).
 
  destruct (coalesce_areas_ok (kept_areas s e l2)) as (r&->&Hwr&_&Hr);
    [apply Hwk|by apply vmas_wf_disjoint|].
  assert (Hview : ∀ va, vma_page r va ≡ if bool_decide (s ≤ va < e) then None else vma_page (areas ms) va).
  { intros va. rewrite (Hr va). destruct (Hfi va Hcs Hce Hlt) as [_ ->]. by rewrite Hv2. }
  assert (Htr : ∀ va, user_page va → pt_translate pt' va =
     if bool_decide (s ≤ va < e) then None else pt_translate (page_table ms) va).
  { intros va Hu. rewrite Ht by done. destruct (Hfi va Hcs Hce Hlt) as [-> _].
    case_bool_decide as Hin; [|done]. destruct (vma_page l2 va) eqn:Ev; [done|].
    destruct (pt_translate (page_table ms) va) as [leaf|] eqn:Et; [|done].
    destruct (Hc2 va leaf Hu Et) as (v&?&Hv&_). by rewrite Ev in Hv. }
  eexists _, _. split; [reflexivity|]. split; [|by split_and!]. split; simpl.
  - done.
  - apply (user_equiv (kept_areas s e l2)); [done|done|by apply Forall_filter_2].
  - intros va leaf Hu Hleaf. rewrite Htr in Hleaf by done. specialize (Hview va).
    case_bool_decide; [done|]. eapply leaf_ok_equiv; [symmetry; exact Hview|by apply Hc].
  - eapply svc_inv_perm; [|exact Hi]. apply Permutation_app; [|done]. symmetry.
    apply owned_equiv; [done|apply Hwk|by apply vmas_wf_disjoint|done].
Qed.


(** ** [release_user_areas] *)

Lemma unmap_all_ok l pt st :
  Forall area_ok l → Forall area_user l → Forall (leaves_resident pt) l →
  let '(st', pt') := foldl (λ '(st, pt) area, unmap_area_pages st pt area (area_flags area)) (st, pt) l in
  (∀ va, user_page va → pt_translate pt' va =
     match vma_page l va with Some _ => None | None => pt_translate pt va end) ∧
  ∃ evs, events st st' evs ∧ settled evs.
Proof.
  revert pt st. induction l as [|a l IH]; intros pt st Hok Hlow Hres; cbn [foldl].
  { split; [done|]. exists []. split; [apply events_refl|apply settled_nil]. }
  apply Forall_cons in Hok as [Ha Hok]. apply Forall_cons in Hlow as [Hla Hlow].
  apply Forall_cons in Hres as [Hra Hres].
  pose proof (unmap_area_pages_ok pt st a (proj1 Ha) Hla Hra) as Hu.
  destruct (unmap_area_pages st pt a (area_flags a)) as [st1 pt1].
  destruct Hu as (_&Ht1&evs1&He1&Hset1). specialize (IH pt1 st1 Hok Hlow).
  destruct (foldl _ (st1, pt1) l) as [st2 pt2]. destruct IH as (Ht2&evs2&He2&Hset2).
  { eapply Forall_impl; [exact Hres|]. intros b Hb va leaf Hu Hin Ht. eapply Hb; [done|done|].
    rewrite Ht1 in Ht by done. by case_bool_decide. }
  split; [|eexists; split; [by eapply events_trans|by apply settled_app]].
  intros va Hu. rewrite Ht2, Ht1 by done. simpl.
  destruct (vma_page l va); [by destruct (area_page a va)|].
  case_bool_decide as Hin; [by rewrite area_page_Some|by rewrite area_page_None].
Qed.

(** Releasing an address space leaves no area and no user translation, gives every
    frame it owned back (the live trackers are exactly those outside of it), and drops
    the frames only after all their leaves were shot down. *)
Theorem release_user_areas_frees st ms T :
  ms_inv st ms T →
  ∃ st' ms', release_user_areas st ms = Ret (st', ms') ∧ ms_inv st' ms' T ∧ areas ms' = [] ∧
    (∀ va, user_page va → pt_translate (page_table ms') va = None) ∧
    svc_inv (st_frames st') T ∧ same_pages st st' ∧ ∃ evs, logged st st' evs ∧ settled evs.
Proof.
  intros [Hw Hlow Hc Hf]. unfold release_user_areas.
  pose proof (unmap_all_ok (areas ms) (page_table ms) st (vmas_ok _ Hw) Hlow
    (areas_leaves_resident _ _ Hw Hlow Hc)) as Hu.
  destruct (foldl _ _ _) as [st1 pt1]. destruct Hu as (Ht&evs&He&Hset). pose proof He as (Hf1&_&_).
  rewrite <-Hf1 in Hf.
  destruct (drop_frames_ok st1 (vma_frames (areas ms)) T Hf) as (st2&Hd&Hi&Hp&Hl).
  unfold vma_frames in Hd. rewrite Hd.
  assert (Hnone : ∀ va, user_page va → pt_translate pt1 va = None).
  { intros va Hv. rewrite Ht by done. destruct (vma_page (areas ms) va) eqn:Ev; [done|].
    destruct (pt_translate (page_table ms) va) eqn:Et; [|done].
    destruct (Hc va _ Hv Et) as (v&?&Hv'&_). by rewrite Ev in Hv'. }
  eexists _, _. split; [reflexivity|]. split; [|split; [done|split; [done|split; [done|split]]]].
  - split; simpl; [apply vmas_wf_nil|constructor| |done]. intros va leaf Hv Hx. by rewrite Hnone in Hx.
  - intros q. rewrite Hp. by rewrite Hf1.
  - eexists. split; [eapply logged_trans; [by apply events_logged|exact Hl]|].
    apply settled_app; [done|apply settled_drops].
Qed.

(** ** [discard_anonymous_range] *)

(** The pages of anonymous areas in the range lose their frames. *)
Definition discard_view (s e va : Z) (o : option page_view) : option page_view :=
  if bool_decide (s ≤ va < e) then
    (λ v, if bool_decide (pv_backing v = Anonymous) then mkView (pv_flags v) (pv_backing v) None else v) <$> o
  else o.

(** Whether the page at [va] is discarded. *)
Definition discarded_at (s e va : Z) (l : list MapArea) : bool :=
  bool_decide (s ≤ va < e) &&
  match vma_page l va with Some v => bool_decide (pv_backing v = Anonymous) | None => false end.

Lemma anonymous_split b d : split_right b d = Anonymous ↔ b = Anonymous.
Proof. by destruct b. Qed.

Lemma resident_range_unmap_ok pt st a si ei :
  area_wf a → area_user a → leaves_resident pt a → 0 ≤ si →
  let '(st', pt', n) := unmap_area_resident_range_without_flush st pt a si ei in
  pt_root pt' = pt_root pt ∧ 0 ≤ n ∧
  (∃ cl, events st st' (EvClear <$> cl) ∧ (n = 0 → cl = [])) ∧
  (∀ va, user_page va → pt_translate pt' va =
     if bool_decide (start_va a ≤ va < end_va a ∧ si ≤ (va - start_va a) / PAGE_SIZE < ei)
     then None else pt_translate pt va).
Proof.
  intros Hw Hl Hres Hsi. unfold unmap_area_resident_range_without_flush.
  assert (Hgone : ∀ va, user_page va → start_va a ≤ va < end_va a →
    si ≤ (va - start_va a) / PAGE_SIZE < ei → va ∉ resident_vas a si ei → pt_translate pt va = None).
  { intros va Hu Hin Hidx Hno. destruct (pt_translate pt va) as [leaf|] eqn:Et; [|done].
    destruct (Hres va leaf Hu Hin Et) as [_ Hr]. apply elem_of_resident_vas in Hr as (i&p&Hi&Hp&Hva); [|done|done].
    destruct Hno. apply elem_of_resident_vas; [done|done|]. exists i, p. split_and!; [..|done|done];
      unfold PAGE_SIZE in *; lia. }
  destruct (negb (has_leaf_permission (area_flags a)) || bool_decide (ei ≤ si)) eqn:Eskip.
  - rewrite orb_true_iff, negb_true_iff, bool_decide_eq_true in Eskip.
    split_and!; [done|done|exists []; split; [apply events_refl|done]|]. intros va Hu.
    case_bool_decide as Hin; [|done]. destruct (pt_translate pt va) as [leaf|] eqn:Et; [|done].
    destruct (Hres va leaf Hu (proj1 Hin) Et) as [Hlp _]. rewrite Hlp in Eskip. destruct Eskip; [done|lia].
  - pose proof (unmap_pages_without_flush_ok pt st _ (resident_vas_user a si ei Hw Hl)) as H.
    unfold resident_vas in H. destruct (unmap_pages_without_flush _ _ _) as [[st1 pt1] n].
    destruct H as (Hr&Hn&Hev&Ht). split_and!; [done|done|done|]. intros va Hu. rewrite Ht by done.
    change ((λ p, page_va a p.1) <$> rs_iter_range (area_resident a) si ei) with (resident_vas a si ei).
    clear Eskip. case_decide as Hin.
    + apply elem_of_resident_vas in Hin as (i&p&Hi&Hp&->); [|done|done].
      destruct (page_va_ok a i Hw Hl) as (<-&_&Hb); [by eapply area_resident_bounds|].
      rewrite bool_decide_eq_true_2; [done|]. split; [done|].
      destruct (page_va_ok a i Hw Hl) as (->&_&_); [by eapply area_resident_bounds|].
      unfold PAGE_SIZE in *. lia.
    + case_bool_decide as Hin'; [|done]. apply Hgone; [done|apply Hin'|apply Hin'|done].
Qed.

(** Splitting a resident set splits its frames. *)
Lemma extract_frames rs s e rs' ext :
  rs_wf rs → rs_wf rs' → rs_wf ext → 0 ≤ s ≤ e →
  (∀ v, rmap rs' !! v = if decide (s ≤ v < e) then None else rmap rs !! v) →
  (∀ v, rmap ext !! v = if decide (0 ≤ v < e - s) then rmap rs !! (v + s) else None) →
  rp_frame <$> rs_iter rs ≡ₚ (rp_frame <$> rs_iter ext) ++ (rp_frame <$> rs_iter rs').
Proof.
  intros Hw Hw' He Hse H1 H2. rewrite !rs_iter_frames by done. unfold map_frames.
  assert (Hinj : Inj (=) (=) (λ v, v + s)) by (intros x y; lia).
  assert (rmap rs = kmap (λ v, v + s) (rmap ext) ∪ rmap rs') as ->.
  { apply map_eq. intros v. apply option_eq. intros p. rewrite lookup_union_Some_raw.
    rewrite (lookup_kmap_Some (λ v, v + s)), (lookup_kmap_None (λ v, v + s)), H1. split.
    - intros Hp. case_decide.
      + left. exists (v - s). split; [lia|]. rewrite H2, decide_True by lia.
        by replace (v - s + s) with v by lia.
      + right. split; [|done]. intros i ->. rewrite H2, decide_False by lia. done.
    - intros [(i&->&Hi)|[_ Hp]]; [|by case_decide]. rewrite H2 in Hi. by case_decide. }
  rewrite map_to_list_disjoint_union.
  - rewrite (map_to_list_kmap (λ v, v + s)), !fmap_app. apply Permutation_app; [|done].
    by rewrite <-(list_fmap_compose _ snd (map_to_list _)).
  - apply map_disjoint_spec. intros v x y Hx Hy. apply (lookup_kmap_Some (λ v, v + s)) in Hx as (i&->&Hi).
    rewrite H2 in Hi. case_decide; [|done]. by rewrite H1, decide_True in Hy by lia.
Qed.

Lemma area_discard_ok a s e :
  area_ok a → s < e → page_aligned s → page_aligned e → area_overlaps a s e = true →
  area_backing a = Anonymous →
  let si := (Z.max s (start_va a) - start_va a) / PAGE_SIZE in
  let ei := (Z.min e (end_va a) - start_va a) / PAGE_SIZE in
  0 ≤ si ∧ (∀ va, page_aligned va → start_va a ≤ va < end_va a ∧ si ≤ (va - start_va a) / PAGE_SIZE < ei ↔
                  start_va a ≤ va < end_va a ∧ s ≤ va < e) ∧
  ∃ a' owner, area_extract_resident_range a si ei = Ret (a', owner) ∧ area_ok a' ∧
    start_va a' = start_va a ∧ end_va a' = end_va a ∧
    area_frames a ≡ₚ (rp_frame <$> rs_iter owner) ++ area_frames a' ∧ rs_wf owner ∧
    ∀ va, area_page a' va = discard_view s e va (area_page a va).
Proof.
  intros [Hw Hb] Hse Hs He Ho Hbk si ei. pose proof Hw as [H0 Hlt Hmax Has Hae Hwr Hins].
  apply area_overlaps_spec in Ho.
  assert (Hpos : 0 ≤ si ≤ ei) by (unfold si, ei, page_aligned, PAGE_SIZE in *; lia).
  destruct (rs_extract_range_ok (area_resident a) si ei Hwr Hpos) as (rs'&ext&Hx&Hw'&Hwe&H1&H2).
  assert (Hidx : ∀ va, start_va a ≤ va < end_va a →
    (si ≤ (align_down va - start_va a) / PAGE_SIZE < ei ↔ s ≤ va < e)).
  { intros va Hva. unfold si, ei, align_down, page_aligned, PAGE_SIZE in *. lia. }
  split; [lia|]. split.
  { intros va Hva. specialize (Hidx va). rewrite align_down_id in Hidx by done. naive_solver. }
  unfold area_extract_resident_range. rewrite Hx. eexists _, _. split; [reflexivity|]. simpl.
  split_and!; [|done|done| |done|].
  - split; [|done]. apply area_wf_set_resident; [done|done|]. intros v p Hv. rewrite H1 in Hv.
    case_decide; [done|]. by eapply Hins.
  - unfold area_frames. simpl. by eapply extract_frames.
  - intros va. unfold discard_view. destruct (decide (start_va a ≤ va < end_va a)) as [Hin|Hin].
    + rewrite !area_page_Some by done. simpl. rewrite H1. specialize (Hidx va Hin).
      rewrite Hbk. simpl. case_bool_decide; [|by rewrite decide_False by naive_solver].
      by rewrite decide_True by naive_solver.
    + rewrite !area_page_None by done. by case_bool_decide.
Qed.

Lemma discard_view_other a s e va :
  area_overlaps a s e = false ∨ area_backing a ≠ Anonymous →
  discard_view s e va (area_page a va) = area_page a va.
Proof.
  intros Ho. unfold discard_view. case_bool_decide as Hin; [|done].
  destruct (decide (start_va a ≤ va < end_va a)) as [Hva|Hva]; [|by rewrite area_page_None].
  rewrite area_page_Some by done. simpl. case_bool_decide as Hb; [|done].
  rewrite anonymous_split in Hb. destruct Ho as [Ho|]; [|done].
  assert (area_overlaps a s e = true) by (apply area_overlaps_spec; lia). congruence.
Qed.

Lemma rs_iter_len rs : rs_wf rs → zlen (rp_frame <$> rs_iter rs) = rs_len rs.
Proof.
  intros Hw. rewrite rs_len_size by done. unfold zlen. rewrite (rs_iter_frames rs Hw).
  unfold map_frames. rewrite !length_fmap. by rewrite length_map_to_list.
Qed.

(** One area before and after. *)
Definition discard_rel (s e : Z) (a a' : MapArea) : Prop :=
  area_ok a' ∧ start_va a' = start_va a ∧ end_va a' = end_va a ∧
  ∀ va, area_page a' va = discard_view s e va (area_page a va).

Lemma discard_rel_view s e l l' va :
  Forall2 (discard_rel s e) l l' → vma_page l' va = discard_view s e va (vma_page l va).
Proof.
  induction 1 as [|a a' l l' (_&_&_&Hv) _ IH]; simpl; [by unfold discard_view; case_bool_decide|].
  rewrite Hv, IH. unfold discard_view. by case_bool_decide; destruct (area_page a va).
Qed.

Lemma discard_rel_wf s e l l' :
  Forall2 (discard_rel s e) l l' → StronglySorted area_below l → vmas_wf l'.
Proof.
  intros HR Hs. split.
  { eapply Forall2_Forall_r; [exact HR|]. apply Forall_true. by intros a a' []. }
  revert Hs. induction HR as [|a a' l l' (_&_&He&_) HR IH]; [constructor|].
  intros [Hs Ha]%StronglySorted_inv. constructor; [by apply IH|]. clear IH Hs.
  induction HR as [|b b' l l' (_&Hb&_&_) HR IH]; [constructor|].
  apply Forall_cons in Ha as [Hab Ha]. constructor; [|by apply IH]. unfold area_below in *. lia.
Qed.

Lemma discarded_at_cons s e va a l :
  Forall (area_below a) l →
  discarded_at s e va (a :: l) =
  (bool_decide (start_va a ≤ va < end_va a ∧ s ≤ va < e) && bool_decide (area_backing a = Anonymous)) ||
  discarded_at s e va l.
Proof.
  intros Hbelow. unfold discarded_at. simpl.
  destruct (decide (start_va a ≤ va < end_va a)) as [Hin|Hin].
  - assert (vma_page l va = None) as ->.
    { apply vma_page_None. eapply Forall_impl; [exact Hbelow|]. unfold area_below. lia. }
    rewrite area_page_Some, andb_false_r, orb_false_r by done. simpl. f_equal.
    + apply bool_decide_ext. tauto.
    + apply bool_decide_ext. apply anonymous_split.
  - rewrite area_page_None by done.
    rewrite (bool_decide_eq_false_2 (start_va a ≤ va < end_va a ∧ s ≤ va < e)); [done|]. by intros [? _].
Qed.

Lemma discard_loop_ok l pt st s e :
  Forall area_ok l → Forall area_user l → StronglySorted area_below l →
  Forall (leaves_resident pt) l → s < e → page_aligned s → page_aligned e →
  ∃ st' pt' l' revoked discarded retired,
    discard_loop st pt s e l = Ret (st', pt', l', revoked, discarded, retired) ∧
    (∃ cl, events st st' (EvClear <$> cl) ∧ (revoked = 0 → cl = [])) ∧ 0 ≤ revoked ∧
    (∀ va, user_page va → pt_translate pt' va =
       if discarded_at s e va l then None else pt_translate pt va) ∧
    Forall2 (discard_rel s e) l l' ∧ vma_frames l ≡ₚ retired ++ vma_frames l' ∧
    discarded = Z.min USIZE_MAX (zlen retired).
Proof.
  intros Hok Hlow Hs Hres Hse Has Hae. revert pt st Hok Hlow Hs Hres.
  induction l as [|a l IH]; intros pt st Hok Hlow Hs Hres; cbn [discard_loop].
  { eexists _, _, _, _, _, _. split; [reflexivity|]. split_and!; [|done| |constructor|done|done].
    - exists []. split; [apply events_refl|done].
    - intros va _. unfold discarded_at. simpl. by rewrite andb_false_r. }
  apply Forall_cons in Hok as [Ha Hok]. apply Forall_cons in Hlow as [Hla Hlow].
  apply StronglySorted_inv in Hs as [Hs Hbelow]. apply Forall_cons in Hres as [Hra Hres].
  destruct (negb (area_overlaps a s e) || negb (bool_decide (area_backing a = Anonymous))) eqn:Eo.
  - destruct (IH pt st Hok Hlow Hs Hres) as (st'&pt'&l'&rv&dc&rt&->&Hev&Hrv&Ht&HR&Hfr&Hdc).
    assert (Hno : area_overlaps a s e = false ∨ area_backing a ≠ Anonymous).
    { apply orb_true_iff in Eo as [Eo|Eo]; apply negb_true_iff in Eo; [by left|right].
      by apply bool_decide_eq_false_1 in Eo. }
    eexists _, _, _, _, _, _. split; [reflexivity|]. split_and!; [done|done| | | |done].
    + intros va Hu. rewrite Ht, discarded_at_cons by done. destruct Hno as [Hno|Hno].
      * rewrite (bool_decide_eq_false_2 (start_va a ≤ va < end_va a ∧ s ≤ va < e)); [done|]. intros ?.
        assert (area_overlaps a s e = true) by (apply area_overlaps_spec; lia). congruence.
      * by rewrite (bool_decide_eq_false_2 (_ = _)), andb_false_r by done.
    + constructor; [|done]. split_and!; [done|done|done|]. intros va. by rewrite discard_view_other.
    + unfold vma_frames in *. rewrite !fmap_cons. cbn [mjoin list_join]. rewrite Hfr.
      rewrite !app_assoc. by rewrite (Permutation_app_comm (area_frames a)).
  - apply orb_false_iff in Eo as [Eo Eb]. apply negb_false_iff in Eo, Eb. apply bool_decide_eq_true_1 in Eb.
    destruct (area_discard_ok a s e Ha Hse Has Hae Eo Eb) as (Hsi&Hidx&a'&ow&Hex&Ha'&E1&E2&Hfa&Hwo&Hva).
    pose proof (resident_range_unmap_ok pt st a _
      ((Z.min e (end_va a) - start_va a) / PAGE_SIZE) (proj1 Ha) Hla Hra Hsi) as Hu.
    destruct (unmap_area_resident_range_without_flush _ _ _ _ _) as [[st1 pt1] n].
    destruct Hu as (_&Hn&(cl&Hcl&Hcl0)&Ht1). rewrite Hex.
    destruct (IH pt1 st1 Hok Hlow Hs) as (st'&pt'&l'&rv&dc&rt&->&(cl'&Hcl'&Hcl0')&Hrv&Ht&HR&Hfr&Hdc).
    { eapply Forall_impl; [exact Hres|]. intros b Hb va leaf Hu Hin Htr. eapply Hb; [done|done|].
      rewrite Ht1 in Htr by done. by case_bool_decide. }
    eexists _, _, _, _, _, _. split; [reflexivity|]. split_and!; [| | | | |].
    + exists (cl ++ cl'). rewrite fmap_app. split; [by eapply events_trans|].
      intros H0. unfold sat_add, USIZE_MAX in H0. rewrite Hcl0, Hcl0' by lia. done.
    + unfold sat_add, USIZE_MAX. lia.
    + intros va Hu. rewrite Ht, discarded_at_cons, (bool_decide_eq_true_2 (_ = _)), andb_true_r by done.
      rewrite Ht1 by done. rewrite (bool_decide_ext _ _ (Hidx va (proj1 Hu))).
      destruct (discarded_at s e va l); [by rewrite orb_true_r|]. by rewrite orb_false_r.
    + by constructor.
    + unfold vma_frames in *. rewrite !fmap_cons. cbn [mjoin list_join]. rewrite Hfr, Hfa.
      rewrite <-!app_assoc. apply Permutation_app; [done|]. rewrite !app_assoc.
      by rewrite (Permutation_app_comm (area_frames a')).
    + pose proof (zlen_nonneg (rp_frame <$> rs_iter ow)) as Hz. rewrite rs_iter_len in Hz by done.
      unfold sat_add. rewrite zlen_app, rs_iter_len, Hdc by done. pose proof (zlen_nonneg rt). lia.
Qed.

Lemma vma_frames_bound l :
  vmas_wf l → Forall area_user l → zlen (vma_frames l) ≤ 2 ^ 27.
Proof.
  intros Hw Hl. remember (2 ^ 27) as n eqn:Hn. unfold zlen. rewrite (vma_frames_map l (vmas_ok l Hw) (vmas_wf_disjoint l Hw)).
  unfold map_frames. rewrite !length_fmap.
  assert (Hsub : (map_to_list (vma_map l)).*1 ⊆+ (λ i, i * PAGE_SIZE) <$> seqZ 0 n).
  { apply NoDup_submseteq; [apply NoDup_fst_map_to_list|]. intros va Hva.
    apply list_elem_of_fmap in Hva as ([va' p]&->&Hp). apply elem_of_map_to_list in Hp. cbn [fst].
    rewrite vma_map_lookup in Hp; [|apply Hw|by apply vmas_wf_disjoint]. case_decide as Hal; [|done].
    assert (Hs : is_Some (vma_page l va')) by (destruct (vma_page l va'); [by eexists|done]).
    pose proof (areas_view_user l Hl va' Hs). apply vma_page_is_Some in Hs as (i&a&Hi&Ha).
    pose proof (vmas_area_ok l i a Hw Hi) as [[] _].
    apply list_elem_of_fmap. exists (va' / PAGE_SIZE). unfold user_va, VA_LIMIT, page_aligned, PAGE_SIZE in *.
    split; [lia|]. apply elem_of_seqZ. lia. }
  apply submseteq_length in Hsub. rewrite !length_fmap, length_seqZ in Hsub. lia.
Qed.

(** [MADV_DONTNEED] on a covered, page-aligned range takes the frames of exactly
    the private anonymous pages of the range and returns their number; those pages no
    longer translate, keep their permissions and backing, and every other page, its
    frame and its translation are untouched.  The frames are dropped only after the
    cleared leaves were shot down.  An uncovered range gives [ENOMEM] and a malformed
    one [EINVAL], and both change nothing. *)
Theorem discard_anonymous_range_exact st ms s e T :
  ms_inv st ms T →
  if bad_range s e then discard_anonymous_range st ms s e = Ret (st, ms, Err EINVAL)
  else if negb (range_covered (areas ms) s e)
  then discard_anonymous_range st ms s e = Ret (st, ms, Err ENOMEM)
  else ∃ st' ms' n, discard_anonymous_range st ms s e = Ret (st', ms', Ok n) ∧ ms_inv st' ms' T ∧
    n = zlen (owned (areas ms)) - zlen (owned (areas ms')) ∧
    (∀ va, vma_page (areas ms') va = discard_view s e va (vma_page (areas ms) va)) ∧
    (∀ va, user_page va → pt_translate (page_table ms') va =
       if discarded_at s e va (areas ms) then None else pt_translate (page_table ms) va) ∧
    same_pages st st' ∧ ∃ evs, logged st st' evs ∧ settled evs.
Proof.
  intros [Hw Hlow Hc Hf]. unfold discard_anonymous_range. destruct (bad_range s e) eqn:Eb; [done|].
  apply bad_range_false in Eb as (Hlt&Hs&He). destruct (negb _); [done|].
  destruct (discard_loop_ok (areas ms) (page_table ms) st s e)
    as (st1&pt1&l'&rv&dc&rt&->&(cl&Hcl&Hcl0)&Hrv&Ht&HR&Hfr&Hdc);
    [apply Hw|done|apply Hw|by apply areas_leaves_resident|done..|].
  assert (Hw' : vmas_wf l') by (eapply discard_rel_wf; [done|apply Hw]).
  pose proof (discard_rel_view s e (areas ms) l') as Hv.
  assert (Hcommit : ∃ evs, events st (commit_page_table_retirement st1 pt1 rv) evs ∧ settled evs).
  { unfold commit_page_table_retirement. case_bool_decide as H0.
    - rewrite (Hcl0 H0) in Hcl. exists []. split; [done|apply settled_nil].
    - exists ((EvClear <$> cl) ++ [EvFlushAll] ++ [EvShootdown (pt_root pt1)]). split.
      + eapply events_trans; [exact Hcl|]. eapply events_trans; apply events_emit.
      + rewrite app_assoc. apply settled_shootdown. apply Forall_app. split; [|by repeat constructor].
        apply Forall_fmap, Forall_true. done. }
  destruct Hcommit as (evs&Hev&Hset). pose proof Hev as (Hf1&_&_).
  set (st2 := commit_page_table_retirement st1 pt1 rv) in *. clearbody st2.
  destruct (drop_frames_ok st2 rt (owned l' ++ T)) as (st3&->&Hi&Hp&Hl).
  { rewrite Hf1. eapply svc_inv_perm; [|exact Hf]. unfold owned. rewrite app_assoc, <-fmap_app. by rewrite Hfr. }
  eexists _, _, _. split; [reflexivity|]. split; [split|split_and!]; simpl.
  - done.
  - apply view_user_areas; [done|]. intros va. rewrite Hv by done. intros Hva.
    apply (areas_view_user (areas ms) Hlow). unfold discard_view in Hva.
    case_bool_decide; [by apply fmap_is_Some in Hva|done].
  - intros va leaf Hu Hleaf. rewrite Ht in Hleaf by done. unfold leaf_ok. rewrite (Hv va HR).
    unfold discarded_at in Hleaf. unfold discard_view.
    destruct (bool_decide (s ≤ va < e)); [|by apply Hc]. simpl in Hleaf.
    destruct (vma_page (areas ms) va) as [v|] eqn:Ev.
    + destruct (bool_decide (pv_backing v = Anonymous)) eqn:Eb; [done|].
      destruct (Hc va leaf Hu Hleaf) as (v'&page&Hv'&Hx). rewrite Ev in Hv'. injection Hv' as <-.
      exists v, page. simpl. by rewrite Eb.
    + destruct (Hc va leaf Hu Hleaf) as (v'&page&Hv'&Hx). by rewrite Ev in Hv'.
  - done.
  - rewrite Hdc. unfold owned. rewrite !zlen_fmap, Hfr, zlen_app.
    pose proof (vma_frames_bound (areas ms) Hw Hlow) as Hb. rewrite Hfr, zlen_app in Hb.
    pose proof (zlen_nonneg (vma_frames l')). unfold USIZE_MAX in *. lia.
  - intros va. by apply Hv.
  - done.
  - intros q. rewrite Hp. by rewrite Hf1.
  - eexists. split; [eapply logged_trans; [by apply events_logged|exact Hl]|].
    apply settled_app; [done|apply settled_drops].
Qed.

End unmap.

(** ** Witnesses *)


Lemma release_user_areas_frees_witness :
  ∃ st' ms', release_user_areas demo_st demo_ms = Ret (st', ms') ∧ areas ms' = [] ∧
    svc_inv (st_frames st') [].
Proof.
  destruct (release_user_areas_frees demo_st demo_ms [] demo_inv) as (st'&ms'&He&_&Ha&_&Hi&_).
  exists st', ms'. split; [exact He|]. split; [exact Ha|exact Hi].
Defined.

Lemma discard_anonymous_range_exact_witness :
  ∃ st' ms' n, discard_anonymous_range demo_st demo_ms 0x10000 0x11000 = Ret (st', ms', Ok n) ∧
    ms_inv st' ms' [] ∧ n = zlen (owned (areas demo_ms)) - zlen (owned (areas ms')).
Proof.
  assert (Hb : bad_range 0x10000 0x11000 = false) by (vm_compute; reflexivity).
  assert (Hc : range_covered (areas demo_ms) 0x10000 0x11000 = true) by (vm_compute; reflexivity).
  pose proof (discard_anonymous_range_exact demo_st demo_ms 0x10000 0x11000 [] demo_inv) as H.
  rewrite Hb, Hc in H. cbn [negb] in H. destruct H as (st'&ms'&n&He&Hi&Hn&_).
  exists st', ms', n. split; [exact He|]. split; [exact Hi|exact Hn].
Defined.
