(* ===== verification/MsCow.v ===== *)
(** * Copy-on-write

    [resolve_cow_page] and [fork_cow] of src/os/src/mm/memory_set.rs: a resolved page
    has the bytes of the shared frame in a frame of its own, and a fork gives the child
    the parent's memory while no frame is writable through either page table. *)

From S2P Require Import Prelude BTree Frame Flags FileDesc ResidentSet MapArea VmaList MemorySet MsInv.
From S2P Require Import Buddy FrameAlloc Sv39 MsInsert Machine.

(** ** Replacing one area *)

Section update.
Implicit Types (l : list MapArea) (a : MapArea).

Lemma update_area_ok l i a a' :
  vmas_wf l → l !! i = Some a → area_ok a' → start_va a' = start_va a → end_va a' = end_va a →
  vmas_wf (<[i := a']> l) ∧
  (∀ va, vma_page (<[i := a']> l) va =
     if bool_decide (start_va a ≤ va < end_va a) then area_page a' va else vma_page l va) ∧
  ∃ rest, owned l ≡ₚ owned [a] ++ rest ∧ owned (<[i := a']> l) ≡ₚ owned [a'] ++ rest.
Proof.
  intros Hw Hi Ha' Es Ee. pose proof (lookup_lt_Some _ _ _ Hi) as Hlt.
  assert (Hl : l = take i l ++ a :: drop (S i) l) by (symmetry; by apply take_drop_middle).
  assert (Hl' : <[i := a']> l = take i l ++ [a'] ++ drop (S i) l) by (by apply insert_take_drop).
  assert (Hw' : vmas_wf (take i l ++ [a'] ++ drop (S i) l)).
  { apply (vmas_wf_replace _ a); [by rewrite <-Hl| |constructor; [lia|constructor]].
    split; [by constructor|by repeat constructor]. }
  rewrite Hl'. split; [done|]. split.
  - intros va. pose proof (vma_page_middle (take i l) a (drop (S i) l) va) as Hm. rewrite <-Hl in Hm.
    rewrite (vma_page_middle (take i l) a' (drop (S i) l)), (Hm Hw), Es, Ee by done. by case_bool_decide.
  - exists (owned (take i l) ++ owned (drop (S i) l)).
    assert (Hown : ∀ x l1 l2, owned (l1 ++ x :: l2) ≡ₚ owned [x] ++ owned l1 ++ owned l2).
    { intros x l1 l2. unfold owned, vma_frames. rewrite !fmap_app, fmap_cons, !join_app.
      cbn [mjoin list_join fmap list_fmap]. rewrite app_nil_r, !fmap_app.
      rewrite !app_assoc. by rewrite (Permutation_app_comm (frame_no <$> mjoin (area_frames <$> l1))). }
    split; [rewrite Hl at 1|]; apply Hown.
Qed.

Lemma update_area_user l i a a' :
  Forall area_user l → l !! i = Some a → start_va a' = start_va a → end_va a' = end_va a →
  Forall area_user (<[i := a']> l).
Proof.
  intros Hu Hi Es Ee. apply Forall_insert; [done|]. pose proof (Forall_lookup_1 _ _ _ _ Hu Hi) as Ha.
  intros va Hva. apply Ha. lia.
Qed.

(** Storing a page at the index of [va]. *)
Lemma put_page_ok l i a va rs' p1 :
  vmas_wf l → l !! i = Some a → page_aligned va → start_va a ≤ va < end_va a →
  rs_wf rs' → rmap rs' = <[(va - start_va a) / PAGE_SIZE := p1]> (rmap (area_resident a)) →
  let a1 := area_set_resident a rs' in
  area_ok a1 ∧ vmas_wf (<[i := a1]> l) ∧
  ∀ va', vma_page (<[i := a1]> l) va' =
    if bool_decide (align_down va' = va)
    then Some (mkView (area_flags a) (split_right (area_backing a) (va - start_va a)) (Some p1))
    else vma_page l va'.
Proof.
  intros Hw Hi Hal Hin Hwr Hm a1. pose proof (vmas_area_ok _ _ _ Hw Hi) as [Hwa Hba].
  assert (Ha1 : area_ok a1).
  { split; [|done]. apply area_wf_set_resident; [done|done|]. intros v q. rewrite Hm.
    intros [[<- _]|[_ Hq]]%lookup_insert_Some; [|by apply (area_resident_bounds a v q)].
    destruct Hwa. unfold area_page_count, area_size, page_aligned, PAGE_SIZE in *. lia. }
  destruct (update_area_ok l i a a1 Hw Hi Ha1 eq_refl eq_refl) as (Hw1&Hv1&_). split_and!; [done..|].
  intros va'. rewrite Hv1. destruct Hwa as [? ? ? Has Hae _ _].
  destruct (decide (start_va a ≤ va' < end_va a)) as [Hr|Hr].
  - rewrite (bool_decide_eq_true_2 (_ ≤ _ < _)), area_page_Some by done. simpl. rewrite Hm.
    destruct (decide (align_down va' = va)) as [Heq|Heq].
    { by rewrite (bool_decide_eq_true_2 (_ = va)), Heq, lookup_insert_eq. }
    rewrite (bool_decide_eq_false_2 (_ = va)) by done.
    rewrite (vma_page_at l i a), area_page_Some by done.
    rewrite lookup_insert_ne; [done|]. destruct (page_index_bound _ _ _ Has Hae Hr) as (?&_&?&_).
    unfold page_aligned, PAGE_SIZE in *. lia.
  - rewrite !bool_decide_eq_false_2; [done| |done]. unfold align_down, page_aligned, PAGE_SIZE in *. lia.
Qed.

End update.

(** Replacing the page at an index that has one. *)
Lemma area_frames_replace a a' v p p' :
  area_wf a → area_wf a' → rmap (area_resident a) !! v = Some p →
  rmap (area_resident a') = <[v := p']> (rmap (area_resident a)) →
  ∃ rest, area_frames a ≡ₚ rp_frame p :: rest ∧ area_frames a' ≡ₚ rp_frame p' :: rest.
Proof.
  intros Hw Hw' Hp Hm. unfold area_frames.
  exists (rp_frame <$> (map_to_list (delete v (rmap (area_resident a)))).*2).
  rewrite !rs_iter_frames by (apply Hw || apply Hw'). unfold map_frames. rewrite Hm. split.
  - rewrite <-(insert_delete_id (rmap (area_resident a)) v p) at 1 by done.
    by rewrite map_to_list_insert by apply lookup_delete_eq.
  - rewrite <-insert_delete_eq. by rewrite map_to_list_insert by apply lookup_delete_eq.
Qed.

Section cow.
Context {PT F : Type} `{HPT : PageTableOps PT, !PageTableLaws PT,
                        HF : FrameService F, !FrameServiceLaws F, HL : FileLayer F, !FileLayerLaws F}.
Implicit Types (pt : PT) (st : St F) (ms : MemorySet PT) (l : list MapArea) (a : MapArea) (T : list Z).

(** ** Publishing a private page *)

(** [page] is resident in [ms] at [va]; every other translation is as in [pt]. *)
Lemma publish_private_ok st ms i a idx p va T old :
  vmas_wf (areas ms) → Forall area_user (areas ms) → areas ms !! i = Some a →
  page_aligned va → start_va a ≤ va < end_va a → idx = (va - start_va a) / PAGE_SIZE →
  rmap (area_resident a) !! idx = Some p → has_leaf_permission (area_flags a) = true →
  (∀ va' leaf, user_page va' → va' ≠ va → pt_translate (page_table ms) va' = Some leaf → leaf_ok (areas ms) va' leaf) →
  svc_inv (st_frames st) (option_list (frame_no <$> old) ++ owned (areas ms) ++ T) →
  ∃ st' ms', publish_private st ms i idx va old = Ret (st', ms', Ok 1) ∧ ms_inv st' ms' T ∧
    (∀ va', vma_page (areas ms') va' =
       if bool_decide (align_down va' = va)
       then Some (mkView (area_flags a) (split_right (area_backing a) (va - start_va a))
                    (Some (mkPage (rp_frame p) Private)))
       else vma_page (areas ms) va') ∧
    (∀ va', user_page va' → pt_translate (page_table ms') va' =
       if bool_decide (va' = va)
       then if bool_decide (mapping_flags_of_pte (area_flags a) = 0) then None
            else Some (page_pa p, pt_ext (mapping_flags_of_pte (area_flags a)))
       else pt_translate (page_table ms) va') ∧
    same_pages st st' ∧ ∃ evs, logged st st' evs ∧ settled evs.
Proof.
  intros Hw Hu Hi Hal Hin -> Hp Hleaf Hoth Hinv.
  pose proof (vmas_area_ok _ _ _ Hw Hi) as [Hwa Hba]. pose proof (Forall_lookup_1 _ _ _ _ Hu Hi) as Hua.
  set (idx := (va - start_va a) / PAGE_SIZE) in *.
  pose proof (area_resident_bounds a idx p Hwa Hp) as Hb.
  assert (Hva : start_va a + idx * PAGE_SIZE = va).
  { destruct Hwa. unfold idx, page_aligned, PAGE_SIZE in *. lia. }
  destruct (page_va_ok a idx Hwa Hua Hb) as (Hpv&Hup&_). rewrite Hva in Hpv. rewrite Hpv in Hup.
  unfold publish_private, area_set_resident_state. rewrite (list_lookup_total_correct _ _ _ Hi).
  pose proof (rs_update_ok (area_resident a) idx (resident_page_set_state Private) (wf_resident _ Hwa)) as Hupd.
  rewrite Hp in Hupd. destruct Hupd as (rs'&->&Hwr&Hm).
  set (p1 := resident_page_set_state Private p) in *. set (a1 := area_set_resident a rs').
  destruct (put_page_ok (areas ms) i a va rs' p1 Hw Hi Hal Hin Hwr Hm) as (Ha1&_&Hv2). fold a1 in Ha1, Hv2.
  destruct (update_area_ok (areas ms) i a a1 Hw Hi Ha1 eq_refl eq_refl) as (Hw1&_&rest&Ho1&Ho2).
  destruct (area_frames_replace a a1 idx p p1 Hwa (proj1 Ha1) Hp Hm) as (fr&Hfr1&Hfr2).
  assert (Hown : owned (<[i := a1]> (areas ms)) ≡ₚ owned (areas ms)).
  { rewrite Ho1, Ho2, !owned_cons, Hfr1, Hfr2. done. }
  assert (Hgood : good_page p).
  { eapply svc_inv_pos; [exact Hinv|]. rewrite !elem_of_app. right. left. rewrite Ho1, elem_of_app. left.
    apply elem_of_owned_single; [done|]. by exists idx, p. }
  unfold unmap_page, tlb_shootdown, map_area_page. rewrite rs_lookup_rmap by done.
  change (area_resident a1) with rs'. rewrite Hm, lookup_insert_eq. change (area_flags a1) with (area_flags a).
  rewrite Hleaf. cbn [negb]. unfold map_page. change (page_va a1 idx) with (page_va a idx). rewrite Hpv.
  set (mf := effective_mapping_flags_for_page (area_flags a) p1).
  assert (Hmf : mf = mapping_flags_of_pte (area_flags a)) by done.
  set (pt2 := pt_map (pt_unmap (page_table ms) va) va (page_pa p1) mf).
  assert (Ht2 : ∀ va', user_page va' → pt_translate pt2 va' =
       if bool_decide (va' = va)
       then if bool_decide (mf = 0) then None else Some (page_pa p, pt_ext mf)
       else pt_translate (page_table ms) va').
  { intros va' Hu'. unfold pt2. destruct (decide (va' = va)) as [Heq|Heq];
      [rewrite (bool_decide_eq_true_2 (va' = va)) by done|rewrite (bool_decide_eq_false_2 (va' = va)) by done].
    - subst va'. rewrite pt_map_same; [done|done|by apply good_page_pa|apply mapping_flags_range].
    - rewrite pt_map_other, pt_unmap_other by done. done. }
  set (st3 := emit _ _). assert (He3 : events st st3 [EvClear va; EvFlushVa va; EvShootdown (pt_root (pt_unmap (page_table ms) va));
    EvSet va; EvFlushVa va; EvShootdown (pt_root pt2)]).
  { unfold st3, events, emit. simpl. split_and!; [done|done|]. by rewrite <-!app_assoc. }
  assert (Hdrop : ∃ st4, drop_option st3 old = Ret st4 ∧ svc_inv (st_frames st4) (owned (areas ms) ++ T) ∧
    same_pages st3 st4 ∧ logged st3 st4 (EvDrop <$> option_list (frame_no <$> old))).
  { pose proof He3 as (Hf3&_&_). rewrite <-Hf3 in Hinv. destruct old as [t|]; simpl.
    - by apply drop_frame_ok.
    - exists st3. split_and!; [done|done|done|apply logged_refl]. }
  clearbody st3. destruct Hdrop as (st4&->&Hi4&Hp4&Hl4). pose proof He3 as (Hf3&_&_).
  eexists _, _. split; [reflexivity|]. split; [|split; [done|split; [done|split]]].
  - split; simpl; [done| | |].
    + by apply (update_area_user _ i a).
    + intros va' leaf Hu' Hl'. rewrite Ht2 in Hl' by done. unfold leaf_ok. rewrite Hv2, align_down_id by apply Hu'.
      clear Ht2. destruct (bool_decide (va' = va)) eqn:Heq; [|apply bool_decide_eq_false_1 in Heq].
      * destruct (bool_decide (mf = 0)); [done|]. injection Hl' as <-. eexists _, p1. split_and!; [done|done|done|done|].
        apply leaf_perms_ext. rewrite Hmf. apply (effective_perms (area_flags a) p1).
      * by apply Hoth.
    + eapply svc_inv_perm; [|exact Hi4]. by rewrite Hown.
  - intros q. rewrite Hp4. by rewrite Hf3.
  - eexists. split; [eapply logged_trans; [by apply events_logged|exact Hl4]|].
    apply settled_app; [done|apply settled_drops].
Qed.

(** ** [resolve_cow_page] *)

(** The bytes a page of [backing] at [off] starts with. *)
Definition backing_bytes st (backing : MapAreaBacking) (off : Z) : result (list Z) SysErrNo :=
  (read_backing_page st backing off).2.

Lemma read_backing_page_ok st backing off T :
  svc_inv (st_frames st) T →
  let '(st', r) := read_backing_page st backing off in
  svc_inv (st_frames st') T ∧ same_pages st st' ∧ logged st st' [] ∧
  match r with Ok data => zlen data = PAGE_SIZE | Err _ => True end.
Proof.
  intros Hi. assert (Hz : zlen zero_page = PAGE_SIZE) by (unfold zlen; rewrite length_replicate; done).
  unfold read_backing_page. destruct backing as [| |file off' sh|];
    try by (split_and!; [done|done|apply logged_refl|done]).
  destruct (file_read_at (st_frames st) file (sat_add off off') PAGE_SIZE) as [f' r] eqn:E.
  destruct (file_read_ok (st_frames st) T file (sat_add off off') PAGE_SIZE f' r Hi ltac:(done) E) as (?&?&Hlen). split_and!; [done|done| |].
  - split; [done|]. simpl. by rewrite app_nil_r.
  - destruct r as [bytes|]; [|done]. unfold zlen in *. rewrite length_take, length_app, length_replicate.
    unfold PAGE_SIZE. lia.
Qed.

(** A page may be resolved. *)
Definition resolvable (v : page_view) : bool :=
  is_private_backing (pv_backing v) && flags_contains (pv_flags v) PTE_COW && flags_contains (pv_flags v) PTE_W.

Lemma is_private_split b d : is_private_backing (split_right b d) = is_private_backing b.
Proof. by destruct b. Qed.

(** What a resolved page is: private, in a fresh frame that holds [bytes], mapped with
    the area's permissions. *)
Definition resolved st st' ms ms' (T : list Z) (va : Z) (bytes : list Z) : Prop :=
  ∃ v t, vma_page (areas ms) va = Some v ∧
    (∀ va', vma_page (areas ms') va' =
       if bool_decide (align_down va' = va)
       then Some (mkView (pv_flags v) (pv_backing v) (Some (mkPage t Private)))
       else vma_page (areas ms) va') ∧
    frame_no t ∉ owned (areas ms) ++ T ∧ svc_page (st_frames st') (frame_no t) = bytes ∧
    (∀ va', user_page va' → pt_translate (page_table ms') va' =
       if bool_decide (va' = va)
       then Some (ppn_addr (ft_ppn t), pt_ext (mapping_flags_of_pte (pv_flags v)))
       else pt_translate (page_table ms) va').

Lemma mapping_flags_nonzero flags : flags_contains flags PTE_W = true → mapping_flags_of_pte flags ≠ 0.
Proof.
  intros H H0. destruct (mapping_flags_perms flags) as (_&Hw&_). rewrite H, H0 in Hw. done.
Qed.

(** The frame of a resident page is owned. *)
Lemma resident_owned l i a v p :
  vmas_wf l → l !! i = Some a → rmap (area_resident a) !! v = Some p → frame_no (rp_frame p) ∈ owned l.
Proof.
  intros Hw Hi Hp. pose proof (vmas_area_ok _ _ _ Hw Hi) as Ha.
  destruct (update_area_ok l i a a Hw Hi Ha eq_refl eq_refl) as (_&_&rest&Ho&_).
  rewrite Ho, elem_of_app. left. apply elem_of_owned_single; [apply Ha|]. by exists v, p.
Qed.

Lemma owners_le q (T : list Z) : owners q T ≤ zlen T.
Proof. unfold owners, zlen. pose proof (length_filter (λ x, x = q) T). lia. Qed.

(** A clone of an owned frame makes it shared. *)
Lemma clone_shared st T t :
  svc_inv (st_frames st) T → frame_no t ∈ T → zlen T < MAX_OWNERS →
  ∃ st1 n, clone_frame st t = Ret (st1, t) ∧ svc_inv (st_frames st1) (frame_no t :: T) ∧
    same_pages st st1 ∧ logged st st1 [] ∧ svc_ref_count (st_frames st1) t = Ret n ∧ 1 < n.
Proof.
  intros Hi Ht Hlen. pose proof (owners_le (frame_no t) T).
  destruct (svc_clone_ok _ _ t Hi Ht) as (f'&Hc&Hi'&Hp); [lia|].
  exists (set_frames st f'), (owners (frame_no t) (frame_no t :: T)). unfold clone_frame. rewrite Hc.
  split; [done|]. split; [done|]. split; [done|]. split; [split; [done|by simpl; rewrite app_nil_r]|]. split.
  - apply svc_ref_count_ok; [done|by left].
  - unfold owners. rewrite filter_cons, decide_True, zlen_cons by done.
    assert (0 < zlen (filter (λ x, x = frame_no t) T)); [|lia]. apply zlen_pos.
    intros Hnil. assert (Hx : frame_no t ∈ filter (λ x, x = frame_no t) T) by (by apply list_elem_of_filter).
    rewrite Hnil in Hx. by apply not_elem_of_nil in Hx.
Qed.

(** Storing the copy in a fresh frame and publishing it. *)
Lemma resolve_publish st ms T va i a t bytes rs' old :
  ms_inv st ms T → user_page va → areas ms !! i = Some a → start_va a ≤ va < end_va a →
  flags_contains (area_flags a) PTE_W = true →
  let idx := (va - start_va a) / PAGE_SIZE in
  ∀ st1, svc_inv (st_frames st1) (frame_no t :: owned (areas ms) ++ T) → frame_no t ∉ owned (areas ms) ++ T →
  svc_page (st_frames st1) (frame_no t) = bytes →
  (∀ q, q ∈ owned (areas ms) ++ T → svc_page (st_frames st1) q = svc_page (st_frames st) q) →
  (∃ evs, logged st st1 evs ∧ settled evs) →
  rs_wf rs' → (∃ s, rmap rs' = <[idx := mkPage t s]> (rmap (area_resident a))) →
  old = rp_frame <$> rmap (area_resident a) !! idx →
  ∃ st' ms', publish_private st1 (set_area ms i (area_set_resident a rs')) i idx va old = Ret (st', ms', Ok 1) ∧
    ms_inv st' ms' T ∧ resolved st st' ms ms' T va bytes ∧
    (∀ q, q ∈ owned (areas ms) ++ T → svc_page (st_frames st') q = svc_page (st_frames st) q) ∧
    ∃ evs, logged st st' evs ∧ settled evs.
Proof.
  intros [Hw Hu Hc Hf] Hva Hi Hin HW idx st1 Hi1 Hnew Hb Hsame (evs1&Hl1&Hs1) Hwr [s Hm] Hold.
  destruct (put_page_ok (areas ms) i a va rs' (mkPage t s) Hw Hi (proj1 Hva) Hin Hwr Hm) as (Ha1&Hw1&Hv1).
  set (a1 := area_set_resident a rs') in *. pose proof (vmas_area_ok _ _ _ Hw Hi) as [Hwa _].
  destruct (update_area_ok (areas ms) i a a1 Hw Hi Ha1 eq_refl eq_refl) as (_&_&rest&Ho&Ho1).
  assert (Hown : option_list (frame_no <$> old) ++ owned (<[i := a1]> (areas ms)) ≡ₚ frame_no t :: owned (areas ms)).
  { rewrite Ho, Ho1, !owned_cons. rewrite Hold. destruct (rmap (area_resident a) !! idx) as [p|] eqn:Ep.
    - destruct (area_frames_replace a a1 idx p (mkPage t s) Hwa (proj1 Ha1) Ep Hm) as (fr&->&->).
      simpl. by rewrite perm_swap.
    - rewrite (area_frames_insert a a1 idx (mkPage t s)) by (done || apply Ha1). done. }
  pose proof (lookup_lt_Some _ _ _ Hi) as Hlt.
  destruct (publish_private_ok st1 (set_area ms i a1) i a1 idx (mkPage t s) va T old)
    as (st'&ms'&He&Hi'&Hv'&Ht'&Hp'&evs2&Hl2&Hs2).
  - done.
  - by apply (update_area_user _ i a).
  - by apply list_lookup_insert_eq.
  - apply Hva.
  - done.
  - done.
  - change (area_resident a1) with rs'. rewrite Hm. apply lookup_insert_eq.
  - eapply contains_has_leaf; [|exact HW]. rewrite !elem_of_cons. auto.
  - intros va' leaf Hu' Hne Hl. simpl in Hl. destruct (Hc va' leaf Hu' Hl) as (v&pg&Hvv&Hx). exists v, pg.
    simpl. rewrite Hv1, align_down_id, bool_decide_eq_false_2 by (done || apply Hu'). done.
  - eapply svc_inv_perm; [|exact Hi1]. simpl. rewrite app_assoc. by rewrite Hown.
  - exists st', ms'. split_and!; [done|done| | |].
    + exists (mkView (area_flags a) (split_right (area_backing a) (va - start_va a)) (rmap (area_resident a) !! idx)), t.
      split_and!; [| |done|by rewrite Hp'|].
      * rewrite (vma_page_at (areas ms) i a), area_page_Some, align_down_id by (done || apply Hva). done.
      * intros va'. rewrite Hv'. simpl. rewrite Hv1. by destruct (bool_decide (align_down va' = va)).
      * intros va' Hu'. rewrite Ht' by done. simpl.
        by rewrite (bool_decide_eq_false_2 (mapping_flags_of_pte _ = 0)) by (by apply mapping_flags_nonzero).
    + intros q Hq. rewrite Hp'. by apply Hsame.
    + eexists. split; [by eapply logged_trans|by apply settled_app].
Qed.

Lemma backing_bytes_view st b off :
  backing_ok b → 0 ≤ off → backing_bytes st b off = backing_bytes st (split_right b off) 0.
Proof.
  intros Hb Hoff. unfold backing_bytes, read_backing_page. destruct b as [| |file o sh|]; try done. simpl in *.
  replace (sat_add 0 (sat_add o off)) with (sat_add off o); [done|].
  unfold is_usize, sat_add in *. unfold USIZE_MAX. lia.
Qed.

(** The result of resolving the page at [va] of [ms]: an absent page starts with what
    its backing holds, read once a frame was allocated. *)
Definition resolve_result st st' ms ms' (T : list Z) (va : Z) (r : result Z SysErrNo) : Prop :=
  match r with
  | Ok n => n = 1 ∧ ∃ v bytes, vma_page (areas ms) va = Some v ∧ resolvable v = true ∧
      match pv_page v with
      | Some p => bytes = svc_page (st_frames st) (frame_no (rp_frame p))
      | None => ∃ st1 t, new_frame st = Ret (st1, Some t) ∧ backing_bytes st1 (pv_backing v) 0 = Ok bytes
      end ∧ resolved st st' ms ms' T va bytes
  | Err e => ms' = ms ∧
      match vma_page (areas ms) va with
      | None => e = EFAULT
      | Some v => if resolvable v then
          e = ENOMEM ∨ pv_page v = None ∧ ∃ st1, backing_bytes st1 (pv_backing v) 0 = Err e
          else e = EFAULT
      end
  end.

Lemma new_frame_ok st T :
  svc_inv (st_frames st) T →
  ∃ st' o, new_frame st = Ret (st', o) ∧ logged st st' [] ∧
    match o with
    | Some t => svc_inv (st_frames st') (frame_no t :: T) ∧ frame_no t ∉ T ∧
        svc_page (st_frames st') (frame_no t) = zero_page ∧
        (∀ q, q ≠ frame_no t → svc_page (st_frames st') q = svc_page (st_frames st) q)
    | None => svc_inv (st_frames st') T ∧ same_pages st st'
    end.
Proof.
  intros Hi. destruct (svc_alloc_ok _ _ Hi) as (f'&o&Ha&Ho). exists (set_frames st f'), o.
  unfold new_frame. rewrite Ha. split; [done|]. split; [split; [done|by simpl; rewrite app_nil_r]|].
  by destruct o.
Qed.

(** What every run of [resolve_cow_page] keeps. *)
Definition resolve_frame st st' ms (T : list Z) : Prop :=
  (∀ q, q ∈ owned (areas ms) ++ T → svc_page (st_frames st') q = svc_page (st_frames st) q) ∧
  ∃ evs, logged st st' evs ∧ settled evs.

Lemma resolve_frame_same st st' ms T evs :
  same_pages st st' → logged st st' evs → settled evs → resolve_frame st st' ms T.
Proof. intros Hp Hl Hs. split; [done|by exists evs]. Qed.

(** The page found by the search. *)
Lemma area_found ms va i :
  vmas_wf (areas ms) → page_aligned va → area_index_containing (areas ms) va = Some i →
  let a := areas ms !!! i in
  areas ms !! i = Some a ∧ area_ok a ∧ start_va a ≤ va < end_va a ∧
  vma_page (areas ms) va = Some (mkView (area_flags a) (split_right (area_backing a) (va - start_va a))
                                   (rmap (area_resident a) !! ((va - start_va a) / PAGE_SIZE))).
Proof.
  intros Hw Hal Hx a. pose proof (area_index_containing_ok (areas ms) va Hw) as Hidx. rewrite Hx in Hidx.
  destruct Hidx as [Hlt Hin]. fold a in Hin.
  assert (Hai : areas ms !! i = Some a) by (by apply list_lookup_lookup_total_lt).
  split_and!; [done|by apply (vmas_area_ok _ _ _ Hw Hai)..|lia|lia|].
  by rewrite (vma_page_at (areas ms) i a), area_page_Some, align_down_id by done.
Qed.

Lemma resolve_resident st ms T va i p :
  let a := areas ms !!! i in
  ms_inv st ms T → user_page va → zlen (owned (areas ms) ++ T) < MAX_OWNERS →
  area_index_containing (areas ms) va = Some i →
  rmap (area_resident a) !! ((va - start_va a) / PAGE_SIZE) = Some p →
  resolvable (mkView (area_flags a) (area_backing a) None) = true →
  ∃ st' ms' r, resolve_cow_page st ms va = Ret (st', ms', r) ∧ ms_inv st' ms' T ∧ resolve_frame st st' ms T ∧
    match r with
    | Ok n => n = 1 ∧ resolved st st' ms ms' T va (svc_page (st_frames st) (frame_no (rp_frame p)))
    | Err e => ms' = ms ∧ e = ENOMEM
    end.
Proof.
  intros a Hi Hva Hlen Hidx Hp Hres. pose proof Hi as [Hw Hu Hc Hf].
  destruct (area_found ms va i Hw (proj1 Hva) Hidx) as (Hai&[Hwa Hba]&Hin&_). fold a in Hai, Hwa, Hba, Hin.
  apply andb_true_iff in Hres as [[Hr1 Hr2]%andb_true_iff Hr3]. simpl in Hr1, Hr2, Hr3.
  unfold resolve_cow_page. rewrite Hidx. fold a. rewrite rs_lookup_rmap, Hp by apply Hwa. cbn [fmap option_fmap option_map].
  destruct (clone_shared st (owned (areas ms) ++ T) (rp_frame p)) as (st1&n&->&Hi1&Hp1&Hl1&Hn&Hn1);
    [done|rewrite elem_of_app; left; by eapply resident_owned|done|].
  rewrite Hr1, Hr2, Hr3. cbn [negb orb]. rewrite Hn, bool_decide_eq_true_2 by done.
  destruct (new_frame_ok st1 _ Hi1) as (st2&o&->&Hl2&Ho). destruct o as [t|].
  - destruct Ho as (Hi2&Hnew&_&Hoth). unfold copy_page, drop_frame. apply not_elem_of_cons in Hnew as [Hne Hnew].
    destruct (svc_store_page (st_frames st2) _ (frame_no t) (svc_page (st_frames st2) (frame_no (rp_frame p))) Hi2)
      as (Hi3&Hs3&Ho3); [by eapply svc_page_len|].
    set (st3 := set_frames st2 _). change (svc_store _ _ _ _) with (st_frames st3) in Hi3, Hs3, Ho3.
    destruct (drop_frame_ok st3 (rp_frame p) (frame_no t :: owned (areas ms) ++ T)) as (st4&Hd&Hi4&Hp4&Hl4).
    { eapply svc_inv_perm; [apply perm_swap|exact Hi3]. }
    unfold drop_frame in Hd. rewrite Hd. unfold area_replace_resident_page. rewrite rs_lookup_rmap, Hp by apply Hwa.
    pose proof (rs_update_ok (area_resident a) ((va - start_va a) / PAGE_SIZE) (λ p, mkPage t (rp_state p))
      (wf_resident _ Hwa)) as Hupd.
    rewrite Hp in Hupd. destruct Hupd as (rs'&->&Hwr&Hm).
    destruct (resolve_publish st ms T va i a t (svc_page (st_frames st) (frame_no (rp_frame p))) rs'
      (Some (rp_frame p)) Hi Hva Hai Hin Hr3 st4) as (st'&ms'&->&Hi'&Hrs&Hsm&Hev).
    + done.
    + done.
    + rewrite Hp4, Hs3, Hoth by done. apply Hp1.
    + intros q Hq. rewrite Hp4, Ho3, Hoth, Hp1; [done|..]; by intros ->.
    + eexists. split; [|apply (settled_drops [frame_no (rp_frame p)])].
      apply (logged_trans _ st1 _ [] _ Hl1). apply (logged_trans _ st2 _ [] _ Hl2). exact Hl4.
    + done.
    + by exists (rp_state p).
    + by rewrite Hp.
    + eexists _, _, _. split; [reflexivity|]. by split_and!.
  - destruct Ho as [Hi2 Hp2]. destruct (drop_frame_ok st2 (rp_frame p) _ Hi2) as (st3&->&Hi3&Hp3&Hl3).
    eexists _, _, _. split; [reflexivity|]. split_and!; [by split| |done|done].
    eapply (resolve_frame_same _ _ _ _ [EvDrop (frame_no (rp_frame p))]);
      [intros q; by rewrite Hp3, Hp2, Hp1| |apply (settled_drops [_])].
    apply (logged_trans _ st1 _ [] _ Hl1). apply (logged_trans _ st2 _ [] _ Hl2). exact Hl3.
Qed.

(** Filling a fresh frame from the backing; the frame is given back when the read fails. *)
Lemma fill_from_backing st T b off :
  svc_inv (st_frames st) T → backing_ok b → 0 ≤ off →
  ∃ st1 o, new_frame st = Ret (st1, o) ∧ logged st st1 [] ∧
    match o with
    | None => svc_inv (st_frames st1) T ∧ same_pages st st1
    | Some t => frame_no t ∉ T ∧ ∃ st2 r, read_backing_page st1 b off = (st2, r) ∧
        logged st1 st2 [] ∧ r = backing_bytes st1 (split_right b off) 0 ∧
        match r with
        | Err e => ∃ st3, drop_frame st2 t = Ret st3 ∧ svc_inv (st_frames st3) T ∧ logged st2 st3 [EvDrop (frame_no t)] ∧
            ∀ q, q ∈ T → svc_page (st_frames st3) q = svc_page (st_frames st) q
        | Ok data => let st3 := store_frame st2 t 0 data in
            svc_inv (st_frames st3) (frame_no t :: T) ∧ logged st2 st3 [] ∧
            svc_page (st_frames st3) (frame_no t) = data ∧
            ∀ q, q ∈ T → svc_page (st_frames st3) q = svc_page (st_frames st) q
        end
    end.
Proof.
  intros Hi Hb Hoff. destruct (new_frame_ok st T Hi) as (st1&o&Hn&Hl&Ho). exists st1, o. split_and!; [done|done|].
  destruct o as [t|]; [|done]. destruct Ho as (Hi1&Hnew&_&Hoth). split; [done|].
  pose proof (read_backing_page_ok st1 b off _ Hi1) as Hrd. rewrite <-backing_bytes_view by done.
  unfold backing_bytes. destruct (read_backing_page st1 b off) as [st2 r]. destruct Hrd as (Hi2&Hp2&Hl2&Hr).
  exists st2, r. split_and!; [done|done|done|].
  assert (Hsame : ∀ q, q ∈ T → svc_page (st_frames st2) q = svc_page (st_frames st) q).
  { intros q Hq. rewrite Hp2, Hoth; [done|]. by intros ->. }
  destruct r as [data|e].
  - destruct (svc_store_page _ _ (frame_no t) data Hi2 Hr) as (Hi3&Hs3&Ho3). split_and!; [done| |done|].
    + split; [done|]. simpl. by rewrite app_nil_r.
    + intros q Hq. simpl. rewrite Ho3; [by apply Hsame|]. by intros ->.
  - destruct (drop_frame_ok st2 t T Hi2) as (st3&Hd&Hi3&Hp3&Hl3). exists st3. split_and!; [done|done| |].
    + exact Hl3.
    + intros q Hq. rewrite Hp3. by apply Hsame.
Qed.

Lemma page_index_usize a va :
  area_wf a → page_aligned va → start_va a ≤ va < end_va a → 0 ≤ (va - start_va a) / PAGE_SIZE < USIZE_MAX.
Proof. intros [] Hal Hin. unfold page_aligned, PAGE_SIZE, USIZE_MAX in *. lia. Qed.

(** [area_insert_resident_page] at a free index. *)
Lemma area_insert_page_ok a idx t s :
  area_wf a → 0 ≤ idx < USIZE_MAX → rmap (area_resident a) !! idx = None →
  ∃ rs', area_insert_resident_page a idx t s = Ret (area_set_resident a rs', Ok tt) ∧ rs_wf rs' ∧
    rmap rs' = <[idx := mkPage t s]> (rmap (area_resident a)).
Proof.
  intros Hw Hi Hn. unfold area_insert_resident_page, rs_insert_page_with_state.
  destruct (rs_insert_page_ok (area_resident a) idx (mkPage t s)) as (rs'&->&?&?); [apply Hw|done|done|].
  by exists rs'.
Qed.

Lemma resolve_absent st ms T va i :
  let a := areas ms !!! i in
  let b := split_right (area_backing a) (va - start_va a) in
  ms_inv st ms T → user_page va → area_index_containing (areas ms) va = Some i →
  rmap (area_resident a) !! ((va - start_va a) / PAGE_SIZE) = None →
  resolvable (mkView (area_flags a) (area_backing a) None) = true →
  ∃ st' ms' r, resolve_cow_page st ms va = Ret (st', ms', r) ∧ ms_inv st' ms' T ∧ resolve_frame st st' ms T ∧
    match r with
    | Ok n => n = 1 ∧ ∃ bytes st1 t, new_frame st = Ret (st1, Some t) ∧ backing_bytes st1 b 0 = Ok bytes ∧
        resolved st st' ms ms' T va bytes
    | Err e => ms' = ms ∧ (e = ENOMEM ∨ ∃ st1, backing_bytes st1 b 0 = Err e)
    end.
Proof.
  intros a b Hi Hva Hidx Hp Hres. pose proof Hi as [Hw Hu Hc Hf].
  destruct (area_found ms va i Hw (proj1 Hva) Hidx) as (Hai&[Hwa Hba]&Hin&_). fold a in Hai, Hwa, Hba, Hin.
  apply andb_true_iff in Hres as [[Hr1 Hr2]%andb_true_iff Hr3]. simpl in Hr1, Hr2, Hr3.
  unfold resolve_cow_page. rewrite Hidx. fold a. rewrite rs_lookup_rmap, Hp by apply Hwa. cbn [fmap option_fmap option_map].
  rewrite Hr1, Hr2, Hr3. cbn [negb orb].
  assert (Hoff : sat_sub va (start_va a) = va - start_va a) by (unfold sat_sub; lia). rewrite Hoff.
  destruct (fill_from_backing st _ (area_backing a) (va - start_va a) Hf Hba) as (st1&o&Hn&Hl1&Ho); [lia|].
  rewrite Hn. destruct o as [t|].
  2:{ destruct Ho as [Hi1 Hp1]. eexists _, _, _. split; [reflexivity|]. split_and!; [by split| |done|by left].
      by apply (resolve_frame_same _ _ _ _ []). }
  destruct Ho as (Hnew&st2&r&->&Hl2&Hr&Ho). destruct r as [data|e].
  - destruct Ho as (Hi3&Hl3&Hs3&Hsame).
    destruct (area_insert_page_ok a ((va - start_va a) / PAGE_SIZE) t Private) as (rs'&->&Hwr&Hm);
      [done|by apply page_index_usize; [|apply Hva|]|done|].
    destruct (resolve_publish st ms T va i a t data rs' None Hi Hva Hai Hin Hr3 (store_frame st2 t 0 data))
      as (st'&ms'&->&Hi'&Hrs&Hsm&Hev); [done..| |done|by exists Private|by rewrite Hp|].
    { exists []. split; [|apply settled_nil]. apply (logged_trans _ st1 _ [] _ Hl1).
      apply (logged_trans _ st2 _ [] _ Hl2). exact Hl3. }
    eexists _, _, _. split; [reflexivity|]. split; [done|]. split; [by split|]. split; [done|]. by exists data, st1, t.
  - destruct Ho as (st3&->&Hi3&Hl3&Hsame). eexists _, _, _. split; [reflexivity|].
    split; [by split|]. split; [|split; [done|right; by exists st1]]. split; [done|].
    eexists. split; [|apply (settled_drops [frame_no t])]. apply (logged_trans _ st1 _ [] _ Hl1).
    apply (logged_trans _ st2 _ [] _ Hl2). exact Hl3.
Qed.

Lemma resolve_cow_page_ok st ms T va :
  ms_inv st ms T → user_page va → zlen (owned (areas ms) ++ T) < MAX_OWNERS →
  ∃ st' ms' r, resolve_cow_page st ms va = Ret (st', ms', r) ∧ ms_inv st' ms' T ∧
    resolve_frame st st' ms T ∧ resolve_result st st' ms ms' T va r.
Proof.
  intros Hi Hva Hlen. pose proof Hi as [Hw Hu Hc Hf]. unfold resolve_result.
  destruct (area_index_containing (areas ms) va) as [i|] eqn:Hidx.
  2:{ pose proof (area_index_containing_ok (areas ms) va Hw) as Hno. rewrite Hidx in Hno.
      unfold resolve_cow_page. rewrite Hidx. eexists _, _, _. split; [reflexivity|].
      split; [done|]. split; [|split; [done|by rewrite Hno]].
      apply (resolve_frame_same _ _ _ _ []); [done|apply logged_refl|apply settled_nil]. }
  destruct (area_found ms va i Hw (proj1 Hva) Hidx) as (Hai&[Hwa Hba]&Hin&Hview). set (a := areas ms !!! i) in *.
  rewrite Hview. set (v := mkView _ _ _) in *.
  assert (Hrv : resolvable v = resolvable (mkView (area_flags a) (area_backing a) None)).
  { unfold resolvable. simpl. by rewrite is_private_split. }
  destruct (resolvable (mkView (area_flags a) (area_backing a) None)) eqn:Hres; rewrite Hrv.
  - destruct (rmap (area_resident a) !! ((va - start_va a) / PAGE_SIZE)) as [p|] eqn:Hp.
    + destruct (resolve_resident st ms T va i p Hi Hva Hlen Hidx Hp Hres) as (st'&ms'&r&He&Hi'&Hfr&Hr).
      exists st', ms', r. split; [done|]. split; [done|]. split; [done|]. destruct r as [n|e]; [|naive_solver].
      destruct Hr as [-> Hr]. split; [done|]. exists v, (svc_page (st_frames st) (frame_no (rp_frame p))). done.
    + destruct (resolve_absent st ms T va i Hi Hva Hidx Hp Hres) as (st'&ms'&r&He&Hi'&Hfr&Hr).
      exists st', ms', r. split; [done|]. split; [done|]. split; [done|]. destruct r as [n|e]; [|naive_solver].
      destruct Hr as [-> (bytes&st1&t&Hn&Hb&Hr)]. split; [done|]. exists v, bytes.
      split; [done|]. split; [done|]. split; [|done]. by exists st1, t.
  - unfold resolve_cow_page. rewrite Hidx. fold a. rewrite rs_lookup_rmap by apply Hwa.
    assert (Hguard : negb (is_private_backing (area_backing a)) || negb (flags_contains (area_flags a) PTE_COW) ||
      negb (flags_contains (area_flags a) PTE_W) = true).
    { unfold resolvable in Hres. simpl in Hres. by destruct (is_private_backing _), (flags_contains _ PTE_COW), (flags_contains _ PTE_W). }
    destruct (rmap (area_resident a) !! _) as [p|] eqn:Hp; cbn [fmap option_fmap option_map].
    + destruct (clone_shared st (owned (areas ms) ++ T) (rp_frame p)) as (st1&n&->&Hi1&Hp1&Hl1&_&_);
        [done|rewrite elem_of_app; left; by eapply resident_owned|done|]. rewrite Hguard. cbn [drop_option].
      destruct (drop_frame_ok st1 (rp_frame p) _ Hi1) as (st2&->&Hi2&Hp2&Hl2).
      eexists _, _, _. split; [reflexivity|]. split; [by split|]. split; [|done].
      eapply (resolve_frame_same _ _ _ _ ([] ++ [_])); [intros q; by rewrite Hp2, Hp1|by eapply logged_trans|apply (settled_drops [_])].
    + rewrite Hguard. eexists _, _, _. split; [reflexivity|]. split; [done|]. split; [|done].
      apply (resolve_frame_same _ _ _ _ []); [done|apply logged_refl|apply settled_nil].
Qed.

(** Resolving a copy-on-write page: if the page is in a private, writable,
    copy-on-write area, it ends up in a fresh frame, owned by nobody else, with the bytes
    the shared frame had (or, when not resident, the bytes of its backing), in state
    [Private], mapped with the full permissions of the area; every other page,
    translation and frame is unchanged.  The only failures are memory or read errors,
    and they, like pages that may not be resolved ([EFAULT]), leave the address space as
    it was.  The old frame is dropped only after the old leaf was shot down. *)
Theorem resolve_cow_page_correct st ms T va :
  ms_inv st ms T → user_page va → zlen (owned (areas ms) ++ T) < MAX_OWNERS →
  ∃ st' ms' r, resolve_cow_page st ms va = Ret (st', ms', r) ∧ ms_inv st' ms' T ∧
    resolve_frame st st' ms T ∧ resolve_result st st' ms ms' T va r.
Proof. apply resolve_cow_page_ok. Qed.

End cow.
