(* ===== verification/MsFork.v ===== *)
(** * Forking an address space

    [fork_cow] of src/os/src/mm/memory_set.rs: the child sees the parent's memory, the
    frames both sides refer to are counted once more, and a private frame that both
    refer to is writable through neither page table. *)

From S2P Require Import Prelude BTree Frame Flags FileDesc ResidentSet MapArea VmaList MemorySet MsInv.
From S2P Require Import Buddy FrameAlloc Sv39 MsInsert Machine MsCow.

(** ** Setting the state of all pages *)

Lemma set_all_state_ok a s :
  area_ok a →
  area_ok (area_set_all_resident_state a s) ∧
  (∀ v, rmap (area_resident (area_set_all_resident_state a s)) !! v =
        (λ p, mkPage (rp_frame p) s) <$> rmap (area_resident a) !! v) ∧
  area_frames (area_set_all_resident_state a s) ≡ₚ area_frames a.
Proof.
  intros [Hw Hb]. unfold area_set_all_resident_state.
  assert (Hm : rmap (rs_map_pages (resident_page_set_state s) (area_resident a)) =
    resident_page_set_state s <$> rmap (area_resident a)) by apply rmap_map_pages.
  assert (Hw' : area_wf (area_set_resident a (rs_map_pages (resident_page_set_state s) (area_resident a)))).
  { apply area_wf_set_resident; [done|apply rs_wf_map_pages, Hw|]. intros v p. rewrite Hm, lookup_fmap.
    intros (p'&Hp&_)%fmap_Some. by apply (area_resident_bounds a v p'). }
  split; [by split|]. split.
  - intros v. simpl. rewrite Hm, lookup_fmap. done.
  - unfold area_frames. rewrite !rs_iter_frames by (apply Hw || apply Hw'). unfold map_frames. simpl.
    rewrite Hm, map_to_list_fmap. rewrite <-!list_fmap_compose. done.
Qed.

Lemma owned_app l1 l2 : owned (l1 ++ l2) = owned l1 ++ owned l2.
Proof. unfold owned, vma_frames. by rewrite fmap_app, join_app, fmap_app. Qed.

Lemma owned_single a : owned [a] = frame_no <$> area_frames a.
Proof. rewrite owned_cons. unfold owned, vma_frames. simpl. by rewrite app_nil_r. Qed.

(** ** What a fork makes of one area *)

(** The area before the fork, the parent's and the child's after it; [bytes] and
    [bytes'] are the frames' contents before and after. *)
Record fork_triple (bytes bytes' : Z → list Z) (a ap ac : MapArea) : Prop := {
  ft_parent : area_ok ap;
  ft_child : area_ok ac;
  ft_start : start_va ap = start_va a ∧ start_va ac = start_va a;
  ft_end : end_va ap = end_va a ∧ end_va ac = end_va a;
  ft_backing : area_backing ap = area_backing a ∧ area_backing ac = area_backing a;
  ft_flags : area_flags ac = area_flags ap ∧
    (area_flags ap = area_flags a ∨ area_flags ap = flags_union (area_flags a) PTE_COW);
  ft_absent : ∀ v, rmap (area_resident a) !! v = None →
    rmap (area_resident ap) !! v = None ∧ rmap (area_resident ac) !! v = None;
  ft_pages : ∀ v p, rmap (area_resident a) !! v = Some p →
    ∃ pp pc, rmap (area_resident ap) !! v = Some pp ∧ rmap (area_resident ac) !! v = Some pc ∧
      rp_frame pp = rp_frame p ∧ bytes' (frame_no (rp_frame pc)) = bytes (frame_no (rp_frame p)) ∧
      (rp_frame pc = rp_frame p →
       is_shared_mapping a = true ∨ flags_contains (area_flags a) PTE_W = false ∨
       (rp_state pp = Cow ∧ rp_state pc = Cow))
}.

(** The same for the page at an address: [o] before, [op] and [oc] after. *)
Definition fork_view (bytes bytes' : Z → list Z) (o op oc : option page_view) : Prop :=
  match o with
  | None => op = None ∧ oc = None
  | Some v => ∃ vp vc, op = Some vp ∧ oc = Some vc ∧
      pv_flags vc = pv_flags vp ∧
      (pv_flags vp = pv_flags v ∨ pv_flags vp = flags_union (pv_flags v) PTE_COW) ∧
      pv_backing vp = pv_backing v ∧ backing_equiv (pv_backing vc) (pv_backing v) ∧
      match pv_page v with
      | None => pv_page vp = None ∧ pv_page vc = None
      | Some p => ∃ pp pc, pv_page vp = Some pp ∧ pv_page vc = Some pc ∧ rp_frame pp = rp_frame p ∧
          bytes' (frame_no (rp_frame pc)) = bytes (frame_no (rp_frame p)) ∧
          (rp_frame pc = rp_frame p → is_private_backing (pv_backing v) = true →
           flags_contains (pv_flags v) PTE_W = false ∨ (rp_state pp = Cow ∧ rp_state pc = Cow))
      end
  end.

Lemma private_not_shared b d :
  is_private_backing (split_right b d) = true →
  match b with AnonymousShared | SharedMemory _ _ _ => true | FileBacked _ _ sh => sh | Anonymous => false end = false.
Proof. destruct b as [| |? ? [] |]; done. Qed.

Lemma fork_triple_view bytes bytes' a ap ac va :
  fork_triple bytes bytes' a ap ac →
  fork_view bytes bytes' (area_page a va) (area_page ap va) (area_page ac va).
Proof.
  intros [_ _ [Es1 Es2] [Ee1 Ee2] [Eb1 Eb2] [Ef1 Ef2] Habs Hpg]. unfold fork_view.
  destruct (decide (start_va a ≤ va < end_va a)) as [Hin|Hin].
  - rewrite !area_page_Some by lia. eexists _, _. split; [reflexivity|]. split; [reflexivity|]. simpl.
    rewrite Es1, Es2, Eb1, Eb2. split_and!; [done|done|done|by destruct (area_backing a)|].
    set (v := (align_down va - start_va a) / PAGE_SIZE). destruct (rmap (area_resident a) !! v) as [p|] eqn:Hp.
    + destruct (Hpg v p Hp) as (pp&pc&?&?&?&?&Hs). exists pp, pc. split_and!; [done..|].
      intros Heq Hpriv. destruct (Hs Heq) as [Hsh|[?|?]]; [|by left|by right].
      apply private_not_shared in Hpriv. unfold is_shared_mapping in Hsh. congruence.
    + by apply Habs.
  - by rewrite !area_page_None by lia.
Qed.

Lemma fork_view_equiv bytes bytes' o op oc oc' :
  fork_view bytes bytes' o op oc → oc' ≡ oc → fork_view bytes bytes' o op oc'.
Proof.
  unfold fork_view. destruct o as [v|].
  - intros (vp&vc&->&->&H1&H2&H3&H4&H5) Heq. inversion Heq as [vc' ? Hv Hx|]; subst.
    destruct Hv as (Hf&Hb&Hp). exists vp, vc'. rewrite Hf, Hp. split_and!; [done..| |done].
    by etransitivity.
  - intros [-> ->] Heq. split; [done|]. by inversion Heq.
Qed.

Section fork.
Context {PT F : Type} `{HPT : PageTableOps PT, !PageTableLaws PT,
                        HF : FrameService F, !FrameServiceLaws F, HL : FileLayer F}.
Implicit Types (pt : PT) (st : St F) (ms : MemorySet PT) (l d r : list MapArea) (a : MapArea) (T : list Z).

(** Replacing an area keeps coherence when its own leaves stay good. *)
Lemma coherent_replace d a a' r pt :
  vmas_wf (d ++ a :: r) → area_ok a' → start_va a' = start_va a → end_va a' = end_va a →
  coherent (d ++ a :: r) pt →
  (∀ va leaf, user_page va → start_va a ≤ va < end_va a → pt_translate pt va = Some leaf →
     leaf_ok [a] va leaf → leaf_ok [a'] va leaf) →
  vmas_wf (d ++ a' :: r) ∧ coherent (d ++ a' :: r) pt.
Proof.
  intros Hw Ha' Es Ee Hc Hin.
  assert (Hw' : vmas_wf (d ++ a' :: r)).
  { apply (vmas_wf_replace d a r [a']); [done| |constructor; [lia|constructor]].
    split; [by constructor|by repeat constructor]. }
  split; [done|]. intros va leaf Hu Ht. pose proof (Hc va leaf Hu Ht) as Hl. unfold leaf_ok in *.
  assert (Hsing : ∀ b, vma_page [b] va = area_page b va) by (intros b; simpl; by destruct (area_page b va)).
  rewrite vma_page_middle in Hl |- * by done. rewrite Es, Ee.
  destruct (decide (start_va a ≤ va < end_va a)) as [Hr|Hr].
  - rewrite bool_decide_eq_true_2 in Hl |- * by done. rewrite <-Hsing in Hl |- *. by apply Hin.
  - by rewrite bool_decide_eq_false_2 in Hl |- *.
Qed.

Lemma coherent_app l l' pt : coherent l pt → coherent (l ++ l') pt.
Proof.
  intros Hc va leaf Hva Ht. destruct (Hc va leaf Hva Ht) as (v&p&Hv&Hx). exists v, p. split; [|done].
  by rewrite vma_page_app, Hv.
Qed.

(** Appending an area to the child's list. *)
Lemma coherent_snoc l a pt st :
  vmas_wf (l ++ [a]) → area_user a → area_good a → coherent l pt →
  let '(st', pt') := map_area_pages st pt a in
  coherent (l ++ [a]) pt' ∧ ∃ evs, events st st' evs ∧ Forall harmless evs.
Proof.
  intros Hw Hu Hg Hc.
  assert (Hi : (l ++ [a]) !! length l = Some a) by (by rewrite lookup_app_r, Nat.sub_diag).
  pose proof (coherent_app l [a] pt Hc) as Hc'.
  pose proof (map_area_pages_ok (l ++ [a]) pt st a (proj1 (vmas_area_ok _ _ _ Hw Hi)) Hu Hg
    (area_of_lookup _ _ _ Hw Hi) Hc') as H.
  destruct (map_area_pages st pt a) as [st' pt']. naive_solver.
Qed.

(** The state of the loop of [fork_cow]: [tr] are the areas already processed. *)
Definition fk_done (tr : list (MapArea * MapArea * MapArea)) : list MapArea := (λ x, x.1.2) <$> tr.
Definition fk_child (tr : list (MapArea * MapArea * MapArea)) : list MapArea := (λ x, x.2) <$> tr.
Definition fk_orig (tr : list (MapArea * MapArea * MapArea)) : list MapArea := (λ x, x.1.1) <$> tr.

Record forking st0 st pt npt (tr : list (MapArea * MapArea * MapArea)) (rest : list MapArea) (T : list Z)
    : Prop := {
  fk_vmas : vmas_wf (fk_done tr ++ rest);
  fk_user : Forall area_user (fk_done tr ++ rest);
  fk_coherent : coherent (fk_done tr ++ rest) pt;
  fk_child_coherent : coherent (fk_child tr) npt;
  fk_triples : Forall (λ x, fork_triple (svc_page (st_frames st0)) (svc_page (st_frames st)) x.1.1 x.1.2 x.2) tr;
  fk_inv : svc_inv (st_frames st) (owned (fk_child tr) ++ owned (fk_done tr ++ rest) ++ T);
  fk_kept : owned (fk_done tr) ≡ₚ owned (fk_orig tr);
  fk_same : ∀ q, q ∈ owned (fk_done tr ++ rest) ++ T → svc_page (st_frames st) q = svc_page (st_frames st0) q;
  fk_count : zlen (owned (fk_child tr)) ≤ zlen (owned (fk_done tr));
  fk_log : ∃ evs, logged st0 st evs ∧ settled evs
}.

(** The child's areas lie where the parent's do. *)
Definition fork_shape (ap ac : MapArea) : Prop :=
  area_ok ac ∧ start_va ac = start_va ap ∧ end_va ac = end_va ap.

Lemma fork_triple_shape bytes bytes' a ap ac : fork_triple bytes bytes' a ap ac → fork_shape ap ac.
Proof. intros [? ? [? ?] [? ?] ? ? ? ?]. unfold fork_shape. split_and!; [by destruct ft_child0..|congruence|congruence]. Qed.

Lemma fk_child_vmas tr rest :
  vmas_wf (fk_done tr ++ rest) → Forall (λ x, fork_shape x.1.2 x.2) tr → vmas_wf (fk_child tr).
Proof.
  intros Hw Ht. destruct Hw as [_ Hs]. apply StronglySorted_app in Hs as (_&Hs&_). split.
  { apply Forall_fmap. eapply Forall_impl; [exact Ht|]. intros x Hx. apply Hx. }
  unfold fk_done, fk_child in *. induction Ht as [|x tr (_&H1&H2) Ht IH]; [constructor|].
  rewrite fmap_cons in Hs |- *. apply StronglySorted_inv in Hs as [Hs Hf]. constructor; [by apply IH|]. clear IH Hs.
  rewrite Forall_fmap in Hf. rewrite Forall_forall in Hf.
  rewrite Forall_forall in Ht. apply Forall_fmap, Forall_forall. intros y Hy. specialize (Hf y Hy).
  destruct (Ht y Hy) as (_&H3&H4). unfold area_below in *. simpl in *. lia.
Qed.

Lemma fork_triple_mono bytes b1 b2 a ap ac :
  fork_triple bytes b1 a ap ac → (∀ q, q ∈ owned [ac] → b2 q = b1 q) → fork_triple bytes b2 a ap ac.
Proof.
  intros [] Hb. split; try done. intros v p Hp. destruct (ft_pages0 v p Hp) as (pp&pc&Hpp&Hpc&Hf&Hby&Hs).
  exists pp, pc. split_and!; try done. rewrite Hb; [done|]. apply elem_of_owned_single; [apply ft_child0|]. eauto.
Qed.

Lemma fk_snoc tr a ap ac :
  fk_done (tr ++ [(a, ap, ac)]) = fk_done tr ++ [ap] ∧ fk_child (tr ++ [(a, ap, ac)]) = fk_child tr ++ [ac] ∧
  fk_orig (tr ++ [(a, ap, ac)]) = fk_orig tr ++ [a].
Proof. unfold fk_done, fk_child, fk_orig. by rewrite !fmap_app. Qed.

(** One more area is processed. *)
Lemma forking_step st0 st st' pt pt' npt npt' tr a ap ac rest T :
  forking st0 st pt npt tr (a :: rest) T →
  fork_triple (svc_page (st_frames st0)) (svc_page (st_frames st')) a ap ac →
  area_frames ap ≡ₚ area_frames a →
  coherent (fk_done tr ++ ap :: rest) pt' → coherent (fk_child tr ++ [ac]) npt' →
  svc_inv (st_frames st') (owned [ac] ++ owned (fk_child tr) ++ owned (fk_done tr ++ a :: rest) ++ T) →
  (∀ q, q ∈ owned (fk_child tr) ++ owned (fk_done tr ++ a :: rest) ++ T →
        svc_page (st_frames st') q = svc_page (st_frames st) q) →
  zlen (area_frames ac) ≤ zlen (area_frames a) → (∃ evs, logged st st' evs ∧ settled evs) →
  forking st0 st' pt' npt' (tr ++ [(a, ap, ac)]) rest T.
Proof.
  intros [Hw Hu Hc Hcc Htr Hinv Hk Hsame Hcnt (evs&Hlog&Hset)] Hx Hfr Hc' Hcc' Hinv' Hpg Hlen (evs'&Hlog'&Hset').
  destruct (fk_snoc tr a ap ac) as (E1&E2&E3). destruct (ft_start _ _ _ _ _ Hx) as [Hs1 Hs2].
  destruct (ft_end _ _ _ _ _ Hx) as [He1 He2].
  assert (Hown : owned (fk_done tr ++ ap :: rest) ≡ₚ owned (fk_done tr ++ a :: rest)).
  { rewrite !owned_app, !owned_cons. by rewrite Hfr. }
  assert (Hpg' : ∀ q, q ∈ owned (fk_done tr ++ a :: rest) ++ T → svc_page (st_frames st') q = svc_page (st_frames st0) q).
  { intros q Hq. rewrite Hpg by (rewrite elem_of_app; by right). by apply Hsame. }
  split; rewrite ?E1, ?E2, ?E3, <-?(app_assoc (fk_done tr)).
  - apply (vmas_wf_replace (fk_done tr) a rest [ap]); [done| |constructor; [lia|constructor]].
    split; [constructor; [apply Hx|constructor]|by repeat constructor].
  - apply Forall_app in Hu as [Hu1 Hu2]. apply Forall_cons in Hu2 as [Hua Hu2].
    apply Forall_app. split; [done|]. constructor; [|done]. intros va Hva. apply Hua. lia.
  - done.
  - done.
  - apply Forall_app. split; [|by constructor]. rewrite Forall_forall in Htr |- *. intros x Hin.
    eapply fork_triple_mono; [by apply Htr|]. intros q Hq. apply Hpg. rewrite elem_of_app. left.
    apply list_elem_of_lookup in Hin as [i Hi]. unfold owned, vma_frames in Hq |- *.
    rewrite list_elem_of_fmap in Hq |- *. destruct Hq as (t&->&Ht). exists t. split; [done|].
    rewrite list_elem_of_join in Ht |- *. destruct Ht as (fs&Hfs&Hin). exists fs. split; [done|].
    rewrite list_elem_of_fmap in Hin |- *. destruct Hin as (b&->&Hb%list_elem_of_singleton). subst b.
    exists x.2. split; [done|]. unfold fk_child. apply list_elem_of_fmap. exists x. split; [done|].
    by eapply list_elem_of_lookup_2.
  - eapply svc_inv_perm; [|exact Hinv']. rewrite (owned_app (fk_child tr)).
    rewrite (Permutation_app_comm (owned (fk_child tr)) (owned [ac])), <-app_assoc. simpl. by rewrite Hown.
  - rewrite !owned_app, !owned_single. by rewrite Hfr, Hk.
  - intros q Hq. apply Hpg'. rewrite elem_of_app in Hq |- *. simpl in Hq. by rewrite Hown in Hq.
  - rewrite !owned_app, !owned_single, !zlen_app, !zlen_fmap, Hfr. lia.
  - eexists. split; [by eapply logged_trans|by apply settled_app].
Qed.

Lemma owned_middle d a r q : q ∈ owned [a] → q ∈ owned (d ++ a :: r).
Proof. rewrite owned_app, (owned_cons a r), owned_single, !elem_of_app. auto. Qed.

(** The frames of an area with a mapped resident set are cloned for the child. *)
Lemma clone_area_frames st tr a ap rest T :
  svc_inv (st_frames st) (owned (fk_child tr) ++ owned (fk_done tr ++ a :: rest) ++ T) →
  zlen (owned (fk_child tr)) ≤ zlen (owned (fk_done tr)) → area_ok ap → area_frames ap ≡ₚ area_frames a →
  2 * zlen (owned (fk_done tr ++ a :: rest)) + zlen T ≤ MAX_OWNERS →
  ∃ st1, clone_frames st (area_frames ap) = Ret st1 ∧ same_pages st st1 ∧ logged st st1 [] ∧ area_good ap ∧
    svc_inv (st_frames st1) (owned [ap] ++ owned (fk_child tr) ++ owned (fk_done tr ++ a :: rest) ++ T).
Proof.
  intros Hinv Hcnt Hap Hfr Hmax.
  assert (Hin : ∀ t, t ∈ area_frames ap → frame_no t ∈ owned (fk_done tr ++ a :: rest)).
  { intros t Ht. apply owned_middle. rewrite owned_single. apply list_elem_of_fmap. exists t. by rewrite <-Hfr. }
  destruct (clone_frames_ok st (area_frames ap) _ Hinv) as (st1&Hc&Hi1&Hp1&Hl1).
  - intros t Ht. rewrite !elem_of_app. right. left. by apply Hin.
  - rewrite Hfr.
    rewrite !zlen_app. rewrite !owned_app, !zlen_app, owned_cons, zlen_app, zlen_fmap in *.
    pose proof (zlen_nonneg (owned rest)). pose proof (zlen_nonneg (area_frames a)). lia.
  - exists st1. rewrite owned_single. split_and!; [done|done|done| |done].
    intros v p Hp. eapply svc_inv_pos; [exact Hinv|]. rewrite !elem_of_app. right. left. apply Hin.
    apply elem_of_area_frames; [apply Hap|eauto].
Qed.

Lemma forking_head st0 st pt npt tr a rest T :
  forking st0 st pt npt tr (a :: rest) T → area_ok a ∧ area_user a.
Proof.
  intros [[Hok _] Hu _ _ _ _ _ _ _ _]. apply Forall_app in Hok as [_ Hok], Hu as [_ Hu].
  apply Forall_cons in Hok as [? _], Hu as [? _]. done.
Qed.

(** The child's list with the new area. *)
Lemma child_snoc_vmas st0 st pt npt tr a ap ac rest T :
  forking st0 st pt npt tr (a :: rest) T →
  area_ok ap → start_va ap = start_va a → end_va ap = end_va a → fork_shape ap ac →
  vmas_wf (fk_child tr ++ [ac]).
Proof.
  intros [Hw _ _ _ Htr _ _ _ _ _] Hap Es Ee Hx.
  destruct (fk_snoc tr a ap ac) as (E1&E2&_). rewrite <-E2. apply (fk_child_vmas _ rest).
  - rewrite E1, <-app_assoc.
    apply (vmas_wf_replace (fk_done tr) a rest [ap]); [done| |constructor; [lia|constructor]].
    split; [constructor; [exact Hap|constructor]|by repeat constructor].
  - apply Forall_app. split; [|constructor; [exact Hx|constructor]]. eapply Forall_impl; [exact Htr|].
    intros x Hy. exact (fork_triple_shape _ _ _ _ _ Hy).
Qed.

Lemma share_area_ok st0 st pt npt tr a rest T :
  forking st0 st pt npt tr (a :: rest) T →
  is_shared_mapping a = true ∨ flags_contains (area_flags a) PTE_W = false →
  2 * zlen (owned (fk_done tr ++ a :: rest)) + zlen T ≤ MAX_OWNERS →
  ∃ st' npt' ap ac,
    share_area st npt a (area_with_backing (start_va a) (end_va a) (area_flags a) (area_backing a)) =
      Ret (st', npt', ap, ac) ∧
    forking st0 st' pt npt' (tr ++ [(a, ap, ac)]) rest T.
Proof.
  intros Hfk Hshare Hmax. pose proof Hfk as [Hw Hu Hc Hcc Htr Hinv _ Hsame Hcnt _].
  destruct (forking_head _ _ _ _ _ _ _ _ Hfk) as [Ha Hua].
  destruct (set_all_state_ok a Shared Ha) as (Hap&Hm&Hfr). unfold share_area.
  set (ap := area_set_all_resident_state a Shared) in *.
  destruct (clone_area_frames st tr a ap rest T Hinv Hcnt Hap Hfr Hmax) as (st1&->&Hp1&Hl1&Hg&Hi1).
  change (area_clone_resident_from _ ap) with ap.
  assert (Htri : fork_triple (svc_page (st_frames st0)) (svc_page (st_frames st1)) a ap ap).
  { split; try done; [by split; [|left]| |].
    - intros v Hv. rewrite Hm, Hv. done.
    - intros v p Hv. rewrite Hm, Hv. eexists _, _. split_and!; [done|done|done| |naive_solver].
      rewrite Hp1, Hsame; [done|]. simpl. rewrite elem_of_app. left. apply owned_middle.
      apply elem_of_owned_single; [apply Ha|eauto]. }
  pose proof (child_snoc_vmas st0 st pt npt tr a ap ap rest T Hfk Hap eq_refl eq_refl (fork_triple_shape _ _ _ _ _ Htri)) as Hcv.
  pose proof (coherent_snoc (fk_child tr) ap npt st1 Hcv Hua Hg Hcc) as Hmap.
  destruct (map_area_pages st1 npt ap) as [st2 npt2]. destruct Hmap as (Hcc2&evs&He&Hh).
  pose proof He as (Hf2&_&_). eexists _, _, _, _. split; [reflexivity|].
  apply (forking_step st0 st st2 pt pt npt npt2 tr a ap ap rest T); [done|by rewrite Hf2|done| |done|by rewrite Hf2| |by rewrite Hfr|].
  - apply (coherent_replace (fk_done tr) a ap rest pt); [done..|].
    intros va leaf _ Hin _ (v&pg&Hv&Hpg&Hpa&Hlf&Hpm). simpl in Hv. rewrite area_page_Some in Hv by done.
    injection Hv as <-. simpl in Hpg. eexists _, (mkPage (rp_frame pg) Shared). simpl.
    rewrite area_page_Some by done. split; [done|]. simpl. change (rs_map_pages _ _) with (area_resident ap).
    rewrite Hm, Hpg. split_and!; [done|done|done|]. destruct Hpm as (?&Hpw&?&?). split_and!; naive_solver.
  - intros q _. rewrite Hf2. apply Hp1.
  - eexists. split; [eapply logged_trans; [exact Hl1|by apply events_logged]|]. by apply settled_harmless.
Qed.

(** Remapping an area whose flags or page states changed. *)
Lemma remap_area_ok d a ap r pt st :
  vmas_wf (d ++ a :: r) → coherent (d ++ a :: r) pt → area_ok ap → area_user ap → area_good ap →
  start_va ap = start_va a → end_va ap = end_va a →
  (∀ v, is_Some (rmap (area_resident a) !! v) → is_Some (rmap (area_resident ap) !! v)) →
  let '(st', pt') := remap_area_pages st pt ap (area_flags a) in
  coherent (d ++ ap :: r) pt' ∧ ∃ evs, events st st' evs ∧ settled evs.
Proof.
  intros Hw Hc Hap Hup Hg Es Ee Hkeys. unfold remap_area_pages.
  assert (Hi : (d ++ a :: r) !! length d = Some a) by (by rewrite lookup_app_r, Nat.sub_diag).
  pose proof (vmas_area_ok _ _ _ Hw Hi) as Ha.
  assert (Hua : area_user a) by (intros va Hva; apply Hup; lia).
  pose proof (coherent_leaves_resident _ _ _ (proj1 Ha) Hua (area_of_lookup _ _ _ Hw Hi) Hc) as Hres.
  pose proof (unmap_area_pages_flags_ok pt st ap (area_flags a) (proj1 Hap) Hup) as Hun.
  destruct (unmap_area_pages st pt ap (area_flags a)) as [st1 pt1]. destruct Hun as (_&Ht1&evs1&He1&Hs1).
  { intros va leaf Hu Hin Ht. destruct (Hres va leaf Hu) as [Hlp Hva]; [lia|done|]. split; [done|].
    apply elem_of_resident_vas in Hva as (idx&p&Hidx&Hp&->); [|apply Ha|done].
    destruct (Hkeys idx) as [p' Hp']; [by eexists|]. apply elem_of_resident_vas; [apply Hap|done|].
    exists idx, p'. unfold area_page_count, area_size in *. rewrite Es, Ee. done. }
  assert (Hc1 : coherent (d ++ a :: r) pt1).
  { intros va leaf Hu Ht. rewrite Ht1 in Ht by done. case_bool_decide; [done|by apply Hc]. }
  destruct (coherent_replace d a ap r pt1 Hw Hap Es Ee Hc1) as [Hw' Hc'].
  { intros va leaf Hu Hin Ht. rewrite Ht1 in Ht by done. rewrite bool_decide_eq_true_2 in Ht by lia. done. }
  assert (Hi' : (d ++ ap :: r) !! length d = Some ap) by (by rewrite lookup_app_r, Nat.sub_diag).
  pose proof (map_area_pages_ok _ pt1 st1 ap (proj1 Hap) Hup Hg (area_of_lookup _ _ _ Hw' Hi') Hc') as Hm.
  destruct (map_area_pages st1 pt1 ap) as [st2 pt2]. destruct Hm as (?&_&evs2&He2&Hh2).
  split; [done|]. eexists. split; [by eapply events_trans|]. apply settled_app; [done|by apply settled_harmless].
Qed.

(** An area that is already copy-on-write in every page needs no remap. *)
Lemma cow_area_unchanged d a ap r pt :
  vmas_wf (d ++ a :: r) → coherent (d ++ a :: r) pt → area_ok ap →
  start_va ap = start_va a → end_va ap = end_va a → area_backing ap = area_backing a →
  area_flags ap = flags_union (area_flags a) PTE_COW →
  (∀ v, rmap (area_resident ap) !! v = (λ p, mkPage (rp_frame p) Cow) <$> rmap (area_resident a) !! v) →
  existsb (λ p, negb (bool_decide (rp_state p = Cow))) (rs_iter (area_resident a)) = false →
  coherent (d ++ ap :: r) pt.
Proof.
  intros Hw Hc Hap Es Ee Eb Ef Hm Hall.
  assert (Hi : (d ++ a :: r) !! length d = Some a) by (by rewrite lookup_app_r, Nat.sub_diag).
  pose proof (vmas_area_ok _ _ _ Hw Hi) as [Hwa _].
  apply (coherent_replace d a ap r pt Hw Hap Es Ee Hc).
  intros va leaf Hu Hin _ (v&pg&Hv&Hpg&Hpa&Hlf&Hpm). simpl in Hv. rewrite area_page_Some in Hv by done.
  injection Hv as <-. simpl in Hpg, Hlf, Hpm. exists (mkView (area_flags ap)
    (split_right (area_backing ap) (align_down va - start_va ap)) (Some (mkPage (rp_frame pg) Cow))), (mkPage (rp_frame pg) Cow).
  simpl. rewrite area_page_Some by (rewrite Es, Ee; done). rewrite Hm, Es, Hpg. split_and!; [done|done|done| |].
  - by rewrite Ef, has_leaf_permission_cow.
  - assert (Hcow : rp_state pg = Cow).
    { destruct (decide (rp_state pg = Cow)); [done|]. exfalso. rewrite <-not_true_iff_false, existsb_exists in Hall.
      apply Hall. exists pg. split; [|by rewrite bool_decide_eq_false_2].
      apply list_elem_of_In, elem_of_rs_iter; [apply Hwa|eauto]. }
    unfold leaf_perms in *. rewrite Ef, !union_cow_perms by (rewrite !elem_of_cons; auto). naive_solver.
Qed.

Lemma cow_area_ok st0 st pt npt tr a rest T :
  forking st0 st pt npt tr (a :: rest) T →
  2 * zlen (owned (fk_done tr ++ a :: rest)) + zlen T ≤ MAX_OWNERS →
  ∃ st' pt' npt' ap ac,
    cow_area st pt npt a (area_with_backing (start_va a) (end_va a) (area_flags a) (area_backing a)) =
      Ret (st', pt', npt', ap, ac) ∧
    forking st0 st' pt' npt' (tr ++ [(a, ap, ac)]) rest T.
Proof.
  intros Hfk Hmax. pose proof Hfk as [Hw Hu Hc Hcc Htr Hinv _ Hsame Hcnt _].
  destruct (forking_head _ _ _ _ _ _ _ _ Hfk) as [Ha Hua].
  destruct (set_all_state_ok a Cow Ha) as (Hap0&Hm&Hfr). unfold cow_area.
  set (ap := area_set_flags (area_set_all_resident_state a Cow) (flags_union (area_flags a) PTE_COW)) in *.
  assert (Hap : area_ok ap) by (destruct Hap0 as [[] ?]; by split; [split|]).
  change (area_resident (area_set_all_resident_state a Cow)) with (area_resident ap) in Hm.
  change (area_frames (area_set_all_resident_state a Cow)) with (area_frames ap) in Hfr.
  assert (Hg : area_good ap).
  { intros v p Hp. eapply svc_inv_pos; [exact Hinv|]. rewrite !elem_of_app. right. left. apply owned_middle.
    rewrite owned_single. apply list_elem_of_fmap. exists (rp_frame p). split; [done|]. rewrite <-Hfr.
    apply elem_of_area_frames; [apply Hap|eauto]. }
  assert (Hremap : ∃ st1 pt1,
    (if negb (flags_contains (area_flags a) PTE_COW) ||
        existsb (λ p, negb (bool_decide (rp_state p = Cow))) (rs_iter (area_resident a))
     then remap_area_pages st pt ap (area_flags a) else (st, pt)) = (st1, pt1) ∧
    coherent (fk_done tr ++ ap :: rest) pt1 ∧ ∃ evs, events st st1 evs ∧ settled evs).
  { destruct (negb _ || existsb _ _) eqn:En.
    - pose proof (remap_area_ok (fk_done tr) a ap rest pt st Hw Hc Hap Hua Hg eq_refl eq_refl) as Hr.
      destruct (remap_area_pages st pt ap (area_flags a)) as [st1 pt1]. exists st1, pt1. split; [done|].
      apply Hr. intros v Hv. rewrite Hm. by apply fmap_is_Some.
    - apply orb_false_iff in En as [_ En]. exists st, pt. split; [done|]. split.
      + by apply (cow_area_unchanged _ a).
      + exists []. split; [apply events_refl|apply settled_nil]. }
  destruct Hremap as (st1&pt1&->&Hc1&evs1&He1&Hs1). pose proof He1 as (Hf1&_&_).
  rewrite <-Hf1 in Hinv.
  destruct (clone_area_frames st1 tr a ap rest T Hinv Hcnt Hap Hfr Hmax) as (st2&->&Hp2&Hl2&_&Hi2).
  change (area_clone_resident_from _ ap) with ap.
  assert (Hp : same_pages st st2) by (intros q; rewrite Hp2; by rewrite Hf1).
  assert (Htri : fork_triple (svc_page (st_frames st0)) (svc_page (st_frames st2)) a ap ap).
  { split; try done; [by split; [|right]| |].
    - intros v Hv. rewrite Hm, Hv. done.
    - intros v p Hv. rewrite Hm, Hv. eexists _, _. split_and!; [done|done|done| |auto].
      rewrite Hp, Hsame; [done|]. simpl. rewrite elem_of_app. left. apply owned_middle.
      apply elem_of_owned_single; [apply Ha|eauto]. }
  pose proof (child_snoc_vmas st0 st pt npt tr a ap ap rest T Hfk Hap eq_refl eq_refl (fork_triple_shape _ _ _ _ _ Htri)) as Hcv.
  pose proof (coherent_snoc (fk_child tr) ap npt st2 Hcv Hua Hg Hcc) as Hmap.
  destruct (map_area_pages st2 npt ap) as [st3 npt3]. destruct Hmap as (Hcc3&evs&He&Hh).
  pose proof He as (Hf3&_&_). eexists _, _, _, _, _. split; [reflexivity|].
  apply (forking_step st0 st st3 pt pt1 npt npt3 tr a ap ap rest T);
    [done|by rewrite Hf3|done|done|done|by rewrite Hf3| |by rewrite Hfr|].
  - intros q _. rewrite Hf3. apply Hp.
  - eexists. split.
    + eapply logged_trans; [by apply events_logged|]. eapply logged_trans; [exact Hl2|by apply events_logged].
    + apply settled_app; [done|]. by apply settled_harmless.
Qed.

(** Copying the pages of an area that no access permission maps. *)
Lemma copy_pages_ok st pt a new flags pages T :
  (pages ≠ [] → has_leaf_permission (area_flags a) = false) → area_ok new → NoDup pages.*1 →
  (∀ v p, (v, p) ∈ pages → rmap (area_resident new) !! v = None ∧ 0 ≤ v < area_page_count new ∧
     frame_no (rp_frame p) ∈ T) →
  svc_inv (st_frames st) (owned [new] ++ T) →
  ∃ st' rs' (r : result unit SysErrNo), let new' := area_set_resident new rs' in
    copy_pages st pt a new flags pages = Ret (st', pt, new', r) ∧
    svc_inv (st_frames st') (owned [new'] ++ T) ∧ area_ok new' ∧
    (∀ q, q ∈ owned [new] ++ T → svc_page (st_frames st') q = svc_page (st_frames st) q) ∧ logged st st' [] ∧
    match r with
    | Err e => e = ENOMEM
    | Ok _ => (∀ v, v ∉ pages.*1 → rmap rs' !! v = rmap (area_resident new) !! v) ∧
        (∀ v p, (v, p) ∈ pages → ∃ pc, rmap rs' !! v = Some pc ∧
           svc_page (st_frames st') (frame_no (rp_frame pc)) = svc_page (st_frames st) (frame_no (rp_frame p)) ∧
           frame_no (rp_frame pc) ∉ T) ∧
        zlen (area_frames new') = zlen (area_frames new) + zlen pages
    end.
Proof.
  intros Hleaf. revert Hleaf st new. induction pages as [|[v p] pages IH]; intros Hleaf st new Hnew Hnd Hpages Hinv.
  { exists st, (area_resident new), (Ok tt). assert (Heta : area_set_resident new (area_resident new) = new) by (by destruct new).
    cbv zeta. rewrite Heta. do 4 (split; [done|]). split; [apply logged_refl|]. split_and!; [done| |].
    - by intros v p ?%not_elem_of_nil.
    - unfold zlen. simpl. lia. }
  cbn [copy_pages]. destruct (Hpages v p) as (Hnone&Hv&HpT); [by left|].
  destruct (new_frame_ok st _ Hinv) as (st1&o&->&Hl1&Ho). destruct o as [t|].
  2:{ destruct Ho as [Hi1 Hp1]. exists st1, (area_resident new), (Err ENOMEM).
      assert (Heta : area_set_resident new (area_resident new) = new) by (by destruct new).
      cbv zeta. rewrite Heta. split; [done|]. split; [done|]. split; [done|]. split; [|done].
      intros q _. apply Hp1. }
  destruct Ho as (Hi1&Hnt&_&Hoth). unfold copy_page. rewrite Hleaf by done.
  destruct (svc_store_page (st_frames st1) _ (frame_no t) (svc_page (st_frames st1) (frame_no (rp_frame p))) Hi1)
    as (Hi2&Hs2&Ho2); [by eapply svc_page_len|].
  set (st2 := set_frames st1 _). change (svc_store _ _ _ _) with (st_frames st2) in Hi2, Hs2, Ho2.
  assert (Hvm : 0 ≤ v < USIZE_MAX).
  { destruct Hnew as [[] _]. unfold area_page_count, area_size, PAGE_SIZE in *. lia. }
  destruct (area_insert_page_ok new v t Private (proj1 Hnew) Hvm Hnone) as (rs1&->&Hwr&Hm).
  set (new1 := area_set_resident new rs1).
  assert (Hnew1 : area_ok new1).
  { split; [|apply Hnew]. apply area_wf_set_resident; [apply Hnew|done|]. intros w q. rewrite Hm.
    intros [[<- _]|[_ Hq]]%lookup_insert_Some; [lia|]. by apply (area_resident_bounds new w q (proj1 Hnew)). }
  assert (Hfr : area_frames new1 ≡ₚ t :: area_frames new) by (by apply (area_frames_insert new new1 v (mkPage t Private)); [apply Hnew|apply Hnew1|..]).
  assert (Hsame : ∀ q, q ∈ owned [new] ++ T → svc_page (st_frames st2) q = svc_page (st_frames st) q).
  { intros q Hq. rewrite Ho2, Hoth; [done|..]; by intros ->. }
  rewrite fmap_cons in Hnd. apply NoDup_cons in Hnd as [Hvn Hnd]. simpl in Hvn.
  destruct (IH (λ _, Hleaf ltac:(done)) st2 new1 Hnew1 Hnd) as (st'&rs'&r&He&Hi'&Hok&Hsm&Hl'&Hr).
  - intros w q Hin. destruct (Hpages w q) as (Hn&Hw&Hq); [by right|]. split_and!; [|lia|unfold area_page_count, area_size in *; simpl; lia|done].
    simpl. rewrite Hm, lookup_insert_ne; [done|]. intros <-. apply Hvn. apply list_elem_of_fmap. by exists (v, q).
  - eapply svc_inv_perm; [|exact Hi2]. rewrite (owned_single new1), Hfr. simpl. by rewrite owned_single.
  - exists st', rs', r. change (area_set_resident new1 rs') with (area_set_resident new rs') in *.
    split; [exact He|]. split; [done|]. split; [done|]. split; [|split].
    + intros q Hq. rewrite Hsm; [by apply Hsame|]. rewrite (owned_single new1), Hfr. simpl. right.
      rewrite <-owned_single. done.
    + apply (logged_trans _ st1 _ [] _ Hl1). destruct Hl' as [H1 H2]. by split.
    + destruct r as [?|e]; [|done]. destruct Hr as (Hr1&Hr2&Hr3). split_and!.
      * intros w Hw. rewrite fmap_cons, not_elem_of_cons in Hw. destruct Hw as [Hne Hw]. simpl in Hne.
        rewrite Hr1 by done. simpl. by rewrite Hm, lookup_insert_ne.
      * intros w q Hin. apply elem_of_cons in Hin as [Heq|Hin].
        -- injection Heq as -> ->. exists (mkPage t Private). rewrite Hr1 by done. simpl. rewrite Hm, lookup_insert_eq.
           split_and!; [done| |].
           ++ rewrite Hsm; [|rewrite (owned_single new1), Hfr; simpl; by left]. rewrite Hs2, Hoth; [done|].
              intros Heq. apply Hnt. rewrite <-Heq, elem_of_app. by right.
           ++ intros HtT. apply Hnt. rewrite elem_of_app. by right.
        -- destruct (Hr2 w q Hin) as (pc&Hpc&Hb&Hf). exists pc. split_and!; [done| |done].
           rewrite Hb. apply Hsame. rewrite elem_of_app. right. apply (Hpages w q). by right.
      * rewrite Hr3, Hfr, !zlen_cons. lia.
Qed.

(** An area that is neither shared nor copy-on-write nor read-only shared maps nothing. *)
Lemma copied_area_unmapped a :
  is_shared_mapping a = false → is_private_cow_candidate a = false → is_readonly_share_candidate a = false →
  area_has_frames a = false ∨ has_leaf_permission (area_flags a) = false.
Proof.
  unfold is_shared_mapping, is_private_cow_candidate, is_readonly_share_candidate, is_private_backing.
  destruct (area_has_frames a), (has_leaf_permission (area_flags a)); auto.
  destruct (area_backing a) as [| |? ? [] |], (flags_contains (area_flags a) PTE_W); simpl; done.
Qed.

Lemma empty_iter_range rs s e : rs_wf rs → rs_is_empty rs = true → rs_iter_range rs s e = [].
Proof.
  intros Hw He. apply rs_is_empty_rmap in He; [|done]. apply elem_of_nil_inv. intros [v p] Hin.
  apply elem_of_rs_iter_range in Hin as [_ Hp]; [|done]. by rewrite He in Hp.
Qed.

Lemma sorted_lt_nodup (l : list Z) : StronglySorted Z.lt l → NoDup l.
Proof.
  induction 1 as [|x l Hs IH Hf]; constructor; [|done]. intros Hin. rewrite Forall_forall in Hf.
  specialize (Hf x Hin). lia.
Qed.

(** The branch that copies. *)
Lemma copy_area_ok st0 st pt npt tr a rest T :
  forking st0 st pt npt tr (a :: rest) T →
  area_has_frames a = false ∨ has_leaf_permission (area_flags a) = false →
  ∃ st' ac res,
    copy_pages st npt a (area_with_backing (start_va a) (end_va a) (area_flags a) (area_backing a)) (area_flags a)
      (rs_iter_range (area_resident a) 0 (area_page_count a)) = Ret (st', npt, ac, res) ∧
    match res with
    | Ok _ => forking st0 st' pt npt (tr ++ [(a, a, ac)]) rest T
    | Err e => e = ENOMEM ∧
        svc_inv (st_frames st') (owned [ac] ++ owned (fk_child tr) ++ owned (fk_done tr ++ a :: rest) ++ T) ∧
        (∀ q, q ∈ owned (fk_child tr) ++ owned (fk_done tr ++ a :: rest) ++ T →
              svc_page (st_frames st') q = svc_page (st_frames st) q) ∧ logged st st' []
    end.
Proof.
  intros Hfk Hno. pose proof Hfk as [Hw Hu Hc Hcc Htr Hinv _ Hsame Hcnt _].
  destruct (forking_head _ _ _ _ _ _ _ _ Hfk) as [Ha Hua]. pose proof Ha as [Hwa Hba].
  set (new := area_with_backing (start_va a) (end_va a) (area_flags a) (area_backing a)).
  set (pages := rs_iter_range (area_resident a) 0 (area_page_count a)).
  set (T' := owned (fk_child tr) ++ owned (fk_done tr ++ a :: rest) ++ T) in *.
  assert (Hnew : area_ok new).
  { split; [|done]. destruct Hwa. by apply area_wf_with_backing. }
  assert (Helem : ∀ v p, (v, p) ∈ pages ↔ rmap (area_resident a) !! v = Some p).
  { intros v p. unfold pages. rewrite elem_of_rs_iter_range by apply Hwa. split; [naive_solver|].
    intros Hp. split; [by eapply area_resident_bounds|done]. }
  destruct (copy_pages_ok st npt a new (area_flags a) pages T') as (st'&rs'&res&He&Hi'&Hok&Hsm&Hl'&Hr).
  - intros Hne. destruct Hno as [Hno|]; [|done]. destruct Hne. apply empty_iter_range; [apply Hwa|].
    unfold area_has_frames in Hno. by apply negb_false_iff.
  - done.
  - apply sorted_lt_nodup, rs_iter_range_sorted, Hwa.
  - intros v p Hin. apply Helem in Hin. simpl. rewrite rmap_new. split_and!; [done| | |].
    + by apply (area_resident_bounds a v p).
    + by apply (area_resident_bounds a v p).
    + unfold T'. rewrite !elem_of_app. right. left. apply owned_middle.
      apply elem_of_owned_single; [done|eauto].
  - exact Hinv.
  - exists st', (area_set_resident new rs'), res. split; [exact He|].
    assert (Hsm' : ∀ q, q ∈ T' → svc_page (st_frames st') q = svc_page (st_frames st) q) by exact Hsm.
    destruct res as [?|e]; [|done]. destruct Hr as (Hr1&Hr2&Hr3).
    assert (Hdom : ∀ v, rmap (area_resident a) !! v = None → v ∉ pages.*1).
    { intros v Hv Hin. apply list_elem_of_fmap in Hin as ([v' p]&->&Hin). apply Helem in Hin. simpl in Hv. congruence. }
    assert (Htri : fork_triple (svc_page (st_frames st0)) (svc_page (st_frames st')) a a (area_set_resident new rs')).
    { split; try done; [by split; [|left]| |].
      - intros v Hv. split; [done|]. simpl. rewrite Hr1 by (by apply Hdom). simpl. by rewrite rmap_new.
      - intros v p Hp. destruct (Hr2 v p) as (pc&Hpc&Hb&Hf); [by apply Helem|]. exists p, pc.
        assert (HpT : frame_no (rp_frame p) ∈ T').
        { unfold T'. rewrite !elem_of_app. right. left. apply owned_middle. apply elem_of_owned_single; [done|eauto]. }
        split_and!; [done|done|done| |].
        + rewrite Hb. apply Hsame. unfold T' in HpT. rewrite elem_of_app. left. apply owned_middle.
          apply elem_of_owned_single; [done|eauto].
        + intros Heq. rewrite Heq in Hf. done. }
    apply (forking_step st0 st st' pt pt npt npt tr a a (area_set_resident new rs') rest T);
      [done|done|done|done|by apply coherent_app|done|done| |].
    + rewrite Hr3. assert (Hpm : pages ≡ₚ map_to_list (rmap (area_resident a))).
      { apply NoDup_Permutation; [|apply NoDup_map_to_list|].
        - apply (NoDup_fmap_1 fst), sorted_lt_nodup, rs_iter_range_sorted, Hwa.
        - intros [v p]. by rewrite elem_of_map_to_list. }
      rewrite Hpm. unfold area_frames at 2. rewrite rs_iter_frames by apply Hwa.
      unfold map_frames. rewrite !zlen_fmap. done.
    + exists []. split; [done|apply settled_nil].
Qed.

Lemma fork_area_ok st0 st pt npt tr a rest T :
  forking st0 st pt npt tr (a :: rest) T →
  2 * zlen (owned (fk_done tr ++ a :: rest)) + zlen T ≤ MAX_OWNERS →
  ∃ st' pt' npt' ap ac res, fork_area st pt npt a = Ret (st', pt', npt', ap, ac, res) ∧
    match res with
    | Ok _ => forking st0 st' pt' npt' (tr ++ [(a, ap, ac)]) rest T
    | Err e => e = ENOMEM ∧ ap = a ∧ pt' = pt ∧
        svc_inv (st_frames st') (owned [ac] ++ owned (fk_child tr) ++ owned (fk_done tr ++ a :: rest) ++ T) ∧
        (∀ q, q ∈ owned (fk_child tr) ++ owned (fk_done tr ++ a :: rest) ++ T →
              svc_page (st_frames st') q = svc_page (st_frames st) q) ∧ logged st st' []
    end.
Proof.
  intros Hfk Hmax. unfold fork_area. destruct (is_shared_mapping a) eqn:Es.
  { destruct (share_area_ok st0 st pt npt tr a rest T) as (st'&npt'&ap&ac&->&H); [done|by left|done|].
    by eexists _, _, _, _, _, _. }
  destruct (is_private_cow_candidate a) eqn:Ec.
  { destruct (cow_area_ok st0 st pt npt tr a rest T) as (st'&pt'&npt'&ap&ac&->&H); [done|done|].
    by eexists _, _, _, _, _, _. }
  destruct (is_readonly_share_candidate a) eqn:Er.
  { destruct (share_area_ok st0 st pt npt tr a rest T) as (st'&npt'&ap&ac&->&H); [done| |done|].
    - right. unfold is_readonly_share_candidate in Er. apply andb_true_iff in Er as [[_ Er]%andb_true_iff _].
      by apply negb_true_iff.
    - by eexists _, _, _, _, _, _. }
  destruct (copy_area_ok st0 st pt npt tr a rest T) as (st'&ac&res&->&H);
    [done|by apply copied_area_unmapped|].
  eexists _, _, _, _, _, _. split; [reflexivity|]. destruct res as [?|e]; [done|]. naive_solver.
Qed.

(** What is left of a fork that fails: the parent, its frames and its pages. *)
Definition fork_failed st0 st pt (tr : list (MapArea * MapArea * MapArea)) (rest : list MapArea)
    (parent child : list MapArea) T : Prop :=
  parent = fk_done tr ++ rest ∧ (∃ st1 npt, forking st0 st1 pt npt tr rest T) ∧
  svc_inv (st_frames st) ((frame_no <$> mjoin (area_frames <$> child)) ++ owned parent ++ T) ∧
  (∀ q, q ∈ owned parent ++ T → svc_page (st_frames st) q = svc_page (st_frames st0) q) ∧
  ∃ evs, logged st0 st evs ∧ settled evs.

Lemma fork_loop_ok st0 rest T : ∀ st pt npt tr,
  forking st0 st pt npt tr rest T →
  2 * zlen (owned (fk_orig tr ++ rest)) + zlen T ≤ MAX_OWNERS →
  ∃ st' pt' npt' parent child res,
    fork_loop st pt npt (fk_done tr) (fk_child tr) rest = Ret (st', pt', npt', parent, child, res) ∧
    match res with
    | Ok _ => ∃ tr', fk_orig tr' = fk_orig tr ++ rest ∧ parent = fk_done tr' ∧ child = fk_child tr' ∧
        forking st0 st' pt' npt' tr' [] T
    | Err e => e = ENOMEM ∧ ∃ tr' rest', fk_orig tr' ++ rest' = fk_orig tr ++ rest ∧
        fork_failed st0 st' pt' tr' rest' parent child T
    end.
Proof.
  induction rest as [|a rest IH]; intros st pt npt tr Hfk Hmax; cbn [fork_loop].
  { eexists _, _, _, _, _, _. split; [reflexivity|]. exists tr. by rewrite app_nil_r. }
  assert (Hmax' : 2 * zlen (owned (fk_done tr ++ a :: rest)) + zlen T ≤ MAX_OWNERS).
  { rewrite owned_app, zlen_app in Hmax |- *. by rewrite (fk_kept _ _ _ _ _ _ _ Hfk). }
  destruct (fork_area_ok st0 st pt npt tr a rest T Hfk Hmax') as (st1&pt1&npt1&ap&ac&res&->&Hres).
  destruct (fk_snoc tr a ap ac) as (E1&E2&E3). destruct res as [?|e].
  - rewrite <-E1, <-E2. destruct (IH st1 pt1 npt1 _ Hres) as (st'&pt'&npt'&par&ch&res&->&Hr).
    { by rewrite E3, <-app_assoc. }
    eexists _, _, _, _, _, _. split; [reflexivity|]. rewrite E3, <-app_assoc in Hr. done.
  - destruct Hres as (->&->&->&Hi'&Hsm&Hl). eexists _, _, _, _, _, _. split; [reflexivity|]. split; [done|].
    exists tr, (a :: rest). split; [done|]. pose proof (fk_log _ _ _ _ _ _ _ Hfk) as (evs&Hlog&Hset).
    split; [done|]. split; [|split_and!].
    + by exists st, npt.
    + simpl. rewrite fmap_app, <-app_assoc. eapply svc_inv_perm; [|exact Hi'].
      rewrite owned_single. done.
    + intros q Hq. rewrite Hsm by (rewrite elem_of_app; by right). by apply (fk_same _ _ _ _ _ _ _ Hfk).
    + exists (evs ++ []). split; [by eapply logged_trans|by rewrite app_nil_r].
Qed.

Lemma fork_views bytes bytes' tr va :
  Forall (λ x, fork_triple bytes bytes' x.1.1 x.1.2 x.2) tr →
  fork_view bytes bytes' (vma_page (fk_orig tr) va) (vma_page (fk_done tr) va) (vma_page (fk_child tr) va).
Proof.
  induction 1 as [|[[a ap] ac] tr Hx _ IH]; [done|]. unfold fk_orig, fk_done, fk_child in *.
  rewrite !fmap_cons. cbn [vma_page fst snd] in *. pose proof (fork_triple_view _ _ _ _ _ va Hx) as Hv.
  unfold fork_view in Hv. destruct (area_page a va) as [v|].
  - destruct Hv as (vp&vc&->&->&Hv). by exists vp, vc.
  - destruct Hv as [-> ->]. exact IH.
Qed.

Lemma forking_start st ms T npt :
  ms_inv st ms T → (∀ va, user_page va → pt_translate npt va = None) →
  forking st st (page_table ms) npt [] (areas ms) T.
Proof.
  intros [Hw Hu Hc Hf] Hn. split; simpl; try done.
  - intros va leaf Hva Ht. by rewrite Hn in Ht.
  - exists []. split; [apply logged_refl|apply settled_nil].
Qed.

Lemma fk_child_user bytes bytes' tr :
  Forall area_user (fk_done tr) → Forall (λ x, fork_triple bytes bytes' x.1.1 x.1.2 x.2) tr →
  Forall area_user (fk_child tr).
Proof.
  intros Hu Htr. unfold fk_done, fk_child in *. rewrite Forall_fmap in Hu. rewrite Forall_forall in Hu, Htr.
  apply Forall_fmap, Forall_forall. intros x Hx va Hva. simpl in Hva.
  destruct (fork_triple_shape _ _ _ _ _ (Htr x Hx)) as (_&H1&H2). apply (Hu x Hx va). simpl. lia.
Qed.

Lemma fork_cow_ok st ms T npt asid :
  ms_inv st ms T → (∀ va, user_page va → pt_translate npt va = None) →
  2 * zlen (owned (areas ms)) + zlen T ≤ MAX_OWNERS →
  ∃ st' ms' res, fork_cow st ms npt asid = Ret (st', ms', res) ∧
    (∀ q, q ∈ owned (areas ms) ++ T → svc_page (st_frames st') q = svc_page (st_frames st) q) ∧
    (∃ evs, logged st st' evs ∧ settled evs) ∧
    match res with
    | Ok child =>
        ms_inv st' ms' (owned (areas child) ++ T) ∧ ms_inv st' child (owned (areas ms') ++ T) ∧
        (∀ va, fork_view (svc_page (st_frames st)) (svc_page (st_frames st'))
                 (vma_page (areas ms) va) (vma_page (areas ms') va) (vma_page (areas child) va)) ∧
        (∀ va v p pc leaf, user_page va → vma_page (areas ms) va = Some v → pv_page v = Some p →
           vma_page (areas child) va ≫= pv_page = Some pc → rp_frame pc = rp_frame p →
           is_private_backing (pv_backing v) = true →
           pt_translate (page_table ms') va = Some leaf ∨ pt_translate (page_table child) va = Some leaf →
           flags_contains leaf.2 MF_W = false)
    | Err e => e = ENOMEM ∧ ms_inv st' ms' T ∧
        ∀ va v, vma_page (areas ms) va = Some v →
          ∃ vp, vma_page (areas ms') va = Some vp ∧ pv_backing vp = pv_backing v ∧
            (pv_flags vp = pv_flags v ∨ pv_flags vp = flags_union (pv_flags v) PTE_COW) ∧
            rp_frame <$> pv_page vp = rp_frame <$> pv_page v
    end.
Proof.
  intros Hi Hn Hmax. pose proof (forking_start st ms T npt Hi Hn) as Hfk. unfold fork_cow.
  destruct (fork_loop_ok st (areas ms) T st (page_table ms) npt [] Hfk Hmax)
    as (st1&pt1&npt1&par&ch&res&Hloop&Hres). simpl in Hloop. rewrite Hloop. destruct res as [?|e].
  - destruct Hres as (tr&Eo&->&->&Hfk1). simpl in Eo.
    pose proof Hfk1 as [Hw Hu Hc Hcc Htr Hinv Hk Hsm _ Hlog]. rewrite app_nil_r in *.
    assert (Hwc : vmas_wf (fk_child tr)).
    { apply (fk_child_vmas tr []); [by rewrite app_nil_r|]. eapply Forall_impl; [exact Htr|].
      intros x Hx. exact (fork_triple_shape _ _ _ _ _ Hx). }
    destruct (coalesce_areas_ok (fk_child tr)) as (l'&->&Hwl&_&Hv); [apply Hwc|by apply vmas_wf_disjoint|].
    assert (Hviews : ∀ va, fork_view (svc_page (st_frames st)) (svc_page (st_frames st1))
      (vma_page (areas ms) va) (vma_page (fk_done tr) va) (vma_page l' va)).
    { intros va. rewrite <-Eo. eapply fork_view_equiv; [by apply fork_views|apply Hv]. }
    assert (Hown : owned l' ≡ₚ owned (fk_child tr)) by (apply owned_equiv; [done|apply Hwc|by apply vmas_wf_disjoint|done]).
    assert (Hic : ms_inv st1 (mkMS npt1 asid l') (owned (fk_done tr) ++ T)).
    { split; simpl; [done| | |by rewrite Hown].
      - apply (user_equiv (fk_child tr)); [done|done|by eapply fk_child_user].
      - eapply coherent_equiv; [|exact Hcc]. intros va. by rewrite (Hv va). }
    assert (Hip : ms_inv st1 (mkMS pt1 (address_space_id ms) (fk_done tr)) (owned l' ++ T)).
    { split; simpl; [done|done|done|]. eapply svc_inv_perm; [|exact Hinv].
      rewrite !app_assoc, Hown. by rewrite (Permutation_app_comm (owned (fk_done tr))). }
    eexists _, _, _. split; [reflexivity|]. split; [|split; [done|split; [exact Hip|split; [exact Hic|split; [exact Hviews|]]]]].
    + intros q Hq. apply Hsm. rewrite elem_of_app in Hq |- *. by rewrite Hk, Eo.
    + intros va v p pc leaf Hva Hvv Hp Hpc Hfr Hpriv Hleaf. pose proof (Hviews va) as Hf. rewrite Hvv in Hf.
      destruct Hf as (vp&vc&Hvp&Hvc&Hfl&Hfp&_&_&Hpg). rewrite Hp in Hpg. simpl in Hpc. rewrite Hvc in Hpc. simpl in Hpc.
      destruct Hpg as (pp&pc'&Hpp&Hpc'&_&_&Hcow). rewrite Hpc in Hpc'. injection Hpc' as <-.
      assert (Hrd : ∀ page, pv_page vp = Some page ∨ pv_page vc = Some page → leaf_perms leaf.2 (pv_flags vp) page →
        flags_contains leaf.2 MF_W = false).
      { intros page Hpage (_&HW&_&_). destruct (flags_contains leaf.2 MF_W); [|done]. destruct (HW eq_refl) as [HW1 HW2].
        destruct (Hcow Hfr Hpriv) as [Hw'|[Hs1 Hs2]].
        - destruct Hfp as [Hfp|Hfp]; rewrite Hfp, ?union_cow_perms in HW1 by (rewrite !elem_of_cons; auto); congruence.
        - destruct Hpage; simplify_eq; congruence. }
      destruct Hleaf as [Hl|Hl].
      * destruct (inv_coherent _ _ _ Hip va leaf Hva Hl) as (v'&page&Hv'&Hpage&_&_&Hpm). simpl in Hv'.
        rewrite Hvp in Hv'. injection Hv' as <-. apply (Hrd page); [by left|done].
      * destruct (inv_coherent _ _ _ Hic va leaf Hva Hl) as (v'&page&Hv'&Hpage&_&_&Hpm). simpl in Hv'.
        rewrite Hvc in Hv'. injection Hv' as <-. rewrite Hfl in Hpm. apply (Hrd page); [by right|done].
  - destruct Hres as (->&tr&rest&Eo&->&(st2&npt2&Hfk1)&Hinv&Hsm&evs&Hlog&Hset). simpl in Eo.
    destruct (drop_frames_ok st1 _ _ Hinv) as (st3&->&Hi3&Hp3&Hl3).
    pose proof Hfk1 as [Hw Hu Hc _ Htr _ Hk _ _ _].
    eexists _, _, _. split; [reflexivity|]. split; [|split; [|split; [done|split]]].
    + intros q Hq. rewrite Hp3. apply Hsm. rewrite elem_of_app in Hq |- *.
      rewrite <-Eo, owned_app, <-Hk, <-owned_app in Hq. done.
    + eexists. split; [by eapply logged_trans|]. apply settled_app; [done|apply settled_drops].
    + split; simpl; done.
    + intros va v Hvv. simpl. rewrite <-Eo, vma_page_app in Hvv. rewrite vma_page_app.
      pose proof (fork_views _ _ tr va Htr) as Hf. unfold fork_view in Hf.
      destruct (vma_page (fk_orig tr) va) as [v'|].
      * injection Hvv as <-. destruct Hf as (vp&vc&->&_&_&Hfl&Hb&_&Hpg). exists vp. split_and!; [done..|].
        destruct (pv_page v') as [p|]; [|by destruct Hpg as [-> _]].
        destruct Hpg as (pp&_&->&_&Hfr&_). simpl. by rewrite Hfr.
      * destruct Hf as [-> _]. exists v. split_and!; [done|done|by left|done].
Qed.


End fork.

(** ** A concrete fork *)

Definition demo_fork := fork_cow demo_st demo_ms (mkSv39 0x90000000 ∅) 2.

Definition demo_fork_st : St (LocalFrames Buddy) :=
  match demo_fork with Ret (st, _, _) => st | Panic => demo_st end.
Definition demo_parent : MemorySet Sv39 :=
  match demo_fork with Ret (_, ms, _) => ms | Panic => demo_ms end.
Definition demo_child : MemorySet Sv39 :=
  match demo_fork with Ret (_, _, Ok ms) => ms | _ => demo_ms end.

Lemma demo_fork_eq :
  fork_cow demo_st demo_ms (mkSv39 0x90000000 ∅) 2 = Ret (demo_fork_st, demo_parent, Ok demo_child).
Proof. vm_compute. reflexivity. Qed.

Lemma demo_fork_budget : 2 * zlen (owned (areas demo_ms)) + zlen (@nil Z) ≤ MAX_OWNERS.
Proof. vm_compute. congruence. Qed.

Lemma demo_empty_table va : user_page va → pt_translate (mkSv39 0x90000000 ∅) va = None.
Proof. intros _. simpl. rewrite sv_translate_decode. vm_compute. reflexivity. Qed.

Lemma demo_parent_inv : ms_inv demo_fork_st demo_parent (owned (areas demo_child) ++ []).
Proof.
  destruct (fork_cow_ok demo_st demo_ms [] (mkSv39 0x90000000 ∅) 2 demo_inv demo_empty_table demo_fork_budget)
    as (st&ms&res&He&_&_&Hr).
  rewrite demo_fork_eq in He. apply Ret_inj, pair_equal_spec in He as [He Hok].
  apply pair_equal_spec in He as [Hst Hms]. rewrite <-Hok in Hr. destruct Hr as [Hi _].
  rewrite <-Hst, <-Hms in Hi. exact Hi.
Qed.


Lemma resolve_cow_page_correct_witness :
  ∃ st' ms' n, resolve_cow_page demo_fork_st demo_parent 0x11000 = Ret (st', ms', Ok n) ∧
    resolve_result demo_fork_st st' demo_parent ms' (owned (areas demo_child) ++ []) 0x11000 (Ok n).
Proof.
  destruct (resolve_cow_page_correct demo_fork_st demo_parent (owned (areas demo_child) ++ []) 0x11000 demo_parent_inv)
    as (st'&ms'&r&He&_&_&Hr).
  - apply user_page_check. vm_compute. reflexivity.
  - vm_compute. reflexivity.
  - destruct r as [n|e].
    + exists st', ms', n. split; [exact He|exact Hr].
    + exfalso. assert (Hok : match resolve_cow_page demo_fork_st demo_parent 0x11000 with
        | Ret (_, _, Ok _) => true | _ => false end = true) by (vm_compute; reflexivity).
      rewrite He in Hok. discriminate Hok.
Defined.
