(* ===== verification/MsCache.v ===== *)
(** * The page cache during faults

    Only the clean-cache branch of a page fault calls the file cache: every other operation
    on frames leaves the trackers the cache holds as they are.  So the invariant of the
    address space can be carried from one fault to the next. *)

From S2P Require Import Prelude BTree Frame Flags FileDesc ResidentSet MapArea VmaList MemorySet MsInv.

Section cache.
Context {PT F : Type} `{HPT : PageTableOps PT, HF : FrameService F, !FrameServiceLaws F,
                        HL : FileLayer F, !FileLayerLaws F}.
Implicit Types (st : St F) (ms : MemorySet PT) (pt : PT).

(** The cache holds the same trackers. *)
Definition same_cache st st' : Prop := file_cache (st_frames st') = file_cache (st_frames st).

Lemma same_cache_refl st : same_cache st st.
Proof. done. Qed.
Lemma same_cache_trans st1 st2 st3 : same_cache st1 st2 → same_cache st2 st3 → same_cache st1 st3.
Proof. unfold same_cache. congruence. Qed.
Lemma same_cache_frames st st' : st_frames st' = st_frames st → same_cache st st'.
Proof. unfold same_cache. by intros ->. Qed.

(** ** Frames *)

Lemma new_frame_cache st st' o : new_frame st = Ret (st', o) → same_cache st st'.
Proof.
  unfold new_frame. destruct (svc_alloc (st_frames st)) as [[f o']|] eqn:E; [|done]. intros [= <- _]. by eapply file_cache_alloc.
Qed.

Lemma clone_frame_cache st t st' t' : clone_frame st t = Ret (st', t') → same_cache st st'.
Proof.
  unfold clone_frame. destruct (svc_clone (st_frames st) t) as [[f o']|] eqn:E; [|done]. intros [= <- _]. by eapply file_cache_clone.
Qed.

Lemma drop_frame_cache st t st' : drop_frame st t = Ret st' → same_cache st st'.
Proof.
  unfold drop_frame. destruct (svc_drop (st_frames st) t) as [f|] eqn:E; [|done]. intros [= <-]. by eapply file_cache_drop.
Qed.

Lemma drop_option_cache st o st' : drop_option st o = Ret st' → same_cache st st'.
Proof. destruct o; [by apply drop_frame_cache|by intros [= <-]]. Qed.

Lemma drop_frames_cache st ts st' : drop_frames st ts = Ret st' → same_cache st st'.
Proof.
  revert st. induction ts as [|t ts IH]; intros st; simpl; [by intros [= <-]|].
  destruct (drop_frame st t) as [st1|] eqn:E; [|done]. intros H. apply drop_frame_cache in E.
  eapply same_cache_trans; [exact E|by apply IH].
Qed.

Lemma store_frame_cache st t off bytes : same_cache st (store_frame st t off bytes).
Proof. apply file_cache_store. Qed.

Lemma copy_page_cache st s d : same_cache st (copy_page st s d).
Proof. apply file_cache_store. Qed.

Lemma read_backing_cache st b off st' r : read_backing_page st b off = (st', r) → same_cache st st'.
Proof.
  unfold read_backing_page. destruct b; try (by intros [= <- _]).
  pose proof (file_read_cache (st_frames st) file (sat_add off offset) PAGE_SIZE) as Hc.
  destruct (file_read_at _ _ _ _) as [f r1]. by intros [= <- _].
Qed.

Lemma alloc_window_cache st n st' fs : alloc_window st n = Ret (st', fs) → same_cache st st'.
Proof.
  revert st fs. induction n as [|n IH]; intros st fs; simpl; [by intros [= <- _]|].
  destruct (new_frame st) as [[st1 [t|]]|] eqn:E; [| |done].
  - destruct (alloc_window st1 n) as [[st2 fs2]|] eqn:E2; [|done]. intros [= <- _].
    eapply same_cache_trans; [by eapply new_frame_cache|by eapply IH].
  - intros [= <- _]. by eapply new_frame_cache.
Qed.

(** ** Page tables do not concern frames *)

Lemma map_pages_frames st pt pages : st_frames (map_pages_without_flush st pt pages).1.1 = st_frames st.
Proof.
  revert st pt. induction pages as [|[[va pa] mf] pages IH]; intros st pt; simpl; [done|].
  match goal with |- context [map_pages_without_flush ?s ?p pages] => specialize (IH s p);
    destruct (map_pages_without_flush s p pages) as [[??]?] end. exact IH.
Qed.

Lemma commit_batch_frames st pt n : st_frames (commit_page_table_batch st pt n) = st_frames st.
Proof. unfold commit_page_table_batch, tlb_shootdown. by repeat cases_goal. Qed.

Lemma map_area_page_frames st pt a v : st_frames (map_area_page st pt a v).1 = st_frames st.
Proof. unfold map_area_page, map_page. by repeat cases_goal. Qed.

Lemma map_area_page_window_frames st pt a s n : st_frames (map_area_page_window st pt a s n).1 = st_frames st.
Proof.
  unfold map_area_page_window. case_match; [done|]. match goal with |- context [map_pages_without_flush ?s ?p ?l] =>
    pose proof (map_pages_frames s p l) as Hmp; destruct (map_pages_without_flush s p l) as [[??]?] end.
  simpl. by rewrite commit_batch_frames.
Qed.

(** ** The branches of a fault *)

Lemma publish_private_cache st ms i idx va old st' ms' r :
  publish_private st ms i idx va old = Ret (st', ms', r) → same_cache st st'.
Proof.
  unfold publish_private, unmap_page, tlb_shootdown. destruct (area_set_resident_state _ _ _) as [a b].
  set (st1 := emit (emit st _) _). pose proof (map_area_page_frames st1 (pt_unmap (page_table (set_area ms i a)) va) a idx) as Hm.
  destruct (map_area_page _ _ _ _) as [st2 pt2]. destruct (drop_option (emit st2 _) old) as [st3|] eqn:E; [|done].
  intros [= <- _ _]. apply drop_option_cache in E. eapply same_cache_trans; [|exact E]. by apply same_cache_frames.
Qed.

Lemma resolve_cow_cache st ms va st' ms' r :
  resolve_cow_page st ms va = Ret (st', ms', r) → same_cache st st'.
Proof.
  unfold resolve_cow_page. destruct (area_index_containing _ _) as [i|]; [|by intros [= <- _ _]].
  set (a := areas ms !!! i). set (idx := (va - start_va a) / PAGE_SIZE).
  destruct (rp_frame <$> rs_lookup (area_resident a) idx) as [src|].
  - destruct (clone_frame st src) as [[st1 t]|] eqn:E1; [|done]. apply clone_frame_cache in E1. simpl.
    destruct (_ || _).
    { destruct (drop_frame st1 src) as [st2|] eqn:E2; [|done]. intros [= <- _ _]. apply drop_frame_cache in E2.
      by eapply same_cache_trans. }
    destruct (svc_ref_count (st_frames st1) src) as [n|]; [|done]. simpl. case_bool_decide.
    + destruct (new_frame st1) as [[st2 o]|] eqn:E2; [|done]. apply new_frame_cache in E2. simpl.
      assert (E12 : same_cache st st2) by (by eapply same_cache_trans). destruct o as [fr|].
      * pose proof (copy_page_cache st2 src fr) as E3. set (st3 := copy_page st2 src fr) in *. clearbody st3.
        destruct (drop_frame st3 src) as [st4|] eqn:E4; [|done]. apply drop_frame_cache in E4. simpl.
        assert (E : same_cache st st4) by (by do 2 (eapply same_cache_trans; [|done])).
        destruct (area_replace_resident_page a idx fr) as [a1 [old|f']].
        -- intros Hp%publish_private_cache. by eapply same_cache_trans.
        -- destruct (drop_frame st4 f') as [st5|] eqn:E5; [|done]. intros [= <- _ _]. apply drop_frame_cache in E5.
           by eapply same_cache_trans.
      * destruct (drop_frame st2 src) as [st3|] eqn:E3; [|done]. intros [= <- _ _]. apply drop_frame_cache in E3.
        by eapply same_cache_trans.
    + destruct (drop_frame st1 src) as [st2|] eqn:E2; [|done]. apply drop_frame_cache in E2. simpl.
      intros Hp%publish_private_cache. by do 2 (eapply same_cache_trans; [|done]).
  - simpl. destruct (_ || _); [by intros [= <- _ _]|].
    destruct (new_frame st) as [[st1 o]|] eqn:E1; [|done]. apply new_frame_cache in E1. simpl.
    destruct o as [fr|]; [|by intros [= <- _ _]].
    destruct (read_backing_page st1 (area_backing a) _) as [st2 r2] eqn:E2. apply read_backing_cache in E2.
    assert (E12 : same_cache st st2) by (by eapply same_cache_trans). destruct r2 as [data|e].
    + pose proof (store_frame_cache st2 fr 0 data) as E3. set (st3 := store_frame st2 fr 0 data) in *. clearbody st3.
      assert (E13 : same_cache st st3) by (by eapply same_cache_trans).
      destruct (area_insert_resident_page a idx fr Private) as [[a1 [u|f']]|]; [| |done]; simpl.
      * intros Hp%publish_private_cache. by eapply same_cache_trans.
      * destruct (drop_frame st3 f') as [st4|] eqn:E4; [|done]. intros [= <- _ _]. apply drop_frame_cache in E4.
        by eapply same_cache_trans.
    + destruct (drop_frame st2 fr) as [st3|] eqn:E3; [|done]. intros [= <- _ _]. apply drop_frame_cache in E3.
      by eapply same_cache_trans.
Qed.

Lemma fault_anonymous_cache st ms a va idx st' ms' r :
  fault_anonymous st ms a va idx = Ret (st', ms', r) → same_cache st st'.
Proof.
  unfold fault_anonymous. destruct (anonymous_window a va idx) as [ws wp].
  destruct (alloc_window st (Z.to_nat wp)) as [[st1 [|t fs]]|] eqn:E1; [| |done]; apply alloc_window_cache in E1; simpl;
    [by intros [= <- _ _]|].
  destruct (area_index_containing _ _) as [i|].
  - destruct (area_insert_resident_run _ _ _ _) as [a1 [u|frames]].
    + pose proof (map_area_page_window_frames st1 (page_table ms) a1 ws (zlen (t :: fs))) as Hm.
      destruct (map_area_page_window _ _ _ _ _) as [st2 pt2]. intros [= <- _ _].
      eapply same_cache_trans; [exact E1|by apply same_cache_frames].
    + destruct (drop_frames st1 frames) as [st2|] eqn:E2; [|done]. intros [= <- _ _]. apply drop_frames_cache in E2.
      by eapply same_cache_trans.
  - destruct (drop_frames st1 (t :: fs)) as [st2|] eqn:E2; [|simpl in E2; by rewrite E2].
    simpl in E2. rewrite E2. intros [= <- _ _]. change (drop_frames st1 (t :: fs) = Ret st2) in E2.
    apply drop_frames_cache in E2. by eapply same_cache_trans.
Qed.

Lemma fault_backing_cache st ms va idx st' ms' r :
  fault_backing st ms va idx = Ret (st', ms', r) → same_cache st st'.
Proof.
  unfold fault_backing. destruct (area_index_containing _ _) as [i|]; [|by intros [= <- _ _]].
  set (a := areas ms !!! i). destruct (rs_lookup _ _).
  { pose proof (map_area_page_frames st (page_table ms) a idx) as Hm. destruct (map_area_page _ _ _ _) as [st1 pt1].
    intros [= <- _ _]. by apply same_cache_frames. }
  destruct (new_frame st) as [[st1 [fr|]]|] eqn:E1; [| |done]; apply new_frame_cache in E1; simpl; [|by intros [= <- _ _]].
  destruct (read_backing_page st1 (area_backing a) _) as [st2 r2] eqn:E2. apply read_backing_cache in E2.
  assert (E12 : same_cache st st2) by (by eapply same_cache_trans). destruct r2 as [data|e].
  - pose proof (store_frame_cache st2 fr 0 data) as E3. set (st3 := store_frame st2 fr 0 data) in *. clearbody st3.
    assert (E13 : same_cache st st3) by (by eapply same_cache_trans).
    destruct (area_insert_resident_page a idx fr _) as [[a1 [u|f']]|]; [| |done]; simpl.
    + pose proof (map_area_page_frames st3 (page_table ms) a1 idx) as Hm. destruct (map_area_page _ _ _ _) as [st4 pt4].
      intros [= <- _ _]. eapply same_cache_trans; [exact E13|by apply same_cache_frames].
    + destruct (drop_frame st3 f') as [st4|] eqn:E4; [|done]. intros [= <- _ _]. apply drop_frame_cache in E4.
      by eapply same_cache_trans.
  - destruct (drop_frame st2 fr) as [st3|] eqn:E3; [|done]. intros [= <- _ _]. apply drop_frame_cache in E3.
    by eapply same_cache_trans.
Qed.

End cache.
