(* ===== verification/MsFault.v ===== *)
(** * Page faults

    [handle_page_fault] of src/os/src/mm/memory_set.rs: which faults are refused, what
    a handled fault adds to the address space, and that it touches nothing else. *)

From S2P Require Import Prelude BTree Frame Flags FileDesc ResidentSet MapArea VmaList MemorySet MsInv.
From S2P Require Import Buddy FrameAlloc Sv39 MsInsert Machine MsCow MsFork MsCache.

(** ** Runs of absent pages *)

Lemma absent_run_ok rs next n c :
  rs_wf rs → let r := absent_run rs next n c in
  c ≤ r ≤ c + Z.of_nat n ∧ ∀ k, c ≤ k < r → rmap rs !! next k = None.
Proof.
  intros Hw. revert c. induction n as [|n IH]; intros c; cbn [absent_run]; [split; [lia|lia]|].
  rewrite rs_lookup_rmap by done. destruct (rmap rs !! next c) eqn:E; [split; [lia|lia]|].
  destruct (IH (c + 1)) as [Hr Hk]. split; [lia|]. intros k Hkr.
  destruct (decide (k = c)) as [->|]; [done|]. apply Hk. lia.
Qed.

(** The first page of a run is absent exactly when the run is not empty. *)
Lemma absent_run_first rs next n c :
  rs_wf rs → rmap rs !! next c = None → (0 < n)%nat → c < absent_run rs next n c.
Proof.
  intros Hw Hn Hpos. destruct n as [|n]; [lia|]. cbn [absent_run]. rewrite rs_lookup_rmap, Hn by done.
  destruct (absent_run_ok rs next n (c + 1) Hw) as [? _]. lia.
Qed.

(** ** Inserting a run of frames *)

Lemma area_insert_run_ok a ws frames s :
  area_ok a → frames ≠ [] → 0 ≤ ws → ws + zlen frames ≤ area_page_count a →
  (∀ v, ws ≤ v < ws + zlen frames → rmap (area_resident a) !! v = None) →
  ∃ rs', area_insert_resident_run a ws frames s = (area_set_resident a rs', Ok tt) ∧
    area_ok (area_set_resident a rs') ∧
    rmap rs' = map_seqZ ws ((λ t, mkPage t s) <$> frames) ∪ rmap (area_resident a) ∧
    area_frames (area_set_resident a rs') ≡ₚ frames ++ area_frames a.
Proof.
  intros [Hw Hb] Hne Hws Hlen Hfree. set (ps := (λ t, mkPage t s) <$> frames).
  assert (Hz : zlen ps = zlen frames) by apply zlen_fmap.
  assert (Hmax : ws + zlen ps ≤ USIZE_MAX).
  { destruct Hw. unfold area_page_count, area_size, PAGE_SIZE in *. lia. }
  unfold area_insert_resident_run, rs_insert_run_with_state.
  destruct (rs_insert_run_pages_ok (area_resident a) ws ps) as (rs'&Hins&Hwr&Hm); [apply Hw| |by rewrite Hz|].
  { split; [done|]. split; [|done]. simpl. unfold ps. intros Hx%fmap_nil_inv. done. }
  assert (Hov : rs_overlaps (area_resident a) ws (length frames) = false).
  { apply rs_overlaps_spec; [apply Hw|change (ws + zlen frames ≤ USIZE_MAX); lia|exact Hfree]. }
  rewrite Hov. fold ps. rewrite Hins. exists rs'.
  assert (Hwa : area_wf (area_set_resident a rs')).
  { apply area_wf_set_resident; [done|done|]. intros v p. rewrite Hm.
    intros [Hp|[_ Hp]]%lookup_union_Some_raw; [|by apply (area_resident_bounds a v p)].
    apply lookup_map_seqZ_Some in Hp as [Hv Hp]. apply lookup_lt_Some in Hp. unfold zlen in *. lia. }
  split; [done|]. split; [by split|]. split; [done|]. unfold area_frames.
  rewrite !rs_iter_frames by (apply Hw || apply Hwa). unfold map_frames. simpl. rewrite Hm.
  rewrite map_to_list_disjoint_union.
  - rewrite !fmap_app. apply Permutation_app; [|done]. rewrite map_to_list_seqZ.
    rewrite snd_zip by (rewrite length_seqZ; lia). unfold ps. rewrite <-list_fmap_compose. simpl.
    by rewrite list_fmap_id.
  - apply map_disjoint_spec. intros v x y Hx Hy. apply lookup_map_seqZ_Some in Hx as [Hv Hx].
    apply lookup_lt_Some in Hx. rewrite Hfree in Hy; [done|]. unfold zlen in *. lia.
Qed.

Section fault.
Context {PT F : Type} `{HPT : PageTableOps PT, !PageTableLaws PT,
                        HF : FrameService F, !FrameServiceLaws F, HL : FileLayer F, !FileLayerLaws F}.
Implicit Types (pt : PT) (st : St F) (ms : MemorySet PT) (l : list MapArea) (a : MapArea) (T : list Z).

(** The leaf of a page after a batch that stores it. *)
Lemma map_pages_lookup pt st pages va pa mf :
  Forall (λ p, user_page p.1.1) pages → NoDup ((λ p : Z * Z * Z, p.1.1) <$> pages) →
  (va, pa, mf) ∈ pages → frame_pa pa → 0 ≤ mf < 2 ^ 10 →
  pt_translate (map_pages_without_flush st pt pages).1.2 va =
  if bool_decide (mf = 0) then None else Some (pa, pt_ext mf).
Proof.
  intros Hu. revert st pt. induction Hu as [|[[va' pa'] mf'] pages Hu' Hu IH]; intros st pt Hnd Hin Hpa Hmf;
    [by apply not_elem_of_nil in Hin|].
  rewrite fmap_cons in Hnd. apply NoDup_cons in Hnd as [Hn Hnd]. simpl in Hn, Hu'. cbn [map_pages_without_flush].
  assert (Hproj : ∀ x, (let '(st, pt, n) := x in (st, pt, n + 1) : St F * PT * Z).1.2 = x.1.2) by (by intros [[??]?]).
  apply elem_of_cons in Hin as [Heq|Hin].
  - injection Heq as <- <- <-. pose proof (map_pages_other (pt_map pt va pa mf) (emit st [EvSet va]) pages va) as Ho.
    destruct (map_pages_without_flush _ _ pages) as [[st' pt'] n]. simpl in Ho |- *. rewrite Ho.
    + by apply pt_map_same.
    + rewrite Forall_forall in Hu |- *. intros p Hp. split; [by apply Hu|]. intros <-. apply Hn.
      apply list_elem_of_fmap. by exists p.
    + done.
  - specialize (IH (emit st [EvSet va']) (pt_map pt va' pa' mf') Hnd Hin Hpa Hmf).
    by destruct (map_pages_without_flush _ _ pages) as [[st' pt'] n].
Qed.

(** The page a run of frames gives the address [va] of [a]. *)
Definition run_page a (ws : Z) (frames : list FrameTracker) (s : PageState) (va : Z) : option ResidentPage :=
  if bool_decide (start_va a ≤ va < end_va a) then
    (map_seqZ ws ((λ t, mkPage t s) <$> frames) : gmap Z ResidentPage) !! ((align_down va - start_va a) / PAGE_SIZE)
  else None.

(** The leaf of a resident page. *)
Definition page_leaf (flags : Z) (p : ResidentPage) : option (Z * Z) :=
  let mf := effective_mapping_flags_for_page flags p in
  if bool_decide (mf = 0) then None else Some (page_pa p, pt_ext mf).

(** [ms'] is [ms] with a run of frames installed in [a] and mapped, where [a] had none. *)
Definition installed ms ms' a (ws : Z) (frames : list FrameTracker) (s : PageState) : Prop :=
  (∀ va, vma_page (areas ms') va =
     match run_page a ws frames s va with
     | Some p => Some (mkView (area_flags a) (split_right (area_backing a) (align_down va - start_va a)) (Some p))
     | None => vma_page (areas ms) va
     end) ∧
  (∀ va, user_page va → pt_translate (page_table ms') va =
     match run_page a ws frames s va with
     | Some p => page_leaf (area_flags a) p
     | None => pt_translate (page_table ms) va
     end) ∧
  (∀ va p, run_page a ws frames s va = Some p →
     vma_page (areas ms) va =
       Some (mkView (area_flags a) (split_right (area_backing a) (align_down va - start_va a)) None)).

Lemma run_view ms i a rs' ws frames s :
  vmas_wf (areas ms) → areas ms !! i = Some a → area_ok (area_set_resident a rs') →
  (∀ v, ws ≤ v < ws + zlen frames → rmap (area_resident a) !! v = None) →
  rmap rs' = map_seqZ ws ((λ t, mkPage t s) <$> frames) ∪ rmap (area_resident a) →
  ∀ va, vma_page (<[i := area_set_resident a rs']> (areas ms)) va =
     match run_page a ws frames s va with
     | Some p => Some (mkView (area_flags a) (split_right (area_backing a) (align_down va - start_va a)) (Some p))
     | None => vma_page (areas ms) va
     end.
Proof.
  intros Hw Hi Ha1 Hfree Hm va.
  destruct (update_area_ok (areas ms) i a _ Hw Hi Ha1 eq_refl eq_refl) as (_&Hv&_). rewrite Hv. unfold run_page.
  case_bool_decide as Hin; [|done]. rewrite area_page_Some by done. simpl. rewrite Hm.
  set (v := (align_down va - start_va a) / PAGE_SIZE).
  destruct ((map_seqZ ws ((λ t, mkPage t s) <$> frames) : gmap Z ResidentPage) !! v) as [p|] eqn:E.
  - by rewrite (lookup_union_Some_l _ _ _ _ E).
  - rewrite lookup_union_r by done. by rewrite (vma_page_at (areas ms) i a), area_page_Some by done.
Qed.

Lemma run_absent ms i a ws frames s va p :
  vmas_wf (areas ms) → areas ms !! i = Some a →
  (∀ v, ws ≤ v < ws + zlen frames → rmap (area_resident a) !! v = None) → run_page a ws frames s va = Some p →
  vma_page (areas ms) va =
    Some (mkView (area_flags a) (split_right (area_backing a) (align_down va - start_va a)) None).
Proof.
  intros Hw Hi Hfree Hr. unfold run_page in Hr. case_bool_decide as Hin; [|done].
  rewrite (vma_page_at (areas ms) i a), area_page_Some by done. apply lookup_map_seqZ_Some in Hr as [H1 H2].
  apply lookup_lt_Some in H2. rewrite length_fmap in H2. rewrite Hfree; [done|]. unfold zlen. lia.
Qed.

Lemma page_va_inj a i j :
  area_wf a → area_user a → 0 ≤ i < area_page_count a → 0 ≤ j < area_page_count a →
  page_va a i = page_va a j → i = j.
Proof.
  intros Hw Hu Hi Hj. destruct (page_va_ok a i Hw Hu Hi) as (->&_), (page_va_ok a j Hw Hu Hj) as (->&_).
  unfold PAGE_SIZE. lia.
Qed.

Lemma elem_of_area_leaves a s e va pa mf :
  area_wf a →
  (va, pa, mf) ∈ area_leaves a (rs_iter_range (area_resident a) s e) ↔
  ∃ v p, s ≤ v < e ∧ rmap (area_resident a) !! v = Some p ∧ va = page_va a v ∧ pa = page_pa p ∧
         mf = effective_mapping_flags_for_page (area_flags a) p.
Proof.
  intros Hw. unfold area_leaves. rewrite list_elem_of_fmap. split.
  - intros ([v p]&Heq&Hin). injection Heq as -> -> ->. apply elem_of_rs_iter_range in Hin as [? ?]; [|apply Hw].
    by exists v, p.
  - intros (v&p&Hv&Hp&->&->&->). exists (v, p). split; [done|]. by apply elem_of_rs_iter_range; [apply Hw|].
Qed.

Lemma area_leaves_nodup a s e :
  area_wf a → area_user a →
  NoDup ((λ p : Z * Z * Z, p.1.1) <$> area_leaves a (rs_iter_range (area_resident a) s e)).
Proof.
  intros Hw Hu. unfold area_leaves. rewrite <-list_fmap_compose.
  assert (Hnd : NoDup (rs_iter_range (area_resident a) s e).*1) by apply sorted_lt_nodup, rs_iter_range_sorted, Hw.
  assert (Hb : ∀ v p, (v, p) ∈ rs_iter_range (area_resident a) s e → 0 ≤ v < area_page_count a).
  { intros v p Hin. apply elem_of_rs_iter_range in Hin as [_ Hp]; [|apply Hw]. by eapply area_resident_bounds. }
  induction (rs_iter_range (area_resident a) s e) as [|[v p] l IH]; [constructor|].
  rewrite fmap_cons in Hnd |- *. apply NoDup_cons in Hnd as [Hn Hnd]. constructor.
  - intros Hin. apply list_elem_of_fmap in Hin as ([v' p']&Heq&Hin). simpl in Heq, Hn.
    apply page_va_inj in Heq; [|done|done|by eapply Hb; left|by eapply Hb; right]. subst v'.
    apply Hn. apply list_elem_of_fmap. by exists (v, p').
  - apply IH; [done|]. intros v' p' Hin. eapply Hb. by right.
Qed.

Lemma run_page_at a ws frames s va p :
  run_page a ws frames s va = Some p → 0 ≤ ws → area_wf a → page_aligned va →
  ∃ v, ws ≤ v < ws + zlen frames ∧ 0 ≤ v < area_page_count a ∧ va = start_va a + v * PAGE_SIZE ∧
    (map_seqZ ws ((λ t, mkPage t s) <$> frames) : gmap Z ResidentPage) !! v = Some p.
Proof.
  unfold run_page. intros Hr Hws Hw Hal. case_bool_decide as Hin; [|done]. rewrite align_down_id in Hr by done.
  destruct (area_page_at a va Hw Hal Hin) as (v&Hv&Hva&_). exists v.
  assert ((va - start_va a) / PAGE_SIZE = v) as Hq by (unfold PAGE_SIZE in *; lia). rewrite Hq in Hr.
  apply lookup_map_seqZ_Some in Hr as Hr'. destruct Hr' as [H1 H2]. apply lookup_lt_Some in H2.
  rewrite length_fmap in H2. unfold zlen. split_and!; [lia|lia|lia|lia|done|done].
Qed.

(** Every page of the run is given. *)
Lemma run_page_window a ws frames s v :
  area_wf a → area_user a → 0 ≤ ws → ws ≤ v < ws + zlen frames → ws + zlen frames ≤ area_page_count a →
  ∃ t, run_page a ws frames s (page_va a v) = Some (mkPage t s) ∧ t ∈ frames.
Proof.
  intros Hw Hu Hws Hv Hc. destruct (page_va_ok a v Hw Hu) as (Hpv&[Hal _]&Hin); [lia|]. unfold run_page.
  rewrite bool_decide_eq_true_2, align_down_id by done. rewrite Hpv.
  replace ((start_va a + v * PAGE_SIZE - start_va a) / PAGE_SIZE) with v by (unfold PAGE_SIZE; lia).
  destruct (frames !! Z.to_nat (v - ws)) as [t|] eqn:Et.
  - exists t. split; [|by eapply list_elem_of_lookup_2]. apply lookup_map_seqZ_Some. split; [lia|].
    by rewrite list_lookup_fmap, Et.
  - apply lookup_ge_None in Et. unfold zlen in *. lia.
Qed.

Lemma run_install_ok st ms T i a ws frames s :
  vmas_wf (areas ms) → Forall area_user (areas ms) → coherent (areas ms) (page_table ms) →
  svc_inv (st_frames st) ((frame_no <$> frames) ++ owned (areas ms) ++ T) →
  areas ms !! i = Some a → frames ≠ [] → 0 ≤ ws → ws + zlen frames ≤ area_page_count a →
  (∀ v, ws ≤ v < ws + zlen frames → rmap (area_resident a) !! v = None) →
  has_leaf_permission (area_flags a) = true →
  ∃ rs', let a1 := area_set_resident a rs' in
    area_insert_resident_run a ws frames s = (a1, Ok tt) ∧
    let '(st', pt') := map_area_page_window st (page_table ms) a1 ws (zlen frames) in
    let ms' := set_page_table (set_area ms i a1) pt' in
    ms_inv st' ms' T ∧ st_frames st' = st_frames st ∧ installed ms ms' a ws frames s ∧
    ∃ evs, logged st st' evs ∧ settled evs.
Proof.
  intros Hw Hu Hc Hinv Hi Hne Hws Hlen Hfree Hleaf.
  pose proof (vmas_area_ok _ _ _ Hw Hi) as Ha. pose proof (Forall_lookup_1 _ _ _ _ Hu Hi) as Hua.
  destruct (area_insert_run_ok a ws frames s Ha Hne Hws Hlen Hfree) as (rs'&Hins&Ha1&Hm&Hfr).
  exists rs'. cbv zeta. split; [done|]. set (a1 := area_set_resident a rs') in *.
  destruct (update_area_ok (areas ms) i a a1 Hw Hi Ha1 eq_refl eq_refl) as (Hw1&_&rest&Ho&Ho1).
  pose proof (run_view ms i a rs' ws frames s Hw Hi Ha1 Hfree Hm) as Hv1. fold a1 in Hv1.
  assert (Hown : owned (<[i := a1]> (areas ms)) ≡ₚ (frame_no <$> frames) ++ owned (areas ms)).
  { rewrite Ho, Ho1, !owned_single, Hfr, fmap_app. by rewrite app_assoc. }
  assert (Hg1 : area_good a1).
  { intros v p Hp. eapply svc_inv_pos; [exact Hinv|]. rewrite app_assoc, <-Hown, elem_of_app. left.
    eapply resident_owned; [exact Hw1|by apply list_lookup_insert_eq, (lookup_lt_Some _ _ _ Hi)|exact Hp]. }
  assert (Hi1 : <[i := a1]> (areas ms) !! i = Some a1) by (by apply list_lookup_insert_eq, (lookup_lt_Some _ _ _ Hi)).
  assert (Hc1 : coherent (<[i := a1]> (areas ms)) (page_table ms)).
  { intros va leaf Hva Ht. destruct (Hc va leaf Hva Ht) as (v&pg&Hv&Hpg&Hx). exists v, pg. rewrite Hv1.
    destruct (run_page a ws frames s va) as [q|] eqn:Er; [|done]. exfalso. unfold run_page in Er.
    case_bool_decide as Hin; [|done]. rewrite (vma_page_at (areas ms) i a), area_page_Some in Hv by done.
    injection Hv as <-. simpl in Hpg. apply lookup_map_seqZ_Some in Er as [H1 H2]. apply lookup_lt_Some in H2.
    rewrite length_fmap in H2. rewrite Hfree in Hpg; [done|]. unfold zlen. lia. }
  unfold map_area_page_window. change (area_flags a1) with (area_flags a). rewrite Hleaf. cbn [negb].
  change (area_page_count a1) with (area_page_count a).
  assert (Hsat : sat_add ws (zlen frames) = ws + zlen frames).
  { unfold sat_add. destruct (proj1 Ha). unfold area_page_count, area_size, PAGE_SIZE, USIZE_MAX in *. lia. }
  rewrite Hsat, Z.min_l by lia. set (pages := area_leaves a1 (rs_iter_range (area_resident a1) ws (ws + zlen frames))).
  assert (Hgl : Forall (good_leaf (<[i := a1]> (areas ms))) pages).
  { apply area_leaves_ok; [apply Ha1|done|done|by eapply area_of_lookup|done]. }
  pose proof (map_pages_ok _ (page_table ms) st pages Hgl Hc1) as Hmp.
  pose proof (map_pages_other (page_table ms) st pages) as Hoth.
  pose proof (map_pages_lookup (page_table ms) st pages) as Hlk.
  destruct (map_pages_without_flush st (page_table ms) pages) as [[st1 pt1] n].
  destruct Hmp as (Hc2&_&He1&_). destruct (commit_batch_events pt1 st1 n) as (evs&He2&Hh2). simpl in Hoth, Hlk.
  pose proof (events_trans _ _ _ _ _ He1 He2) as He. pose proof He as (Hf2&_&_).
  split; [|split; [done|split; [split; [done|split; [|intros va p; by apply run_absent with i]]|]]].
  - split; simpl; [done|by apply (update_area_user _ i a)|done|]. rewrite Hf2, Hown, <-app_assoc. done.
  - intros va Hva. simpl. destruct (run_page a ws frames s va) as [p|] eqn:Er.
    + apply run_page_at in Er as (v&Hr&Hvb&Hva'&Hp); [|done|apply Ha|apply Hva].
      apply Hlk; [eapply Forall_impl; [exact Hgl|]; by intros ? []|by apply area_leaves_nodup; [apply Ha1|]| | |].
      * apply elem_of_area_leaves; [apply Ha1|]. exists v, p. split; [done|]. split; [simpl; by rewrite Hm, (lookup_union_Some_l _ _ _ _ Hp)|].
        split_and!; [|done|done]. destruct (page_va_ok a v (proj1 Ha) Hua) as (Hpv&_); [lia|].
        change (page_va a1 v) with (page_va a v). by rewrite Hpv.
      * apply good_page_pa. apply (Hg1 v). simpl. by rewrite Hm, (lookup_union_Some_l _ _ _ _ Hp).
      * apply mapping_flags_range.
    + apply Hoth; [|done]. rewrite Forall_forall in Hgl |- *. intros [[va' pa'] mf'] Hin. split; [by apply (Hgl _ Hin)|].
      simpl. intros ->. apply elem_of_area_leaves in Hin as (v&p&Hvw&Hp&Hva'&_&_); [|apply Ha1].
      change (page_va a1 v) with (page_va a v) in Hva'.
      destruct (run_page_window a ws frames s v (proj1 Ha) Hua Hws Hvw Hlen) as (t&Ht&_). by rewrite <-Hva', Er in Ht.
  - eexists. split; [apply events_logged; exact He|]. apply settled_harmless, Forall_app. split; [|done].
    apply Forall_fmap, Forall_true. by intros [[??]?].
Qed.

(** ** The branches of [handle_page_fault] *)

Lemma alloc_window_ok st n T :
  svc_inv (st_frames st) T →
  ∃ st' frames, alloc_window st n = Ret (st', frames) ∧ zlen frames ≤ Z.of_nat n ∧
    svc_inv (st_frames st') ((frame_no <$> frames) ++ T) ∧ logged st st' [] ∧
    (∀ t, t ∈ frames → frame_no t ∉ T ∧ svc_page (st_frames st') (frame_no t) = zero_page) ∧
    (∀ q, q ∈ T → svc_page (st_frames st') q = svc_page (st_frames st) q).
Proof.
  revert st T. induction n as [|n IH]; intros st T Hi; cbn [alloc_window].
  { exists st, []. split; [done|]. split; [done|]. split; [done|]. split; [apply logged_refl|].
    split; [by intros t ?%not_elem_of_nil|done]. }
  destruct (new_frame_ok st T Hi) as (st1&o&->&Hl1&Ho). destruct o as [t|].
  - destruct Ho as (Hi1&Hnew&Hz&Hoth). destruct (IH st1 (frame_no t :: T) Hi1) as (st'&frames&->&Hlen&Hi'&Hl'&Hfr&Hsm).
    exists st', (t :: frames). split; [done|]. rewrite zlen_cons. split; [lia|]. split; [|split; [|split]].
    + rewrite fmap_cons. simpl. by rewrite Permutation_middle.
    + by apply (logged_trans _ st1 _ [] _ Hl1).
    + intros t' Ht'. apply elem_of_cons in Ht' as [->|Ht'].
      * split; [done|]. rewrite Hsm by (by left). done.
      * destruct (Hfr t' Ht') as [Hn Hz']. split; [|done]. intros Hin. apply Hn. by right.
    + intros q Hq. rewrite Hsm by (by right). apply Hoth. by intros ->.
  - destruct Ho as [Hi1 Hp1]. exists st1, []. split; [done|]. split; [unfold zlen; simpl; lia|]. split; [done|]. split; [done|].
    split; [by intros t ?%not_elem_of_nil|]. intros q _. apply Hp1.
Qed.

Lemma anonymous_window_ok a va :
  area_wf a → page_aligned va → start_va a ≤ va < end_va a →
  let idx := (va - start_va a) / PAGE_SIZE in rmap (area_resident a) !! idx = None →
  let '(ws, wp) := anonymous_window a va idx in
  0 ≤ ws ≤ idx ∧ idx < ws + wp ≤ area_page_count a ∧ wp ≤ ANONYMOUS_FAULT_WINDOW_PAGES ∧
  ∀ v, ws ≤ v < ws + wp → rmap (area_resident a) !! v = None.
Proof.
  intros Hw Hal Hin idx Hnone. unfold anonymous_window. pose proof Hw as [H0 Hlt Hmax Has Hae Hwr _].
  assert (Hend : (end_va a - va) / PAGE_SIZE = area_page_count a - idx ∧ 0 ≤ idx < area_page_count a).
  { unfold idx, area_page_count, area_size, page_aligned, PAGE_SIZE in *. lia. }
  destruct Hend as [-> Hidx]. unfold ANONYMOUS_FAULT_WINDOW_PAGES.
  set (mf := Z.min (area_page_count a - idx) 8).
  destruct (absent_run_ok (area_resident a) (λ n, idx + n) (Z.to_nat mf) 0 Hwr) as [Hf1 Hf2].
  pose proof (absent_run_first (area_resident a) (λ n, idx + n) (Z.to_nat mf) 0 Hwr) as Hf3.
  rewrite Z.add_0_r in Hf3. specialize (Hf3 Hnone ltac:(unfold mf; lia)).
  set (fp := absent_run _ _ (Z.to_nat mf) 0) in *.
  set (bp := if bool_decide (fp < 8) then _ else 1).
  assert (Hb : 1 ≤ bp ≤ Z.min (idx + 1) 8 ∧ ∀ k, 1 ≤ k < bp → rmap (area_resident a) !! (idx - k) = None).
  { unfold bp. destruct (bool_decide (fp < 8)); [|split; [lia|lia]].
    destruct (absent_run_ok (area_resident a) (λ n, idx - n) (Z.to_nat (Z.min (idx + 1) 8 - 1)) 1 Hwr) as [Hb1 Hb2].
    split; [lia|done]. }
  clearbody bp. destruct Hb as [Hb1 Hb2]. destruct (bool_decide (fp < bp)) eqn:E.
  - apply bool_decide_eq_true_1 in E. split_and!; [lia|lia|lia|lia|lia|]. intros v Hv.
    destruct (decide (v = idx)) as [->|]; [done|]. replace v with (idx - (idx - v)) by lia. apply Hb2. lia.
  - split_and!; [lia|lia|lia|unfold mf in *; lia|unfold mf in *; lia|]. intros v Hv.
    replace v with (idx + (v - idx)) by lia. apply Hf2. lia.
Qed.

(** What a handled fault at the page [va] of view [v] did. *)
Inductive handled st st' ms ms' (T : list Z) (va : Z) (v : page_view) (is_store : bool) : Prop :=
  | FaultResolved bytes :
      is_store = true → resolvable v = true → resolved st st' ms ms' T va bytes →
      match pv_page v with
      | Some p => bytes = svc_page (st_frames st) (frame_no (rp_frame p))
      | None => ∃ st1, backing_bytes st1 (pv_backing v) 0 = Ok bytes
      end →
      handled st st' ms ms' T va v is_store
  | FaultMapped :
      st' = st → ms' = ms → is_Some (pt_translate (page_table ms) va) → handled st st' ms ms' T va v is_store
  | FaultResident p :
      pv_page v = Some p → areas ms' = areas ms → pt_translate (page_table ms) va = None →
      (∀ va', user_page va' → pt_translate (page_table ms') va' =
         if bool_decide (va' = va) then page_leaf (pv_flags v) p else pt_translate (page_table ms) va') →
      handled st st' ms ms' T va v is_store
  | FaultZero a ws frames :
      pv_page v = None → pv_backing v = Anonymous → installed ms ms' a ws frames Private →
      (∀ t, t ∈ frames → frame_no t ∉ owned (areas ms) ++ T ∧
                         svc_page (st_frames st') (frame_no t) = zero_page) →
      start_va a + ws * PAGE_SIZE ≤ va → frames ≠ [] →
      (va < start_va a + (ws + zlen frames) * PAGE_SIZE ∨ start_va a + ws * PAGE_SIZE < va) →
      handled st st' ms ms' T va v is_store
  | FaultBacked a ws t bytes st1 :
      pv_page v = None → installed ms ms' a ws [t] (backing_page_state (pv_backing v)) →
      va = start_va a + ws * PAGE_SIZE → frame_no t ∉ owned (areas ms) ++ T →
      backing_bytes st1 (pv_backing v) 0 = Ok bytes → svc_page (st_frames st') (frame_no t) = bytes →
      handled st st' ms ms' T va v is_store
  | FaultCached a ws frames :
      pv_page v = None → is_store = false → flags_contains (pv_flags v) PTE_W = false →
      installed ms ms' a ws frames FileClean → va = start_va a + ws * PAGE_SIZE → frames ≠ [] →
      handled st st' ms ms' T va v is_store.

(** Mapping one resident page. *)
Lemma map_area_page_ok l i a st pt idx p :
  vmas_wf l → Forall area_user l → l !! i = Some a → coherent l pt → area_good a →
  rmap (area_resident a) !! idx = Some p → has_leaf_permission (area_flags a) = true →
  let '(st', pt') := map_area_page st pt a idx in
  coherent l pt' ∧ st_frames st' = st_frames st ∧ logged st st' [EvSet (page_va a idx); EvFlushVa (page_va a idx)] ∧
  ∀ va, user_page va → pt_translate pt' va =
    if bool_decide (va = page_va a idx) then page_leaf (area_flags a) p else pt_translate pt va.
Proof.
  intros Hw Hu Hi Hc Hg Hp Hleaf. pose proof (vmas_area_ok _ _ _ Hw Hi) as [Hwa _].
  pose proof (Forall_lookup_1 _ _ _ _ Hu Hi) as Hua.
  destruct (area_leaf_ok l a idx p Hwa Hua Hg (area_of_lookup _ _ _ Hw Hi) Hleaf Hp) as (Hup&Hpa&Hmf&Hlf).
  unfold map_area_page. rewrite rs_lookup_rmap, Hp, Hleaf by apply Hwa. cbn [negb]. unfold map_page.
  split; [by apply coherent_map|]. split; [done|]. split; [done|]. intros va Hva. unfold page_leaf. cbv zeta.
  destruct (decide (va = page_va a idx)) as [->|Hne].
  - rewrite (bool_decide_eq_true_2 (page_va a idx = page_va a idx)) by done. by apply pt_map_same.
  - rewrite (bool_decide_eq_false_2 (va = _)) by done. by apply pt_map_other.
Qed.

Lemma inv_area_good st ms T i a :
  ms_inv st ms T → areas ms !! i = Some a → area_good a.
Proof.
  intros [Hw _ _ Hf] Hi v p Hp. eapply svc_inv_pos; [exact Hf|]. rewrite elem_of_app. left. by eapply resident_owned.
Qed.

Section branches.
Context (st : St F) (ms : MemorySet PT) (va : Z) (i : nat).
Context (Hva : user_page va) (Hidx : area_index_containing (areas ms) va = Some i).
Let a := areas ms !!! i.
Let idx := (va - start_va a) / PAGE_SIZE.
Let v := mkView (area_flags a) (split_right (area_backing a) (va - start_va a)) (rmap (area_resident a) !! idx).
Context (Hleaf : has_leaf_permission (area_flags a) = true).

Lemma fault_anonymous_ok T is_store :
  ms_inv st ms T → rmap (area_resident a) !! idx = None → area_backing a = Anonymous →
  ∃ st' ms' r, fault_anonymous st ms a va idx = Ret (st', ms', r) ∧ ms_inv st' ms' T ∧
    resolve_frame st st' ms T ∧
    match r with Ok _ => handled st st' ms ms' T va v is_store | Err e => ms' = ms ∧ e = ENOMEM end.
Proof using Hva Hidx Hleaf.
  intros Hi Hnone Hanon. pose proof Hi as [Hw Hu Hc Hf].
  destruct (area_found ms va i Hw (proj1 Hva) Hidx) as (Hai&Ha&Hin&_). fold a in Hai, Ha, Hin.
  pose proof (anonymous_window_ok a va (proj1 Ha) (proj1 Hva) Hin Hnone) as Hwin. fold idx in Hwin.
  unfold fault_anonymous. destruct (anonymous_window a va idx) as [ws wp]. destruct Hwin as (Hws&Hwp&_&Habs).
  destruct (alloc_window_ok st (Z.to_nat wp) _ Hf) as (st1&frames&->&Hlen&Hi1&Hl1&Hfr&Hsm).
  destruct frames as [|t frames'] eqn:Efr.
  { rewrite bool_decide_eq_true_2 by lia. eexists _, _, _. split; [reflexivity|]. split; [by split|]. split; [|done].
    split; [done|]. by exists []. }
  rewrite <-Efr in *. assert (Hne : frames ≠ []) by (by rewrite Efr). clear Efr. rewrite Hidx. fold a.
  assert (Hlen' : ws + zlen frames ≤ area_page_count a) by lia.
  destruct (run_install_ok st1 ms T i a ws frames Private) as (rs'&->&Hrun); [done..|lia|done| |done|].
  { intros w Hwv. apply Habs. lia. }
  destruct (map_area_page_window _ _ _ _ _) as [st2 pt2]. destruct Hrun as (Hi2&Hf2&Hins&evs&Hl2&Hs2).
  eexists _, _, _. split; [reflexivity|]. split; [done|]. split.
  { split; [intros q Hq; by rewrite Hf2, Hsm|]. exists ([] ++ evs). split; [by eapply logged_trans|done]. }
  assert (Hpos : va = start_va a + idx * PAGE_SIZE).
  { destruct (area_page_at a va (proj1 Ha) (proj1 Hva) Hin) as (k&_&Hk&_). unfold idx, PAGE_SIZE in *. lia. }
  apply zlen_pos in Hne as Hpos'. eapply (FaultZero _ _ _ _ _ _ _ _ a ws frames).
  - exact Hnone.
  - simpl. by rewrite Hanon.
  - done.
  - intros t' Ht'. rewrite Hf2. by apply Hfr.
  - unfold PAGE_SIZE in *. lia.
  - done.
  - destruct (decide (idx < ws + zlen frames)); [left|right]; unfold PAGE_SIZE in *; lia.
Qed.

Lemma page_index_va : vmas_wf (areas ms) → va = start_va a + idx * PAGE_SIZE ∧ 0 ≤ idx < area_page_count a.
Proof using Hva Hidx.
  intros Hw. destruct (area_found ms va i Hw (proj1 Hva) Hidx) as (_&Ha&Hin&_). fold a in Ha, Hin.
  destruct (area_page_at a va (proj1 Ha) (proj1 Hva) Hin) as (k&Hk&Hk'&_).
  assert (idx = k) as -> by (unfold idx, PAGE_SIZE in *; lia). done.
Qed.

(** A page that is resident but not mapped. *)
Lemma fault_resident_ok T p is_store :
  ms_inv st ms T → rmap (area_resident a) !! idx = Some p → pt_translate (page_table ms) va = None →
  let '(st', pt') := map_area_page st (page_table ms) a idx in
  ms_inv st' (set_page_table ms pt') T ∧ resolve_frame st st' ms T ∧
  handled st st' ms (set_page_table ms pt') T va v is_store.
Proof using Hva Hidx Hleaf.
  intros Hi Hp Hnt. pose proof Hi as [Hw Hu Hc Hf]. destruct (page_index_va Hw) as [Hpos Hb].
  destruct (area_found ms va i Hw (proj1 Hva) Hidx) as (Hai&Ha&_&_). fold a in Hai, Ha.
  pose proof (map_area_page_ok (areas ms) i a st (page_table ms) idx p Hw Hu Hai Hc
    (inv_area_good st ms T i a Hi Hai) Hp Hleaf) as Hm.
  destruct (map_area_page st (page_table ms) a idx) as [st' pt']. destruct Hm as (Hc'&Hf'&Hl'&Ht').
  destruct (page_va_ok a idx (proj1 Ha) (Forall_lookup_1 _ _ _ _ Hu Hai) Hb) as (Hpv&_). rewrite <-Hpos in Hpv.
  split; [split; simpl; [done|done|done|by rewrite Hf']|]. split.
  - split; [intros q _; by rewrite Hf'|]. eexists. split; [exact Hl'|]. apply settled_harmless. by repeat constructor.
  - apply (FaultResident _ _ _ _ _ _ _ _ p); [done|done|done|]. rewrite Hpv in Ht'. exact Ht'.
Qed.

(** Installing one fresh frame and mapping it. *)
Lemma page_install_ok st3 T t s :
  ms_inv st ms T → rmap (area_resident a) !! idx = None →
  svc_inv (st_frames st3) (frame_no t :: owned (areas ms) ++ T) →
  ∃ a1, area_insert_resident_page a idx t s = Ret (a1, Ok tt) ∧
    let '(st', pt') := map_area_page st3 (page_table ms) a1 idx in
    let ms' := set_page_table (set_area ms i a1) pt' in
    ms_inv st' ms' T ∧ installed ms ms' a idx [t] s ∧ st_frames st' = st_frames st3 ∧
    ∃ evs, logged st3 st' evs ∧ settled evs.
Proof using Hva Hidx Hleaf.
  intros Hi Hnone Hi3. pose proof Hi as [Hw Hu Hc Hf]. destruct (page_index_va Hw) as [Hpos Hb].
  destruct (area_found ms va i Hw (proj1 Hva) Hidx) as (Hai&[Hwa Hba]&Hin&_). fold a in Hai, Hwa, Hba, Hin.
  destruct (area_insert_page_ok a idx t s Hwa) as (rs'&->&Hwr&Hm);
    [by apply page_index_usize; [|apply Hva|]|done|].
  set (a1 := area_set_resident a rs'). exists a1. split; [done|].
  destruct (put_page_ok (areas ms) i a va rs' (mkPage t s) Hw Hai (proj1 Hva) Hin Hwr Hm) as (Ha1&Hw1&_). fold a1 in Ha1, Hw1.
  destruct (update_area_ok (areas ms) i a a1 Hw Hai Ha1 eq_refl eq_refl) as (_&_&rest&Hown&Hown1).
  assert (Howned : owned (<[i := a1]> (areas ms)) ≡ₚ frame_no t :: owned (areas ms)).
  { rewrite Hown, Hown1, !owned_single, (area_frames_insert a a1 idx (mkPage t s)) by (done || apply Ha1). done. }
  assert (Hm' : rmap rs' = map_seqZ idx ((λ t, mkPage t s) <$> [t]) ∪ rmap (area_resident a)).
  { rewrite Hm. simpl. by rewrite insert_union_singleton_l. }
  assert (Hone : ∀ w, idx ≤ w < idx + zlen [t] → w = idx) by (unfold zlen; simpl; lia).
  pose proof (run_view ms i a rs' idx [t] s Hw Hai Ha1 ltac:(intros w Hwv; by rewrite (Hone w Hwv)) Hm') as Hview.
  fold a1 in Hview.
  assert (Hmid : ms_inv st3 (set_area ms i a1) T).
  { split; simpl; [done|by apply (update_area_user _ i a)| |by rewrite Howned].
    intros va' leaf Hu' Ht'. destruct (Hc va' leaf Hu' Ht') as (w&pg&Hvw&Hx). exists w, pg. rewrite Hview.
    destruct (run_page a idx [t] s va') as [q|] eqn:Er; [|done]. exfalso.
    apply run_page_at in Er as (k&Hk&_&Hva'&_); [|lia|done|apply Hu']. rewrite (Hone k Hk), <-Hpos in Hva'. subst va'.
    rewrite (vma_page_at (areas ms) i a), area_page_Some, align_down_id in Hvw by (done || apply Hva).
    injection Hvw as <-. destruct Hx as (Hpg&_). simpl in Hpg. fold idx in Hpg. congruence. }
  pose proof Hmid as [_ Hu1 Hc1 Hf1]. simpl in Hu1, Hc1.
  assert (Hai1 : <[i := a1]> (areas ms) !! i = Some a1) by (by apply list_lookup_insert_eq, (lookup_lt_Some _ _ _ Hai)).
  assert (Hp1 : rmap (area_resident a1) !! idx = Some (mkPage t s)) by (simpl; by rewrite Hm, lookup_insert_eq).
  pose proof (map_area_page_ok _ i a1 st3 (page_table ms) idx _ Hw1 Hu1 Hai1 Hc1
    (inv_area_good _ _ _ _ _ Hmid Hai1) Hp1 Hleaf) as Hmap.
  destruct (map_area_page st3 (page_table ms) a1 idx) as [st' pt']. destruct Hmap as (Hc'&Hf'&Hl'&Ht').
  destruct (page_va_ok a idx Hwa (Forall_lookup_1 _ _ _ _ Hu Hai) Hb) as (Hpv&_). rewrite <-Hpos in Hpv.
  change (page_va a1 idx) with (page_va a idx) in *. rewrite Hpv in *.
  split; [split; simpl; [done|done|done|by rewrite Hf']|]. split; [split; [done|split; [|by intros va' q; apply run_absent with i; [|done|intros w Hwv; rewrite (Hone w Hwv)]]]|split; [done|]].
  - intros va' Hu'. simpl. rewrite Ht' by done. destruct (run_page a idx [t] s va') as [q|] eqn:Er.
    + apply run_page_at in Er as (k&Hk&_&Hva'&Hq); [|lia|done|apply Hu']. rewrite (Hone k Hk) in Hva', Hq.
      rewrite <-Hpos in Hva'. subst va'. rewrite bool_decide_eq_true_2 by done. simpl in Hq.
      rewrite lookup_insert_eq in Hq. by injection Hq as <-.
    + rewrite bool_decide_eq_false_2; [done|]. intros ->.
      destruct (run_page_window a idx [t] s idx Hwa (Forall_lookup_1 _ _ _ _ Hu Hai)) as (t'&Ht&_);
        [lia|unfold zlen; simpl; lia|unfold zlen; simpl; lia|]. rewrite Hpv, Er in Ht. done.
  - eexists. split; [exact Hl'|]. apply settled_harmless. by repeat constructor.
Qed.

Lemma fault_backing_ok T is_store :
  ms_inv st ms T → rmap (area_resident a) !! idx = None →
  ∃ st' ms' r, fault_backing st ms va idx = Ret (st', ms', r) ∧ ms_inv st' ms' T ∧
    resolve_frame st st' ms T ∧
    match r with
    | Ok _ => handled st st' ms ms' T va v is_store
    | Err e => ms' = ms ∧ (e = ENOMEM ∨ ∃ st1, backing_bytes st1 (pv_backing v) 0 = Err e)
    end.
Proof using Hva Hidx Hleaf FileLayerLaws0.
  intros Hi Hnone. pose proof Hi as [Hw Hu Hc Hf]. destruct (page_index_va Hw) as [Hpos Hb].
  destruct (area_found ms va i Hw (proj1 Hva) Hidx) as (Hai&[Hwa Hba]&Hin&_). fold a in Hai, Hwa, Hba, Hin.
  unfold fault_backing. rewrite Hidx. fold a. rewrite rs_lookup_rmap, Hnone by apply Hwa.
  assert (Hoff : sat_sub va (start_va a) = va - start_va a) by (unfold sat_sub; lia). rewrite Hoff.
  destruct (fill_from_backing st _ (area_backing a) (va - start_va a) Hf Hba) as (st1&o&Hn&Hl1&Ho); [lia|].
  rewrite Hn. destruct o as [t|].
  2:{ destruct Ho as [Hi1 Hp1]. eexists _, _, _. split; [reflexivity|]. split; [by split|]. split; [|by split; [|left]].
      by apply (resolve_frame_same _ _ _ _ []). }
  destruct Ho as (Hnew&st2&r&->&Hl2&Hr&Ho).
  pose proof (logged_trans _ st1 _ [] [] Hl1 Hl2) as Hl12. destruct r as [data|e].
  2:{ destruct Ho as (st3&->&Hi3&Hl3&Hsame). eexists _, _, _. split; [reflexivity|]. split; [by split|].
      split; [|split; [done|right; by exists st1]]. split; [done|].
      exists [EvDrop (frame_no t)]. split; [exact (logged_trans _ _ _ [] _ Hl12 Hl3)|apply (settled_drops [frame_no t])]. }
  destruct Ho as (Hi3&Hl3&Hs3&Hsame).
  destruct (page_install_ok (store_frame st2 t 0 data) T t (backing_page_state (area_backing a)) Hi Hnone Hi3)
    as (a1&->&Hins).
  destruct (map_area_page _ _ a1 idx) as [st' pt']. destruct Hins as (Hi'&Hins&Hf'&evs&Hl'&Hs').
  eexists _, _, _. split; [reflexivity|]. split; [done|]. split.
  { split; [intros q Hq; rewrite Hf'; by apply Hsame|]. exists evs. split; [|done].
    apply (logged_trans _ st2 _ [] _ Hl12). by apply (logged_trans _ _ _ [] _ Hl3). }
  apply (FaultBacked _ _ _ _ _ _ _ _ a idx t data st1); [done| |done|done|done|by rewrite Hf'].
  simpl. assert (Hbs : backing_page_state (split_right (area_backing a) (va - start_va a)) =
    backing_page_state (area_backing a)) by (by destruct (area_backing a)). by rewrite Hbs.
Qed.

(** Pages from the clean page cache; [X] are the trackers outside of it. *)
Lemma fault_clean_file_ok X ino off is_store :
  ms_inv st ms (file_cache (st_frames st) ++ X) → rmap (area_resident a) !! idx = None →
  is_store = false → flags_contains (area_flags a) PTE_W = false →
  ∃ st' ms' r, fault_clean_file st ms a va idx ino off = Ret (st', ms', r) ∧
    ms_inv st' ms' (file_cache (st_frames st') ++ X) ∧ resolve_frame st st' ms X ∧
    match r with
    | Ok _ => ∀ T, handled st st' ms ms' T va v is_store
    | Err e => ms' = ms
    end.
Proof using Hva Hidx Hleaf FileLayerLaws0.
  intros Hi Hnone Hst HW. pose proof Hi as [Hw Hu Hc Hf]. destruct (page_index_va Hw) as [Hpos Hb].
  destruct (area_found ms va i Hw (proj1 Hva) Hidx) as (Hai&[Hwa Hba]&Hin&_). fold a in Hai, Hwa, Hba, Hin.
  unfold fault_clean_file.
  assert (Hend : (end_va a - va) / PAGE_SIZE = area_page_count a - idx).
  { destruct Hwa. unfold area_page_count, area_size, page_aligned, PAGE_SIZE in *. lia. }
  rewrite Hend. set (mw := Z.min (area_page_count a - idx) CLEAN_FILE_FAULT_WINDOW_PAGES).
  assert (Hmw : 0 < mw ≤ area_page_count a - idx) by (unfold mw, CLEAN_FILE_FAULT_WINDOW_PAGES; lia).
  destruct (absent_run_ok (area_resident a) (λ n, idx + n) (Z.to_nat mw) 0 (wf_resident _ Hwa)) as [Hr1 Hr2].
  pose proof (absent_run_first (area_resident a) (λ n, idx + n) (Z.to_nat mw) 0 (wf_resident _ Hwa)) as Hr3.
  rewrite Z.add_0_r in Hr3. specialize (Hr3 Hnone ltac:(lia)).
  set (wp := absent_run _ _ (Z.to_nat mw) 0) in *. rewrite bool_decide_eq_false_2 by lia.
  destruct (clean_cache_ok (st_frames st) (owned (areas ms) ++ X) ino off wp CLEAN_FILE_FAULT_READ_AHEAD_PAGES)
    as (f'&r&->&Hsame&Hr).
  { eapply svc_inv_perm; [|exact Hf]. rewrite !app_assoc. by rewrite (Permutation_app_comm (file_cache _)). }
  assert (Hsf : resolve_frame st (set_frames st f') ms X).
  { split; [exact Hsame|]. exists []. split; [|apply settled_nil]. split; [done|]. simpl. by rewrite app_nil_r. }
  assert (Hperm : ∀ l : list Z, l ++ owned (areas ms) ++ X ≡ₚ owned (areas ms) ++ l ++ X).
  { intros l. rewrite !app_assoc. by rewrite (Permutation_app_comm l). }
  destruct r as [frames|e].
  2:{ eexists _, _, _. split; [reflexivity|]. split; [split; simpl; try done; by rewrite <-Hperm|]. by split. }
  destruct Hr as [Hr Hlen]. destruct frames as [|t frames'] eqn:Efr.
  { eexists _, _, _. split; [reflexivity|]. split; [split; simpl; try done; by rewrite <-Hperm|]. by split. }
  rewrite <-Efr in *. assert (Hne : frames ≠ []) by (by rewrite Efr). clear Efr. rewrite Hidx. fold a.
  destruct (run_install_ok (set_frames st f') ms (file_cache f' ++ X) i a idx frames FileClean) as (rs'&->&Hrun);
    [done|done|done| |done|done|lia|lia| |done|].
  { simpl. by rewrite <-Hperm. }
  { intros w Hwv. replace w with (idx + (w - idx)) by lia. apply Hr2. lia. }
  destruct (map_area_page_window _ _ _ _ _) as [st2 pt2]. destruct Hrun as (Hi2&Hf2&Hins&evs&Hl2&Hs2).
  eexists _, _, _. split; [reflexivity|]. split; [by rewrite Hf2|]. split.
  { destruct Hsf as [Hsf1 (evs'&Hsf2&Hsf3)]. split; [intros q Hq; rewrite Hf2; by apply Hsf1|].
    exists (evs' ++ evs). split; [exact (logged_trans _ _ _ _ _ Hsf2 Hl2)|by apply settled_app]. }
  intros T. by apply (FaultCached _ _ _ _ _ _ _ _ a idx frames).
Qed.

End branches.

Lemma clean_cache_page_perms f a va is_store p :
  clean_cache_page f a va is_store = Some p → is_store = false ∧ flags_contains (area_flags a) PTE_W = false.
Proof.
  unfold clean_cache_page. destruct (negb is_store && negb (flags_contains (area_flags a) PTE_W)) eqn:E; [|done].
  apply andb_true_iff in E as [E1%negb_true_iff E2%negb_true_iff]. done.
Qed.

(** The access is permitted by the bit of its own kind: execute, write or read. *)
Definition access_permitted (flags : Z) (is_store is_exec : bool) : bool :=
  Z.testbit flags (if is_exec then 3 else if is_store then 2 else 1).

Lemma fault_allowed_bits flags is_store is_exec :
  fault_allowed flags is_store is_exec = access_permitted flags is_store is_exec.
Proof.
  unfold fault_allowed, access_permitted. rewrite has_leaf_permission_bits. unfold PTE_R, PTE_W, PTE_X.
  destruct is_exec; [|destruct is_store]; rewrite flags_contains_bit by lia;
    destruct (Z.testbit flags 1), (Z.testbit flags 2), (Z.testbit flags 3); done.
Qed.

(** The result of a fault: refused, failed or handled. *)
Definition fault_result st st' ms ms' (T : list Z) (va : Z) (is_store is_exec : bool)
    (r : result unit SysErrNo) : Prop :=
  match vma_page (areas ms) va with
  | Some v =>
      if access_permitted (pv_flags v) is_store is_exec then
        match r with Ok _ => handled st st' ms ms' T (align_down va) v is_store | Err _ => ms' = ms end
      else r = Err EFAULT ∧ st' = st ∧ ms' = ms
  | None => r = Err EFAULT ∧ st' = st ∧ ms' = ms
  end.

Lemma resolve_frame_weaken st st' ms C X : resolve_frame st st' ms (C ++ X) → resolve_frame st st' ms X.
Proof.
  intros [Hs He]. split; [|done]. intros q Hq. apply Hs. rewrite !elem_of_app in *. tauto.
Qed.

Lemma handle_page_fault_ok st ms X va is_store is_exec :
  let T := file_cache (st_frames st) ++ X in
  ms_inv st ms T → user_va va → zlen (owned (areas ms) ++ T) < MAX_OWNERS →
  ∃ st' ms' r, handle_page_fault st ms va is_store is_exec = Ret (st', ms', r) ∧
    ms_inv st' ms' (file_cache (st_frames st') ++ X) ∧ resolve_frame st st' ms X ∧ fault_result st st' ms ms' T va is_store is_exec r.
Proof.
  intros T Hi Huv Hlen. pose proof Hi as [Hw Hu Hc Hf]. unfold handle_page_fault, fault_result.
  assert (Hquiet : resolve_frame st st ms X).
  { apply (resolve_frame_same _ _ _ _ []); [done|apply logged_refl|apply settled_nil]. }
  pose proof (area_index_containing_ok (areas ms) va Hw) as Hx.
  destruct (area_index_containing (areas ms) va) as [i|] eqn:Hidx.
  2:{ rewrite Hx. eexists _, _, _. split; [reflexivity|]. split; [done|]. by split. }
  destruct Hx as [Hlt Hin]. set (a := areas ms !!! i) in *.
  assert (Hai : areas ms !! i = Some a) by (by apply list_lookup_lookup_total_lt).
  pose proof (vmas_area_ok _ _ _ Hw Hai) as [Hwa Hba].
  set (pg := align_down va).
  assert (Hpg : user_page pg ∧ start_va a ≤ pg < end_va a).
  { pose proof Hwa as [? ? ? Has ? ? ?]. assert (start_va a ≤ pg < end_va a).
    { unfold pg, align_down, page_aligned, PAGE_SIZE in *. lia. }
    split; [|done]. split; [apply align_down_aligned|]. by apply (Forall_lookup_1 _ _ _ _ Hu Hai). }
  destruct Hpg as [Hpu Hpin].
  assert (Hidx' : area_index_containing (areas ms) pg = Some i).
  { apply area_index_containing_iff; eauto. }
  assert (Hview : vma_page (areas ms) va = Some (mkView (area_flags a) (split_right (area_backing a) (pg - start_va a))
    (rmap (area_resident a) !! ((pg - start_va a) / PAGE_SIZE)))).
  { by rewrite (vma_page_at (areas ms) i a), area_page_Some by done. }
  rewrite Hview. cbn [pv_flags]. set (v := mkView _ _ _) in *. rewrite <-fault_allowed_bits.
  destruct (fault_allowed (area_flags a) is_store is_exec) eqn:Eal; cbn [negb].
  2:{ eexists _, _, _. split; [reflexivity|]. split; [done|]. by split. }
  assert (Hleaf : has_leaf_permission (area_flags a) = true) by (by apply andb_true_iff in Eal as [? _]).
  destruct (is_store && flags_contains (area_flags a) PTE_COW) eqn:Ecow.
  { apply andb_true_iff in Ecow as [Est Ecow].
    destruct (resolve_cow_page_ok st ms T pg Hi Hpu Hlen) as (st'&ms'&r&He&Hi'&Hfr&Hr).
    rewrite He. apply resolve_cow_cache in He. eexists _, _, _. split; [reflexivity|]. split; [by rewrite He|]. split; [by eapply resolve_frame_weaken|].
    unfold resolve_result in Hr. destruct r as [n|e]; [|by destruct Hr].
    destruct Hr as (_&v'&bytes&Hv'&Hrv&Hby&Hres).
    assert (v' = v) as ->.
    { rewrite (vma_page_at (areas ms) i a), area_page_Some, align_down_id in Hv' by (done || apply Hpu).
      by injection Hv' as <-. }
    apply (FaultResolved _ _ _ _ _ _ _ _ bytes); [done..|]. destruct (pv_page v); [done|].
    destruct Hby as (st1&_&_&?). by exists st1. }
  unfold translate. destruct (pt_translate (page_table ms) pg) as [leaf|] eqn:Et; cbn [fmap option_fmap option_map].
  { eexists _, _, _. split; [reflexivity|]. split; [done|]. split; [done|].
    apply FaultMapped; [done|done|by rewrite Et]. }
  rewrite rs_lookup_rmap by apply Hwa.
  destruct (rmap (area_resident a) !! ((pg - start_va a) / PAGE_SIZE)) as [p|] eqn:Ep.
  { pose proof (map_area_page_frames st (page_table ms) a ((pg - start_va a) / PAGE_SIZE)) as He.
    pose proof (fault_resident_ok st ms pg i Hpu Hidx' Hleaf T p is_store Hi Ep Et) as Hres. fold a in Hres.
    destruct (map_area_page st (page_table ms) a _) as [st' pt']. destruct Hres as (Hi'&Hfr&Hh). simpl in He.
    eexists _, _, _. split; [reflexivity|]. split; [by rewrite He|]. split; [by eapply resolve_frame_weaken|by rewrite Ep in Hh]. }
  destruct (bool_decide (area_backing a = Anonymous) && _ && _) eqn:Ean.
  { apply andb_true_iff in Ean as [[Ean _]%andb_true_iff _]. apply bool_decide_eq_true_1 in Ean.
    destruct (fault_anonymous_ok st ms pg i Hpu Hidx' Hleaf T is_store Hi Ep Ean) as (st'&ms'&r&He&Hi'&Hfr&Hr).
    fold a in He. rewrite He. apply fault_anonymous_cache in He. eexists _, _, _. split; [reflexivity|]. split; [by rewrite He|].
    split; [by eapply resolve_frame_weaken|]. destruct r as [?|e]; [|by destruct Hr]. fold a in Hr. by rewrite Ep in Hr. }
  destruct (clean_cache_page (st_frames st) a pg is_store) as [[ino off]|] eqn:Ecl.
  - apply clean_cache_page_perms in Ecl as [Est EW].
    destruct (fault_clean_file_ok st ms pg i Hpu Hidx' Hleaf X ino off is_store Hi Ep Est EW) as (st'&ms'&r&He&Hi'&Hfr&Hr).
    fold a in He. rewrite He. eexists _, _, _. split; [reflexivity|]. split; [done|]. split; [done|].
    destruct r as [?|e]; [|done]. fold a in Hr. rewrite Ep in Hr. apply Hr.
  - destruct (fault_backing_ok st ms pg i Hpu Hidx' Hleaf T is_store Hi Ep) as (st'&ms'&r&He&Hi'&Hfr&Hr).
    fold a in He. rewrite He. apply fault_backing_cache in He. eexists _, _, _. split; [reflexivity|]. split; [by rewrite He|].
    split; [by eapply resolve_frame_weaken|]. destruct r as [?|e]; [|by destruct Hr]. fold a in Hr. by rewrite Ep in Hr.
Qed.


End fault.

(** ** Concrete faults *)

(** Sixteen lazy anonymous pages in an empty address space. *)
Definition demo_lazy_ms : MemorySet Sv39 :=
  match insert_lazy_area_with_backing demo_ms0 0x10000 0x20000 demo_perm Anonymous with
  | Ret (ms, _) => ms
  | Panic => demo_ms0
  end.

Lemma demo_lazy_inv : ms_inv demo_st0 demo_lazy_ms [].
Proof.
  destruct (push_empty demo_st0 demo_ms0 [] 0x10000 0x20000 demo_perm Anonymous 0x10000 0x20000 demo_inv0)
    as (l'&Hp&Hi'&_).
  - unfold request_ok. split; [reflexivity|]. split; [vm_compute; reflexivity|]. split; [lia|]. split; [lia|].
    split; [apply low_range_user; lia|]. split; [vm_compute; reflexivity|done].
  - assert (He : demo_lazy_ms = set_areas demo_ms0 l'); [|rewrite He; exact Hi'].
    unfold demo_lazy_ms, insert_lazy_area_with_backing.
    assert (Hup : align_up 0x20000 = Some 0x20000) by (vm_compute; reflexivity).
    assert (Hdn : align_down 0x10000 = 0x10000) by (vm_compute; reflexivity).
    rewrite Hup, Hdn, bool_decide_eq_false_2 by lia. by rewrite Hp.
Qed.

Definition demo_fault := handle_page_fault demo_st0 demo_lazy_ms 0x11008 true false.


(** The window of an anonymous fault may start below the faulting page.  When the frames
    run out while it is filled from its start, the fault succeeds although the faulting
    page itself has no frame and no translation. *)
Example fault_succeeds_unmapped :
  match handle_page_fault demo_st0 demo_lazy_ms 0x1f000 true false with
  | Ret (_, ms, Ok _) => bool_decide (pt_translate (page_table ms) 0x1f000 = None)
  | _ => false
  end = true.
Proof. vm_compute. reflexivity. Qed.
