(* ===== verification/MsBytes.v ===== *)
(** * The bytes of an address space

    [write_bytes] of src/os/src/mm/memory_set.rs stores page by page into the resident
    frames.  Its specification is bytewise: one store after the other, each at the frame
    and offset its address has.  [put_bytes] is that specification; it does not assume that
    different addresses have different frames. *)

From S2P Require Import Prelude BTree Frame Flags FileDesc ResidentSet MapArea VmaList MemorySet MsInv.
From S2P Require Import Buddy FrameAlloc Sv39 MsInsert Machine MsUnmap MsCow.

(** ** Stores into a memory of pages *)

(** A frame and an offset. *)
Abbreviation place := (Z * Z)%type.

(** The byte at a place is set. *)
Definition poke (m : Z → list Z) (c : place) (b : Z) : Z → list Z :=
  λ q, if bool_decide (q = c.1) then <[Z.to_nat c.2 := b]> (m q) else m q.

(** The bytes go to the places of consecutive addresses, in order. *)
Fixpoint put_bytes (cell : Z → option place) (m : Z → list Z) (va : Z) (src : list Z) : Z → list Z :=
  match src with
  | [] => m
  | b :: src => put_bytes cell (match cell va with Some c => poke m c b | None => m end) (va + 1) src
  end.

(** The byte an address reads. *)
Definition get_byte (cell : Z → option place) (m : Z → list Z) (va : Z) : option Z :=
  c ← cell va; m c.1 !! Z.to_nat c.2.

Lemma put_bytes_ext cell m m' va src : (∀ q, m q = m' q) → ∀ q, put_bytes cell m va src q = put_bytes cell m' va src q.
Proof.
  revert m m' va. induction src as [|b src IH]; intros m m' va Hm q; simpl; [done|]. apply IH.
  intros q'. destruct (cell va) as [c|]; [|done]. unfold poke. by rewrite Hm.
Qed.

Lemma put_bytes_cells cell cell' m va src :
  (∀ x, va ≤ x < va + zlen src → cell x = cell' x) → ∀ q, put_bytes cell m va src q = put_bytes cell' m va src q.
Proof.
  revert m va. induction src as [|b src IH]; intros m va Hc q; simpl; [done|].
  rewrite zlen_cons in Hc. pose proof (zlen_nonneg src). rewrite (Hc va) by lia. apply IH. intros x Hx. apply Hc. lia.
Qed.

Lemma put_bytes_app cell m va s1 s2 :
  put_bytes cell m va (s1 ++ s2) = put_bytes cell (put_bytes cell m va s1) (va + zlen s1) s2.
Proof.
  revert m va. induction s1 as [|b s1 IH]; intros m va; simpl; [by rewrite Z.add_0_r|].
  rewrite IH, zlen_cons. f_equal. lia.
Qed.

Lemma splice_step {A} (page : list A) o b bs :
  (o < length page)%nat →
  take (S o) (<[o := b]> page) ++ bs ++ drop (S o + length bs) (<[o := b]> page) =
  take o page ++ (b :: bs) ++ drop (o + S (length bs)) page.
Proof.
  intros Ho. rewrite drop_insert_lt by lia. rewrite (take_S_r _ o b) by (by apply list_lookup_insert_eq).
  rewrite take_insert_ge by lia. rewrite <-!app_assoc. simpl. by rewrite Nat.add_succ_r.
Qed.

(** A run inside one page. *)
Lemma put_bytes_page cell m va src f off :
  (∀ i, 0 ≤ i < zlen src → cell (va + i) = Some (f, off + i)) → 0 ≤ off → off + zlen src ≤ zlen (m f) →
  ∀ q, put_bytes cell m va src q =
    if bool_decide (q = f) then take (Z.to_nat off) (m f) ++ src ++ drop (Z.to_nat off + length src) (m f) else m q.
Proof.
  revert m va off. induction src as [|b src IH]; intros m va off Hc Hoff Hlen q.
  { simpl. case_bool_decide as Hq; [|done]. by rewrite Nat.add_0_r, take_drop, Hq. }
  rewrite zlen_cons in Hc, Hlen. pose proof (zlen_nonneg src). cbn [put_bytes].
  pose proof (Hc 0) as Hc0. rewrite !Z.add_0_r in Hc0. rewrite Hc0 by lia.
  set (m1 := poke m (f, off) b).
  assert (Hm1 : m1 f = <[Z.to_nat off := b]> (m f)) by (unfold m1, poke; simpl; by rewrite bool_decide_eq_true_2).
  rewrite (IH m1 (va + 1) (off + 1)); [|intros i Hi; rewrite <-Z.add_assoc, Hc by lia; do 2 f_equal; lia|lia|].
  2:{ rewrite Hm1. unfold zlen in *. rewrite length_insert. lia. }
  case_bool_decide as Hq.
  - rewrite Hm1. replace (Z.to_nat (off + 1)) with (S (Z.to_nat off)) by lia. apply splice_step. unfold zlen in *. lia.
  - unfold m1, poke. simpl. by rewrite bool_decide_eq_false_2.
Qed.

Lemma put_bytes_len cell m va src q : length (put_bytes cell m va src q) = length (m q).
Proof.
  revert m va. induction src as [|b src IH]; intros m va; simpl; [done|]. rewrite IH.
  destruct (cell va) as [c|]; [|done]. unfold poke. case_bool_decide; [|done]. by rewrite length_insert.
Qed.

(** A place no address of the run has keeps its byte. *)
Lemma put_bytes_other cell m va src f o :
  0 ≤ o → (∀ x c, va ≤ x < va + zlen src → cell x = Some c → 0 ≤ c.2 ∧ c ≠ (f, o)) →
  put_bytes cell m va src f !! Z.to_nat o = m f !! Z.to_nat o.
Proof.
  intros Ho. revert m va. induction src as [|b src IH]; intros m va Hc; simpl; [done|].
  rewrite zlen_cons in Hc. pose proof (zlen_nonneg src). rewrite IH by (intros x c Hx; apply Hc; lia).
  destruct (cell va) as [[f' o']|] eqn:E; [|done]. destruct (Hc va _ ltac:(lia) E) as [Hn Hne]. simpl in Hn.
  unfold poke. simpl. case_bool_decide as Hf; [|done]. subst f'. rewrite list_lookup_insert_ne; [done|].
  intros He. apply Hne. f_equal. lia.
Qed.

(** A frame no address of the run has keeps its bytes. *)
Lemma put_bytes_frame cell m va src f :
  (∀ x c, va ≤ x < va + zlen src → cell x = Some c → c.1 ≠ f) → put_bytes cell m va src f = m f.
Proof.
  revert m va. induction src as [|b src IH]; intros m va Hc; simpl; [done|].
  rewrite zlen_cons in Hc. pose proof (zlen_nonneg src). rewrite IH by (intros x c Hx; apply Hc; lia).
  destruct (cell va) as [c|] eqn:E; [|done]. pose proof (Hc va c ltac:(lia) E).
  unfold poke. by rewrite bool_decide_eq_false_2.
Qed.

(** Places are offsets into whole pages. *)
Definition cells_ok (cell : Z → option place) (m : Z → list Z) : Prop :=
  ∀ x c, cell x = Some c → 0 ≤ c.2 < zlen (m c.1).

(** With different places, what was stored reads back and the rest reads as before. *)
Lemma put_get cell m va src :
  cells_ok cell m →
  (∀ x y c, va ≤ x < va + zlen src → cell x = Some c → cell y = Some c → x = y) →
  (∀ x, va ≤ x < va + zlen src → is_Some (cell x)) →
  ∀ x, get_byte cell (put_bytes cell m va src) x =
    if bool_decide (va ≤ x < va + zlen src) then src !! Z.to_nat (x - va) else get_byte cell m x.
Proof.
  intros Hok. revert m va Hok. induction src as [|b src IH]; intros m va Hok Hinj Hin x.
  { rewrite bool_decide_eq_false_2; [done|]. rewrite zlen_nil. lia. }
  rewrite zlen_cons in Hinj, Hin. pose proof (zlen_nonneg src). cbn [put_bytes].
  destruct (Hin va) as [c Hc]; [lia|]. rewrite Hc.
  assert (Hok' : cells_ok cell (poke m c b)).
  { intros y d Hd. pose proof (Hok y d Hd). unfold poke. case_bool_decide; [|done].
    unfold zlen in *. by rewrite length_insert. }
  rewrite IH; [|done|intros y z d Hy; apply Hinj; lia|intros y Hy; apply Hin; lia]. rewrite zlen_cons.
  destruct (decide (x = va)) as [->|Hne].
  - rewrite (bool_decide_eq_false_2 (va + 1 ≤ va < _)), (bool_decide_eq_true_2 (va ≤ va < _)) by lia.
    unfold get_byte. rewrite Hc, Z.sub_diag. cbn [mbind option_bind lookup]. unfold poke.
    rewrite bool_decide_eq_true_2 by done. rewrite list_lookup_insert_eq; [done|]. pose proof (Hok va c Hc).
    unfold zlen in *. lia.
  - destruct (decide (va + 1 ≤ x < va + 1 + zlen src)) as [Hx|Hx].
    + rewrite !bool_decide_eq_true_2 by lia.
      replace (Z.to_nat (x - va)) with (S (Z.to_nat (x - (va + 1)))) by lia. done.
    + rewrite !bool_decide_eq_false_2 by lia. unfold get_byte. destruct (cell x) as [d|] eqn:Hd; [|done].
      cbn [mbind option_bind]. unfold poke. case_bool_decide as Hf; [|done].
      rewrite list_lookup_insert_ne; [done|]. intros He. pose proof (Hok x d Hd). pose proof (Hok va c Hc).
      apply Hne. symmetry. apply (Hinj va x c); [lia|done|]. rewrite Hd. f_equal.
      destruct c, d. simpl in *. f_equal; [done|lia].
Qed.

(** ** The resident frames of an address space *)

(** The resident page of an address and its place. *)
Definition page_at (l : list MapArea) (va : Z) : option ResidentPage := vma_page l va ≫= pv_page.
Definition cell (l : list MapArea) (va : Z) : option place :=
  (λ p, (frame_no (rp_frame p), va mod PAGE_SIZE)) <$> page_at l va.

(** Same permissions, backings and frames; a page may have become [FileDirty]. *)
Definition view_retagged (v w : page_view) : Prop :=
  pv_flags v = pv_flags w ∧ pv_backing v = pv_backing w ∧
  (pv_page w = pv_page v ∨ ∃ p, pv_page v = Some p ∧ pv_page w = Some (mkPage (rp_frame p) FileDirty)).
Definition retagged (l l' : list MapArea) : Prop := ∀ va, option_Forall2 view_retagged (vma_page l va) (vma_page l' va).

#[export] Instance retagged_preorder : PreOrder retagged.
Proof.
  split.
  - intros l va. destruct (vma_page l va); constructor. split_and!; [done|done|by left].
  - intros l1 l2 l3 H12 H23 va. specialize (H12 va). specialize (H23 va).
    destruct H12 as [v w (Ef&Eb&Ep)|]; [|done].
    inversion H23 as [v' w' (Ef'&Eb'&Ep') E|]; subst. constructor.
    split_and!; [congruence|congruence|].
    destruct Ep as [Ep|(p&Ep&Ep1)], Ep' as [Ep'|(q&Eq&Eq')]; [left|right|right|right].
    + congruence.
    + exists q. split; [congruence|done].
    + exists p. split; [done|congruence].
    + exists p. split; [done|]. rewrite Ep1 in Eq. injection Eq as <-. done.
Qed.

Lemma retagged_cell l l' va : retagged l l' → cell l' va = cell l va.
Proof.
  intros H. unfold cell, page_at. destruct (H va) as [v w (_&_&Ep)|]; [|done]. simpl.
  destruct Ep as [->|(p&->&->)]; done.
Qed.

Section bytes.
Context {PT F : Type} `{HPT : PageTableOps PT, !PageTableLaws PT,
                        HF : FrameService F, !FrameServiceLaws F}.
Implicit Types (st : St F) (ms : MemorySet PT) (l : list MapArea) (T : list Z).

Lemma cell_ok st ms T : ms_inv st ms T → cells_ok (cell (areas ms)) (svc_page (st_frames st)).
Proof.
  intros Hi va c. unfold cell. intros (p&Hp&->)%fmap_Some. simpl.
  rewrite (svc_page_len _ _ _ (inv_frames _ _ _ Hi)). unfold PAGE_SIZE. lia.
Qed.

(** A store through [svc_store] puts the bytes of a run inside one page. *)
Lemma store_put st T va src t off (c : Z → option place) :
  svc_inv (st_frames st) T → 0 ≤ off → off + zlen src ≤ PAGE_SIZE →
  (∀ i, 0 ≤ i < zlen src → c (va + i) = Some (frame_no t, off + i)) →
  svc_inv (st_frames (store_frame st t off src)) T ∧
  ∀ q, svc_page (st_frames (store_frame st t off src)) q = put_bytes c (svc_page (st_frames st)) va src q.
Proof.
  intros Hi Hoff Hlen Hc. destruct (svc_store_ok _ T (frame_no t) off src Hi Hoff Hlen) as (Hi'&Hs&Ho).
  split; [done|]. intros q.
  rewrite (put_bytes_page c _ va src (frame_no t) off Hc Hoff); [|by rewrite (svc_page_len _ _ _ Hi)].
  unfold store_frame. cbn [st_frames set_frames]. destruct (decide (q = frame_no t)) as [->|Hq].
  - rewrite bool_decide_eq_true_2 by done. exact Hs.
  - rewrite bool_decide_eq_false_2 by done. by apply Ho.
Qed.

(** Marking a resident page dirty. *)
Lemma mark_dirty_ok st ms T i a va p :
  ms_inv st ms T → areas ms !! i = Some a → start_va a ≤ va < end_va a → page_aligned va →
  rmap (area_resident a) !! ((va - start_va a) / PAGE_SIZE) = Some p →
  let ms' := set_area ms i (area_set_resident_state a ((va - start_va a) / PAGE_SIZE) FileDirty).1 in
  ms_inv st ms' T ∧ retagged (areas ms) (areas ms') ∧ owned (areas ms') ≡ₚ owned (areas ms) ∧
  ∀ va', align_down va' ≠ va → vma_page (areas ms') va' = vma_page (areas ms) va'.
Proof.
  intros Hi Hai Hin Hal Hp. pose proof Hi as [Hw Hu Hc Hf].
  pose proof (vmas_area_ok _ _ _ Hw Hai) as [Hwa Hba]. unfold area_set_resident_state.
  pose proof (rs_update_ok (area_resident a) ((va - start_va a) / PAGE_SIZE) (resident_page_set_state FileDirty)
    (wf_resident _ Hwa)) as Hupd.
  rewrite Hp in Hupd. destruct Hupd as (rs'&->&Hwr&Hm). cbn [fst].
  destruct (put_page_ok (areas ms) i a va rs' _ Hw Hai Hal Hin Hwr Hm) as (Ha1&Hw1&Hv1).
  set (a1 := area_set_resident a rs') in *.
  destruct (update_area_ok (areas ms) i a a1 Hw Hai Ha1 eq_refl eq_refl) as (_&_&rest&Ho1&Ho2).
  destruct (area_frames_replace a a1 _ p _ Hwa (proj1 Ha1) Hp Hm) as (fr&Hfr1&Hfr2).
  assert (Hret : retagged (areas ms) (<[i := a1]> (areas ms))).
  { intros va'. rewrite Hv1. case_bool_decide as Heq.
    - assert (Hr : start_va a ≤ va' < end_va a).
      { destruct Hwa. unfold align_down, page_aligned, PAGE_SIZE in *. lia. }
      rewrite (vma_page_at (areas ms) i a), area_page_Some by done. rewrite Heq, Hp. constructor.
      split_and!; [done|done|]. right. by exists p.
    - destruct (vma_page (areas ms) va'); constructor. split_and!; [done|done|by left]. }
  assert (Hown : owned (<[i := a1]> (areas ms)) ≡ₚ owned (areas ms)).
  { rewrite Ho1, Ho2, !owned_cons, Hfr1, Hfr2. done. }
  split; [|split; [exact Hret|split; [exact Hown|]]; intros va' Hne; by rewrite Hv1, bool_decide_eq_false_2]. split; simpl.
  - done.
  - by apply (update_area_user _ i a).
  - intros va' leaf Hu' Ht. destruct (Hc va' leaf Hu' Ht) as (v&pg&Hv&Hpg&Ea&El&Epm).
    specialize (Hret va'). rewrite Hv in Hret. inversion Hret as [v1 w (Ef&Eb&Ep) Ev Ew|]; subst.
    destruct Ep as [Ep|(p'&Ep&Ep')].
    + exists w, pg. rewrite <-Ef, Ep. done.
    + rewrite Hpg in Ep. injection Ep as <-. exists w, (mkPage (rp_frame pg) FileDirty). rewrite <-Ef.
      split_and!; [done|done|done|done|]. destruct Epm as (?&E2&?&?). split_and!; [done| |done|done].
      intros HW. split; [by apply E2|done].
  - eapply svc_inv_perm; [|exact Hf]. by rewrite Hown.
Qed.

(** The page of an address, as the search finds it. *)
Lemma page_found ms va p :
  vmas_wf (areas ms) → page_at (areas ms) va = Some p →
  ∃ i a, area_index_containing (areas ms) va = Some i ∧ areas ms !! i = Some a ∧ areas ms !!! i = a ∧ area_ok a ∧
    start_va a ≤ va < end_va a ∧ start_va a ≤ align_down va ∧
    rmap (area_resident a) !! ((align_down va - start_va a) / PAGE_SIZE) = Some p.
Proof.
  intros Hw Hp. unfold page_at in Hp. destruct (vma_page (areas ms) va) as [v|] eqn:Ev; [|done].
  destruct (proj1 (vma_page_is_Some (areas ms) va)) as (i&a&Hi&Hin); [by eexists|].
  pose proof (vmas_area_ok _ _ _ Hw Hi) as Ha.
  rewrite (vma_page_at (areas ms) i a), area_page_Some in Ev by done. injection Ev as <-. simpl in Hp.
  exists i, a. split_and!; [apply area_index_containing_iff; eauto|done|by apply list_lookup_total_correct|done..|lia|lia| |done].
  destruct Ha as [[]]. unfold align_down, page_aligned, PAGE_SIZE in *. lia.
Qed.

(** A page has one view. *)
Lemma vma_page_down l va : vmas_wf l → vma_page l (align_down va) = vma_page l va.
Proof.
  intros Hw. destruct (vma_page l va) as [v|] eqn:Ev.
  - destruct (proj1 (vma_page_is_Some l va)) as (i&a&Hi&Hin); [by eexists|].
    pose proof (vmas_area_ok _ _ _ Hw Hi) as [[]].
    assert (start_va a ≤ align_down va < end_va a) by (unfold align_down, page_aligned, PAGE_SIZE in *; lia).
    rewrite (vma_page_at l i a), area_page_Some in Ev by done. injection Ev as <-.
    rewrite (vma_page_at l i a), area_page_Some, (align_down_id (align_down va)) by auto with kernel. done.
  - destruct (vma_page l (align_down va)) as [w|] eqn:Ew; [|done]. exfalso.
    destruct (proj1 (vma_page_is_Some l (align_down va))) as (i&a&Hi&Hin); [by eexists|].
    pose proof (vmas_area_ok _ _ _ Hw Hi) as [[]].
    assert (is_Some (vma_page l va)) as [? ?]; [|congruence]. apply vma_page_is_Some. exists i, a.
    split; [done|]. unfold align_down, page_aligned, PAGE_SIZE in *. lia.
Qed.

Lemma page_at_down l va : vmas_wf l → page_at l (align_down va) = page_at l va.
Proof. intros Hw. unfold page_at. by rewrite vma_page_down. Qed.

(** Two pages with one frame count it twice. *)
Lemma shared_owners l x y p p' :
  vmas_wf l → page_at l x = Some p → page_at l y = Some p' → align_down x ≠ align_down y →
  frame_no (rp_frame p) = frame_no (rp_frame p') → 2 ≤ owners (frame_no (rp_frame p)) (owned l).
Proof.
  intros Hw Hx Hy Hne Heq. unfold owned.
  rewrite vma_frames_map by (apply Hw || by apply vmas_wf_disjoint).
  assert (Hmx : vma_map l !! align_down x = Some p).
  { rewrite vma_map_lookup, decide_True by (apply align_down_aligned || apply Hw || by apply vmas_wf_disjoint).
    by rewrite <-page_at_down in Hx. }
  assert (Hmy : delete (align_down x) (vma_map l) !! align_down y = Some p').
  { rewrite lookup_delete_ne by done.
    rewrite vma_map_lookup, decide_True by (apply align_down_aligned || apply Hw || by apply vmas_wf_disjoint).
    by rewrite <-page_at_down in Hy. }
  unfold map_frames. rewrite <-(insert_delete_id _ _ _ Hmx), map_to_list_insert by apply lookup_delete_eq.
  rewrite <-(insert_delete_id _ _ _ Hmy), map_to_list_insert by apply lookup_delete_eq.
  cbn [fmap list_fmap fst snd]. unfold owners. rewrite !filter_cons, decide_True, decide_True, !zlen_cons by done.
  match goal with |- context [zlen ?k] => pose proof (zlen_nonneg k) end. lia.
Qed.

Lemma align_down_split va i :
  0 ≤ i → va mod PAGE_SIZE + i < PAGE_SIZE →
  align_down (va + i) = align_down va ∧ (va + i) mod PAGE_SIZE = va mod PAGE_SIZE + i.
Proof. unfold align_down, PAGE_SIZE. intros. split; lia. Qed.

(** Consecutive addresses of a page have consecutive places. *)
Lemma cell_run l va p i :
  vmas_wf l → page_at l va = Some p → 0 ≤ i → va mod PAGE_SIZE + i < PAGE_SIZE →
  cell l (va + i) = Some (frame_no (rp_frame p), va mod PAGE_SIZE + i).
Proof.
  intros Hw Hp Hi Hlt. destruct (align_down_split va i Hi Hlt) as [E1 E2]. unfold cell.
  rewrite <-(page_at_down l (va + i)), E1, page_at_down, Hp by done. simpl. by rewrite E2.
Qed.

Lemma page_at_user st ms T va p : ms_inv st ms T → page_at (areas ms) va = Some p → user_va va.
Proof.
  intros Hi Hp. apply (areas_view_user _ (inv_user _ _ _ Hi)). unfold page_at in Hp.
  destruct (vma_page (areas ms) va); [by eexists|done].
Qed.

(** The state after a write: the pages written may be dirty, everything but the bytes is
    the same. *)
Record written st st' ms ms' (T : list Z) (va : Z) (src : list Z) : Prop := {
  wr_inv : ms_inv st' ms' T;
  wr_retagged : retagged (areas ms) (areas ms');
  wr_other : ∀ x, (∀ y, va ≤ y < va + zlen src → align_down y ≠ align_down x) →
    vma_page (areas ms') x = vma_page (areas ms) x;
  wr_owned : owned (areas ms') ≡ₚ owned (areas ms);
  wr_table : page_table ms' = page_table ms;
  wr_asid : address_space_id ms' = address_space_id ms;
  wr_bytes : ∀ q, svc_page (st_frames st') q = put_bytes (cell (areas ms)) (svc_page (st_frames st)) va src q;
  wr_log : st_current_root st' = st_current_root st ∧ st_log st' = st_log st
}.

Lemma written_trans st st1 st' ms ms1 ms' T va s1 s2 :
  written st st1 ms ms1 T va s1 → written st1 st' ms1 ms' T (va + zlen s1) s2 →
  written st st' ms ms' T va (s1 ++ s2).
Proof.
  intros [I1 R1 O1 W1 T1 A1 B1 [L1 L1']] [I2 R2 O2 W2 T2 A2 B2 [L2 L2']].
  split; [done|by etransitivity| |by etransitivity|congruence|congruence| |].
  - intros x Hx. rewrite zlen_app in Hx. pose proof (zlen_nonneg s1). pose proof (zlen_nonneg s2).
    rewrite O2, O1; [done|..]; intros y Hy; apply Hx; lia.
  - intros q. rewrite B2, put_bytes_app. erewrite put_bytes_cells; [|intros x _; by apply retagged_cell].
    by apply put_bytes_ext.
  - split; congruence.
Qed.

Lemma write_bytes_loop_ok fuel st ms T dst copied src :
  ms_inv st ms T → 0 ≤ dst → 0 ≤ copied →
  (0 < zlen src → zlen src + (dst + copied) mod PAGE_SIZE ≤ Z.of_nat fuel * PAGE_SIZE) →
  (∀ va, dst + copied ≤ va < dst + copied + zlen src → is_Some (page_at (areas ms) va)) →
  ∃ st' ms', write_bytes_loop fuel st ms dst copied src = (st', ms', Ok tt) ∧
    written st st' ms ms' T (dst + copied) src.
Proof.
  revert st ms copied src. induction fuel as [|fuel IH]; intros st ms copied src Hi Hd Hc Hfuel Hres;
    cbn [write_bytes_loop]; destruct src as [|b0 src0] eqn:Esrc.
  1,3: eexists _, _; split; [done|]; by split.
  { exfalso. rewrite zlen_cons in Hfuel. pose proof (zlen_nonneg src0). unfold PAGE_SIZE in *. lia. }
  rewrite <-Esrc in *. assert (Hpos : 0 < zlen src).
  { rewrite Esrc, zlen_cons. pose proof (zlen_nonneg src0). lia. }
  clear Esrc b0 src0. specialize (Hfuel Hpos). rewrite bool_decide_eq_true_2 by done.
  set (addr := dst + copied) in *. destruct (Hres addr) as [p Hp]; [lia|].
  pose proof (page_at_user _ _ _ _ _ Hi Hp) as Hua.
  assert (checked_add dst copied = Some addr) as ->.
  { apply checked_add_Some. unfold user_va, VA_LIMIT, USIZE_MAX, addr in *. lia. }
  destruct (page_found ms addr p (inv_vmas _ _ _ Hi) Hp) as (i&a&->&Hai&Hat&[Hwa Hba]&Hin&Hlo&Hpr).
  rewrite Hat, rs_lookup_rmap, Hpr by apply Hwa.
  set (n := Z.min (zlen src) (PAGE_SIZE - addr mod PAGE_SIZE)).
  set (now := take (Z.to_nat n) src). set (rest := drop (Z.to_nat n) src).
  assert (Hn : 0 < n ≤ zlen src ∧ addr mod PAGE_SIZE + n ≤ PAGE_SIZE) by (unfold n, PAGE_SIZE; lia).
  assert (Hnow : zlen now = n) by (unfold now, zlen in *; rewrite length_take; lia).
  assert (Hrest : zlen rest = zlen src - n) by (unfold rest, zlen in *; rewrite length_drop; lia).
  destruct (store_put st (owned (areas ms) ++ T) addr now (rp_frame p) (addr mod PAGE_SIZE) (cell (areas ms)))
    as (Hi1&Hb1); [apply Hi|unfold PAGE_SIZE; lia|lia| |].
  { intros j Hj. apply cell_run; [apply Hi|done|lia|lia]. }
  set (st1 := store_frame st (rp_frame p) (addr mod PAGE_SIZE) now) in *.
  set (ms1 := match area_backing a with FileBacked _ _ true => _ | _ => ms end).
  assert (Hw1 : written st st1 ms ms1 T addr now).
  { assert (Hq : ms_inv st1 ms T) by (destruct Hi; by split).
    assert (Hdirty := mark_dirty_ok st1 ms T i a (align_down addr) p Hq Hai). unfold ms1.
    destruct (area_backing a) as [| |fd off [|]|]; try (by split).
    destruct Hdirty as (Hi2&Hr2&How2&Ho2); [|apply align_down_aligned|done|].
    { split; [done|]. unfold align_down, PAGE_SIZE in *. lia. }
    split; [done|done| |done..]. intros x Hx. apply Ho2. intros E. apply (Hx addr); [lia|done]. }
  destruct (IH st1 ms1 (copied + n) rest) as (st'&ms'&->&Hw2).
  - apply Hw1.
  - done.
  - lia.
  - rewrite Hrest. intros Hr. replace (dst + (copied + n)) with (addr + n) by (unfold addr; lia).
    assert ((addr + n) mod PAGE_SIZE = 0) as ->.
    { assert (n = PAGE_SIZE - addr mod PAGE_SIZE) as -> by (unfold n in *; lia). unfold PAGE_SIZE. lia. }
    rewrite Nat2Z.inj_succ in Hfuel. unfold n, PAGE_SIZE in *. lia.
  - intros va Hva. rewrite Hrest in Hva. specialize (Hres va ltac:(unfold addr; lia)).
    assert (Hce : is_Some (cell (areas ms1) va)).
    { rewrite (retagged_cell _ _ va (wr_retagged _ _ _ _ _ _ _ Hw1)). unfold cell. by apply fmap_is_Some. }
    unfold cell in Hce. by apply fmap_is_Some in Hce.
  - eexists _, _. split; [reflexivity|]. rewrite <-(take_drop (Z.to_nat n) src). fold now rest.
    apply (written_trans _ st1 _ _ ms1); [done|]. rewrite Hnow.
    by replace (addr + n) with (dst + (copied + n)) by (unfold addr; lia).
Qed.

Lemma page_steps_enough n addr : 0 < n → n + addr mod PAGE_SIZE ≤ Z.of_nat (page_steps n) * PAGE_SIZE.
Proof. unfold page_steps, PAGE_SIZE. lia. Qed.

(** [write_bytes] into resident pages. *)
Lemma write_bytes_ok st ms T dst src :
  ms_inv st ms T → 0 ≤ dst → (∀ va, dst ≤ va < dst + zlen src → is_Some (page_at (areas ms) va)) →
  ∃ st' ms', write_bytes st ms dst src = (st', ms', Ok tt) ∧ written st st' ms ms' T dst src.
Proof.
  intros Hi Hd Hres. destruct (write_bytes_loop_ok (page_steps (zlen src)) st ms T dst 0 src) as (st'&ms'&He&Hw);
    [done|done|done|by apply page_steps_enough|by rewrite Z.add_0_r|].
  rewrite Z.add_0_r in Hw. by exists st', ms'.
Qed.

End bytes.
