(* ===== verification/UserCopy.v ===== *)
(** * Kernel access to user memory (src/os/src/syscall/user.rs)

    The kernel first makes every page of a range readable or writable and then copies
    through the translations, page by page.  The theorems say which bytes a copy moves,
    what a failed copy has moved, and what of the address space it keeps. *)

From S2P Require Import Prelude BTree Frame Flags FileDesc ResidentSet MapArea VmaList MemorySet MsInv.
From S2P Require Import Buddy FrameAlloc Sv39 MsInsert Machine MsUnmap MsCow MsFork MsCache MsFault MsBytes.

(** ** UTF-8 *)

Definition between (a b x : Z) : bool := bool_decide (a ≤ x) && bool_decide (x ≤ b).

(** [str::from_utf8]: the well-formed byte sequences. *)
Fixpoint utf8_fuel (n : nat) (s : list Z) : bool :=
  match n with
  | O => match s with [] => true | _ => false end
  | S n =>
      match s with
      | [] => true
      | a :: s1 =>
          if between 0 0x7f a then utf8_fuel n s1
          else
            match s1 with
            | [] => false
            | b :: s2 =>
                if between 0xc2 0xdf a then between 0x80 0xbf b && utf8_fuel n s2
                else
                  match s2 with
                  | [] => false
                  | c :: s3 =>
                      if between 0xe0 0xef a then
                        between (if bool_decide (a = 0xe0) then 0xa0 else 0x80)
                                (if bool_decide (a = 0xed) then 0x9f else 0xbf) b &&
                        between 0x80 0xbf c && utf8_fuel n s3
                      else
                        match s3 with
                        | [] => false
                        | d :: s4 =>
                            between 0xf0 0xf4 a &&
                            between (if bool_decide (a = 0xf0) then 0x90 else 0x80)
                                    (if bool_decide (a = 0xf4) then 0x8f else 0xbf) b &&
                            between 0x80 0xbf c && between 0x80 0xbf d && utf8_fuel n s4
                        end
                  end
            end
      end
  end.
Definition from_utf8 (s : list Z) : bool := utf8_fuel (length s) s.

Example utf8_samples :
  (from_utf8 [0x68; 0x69], from_utf8 [0xe4; 0xbd; 0xa0], from_utf8 [0xc0; 0x80], from_utf8 [0xed; 0xa0; 0x80])
  = (true, true, false, false).
Proof. reflexivity. Qed.

Definition MAX_CSTR_LEN : Z := 4096.

Section user.
Context {PT F : Type} `{HPT : PageTableOps PT, HF : FrameService F, HL : FileLayer F}.
Implicit Types (st : St F) (ms : MemorySet PT).

(** ** Physical memory: the kernel maps it one to one *)

Definition read_phys st (pa n : Z) : list Z :=
  take (Z.to_nat n) (drop (Z.to_nat (pa mod PAGE_SIZE)) (svc_page (st_frames st) (pa / PAGE_SIZE))).
Definition write_phys st (pa : Z) (bytes : list Z) : St F :=
  set_frames st (svc_store (st_frames st) (pa / PAGE_SIZE) (pa mod PAGE_SIZE) bytes).

(** ** Copies *)

(** The loop of [copy_to_user_in_memory_set] over the bytes not yet copied. *)
Fixpoint copy_to_loop (fuel : nat) st ms (dst copied : Z) (src : list Z) : St F * result unit SysErrNo :=
  match fuel with
  | O => (st, Ok tt)
  | S fuel =>
      if bool_decide (0 < zlen src) then
        match checked_add dst copied with
        | None => (st, Err EFAULT)
        | Some va =>
            match translate ms va with
            | None => (st, Err EFAULT)
            | Some pa =>
                let page_left := PAGE_SIZE - va mod PAGE_SIZE in
                let n := Z.min page_left (zlen src) in
                copy_to_loop fuel (write_phys st pa (take (Z.to_nat n) src)) ms dst (copied + n)
                  (drop (Z.to_nat n) src)
            end
        end
      else (st, Ok tt)
  end.

Definition copy_to_user_in_memory_set st ms (dst : Z) (src : list Z)
    : outcome (St F * MemorySet PT * result unit SysErrNo) :=
  if bool_decide (dst = 0) && negb (bool_decide (src = [])) then Ret (st, ms, Err EFAULT)
  else
    '(sm, r) ←! prepare_write st ms dst (zlen src);
    match r with
    | Err e => Ret (sm, Err e)
    | Ok _ => let '(st, r) := copy_to_loop (page_steps (zlen src)) sm.1 sm.2 dst 0 src in Ret (st, sm.2, r)
    end.

(** The loop of [copy_from_user_in_memory_set]: the bytes copied into the buffer. *)
Fixpoint copy_from_loop (fuel : nat) st ms (src copied len : Z) : list Z * result unit SysErrNo :=
  match fuel with
  | O => ([], Ok tt)
  | S fuel =>
      if bool_decide (copied < len) then
        match checked_add src copied with
        | None => ([], Err EFAULT)
        | Some va =>
            match translate ms va with
            | None => ([], Err EFAULT)
            | Some pa =>
                let page_left := PAGE_SIZE - va mod PAGE_SIZE in
                let n := Z.min page_left (len - copied) in
                let '(rest, r) := copy_from_loop fuel st ms src (copied + n) len in
                (read_phys st pa n ++ rest, r)
            end
        end
      else ([], Ok tt)
  end.

Definition copy_from_user_in_memory_set st ms (src len : Z)
    : outcome (St F * MemorySet PT * result (list Z) SysErrNo) :=
  if bool_decide (src = 0) && negb (bool_decide (len = 0)) then Ret (st, ms, Err EFAULT)
  else
    '(sm, r) ←! prepare_read st ms src len;
    match r with
    | Err e => Ret (sm, Err e)
    | Ok _ =>
        let '(bytes, r) := copy_from_loop (page_steps len) sm.1 sm.2 src 0 len in
        Ret (sm, match r with Ok _ => Ok bytes | Err e => Err e end)
    end.

(** The loop of [clear_user]. *)
Fixpoint clear_loop (fuel : nat) st ms (dst copied len : Z) : St F * result unit SysErrNo :=
  match fuel with
  | O => (st, Ok tt)
  | S fuel =>
      if bool_decide (copied < len) then
        match checked_add dst copied with
        | None => (st, Err EFAULT)
        | Some va =>
            match translate ms va with
            | None => (st, Err EFAULT)
            | Some pa =>
                let page_left := PAGE_SIZE - va mod PAGE_SIZE in
                let n := Z.min page_left (len - copied) in
                clear_loop fuel (write_phys st pa (replicate (Z.to_nat n) 0)) ms dst (copied + n) len
            end
        end
      else (st, Ok tt)
  end.

(** The address space of the current task, if there is one. *)
Abbreviation Current := (option (MemorySet PT)).

Definition clear_user st (current : Current) (dst len : Z) : outcome (St F * Current * result unit SysErrNo) :=
  if bool_decide (dst = 0) && negb (bool_decide (len = 0)) then Ret (st, current, Err EFAULT)
  else
    match current with
    | None => Ret (st, None, Err ESRCH)
    | Some ms =>
        '(sm, r) ←! prepare_write st ms dst len;
        match r with
        | Err e => Ret (sm.1, Some sm.2, Err e)
        | Ok _ => let '(st, r) := clear_loop (page_steps len) sm.1 sm.2 dst 0 len in Ret (st, Some sm.2, r)
        end
    end.

Definition copy_to_user st (current : Current) (dst : Z) (src : list Z)
    : outcome (St F * Current * result unit SysErrNo) :=
  if bool_decide (dst = 0) && negb (bool_decide (src = [])) then Ret (st, current, Err EFAULT)
  else
    match current with
    | None => Ret (st, None, Err ESRCH)
    | Some ms => '(sm, r) ←! copy_to_user_in_memory_set st ms dst src; Ret (sm.1, Some sm.2, r)
    end.

Definition copy_from_user st (current : Current) (src len : Z)
    : outcome (St F * Current * result (list Z) SysErrNo) :=
  if bool_decide (src = 0) && negb (bool_decide (len = 0)) then Ret (st, current, Err EFAULT)
  else
    match current with
    | None => Ret (st, None, Err ESRCH)
    | Some ms => '(sm, r) ←! copy_from_user_in_memory_set st ms src len; Ret (sm.1, Some sm.2, r)
    end.

Definition check_user_readable st (current : Current) (src len : Z)
    : outcome (St F * Current * result unit SysErrNo) :=
  if bool_decide (src = 0) && negb (bool_decide (len = 0)) then Ret (st, current, Err EFAULT)
  else
    match current with
    | None => Ret (st, None, Err ESRCH)
    | Some ms => '(sm, r) ←! prepare_read st ms src len; Ret (sm.1, Some sm.2, r)
    end.

Definition read_usize st (current : Current) (addr : Z) : outcome (St F * Current * result Z SysErrNo) :=
  '(sc, r) ←! copy_from_user st current addr 8;
  Ret (sc, match r with Ok bytes => Ok (of_le_bytes bytes) | Err e => Err e end).

Definition write_i32 st (current : Current) (addr value : Z) : outcome (St F * Current * result unit SysErrNo) :=
  copy_to_user st current addr (le_bytes 4 (value mod 2 ^ 32)).

(** ** Strings *)

(** The scan of one page: the bytes before the first zero, and whether there is one. *)
Fixpoint scan_zero (src : list Z) : list Z * bool :=
  match src with
  | [] => ([], false)
  | b :: src => if bool_decide (b = 0) then ([], true) else let '(bs, z) := scan_zero src in (b :: bs, z)
  end.

(** The loop of [read_cstr_inner]; [bytes] are those already read. *)
Fixpoint cstr_loop (fuel : nat) st ms (addr offset : Z) (bytes : list Z) (unterminated : SysErrNo)
    : outcome (St F * MemorySet PT * result (list Z) SysErrNo) :=
  match fuel with
  | O => Ret (st, ms, Err unterminated)
  | S fuel =>
      if bool_decide (offset < MAX_CSTR_LEN) then
        match checked_add addr offset with
        | None => Ret (st, ms, Err EFAULT)
        | Some va =>
            let page_left := PAGE_SIZE - va mod PAGE_SIZE in
            let span := Z.min page_left (MAX_CSTR_LEN - offset) in
            '(sm, r) ←! prepare_read st ms va span;
            match r with
            | Err e => Ret (sm, Err e)
            | Ok _ =>
                match translate sm.2 va with
                | None => Ret (sm, Err EFAULT)
                | Some pa =>
                    let '(bs, z) := scan_zero (read_phys sm.1 pa span) in
                    if z then
                      Ret (sm, if from_utf8 (bytes ++ bs) then Ok (bytes ++ bs) else Err EINVAL)
                    else cstr_loop fuel sm.1 sm.2 addr (offset + span) (bytes ++ bs) unterminated
                end
            end
        end
      else Ret (st, ms, Err unterminated)
  end.

(** Two pages hold 4096 bytes, so three iterations end the loop. *)
Definition read_cstr_inner st (current : Current) (addr : Z) (null_as_empty : bool) (unterminated_err : SysErrNo)
    : outcome (St F * Current * result (list Z) SysErrNo) :=
  if bool_decide (addr = 0) then Ret (st, current, if null_as_empty then Ok [] else Err EFAULT)
  else
    match current with
    | None => Ret (st, None, Err ESRCH)
    | Some ms => '(sm, r) ←! cstr_loop 3 st ms addr 0 [] unterminated_err; Ret (sm.1, Some sm.2, r)
    end.

Definition read_cstr st (current : Current) (addr : Z) := read_cstr_inner st current addr false EFAULT.
Definition read_path_cstr st (current : Current) (addr : Z) :=
  if bool_decide (addr = 0) then Ret (st, current, Err EFAULT)
  else read_cstr_inner st current addr false ENAMETOOLONG.
Definition read_cstr_null_empty st (current : Current) (addr : Z) := read_cstr_inner st current addr true EINVAL.

End user.

(** ** Making a range accessible *)

Section prepare.
Context {PT F : Type} `{HPT : PageTableOps PT, !PageTableLaws PT,
                        HF : FrameService F, !FrameServiceLaws F, HL : FileLayer F, !FileLayerLaws F}.
Implicit Types (st : St F) (ms : MemorySet PT) (X T : list Z).

(** Same permissions and backing. *)
Definition view_kept (v w : page_view) : Prop := pv_flags v = pv_flags w ∧ pv_backing v = pv_backing w.

Lemma view_kept_refl o : option_Forall2 view_kept o o.
Proof. destruct o; constructor. done. Qed.

(** Pages were made accessible: permissions and backings are the same, every byte that
    could be read still reads the same, what was mapped is mapped, and no frame outside
    of the address space changed. *)
Record prepared st st' ms ms' X : Prop := {
  pr_inv : ms_inv st' ms' (file_cache (st_frames st') ++ X);
  pr_views : ∀ va, option_Forall2 view_kept (vma_page (areas ms) va) (vma_page (areas ms') va);
  pr_bytes : ∀ va b, get_byte (cell (areas ms)) (svc_page (st_frames st)) va = Some b →
                     get_byte (cell (areas ms')) (svc_page (st_frames st')) va = Some b;
  pr_mapped : ∀ va, user_page va → is_Some (pt_translate (page_table ms) va) → is_Some (pt_translate (page_table ms') va);
  pr_others : ∀ q, q ∈ X → svc_page (st_frames st') q = svc_page (st_frames st) q;
  pr_events : ∃ evs, logged st st' evs ∧ settled evs
}.

Lemma prepared_refl st ms X : ms_inv st ms (file_cache (st_frames st) ++ X) → prepared st st ms ms X.
Proof. intros Hi. split; [done|intros va; apply view_kept_refl|done..|]. exists []. split; [apply logged_refl|apply settled_nil]. Qed.

Lemma prepared_trans st st1 st2 ms ms1 ms2 X :
  prepared st st1 ms ms1 X → prepared st1 st2 ms1 ms2 X → prepared st st2 ms ms2 X.
Proof.
  intros [I1 V1 B1 M1 O1 (e1&L1&S1)] [I2 V2 B2 M2 O2 (e2&L2&S2)]. split; [done| | | | |].
  - intros va. specialize (V1 va). specialize (V2 va). destruct V1 as [v w [E1 E2]|]; [|done].
    inversion V2 as [v' u [E3 E4] Ev Eu|]; subst. constructor. split; congruence.
  - intros va b Hb. by apply B2, B1.
  - intros va Hu Hm. by apply M2, M1.
  - intros q Hq. by rewrite O2, O1.
  - exists (e1 ++ e2). split; [by eapply logged_trans|by apply settled_app].
Qed.

(** The byte of an address and the resident page of its page. *)
Lemma get_byte_page l (m : Z → list Z) va p :
  vmas_wf l → page_at l (align_down va) = Some p → get_byte (cell l) m va = m (frame_no (rp_frame p)) !! Z.to_nat (va mod PAGE_SIZE).
Proof. intros Hw Hp. rewrite page_at_down in Hp by done. unfold get_byte, cell. by rewrite Hp. Qed.

Lemma get_byte_none l (m : Z → list Z) va b :
  get_byte (cell l) m va = Some b → is_Some (page_at l va).
Proof. unfold get_byte, cell. destruct (page_at l va); [by eexists|done]. Qed.

(** The frames of an address space keep their bytes. *)
Lemma get_byte_kept st st' ms ms' X va b :
  ms_inv st ms (file_cache (st_frames st) ++ X) → resolve_frame st st' ms X →
  page_at (areas ms') va = page_at (areas ms) va →
  get_byte (cell (areas ms)) (svc_page (st_frames st)) va = Some b →
  get_byte (cell (areas ms')) (svc_page (st_frames st')) va = Some b.
Proof.
  intros Hi [Hs _] Hp Hb. pose proof Hb as Hb'. unfold get_byte, cell in *. rewrite Hp.
  destruct (page_at (areas ms) va) as [p|] eqn:E; [|done]. simpl in *. rewrite Hs; [done|].
  rewrite elem_of_app. left. destruct (page_found ms va p (inv_vmas _ _ _ Hi) E) as (i&a&_&Hai&_&_&_&_&Hr).
  eapply resident_owned; [apply Hi|done|done].
Qed.

Lemma frame_others st st' ms X :
  resolve_frame st st' ms X → ∀ q, q ∈ X → svc_page (st_frames st') q = svc_page (st_frames st) q.
Proof. intros [Hs _] q Hq. apply Hs. rewrite elem_of_app. by right. Qed.

Lemma page_kept st st' ms ms' X va b :
  ms_inv st ms (file_cache (st_frames st) ++ X) → resolve_frame st st' ms X →
  vma_page (areas ms') va = vma_page (areas ms) va →
  get_byte (cell (areas ms)) (svc_page (st_frames st)) va = Some b →
  get_byte (cell (areas ms')) (svc_page (st_frames st')) va = Some b.
Proof. intros Hi Hr Hv. eapply get_byte_kept; [done|done|]. unfold page_at. by rewrite Hv. Qed.

Lemma resolved_prepared st st' ms ms' X T va v bytes :
  ms_inv st ms (file_cache (st_frames st) ++ X) → ms_inv st' ms' (file_cache (st_frames st') ++ X) →
  resolve_frame st st' ms X → vma_page (areas ms) va = Some v → page_aligned va →
  resolved st st' ms ms' T va bytes →
  (∀ p, pv_page v = Some p → bytes = svc_page (st_frames st) (frame_no (rp_frame p))) →
  prepared st st' ms ms' X.
Proof.
  intros Hi Hi' Hf Hv Hal (v'&t&Hv'&Hview&_&Hb&Ht) Hbytes. rewrite Hv in Hv'. injection Hv' as <-.
  pose proof (inv_vmas _ _ _ Hi) as Hw. pose proof (inv_vmas _ _ _ Hi') as Hw'.
  split; [done| | | |by apply (frame_others _ _ _ _ Hf)|apply Hf].
  - intros va'. rewrite Hview. case_bool_decide as E; [|apply view_kept_refl].
    by rewrite <-vma_page_down, E, Hv by done; constructor.
  - intros va' b Hg. specialize (Hview va'). case_bool_decide as E; [|by apply (page_kept st _ ms _ X)].
    pose proof (get_byte_none _ _ _ _ Hg) as [p Hp]. rewrite <-page_at_down, E in Hp by done.
    unfold page_at in Hp. rewrite Hv in Hp. simpl in Hp.
    rewrite (get_byte_page _ _ va' p) in Hg; [|done|]. 2:{ unfold page_at. by rewrite E, Hv. }
    rewrite (get_byte_page _ _ va' (mkPage t Private)); [|done|].
    + simpl. by rewrite Hb, (Hbytes p Hp).
    + rewrite page_at_down by done. unfold page_at. by rewrite Hview.
  - intros va' Hu [x Hx]. rewrite Ht by done. case_bool_decide; by eexists.
Qed.

Lemma installed_prepared st st' ms ms' X a ws frames s :
  ms_inv st ms (file_cache (st_frames st) ++ X) → ms_inv st' ms' (file_cache (st_frames st') ++ X) →
  resolve_frame st st' ms X → installed ms ms' a ws frames s → prepared st st' ms ms' X.
Proof.
  intros Hi Hi' Hf (Hv&Ht&Hn). split; [done| | | |by apply (frame_others _ _ _ _ Hf)|apply Hf].
  - intros va. rewrite Hv. destruct (run_page a ws frames s va) as [p|] eqn:Er; [|apply view_kept_refl].
    by rewrite (Hn va p Er); constructor.
  - intros va b Hg. specialize (Hv va). destruct (run_page a ws frames s va) as [p|] eqn:Er; [|by apply (page_kept st _ ms _ X)].
    apply get_byte_none in Hg as [q Hq]. unfold page_at in Hq. by rewrite (Hn va p Er) in Hq.
  - intros va Hu [x Hx]. rewrite Ht by done. destruct (run_page a ws frames s va) as [p|] eqn:Er; [|by eexists].
    destruct (inv_coherent _ _ _ Hi va x Hu Hx) as (v&pg&Hvv&Hpg&_). rewrite (Hn va p Er) in Hvv. injection Hvv as <-. done.
Qed.

Lemma same_prepared st st' ms X :
  ms_inv st ms (file_cache (st_frames st) ++ X) → ms_inv st' ms (file_cache (st_frames st') ++ X) →
  resolve_frame st st' ms X → prepared st st' ms ms X.
Proof.
  intros Hi Hi' Hf. split; [done|intros va; apply view_kept_refl| |done|by apply (frame_others _ _ _ _ Hf)|apply Hf].
  intros va b. by apply (page_kept st _ ms _ X).
Qed.

Lemma handled_prepared st st' ms ms' X T va v is_store :
  ms_inv st ms (file_cache (st_frames st) ++ X) → ms_inv st' ms' (file_cache (st_frames st') ++ X) →
  resolve_frame st st' ms X → vma_page (areas ms) va = Some v → page_aligned va →
  handled st st' ms ms' T va v is_store → prepared st st' ms ms' X.
Proof.
  intros Hi Hi' Hf Hv Hal [bytes _ _ Hr Hb| -> -> _ |p Hp Ha Hn Ht|a ws frames _ _ Hin _ _ _ _
    |a ws t bytes st1 _ Hin _ _ _ _|a ws frames _ _ _ Hin _ _].
  - eapply resolved_prepared; [done..|]. intros p Hp. by rewrite Hp in Hb.
  - by apply prepared_refl.
  - split; [done| | | |by apply (frame_others _ _ _ _ Hf)|apply Hf].
    + intros va'. rewrite Ha. apply view_kept_refl.
    + intros va' b. apply (page_kept st _ ms _ X); [done|done|by rewrite Ha].
    + intros va' Hu [x Hx]. rewrite Ht by done. case_bool_decide as E; [|by eexists]. subst va'. congruence.
  - by eapply installed_prepared.
  - by eapply installed_prepared.
  - by eapply installed_prepared.
Qed.

Lemma owners_small st ms X :
  ms_inv st ms (file_cache (st_frames st) ++ X) → zlen X ≤ 2 ^ 31 →
  zlen (owned (areas ms) ++ file_cache (st_frames st) ++ X) < MAX_OWNERS.
Proof.
  intros Hi HX. rewrite !zlen_app. pose proof (vma_frames_bound _ (inv_vmas _ _ _ Hi) (inv_user _ _ _ Hi)) as Hb.
  pose proof (inv_frames _ _ _ Hi) as Hf. rewrite app_assoc, (Permutation_app_comm (owned _)), <-app_assoc in Hf.
  apply file_cache_bound in Hf. unfold owned. rewrite zlen_fmap. unfold FILE_CACHE_MAX, MAX_OWNERS in *. lia.
Qed.

(** What [ensure] guarantees of a page. *)
Definition ensures (ensure : St F → MemorySet PT → Z → outcome (St F * MemorySet PT * result unit SysErrNo)) (bit : Z) : Prop :=
  ∀ st ms X va, ms_inv st ms (file_cache (st_frames st) ++ X) → zlen X ≤ 2 ^ 31 → page_aligned va →
  ∃ st' ms' r, ensure st ms va = Ret (st', ms', r) ∧ prepared st st' ms ms' X ∧
    match r with
    | Ok _ => ∃ v, vma_page (areas ms) va = Some v ∧ flags_contains (pv_flags v) bit = true
    | Err e => ∀ v, vma_page (areas ms) va = Some v → flags_contains (pv_flags v) bit = false → e = EFAULT
    end.

Lemma fault_prepared st ms X va is_store :
  ms_inv st ms (file_cache (st_frames st) ++ X) → zlen X ≤ 2 ^ 31 → user_page va →
  ∃ st' ms' r, handle_page_fault st ms va is_store false = Ret (st', ms', r) ∧ prepared st st' ms ms' X.
Proof.
  intros Hi HX [Hal Hu]. destruct (handle_page_fault_ok st ms X va is_store false Hi Hu (owners_small st ms X Hi HX))
    as (st'&ms'&r&He&Hi'&Hfr&Hr).
  exists st', ms', r. split; [done|]. unfold fault_result in Hr. rewrite align_down_id in Hr by done.
  destruct (vma_page (areas ms) va) as [v|] eqn:Ev.
  2:{ destruct Hr as (_&->&->). by apply prepared_refl. }
  destruct (access_permitted _ _ _).
  2:{ destruct Hr as (_&->&->). by apply prepared_refl. }
  destruct r as [[]|e]; [by eapply handled_prepared|]. subst ms'. by apply same_prepared.
Qed.

Lemma ensure_fault st ms X va is_store :
  ms_inv st ms (file_cache (st_frames st) ++ X) → zlen X ≤ 2 ^ 31 → user_page va →
  ∃ st' ms' r, match translate ms va with
               | None => handle_page_fault st ms va is_store false
               | Some _ => Ret (st, ms, Ok tt)
               end = Ret (st', ms', r) ∧ prepared st st' ms ms' X.
Proof.
  intros Hi HX Hu. destruct (translate ms va); [|by apply fault_prepared].
  exists st, ms, (Ok tt). split; [done|by apply prepared_refl].
Qed.

Lemma resolve_prepared st ms X va :
  ms_inv st ms (file_cache (st_frames st) ++ X) → zlen X ≤ 2 ^ 31 → user_page va →
  ∃ st' ms' r, resolve_cow_page st ms va = Ret (st', ms', r) ∧ prepared st st' ms ms' X.
Proof.
  intros Hi HX Hu. destruct (resolve_cow_page_ok st ms _ va Hi Hu (owners_small st ms X Hi HX)) as (st'&ms'&r&He&Hi'&Hfr&Hr).
  exists st', ms', r. split; [done|]. apply resolve_cow_cache in He. rewrite <-He in Hi'.
  apply resolve_frame_weaken in Hfr. unfold resolve_result in Hr. destruct r as [n|e].
  - destruct Hr as (_&v&bytes&Hv&_&Hb&Hres). eapply resolved_prepared; [done..|apply Hu|done|].
    intros p Hp. by rewrite Hp in Hb.
  - destruct Hr as [-> _]. by apply same_prepared.
Qed.

(** The area the search finds for an aligned address. *)
Lemma area_search st ms T va i :
  ms_inv st ms T → page_aligned va → area_index_containing (areas ms) va = Some i →
  user_page va ∧ ∃ v, vma_page (areas ms) va = Some v ∧ pv_flags v = area_flags (areas ms !!! i).
Proof.
  intros Hi Hal Hidx. destruct (area_found ms va i (inv_vmas _ _ _ Hi) Hal Hidx) as (Hai&_&Hin&Hv).
  split; [|by eexists]. split; [done|]. by apply (Forall_lookup_1 _ _ _ _ (inv_user _ _ _ Hi) Hai).
Qed.

Lemma ensure_writable_ok : ensures ensure_page_writable PTE_W.
Proof.
  intros st ms X va Hi HX Hal. unfold ensure_page_writable.
  destruct (area_index_containing (areas ms) va) as [i|] eqn:Hidx.
  2:{ eexists _, _, _. split; [reflexivity|]. split; [by apply prepared_refl|done]. }
  destruct (area_search _ _ _ _ _ Hi Hal Hidx) as (Hu&v&Hv&Hfl). rewrite <-Hfl.
  destruct (flags_contains (pv_flags v) PTE_W) eqn:EW; cbn [negb orb].
  2:{ rewrite orb_true_r. eexists _, _, _. split; [reflexivity|]. split; [by apply prepared_refl|done]. }
  assert (Hleaf : has_leaf_permission (pv_flags v) = true).
  { eapply contains_has_leaf; [|exact EW]. rewrite !elem_of_cons. auto. }
  rewrite Hleaf. cbn [negb orb]. destruct (flags_contains (pv_flags v) PTE_COW).
  - destruct (resolve_prepared st ms X va Hi HX Hu) as (st'&ms'&r&->&Hp). eexists _, _, _. split; [reflexivity|].
    split; [done|]. destruct r; [by exists v|]. intros w Hw. congruence.
  - destruct (ensure_fault st ms X va true Hi HX Hu) as (st'&ms'&r&->&Hp). eexists _, _, _. split; [reflexivity|].
    split; [done|]. destruct r; [by exists v|]. intros w Hw. congruence.
Qed.

Lemma ensure_readable_ok : ensures ensure_page_readable PTE_R.
Proof.
  intros st ms X va Hi HX Hal. unfold ensure_page_readable.
  destruct (area_index_containing (areas ms) va) as [i|] eqn:Hidx.
  2:{ eexists _, _, _. split; [reflexivity|]. split; [by apply prepared_refl|done]. }
  destruct (area_search _ _ _ _ _ Hi Hal Hidx) as (Hu&v&Hv&Hfl). rewrite <-Hfl.
  destruct (flags_contains (pv_flags v) PTE_R) eqn:ER; cbn [negb orb].
  2:{ rewrite orb_true_r. eexists _, _, _. split; [reflexivity|]. split; [by apply prepared_refl|done]. }
  assert (Hleaf : has_leaf_permission (pv_flags v) = true).
  { eapply contains_has_leaf; [|exact ER]. rewrite !elem_of_cons. auto. }
  rewrite Hleaf. cbn [negb orb].
  destruct (ensure_fault st ms X va false Hi HX Hu) as (st'&ms'&r&->&Hp). eexists _, _, _. split; [reflexivity|].
  split; [done|]. destruct r; [by exists v|]. intros w Hw. congruence.
Qed.

(** The pages of a range all have a permission. *)
Definition permits (l : list MapArea) (bit start len : Z) : Prop :=
  ∀ va, start ≤ va < start + len → ∃ v, vma_page l va = Some v ∧ flags_contains (pv_flags v) bit = true.

Lemma permits_kept st st' ms ms' X bit start len :
  prepared st st' ms ms' X → permits (areas ms') bit start len → permits (areas ms) bit start len.
Proof.
  intros Hp Hper va Hva. destruct (Hper va Hva) as (w&Hw&Hb). pose proof (pr_views _ _ _ _ _ Hp va) as Hv.
  rewrite Hw in Hv. inversion Hv as [v w' [E _] Ev|]; subst. exists v. by rewrite E.
Qed.

Lemma prepare_loop_ok ensure bit fuel st ms X base checked len :
  ensures ensure bit → ms_inv st ms (file_cache (st_frames st) ++ X) → zlen X ≤ 2 ^ 31 → 0 ≤ base → 0 ≤ checked →
  (checked < len → len - checked + (base + checked) mod PAGE_SIZE ≤ Z.of_nat fuel * PAGE_SIZE) →
  ∃ st' ms' r, prepare_loop ensure fuel st ms base checked len = Ret (st', ms', r) ∧ prepared st st' ms ms' X ∧
    (r = Ok tt → permits (areas ms) bit (base + checked) (len - checked)).
Proof.
  intros Hen. revert st ms checked. induction fuel as [|fuel IH]; intros st ms checked Hi HX Hb Hc Hfuel; cbn [prepare_loop].
  { eexists _, _, _. split; [reflexivity|]. split; [by apply prepared_refl|]. intros _ va Hva. exfalso. unfold PAGE_SIZE in *. lia. }
  case_bool_decide as Hlt.
  2:{ eexists _, _, _. split; [reflexivity|]. split; [by apply prepared_refl|]. intros _ va Hva. lia. }
  specialize (Hfuel Hlt). unfold checked_add. case_bool_decide as Hov.
  2:{ eexists _, _, _. split; [reflexivity|]. split; [by apply prepared_refl|done]. }
  set (addr := base + checked) in *. cbv zeta.
  destruct (Hen st ms X (align_down addr) Hi HX (align_down_aligned _)) as (st1&ms1&r1&->&Hp1&Hr1).
  destruct r1 as [u|e]; [|by eexists _, _, _].
  set (n := Z.min (PAGE_SIZE - addr mod PAGE_SIZE) (len - checked)).
  assert (Hn : 0 < n) by (unfold n, PAGE_SIZE; lia).
  destruct (IH st1 ms1 (checked + n)) as (st'&ms'&r&->&Hp2&Hr2); [apply Hp1|done|done|lia| |].
  { intros Hlt'. replace (base + (checked + n)) with (addr + n) by (unfold addr; lia).
    assert (n = PAGE_SIZE - addr mod PAGE_SIZE) as -> by (unfold n in *; lia).
    rewrite Nat2Z.inj_succ in Hfuel. unfold PAGE_SIZE in *. lia. }
  eexists _, _, _. split; [reflexivity|]. split; [by eapply prepared_trans|]. intros Hok va Hva.
  destruct (decide (va < addr + n)) as [Hin|Hout].
  - destruct Hr1 as (v&Hv&Hbit). exists v. split; [|done]. rewrite <-vma_page_down by apply Hi.
    replace (align_down va) with (align_down addr); [done|]. unfold n, align_down, PAGE_SIZE in *. lia.
  - apply (permits_kept _ _ _ _ _ _ _ _ Hp1 (Hr2 Hok)). unfold addr in *. lia.
Qed.

Lemma prepare_write_ok st ms X dst len :
  ms_inv st ms (file_cache (st_frames st) ++ X) → zlen X ≤ 2 ^ 31 → 0 ≤ dst →
  ∃ st' ms' r, prepare_write st ms dst len = Ret (st', ms', r) ∧ prepared st st' ms ms' X ∧
    (r = Ok tt → permits (areas ms) PTE_W dst len).
Proof.
  intros Hi HX Hd. destruct (prepare_loop_ok _ _ (page_steps len) st ms X dst 0 len ensure_writable_ok Hi HX Hd)
    as (st'&ms'&r&He&Hp&Hr); [done|intros ?; rewrite Z.add_0_r, Z.sub_0_r; by apply page_steps_enough|].
  rewrite Z.add_0_r, Z.sub_0_r in Hr. by exists st', ms', r.
Qed.

Lemma prepare_read_ok st ms X src len :
  ms_inv st ms (file_cache (st_frames st) ++ X) → zlen X ≤ 2 ^ 31 → 0 ≤ src →
  ∃ st' ms' r, prepare_read st ms src len = Ret (st', ms', r) ∧ prepared st st' ms ms' X ∧
    (r = Ok tt → permits (areas ms) PTE_R src len).
Proof.
  intros Hi HX Hd. destruct (prepare_loop_ok _ _ (page_steps len) st ms X src 0 len ensure_readable_ok Hi HX Hd)
    as (st'&ms'&r&He&Hp&Hr); [done|intros ?; rewrite Z.add_0_r, Z.sub_0_r; by apply page_steps_enough|].
  rewrite Z.add_0_r, Z.sub_0_r in Hr. by exists st', ms', r.
Qed.

(** ** Copying through the translations *)

Lemma page_pa_split p off :
  good_page p → 0 ≤ off < PAGE_SIZE →
  wrap (page_pa p + off) / PAGE_SIZE = frame_no (rp_frame p) ∧ wrap (page_pa p + off) mod PAGE_SIZE = off.
Proof.
  unfold good_page, page_pa, ppn_addr, frame_no. intros Hg Ho.
  rewrite (wrap_small (_ * _)) by (unfold is_usize, USIZE_MAX, PAGE_SIZE; lia).
  rewrite wrap_small by (unfold is_usize, USIZE_MAX, PAGE_SIZE in *; lia). unfold PAGE_SIZE in *. lia.
Qed.

(** A translation leads to the resident page. *)
Lemma translate_page st ms T va pa :
  ms_inv st ms T → user_va va → translate ms va = Some pa →
  ∃ p, page_at (areas ms) va = Some p ∧ pa / PAGE_SIZE = frame_no (rp_frame p) ∧ pa mod PAGE_SIZE = va mod PAGE_SIZE.
Proof.
  intros Hi Hu. unfold translate. rewrite pt_translate_offset by done.
  destruct (pt_translate (page_table ms) (align_down va)) as [leaf|] eqn:Hl; [|done]. intros [= <-].
  assert (Hpage : user_page (align_down va)).
  { split; [apply align_down_aligned|]. unfold user_va, align_down, PAGE_SIZE in *. lia. }
  destruct (inv_coherent _ _ _ Hi _ _ Hpage Hl) as (v&p&Hv&Hp&Hpa&_).
  assert (Hat : page_at (areas ms) va = Some p).
  { rewrite <-page_at_down by apply Hi. unfold page_at. by rewrite Hv. }
  exists p. split; [done|]. rewrite Hpa. apply page_pa_split; [|unfold PAGE_SIZE; lia].
  destruct (page_found ms va p (inv_vmas _ _ _ Hi) Hat) as (i&a&_&Hai&_&_&_&_&Hr). by apply (inv_area_good _ _ _ _ _ Hi Hai) in Hr.
Qed.

Lemma permits_user st ms T bit start len :
  ms_inv st ms T → permits (areas ms) bit start len → ∀ va, start ≤ va < start + len → user_va va.
Proof.
  intros Hi Hp va Hva. destruct (Hp va Hva) as (v&Hv&_). apply (areas_view_user _ (inv_user _ _ _ Hi)). by eexists.
Qed.

(** What a copy into user memory did: the first [k] bytes are stored. *)
Definition stored st st' ms (T : list Z) (dst : Z) (src : list Z) (r : result unit SysErrNo) : Prop :=
  ms_inv st' ms T ∧ file_cache (st_frames st') = file_cache (st_frames st) ∧ logged st st' [] ∧
  ∃ k, 0 ≤ k ≤ zlen src ∧
    (∀ q, svc_page (st_frames st') q =
       put_bytes (cell (areas ms)) (svc_page (st_frames st)) dst (take (Z.to_nat k) src) q) ∧
    (∀ va, dst ≤ va < dst + k → is_Some (page_at (areas ms) va)) ∧
    match r with Ok _ => k = zlen src | Err e => e = EFAULT ∧ translate ms (dst + k) = None end.

Lemma copy_to_loop_ok fuel st ms T dst copied src :
  ms_inv st ms T → 0 ≤ dst → 0 ≤ copied →
  (0 < zlen src → zlen src + (dst + copied) mod PAGE_SIZE ≤ Z.of_nat fuel * PAGE_SIZE) →
  (∀ va, dst + copied ≤ va < dst + copied + zlen src → user_va va) →
  ∃ st' r, copy_to_loop fuel st ms dst copied src = (st', r) ∧ stored st st' ms T (dst + copied) src r.
Proof.
  revert st copied src. induction fuel as [|fuel IH]; intros st copied src Hi Hd Hc Hfuel Hus; cbn [copy_to_loop];
    pose proof (zlen_nonneg src) as Hnn; destruct (decide (0 < zlen src)) as [Hpos|Hz].
  { specialize (Hfuel Hpos). exfalso. unfold PAGE_SIZE in *. lia. }
  1,3: rewrite ?bool_decide_eq_false_2 by done; eexists _, _; split; [reflexivity|]; split; [done|]; split; [done|];
    split; [apply logged_refl|]; exists 0; split; [lia|]; split; [done|]; split; [lia|lia].
  specialize (Hfuel Hpos). rewrite bool_decide_eq_true_2 by done. set (addr := dst + copied) in *.
  pose proof (Hus addr ltac:(lia)) as Hua.
  assert (checked_add dst copied = Some addr) as ->.
  { apply checked_add_Some. unfold user_va, VA_LIMIT, USIZE_MAX, addr in *. lia. }
  destruct (translate ms addr) as [pa|] eqn:Et.
  2:{ eexists _, _; split; [reflexivity|]; split; [done|]; split; [done|]; split; [apply logged_refl|].
      exists 0. split; [lia|]. split; [done|]. split; [lia|]. split; [done|]. by rewrite Z.add_0_r. }
  destruct (translate_page _ _ _ _ _ Hi Hua Et) as (p&Hp&Hpf&Hpo). unfold write_phys. rewrite Hpf, Hpo.
  set (n := Z.min (PAGE_SIZE - addr mod PAGE_SIZE) (zlen src)).
  set (now := take (Z.to_nat n) src). set (rest := drop (Z.to_nat n) src).
  assert (Hn : 0 < n ≤ zlen src ∧ addr mod PAGE_SIZE + n ≤ PAGE_SIZE) by (unfold n, PAGE_SIZE; lia).
  assert (Hnow : zlen now = n) by (unfold now, zlen in *; rewrite length_take; lia).
  assert (Hrest : zlen rest = zlen src - n) by (unfold rest, zlen in *; rewrite length_drop; lia).
  destruct (store_put st (owned (areas ms) ++ T) addr now (rp_frame p) (addr mod PAGE_SIZE) (cell (areas ms)))
    as (Hi1&Hb1); [apply Hi|unfold PAGE_SIZE; lia|lia| |].
  { intros j Hj. apply cell_run; [apply Hi|done|lia|lia]. }
  change (set_frames st _) with (store_frame st (rp_frame p) (addr mod PAGE_SIZE) now).
  pose proof (store_frame_cache st (rp_frame p) (addr mod PAGE_SIZE) now) as Hcc.
  assert (Hlg : logged st (store_frame st (rp_frame p) (addr mod PAGE_SIZE) now) []) by (split; [done|by rewrite app_nil_r]).
  set (st1 := store_frame st _ _ now) in *. clearbody st1.
  destruct (IH st1 (copied + n) rest) as (st'&r&->&(Hi'&Hc'&Hl'&k&Hk&Hb'&Hpg&Hr)).
  - destruct Hi. by split.
  - done.
  - lia.
  - rewrite Hrest. intros Hr. replace (dst + (copied + n)) with (addr + n) by (unfold addr; lia).
    assert (n = PAGE_SIZE - addr mod PAGE_SIZE) as -> by (unfold n in *; lia).
    rewrite Nat2Z.inj_succ in Hfuel. unfold PAGE_SIZE in *. lia.
  - intros va Hva. apply Hus. rewrite Hrest in Hva. unfold addr. lia.
  - replace (dst + (copied + n)) with (addr + n) in * by (unfold addr; lia).
    eexists _, _; split; [reflexivity|]; split; [done|]; split; [by rewrite Hc'|]; split; [exact (logged_trans _ _ _ [] [] Hlg Hl')|].
    exists (n + k). rewrite Hrest in Hk. split; [lia|]. split; [|split].
    + intros q. rewrite Hb'. assert (take (Z.to_nat (n + k)) src = now ++ take (Z.to_nat k) rest) as ->.
      { unfold now, rest. rewrite take_take_drop. f_equal. lia. }
      rewrite put_bytes_app, Hnow. by apply put_bytes_ext.
    + intros va Hva. destruct (decide (va < addr + n)); [|apply Hpg; lia].
      exists p. rewrite <-page_at_down by apply Hi.
      replace (align_down va) with (align_down addr); [by rewrite page_at_down by apply Hi|].
      unfold align_down, PAGE_SIZE in *. lia.
    + rewrite Z.add_assoc. destruct r; [lia|done].
Qed.

(** The result of a copy into user memory: the range was prepared, then the bytes that
    come back as stored went to the places of their addresses. *)
Definition copied_in st st' ms ms' X (dst : Z) (src : list Z) (r : result unit SysErrNo) : Prop :=
  ∃ st1, prepared st st1 ms ms' X ∧
    let T := file_cache (st_frames st1) ++ X in
    match r with
    | Ok _ => permits (areas ms) PTE_W dst (zlen src) ∧ stored st1 st' ms' T dst src r
    | Err e => st' = st1 ∨ permits (areas ms) PTE_W dst (zlen src) ∧ stored st1 st' ms' T dst src r
    end.

Lemma stored_done st ms T dst src :
  ms_inv st ms T → permits (areas ms) PTE_W dst (zlen src) → 0 ≤ dst →
  ∃ st' r, copy_to_loop (page_steps (zlen src)) st ms dst 0 src = (st', r) ∧ stored st st' ms T dst src r.
Proof.
  intros Hi Hp Hd. pose proof (copy_to_loop_ok (page_steps (zlen src)) st ms T dst 0 src) as Hl.
  rewrite Z.add_0_r in Hl. apply Hl; [done|done|done|by apply page_steps_enough|by eapply permits_user].
Qed.

Lemma permits_after st st' ms ms' X bit start len :
  prepared st st' ms ms' X → permits (areas ms) bit start len → permits (areas ms') bit start len.
Proof.
  intros Hp Hper va Hva. destruct (Hper va Hva) as (w&Hw&Hb). pose proof (pr_views _ _ _ _ _ Hp va) as Hv.
  rewrite Hw in Hv. inversion Hv as [v w' [E _] Ev|]; subst. eexists. split; [done|]. by rewrite <-E.
Qed.

Lemma copy_to_user_ok st ms X dst src :
  ms_inv st ms (file_cache (st_frames st) ++ X) → zlen X ≤ 2 ^ 31 → 0 ≤ dst →
  ∃ st' ms' r, copy_to_user_in_memory_set st ms dst src = Ret (st', ms', r) ∧ copied_in st st' ms ms' X dst src r.
Proof.
  intros Hi HX Hd. unfold copy_to_user_in_memory_set.
  destruct (_ && _). { eexists _, _, _; split; [reflexivity|]. exists st. split; [by apply prepared_refl|by left]. }
  destruct (prepare_write_ok st ms X dst (zlen src) Hi HX Hd) as (st1&ms1&r1&->&Hp&Hr). cbn [fst snd].
  destruct r1 as [[]|e]; [|eexists _, _, _; split; [reflexivity|]; exists st1; split; [done|by left]].
  specialize (Hr eq_refl). destruct (stored_done st1 ms1 _ dst src (pr_inv _ _ _ _ _ Hp) (permits_after _ _ _ _ _ _ _ _ Hp Hr) Hd)
    as (st'&r&->&Hs).
  eexists _, _, _; split; [reflexivity|]. exists st1. split; [done|]. destruct r; [done|by right].
Qed.

(** Reading through a translation. *)
Lemma read_phys_ok st ms T va pa n :
  ms_inv st ms T → user_va va → translate ms va = Some pa → 0 ≤ n → va mod PAGE_SIZE + n ≤ PAGE_SIZE →
  zlen (read_phys st pa n) = n ∧
  ∀ i, 0 ≤ i < n → is_Some (read_phys st pa n !! Z.to_nat i) ∧
    read_phys st pa n !! Z.to_nat i = get_byte (cell (areas ms)) (svc_page (st_frames st)) (va + i).
Proof.
  intros Hi Hu Ht Hn Hle. destruct (translate_page _ _ _ _ _ Hi Hu Ht) as (p&Hp&Hpf&Hpo). unfold read_phys. rewrite Hpf, Hpo.
  pose proof (svc_page_len _ _ (frame_no (rp_frame p)) (inv_frames _ _ _ Hi)) as Hpl. set (now := take _ (drop _ _)).
  assert (Hlen : zlen now = n).
  { unfold now, zlen in *. rewrite length_take, length_drop. unfold PAGE_SIZE in *. lia. }
  split; [done|]. intros i Hir. split; [apply lookup_lt_is_Some; unfold zlen in *; lia|].
  unfold get_byte. rewrite (cell_run _ va p i) by (apply Hi || done || lia). cbn [mbind option_bind fst snd].
  unfold now. rewrite lookup_take_lt, lookup_drop by lia. f_equal. unfold PAGE_SIZE in *. lia.
Qed.

Lemma copy_from_loop_ok fuel st ms T src copied len :
  ms_inv st ms T → 0 ≤ src → 0 ≤ copied ≤ len →
  (copied < len → len - copied + (src + copied) mod PAGE_SIZE ≤ Z.of_nat fuel * PAGE_SIZE) →
  (∀ va, src + copied ≤ va < src + len → user_va va) →
  ∃ bytes r, copy_from_loop fuel st ms src copied len = (bytes, r) ∧
    (∀ i, 0 ≤ i < zlen bytes →
       is_Some (bytes !! Z.to_nat i) ∧
       bytes !! Z.to_nat i = get_byte (cell (areas ms)) (svc_page (st_frames st)) (src + copied + i)) ∧
    match r with
    | Ok _ => zlen bytes = len - copied
    | Err e => e = EFAULT ∧ translate ms (src + copied + zlen bytes) = None
    end.
Proof.
  revert copied. induction fuel as [|fuel IH]; intros copied Hi Hs Hc Hfuel Hus; cbn [copy_from_loop];
    destruct (decide (copied < len)) as [Hpos|Hz].
  { specialize (Hfuel Hpos). exfalso. unfold PAGE_SIZE in *. lia. }
  1,3: rewrite ?bool_decide_eq_false_2 by done; eexists _, _; split; [reflexivity|]; rewrite (zlen_nil (A:=Z));
    split; [intros i Hi0; exfalso; lia|lia].
  specialize (Hfuel Hpos). rewrite bool_decide_eq_true_2 by done. set (addr := src + copied) in *.
  pose proof (Hus addr ltac:(lia)) as Hua.
  assert (checked_add src copied = Some addr) as ->.
  { apply checked_add_Some. unfold user_va, VA_LIMIT, USIZE_MAX, addr in *. lia. }
  destruct (translate ms addr) as [pa|] eqn:Et.
  2:{ eexists _, _; split; [reflexivity|]. rewrite (zlen_nil (A:=Z)), Z.add_0_r.
      split; [intros i Hi0; exfalso; lia|done]. }
  set (n := Z.min (PAGE_SIZE - addr mod PAGE_SIZE) (len - copied)).
  assert (Hn : 0 < n ≤ len - copied ∧ addr mod PAGE_SIZE + n ≤ PAGE_SIZE) by (unfold n, PAGE_SIZE; lia).
  destruct (read_phys_ok st ms T addr pa n Hi Hua Et) as [Hnow Hget]; [lia|lia|]. set (now := read_phys st pa n) in *.
  destruct (IH (copied + n)) as (rest&r&->&Hb&Hr).
  - done.
  - done.
  - lia.
  - intros Hr. replace (src + (copied + n)) with (addr + n) by (unfold addr; lia).
    assert (n = PAGE_SIZE - addr mod PAGE_SIZE) as -> by (unfold n in *; lia).
    rewrite Nat2Z.inj_succ in Hfuel. unfold PAGE_SIZE in *. lia.
  - intros va Hva. apply Hus. unfold addr. lia.
  - replace (src + (copied + n)) with (addr + n) in * by (unfold addr; lia).
    eexists _, _; split; [reflexivity|]. rewrite zlen_app, Hnow. split.
    + intros i Hir. destruct (decide (i < n)) as [Hin|Hout].
      * rewrite lookup_app_l by (unfold zlen in *; lia). apply Hget. lia.
      * rewrite lookup_app_r by (unfold zlen in *; lia).
        replace (Z.to_nat i - length now)%nat with (Z.to_nat (i - n)) by (unfold zlen in *; lia).
        replace (addr + i) with (addr + n + (i - n)) by lia. apply Hb. lia.
    + rewrite Z.add_assoc. destruct r; [lia|done].
Qed.

(** The bytes of [bs] are those the addresses from [va] on read. *)
Definition reads st ms (va : Z) (bs : list Z) : Prop :=
  ∀ i b, bs !! i = Some b → get_byte (cell (areas ms)) (svc_page (st_frames st)) (va + Z.of_nat i) = Some b.

(** The result of a copy from user memory. *)
Definition copied_out st st' ms ms' X (src len : Z) (r : result (list Z) SysErrNo) : Prop :=
  prepared st st' ms ms' X ∧
  match r with
  | Ok bytes => zlen bytes = len ∧ reads st' ms' src bytes ∧ permits (areas ms) PTE_R src len
  | Err _ => True
  end.

Lemma reads_kept st st' ms ms' X va bs : prepared st st' ms ms' X → reads st ms va bs → reads st' ms' va bs.
Proof. intros Hp Hr i b Hb. by apply (pr_bytes _ _ _ _ _ Hp), Hr. Qed.

Lemma copy_from_user_ok st ms X src len :
  ms_inv st ms (file_cache (st_frames st) ++ X) → zlen X ≤ 2 ^ 31 → 0 ≤ src → 0 ≤ len →
  ∃ st' ms' r, copy_from_user_in_memory_set st ms src len = Ret (st', ms', r) ∧ copied_out st st' ms ms' X src len r.
Proof.
  intros Hi HX Hs Hlen. unfold copy_from_user_in_memory_set.
  destruct (_ && _). { eexists _, _, _; split; [reflexivity|]. split; [by apply prepared_refl|done]. }
  destruct (prepare_read_ok st ms X src len Hi HX Hs) as (st1&ms1&r1&->&Hp&Hr). cbn [fst snd].
  destruct r1 as [[]|e]; [|by eexists _, _, _]. specialize (Hr eq_refl).
  destruct (copy_from_loop_ok (page_steps len) st1 ms1 _ src 0 len (pr_inv _ _ _ _ _ Hp) Hs) as (bytes&r&->&Hb&Hend); [lia| | |].
  - rewrite Z.add_0_r, Z.sub_0_r. apply page_steps_enough.
  - rewrite Z.add_0_r. eapply permits_user; [apply Hp|]. by eapply permits_after.
  - rewrite !Z.add_0_r in *. eexists _, _, _; split; [reflexivity|]. split; [done|]. destruct r; [|done].
    split; [lia|]. split; [|done]. intros i b Hib. pose proof (lookup_lt_Some _ _ _ Hib).
    destruct (Hb (Z.of_nat i)) as [_ Hg]; [unfold zlen; lia|]. rewrite Nat2Z.id in Hg. by rewrite <-Hg.
Qed.

(** [clear_user] is a copy of zeros. *)
Lemma clear_loop_copy fuel st ms dst copied len :
  clear_loop fuel st ms dst copied len = copy_to_loop fuel st ms dst copied (replicate (Z.to_nat (len - copied)) 0).
Proof.
  revert st copied. induction fuel as [|fuel IH]; intros st copied; cbn [clear_loop copy_to_loop]; [done|].
  unfold zlen. rewrite length_replicate. destruct (decide (copied < len)) as [Hlt|Hge].
  2:{ rewrite !bool_decide_eq_false_2 by lia. done. }
  rewrite !bool_decide_eq_true_2 by lia. destruct (checked_add dst copied) as [va|]; [|done].
  destruct (translate ms va) as [pa|]; [|done]. rewrite Z2Nat.id by lia.
  set (n := Z.min (PAGE_SIZE - va mod PAGE_SIZE) (len - copied)).
  assert (Hn : 0 < n ≤ len - copied) by (unfold n, PAGE_SIZE; lia).
  rewrite take_replicate, drop_replicate, IH. f_equal; [|by f_equal; lia]. do 2 f_equal. lia.
Qed.

Lemma clear_user_copy st (current : option (MemorySet PT)) dst len :
  0 ≤ len → clear_user st current dst len = copy_to_user st current dst (replicate (Z.to_nat len) 0).
Proof.
  intros Hlen. unfold clear_user, copy_to_user, copy_to_user_in_memory_set.
  assert (bool_decide (len = 0) = bool_decide (replicate (Z.to_nat len) (0 : Z) = [])) as <-.
  { apply bool_decide_ext. split; [by intros ->|]. intros E%(f_equal length). rewrite length_replicate in E. simpl in E. lia. }
  assert (Hz : zlen (replicate (Z.to_nat len) (0 : Z)) = len) by (unfold zlen; rewrite length_replicate; lia). rewrite Hz.
  destruct (bool_decide (dst = 0) && negb (bool_decide (len = 0))); [done|]. destruct current as [ms|]; [|done].
  destruct (prepare_write st ms dst len) as [[[st1 ms1] [u|e]]|]; [|done|done]. cbn [fst snd].
  rewrite clear_loop_copy, Z.sub_0_r. by destruct (copy_to_loop _ _ _ _ _ _).
Qed.

(** ** Strings *)

Lemma scan_zero_ok src bs z :
  scan_zero src = (bs, z) →
  Forall (λ b, b ≠ 0) bs ∧ (if z then ∃ rest, src = bs ++ 0 :: rest else src = bs).
Proof.
  revert bs z. induction src as [|b src IH]; intros bs z; cbn [scan_zero]; [by intros [= <- <-]|].
  case_bool_decide as E. { intros [= <- <-]. split; [done|]. exists src. by rewrite E. }
  destruct (scan_zero src) as [bs' z'] eqn:Es. intros [= <- <-]. destruct (IH _ _ eq_refl) as [Hf Hz].
  split; [by constructor|]. destruct z'; [|by rewrite Hz]. destruct Hz as [rest ->]. by exists rest.
Qed.

Lemma reads_app st ms va b1 b2 : reads st ms va (b1 ++ b2) ↔ reads st ms va b1 ∧ reads st ms (va + zlen b1) b2.
Proof.
  unfold reads, zlen. split.
  - intros H. split; intros i b Hb; [apply H; by rewrite lookup_app_l by (by eapply lookup_lt_Some)|].
    rewrite <-Z.add_assoc, <-Nat2Z.inj_add. apply H. rewrite lookup_app_r by lia. by replace (length b1 + i - length b1)%nat with i by lia.
  - intros [H1 H2] i b Hb. apply lookup_app_Some in Hb as [Hb|[Hl Hb]]; [by apply H1|]. apply H2 in Hb.
    by replace (va + Z.of_nat (length b1) + Z.of_nat (i - length b1)) with (va + Z.of_nat i) in Hb by lia.
Qed.

(** A string without its terminator; what [read_cstr_inner] found. *)
Definition cstr_at st ms (addr : Z) (s : list Z) : Prop := reads st ms addr s ∧ Forall (λ b, b ≠ 0) s.
Definition terminated st ms (addr : Z) (s : list Z) : Prop :=
  cstr_at st ms addr s ∧ reads st ms (addr + zlen s) [0] ∧ zlen s < MAX_CSTR_LEN.

Definition cstr_result st' ms' (addr : Z) (unterminated : SysErrNo) (r : result (list Z) SysErrNo) : Prop :=
  match r with
  | Ok s => terminated st' ms' addr s ∧ from_utf8 s = true
  | Err e =>
      (e = EINVAL ∧ ∃ s, terminated st' ms' addr s ∧ from_utf8 s = false) ∨
      (e = unterminated ∧ ∃ s, cstr_at st' ms' addr s ∧ zlen s = MAX_CSTR_LEN) ∨
      ∃ s, cstr_at st' ms' addr s ∧ zlen s < MAX_CSTR_LEN ∧
        (e = EFAULT ∧ (checked_add addr (zlen s) = None ∨ translate ms' (addr + zlen s) = None) ∨
         ∃ st1 ms1 n, prepare_read st1 ms1 (addr + zlen s) n = Ret (st', ms', Err e))
  end.

Lemma cstr_kept st st' ms ms' X addr s : prepared st st' ms ms' X → cstr_at st ms addr s → cstr_at st' ms' addr s.
Proof. intros Hp [Hr Hn]. split; [by eapply reads_kept|done]. Qed.

Lemma cstr_loop_ok fuel st ms X addr offset bytes un :
  ms_inv st ms (file_cache (st_frames st) ++ X) → zlen X ≤ 2 ^ 31 → 0 ≤ addr → zlen bytes = offset →
  offset ≤ MAX_CSTR_LEN → cstr_at st ms addr bytes →
  (offset < MAX_CSTR_LEN → MAX_CSTR_LEN - offset + (addr + offset) mod PAGE_SIZE ≤ Z.of_nat fuel * PAGE_SIZE) →
  ∃ st' ms' r, cstr_loop fuel st ms addr offset bytes un = Ret (st', ms', r) ∧ prepared st st' ms ms' X ∧
    cstr_result st' ms' addr un r.
Proof.
  revert st ms offset bytes. induction fuel as [|fuel IH]; intros st ms offset bytes Hi HX Ha Hoff Hmax Hs Hfuel; cbn [cstr_loop];
    pose proof (zlen_nonneg bytes) as Hnn; destruct (decide (offset < MAX_CSTR_LEN)) as [Hlt|Hge].
  { specialize (Hfuel Hlt). exfalso. unfold PAGE_SIZE in *. lia. }
  1,3: rewrite ?bool_decide_eq_false_2 by done; eexists _, _, _; split; [reflexivity|]; split; [by apply prepared_refl|];
    right; left; split; [done|]; exists bytes; split; [done|lia].
  specialize (Hfuel Hlt). rewrite bool_decide_eq_true_2 by done. unfold checked_add. case_bool_decide as Hov.
  2:{ eexists _, _, _; split; [reflexivity|]; split; [by apply prepared_refl|]. right; right. exists bytes.
      split; [done|]. split; [lia|]. left. split; [done|]. left. unfold checked_add. by rewrite Hoff, bool_decide_eq_false_2. }
  set (va := addr + offset) in *. set (span := Z.min (PAGE_SIZE - va mod PAGE_SIZE) (MAX_CSTR_LEN - offset)). cbv zeta.
  assert (Hsp : 0 < span ≤ MAX_CSTR_LEN - offset ∧ va mod PAGE_SIZE + span ≤ PAGE_SIZE) by (unfold span, PAGE_SIZE; lia).
  destruct (prepare_read_ok st ms X va span Hi HX) as (st1&ms1&r1&He&Hp&Hper); [unfold va; lia|]. rewrite He. cbn [fst snd].
  pose proof (cstr_kept _ _ _ _ _ _ _ Hp Hs) as Hs1. destruct r1 as [[]|e].
  2:{ eexists _, _, _; split; [reflexivity|]; split; [done|]. right; right. exists bytes. rewrite Hoff.
      split; [done|]. split; [done|]. right. by eexists st, ms, span. }
  specialize (Hper eq_refl). pose proof (pr_inv _ _ _ _ _ Hp) as Hi1.
  assert (Hu : user_va va) by (apply (permits_user _ _ _ _ _ _ Hi1 (permits_after _ _ _ _ _ _ _ _ Hp Hper)); lia).
  destruct (translate ms1 va) as [pa|] eqn:Et.
  2:{ eexists _, _, _; split; [reflexivity|]; split; [done|]. right; right. exists bytes. rewrite Hoff.
      split; [done|]. split; [done|]. left. split; [done|]. by right. }
  destruct (read_phys_ok st1 ms1 _ va pa span Hi1 Hu Et) as [Hlen Hget]; [lia|lia|].
  assert (Hread : reads st1 ms1 va (read_phys st1 pa span)).
  { intros i b Hb. pose proof (lookup_lt_Some _ _ _ Hb). destruct (Hget (Z.of_nat i)) as [_ Hg]; [unfold zlen in *; lia|].
    rewrite Nat2Z.id in Hg. by rewrite <-Hg. }
  destruct (scan_zero (read_phys st1 pa span)) as [bs z] eqn:Esc. apply scan_zero_ok in Esc as [Hnz Hz].
  assert (Hcs : reads st1 ms1 va bs → cstr_at st1 ms1 addr (bytes ++ bs)).
  { intros Hb. split; [|apply Forall_app; split; [apply Hs1|done]]. apply reads_app. split; [apply Hs1|]. by rewrite Hoff. }
  destruct z.
  - destruct Hz as [rest Hz]. rewrite Hz in Hread. apply reads_app in Hread as [Hr1 Hr2].
    assert (Ht : terminated st1 ms1 addr (bytes ++ bs)).
    { split; [by apply Hcs|]. rewrite zlen_app, Hoff. split.
      - rewrite Z.add_assoc. fold va. intros i b Hb. apply (Hr2 i). destruct i; [done|done].
      - rewrite Hz, zlen_app, zlen_cons in Hlen. pose proof (zlen_nonneg rest). lia. }
    eexists _, _, _; split; [reflexivity|]; split; [done|]. destruct (from_utf8 (bytes ++ bs)) eqn:Eu; [done|].
    left. split; [done|]. by exists (bytes ++ bs).
  - rewrite Hz in Hread, Hlen. destruct (IH st1 ms1 (offset + span) (bytes ++ bs)) as (st'&ms'&r&->&Hp'&Hr).
    + done.
    + done.
    + done.
    + rewrite zlen_app. lia.
    + lia.
    + by apply Hcs.
    + intros Hlt'. replace (addr + (offset + span)) with (va + span) by (unfold va; lia).
      assert (span = PAGE_SIZE - va mod PAGE_SIZE) as -> by (unfold span in *; lia).
      rewrite Nat2Z.inj_succ in Hfuel. unfold PAGE_SIZE in *. lia.
    + eexists _, _, _; split; [reflexivity|]. split; [by eapply prepared_trans|done].
Qed.

(** ** The theorems *)


(** Copying from user memory returns exactly the bytes the addresses of the range read,
    all in pages the program may read, and changes nothing that can be read; a failed copy
    only makes pages accessible. *)
Theorem copy_from_user_correct st ms X src len :
  ms_inv st ms (file_cache (st_frames st) ++ X) → zlen X ≤ 2 ^ 31 → 0 ≤ src → 0 ≤ len →
  ∃ st' ms' r, copy_from_user st (Some ms) src len = Ret (st', Some ms', r) ∧
    copied_out st st' ms ms' X src len r ∧
    (src = 0 → len ≠ 0 → r = Err EFAULT ∧ st' = st ∧ ms' = ms).
Proof.
  intros Hi HX Hs Hl. unfold copy_from_user. destruct (_ && _) eqn:E.
  - eexists _, _, _. split; [reflexivity|]. split; [|done]. split; [by apply prepared_refl|done].
  - destruct (copy_from_user_ok st ms X src len Hi HX Hs Hl) as (st'&ms'&r&->&Hc). exists st', ms', r. split; [done|].
    split; [done|]. intros -> Hne. by rewrite (bool_decide_eq_false_2 (len = 0)) in E.
Qed.


(** No frame is resident twice: different addresses have different places. *)
Lemma cell_injective st ms T x y c :
  ms_inv st ms T → NoDup (owned (areas ms)) → cell (areas ms) x = Some c → cell (areas ms) y = Some c → x = y.
Proof.
  intros Hi Hnd. unfold cell. intros (p&Hp&->)%fmap_Some (q&Hq&E)%fmap_Some. injection E as Ef Eo.
  rewrite <-page_at_down in Hp, Hq by apply Hi.
  destruct (decide (align_down x = align_down y)) as [Ed|Ed].
  { unfold align_down, PAGE_SIZE in *. lia. }
  exfalso. rewrite page_at_down in Hp, Hq by apply Hi.
  pose proof (shared_owners _ x y p q (inv_vmas _ _ _ Hi) Hp Hq Ed Ef) as H2.
  rewrite (owners_nodup _ _ Hnd) in H2; [lia|].
  destruct (page_found ms x p (inv_vmas _ _ _ Hi) Hp) as (i&a&_&Hai&_&_&_&_&Hr). by apply (resident_owned _ i a _ p (inv_vmas _ _ _ Hi) Hai Hr).
Qed.

(** What a copy stored is what the addresses read. *)
Lemma copied_in_reads st st' ms ms' X dst src :
  copied_in st st' ms ms' X dst src (Ok tt) → NoDup (owned (areas ms')) → reads st' ms' dst src.
Proof.
  intros (st0&_&_&Hi1&_&_&k&_&Hb&Hpg&->) Hnd. rewrite firstn_all2 in Hb by (unfold zlen; lia).
  intros i b Hsrc. pose proof (lookup_lt_Some _ _ _ Hsrc).
  assert (Hext : get_byte (cell (areas ms')) (svc_page (st_frames st')) (dst + Z.of_nat i) =
    get_byte (cell (areas ms')) (put_bytes (cell (areas ms')) (svc_page (st_frames st0)) dst src) (dst + Z.of_nat i)).
  { unfold get_byte. destruct (cell _ _) as [c|]; [|done]. simpl. by rewrite Hb. }
  rewrite Hext, put_get.
  - rewrite bool_decide_eq_true_2 by (unfold zlen; lia).
    by replace (Z.to_nat (dst + Z.of_nat i - dst)) with i by lia.
  - intros x c Hx. destruct (cell_ok _ _ _ Hi1 x c Hx) as [? Hlt]. split; [done|].
    unfold zlen in *. by rewrite Hb, put_bytes_len in Hlt.
  - intros x y c _ Hx Hy. by apply (cell_injective _ _ _ _ _ _ Hi1 Hnd Hx Hy).
  - intros x Hx. unfold cell. apply fmap_is_Some. by apply Hpg.
Qed.

Lemma reads_unique st ms va b1 b2 : reads st ms va b1 → reads st ms va b2 → length b1 = length b2 → b1 = b2.
Proof.
  intros H1 H2 Hl. apply list_eq_same_length with (length b1); [done|done|]. intros i x y _ Hx Hy.
  apply H1 in Hx. apply H2 in Hy. congruence.
Qed.

(** A copy from where a copy stored. *)
Lemma copy_back_ok st ms X dst src st1 ms1 st2 c2 bytes :
  ms_inv st ms (file_cache (st_frames st) ++ X) → zlen X ≤ 2 ^ 31 → 0 ≤ dst →
  copy_to_user st (Some ms) dst src = Ret (st1, Some ms1, Ok tt) → NoDup (owned (areas ms1)) →
  copy_from_user st1 (Some ms1) dst (zlen src) = Ret (st2, c2, Ok bytes) →
  bytes = src.
Proof.
  intros Hi HX Hd Hto Hnd Hfrom. unfold copy_to_user in Hto.
  destruct (_ && _); [done|]. destruct (copy_to_user_ok st ms X dst src Hi HX Hd) as (st'&ms'&r&He&Hc).
  rewrite He in Hto. injection Hto as -> -> ->. pose proof (copied_in_reads _ _ _ _ _ _ _ Hc Hnd) as Hget.
  destruct Hc as (st0&_&_&Hi1&Hcache&_). rewrite <-Hcache in Hi1. unfold copy_from_user in Hfrom. destruct (_ && _); [done|].
  destruct (copy_from_user_ok st1 ms1 X dst (zlen src) Hi1 HX Hd (zlen_nonneg _)) as (st'&ms'&r&He'&Hp&Hr).
  rewrite He' in Hfrom. injection Hfrom as -> <- ->. destruct Hr as (Hlen&Hreads&_).
  apply (reads_kept _ _ _ _ _ _ _ Hp) in Hget. eapply reads_unique; [exact Hreads|exact Hget|unfold zlen in Hlen; lia].
Qed.

(** What was copied into user memory is what a copy from there returns, when no frame is
    resident in two pages of the address space. *)
Theorem user_copy_roundtrip st ms X dst src st1 ms1 st2 c2 bytes :
  ms_inv st ms (file_cache (st_frames st) ++ X) → zlen X ≤ 2 ^ 31 → 0 ≤ dst →
  copy_to_user st (Some ms) dst src = Ret (st1, Some ms1, Ok tt) → NoDup (owned (areas ms1)) →
  copy_from_user st1 (Some ms1) dst (zlen src) = Ret (st2, c2, Ok bytes) →
  bytes = src.
Proof. apply copy_back_ok. Qed.

End prepare.

(** ** Concrete copies: four bytes across a page boundary of lazy memory *)

Definition demo_text : list Z := [104; 105; 0; 7].


Lemma copy_from_user_correct_witness :
  match copy_from_user demo_st0 (Some demo_lazy_ms) 0x10ffe 4 with
  | Ret (st', Some ms', Ok bytes) => bytes = [0; 0; 0; 0] ∧ copied_out demo_st0 st' demo_lazy_ms ms' [] 0x10ffe 4 (Ok bytes)
  | _ => False
  end.
Proof.
  destruct (copy_from_user_correct demo_st0 demo_lazy_ms [] 0x10ffe 4) as (st'&ms'&r&He&Hc&_).
  - exact demo_lazy_inv.
  - rewrite zlen_nil. lia.
  - lia.
  - lia.
  - assert (Hok : match copy_from_user demo_st0 (Some demo_lazy_ms) 0x10ffe 4 with
      | Ret (_, Some _, Ok bytes) => bool_decide (bytes = [0; 0; 0; 0]) | _ => false end = true) by (vm_compute; reflexivity).
    rewrite He in Hok |- *. destruct r as [bytes|]; [|discriminate Hok].
    apply bool_decide_eq_true_1 in Hok. split; [exact Hok|exact Hc].
Defined.


(** A string written by one call is what the next one reads. *)
Example string_crosses_pages :
  match copy_to_user demo_st0 (Some demo_lazy_ms) 0x10ffe demo_text with
  | Ret (st, current, Ok _) =>
      match read_cstr st current 0x10ffe with Ret (_, _, Ok s) => bool_decide (s = [104; 105]) | _ => false end
  | _ => false
  end = true.
Proof. vm_compute. reflexivity. Qed.

Lemma user_copy_roundtrip_witness :
  match copy_to_user demo_st0 (Some demo_lazy_ms) 0x10ffe demo_text with
  | Ret (st1, Some ms1, Ok _) =>
      match copy_from_user st1 (Some ms1) 0x10ffe 4 with Ret (_, _, Ok bytes) => bytes = demo_text | _ => False end
  | _ => False
  end.
Proof.
  assert (Hok : match copy_to_user demo_st0 (Some demo_lazy_ms) 0x10ffe demo_text with
    | Ret (st1, Some ms1, Ok _) =>
        bool_decide (NoDup (owned (areas ms1))) &&
        match copy_from_user st1 (Some ms1) 0x10ffe 4 with Ret (_, _, Ok _) => true | _ => false end
    | _ => false
    end = true) by (vm_compute; reflexivity).
  destruct (copy_to_user demo_st0 (Some demo_lazy_ms) 0x10ffe demo_text) as [[[st1 [ms1|]] [[]|]]|] eqn:E1; try discriminate Hok.
  apply andb_true_iff in Hok as [Hnd Hok]. apply bool_decide_eq_true_1 in Hnd.
  destruct (copy_from_user st1 (Some ms1) 0x10ffe 4) as [[[st2 c2] [bytes|]]|] eqn:E2; try discriminate Hok.
  apply (user_copy_roundtrip demo_st0 demo_lazy_ms [] 0x10ffe demo_text st1 ms1 st2 c2 bytes).
  - exact demo_lazy_inv.
  - rewrite zlen_nil. lia.
  - lia.
  - exact E1.
  - exact Hnd.
  - exact E2.
Defined.
