(* ===== verification/UserVa.v ===== *)
(** * User address ranges (src/os/src/config/user_va.rs)

    The ranges a user mapping may use, the two arenas in which the kernel places mappings
    and the search through them ([find_mmap_area_with_hints] of src/os/src/syscall/mm.rs). *)

From S2P Require Import Prelude BTree Frame Flags FileDesc ResidentSet MapArea VmaList MemorySet MsInv.

Record UserVaRange := mkRange { range_start : Z; range_end : Z }.

#[export] Instance UserVaRange_eq_dec : EqDecision UserVaRange.
Proof. solve_decision. Defined.

Definition contains_range (r : UserVaRange) (start end_ : Z) : bool :=
  bool_decide (range_start r ≤ start) && bool_decide (start < end_) && bool_decide (end_ ≤ range_end r).
Definition contains_addr (r : UserVaRange) (addr : Z) : bool :=
  bool_decide (range_start r ≤ addr) && bool_decide (addr < range_end r).

Definition USER_STACK_TOP : Z := 0x7ffff000.
Definition USER_HEAP_START : Z := 0x10000000.
Definition LOW_USER_RANGE : UserVaRange := mkRange PAGE_SIZE USER_STACK_TOP.
Definition HIGH_MMAP_ARENA : UserVaRange := mkRange 0x2000000000 0x4000000000.
Definition LOW_MMAP_ARENA : UserVaRange := mkRange 0x20000000 USER_STACK_TOP.
Definition MMAP_ARENAS : list UserVaRange := [LOW_MMAP_ARENA; HIGH_MMAP_ARENA].
Definition DEFAULT_MMAP_BASE : Z := range_start LOW_MMAP_ARENA.
Definition DEFAULT_HIGH_MMAP_BASE : Z := range_start HIGH_MMAP_ARENA.
Definition USER_ADDRESS_LIMIT : Z := range_end HIGH_MMAP_ARENA.

Definition is_user_mappable_range (start end_ : Z) : bool :=
  contains_range LOW_USER_RANGE start end_ || contains_range HIGH_MMAP_ARENA start end_.

(** The first arena that contains the address. *)
Fixpoint arena_loop (arenas : list UserVaRange) (addr : Z) : option UserVaRange :=
  match arenas with
  | [] => None
  | arena :: rest => if contains_addr arena addr then Some arena else arena_loop rest addr
  end.
Definition mmap_arena_containing (addr : Z) : option UserVaRange := arena_loop MMAP_ARENAS addr.

(** ** Placement *)

(** From the hint to the end of the arena, then from its start to the hint. *)
Definition search_arena (areas : list MapArea) (arena : UserVaRange) (hint length_ : Z) : option Z :=
  match find_free_area areas hint length_ (range_end arena) with
  | Some start => Some start
  | None =>
      if bool_decide (range_start arena < hint) then find_free_area areas (range_start arena) length_ hint
      else None
  end.

Fixpoint search_arenas (areas : list MapArea) (arenas : list UserVaRange) (hinted : option UserVaRange)
    (high_hint length_ : Z) : option Z :=
  match arenas with
  | [] => None
  | arena :: rest =>
      if bool_decide (Some arena = hinted) then search_arenas areas rest hinted high_hint length_
      else
        let arena_hint :=
          if bool_decide (arena = HIGH_MMAP_ARENA) then Z.max high_hint (range_start arena)
          else range_start arena in
        match search_arena areas arena arena_hint length_ with
        | Some start => Some start
        | None => search_arenas areas rest hinted high_hint length_
        end
  end.

(** [find_mmap_area_with_hints] *)
Definition find_mmap_area_with_hints (areas : list MapArea) (low_hint high_hint length_ : Z) : option Z :=
  match mmap_arena_containing low_hint with
  | None => search_arenas areas MMAP_ARENAS None high_hint length_
  | Some arena =>
      match align_up low_hint with
      | None => None
      | Some hint =>
          match search_arena areas arena (Z.max hint (range_start arena)) length_ with
          | Some start => Some start
          | None => search_arenas areas MMAP_ARENAS (Some arena) high_hint length_
          end
      end
  end.

(** ** Facts *)

Lemma contains_range_iff r s e : contains_range r s e = true ↔ range_start r ≤ s ∧ s < e ∧ e ≤ range_end r.
Proof. unfold contains_range. rewrite !andb_true_iff, !bool_decide_eq_true. tauto. Qed.

(** Mappable addresses are those a user page table holds. *)
Lemma mappable_user s e : is_user_mappable_range s e = true → s < e ∧ 0 ≤ s ∧ e ≤ VA_LIMIT ∧ ∀ va, s ≤ va < e → user_va va.
Proof.
  unfold is_user_mappable_range. intros H. apply orb_true_iff in H. rewrite !contains_range_iff in H.
  cbn [range_start range_end LOW_USER_RANGE HIGH_MMAP_ARENA] in H. unfold user_va, VA_LIMIT, PAGE_SIZE, USER_STACK_TOP in *.
  split_and!; [lia..|]. intros va Hva. lia.
Qed.

Lemma arena_range s e : contains_range LOW_MMAP_ARENA s e = true ∨ contains_range HIGH_MMAP_ARENA s e = true →
  is_user_mappable_range s e = true.
Proof.
  unfold is_user_mappable_range. rewrite orb_true_iff, !contains_range_iff.
  unfold LOW_USER_RANGE, LOW_MMAP_ARENA, PAGE_SIZE. cbn [range_start range_end]. lia.
Qed.

Section placement.
Implicit Types (l : list MapArea) (arena : UserVaRange).

(** A place found: aligned, in the arena, free. *)
Definition placed l arena (len s : Z) : Prop :=
  page_aligned s ∧ contains_range arena s (s + len) = true ∧ range_overlaps l s (s + len) = false.

Lemma search_arena_ok l arena hint len s :
  vmas_wf l → 0 < len → 0 ≤ range_start arena ≤ hint → range_end arena ≤ USIZE_MAX → hint ≤ USIZE_MAX →
  hint ≤ range_end arena →
  search_arena l arena hint len = Some s → placed l arena len s.
Proof.
  intros Hw Hlen Hs He Hh Hhe. unfold search_arena, placed. rewrite contains_range_iff.
  assert (Hfree : ∀ r, ¬ blocked l r len → range_overlaps l r (r + len) = false).
  { intros r Hr. destruct (range_overlaps l r (r + len)) eqn:E; [|done]. destruct Hr. by apply range_overlaps_ok in E. }
  pose proof (find_free_area_ok l hint len (range_end arena) Hw Hlen) as H1.
  destruct (find_free_area l hint len (range_end arena)) as [r|].
  - intros [= ->]. destruct H1 as (?&?&?&Hn&_); [lia|done|]. split_and!; [done|lia..|by apply Hfree].
  - case_bool_decide; [|done]. pose proof (find_free_area_ok l (range_start arena) len hint Hw Hlen) as H2.
    destruct (find_free_area l (range_start arena) len hint) as [r|]; [|done].
    intros [= ->]. destruct H2 as (?&?&?&Hn&_); [lia|done|]. split_and!; [done|lia..|by apply Hfree].
Qed.

Lemma search_arena_none l arena hint len :
  vmas_wf l → 0 < len → PAGE_SIZE ≤ range_start arena ≤ hint → range_end arena ≤ USIZE_MAX → hint ≤ USIZE_MAX →
  search_arena l arena hint len = None →
  ∀ c, page_aligned c → contains_range arena c (c + len) = true → hint ≤ c ∨ c + len ≤ hint →
  range_overlaps l c (c + len) = true.
Proof.
  intros Hw Hlen Hs He Hh Hnone c Hc [H1 [H2 H3]]%contains_range_iff Hsplit. unfold search_arena in Hnone.
  apply range_overlaps_ok; [done|]. fold (blocked l c len).
  pose proof (find_free_area_ok l hint len (range_end arena) Hw Hlen) as F1.
  destruct (find_free_area l hint len (range_end arena)); [done|].
  destruct (decide (hint ≤ c)); [apply F1; unfold PAGE_SIZE in *; (done || lia)|].
  rewrite bool_decide_eq_true_2 in Hnone by lia.
  pose proof (find_free_area_ok l (range_start arena) len hint Hw Hlen) as F2. rewrite Hnone in F2.
  apply F2; unfold PAGE_SIZE in *; (done || lia).
Qed.

(** Cursors below the end of the high arena. *)
Definition hints_ok (low_hint high_hint : Z) : Prop := 0 ≤ low_hint ∧ 0 ≤ high_hint ≤ range_end HIGH_MMAP_ARENA.

Lemma search_arenas_ok l hinted high len s :
  vmas_wf l → 0 < len → 0 ≤ high ≤ range_end HIGH_MMAP_ARENA →
  search_arenas l MMAP_ARENAS hinted high len = Some s → ∃ arena, arena ∈ MMAP_ARENAS ∧ placed l arena len s.
Proof.
  intros Hw Hlen Hh. unfold MMAP_ARENAS. cbn [search_arenas].
  assert (Hhigh : (if bool_decide (Some HIGH_MMAP_ARENA = hinted) then None
     else match search_arena l HIGH_MMAP_ARENA (Z.max high (range_start HIGH_MMAP_ARENA)) len with
          | Some start => Some start | None => None end) = Some s →
     ∃ arena, arena ∈ [LOW_MMAP_ARENA; HIGH_MMAP_ARENA] ∧ placed l arena len s).
  { case_bool_decide; [done|].
    destruct (search_arena l HIGH_MMAP_ARENA _ len) as [r|] eqn:E; [|done]. intros [= ->].
    exists HIGH_MMAP_ARENA. split; [right; left|]. eapply search_arena_ok; [done|done|..|exact E];
      unfold USIZE_MAX in *; cbn [range_start range_end HIGH_MMAP_ARENA] in *; lia. }
  rewrite (bool_decide_eq_false_2 (LOW_MMAP_ARENA = HIGH_MMAP_ARENA)), (bool_decide_eq_true_2 (HIGH_MMAP_ARENA = HIGH_MMAP_ARENA))
    by done.
  destruct (decide (Some LOW_MMAP_ARENA = hinted)); [rewrite bool_decide_eq_true_2 by done; exact Hhigh|].
  rewrite bool_decide_eq_false_2 by done. destruct (search_arena l LOW_MMAP_ARENA _ len) as [r|] eqn:E; [|exact Hhigh]. intros [= ->].
  exists LOW_MMAP_ARENA. split; [left|]. eapply search_arena_ok; [done|done|..|exact E];
    unfold USIZE_MAX, USER_STACK_TOP in *; cbn [range_start range_end LOW_MMAP_ARENA] in *; unfold USER_STACK_TOP; lia.
Qed.

Lemma arena_containing_cases addr :
  match mmap_arena_containing addr with
  | Some arena => (arena = LOW_MMAP_ARENA ∨ arena = HIGH_MMAP_ARENA) ∧ range_start arena ≤ addr < range_end arena
  | None => True
  end.
Proof.
  unfold mmap_arena_containing, MMAP_ARENAS. cbn [arena_loop]. unfold contains_addr.
  destruct (bool_decide _ && bool_decide _) eqn:E1; reflect_bools; [split; [by left|lia]|].
  destruct (bool_decide _ && bool_decide (addr < range_end HIGH_MMAP_ARENA)) eqn:E2; reflect_bools; [split; [by right|lia]|done].
Qed.

(** The hint rounded up stays within its arena, whose bounds are page-aligned. *)
Lemma arena_hint arena addr :
  arena = LOW_MMAP_ARENA ∨ arena = HIGH_MMAP_ARENA → range_start arena ≤ addr < range_end arena →
  ∃ hint, align_up addr = Some hint ∧ Z.max hint (range_start arena) = hint ∧ hint ≤ range_end arena ∧
    range_end arena ≤ USIZE_MAX ∧ PAGE_SIZE ≤ range_start arena.
Proof.
  intros Ha Hin. unfold align_up, checked_add. unfold USIZE_MAX, PAGE_SIZE in *.
  destruct Ha as [-> | ->]; cbn [range_start range_end LOW_MMAP_ARENA HIGH_MMAP_ARENA] in *; unfold USER_STACK_TOP in *;
    (rewrite bool_decide_eq_true_2 by lia; eexists; split; [reflexivity|]; lia).
Qed.

(** A place that is found is page-aligned, within an arena and free. *)
Lemma find_mmap_area_ok l low high len s :
  vmas_wf l → 0 < len → hints_ok low high → find_mmap_area_with_hints l low high len = Some s →
  ∃ arena, arena ∈ MMAP_ARENAS ∧ placed l arena len s.
Proof.
  intros Hw Hlen [Hl Hh]. unfold find_mmap_area_with_hints. pose proof (arena_containing_cases low) as Ha.
  destruct (mmap_arena_containing low) as [arena|]; [|by apply search_arenas_ok]. destruct Ha as [Ha Hin].
  destruct (arena_hint arena low Ha Hin) as (hint&->&Hmx&Hle&Hmax&Hmin). rewrite Hmx.
  destruct (search_arena l arena hint len) as [r|] eqn:E; [|by apply search_arenas_ok]. intros [= ->].
  exists arena. split; [destruct Ha as [-> | ->]; [left|right; left]|].
  eapply search_arena_ok; [done|done|..|exact E]; unfold PAGE_SIZE, USIZE_MAX in *; lia.
Qed.

(** From the starts of the arenas the search is exhaustive. *)
Lemma find_mmap_area_default_none l len :
  vmas_wf l → 0 < len → find_mmap_area_with_hints l DEFAULT_MMAP_BASE DEFAULT_HIGH_MMAP_BASE len = None →
  ∀ arena c, arena ∈ MMAP_ARENAS → page_aligned c → contains_range arena c (c + len) = true →
  range_overlaps l c (c + len) = true.
Proof.
  intros Hw Hlen Hnone arena c Ha Hc Hin. pose proof (proj1 (contains_range_iff _ _ _) Hin) as (H1&_&_).
  unfold find_mmap_area_with_hints in Hnone.
  change (mmap_arena_containing DEFAULT_MMAP_BASE) with (Some LOW_MMAP_ARENA) in Hnone.
  change (align_up DEFAULT_MMAP_BASE) with (Some 0x20000000) in Hnone.
  cbn match in Hnone.
  destruct (search_arena l LOW_MMAP_ARENA (Z.max 0x20000000 (range_start LOW_MMAP_ARENA)) len) as [r|] eqn:E1; [done|].
  unfold MMAP_ARENAS in Hnone. cbn [search_arenas] in Hnone.
  rewrite (bool_decide_eq_true_2 (Some LOW_MMAP_ARENA = _)), (bool_decide_eq_false_2 (Some HIGH_MMAP_ARENA = _)),
    (bool_decide_eq_true_2 (HIGH_MMAP_ARENA = _)) in Hnone by done.
  destruct (search_arena l HIGH_MMAP_ARENA (Z.max DEFAULT_HIGH_MMAP_BASE (range_start HIGH_MMAP_ARENA)) len)
    as [r|] eqn:E2; [done|].
  unfold MMAP_ARENAS in Ha. rewrite !elem_of_cons in Ha. destruct Ha as [-> |[-> |[]%elem_of_nil]];
    [eapply search_arena_none; [done|done|..|exact E1|done|done|left]
    |eapply search_arena_none; [done|done|..|exact E2|done|done|left]];
    unfold USIZE_MAX, PAGE_SIZE, USER_STACK_TOP, DEFAULT_HIGH_MMAP_BASE in *;
    cbn [range_start range_end LOW_MMAP_ARENA HIGH_MMAP_ARENA] in *; unfold USER_STACK_TOP; lia.
Qed.

End placement.

(** A cursor in the middle of a free arena can hide it: here the high arena is full, the
    low one empty, and 1 GiB does not fit on either side of the cursor. *)
Example cursor_hides_free_range :
  let full := [area_new 0x2000000000 0x4000000000 0] in
  find_mmap_area_with_hints full 0x50000000 0x2000000000 0x40000000 = None ∧
  find_mmap_area_with_hints full DEFAULT_MMAP_BASE DEFAULT_HIGH_MMAP_BASE 0x40000000 = Some 0x20000000.
Proof. split; vm_compute; reflexivity. Qed.
