(* ===== verification/Tlb.v ===== *)
(** * TLB shootdown between CPUs (src/os/src/platform.rs)

    A CPU that removes leaves of a page table must make sure that no other CPU keeps
    using them before the frames are released.  [tlb_shootdown_inner] posts a flush
    request to every other CPU and interrupts only the CPUs that run in the address
    space; the others flush when [mark_current_address_space] next activates a root.

    The model interleaves the atomic operations of all CPUs, one access to a shared
    variable per step, together with the page walker of each CPU, which may cache a leaf
    of the current root at any time.  A root is identified with the address-space
    identifier that tags its translations ([Asid.v] shows that identifiers are not
    shared). *)

From S2P Require Import Prelude.

(** ** State *)

(** A cached translation: root, page and frame. *)
Definition Entry : Type := Z * Z * Z.

Definition entry_root (e : Entry) : Z := e.1.1.
Definition entry_leaf (e : Entry) : Z * Z := e.1.

(** Where a CPU is in the code of a switch or of a shootdown; [dead] are the leaves the
    shootdown removed. *)
Inductive Pc : Type :=
  | Running
  | MarkStored (root : Z)
  | MarkLoaded (root request : Z)
  | MarkFlushed (root request : Z)
  | Marked (root : Z)
  | Cleared
  | Editing (root : Z) (dead : list Entry)
  | LocalFlushed (root : Z) (dead : list Entry)
  | Storing (root : Z) (dead : list Entry) (gen : Z) (rest targets : list nat)
  | Checking (root : Z) (dead : list Entry) (rest kept : list nat)
  | Fencing (root : Z) (dead : list Entry) (targets : list nat).

(** [ACTIVE_ADDRESS_SPACE], [TLB_REQUEST] and [TLB_ACK] of a CPU, its [satp] root and
    its TLB.  The kernel root is 0. *)
Record Cpu := mkCpu {
  c_active : Z;
  c_request : Z;
  c_ack : Z;
  c_satp : Z;
  c_tlb : gset Entry;
  c_pc : Pc
}.

Definition set_pc (c : Cpu) (pc : Pc) : Cpu :=
  mkCpu (c_active c) (c_request c) (c_ack c) (c_satp c) (c_tlb c) pc.
Definition set_tlb (c : Cpu) (tlb : gset Entry) : Cpu :=
  mkCpu (c_active c) (c_request c) (c_ack c) (c_satp c) tlb (c_pc c).
Definition set_request (c : Cpu) (g : Z) : Cpu :=
  mkCpu (c_active c) g (c_ack c) (c_satp c) (c_tlb c) (c_pc c).

(** The online CPUs, the leaves of all page tables and [TLB_GENERATION]. *)
Record Sys := mkSys {
  cpus : gmap nat Cpu;
  leaves : gmap (Z * Z) Z;
  generation : Z
}.

Definition set_cpu (s : Sys) (i : nat) (c : Cpu) : Sys := mkSys (<[i := c]> (cpus s)) (leaves s) (generation s).

(** ** Switching roots *)

(** The first store of [mark_current_address_space]. *)
Definition mark_current_address_space (c : Cpu) (root : Z) : Cpu :=
  mkCpu root (c_request c) (c_ack c) (c_satp c) (c_tlb c) (MarkStored root).

(** The rest of it, and the change of [satp] that [activate] makes after it. *)
Definition mark_advance (c : Cpu) : option Cpu :=
  match c_pc c with
  | MarkStored root => Some (set_pc c (MarkLoaded root (c_request c)))
  | MarkLoaded root request =>
      if bool_decide (c_ack c = request) then Some (set_pc c (Marked root))
      else Some (set_pc (set_tlb c ∅) (MarkFlushed root request))
  | MarkFlushed root request =>
      Some (mkCpu (c_active c) (c_request c) request (c_satp c) (c_tlb c) (Marked root))
  | Marked root => Some (mkCpu (c_active c) (c_request c) (c_ack c) root (c_tlb c) Running)
  | _ => None
  end.

(** [clear_current_address_space], called by [restore_kernel_page_table] before it
    loads the kernel root. *)
Definition clear_current_address_space (c : Cpu) : Cpu :=
  mkCpu 0 (c_request c) (c_ack c) (c_satp c) (c_tlb c) Cleared.

Definition restore_kernel_root (c : Cpu) : Cpu :=
  mkCpu (c_active c) (c_request c) (c_ack c) 0 (c_tlb c) Running.

(** ** Shootdown *)

(** [online_cpu_mask() & !(1 << current_cpu_index())] as the CPUs in order *)
Definition other_cpus (s : Sys) (i : nat) : list nat :=
  filter (λ j, j ≠ i) (seq 0 MAX_CPUS ≫= λ j, if bool_decide (is_Some (cpus s !! j)) then [j] else []).

(** The steps of [tlb_shootdown_inner] on CPU [i]; [remote_sfence_vma] reaches one CPU
    after the other. *)
Definition tlb_shootdown_advance (s : Sys) (i : nat) (c : Cpu) : option Sys :=
  match c_pc c with
  | LocalFlushed root dead =>
      if bool_decide (root = 0) then Some (set_cpu s i (set_pc c Running))
      else
        let g := wrap (generation s + 1) in
        Some (mkSys (<[i := set_pc c (Storing root dead g (other_cpus s i) (other_cpus s i))]> (cpus s)) (leaves s) g)
  | Storing root dead g (t :: rest) targets =>
      ct ← cpus s !! t;
      Some (set_cpu (set_cpu s t (set_request ct g)) i (set_pc c (Storing root dead g rest targets)))
  | Storing root dead g [] targets => Some (set_cpu s i (set_pc c (Checking root dead targets [])))
  | Checking root dead (t :: rest) kept =>
      ct ← cpus s !! t;
      let kept' := if bool_decide (c_active ct = root) then kept ++ [t] else kept in
      Some (set_cpu s i (set_pc c (Checking root dead rest kept')))
  | Checking root dead [] kept =>
      Some (set_cpu s i (set_pc c (if bool_decide (kept = []) then Running else Fencing root dead kept)))
  | Fencing root dead (t :: rest) =>
      ct ← cpus s !! t;
      Some (set_cpu (set_cpu s t (set_tlb ct ∅)) i (set_pc c (Fencing root dead rest)))
  | Fencing root dead [] => Some (set_cpu s i (set_pc c Running))
  | _ => None
  end.

(** *** The SBI calls

    [cpu_hardware_id] gives the hart of a CPU. *)

Definition hart_mask_base (hw : nat → option Z) (targets : list nat) : Z :=
  foldl (λ base cpu, match hw cpu with Some id => Z.min base id | None => base end) USIZE_MAX targets.

(** The mask relative to [base]; [None] is [mask_fits = false]. *)
Fixpoint hart_mask (hw : nat → option Z) (base mask : Z) (targets : list nat) : option Z :=
  match targets with
  | [] => Some mask
  | cpu :: targets =>
      match hw cpu with
      | Some id =>
          let offset := id - base in
          if bool_decide (64 ≤ offset) then None
          else hart_mask hw base (Z.lor mask (Z.shiftl 1 offset)) targets
      | None => hart_mask hw base mask targets
      end
  end.

(** The [remote_sfence_vma] calls, as pairs of hart mask and mask base. *)
Definition remote_sfence_calls (hw : nat → option Z) (targets : list nat) : list (Z * Z) :=
  let base := hart_mask_base hw targets in
  if bool_decide (base = USIZE_MAX) then []
  else match hart_mask hw base 0 targets with
       | Some mask => [(mask, base)]
       | None => targets ≫= λ cpu, match hw cpu with Some id => [(1, id)] | None => [] end
       end.

(** [flush_tlb_all_cpus]: the local flush, then every other CPU without a request. *)
Definition flush_tlb_all_cpus (s : Sys) (i : nat) (c : Cpu) : Sys :=
  set_cpu s i (set_pc (set_tlb c ∅) (Fencing USIZE_MAX [] (other_cpus s i))).

(** ** Steps of the machine *)

Inductive Action : Type :=
  | Walk (page : Z)
  | Activate (root : Z)
  | Clear
  | MapLeaf (root page frame : Z)
  | UnmapLeaf (root page : Z)
  | FlushLocal
  | FlushAll
  | Advance.

(** The leaves an edit of [root] has removed so far, when [pc] allows to remove more. *)
Definition edit_of (pc : Pc) (root : Z) : option (list Entry) :=
  match pc with
  | Running => Some []
  | Editing root' dead => if bool_decide (root' = root) then Some dead else None
  | _ => None
  end.

Definition is_running (pc : Pc) : bool := match pc with Running => true | _ => false end.

Definition exec (s : Sys) (i : nat) (a : Action) : option Sys :=
  c ← cpus s !! i;
  match a with
  | Walk page =>
      f ← leaves s !! (c_satp c, page);
      Some (set_cpu s i (set_tlb c ({[(c_satp c, page, f)]} ∪ c_tlb c)))
  | Activate root =>
      if is_running (c_pc c) then Some (set_cpu s i (mark_current_address_space c root)) else None
  | Clear => if is_running (c_pc c) then Some (set_cpu s i (clear_current_address_space c)) else None
  | MapLeaf root page frame =>
      if is_running (c_pc c) && bool_decide (leaves s !! (root, page) = None)
      then Some (mkSys (cpus s) (<[(root, page) := frame]> (leaves s)) (generation s)) else None
  | UnmapLeaf root page =>
      dead ← edit_of (c_pc c) root;
      f ← leaves s !! (root, page);
      if bool_decide (root = 0) then None else
      Some (mkSys (<[i := set_pc c (Editing root ((root, page, f) :: dead))]> (cpus s))
        (delete (root, page) (leaves s)) (generation s))
  | FlushLocal =>
      match c_pc c with
      | Editing root dead => Some (set_cpu s i (set_pc (set_tlb c ∅) (LocalFlushed root dead)))
      | _ => None
      end
  | FlushAll => if is_running (c_pc c) then Some (flush_tlb_all_cpus s i c) else None
  | Advance =>
      match mark_advance c with
      | Some c' => Some (set_cpu s i c')
      | None =>
          match c_pc c with
          | Cleared => Some (set_cpu s i (restore_kernel_root c))
          | _ => tlb_shootdown_advance s i c
          end
      end
  end.

Definition sys_step (s s' : Sys) : Prop := ∃ i a, exec s i a = Some s'.

Fixpoint run (s : Sys) (trace : list (nat * Action)) : option Sys :=
  match trace with
  | [] => Some s
  | (i, a) :: trace => s' ← exec s i a; run s' trace
  end.

(** [n] CPUs in the kernel root with empty TLBs. *)
Definition boot (n : nat) : Sys :=
  mkSys (list_to_map ((λ i, (i, mkCpu 0 0 0 0 ∅ Running)) <$> seq 0 n)) ∅ 0.

(** ** The invariant *)

(** The leaves of a shootdown that has not finished. *)
Definition pending (pc : Pc) : list Entry :=
  match pc with
  | Editing _ dead | LocalFlushed _ dead | Storing _ dead _ _ _ | Checking _ dead _ _ | Fencing _ dead _ => dead
  | _ => []
  end.

(** A CPU that is not switching roots. *)
Definition settled_pc (pc : Pc) : bool :=
  match pc with
  | MarkStored _ | MarkLoaded _ _ | MarkFlushed _ _ | Marked _ | Cleared => false
  | _ => true
  end.

(** The request register of the CPU forces a flush before it next runs in a root. *)
Definition owed (c : Cpu) : Prop :=
  match c_pc c with
  | MarkLoaded _ q => q ≠ c_ack c ∨ c_request c ≠ c_ack c
  | MarkFlushed _ q => c_request c ≠ q
  | _ => c_request c ≠ c_ack c
  end.

(** The CPU is not in [root], or the flush comes before it is. *)
Definition away (c : Cpu) (root : Z) : Prop :=
  root ≠ 0 ∧
  (c_active c ≠ root ∨
   match c_pc c with
   | MarkStored _ => True
   | MarkLoaded _ q => q ≠ c_ack c
   | _ => False
   end).

(** The shootdown at [pc] on CPU [i] will still deal with the TLB of CPU [j]. *)
Definition deals (i : nat) (pc : Pc) (j : nat) (cj : Cpu) : Prop :=
  match pc with
  | Editing _ _ => True
  | LocalFlushed _ _ => j ≠ i
  | Storing _ _ _ rest targets => j ∈ targets ∧ (j ∈ rest ∨ owed cj)
  | Checking _ _ rest kept => (j ∈ rest ∧ owed cj) ∨ j ∈ kept
  | Fencing _ _ targets => j ∈ targets
  | _ => False
  end.

Definition covered (s : Sys) (e : Entry) (j : nat) (cj : Cpu) : Prop :=
  ∃ i ci, cpus s !! i = Some ci ∧ e ∈ pending (c_pc ci) ∧ deals i (c_pc ci) j cj.

(** A cached translation is current, dealt with by a shootdown, or out of reach. *)
Definition entry_ok (s : Sys) (j : nat) (cj : Cpu) (e : Entry) : Prop :=
  leaves s !! entry_leaf e = Some e.2 ∨ covered s e j cj ∨ (owed cj ∧ away cj (entry_root e)).

(** The values a CPU may still compare a request with. *)
Definition seen (c : Cpu) : list Z :=
  c_request c :: c_ack c :: match c_pc c with MarkLoaded _ q | MarkFlushed _ q => [q] | _ => [] end.

(** What the code of a CPU keeps true about its own variables. *)
Definition local_ok (s : Sys) (i : nat) (c : Cpu) : Prop :=
  match c_pc c with
  | MarkStored r | MarkLoaded r _ | MarkFlushed r _ | Marked r => c_active c = r
  | Cleared => c_active c = 0
  | _ => c_active c = c_satp c
  end ∧
  match c_pc c with
  | Editing r dead | LocalFlushed r dead => r ≠ 0 ∧ Forall (λ e, entry_root e = r) dead
  | Storing r dead _ rest targets =>
      r ≠ 0 ∧ Forall (λ e, entry_root e = r) dead ∧ NoDup rest ∧ rest ⊆ other_cpus s i ∧ targets = other_cpus s i
  | Checking r dead rest kept => r ≠ 0 ∧ Forall (λ e, entry_root e = r) dead ∧ rest ⊆ other_cpus s i ∧ kept ⊆ other_cpus s i
  | Fencing _ _ targets => targets ⊆ other_cpus s i
  | _ => True
  end.

(** Generations are bounded by the counter, and a request that is still to be stored is
    new to its CPU. *)
Record gen_ok (s : Sys) : Prop := {
  gen_nonneg : 0 ≤ generation s;
  gen_seen : ∀ j c, cpus s !! j = Some c → Forall (λ x, x ≤ generation s) (seen c);
  gen_stored : ∀ i c r d g rest ts, cpus s !! i = Some c → c_pc c = Storing r d g rest ts → g ≤ generation s;
  gen_distinct : ∀ i c r d g rest ts i' c' r' d' g' rest' ts',
    cpus s !! i = Some c → c_pc c = Storing r d g rest ts →
    cpus s !! i' = Some c' → c_pc c' = Storing r' d' g' rest' ts' → g = g' → i = i';
  gen_fresh : ∀ i c r d g rest ts j cj, cpus s !! i = Some c → c_pc c = Storing r d g rest ts →
    j ∈ rest → cpus s !! j = Some cj → g ∉ seen cj
}.

Record sys_inv (s : Sys) : Prop := {
  inv_dom : ∀ i, is_Some (cpus s !! i) → (i < MAX_CPUS)%nat;
  inv_local : ∀ i c, cpus s !! i = Some c → local_ok s i c;
  inv_gen : gen_ok s;
  inv_tlb : ∀ j c e, cpus s !! j = Some c → e ∈ c_tlb c → entry_ok s j c e
}.

(** ** Preservation *)

Lemma elem_of_other_cpus s i j :
  j ∈ other_cpus s i ↔ j ≠ i ∧ (j < MAX_CPUS)%nat ∧ is_Some (cpus s !! j).
Proof.
  unfold other_cpus. rewrite list_elem_of_filter, list_elem_of_bind. split.
  - intros (Hne&k&Hk&Hin). rewrite elem_of_seq in Hin. case_bool_decide; [|by apply not_elem_of_nil in Hk].
    apply list_elem_of_singleton in Hk as ->. split_and!; [done|lia|done].
  - intros (Hne&Hlt&Hs). split; [done|]. exists j. rewrite bool_decide_eq_true_2 by done.
    rewrite list_elem_of_singleton, elem_of_seq. split; [done|lia].
Qed.

Lemma other_cpus_NoDup s i : NoDup (other_cpus s i).
Proof.
  unfold other_cpus. apply NoDup_filter. generalize (NoDup_seq 0 MAX_CPUS). generalize (seq 0 MAX_CPUS).
  induction 1 as [|x l Hx Hl IH]; [constructor|]. rewrite bind_cons. case_bool_decide; [|done].
  simpl. constructor; [|done]. rewrite list_elem_of_bind. intros (k&Hk&Hin).
  case_bool_decide; [|by apply not_elem_of_nil in Hk]. apply list_elem_of_singleton in Hk as ->. done.
Qed.

(** The CPUs online do not change. *)
Lemma other_cpus_dom s s' i : (∀ j, is_Some (cpus s' !! j) ↔ is_Some (cpus s !! j)) → other_cpus s' i = other_cpus s i.
Proof.
  intros Hd. unfold other_cpus. f_equal. apply list_bind_ext; [|done]. intros j.
  by rewrite (bool_decide_ext _ _ (Hd j)).
Qed.

Lemma deals_mono i pc j cj cj' : (owed cj → owed cj') → deals i pc j cj → deals i pc j cj'.
Proof. destruct pc; simpl; tauto. Qed.

(** What a step that leaves the page tables alone must show. *)
Lemma tlb_step s s' i :
  sys_inv s → leaves s' = leaves s →
  (∀ k c', k ≠ i → cpus s' !! k = Some c' → ∃ c, cpus s !! k = Some c ∧ c_pc c' = c_pc c) →
  (∀ k c, k ≠ i → cpus s !! k = Some c → is_Some (cpus s' !! k)) →
  (∀ j c', cpus s' !! j = Some c' → ∃ c, cpus s !! j = Some c ∧ ∀ e, e ∈ c_tlb c' →
     leaves s !! entry_leaf e = Some e.2 ∨
     e ∈ c_tlb c ∧ (owed c → owed c') ∧ (owed c → away c (entry_root e) → away c' (entry_root e))) →
  (∀ ci e j cj cj', cpus s !! i = Some ci → e ∈ pending (c_pc ci) → deals i (c_pc ci) j cj →
     cpus s !! j = Some cj → cpus s' !! j = Some cj' → e ∈ c_tlb cj' → (owed cj → owed cj') → entry_ok s' j cj' e) →
  ∀ j c' e, cpus s' !! j = Some c' → e ∈ c_tlb c' → entry_ok s' j c' e.
Proof.
  intros Hi Hl Hpc Hdom Hloc Hown j c' e Hj He.
  destruct (Hloc j c' Hj) as (c&Hc&Hx). destruct (Hx e He) as [?|(Hin&Ho&Ha)]; [by left; rewrite Hl|].
  destruct (inv_tlb s Hi j c e Hc Hin) as [?|[(k&ck&Hk&Hp&Hd)|[? ?]]]; [by left; rewrite Hl| |right; right; tauto].
  destruct (decide (k = i)) as [->|Hne]; [by eapply Hown|].
  destruct (Hdom k ck Hne Hk) as [ck' Hk']. destruct (Hpc k ck' Hne Hk') as (ck0&Hk0&Hpce).
  rewrite Hk in Hk0. injection Hk0 as <-. right; left. exists k, ck'. rewrite Hpce.
  split; [done|]. split; [done|]. by eapply deals_mono.
Qed.

(** The same for a step that changes only its own CPU. *)
Lemma tlb_step_own s i c c' :
  sys_inv s → cpus s !! i = Some c →
  (∀ e, e ∈ c_tlb c' →
     leaves s !! entry_leaf e = Some e.2 ∨
     e ∈ c_tlb c ∧ (owed c → owed c') ∧ (owed c → away c (entry_root e) → away c' (entry_root e))) →
  (∀ e j cj, e ∈ pending (c_pc c) → deals i (c_pc c) j cj →
     cpus s !! j = Some cj → j ≠ i → entry_ok (set_cpu s i c') j cj e) →
  (∀ e, e ∈ pending (c_pc c) → deals i (c_pc c) i c → e ∈ c_tlb c' → entry_ok (set_cpu s i c') i c' e) →
  ∀ j cj e, cpus (set_cpu s i c') !! j = Some cj → e ∈ c_tlb cj → entry_ok (set_cpu s i c') j cj e.
Proof.
  intros Hi Hc Hloc Hown Hself. apply (tlb_step s _ i Hi); [done| | | |].
  - intros k ck Hne Hk. simpl in Hk. rewrite lookup_insert_ne in Hk by done. by exists ck.
  - intros k ck Hne Hk. simpl. by rewrite lookup_insert_ne.
  - intros j cj Hj. simpl in Hj. destruct (decide (j = i)) as [->|Hne].
    + rewrite lookup_insert_eq in Hj. injection Hj as <-. by exists c.
    + rewrite lookup_insert_ne in Hj by done. exists cj. split; [done|]. intros e He. right. tauto.
  - intros ci e j cj cj' Hci Hp Hd Hj Hj' He Ho. rewrite Hc in Hci. injection Hci as <-. simpl in Hj'.
    destruct (decide (j = i)) as [->|Hne].
    + rewrite lookup_insert_eq in Hj'. injection Hj' as <-. rewrite Hc in Hj. injection Hj as <-. by apply Hself.
    + rewrite lookup_insert_ne in Hj' by done. rewrite Hj in Hj'. injection Hj' as <-. by apply Hown.
Qed.

Lemma local_ok_dom s s' i c :
  (∀ j, is_Some (cpus s' !! j) ↔ is_Some (cpus s !! j)) → local_ok s i c → local_ok s' i c.
Proof.
  intros Hd [Hl1 Hl2]. split; [done|]. destruct (c_pc c); try done; by rewrite (other_cpus_dom s s' i Hd).
Qed.

Lemma target_ne s i t rest : t :: rest ⊆ other_cpus s i → t ≠ i ∧ is_Some (cpus s !! t) ∧ rest ⊆ other_cpus s i.
Proof.
  intros Hs. pose proof (Hs t ltac:(by constructor)) as Ht. apply elem_of_other_cpus in Ht as (?&_&?).
  split; [done|]. split; [done|]. intros x Hx. apply Hs. by constructor.
Qed.

Lemma set_cpu_dom s i c c' : cpus s !! i = Some c → ∀ j, is_Some (cpus (set_cpu s i c') !! j) ↔ is_Some (cpus s !! j).
Proof.
  intros Hc j. simpl. destruct (decide (j = i)) as [->|Hne]; [by rewrite lookup_insert_eq, Hc; split; eauto|].
  by rewrite lookup_insert_ne.
Qed.

(** The requests an own step may still store are those it had to store before. *)
Definition storing_sub (pc' pc : Pc) : Prop :=
  ∀ r d g rest ts, pc' = Storing r d g rest ts →
  ∃ r0 d0 rest0 ts0, pc = Storing r0 d0 g rest0 ts0 ∧ ∀ j, j ∈ rest → j ∈ rest0.

Lemma storing_sub_none pc' pc : (∀ r d g rest ts, pc' ≠ Storing r d g rest ts) → storing_sub pc' pc.
Proof. intros Hn r d g rest ts ->. by destruct (Hn r d g rest ts). Qed.

Lemma gen_step_own s i c c' :
  gen_ok s → cpus s !! i = Some c → (∀ x, x ∈ seen c' → x ∈ seen c) → storing_sub (c_pc c') (c_pc c) →
  gen_ok (set_cpu s i c').
Proof.
  intros [H0 Hs Hst Hd Hf] Hc Hseen Hsub.
  assert (Hback : ∀ k ck r d g rest ts, <[i := c']> (cpus s) !! k = Some ck → c_pc ck = Storing r d g rest ts →
    ∃ ck0 r0 d0 rest0 ts0, cpus s !! k = Some ck0 ∧ c_pc ck0 = Storing r0 d0 g rest0 ts0 ∧ ∀ j, j ∈ rest → j ∈ rest0).
  { intros k ck r d g rest ts Hk Hpc. destruct (decide (k = i)) as [->|Hne].
    - rewrite lookup_insert_eq in Hk. injection Hk as <-. destruct (Hsub _ _ _ _ _ Hpc) as (?&?&?&?&?&?). eauto 10.
    - rewrite lookup_insert_ne in Hk by done. eauto 10. }
  assert (Hseen' : ∀ k ck, <[i := c']> (cpus s) !! k = Some ck → ∃ ck0, cpus s !! k = Some ck0 ∧ ∀ x, x ∈ seen ck → x ∈ seen ck0).
  { intros k ck Hk. destruct (decide (k = i)) as [->|Hne].
    - rewrite lookup_insert_eq in Hk. injection Hk as <-. eauto.
    - rewrite lookup_insert_ne in Hk by done. eauto. }
  split; simpl; [done| | | |].
  - intros k ck Hk. destruct (Hseen' k ck Hk) as (ck0&Hk0&Hx). apply Forall_forall. intros x Hin.
    by apply (proj1 (Forall_forall _ _) (Hs k ck0 Hk0)), Hx.
  - intros k ck r d g rest ts Hk Hpc. destruct (Hback _ _ _ _ _ _ _ Hk Hpc) as (?&?&?&?&?&?&?&?). eauto.
  - intros k ck r d g rest ts k' ck' r' d' g' rest' ts' Hk Hpc Hk' Hpc' ->.
    destruct (Hback _ _ _ _ _ _ _ Hk Hpc) as (?&?&?&?&?&?&?&?).
    destruct (Hback _ _ _ _ _ _ _ Hk' Hpc') as (?&?&?&?&?&?&?&?). eauto.
  - intros k ck r d g rest ts j cj Hk Hpc Hj Hcj Hin.
    destruct (Hback _ _ _ _ _ _ _ Hk Hpc) as (?&?&?&?&?&Hk0&Hpc0&Hsub').
    destruct (Hseen' j cj Hcj) as (cj0&Hcj0&Hx).
    eapply (Hf _ _ _ _ _ _ _ _ _ Hk0 Hpc0 (Hsub' _ Hj) Hcj0). by apply Hx.
Qed.

Lemma inv_set_cpu s i c c' :
  sys_inv s → cpus s !! i = Some c → local_ok s i c' → gen_ok (set_cpu s i c') →
  (∀ j cj e, cpus (set_cpu s i c') !! j = Some cj → e ∈ c_tlb cj → entry_ok (set_cpu s i c') j cj e) →
  sys_inv (set_cpu s i c').
Proof.
  intros Hi Hc Hl Hg Ht. pose proof (set_cpu_dom s i c c' Hc) as Hd. split; [| |done|done].
  - intros j Hj. apply (inv_dom s Hi). by apply Hd.
  - intros j cj Hj. apply (local_ok_dom s _ j cj Hd). simpl in Hj. destruct (decide (j = i)) as [->|Hne].
    + rewrite lookup_insert_eq in Hj. by injection Hj as <-.
    + rewrite lookup_insert_ne in Hj by done. by apply (inv_local s Hi).
Qed.

(** A step of the switching code: no shootdown is in progress on this CPU before or
    after it. *)
Lemma switch_step_inv s i c c' :
  sys_inv s → cpus s !! i = Some c → local_ok s i c' → (∀ x, x ∈ seen c' → x ∈ seen c) →
  pending (c_pc c) = [] → (∀ r d g rest ts, c_pc c' ≠ Storing r d g rest ts) →
  (∀ e, e ∈ c_tlb c' → leaves s !! entry_leaf e = Some e.2 ∨
     e ∈ c_tlb c ∧ (owed c → owed c') ∧ (owed c → away c (entry_root e) → away c' (entry_root e))) →
  sys_inv (set_cpu s i c').
Proof.
  intros Hi Hc Hl Hs Hp Hn Ht. eapply inv_set_cpu; [done|done|done| |].
  - eapply gen_step_own; [apply Hi|done|done|by apply storing_sub_none].
  - eapply tlb_step_own; [done|done|done| |]; intros *; rewrite Hp; by intros ?%not_elem_of_nil.
Qed.

(** The side conditions of a switching step at a known program counter. *)
Ltac switch_step Epc :=
  eapply switch_step_inv; try done; simpl;
  try (unfold seen; rewrite Epc; simpl; set_solver);
  try (by rewrite Epc);
  try (intros e He; right; split; [done|]; unfold owed, away; rewrite Epc; simpl; tauto).

Lemma mark_advance_inv s i c c' :
  sys_inv s → cpus s !! i = Some c → mark_advance c = Some c' → sys_inv (set_cpu s i c').
Proof.
  intros Hi Hc Hm. pose proof (inv_local s Hi i c Hc) as [Hl1 Hl2]. unfold mark_advance in Hm.
  destruct (c_pc c) as [|r|r q|r q|r| | | | | |] eqn:Epc; try done.
  - injection Hm as <-. switch_step Epc.
  - destruct (bool_decide (c_ack c = q)) eqn:Ea; injection Hm as <-; reflect_bools; [|switch_step Epc].
    switch_step Epc. intros e He. right. split; [done|]. unfold owed, away. rewrite Epc. simpl.
    split; [intros [?|?]; congruence|]. intros _ [? [?|?]]; [split; [done|by left]|congruence].
  - injection Hm as <-. switch_step Epc.
  - injection Hm as <-. switch_step Epc.
Qed.

Lemma activate_inv s i c root :
  sys_inv s → cpus s !! i = Some c → c_pc c = Running → sys_inv (set_cpu s i (mark_current_address_space c root)).
Proof. intros Hi Hc Epc. switch_step Epc. Qed.

Lemma clear_inv s i c :
  sys_inv s → cpus s !! i = Some c → c_pc c = Running → sys_inv (set_cpu s i (clear_current_address_space c)).
Proof.
  intros Hi Hc Epc. switch_step Epc. intros e He. right. split; [done|]. unfold owed, away. rewrite Epc. simpl.
  split; [done|]. intros _ [? _]. split; [done|]. left. congruence.
Qed.

Lemma restore_inv s i c :
  sys_inv s → cpus s !! i = Some c → c_pc c = Cleared → sys_inv (set_cpu s i (restore_kernel_root c)).
Proof.
  intros Hi Hc Epc. pose proof (inv_local s Hi i c Hc) as [Hl _]. rewrite Epc in Hl. switch_step Epc.
Qed.

(** A page walk caches a leaf that is there. *)
Lemma walk_inv s i c page f :
  sys_inv s → cpus s !! i = Some c → leaves s !! (c_satp c, page) = Some f →
  sys_inv (set_cpu s i (set_tlb c ({[(c_satp c, page, f)]} ∪ c_tlb c))).
Proof.
  intros Hi Hc Hf. set (c' := set_tlb _ _). eapply inv_set_cpu; [done|done| | |].
  - exact (inv_local s Hi i c Hc).
  - eapply gen_step_own; [apply Hi|done|done|]. intros r d g rest ts Epc. eauto 10.
  - assert (Hcov : ∀ e j cj cj', e ∈ pending (c_pc c) → deals i (c_pc c) j cj → (owed cj → owed cj') →
      entry_ok (set_cpu s i c') j cj' e).
    { intros e j cj cj' Hp Hd Ho. right; left. exists i, c'. simpl. rewrite lookup_insert_eq.
      split; [done|]. split; [done|]. by eapply deals_mono. }
    eapply tlb_step_own; [done|done| | |].
    + intros e He. simpl in He. apply elem_of_union in He as [->%elem_of_singleton|He]; [by left|]. right. tauto.
    + intros e j cj Hp Hd _ _. by apply (Hcov e j cj cj Hp Hd).
    + intros e Hp Hd _. by apply (Hcov e i c c' Hp Hd).
Qed.

(** Steps that change the page tables. *)
Lemma map_leaf_inv s root page frame :
  sys_inv s → leaves s !! (root, page) = None →
  sys_inv (mkSys (cpus s) (<[(root, page) := frame]> (leaves s)) (generation s)).
Proof.
  intros [Hd Hl [] Ht] Hn. split; [done|done|by split|]. intros j c e Hj He.
  destruct (Ht j c e Hj He) as [Hc|[Hc|Hc]]; [left|right; by left|right; by right].
  simpl. rewrite lookup_insert_ne; [done|congruence].
Qed.

Lemma unmap_leaf_inv s i c root page f dead :
  sys_inv s → cpus s !! i = Some c → edit_of (c_pc c) root = Some dead → root ≠ 0 → leaves s !! (root, page) = Some f →
  sys_inv (mkSys (<[i := set_pc c (Editing root ((root, page, f) :: dead))]> (cpus s))
    (delete (root, page) (leaves s)) (generation s)).
Proof.
  intros Hi Hc He Hr Hf. set (c' := set_pc _ _).
  pose proof (inv_local s Hi i c Hc) as [Hl1 Hl2].
  assert (Hpc : (c_active c = c_satp c ∧ Forall (λ e, entry_root e = root) dead) ∧ pending (c_pc c) = dead ∧
    seen c' = seen c ∧ (owed c → owed c') ∧ ∀ r, away c r → away c' r).
  { unfold edit_of, seen, owed, away in *. destruct (c_pc c) as [| | | | | |r d| | | |]; try done.
    - injection He as <-. split; [split; [done|apply Forall_nil_2]|]. done.
    - case_bool_decide; [|done]. subst r. injection He as <-. split; [split; [done|apply Hl2]|]. done. }
  destruct Hpc as ([Ha Hdead]&Hp&Hseen&Ho&Haw).
  assert (Hmid : sys_inv (set_cpu s i c')).
  { eapply inv_set_cpu; [done|done| | |].
    - split; [done|]. split; [done|]. by constructor.
    - eapply gen_step_own; [apply Hi|done|by rewrite Hseen|by apply storing_sub_none].
    - assert (Hcov : ∀ e j cj, e ∈ pending (c_pc c) → entry_ok (set_cpu s i c') j cj e).
      { intros e j cj Hin. right; left. exists i, c'. simpl. rewrite lookup_insert_eq, Hp in *.
        split; [done|]. split; [by constructor|done]. }
      eapply tlb_step_own; [done|done| | |]; [|by auto..].
      intros e Hin. right. split; [done|]. split; [done|]. intros _. apply Haw. }
  destruct Hmid as [Hd Hl [] Ht]. split; [done|done|by split|].
  intros j cj e Hj Hin. destruct (decide (e = (root, page, f))) as [->|Hne].
  { right; left. exists i, c'. simpl. rewrite lookup_insert_eq. split; [done|]. split; [by constructor|done]. }
  destruct (Ht j cj e Hj Hin) as [Hcur|[Hcur|Hcur]]; [left|right; by left|right; by right].
  simpl. simpl in Hcur. rewrite lookup_delete_ne; [done|]. intros Heq. apply Hne.
  destruct e as [[r p] x]. unfold entry_leaf in *. simpl in *. injection Heq as -> ->. congruence.
Qed.

(** Removing translations from a TLB. *)
Lemma shrink_inv s t ct tlb :
  sys_inv s → cpus s !! t = Some ct → tlb ⊆ c_tlb ct → sys_inv (set_cpu s t (set_tlb ct tlb)).
Proof.
  intros Hi Hc Hs. eapply inv_set_cpu; [done|done| | |].
  - exact (inv_local s Hi t ct Hc).
  - eapply gen_step_own; [apply Hi|done|done|]. intros r d g rest ts Epc. eauto 10.
  - assert (Hcov : ∀ e j cj cj', e ∈ pending (c_pc ct) → deals t (c_pc ct) j cj → (owed cj → owed cj') →
      entry_ok (set_cpu s t (set_tlb ct tlb)) j cj' e).
    { intros e j cj cj' Hp Hd Ho. right; left. exists t, (set_tlb ct tlb). simpl. rewrite lookup_insert_eq.
      split; [done|]. split; [done|]. by eapply deals_mono. }
    eapply tlb_step_own; [done|done| | |].
    + intros e He. right. split; [by apply Hs|]. tauto.
    + intros e j cj Hp Hd _ _. by apply (Hcov e j cj cj Hp Hd).
    + intros e Hp Hd _. by apply (Hcov e t ct (set_tlb ct tlb) Hp Hd).
Qed.

(** A step of the shootdown code on CPU [i] that changes only where it is. *)
Lemma shoot_pc_inv s i c pc' :
  sys_inv s → cpus s !! i = Some c → settled_pc (c_pc c) = true → settled_pc pc' = true →
  local_ok s i (set_pc c pc') → storing_sub pc' (c_pc c) →
  (∀ e j cj, e ∈ pending (c_pc c) → deals i (c_pc c) j cj → cpus s !! j = Some cj → e ∈ c_tlb cj →
     (e ∈ pending pc' ∧ deals i pc' j cj) ∨ (owed cj ∧ away cj (entry_root e))) →
  sys_inv (set_cpu s i (set_pc c pc')).
Proof.
  intros Hi Hc Hset Hset' Hl Hst Hown.
  assert (Hsame : (owed c ↔ owed (set_pc c pc')) ∧ (∀ r, away c r ↔ away (set_pc c pc') r) ∧ seen (set_pc c pc') = seen c).
  { unfold owed, away, seen. simpl. by destruct (c_pc c), pc'. }
  destruct Hsame as (Ho&Ha&Hseen).
  assert (Hcov : ∀ e j cj cj', e ∈ pending (c_pc c) → deals i (c_pc c) j cj → cpus s !! j = Some cj → e ∈ c_tlb cj →
    (owed cj → owed cj') → (∀ r, away cj r → away cj' r) → entry_ok (set_cpu s i (set_pc c pc')) j cj' e).
  { intros e j cj cj' Hp Hd Hj He Hoj Haj. destruct (Hown e j cj Hp Hd Hj He) as [[Hp' Hd']|[? ?]]; [|right; right; auto].
    right; left. exists i, (set_pc c pc'). simpl. rewrite lookup_insert_eq. split; [done|]. split; [done|].
    by eapply deals_mono. }
  eapply inv_set_cpu; [done|done|done| |].
  - eapply gen_step_own; [apply Hi|done|by rewrite Hseen|done].
  - apply (tlb_step s _ i Hi); [done| | | |].
    + intros k ck Hne Hk. simpl in Hk. rewrite lookup_insert_ne in Hk by done. by exists ck.
    + intros k ck Hne Hk. simpl. by rewrite lookup_insert_ne.
    + intros j cj Hj. simpl in Hj. destruct (decide (j = i)) as [->|Hne].
      * rewrite lookup_insert_eq in Hj. injection Hj as <-. exists c. split; [done|]. intros e He. right.
        split; [exact He|]. split; [apply Ho|]. intros _. apply Ha.
      * rewrite lookup_insert_ne in Hj by done. exists cj. split; [done|]. intros e He. right. tauto.
    + intros ci e j cj cj' Hci Hp Hd Hj Hj' He Hoj. rewrite Hc in Hci. injection Hci as <-. simpl in Hj'.
      destruct (decide (j = i)) as [->|Hne].
      * rewrite lookup_insert_eq in Hj'. injection Hj' as <-. rewrite Hc in Hj. injection Hj as <-.
        apply (Hcov e i c); [done|done|done|done|apply Ho|intros r; apply Ha].
      * rewrite lookup_insert_ne in Hj' by done. rewrite Hj in Hj'. injection Hj' as <-. by apply (Hcov e j cj).
Qed.

Lemma flush_local_inv s i c root dead :
  sys_inv s → cpus s !! i = Some c → c_pc c = Editing root dead →
  sys_inv (set_cpu s i (set_pc (set_tlb c ∅) (LocalFlushed root dead))).
Proof.
  intros Hi Hc Epc. pose proof (shrink_inv s i c ∅ Hi Hc ltac:(set_solver)) as Hi1.
  pose proof (inv_local s Hi i c Hc) as Hl. unfold local_ok in Hl. rewrite Epc in Hl.
  set (c1 := set_tlb c ∅) in *. set (s1 := set_cpu s i c1) in *.
  assert (Hc1 : cpus s1 !! i = Some c1) by (simpl; by rewrite lookup_insert_eq).
  assert (Heq : set_cpu s i (set_pc c1 (LocalFlushed root dead)) = set_cpu s1 i (set_pc c1 (LocalFlushed root dead))).
  { unfold s1, set_cpu. simpl. by rewrite insert_insert_eq. }
  assert (Epc1 : c_pc c1 = Editing root dead) by done.
  rewrite Heq. apply (shoot_pc_inv s1 i c1); rewrite ?Epc1; [done|done|done|done|exact Hl|by apply storing_sub_none|].
  - intros e j cj Hp _ Hj He. left. split; [done|]. intros ->.
    rewrite Hc1 in Hj. injection Hj as <-. by apply elem_of_empty in He.
Qed.

Lemma flush_all_inv s i c :
  sys_inv s → cpus s !! i = Some c → c_pc c = Running → sys_inv (flush_tlb_all_cpus s i c).
Proof.
  intros Hi Hc Epc. pose proof (inv_local s Hi i c Hc) as [Hl _]. rewrite Epc in Hl.
  unfold flush_tlb_all_cpus. eapply switch_step_inv; try done; simpl.
  - split; [done|]. by intros x.
  - unfold seen. rewrite Epc. simpl. set_solver.
  - by rewrite Epc.
Qed.

(** Posting a request to CPU [t]. *)
Section store_request.
Context (s : Sys) (i : nat) (c : Cpu) (t : nat) (ct : Cpu).
Context (root : Z) (dead : list Entry) (g : Z) (rest targets : list nat).
Context (Hc : cpus s !! i = Some c) (Epc : c_pc c = Storing root dead g (t :: rest) targets).
Context (Ht : cpus s !! t = Some ct) (Hit : t ≠ i).
Let ct' := set_request ct g.
Let c' := set_pc c (Storing root dead g rest targets).
Let s' := set_cpu (set_cpu s t ct') i c'.

Lemma stored_lookup k :
  cpus s' !! k = if decide (k = i) then Some c' else if decide (k = t) then Some ct' else cpus s !! k.
Proof.
  simpl. destruct (decide (k = i)) as [->|]; [by rewrite lookup_insert_eq|].
  rewrite lookup_insert_ne by done. destruct (decide (k = t)) as [->|]; [by rewrite lookup_insert_eq|].
  by rewrite lookup_insert_ne.
Qed.

Lemma stored_dom k : is_Some (cpus s' !! k) ↔ is_Some (cpus s !! k).
Proof using Hc Ht. rewrite stored_lookup. repeat case_decide; subst; rewrite ?Hc, ?Ht; split; eauto. Qed.

Lemma stored_storing k ck r d g' re ts :
  cpus s' !! k = Some ck → c_pc ck = Storing r d g' re ts → t ∉ rest →
  ∃ ck0 r0 d0 re0 ts0, cpus s !! k = Some ck0 ∧ c_pc ck0 = Storing r0 d0 g' re0 ts0 ∧
    (∀ j, j ∈ re → j ∈ re0) ∧ (k = i → t ∉ re).
Proof using Hc Ht Epc.
  intros Hk Hpc Hn. rewrite stored_lookup in Hk. destruct (decide (k = i)) as [->|Hki].
  - injection Hk as <-. injection Hpc as <- <- <- <- <-.
    eexists _, _, _, _, _. split; [exact Hc|]. split; [exact Epc|]. split; [by constructor|done].
  - destruct (decide (k = t)) as [->|]; [injection Hk as <-; exists ct|exists ck];
      exists r, d, re, ts; (split; [done|]); (split; [exact Hpc|]); by split.
Qed.

Lemma stored_seen k ck x :
  cpus s' !! k = Some ck → x ∈ seen ck → (k = t ∧ x = g) ∨ ∃ ck0, cpus s !! k = Some ck0 ∧ x ∈ seen ck0.
Proof using Hc Ht Epc.
  intros Hk Hx. rewrite stored_lookup in Hk. destruct (decide (k = i)) as [->|].
  { injection Hk as <-. right. exists c. split; [done|]. unfold seen in *. rewrite Epc. done. }
  destruct (decide (k = t)) as [->|]; [|eauto]. injection Hk as <-. unfold seen, ct' in Hx. simpl in Hx.
  apply elem_of_cons in Hx as [->|Hx]; [by left|]. right. exists ct. split; [done|]. unfold seen. by constructor.
Qed.

Lemma stored_gen : gen_ok s → t ∉ rest → gen_ok s'.
Proof using Hc Ht Epc.
  intros [G0 Gs Gst Gd Gf] Hn. pose proof (Gst i c _ _ _ _ _ Hc Epc) as Hg. split; [done| | | |].
  - intros k ck Hk. apply Forall_forall. intros x Hx.
    destruct (stored_seen k ck x Hk Hx) as [[_ ->]|(ck0&Hk0&Hx0)]; [done|].
    by apply (proj1 (Forall_forall _ _) (Gs k ck0 Hk0)).
  - intros k ck r d g' re ts Hk Hpc. destruct (stored_storing _ _ _ _ _ _ _ Hk Hpc Hn) as (?&?&?&?&?&?&?&_).
    simpl. eauto.
  - intros k ck r d g1 re ts k' ck' r' d' g2 re' ts' Hk Hpc Hk' Hpc' ->.
    destruct (stored_storing _ _ _ _ _ _ _ Hk Hpc Hn) as (?&?&?&?&?&?&?&_).
    destruct (stored_storing _ _ _ _ _ _ _ Hk' Hpc' Hn) as (?&?&?&?&?&?&?&_). eauto.
  - intros k ck r d g' re ts j cj Hk Hpc Hj Hcj Hx.
    destruct (stored_storing _ _ _ _ _ _ _ Hk Hpc Hn) as (ck0&?&?&re0&?&Hk0&Hpc0&Hsub&Hki).
    destruct (stored_seen j cj g' Hcj Hx) as [[-> ->]|(cj0&Hcj0&Hx0)].
    + destruct (Hki (Gd _ _ _ _ _ _ _ _ _ _ _ _ _ _ Hk0 Hpc0 Hc Epc eq_refl)). done.
    + by apply (Gf _ _ _ _ _ _ _ _ _ Hk0 Hpc0 (Hsub _ Hj) Hcj0).
Qed.

(** The new request differs from everything the CPU has seen. *)
Lemma stored_owed : gen_ok s → owed ct'.
Proof using Hc Ht Epc.
  intros [_ _ _ _ Gf]. assert (Hfresh : g ∉ seen ct) by (eapply Gf; [exact Hc|exact Epc|by constructor|done]).
  unfold owed, ct'. simpl. unfold seen in Hfresh.
  destruct (c_pc ct); simpl in *; rewrite ?not_elem_of_cons in Hfresh; naive_solver.
Qed.

Lemma stored_tlb : sys_inv s → ∀ j cj e, cpus s' !! j = Some cj → e ∈ c_tlb cj → entry_ok s' j cj e.
Proof using Hc Ht Epc Hit.
  intros Hi. pose proof (stored_owed (inv_gen s Hi)) as Howed. apply (tlb_step s _ i Hi); [done| | | |].
  - intros k ck Hne Hk. rewrite stored_lookup, decide_False in Hk by done.
    destruct (decide (k = t)) as [->|]; [injection Hk as <-|]; eauto.
  - intros k ck Hne Hk. apply stored_dom. eauto.
  - intros j cj Hj. rewrite stored_lookup in Hj. destruct (decide (j = i)) as [->|].
    { injection Hj as <-. exists c. split; [done|]. intros e He. right. split; [done|].
      unfold owed, away, c'. rewrite Epc. simpl. tauto. }
    destruct (decide (j = t)) as [->|].
    { injection Hj as <-. exists ct. split; [done|]. intros e He. right. split; [done|]. split; [done|].
      intros _. unfold away, ct'. done. }
    exists cj. split; [done|]. intros e He. right. tauto.
  - intros ci e j cj cj' Hci Hp Hd Hj Hj' He Ho. rewrite Hc in Hci. injection Hci as <-. rewrite Epc in Hp, Hd.
    simpl in Hd. destruct Hd as [Hjt Hd]. right; left. exists i, c'. rewrite stored_lookup, decide_True by done.
    split; [done|]. split; [done|]. simpl. split; [done|]. destruct (decide (j = t)) as [->|Hjt'].
    + right. rewrite stored_lookup, decide_False, decide_True in Hj' by congruence. by injection Hj' as <-.
    + destruct Hd as [Hd|Hd]; [|right; auto]. apply elem_of_cons in Hd as [->|Hd]; [done|by left].
Qed.

Lemma store_request_inv : sys_inv s → sys_inv s'.
Proof using Hc Ht Epc Hit.
  intros Hi. pose proof (inv_local s Hi i c Hc) as [Hl1 Hl2]. rewrite Epc in Hl1, Hl2.
  destruct Hl2 as (Hr&Hdead&Hnd&Hni&Htg). apply NoDup_cons in Hnd as [Hnt Hnd].
  apply target_ne in Hni as (_&_&Hni'). split.
  - intros k Hk. apply (inv_dom s Hi). by apply stored_dom.
  - intros k ck Hk. apply (local_ok_dom s _ k ck stored_dom). rewrite stored_lookup in Hk.
    destruct (decide (k = i)) as [->|]; [injection Hk as <-; by split|].
    destruct (decide (k = t)) as [->|]; [injection Hk as <-; exact (inv_local s Hi t ct Ht)|by apply (inv_local s Hi)].
  - by apply stored_gen; [apply Hi|].
  - by apply stored_tlb.
Qed.

End store_request.

(** Taking a new generation and the list of targets. *)
Section new_generation.
Context (s : Sys) (i : nat) (c : Cpu) (root : Z) (dead : list Entry).
Context (Hc : cpus s !! i = Some c) (Epc : c_pc c = LocalFlushed root dead).
Let g := generation s + 1.
Let c' := set_pc c (Storing root dead g (other_cpus s i) (other_cpus s i)).
Let s' := mkSys (<[i := c']> (cpus s)) (leaves s) g.

Lemma new_gen_storing k ck r d g' re ts :
  cpus s' !! k = Some ck → c_pc ck = Storing r d g' re ts → (k = i ∧ g' = g) ∨ (k ≠ i ∧ cpus s !! k = Some ck).
Proof.
  intros Hk Hpc. simpl in Hk. destruct (decide (k = i)) as [->|].
  - rewrite lookup_insert_eq in Hk. injection Hk as <-. injection Hpc as _ _ <- _ _. by left.
  - rewrite lookup_insert_ne in Hk by done. by right.
Qed.

Lemma new_gen_seen k ck : cpus s' !! k = Some ck → ∃ ck0, cpus s !! k = Some ck0 ∧ seen ck = seen ck0.
Proof using Hc Epc.
  intros Hk. simpl in Hk. destruct (decide (k = i)) as [->|].
  - rewrite lookup_insert_eq in Hk. injection Hk as <-. exists c. split; [done|]. unfold seen, c'. by rewrite Epc.
  - rewrite lookup_insert_ne in Hk by done. eauto.
Qed.

Lemma new_gen_ok : gen_ok s → gen_ok s'.
Proof using Hc Epc.
  intros [G0 Gs Gst Gd Gf].
  assert (Hold : ∀ k ck x, cpus s' !! k = Some ck → x ∈ seen ck → x < g).
  { intros k ck x Hk Hx. destruct (new_gen_seen k ck Hk) as (ck0&Hk0&Hs). rewrite Hs in Hx.
    apply (proj1 (Forall_forall _ _) (Gs k ck0 Hk0)) in Hx. unfold g. lia. }
  split; [simpl; unfold g; lia| | | |].
  - intros k ck Hk. apply Forall_forall. intros x Hx. pose proof (Hold k ck x Hk Hx). simpl. lia.
  - intros k ck r d g' re ts Hk Hpc. simpl.
    destruct (new_gen_storing _ _ _ _ _ _ _ Hk Hpc) as [[_ ->]|[_ Hk']]; [lia|].
    pose proof (Gst _ _ _ _ _ _ _ Hk' Hpc). unfold g. lia.
  - intros k ck r d g1 re ts k' ck' r' d' g2 re' ts' Hk Hpc Hk' Hpc' ->.
    destruct (new_gen_storing _ _ _ _ _ _ _ Hk Hpc) as [[-> Hg]|[_ Hk0]],
      (new_gen_storing _ _ _ _ _ _ _ Hk' Hpc') as [[-> Hg']|[_ Hk0']]; [done| | |by eauto].
    + pose proof (Gst _ _ _ _ _ _ _ Hk0' Hpc'). unfold g in Hg. lia.
    + pose proof (Gst _ _ _ _ _ _ _ Hk0 Hpc). unfold g in Hg'. lia.
  - intros k ck r d g' re ts j cj Hk Hpc Hj Hcj Hx. pose proof (Hold j cj g' Hcj Hx).
    destruct (new_gen_storing _ _ _ _ _ _ _ Hk Hpc) as [[_ ->]|[_ Hk']]; [lia|].
    destruct (new_gen_seen j cj Hcj) as (cj0&Hcj0&Hs). rewrite Hs in Hx. by eapply (Gf k ck).
Qed.

Lemma new_generation_inv : sys_inv s → sys_inv s'.
Proof using Hc Epc.
  intros Hi. pose proof (inv_local s Hi i c Hc) as [Hl1 Hl2]. rewrite Epc in Hl1, Hl2. destruct Hl2 as [Hr Hdead].
  pose proof (set_cpu_dom s i c c' Hc) as Hd. split; [| |by apply new_gen_ok, Hi|].
  - intros j Hj. apply (inv_dom s Hi). by apply Hd.
  - intros j cj Hj. apply (local_ok_dom s _ j cj Hd). simpl in Hj. destruct (decide (j = i)) as [->|Hne].
    + rewrite lookup_insert_eq in Hj. injection Hj as <-. split; [done|]. simpl.
      split; [done|]. split; [done|]. split; [apply other_cpus_NoDup|]. split; [by intros x|done].
    + rewrite lookup_insert_ne in Hj by done. by apply (inv_local s Hi).
  - apply (tlb_step s _ i Hi); [done| | | |].
    + intros k ck Hne Hk. simpl in Hk. rewrite lookup_insert_ne in Hk by done. by exists ck.
    + intros k ck Hne Hk. simpl. by rewrite lookup_insert_ne.
    + intros j cj Hj. simpl in Hj. destruct (decide (j = i)) as [->|Hne].
      * rewrite lookup_insert_eq in Hj. injection Hj as <-. exists c. split; [done|]. intros e He. right.
        split; [exact He|]. unfold owed, away, c'. rewrite Epc. simpl. tauto.
      * rewrite lookup_insert_ne in Hj by done. exists cj. split; [done|]. intros e He. right. tauto.
    + intros ci e j cj cj' Hci Hp Hdl Hj Hj' He Ho. rewrite Hc in Hci. injection Hci as <-. rewrite Epc in Hp, Hdl.
      assert (Hjo : j ∈ other_cpus s i).
      { rewrite elem_of_other_cpus. split; [done|]. split; [|by eexists]. apply (inv_dom s Hi). by eexists. }
      right; left. exists i, c'. simpl. rewrite lookup_insert_eq. split; [done|]. split; [done|]. split; [done|by left].
Qed.

End new_generation.

Lemma shootdown_advance_inv s i c s' :
  sys_inv s → generation s < USIZE_MAX → cpus s !! i = Some c → tlb_shootdown_advance s i c = Some s' → sys_inv s'.
Proof.
  intros Hi Hmax Hc Hs. pose proof (inv_local s Hi i c Hc) as [Hl1 Hl2]. unfold tlb_shootdown_advance in Hs.
  destruct (c_pc c) as [| | | | | | |root dead|root dead g rest ts|root dead rest kept|root dead ts] eqn:Epc; try done.
  - rewrite bool_decide_eq_false_2 in Hs by apply Hl2. injection Hs as <-.
    rewrite (wrap_small (generation s + 1)) by (pose proof (gen_nonneg s (inv_gen s Hi)); unfold is_usize; lia).
    by apply new_generation_inv.
  - destruct rest as [|t rest].
    + injection Hs as <-. destruct Hl2 as (Hr&Hd&Hnd&Hni&->).
      apply shoot_pc_inv; rewrite ?Epc; [done|done|done|done| |by apply storing_sub_none|].
      * split; [done|]. simpl. split; [done|]. split; [done|]. split; [by intros x|]. intros x Hx. by apply not_elem_of_nil in Hx.
      * simpl. intros e j cj Hp [Hj [Hn|Ho]] _ _; [by apply not_elem_of_nil in Hn|]. left. split; [done|by left].
    + destruct (cpus s !! t) as [ct|] eqn:Ht; [|done]. injection Hs as <-.
      destruct (target_ne s i t rest) as [? _]; [apply Hl2|]. by apply store_request_inv.
  - destruct rest as [|t rest].
    + injection Hs as <-. destruct Hl2 as (Hr&Hd&_&Hni). case_bool_decide as Hk.
      * subst kept. apply shoot_pc_inv; rewrite ?Epc; [done|done|done|done|done|by apply storing_sub_none|].
        simpl. intros e j cj _ [[Hn _]|Hn] _ _; by apply not_elem_of_nil in Hn.
      * apply shoot_pc_inv; rewrite ?Epc; [done|done|done|done|done|by apply storing_sub_none|].
        simpl. intros e j cj Hp [[Hn _]|Hn] _ _; [by apply not_elem_of_nil in Hn|]. by left.
    + destruct (cpus s !! t) as [ct|] eqn:Ht; [|done]. injection Hs as <-. destruct Hl2 as (Hr&Hd&Hni&Hnk).
      destruct (target_ne _ _ _ _ Hni) as (Hit&_&Hni').
      apply shoot_pc_inv; rewrite ?Epc; [done|done|done|done| |by apply storing_sub_none|].
      * split; [done|]. simpl. split; [done|]. split; [done|]. split; [done|]. case_bool_decide; [|done].
        intros x. rewrite elem_of_app, list_elem_of_singleton. intros [Hx| ->]; [by apply Hnk|]. apply Hni. by constructor.
      * simpl. intros e j cj Hp [[Hj Ho]|Hj] Hcj _.
        -- apply elem_of_cons in Hj as [->|Hj]; [|left; split; [done|by left]].
           rewrite Ht in Hcj. injection Hcj as <-. case_bool_decide as Ha.
           ++ left. split; [done|]. right. rewrite elem_of_app, list_elem_of_singleton. by right.
           ++ right. split; [done|]. rewrite (proj1 (Forall_forall _ _) Hd e Hp). split; [done|by left].
        -- left. split; [done|]. right. case_bool_decide; [|done]. rewrite elem_of_app. by left.
  - destruct ts as [|t rest].
    + injection Hs as <-. apply shoot_pc_inv; rewrite ?Epc; [done|done|done|done|done|by apply storing_sub_none|].
      simpl. intros e j cj _ Hn. by apply not_elem_of_nil in Hn.
    + destruct (cpus s !! t) as [ct|] eqn:Ht; [|done]. injection Hs as <-.
      destruct (target_ne _ _ _ _ Hl2) as (Hit&_&Hni).
      pose proof (shrink_inv s t ct ∅ Hi Ht ltac:(set_solver)) as Hi1. set (s1 := set_cpu s t (set_tlb ct ∅)) in *.
      assert (Hc1 : cpus s1 !! i = Some c) by (simpl; by rewrite lookup_insert_ne).
      apply shoot_pc_inv; rewrite ?Epc; [done|done|done|done| |by apply storing_sub_none|].
      { apply (local_ok_dom s s1 i); [by eapply set_cpu_dom|]. by split. }
      intros e j cj Hp Hj Hcj He. simpl in Hj. apply elem_of_cons in Hj as [->|Hj]; [|by left].
      simpl in Hcj. rewrite lookup_insert_eq in Hcj. injection Hcj as <-. by apply elem_of_empty in He.
Qed.

Lemma exec_inv s i a s' : sys_inv s → generation s < USIZE_MAX → exec s i a = Some s' → sys_inv s'.
Proof.
  intros Hi Hmax Hs. unfold exec in Hs. destruct (cpus s !! i) as [c|] eqn:Hc; [|done]. simpl in Hs.
  destruct a as [page|root| |root page frame|root page| | |].
  - destruct (leaves s !! _) as [f|] eqn:Hf; [|done]. injection Hs as <-. by apply walk_inv.
  - destruct (c_pc c) eqn:Epc; try done. injection Hs as <-. by apply activate_inv.
  - destruct (c_pc c) eqn:Epc; try done. injection Hs as <-. by apply clear_inv.
  - destruct (is_running _ && _) eqn:E; [|done]. injection Hs as <-. reflect_bools. by apply map_leaf_inv.
  - destruct (edit_of _ _) as [dead|] eqn:E; [|done]. simpl in Hs.
    destruct (leaves s !! _) as [f|] eqn:Hf; [|done]. simpl in Hs. case_bool_decide; [done|]. injection Hs as <-.
    by apply unmap_leaf_inv.
  - destruct (c_pc c) eqn:Epc; try done. injection Hs as <-. by apply flush_local_inv.
  - destruct (c_pc c) eqn:Epc; try done. injection Hs as <-. by apply flush_all_inv.
  - destruct (mark_advance c) as [c'|] eqn:Em; [injection Hs as <-; by eapply mark_advance_inv|].
    destruct (c_pc c) eqn:Epc; try (by eapply shootdown_advance_inv). injection Hs as <-. by apply restore_inv.
Qed.

Lemma boot_inv n : (n ≤ MAX_CPUS)%nat → sys_inv (boot n).
Proof.
  intros Hn.
  assert (Hc : ∀ i c, cpus (boot n) !! i = Some c → (i < n)%nat ∧ c = mkCpu 0 0 0 0 ∅ Running).
  { intros i c Hi. simpl in Hi. apply elem_of_list_to_map_2, list_elem_of_fmap in Hi as (k&[= -> ->]&Hk).
    rewrite elem_of_seq in Hk. split; [lia|done]. }
  split; [| |split|].
  - intros i [c Hi]. apply Hc in Hi as [? _]. lia.
  - intros i c Hi. by apply Hc in Hi as [_ ->].
  - simpl. lia.
  - intros j c Hi. apply Hc in Hi as [_ ->]. repeat constructor; simpl; lia.
  - intros i c r d g re ts Hi. by apply Hc in Hi as [_ ->].
  - intros i c r d g re ts i' c' r' d' g' re' ts' Hi. by apply Hc in Hi as [_ ->].
  - intros i c r d g re ts j cj Hi. by apply Hc in Hi as [_ ->].
  - intros j c e Hi He. apply Hc in Hi as [_ ->]. by apply elem_of_empty in He.
Qed.

(** Case analysis on the branches of an operation that returned. *)
Ltac branches H :=
  repeat match type of H with
  | (_ ≫= _) = Some _ => apply bind_Some in H as (?&?&H)
  | (if ?b then _ else _) = Some _ => destruct b
  | match ?x with _ => _ end = Some _ => destruct x
  | None = Some _ => done
  | Some _ = Some _ => injection H as <-
  end.

Lemma shootdown_generation s i c s' :
  tlb_shootdown_advance s i c = Some s' → generation s' = generation s ∨ generation s' = wrap (generation s + 1).
Proof. intros H. unfold tlb_shootdown_advance in H. branches H; auto. Qed.

(** A step counts at most one generation. *)
Lemma exec_generation s i a s' :
  0 ≤ generation s < USIZE_MAX → exec s i a = Some s' → generation s ≤ generation s' ≤ generation s + 1.
Proof.
  intros Hg Hs. assert (Hw : wrap (generation s + 1) = generation s + 1) by (apply wrap_small; unfold is_usize; lia).
  assert (generation s' = generation s ∨ generation s' = wrap (generation s + 1)); [|lia].
  unfold exec in Hs. branches Hs; eauto using shootdown_generation.
Qed.

(** Within the range of the generation counter every reachable state has the invariant. *)
Lemma reachable_inv n k s :
  (k ≤ MAX_CPUS)%nat → nsteps sys_step n (boot k) s → Z.of_nat n ≤ USIZE_MAX →
  sys_inv s ∧ 0 ≤ generation s ≤ Z.of_nat n.
Proof.
  intros Hk Hsteps. revert s Hsteps. induction n as [|n IH]; intros s Hsteps Hn.
  - inversion Hsteps; subst. split; [by apply boot_inv|done].
  - apply nsteps_inv_r in Hsteps as (s1&Hs1&i&a&He). destruct (IH s1 Hs1 ltac:(lia)) as [Hi Hg].
    split; [eapply exec_inv; [exact Hi|lia|exact He]|].
    assert (Hb : 0 ≤ generation s1 < USIZE_MAX) by lia.
    pose proof (exec_generation _ _ _ _ Hb He). lia.
Qed.

(** ** Wait-freedom *)

(** The steps the shootdown at [pc] still takes among [n] other CPUs. *)
Definition shoot_steps (n : nat) (pc : Pc) : nat :=
  match pc with
  | LocalFlushed _ _ => 3 * n + 4
  | Storing _ _ _ rest targets => length rest + 2 * length targets + 3
  | Checking _ _ rest kept => 2 * length rest + length kept + 2
  | Fencing _ _ targets => length targets + 1
  | _ => 0
  end.

Definition shooting (pc : Pc) : bool :=
  match pc with LocalFlushed _ _ | Storing _ _ _ _ _ | Checking _ _ _ _ | Fencing _ _ _ => true | _ => false end.

Lemma shoot_progress s i c :
  sys_inv s → cpus s !! i = Some c → shooting (c_pc c) = true →
  ∃ s' c', exec s i Advance = Some s' ∧ cpus s' !! i = Some c' ∧ (shooting (c_pc c') = true ∨ c_pc c' = Running) ∧
    (shoot_steps (length (other_cpus s i)) (c_pc c') < shoot_steps (length (other_cpus s i)) (c_pc c))%nat.
Proof.
  intros Hi Hc Hsh. pose proof (inv_local s Hi i c Hc) as [_ Hl].
  unfold exec. rewrite Hc. simpl. unfold mark_advance, tlb_shootdown_advance.
  destruct (c_pc c) as [| | | | | | |root dead|root dead g rest ts|root dead rest kept|root dead ts]; try done; simpl.
  - rewrite bool_decide_eq_false_2 by apply Hl. eexists _, _. split; [reflexivity|]. simpl. rewrite lookup_insert_eq.
    split; [reflexivity|]. split; [by left|]. simpl. lia.
  - destruct rest as [|t rest]; [|destruct Hl as (_&_&_&Hsub&_); apply target_ne in Hsub as (_&[ct ->]&_); simpl];
      (eexists _, _; split; [reflexivity|]; simpl; rewrite lookup_insert_eq; split; [reflexivity|];
       split; [by left|]; simpl; lia).
  - destruct rest as [|t rest]; [|destruct Hl as (_&_&Hsub&_); apply target_ne in Hsub as (_&[ct ->]&_); simpl];
      (eexists _, _; split; [reflexivity|]; simpl; rewrite lookup_insert_eq; split; [reflexivity|]).
    + case_bool_decide; simpl; (split; [by eauto|lia]).
    + split; [by left|]. simpl. case_bool_decide; rewrite ?length_app; simpl; lia.
  - destruct ts as [|t rest]; [|apply target_ne in Hl as (_&[ct ->]&_); simpl];
      (eexists _, _; split; [reflexivity|]; simpl; rewrite lookup_insert_eq; split; [reflexivity|]);
      (split; [by eauto|simpl; lia]).
Qed.

(** Other CPUs cannot move it. *)
Lemma exec_other_pc s i j a s' c :
  exec s j a = Some s' → j ≠ i → cpus s !! i = Some c → ∃ c', cpus s' !! i = Some c' ∧ c_pc c' = c_pc c.
Proof.
  intros Hs Hne Hc.
  assert (Hset : ∀ s0 k ck ck0, cpus s0 !! k = Some ck0 → c_pc ck = c_pc ck0 →
    ∀ c0, cpus s0 !! i = Some c0 → ∃ c1, <[k := ck]> (cpus s0) !! i = Some c1 ∧ c_pc c1 = c_pc c0).
  { intros s0 k ck ck0 Hk Hpc c0 Hc0. destruct (decide (k = i)) as [->|].
    - rewrite lookup_insert_eq. exists ck. split; [done|]. congruence.
    - rewrite lookup_insert_ne by done. eauto. }
  unfold exec, tlb_shootdown_advance in Hs. branches Hs; simpl; rewrite ?lookup_insert_ne by done; eauto;
    (eapply Hset; [eassumption|reflexivity|eassumption]).
Qed.

(** ** Harts reached by the SBI calls *)

(** The harts a call of [remote_sfence_vma] addresses. *)
Definition addressed (calls : list (Z * Z)) (h : Z) : Prop :=
  ∃ m b, (m, b) ∈ calls ∧ b ≤ h ∧ Z.testbit m (h - b) = true.

Section harts.
Context (hw : nat → option Z).

Lemma hart_mask_base_le targets acc t h :
  t ∈ targets → hw t = Some h →
  foldl (λ base cpu, match hw cpu with Some id => Z.min base id | None => base end) acc targets ≤ h.
Proof.
  assert (Hle : ∀ l a, foldl (λ base cpu, match hw cpu with Some id => Z.min base id | None => base end) a l ≤ a).
  { induction l as [|x l IH]; intros a; simpl; [done|]. etrans; [apply IH|]. destruct (hw x); lia. }
  revert acc. induction targets as [|x l IH]; intros acc Hin Hh; [by apply not_elem_of_nil in Hin|]. simpl.
  apply elem_of_cons in Hin as [->|Hin]; [|by apply IH]. rewrite Hh. etrans; [apply Hle|]. lia.
Qed.

Lemma hart_mask_spec base targets mask m :
  (∀ t h, t ∈ targets → hw t = Some h → base ≤ h) → hart_mask hw base mask targets = Some m →
  ∀ k, 0 ≤ k → Z.testbit m k = true ↔ Z.testbit mask k = true ∨ ∃ t h, t ∈ targets ∧ hw t = Some h ∧ h = base + k.
Proof.
  revert mask. induction targets as [|x l IH]; intros mask Hb Hm k Hk; simpl in Hm.
  { injection Hm as ->. split; [by left|]. intros [?|(t&_&Ht&_)]; [done|by apply not_elem_of_nil in Ht]. }
  assert (Hb' : ∀ t h, t ∈ l → hw t = Some h → base ≤ h) by (intros t h Ht; apply Hb; by constructor).
  setoid_rewrite elem_of_cons. destruct (hw x) as [id|] eqn:Hx.
  - case_bool_decide as Ho; [done|]. pose proof (Hb x id ltac:(by constructor) Hx) as Hid.
    rewrite (IH _ Hb' Hm k Hk), Z.lor_spec, orb_true_iff, Z.shiftl_spec by done.
    assert (Hbit : Z.testbit 1 (k - (id - base)) = true ↔ id = base + k).
    { split.
      - intros Ht. destruct (decide (k - (id - base) = 0)); [lia|]. destruct (decide (k < id - base)).
        + rewrite Z.testbit_neg_r in Ht by lia. done.
        + rewrite (Z.bits_above_log2 1) in Ht; [done|lia|]. change (Z.log2 1) with 0. lia.
      - intros ->. by replace (k - (base + k - base)) with 0 by lia. }
    rewrite Hbit. naive_solver.
  - rewrite (IH _ Hb' Hm k Hk). naive_solver.
Qed.

Lemma remote_sfence_calls_ok targets h :
  (∀ t h, hw t = Some h → 0 ≤ h < USIZE_MAX) →
  addressed (remote_sfence_calls hw targets) h ↔ ∃ t, t ∈ targets ∧ hw t = Some h.
Proof.
  intros Hhw. unfold remote_sfence_calls, addressed. set (base := hart_mask_base hw targets).
  assert (Hb : ∀ t h, t ∈ targets → hw t = Some h → base ≤ h) by (intros; by eapply hart_mask_base_le).
  case_bool_decide as Hbase.
  { split; [by intros (m&b&Hin%not_elem_of_nil&_)|]. intros (t&Ht&Hh). pose proof (Hb t h Ht Hh).
    pose proof (Hhw t h Hh). lia. }
  destruct (hart_mask hw base 0 targets) as [m|] eqn:Em.
  - pose proof (hart_mask_spec base targets 0 m Hb Em) as Hspec. split.
    + intros (m'&b&Hin&Hle&Hbit). apply list_elem_of_singleton in Hin as [= -> ->].
      apply Hspec in Hbit as [Hz|(t&h'&Ht&Hh&->)]; [by rewrite Z.bits_0 in Hz| |lia].
      exists t. split; [done|]. by replace h with (base + (h - base)) by lia.
    + intros (t&Ht&Hh). pose proof (Hb t h Ht Hh). exists m, base. rewrite list_elem_of_singleton.
      split; [done|]. split; [done|]. apply Hspec; [lia|]. right. exists t, h. split; [done|]. split; [done|lia].
  - split.
    + intros (m&b&Hin&Hle&Hbit). apply list_elem_of_bind in Hin as (t&Hin&Ht). exists t. split; [done|].
      destruct (hw t) as [id|]; [|by apply not_elem_of_nil in Hin].
      apply list_elem_of_singleton in Hin as [= -> ->]. f_equal.
      destruct (decide (h = id)) as [|Hne]; [done|]. rewrite (Z.bits_above_log2 1) in Hbit; [done|lia|].
      change (Z.log2 1) with 0. lia.
    + intros (t&Ht&Hh). exists 1, h. split; [|split; [lia|]].
      * apply list_elem_of_bind. exists t. rewrite Hh. by rewrite list_elem_of_singleton.
      * by rewrite Z.sub_diag.
Qed.

End harts.

(** ** Theorems *)


(** A shootdown waits for nobody: in every reachable state a CPU inside a shootdown can
    take its next step, each step brings it nearer to the end, at most three steps per other
    CPU and four more are left, and no step of another CPU sets it back. *)
Theorem tlb_shootdown_wait_free n k s i c :
  (k ≤ MAX_CPUS)%nat → nsteps sys_step n (boot k) s → Z.of_nat n ≤ USIZE_MAX →
  cpus s !! i = Some c → shooting (c_pc c) = true →
  (∃ s' c', exec s i Advance = Some s' ∧ cpus s' !! i = Some c' ∧ (shooting (c_pc c') = true ∨ c_pc c' = Running) ∧
     (shoot_steps (length (other_cpus s i)) (c_pc c') < shoot_steps (length (other_cpus s i)) (c_pc c))%nat) ∧
  (∀ j a s', j ≠ i → exec s j a = Some s' → ∃ c', cpus s' !! i = Some c' ∧ c_pc c' = c_pc c).
Proof.
  intros Hk Hs Hn Hc Hsh. destruct (reachable_inv n k s Hk Hs Hn) as [Hi _].
  split; [by apply shoot_progress|]. intros j a s' Hne He. by eapply exec_other_pc.
Qed.

(** The SBI fence calls reach exactly the harts of the target CPUs, whether they fit
    one 64-bit hart mask or not. *)
Theorem remote_sfence_reaches_targets hw targets h :
  (∀ t h, hw t = Some h → 0 ≤ h < USIZE_MAX) →
  addressed (remote_sfence_calls hw targets) h ↔ ∃ t, t ∈ targets ∧ hw t = Some h.
Proof. apply remote_sfence_calls_ok. Qed.

(** ** A concrete interleaving *)

Lemma run_nsteps s tr s' : run s tr = Some s' → nsteps sys_step (length tr) s s'.
Proof.
  revert s. induction tr as [|[i a] tr IH]; intros s Hr; simpl in Hr; [injection Hr as <-; constructor|].
  destruct (exec s i a) as [s1|] eqn:E; [|done]. apply (nsteps_l _ _ _ s1); [by exists i, a|by apply IH].
Qed.

(** CPU 1 caches a leaf that CPU 0 then removes; CPU 0 has posted its request. *)
Definition demo_trace : list (nat * Action) :=
  [(0, MapLeaf 7 1 42); (1, Activate 7); (1, Advance); (1, Advance); (1, Advance); (1, Walk 1);
   (0, UnmapLeaf 7 1); (0, FlushLocal); (0, Advance); (0, Advance)]%nat.

Definition demo_sys : Sys := match run (boot 2) demo_trace with Some s => s | None => boot 2 end.

Lemma demo_run : nsteps sys_step (length demo_trace) (boot 2) demo_sys.
Proof. apply run_nsteps. vm_compute. reflexivity. Qed.

Definition demo_cpu0 : Cpu := mkCpu 0 0 0 0 ∅ (Storing 7 [(7, 1, 42)] 1 [] [1%nat]).
Definition demo_cpu1 : Cpu := mkCpu 7 1 0 7 {[(7, 1, 42)]} Running.


Lemma tlb_shootdown_wait_free_witness :
  ∃ s' c', exec demo_sys 0 Advance = Some s' ∧ cpus s' !! 0%nat = Some c' ∧
    (shoot_steps 1 (c_pc c') < shoot_steps 1 (c_pc demo_cpu0))%nat.
Proof.
  destruct (tlb_shootdown_wait_free (length demo_trace) 2 demo_sys 0 demo_cpu0) as [(s'&c'&He&Hc&_&Hlt) _].
  - vm_compute. lia.
  - exact demo_run.
  - vm_compute. congruence.
  - vm_compute. reflexivity.
  - reflexivity.
  - exists s', c'. split; [exact He|]. split; [exact Hc|exact Hlt].
Defined.

(** Hart numbers too far apart for one mask. *)
Definition demo_harts (t : nat) : option Z := if (t <? 12)%nat then Some (Z.of_nat t * 40) else None.

Lemma remote_sfence_reaches_targets_witness :
  addressed (remote_sfence_calls demo_harts [1; 3]%nat) 120.
Proof.
  apply (remote_sfence_reaches_targets demo_harts).
  - intros t h. unfold demo_harts. destruct (Nat.ltb_spec t 12); [|done]. intros [= <-]. unfold USIZE_MAX. lia.
  - exists 3%nat. split; [by repeat constructor|reflexivity].
Defined.
