(* ===== verification/Asid.v ===== *)
(** * Address-space identifiers (src/os/src/mm/memory_set.rs)

    [AsidAllocator] hands out the identifiers that tag the translations of an address
    space.  An identifier returns when its [MemorySet] is dropped, but is reused only
    after [flush_tlb_all_cpus] has emptied the TLB of every CPU.  The flush runs without
    the allocator's lock, so allocations, drops and flushes interleave; the model has one
    step per critical section and one per CPU flushed. *)

From S2P Require Import Prelude.

(** ** The allocator *)

Record AsidAllocator := mkAsid {
  max_asid : Z;
  next_asid : Z;
  reusable : list Z;
  retired : list Z
}.

(** [AsidAllocator::new]; [hardware_max_asid] is what [PageTable::max_asid] probes. *)
Definition asid_new (hardware_max_asid : Z) : AsidAllocator := mkAsid hardware_max_asid 1 [] [].

(** [Vec::pop] *)
Definition vec_pop {A} (v : list A) : option (list A * A) :=
  match reverse v with [] => None | x :: r => Some (reverse r, x) end.

Definition allocate_without_recycling (a : AsidAllocator) : AsidAllocator * option Z :=
  match vec_pop (reusable a) with
  | Some (r, asid) => (mkAsid (max_asid a) (next_asid a) r (retired a), Some asid)
  | None =>
      if bool_decide (next_asid a ≤ max_asid a)
      then (mkAsid (max_asid a) (wrap (next_asid a + 1)) (reusable a) (retired a), Some (next_asid a))
      else (a, None)
  end.

(** The first critical section of [allocate_address_space_id]: an identifier, or the
    retired ones to recycle. *)
Definition allocate_begin (a : AsidAllocator) : AsidAllocator * (Z + list Z) :=
  match allocate_without_recycling a with
  | (a', Some asid) => (a', inl asid)
  | (a', None) => (mkAsid (max_asid a') (next_asid a') (reusable a') [], inr (retired a'))
  end.

(** The second critical section, after the flush. *)
Definition allocate_finish (a : AsidAllocator) (recycled : list Z) : AsidAllocator * Z :=
  let a := mkAsid (max_asid a) (next_asid a) (reusable a ++ recycled) (retired a) in
  match allocate_without_recycling a with
  | (a', Some asid) => (a', asid)
  | (a', None) => (a', 0)
  end.

(** The whole function when nothing interleaves; [flush] is [flush_tlb_all_cpus]. *)
Definition allocate_address_space_id {T} (flush : T → T) (a : AsidAllocator) (tlb : T) : AsidAllocator * T * Z :=
  match allocate_begin a with
  | (a', inl asid) => (a', tlb, asid)
  | (a', inr []) => (a', tlb, 0)
  | (a', inr recycled) => let '(a'', asid) := allocate_finish a' recycled in (a'', flush tlb, asid)
  end.

Definition retire_address_space_id (a : AsidAllocator) (asid : Z) : AsidAllocator :=
  if bool_decide (asid = 0) then a
  else mkAsid (max_asid a) (next_asid a) (reusable a) (retired a ++ [asid]).

(** ** Interleavings *)

(** The live address spaces and their identifiers; the allocations between their two
    critical sections, with the CPUs their flush has not reached; and which space each
    tagged translation in each CPU's TLB was loaded from.  Space numbers are not reused. *)
Record AsidSys := mkAsys {
  allocator : AsidAllocator;
  spaces : gmap nat Z;
  next_space : nat;
  flights : gmap nat (list Z * list nat);
  tags : gset (nat * Z * nat)
}.

Inductive AsidAction : Type :=
  | Create
  | FlushCpu (flight cpu : nat)
  | Finish (flight : nat)
  | DropSpace (space : nat)
  | UseSpace (cpu space : nat).

Definition add_space (s : AsidSys) (a : AsidAllocator) (space : nat) (asid : Z) : AsidSys :=
  mkAsys a (<[space := asid]> (spaces s)) (next_space s) (flights s) (tags s).

(** One step; [n] CPUs are online.  A space under construction is known by its number. *)
Definition asid_exec (n : nat) (s : AsidSys) (act : AsidAction) : option AsidSys :=
  match act with
  | Create =>
      let o := next_space s in
      let s1 := mkAsys (allocator s) (spaces s) (S o) (flights s) (tags s) in
      match allocate_begin (allocator s) with
      | (a', inl asid) => Some (add_space s1 a' o asid)
      | (a', inr []) => Some (add_space s1 a' o 0)
      | (a', inr recycled) =>
          Some (mkAsys a' (spaces s) (S o) (<[o := (recycled, seq 0 n)]> (flights s)) (tags s))
      end
  | FlushCpu k cpu =>
      p ← flights s !! k;
      let '(recycled, rest) := (p : list Z * list nat) in
      Some (mkAsys (allocator s) (spaces s) (next_space s)
        (<[k := (recycled, filter (λ x, x ≠ cpu) rest)]> (flights s))
        (filter (λ t : nat * Z * nat, t.1.1 ≠ cpu) (tags s)))
  | Finish k =>
      p ← flights s !! k;
      let '(recycled, rest) := (p : list Z * list nat) in
      if bool_decide (rest = []) then
        let '(a', asid) := allocate_finish (allocator s) recycled in
        Some (mkAsys a' (<[k := asid]> (spaces s)) (next_space s) (delete k (flights s)) (tags s))
      else None
  | DropSpace o =>
      asid ← spaces s !! o;
      Some (mkAsys (retire_address_space_id (allocator s) asid) (delete o (spaces s)) (next_space s)
        (flights s) (tags s))
  | UseSpace cpu o =>
      asid ← spaces s !! o;
      if bool_decide (cpu < n)%nat
      then Some (mkAsys (allocator s) (spaces s) (next_space s) (flights s) ({[(cpu, asid, o)]} ∪ tags s))
      else None
  end.

Definition asid_step (n : nat) (s s' : AsidSys) : Prop := ∃ act, asid_exec n s act = Some s'.

Definition asid_boot (hardware_max_asid : Z) : AsidSys := mkAsys (asid_new hardware_max_asid) ∅ 0 ∅ ∅.

Fixpoint asid_run (n : nat) (s : AsidSys) (acts : list AsidAction) : option AsidSys :=
  match acts with
  | [] => Some s
  | act :: acts => s' ← asid_exec n s act; asid_run n s' acts
  end.

(** ** The invariant *)

(** The non-zero identifiers of the live spaces. *)
Definition live_ids (m : gmap nat Z) : list Z := filter (λ a, a ≠ 0) (map_to_list m).*2.

Definition flight_ids (m : gmap nat (list Z * list nat)) : list Z := mjoin ((map_to_list m).*2.*1).

(** Every identifier given out so far is in exactly one place. *)
Record asid_inv (n : nat) (s : AsidSys) : Prop := {
  ai_range : 1 ≤ next_asid (allocator s) ≤ max_asid (allocator s) + 1;
  ai_max : 0 ≤ max_asid (allocator s) ≤ 0xffff;
  ai_ids : live_ids (spaces s) ++ reusable (allocator s) ++ retired (allocator s) ++ flight_ids (flights s) ≡ₚ
    seqZ 1 (next_asid (allocator s) - 1);
  ai_spaces : ∀ o, is_Some (spaces s !! o) → (o < next_space s)%nat ∧ flights s !! o = None;
  ai_flights : ∀ k, is_Some (flights s !! k) → (k < next_space s)%nat;
  ai_tags : ∀ c a o, (c, a, o) ∈ tags s → (c < n)%nat ∧ (a ≠ 0 →
    spaces s !! o = Some a ∨ a ∈ retired (allocator s) ∨
    ∃ k v rest, flights s !! k = Some (v, rest) ∧ a ∈ v ∧ c ∈ rest)
}.

Lemma vec_pop_Some {A} (v r : list A) x : vec_pop v = Some (r, x) ↔ v = r ++ [x].
Proof.
  unfold vec_pop. split.
  - destruct (reverse v) as [|y r'] eqn:E; [done|]. intros [= <- <-].
    by rewrite <-(reverse_involutive v), E, reverse_cons.
  - intros ->. by rewrite reverse_app, reverse_singleton; simpl; rewrite reverse_involutive.
Qed.

Lemma vec_pop_None {A} (v : list A) : vec_pop v = None ↔ v = [].
Proof.
  unfold vec_pop. split; [|by intros ->]. destruct (reverse v) as [|y r'] eqn:E; [|done]. intros _.
  by rewrite <-(reverse_involutive v), E.
Qed.

(** What an allocation takes. *)
Lemma allocate_without_recycling_ok a :
  1 ≤ next_asid a ≤ max_asid a + 1 → 0 ≤ max_asid a ≤ 0xffff →
  let '(a', o) := allocate_without_recycling a in
  max_asid a' = max_asid a ∧ retired a' = retired a ∧ 1 ≤ next_asid a' ≤ max_asid a + 1 ∧
  match o with
  | Some asid => ∀ l, l ++ reusable a ≡ₚ seqZ 1 (next_asid a - 1) →
      asid :: l ++ reusable a' ≡ₚ seqZ 1 (next_asid a' - 1)
  | None => a' = a ∧ reusable a = [] ∧ next_asid a = max_asid a + 1
  end.
Proof.
  intros Hr Hm. unfold allocate_without_recycling. destruct (vec_pop (reusable a)) as [[r x]|] eqn:E.
  - apply vec_pop_Some in E. simpl. split_and!; [done|done|lia|lia|]. intros l Hl. rewrite <-Hl, E.
    by rewrite app_assoc, <-Permutation_cons_append.
  - apply vec_pop_None in E. case_bool_decide; simpl.
    + rewrite wrap_small by (unfold is_usize, USIZE_MAX; lia). split_and!; [done|done|lia|lia|].
      intros l Hl. rewrite E, app_nil_r in *. replace (next_asid a + 1 - 1) with (next_asid a - 1 + 1) by lia.
      rewrite seqZ_app by lia. replace (1 + (next_asid a - 1)) with (next_asid a) by lia.
      rewrite Permutation_cons_append. by rewrite Hl.
    + split_and!; [done|done|lia|lia|done|done|lia].
Qed.

Definition nonzero_id (a : Z) : list Z := if bool_decide (a = 0) then [] else [a].

Lemma live_ids_insert m o a : m !! o = None → live_ids (<[o := a]> m) ≡ₚ nonzero_id a ++ live_ids m.
Proof.
  intros Hn. unfold live_ids, nonzero_id. rewrite map_to_list_insert by done. rewrite fmap_cons, filter_cons. simpl.
  by case_decide; case_bool_decide.
Qed.

Lemma live_ids_delete m o a : m !! o = Some a → live_ids m ≡ₚ nonzero_id a ++ live_ids (delete o m).
Proof.
  intros Hs. rewrite <-(live_ids_insert (delete o m) o a) by apply lookup_delete_eq. by rewrite insert_delete_id.
Qed.

Lemma flight_ids_insert m k v rest : m !! k = None → flight_ids (<[k := (v, rest)]> m) ≡ₚ v ++ flight_ids m.
Proof. intros Hn. unfold flight_ids. by rewrite map_to_list_insert by done. Qed.

Lemma flight_ids_delete m k v rest : m !! k = Some (v, rest) → flight_ids m ≡ₚ v ++ flight_ids (delete k m).
Proof.
  intros Hs. rewrite <-(flight_ids_insert (delete k m) k v rest) by apply lookup_delete_eq. by rewrite insert_delete_id.
Qed.

Lemma elem_of_live_ids m a : a ∈ live_ids m ↔ a ≠ 0 ∧ ∃ o, m !! o = Some a.
Proof.
  unfold live_ids. rewrite list_elem_of_filter, list_elem_of_fmap. split.
  - intros (Ha&[o a']&->&Hin). apply elem_of_map_to_list in Hin. eauto.
  - intros (Ha&o&Ho). split; [done|]. exists (o, a). by rewrite elem_of_map_to_list.
Qed.

Lemma elem_of_flight_ids m a : a ∈ flight_ids m ↔ ∃ k v rest, m !! k = Some (v, rest) ∧ a ∈ v.
Proof.
  unfold flight_ids. rewrite list_elem_of_join. split.
  - intros (v&Ha&Hv). rewrite <-list_fmap_compose in Hv. apply list_elem_of_fmap in Hv as ([k [v' rest]]&->&Hin).
    apply elem_of_map_to_list in Hin. eauto.
  - intros (k&v&rest&Hk&Ha). exists v. split; [done|]. rewrite <-list_fmap_compose. apply list_elem_of_fmap.
    exists (k, (v, rest)). by rewrite elem_of_map_to_list.
Qed.

Lemma ids_NoDup n s : asid_inv n s →
  NoDup (live_ids (spaces s) ++ reusable (allocator s) ++ retired (allocator s) ++ flight_ids (flights s)).
Proof. intros [_ _ -> _ _ _]. apply NoDup_seqZ. Qed.

(** An identifier is not live twice, and not both live and out of use. *)
Lemma live_ids_inj n s o o' a :
  asid_inv n s → a ≠ 0 → spaces s !! o = Some a → spaces s !! o' = Some a → o = o'.
Proof.
  intros Hi Ha Ho Ho'. destruct (decide (o = o')) as [|Hne]; [done|]. exfalso.
  pose proof (ids_NoDup n s Hi) as Hnd. apply NoDup_app in Hnd as [Hnd _].
  rewrite (live_ids_delete _ o a Ho), (live_ids_delete _ o' a) in Hnd by (by rewrite lookup_delete_ne).
  unfold nonzero_id in Hnd. rewrite bool_decide_eq_false_2 in Hnd by done. simpl in Hnd.
  apply NoDup_cons in Hnd as [Hnd _]. apply Hnd. by constructor.
Qed.

Lemma create_inv n s s' : asid_inv n s → asid_exec n s Create = Some s' → asid_inv n s'.
Proof.
  intros Hi Hs. pose proof Hi as [Hr Hm Hids Hsp Hfl Ht]. simpl in Hs. unfold allocate_begin in Hs.
  pose proof (allocate_without_recycling_ok (allocator s) Hr Hm) as Ha.
  assert (Hnew : spaces s !! next_space s = None ∧ flights s !! next_space s = None).
  { split; apply eq_None_not_Some; intros Hx; [apply Hsp in Hx as [? _]|apply Hfl in Hx]; lia. }
  destruct Hnew as [Hns Hnf].
  assert (Hsp' : ∀ asid o, is_Some (<[next_space s := asid]> (spaces s) !! o) → (o < S (next_space s))%nat ∧ flights s !! o = None).
  { intros asid o Ho. destruct (decide (o = next_space s)) as [->|]; [split; [lia|done]|].
    rewrite lookup_insert_ne in Ho by done. apply Hsp in Ho as [? ?]. split; [lia|done]. }
  assert (Htag : ∀ asid c a o, (c, a, o) ∈ tags s → spaces s !! o = Some a → <[next_space s := asid]> (spaces s) !! o = Some a).
  { intros asid c a o _ Ho. rewrite lookup_insert_ne; [done|]. intros Heq. subst o. congruence. }
  destruct (allocate_without_recycling (allocator s)) as [a' [asid|]]; destruct Ha as (Hmax&Hret&Hr'&Ha).
  - injection Hs as <-. split; simpl; [lia|lia| |by apply Hsp'|intros k Hk; apply Hfl in Hk; lia|].
    + rewrite live_ids_insert by done. rewrite Hret.
      specialize (Ha (live_ids (spaces s) ++ retired (allocator s) ++ flight_ids (flights s))).
      rewrite <-Ha; [|rewrite <-Hids; solve_Permutation].
      assert (asid ≠ 0) as Hnz.
      { assert (Hin : asid ∈ seqZ 1 (next_asid a' - 1)) by (rewrite <-Ha; [by constructor|rewrite <-Hids; solve_Permutation]).
        apply elem_of_seqZ in Hin. lia. }
      unfold nonzero_id. rewrite bool_decide_eq_false_2 by done. solve_Permutation.
    + intros c a o Hin. destruct (Ht c a o Hin) as [Hc Hx]. split; [done|]. intros Hnz. rewrite Hret.
      destruct (Hx Hnz) as [?|?]; [left; by eapply Htag|by right].
  - destruct Ha as (->&Hre&Hnext). simpl in Hs. destruct (retired (allocator s)) as [|x l] eqn:El.
    + injection Hs as <-. split; simpl; [lia|lia| |by apply Hsp'|intros k Hk; apply Hfl in Hk; lia|].
      * rewrite live_ids_insert by done. exact Hids.
      * intros c a o Hin. destruct (Ht c a o Hin) as [Hc Hx]. split; [done|]. intros Hnz.
        destruct (Hx Hnz) as [?|?]; [left; by eapply Htag|by right].
    + injection Hs as <-. split; simpl; [lia|lia| | | |].
      * rewrite flight_ids_insert by done. exact Hids.
      * intros o Ho. apply Hsp in Ho as [? ?]. split; [lia|]. rewrite lookup_insert_ne by lia. done.
      * intros k Hk. destruct (decide (k = next_space s)) as [->|]; [lia|].
        rewrite lookup_insert_ne in Hk by done. apply Hfl in Hk. lia.
      * intros c a o Hin. destruct (Ht c a o Hin) as [Hc Hx]. split; [done|]. intros Hnz.
        destruct (Hx Hnz) as [?|[Hin'|(k&v&rest&Hk&Hv)]]; [by left| |].
        -- right; right. exists (next_space s), (x :: l), (seq 0 n). rewrite lookup_insert_eq.
           split; [done|]. split; [done|]. rewrite elem_of_seq. lia.
        -- right; right. exists k, v, rest. rewrite lookup_insert_ne; [done|]. intros Heq. subst k. congruence.
Qed.

Lemma flush_cpu_inv n s k c s' : asid_inv n s → asid_exec n s (FlushCpu k c) = Some s' → asid_inv n s'.
Proof.
  intros [Hr Hm Hids Hsp Hfl Ht] Hs. simpl in Hs. destruct (flights s !! k) as [[v rest]|] eqn:Hk; [|done].
  injection Hs as <-. split; simpl; [done|done| | | |].
  - rewrite <-insert_delete_eq, flight_ids_insert by apply lookup_delete_eq.
    rewrite (flight_ids_delete _ _ _ _ Hk) in Hids. exact Hids.
  - intros o Ho. apply Hsp in Ho as [? Hn]. split; [done|]. rewrite lookup_insert_ne; [done|]. intros ->. congruence.
  - intros k' Hk'. destruct (decide (k' = k)) as [->|]; [apply Hfl; by eexists|].
    rewrite lookup_insert_ne in Hk' by done. by apply Hfl.
  - intros c' a o Hin. apply elem_of_filter in Hin as [Hne Hin]. simpl in Hne.
    destruct (Ht c' a o Hin) as [Hc Hx]. split; [done|]. intros Hnz.
    destruct (Hx Hnz) as [?|[?|(k'&v'&rest'&Hk'&Hv&Hc')]]; [by left|by right; left|]. right; right.
    destruct (decide (k' = k)) as [->|]; [|exists k', v', rest'; by rewrite lookup_insert_ne].
    rewrite Hk in Hk'. injection Hk' as <- <-. eexists _, _, _. rewrite lookup_insert_eq.
    split; [done|]. split; [done|]. by apply list_elem_of_filter.
Qed.

Lemma finish_inv n s k s' : asid_inv n s → asid_exec n s (Finish k) = Some s' → asid_inv n s'.
Proof.
  intros Hi Hs. pose proof Hi as [Hr Hm Hids Hsp Hfl Ht]. simpl in Hs.
  destruct (flights s !! k) as [[v rest]|] eqn:Hk; [|done]. simpl in Hs. case_bool_decide as Hrest; [|done]. subst rest.
  unfold allocate_finish in Hs. set (a0 := mkAsid _ _ (_ ++ v) _) in Hs.
  pose proof (allocate_without_recycling_ok a0 Hr Hm) as Ha.
  assert (Hnk : spaces s !! k = None).
  { apply eq_None_not_Some. intros Hx. apply Hsp in Hx as [_ ?]. congruence. }
  rewrite (flight_ids_delete _ _ _ _ Hk) in Hids.
  assert (Hids0 : (live_ids (spaces s) ++ retired (allocator s) ++ flight_ids (delete k (flights s))) ++ reusable a0
    ≡ₚ seqZ 1 (next_asid a0 - 1)) by (unfold a0; simpl; rewrite <-Hids; solve_Permutation).
  assert (Hgen : ∀ a' asid, max_asid a' = max_asid (allocator s) → retired a' = retired (allocator s) →
    1 ≤ next_asid a' ≤ max_asid (allocator s) + 1 →
    nonzero_id asid ++ (live_ids (spaces s) ++ retired (allocator s) ++ flight_ids (delete k (flights s))) ++ reusable a' ≡ₚ
      seqZ 1 (next_asid a' - 1) →
    asid_inv n (mkAsys a' (<[k := asid]> (spaces s)) (next_space s) (delete k (flights s)) (tags s))).
  { intros a' asid Hmax Hret Hr' Hp. split; simpl; [lia|lia| | | |].
    - rewrite live_ids_insert by done. rewrite <-Hp, Hret. solve_Permutation.
    - intros o Ho. destruct (decide (o = k)) as [->|].
      + split; [apply Hfl; by eexists|apply lookup_delete_eq].
      + rewrite lookup_insert_ne in Ho by done. rewrite lookup_delete_ne by done. by apply Hsp.
    - intros k' Hk'. destruct (decide (k' = k)) as [->|]; [by rewrite lookup_delete_eq in Hk'; destruct Hk'|].
      rewrite lookup_delete_ne in Hk' by done. by apply Hfl.
    - intros c a o Hin. destruct (Ht c a o Hin) as [Hc Hx]. split; [done|]. intros Hnz. rewrite Hret.
      destruct (Hx Hnz) as [Ho|[?|(k'&v'&rest'&Hk'&Hv&Hc')]]; [left|by right; left|right; right].
      + rewrite lookup_insert_ne; [done|]. intros Heq. subst o. congruence.
      + exists k', v', rest'. rewrite lookup_delete_ne; [done|]. intros Heq. subst k'. rewrite Hk in Hk'.
        injection Hk' as <- <-. by apply not_elem_of_nil in Hc'. }
  destruct (allocate_without_recycling a0) as [a' [asid|]]; destruct Ha as (Hmax&Hret&Hr'&Ha); injection Hs as <-;
    (apply Hgen; [done|done|done|]).
  - rewrite <-(Ha _ Hids0). unfold nonzero_id. rewrite bool_decide_eq_false_2; [done|]. intros ->.
    assert (Hin : 0 ∈ seqZ 1 (next_asid a' - 1)) by (rewrite <-(Ha _ Hids0); by constructor).
    apply elem_of_seqZ in Hin. lia.
  - destruct Ha as (->&_&_). exact Hids0.
Qed.

Lemma drop_space_inv n s o s' : asid_inv n s → asid_exec n s (DropSpace o) = Some s' → asid_inv n s'.
Proof.
  intros [Hr Hm Hids Hsp Hfl Ht] Hs. simpl in Hs. destruct (spaces s !! o) as [a|] eqn:Ho; [|done].
  injection Hs as <-. rewrite (live_ids_delete _ _ _ Ho) in Hids.
  assert (Hsp' : ∀ o', is_Some (delete o (spaces s) !! o') → (o' < next_space s)%nat ∧ flights s !! o' = None).
  { intros o' Ho'. apply Hsp. destruct (decide (o' = o)) as [->|]; [by rewrite lookup_delete_eq in Ho'; destruct Ho'|].
    by rewrite lookup_delete_ne in Ho'. }
  unfold retire_address_space_id, nonzero_id in *. case_bool_decide as Ha; split; simpl; try done.
  - intros c a' o' Hin. destruct (Ht c a' o' Hin) as [Hc Hx]. split; [done|]. intros Hnz.
    destruct (Hx Hnz) as [Hl|?]; [left|by right]. rewrite lookup_delete_ne; [done|]. intros Heq. congruence.
  - rewrite <-Hids. solve_Permutation.
  - intros c a' o' Hin. destruct (Ht c a' o' Hin) as [Hc Hx]. split; [done|]. intros Hnz.
    destruct (Hx Hnz) as [Hl|[?|?]].
    + destruct (decide (o' = o)) as [->|]; [|left; by rewrite lookup_delete_ne].
      right; left. rewrite elem_of_app, list_elem_of_singleton. right. congruence.
    + right; left. rewrite elem_of_app. by left.
    + by right; right.
Qed.

Lemma asid_exec_inv n s act s' : asid_inv n s → asid_exec n s act = Some s' → asid_inv n s'.
Proof.
  destruct act; [apply create_inv|apply flush_cpu_inv|apply finish_inv|apply drop_space_inv|].
  intros [Hr Hm Hids Hsp Hfl Ht] Hs. simpl in Hs. destruct (spaces s !! space) as [a|] eqn:Ho; [|done].
  simpl in Hs. case_bool_decide; [|done]. injection Hs as <-. split; try done. simpl.
  intros c a' o'. rewrite elem_of_union, elem_of_singleton. intros [[= -> -> ->]|Hin]; [|by apply Ht].
  split; [done|]. by left.
Qed.

Lemma asid_boot_inv n m : 0 ≤ m ≤ 0xffff → asid_inv n (asid_boot m).
Proof.
  intros Hm. split; simpl; [lia|done|done| | |].
  - intros o Ho. rewrite lookup_empty in Ho. by destruct Ho.
  - intros o Ho. rewrite lookup_empty in Ho. by destruct Ho.
  - intros c a o Hin. by apply elem_of_empty in Hin.
Qed.

Lemma asid_reachable_inv n m s : 0 ≤ m ≤ 0xffff → rtc (asid_step n) (asid_boot m) s → asid_inv n s.
Proof.
  intros Hm. apply (rtc_ind_r (λ s, asid_inv n s)); [by apply asid_boot_inv|].
  intros s1 s2 _ [act Ha] Hi. by eapply asid_exec_inv.
Qed.

(** An identifier just taken is not live and not zero. *)
Lemma taken_not_live m a l r k :
  a :: (live_ids m ++ l) ++ r ≡ₚ seqZ 1 k → a ≠ 0 ∧ ∀ o, m !! o ≠ Some a.
Proof.
  intros Hp. assert (Ha : a ≠ 0).
  { assert (Hin : a ∈ seqZ 1 k) by (rewrite <-Hp; by constructor). apply elem_of_seqZ in Hin. lia. }
  split; [done|]. intros o Ho. assert (Hnd : NoDup (a :: (live_ids m ++ l) ++ r)) by (rewrite Hp; apply NoDup_seqZ).
  apply NoDup_cons in Hnd as [Hn _]. apply Hn. rewrite !elem_of_app, elem_of_live_ids. eauto 6.
Qed.

(** ** Theorems *)

(** C32: However creations, drops and flushes of address spaces interleave, no two live
    address spaces share a non-zero identifier, and whatever is left in any CPU's TLB under
    a live space's non-zero identifier was loaded from that very space: no translation of
    a dropped space can be hit. *)
Theorem asid_isolation n m s o a :
  0 ≤ m ≤ 0xffff → rtc (asid_step n) (asid_boot m) s → spaces s !! o = Some a → a ≠ 0 →
  (∀ o', spaces s !! o' = Some a → o' = o) ∧ (∀ c o', (c, a, o') ∈ tags s → o' = o).
Proof.
  intros Hm Hs Ho Ha. pose proof (asid_reachable_inv n m s Hm Hs) as Hi.
  assert (Hinj : ∀ o', spaces s !! o' = Some a → o' = o) by (intros o' Ho'; by eapply live_ids_inj).
  split; [done|]. intros c o' Hin. destruct (ai_tags n s Hi c a o' Hin) as [_ Hx].
  assert (Hl : a ∈ live_ids (spaces s)) by (apply elem_of_live_ids; eauto).
  pose proof (ids_NoDup n s Hi) as Hnd. apply NoDup_app in Hnd as (_&Hdis&_). specialize (Hdis a Hl).
  rewrite !elem_of_app, elem_of_flight_ids in Hdis.
  destruct (Hx Ha) as [?|[?|(k&v&rest&?&?&_)]]; [by apply Hinj|exfalso; tauto|exfalso]. naive_solver.
Qed.

(** Without an allocation in flight, [allocate_address_space_id] gives an identifier
    that no live space has, and falls back to the shared identifier 0 only when as many
    spaces as the hardware has identifiers are live. *)
Theorem asid_allocation_complete {T} n m s (flush : T → T) tlb :
  0 ≤ m ≤ 0xffff → rtc (asid_step n) (asid_boot m) s → flights s = ∅ →
  let '(_, _, a) := allocate_address_space_id flush (allocator s) tlb in
  (a ≠ 0 → ∀ o, spaces s !! o ≠ Some a) ∧ (a = 0 → zlen (live_ids (spaces s)) = max_asid (allocator s)).
Proof.
  intros Hm Hs Hf. pose proof (asid_reachable_inv n m s Hm Hs) as [Hr Hmax Hids _ _ _].
  rewrite Hf in Hids. change (flight_ids ∅) with (@nil Z) in Hids. rewrite app_nil_r in Hids.
  pose proof (allocate_without_recycling_ok (allocator s) Hr Hmax) as Ha.
  unfold allocate_address_space_id, allocate_begin.
  destruct (allocate_without_recycling (allocator s)) as [a1 [asid|]]; destruct Ha as (_&_&_&Ha).
  - destruct (taken_not_live (spaces s) asid (retired (allocator s)) (reusable a1) (next_asid a1 - 1)) as [Hnz Hn].
    { apply Ha. rewrite <-Hids. solve_Permutation. }
    split; [done|]. by intros ->.
  - destruct Ha as (->&Hre&Hnext). rewrite Hre in Hids. simpl in Hids.
    destruct (retired (allocator s)) as [|x l] eqn:El; simpl.
    + split; [done|]. intros _. rewrite app_nil_r in Hids. unfold zlen. rewrite Hids, length_seqZ. lia.
    + unfold allocate_finish. simpl. set (a0 := mkAsid _ _ _ _).
      pose proof (allocate_without_recycling_ok a0 Hr Hmax) as Hb. revert Hb.
      destruct (allocate_without_recycling a0) as [a2 [asid|]]; intros (_&_&_&Hb).
      * destruct (taken_not_live (spaces s) asid [] (reusable a2) (next_asid a2 - 1)) as [Hnz Hn].
        { apply Hb. unfold a0. simpl. rewrite Hre, app_nil_r. exact Hids. }
        split; [done|]. by intros ->.
      * destruct Hb as (_&Hb&_). unfold a0 in Hb. simpl in Hb. by rewrite Hre in Hb.
Qed.

(** ** A concrete history *)

Lemma asid_run_rtc n s acts s' : asid_run n s acts = Some s' → rtc (asid_step n) s s'.
Proof.
  revert s. induction acts as [|act acts IH]; intros s Hr; simpl in Hr; [injection Hr as <-; constructor|].
  destruct (asid_exec n s act) as [s1|] eqn:E; [|done]. apply (rtc_l _ _ s1); [by exists act|by apply IH].
Qed.

(** One identifier, two CPUs: the second space gets the identifier of the first. *)
Definition demo_asid_acts : list AsidAction :=
  [Create; UseSpace 1 0; DropSpace 0; Create; FlushCpu 1 0; FlushCpu 1 1; Finish 1; UseSpace 0 1].

Definition demo_asid : AsidSys :=
  match asid_run 2 (asid_boot 1) demo_asid_acts with Some s => s | None => asid_boot 1 end.

Lemma demo_asid_reachable : rtc (asid_step 2) (asid_boot 1) demo_asid.
Proof. apply (asid_run_rtc 2 _ demo_asid_acts). vm_compute. reflexivity. Qed.

Lemma asid_isolation_witness : spaces demo_asid !! 1%nat = Some 1 ∧ ∀ c o', (c, 1, o') ∈ tags demo_asid → o' = 1%nat.
Proof.
  assert (Ho : spaces demo_asid !! 1%nat = Some 1) by (vm_compute; reflexivity).
  split; [exact Ho|]. apply (asid_isolation 2 1 demo_asid 1 1); [lia|exact demo_asid_reachable|exact Ho|lia].
Defined.

Lemma asid_allocation_complete_witness :
  zlen (live_ids (spaces demo_asid)) = max_asid (allocator demo_asid).
Proof.
  pose proof (asid_allocation_complete 2 1 demo_asid (λ x : unit, x) tt ltac:(lia) demo_asid_reachable) as H.
  assert (Hf : flights demo_asid = ∅) by (vm_compute; reflexivity). specialize (H Hf).
  assert (Ha : (allocate_address_space_id (λ x : unit, x) (allocator demo_asid) tt).2 = 0) by (vm_compute; reflexivity).
  destruct (allocate_address_space_id (λ x : unit, x) (allocator demo_asid) tt) as [[a' u] a].
  destruct H as [_ H]. apply H. exact Ha.
Defined.
