(* ===== verification/Task.v ===== *)
(** * Task control blocks (src/os/src/task/mod.rs, src/os/src/task/task.rs)

    Queues hold [Arc]s of task control blocks whose fields change under other locks, so
    the model keeps the blocks in a store and the queues hold references to it: a field
    changed through one reference is seen through all of them.  Only the fields the
    scheduler and the wait queues use are modelled. *)

From S2P Require Import Prelude.

(** [TaskStatus] *)
Inductive TaskStatus : Set := Ready | Running | Zombie | Blocked | Stopped.

#[export] Instance TaskStatus_eq_dec : EqDecision TaskStatus.
Proof. solve_decision. Defined.

(** [BlockReason] and [WaitOutcome] of src/os/src/task/wait_queue.rs *)
Inductive BlockReason : Set := Io | PipeFdReady | Poll | ChildExit | Timer | Futex | Signal.

Inductive WaitOutcome : Set := Woken | TimedOut | Interrupted.

#[export] Instance BlockReason_eq_dec : EqDecision BlockReason.
Proof. solve_decision. Defined.

#[export] Instance WaitOutcome_eq_dec : EqDecision WaitOutcome.
Proof. solve_decision. Defined.

Definition SCHED_OTHER : Z := 0.
Definition SCHED_FIFO : Z := 1.
Definition SCHED_RR : Z := 2.
Definition NO_CPU : Z := USIZE_MAX.

(** [TaskControlBlock] *)
Record Tcb := mkTcb {
  t_pid : Z;
  t_tgid : Z;
  t_pgid : Z;
  t_is_kernel : bool;
  t_status : TaskStatus;
  t_block_reason : option BlockReason;
  t_wait_outcome : option WaitOutcome;
  t_wait_token : Z;
  t_sched_policy : Z;
  t_sched_priority : Z;
  t_affinity_mask : Z;
  t_blocking_cpu : Z
}.

#[export] Instance Tcb_inhabited : Inhabited Tcb :=
  populate (mkTcb 0 0 0 false Zombie None None 0 0 0 0 NO_CPU).

(** References ([Arc] pointers) and the store. *)
Notation TaskRef := nat.
Notation Store := (gmap nat Tcb).

Definition set_status (t : Tcb) (s : TaskStatus) : Tcb :=
  mkTcb (t_pid t) (t_tgid t) (t_pgid t) (t_is_kernel t) s (t_block_reason t) (t_wait_outcome t) (t_wait_token t)
    (t_sched_policy t) (t_sched_priority t) (t_affinity_mask t) (t_blocking_cpu t).
Definition set_block_reason (t : Tcb) (r : option BlockReason) : Tcb :=
  mkTcb (t_pid t) (t_tgid t) (t_pgid t) (t_is_kernel t) (t_status t) r (t_wait_outcome t) (t_wait_token t)
    (t_sched_policy t) (t_sched_priority t) (t_affinity_mask t) (t_blocking_cpu t).
Definition set_wait_outcome (t : Tcb) (o : option WaitOutcome) : Tcb :=
  mkTcb (t_pid t) (t_tgid t) (t_pgid t) (t_is_kernel t) (t_status t) (t_block_reason t) o (t_wait_token t)
    (t_sched_policy t) (t_sched_priority t) (t_affinity_mask t) (t_blocking_cpu t).
Definition set_wait_token (t : Tcb) (k : Z) : Tcb :=
  mkTcb (t_pid t) (t_tgid t) (t_pgid t) (t_is_kernel t) (t_status t) (t_block_reason t) (t_wait_outcome t) k
    (t_sched_policy t) (t_sched_priority t) (t_affinity_mask t) (t_blocking_cpu t).
Definition set_blocking_cpu (t : Tcb) (c : Z) : Tcb :=
  mkTcb (t_pid t) (t_tgid t) (t_pgid t) (t_is_kernel t) (t_status t) (t_block_reason t) (t_wait_outcome t) (t_wait_token t)
    (t_sched_policy t) (t_sched_priority t) (t_affinity_mask t) c.

Definition effective_sched_priority (t : Tcb) : Z :=
  if bool_decide (t_sched_policy t = SCHED_FIFO ∨ t_sched_policy t = SCHED_RR) then t_sched_priority t else 0.

(** [affinity_mask] and [can_run_on_cpu]; [online] is [online_cpu_mask]. *)
Definition affinity_mask (online : Z) (t : Tcb) : Z := Z.land (t_affinity_mask t) online.

Definition can_run_on_cpu (online cpu : Z) (t : Tcb) : bool :=
  negb (bool_decide (Z.land (affinity_mask online t) (Z.shiftl 1 cpu) = 0)).

(** [next_wait_token]: the new token *)
Definition next_wait_token (t : Tcb) : Tcb * Z :=
  let k := wrap (t_wait_token t + 1) in (set_wait_token t k, k).
