(* ===== verification/ReadyQueue.v ===== *)
(** * Ready queues and the task registry (src/os/src/task/manager.rs)

    The two ready queues, their selection of the next task with its bounded fairness
    between real-time priorities, the wake-up of idle CPUs, and the registry of tasks.
    Every operation runs under its queue's lock; the fields of queued tasks are read from
    the store as it is then. *)

From S2P Require Import Prelude Task.

Definition RT_LOWER_RUN_BUDGET : Z := 1.

(** ** One queue *)

(** [ReadyQueue]; the order of the [BTreeSet] of pids is never used. *)
Record ReadyQueue := mkRq { rq_tasks : list TaskRef; rq_pids : gset Z }.

Definition rq_new : ReadyQueue := mkRq [] ∅.

Definition rq_push_back (h : Store) (q : ReadyQueue) (t : TaskRef) : ReadyQueue * bool :=
  let pid := t_pid (h !!! t) in
  if bool_decide (pid ∈ rq_pids q) then (q, false)
  else (mkRq (rq_tasks q ++ [t]) ({[pid]} ∪ rq_pids q), true).

Definition rq_push_front (h : Store) (q : ReadyQueue) (t : TaskRef) : ReadyQueue * bool :=
  let pid := t_pid (h !!! t) in
  if bool_decide (pid ∈ rq_pids q) then (q, false)
  else (mkRq (t :: rq_tasks q) ({[pid]} ∪ rq_pids q), true).

Definition rq_remove_at (h : Store) (q : ReadyQueue) (i : nat) : ReadyQueue * option TaskRef :=
  match rq_tasks q !! i with
  | Some t => (mkRq (delete i (rq_tasks q)) (rq_pids q ∖ {[t_pid (h !!! t)]}), Some t)
  | None => (q, None)
  end.

Definition rq_len (q : ReadyQueue) : Z := zlen (rq_tasks q).

(** ** Selection *)

(** The loop of [fetch_from_queue]: purge what is not ready, and find the first task of
    the highest and of the next lower real-time priority. *)
Record Scan := mkScan {
  best_index : option nat;
  best_priority : Z;
  lower_rt_index : option nat;
  lower_rt_priority : Z
}.

Definition scan_task (sc : Scan) (index : nat) (priority : Z) : Scan :=
  if bool_decide (best_priority sc < priority) then
    if bool_decide (0 < best_priority sc) && bool_decide (lower_rt_priority sc < best_priority sc)
    then mkScan (Some index) priority (best_index sc) (best_priority sc)
    else mkScan (Some index) priority (lower_rt_index sc) (lower_rt_priority sc)
  else if bool_decide (0 < priority) && bool_decide (priority < best_priority sc) &&
          bool_decide (lower_rt_priority sc < priority) then
    mkScan (best_index sc) (best_priority sc) (Some index) priority
  else if bool_decide (best_index sc = None) then
    mkScan (Some index) (best_priority sc) (lower_rt_index sc) (lower_rt_priority sc)
  else sc.

Fixpoint fetch_loop (fuel : nat) (h : Store) (online cpu : Z) (q : ReadyQueue) (index : nat) (sc : Scan)
    : ReadyQueue * Scan :=
  match fuel with
  | O => (q, sc)
  | S fuel =>
      match rq_tasks q !! index with
      | None => (q, sc)
      | Some t =>
          if bool_decide (t_status (h !!! t) ≠ Ready) then
            fetch_loop fuel h online cpu (rq_remove_at h q index).1 index sc
          else if negb (can_run_on_cpu online cpu (h !!! t)) then
            fetch_loop fuel h online cpu q (S index) sc
          else fetch_loop fuel h online cpu q (S index)
                 (scan_task sc index (effective_sched_priority (h !!! t)))
      end
  end.

(** [fetch_from_queue]; [rt_runs] is [RT_RUNS_SINCE_NORMAL]. *)
Definition fetch_from_queue (h : Store) (online cpu : Z) (q : ReadyQueue) (rt_runs : Z)
    : ReadyQueue * Z * option TaskRef :=
  let '(q, sc) := fetch_loop (length (rq_tasks q)) h online cpu q 0 (mkScan None 0 None 0) in
  let chosen :=
    if bool_decide (0 < best_priority sc) then
      if bool_decide (RT_LOWER_RUN_BUDGET ≤ rt_runs) && bool_decide (is_Some (lower_rt_index sc))
      then lower_rt_index sc else best_index sc
    else best_index sc in
  match chosen with
  | None => (q, rt_runs, None)
  | Some i =>
      match rq_remove_at h q i with
      | (q, Some t) =>
          let p := effective_sched_priority (h !!! t) in
          let rt_runs :=
            if bool_decide (0 < best_priority sc) && bool_decide (0 < p) && bool_decide (p = best_priority sc)
            then wrap (rt_runs + 1) else 0 in
          (q, rt_runs, Some t)
      | (q, None) => (q, rt_runs, None)
      end
  end.

(** [has_runnable_task] purges as it searches. *)
Fixpoint has_runnable_loop (fuel : nat) (h : Store) (online cpu : Z) (q : ReadyQueue) (index : nat)
    : ReadyQueue * bool :=
  match fuel with
  | O => (q, false)
  | S fuel =>
      match rq_tasks q !! index with
      | None => (q, false)
      | Some t =>
          if bool_decide (t_status (h !!! t) ≠ Ready) then
            has_runnable_loop fuel h online cpu (rq_remove_at h q index).1 index
          else if can_run_on_cpu online cpu (h !!! t) then (q, true)
          else has_runnable_loop fuel h online cpu q (S index)
      end
  end.

Definition has_runnable_task (h : Store) (online cpu : Z) (q : ReadyQueue) : ReadyQueue * bool :=
  has_runnable_loop (length (rq_tasks q)) h online cpu q 0.

(** ** Removal *)

Definition remove_task_from_queue (h : Store) (q : ReadyQueue) (pid : Z) : ReadyQueue * option TaskRef :=
  match list_find (λ t, t_pid (h !!! t) = pid) (rq_tasks q) with
  | Some (i, _) => rq_remove_at h q i
  | None => (q, None)
  end.

Fixpoint remove_instances_loop (h : Store) (task : TaskRef) (kept : list TaskRef) (pids : gset Z) (removed : Z)
    (l : list TaskRef) : ReadyQueue * Z :=
  match l with
  | [] => (mkRq kept pids, removed)
  | t :: l =>
      if bool_decide (t = task ∨ t_pid (h !!! t) = t_pid (h !!! task))
      then remove_instances_loop h task kept (pids ∖ {[t_pid (h !!! t)]}) (removed + 1) l
      else remove_instances_loop h task (kept ++ [t]) pids removed l
  end.

Definition remove_task_instances_from_queue (h : Store) (q : ReadyQueue) (task : TaskRef) : ReadyQueue * Z :=
  remove_instances_loop h task [] (rq_pids q) 0 (rq_tasks q).

Fixpoint retain_loop (h : Store) (keep : TaskRef → bool) (kept : list TaskRef) (pids : gset Z) (l : list TaskRef)
    : ReadyQueue :=
  match l with
  | [] => mkRq kept pids
  | t :: l =>
      if keep t && bool_decide (t_pid (h !!! t) ∉ pids)
      then retain_loop h keep (kept ++ [t]) ({[t_pid (h !!! t)]} ∪ pids) l
      else retain_loop h keep kept pids l
  end.

Definition retain_queue (h : Store) (q : ReadyQueue) (keep : TaskRef → bool) : ReadyQueue :=
  retain_loop h keep [] ∅ (rq_tasks q).

(** ** Waking idle CPUs (src/os/src/platform.rs) *)

(** [notify_runnable_for]: the new [IDLE_MASK] and the CPU sent an IPI. *)
Definition notify_runnable_for (online current idle eligible_mask : Z) : Z * option Z :=
  let allowed := Z.ldiff (Z.land eligible_mask online) (Z.shiftl 1 current) in
  let targets := Z.land idle allowed in
  if bool_decide (targets = 0) then (idle, None)
  else let cpu := Z.of_nat (trailing_zeros targets) in (Z.ldiff idle (Z.shiftl 1 cpu), Some cpu).

Definition prepare_idle (idle current : Z) : Z := Z.lor idle (Z.shiftl 1 current).
Definition finish_idle (idle current : Z) : Z := Z.ldiff idle (Z.shiftl 1 current).

(** ** The manager *)

(** The statics of manager.rs, [IDLE_MASK], and the IPIs sent. *)
Record Manager := mkMgr {
  m_user : ReadyQueue;
  m_kernel : ReadyQueue;
  m_rt_runs : Z;
  m_registry : list TaskRef;
  m_exited : list (Z * Z);
  m_idle : Z;
  m_ipis : list Z
}.

Definition set_queue (m : Manager) (kernel : bool) (q : ReadyQueue) : Manager :=
  if kernel then mkMgr (m_user m) q (m_rt_runs m) (m_registry m) (m_exited m) (m_idle m) (m_ipis m)
  else mkMgr q (m_kernel m) (m_rt_runs m) (m_registry m) (m_exited m) (m_idle m) (m_ipis m).
Definition get_queue (m : Manager) (kernel : bool) : ReadyQueue := if kernel then m_kernel m else m_user m.
Definition set_rt_runs (m : Manager) (n : Z) : Manager :=
  mkMgr (m_user m) (m_kernel m) n (m_registry m) (m_exited m) (m_idle m) (m_ipis m).

(** The CPU an operation runs on and the CPUs online. *)
Record Cpus := mkCpus { current_cpu : Z; online_mask : Z }.

Definition notify (cp : Cpus) (m : Manager) (affinity : Z) : Manager :=
  let '(idle, ipi) := notify_runnable_for (online_mask cp) (current_cpu cp) (m_idle m) affinity in
  mkMgr (m_user m) (m_kernel m) (m_rt_runs m) (m_registry m) (m_exited m) idle
    (m_ipis m ++ match ipi with Some cpu => [cpu] | None => [] end).

(** [push_task_back] and [push_task_front] on the queue of the task's kind *)
Definition push_task (push : Store → ReadyQueue → TaskRef → ReadyQueue * bool) (cp : Cpus) (h : Store) (m : Manager)
    (kernel : bool) (t : TaskRef) (notify_ : bool) : Manager :=
  if bool_decide (t_status (h !!! t) ≠ Ready) then m
  else
    let '(q, inserted) := push h (get_queue m kernel) t in
    let m := set_queue m kernel q in
    if inserted && notify_ then notify cp m (affinity_mask (online_mask cp) (h !!! t)) else m.

Definition push_task_back := push_task rq_push_back.
Definition push_task_front := push_task rq_push_front.

Definition add_task (cp : Cpus) (h : Store) (m : Manager) (t : TaskRef) : Manager :=
  push_task_back cp h m (t_is_kernel (h !!! t)) t true.
Definition add_task_front (cp : Cpus) (h : Store) (m : Manager) (t : TaskRef) : Manager :=
  push_task_front cp h m (t_is_kernel (h !!! t)) t true.
Definition add_task_local (cp : Cpus) (h : Store) (m : Manager) (t : TaskRef) : Manager :=
  push_task_back cp h m (t_is_kernel (h !!! t)) t (negb (can_run_on_cpu (online_mask cp) (current_cpu cp) (h !!! t))).
Definition add_task_front_local (cp : Cpus) (h : Store) (m : Manager) (t : TaskRef) : Manager :=
  push_task_front cp h m (t_is_kernel (h !!! t)) t (negb (can_run_on_cpu (online_mask cp) (current_cpu cp) (h !!! t))).

Definition fetch_queue (cp : Cpus) (h : Store) (m : Manager) (kernel : bool) : Manager * option TaskRef :=
  let '(q, rt, r) := fetch_from_queue h (online_mask cp) (current_cpu cp) (get_queue m kernel) (m_rt_runs m) in
  (set_rt_runs (set_queue m kernel q) rt, r).

Definition fetch_user_task_for_foreground (cp : Cpus) (h : Store) (m : Manager) := fetch_queue cp h m false.
Definition fetch_kernel_task (cp : Cpus) (h : Store) (m : Manager) := fetch_queue cp h m true.

Definition fetch_task (cp : Cpus) (h : Store) (m : Manager) : Manager * option TaskRef :=
  match fetch_user_task_for_foreground cp h m with
  | (m, Some t) => (m, Some t)
  | (m, None) => fetch_kernel_task cp h m
  end.

Definition has_task_in (cp : Cpus) (h : Store) (m : Manager) (kernel : bool) : Manager * bool :=
  let '(q, b) := has_runnable_task h (online_mask cp) (current_cpu cp) (get_queue m kernel) in
  (set_queue m kernel q, b).

Definition has_task (cp : Cpus) (h : Store) (m : Manager) : Manager * bool :=
  match has_task_in cp h m false with
  | (m, true) => (m, true)
  | (m, false) => has_task_in cp h m true
  end.

Definition remove_task (h : Store) (m : Manager) (pid : Z) : Manager * option TaskRef :=
  match remove_task_from_queue h (m_user m) pid with
  | (q, Some t) => (set_queue m false q, Some t)
  | (q, None) =>
      let m := set_queue m false q in
      let '(q, r) := remove_task_from_queue h (m_kernel m) pid in (set_queue m true q, r)
  end.

Definition remove_task_instances (h : Store) (m : Manager) (task : TaskRef) : Manager * Z :=
  let '(qu, nu) := remove_task_instances_from_queue h (m_user m) task in
  let '(qk, nk) := remove_task_instances_from_queue h (m_kernel m) task in
  (set_queue (set_queue m false qu) true qk, nu + nk).

Definition retain_tasks (h : Store) (m : Manager) (keep : TaskRef → bool) : Manager :=
  set_queue (set_queue m false (retain_queue h (m_user m) keep)) true (retain_queue h (m_kernel m) keep).

Definition queue_len (m : Manager) : Z := rq_len (m_user m) + rq_len (m_kernel m).

(** *** The registry

    A [Weak] upgrades while the task is [alive]. *)

Definition register_task (m : Manager) (t : TaskRef) : Manager :=
  mkMgr (m_user m) (m_kernel m) (m_rt_runs m) (m_registry m ++ [t]) (m_exited m) (m_idle m) (m_ipis m).

Definition record_exited_task (m : Manager) (pid tgid : Z) : Manager :=
  if bool_decide ((pid, tgid) ∈ m_exited m) then m
  else mkMgr (m_user m) (m_kernel m) (m_rt_runs m) (m_registry m) (m_exited m ++ [(pid, tgid)]) (m_idle m) (m_ipis m).

Fixpoint live_loop (fuel : nat) (alive : gset nat) (registry : list TaskRef) (index : nat) (tasks : list TaskRef)
    : list TaskRef * list TaskRef :=
  match fuel with
  | O => (registry, tasks)
  | S fuel =>
      match registry !! index with
      | None => (registry, tasks)
      | Some t =>
          if bool_decide (t ∈ alive) then live_loop fuel alive registry (S index) (tasks ++ [t])
          else live_loop fuel alive (delete index registry) index tasks
      end
  end.

Definition live_tasks (alive : gset nat) (m : Manager) : Manager * list TaskRef :=
  let '(registry, tasks) := live_loop (length (m_registry m)) alive (m_registry m) 0 [] in
  (mkMgr (m_user m) (m_kernel m) (m_rt_runs m) registry (m_exited m) (m_idle m) (m_ipis m), tasks).

Definition find_task (alive : gset nat) (h : Store) (m : Manager) (pid : Z) : Manager * option TaskRef :=
  let '(m, l) := live_tasks alive m in (m, snd <$> list_find (λ t, t_pid (h !!! t) = pid) l).
Definition find_thread_group (alive : gset nat) (h : Store) (m : Manager) (tgid : Z) : Manager * list TaskRef :=
  let '(m, l) := live_tasks alive m in
  (m, filter (λ t, t_tgid (h !!! t) = tgid ∧ t_is_kernel (h !!! t) = false) l).
Definition find_process_group (alive : gset nat) (h : Store) (m : Manager) (pgid : Z) : Manager * list TaskRef :=
  let '(m, l) := live_tasks alive m in
  (m, filter (λ t, t_is_kernel (h !!! t) = false ∧ t_pgid (h !!! t) = pgid) l).
Definition all_user_tasks (alive : gset nat) (h : Store) (m : Manager) : Manager * list TaskRef :=
  let '(m, l) := live_tasks alive m in (m, filter (λ t, t_is_kernel (h !!! t) = false) l).

(** ** Well-formed queues *)

Definition pids (h : Store) (l : list TaskRef) : list Z := (λ t, t_pid (h !!! t)) <$> l.

(** The pid set mirrors the queue, and no pid is queued twice. *)
Definition rq_wf (h : Store) (q : ReadyQueue) : Prop :=
  rq_pids q = list_to_set (pids h (rq_tasks q)) ∧ NoDup (pids h (rq_tasks q)).

Definition is_ready (h : Store) (t : TaskRef) : Prop := t_status (h !!! t) = Ready.

#[export] Instance is_ready_dec h t : Decision (is_ready h t).
Proof. unfold is_ready. apply _. Defined.

Section queue.
Context (h : Store).

Lemma pids_app l k : pids h (l ++ k) = pids h l ++ pids h k.
Proof. apply fmap_app. Qed.

Lemma rq_new_wf : rq_wf h rq_new.
Proof. split; [done|constructor]. Qed.

Lemma rq_push_back_ok q t :
  rq_wf h q → let '(q', b) := rq_push_back h q t in
  rq_wf h q' ∧ (b = true ↔ t_pid (h !!! t) ∉ pids h (rq_tasks q)) ∧
  rq_tasks q' = if b then rq_tasks q ++ [t] else rq_tasks q.
Proof.
  intros [Hp Hn]. unfold rq_push_back. rewrite Hp, (bool_decide_ext _ _ (elem_of_list_to_set _ _)).
  destruct (decide (t_pid (h !!! t) ∈ pids h (rq_tasks q))) as [Hin|Hin].
  - rewrite bool_decide_eq_true_2 by done. split; [done|]. split; [split; [done|tauto]|done].
  - rewrite bool_decide_eq_false_2 by done. split; [|done]. split; simpl; rewrite pids_app; simpl.
    + rewrite list_to_set_app_L. set_solver.
    + apply NoDup_app. split; [done|]. split; [set_solver|]. apply NoDup_singleton.
Qed.

Lemma rq_push_front_ok q t :
  rq_wf h q → let '(q', b) := rq_push_front h q t in
  rq_wf h q' ∧ (b = true ↔ t_pid (h !!! t) ∉ pids h (rq_tasks q)) ∧
  rq_tasks q' = if b then t :: rq_tasks q else rq_tasks q.
Proof.
  intros [Hp Hn]. unfold rq_push_front. rewrite Hp, (bool_decide_ext _ _ (elem_of_list_to_set _ _)).
  destruct (decide (t_pid (h !!! t) ∈ pids h (rq_tasks q))) as [Hin|Hin].
  - rewrite bool_decide_eq_true_2 by done. split; [done|]. split; [split; [done|tauto]|done].
  - rewrite bool_decide_eq_false_2 by done. split; [|done]. split; simpl; [done|by constructor].
Qed.

Lemma rq_remove_at_ok q l1 t l2 :
  rq_wf h q → rq_tasks q = l1 ++ t :: l2 →
  ∃ q', rq_remove_at h q (length l1) = (q', Some t) ∧ rq_wf h q' ∧ rq_tasks q' = l1 ++ l2.
Proof.
  intros [Hp Hn] Hq. unfold rq_remove_at. rewrite Hq, list_lookup_middle by done.
  rewrite delete_middle. eexists. split; [done|]. split; [|done]. rewrite Hq, pids_app in Hn. simpl in Hn.
  apply NoDup_app in Hn as (Hn1&Hd&[Hn2 Hn3]%NoDup_cons). split; simpl.
  - rewrite Hp, Hq, !pids_app, !list_to_set_app_L. simpl. set_solver.
  - rewrite pids_app. apply NoDup_app. split; [done|]. split; [|done]. intros x Hx Hx'. apply (Hd x Hx). by constructor.
Qed.

(** *** Selection *)

Context (online cpu : Z).

Definition runs_here (t : TaskRef) : Prop := can_run_on_cpu online cpu (h !!! t) = true.
Definition prio (t : TaskRef) : Z := effective_sched_priority (h !!! t).

#[export] Instance runs_here_dec t : Decision (runs_here t).
Proof. unfold runs_here. apply _. Defined.

Fixpoint scan_list (sc : Scan) (index : nat) (l : list TaskRef) : Scan :=
  match l with
  | [] => sc
  | t :: l => scan_list (if bool_decide (runs_here t) then scan_task sc index (prio t) else sc) (S index) l
  end.

Lemma fetch_loop_ok fuel q seen rest sc :
  rq_wf h q → rq_tasks q = seen ++ rest → (length rest ≤ fuel)%nat →
  ∃ q', fetch_loop fuel h online cpu q (length seen) sc =
          (q', scan_list sc (length seen) (filter (is_ready h) rest)) ∧
    rq_wf h q' ∧ rq_tasks q' = seen ++ filter (is_ready h) rest.
Proof.
  revert q seen rest sc. induction fuel as [|fuel IH]; intros q seen rest sc Hw Hq Hf.
  { destruct rest; [|simpl in Hf; lia]. by exists q. }
  simpl. rewrite Hq. destruct rest as [|t rest].
  { rewrite lookup_ge_None_2 by (rewrite app_nil_r; done). by exists q. }
  rewrite list_lookup_middle by done. destruct (decide (is_ready h t)) as [Hr|Hr].
  - rewrite bool_decide_eq_false_2 by (intros ?; done). rewrite filter_cons_True by done.
    assert (Hq' : rq_tasks q = (seen ++ [t]) ++ rest) by (by rewrite Hq, <-app_assoc).
    simpl in Hf. destruct (can_run_on_cpu online cpu (h !!! t)) eqn:Ec; cbn [negb scan_list];
      [rewrite bool_decide_eq_true_2 by done|rewrite bool_decide_eq_false_2 by (unfold runs_here; congruence)];
      (edestruct (IH q (seen ++ [t]) rest) as (q'&He&Hw'&Ht'); [done|done|lia|]);
      rewrite length_app, Nat.add_1_r in He; rewrite He; exists q'; (split; [done|]); (split; [done|]);
      rewrite Ht', <-app_assoc; done.
  - rewrite bool_decide_eq_true_2 by done. rewrite filter_cons_False by done.
    destruct (rq_remove_at_ok q seen t rest Hw Hq) as (q1&->&Hw1&Hq1). apply IH; [done|done|simpl in Hf; lia].
Qed.

(** The first task of [l] that may run here with priority [p] is at [i]. *)
Definition first_at (l : list TaskRef) (p : Z) (i : nat) : Prop :=
  ∃ l1 t l2, l = l1 ++ t :: l2 ∧ length l1 = i ∧ runs_here t ∧ prio t = p ∧
    ∀ u, u ∈ l1 → runs_here u → prio u ≠ p.

Lemma first_at_snoc l p i t : first_at l p i → first_at (l ++ [t]) p i.
Proof. intros (l1&u&l2&->&Hx). exists l1, u, (l2 ++ [t]). by rewrite <-app_assoc. Qed.

Lemma first_at_new l p t :
  runs_here t → prio t = p → (∀ u, u ∈ l → runs_here u → prio u ≠ p) → first_at (l ++ [t]) p (length l).
Proof. intros Hr Hp Hn. by exists l, t, []. Qed.

(** What the scan knows after the tasks [l]. *)
Record scan_ok (l : list TaskRef) (sc : Scan) : Prop := {
  sc_best : match best_index sc with
    | None => best_priority sc = 0 ∧ ∀ t, t ∈ l → ¬ runs_here t
    | Some i => first_at l (best_priority sc) i
    end;
  sc_top : ∀ t, t ∈ l → runs_here t → prio t ≤ best_priority sc;
  sc_lower : match lower_rt_index sc with
    | None => lower_rt_priority sc = 0
    | Some i => first_at l (lower_rt_priority sc) i ∧ 0 < lower_rt_priority sc < best_priority sc
    end;
  sc_second : ∀ t, t ∈ l → runs_here t → prio t < best_priority sc → prio t ≤ lower_rt_priority sc;
  sc_nonneg : 0 ≤ lower_rt_priority sc ∧ 0 ≤ best_priority sc
}.

Lemma scan_ok_nil : scan_ok [] (mkScan None 0 None 0).
Proof. split; simpl; [split; [done|]| |done| |lia]; by intros ? ?%not_elem_of_nil. Qed.

Lemma scan_ok_skip l sc t : scan_ok l sc → ¬ runs_here t → scan_ok (l ++ [t]) sc.
Proof.
  intros [Hb Ht Hl Hs Hn] Hr. split; [| | | |done].
  - destruct (best_index sc); [by apply first_at_snoc|]. destruct Hb as [Hb1 Hb2]. split; [done|].
    intros u. rewrite elem_of_app, list_elem_of_singleton. intros [?| ->]; auto.
  - intros u. rewrite elem_of_app, list_elem_of_singleton. intros [?| ->]; [by apply Ht|done].
  - destruct (lower_rt_index sc); [|done]. destruct Hl. split; [by apply first_at_snoc|done].
  - intros u. rewrite elem_of_app, list_elem_of_singleton. intros [?| ->]; [by apply Hs|done].
Qed.

Lemma scan_ok_task l sc t :
  scan_ok l sc → runs_here t → 0 ≤ prio t → scan_ok (l ++ [t]) (scan_task sc (length l) (prio t)).
Proof.
  intros [Hb Ht Hl Hs [Hn1 Hn2]] Hr Hp.
  assert (Hall : ∀ (P : TaskRef → Prop), (∀ u, u ∈ l → P u) → P t → ∀ u, u ∈ l ++ [t] → P u).
  { intros P Hl' Ht' u. rewrite elem_of_app, list_elem_of_singleton. intros [?| ->]; auto. }
  unfold scan_task. destruct (decide (best_priority sc < prio t)) as [Hlt|Hge].
  { rewrite bool_decide_eq_true_2 by done.
    assert (Hnew : first_at (l ++ [t]) (prio t) (length l)).
    { apply first_at_new; [done|done|]. intros u Hu Hru. specialize (Ht u Hu Hru). lia. }
    assert (Hmax : ∀ u, u ∈ l ++ [t] → runs_here u → prio u ≤ prio t).
    { apply (Hall (λ u, runs_here u → prio u ≤ prio t)); [|done]. intros u Hu Hru. specialize (Ht u Hu Hru). lia. }
    destruct (bool_decide (0 < best_priority sc) && bool_decide (lower_rt_priority sc < best_priority sc)) eqn:Eb;
      reflect_bools; split; simpl; try done; try lia.
    - destruct (best_index sc) as [i|]; [|lia]. split; [by apply first_at_snoc|lia].
    - apply (Hall (λ u, runs_here u → prio u < prio t → prio u ≤ best_priority sc)); [|lia].
      intros u Hu Hru _. by apply Ht.
    - destruct (lower_rt_index sc); [|done]. destruct Hl. split; [by apply first_at_snoc|lia].
    - apply (Hall (λ u, runs_here u → prio u < prio t → prio u ≤ lower_rt_priority sc)); [|lia].
      intros u Hu Hru _. specialize (Ht u Hu Hru).
      destruct (decide (prio u < best_priority sc)); [by apply Hs|].
      apply andb_false_iff in Eb as [E|E]; reflect_bools; lia. }
  rewrite bool_decide_eq_false_2 by done.
  destruct (bool_decide (0 < prio t) && bool_decide (prio t < best_priority sc) &&
    bool_decide (lower_rt_priority sc < prio t)) eqn:Elow; reflect_bools.
  { split; simpl; [| | | |lia].
    - destruct (best_index sc); [by apply first_at_snoc|lia].
    - apply (Hall (λ u, runs_here u → prio u ≤ best_priority sc)); [done|lia].
    - split; [|lia]. apply first_at_new; [done|done|]. intros u Hu Hru. specialize (Hs u Hu Hru). lia.
    - apply (Hall (λ u, runs_here u → prio u < best_priority sc → prio u ≤ prio t)); [|lia].
      intros u Hu Hru Hlt. specialize (Hs u Hu Hru Hlt). lia. }
  assert (Hlow : prio t < best_priority sc → prio t ≤ lower_rt_priority sc).
  { intros Hlt. apply andb_false_iff in Elow as [E|E]; [apply andb_false_iff in E as [E|E]|]; reflect_bools; lia. }
  destruct (best_index sc) as [i|] eqn:Ei.
  { rewrite bool_decide_eq_false_2 by done. split; [by rewrite Ei; apply first_at_snoc| | | |done].
    - apply (Hall (λ u, runs_here u → prio u ≤ best_priority sc)); [done|lia].
    - destruct (lower_rt_index sc); [|done]. destruct Hl. split; [by apply first_at_snoc|done].
    - by apply (Hall (λ u, runs_here u → prio u < best_priority sc → prio u ≤ lower_rt_priority sc)). }
  rewrite bool_decide_eq_true_2 by done. destruct Hb as [Hb0 Hnone]. split; simpl; [| | | |done].
  - apply first_at_new; [done|lia|]. intros u Hu Hru. by destruct (Hnone u Hu).
  - apply (Hall (λ u, runs_here u → prio u ≤ best_priority sc)); [done|lia].
  - destruct (lower_rt_index sc); [|done]. destruct Hl. split; [by apply first_at_snoc|done].
  - by apply (Hall (λ u, runs_here u → prio u < best_priority sc → prio u ≤ lower_rt_priority sc)).
Qed.

Lemma scan_list_ok l l' sc :
  (∀ t, 0 ≤ prio t) → scan_ok l sc → scan_ok (l ++ l') (scan_list sc (length l) l').
Proof.
  intros Hp. revert l sc. induction l' as [|t l' IH]; intros l sc Hsc; simpl; [by rewrite app_nil_r|].
  replace (l ++ t :: l') with ((l ++ [t]) ++ l') by (by rewrite <-app_assoc).
  replace (S (length l)) with (length (l ++ [t])) by (rewrite length_app; simpl; lia). apply IH.
  destruct (decide (runs_here t)) as [Hr|Hr].
  - rewrite bool_decide_eq_true_2 by done. by apply scan_ok_task.
  - rewrite bool_decide_eq_false_2 by done. by apply scan_ok_skip.
Qed.

(** The tasks this CPU may take from [l]. *)
Definition eligible (l : list TaskRef) : list TaskRef := filter (λ t, is_ready h t ∧ runs_here t) l.

Definition top_level (l : list TaskRef) (p : Z) : Prop :=
  (∃ t, t ∈ eligible l ∧ prio t = p) ∧ ∀ t, t ∈ eligible l → prio t ≤ p.

(** The highest real-time priority below the top. *)
Definition next_level (l : list TaskRef) (top p : Z) : Prop :=
  0 < p < top ∧ (∃ t, t ∈ eligible l ∧ prio t = p) ∧ ∀ t, t ∈ eligible l → prio t < top → prio t ≤ p.

(** [t] is the first eligible task of its priority, and [l'] the ready rest in order. *)
Definition taken (l : list TaskRef) (p : Z) (t : TaskRef) (l' : list TaskRef) : Prop :=
  ∃ l1 l2, filter (is_ready h) l = l1 ++ t :: l2 ∧ l' = l1 ++ l2 ∧ t ∈ eligible l ∧ prio t = p ∧
    ∀ u, u ∈ l1 → runs_here u → prio u ≠ p.

Lemma elem_of_eligible l t : t ∈ eligible l ↔ t ∈ filter (is_ready h) l ∧ runs_here t.
Proof. unfold eligible. rewrite !list_elem_of_filter. tauto. Qed.

Lemma first_at_taken l p i :
  first_at (filter (is_ready h) l) p i →
  ∀ q, rq_wf h q → rq_tasks q = filter (is_ready h) l →
  ∃ q' t, rq_remove_at h q i = (q', Some t) ∧ rq_wf h q' ∧ taken l p t (rq_tasks q') ∧ prio t = p.
Proof.
  intros (l1&t&l2&Hl&<-&Hr&Hp&Hn) q Hw Hq. rewrite Hl in Hq.
  destruct (rq_remove_at_ok q l1 t l2 Hw Hq) as (q'&He&Hw'&Hq'). exists q', t. split; [done|]. split; [done|].
  split; [|done]. exists l1, l2. split; [done|]. split; [done|]. split; [|done].
  rewrite elem_of_eligible, Hl. split; [|done]. rewrite elem_of_app. right. by constructor.
Qed.

Lemma first_at_member l p i : first_at (filter (is_ready h) l) p i → ∃ t, t ∈ eligible l ∧ prio t = p.
Proof.
  intros (l1&t&l2&Hl&_&Hr&Hp&_). exists t. split; [|done]. rewrite elem_of_eligible, Hl. split; [|done].
  rewrite elem_of_app. right. by constructor.
Qed.

(** The outcome of [fetch_from_queue] on the tasks [l]. *)
Definition fetched (l : list TaskRef) (rt_runs : Z) (l' : list TaskRef) (rt_runs' : Z) (r : option TaskRef) : Prop :=
  match r with
  | None => eligible l = [] ∧ l' = filter (is_ready h) l ∧ rt_runs' = rt_runs
  | Some t => ∃ top, top_level l top ∧
      ((RT_LOWER_RUN_BUDGET ≤ rt_runs ∧ rt_runs' = 0 ∧ ∃ low, next_level l top low ∧ taken l low t l') ∨
       ((rt_runs < RT_LOWER_RUN_BUDGET ∨ ∀ low, ¬ next_level l top low) ∧
        rt_runs' = (if bool_decide (0 < top) then wrap (rt_runs + 1) else 0) ∧ taken l top t l'))
  end.

Lemma fetch_from_queue_ok q rt_runs :
  (∀ t, 0 ≤ prio t) → rq_wf h q →
  let '(q', rt_runs', r) := fetch_from_queue h online cpu q rt_runs in
  rq_wf h q' ∧ fetched (rq_tasks q) rt_runs (rq_tasks q') rt_runs' r.
Proof.
  intros Hp Hw. unfold fetch_from_queue.
  destruct (fetch_loop_ok (length (rq_tasks q)) q [] (rq_tasks q) (mkScan None 0 None 0) Hw eq_refl (le_n _))
    as (q1&He&Hw1&Hq1). simpl in He, Hq1. rewrite He. set (l := rq_tasks q) in *.
  pose proof (scan_list_ok [] (filter (is_ready h) l) (mkScan None 0 None 0) Hp) as Hsc. simpl in Hsc.
  specialize (Hsc scan_ok_nil).
  set (sc := scan_list _ _ _) in *. clearbody sc. destruct Hsc as [Hb Ht Hl Hs [Hn1 Hn2]].
  assert (Htop : ∀ t, t ∈ eligible l → prio t ≤ best_priority sc).
  { intros t [Hin Hr]%elem_of_eligible. by apply Ht. }
  destruct (best_index sc) as [i|] eqn:Ei.
  2:{ destruct Hb as [Hb0 Hnone]. rewrite bool_decide_eq_false_2 by lia. split; [done|]. split; [|done].
      destruct (eligible l) as [|t E] eqn:EE; [done|]. exfalso.
      assert (Hin : t ∈ eligible l) by (rewrite EE; constructor). apply elem_of_eligible in Hin as [Hin Hr].
      by apply (Hnone t Hin). }
  assert (Hlevel : top_level l (best_priority sc)) by (split; [by eapply first_at_member|done]).
  destruct (lower_rt_index sc) as [j|] eqn:Ej.
  - destruct Hl as [Hj Hjp].
    assert (Hnext : next_level l (best_priority sc) (lower_rt_priority sc)).
    { split; [done|]. split; [by eapply first_at_member|]. intros t [Hin Hr]%elem_of_eligible Hlt. by apply Hs. }
    rewrite bool_decide_eq_true_2 by lia. rewrite (bool_decide_eq_true_2 (is_Some (Some j))) by done. rewrite andb_true_r.
    destruct (decide (RT_LOWER_RUN_BUDGET ≤ rt_runs)) as [Hrt|Hrt].
    + rewrite bool_decide_eq_true_2 by done.
      destruct (first_at_taken l _ j Hj q1 Hw1 Hq1) as (q2&t&->&Hw2&Htk&Hpt). split; [done|].
      exists (best_priority sc). split; [done|]. left. split; [done|]. split; [|by eauto].
      rewrite (bool_decide_eq_false_2 (effective_sched_priority _ = _)) by (unfold prio in Hpt; lia).
      by rewrite andb_false_r.
    + rewrite bool_decide_eq_false_2 by done.
      destruct (first_at_taken l _ i Hb q1 Hw1 Hq1) as (q2&t&->&Hw2&Htk&Hpt). split; [done|].
      exists (best_priority sc). split; [done|]. right. split; [left; lia|]. split; [|done].
      unfold prio in Hpt. rewrite Hpt, !(bool_decide_eq_true_2 (0 < best_priority sc)) by lia.
      by rewrite (bool_decide_eq_true_2 (best_priority sc = _)).
  - assert (Hno : ∀ low, ¬ next_level l (best_priority sc) low).
    { intros low (Hlow&(t&Hin&Hpt)&_). apply elem_of_eligible in Hin as [Hin Hr].
      specialize (Hs t Hin Hr ltac:(lia)). lia. }
    assert (Hch : (if bool_decide (0 < best_priority sc) then
      if bool_decide (RT_LOWER_RUN_BUDGET ≤ rt_runs) && bool_decide (is_Some (@None nat)) then None else Some i
      else Some i) = Some i).
    { rewrite (bool_decide_eq_false_2 (is_Some _)) by (by intros [? ?]). rewrite andb_false_r. by case_bool_decide. }
    rewrite Hch. destruct (first_at_taken l _ i Hb q1 Hw1 Hq1) as (q2&t&->&Hw2&Htk&Hpt). split; [done|].
    exists (best_priority sc). split; [done|]. right. split; [by right|]. split; [|done].
    unfold prio in Hpt. rewrite Hpt, (bool_decide_eq_true_2 (best_priority sc = _)) by done.
    rewrite andb_true_r. by case_bool_decide.
Qed.

End queue.

(** ** The other operations *)

Section operations.
Context (h : Store).

Lemma rq_remove_at_wf q i : rq_wf h q → rq_wf h (rq_remove_at h q i).1.
Proof.
  intros Hw. destruct (rq_tasks q !! i) as [t|] eqn:E; [|unfold rq_remove_at; by rewrite E].
  apply list_elem_of_split_length in E as (l1&l2&Hq&->). destruct (rq_remove_at_ok h q l1 t l2 Hw Hq) as (q'&->&Hw'&_). done.
Qed.

Lemma has_runnable_loop_ok fuel online cpu q before rest :
  rq_wf h q → rq_tasks q = before ++ rest → (length rest ≤ fuel)%nat →
  ∃ q' b, has_runnable_loop fuel h online cpu q (length before) = (q', b) ∧ rq_wf h q' ∧
    (b = true ↔ eligible h online cpu rest ≠ []) ∧
    ∃ rest', rq_tasks q' = before ++ rest' ∧ filter (is_ready h) rest' = filter (is_ready h) rest.
Proof.
  revert q before rest. induction fuel as [|fuel IH]; intros q before rest Hw Hq Hf.
  { destruct rest; [|simpl in Hf; lia]. exists q, false. split; [done|]. split; [done|]. split; [done|]. by exists []. }
  simpl. rewrite Hq. destruct rest as [|t rest].
  { rewrite lookup_ge_None_2 by (rewrite app_nil_r; done). exists q, false. split; [done|]. split; [done|].
    split; [done|]. by exists []. }
  rewrite list_lookup_middle by done. unfold eligible. destruct (decide (is_ready h t)) as [Hr|Hr].
  - rewrite bool_decide_eq_false_2 by (intros ?; done). destruct (can_run_on_cpu online cpu (h !!! t)) eqn:Ec.
    { exists q, true. split; [done|]. split; [done|]. rewrite filter_cons_True by done. split; [done|]. by exists (t :: rest). }
    rewrite (filter_cons_False (λ t, is_ready h t ∧ _)) by (unfold runs_here; intros [_ ?]; congruence).
    destruct (IH q (before ++ [t]) rest Hw) as (q'&b&He&Hw'&Hb&rest'&Ht&Hfil); [by rewrite Hq, <-app_assoc|simpl in Hf; lia|].
    rewrite length_app, Nat.add_1_r in He. exists q', b. split; [done|]. split; [done|]. split; [done|].
    exists (t :: rest'). rewrite Ht, <-app_assoc. split; [done|]. rewrite !(filter_cons_True (is_ready h)) by done. by rewrite Hfil.
  - rewrite bool_decide_eq_true_2 by done. rewrite (filter_cons_False (λ t, is_ready h t ∧ _)) by tauto.
    destruct (rq_remove_at_ok h q before t rest Hw Hq) as (q1&->&Hw1&Hq1).
    destruct (IH q1 before rest Hw1 Hq1) as (q'&b&He&Hw'&Hb&rest'&Ht&Hfil); [simpl in Hf; lia|].
    exists q', b. split; [done|]. split; [done|]. split; [done|]. exists rest'. split; [done|].
    by rewrite (filter_cons_False (is_ready h)).
Qed.

Lemma has_runnable_task_ok online cpu q :
  rq_wf h q → ∃ q' b, has_runnable_task h online cpu q = (q', b) ∧ rq_wf h q' ∧
    (b = true ↔ eligible h online cpu (rq_tasks q) ≠ []) ∧
    filter (is_ready h) (rq_tasks q') = filter (is_ready h) (rq_tasks q).
Proof.
  intros Hw. destruct (has_runnable_loop_ok (length (rq_tasks q)) online cpu q [] (rq_tasks q) Hw eq_refl (le_n _))
    as (q'&b&He&Hw'&Hb&rest'&Ht&Hf). exists q', b. split; [done|]. split; [done|]. split; [done|]. by rewrite Ht.
Qed.

Lemma fetch_from_queue_wf online cpu q rt : rq_wf h q → rq_wf h (fetch_from_queue h online cpu q rt).1.1.
Proof.
  intros Hw. unfold fetch_from_queue.
  destruct (fetch_loop_ok h online cpu (length (rq_tasks q)) q [] (rq_tasks q) (mkScan None 0 None 0) Hw eq_refl (le_n _))
    as (q1&He&Hw1&_). simpl in He. rewrite He. set (ch := if bool_decide _ then _ else _). destruct ch as [i|]; [|done].
  pose proof (rq_remove_at_wf q1 i Hw1). by destruct (rq_remove_at h q1 i) as [q2 [t|]].
Qed.

Lemma remove_task_from_queue_ok q pid :
  rq_wf h q → let '(q', r) := remove_task_from_queue h q pid in
  rq_wf h q' ∧ rq_tasks q' = filter (λ t, t_pid (h !!! t) ≠ pid) (rq_tasks q) ∧
  match r with Some t => t ∈ rq_tasks q ∧ t_pid (h !!! t) = pid | None => pid ∉ pids h (rq_tasks q) end.
Proof.
  intros Hw. unfold remove_task_from_queue. destruct (list_find _ _) as [[i t]|] eqn:E.
  - apply list_find_Some in E as (Hi&Hp&_). apply list_elem_of_split_length in Hi as (l1&l2&Hq&->).
    destruct (rq_remove_at_ok h q l1 t l2 Hw Hq) as (q'&->&Hw'&Hq'). split; [done|]. rewrite Hq', Hq.
    split; [|split; [rewrite elem_of_app; right; by constructor|done]].
    destruct Hw as [_ Hn]. rewrite Hq, pids_app in Hn. simpl in Hn. apply NoDup_app in Hn as (_&Hd&[Hn _]%NoDup_cons).
    rewrite filter_app, filter_cons_False by (simpl; tauto). rewrite !filter_keep_all; [done| |].
    + apply Forall_forall. intros u Hu Heq. apply Hn. unfold pids. rewrite list_elem_of_fmap. exists u. by rewrite Heq.
    + apply Forall_forall. intros u Hu Heq. apply (Hd (t_pid (h !!! u))); [unfold pids; apply list_elem_of_fmap; eauto|].
      rewrite Heq, Hp. by constructor.
  - split; [done|]. apply list_find_None in E. split; [symmetry; apply filter_keep_all; by eapply Forall_impl|].
    unfold pids. rewrite list_elem_of_fmap. intros (u&->&Hu). by apply (proj1 (Forall_forall _ _) E u Hu).
Qed.

Lemma retain_loop_ok keep kept ps l :
  ps = list_to_set (pids h kept) → NoDup (pids h kept) → NoDup (pids h (kept ++ l)) →
  retain_loop h keep kept ps l = mkRq (kept ++ filter (λ t, keep t = true) l)
    (list_to_set (pids h (kept ++ filter (λ t, keep t = true) l))).
Proof.
  revert kept ps. induction l as [|t l IH]; intros kept ps -> Hn Hnd; [by rewrite app_nil_r|]. simpl.
  assert (Hnd' : NoDup (pids h (kept ++ l)) ∧ t_pid (h !!! t) ∉ pids h kept).
  { rewrite pids_app in *. simpl in Hnd. apply NoDup_app in Hnd as (Hn1&Hd&[Hn2 Hn3]%NoDup_cons). split.
    - apply NoDup_app. split; [done|]. split; [|done]. intros x Hx Hx'. apply (Hd x Hx). by constructor.
    - intros Hin. apply (Hd _ Hin). by constructor. }
  destruct Hnd' as [Hnd' Hnt]. rewrite (bool_decide_eq_true_2 (_ ∉ _)) by (by rewrite elem_of_list_to_set).
  rewrite andb_true_r. destruct (keep t) eqn:Ek.
  - rewrite filter_cons_True by done. rewrite IH.
    + by rewrite <-!app_assoc.
    + rewrite pids_app, list_to_set_app_L. simpl. set_solver.
    + rewrite pids_app. simpl. apply NoDup_app. split; [done|]. split; [|apply NoDup_singleton].
      intros x Hx ->%list_elem_of_singleton. done.
    + by rewrite <-app_assoc.
  - rewrite filter_cons_False by congruence. by apply IH.
Qed.

Lemma retain_queue_ok q keep :
  rq_wf h q → rq_wf h (retain_queue h q keep) ∧ rq_tasks (retain_queue h q keep) = filter (λ t, keep t = true) (rq_tasks q).
Proof.
  intros [Hp Hn]. unfold retain_queue. rewrite retain_loop_ok; [|done|constructor|done]. simpl. split; [|done].
  split; [done|]. simpl. eapply sublist_NoDup; [exact Hn|]. unfold pids. apply fmap_sublist, sublist_filter.
Qed.

Lemma remove_instances_loop_ok task kept ps n l :
  remove_instances_loop h task kept ps n l =
    (mkRq (kept ++ filter (λ t, t_pid (h !!! t) ≠ t_pid (h !!! task)) l)
       (if bool_decide (t_pid (h !!! task) ∈ pids h l) then ps ∖ {[t_pid (h !!! task)]} else ps),
     n + zlen (filter (λ t, t_pid (h !!! t) = t_pid (h !!! task)) l)).
Proof.
  revert kept ps n. induction l as [|t l IH]; intros kept ps n; simpl.
  { rewrite app_nil_r. unfold zlen. simpl. by rewrite Z.add_0_r. }
  rewrite (bool_decide_ext _ (t_pid (h !!! t) = t_pid (h !!! task))) by naive_solver.
  destruct (decide (t_pid (h !!! t) = t_pid (h !!! task))) as [He|He].
  - rewrite bool_decide_eq_true_2 by done. rewrite IH, He, (filter_cons_False (λ t, _ ≠ _)) by tauto.
    rewrite (filter_cons_True (λ t, _ = _)) by done. rewrite zlen_cons.
    rewrite (bool_decide_eq_true_2 (_ ∈ _ :: _)) by (by constructor). f_equal; [|lia]. f_equal.
    case_bool_decide; [set_solver|done].
  - rewrite bool_decide_eq_false_2 by done. rewrite IH, (filter_cons_True (λ t, _ ≠ _)) by done.
    rewrite (filter_cons_False (λ t, _ = _)) by done. rewrite <-app_assoc. f_equal. f_equal.
    by rewrite (bool_decide_ext _ _ (elem_of_cons _ _ _)), (bool_decide_ext (_ ∨ _) (t_pid (h !!! task) ∈ pids h l)) by naive_solver.
Qed.

Lemma remove_task_instances_from_queue_ok q task :
  rq_wf h q → let '(q', n) := remove_task_instances_from_queue h q task in
  rq_wf h q' ∧ rq_tasks q' = filter (λ t, t_pid (h !!! t) ≠ t_pid (h !!! task)) (rq_tasks q) ∧
  rq_len q' + n = rq_len q.
Proof.
  intros [Hp Hn]. unfold remove_task_instances_from_queue. rewrite remove_instances_loop_ok. simpl.
  split; [|split; [done|]].
  - split; simpl; [|eapply sublist_NoDup; [exact Hn|]; unfold pids; apply fmap_sublist, sublist_filter].
    assert (Hpid : ∀ x l, x ∈ pids h l ↔ ∃ t, x = t_pid (h !!! t) ∧ t ∈ l) by (intros; apply list_elem_of_fmap).
    rewrite Hp. apply set_eq. intros x.
    case_bool_decide as Hin; rewrite ?elem_of_difference, ?elem_of_singleton, !elem_of_list_to_set, !Hpid in *;
      setoid_rewrite list_elem_of_filter; naive_solver.
  - unfold rq_len. simpl. apply (zlen_filter_split (λ t, t_pid (h !!! t) = t_pid (h !!! task))).
Qed.

End operations.

(** ** The manager's invariant *)

Definition mgr_wf (h : Store) (m : Manager) : Prop := rq_wf h (m_user m) ∧ rq_wf h (m_kernel m).

Lemma mgr_wf_queue h m k : mgr_wf h m → rq_wf h (get_queue m k).
Proof. intros [? ?]. by destruct k. Qed.

Lemma mgr_wf_set h m k q : mgr_wf h m → rq_wf h q → mgr_wf h (set_queue m k q).
Proof. intros [? ?] ?. by destruct k. Qed.

Lemma mgr_wf_notify h cp m a : mgr_wf h m → mgr_wf h (notify cp m a).
Proof. intros [? ?]. unfold notify. by destruct (notify_runnable_for _ _ _ _). Qed.

Lemma mgr_wf_push h push cp m k t b :
  (∀ q, rq_wf h q → rq_wf h (push h q t).1) → mgr_wf h m → mgr_wf h (push_task push cp h m k t b).
Proof.
  intros Hp Hm. unfold push_task. case_bool_decide; [done|].
  pose proof (Hp _ (mgr_wf_queue h m k Hm)) as Hq. destruct (push h (get_queue m k) t) as [q i].
  destruct (i && b); [apply mgr_wf_notify|]; by apply mgr_wf_set.
Qed.

Lemma push_back_wf h t q : rq_wf h q → rq_wf h (rq_push_back h q t).1.
Proof. intros Hw. pose proof (rq_push_back_ok h q t Hw) as H. destruct (rq_push_back h q t). apply H. Qed.

Lemma push_front_wf h t q : rq_wf h q → rq_wf h (rq_push_front h q t).1.
Proof. intros Hw. pose proof (rq_push_front_ok h q t Hw) as H. destruct (rq_push_front h q t). apply H. Qed.

Lemma mgr_wf_fetch h cp m k : mgr_wf h m → mgr_wf h (fetch_queue cp h m k).1.
Proof.
  intros Hm. unfold fetch_queue.
  pose proof (fetch_from_queue_wf h (online_mask cp) (current_cpu cp) (get_queue m k) (m_rt_runs m) (mgr_wf_queue h m k Hm)) as Hq.
  destruct (fetch_from_queue _ _ _ _ _) as [[q rt] r]. simpl in *. pose proof (mgr_wf_set h m k q Hm Hq) as [? ?]. by destruct k.
Qed.

Lemma mgr_wf_has h cp m k : mgr_wf h m → mgr_wf h (has_task_in cp h m k).1.
Proof.
  intros Hm. unfold has_task_in.
  destruct (has_runnable_task_ok h (online_mask cp) (current_cpu cp) (get_queue m k) (mgr_wf_queue h m k Hm)) as (q&b&->&Hq&_).
  by apply mgr_wf_set.
Qed.

(** What may happen to the manager and the store.  A task's pid never changes. *)
Inductive mgr_step : Store * Manager → Store * Manager → Prop :=
  | StAdd cp h m t : mgr_step (h, m) (h, add_task cp h m t)
  | StAddFront cp h m t : mgr_step (h, m) (h, add_task_front cp h m t)
  | StAddLocal cp h m t : mgr_step (h, m) (h, add_task_local cp h m t)
  | StAddFrontLocal cp h m t : mgr_step (h, m) (h, add_task_front_local cp h m t)
  | StFetch cp h m : mgr_step (h, m) (h, (fetch_task cp h m).1)
  | StFetchUser cp h m : mgr_step (h, m) (h, (fetch_user_task_for_foreground cp h m).1)
  | StFetchKernel cp h m : mgr_step (h, m) (h, (fetch_kernel_task cp h m).1)
  | StHas cp h m : mgr_step (h, m) (h, (has_task cp h m).1)
  | StRemove h m pid : mgr_step (h, m) (h, (remove_task h m pid).1)
  | StRemoveInstances h m t : mgr_step (h, m) (h, (remove_task_instances h m t).1)
  | StRetain h m keep : mgr_step (h, m) (h, retain_tasks h m keep)
  | StRegister h m t : mgr_step (h, m) (h, register_task m t)
  | StExited h m pid tgid : mgr_step (h, m) (h, record_exited_task m pid tgid)
  | StLive h m alive : mgr_step (h, m) (h, (live_tasks alive m).1)
  | StTcb h m t tcb : t_pid tcb = t_pid (h !!! t) → mgr_step (h, m) (<[t := tcb]> h, m).

Lemma rq_wf_store h h' q : (∀ t, t_pid (h' !!! t) = t_pid (h !!! t)) → rq_wf h q → rq_wf h' q.
Proof.
  intros Hp. unfold rq_wf. assert (He : pids h' (rq_tasks q) = pids h (rq_tasks q)).
  { unfold pids. apply list_fmap_ext. intros i t _. apply Hp. }
  by rewrite He.
Qed.

Lemma mgr_step_wf h m h' m' : mgr_step (h, m) (h', m') → mgr_wf h m → mgr_wf h' m'.
Proof.
  intros Hs. remember (h, m) as a eqn:Ea. remember (h', m') as b eqn:Eb.
  destruct Hs; simplify_eq; intros Hm.
  1-4: apply mgr_wf_push; [by intros; (apply push_back_wf || apply push_front_wf)|done].
  - unfold fetch_task, fetch_user_task_for_foreground, fetch_kernel_task. pose proof (mgr_wf_fetch h cp m false Hm) as H1.
    destruct (fetch_queue cp h m false) as [m1 [t|]]; [done|]. by apply mgr_wf_fetch.
  - by apply mgr_wf_fetch.
  - by apply mgr_wf_fetch.
  - unfold has_task. pose proof (mgr_wf_has h cp m false Hm) as H1.
    destruct (has_task_in cp h m false) as [m1 []]; [done|]. by apply mgr_wf_has.
  - destruct Hm as [Hu Hk]. unfold remove_task. pose proof (remove_task_from_queue_ok h (m_user m) pid Hu) as H1.
    destruct (remove_task_from_queue h (m_user m) pid) as [q [t|]]; destruct H1 as [H1 _]; [by split|].
    pose proof (remove_task_from_queue_ok h (m_kernel m) pid Hk) as H2. simpl.
    destruct (remove_task_from_queue h (m_kernel m) pid) as [q2 r]. by destruct H2.
  - destruct Hm as [Hu Hk]. unfold remove_task_instances.
    pose proof (remove_task_instances_from_queue_ok h (m_user m) t Hu) as H1.
    pose proof (remove_task_instances_from_queue_ok h (m_kernel m) t Hk) as H2.
    destruct (remove_task_instances_from_queue h (m_user m) t), (remove_task_instances_from_queue h (m_kernel m) t).
    split; [apply H1|apply H2].
  - destruct Hm as [Hu Hk]. split; [exact (proj1 (retain_queue_ok h _ keep Hu))|exact (proj1 (retain_queue_ok h _ keep Hk))].
  - done.
  - unfold record_exited_task. by case_bool_decide.
  - unfold live_tasks. by destruct (live_loop _ _ _ _ _).
  - assert (Hp : ∀ u, t_pid (<[t := tcb]> h !!! u) = t_pid (h !!! u)).
    { intros u. destruct (decide (u = t)) as [->|]; [by rewrite lookup_total_insert_eq|by rewrite lookup_total_insert_ne]. }
    destruct Hm as [Hu Hk]. split; by eapply rq_wf_store.
Qed.

(** A queue offers a task exactly when fetching from it gives one. *)
Lemma fetched_eligible h online cpu l rt l' rt' r : fetched h online cpu l rt l' rt' r → is_Some r ↔ eligible h online cpu l ≠ [].
Proof.
  destruct r as [t|]; simpl.
  - intros (top&[(u&Hu&_) _]&_). split; [|by eexists]. intros _ He. rewrite He in Hu. by apply not_elem_of_nil in Hu.
  - intros (He&_). rewrite He. split; [by intros [? ?]|done].
Qed.

Lemma eligible_ready h online cpu l l' :
  filter (is_ready h) l = filter (is_ready h) l' → eligible h online cpu l = eligible h online cpu l'.
Proof.
  intros Hf. assert (Hx : ∀ k, eligible h online cpu k = filter (runs_here h online cpu) (filter (is_ready h) k)).
  { intros k. unfold eligible. rewrite list_filter_filter. apply list_filter_iff. tauto. }
  by rewrite !Hx, Hf.
Qed.

(** ** The registry *)

Lemma live_loop_ok fuel alive before rest tasks :
  (length rest ≤ fuel)%nat →
  live_loop fuel alive (before ++ rest) (length before) tasks =
    (before ++ filter (λ t, t ∈ alive) rest, tasks ++ filter (λ t, t ∈ alive) rest).
Proof.
  revert before rest tasks. induction fuel as [|fuel IH]; intros before rest tasks Hf.
  { destruct rest; [|simpl in Hf; lia]. simpl. by rewrite !app_nil_r. }
  simpl. destruct rest as [|t rest].
  { rewrite lookup_ge_None_2 by (rewrite app_nil_r; done). by rewrite !app_nil_r. }
  rewrite list_lookup_middle by done. simpl in Hf. destruct (decide (t ∈ alive)) as [Ha|Ha].
  - rewrite bool_decide_eq_true_2, filter_cons_True by done.
    pose proof (IH (before ++ [t]) rest (tasks ++ [t]) ltac:(lia)) as H.
    rewrite length_app, Nat.add_1_r, <-!app_assoc in H. exact H.
  - rewrite bool_decide_eq_false_2, filter_cons_False by done. rewrite delete_middle. apply IH. lia.
Qed.

(** ** Theorems *)

Definition mgr_init : Manager := mkMgr rq_new rq_new 0 [] [] 0 [].

(** Priorities are machine words. *)
Definition priorities_ok (h : Store) : Prop := ∀ t, 0 ≤ t_sched_priority (h !!! t).

Lemma prio_nonneg h : priorities_ok h → ∀ t, 0 ≤ prio h t.
Proof. intros Hp t. unfold prio, effective_sched_priority. specialize (Hp t). by case_bool_decide. Qed.

(** Through every sequence of enqueues, fetches, checks, removals and changes of task
    state, the pid set of each ready queue is exactly the set of pids in its deque and no
    task is queued twice. *)
Theorem ready_queues_mirrored h0 h m : rtc mgr_step (h0, mgr_init) (h, m) → mgr_wf h m.
Proof.
  intros Hs. assert (Hx : ∀ a b, rtc mgr_step a b → mgr_wf a.1 a.2 → mgr_wf b.1 b.2).
  { induction 1 as [|[h1 m1] [h2 m2] b Hst _ IH]; [done|]. intros Hw. apply IH. by eapply mgr_step_wf. }
  by apply (Hx _ _ Hs); split; apply rq_new_wf.
Qed.

(** [fetch_from_queue] takes the first ready task, in queue order, of the highest
    priority among those that may run on this CPU, or, when the top real-time level has
    used its budget and a lower real-time level waits, the first task of the next level.
    It gives nothing exactly when no queued task may run here.  What is left is the queue
    in the same order without that task and without the tasks that were no longer ready. *)
Theorem fetch_from_queue_correct h online cpu q rt_runs :
  priorities_ok h → rq_wf h q →
  let '(q', rt_runs', r) := fetch_from_queue h online cpu q rt_runs in
  rq_wf h q' ∧ fetched h online cpu (rq_tasks q) rt_runs (rq_tasks q') rt_runs' r.
Proof. intros Hp Hw. apply fetch_from_queue_ok; [by apply prio_nonneg|done]. Qed.

(** Real-time levels alternate: of two consecutive fetches that both find a lower
    real-time level behind the top one, exactly one serves the top level and the other
    the next level, whatever the counter was before. *)
Theorem rt_levels_alternate h1 h2 online1 cpu1 online2 cpu2 q1 q2 rt top1 low1 top2 low2 :
  priorities_ok h1 → priorities_ok h2 → rq_wf h1 q1 → rq_wf h2 q2 → 0 ≤ rt < USIZE_MAX →
  top_level h1 online1 cpu1 (rq_tasks q1) top1 → next_level h1 online1 cpu1 (rq_tasks q1) top1 low1 →
  top_level h2 online2 cpu2 (rq_tasks q2) top2 → next_level h2 online2 cpu2 (rq_tasks q2) top2 low2 →
  let '(_, rt', r1) := fetch_from_queue h1 online1 cpu1 q1 rt in
  let '(_, _, r2) := fetch_from_queue h2 online2 cpu2 q2 rt' in
  ∃ t1 t2, r1 = Some t1 ∧ r2 = Some t2 ∧
    (prio h1 t1 = top1 ∧ prio h2 t2 = low2 ∨ prio h1 t1 = low1 ∧ prio h2 t2 = top2).
Proof.
  intros Hp1 Hp2 Hw1 Hw2 Hrt Ht1 Hl1 Ht2 Hl2.
  assert (Hcase : ∀ h online cpu q rt top low, priorities_ok h → rq_wf h q → top_level h online cpu (rq_tasks q) top →
    next_level h online cpu (rq_tasks q) top low → 0 ≤ rt < USIZE_MAX →
    let '(_, rt', r) := fetch_from_queue h online cpu q rt in
    ∃ t, r = Some t ∧ (rt = 0 ∧ rt' = 1 ∧ prio h t = top ∨ 1 ≤ rt ∧ rt' = 0 ∧ prio h t = low)).
  { clear. intros h online cpu q rt top low Hp Hw Ht Hl Hrt.
    pose proof (fetch_from_queue_ok h online cpu q rt (prio_nonneg h Hp) Hw) as H.
    destruct (fetch_from_queue h online cpu q rt) as [[q' rt'] r]. destruct H as [_ H].
    destruct Ht as [(u&Hu&Hpu) Hmax]. destruct Hl as (Hlt&(w&Hw'&Hpw)&Hlow).
    destruct r as [t|]; simpl in H; [|destruct H as [He _]; rewrite He in Hu; by apply not_elem_of_nil in Hu].
    destruct H as (top'&[(u'&Hu'&Hpu') Hmax']&H). exists t. split; [done|].
    assert (top' = top) as -> by (pose proof (Hmax u' Hu'); pose proof (Hmax' u Hu); lia).
    unfold RT_LOWER_RUN_BUDGET in H.
    destruct H as [(Hb&->&low'&(Hlt'&(w'&Hw''&Hpw')&Hlow')&(l1&l2&_&_&_&Hpt&_))|(Hb&->&(l1&l2&_&_&_&Hpt&_))].
    - right. split; [done|]. split; [done|]. rewrite Hpt.
      pose proof (Hlow w' Hw'' ltac:(lia)). pose proof (Hlow' w Hw' ltac:(lia)). lia.
    - left. destruct Hb as [Hb|Hb]; [|exfalso; apply (Hb low); split; [done|eauto]].
      assert (rt = 0) as -> by lia. rewrite bool_decide_eq_true_2 by lia. done. }
  pose proof (Hcase h1 online1 cpu1 q1 rt top1 low1 Hp1 Hw1 Ht1 Hl1 Hrt) as H1.
  destruct (fetch_from_queue h1 online1 cpu1 q1 rt) as [[q1' rt'] r1]. destruct H1 as (t1&->&H1).
  pose proof (Hcase h2 online2 cpu2 q2 rt' top2 low2 Hp2 Hw2 Ht2 Hl2) as H2.
  destruct (fetch_from_queue h2 online2 cpu2 q2 rt') as [[q2' rt''] r2].
  destruct H2 as (t2&->&H2); [unfold USIZE_MAX; lia|]. exists t1, t2. split; [done|]. split; [done|]. lia.
Qed.

(** [has_task] answers true exactly when a fetch at that moment would give this CPU a
    task, although both purge the queues on the way. *)
Theorem has_task_iff_fetch cp h m :
  priorities_ok h → mgr_wf h m → (has_task cp h m).2 = true ↔ is_Some (fetch_task cp h m).2.
Proof.
  intros Hp Hm.
  assert (Hfetch : ∀ m k, mgr_wf h m → is_Some (fetch_queue cp h m k).2 ↔
    eligible h (online_mask cp) (current_cpu cp) (rq_tasks (get_queue m k)) ≠ []).
  { clear m Hm. intros m k Hm. unfold fetch_queue.
    pose proof (fetch_from_queue_ok h (online_mask cp) (current_cpu cp) (get_queue m k) (m_rt_runs m)
      (prio_nonneg h Hp) (mgr_wf_queue h m k Hm)) as H.
    destruct (fetch_from_queue _ _ _ _ _) as [[q rt] r]. destruct H as [_ H]. by apply fetched_eligible in H. }
  assert (Hhas : ∀ m k, mgr_wf h m → (has_task_in cp h m k).2 = true ↔
    eligible h (online_mask cp) (current_cpu cp) (rq_tasks (get_queue m k)) ≠ []).
  { clear m Hm. intros m k Hm. unfold has_task_in.
    destruct (has_runnable_task_ok h (online_mask cp) (current_cpu cp) (get_queue m k) (mgr_wf_queue h m k Hm))
      as (q&b&->&_&Hb&_). exact Hb. }
  assert (Hkeep : get_queue (has_task_in cp h m false).1 true = m_kernel m ∧
    get_queue (fetch_queue cp h m false).1 true = m_kernel m).
  { unfold has_task_in, fetch_queue. destruct (has_runnable_task _ _ _ _).
    by destruct (fetch_from_queue _ _ _ _ _) as [[? ?] ?]. }
  destruct Hkeep as [Hk1 Hk2]. unfold has_task, fetch_task, fetch_user_task_for_foreground, fetch_kernel_task.
  pose proof (Hhas m false Hm) as H1. pose proof (Hfetch m false Hm) as H2.
  pose proof (mgr_wf_has h cp m false Hm) as Hw1. pose proof (mgr_wf_fetch h cp m false Hm) as Hw2.
  destruct (has_task_in cp h m false) as [m1 b1], (fetch_queue cp h m false) as [m2 r2]. simpl in *.
  destruct b1, r2 as [t|]; simpl; [by split; eauto| | |].
  - exfalso. assert (Hn : is_Some (@None TaskRef)) by (by apply H2, H1). by destruct Hn.
  - exfalso. assert (false = true) by (apply H1, H2; eauto). done.
  - rewrite (Hhas m1 true Hw1), (Hfetch m2 true Hw2). simpl. by rewrite Hk1, Hk2.
Qed.

(** A task published for the CPUs of [eligible] wakes the lowest-numbered idle, online
    CPU among them other than the publisher, claims exactly that CPU's idle bit, and
    nobody only when there is none. *)
Theorem notify_runnable_for_lowest online current idle eligible_mask :
  0 ≤ idle → 0 ≤ current →
  let wanted k := Z.testbit idle k && Z.testbit eligible_mask k && Z.testbit online k && bool_decide (k ≠ current) in
  match notify_runnable_for online current idle eligible_mask with
  | (idle', Some cpu) => 0 ≤ cpu ∧ wanted cpu = true ∧ (∀ k, 0 ≤ k < cpu → wanted k = false) ∧
      ∀ k, 0 ≤ k → Z.testbit idle' k = Z.testbit idle k && bool_decide (k ≠ cpu)
  | (idle', None) => idle' = idle ∧ ∀ k, 0 ≤ k → wanted k = false
  end.
Proof.
  intros Hi Hc wanted. unfold notify_runnable_for. set (targets := Z.land idle _).
  assert (Hbit : ∀ c k, 0 ≤ c → 0 ≤ k → Z.testbit (Z.shiftl 1 c) k = bool_decide (k = c)).
  { intros c k Hc' Hk. rewrite Z.shiftl_spec by done. destruct (decide (k = c)) as [->|Hne].
    - by rewrite bool_decide_eq_true_2, Z.sub_diag by done.
    - rewrite bool_decide_eq_false_2 by done. destruct (decide (k < c)); [apply Z.testbit_neg_r; lia|].
      apply Z.bits_above_log2; [lia|]. change (Z.log2 1) with 0. lia. }
  assert (Ht : ∀ k, 0 ≤ k → Z.testbit targets k = wanted k).
  { intros k Hk. unfold targets, wanted. rewrite Z.land_spec, Z.ldiff_spec, Z.land_spec, Hbit by done.
    rewrite bool_decide_not. by rewrite !andb_assoc. }
  assert (Hpos : 0 ≤ targets) by (apply Z.land_nonneg; by left).
  case_bool_decide as H0.
  - split; [done|]. intros k Hk. by rewrite <-Ht, H0, Z.bits_0.
  - destruct (trailing_zeros_spec targets ltac:(lia)) as [Hz1 Hz2]. set (cpu := Z.of_nat (trailing_zeros targets)) in *.
    split; [lia|]. split; [by rewrite <-Ht by lia|]. split; [intros k Hk; by rewrite <-Ht by lia; apply Hz2|].
    intros k Hk. rewrite Z.ldiff_spec, Hbit by lia. by rewrite bool_decide_not.
Qed.

(** ** A concrete queue *)

Definition demo_tcb (pid : Z) (st : TaskStatus) (policy priority : Z) : Tcb :=
  mkTcb pid pid pid false st None None 0 policy priority 3 NO_CPU.

(** A normal task, two real-time levels, and a task that is no longer ready. *)
Definition demo_store : Store :=
  {[1%nat := demo_tcb 1 Ready SCHED_OTHER 0; 2%nat := demo_tcb 2 Ready SCHED_RR 3;
    3%nat := demo_tcb 3 Ready SCHED_FIFO 5; 4%nat := demo_tcb 4 Blocked SCHED_OTHER 0]}.

Definition demo_queue : ReadyQueue := mkRq [1; 2; 3; 4]%nat {[1; 2; 3; 4]}.

Lemma demo_priorities : priorities_ok demo_store.
Proof.
  assert (Hall : map_Forall (λ _ tcb, 0 ≤ t_sched_priority tcb) demo_store)
    by (apply (bool_decide_eq_true_1 (map_Forall _ demo_store)); vm_compute; reflexivity).
  intros t. rewrite lookup_total_alt. destruct (demo_store !! t) as [tcb|] eqn:E; [exact (Hall t tcb E)|done].
Qed.

Lemma demo_queue_wf : rq_wf demo_store demo_queue.
Proof. split; [vm_compute; reflexivity|]. apply NoDup_ListNoDup. vm_compute. repeat constructor; simpl; lia. Qed.

Definition demo_mgr : Manager := mkMgr demo_queue rq_new 0 [] [] 2 [].

Definition demo_cpus : Cpus := mkCpus 0 3.

Lemma ready_queues_mirrored_witness :
  mgr_wf demo_store (add_task demo_cpus demo_store (add_task demo_cpus demo_store mgr_init 1%nat) 3%nat).
Proof.
  apply (ready_queues_mirrored demo_store). eapply rtc_l; [apply (StAdd demo_cpus _ _ 1%nat)|].
  eapply rtc_l; [apply (StAdd demo_cpus _ _ 3%nat)|]. apply rtc_refl.
Defined.

Lemma fetch_from_queue_correct_witness :
  fetched demo_store 3 0 [1; 2; 3; 4]%nat 0 [1; 2]%nat 1 (Some 3%nat).
Proof.
  pose proof (fetch_from_queue_correct demo_store 3 0 demo_queue 0 demo_priorities demo_queue_wf) as H.
  assert (He : fetch_from_queue demo_store 3 0 demo_queue 0 = (mkRq [1; 2]%nat {[1; 2]}, 1, Some 3%nat))
    by (vm_compute; reflexivity).
  rewrite He in H. exact (proj2 H).
Defined.

Lemma demo_eligible : eligible demo_store 3 0 (rq_tasks demo_queue) = [1; 2; 3]%nat.
Proof. vm_compute. reflexivity. Qed.

Lemma demo_members (P : TaskRef → Prop) : P 1%nat → P 2%nat → P 3%nat → ∀ t, t ∈ [1; 2; 3]%nat → P t.
Proof. intros H1 H2 H3 t. rewrite !elem_of_cons. intros [->|[->|[->|?%not_elem_of_nil]]]; done. Qed.

Lemma demo_top : top_level demo_store 3 0 (rq_tasks demo_queue) 5.
Proof.
  unfold top_level. rewrite demo_eligible. split.
  - exists 3%nat. split; [by repeat constructor|vm_compute; reflexivity].
  - apply demo_members; vm_compute; congruence.
Qed.

Lemma demo_next : next_level demo_store 3 0 (rq_tasks demo_queue) 5 3.
Proof.
  unfold next_level. rewrite demo_eligible. split; [lia|]. split.
  - exists 2%nat. split; [by repeat constructor|vm_compute; reflexivity].
  - apply (demo_members (λ t, prio demo_store t < 5 → prio demo_store t ≤ 3)); vm_compute; congruence.
Qed.

Lemma rt_levels_alternate_witness :
  ∃ t1 t2, (fetch_from_queue demo_store 3 0 demo_queue 0).2 = Some t1 ∧
    (fetch_from_queue demo_store 3 0 demo_queue 1).2 = Some t2 ∧
    (prio demo_store t1 = 5 ∧ prio demo_store t2 = 3 ∨ prio demo_store t1 = 3 ∧ prio demo_store t2 = 5).
Proof.
  pose proof (rt_levels_alternate demo_store demo_store 3 0 3 0 demo_queue demo_queue 0 5 3 5 3 demo_priorities
    demo_priorities demo_queue_wf demo_queue_wf ltac:(unfold USIZE_MAX; lia) demo_top demo_next demo_top demo_next) as H.
  assert (He : fetch_from_queue demo_store 3 0 demo_queue 0 = (mkRq [1; 2]%nat {[1; 2]}, 1, Some 3%nat))
    by (vm_compute; reflexivity).
  rewrite He in H. destruct (fetch_from_queue demo_store 3 0 demo_queue 1) as [[q rt] r] eqn:E2.
  destruct H as (t1&t2&H1&H2&H3). exists t1, t2. rewrite He. split; [exact H1|]. split; [exact H2|exact H3].
Defined.

Lemma has_task_iff_fetch_witness : is_Some (fetch_task demo_cpus demo_store demo_mgr).2.
Proof.
  apply (has_task_iff_fetch demo_cpus demo_store demo_mgr).
  - exact demo_priorities.
  - split; [exact demo_queue_wf|apply rq_new_wf].
  - vm_compute. reflexivity.
Defined.

Lemma notify_runnable_for_lowest_witness :
  notify_runnable_for 15 1 14 15 = (10, Some 2) ∧ ∀ k, 0 ≤ k → Z.testbit 10 k = Z.testbit 14 k && bool_decide (k ≠ 2).
Proof.
  pose proof (notify_runnable_for_lowest 15 1 14 15 ltac:(lia) ltac:(lia)) as H. cbv zeta in H.
  assert (He : notify_runnable_for 15 1 14 15 = (10, Some 2)) by (vm_compute; reflexivity).
  split; [exact He|]. rewrite He in H. apply H.
Defined.
