(* ===== verification/BlockCache.v ===== *)
(** * The block cache (src/os/src/fs/block_dev.rs)

    A [BlockRange] is a window of a raw block device with a write-invalidate cache of
    4 KiB blocks, least recently used first out, and read-ahead.  The raw device is a
    driver behind the trait [RawBlockDevice]: the class [RawDevice] with its laws.

    All operations that read or write the device hold [io_lock]; the model runs them one
    after the other.  A look-up outside of that lock is a [cache_get], which changes only
    ages. *)

From S2P Require Import Prelude BTree.

Definition EXT4_BLOCK_SIZE : Z := 4096.
Definition BLOCK_CACHE_LIMIT : Z := 32 * 1024.
Definition BLOCK_CACHE_READ_AHEAD_BLOCKS : Z := 16.

(** ** The raw device *)

(** [RawBlockDevice]: [read_at] fills a buffer of the length given. *)
Class RawDevice (D : Type) := {
  raw_read_at : D → Z → Z → D * result (list Z) SysErrNo;
  raw_write_at : D → Z → list Z → D * result unit SysErrNo
}.

(** The bytes of a device from [off]. *)
Definition slice (content : Z → Z) (off len : Z) : list Z := content <$> seqZ off len.

(** A read returns the device's bytes and changes none; a write that succeeds stores
    exactly its data, and one that fails changes bytes of its range only. *)
Class RawDeviceLaws (D : Type) `{RawDevice D} := {
  raw_bytes : D → Z → Z;
  raw_read_ok : ∀ d off len d' r, raw_read_at d off len = (d', r) →
    (∀ x, raw_bytes d' x = raw_bytes d x) ∧ ∀ bs, r = Ok bs → bs = slice (raw_bytes d) off len;
  raw_write_ok : ∀ d off data d' r, raw_write_at d off data = (d', r) →
    (∀ x, x < off ∨ off + zlen data ≤ x → raw_bytes d' x = raw_bytes d x) ∧
    (r = Ok tt → slice (raw_bytes d') off (zlen data) = data)
}.

(** ** The cache *)

(** [BlockCacheEntry] *)
Record BlockCacheEntry := mkEntry { be_data : list Z; be_last_used : Z }.

(** The order of [(u64, usize)] *)
Definition age_lt (a b : Z * Z) : Prop := a.1 < b.1 ∨ (a.1 = b.1 ∧ a.2 < b.2).

#[export] Instance age_lt_dec : RelDecision age_lt.
Proof. intros a b. unfold age_lt. apply _. Defined.

#[export] Instance age_lt_total : StrictTotal age_lt.
Proof.
  split; unfold age_lt.
  - intros [? ?]; simpl; lia.
  - intros [? ?] [? ?] [? ?]; simpl; lia.
  - intros [a b] [c d]. simpl. destruct (decide (a = c)), (decide (b = d)); subst; [by right; left|lia..].
Qed.

(** [BlockCache] *)
Record BlockCache := mkCache {
  bc_blocks : gmap Z BlockCacheEntry;
  bc_ages : list (Z * Z);
  bc_next_age : Z
}.

Definition cache_new : BlockCache := mkCache ∅ [] 1.

Definition bump_age (c : BlockCache) : BlockCache * Z :=
  (mkCache (bc_blocks c) (bc_ages c) (Z.max (wrap (bc_next_age c + 1)) 1), bc_next_age c).

Definition cache_get (c : BlockCache) (block : Z) : BlockCache * option (list Z) :=
  let '(c, age) := bump_age c in
  match bc_blocks c !! block with
  | None => (c, None)
  | Some e =>
      (mkCache (<[block := mkEntry (be_data e) age]> (bc_blocks c))
         (bset_insert age_lt (bset_remove (bc_ages c) (be_last_used e, block)) (age, block)) (bc_next_age c),
       Some (be_data e))
  end.

Definition evict_oldest (c : BlockCache) : BlockCache :=
  match bc_ages c with
  | [] => c
  | (old_age, old_block) :: _ =>
      mkCache (delete old_block (bc_blocks c)) (bset_remove (bc_ages c) (old_age, old_block)) (bc_next_age c)
  end.

Definition cache_insert (c : BlockCache) (block : Z) (data : list Z) : BlockCache :=
  let '(c, age) := bump_age c in
  match bc_blocks c !! block with
  | Some e =>
      mkCache (<[block := mkEntry data age]> (bc_blocks c))
        (bset_insert age_lt (bset_remove (bc_ages c) (be_last_used e, block)) (age, block)) (bc_next_age c)
  | None =>
      let c := if bool_decide (BLOCK_CACHE_LIMIT ≤ Z.of_nat (size (bc_blocks c))) then evict_oldest c else c in
      mkCache (<[block := mkEntry data age]> (bc_blocks c)) (bset_insert age_lt (bc_ages c) (age, block)) (bc_next_age c)
  end.

Definition drop_block (c : BlockCache) (block : Z) : BlockCache :=
  match bc_blocks c !! block with
  | Some e => mkCache (delete block (bc_blocks c)) (bset_remove (bc_ages c) (be_last_used e, block)) (bc_next_age c)
  | None => c
  end.

(** The loop from [block] to [last]; [fuel] bounds the number of blocks. *)
Fixpoint invalidate_loop (fuel : nat) (c : BlockCache) (block last : Z) : BlockCache :=
  match fuel with
  | O => c
  | S fuel =>
      let c := drop_block c block in
      if bool_decide (block = last) then c
      else invalidate_loop fuel c (sat_add block EXT4_BLOCK_SIZE) last
  end.

Definition invalidate_range (c : BlockCache) (start len : Z) : BlockCache :=
  match checked_add start len with
  | None => mkCache ∅ [] (bc_next_age c)
  | Some end_ =>
      if bool_decide (end_ ≤ start) then c
      else
        let first := start / EXT4_BLOCK_SIZE * EXT4_BLOCK_SIZE in
        let last := (end_ - 1) / EXT4_BLOCK_SIZE * EXT4_BLOCK_SIZE in
        invalidate_loop (S (Z.to_nat ((last - first) / EXT4_BLOCK_SIZE))) c first last
  end.

(** ** Ranges of a device *)

Section range.
Context {D : Type} `{RawDevice D}.

(** The immutable part of [BlockRange]. *)
Record BlockRange := mkRange { br_start : Z; br_len : option Z }.

(** The raw device and the cache of one range. *)
Record BlockState := mkBState { bs_raw : D; bs_cache : BlockCache }.

Definition set_cache (s : BlockState) (c : BlockCache) : BlockState := mkBState (bs_raw s) c.

Definition checked_abs_range (r : BlockRange) (offset len : Z) : result Z SysErrNo :=
  match checked_add offset len with
  | None => Err EINVAL
  | Some end_ =>
      if match br_len r with Some limit => bool_decide (limit < end_) | None => false end then Err EINVAL
      else match checked_add (br_start r) offset with Some abs => Ok abs | None => Err EINVAL end
  end.

Definition read_raw_at (r : BlockRange) (s : BlockState) (offset len : Z) : BlockState * result (list Z) SysErrNo :=
  match checked_abs_range r offset len with
  | Err e => (s, Err e)
  | Ok abs => let '(d, res) := raw_read_at (bs_raw s) abs len in (mkBState d (bs_cache s), res)
  end.

Definition write_raw_at (r : BlockRange) (s : BlockState) (offset : Z) (data : list Z)
    : BlockState * result unit SysErrNo :=
  match checked_abs_range r offset (zlen data) with
  | Err e => (s, Err e)
  | Ok abs => let '(d, res) := raw_write_at (bs_raw s) abs data in (mkBState d (bs_cache s), res)
  end.

Definition block_read_at := read_raw_at.

Definition block_write_at (r : BlockRange) (s : BlockState) (offset : Z) (data : list Z)
    : BlockState * result unit SysErrNo :=
  write_raw_at r (set_cache s (invalidate_range (bs_cache s) offset (zlen data))) offset data.

(** [data.chunks_exact(EXT4_BLOCK_SIZE)] *)
Definition chunk (data : list Z) (index : nat) : list Z :=
  take (Z.to_nat EXT4_BLOCK_SIZE) (drop (index * Z.to_nat EXT4_BLOCK_SIZE) data).

(** Caching the blocks of a read-ahead. *)
Fixpoint insert_chunks (c : BlockCache) (offset : Z) (data : list Z) (indices : list nat) : BlockCache :=
  match indices with
  | [] => c
  | i :: indices =>
      match checked_add offset (Z.of_nat i * EXT4_BLOCK_SIZE) with
      | None => c
      | Some block => insert_chunks (cache_insert c block (chunk data i)) offset data indices
      end
  end.

Definition zero_block : list Z := replicate (Z.to_nat EXT4_BLOCK_SIZE) 0.

Definition read_ahead_blocks (r : BlockRange) (offset : Z) : Z :=
  let available :=
    match br_len r with
    | Some len => match checked_sub len offset with Some rem => rem / EXT4_BLOCK_SIZE | None => 1 end
    | None => 1
    end in
  Z.min (Z.max available 1) BLOCK_CACHE_READ_AHEAD_BLOCKS.

(** [read_cached_block]: look up, look up again under [io_lock], then read ahead. *)
Definition read_cached_block (r : BlockRange) (s : BlockState) (offset : Z) : BlockState * list Z :=
  match cache_get (bs_cache s) offset with
  | (c, Some data) => (set_cache s c, data)
  | (c, None) =>
      match cache_get c offset with
      | (c, Some data) => (set_cache s c, data)
      | (c, None) =>
          let count := read_ahead_blocks r offset in
          match read_raw_at r (set_cache s c) offset (count * EXT4_BLOCK_SIZE) with
          | (s, Err _) => (s, zero_block)
          | (s, Ok data) =>
              (set_cache s (insert_chunks (bs_cache s) offset data (seq 0 (length data / Z.to_nat EXT4_BLOCK_SIZE))),
               chunk data 0)
          end
      end
  end.

(** [BlockDevice::read_offset]; [fuel] bounds the blocks an unaligned read touches. *)
Fixpoint read_offset_loop (fuel : nat) (r : BlockRange) (s : BlockState) (offset end_ copied block : Z) (out : list Z)
    : BlockState * list Z :=
  match fuel with
  | O => (s, out)
  | S fuel =>
      if bool_decide (EXT4_BLOCK_SIZE ≤ copied) then (s, out)
      else
        let '(s, data) := read_cached_block r s block in
        let block_offset := sat_sub (sat_add offset copied) block in
        let available := sat_sub EXT4_BLOCK_SIZE block_offset in
        let count := Z.min available (EXT4_BLOCK_SIZE - copied) in
        if bool_decide (count = 0) then (s, out)
        else
          let out := take (Z.to_nat copied) out ++ take (Z.to_nat count) (drop (Z.to_nat block_offset) data) ++
                     drop (Z.to_nat (copied + count)) out in
          let copied := copied + count in
          let block := sat_add block EXT4_BLOCK_SIZE in
          if bool_decide (end_ ≤ block) && bool_decide (copied < EXT4_BLOCK_SIZE) then (s, out)
          else read_offset_loop fuel r s offset end_ copied block out
  end.

Definition read_offset (r : BlockRange) (s : BlockState) (offset : Z) : BlockState * list Z :=
  if bool_decide (offset mod EXT4_BLOCK_SIZE = 0) then read_cached_block r s offset
  else read_offset_loop 3 r s offset (sat_add offset EXT4_BLOCK_SIZE) 0
         (offset / EXT4_BLOCK_SIZE * EXT4_BLOCK_SIZE) zero_block.

Definition write_offset (r : BlockRange) (s : BlockState) (offset : Z) (data : list Z) : BlockState :=
  (block_write_at r s offset data).1.

(** *** Many blocks at once *)

(** The first pass of [read_cached_blocks]. *)
Fixpoint get_all (c : BlockCache) (offsets : list Z) : BlockCache * list (option (list Z)) :=
  match offsets with
  | [] => (c, [])
  | o :: offsets => let '(c, d) := cache_get c o in let '(c, ds) := get_all c offsets in (c, d :: ds)
  end.

(** The second pass, under [io_lock]: only what is still missing. *)
Fixpoint get_missing (c : BlockCache) (offsets : list Z) (blocks : list (option (list Z)))
    : BlockCache * list (option (list Z)) :=
  match offsets, blocks with
  | o :: offsets, Some d :: blocks => let '(c, ds) := get_missing c offsets blocks in (c, Some d :: ds)
  | o :: offsets, None :: blocks =>
      let '(c, d) := cache_get c o in let '(c, ds) := get_missing c offsets blocks in (c, d :: ds)
  | _, _ => (c, [])
  end.

(** The end of the run of missing, adjacent blocks that starts before [run_end]. *)
Fixpoint run_end_from (fuel : nat) (offsets : list Z) (blocks : list (option (list Z))) (run_end : nat) : nat :=
  match fuel with
  | O => run_end
  | S fuel =>
      match offsets !! run_end, offsets !! (run_end - 1)%nat, blocks !! run_end with
      | Some o, Some prev, Some None =>
          if bool_decide (checked_add prev EXT4_BLOCK_SIZE = Some o)
          then run_end_from fuel offsets blocks (S run_end) else run_end
      | _, _, _ => run_end
      end
  end.

(** Caching and recording the blocks of a run just read. *)
Fixpoint fill_run (c : BlockCache) (offsets : list Z) (blocks : list (option (list Z))) (data : list Z)
    (run_start : nat) (indices : list nat) : BlockCache * list (option (list Z)) :=
  match indices with
  | [] => (c, blocks)
  | i :: indices =>
      let block := chunk data (i - run_start) in
      fill_run (cache_insert c (offsets !!! i) block) offsets (<[i := Some block]> blocks) data run_start indices
  end.

Fixpoint read_runs (fuel : nat) (r : BlockRange) (s : BlockState) (offsets : list Z)
    (blocks : list (option (list Z))) (index : nat) : BlockState * result (list (option (list Z))) SysErrNo :=
  match fuel with
  | O => (s, Ok blocks)
  | S fuel =>
      match blocks !! index with
      | None => (s, Ok blocks)
      | Some (Some _) => read_runs fuel r s offsets blocks (S index)
      | Some None =>
          let run_end := run_end_from (length offsets) offsets blocks (S index) in
          let run_bytes := Z.of_nat (run_end - index) * EXT4_BLOCK_SIZE in
          if bool_decide (USIZE_MAX < run_bytes) then (s, Err EFBIG)
          else match read_raw_at r s (offsets !!! index) run_bytes with
               | (s, Err e) => (s, Err e)
               | (s, Ok data) =>
                   let '(c, blocks) :=
                     fill_run (bs_cache s) offsets blocks data index (seq index (run_end - index)) in
                   read_runs fuel r (set_cache s c) offsets blocks run_end
               end
      end
  end.

Fixpoint collect_blocks (blocks : list (option (list Z))) : option (list (list Z)) :=
  match blocks with
  | [] => Some []
  | Some d :: blocks => match collect_blocks blocks with Some ds => Some (d :: ds) | None => None end
  | None :: _ => None
  end.

Definition read_cached_blocks (r : BlockRange) (s : BlockState) (offsets : list Z)
    : BlockState * result (list (list Z)) SysErrNo :=
  let '(c, blocks) := get_all (bs_cache s) offsets in
  let s := set_cache s c in
  match collect_blocks blocks with
  | Some ds => (s, Ok ds)
  | None =>
      let '(c, blocks) := get_missing c offsets blocks in
      match read_runs (length offsets) r (set_cache s c) offsets blocks 0 with
      | (s, Err e) => (s, Err e)
      | (s, Ok blocks) =>
          match collect_blocks blocks with Some ds => (s, Ok ds) | None => (s, Err EIO) end
      end
  end.

End range.
Arguments BlockState : clear implicits.

(** ** Invariants of the cache *)

(** The data cached under each block offset. *)
Definition cache_view (c : BlockCache) : gmap Z (list Z) := be_data <$> bc_blocks c.

(** [ages] lists the blocks by their last use, and the cache is bounded. *)
Record cache_wf (c : BlockCache) : Prop := {
  cw_sorted : StronglySorted age_lt (bc_ages c);
  cw_ages : ∀ a b, (a, b) ∈ bc_ages c ↔ ∃ e, bc_blocks c !! b = Some e ∧ be_last_used e = a;
  cw_size : Z.of_nat (size (bc_blocks c)) ≤ BLOCK_CACHE_LIMIT
}.

Lemma cache_new_wf : cache_wf cache_new.
Proof.
  split; simpl; [constructor| |vm_compute; congruence]. intros a b. rewrite lookup_empty.
  split; [by intros ?%not_elem_of_nil|naive_solver].
Qed.

Lemma view_lookup c b : cache_view c !! b = be_data <$> bc_blocks c !! b.
Proof. apply lookup_fmap. Qed.

(** Giving a block new data and a new age. *)
Lemma touch_wf c block e data age n :
  cache_wf c → bc_blocks c !! block = Some e →
  cache_wf (mkCache (<[block := mkEntry data age]> (bc_blocks c))
    (bset_insert age_lt (bset_remove (bc_ages c) (be_last_used e, block)) (age, block)) n).
Proof.
  intros [Hs Ha Hz] He. split; simpl.
  - apply (bset_insert_sorted age_lt). by apply (bset_remove_sorted age_lt).
  - intros a b. rewrite (elem_of_bset_insert age_lt), elem_of_bset_remove, Ha. destruct (decide (b = block)) as [->|Hne].
    + rewrite lookup_insert_eq. split; [|intros (e'&[= <-]&<-); by left].
      intros [[= ->]|[Hn (e'&He'&<-)]]; [by eexists|]. rewrite He in He'. by injection He' as <-.
    + rewrite lookup_insert_ne by done. split; [intros [[= ]|[_ ?]]; done|]. intros Hx. right. split; [congruence|done].
  - by rewrite (map_size_insert_Some _ _ _) by eauto.
Qed.

Lemma remove_wf c block e n :
  cache_wf c → bc_blocks c !! block = Some e →
  cache_wf (mkCache (delete block (bc_blocks c)) (bset_remove (bc_ages c) (be_last_used e, block)) n).
Proof.
  intros [Hs Ha Hz] He. split; simpl.
  - by apply (bset_remove_sorted age_lt).
  - intros a b. rewrite elem_of_bset_remove, Ha. destruct (decide (b = block)) as [->|Hne].
    + rewrite lookup_delete_eq. split; [|naive_solver]. intros [Hn (e'&He'&<-)]. rewrite He in He'. by injection He' as <-.
    + rewrite lookup_delete_ne by done. split; [tauto|]. intros Hx. split; [|done]. congruence.
  - rewrite map_size_delete_Some by eauto. lia.
Qed.

Lemma add_wf c block data age n :
  cache_wf c → bc_blocks c !! block = None → Z.of_nat (size (bc_blocks c)) < BLOCK_CACHE_LIMIT →
  cache_wf (mkCache (<[block := mkEntry data age]> (bc_blocks c)) (bset_insert age_lt (bc_ages c) (age, block)) n).
Proof.
  intros [Hs Ha Hz] Hn Hlt. split; simpl.
  - by apply (bset_insert_sorted age_lt).
  - intros a b. rewrite (elem_of_bset_insert age_lt), Ha. destruct (decide (b = block)) as [->|Hne].
    + rewrite lookup_insert_eq, Hn. naive_solver.
    + rewrite lookup_insert_ne by done. naive_solver.
  - rewrite map_size_insert_None by done. lia.
Qed.

Lemma bump_wf c : cache_wf c → cache_wf (bump_age c).1.
Proof. by intros [Hs Ha Hz]. Qed.

Lemma cache_get_ok c block :
  cache_wf c → let '(c', o) := cache_get c block in
  cache_wf c' ∧ cache_view c' = cache_view c ∧ o = cache_view c !! block.
Proof.
  intros Hw. unfold cache_get. simpl. rewrite view_lookup. destruct (bc_blocks c !! block) as [e|] eqn:He; simpl.
  - split; [by apply (touch_wf (bump_age c).1); [apply bump_wf|]|]. split; [|done].
    unfold cache_view. simpl. rewrite fmap_insert. simpl. apply insert_id. by rewrite lookup_fmap, He.
  - split; [by apply bump_wf|done].
Qed.

Lemma drop_block_ok c block :
  cache_wf c → cache_wf (drop_block c block) ∧ cache_view (drop_block c block) = delete block (cache_view c).
Proof.
  intros Hw. unfold drop_block. destruct (bc_blocks c !! block) as [e|] eqn:He.
  - split; [by apply remove_wf|]. unfold cache_view. simpl. by rewrite fmap_delete.
  - split; [done|]. symmetry. apply delete_id. by rewrite view_lookup, He.
Qed.

(** Eviction takes a block that was used no later than any other. *)
Lemma evict_oldest_ok c :
  cache_wf c → bc_blocks c ≠ ∅ →
  ∃ b e, bc_blocks c !! b = Some e ∧ (∀ b' e', bc_blocks c !! b' = Some e' → be_last_used e ≤ be_last_used e') ∧
    cache_wf (evict_oldest c) ∧ bc_blocks (evict_oldest c) = delete b (bc_blocks c) ∧ bc_next_age (evict_oldest c) = bc_next_age c.
Proof.
  intros Hw Hne. pose proof Hw as [Hs Ha Hz]. unfold evict_oldest. destruct (bc_ages c) as [|[a b] l] eqn:El.
  - exfalso. apply Hne. apply map_eq. intros b. rewrite lookup_empty.
    destruct (bc_blocks c !! b) as [e|] eqn:Eb; [|done]. assert (Hin : (be_last_used e, b) ∈ @nil (Z * Z)) by (apply Ha; eauto).
    by apply not_elem_of_nil in Hin.
  - destruct (proj1 (Ha a b) ltac:(by constructor)) as (e&He&<-). exists b, e. split; [done|]. split.
    + intros b' e' He'. assert (Hin : (be_last_used e', b') ∈ (be_last_used e, b) :: l) by (apply Ha; eauto).
      destruct (bset_head_least age_lt _ (be_last_used e, b) _ Hs eq_refl Hin) as [[= -> ->]|[Hlt|Hlt]]; simpl in *; lia.
    + pose proof (remove_wf c b e (bc_next_age c) Hw He) as Hr. rewrite El in Hr. done.
Qed.

(** What an insertion leaves: the old blocks, less the oldest one when the cache was full. *)
Definition inserted (c : BlockCache) (block : Z) (data : list Z) (c' : BlockCache) : Prop :=
  if bool_decide (is_Some (bc_blocks c !! block) ∨ Z.of_nat (size (bc_blocks c)) < BLOCK_CACHE_LIMIT)
  then cache_view c' = <[block := data]> (cache_view c)
  else ∃ victim e, bc_blocks c !! victim = Some e ∧
    (∀ b' e', bc_blocks c !! b' = Some e' → be_last_used e ≤ be_last_used e') ∧
    cache_view c' = <[block := data]> (delete victim (cache_view c)).

Lemma cache_insert_ok c block data :
  cache_wf c → cache_wf (cache_insert c block data) ∧ inserted c block data (cache_insert c block data).
Proof.
  intros Hw. unfold cache_insert, inserted. cbn [bump_age]. set (c1 := mkCache (bc_blocks c) _ _). set (age := bc_next_age c).
  assert (Hw1 : cache_wf c1) by (by apply bump_wf in Hw). change (bc_blocks c) with (bc_blocks c1).
  destruct (bc_blocks c1 !! block) as [e|] eqn:He.
  - split; [by apply touch_wf|]. rewrite bool_decide_eq_true_2 by (left; by eexists).
    unfold cache_view. simpl. by rewrite fmap_insert.
  - destruct (decide (BLOCK_CACHE_LIMIT ≤ Z.of_nat (size (bc_blocks c1)))) as [Hfull|Hroom].
    + rewrite bool_decide_eq_true_2 by done. rewrite bool_decide_eq_false_2 by (intros [[? ?]|?]; [done|lia]).
      destruct (evict_oldest_ok c1 Hw1) as (b&eb&Hb&Hold&Hw2&Hbl&_).
      { intros He0. rewrite He0, map_size_empty in Hfull. unfold BLOCK_CACHE_LIMIT in Hfull. lia. }
      split.
      * apply add_wf; [done| |].
        -- rewrite Hbl. destruct (decide (block = b)) as [->|]; [apply lookup_delete_eq|by rewrite lookup_delete_ne].
        -- rewrite Hbl, map_size_delete_Some by eauto. pose proof (cw_size c1 Hw1).
           assert (Hpos : size (bc_blocks c1) ≠ 0%nat) by (apply map_size_ne_0_lookup; eauto). lia.
      * exists b, eb. split_and!; [done|done|]. unfold cache_view. cbn [bc_blocks]. by rewrite fmap_insert, Hbl, fmap_delete.
    + rewrite bool_decide_eq_false_2 by done. rewrite bool_decide_eq_true_2 by (right; lia). split; [apply add_wf; [done|done|lia]|].
      unfold cache_view. cbn [bc_blocks]. by rewrite fmap_insert.
Qed.

(** An insertion changes no other block that stays. *)
Lemma inserted_lookup c block data c' b x :
  inserted c block data c' → cache_view c' !! b = Some x → (b = block ∧ x = data) ∨ cache_view c !! b = Some x.
Proof.
  unfold inserted. intros Hi Hx. destruct (decide (b = block)) as [->|Hne].
  - left. case_bool_decide; [|destruct Hi as (v&e&_&_&Hi)]; rewrite Hi, lookup_insert_eq in Hx; by injection Hx.
  - right. case_bool_decide; [by rewrite Hi, lookup_insert_ne in Hx|]. destruct Hi as (v&e&_&_&Hi).
    rewrite Hi, lookup_insert_ne in Hx by done.
    destruct (decide (b = v)) as [->|]; [by rewrite lookup_delete_eq in Hx|by rewrite lookup_delete_ne in Hx].
Qed.

(** A write's invalidation removes every block that meets its range. *)
Definition block_aligned_at (b : Z) : Prop := 0 ≤ b ∧ b mod EXT4_BLOCK_SIZE = 0.

Lemma invalidate_loop_ok fuel c block last :
  cache_wf c → block_aligned_at block → block_aligned_at last → block ≤ last ≤ USIZE_MAX →
  (last - block) / EXT4_BLOCK_SIZE < Z.of_nat fuel →
  let c' := invalidate_loop fuel c block last in
  cache_wf c' ∧ ∀ b, block_aligned_at b →
    cache_view c' !! b = if bool_decide (block ≤ b ≤ last) then None else cache_view c !! b.
Proof.
  revert c block. induction fuel as [|fuel IH]; intros c block Hw Hb Hl Hle Hf.
  { exfalso. unfold EXT4_BLOCK_SIZE in *. lia. }
  cbn [invalidate_loop]. destruct (drop_block_ok c block Hw) as [Hw1 Hv1].
  destruct (decide (block = last)) as [->|Hne].
  - rewrite bool_decide_eq_true_2 by done. split; [done|]. intros b Hba. rewrite Hv1.
    destruct (decide (b = last)) as [->|]; [by rewrite bool_decide_eq_true_2, lookup_delete_eq by lia|].
    rewrite lookup_delete_ne, bool_decide_eq_false_2 by lia. done.
  - rewrite bool_decide_eq_false_2 by done.
    assert (Hstep : block + EXT4_BLOCK_SIZE ≤ last) by (unfold block_aligned_at, EXT4_BLOCK_SIZE in *; lia).
    rewrite sat_add_exact by lia.
    destruct (IH (drop_block c block) (block + EXT4_BLOCK_SIZE) Hw1) as [Hw2 Hv2]; [|done|lia| |].
    { unfold block_aligned_at, EXT4_BLOCK_SIZE in *. lia. }
    { unfold EXT4_BLOCK_SIZE in *. lia. }
    split; [done|]. intros b Hba. rewrite Hv2, Hv1 by done. destruct (decide (b = block)) as [->|].
    + rewrite bool_decide_eq_false_2, lookup_delete_eq, bool_decide_eq_true_2 by (unfold EXT4_BLOCK_SIZE in *; lia). done.
    + rewrite lookup_delete_ne by done.
      rewrite (bool_decide_ext _ (block ≤ b ≤ last)) by (unfold block_aligned_at, EXT4_BLOCK_SIZE in *; lia). done.
Qed.

Lemma clear_wf n : cache_wf (mkCache ∅ [] n).
Proof. split; apply cache_new_wf. Qed.

Lemma invalidate_range_ok c start len :
  cache_wf c → 0 ≤ start → 0 ≤ len →
  let c' := invalidate_range c start len in
  cache_wf c' ∧ ∀ b data, block_aligned_at b → cache_view c' !! b = Some data →
    b + EXT4_BLOCK_SIZE ≤ start ∨ start + len ≤ b ∨ len = 0.
Proof.
  intros Hw Hs Hl. unfold invalidate_range. destruct (checked_add start len) as [e|] eqn:E.
  2: { split; [apply clear_wf|]. intros b data _. rewrite view_lookup. simpl. by rewrite lookup_empty. }
  apply checked_add_Some in E as [-> Hm]. case_bool_decide as Hempty.
  { split; [done|]. intros b data _ Hd. lia. }
  set (first := start / EXT4_BLOCK_SIZE * EXT4_BLOCK_SIZE).
  set (last := (start + len - 1) / EXT4_BLOCK_SIZE * EXT4_BLOCK_SIZE).
  destruct (invalidate_loop_ok (S (Z.to_nat ((last - first) / EXT4_BLOCK_SIZE))) c first last Hw) as [Hw' Hv];
    [unfold block_aligned_at, EXT4_BLOCK_SIZE in *; subst first last; split; [lia|apply Z.mod_mul; lia]..| | |].
  { subst first last. unfold EXT4_BLOCK_SIZE in *. lia. }
  { lia. }
  split; [done|]. intros b data Hb Hd. rewrite Hv in Hd by done. case_bool_decide as Hin; [done|].
  subst first last. unfold block_aligned_at, EXT4_BLOCK_SIZE in *. lia.
Qed.

(** Invalidation adds nothing. *)
Lemma drop_block_sub c block b x :
  cache_view (drop_block c block) !! b = Some x → cache_view c !! b = Some x.
Proof.
  unfold drop_block. destruct (bc_blocks c !! block) as [e|]; [|done]. rewrite !view_lookup. simpl.
  destruct (decide (b = block)) as [->|]; [by rewrite lookup_delete_eq|by rewrite lookup_delete_ne].
Qed.

Lemma invalidate_range_sub c start len b x :
  cache_view (invalidate_range c start len) !! b = Some x → cache_view c !! b = Some x.
Proof.
  unfold invalidate_range. destruct (checked_add start len) as [e|].
  2: { rewrite view_lookup. simpl. by rewrite lookup_empty. }
  case_bool_decide; [done|]. generalize (S (Z.to_nat (((e - 1) / EXT4_BLOCK_SIZE * EXT4_BLOCK_SIZE -
    start / EXT4_BLOCK_SIZE * EXT4_BLOCK_SIZE) / EXT4_BLOCK_SIZE))) as fuel.
  generalize (start / EXT4_BLOCK_SIZE * EXT4_BLOCK_SIZE) as block. intros block fuel. revert c block.
  induction fuel as [|fuel IH]; intros c block; [done|]. cbn [invalidate_loop]. case_bool_decide; [apply drop_block_sub|].
  intros Hx%IH. by eapply drop_block_sub.
Qed.

(** The operations of the cache, in any order. *)
Inductive cache_op := CGet (block : Z) | CInsert (block : Z) (data : list Z) | CInvalidate (start len : Z).

Definition cache_op_ok (op : cache_op) : Prop :=
  match op with CInvalidate start len => 0 ≤ start ∧ 0 ≤ len | _ => True end.

Definition cache_step (c : BlockCache) (op : cache_op) : BlockCache :=
  match op with
  | CGet block => (cache_get c block).1
  | CInsert block data => cache_insert c block data
  | CInvalidate start len => invalidate_range c start len
  end.

Fixpoint cache_run (c : BlockCache) (ops : list cache_op) : BlockCache :=
  match ops with [] => c | op :: ops => cache_run (cache_step c op) ops end.

Lemma cache_run_wf c ops : cache_wf c → Forall cache_op_ok ops → cache_wf (cache_run c ops).
Proof.
  intros Hw Hops. revert c Hw. induction Hops as [|op ops Hop _ IH]; intros c Hw; [done|]. cbn [cache_run]. apply IH.
  destruct op as [b|b x|start len]; cbn [cache_step].
  - pose proof (cache_get_ok c b Hw) as Hg. destruct (cache_get c b). apply Hg.
  - by apply cache_insert_ok.
  - destruct Hop. by apply invalidate_range_ok.
Qed.

(** ** Slices *)

Lemma slice_zlen f off len : 0 ≤ len → zlen (slice f off len) = len.
Proof. intros. unfold slice, zlen. rewrite length_fmap, length_seqZ. lia. Qed.

Lemma slice_app f off n1 n2 : 0 ≤ n1 → 0 ≤ n2 → slice f off (n1 + n2) = slice f off n1 ++ slice f (off + n1) n2.
Proof. intros. unfold slice. by rewrite seqZ_app, fmap_app. Qed.

Lemma slice_ext f g off len : (∀ x, off ≤ x < off + len → f x = g x) → slice f off len = slice g off len.
Proof. intros Hfg. unfold slice. apply list_fmap_ext. intros i x [-> ?]%lookup_seqZ. apply Hfg. lia. Qed.

(** The middle of a slice. *)
Lemma take_drop_slice f off a n b :
  0 ≤ a → 0 ≤ n → 0 ≤ b → take (Z.to_nat n) (drop (Z.to_nat a) (slice f off (a + n + b))) = slice f (off + a) n.
Proof.
  intros. rewrite <-Z.add_assoc, slice_app by lia.
  pose proof (slice_zlen f off a) as Ha. unfold zlen in Ha. rewrite drop_app_length' by lia.
  rewrite slice_app by lia. pose proof (slice_zlen f (off + a) n) as Hn. unfold zlen in Hn. by rewrite take_app_length' by lia.
Qed.

Lemma chunk_slice f off count i :
  Z.of_nat i < count → chunk (slice f off (count * EXT4_BLOCK_SIZE)) i = slice f (off + Z.of_nat i * EXT4_BLOCK_SIZE) EXT4_BLOCK_SIZE.
Proof.
  intros Hi. unfold chunk. replace (i * Z.to_nat EXT4_BLOCK_SIZE)%nat with (Z.to_nat (Z.of_nat i * EXT4_BLOCK_SIZE)) by (unfold EXT4_BLOCK_SIZE; lia).
  rewrite <-(take_drop_slice f off _ _ ((count - Z.of_nat i - 1) * EXT4_BLOCK_SIZE)) by (unfold EXT4_BLOCK_SIZE; lia).
  do 3 f_equal. unfold EXT4_BLOCK_SIZE. lia.
Qed.

(** ** Coherence with the device *)

Section coherence.
Context {D : Type} `{RawDeviceLaws D} (r : BlockRange).

(** The block of the range at offset [b], read from the device. *)
Definition dev_block (d : D) (b : Z) : list Z := slice (raw_bytes d) (br_start r + b) EXT4_BLOCK_SIZE.

Definition same_bytes (d d' : D) : Prop := ∀ x, raw_bytes d' x = raw_bytes d x.

(** Every cached block is what the device holds. *)
Record coherent (s : BlockState D) : Prop := {
  co_wf : cache_wf (bs_cache s);
  co_data : ∀ b data, cache_view (bs_cache s) !! b = Some data → block_aligned_at b ∧ data = dev_block (bs_raw s) b
}.

Implicit Types (s : BlockState D) (d : D).

Lemma same_bytes_slice d d' off len : same_bytes d d' → slice (raw_bytes d') off len = slice (raw_bytes d) off len.
Proof. intros Hs. apply slice_ext. intros; apply Hs. Qed.

Lemma coherent_new d : coherent (mkBState d cache_new).
Proof. split; [apply cache_new_wf|]. intros b data. simpl. rewrite view_lookup. simpl. by rewrite lookup_empty. Qed.

Lemma coherent_device s d : coherent s → same_bytes (bs_raw s) d → coherent (mkBState d (bs_cache s)).
Proof.
  intros [Hw Hc] Hs. split; [done|]. intros b data [Hb ->]%Hc. split; [done|]. symmetry. by apply same_bytes_slice.
Qed.

(** A look-up only changes ages. *)
Lemma coherent_get d c b :
  coherent (mkBState d c) → let '(c', o) := cache_get c b in
  coherent (mkBState d c') ∧ cache_view c' = cache_view c ∧ ∀ data, o = Some data → data = dev_block d b.
Proof.
  intros [Hw Hc]. pose proof (cache_get_ok c b Hw) as Hg. destruct (cache_get c b) as [c' o].
  destruct Hg as (Hw'&Hv&->). split; [|split; [done|]].
  - split; [done|]. simpl in *. rewrite Hv. apply Hc.
  - intros data Hd. by apply Hc in Hd as [_ ->].
Qed.

Lemma coherent_insert d c b data :
  coherent (mkBState d c) → block_aligned_at b → data = dev_block d b → coherent (mkBState d (cache_insert c b data)).
Proof.
  intros [Hw Hc] Hb ->. destruct (cache_insert_ok c b (dev_block d b) Hw) as [Hw' Hv]. split; [done|].
  intros b' data Hx. destruct (inserted_lookup _ _ _ _ _ _ Hv Hx) as [[-> ->]|Hx']; [done|by apply Hc].
Qed.

Lemma checked_abs_range_Ok off len abs :
  checked_abs_range r off len = Ok abs →
  abs = br_start r + off ∧ off + len ≤ USIZE_MAX ∧ ∀ limit, br_len r = Some limit → off + len ≤ limit.
Proof.
  unfold checked_abs_range. destruct (checked_add off len) as [e|] eqn:E; [|done].
  apply checked_add_Some in E as [-> Hm]. intros Hx.
  assert (Hlim : match br_len r with Some limit => bool_decide (limit < off + len) | None => false end = false)
    by (destruct (br_len r); [case_bool_decide|]; done).
  rewrite Hlim in Hx. destruct (checked_add (br_start r) off) as [a|] eqn:Ea; [|done].
  apply checked_add_Some in Ea as [-> _]. injection Hx as <-. split_and!; [done|done|].
  intros limit Hl. rewrite Hl in Hlim. reflect_bools. lia.
Qed.

Lemma read_raw_at_ok s off len s' res :
  coherent s → read_raw_at r s off len = (s', res) →
  coherent s' ∧ same_bytes (bs_raw s) (bs_raw s') ∧
  ∀ bs, res = Ok bs → bs = slice (raw_bytes (bs_raw s)) (br_start r + off) len.
Proof.
  intros Hc. unfold read_raw_at. destruct (checked_abs_range r off len) as [abs|e] eqn:Ea.
  2: { intros [= <- <-]. split_and!; [done|done|done]. }
  apply checked_abs_range_Ok in Ea as (->&_&_).
  destruct (raw_read_at (bs_raw s) (br_start r + off) len) as [d res'] eqn:Er. intros [= <- <-].
  destruct (raw_read_ok _ _ _ _ _ Er) as [Hs Hd]. split_and!; [by apply coherent_device|done|done].
Qed.

Lemma insert_chunks_ok d c off count indices :
  coherent (mkBState d c) → block_aligned_at off → Forall (λ i, Z.of_nat i < count) indices →
  coherent (mkBState d (insert_chunks c off (slice (raw_bytes d) (br_start r + off) (count * EXT4_BLOCK_SIZE)) indices)).
Proof.
  intros Hc Hb Hi. revert c Hc. induction Hi as [|i idx Hlt _ IH]; intros c Hc; [done|]. cbn [insert_chunks].
  destruct (checked_add off _) as [b|] eqn:E; [|done]. apply checked_add_Some in E as [-> _]. apply IH. apply coherent_insert; [done| |].
  - unfold block_aligned_at, EXT4_BLOCK_SIZE in *. lia.
  - rewrite chunk_slice by done. unfold dev_block. f_equal. lia.
Qed.

(** What a cached read yields: the device's block, or zeroes after an error. *)
Lemma read_cached_block_ok s off s' data :
  coherent s → block_aligned_at off → read_cached_block r s off = (s', data) →
  coherent s' ∧ same_bytes (bs_raw s) (bs_raw s') ∧
  (data = dev_block (bs_raw s) off ∨
   (data = zero_block ∧ cache_view (bs_cache s) !! off = None ∧
    ∃ s0 e, bs_raw s0 = bs_raw s ∧ (read_raw_at r s0 off (read_ahead_blocks r off * EXT4_BLOCK_SIZE)).2 = Err e)).
Proof.
  intros Hc Hb. unfold read_cached_block. destruct s as [d c]. cbn [bs_cache bs_raw set_cache].
  pose proof (coherent_get d c off Hc) as Hg. pose proof (cache_get_ok c off (co_wf _ Hc)) as Hg'.
  destruct (cache_get c off) as [c1 [x|]].
  { intros [<- <-]%pair_equal_spec. destruct Hg as (Hc1&_&Hx). split_and!; [done|done|]. left. by apply Hx. }
  destruct Hg as (Hc1&Hv1&_). destruct Hg' as (_&_&Hnone).
  pose proof (coherent_get d c1 off Hc1) as Hg. destruct (cache_get c1 off) as [c2 [x|]].
  { intros [<- <-]%pair_equal_spec. destruct Hg as (Hc2&_&Hx). split_and!; [done|done|]. left. by apply Hx. }
  destruct Hg as (Hc2&_&_). set (count := read_ahead_blocks r off). change (set_cache _ c2) with (mkBState d c2).
  destruct (read_raw_at r (mkBState d c2) off (count * EXT4_BLOCK_SIZE)) as [s1 [bs|e]] eqn:Er.
  - intros [<- <-]%pair_equal_spec. destruct (read_raw_at_ok _ _ _ _ _ Hc2 Er) as (Hc3&Hs&Hd). specialize (Hd bs eq_refl). subst bs. simpl in Hs.
    assert (Hcount : 1 ≤ count ≤ 16) by (unfold count, read_ahead_blocks, BLOCK_CACHE_READ_AHEAD_BLOCKS; lia).
    rewrite <-(same_bytes_slice _ _ _ _ Hs). destruct s1 as [d1 c3]. split; [|split; [done|]].
    + apply insert_chunks_ok; [done|done|]. apply Forall_forall. intros i [_ Hi]%elem_of_seq.
      assert (Hl : zlen (slice (raw_bytes d1) (br_start r + off) (count * EXT4_BLOCK_SIZE)) = count * EXT4_BLOCK_SIZE)
        by (apply slice_zlen; unfold EXT4_BLOCK_SIZE; lia).
      unfold zlen in Hl. cbn [bs_raw] in Hi. apply Nat2Z.inj_lt in Hi. rewrite Nat.add_0_l, Nat2Z.inj_div in Hi.
      change (Z.of_nat (Z.to_nat EXT4_BLOCK_SIZE)) with EXT4_BLOCK_SIZE in Hi. rewrite Hl, Z.div_mul in Hi by done. lia.
    + left. rewrite chunk_slice by lia. unfold dev_block. rewrite <-(same_bytes_slice _ _ _ _ Hs). f_equal. lia.
  - intros [<- <-]%pair_equal_spec. destruct (read_raw_at_ok _ _ _ _ _ Hc2 Er) as (Hc3&Hs&_). split_and!; [done|done|].
    right. split_and!; [done|done|]. exists (mkBState d c2), e. by rewrite Er.
Qed.

Lemma block_write_at_ok s off data s' res :
  coherent s → 0 ≤ off → block_write_at r s off data = (s', res) →
  coherent s' ∧
  (∀ x, x < br_start r + off ∨ br_start r + off + zlen data ≤ x → raw_bytes (bs_raw s') x = raw_bytes (bs_raw s) x) ∧
  (res = Ok tt → slice (raw_bytes (bs_raw s')) (br_start r + off) (zlen data) = data).
Proof.
  intros [Hw Hc] Hoff. unfold block_write_at, write_raw_at. cbn [set_cache bs_raw bs_cache].
  destruct (invalidate_range_ok (bs_cache s) off (zlen data) Hw Hoff (zlen_nonneg _)) as [Hw' Hv].
  set (c' := invalidate_range (bs_cache s) off (zlen data)) in *.
  assert (Hcov : ∀ b x, cache_view c' !! b = Some x → block_aligned_at b ∧ x = dev_block (bs_raw s) b ∧
    (b + EXT4_BLOCK_SIZE ≤ off ∨ off + zlen data ≤ b ∨ zlen data = 0)).
  { intros b x Hx. destruct (Hc _ _ (invalidate_range_sub _ _ _ _ _ Hx)) as [Hb ->]. pose proof (Hv b _ Hb Hx). done. }
  destruct (checked_abs_range r off (zlen data)) as [abs|e] eqn:Ea.
  2: { intros [= <- <-]. split_and!; [|done|done]. split; [done|]. intros b x Hx. destruct (Hcov _ _ Hx) as (?&?&_). done. }
  apply checked_abs_range_Ok in Ea as (->&_&_).
  destruct (raw_write_at (bs_raw s) (br_start r + off) data) as [d res'] eqn:Er. intros [= <- <-].
  destruct (raw_write_ok _ _ _ _ _ Er) as [Hout Hin]. split_and!; [|done|done].
  split; [done|]. intros b x Hx. destruct (Hcov _ _ Hx) as (Hb&->&Hd). split; [done|].
  apply slice_ext. intros y Hy. symmetry. apply Hout. simpl in *. lia.
Qed.

(** *** Reading many blocks *)

(** What is known of each block so far. *)
Definition blocks_good (d : D) (offsets : list Z) (blocks : list (option (list Z))) : Prop :=
  Forall2 (λ o ob, ob = None ∨ ob = Some (dev_block d o)) offsets blocks.

Lemma get_all_ok d c offsets :
  coherent (mkBState d c) → let '(c', blocks) := get_all c offsets in
  coherent (mkBState d c') ∧ blocks_good d offsets blocks.
Proof.
  revert c. induction offsets as [|o offsets IH]; intros c Hc; [split; [done|constructor]|]. cbn [get_all].
  pose proof (coherent_get d c o Hc) as Hg. destruct (cache_get c o) as [c1 ob]. destruct Hg as (Hc1&_&Ho).
  specialize (IH c1 Hc1). destruct (get_all c1 offsets) as [c2 obs]. destruct IH as [Hc2 Hf]. split; [done|].
  constructor; [|done]. destruct ob as [x|]; [|by left]. right. f_equal. by apply Ho.
Qed.

Lemma get_missing_ok d c offsets blocks :
  coherent (mkBState d c) → blocks_good d offsets blocks → let '(c', blocks') := get_missing c offsets blocks in
  coherent (mkBState d c') ∧ blocks_good d offsets blocks'.
Proof.
  intros Hc Hf. revert c Hc. induction Hf as [|o ob offsets obs Ho Hf IH]; intros c Hc; [split; [done|constructor]|].
  destruct Ho as [->| ->]; cbn [get_missing].
  - pose proof (coherent_get d c o Hc) as Hg. destruct (cache_get c o) as [c1 ob]. destruct Hg as (Hc1&_&Ho).
    specialize (IH c1 Hc1). destruct (get_missing c1 offsets obs) as [c2 obs']. destruct IH as [Hc2 Hf']. split; [done|].
    constructor; [|done]. destruct ob as [x|]; [|by left]. right. f_equal. by apply Ho.
  - specialize (IH c Hc). destruct (get_missing c offsets obs) as [c2 obs']. destruct IH as [Hc2 Hf']. split; [done|].
    constructor; [by right|done].
Qed.

(** The offsets of a run are adjacent. *)
Lemma run_end_from_ok fuel offsets blocks (index run_end : nat) o0 :
  let adjacent e := ∀ k : nat, (index ≤ k < e)%nat → offsets !! k = Some (o0 + Z.of_nat (k - index) * EXT4_BLOCK_SIZE) in
  (index < run_end)%nat → adjacent run_end →
  (run_end ≤ run_end_from fuel offsets blocks run_end)%nat ∧ adjacent (run_end_from fuel offsets blocks run_end).
Proof.
  intros adjacent. revert run_end. induction fuel as [|fuel IH]; intros run_end Hlt Ha; [done|]. cbn [run_end_from].
  destruct (offsets !! run_end) as [o|] eqn:Eo; [|done]. destruct (offsets !! (run_end - 1)%nat) as [p|] eqn:Ep; [|done].
  destruct (blocks !! run_end) as [[x|]|]; [done| |done]. case_bool_decide as Hadj; [|done].
  destruct (IH (S run_end)) as [Hle Hr]; [lia| |split; [lia|done]]. intros k Hk.
  destruct (decide (k = run_end)) as [->|]; [|apply Ha; lia]. apply checked_add_Some in Hadj as [-> _].
  rewrite Ha in Ep by lia. injection Ep as <-. rewrite Eo. f_equal. unfold EXT4_BLOCK_SIZE. lia.
Qed.

Lemma fill_run_ok d c offsets blocks data (index n : nat) o0 (indices : list nat) :
  coherent (mkBState d c) → blocks_good d offsets blocks → Forall block_aligned_at offsets →
  data = slice (raw_bytes d) (br_start r + o0) (Z.of_nat n * EXT4_BLOCK_SIZE) →
  Forall (λ k, (index ≤ k < index + n)%nat ∧ offsets !! k = Some (o0 + Z.of_nat (k - index) * EXT4_BLOCK_SIZE)) indices →
  let '(c', blocks') := fill_run c offsets blocks data index indices in
  coherent (mkBState d c') ∧ blocks_good d offsets blocks' ∧
  ∀ k, (blocks !! k ≠ Some None ∨ k ∈ indices) → blocks' !! k ≠ Some None.
Proof.
  intros Hc Hf Hal Hd Hi. revert c blocks Hc Hf. induction Hi as [|i indices [Hb Ho] _ IH]; intros c blocks Hc Hf; cbn [fill_run].
  { split_and!; [done|done|]. intros k [?|?%not_elem_of_nil]; done. }
  assert (Hblock : chunk data (i - index) = dev_block d (o0 + Z.of_nat (i - index) * EXT4_BLOCK_SIZE)).
  { subst data. rewrite chunk_slice by lia. unfold dev_block. f_equal. lia. }
  rewrite (list_lookup_total_correct _ _ _ Ho), Hblock.
  assert (Hf' : blocks_good d offsets (<[i:=Some (dev_block d (o0 + Z.of_nat (i - index) * EXT4_BLOCK_SIZE))]> blocks)).
  { rewrite <-(list_insert_id offsets i (o0 + Z.of_nat (i - index) * EXT4_BLOCK_SIZE)) by done.
    apply Forall2_insert; [done|by right]. }
  rewrite Forall_forall in Hal. assert (Ha : block_aligned_at (o0 + Z.of_nat (i - index) * EXT4_BLOCK_SIZE)) by (apply Hal; by eapply list_elem_of_lookup_2).
  specialize (IH _ _ (coherent_insert d c _ _ Hc Ha eq_refl) Hf').
  destruct (fill_run _ offsets _ data index indices) as [c' blocks']. destruct IH as (Hc'&Hg&Hk). split_and!; [done|done|].
  intros k Hor. apply Hk. destruct (decide (k = i)) as [->|Hne].
  - left. destruct (lookup_lt_is_Some_2 blocks i) as [y Hy].
    { apply Forall2_length in Hf. rewrite <-Hf. by eapply lookup_lt_Some. }
    rewrite list_lookup_insert_eq by (by eapply lookup_lt_Some). done.
  - rewrite list_lookup_insert_ne by done. destruct Hor as [?|[?|?]%elem_of_cons]; [by left|done|by right].
Qed.

Lemma dev_block_same d d' b : same_bytes d d' → dev_block d' b = dev_block d b.
Proof. apply same_bytes_slice. Qed.

Lemma blocks_good_same d d' offsets blocks : same_bytes d d' → blocks_good d offsets blocks → blocks_good d' offsets blocks.
Proof. intros Hs Hg. eapply Forall2_impl; [exact Hg|]. intros o ob. by rewrite (dev_block_same d d'). Qed.

Lemma same_bytes_trans d1 d2 d3 : same_bytes d1 d2 → same_bytes d2 d3 → same_bytes d1 d3.
Proof. intros H1' H2' x. by rewrite H2', H1'. Qed.

(** Blocks all known are the device's. *)
Lemma blocks_good_complete d offsets blocks :
  blocks_good d offsets blocks → (∀ k, blocks !! k ≠ Some None) → collect_blocks blocks = Some (dev_block d <$> offsets).
Proof.
  induction 1 as [|o ob offsets blocks Ho _ IH]; intros Hall; [done|]. destruct Ho as [->| ->]; [by specialize (Hall 0%nat)|].
  cbn [collect_blocks]. rewrite IH; [done|]. intros k. apply (Hall (S k)).
Qed.

Lemma collect_blocks_good d offsets blocks ds :
  blocks_good d offsets blocks → collect_blocks blocks = Some ds → ds = dev_block d <$> offsets.
Proof.
  intros Hg. revert ds. induction Hg as [|o ob offsets blocks Ho _ IH]; intros ds; cbn [collect_blocks]; [by intros [= <-]|].
  destruct Ho as [->| ->]; [done|]. destruct (collect_blocks blocks) as [ds'|]; [|done]. intros [= <-]. by rewrite (IH ds' eq_refl).
Qed.

(** The reasons a run can fail for. *)
Definition run_error (d : D) (offsets : list Z) (e : SysErrNo) : Prop :=
  (e = EFBIG ∧ USIZE_MAX < zlen offsets * EXT4_BLOCK_SIZE) ∨
  ∃ s0 off len, same_bytes d (bs_raw s0) ∧ off ∈ offsets ∧ (read_raw_at r s0 off len).2 = Err e.

Lemma read_runs_ok fuel s offsets blocks (index : nat) s' res :
  coherent s → blocks_good (bs_raw s) offsets blocks → Forall block_aligned_at offsets →
  (∀ k, (k < index)%nat → blocks !! k ≠ Some None) → (length offsets ≤ index + fuel)%nat →
  read_runs fuel r s offsets blocks index = (s', res) →
  coherent s' ∧ same_bytes (bs_raw s) (bs_raw s') ∧
  match res with
  | Ok blocks' => blocks_good (bs_raw s) offsets blocks' ∧ ∀ k, blocks' !! k ≠ Some None
  | Err e => run_error (bs_raw s) offsets e
  end.
Proof.
  revert s blocks index. induction fuel as [|fuel IH]; intros s blocks index Hc Hg Hal Hpre Hlen; cbn [read_runs];
    pose proof (Forall2_length _ _ _ Hg) as Hl.
  { intros [= <- <-]. split_and!; [done|done|done|]. intros k. destruct (decide (k < index)%nat); [by apply Hpre|].
    rewrite lookup_ge_None_2 by lia. done. }
  destruct (blocks !! index) as [[x|]|] eqn:Ei.
  - apply IH; [done|done|done| |lia]. intros k Hk. destruct (decide (k = index)) as [->|]; [by rewrite Ei|apply Hpre; lia].
  - destruct (lookup_lt_is_Some_2 offsets index) as [o0 Ho0]; [rewrite Hl; by eapply lookup_lt_Some|].
    rewrite (list_lookup_total_correct _ _ _ Ho0).
    destruct (run_end_from_ok (length offsets) offsets blocks index (S index) o0) as [Hle Hadj]; [lia| |].
    { intros k Hk. replace k with index by lia. rewrite Ho0. f_equal. lia. }
    set (run_end := run_end_from (length offsets) offsets blocks (S index)) in *.
    assert (Hre : (run_end ≤ length offsets)%nat).
    { specialize (Hadj (run_end - 1)%nat ltac:(lia)). apply lookup_lt_Some in Hadj. lia. }
    case_bool_decide as Hbig.
    { intros [= <- <-]. split_and!; [done|done|]. left. split; [done|]. unfold zlen, EXT4_BLOCK_SIZE in *. lia. }
    destruct (read_raw_at r s o0 _) as [s1 [data|e]] eqn:Er; destruct (read_raw_at_ok _ _ _ _ _ Hc Er) as (Hc1&Hs1&Hd).
    + specialize (Hd data eq_refl). rewrite <-(same_bytes_slice _ _ _ _ Hs1) in Hd. destruct s1 as [d1 c1]. cbn [bs_cache bs_raw] in *.
      pose proof (fill_run_ok d1 c1 offsets blocks data index (run_end - index) o0 (seq index (run_end - index)) Hc1
        (blocks_good_same _ _ _ _ Hs1 Hg) Hal Hd) as Hfill.
      destruct (fill_run c1 offsets blocks data index (seq index (run_end - index))) as [c2 blocks2].
      destruct Hfill as (Hc2&Hg2&Hk2).
      { apply Forall_forall. intros k Hk%elem_of_seq. split; [lia|]. apply Hadj. lia. }
      intros Hrun. apply IH in Hrun as (Hc'&Hs'&Hres); [|done|done|done| |cbn [set_cache] in *; lia].
      2: { intros k Hk. apply Hk2. destruct (decide (k < index)%nat); [left; by apply Hpre|right; apply elem_of_seq; lia]. }
      cbn [set_cache bs_raw] in *. split_and!; [done|by eapply same_bytes_trans|].
      destruct res as [bl|e].
      * destruct Hres as [Hg' Hall]. split; [|done]. eapply blocks_good_same; [|done]. intros y. by rewrite Hs1.
      * destruct Hres as [?|(s0&off&len&?&?&?)]; [by left|]. right. exists s0, off, len. split_and!; [by eapply same_bytes_trans|done|done].
    + intros [= <- <-]. split_and!; [done|done|]. right. exists s, o0, (Z.of_nat (run_end - index) * EXT4_BLOCK_SIZE).
      split_and!; [done|by eapply list_elem_of_lookup_2|by rewrite Er].
  - intros [= <- <-]. split_and!; [done|done|done|]. intros k. destruct (decide (k < index)%nat); [by apply Hpre|].
    apply lookup_ge_None_1 in Ei. rewrite lookup_ge_None_2 by lia. done.
Qed.

Lemma read_cached_blocks_ok s offsets s' res :
  coherent s → Forall block_aligned_at offsets → read_cached_blocks r s offsets = (s', res) →
  coherent s' ∧ same_bytes (bs_raw s) (bs_raw s') ∧
  match res with
  | Ok ds => ds = dev_block (bs_raw s) <$> offsets
  | Err e => run_error (bs_raw s) offsets e
  end.
Proof.
  destruct s as [d c]. intros Hc Hal. unfold read_cached_blocks. cbn [set_cache bs_cache bs_raw].
  pose proof (get_all_ok d c offsets Hc) as Hg. destruct (get_all c offsets) as [c1 blocks]. destruct Hg as [Hc1 Hg1].
  destruct (collect_blocks blocks) as [ds|] eqn:Ec.
  { intros [= <- <-]. split_and!; [done|done|]. by eapply collect_blocks_good. }
  pose proof (get_missing_ok d c1 offsets blocks Hc1 Hg1) as Hg. destruct (get_missing c1 offsets blocks) as [c2 blocks2].
  destruct Hg as [Hc2 Hg2]. change (set_cache _ c2) with (mkBState d c2). destruct (read_runs (length offsets) r (mkBState d c2) offsets blocks2 0) as [s2 rr] eqn:Er.
  apply read_runs_ok in Er as (Hc'&Hs'&Hres); [|done|done|done|lia|lia].
  destruct rr as [bl|e]; [|intros [= <- <-]; by split_and!].
  destruct Hres as [Hg' Hall]. rewrite (blocks_good_complete _ _ _ Hg' Hall). intros [= <- <-]. by split_and!.
Qed.

(** *** Reads at any offset *)

(** Reading ahead from block [b] fails on a device with these bytes. *)
Definition read_fails (d : D) (b : Z) : Prop :=
  ∃ s0 e, same_bytes d (bs_raw s0) ∧ (read_raw_at r s0 b (read_ahead_blocks r b * EXT4_BLOCK_SIZE)).2 = Err e.

Lemma read_fails_same d d' b : same_bytes d d' → read_fails d' b → read_fails d b.
Proof. intros Hs (s0&e&?&?). exists s0, e. split; [by eapply same_bytes_trans|done]. Qed.

Lemma read_cached_block_cases s off s' data :
  coherent s → block_aligned_at off → read_cached_block r s off = (s', data) →
  coherent s' ∧ same_bytes (bs_raw s) (bs_raw s') ∧
  (data = dev_block (bs_raw s) off ∨ (data = zero_block ∧ read_fails (bs_raw s) off)).
Proof.
  intros Hc Hb Hr. destruct (read_cached_block_ok _ _ _ _ Hc Hb Hr) as (Hc'&Hs&[->|(->&_&s0&e&H0'&He)]); split_and!; try done.
  - by left.
  - right. split; [done|]. exists s0, e. by rewrite H0'.
Qed.

Lemma dev_block_zlen d b : zlen (dev_block d b) = EXT4_BLOCK_SIZE.
Proof. by apply slice_zlen. Qed.

(** Splicing the end of one block and the start of the next. *)
Lemma splice_blocks (x y z : list Z) k :
  0 < k < EXT4_BLOCK_SIZE → zlen x = EXT4_BLOCK_SIZE → zlen z = EXT4_BLOCK_SIZE →
  let out := take (Z.to_nat 0) z ++ take (Z.to_nat (EXT4_BLOCK_SIZE - k)) (drop (Z.to_nat k) x) ++
             drop (Z.to_nat (0 + (EXT4_BLOCK_SIZE - k))) z in
  take (Z.to_nat (0 + (EXT4_BLOCK_SIZE - k))) out ++ take (Z.to_nat k) (drop (Z.to_nat 0) y) ++
  drop (Z.to_nat (0 + (EXT4_BLOCK_SIZE - k) + k)) out = drop (Z.to_nat k) x ++ take (Z.to_nat k) y.
Proof.
  intros Hk Hx Hz. unfold zlen, EXT4_BLOCK_SIZE in *. rewrite Z2Nat.inj_0, take_0, drop_0. simpl ([] ++ _).
  rewrite Z.add_0_l, (take_ge (drop _ x)) by (rewrite length_drop; lia).
  rewrite take_app_length' by (rewrite length_drop; lia).
  rewrite (drop_ge (drop _ x ++ _)) by (rewrite length_app, !length_drop; lia). by rewrite app_nil_r.
Qed.

Lemma splice_dev_blocks d off :
  let k := off mod EXT4_BLOCK_SIZE in let b := off / EXT4_BLOCK_SIZE * EXT4_BLOCK_SIZE in
  drop (Z.to_nat k) (dev_block d b) ++ take (Z.to_nat k) (dev_block d (b + EXT4_BLOCK_SIZE)) =
  slice (raw_bytes d) (br_start r + off) EXT4_BLOCK_SIZE.
Proof.
  intros k b. assert (Hk : 0 ≤ k < EXT4_BLOCK_SIZE ∧ off = b + k) by (subst k b; unfold EXT4_BLOCK_SIZE; lia).
  destruct Hk as [Hk Hoff]. clearbody k b. subst off. unfold dev_block.
  replace EXT4_BLOCK_SIZE with (k + (EXT4_BLOCK_SIZE - k)) at 1 3 by lia. rewrite !slice_app by lia.
  pose proof (slice_zlen (raw_bytes d) (br_start r + b) k) as L1.
  pose proof (slice_zlen (raw_bytes d) (br_start r + (b + EXT4_BLOCK_SIZE)) k) as L2. unfold zlen in L1, L2.
  rewrite drop_app_length', take_app_length' by lia.
  replace EXT4_BLOCK_SIZE with ((EXT4_BLOCK_SIZE - k) + k) at 3 by lia. rewrite slice_app by lia. f_equal; f_equal; lia.
Qed.

Lemma read_offset_ok s off s' data :
  coherent s → 0 ≤ off → off + 2 * EXT4_BLOCK_SIZE ≤ USIZE_MAX → read_offset r s off = (s', data) →
  coherent s' ∧ same_bytes (bs_raw s) (bs_raw s') ∧
  (data = slice (raw_bytes (bs_raw s)) (br_start r + off) EXT4_BLOCK_SIZE ∨
   ∃ b, block_aligned_at b ∧ off - EXT4_BLOCK_SIZE < b < off + EXT4_BLOCK_SIZE ∧ read_fails (bs_raw s) b).
Proof.
  intros Hc Hoff Hmax. unfold read_offset. case_bool_decide as Ha.
  { intros (Hc'&Hs&Hd)%read_cached_block_cases; [|done|by split]. split_and!; [done|done|].
    destruct Hd as [->|[_ ?]]; [by left|]. right. exists off. split; [done|]. split; [unfold EXT4_BLOCK_SIZE; lia|done]. }
  set (b := off / EXT4_BLOCK_SIZE * EXT4_BLOCK_SIZE). set (k := off mod EXT4_BLOCK_SIZE).
  assert (Hk : 0 < k < EXT4_BLOCK_SIZE ∧ off = b + k ∧ block_aligned_at b ∧ block_aligned_at (b + EXT4_BLOCK_SIZE))
    by (subst k b; unfold block_aligned_at, EXT4_BLOCK_SIZE in *; lia).
  destruct Hk as (Hk&Hoffk&Hb1&Hb2). rewrite (sat_add_exact off) by (unfold EXT4_BLOCK_SIZE in *; lia).
  cbn [read_offset_loop]. rewrite bool_decide_eq_false_2 by (unfold EXT4_BLOCK_SIZE; lia).
  destruct (read_cached_block r s b) as [s1 x] eqn:E1. apply read_cached_block_cases in E1 as (Hc1&Hs1&Hx); [|done|done].
  assert (Hsub1 : sat_sub (sat_add off 0) b = k) by (rewrite sat_add_exact by (unfold EXT4_BLOCK_SIZE in *; lia); unfold sat_sub; lia).
  assert (Hcount1 : Z.min (sat_sub EXT4_BLOCK_SIZE k) (EXT4_BLOCK_SIZE - 0) = EXT4_BLOCK_SIZE - k) by (unfold sat_sub; lia).
  rewrite Hsub1, Hcount1, bool_decide_eq_false_2 by lia. rewrite (sat_add_exact b) by (unfold EXT4_BLOCK_SIZE in *; lia).
  rewrite (bool_decide_eq_false_2 (off + EXT4_BLOCK_SIZE ≤ _)) by lia. cbn [andb].
  rewrite bool_decide_eq_false_2 by lia.
  destruct (read_cached_block r s1 (b + EXT4_BLOCK_SIZE)) as [s2 y] eqn:E2.
  apply read_cached_block_cases in E2 as (Hc2&Hs2&Hy); [|done|done].
  assert (Hsub2 : sat_sub (sat_add off (0 + (EXT4_BLOCK_SIZE - k))) (b + EXT4_BLOCK_SIZE) = 0)
    by (rewrite sat_add_exact by (unfold EXT4_BLOCK_SIZE in *; lia); unfold sat_sub; lia).
  assert (Hcount2 : Z.min (sat_sub EXT4_BLOCK_SIZE 0) (EXT4_BLOCK_SIZE - (0 + (EXT4_BLOCK_SIZE - k))) = k) by (unfold sat_sub; lia).
  rewrite Hsub2, Hcount2, bool_decide_eq_false_2 by lia.
  rewrite (bool_decide_eq_false_2 (_ < EXT4_BLOCK_SIZE)) by lia. rewrite andb_false_r, bool_decide_eq_true_2 by lia.
  intros [<- <-]%pair_equal_spec. split_and!; [done|by eapply same_bytes_trans|].
  destruct Hx as [->|[_ Hx]]; [|right; exists b; split; [done|]; split; [lia|done]].
  destruct Hy as [->|[_ Hy]]; [|right; exists (b + EXT4_BLOCK_SIZE); split; [done|]; split; [lia|by eapply read_fails_same]].
  left. rewrite splice_blocks; [|done|apply dev_block_zlen|done].
  rewrite (dev_block_same (bs_raw s) (bs_raw s1)) by done. apply (splice_dev_blocks _ off).
Qed.

(** ** The contract of a range *)

(** The calls of the file systems. *)
Inductive block_op :=
  | OReadOffset (off : Z)
  | OReadBlocks (offsets : list Z)
  | OReadAt (off len : Z)
  | OWriteAt (off : Z) (data : list Z).

Inductive block_result :=
  | RBlock (data : list Z)
  | RBlocks (res : result (list (list Z)) SysErrNo)
  | RBytes (res : result (list Z) SysErrNo)
  | RUnit (res : result unit SysErrNo).

Definition op_ok (op : block_op) : Prop :=
  match op with
  | OReadOffset off => 0 ≤ off ∧ off + 2 * EXT4_BLOCK_SIZE ≤ USIZE_MAX
  | OReadBlocks offsets => Forall block_aligned_at offsets
  | OReadAt off len => 0 ≤ off ∧ 0 ≤ len
  | OWriteAt off data => 0 ≤ off
  end.

Definition range_step (s : BlockState D) (op : block_op) : BlockState D * block_result :=
  match op with
  | OReadOffset off => let '(s, data) := read_offset r s off in (s, RBlock data)
  | OReadBlocks offsets => let '(s, res) := read_cached_blocks r s offsets in (s, RBlocks res)
  | OReadAt off len => let '(s, res) := block_read_at r s off len in (s, RBytes res)
  | OWriteAt off data => let '(s, res) := block_write_at r s off data in (s, RUnit res)
  end.

Fixpoint block_trace (s : BlockState D) (ops : list block_op) : list (D * block_op * block_result * D) :=
  match ops with
  | [] => []
  | op :: ops => let '(s', res) := range_step s op in (bs_raw s, op, res, bs_raw s') :: block_trace s' ops
  end.

Fixpoint block_run (s : BlockState D) (ops : list block_op) : BlockState D :=
  match ops with [] => s | op :: ops => block_run (range_step s op).1 ops end.

(** What a device without a cache would answer, before and after with contents [d] and [d']. *)
Definition device_answer (d : D) (op : block_op) (res : block_result) (d' : D) : Prop :=
  match op, res with
  | OReadOffset off, RBlock data =>
      same_bytes d d' ∧
      (data = slice (raw_bytes d) (br_start r + off) EXT4_BLOCK_SIZE ∨
       ∃ b, block_aligned_at b ∧ off - EXT4_BLOCK_SIZE < b < off + EXT4_BLOCK_SIZE ∧ read_fails d b)
  | OReadBlocks offsets, RBlocks (Ok ds) => same_bytes d d' ∧ ds = dev_block d <$> offsets
  | OReadBlocks offsets, RBlocks (Err e) => same_bytes d d' ∧ run_error d offsets e
  | OReadAt off len, RBytes res =>
      same_bytes d d' ∧ ∀ bs, res = Ok bs → bs = slice (raw_bytes d) (br_start r + off) len
  | OWriteAt off data, RUnit res =>
      (∀ x, x < br_start r + off ∨ br_start r + off + zlen data ≤ x → raw_bytes d' x = raw_bytes d x) ∧
      (res = Ok tt → slice (raw_bytes d') (br_start r + off) (zlen data) = data)
  | _, _ => False
  end.

Lemma range_step_ok s op :
  coherent s → op_ok op → coherent (range_step s op).1 ∧ device_answer (bs_raw s) op (range_step s op).2 (bs_raw (range_step s op).1).
Proof.
  intros Hc Hop. destruct op as [off|offsets|off len|off data]; cbn [range_step].
  - destruct (read_offset r s off) as [s' data] eqn:E. apply read_offset_ok in E as (?&?&?); [done|done|apply Hop..].
  - destruct (read_cached_blocks r s offsets) as [s' res] eqn:E. apply read_cached_blocks_ok in E as (?&?&Hres); [|done|done].
    by destruct res.
  - destruct (block_read_at r s off len) as [s' res] eqn:E. by apply read_raw_at_ok in E.
  - destruct (block_write_at r s off data) as [s' res] eqn:E. by apply block_write_at_ok in E.
Qed.

Lemma block_run_coherent s ops : coherent s → Forall op_ok ops → coherent (block_run s ops).
Proof.
  intros Hc Hops. revert s Hc. induction Hops as [|op ops Hop _ IH]; intros s Hc; [done|]. cbn [block_run].
  apply IH. by apply range_step_ok.
Qed.

Lemma block_trace_ok s ops :
  coherent s → Forall op_ok ops → Forall (λ '(d, op, res, d'), device_answer d op res d') (block_trace s ops).
Proof.
  intros Hc Hops. revert s Hc. induction Hops as [|op ops Hop _ IH]; intros s Hc; [constructor|]. cbn [block_trace].
  destruct (range_step_ok s op Hc Hop) as [Hc' Ha]. destruct (range_step s op) as [s' res]. constructor; [done|]. by apply IH.
Qed.

(** The blocks of a byte range. *)
Definition block_offsets (off : Z) (n : nat) : list Z := (λ i, off + Z.of_nat i * EXT4_BLOCK_SIZE) <$> seq 0 n.

Lemma block_offsets_aligned off n : block_aligned_at off → Forall block_aligned_at (block_offsets off n).
Proof.
  intros Hb. apply Forall_fmap, Forall_forall. intros i _. unfold compose, block_aligned_at, EXT4_BLOCK_SIZE in *. lia.
Qed.

Lemma concat_dev_blocks d off n :
  concat (dev_block d <$> block_offsets off n) = slice (raw_bytes d) (br_start r + off) (Z.of_nat n * EXT4_BLOCK_SIZE).
Proof.
  revert off. induction n as [|n IH]; intros off; [done|].
  assert (Hcons : block_offsets off (S n) = off :: block_offsets (off + EXT4_BLOCK_SIZE) n).
  { unfold block_offsets. cbn [seq]. rewrite fmap_cons, <-fmap_S_seq, <-list_fmap_compose. f_equal; [lia|].
    apply list_fmap_ext. intros i x _. unfold compose. lia. }
  rewrite Hcons, fmap_cons. cbn [concat].
  rewrite IH. replace (Z.of_nat (S n) * EXT4_BLOCK_SIZE) with (EXT4_BLOCK_SIZE + Z.of_nat n * EXT4_BLOCK_SIZE) by lia.
  rewrite slice_app by (unfold EXT4_BLOCK_SIZE; lia). unfold dev_block. f_equal; f_equal; lia.
Qed.

End coherence.

(** ** Theorems *)

(** A device in memory: an instance of the interface. *)
Record RamDisk := mkRam { ram_bytes : Z → Z; ram_size : Z }.

#[export] Instance RamDisk_raw : RawDevice RamDisk := {
  raw_read_at d off len :=
    if bool_decide (off + len ≤ ram_size d) then (d, Ok (slice (ram_bytes d) off len)) else (d, Err EIO);
  raw_write_at d off data :=
    if bool_decide (off + zlen data ≤ ram_size d)
    then (mkRam (λ x, if bool_decide (off ≤ x < off + zlen data) then data !!! Z.to_nat (x - off) else ram_bytes d x) (ram_size d), Ok tt)
    else (d, Err EIO)
}.

#[export, refine] Instance RamDisk_laws : RawDeviceLaws RamDisk := { raw_bytes := ram_bytes }.
Proof.
  - intros d off len d' res. simpl. case_bool_decide; intros [= <- <-]; (split; [done|]); intros bs; [by intros [= <-]|done].
  - intros d off data d' res. simpl. case_bool_decide; intros [= <- <-]; [|split; done]. split; simpl.
    + intros x Hx. rewrite bool_decide_eq_false_2 by lia. done.
    + intros _. apply list_eq. intros i. unfold slice. rewrite list_lookup_fmap. destruct (decide (i < length data)%nat).
      * rewrite lookup_seqZ_lt by (unfold zlen; lia). simpl. rewrite bool_decide_eq_true_2 by (unfold zlen; lia).
        replace (Z.to_nat (off + Z.of_nat i - off)) with i by lia.
        symmetry. by apply list_lookup_lookup_total_lt.
      * rewrite lookup_seqZ_ge by (unfold zlen; lia). rewrite lookup_ge_None_2 by lia. done.
Defined.

Definition ram0 : RamDisk := mkRam (λ x, x mod 251) 1048576.
Definition range0 : BlockRange := mkRange 8192 (Some 8192).



(** Data written to a range is read back through the cache. After any sequence of operations, a successful write of [n] whole blocks followed by any further reads and by a batched read of these blocks, when it succeeds, yields the data written. *)
Theorem block_write_read_roundtrip {D} `{RawDeviceLaws D} (r : BlockRange) (d : D) (ops reads : list block_op)
    (off : Z) (data : list Z) (n : nat) s1 s2 ds :
  Forall op_ok ops → Forall op_ok reads → Forall (λ op, ∀ o x, op ≠ OWriteAt o x) reads →
  block_aligned_at off → zlen data = Z.of_nat n * EXT4_BLOCK_SIZE →
  block_write_at r (block_run r (mkBState d cache_new) ops) off data = (s1, Ok tt) →
  read_cached_blocks r (block_run r s1 reads) (block_offsets off n) = (s2, Ok ds) →
  concat ds = data.
Proof.
  intros Hops Hreads Hro Hb Hlen Hw Hr.
  apply block_write_at_ok in Hw as (Hc1&_&Hdata); [|by apply block_run_coherent, Hops; apply coherent_new|apply Hb].
  assert (Hsame : coherent r (block_run r s1 reads) ∧ same_bytes (bs_raw s1) (bs_raw (block_run r s1 reads))).
  { clear Hr Hdata Hlen. revert s1 Hc1. induction Hreads as [|op reads Hop _ IH]; intros s1 Hc1; [done|].
    apply Forall_cons in Hro as [Hne Hro]. cbn [block_run]. destruct (range_step_ok r s1 op Hc1 Hop) as [Hc' Ha].
    destruct (IH Hro _ Hc') as [? Hs]. split; [done|]. eapply same_bytes_trans; [|exact Hs].
    destruct op as [?|?|?|o x], (range_step _ _ _).2 as [?|[?|?]|?|?]; try done; try apply Ha. by destruct (Hne o x). }
  destruct Hsame as [Hc2 Hs]. apply read_cached_blocks_ok in Hr as (_&_&->); [|done|by apply block_offsets_aligned].
  rewrite concat_dev_blocks, <-Hlen, (same_bytes_slice _ _ _ _ Hs). by apply Hdata.
Qed.

(** The cache never holds more than its limit of blocks, and eviction is least recently used. After any sequence of lookups, insertions and invalidations, inserting a block makes it present, keeps the bound, replaces nothing but the block itself while there is room, and otherwise evicts exactly one block whose last use is the oldest. *)
Theorem block_cache_lru (ops : list cache_op) (block : Z) (data : list Z) :
  Forall cache_op_ok ops →
  let c := cache_run cache_new ops in let c' := cache_insert c block data in
  Z.of_nat (size (bc_blocks c')) ≤ BLOCK_CACHE_LIMIT ∧ cache_view c' !! block = Some data ∧
  if bool_decide (is_Some (bc_blocks c !! block) ∨ Z.of_nat (size (bc_blocks c)) < BLOCK_CACHE_LIMIT)
  then cache_view c' = <[block := data]> (cache_view c)
  else ∃ victim e, bc_blocks c !! victim = Some e ∧
    (∀ b' e', bc_blocks c !! b' = Some e' → be_last_used e ≤ be_last_used e') ∧
    cache_view c' = <[block := data]> (delete victim (cache_view c)).
Proof.
  intros Hops c c'. destruct (cache_insert_ok c block data) as [Hw' Hi]; [by apply cache_run_wf; [apply cache_new_wf|]|].
  split; [apply Hw'|]. split; [|exact Hi]. unfold inserted in Hi. fold c' in Hi.
  case_bool_decide; [|destruct Hi as (v&e&_&_&Hi)]; by rewrite Hi, lookup_insert_eq.
Qed.

Lemma block_cache_lru_witness :
  let c := cache_run cache_new [CInsert 0 [1]; CInsert 4096 [2]; CGet 0; CInvalidate 5000 10] in
  bc_blocks c !! 4096 = None ∧ cache_view (cache_insert c 8192 [3]) !! 8192 = Some [3].
Proof.
  split; [vm_compute; reflexivity|].
  exact (proj1 (proj2 (block_cache_lru [CInsert 0 [1]; CInsert 4096 [2]; CGet 0; CInvalidate 5000 10] 8192 [3]
    ltac:(repeat constructor; vm_compute; congruence)))).
Defined.

Definition page_of (byte : Z) : list Z := replicate 4096 byte.

Definition written0 : BlockState RamDisk * result unit SysErrNo :=
  block_write_at range0 (block_run range0 (mkBState ram0 cache_new) [OReadOffset 0]) 4096 (page_of 9).

Definition read0 : BlockState RamDisk * result (list (list Z)) SysErrNo :=
  read_cached_blocks range0 (block_run range0 written0.1 [OReadOffset 100]) (block_offsets 4096 1).

Lemma block_write_read_roundtrip_witness : ∃ s2 ds, read0 = (s2, Ok ds) ∧ concat ds = page_of 9.
Proof.
  assert (Hw2 : written0.2 = Ok tt) by (vm_compute; reflexivity).
  assert (Hw : written0 = (written0.1, Ok tt)) by (rewrite <-Hw2; apply surjective_pairing).
  assert (Hok : match read0.2 with Ok _ => true | Err _ => false end = true) by (vm_compute; reflexivity).
  destruct read0 as [s2 [ds|e]] eqn:Hr; [|discriminate]. exists s2, ds. split; [reflexivity|].
  apply (block_write_read_roundtrip range0 ram0 [OReadOffset 0] [OReadOffset 100] 4096 (page_of 9) 1 written0.1 s2 ds);
    [repeat constructor; vm_compute; congruence|repeat constructor; vm_compute; congruence|repeat constructor; discriminate
    |split; vm_compute; congruence|vm_compute; reflexivity|exact Hw|exact Hr].
Defined.
