(* ===== verification/BlockWake.v ===== *)
(** * Blocking and waking a task
    (src/os/src/task/mod.rs, src/os/src/task/wait_queue.rs, src/os/src/task/task.rs)

    The life of one user task under concurrent schedulers, wakers and signals.  Every CPU
    runs control threads; the interrupted loop of a blocked owner and what it dispatches
    meanwhile are threads with the same CPU number.  A thread's program counter names the
    next access to the task's shared words in the source: the status under its lock, the
    block reason, the wait outcome, the wait token, [blocking_cpu], [running_cpu], the
    entries of the task in the ready queue, in the wait queue of the call and in the timer
    list.  A step is one such access, so the threads interleave between any two of them.

    Kernel tasks, exit, stop and continue, and deferred blocks are not part of this model.
    [CURRENT_TASK] is per CPU and names the task exactly while its thread executes it. *)

From S2P Require Import Prelude Task.

(** ** Threads *)

Inductive Pc : Set :=
  | Idle
  (** [run_ready_task_once]: popped from the ready queue, before and after the status test *)
  | Fetched | Starting
  (** the task runs in user mode or in a system call outside of a wait *)
  | User
  (** [sleep_until_keys_if_with_reason]; [d]: with a deadline, [n]: wait-queue entries *)
  | STake (d : bool) (n : nat) (r : BlockReason)
  | SRes1 | SRes2 | SRes3
  | SDeadline (d : bool) (n : nat) (r : BlockReason)
  | SReg1 (d : bool) (n : nat) (r : BlockReason) | SReg2 (d : bool) (n : nat) (r : BlockReason)
  | SReg3 (d : bool) (n : nat) (r : BlockReason) | SReg4 (d : bool) (n : nat) (r : BlockReason)
  | SReg5 (d : bool) (n : nat) (r : BlockReason) | SReg6 (d : bool) (n : nat) (r : BlockReason)
  | SCheck (d : bool) (r : BlockReason) | SPend (d : bool) (r : BlockReason) | STimer (d : bool) (r : BlockReason)
  | SCancel1 | SCancel2
  (** [block_current_for_reason_until], [block_current_and_run_next] *)
  | BCheck (d : bool) (r : BlockReason) | BReason (d : bool) (r : BlockReason) | BOwner (d : bool) | BBlock (d : bool)
  | BFail (d : bool) | BRecheck (d : bool) | BUndo1 (d : bool) | BUndo2 (d : bool) | BUndo3 (d : bool)
  | Loop (d : bool) | LOwner (d : bool) | LPurge (d : bool) | LRun (d : bool) | LReason (d : bool)
  (** the end of [sleep_until_keys_if_with_reason] *)
  | AReason (d : bool) | AWait (d : bool) | ATimer | AFinish
  (** the end of [run_ready_task_once] and [requeue_after_user_run] *)
  | Unwind | Released | RqDead | RqBlocked | RqCheck | RqRun | RqRun1 | RqRun2 | RqAdd | RqPush
  (** [wake_task_token_with] and [mark_blocked_task_ready] ([sig]) *)
  | WToken (k : Z) (o : WaitOutcome) | WLock (sig : bool) (o : WaitOutcome)
  | WReason (o : WaitOutcome) | WEarly (o : WaitOutcome)
  | WReady (o : WaitOutcome) | WClear (o : WaitOutcome) | WOutcome (o : WaitOutcome) | WOwner | WAdd | WPush
  (** [wake_for_signal] *)
  | SigWake.

(** The shared words of the task.  [p_regs] is the number of wait-queue entries of the
    last registration; no step reads it. *)
Record Prot := mkProt {
  p_status : TaskStatus;
  p_lock : option nat;
  p_reason : option BlockReason;
  p_outcome : option WaitOutcome;
  p_token : Z;
  p_blocking_cpu : option nat;
  p_running_cpu : option nat;
  p_queued : bool;
  p_waiters : list Z;
  p_timers : list Z;
  p_pending : bool;
  p_regs : nat;
  p_threads : list (nat * Pc)
}.

Section setters.
Context (s : Prot).
Definition with_status x := mkProt x (p_lock s) (p_reason s) (p_outcome s) (p_token s) (p_blocking_cpu s) (p_running_cpu s) (p_queued s) (p_waiters s) (p_timers s) (p_pending s) (p_regs s) (p_threads s).
Definition with_lock x := mkProt (p_status s) x (p_reason s) (p_outcome s) (p_token s) (p_blocking_cpu s) (p_running_cpu s) (p_queued s) (p_waiters s) (p_timers s) (p_pending s) (p_regs s) (p_threads s).
Definition with_reason x := mkProt (p_status s) (p_lock s) x (p_outcome s) (p_token s) (p_blocking_cpu s) (p_running_cpu s) (p_queued s) (p_waiters s) (p_timers s) (p_pending s) (p_regs s) (p_threads s).
Definition with_outcome x := mkProt (p_status s) (p_lock s) (p_reason s) x (p_token s) (p_blocking_cpu s) (p_running_cpu s) (p_queued s) (p_waiters s) (p_timers s) (p_pending s) (p_regs s) (p_threads s).
Definition with_token x := mkProt (p_status s) (p_lock s) (p_reason s) (p_outcome s) x (p_blocking_cpu s) (p_running_cpu s) (p_queued s) (p_waiters s) (p_timers s) (p_pending s) (p_regs s) (p_threads s).
Definition with_blocking x := mkProt (p_status s) (p_lock s) (p_reason s) (p_outcome s) (p_token s) x (p_running_cpu s) (p_queued s) (p_waiters s) (p_timers s) (p_pending s) (p_regs s) (p_threads s).
Definition with_running x := mkProt (p_status s) (p_lock s) (p_reason s) (p_outcome s) (p_token s) (p_blocking_cpu s) x (p_queued s) (p_waiters s) (p_timers s) (p_pending s) (p_regs s) (p_threads s).
Definition with_queued x := mkProt (p_status s) (p_lock s) (p_reason s) (p_outcome s) (p_token s) (p_blocking_cpu s) (p_running_cpu s) x (p_waiters s) (p_timers s) (p_pending s) (p_regs s) (p_threads s).
Definition with_waiters x := mkProt (p_status s) (p_lock s) (p_reason s) (p_outcome s) (p_token s) (p_blocking_cpu s) (p_running_cpu s) (p_queued s) x (p_timers s) (p_pending s) (p_regs s) (p_threads s).
Definition with_timers x := mkProt (p_status s) (p_lock s) (p_reason s) (p_outcome s) (p_token s) (p_blocking_cpu s) (p_running_cpu s) (p_queued s) (p_waiters s) x (p_pending s) (p_regs s) (p_threads s).
Definition with_pending x := mkProt (p_status s) (p_lock s) (p_reason s) (p_outcome s) (p_token s) (p_blocking_cpu s) (p_running_cpu s) (p_queued s) (p_waiters s) (p_timers s) x (p_regs s) (p_threads s).
Definition with_regs x := mkProt (p_status s) (p_lock s) (p_reason s) (p_outcome s) (p_token s) (p_blocking_cpu s) (p_running_cpu s) (p_queued s) (p_waiters s) (p_timers s) (p_pending s) x (p_threads s).
Definition with_threads x := mkProt (p_status s) (p_lock s) (p_reason s) (p_outcome s) (p_token s) (p_blocking_cpu s) (p_running_cpu s) (p_queued s) (p_waiters s) (p_timers s) (p_pending s) (p_regs s) x.
End setters.

(** What a thread may choose to do next. *)
Inductive Act : Set :=
  (** the next access of the code it is in *)
  | Go
  (** an idle thread takes the task from the ready queue or purges it because it is not
      ready (it is taken some time after [fetch_from_queue] saw it ready), pops one of its entries from the
      wait queue or the timer list, or sends it a signal *)
  | Fetch | Purge | PopWaiter (k : Z) | PopTimer (k : Z) | Post
  (** the running task is preempted, waits, or takes its signals *)
  | Preempt | Sleep (d : bool) (n : nat) (r : BlockReason) | TakeSignals
  (** the deadline has passed; [should_sleep] returned false or an error; the blocking CPU
      returns to the foreground driver *)
  | Expired | NoSleep | Park.

(** [waiters] without the first entry of token [k]. *)
Fixpoint remove_first (k : Z) (l : list Z) : list Z :=
  match l with
  | [] => []
  | x :: l => if bool_decide (x = k) then l else x :: remove_first k l
  end.

Definition remove_all (k : Z) (l : list Z) : list Z := filter (λ x, x ≠ k) l.

(** The status lock is free. *)
Definition unlocked (s : Prot) : bool := bool_decide (p_lock s = None).

(** Waking threads. *)
Definition wake_step (s : Prot) (i : nat) (pc : Pc) : option (Prot * Pc) :=
  match pc with
  | WToken k o => Some (s, if bool_decide (p_token s = k) then WLock false o else Idle)
  | WLock sig o =>
      if negb (unlocked s) then None
      else if bool_decide (p_status s = Blocked) then Some (with_lock s (Some i), WReady o)
      else if sig then Some (s, Idle) else Some (with_lock s (Some i), WReason o)
  | WReason o =>
      match p_reason s with Some _ => Some (s, WEarly o) | None => Some (with_lock s None, Idle) end
  | WEarly o => Some (with_lock (with_outcome s (Some o)) None, Idle)
  | WReady o => Some (with_status s Ready, WClear o)
  | WClear o => Some (with_reason s None, WOutcome o)
  | WOutcome o => Some (with_lock (with_outcome s (Some o)) None, WOwner)
  | WOwner => Some (s, match p_blocking_cpu s with None => WAdd | Some _ => Idle end)
  | WAdd => if negb (unlocked s) then None else Some (s, if bool_decide (p_status s = Ready) then WPush else Idle)
  | WPush => Some (with_queued s true, Idle)
  | SigWake => if p_pending s then Some (s, WLock true Interrupted) else Some (s, Idle)
  | _ => None
  end.

(** [try_start_running], under the status lock *)
Definition try_start_running (s : Prot) (cpu : nat) : option Prot :=
  if bool_decide (p_status s = Ready) && bool_decide (p_running_cpu s = None)
  then Some (with_status (with_running s (Some cpu)) Running) else None.

(** [release_running_cpu] *)
Definition release_running_cpu (s : Prot) (cpu : nat) : Prot :=
  with_running s (if bool_decide (p_running_cpu s = Some cpu) then None else p_running_cpu s).

(** [set_status_if], under the status lock *)
Definition set_status_if (s : Prot) (expected next : TaskStatus) : option Prot :=
  if bool_decide (p_status s = expected) then Some (with_status s next) else None.

(** Scheduling threads; [cpu] is the CPU of the thread. *)
Definition dispatch_step (s : Prot) (cpu : nat) (pc : Pc) : option (Prot * Pc) :=
  match pc with
  | Fetched =>
      if negb (unlocked s) then None
      else Some (s, match p_status s with Zombie | Blocked | Stopped => Idle | _ => Starting end)
  | Starting =>
      if negb (unlocked s) then None
      else match try_start_running s cpu with Some s => Some (s, User) | None => Some (s, Idle) end
  | Unwind => Some (release_running_cpu s cpu, Released)
  | _ => None
  end.

Definition requeue_step (s : Prot) (pc : Pc) : option (Prot * Pc) :=
  match pc with
  | Released =>
      if negb (unlocked s) then None
      else Some (s, match p_status s with Zombie | Stopped => RqDead | Blocked => RqBlocked | _ => RqRun end)
  | RqDead => Some (with_blocking s None, Idle)
  | RqBlocked => Some (with_blocking s None, RqCheck)
  | RqCheck => if negb (unlocked s) then None else Some (s, if bool_decide (p_status s = Ready) then RqAdd else Idle)
  | RqRun => Some (with_blocking s None, RqRun1)
  | RqRun1 => Some (with_reason s None, RqRun2)
  | RqRun2 =>
      if negb (unlocked s) then None
      else match p_status s with Running | Ready => Some (with_status s Ready, RqAdd) | _ => Some (s, Idle) end
  | RqAdd => if negb (unlocked s) then None else Some (s, if bool_decide (p_status s = Ready) then RqPush else Idle)
  | RqPush => Some (with_queued s true, Idle)
  | _ => None
  end.

(** The waiting task, up to the decision to block. *)
Definition sleep_step (s : Prot) (pc : Pc) : option (Prot * Pc) :=
  match pc with
  | STake d n r =>
      Some (with_outcome s None, match p_outcome s with Some _ => SRes1 | None => SDeadline d n r end)
  | SRes1 => Some (with_waiters s (remove_all (p_token s) (p_waiters s)), SRes2)
  | SRes2 => Some (with_timers s (remove_first (p_token s) (p_timers s)), SRes3)
  | SRes3 => Some (with_reason s None, User)
  | SDeadline d n r => Some (s, SReg1 d n r)
  | SReg1 d n r => Some (with_waiters s [], SReg2 d n r)
  | SReg2 d n r => Some (with_timers s [], SReg3 d n r)
  | SReg3 d n r => Some (with_token s (wrap (p_token s + 1)), SReg4 d n r)
  | SReg4 d n r => Some (with_outcome s None, SReg5 d n r)
  | SReg5 d n r => Some (with_reason s (Some r), SReg6 d n r)
  | SReg6 d n r =>
      Some (with_regs (with_waiters s (p_waiters s ++ replicate (Nat.max n 1) (p_token s))) (Nat.max n 1), SCheck d r)
  | SCheck d r => Some (s, SPend d r)
  | SPend d r => Some (s, if p_pending s then SCancel1 else STimer d r)
  | STimer d r => Some (if d then with_timers s (p_timers s ++ [p_token s]) else s, BCheck d r)
  | SCancel1 => Some (with_waiters s (remove_all (p_token s) (p_waiters s)), SCancel2)
  | SCancel2 => Some (with_reason s None, User)
  | _ => None
  end.

(** The blocking task. *)
Definition block_reason_step (s : Prot) (pc : Pc) : option (Prot * Pc) :=
  match pc with
  | BCheck d r => Some (s, match p_outcome s with Some _ => AReason d | None => BReason d r end)
  | BReason d r => Some (with_reason s (Some r), BOwner d)
  | _ => None
  end.

Definition block_step (s : Prot) (cpu : nat) (pc : Pc) : option (Prot * Pc) :=
  match pc with
  | BOwner d => Some (with_blocking s (Some cpu), BBlock d)
  | BBlock d =>
      if negb (unlocked s) then None
      else match set_status_if s Running Blocked with Some s => Some (s, BRecheck d) | None => Some (s, BFail d) end
  | BFail d => Some (with_blocking s None, AReason d)
  | BRecheck d => Some (s, match p_outcome s with Some _ => BUndo1 d | None => Loop d end)
  | BUndo1 d => Some (with_blocking s None, BUndo2 d)
  | BUndo2 d =>
      if negb (unlocked s) then None
      else match set_status_if s Blocked Running with Some s => Some (s, AReason d) | None => Some (s, BUndo3 d) end
  | BUndo3 d =>
      if negb (unlocked s) then None
      else match set_status_if s Ready Running with Some s => Some (s, AReason d) | None => Some (s, AReason d) end
  | Loop d => if negb (unlocked s) then None else Some (s, if bool_decide (p_status s = Blocked) then Loop d else LOwner d)
  | LOwner d => Some (with_blocking s None, LPurge d)
  | LPurge d => Some (with_queued s false, LRun d)
  | LRun d =>
      if negb (unlocked s) then None
      else match set_status_if s Ready Running with Some s => Some (s, LReason d) | None => Some (s, AReason d) end
  | LReason d => Some (with_reason s None, AReason d)
  | _ => None
  end.

(** The waiting task after [block_current_for]. *)
Definition finish_step (s : Prot) (pc : Pc) : option (Prot * Pc) :=
  match pc with
  | AReason d => Some (with_reason s None, AWait d)
  | AWait d => Some (with_waiters s (remove_all (p_token s) (p_waiters s)), if d then ATimer else AFinish)
  | ATimer => Some (with_timers s (remove_first (p_token s) (p_timers s)), AFinish)
  | AFinish => Some (with_outcome s None, User)
  | _ => None
  end.

(** One access of thread [i]: each program counter belongs to one of the functions. *)
Definition go (s : Prot) (i cpu : nat) (pc : Pc) : option (Prot * Pc) :=
  let or (x y : option (Prot * Pc)) := match x with Some r => Some r | None => y end in
  or (wake_step s i pc) (or (dispatch_step s cpu pc) (or (requeue_step s pc) (or (sleep_step s pc)
    (or (block_reason_step s pc) (or (block_step s cpu pc) (finish_step s pc)))))).

Definition act (s : Prot) (i cpu : nat) (pc : Pc) (a : Act) : option (Prot * Pc) :=
  match a, pc with
  | Go, _ => go s i cpu pc
  | Fetch, Idle => if p_queued s then Some (with_queued s false, Fetched) else None
  | Purge, Idle => if unlocked s && negb (bool_decide (p_status s = Ready)) then Some (with_queued s false, Idle) else None
  | PopWaiter k, Idle =>
      if bool_decide (k ∈ p_waiters s) then Some (with_waiters s (remove_first k (p_waiters s)), WToken k Woken) else None
  | PopTimer k, Idle =>
      if bool_decide (k ∈ p_timers s) then Some (with_timers s (remove_first k (p_timers s)), WToken k TimedOut) else None
  | Post, Idle => Some (with_pending s true, SigWake)
  | Preempt, User => Some (s, Unwind)
  | Sleep d n r, User => Some (s, STake d n r)
  | TakeSignals, User => Some (with_pending s false, User)
  | Expired, SDeadline true n r => Some (s, User)
  | NoSleep, SCheck d r => Some (s, SCancel1)
  | Park, BRecheck false => match p_outcome s with None => Some (s, Unwind) | Some _ => None end
  | _, _ => None
  end.

Definition set_thread (s : Prot) (i cpu : nat) (pc : Pc) : Prot :=
  with_threads s (<[i := (cpu, pc)]> (p_threads s)).

(** The step of thread [i]. *)
Definition pstep (s : Prot) (i : nat) (a : Act) : option Prot :=
  match p_threads s !! i with
  | None => None
  | Some (cpu, pc) =>
      match act s i cpu pc a with
      | Some (s', pc') => Some (set_thread s' i cpu pc')
      | None => None
      end
  end.

Fixpoint prun (s : Prot) (l : list (nat * Act)) : option Prot :=
  match l with
  | [] => Some s
  | (i, a) :: l => match pstep s i a with Some s' => prun s' l | None => None end
  end.

(** A new task: ready and queued, on CPUs whose threads are idle. *)
Definition pinit (cpus : list nat) : Prot :=
  mkProt Ready None None None 0 None None true [] [] false 0 ((λ c, (c, Idle)) <$> cpus).

(** ** Exclusive execution *)

(** The thread executes the task: from its start to the release of [running_cpu]. *)
Definition executing (pc : Pc) : bool :=
  match pc with
  | Idle | Fetched | Starting | Released | RqDead | RqBlocked | RqCheck | RqRun | RqRun1 | RqRun2 | RqAdd | RqPush
  | WToken _ _ | WLock _ _ | WReason _ | WEarly _ | WReady _ | WClear _ | WOutcome _ | WOwner | WAdd | WPush | SigWake => false
  | _ => true
  end.

(** States reached by any interleaving. *)
Inductive preach : Prot → Prop :=
  | preach_init cpus : preach (pinit cpus)
  | preach_step s i a s' : preach s → pstep s i a = Some s' → preach s'.

(** An executing thread's CPU is [running_cpu], and no other thread executes. *)
Definition exclusive (s : Prot) : Prop :=
  ∀ i c pc, p_threads s !! i = Some (c, pc) → executing pc = true →
    p_running_cpu s = Some c ∧
    ∀ j c' pc', p_threads s !! j = Some (c', pc') → executing pc' = true → j = i.

Lemma pinit_idle cpus i c pc : p_threads (pinit cpus) !! i = Some (c, pc) → pc = Idle.
Proof. cbn [pinit p_threads]. rewrite list_lookup_fmap. destruct (cpus !! i); [by intros [= _ <-]|done]. Qed.

(** All the steps of the model, one case each. *)
Ltac act_cases Ha :=
  match type of Ha with
  | act _ _ _ ?pc ?a = _ => destruct a, pc
  end; cbn [act] in Ha; unfold go in Ha; cbn [wake_step dispatch_step requeue_step sleep_step block_reason_step block_step finish_step] in Ha;
  unfold try_start_running, release_running_cpu, set_status_if in Ha;
  repeat (cases_in Ha; cbn [andb negb] in Ha); try discriminate Ha; injection Ha as <- <-.

(** What a step can do to the set of executing threads. *)
Lemma act_executing s i cpu pc a s' pc' :
  act s i cpu pc a = Some (s', pc') →
  p_threads s' = p_threads s ∧
  ((executing pc' = executing pc ∧ p_running_cpu s' = p_running_cpu s) ∨
   (executing pc = false ∧ executing pc' = true ∧ p_running_cpu s = None ∧ p_running_cpu s' = Some cpu) ∨
   (executing pc = true ∧ executing pc' = false)).
Proof.
  intros Ha. act_cases Ha. all: (split; [reflexivity|]); cbn; reflect_bools; auto 10.
Qed.

Lemma set_thread_lookup s i cpu pc j x :
  p_threads (set_thread s i cpu pc) !! j = Some x → (j = i ∧ x = (cpu, pc)) ∨ (j ≠ i ∧ p_threads s !! j = Some x).
Proof.
  cbn [set_thread with_threads p_threads]. destruct (decide (j = i)) as [->|Hne].
  - intros Hx. left. split; [done|]. destruct (decide (i < length (p_threads s))%nat).
    + rewrite list_lookup_insert_eq in Hx by done. by injection Hx.
    + rewrite list_insert_ge in Hx by lia. rewrite lookup_ge_None_2 in Hx by lia. done.
  - rewrite list_lookup_insert_ne by done. auto.
Qed.

Lemma exclusive_step s i a s' : exclusive s → pstep s i a = Some s' → exclusive s'.
Proof.
  intros Hex. unfold pstep. destruct (p_threads s !! i) as [[cpu pc]|] eqn:Ei; [|done].
  destruct (act s i cpu pc a) as [[s1 pc1]|] eqn:Ha; [|done]. intros [= <-].
  destruct (act_executing _ _ _ _ _ _ _ Ha) as [Ht Hcase].
  intros j c pcj Hj He. apply set_thread_lookup in Hj as [[-> [= -> ->]]|[Hji Hj]].
  - destruct Hcase as [[Hsame Hrun]|[(Hpc&_&Hnone&Hrun)|[_ Hf]]]; [| |congruence].
    + rewrite Hsame in He. destruct (Hex _ _ _ Ei He) as [Hr Hu]. split; [cbn; congruence|].
      intros k c' pck Hk Hek. apply set_thread_lookup in Hk as [[-> _]|[_ Hk]]; [done|].
      rewrite Ht in Hk. by eapply Hu.
    + split; [exact Hrun|]. intros k c' pck Hk Hek. apply set_thread_lookup in Hk as [[-> _]|[_ Hk]]; [done|].
      rewrite Ht in Hk. destruct (Hex _ _ _ Hk Hek) as [Hr _]. congruence.
  - rewrite Ht in Hj. destruct (Hex _ _ _ Hj He) as [Hr Hu].
    assert (Hpc : executing pc = false).
    { destruct (executing pc) eqn:Epc; [|done]. exfalso. apply Hji. symmetry. by eapply Hu. }
    destruct Hcase as [[Hsame Hrun]|[(_&_&Hnone&_)|[Ht' _]]]; [|congruence|congruence].
    split; [cbn; congruence|]. intros k c' pck Hk Hek. apply set_thread_lookup in Hk as [[-> [= -> ->]]|[_ Hk]]; [congruence|].
    rewrite Ht in Hk. by eapply Hu.
Qed.

Lemma preach_exclusive s : preach s → exclusive s.
Proof.
  induction 1 as [cpus|s i a s' _ IH Hs]; [|by eapply exclusive_step].
  intros i c pc Hi He. apply pinit_idle in Hi as ->. done.
Qed.

(** ** No wake-up is lost while handovers complete *)

(** The thread gives the task back to the scheduler after it executed it. *)
Definition requeueing (pc : Pc) : bool :=
  match pc with Released | RqDead | RqBlocked | RqCheck | RqRun | RqRun1 | RqRun2 | RqAdd | RqPush => true | _ => false end.

(** The thread has made the task ready and may still have to enqueue it. *)
Definition publishing (pc : Pc) : bool :=
  match pc with WClear _ | WOutcome _ | WOwner | WAdd | WPush => true | _ => false end.

Definition others (s : Prot) (i : nat) (P : Pc → bool) : Prop :=
  ∃ j c pc, j ≠ i ∧ p_threads s !! j = Some (c, pc) ∧ P pc = true.

(** A step is orderly if it resumes the task only when no other thread is in the middle of
    handing it over. *)
Definition orderly (s : Prot) (i : nat) (s' : Prot) : Prop :=
  p_status s ≠ Running → p_status s' = Running → ¬ others s i requeueing ∧ ¬ others s i publishing.

Inductive oreach : Prot → Prop :=
  | oreach_init cpus : oreach (pinit cpus)
  | oreach_step s i a s' : oreach s → pstep s i a = Some s' → orderly s i s' → oreach s'.

Definition owner (pc : Pc) : bool := executing pc || requeueing pc.
Definition dispatching (pc : Pc) : bool := match pc with Fetched | Starting => true | _ => false end.
(** Registered and about to block. *)
Definition armed (pc : Pc) : bool :=
  match pc with SCheck _ _ | SPend _ _ | STimer _ _ | BCheck _ _ | BReason _ _ | BOwner _ | BBlock _ => true | _ => false end.
Definition rechecking (pc : Pc) : bool := match pc with BRecheck _ | BUndo1 _ | BUndo2 _ => true | _ => false end.
(** A wake-up for the registration of token [k] may be under way in the thread. *)
Definition inflight (k : Z) (pc : Pc) : bool :=
  match pc with
  | WToken k' _ => bool_decide (k' = k)
  | WLock false _ | WReason _ | WEarly _ | WReady _ => true
  | _ => false
  end.

Definition entries (s : Prot) : nat := length (filter (λ k, k = p_token s) (p_waiters s)).

(** What the position of its owner says of the task. *)
Definition owner_ok (s : Prot) (cpu : nat) (pc : Pc) : Prop :=
  match pc with
  | SReg2 _ _ _ | SReg3 _ _ _ | SReg4 _ _ _ | SReg5 _ _ _ | SReg6 _ _ _ =>
      p_running_cpu s = Some cpu ∧ p_status s = Running ∧ p_waiters s = [] ∧
      match pc with SReg6 _ _ _ => p_reason s ≠ None | _ => True end
  | SCheck _ _ | SPend _ _ | STimer _ _ | BCheck _ _ | BReason _ _ | BOwner _ | BBlock _ =>
      p_running_cpu s = Some cpu ∧ p_status s = Running ∧ p_reason s ≠ None
  | BRecheck _ | BUndo1 _ | BUndo2 _ | Loop _ =>
      p_running_cpu s = Some cpu ∧ (p_status s = Blocked ∨ p_status s = Ready)
  | BUndo3 _ | LOwner _ | LPurge _ | LRun _ => p_running_cpu s = Some cpu ∧ p_status s = Ready
  | BFail _ | RqDead => False
  | Unwind => p_running_cpu s = Some cpu
  | Released => True
  | RqBlocked => p_status s = Blocked ∨ p_status s = Ready
  | RqCheck => (p_status s = Blocked ∨ p_status s = Ready) ∧ p_blocking_cpu s = None
  | RqRun => p_status s = Running ∨ p_status s = Ready
  | RqRun1 | RqRun2 => (p_status s = Running ∨ p_status s = Ready) ∧ p_blocking_cpu s = None
  | RqAdd | RqPush => p_status s = Ready ∧ p_blocking_cpu s = None
  | _ => executing pc = true → p_running_cpu s = Some cpu ∧ p_status s = Running
  end.

Definition waker_ok (s : Prot) (i : nat) (pc : Pc) : Prop :=
  match pc with
  | WReason _ | WEarly _ => p_lock s = Some i ∧ p_status s ≠ Blocked
  | WReady _ => p_lock s = Some i ∧ p_status s = Blocked
  | WClear _ | WOutcome _ => p_lock s = Some i ∧ p_status s = Ready
  | WOwner | WAdd | WPush => p_status s = Ready
  | _ => True
  end.

(** The facts that relate the shared words and the threads; [some P]: a thread is at a [P]. *)
Record shared_ok (s : Prot) (some : (Pc → bool) → Prop) : Prop := {
  so_status : p_status s = Running ∨ p_status s = Blocked ∨ p_status s = Ready;
  so_running : p_status s = Running → some owner;
  so_cpu : p_running_cpu s ≠ None → some executing;
  so_blocking : p_status s ≠ Running → some owner ∨ p_blocking_cpu s = None;
  so_ready : p_status s = Ready → some owner ∨ p_queued s = true ∨ some dispatching ∨ some publishing;
  so_regs : p_status s = Blocked ∨ some armed → (1 ≤ p_regs s)%nat;
  so_entries : p_status s = Blocked ∨ some armed →
    entries s = p_regs s ∨ p_outcome s ≠ None ∨ some (inflight (p_token s));
  so_outcome : p_status s = Blocked → p_outcome s ≠ None → some rechecking
}.

Definition some_thread (s : Prot) (P : Pc → bool) : Prop :=
  ∃ j c pc, p_threads s !! j = Some (c, pc) ∧ P pc = true.

Record pinv (s : Prot) : Prop := {
  pi_owner : ∀ j c pc, p_threads s !! j = Some (c, pc) → owner_ok s c pc;
  pi_waker : ∀ j c pc, p_threads s !! j = Some (c, pc) → waker_ok s j pc;
  pi_unique : ∀ i j c pc c' pc', p_threads s !! i = Some (c, pc) → p_threads s !! j = Some (c', pc') →
    owner pc = true → owner pc' = true → i = j;
  pi_shared : shared_ok s (some_thread s)
}.

(** Thread [i] at [pc] and the other threads. *)
Definition here (s : Prot) (i : nat) (pc : Pc) (P : Pc → bool) : Prop := P pc = true ∨ others s i P.

Lemma some_here s i c pc P : p_threads s !! i = Some (c, pc) → some_thread s P ↔ here s i pc P.
Proof.
  intros Hi. split.
  - intros (j&c'&pc'&Hj&HP). destruct (decide (j = i)) as [->|].
    + rewrite Hi in Hj. injection Hj as <- <-. by left.
    + right. by exists j, c', pc'.
  - intros [HP|(j&c'&pc'&_&Hj&HP)]; [by exists i, c, pc|by exists j, c', pc'].
Qed.

Lemma shared_ok_iff s (f g : (Pc → bool) → Prop) : (∀ P, f P ↔ g P) → shared_ok s f → shared_ok s g.
Proof.
  intros Hfg [H1 H2 H3 H4 H5 H6 H7 H8].
  split; [done|..]; rewrite <-?Hfg; auto.
Qed.

Lemma shared_ok_threads s f l : shared_ok s f → shared_ok (with_threads s l) f.
Proof. intros [H1 H2 H3 H4 H5 H6 H7 H8]. constructor; assumption. Qed.

(** Steps of one thread leave the others at their places. *)
Lemma others_set s s1 i cpu pc P : p_threads s1 = p_threads s → others (set_thread s1 i cpu pc) i P ↔ others s i P.
Proof.
  intros Ht. split; intros (j&c&pcj&Hji&Hj&HP); exists j, c, pcj; split_and!; try done.
  - apply set_thread_lookup in Hj as [[? _]|[_ Hj]]; [done|]. by rewrite <-Ht.
  - cbn [set_thread with_threads p_threads]. rewrite list_lookup_insert_ne by done. by rewrite Ht.
Qed.

(** A thread that does not own the task leaves its owner's facts. *)
Lemma owner_ok_mono s s' cpu pc :
  p_running_cpu s' = p_running_cpu s → p_blocking_cpu s' = p_blocking_cpu s →
  (p_status s' = p_status s ∨ (p_status s = Blocked ∧ p_status s' = Ready)) →
  (p_reason s' = p_reason s ∨ p_status s ≠ Running) → (p_waiters s = [] → p_waiters s' = []) →
  owner_ok s cpu pc → owner_ok s' cpu pc.
Proof.
  intros Hr Hb Hs Hre Hw. destruct pc; cbn; rewrite ?Hr, ?Hb; destruct Hs as [Hs|[Hs Hs']], Hre as [Hre|Hre];
    rewrite ?Hs, ?Hre, ?Hs'; intuition (congruence || auto).
Qed.

(** A step that changes the lock or the status of others' view holds the lock or finds it free. *)
Lemma waker_ok_mono s s' i j pc :
  j ≠ i → (p_lock s' = p_lock s ∨ p_lock s = None ∨ p_lock s = Some i) →
  (p_status s' = p_status s ∨
   ((p_lock s = None ∨ p_lock s = Some i) ∧ (p_status s' = Ready ∨ p_status s ≠ Ready ∨ publishing pc = false))) →
  waker_ok s j pc → waker_ok s' j pc.
Proof.
  intros Hji Hl Hs. destruct pc; cbn; try done; destruct Hl as [Hl|[Hl|Hl]], Hs as [Hs|[[Hs|Hs] [Hs'|[Hs'|Hs']]]];
    rewrite ?Hl, ?Hs, ?Hs'; intuition (congruence || discriminate).
Qed.

Lemma owner_ok_trivial s cpu pc : owner pc = false → owner_ok s cpu pc.
Proof. by destruct pc. Qed.

(** The invariant after a step of thread [i], from what the step itself does. *)
Lemma pinv_frame s i cpu pc s1 pc1 :
  pinv s → p_threads s !! i = Some (cpu, pc) → p_threads s1 = p_threads s →
  owner_ok s1 cpu pc1 → waker_ok s1 i pc1 →
  (owner pc1 = true → ¬ others s i owner) →
  (¬ others s i owner ∨
   p_running_cpu s1 = p_running_cpu s ∧ p_blocking_cpu s1 = p_blocking_cpu s ∧
   (p_status s1 = p_status s ∨ (p_status s = Blocked ∧ p_status s1 = Ready)) ∧
   (p_reason s1 = p_reason s ∨ p_status s ≠ Running) ∧ (p_waiters s = [] → p_waiters s1 = [])) →
  (p_lock s1 = p_lock s ∨ p_lock s = None ∨ p_lock s = Some i) →
  (p_status s1 = p_status s ∨
   ((p_lock s = None ∨ p_lock s = Some i) ∧ (p_status s1 = Ready ∨ p_status s ≠ Ready ∨ ¬ others s i publishing))) →
  shared_ok s1 (here s i pc1) → pinv (set_thread s1 i cpu pc1).
Proof.
  intros [Ho Hw Hu Hs] Hi Ht Ho1 Hw1 Hu1 Hom Hl Hst Hs1.
  assert (Hself : p_threads (set_thread s1 i cpu pc1) !! i = Some (cpu, pc1)).
  { cbn [set_thread with_threads p_threads]. rewrite Ht. apply list_lookup_insert_eq. by eapply lookup_lt_Some. }
  split.
  - intros j c pcj [[-> [= -> ->]]|[Hji Hj]]%set_thread_lookup; [exact Ho1|]. rewrite Ht in Hj.
    destruct Hom as [Hno|(H1&H2&H3&H4&H5)]; [|by apply (owner_ok_mono s); auto; apply (Ho j)].
    apply owner_ok_trivial. destruct (owner pcj) eqn:E; [|done]. exfalso. apply Hno. by exists j, c, pcj.
  - intros j c pcj [[-> [= -> ->]]|[Hji Hj]]%set_thread_lookup; [exact Hw1|]. rewrite Ht in Hj.
    apply (waker_ok_mono s s1 i j pcj Hji Hl); [|by apply (Hw j c)].
    destruct Hst as [?|[? [?|[?|Hno]]]]; [by left|right; split; auto..].
    right. right. destruct (publishing pcj) eqn:E; [|done]. exfalso. apply Hno. by exists j, c, pcj.
  - intros j k c pcj c' pck Hj Hk Hoj Hok.
    apply set_thread_lookup in Hj as [[-> [= -> ->]]|[Hji Hj]], Hk as [[-> [= -> ->]]|[Hki Hk]]; [done|..].
    + rewrite Ht in Hk. exfalso. apply (Hu1 Hoj). by exists k, c', pck.
    + rewrite Ht in Hj. exfalso. apply (Hu1 Hok). by exists j, c, pcj.
    + rewrite Ht in Hj, Hk. by eapply Hu.
  - eapply shared_ok_iff; [|exact (shared_ok_threads _ _ _ Hs1)]. intros P. rewrite (some_here _ i cpu pc1) by done. unfold here. by rewrite others_set.
Qed.

Lemma entries_remove_first_ne k l tok :
  k ≠ tok → length (filter (λ x, x = tok) (remove_first k l)) = length (filter (λ x, x = tok) l).
Proof.
  intros Hne. induction l as [|x l IH]; [done|]. cbn [remove_first]. case_bool_decide as E.
  - subst x. by rewrite filter_cons_False.
  - rewrite !filter_cons. destruct (decide (x = tok)); [by cbn; rewrite IH|done].
Qed.

Lemma remove_first_nil k l : l = [] → remove_first k l = [].
Proof. by intros ->. Qed.

Lemma filter_replicate_same n (k : Z) : length (filter (λ x, x = k) (replicate n k)) = n.
Proof. induction n as [|n IH]; [done|]. rewrite replicate_S, filter_cons_True by done. cbn [length]. by rewrite IH. Qed.

(** Which of the old facts each of the shared facts rests on. *)
Ltac relevant_facts S2 S3 S4 S5 S6 S7 S8 :=
  lazymatch goal with
  | |- _ = Running ∨ _ => clear S2 S3 S4 S5 S6 S7 S8
  | |- _ = Running → _ => clear S3 S4 S5 S6 S7 S8
  | |- _ ≠ None → _ => clear S2 S4 S5 S6 S7 S8
  | |- _ → _ ∨ _ = None => clear S2 S3 S5 S6 S7 S8
  | |- _ = Ready → _ => clear S2 S6 S7 S8
  | |- _ → (1 ≤ _)%nat => clear S2 S3 S4 S5 S7 S8
  | |- _ → _ ≠ None → _ => clear S2 S3 S4 S5 S6 S7
  | |- _ => clear S2 S3 S4 S5 S6 S8
  end.

(** What other threads at some points say of the task. *)
Lemma others_facts s i :
  (∀ j c pc, p_threads s !! j = Some (c, pc) → owner_ok s c pc) →
  (others s i armed → p_status s = Running ∧ p_reason s ≠ None ∧ others s i owner) ∧
  (others s i executing → others s i owner) ∧
  (others s i owner → others s i executing ∨ others s i requeueing) ∧
  (others s i executing → p_running_cpu s ≠ None).
Proof.
  intros Ho. split_and!.
  - intros (j&c&pc&Hji&Hj&Hp). pose proof (Ho _ _ _ Hj) as Hoj.
    assert (Hown : owner pc = true) by (by destruct pc).
    destruct pc; try discriminate Hp; destruct Hoj as (_&?&?); (split; [done|]); (split; [done|]); by eexists _, _, _.
  - intros (j&c&pc&Hji&Hj&Hp). exists j, c, pc. unfold owner. by rewrite Hp.
  - intros (j&c&pc&Hji&Hj&[Hp|Hp]%orb_true_iff); [left|right]; by exists j, c, pc.
  - intros (j&c&pc&Hji&Hj&Hp). pose proof (Ho _ _ _ Hj) as Hoj.
    destruct pc; try discriminate Hp; cbn in Hoj; intuition congruence.
Qed.

Lemma pinv_act s i cpu pc a s1 pc1 :
  pinv s → p_threads s !! i = Some (cpu, pc) → act s i cpu pc a = Some (s1, pc1) →
  orderly s i (set_thread s1 i cpu pc1) → pinv (set_thread s1 i cpu pc1).
Proof.
  intros Hp Hi Ha Hord. pose proof Hp as [Ho Hw Hu Hs].
  pose proof (Ho _ _ _ Hi) as Hoi. pose proof (Hw _ _ _ Hi) as Hwi.
  assert (Hui : owner pc = true → ¬ others s i owner).
  { intros Hown (j&c&pcj&Hji&Hj&Hoj). apply Hji. symmetry. by eapply Hu. }
  eapply shared_ok_iff in Hs; [|intros P; by apply (some_here s i cpu pc)].
  destruct Hs as [S1 S2 S3 S4 S5 S6 S7 S8]. unfold orderly in Hord. cbn [set_thread with_threads p_status] in Hord.
  pose proof (others_facts s i Ho) as (HA&HX&HR&HN).
  act_cases Ha. all: refine (pinv_frame s i cpu _ _ _ Hp Hi _ _ _ _ _ _ _ _); [reflexivity|..].
  all: clear Hp Ho Hw Hu Hi.
  all: unfold here in *; cbn in *; unfold unlocked, entries in *; cbn in *; reflect_bools.
  all: lazymatch goal with
       | |- shared_ok _ _ => split; cbn; relevant_facts S2 S3 S4 S5 S6 S7 S8
       | _ => clear S2 S3 S4 S5 S6 S7 S8
       end.
  all: first
    [ assumption
    | solve [try clear S3 S4; clear HA HX HR HN; intuition congruence]
    | solve [intros [?|[?|Hx]]; [exfalso; clear HA HX HR HN S7; intuition congruence|discriminate|
        destruct (HA Hx) as (?&?&?); exfalso; clear HA HX HR HN S7; intuition congruence]]
    | idtac ].
  (* a start: no other thread executes, and the handover is over *)
  1, 2: assert (Hnone : ¬ others s i owner) by
    (intros [Hx|Hx]%HR; [by apply HN in Hx|by destruct Hord as [Hno _]; [congruence|done|]]).
  - intros _. exact Hnone.
  - left. exact Hnone.
  - (* a failed start: another thread executes *)
    intros Hready. left. right. apply HX. destruct S3 as [Hf|Hx]; [|discriminate Hf|exact Hx].
    intros Hn. rewrite !bool_decide_eq_true_2 in E0 by done. discriminate E0.
  - intros _. lia.
  - intros _. left. destruct Hoi as (_&_&->&_). apply filter_replicate_same.
  - intros Hx. destruct (S7 Hx) as [?|[?|[Hk|?]]]; auto. apply bool_decide_eq_true_1 in Hk. congruence.
  - intros Hready. left. destruct S4 as [?|Hf]; [congruence|done|discriminate Hf].
  - right. split_and!; auto. apply remove_first_nil.
  - intros Hx. case_bool_decide as Hk; [by auto|]. rewrite entries_remove_first_ne by done. by apply S7.
Qed.

Lemma oreach_pinv s : oreach s → pinv s.
Proof.
  induction 1 as [cpus|s i a s' _ IH Hs Hord].
  - split.
    + intros j c pc ->%pinit_idle. cbn. discriminate.
    + intros j c pc ->%pinit_idle. done.
    + intros i j c pc c' pc' ->%pinit_idle _ Hown. discriminate Hown.
    + assert (Hno : ∀ P, P Idle = false → ¬ some_thread (pinit cpus) P).
      { intros P HP (j&c&pc&Hj&HPc). apply pinit_idle in Hj as ->. congruence. }
      split; cbn; try (intros; congruence); auto.
      intros [?|Ha]; [congruence|]. by apply Hno in Ha.
  - unfold pstep in Hs. destruct (p_threads s !! i) as [[cpu pc]|] eqn:Ei; [|done].
    destruct (act s i cpu pc a) as [[s1 pc1]|] eqn:Ha; [|done]. injection Hs as <-. by eapply pinv_act.
Qed.

(** *** Runs as lists of steps *)

Lemma prun_preach s l s' : preach s → prun s l = Some s' → preach s'.
Proof.
  revert s. induction l as [|[i a] l IH]; intros s Hs; cbn [prun]; [by intros [= <-]|].
  destruct (pstep s i a) as [s1|] eqn:E; [|done]. apply IH. by eapply preach_step.
Qed.

Definition orderlyb (s : Prot) (i : nat) (s' : Prot) : bool :=
  bool_decide (p_status s = Running) || negb (bool_decide (p_status s' = Running)) ||
  forallb (λ '(j, (_, pc)), bool_decide (j = i) || negb (requeueing pc || publishing pc)) (imap pair (p_threads s)).

Lemma orderlyb_ok s i s' : orderlyb s i s' = true → orderly s i s'.
Proof.
  unfold orderlyb, orderly. intros Hb Hn Hr. rewrite bool_decide_eq_false_2, bool_decide_eq_true_2 in Hb by done. cbn [orb negb] in Hb.
  rewrite forallb_forall in Hb.
  assert (Hx : ∀ j c pc, p_threads s !! j = Some (c, pc) → j ≠ i → requeueing pc || publishing pc = false).
  { intros j c pc Hj Hne. specialize (Hb (j, (c, pc))). cbn in Hb. rewrite bool_decide_eq_false_2 in Hb by done.
    apply negb_true_iff. apply Hb. apply list_elem_of_In, list_elem_of_lookup. exists j. by rewrite list_lookup_imap, Hj. }
  split; intros (j&c&pc&Hji&Hj&Hp); specialize (Hx _ _ _ Hj Hji); rewrite Hp in Hx; [done|by rewrite orb_true_r in Hx].
Qed.

(** The same run, refusing steps that are not orderly. *)
Fixpoint prun_orderly (s : Prot) (l : list (nat * Act)) : option Prot :=
  match l with
  | [] => Some s
  | (i, a) :: l =>
      match pstep s i a with
      | Some s' => if orderlyb s i s' then prun_orderly s' l else None
      | None => None
      end
  end.

Lemma prun_orderly_oreach s l s' : oreach s → prun_orderly s l = Some s' → oreach s'.
Proof.
  revert s. induction l as [|[i a] l IH]; intros s Hs; cbn [prun_orderly]; [by intros [= <-]|].
  destruct (pstep s i a) as [s1|] eqn:E; [|done]. destruct (orderlyb s i s1) eqn:Eo; [|done].
  apply IH. eapply oreach_step; [done..|]. by apply orderlyb_ok.
Qed.

(** ** Theorems *)

(** C30: A task runs on one CPU at a time. In every state that any interleaving of schedulers, wakers, timers and signals reaches, a thread that executes the task is the only one, and [running_cpu] names its CPU. *)
Theorem task_runs_on_one_cpu s i j ci cj pci pcj :
  preach s → p_threads s !! i = Some (ci, pci) → p_threads s !! j = Some (cj, pcj) →
  executing pci = true → executing pcj = true → i = j ∧ p_running_cpu s = Some ci.
Proof.
  intros Hr Hi Hj Hei Hej. destruct (preach_exclusive s Hr i ci pci Hi Hei) as [Hc Hu].
  split; [|done]. symmetry. by eapply Hu.
Qed.

(** No thread is in the middle of an operation on the task. *)
Definition quiescent (s : Prot) : Prop := ∀ i c pc, p_threads s !! i = Some (c, pc) → pc = Idle.

(** C29: No wake-up of a task is lost as long as the task is never resumed while another CPU is still handing it over. In every state such interleavings reach in which no CPU is inside an operation on the task, the task is either ready and in the ready queue, or blocked with no wait outcome recorded and with every one of the wait-queue entries of its last registration still in the queue. *)
Theorem no_lost_wakeup s :
  oreach s → quiescent s →
  (p_status s = Ready ∧ p_queued s = true) ∨
  (p_status s = Blocked ∧ p_outcome s = None ∧ p_blocking_cpu s = None ∧ p_running_cpu s = None ∧
   (1 ≤ p_regs s)%nat ∧ entries s = p_regs s).
Proof.
  intros Hr Hq. destruct (pi_shared _ (oreach_pinv s Hr)) as [S1 S2 S3 S4 S5 S6 S7 S8].
  assert (Hno : ∀ P, P Idle = false → ¬ some_thread s P).
  { intros P HP (j&c&pc&Hj&HPc). apply Hq in Hj as ->. congruence. }
  destruct S1 as [Hs|[Hs|Hs]].
  - exfalso. by apply S2, Hno in Hs.
  - right. split; [done|]. assert (Hout : p_outcome s = None).
    { destruct (p_outcome s) as [o|] eqn:Eo; [|done]. exfalso. by apply S8, Hno in Hs. }
    split; [done|]. split; [destruct S4 as [Hx|?]; [congruence|by apply Hno in Hx|done]|].
    split; [destruct (p_running_cpu s); [|done]; exfalso; by destruct (Hno executing eq_refl (S3 ltac:(done)))|].
    split; [by apply S6; left|]. destruct S7 as [?|[?|Hx]]; [by left|done|done|by apply Hno in Hx].
  - left. split; [done|]. destruct S5 as [Hx|[?|[Hx|Hx]]]; [done|by apply Hno in Hx|done|by apply Hno in Hx..].
Qed.

(** ** Concrete interleavings *)

Definition gos (i n : nat) : list (nat * Act) := replicate n (i, Go).

(** Thread [i] starts the task; the task registers a wait; it blocks, parks and is requeued. *)
Definition tr_start (i : nat) : list (nat * Act) := (i, Fetch) :: gos i 2.
Definition tr_register (i : nat) : list (nat * Act) := (i, Sleep false 1 Io) :: gos i 8.
Definition tr_park (i : nat) : list (nat * Act) := gos i 7 ++ [(i, Park)].

Definition tr_wait (i : nat) : list (nat * Act) := tr_start i ++ tr_register i ++ tr_park i ++ gos i 4.

Definition three_cpus : Prot := pinit [0; 1; 2]%nat.

Definition state_after (l : list (nat * Act)) : Prot := default three_cpus (prun three_cpus l).

Lemma task_runs_on_one_cpu_witness :
  p_threads (state_after (tr_start 0)) !! 0%nat = Some (0%nat, User) ∧ p_running_cpu (state_after (tr_start 0)) = Some 0%nat.
Proof.
  split; [reflexivity|].
  apply (task_runs_on_one_cpu (state_after (tr_start 0)) 0 0 0 0 User User); [|reflexivity..].
  apply (prun_preach three_cpus (tr_start 0)); [apply (preach_init [0; 1; 2]%nat)|vm_compute; reflexivity].
Defined.

Lemma no_lost_wakeup_witness :
  p_status (state_after (tr_wait 0)) = Blocked ∧
  ((p_status (state_after (tr_wait 0)) = Ready ∧ p_queued (state_after (tr_wait 0)) = true) ∨
   (p_status (state_after (tr_wait 0)) = Blocked ∧ p_outcome (state_after (tr_wait 0)) = None ∧
    p_blocking_cpu (state_after (tr_wait 0)) = None ∧ p_running_cpu (state_after (tr_wait 0)) = None ∧
    (1 ≤ p_regs (state_after (tr_wait 0)))%nat ∧ entries (state_after (tr_wait 0)) = p_regs (state_after (tr_wait 0)))).
Proof.
  split; [vm_compute; reflexivity|]. apply (no_lost_wakeup (state_after (tr_wait 0))).
  - apply (prun_orderly_oreach three_cpus (tr_wait 0)); [apply (oreach_init [0; 1; 2]%nat)|vm_compute; reflexivity].
  - intros i c pc Hi. assert (Ht : p_threads (state_after (tr_wait 0)) = [(0, Idle); (1, Idle); (2, Idle)]%nat) by (vm_compute; reflexivity).
    rewrite Ht in Hi. assert (Hf : Forall (λ x : nat * Pc, x.2 = Idle) [(0, Idle); (1, Idle); (2, Idle)]%nat) by (repeat constructor).
    exact (Forall_lookup_1 _ _ _ _ Hf Hi).
Defined.

Definition all_idle (s : Prot) : bool := forallb (λ '(_, pc), match pc with Idle => true | _ => false end) (p_threads s).

(** CPU 0 reads the status [Ready] of the task it gives back, made ready by CPU 1.  Before
    it clears the block reason, CPU 1 enqueues the task and CPU 2 starts it; the task
    registers its next wait, whose wake-up then finds no block reason and is dropped.  The
    task blocks with no entry left in the wait queue. *)
Definition tr_lost : list (nat * Act) :=
  tr_start 0 ++ tr_register 0 ++ tr_park 0 ++ gos 0 1 ++ (1%nat, PopWaiter 1) :: gos 1 5 ++ gos 0 2 ++ gos 1 3 ++
  tr_start 2 ++ (2%nat, Sleep false 1 Io) :: gos 2 4 ++ tr_register 2 ++
  gos 0 1 ++ (1%nat, PopWaiter 2) :: gos 1 3 ++ tr_park 2 ++ gos 2 4 ++ gos 0 1.

Example requeue_loses_wakeup :
  let s := state_after tr_lost in
  prun three_cpus tr_lost = Some s ∧ all_idle s = true ∧ p_status s = Blocked ∧ p_waiters s = [] ∧ p_queued s = false.
Proof. vm_compute. repeat split. Qed.

(** A signal sent after the task looked for signals and before it is [Blocked] finds it
    running and wakes nobody: the task blocks with a deliverable signal pending. *)
Definition tr_signal : list (nat * Act) :=
  tr_start 0 ++ tr_register 0 ++ gos 0 2 ++ (1%nat, Post) :: gos 1 2 ++ gos 0 5 ++ [(0%nat, Park)] ++ gos 0 4.

Example signal_does_not_interrupt :
  let s := state_after tr_signal in
  prun three_cpus tr_signal = Some s ∧ all_idle s = true ∧ p_status s = Blocked ∧ p_pending s = true.
Proof. vm_compute. repeat split. Qed.

(** A wake-up that arrives while the task finds that it need not sleep leaves its outcome
    behind, and the next wait returns at once with it, without waiting or timing out. *)
Definition tr_stale : list (nat * Act) :=
  tr_start 0 ++ tr_register 0 ++ (1%nat, PopWaiter 1) :: gos 1 4 ++ [(0%nat, NoSleep)] ++ gos 0 2.

Example stale_outcome_ends_next_wait :
  let s := state_after tr_stale in
  prun three_cpus tr_stale = Some s ∧ p_threads s !! 0%nat = Some (0%nat, User) ∧ p_outcome s = Some Woken ∧
  let s' := state_after (tr_stale ++ (0%nat, Sleep true 1 Timer) :: gos 0 4) in
  p_threads s' !! 0%nat = Some (0%nat, User) ∧ p_token s' = p_token s.
Proof. vm_compute. repeat split. Qed.
