(* ===== verification/Signals.v ===== *)
(** * Signal state (src/os/src/syscall/signal.rs)

    The signal numbers, masks and dispositions, the pending signals of a task and the
    operations on them that need no other task. *)

From S2P Require Import Prelude.

Definition MAX_SIGNAL : Z := 64.
Definition KERNEL_SIGSET_SIZE : Z := 8.
Definition SIG_DFL : Z := 0.
Definition SIG_IGN : Z := 1.

Definition SIGKILL : Z := 9.
Definition SIGALRM : Z := 14.
Definition SIGPIPE : Z := 13.
Definition SIGSEGV : Z := 11.
Definition SIGCHLD : Z := 17.
Definition SIGPROF : Z := 27.
Definition SIGCONT : Z := 18.
Definition SIGSTOP : Z := 19.
Definition SIGTSTP : Z := 20.
Definition SIGTTIN : Z := 21.
Definition SIGTTOU : Z := 22.
Definition SIGURG : Z := 23.
Definition SIGVTALRM : Z := 26.
Definition SIGWINCH : Z := 28.

Definition SIG_BLOCK : Z := 0.
Definition SIG_UNBLOCK : Z := 1.
Definition SIG_SETMASK : Z := 2.

Definition SA_NOCLDSTOP : Z := 0x1.
Definition SA_NOCLDWAIT : Z := 0x2.
Definition SA_SIGINFO : Z := 0x4.
Definition SA_UNSUPPORTED : Z := 0x400.
Definition SA_EXPOSE_TAGBITS : Z := 0x800.
Definition SA_RESTORER : Z := 0x4000000.
Definition SA_ONSTACK : Z := 0x8000000.
Definition SA_RESTART : Z := 0x10000000.
Definition SA_INTERRUPT : Z := 0x20000000.
Definition SA_NODEFER : Z := 0x40000000.
Definition SA_RESETHAND : Z := 0x80000000.
Definition KNOWN_SIGACTION_FLAGS : Z :=
  Z.lor SA_NOCLDSTOP (Z.lor SA_NOCLDWAIT (Z.lor SA_SIGINFO (Z.lor SA_EXPOSE_TAGBITS (Z.lor SA_RESTORER
    (Z.lor SA_ONSTACK (Z.lor SA_RESTART (Z.lor SA_INTERRUPT (Z.lor SA_NODEFER SA_RESETHAND)))))))).

Definition SI_USER : Z := 0.
Definition SI_KERNEL : Z := 0x80.
Definition SI_TKILL : Z := -6.
Definition CLD_EXITED : Z := 1.

Record KernelSigAction := mkAction { handler : Z; sa_flags : Z; restorer : Z; sa_mask : Z }.
Definition DEFAULT_SIGACTION : KernelSigAction := mkAction SIG_DFL 0 0 0.

#[export] Instance KernelSigAction_eq_dec : EqDecision KernelSigAction.
Proof. solve_decision. Defined.

(** [SignalActions]: a table of 65 entries, the first unused. *)
Definition SignalActions : Type := list KernelSigAction.
Definition new_signal_actions : SignalActions := replicate 65 DEFAULT_SIGACTION.
Definition get_action (t : SignalActions) (signum : Z) : KernelSigAction := default DEFAULT_SIGACTION (t !! Z.to_nat signum).
Definition set_action (t : SignalActions) (signum : Z) (a : KernelSigAction) : SignalActions := <[Z.to_nat signum := a]> t.

Record PendingSignalInfo := mkInfo { si_code : Z; sender_pid : Z; sender_uid : Z }.
Definition empty_info : PendingSignalInfo := mkInfo SI_USER 0 0.

#[export] Instance PendingSignalInfo_eq_dec : EqDecision PendingSignalInfo.
Proof. solve_decision. Defined.

Record SignalState := mkSig {
  blocked : Z;
  pending : Z;
  pending_info : list PendingSignalInfo;
  suspend_old_mask : option Z
}.

#[export] Instance SignalState_eq_dec : EqDecision SignalState.
Proof. solve_decision. Defined.

Definition valid_signal (signum : Z) : bool := bool_decide (0 < signum) && bool_decide (signum ≤ MAX_SIGNAL).
Definition signal_bit (signum : Z) : Z := Z.shiftl 1 (signum - 1).
Definition unblockable_mask : Z := Z.lor (signal_bit SIGKILL) (signal_bit SIGSTOP).

(** [mask & !bits] *)
Definition sanitize_mask (mask : Z) : Z := Z.ldiff mask unblockable_mask.
Definition sanitize_flags (flags : Z) : Z := Z.ldiff (Z.land flags KNOWN_SIGACTION_FLAGS) SA_UNSUPPORTED.

Definition cannot_catch_or_ignore (signum : Z) : bool := bool_decide (signum = SIGKILL) || bool_decide (signum = SIGSTOP).
Definition default_ignored (signum : Z) : bool := bool_decide (signum ∈ [SIGCHLD; SIGCONT; SIGURG; SIGWINCH]).
Definition default_stops (signum : Z) : bool := bool_decide (signum ∈ [SIGSTOP; SIGTSTP; SIGTTIN; SIGTTOU]).

Definition new_signal_state : SignalState := mkSig 0 0 (replicate 65 empty_info) None.
Definition fork_from (b : Z) : SignalState := mkSig (sanitize_mask b) 0 (replicate 65 empty_info) None.

(** [user_action] and [kernel_action] *)
Definition kernel_action (a : KernelSigAction) : KernelSigAction :=
  mkAction (handler a) (sanitize_flags (sa_flags a)) (restorer a) (sanitize_mask (sa_mask a)).

(** ** Operations on the state of one task; the flag is [signal_pending_hint]. *)

Definition hint_of (s : SignalState) : Z := if bool_decide (pending s = 0) then 0 else 1.

Definition signal_is_unblocked (s : SignalState) (signum : Z) : bool :=
  bool_decide (Z.land (blocked s) (signal_bit signum) = 0).

(** The part of [queue_signal] that records the signal. *)
Definition add_pending (s : SignalState) (signum : Z) (info : PendingSignalInfo) : SignalState :=
  mkSig (blocked s) (Z.lor (pending s) (signal_bit signum)) (<[Z.to_nat signum := info]> (pending_info s)) (suspend_old_mask s).

Definition clear_pending_signal (s : SignalState) (signum : Z) : SignalState :=
  mkSig (blocked s) (Z.ldiff (pending s) (signal_bit signum)) (<[Z.to_nat signum := empty_info]> (pending_info s))
    (suspend_old_mask s).

Definition lowest_signal (mask : Z) : Z := Z.of_nat (trailing_zeros mask) + 1.

Definition next_unblocked_pending (s : SignalState) : option Z :=
  let p := Z.ldiff (pending s) (blocked s) in
  if bool_decide (p = 0) then None else Some (lowest_signal p).

Definition has_pending_in_mask (s : SignalState) (mask : Z) : bool := negb (bool_decide (Z.land (pending s) mask = 0)).

Definition take_pending_from_mask (s : SignalState) (mask : Z) : SignalState * option (Z * PendingSignalInfo) :=
  let p := Z.land (pending s) mask in
  if bool_decide (p = 0) then (s, None)
  else
    let signum := lowest_signal p in
    (clear_pending_signal s signum, Some (signum, default empty_info (pending_info s !! Z.to_nat signum))).

(** The signal ends a wait: it has a handler, or its default is not to be ignored. *)
Definition interrupts (acts : SignalActions) (signum : Z) : bool :=
  let a := get_action acts signum in
  bool_decide (SIG_IGN < handler a) || bool_decide (handler a = SIG_DFL) && negb (default_ignored signum).

(** The loop of [has_deliverable_pending]; every iteration clears one of 64 bits. *)
Fixpoint deliverable_loop (fuel : nat) (acts : SignalActions) (mask : Z) : bool :=
  match fuel with
  | O => false
  | S fuel =>
      if bool_decide (mask = 0) then false
      else
        let signum := lowest_signal mask in
        if interrupts acts signum then true else deliverable_loop fuel acts (Z.ldiff mask (signal_bit signum))
  end.
Definition has_deliverable_pending (acts : SignalActions) (s : SignalState) : bool :=
  deliverable_loop 64 acts (Z.ldiff (pending s) (blocked s)).

(** What [handle_pending_for_task] does with the state when it enters a handler. *)
Definition enter_handler (s : SignalState) (signum : Z) (action : KernelSigAction) : SignalState * Z * PendingSignalInfo :=
  let old_mask := default (blocked s) (suspend_old_mask s) in
  let info := default empty_info (pending_info s !! Z.to_nat signum) in
  let b := Z.lor old_mask (sa_mask action) in
  let b := if bool_decide (Z.land (sa_flags action) SA_NODEFER = 0) then Z.lor b (signal_bit signum) else b in
  (mkSig (sanitize_mask b) (Z.ldiff (pending s) (signal_bit signum)) (<[Z.to_nat signum := empty_info]> (pending_info s)) None,
   old_mask, info).

(** [sys_sigprocmask] after the copies; [set] is the new mask, if any. *)
Definition change_mask (s : SignalState) (how : Z) (set : option Z) : SignalState * result Z SysErrNo :=
  match set with
  | None => (s, Ok 0)
  | Some mask =>
      let new :=
        if bool_decide (how = SIG_BLOCK) then Some (Z.lor (blocked s) mask)
        else if bool_decide (how = SIG_UNBLOCK) then Some (Z.ldiff (blocked s) mask)
        else if bool_decide (how = SIG_SETMASK) then Some mask
        else None in
      match new with
      | None => (s, Err EINVAL)
      | Some m => (mkSig (sanitize_mask m) (pending s) (pending_info s) (suspend_old_mask s), Ok 0)
      end
  end.

(** The start of [sys_sigsuspend], and its restoration when the wait fails. *)
Definition suspend_mask (s : SignalState) (mask : Z) : SignalState :=
  mkSig mask (pending s) (pending_info s) (Some (blocked s)).
Definition unsuspend_mask (s : SignalState) : SignalState :=
  match suspend_old_mask s with
  | Some old => mkSig old (pending s) (pending_info s) None
  | None => s
  end.

(** [reset_signal_handlers_for_exec] *)
Definition reset_handlers (t : SignalActions) : SignalActions :=
  foldl (λ t signum, if bool_decide (SIG_IGN < handler (get_action t signum)) then set_action t signum DEFAULT_SIGACTION else t)
    t (seqZ 1 MAX_SIGNAL).

(** ** Bits *)

Lemma signal_bit_spec signum i : 1 ≤ signum → Z.testbit (signal_bit signum) i = bool_decide (i = signum - 1).
Proof.
  intros Hs. unfold signal_bit. rewrite Z.shiftl_1_l. case_bool_decide as E.
  - subst i. apply Z.pow2_bits_true. lia.
  - apply Z.pow2_bits_false. lia.
Qed.

Lemma unblocked_bit s signum : 1 ≤ signum → signal_is_unblocked s signum = negb (Z.testbit (blocked s) (signum - 1)).
Proof.
  intros Hs. unfold signal_is_unblocked. destruct (Z.testbit (blocked s) (signum - 1)) eqn:E; simpl.
  - apply bool_decide_eq_false_2. intros H0. apply (f_equal (λ z, Z.testbit z (signum - 1))) in H0.
    rewrite Z.land_spec, E, signal_bit_spec, bool_decide_eq_true_2, Z.bits_0 in H0 by lia. done.
  - apply bool_decide_eq_true_2. apply Z.bits_inj_0. intros i. rewrite Z.land_spec, signal_bit_spec by lia.
    case_bool_decide as Ei; [subst i; by rewrite E|apply andb_false_r].
Qed.

Lemma sanitize_spec m i : Z.testbit (sanitize_mask m) i = Z.testbit m i && negb (bool_decide (i = SIGKILL - 1 ∨ i = SIGSTOP - 1)).
Proof.
  unfold sanitize_mask, unblockable_mask. rewrite Z.ldiff_spec, Z.lor_spec, !signal_bit_spec by (unfold SIGKILL, SIGSTOP; lia).
  by rewrite bool_decide_or.
Qed.

(** A 64-bit word. *)
Definition is_mask (m : Z) : Prop := 0 ≤ m < 2 ^ 64.

Lemma is_mask_bits m : 0 ≤ m → (is_mask m ↔ ∀ i, 64 ≤ i → Z.testbit m i = false).
Proof.
  intros Hm. split.
  - intros [? ?] i Hi. apply (Z.bits_above_log2 m i); [done|]. destruct (decide (m = 0)) as [->|]; [simpl; lia|].
    apply Z.log2_lt_pow2; [lia|]. apply Z.lt_le_trans with (2 ^ 64); [done|]. apply Z.pow_le_mono_r; lia.
  - intros Hb. split; [done|]. destruct (decide (m = 0)) as [->|]; [done|].
    apply Z.log2_lt_pow2; [lia|]. destruct (decide (Z.log2 m < 64)) as [|Hge]; [done|].
    pose proof (Z.bit_log2 m ltac:(lia)) as H1. rewrite Hb in H1; [done|lia].
Qed.

Lemma ldiff_nonneg a b : 0 ≤ a → 0 ≤ Z.ldiff a b.
Proof. intros. apply Z.ldiff_nonneg. by left. Qed.

Lemma is_mask_ldiff a b : is_mask a → 0 ≤ b → is_mask (Z.ldiff a b).
Proof.
  intros Ha Hb. pose proof (proj1 (is_mask_bits a (proj1 Ha)) Ha) as Hbits. apply is_mask_bits; [apply ldiff_nonneg, Ha|].
  intros i Hi. by rewrite Z.ldiff_spec, Hbits.
Qed.

Lemma is_mask_lor a b : is_mask a → is_mask b → is_mask (Z.lor a b).
Proof.
  intros Ha Hb. apply is_mask_bits; [apply Z.lor_nonneg; split; [apply Ha|apply Hb]|].
  intros i Hi. by rewrite Z.lor_spec, (proj1 (is_mask_bits a (proj1 Ha)) Ha), (proj1 (is_mask_bits b (proj1 Hb)) Hb).
Qed.

Lemma is_mask_bit signum : valid_signal signum = true → is_mask (signal_bit signum).
Proof.
  unfold valid_signal, MAX_SIGNAL. intros [H1%bool_decide_eq_true_1 H2%bool_decide_eq_true_1]%andb_true_iff.
  apply is_mask_bits; [unfold signal_bit; rewrite Z.shiftl_1_l; lia|].
  intros i Hi. rewrite signal_bit_spec by lia. apply bool_decide_eq_false_2. lia.
Qed.

Lemma is_mask_sanitize m : is_mask m → is_mask (sanitize_mask m).
Proof. intros Hm. apply is_mask_ldiff; [done|]. unfold unblockable_mask. by vm_compute. Qed.

(** The lowest set bit. *)
Lemma lowest_signal_spec m :
  is_mask m → m ≠ 0 →
  valid_signal (lowest_signal m) = true ∧ Z.testbit m (lowest_signal m - 1) = true ∧
  ∀ i, 0 ≤ i < lowest_signal m - 1 → Z.testbit m i = false.
Proof.
  intros Hm Hne. destruct m as [|p|p]; [done| |by destruct Hm].
  assert (Hb : Z.testbit (Zpos p) (Z.of_nat (pos_tz p)) = true ∧ ∀ i, 0 ≤ i < Z.of_nat (pos_tz p) → Z.testbit (Zpos p) i = false).
  { clear. induction p as [p IH|p [IH1 IH2]|]; simpl pos_tz.
    - split; [done|lia].
    - change (Zpos p~0) with (2 * Zpos p). split.
      + by rewrite Nat2Z.inj_succ, Z.double_bits_succ.
      + intros i Hi. destruct (decide (i = 0)) as [->|]; [apply Z.testbit_even_0|].
        replace i with (Z.succ (i - 1)) by lia. rewrite Z.double_bits_succ. apply IH2. lia.
    - split; [done|lia]. }
  unfold lowest_signal, trailing_zeros. destruct Hb as [Hb1 Hb2].
  replace (Z.of_nat (pos_tz p) + 1 - 1) with (Z.of_nat (pos_tz p)) by lia. split; [|done].
  unfold valid_signal, MAX_SIGNAL. apply andb_true_iff. split; apply bool_decide_eq_true_2; [lia|].
  destruct (decide (Z.of_nat (pos_tz p) < 64)); [lia|].
  rewrite (proj1 (is_mask_bits _ (proj1 Hm)) Hm) in Hb1 by lia. done.
Qed.

(** ** The invariant of a task's signal state *)

(** Masks are words, [SIGKILL] and [SIGSTOP] are never blocked, and every signal has an
    information slot. *)
Definition mask_ok (m : Z) : Prop :=
  is_mask m ∧ Z.testbit m (SIGKILL - 1) = false ∧ Z.testbit m (SIGSTOP - 1) = false.

Record sig_ok (s : SignalState) : Prop := {
  sig_blocked : mask_ok (blocked s);
  sig_pending : is_mask (pending s);
  sig_info : length (pending_info s) = 65%nat;
  sig_suspend : ∀ m, suspend_old_mask s = Some m → mask_ok m
}.

Lemma mask_ok_sanitize m : is_mask m → mask_ok (sanitize_mask m).
Proof.
  intros Hm. split; [by apply is_mask_sanitize|]. split; rewrite sanitize_spec.
  - by rewrite bool_decide_eq_true_2, andb_false_r by (by left).
  - by rewrite bool_decide_eq_true_2, andb_false_r by (by right).
Qed.

Lemma mask_ok_0 : mask_ok 0.
Proof. split; [unfold is_mask; lia|done]. Qed.

Lemma is_mask_nonneg m : is_mask m → 0 ≤ m.
Proof. by intros []. Qed.

Lemma new_signal_state_ok : sig_ok new_signal_state.
Proof. split; [apply mask_ok_0|unfold is_mask; simpl; lia|done|done]. Qed.

Lemma fork_from_ok b : is_mask b → sig_ok (fork_from b).
Proof. intros Hb. split; [by apply mask_ok_sanitize|unfold is_mask; simpl; lia|done|done]. Qed.

Lemma add_pending_ok s signum info : sig_ok s → valid_signal signum = true → sig_ok (add_pending s signum info).
Proof.
  intros [] Hv. split; simpl; [done| |by rewrite length_insert|done]. by apply is_mask_lor; [|apply is_mask_bit].
Qed.

Lemma clear_pending_ok s signum : sig_ok s → valid_signal signum = true → sig_ok (clear_pending_signal s signum).
Proof.
  intros [] Hv. split; simpl; [done| |by rewrite length_insert|done].
  apply is_mask_ldiff; [done|]. by apply is_mask_nonneg, is_mask_bit.
Qed.

Lemma enter_handler_ok s signum action s' old info :
  sig_ok s → valid_signal signum = true → is_mask (sa_mask action) →
  enter_handler s signum action = (s', old, info) → sig_ok s' ∧ mask_ok old.
Proof.
  intros [Hb Hp Hi Hs] Hv Ha. unfold enter_handler. intros [= <- <- <-].
  assert (Hold : mask_ok (default (blocked s) (suspend_old_mask s))).
  { destruct (suspend_old_mask s) as [m|] eqn:E; [by apply Hs|done]. }
  split; [|done]. split; simpl; [|by apply is_mask_ldiff; [|apply is_mask_nonneg, is_mask_bit]|by rewrite length_insert|done].
  apply mask_ok_sanitize. case_bool_decide; repeat apply is_mask_lor; try done; [apply Hold|by apply is_mask_bit|apply Hold].
Qed.

Lemma change_mask_ok s how set : sig_ok s → (∀ m, set = Some m → is_mask m) → sig_ok (change_mask s how set).1.
Proof.
  intros Hs Hset. pose proof Hs as [Hb Hp Hi Hsu]. unfold change_mask. destruct set as [m|]; [|done].
  specialize (Hset m eq_refl). repeat case_bool_decide; simpl; try done; split; simpl; try done; apply mask_ok_sanitize.
  - apply is_mask_lor; [apply Hb|done].
  - apply is_mask_ldiff; [apply Hb|apply Hset].
  - done.
Qed.

Lemma suspend_mask_ok s m : sig_ok s → mask_ok m → sig_ok (suspend_mask s m).
Proof. intros [] Hm. split; simpl; [done..|]. by intros m' [= <-]. Qed.

Lemma unsuspend_mask_ok s : sig_ok s → sig_ok (unsuspend_mask s).
Proof.
  intros Hs. pose proof Hs as [Hb Hp Hi Hsu]. unfold unsuspend_mask. destruct (suspend_old_mask s) as [old|] eqn:E; [|done].
  split; simpl; [by apply Hsu|done..].
Qed.

(** ** Which signal is delivered *)

(** Signal [n] is pending and not blocked. *)
Definition deliverable (s : SignalState) (n : Z) : Prop :=
  valid_signal n = true ∧ Z.testbit (pending s) (n - 1) = true ∧ Z.testbit (blocked s) (n - 1) = false.

Lemma next_unblocked_spec s :
  sig_ok s →
  match next_unblocked_pending s with
  | Some n => deliverable s n ∧ ∀ k, deliverable s k → n ≤ k
  | None => ∀ k, ¬ deliverable s k
  end.
Proof.
  intros [[Hb _] Hp _ _]. unfold next_unblocked_pending. set (p := Z.ldiff (pending s) (blocked s)).
  assert (Hpm : is_mask p) by (apply is_mask_ldiff; [done|apply Hb]).
  assert (Hd : ∀ k, deliverable s k → Z.testbit p (k - 1) = true).
  { intros k (_&H1&H2). unfold p. by rewrite Z.ldiff_spec, H1, H2. }
  case_bool_decide as E.
  - intros k Hk. apply Hd in Hk. by rewrite E, Z.bits_0 in Hk.
  - destruct (lowest_signal_spec p Hpm E) as (Hv&Hbit&Hlow). split.
    + unfold p in Hbit. rewrite Z.ldiff_spec in Hbit. apply andb_true_iff in Hbit as [H1 H2%negb_true_iff]. done.
    + intros k Hk. destruct (decide (k < lowest_signal p)); [|lia]. pose proof (Hd k Hk) as Hbk.
      destruct Hk as (Hvk&_). unfold valid_signal in Hvk. apply andb_true_iff in Hvk as [Hk0%bool_decide_eq_true_1 _].
      rewrite Hlow in Hbk by lia. done.
Qed.

(** The loop over the deliverable signals finds one that ends a wait exactly when there is one. *)
Lemma deliverable_loop_spec acts fuel m :
  is_mask m → (∀ i, 0 ≤ i < 64 - Z.of_nat fuel → Z.testbit m i = false) →
  deliverable_loop fuel acts m = true ↔
  ∃ n, valid_signal n = true ∧ Z.testbit m (n - 1) = true ∧ interrupts acts n = true.
Proof.
  revert m. induction fuel as [|fuel IH]; intros m Hm Hlow; cbn [deliverable_loop].
  { split; [done|]. intros (n&Hv&Hb&_). unfold valid_signal, MAX_SIGNAL in Hv.
    apply andb_true_iff in Hv as [H1%bool_decide_eq_true_1 H2%bool_decide_eq_true_1].
    rewrite Hlow in Hb; [done|lia]. }
  case_bool_decide as E.
  { split; [done|]. intros (n&_&Hb&_). by rewrite E, Z.bits_0 in Hb. }
  destruct (lowest_signal_spec m Hm E) as (Hv&Hbit&Hl). destruct (interrupts acts (lowest_signal m)) eqn:Ei.
  { split; [|done]. intros _. by exists (lowest_signal m). }
  pose proof Hv as Hv'. unfold valid_signal, MAX_SIGNAL in Hv'.
  apply andb_true_iff in Hv' as [H1%bool_decide_eq_true_1 H2%bool_decide_eq_true_1].
  rewrite IH.
  - split; intros (n&Hn&Hb&Hi); exists n; split; try done; split; try done.
    + rewrite Z.ldiff_spec in Hb. by apply andb_true_iff in Hb as [? _].
    + rewrite Z.ldiff_spec, Hb, signal_bit_spec by lia. simpl. rewrite bool_decide_eq_false_2; [done|].
      intros Heq. replace n with (lowest_signal m) in Hi by lia. congruence.
  - apply is_mask_ldiff; [done|]. by apply is_mask_nonneg, is_mask_bit.
  - intros i Hi. rewrite Z.ldiff_spec, signal_bit_spec by lia.
    destruct (decide (i < lowest_signal m - 1)); [by rewrite Hl by lia|].
    destruct (decide (i = lowest_signal m - 1)) as [->|]; [by rewrite bool_decide_eq_true_2, andb_false_r|].
    rewrite Hlow; [done|]. destruct (decide (i < 64 - Z.of_nat (S fuel))); [lia|]. exfalso.
    assert (Hx : Z.testbit m (lowest_signal m - 1) = false); [|congruence]. apply Hlow. lia.
Qed.

Lemma has_deliverable_spec acts s :
  sig_ok s → has_deliverable_pending acts s = true ↔ ∃ n, deliverable s n ∧ interrupts acts n = true.
Proof.
  intros [[Hb _] Hp _ _]. unfold has_deliverable_pending. rewrite deliverable_loop_spec.
  - split; intros (n&H).
    + destruct H as (Hv&Hbit&Hi). exists n. rewrite Z.ldiff_spec in Hbit.
      apply andb_true_iff in Hbit as [H1 H2%negb_true_iff]. done.
    + destruct H as ((Hv&H1&H2)&Hi). exists n. by rewrite Z.ldiff_spec, H1, H2.
  - apply is_mask_ldiff; [done|apply Hb].
  - intros i Hi. lia.
Qed.
