(* ===== verification/Process.v ===== *)
(** * Processes (src/os/src/task/mod.rs, src/os/src/syscall/process.rs, signal.rs)

    Tasks, thread groups, the process tree, exit, stop and continue, waiting for children
    and the signals tasks send each other.  Tasks are referred to by pid, thread groups by
    tgid; neither is ever reused ([PidAllocator::dealloc] does nothing).  What these
    operations ask of other components, in their order, is recorded in a log. *)

From S2P Require Import Prelude Task Signals.

(** Calls into the scheduler, the wait queues, memory, descriptors and locks. *)
Inductive PEvent : Set :=
  | PurgeWaits (pid : Z) | DropQueued (pid : Z) | AddTask (pid : Z) | AddTaskFront (pid : Z)
  | NotifyRunnable | NotifyCpu (cpu : Z) | WakeChildWaiters | WakeSignalWaiters
  | RecordExited (pid tgid : Z) | FlushConsole (pid : Z) | RobustList (pid : Z)
  | ClearChildTid (pid addr : Z) | ReleaseFileLocks (tgid : Z) | DetachShm (pid : Z)
  | RestoreKernelPageTable | CloseFds (fd_table : Z) | ResetMm (mm : Z) | RemoveTimerOwner (pid : Z)
  | InheritShm (pid : Z) | ReleaseRunningCpu (pid : Z) | RunNext | SwitchToScheduler (pid : Z).

Definition SIGNAL_EXIT_CODE_BASE : Z := -0x1000.

(** The flags of [clone] (src/os/src/syscall/process.rs). *)
Definition CSIGNAL : Z := 0xff.
Definition CLONE_VM : Z := 0x100.
Definition CLONE_FS : Z := 0x200.
Definition CLONE_FILES : Z := 0x400.
Definition CLONE_SIGHAND : Z := 0x800.
Definition CLONE_VFORK : Z := 0x4000.
Definition CLONE_THREAD : Z := 0x10000.
Definition CLONE_SYSVSEM : Z := 0x40000.
Definition CLONE_SETTLS : Z := 0x80000.
Definition CLONE_PARENT_SETTID : Z := 0x100000.
Definition CLONE_CHILD_CLEARTID : Z := 0x200000.
Definition CLONE_DETACHED : Z := 0x400000.
Definition CLONE_CHILD_SETTID : Z := 0x1000000.
Definition ALLOWED_CLONE_FLAGS : Z :=
  Z.lor CLONE_VM (Z.lor CLONE_FS (Z.lor CLONE_FILES (Z.lor CLONE_SIGHAND (Z.lor CLONE_VFORK (Z.lor CLONE_THREAD
    (Z.lor CLONE_SYSVSEM (Z.lor CLONE_SETTLS (Z.lor CLONE_PARENT_SETTID (Z.lor CLONE_CHILD_CLEARTID
      (Z.lor CLONE_DETACHED CLONE_CHILD_SETTID)))))))))).

(** [ChildWaitState] and [ThreadGroup] *)
Record ChildWaitState := mkWait {
  stopped_signal : option Z;
  stopped_consumed : bool;
  continued_signal : option Z;
  continued_consumed : bool
}.
Inductive ChildWaitEvent : Set := EvStopped (signum : Z) | EvContinued (signum : Z).

Record ThreadGroup := mkGroup {
  members : list Z;
  tg_exit_code : Z;
  process_zombie : bool;
  tg_stopped : bool;
  child_wait : ChildWaitState
}.
Definition new_group : ThreadGroup := mkGroup [] 0 false false (mkWait None true None true).

(** The process fields of a [TaskControlBlock]; [tcb] has those of the scheduler.  Shared
    tables and memory sets are identified by numbers. *)
Record ProcTask := mkTask {
  tcb : Tcb;
  exit_code : Z;
  clone_flags : Z;
  parent : option Z;
  children : list Z;
  memory_set : Z;
  fd_table : Z;
  mm_context : Z;
  has_frame : bool;
  clear_child_tid : Z;
  signal_actions : Z;
  signal_state : SignalState;
  signal_pending_hint : Z
}.

#[export] Instance ThreadGroup_inhabited : Inhabited ThreadGroup := populate new_group.
#[export] Instance ProcTask_inhabited : Inhabited ProcTask :=
  populate (mkTask inhabitant 0 0 None [] 0 0 0 false 0 0 new_signal_state 0).

Section setters.
Implicit Types t : ProcTask.
Definition with_tcb t x := mkTask x (exit_code t) (clone_flags t) (parent t) (children t) (memory_set t) (fd_table t) (mm_context t) (has_frame t) (clear_child_tid t) (signal_actions t) (signal_state t) (signal_pending_hint t).
Definition with_exit_code t x := mkTask (tcb t) x (clone_flags t) (parent t) (children t) (memory_set t) (fd_table t) (mm_context t) (has_frame t) (clear_child_tid t) (signal_actions t) (signal_state t) (signal_pending_hint t).
Definition with_parent t x := mkTask (tcb t) (exit_code t) (clone_flags t) x (children t) (memory_set t) (fd_table t) (mm_context t) (has_frame t) (clear_child_tid t) (signal_actions t) (signal_state t) (signal_pending_hint t).
Definition with_children t x := mkTask (tcb t) (exit_code t) (clone_flags t) (parent t) x (memory_set t) (fd_table t) (mm_context t) (has_frame t) (clear_child_tid t) (signal_actions t) (signal_state t) (signal_pending_hint t).
Definition with_frame t x := mkTask (tcb t) (exit_code t) (clone_flags t) (parent t) (children t) (memory_set t) (fd_table t) (mm_context t) x (clear_child_tid t) (signal_actions t) (signal_state t) (signal_pending_hint t).
Definition with_clear_tid t x := mkTask (tcb t) (exit_code t) (clone_flags t) (parent t) (children t) (memory_set t) (fd_table t) (mm_context t) (has_frame t) x (signal_actions t) (signal_state t) (signal_pending_hint t).
Definition with_signals t x h := mkTask (tcb t) (exit_code t) (clone_flags t) (parent t) (children t) (memory_set t) (fd_table t) (mm_context t) (has_frame t) (clear_child_tid t) (signal_actions t) x h.
End setters.

(** The state of all processes. *)
Record PS := mkPS {
  tasks : gmap Z ProcTask;
  groups : gmap Z ThreadGroup;
  action_tables : gmap Z SignalActions;
  reaper : option Z;
  current : option Z;
  next_pid : Z;
  registry : list Z;
  plog : list PEvent
}.

Section process.
Implicit Types (s : PS) (pid : Z) (t : ProcTask).

Definition with_tasks s x := mkPS x (groups s) (action_tables s) (reaper s) (current s) (next_pid s) (registry s) (plog s).
Definition with_groups s x := mkPS (tasks s) x (action_tables s) (reaper s) (current s) (next_pid s) (registry s) (plog s).
Definition with_current s x := mkPS (tasks s) (groups s) (action_tables s) (reaper s) x (next_pid s) (registry s) (plog s).
Definition with_actions s x := mkPS (tasks s) (groups s) x (reaper s) (current s) (next_pid s) (registry s) (plog s).
Definition pemit s (evs : list PEvent) := mkPS (tasks s) (groups s) (action_tables s) (reaper s) (current s) (next_pid s) (registry s) (plog s ++ evs).

Definition task s pid : ProcTask := tasks s !!! pid.
Definition upd s pid (f : ProcTask → ProcTask) : PS := with_tasks s (alter f pid (tasks s)).
Definition tgid s pid : Z := t_tgid (tcb (task s pid)).
Definition status s pid : TaskStatus := t_status (tcb (task s pid)).
Definition is_kernel s pid : bool := t_is_kernel (tcb (task s pid)).
Definition group s (tg : Z) : ThreadGroup := groups s !!! tg.
Definition upd_group s (tg : Z) (f : ThreadGroup → ThreadGroup) : PS := with_groups s (alter f tg (groups s)).
Definition actions_of s pid : SignalActions := default new_signal_actions (action_tables s !! signal_actions (task s pid)).

Definition set_task_status (x : TaskStatus) t := with_tcb t (set_status (tcb t) x).
Definition set_task_reason (x : option BlockReason) t := with_tcb t (set_block_reason (tcb t) x).
Definition set_task_outcome (x : option WaitOutcome) t := with_tcb t (set_wait_outcome (tcb t) x).

(** ** Thread groups *)

(** [user_members]: the members that still exist and are not kernel tasks. *)
Definition user_members s (tg : Z) : list Z :=
  filter (λ p, bool_decide (is_Some (tasks s !! p)) && negb (is_kernel s p)) (members (group s tg)).

Definition add_member s (tg pid : Z) : PS :=
  upd_group s tg (λ g, mkGroup (members g ++ [pid]) (tg_exit_code g) (process_zombie g) (tg_stopped g) (child_wait g)).

Definition all_user_members_zombie s (tg : Z) : bool :=
  let ms := user_members s tg in negb (bool_decide (ms = [])) && forallb (λ p, bool_decide (status s p = Zombie)) ms.

Definition is_process_zombie s (tg : Z) : bool := process_zombie (group s tg).

(** The first call sets the exit code. *)
Definition mark_process_zombie s (tg code : Z) : PS * bool :=
  if is_process_zombie s tg then (s, false)
  else (upd_group s tg (λ g, mkGroup (members g) code true (tg_stopped g) (child_wait g)), true).

Definition mark_stopped s (tg signum : Z) : PS :=
  upd_group s tg (λ g, mkGroup (members g) (tg_exit_code g) (process_zombie g) true (mkWait (Some signum) false None true)).

Definition mark_continued s (tg signum : Z) : PS * bool :=
  let was_stopped := tg_stopped (group s tg) in
  (upd_group s tg (λ g,
     mkGroup (members g) (tg_exit_code g) (process_zombie g) false
       (if was_stopped then mkWait None true (Some signum) false
        else mkWait None true (continued_signal (child_wait g)) (continued_consumed (child_wait g)))),
   was_stopped).

(** [ThreadGroup::take_child_wait_event] *)
Definition group_wait_event (w : ChildWaitState) (want_stopped want_continued consume : bool)
    : ChildWaitState * option ChildWaitEvent :=
  match (if want_stopped && negb (stopped_consumed w) then stopped_signal w else None) with
  | Some signum =>
      (mkWait (stopped_signal w) (stopped_consumed w || consume) (continued_signal w) (continued_consumed w),
       Some (EvStopped signum))
  | None =>
      match (if want_continued && negb (continued_consumed w) then continued_signal w else None) with
      | Some signum =>
          (mkWait (stopped_signal w) (stopped_consumed w) (continued_signal w) (continued_consumed w || consume),
           Some (EvContinued signum))
      | None => (w, None)
      end
  end.

(** ** Waking *)

(** [wake_blocked_task] ([mark_blocked_task_ready]) *)
Definition wake_blocked_task s pid (outcome : WaitOutcome) : PS :=
  if bool_decide (status s pid = Blocked) then
    let s := upd s pid (λ t, set_task_outcome (Some outcome) (set_task_reason None (set_task_status Ready t))) in
    let owner := t_blocking_cpu (tcb (task s pid)) in
    pemit s [if bool_decide (owner = NO_CPU) then AddTask pid else NotifyCpu owner]
  else s.

Definition wake_deferred_block s pid (reason : BlockReason) : PS :=
  if bool_decide (t_block_reason (tcb (task s pid)) = Some reason) then
    if bool_decide (status s pid = Blocked) then
      let s := upd s pid (λ t, set_task_reason None (set_task_status Ready t)) in
      let owner := t_blocking_cpu (tcb (task s pid)) in
      pemit s [if bool_decide (owner = NO_CPU) then AddTask pid else NotifyCpu owner]
    else upd s pid (set_task_outcome (Some Woken))
  else s.

(** [release_vfork_parent] *)
Definition release_vfork_parent s pid : PS :=
  if bool_decide (Z.land (clone_flags (task s pid)) CLONE_VFORK = 0) then s
  else match parent (task s pid) with Some p => wake_deferred_block s p ChildExit | None => s end.

(** ** Stop and continue *)

Definition stop_member s pid : PS :=
  if bool_decide (status s pid = Zombie) then s
  else
    upd (pemit s [PurgeWaits pid; DropQueued pid]) pid
      (λ t, set_task_status Stopped (set_task_outcome None (set_task_reason None t))).

Definition stop_task_group s pid (signum : Z) : PS :=
  if is_kernel s pid || is_process_zombie s (tgid s pid) then s
  else
    let s := mark_stopped s (tgid s pid) signum in
    pemit (foldl stop_member s (user_members s (tgid s pid))) [WakeChildWaiters].

Definition continue_member s pid : PS :=
  if bool_decide (status s pid = Stopped) then pemit (upd s pid (set_task_status Ready)) [AddTask pid] else s.

Definition continue_task_group s pid (signum : Z) : PS :=
  if is_kernel s pid || is_process_zombie s (tgid s pid) then s
  else
    let '(s, was_stopped) := mark_continued s (tgid s pid) signum in
    if was_stopped then pemit (foldl continue_member s (user_members s (tgid s pid))) [WakeChildWaiters] else s.

(** ** Exit *)

Definition signal_exit_code (signum : Z) : Z := SIGNAL_EXIT_CODE_BASE - signum.

Definition wait_status_from_exit_code (code : Z) : Z :=
  let signum := SIGNAL_EXIT_CODE_BASE - code in
  if bool_decide (code < SIGNAL_EXIT_CODE_BASE) && (bool_decide (1 ≤ signum) && bool_decide (signum ≤ 64)) then signum
  else Z.shiftl (Z.land code 0xff) 8.

(** What both ways of exiting clear. *)
Definition clear_run_state t : ProcTask := set_task_outcome None (set_task_reason None (with_frame t false)).

Definition request_task_exit s pid (code : Z) : PS :=
  if bool_decide (status s pid = Zombie) then s
  else
    let s := upd s pid (λ t, set_task_status Zombie (with_exit_code t code)) in
    let s := upd (pemit s [PurgeWaits pid]) pid clear_run_state in
    pemit s [RecordExited pid (tgid s pid); FlushConsole pid].

Definition finish_task_exit s pid (code : Z) : PS :=
  let s := pemit s [RobustList pid] in
  let tid := clear_child_tid (task s pid) in
  let s := if bool_decide (tid = 0) then s else pemit s [ClearChildTid pid tid] in
  let s := upd (pemit s [PurgeWaits pid]) pid (λ t, set_task_status Zombie (clear_run_state (with_exit_code t code))) in
  pemit s [RecordExited pid (tgid s pid); FlushConsole pid; FlushConsole (tgid s pid)].

(** [detach_thread_group_shared_memory]: once per memory set. *)
Fixpoint detach_loop s (ms : list Z) (seen : list Z) : PS :=
  match ms with
  | [] => s
  | m :: ms =>
      let key := memory_set (task s m) in
      if bool_decide (key ∈ seen) then detach_loop s ms seen
      else detach_loop (pemit s [DetachShm m]) ms (seen ++ [key])
  end.

(** [release_process_runtime_resources]: once per descriptor table and memory context. *)
Fixpoint release_loop s (ms closed reset : list Z) : PS :=
  match ms with
  | [] => s
  | m :: ms =>
      let fd_key := fd_table (task s m) in
      let '(s, closed) :=
        if bool_decide (fd_key ∈ closed) then (s, closed) else (pemit s [CloseFds fd_key], closed ++ [fd_key]) in
      let mm_key := mm_context (task s m) in
      let '(s, reset) :=
        if bool_decide (mm_key ∈ reset) then (s, reset) else (pemit s [ResetMm mm_key], reset ++ [mm_key]) in
      release_loop (pemit (upd s m (λ t, with_clear_tid t 0)) [RemoveTimerOwner m]) ms closed reset
  end.
Definition release_process_runtime_resources s (ms : list Z) : PS :=
  release_loop (pemit s [RestoreKernelPageTable]) ms [] [].

(** [core::mem::take] of the children of every member. *)
Fixpoint take_orphans s (ms : list Z) : PS * list Z :=
  match ms with
  | [] => (s, [])
  | m :: ms =>
      let cs := children (task s m) in
      let '(s, rest) := take_orphans (upd s m (λ t, with_children t [])) ms in
      (s, cs ++ rest)
  end.

(** Orphans go to the reaper, if there is one. *)
Definition adopt (r : Z) s (c : Z) : PS :=
  upd (upd s c (λ t, with_parent t (Some r))) r (λ t, with_children t (children t ++ [c])).
Definition reparent s (orphans : list Z) : PS :=
  match reaper s with
  | Some r => foldl (adopt r) s orphans
  | None => foldl (λ s c, upd s c (λ t, with_parent t None)) s orphans
  end.

(** ** Signals between tasks *)

(** [wake_for_signal] *)
Definition wake_for_signal s pid : PS :=
  if bool_decide (status s pid = Stopped) then s
  else if has_deliverable_pending (actions_of s pid) (signal_state (task s pid)) then wake_blocked_task s pid Interrupted
  else s.

(** [queue_signal]; [terminate] is [terminate_task_group]. *)
Definition queue_signal_with (terminate : PS → Z → Z → PS) s pid (signum : Z) (info : PendingSignalInfo) : PS :=
  let s := if bool_decide (signum = SIGCONT) then continue_task_group s pid SIGCONT else s in
  let action := get_action (actions_of s pid) signum in
  let unblocked := signal_is_unblocked (signal_state (task s pid)) signum in
  let dfl := bool_decide (handler action = SIG_DFL) in
  if dfl && default_stops signum && (bool_decide (signum = SIGSTOP) || unblocked) then stop_task_group s pid signum
  else if dfl && negb (default_ignored signum) && unblocked then terminate s pid (signal_exit_code signum)
  else if bool_decide (signum = SIGCONT) && dfl then s
  else
    let s := upd s pid (λ t, with_signals t (add_pending (signal_state t) signum info) 1) in
    wake_for_signal (pemit s [WakeSignalWaiters]) pid.

(** [notify_child_exit]: [SIGCHLD] is ignored by default, so it never terminates anything. *)
Definition notify_child_exit s (child : Z) : PS :=
  match parent (task s child) with
  | None => s
  | Some p =>
      if is_kernel s p || bool_decide (status s p = Zombie) then s
      else queue_signal_with (λ s _ _, s) s p SIGCHLD (mkInfo CLD_EXITED (tgid s child) 0)
  end.

(** [finish_process_exit] *)
Definition finish_process_exit s pid (code : Z) : PS :=
  let '(s, first) := mark_process_zombie s (tgid s pid) code in
  if first then
    let par := parent (task s pid) in
    let s := release_vfork_parent s pid in
    let ms := user_members s (tgid s pid) in
    let s := pemit s [ReleaseFileLocks (tgid s pid)] in
    let s := detach_loop s ms [] in
    let s := release_process_runtime_resources s ms in
    let s := notify_child_exit s pid in
    let '(s, orphans) := take_orphans s ms in
    let s := reparent s orphans in
    let s :=
      match par with
      | Some p => if bool_decide (t_block_reason (tcb (task s p)) = Some ChildExit) then wake_blocked_task s p Woken else s
      | None => s
      end in
    pemit s [WakeChildWaiters]
  else s.

(** The current task of the group finishes its own exit, the others are told to. *)
Definition exit_member (who : option Z) (code : Z) s (m : Z) : PS :=
  if bool_decide (who = Some m) then finish_task_exit s m code else request_task_exit s m code.

(** [terminate_task_group] *)
Definition terminate_task_group s pid (code : Z) : PS :=
  if is_kernel s pid then s
  else
    let s := foldl (exit_member (current s) code) s (user_members s (tgid s pid)) in
    finish_process_exit (pemit s [NotifyRunnable]) pid code.

Definition queue_signal := queue_signal_with terminate_task_group.

(** [exit_current_and_run_next] and [exit_thread_group_and_run_next] *)
Definition run_next (foreground : bool) s : PS := if foreground then s else pemit s [RunNext].

Definition exit_current_and_run_next (foreground : bool) s (code : Z) : PS :=
  match current s with
  | None => run_next foreground s
  | Some pid =>
      if is_kernel s pid then
        pemit (upd s pid (λ t, set_task_status Zombie (with_exit_code t code))) [SwitchToScheduler pid]
      else
        let s := finish_task_exit s pid code in
        let s := if all_user_members_zombie s (tgid s pid) then finish_process_exit s pid code else s in
        run_next foreground (pemit (with_current s None) [ReleaseRunningCpu pid])
  end.

Definition exit_thread_group_and_run_next (foreground : bool) s (code : Z) : PS :=
  match current s with
  | None => run_next foreground s
  | Some pid =>
      if is_kernel s pid then exit_current_and_run_next foreground s code
      else
        let s := foldl (exit_member (Some pid) code) s (user_members s (tgid s pid)) in
        let s := finish_process_exit (pemit s [NotifyRunnable]) pid code in
        run_next foreground (pemit (with_current s None) [ReleaseRunningCpu pid])
  end.

(** [terminate_thread_group_peers_for_exec] *)
Definition terminate_peer (pid : Z) s (m : Z) : PS :=
  if negb (bool_decide (m = pid)) && negb (bool_decide (status s m = Zombie)) then request_task_exit s m 0 else s.
Definition terminate_thread_group_peers_for_exec s pid : PS :=
  if is_kernel s pid then s
  else pemit (foldl (terminate_peer pid) s (user_members s (tgid s pid))) [NotifyRunnable].

(** ** Waiting for children *)

Inductive WaitTarget : Set := AnyChild | Tgid (n : Z) | Pgid (n : Z).

Definition child_matches_wait_target s (c : Z) (target : WaitTarget) : bool :=
  match target with
  | AnyChild => true
  | Tgid n => bool_decide (tgid s c = n)
  | Pgid n => bool_decide (t_pgid (tcb (task s c)) = n)
  end.

Definition reapable s (target : WaitTarget) (c : Z) : bool :=
  child_matches_wait_target s c target && is_process_zombie s (tgid s c).

(** [reap_zombie_child]: the first zombie child of the first member that has one. *)
Fixpoint reap_loop s (owners : list Z) (target : WaitTarget) : PS * option (Z * Z) :=
  match owners with
  | [] => (s, None)
  | o :: owners =>
      let cs := children (task s o) in
      match list_find (λ c, reapable s target c = true) cs with
      | Some (i, c) =>
          (upd s o (λ t, with_children t (delete i (children t))), Some (tgid s c, tg_exit_code (group s (tgid s c))))
      | None => reap_loop s owners target
      end
  end.
Definition reap_zombie_child s (waiter : Z) (target : WaitTarget) : PS * option (Z * Z) :=
  reap_loop s (user_members s (tgid s waiter)) target.

Definition peek_zombie_child s (waiter : Z) (target : WaitTarget) : option (Z * Z) := (reap_zombie_child s waiter target).2.

Definition has_matching_child s (waiter : Z) (target : WaitTarget) : bool :=
  existsb (λ o, existsb (λ c, child_matches_wait_target s c target) (children (task s o))) (user_members s (tgid s waiter)).

(** [take_child_wait_event] over a list of children, then over the owners. *)
Fixpoint event_children s (cs : list Z) (target : WaitTarget) (ws wc consume : bool) : PS * option (Z * ChildWaitEvent) :=
  match cs with
  | [] => (s, None)
  | c :: cs =>
      if child_matches_wait_target s c target then
        let '(w, e) := group_wait_event (child_wait (group s (tgid s c))) ws wc consume in
        match e with
        | Some e =>
            (upd_group s (tgid s c) (λ g, mkGroup (members g) (tg_exit_code g) (process_zombie g) (tg_stopped g) w),
             Some (tgid s c, e))
        | None => event_children s cs target ws wc consume
        end
      else event_children s cs target ws wc consume
  end.
Fixpoint event_loop s (owners : list Z) (target : WaitTarget) (ws wc consume : bool) : PS * option (Z * ChildWaitEvent) :=
  match owners with
  | [] => (s, None)
  | o :: owners =>
      match event_children s (children (task s o)) target ws wc consume with
      | (s, Some r) => (s, Some r)
      | (s, None) => event_loop s owners target ws wc consume
      end
  end.
Definition take_child_wait_event s (waiter : Z) (target : WaitTarget) (ws wc consume : bool) : PS * option (Z * ChildWaitEvent) :=
  event_loop s (user_members s (tgid s waiter)) target ws wc consume.

(** ** Sending signals (src/os/src/syscall/signal.rs) *)

(** [manager::all_user_tasks], [find_thread_group], [find_process_group] and [find_task]:
    the registered tasks that still exist. *)
Definition existing_tasks s : list Z := filter (λ p, bool_decide (is_Some (tasks s !! p))) (registry s).
Definition user_tasks s : list Z := filter (λ p, negb (is_kernel s p)) (existing_tasks s).
Definition group_tasks s (tg : Z) : list Z := filter (λ p, bool_decide (tgid s p = tg) && negb (is_kernel s p)) (existing_tasks s).
Definition process_group_tasks s (pg : Z) : list Z :=
  filter (λ p, negb (is_kernel s p) && bool_decide (t_pgid (tcb (task s p)) = pg)) (existing_tasks s).
Definition find_live_task s pid : option Z := snd <$> list_find (λ p, p = pid) (existing_tasks s).

(** [was_thread_group_seen]: pids below the allocator's counter. *)
Definition was_group_seen s (tg : Z) : bool := bool_decide (0 < tg) && bool_decide (tg < next_pid s).

(** [PendingSignalInfo::from_current] *)
Definition info_from_current s (code : Z) : PendingSignalInfo :=
  mkInfo code (match current s with Some p => tgid s p | None => 0 end) 0.

(** The member that gets a signal sent to its process. *)
Definition signal_target s (targets : list Z) (signum : Z) : option Z :=
  match list_find (λ p, negb (bool_decide (status s p = Zombie)) && signal_is_unblocked (signal_state (task s p)) signum = true) targets with
  | Some (_, p) => Some p
  | None =>
      match list_find (λ p, negb (bool_decide (status s p = Zombie)) = true) targets with
      | Some (_, p) => Some p
      | None => head targets
      end
  end.
Definition deliver_to_process s (targets : list Z) (signum : Z) (info : PendingSignalInfo) : PS :=
  match signal_target s targets signum with
  | Some p => queue_signal s p signum info
  | None => s
  end.

Fixpoint deliver_loop s (all rest delivered : list Z) (signum : Z) (info : PendingSignalInfo) : PS :=
  match rest with
  | [] => s
  | p :: rest =>
      let tg := tgid s p in
      if bool_decide (tg ∈ delivered) then deliver_loop s all rest delivered signum info
      else
        let ms := filter (λ q, tgid s q = tg) all in
        deliver_loop (deliver_to_process s ms signum info) all rest (delivered ++ [tg]) signum info
  end.
Definition deliver_to_processes s (targets : list Z) (signum : Z) (info : PendingSignalInfo) : PS :=
  deliver_loop s targets targets [] signum info.

Definition sys_kill s (pid sig : Z) : PS * result Z SysErrNo :=
  if negb (bool_decide (sig = 0)) && negb (valid_signal sig) then (s, Err EINVAL)
  else
    match
      (if bool_decide (0 < pid) then Some (group_tasks s pid)
       else if bool_decide (pid = 0) then
         match current s with
         | Some c => Some (process_group_tasks s (t_pgid (tcb (task s c))))
         | None => None
         end
       else if bool_decide (pid = -1) then Some (user_tasks s)
       else Some (process_group_tasks s (- pid)))
    with
    | None => (s, Err ESRCH)
    | Some targets =>
        if bool_decide (targets = []) then
          (s, if bool_decide (0 < pid) && was_group_seen s pid then Ok 0 else Err ESRCH)
        else if bool_decide (sig = 0) then (s, Ok 0)
        else (deliver_to_processes s targets sig (info_from_current s SI_USER), Ok 0)
    end.

(** [sys_tkill]; [sys_tgkill] also checks the thread group. *)
Definition thread_kill s (tg : option Z) (tid sig : Z) : PS * result Z SysErrNo :=
  if bool_decide (tid ≤ 0) || match tg with Some n => bool_decide (n ≤ 0) | None => false end then (s, Err EINVAL)
  else if negb (bool_decide (sig = 0)) && negb (valid_signal sig) then (s, Err EINVAL)
  else
    match find_live_task s tid with
    | None => (s, Err ESRCH)
    | Some p =>
        if is_kernel s p || match tg with Some n => negb (bool_decide (tgid s p = n)) | None => false end then (s, Err ESRCH)
        else if bool_decide (sig = 0) then (s, Ok 0)
        else (queue_signal s p sig (info_from_current s SI_TKILL), Ok 0)
    end.
Definition sys_tkill s (tid sig : Z) := thread_kill s None tid sig.
Definition sys_tgkill s (tg tid sig : Z) := thread_kill s (Some tg) tid sig.

Definition send_sigpipe_to_current s : PS :=
  match current s with Some p => queue_signal s p SIGPIPE (info_from_current s SI_USER) | None => s end.

Definition send_interval_timer_signal s pid (which : Z) : PS :=
  let send n := queue_signal s pid n (info_from_current s SI_USER) in
  if bool_decide (which = 0) then send SIGALRM
  else if bool_decide (which = 1) then send SIGVTALRM
  else if bool_decide (which = 2) then send SIGPROF
  else s.

(** ** Delivery on the way to user mode *)

Definition store_signals s pid (x : SignalState) : PS := upd s pid (λ t, with_signals t x (hint_of x)).

(** The mask changes; the hint is left alone. *)
Definition set_signals s pid (x : SignalState) : PS := upd s pid (λ t, with_signals t x (signal_pending_hint t)).

(** What [handle_pending_for_task] comes to: nothing to deliver, the task was stopped or
    terminated, or a handler is to be entered. *)
Inductive Delivery : Set :=
  | NothingPending
  | TaskGone
  | EnterHandler (signum : Z) (action : KernelSigAction) (old_mask : Z) (info : PendingSignalInfo).

(** One turn of the loop of [handle_pending_for_task] for a signal that is not ignored. *)
Definition deliver_signal s pid (signum : Z) : PS * Delivery :=
  let sg := signal_state (task s pid) in
  let action := get_action (actions_of s pid) signum in
  let dfl := bool_decide (handler action = SIG_DFL) in
  if dfl && default_stops signum then
    (stop_task_group (store_signals s pid (clear_pending_signal sg signum)) pid signum, TaskGone)
  else if dfl then
    (terminate_task_group (store_signals s pid (clear_pending_signal sg signum)) pid (signal_exit_code signum), TaskGone)
  else
    let '(sg', old_mask, info) := enter_handler sg signum action in
    let s := store_signals s pid sg' in
    let s :=
      if negb (bool_decide (Z.land (sa_flags action) SA_RESETHAND = 0)) && negb (cannot_catch_or_ignore signum)
      then with_actions s (<[signal_actions (task s pid) := set_action (actions_of s pid) signum DEFAULT_SIGACTION]> (action_tables s))
      else s in
    (s, EnterHandler signum action old_mask info).

(** The signal is discarded when its turn comes. *)
Definition skips (acts : SignalActions) (signum : Z) : bool :=
  let action := get_action acts signum in
  bool_decide (handler action = SIG_IGN) || bool_decide (handler action = SIG_DFL) && default_ignored signum.

(** The loop of [handle_pending_for_task]: every iteration that continues discards one
    pending signal, and there are 64. *)
Fixpoint pending_loop (fuel : nat) s pid : PS * Delivery :=
  match fuel with
  | O => (s, NothingPending)
  | S fuel =>
      let sg := signal_state (task s pid) in
      match next_unblocked_pending sg with
      | None => (s, NothingPending)
      | Some signum =>
          if skips (actions_of s pid) signum then
            pending_loop fuel (store_signals s pid (clear_pending_signal sg signum)) pid
          else deliver_signal s pid signum
      end
  end.

Definition next_delivery s pid : PS * Delivery :=
  if is_kernel s pid then (s, TaskGone)
  else if bool_decide (signal_pending_hint (task s pid) = 0) then (s, NothingPending)
  else if bool_decide (status s pid = Zombie) then (s, TaskGone)
  else pending_loop 65 s pid.

(** ** Tasks that are not cloned *)

(** [TaskControlBlock::new_user] and [new_kernel_task]: a process of its own, without a parent. *)
Definition first_task (child : Z) (kernel : bool) (affinity : Z) : ProcTask :=
  mkTask (mkTcb child child child kernel Ready None None 0 SCHED_OTHER 0 affinity NO_CPU)
    0 0 None [] child child child (negb kernel) 0 child new_signal_state 0.
Definition spawn_task s (kernel : bool) (affinity : Z) : PS :=
  let child := next_pid s in
  add_member
    (mkPS (<[child := first_task child kernel affinity]> (tasks s)) (<[child := new_group]> (groups s))
       (<[child := new_signal_actions]> (action_tables s)) (reaper s) (current s) (child + 1) (registry s ++ [child]) (plog s))
    child child.

Definition set_orphan_reaper s pid : PS :=
  mkPS (tasks s) (groups s) (action_tables s) (Some pid) (current s) (next_pid s) (registry s) (plog s).

(** Before the first task: [PidAllocator::new] starts at 1. *)
Definition no_processes : PS := mkPS ∅ ∅ ∅ None None 1 [] [].

(** ** [sys_clone] *)

Definition has_flag (bits f : Z) : bool := negb (bool_decide (Z.land bits f = 0)).

Definition clone_flags_ok (bits : Z) : bool :=
  bool_decide (Z.ldiff bits ALLOWED_CLONE_FLAGS = 0) &&
  negb (has_flag bits CLONE_SIGHAND && negb (has_flag bits CLONE_VM)) &&
  negb (has_flag bits CLONE_THREAD && negb (has_flag bits CLONE_SIGHAND)).

(** The new task block.  What is not shared is a new object, identified by the child's pid. *)
Definition new_child (par : ProcTask) (ppid child bits child_tid : Z) : ProcTask :=
  let p := tcb par in
  let is_thread := has_flag bits CLONE_THREAD in
  let share_vm := has_flag bits CLONE_VM && negb (has_flag bits CLONE_VFORK) in
  mkTask
    (mkTcb child (if is_thread then t_tgid p else child) (t_pgid p) false Ready None None 0 (t_sched_policy p)
       (t_sched_priority p) (t_affinity_mask p) NO_CPU)
    0 bits (if is_thread then parent par else Some ppid) []
    (if share_vm then memory_set par else child) (if has_flag bits CLONE_FILES then fd_table par else child)
    (if share_vm then mm_context par else child) true
    (if has_flag bits CLONE_CHILD_CLEARTID then child_tid else 0)
    (if has_flag bits CLONE_SIGHAND then signal_actions par else child)
    (fork_from (blocked (signal_state par))) 0.

(** Pid, task block, group and registration of the child. *)
Definition register_child s (ppid bits child_tid : Z) : PS :=
  let par := task s ppid in
  let child := next_pid s in
  let t := new_child par ppid child bits child_tid in
  let is_thread := has_flag bits CLONE_THREAD in
  let s := mkPS (<[child := t]> (tasks s)) (if is_thread then groups s else <[child := new_group]> (groups s))
             (if has_flag bits CLONE_SIGHAND then action_tables s else <[child := actions_of s ppid]> (action_tables s))
             (reaper s) (current s) (child + 1) (registry s ++ [child]) (plog s) in
  let s := add_member s (t_tgid (tcb t)) child in
  if has_flag bits CLONE_VM && negb (has_flag bits CLONE_VFORK) then s else pemit s [InheritShm child].

(** A failing [clone] drops the only reference to the child, and to its group if it is new. *)
Definition drop_child s (child bits : Z) : PS :=
  mkPS (delete child (tasks s)) (if has_flag bits CLONE_THREAD then groups s else delete child (groups s))
    (if has_flag bits CLONE_SIGHAND then action_tables s else delete child (action_tables s))
    (reaper s) (current s) (next_pid s) (registry s) (plog s).

(** [prepare_current_deferred_block] and [commit_current_deferred_block]. *)
Definition prepare_deferred s pid (reason : BlockReason) : PS :=
  upd s pid (λ t, set_task_reason (Some reason) (set_task_outcome None t)).
Definition commit_deferred (cpu : Z) s pid (reason : BlockReason) : PS :=
  if negb (bool_decide (t_block_reason (tcb (task s pid)) = Some reason)) then s
  else if bool_decide (is_Some (t_wait_outcome (tcb (task s pid)))) then
    upd s pid (λ t, set_task_reason None (set_task_outcome None t))
  else if bool_decide (status s pid = Running) then
    upd s pid (λ t, set_task_status Blocked (with_tcb t (set_blocking_cpu (tcb t) cpu)))
  else upd s pid (λ t, set_task_reason None (with_tcb t (set_blocking_cpu (tcb t) NO_CPU))).

(** [fork] is the result of [fork_cow], [settid] that of the thread-id writes. *)
Definition sys_clone (cpu : Z) s (flags child_tid : Z) (fork settid : result unit SysErrNo) : PS * result Z SysErrNo :=
  match current s with
  | None => (s, Err ESRCH)
  | Some ppid =>
      let bits := Z.ldiff flags CSIGNAL in
      if negb (clone_flags_ok bits) then (s, Err EINVAL)
      else
        let is_vfork := has_flag bits CLONE_VFORK in
        match (if has_flag bits CLONE_VM && negb is_vfork then Ok tt else fork) with
        | Err e => (s, Err e)
        | Ok _ =>
            let child := next_pid s in
            let s := register_child s ppid bits child_tid in
            match settid with
            | Err e => (drop_child s child bits, Err e)
            | Ok _ =>
                let s := if has_flag bits CLONE_THREAD then s else upd s ppid (λ t, with_children t (children t ++ [child])) in
                if is_vfork then
                  let s := pemit (prepare_deferred s ppid ChildExit) [AddTaskFront child] in
                  (commit_deferred cpu s ppid ChildExit, Ok child)
                else (pemit s [AddTask child], Ok child)
            end
        end
  end.

End process.
