(* ===== verification/ProcessInv.v ===== *)
(** * The invariant of the process system

    Most operations change only the running state and the signals of tasks ([qstep]); the
    others move children between tasks, end a process or make a new task.  The invariant
    says that the tree of processes is one, that threads and thread groups agree, that an
    exited process has no thread left, and that no signal state is out of shape. *)

From S2P Require Import Prelude Task Signals Process.

(** ** Reading the maps *)

Section lookups.
Implicit Types (s : PS) (p c : Z) (t : ProcTask).

Lemma task_Some s p t : tasks s !! p = Some t → task s p = t.
Proof. unfold task. by intros ->%lookup_total_correct. Qed.

Lemma group_Some s tg g : groups s !! tg = Some g → group s tg = g.
Proof. unfold group. by intros ->%lookup_total_correct. Qed.

Lemma tasks_upd s p f q : tasks (upd s p f) !! q = if bool_decide (q = p) then f <$> tasks s !! q else tasks s !! q.
Proof.
  unfold upd, with_tasks. cbn [tasks]. case_bool_decide as E; [subst q; by rewrite lookup_alter_eq|].
  by rewrite lookup_alter_ne by done.
Qed.

Lemma groups_upd s tg f q :
  groups (upd_group s tg f) !! q = if bool_decide (q = tg) then f <$> groups s !! q else groups s !! q.
Proof.
  unfold upd_group, with_groups. cbn [groups]. case_bool_decide as E; [subst q; by rewrite lookup_alter_eq|].
  by rewrite lookup_alter_ne by done.
Qed.

(** The signals of a task are in shape and the hint covers them. *)
Definition signals_ok t : Prop := sig_ok (signal_state t) ∧ (pending (signal_state t) ≠ 0 → signal_pending_hint t ≠ 0).

(** An update of the running state: the identity, the tree and a past exit stay. *)
Record quiet t t' : Prop := {
  q_tgid : t_tgid (tcb t') = t_tgid (tcb t);
  q_kernel : t_is_kernel (tcb t') = t_is_kernel (tcb t);
  q_actions : signal_actions t' = signal_actions t;
  q_parent : parent t' = parent t;
  q_children : children t' = children t;
  q_zombie : t_status (tcb t) = Zombie → t_status (tcb t') = Zombie;
  q_signals : signals_ok t → signals_ok t'
}.

#[export] Instance quiet_preorder : PreOrder quiet.
Proof.
  split; [by intros t; split|]. intros t1 t2 t3 [] []. split; try congruence; tauto.
Qed.

(** The members and the exit of a group stay. *)
Definition gquiet (g g' : ThreadGroup) : Prop :=
  members g' = members g ∧ process_zombie g' = process_zombie g ∧ tg_exit_code g' = tg_exit_code g.

#[export] Instance gquiet_preorder : PreOrder gquiet.
Proof. split; [by intros g|]. intros g1 g2 g3 (?&?&?) (?&?&?). unfold gquiet. split_and!; congruence. Qed.

#[export] Instance option_Forall2_preorder {A} (R : relation A) : PreOrder R → PreOrder (option_Forall2 R).
Proof.
  intros HR. split.
  - intros [x|]; constructor. reflexivity.
  - intros [x|] [y|] [z|] H1 H2; inversion H1; inversion H2; subst; constructor. by etransitivity.
Qed.

Record qstep s s' : Prop := {
  qs_tasks : ∀ p, option_Forall2 quiet (tasks s !! p) (tasks s' !! p);
  qs_groups : ∀ tg, option_Forall2 gquiet (groups s !! tg) (groups s' !! tg);
  qs_rest : action_tables s' = action_tables s ∧ reaper s' = reaper s ∧ current s' = current s ∧ next_pid s' = next_pid s ∧
            registry s' = registry s
}.

#[export] Instance qstep_preorder : PreOrder qstep.
Proof.
  split.
  - intros s. split; [intros p; reflexivity|intros g; reflexivity|done].
  - intros s1 s2 s3 [T1 G1 (?&?&?&?&?)] [T2 G2 (?&?&?&?&?)]. split.
    + intros p. etransitivity; [apply T1|apply T2].
    + intros g. etransitivity; [apply G1|apply G2].
    + split_and!; congruence.
Qed.

Lemma qstep_emit s evs : qstep s (pemit s evs).
Proof. split; [intros p; reflexivity|intros g; reflexivity|done]. Qed.

Lemma qstep_upd s p f : (∀ t, tasks s !! p = Some t → quiet t (f t)) → qstep s (upd s p f).
Proof.
  intros Hf. split; [|intros g; reflexivity|done]. intros q. rewrite tasks_upd. case_bool_decide as E; [|reflexivity].
  subst q. destruct (tasks s !! p) as [t|] eqn:Et; constructor. by apply Hf.
Qed.

Lemma qstep_group s tg f : (∀ g, gquiet g (f g)) → qstep s (upd_group s tg f).
Proof.
  intros Hf. split; [intros p; reflexivity| |done]. intros q. rewrite groups_upd. case_bool_decide; [|reflexivity].
  destruct (groups s !! q); constructor. apply Hf.
Qed.

Lemma qstep_foldl {A} (f : PS → A → PS) s l : (∀ s x, x ∈ l → qstep s (f s x)) → qstep s (foldl f s l).
Proof.
  revert s. induction l as [|x l IH]; intros s Hf; simpl; [reflexivity|].
  etransitivity; [apply (Hf s x); by left|]. apply IH. intros s' y Hy. apply Hf. by right.
Qed.

(** Updates of the scheduling fields. *)
Lemma quiet_run t x o r :
  (t_status (tcb t) = Zombie → x = Zombie) → quiet t (set_task_outcome o (set_task_reason r (set_task_status x t))).
Proof. intros Hx. split; done. Qed.

Lemma qstep_wake s p o : qstep s (wake_blocked_task s p o).
Proof.
  unfold wake_blocked_task. case_bool_decide as E; [|reflexivity].
  etransitivity; [|apply qstep_emit]. apply qstep_upd. intros t Ht. apply quiet_run.
  unfold status in E. rewrite (task_Some s p t Ht) in E. congruence.
Qed.

Lemma qstep_deferred s p r : qstep s (wake_deferred_block s p r).
Proof.
  unfold wake_deferred_block. case_bool_decide; [|reflexivity]. case_bool_decide as E.
  - etransitivity; [|apply qstep_emit]. apply qstep_upd. intros t Ht. unfold status in E. rewrite (task_Some s p t Ht) in E.
    split; simpl; try done. congruence.
  - apply qstep_upd. intros t Ht. by split.
Qed.

Lemma qstep_vfork s p : qstep s (release_vfork_parent s p).
Proof. unfold release_vfork_parent. case_bool_decide; [reflexivity|]. destruct (parent _); [apply qstep_deferred|reflexivity]. Qed.

Lemma qstep_stop_member s p : qstep s (stop_member s p).
Proof.
  unfold stop_member. case_bool_decide as E; [reflexivity|]. etransitivity; [apply qstep_emit|].
  apply qstep_upd. intros t Ht. change (tasks s !! p = Some t) in Ht. unfold status in E. rewrite (task_Some s p t Ht) in E.
  by split.
Qed.

Lemma qstep_stop s p n : qstep s (stop_task_group s p n).
Proof.
  unfold stop_task_group. destruct (_ || _); [reflexivity|]. etransitivity; [|apply qstep_emit].
  etransitivity; [|apply qstep_foldl; intros; apply qstep_stop_member]. by apply qstep_group.
Qed.

Lemma qstep_continue_member s p : qstep s (continue_member s p).
Proof.
  unfold continue_member. case_bool_decide as E; [|reflexivity]. etransitivity; [|apply qstep_emit].
  apply qstep_upd. intros t Ht. unfold status in E. rewrite (task_Some s p t Ht) in E. split; simpl; try done. congruence.
Qed.

Lemma qstep_continue s p n : qstep s (continue_task_group s p n).
Proof.
  unfold continue_task_group. destruct (_ || _); [reflexivity|]. unfold mark_continued.
  set (s1 := upd_group s _ _). assert (H1 : qstep s s1) by (apply qstep_group; intros g; by destruct (tg_stopped _)).
  destruct (tg_stopped _); [|done]. etransitivity; [exact H1|]. etransitivity; [|apply qstep_emit].
  apply qstep_foldl. intros; apply qstep_continue_member.
Qed.

Lemma qstep_request s p code : qstep s (request_task_exit s p code).
Proof.
  unfold request_task_exit. case_bool_decide; [reflexivity|]. etransitivity; [|apply qstep_emit].
  etransitivity; [|apply qstep_upd; intros t _; by split]. etransitivity; [|apply qstep_emit].
  apply qstep_upd. intros t _. by split.
Qed.

Lemma qstep_finish s p code : qstep s (finish_task_exit s p code).
Proof.
  unfold finish_task_exit. etransitivity; [|apply qstep_emit]. etransitivity; [|apply qstep_upd; intros t _; by split].
  etransitivity; [|apply qstep_emit]. case_bool_decide; [|etransitivity; [|apply qstep_emit]]; apply qstep_emit.
Qed.

Lemma qstep_exit_member who code s m : qstep s (exit_member who code s m).
Proof. unfold exit_member. case_bool_decide; [apply qstep_finish|apply qstep_request]. Qed.

Lemma qstep_detach s ms seen : qstep s (detach_loop s ms seen).
Proof.
  revert s seen. induction ms as [|m ms IH]; intros s seen; simpl; [reflexivity|].
  case_bool_decide; [apply IH|]. etransitivity; [apply qstep_emit|apply IH].
Qed.

Lemma qstep_release_loop s ms (cl rs : list Z) : qstep s (release_loop s ms cl rs).
Proof.
  revert s cl rs. induction ms as [|m ms IH]; intros s cl rs; simpl; [reflexivity|].
  assert (Hend : ∀ s (c r : list Z), qstep s (release_loop (pemit (upd s m (λ t, with_clear_tid t 0)) [RemoveTimerOwner m]) ms c r)).
  { intros s1 c1 r1. etransitivity; [|apply IH]. etransitivity; [|apply qstep_emit]. apply qstep_upd. intros t _. by split. }
  case_bool_decide; (case_bool_decide; [|etransitivity; [|apply Hend]]);
    first [apply Hend | apply qstep_emit | etransitivity; [apply (qstep_emit s [CloseFds (fd_table (task s m))])|]];
    first [apply Hend | apply qstep_emit].
Qed.

Lemma qstep_release s ms : qstep s (release_process_runtime_resources s ms).
Proof. unfold release_process_runtime_resources. etransitivity; [apply qstep_emit|apply qstep_release_loop]. Qed.

(** Signals. *)
Lemma signals_ok_add t n info : valid_signal n = true → signals_ok t → signals_ok (with_signals t (add_pending (signal_state t) n info) 1).
Proof. intros Hv [Hs _]. split; simpl; [by apply add_pending_ok|done]. Qed.

Lemma qstep_wake_for_signal s p : qstep s (wake_for_signal s p).
Proof. unfold wake_for_signal. case_bool_decide; [reflexivity|]. destruct (has_deliverable_pending _ _); [apply qstep_wake|reflexivity]. Qed.

Lemma qstep_queue_with term s p n info :
  valid_signal n = true → (∀ s p c, qstep s (term s p c)) → qstep s (queue_signal_with term s p n info).
Proof.
  intros Hv Ht. unfold queue_signal_with. etransitivity.
  { instantiate (1 := if bool_decide (n = SIGCONT) then continue_task_group s p SIGCONT else s).
    case_bool_decide; [apply qstep_continue|reflexivity]. }
  set (s1 := if bool_decide (n = SIGCONT) then _ else _). destruct (_ && _ && _); [apply qstep_stop|].
  destruct (_ && _ && _); [apply Ht|]. destruct (_ && _); [reflexivity|].
  etransitivity; [|apply qstep_wake_for_signal]. etransitivity; [|apply qstep_emit].
  apply qstep_upd. intros t _. split; try done. by apply signals_ok_add.
Qed.

Lemma qstep_notify s c : qstep s (notify_child_exit s c).
Proof.
  unfold notify_child_exit. destruct (parent _) as [p|]; [|reflexivity]. destruct (_ || _); [reflexivity|].
  apply qstep_queue_with; [done|]. intros; reflexivity.
Qed.

(** [SIGCHLD] never terminates its receiver: what [queue_signal] is given for that makes
    no difference. *)
Lemma sigchld_terminates_nothing term term' s p info :
  queue_signal_with term s p SIGCHLD info = queue_signal_with term' s p SIGCHLD info.
Proof. unfold queue_signal_with. change (default_ignored SIGCHLD) with true. rewrite !andb_false_r. done. Qed.

End lookups.

(** ** The invariant *)

(** A table of dispositions: [SIGKILL] and [SIGSTOP] keep their default. *)
Definition table_ok (tb : SignalActions) : Prop :=
  length tb = 65%nat ∧ Forall (λ a, is_mask (sa_mask a)) tb ∧
  ∀ n, cannot_catch_or_ignore n = true → handler (get_action tb n) = SIG_DFL.

Record ps_ok (s : PS) : Prop := {
  ok_child : ∀ p t c, tasks s !! p = Some t → c ∈ children t → ∃ tc, tasks s !! c = Some tc ∧ parent tc = Some p;
  ok_nodup : ∀ p t, tasks s !! p = Some t → NoDup (children t);
  ok_parent : ∀ c t p, tasks s !! c = Some t → parent t = Some p → is_Some (tasks s !! p);
  ok_member : ∀ p t, tasks s !! p = Some t → ∃ g, groups s !! t_tgid (tcb t) = Some g ∧ p ∈ members g;
  ok_group : ∀ tg g, groups s !! tg = Some g → NoDup (members g) ∧
    ∀ p, p ∈ members g → p < next_pid s ∧ ∀ t, tasks s !! p = Some t → t_tgid (tcb t) = tg;
  ok_exited : ∀ p t g, tasks s !! p = Some t → groups s !! t_tgid (tcb t) = Some g → process_zombie g = true →
    t_is_kernel (tcb t) = false → t_status (tcb t) = Zombie;
  ok_signals : ∀ p t, tasks s !! p = Some t → signals_ok t;
  ok_actions : ∀ k tb, action_tables s !! k = Some tb → table_ok tb;
  ok_reaper : ∀ r, reaper s = Some r → is_Some (tasks s !! r);
  ok_pids : ∀ p, is_Some (groups s !! p) → 0 < p < next_pid s;
  ok_next : 0 < next_pid s
}.

(** What no operation undoes: tasks keep their identity, a zombie stays one, and an exited
    process keeps its exit code. *)
Record persist (s s' : PS) : Prop := {
  pe_tasks : ∀ p t, tasks s !! p = Some t → ∃ t', tasks s' !! p = Some t' ∧
    t_tgid (tcb t') = t_tgid (tcb t) ∧ t_is_kernel (tcb t') = t_is_kernel (tcb t) ∧
    (t_status (tcb t) = Zombie → t_status (tcb t') = Zombie);
  pe_groups : ∀ tg g, groups s !! tg = Some g → ∃ g', groups s' !! tg = Some g' ∧
    members g `prefix_of` members g' ∧
    (process_zombie g = true → process_zombie g' = true ∧ tg_exit_code g' = tg_exit_code g)
}.

#[export] Instance persist_preorder : PreOrder persist.
Proof.
  split; [intros s; split; eauto|]. intros s1 s2 s3 [T1 G1] [T2 G2]. split.
  - intros p t Ht. destruct (T1 p t Ht) as (t2&Ht2&?&?&?), (T2 p t2 Ht2) as (t3&Ht3&?&?&?).
    exists t3. split_and!; [done|congruence|congruence|tauto].
  - intros tg g Hg. destruct (G1 tg g Hg) as (g2&Hg2&?&Hz), (G2 tg g2 Hg2) as (g3&Hg3&?&Hz').
    exists g3. split_and!; [done|by etransitivity|]. intros Hzg. destruct (Hz Hzg) as [Hz2 ?], (Hz' Hz2). split; congruence.
Qed.

Section steps.
Implicit Types (s : PS) (p c : Z) (t : ProcTask).

Lemma qstep_task s s' p t : qstep s s' → tasks s !! p = Some t → ∃ t', tasks s' !! p = Some t' ∧ quiet t t'.
Proof. intros [Ht _ _] Hp. specialize (Ht p). rewrite Hp in Ht. inversion Ht; subst. eauto. Qed.

Lemma qstep_task_back s s' p t' : qstep s s' → tasks s' !! p = Some t' → ∃ t, tasks s !! p = Some t ∧ quiet t t'.
Proof. intros [Ht _ _] Hp. specialize (Ht p). rewrite Hp in Ht. inversion Ht; subst. eauto. Qed.

Lemma qstep_group_back s s' tg g' : qstep s s' → groups s' !! tg = Some g' → ∃ g, groups s !! tg = Some g ∧ gquiet g g'.
Proof. intros [_ Hg _] Hp. specialize (Hg tg). rewrite Hp in Hg. inversion Hg; subst. eauto. Qed.

Lemma qstep_group_some s s' tg g : qstep s s' → groups s !! tg = Some g → ∃ g', groups s' !! tg = Some g' ∧ gquiet g g'.
Proof. intros [_ Hg _] Hp. specialize (Hg tg). rewrite Hp in Hg. inversion Hg; subst. eauto. Qed.

Lemma qstep_ok s s' : qstep s s' → ps_ok s → ps_ok s'.
Proof.
  intros Hq [Hch Hnd Hpa Hme Hgr Hex Hsi Hac Hre Hpi Hnx]. pose proof (qs_rest _ _ Hq) as (Ra&Rr&Rc&Rn&Rg). split.
  - intros p t' c Hp Hc. destruct (qstep_task_back _ _ _ _ Hq Hp) as (t&Ht&Qt). rewrite (q_children _ _ Qt) in Hc.
    destruct (Hch p t c Ht Hc) as (tc&Htc&Hpc). destruct (qstep_task _ _ _ _ Hq Htc) as (tc'&Htc'&Qc).
    exists tc'. by rewrite (q_parent _ _ Qc).
  - intros p t' Hp. destruct (qstep_task_back _ _ _ _ Hq Hp) as (t&Ht&Qt). rewrite (q_children _ _ Qt). by eapply Hnd.
  - intros c t' p Hc Hp. destruct (qstep_task_back _ _ _ _ Hq Hc) as (t&Ht&Qt). rewrite (q_parent _ _ Qt) in Hp.
    destruct (Hpa c t p Ht Hp) as [tp Htp]. destruct (qstep_task _ _ _ _ Hq Htp) as (tp'&?&_). by eexists.
  - intros p t' Hp. destruct (qstep_task_back _ _ _ _ Hq Hp) as (t&Ht&Qt). destruct (Hme p t Ht) as (g&Hg&Hin).
    destruct (qstep_group_some _ _ _ _ Hq Hg) as (g'&Hg'&(Em&_)). exists g'. rewrite (q_tgid _ _ Qt), Em. done.
  - intros tg g' Hg'. destruct (qstep_group_back _ _ _ _ Hq Hg') as (g&Hg&(Em&_)). rewrite Em, Rn.
    destruct (Hgr tg g Hg) as [Hn Hm]. split; [done|]. intros p Hp. destruct (Hm p Hp) as [Hlt Ht]. split; [done|].
    intros t' Ht'. destruct (qstep_task_back _ _ _ _ Hq Ht') as (t&Htt&Qt). rewrite (q_tgid _ _ Qt). by apply Ht.
  - intros p t' g' Hp Hg' Hz Hk. destruct (qstep_task_back _ _ _ _ Hq Hp) as (t&Ht&Qt).
    rewrite (q_tgid _ _ Qt) in Hg'. destruct (qstep_group_back _ _ _ _ Hq Hg') as (g&Hg&(_&Ez&_)).
    apply (q_zombie _ _ Qt). rewrite (q_kernel _ _ Qt) in Hk. apply (Hex p t g); [done|done|congruence|done].
  - intros p t' Hp. destruct (qstep_task_back _ _ _ _ Hq Hp) as (t&Ht&Qt). apply (q_signals _ _ Qt). by eapply Hsi.
  - by rewrite Ra.
  - intros r Hr. rewrite Rr in Hr. destruct (Hre r Hr) as [t Ht]. destruct (qstep_task _ _ _ _ Hq Ht) as (t'&?&_). by eexists.
  - intros p [g' Hg']. destruct (qstep_group_back _ _ _ _ Hq Hg') as (g&Hg&_). rewrite Rn. apply Hpi. by eexists.
  - by rewrite Rn.
Qed.

Lemma qstep_persist s s' : qstep s s' → persist s s'.
Proof.
  intros Hq. split.
  - intros p t Ht. destruct (qstep_task _ _ _ _ Hq Ht) as (t'&Ht'&[]). exists t'. done.
  - intros tg g Hg. destruct (qstep_group_some _ _ _ _ Hq Hg) as (g'&Hg'&(E1&E2&E3)). exists g'.
    split; [done|]. rewrite E1, E2, E3. done.
Qed.

(** ** Ending a process *)

(** No user task of the group can run. *)
Definition group_dead s (tg : Z) : Prop :=
  ∀ p t, tasks s !! p = Some t → t_tgid (tcb t) = tg → t_is_kernel (tcb t) = false → t_status (tcb t) = Zombie.

Lemma mark_zombie_ok s tg code s' b :
  mark_process_zombie s tg code = (s', b) → ps_ok s → group_dead s tg → ps_ok s' ∧ persist s s'.
Proof.
  unfold mark_process_zombie, is_process_zombie. destruct (process_zombie (group s tg)) eqn:Ez; intros [= <- <-] Hok Hd; [done|].
  pose proof Hok as [Hch Hnd Hpa Hme Hgr Hex Hsi Hac Hre Hpi Hnx]. split.
  - split; try done.
    + intros p t Ht. destruct (Hme p t Ht) as (g&Hg&Hin). setoid_rewrite groups_upd. rewrite Hg.
      case_bool_decide; by eexists.
    + intros tg' g'. rewrite groups_upd. case_bool_decide as E; [|apply Hgr]. subst tg'.
      intros (g&Hg&->)%fmap_Some. simpl. by apply Hgr.
    + intros p t g' Ht Hg' Hz Hk. rewrite groups_upd in Hg'. case_bool_decide as E; [by apply (Hd p t)|by apply (Hex p t g')].
    + intros p. rewrite groups_upd. case_bool_decide; [rewrite fmap_is_Some|]; apply Hpi.
  - split; [by eauto|]. intros tg' g Hg. rewrite groups_upd. case_bool_decide as E; [|rewrite Hg; by eexists].
    subst tg'. rewrite Hg. eexists. split; [done|]. simpl. split; [done|]. rewrite (group_Some _ _ _ Hg) in Ez. congruence.
Qed.

(** ** Moving children *)

(** The operation changes parents and children only. *)
Definition tree_only t t' : Prop :=
  tcb t' = tcb t ∧ signal_state t' = signal_state t ∧ signal_pending_hint t' = signal_pending_hint t.

Record tstep s s' : Prop := {
  ts_tasks : ∀ p, option_Forall2 tree_only (tasks s !! p) (tasks s' !! p);
  ts_rest : groups s' = groups s ∧ action_tables s' = action_tables s ∧ reaper s' = reaper s ∧ next_pid s' = next_pid s
}.

#[export] Instance tree_only_preorder : PreOrder tree_only.
Proof. split; [done|]. intros t1 t2 t3 (?&?&?) (?&?&?). unfold tree_only. split_and!; congruence. Qed.
#[export] Instance tstep_preorder : PreOrder tstep.
Proof.
  split; [intros s; split; [intros p; reflexivity|done]|]. intros s1 s2 s3 [T1 (?&?&?&?)] [T2 (?&?&?&?)]. split.
  - intros p. etransitivity; [apply T1|apply T2].
  - split_and!; congruence.
Qed.

Lemma tstep_upd s p f : (∀ t, tree_only t (f t)) → tstep s (upd s p f).
Proof.
  intros Hf. split; [|done]. intros q. rewrite tasks_upd. case_bool_decide; [|reflexivity].
  destruct (tasks s !! q); constructor. apply Hf.
Qed.

Lemma tstep_task_back s s' p t' : tstep s s' → tasks s' !! p = Some t' → ∃ t, tasks s !! p = Some t ∧ tree_only t t'.
Proof. intros [Ht _] Hp. specialize (Ht p). rewrite Hp in Ht. inversion Ht; subst. eauto. Qed.

Lemma tstep_task s s' p t : tstep s s' → tasks s !! p = Some t → ∃ t', tasks s' !! p = Some t' ∧ tree_only t t'.
Proof. intros [Ht _] Hp. specialize (Ht p). rewrite Hp in Ht. inversion Ht; subst. eauto. Qed.

Lemma tstep_persist s s' : tstep s s' → persist s s'.
Proof.
  intros Hq. pose proof (ts_rest _ _ Hq) as (Eg&_). split.
  - intros p t Ht. destruct (tstep_task _ _ _ _ Hq Ht) as (t'&Ht'&(E&_)). exists t'. by rewrite E.
  - intros tg g Hg. rewrite Eg. by eauto.
Qed.

(** The parts of the invariant about the tree. *)
Definition tree_ok s : Prop :=
  (∀ p t c, tasks s !! p = Some t → c ∈ children t → ∃ tc, tasks s !! c = Some tc ∧ parent tc = Some p) ∧
  (∀ p t, tasks s !! p = Some t → NoDup (children t)) ∧
  (∀ c t p, tasks s !! c = Some t → parent t = Some p → is_Some (tasks s !! p)).

Lemma ps_tree_ok s : ps_ok s → tree_ok s.
Proof. by intros []. Qed.

Lemma tstep_ok s s' : tstep s s' → ps_ok s → tree_ok s' → ps_ok s'.
Proof.
  intros Hq [Hch Hnd Hpa Hme Hgr Hex Hsi Hac Hre Hpi Hnx] (T1&T2&T3). pose proof (ts_rest _ _ Hq) as (Eg&Ea&Er&En).
  split; try done.
  - intros p t' Hp. destruct (tstep_task_back _ _ _ _ Hq Hp) as (t&Ht&(E&_)). rewrite E, Eg. by apply Hme.
  - rewrite Eg. intros tg g Hg. destruct (Hgr tg g Hg) as [Hn Hm]. split; [done|]. intros p Hp.
    destruct (Hm p Hp) as [Hlt Ht]. rewrite En. split; [done|]. intros t' Ht'.
    destruct (tstep_task_back _ _ _ _ Hq Ht') as (t&Htt&(E&_)). rewrite E. by apply Ht.
  - rewrite Eg. intros p t' g Hp. destruct (tstep_task_back _ _ _ _ Hq Hp) as (t&Ht&(E&_)). rewrite E. by apply (Hex p t g).
  - intros p t' Hp. destruct (tstep_task_back _ _ _ _ Hq Hp) as (t&Ht&(_&E1&E2)). unfold signals_ok. rewrite E1, E2. by eapply Hsi.
  - by rewrite Ea.
  - rewrite Er. intros r Hr. destruct (Hre r Hr) as [t Ht]. destruct (tstep_task _ _ _ _ Hq Ht) as (t'&?&_). by eexists.
  - rewrite Eg, En. done.
  - by rewrite En.
Qed.

(** The task is in no list of children. *)
Definition free_child s c : Prop := is_Some (tasks s !! c) ∧ ∀ p t, tasks s !! p = Some t → c ∉ children t.

Lemma take_orphans_tstep s ms : tstep s (take_orphans s ms).1.
Proof.
  revert s. induction ms as [|m ms IH]; intros s; cbn [take_orphans]; [reflexivity|].
  specialize (IH (upd s m (λ t, with_children t []))). destruct (take_orphans _ ms) as [s' rest]. simpl in *.
  etransitivity; [|exact IH]. by apply tstep_upd.
Qed.

Lemma clear_children_ok s m : tree_ok s → tree_ok (upd s m (λ t, with_children t [])).
Proof.
  intros (T1&T2&T3). assert (Hl : ∀ q t', tasks (upd s m (λ t, with_children t [])) !! q = Some t' →
    ∃ t, tasks s !! q = Some t ∧ parent t' = parent t ∧ (children t' = [] ∨ q ≠ m ∧ children t' = children t)).
  { intros q t'. rewrite tasks_upd. case_bool_decide; [|intros Ht; exists t'; auto].
    intros (t&Ht&->)%fmap_Some. exists t. auto. }
  assert (Hr : ∀ q t, tasks s !! q = Some t → ∃ t', tasks (upd s m (λ t, with_children t [])) !! q = Some t' ∧ parent t' = parent t).
  { intros q t Ht. rewrite tasks_upd, Ht. case_bool_decide; by eexists. }
  split; [|split].
  - intros p t' c Hp Hc. destruct (Hl _ _ Hp) as (t&Ht&_&[E|[_ E]]); rewrite E in Hc; [by apply elem_of_nil in Hc|].
    destruct (T1 p t c Ht Hc) as (tc&Htc&Hpc). destruct (Hr _ _ Htc) as (tc'&?&E'). exists tc'. by rewrite E'.
  - intros p t' Hp. destruct (Hl _ _ Hp) as (t&Ht&_&[->|[_ ->]]); [constructor|by eapply T2].
  - intros c t' p Hc Hp. destruct (Hl _ _ Hc) as (t&Ht&E&_). rewrite E in Hp. destruct (T3 c t p Ht Hp) as [tp Htp].
    destruct (Hr _ _ Htp) as (?&?&_). by eexists.
Qed.

Lemma take_orphans_ok s ms :
  tree_ok s → NoDup ms →
  let '(s', cs) := take_orphans s ms in
  tree_ok s' ∧ NoDup cs ∧ (∀ c, c ∈ cs → free_child s' c ∧ ∃ m t, m ∈ ms ∧ tasks s !! m = Some t ∧ c ∈ children t) ∧
  (∀ m t', m ∈ ms → tasks s' !! m = Some t' → children t' = []) ∧
  (∀ p t', tasks s' !! p = Some t' → children t' = [] ∨ ∃ t, p ∉ ms ∧ tasks s !! p = Some t ∧ children t' = children t).
Proof.
  revert s. induction ms as [|m ms IH]; intros s Ht Hnd; cbn [take_orphans].
  { split; [done|]. split; [constructor|]. split; [by intros c ?%elem_of_nil|]. split; [by intros m t' ?%elem_of_nil|].
    intros p t' Hp. right. exists t'. split; [by apply not_elem_of_nil|done]. }
  apply NoDup_cons in Hnd as [Hm Hnd]. set (s1 := upd s m (λ t, with_children t [])).
  specialize (IH s1 (clear_children_ok s m Ht) Hnd). pose proof (take_orphans_tstep s1 ms) as Hts.
  destruct (take_orphans s1 ms) as [s' rest]. cbn [fst] in Hts. destruct IH as (Hok&Hndr&Hrest&Hempty&Hchild).
  assert (Hs1 : ∀ q t, tasks s1 !! q = Some t → q ≠ m → tasks s !! q = Some t).
  { intros q t. unfold s1. rewrite tasks_upd. by case_bool_decide. }
  assert (Hm1 : ∀ t, tasks s1 !! m = Some t → children t = []).
  { intros t. unfold s1. rewrite tasks_upd, bool_decide_eq_true_2 by done. by intros (?&_&->)%fmap_Some. }
  assert (Hin : ∀ c, c ∈ rest → ∃ m' t, m' ∈ ms ∧ tasks s !! m' = Some t ∧ c ∈ children t).
  { intros c Hc. destruct (Hrest c Hc) as (_&m'&t&Hm'&Ht1&Hcc). exists m', t.
    destruct (decide (m' = m)) as [->|]; [by rewrite (Hm1 t Ht1) in Hcc; apply elem_of_nil in Hcc|]. split; [done|]. split; [by apply Hs1|done]. }
  assert (Hback : ∀ p t', tasks s' !! p = Some t' → children t' = [] ∨ ∃ t, p ∉ m :: ms ∧ tasks s !! p = Some t ∧ children t' = children t).
  { intros p t' Hp. destruct (Hchild p t' Hp) as [?|(t&Hpn&Hpt&E)]; [by left|]. destruct (decide (p = m)) as [->|Hne].
    - left. by rewrite E, (Hm1 t Hpt).
    - right. exists t. rewrite not_elem_of_cons. split; [done|]. split; [by apply Hs1|done]. }
  destruct Ht as (T1&T2&T3).
  assert (Hcs : ∀ c, c ∈ children (task s m) → ∃ t, tasks s !! m = Some t ∧ c ∈ children t).
  { intros c Hc. unfold task in Hc. destruct (tasks s !! m) as [t|] eqn:Et; [|by rewrite lookup_total_alt, Et in Hc; apply elem_of_nil in Hc].
    rewrite (lookup_total_correct _ _ _ Et) in Hc. eauto. }
  split; [done|]. split; [|split; [|split; [|done]]].
  - apply NoDup_app. split; [|split; [|done]].
    + destruct (tasks s !! m) as [t|] eqn:Et; [rewrite (task_Some _ _ _ Et); by eapply T2|].
      unfold task. rewrite lookup_total_alt, Et. constructor.
    + intros c Hc Hr. destruct (Hcs c Hc) as (t&Htm&Hct). destruct (T1 m t c Htm Hct) as (tc&Htc&Hp1).
      destruct (Hin c Hr) as (m'&t2&Hm'&Ht2&Hc2). destruct (T1 m' t2 c Ht2 Hc2) as (tc2&Htc2&Hp2).
      assert (m = m') by congruence. by subst m'.
  - intros c Hc. apply elem_of_app in Hc as [Hc|Hc].
    + destruct (Hcs c Hc) as (t&Htm&Hct). destruct (T1 m t c Htm Hct) as (tc&Htc&Hpc). split; [|exists m, t; split; [by left|done]].
      split.
      * assert (Hsome : is_Some (tasks s1 !! c)) by (unfold s1; rewrite tasks_upd; case_bool_decide; rewrite ?fmap_is_Some, Htc; by eexists).
        destruct Hsome as [t1 Ht1]. destruct (tstep_task _ _ _ _ Hts Ht1) as (?&?&_). by eexists.
      * intros p t' Hp Hcp. destruct (Hback p t' Hp) as [E|(t2&Hpn&Hpt&E)]; rewrite E in Hcp; [by apply elem_of_nil in Hcp|].
        destruct (T1 p t2 c Hpt Hcp) as (tc2&Htc2&Hp2). assert (p = m) by congruence. subst p. apply Hpn. by left.
    + destruct (Hin c Hc) as (m'&t&Hm'&Htm&Hct). split; [by apply Hrest|]. exists m', t. split; [by right|done].
  - intros m' t' Hm' Ht'. apply elem_of_cons in Hm' as [->|Hm']; [|by eapply Hempty].
    destruct (Hback m t' Ht') as [?|(t&Hn&_)]; [done|]. exfalso. apply Hn. by left.
Qed.

Lemma adopt_lookup r s c q t' :
  tasks (adopt r s c) !! q = Some t' → ∃ t, tasks s !! q = Some t ∧
    parent t' = (if bool_decide (q = c) then Some r else parent t) ∧
    children t' = (if bool_decide (q = r) then children t ++ [c] else children t).
Proof.
  unfold adopt. rewrite !tasks_upd. destruct (bool_decide (q = r)), (bool_decide (q = c)); intros H;
    repeat (apply fmap_Some in H as (?&H&->)); eauto.
Qed.

Lemma adopt_some r s c q : is_Some (tasks (adopt r s c) !! q) ↔ is_Some (tasks s !! q).
Proof. unfold adopt. rewrite !tasks_upd. repeat case_bool_decide; by rewrite ?fmap_is_Some. Qed.

Lemma adopt_ok r s c :
  tree_ok s → free_child s c → is_Some (tasks s !! r) →
  tree_ok (adopt r s c) ∧ ∀ c', c' ≠ c → free_child s c' → free_child (adopt r s c) c'.
Proof.
  intros (T1&T2&T3) [Hsc Hfree] Hr. split; [split; [|split]|].
  - intros p t' d Hp Hd. destruct (adopt_lookup _ _ _ _ _ Hp) as (t&Ht&_&Ec). rewrite Ec in Hd.
    assert (Hcase : (d = c ∧ p = r) ∨ d ∈ children t).
    { case_bool_decide; [|by right]. apply elem_of_app in Hd as [?|?%list_elem_of_singleton]; [by right|by left]. }
    destruct Hcase as [[-> ->]|Hdt].
    + destruct (proj2 (adopt_some r s c c) Hsc) as [tc Htc]. exists tc. split; [done|].
      destruct (adopt_lookup _ _ _ _ _ Htc) as (?&_&E&_). by rewrite bool_decide_eq_true_2 in E.
    + destruct (T1 p t d Ht Hdt) as (td&Htd&Hpd). destruct (proj2 (adopt_some r s c d) ltac:(by eexists)) as [td' Htd'].
      exists td'. split; [done|]. destruct (adopt_lookup _ _ _ _ _ Htd') as (t2&Ht2&E&_). rewrite E.
      case_bool_decide as Edc; [|congruence]. subst d. by destruct (Hfree _ _ Ht Hdt).
  - intros p t' Hp. destruct (adopt_lookup _ _ _ _ _ Hp) as (t&Ht&_&->). case_bool_decide; [|by eapply T2].
    apply NoDup_app. split; [by eapply T2|]. split; [|apply NoDup_singleton].
    intros d Hd ->%list_elem_of_singleton. by destruct (Hfree _ _ Ht Hd).
  - intros q t' p Hq Hp. destruct (adopt_lookup _ _ _ _ _ Hq) as (t&Ht&E&_). rewrite E in Hp. apply adopt_some.
    case_bool_decide; [by injection Hp as <-|by eapply T3].
  - intros c' Hne [Hs' Hf']. split; [by apply adopt_some|]. intros p t' Hp Hin.
    destruct (adopt_lookup _ _ _ _ _ Hp) as (t&Ht&_&Ec). rewrite Ec in Hin. case_bool_decide; [|by eapply Hf'].
    apply elem_of_app in Hin as [Hin| ->%list_elem_of_singleton]; [by eapply Hf'|done].
Qed.

Lemma adopt_tstep r s c : tstep s (adopt r s c).
Proof. unfold adopt. etransitivity; apply tstep_upd; done. Qed.

(** Orphans without a reaper. *)
Lemma abandon_ok s c :
  tree_ok s → free_child s c →
  let s' := upd s c (λ t, with_parent t None) in
  tree_ok s' ∧ ∀ c', free_child s c' → free_child s' c'.
Proof.
  intros (T1&T2&T3) [Hsc Hfree] s'.
  assert (Hl : ∀ q t', tasks s' !! q = Some t' → ∃ t, tasks s !! q = Some t ∧ children t' = children t ∧
    parent t' = (if bool_decide (q = c) then None else parent t)).
  { intros q t'. unfold s'. rewrite tasks_upd. case_bool_decide; [intros (t&Ht&->)%fmap_Some|]; eauto. }
  assert (Hr : ∀ q, is_Some (tasks s !! q) → is_Some (tasks s' !! q)).
  { intros q Hq. unfold s'. rewrite tasks_upd. case_bool_decide; by rewrite ?fmap_is_Some. }
  split; [split; [|split]|].
  - intros p t' d Hp Hd. destruct (Hl _ _ Hp) as (t&Ht&Ec&_). rewrite Ec in Hd. destruct (T1 p t d Ht Hd) as (td&Htd&Hpd).
    destruct (Hr d ltac:(by eexists)) as [td' Htd']. exists td'. split; [done|]. destruct (Hl _ _ Htd') as (t2&Ht2&_&E).
    rewrite E. case_bool_decide as Edc; [|congruence]. subst d. by destruct (Hfree _ _ Ht Hd).
  - intros p t' Hp. destruct (Hl _ _ Hp) as (t&Ht&->&_). by eapply T2.
  - intros q t' p Hq Hp. destruct (Hl _ _ Hq) as (t&Ht&_&E). rewrite E in Hp. case_bool_decide; [done|]. apply Hr. by eapply T3.
  - intros c' [Hs' Hf']. split; [by apply Hr|]. intros p t' Hp. destruct (Hl _ _ Hp) as (t&Ht&->&_). by eapply Hf'.
Qed.

Lemma reparent_ok s cs :
  tree_ok s → NoDup cs → (∀ c, c ∈ cs → free_child s c) → (∀ r, reaper s = Some r → is_Some (tasks s !! r)) →
  tree_ok (reparent s cs) ∧ tstep s (reparent s cs).
Proof.
  unfold reparent. intros Ht Hnd Hf Hr. destruct (reaper s) as [r|].
  - specialize (Hr r eq_refl). revert s Ht Hf Hr. induction Hnd as [|c cs Hc Hnd IH]; intros s Ht Hf Hr; simpl; [done|].
    destruct (adopt_ok r s c Ht (Hf c ltac:(by left)) Hr) as [Ht1 Hf1].
    destruct (IH (adopt r s c) Ht1) as [Ht2 Hts2].
    + intros c' Hc'. apply Hf1; [by intros ->|]. apply Hf. by right.
    + by apply adopt_some.
    + split; [done|]. etransitivity; [apply adopt_tstep|done].
  - clear Hr. revert s Ht Hf. induction Hnd as [|c cs Hc Hnd IH]; intros s Ht Hf; simpl; [done|].
    destruct (abandon_ok s c Ht (Hf c ltac:(by left))) as [Ht1 Hf1].
    destruct (IH _ Ht1) as [Ht2 Hts2]; [intros c' Hc'; apply Hf1, Hf; by right|].
    split; [done|]. etransitivity; [|done]. by apply tstep_upd.
Qed.

(** [reap_zombie_child] takes a child out of one list. *)
Lemma remove_child_ok s o i : tree_ok s → tree_ok (upd s o (λ t, with_children t (delete i (children t)))).
Proof.
  intros (T1&T2&T3). set (s' := upd _ _ _).
  assert (Hl : ∀ q t', tasks s' !! q = Some t' → ∃ t, tasks s !! q = Some t ∧ parent t' = parent t ∧ sublist (children t') (children t)).
  { intros q t'. unfold s'. rewrite tasks_upd. case_bool_decide; [|eauto]. intros (t&Ht&->)%fmap_Some. exists t.
    split; [done|]. split; [done|]. simpl. apply sublist_delete. }
  assert (Hr : ∀ q t, tasks s !! q = Some t → ∃ t', tasks s' !! q = Some t' ∧ parent t' = parent t).
  { intros q t Ht. unfold s'. rewrite tasks_upd, Ht. case_bool_decide; by eexists. }
  split; [|split].
  - intros p t' c Hp Hc. destruct (Hl _ _ Hp) as (t&Ht&_&Hsub). pose proof (elem_of_submseteq _ _ c Hc (sublist_submseteq _ _ Hsub)) as Hct.
    destruct (T1 p t c Ht Hct) as (tc&Htc&Hpc). destruct (Hr _ _ Htc) as (tc'&?&E). exists tc'. by rewrite E.
  - intros p t' Hp. destruct (Hl _ _ Hp) as (t&Ht&_&Hsub). eapply sublist_NoDup; [by eapply T2|exact Hsub].
  - intros c t' p Hc Hp. destruct (Hl _ _ Hc) as (t&Ht&E&_). rewrite E in Hp. destruct (T3 c t p Ht Hp) as [tp Htp].
    destruct (Hr _ _ Htp) as (?&?&_). by eexists.
Qed.

Lemma reap_loop_tstep s owners target : tstep s (reap_loop s owners target).1 ∧ (tree_ok s → tree_ok (reap_loop s owners target).1).
Proof.
  induction owners as [|o owners IH]; simpl; [by split|].
  destruct (list_find _ _) as [[i c]|]; [|exact IH]. simpl. split; [by apply tstep_upd|apply remove_child_ok].
Qed.

(** ** Processes end *)

Lemma user_members_nodup s tg : ps_ok s → NoDup (user_members s tg).
Proof.
  intros Hok. unfold user_members, group. apply NoDup_filter. rewrite lookup_total_alt.
  destruct (groups s !! tg) as [g|] eqn:Eg; [|constructor]. simpl. by eapply (ok_group s Hok tg g).
Qed.

Lemma elem_of_user_members s p t :
  ps_ok s → tasks s !! p = Some t → t_is_kernel (tcb t) = false → p ∈ user_members s (t_tgid (tcb t)).
Proof.
  intros Hok Ht Hk. destruct (ok_member s Hok p t Ht) as (g&Hg&Hin). unfold user_members, is_kernel.
  rewrite (group_Some _ _ _ Hg). apply list_elem_of_filter. rewrite (task_Some _ _ _ Ht), Hk. split; [|done].
  rewrite bool_decide_eq_true_2 by (by eexists). done.
Qed.

Lemma user_members_task s tg p :
  ps_ok s → p ∈ user_members s tg → ∃ t, tasks s !! p = Some t ∧ t_tgid (tcb t) = tg ∧ t_is_kernel (tcb t) = false.
Proof.
  intros Hok. unfold user_members, group, is_kernel. intros [Hb Hin]%list_elem_of_filter.
  apply Is_true_true, andb_true_iff in Hb as [Hs%bool_decide_eq_true_1 Hk%negb_true_iff]. destruct Hs as [t Ht].
  rewrite (task_Some _ _ _ Ht) in Hk. rewrite lookup_total_alt in Hin.
  destruct (groups s !! tg) as [g|] eqn:Eg; [|by apply elem_of_nil in Hin]. simpl in Hin.
  exists t. split; [done|]. split; [|done]. destruct (ok_group s Hok tg g Eg) as [_ Hm]. by apply (Hm p Hin).
Qed.

Lemma group_dead_qstep s s' tg : qstep s s' → group_dead s tg → group_dead s' tg.
Proof.
  intros Hq Hd p t' Hp Htg Hk. destruct (qstep_task_back _ _ _ _ Hq Hp) as (t&Ht&[]). rewrite q_zombie0; [done|].
  apply (Hd p t); [done|congruence|congruence].
Qed.

Lemma finish_process_ok s p code :
  ps_ok s → is_Some (tasks s !! p) → group_dead s (tgid s p) →
  ps_ok (finish_process_exit s p code) ∧ persist s (finish_process_exit s p code).
Proof.
  intros Hok [t Ht] Hd. unfold finish_process_exit.
  destruct (mark_process_zombie s (tgid s p) code) as [s1 first] eqn:Em.
  destruct (mark_zombie_ok _ _ _ _ _ Em Hok Hd) as [Hok1 Hp1]. destruct first; [|done]. clear Em.
  set (ms := user_members (release_vfork_parent s1 p) _).
  set (s2 := release_vfork_parent s1 p) in *. assert (Q2 : qstep s1 s2) by apply qstep_vfork. clearbody s2.
  assert (Hnd : NoDup ms) by (apply user_members_nodup; by eapply qstep_ok).
  set (s3 := pemit s2 _). assert (Q3 : qstep s2 s3) by apply qstep_emit. clearbody s3. clearbody ms.
  set (s4 := detach_loop s3 ms []). assert (Q4 : qstep s3 s4) by apply qstep_detach. clearbody s4.
  set (s5 := release_process_runtime_resources s4 ms). assert (Q5 : qstep s4 s5) by apply qstep_release. clearbody s5.
  set (s6 := notify_child_exit s5 p). assert (Q6 : qstep s5 s6) by apply qstep_notify. clearbody s6.
  assert (Q : qstep s1 s6) by (etransitivity; [exact Q2|]; etransitivity; [exact Q3|]; etransitivity; [exact Q4|];
    etransitivity; [exact Q5|exact Q6]).
  pose proof (qstep_ok _ _ Q Hok1) as Hok6. pose proof (qstep_persist _ _ Q) as Hp6. clear Q2 Q3 Q4 Q5 Q6 Q.
  pose proof (take_orphans_ok s6 ms (ps_tree_ok _ Hok6) Hnd) as Ho. pose proof (take_orphans_tstep s6 ms) as Hts.
  destruct (take_orphans s6 ms) as [s7 cs]. cbn [fst] in Hts. destruct Ho as (Ht7&Hndc&Hfree&_&_).
  pose proof (tstep_ok _ _ Hts Hok6 Ht7) as Hok7.
  destruct (reparent_ok s7 cs Ht7 Hndc) as [Ht8 Hts8]; [intros c Hc; by apply Hfree|apply Hok7|].
  set (s8 := reparent s7 cs) in *. pose proof (tstep_ok _ _ Hts8 Hok7 Ht8) as Hok8. clearbody s8.
  set (s9 := match parent (task s1 p) with Some _ => _ | None => _ end).
  assert (Q9 : qstep s8 s9).
  { unfold s9. destruct (parent _); [|reflexivity]. case_bool_decide; [apply qstep_wake|reflexivity]. }
  clearbody s9. assert (Q10 : qstep s8 (pemit s9 [WakeChildWaiters])) by (etransitivity; [exact Q9|apply qstep_emit]).
  split; [by apply (qstep_ok _ _ Q10)|]. etransitivity; [exact Hp1|]. etransitivity; [exact Hp6|].
  etransitivity; [by apply tstep_persist|]. etransitivity; [by apply tstep_persist|]. by apply qstep_persist.
Qed.

End steps.
