(* ===== verification/ProcessSteps.v ===== *)
(** * Reachable process states

    Every operation of the process system keeps the invariant and undoes no exit; so every
    reachable state satisfies it. *)

From S2P Require Import Prelude Task Signals Process ProcessInv.

Section steps.
Implicit Types (s : PS) (p c : Z) (t : ProcTask).

(** The invariant is kept and nothing final is undone. *)
Definition keeps s s' : Prop := ps_ok s → ps_ok s' ∧ persist s s'.

#[export] Instance keeps_preorder : PreOrder keeps.
Proof.
  split; [by intros s Hok; split|]. intros s1 s2 s3 H12 H23 Hok. destruct (H12 Hok) as [Hok2 P2].
  destruct (H23 Hok2) as [Hok3 P3]. split; [done|by etransitivity].
Qed.

Lemma qstep_keeps s s' : qstep s s' → keeps s s'.
Proof. intros Hq Hok. split; [by eapply qstep_ok|by apply qstep_persist]. Qed.

Lemma qstep_some s s' p : qstep s s' → is_Some (tasks s !! p) → is_Some (tasks s' !! p).
Proof. intros Hq [t Ht]. destruct (qstep_task _ _ _ _ Hq Ht) as (?&?&_). by eexists. Qed.

Lemma qstep_tgid s s' p : qstep s s' → is_Some (tasks s !! p) → tgid s' p = tgid s p.
Proof.
  intros Hq [t Ht]. destruct (qstep_task _ _ _ _ Hq Ht) as (t'&Ht'&Q). unfold tgid.
  rewrite (task_Some _ _ _ Ht), (task_Some _ _ _ Ht'). apply Q.
Qed.

Lemma keeps_some s s' p : ps_ok s → keeps s s' → is_Some (tasks s !! p) → is_Some (tasks s' !! p).
Proof. intros Hok Hk [t Ht]. destruct (Hk Hok) as [_ [Hp _]]. destruct (Hp p t Ht) as (?&?&_). by eexists. Qed.

(** ** Members exit *)

Lemma exit_member_zombie who code s m t' : tasks (exit_member who code s m) !! m = Some t' → t_status (tcb t') = Zombie.
Proof.
  unfold exit_member, finish_task_exit, request_task_exit. case_bool_decide as E.
  - unfold pemit. cbn [tasks]. rewrite tasks_upd, bool_decide_eq_true_2 by done. by intros (?&_&->)%fmap_Some.
  - case_bool_decide as Ez.
    + intros Ht. unfold status in Ez. by rewrite (task_Some _ _ _ Ht) in Ez.
    + unfold pemit. cbn [tasks]. rewrite tasks_upd, bool_decide_eq_true_2 by done. cbn [tasks].
      rewrite tasks_upd, bool_decide_eq_true_2 by done. intros (t&H&->)%fmap_Some. apply fmap_Some in H as (?&_&->). done.
Qed.

Lemma exit_members_zombie who code ms s m t' :
  m ∈ ms → tasks (foldl (exit_member who code) s ms) !! m = Some t' → t_status (tcb t') = Zombie.
Proof.
  revert s. induction ms as [|x ms IH]; intros s Hm Ht; [by apply elem_of_nil in Hm|]. simpl in Ht.
  apply elem_of_cons in Hm as [->|Hm]; [|by eapply IH].
  assert (Hq : qstep (exit_member who code s x) (foldl (exit_member who code) (exit_member who code s x) ms)).
  { apply qstep_foldl. intros; apply qstep_exit_member. }
  destruct (qstep_task_back _ _ _ _ Hq Ht) as (t&Htx&Q). apply (q_zombie _ _ Q). by eapply exit_member_zombie.
Qed.

Lemma exit_members_dead who code s tg :
  ps_ok s → group_dead (foldl (exit_member who code) s (user_members s tg)) tg.
Proof.
  intros Hok p t' Ht Htg Hk. assert (Hq : qstep s (foldl (exit_member who code) s (user_members s tg))).
  { apply qstep_foldl. intros; apply qstep_exit_member. }
  destruct (qstep_task_back _ _ _ _ Hq Ht) as (t&Htx&Q). eapply exit_members_zombie; [|exact Ht].
  rewrite <-Htg, (q_tgid _ _ Q). apply elem_of_user_members; [done|done|]. by rewrite <-(q_kernel _ _ Q).
Qed.

Lemma terminate_keeps s p code : is_Some (tasks s !! p) → keeps s (terminate_task_group s p code).
Proof.
  intros Hp Hok. unfold terminate_task_group. destruct (is_kernel s p); [by split|].
  set (s1 := foldl _ _ _). assert (Q : qstep s s1) by (apply qstep_foldl; intros; apply qstep_exit_member).
  assert (Q2 : qstep s (pemit s1 [NotifyRunnable])) by (etransitivity; [exact Q|apply qstep_emit]).
  destruct (finish_process_ok (pemit s1 [NotifyRunnable]) p code) as [Hok' Hpe].
  - by eapply qstep_ok.
  - by eapply qstep_some.
  - rewrite (qstep_tgid _ _ _ Q2) by done. by apply (exit_members_dead (current s) code s).
  - split; [done|]. etransitivity; [by apply qstep_persist|done].
Qed.

(** [queue_signal] terminates the group or is quiet. *)
Lemma queue_signal_cases s p n info :
  valid_signal n = true →
  ∃ s1, qstep s s1 ∧
    (queue_signal s p n info = terminate_task_group s1 p (signal_exit_code n) ∨ qstep s1 (queue_signal s p n info)).
Proof.
  intros Hv. unfold queue_signal, queue_signal_with.
  set (s1 := if bool_decide (n = SIGCONT) then _ else _). exists s1. split.
  { unfold s1. case_bool_decide; [apply qstep_continue|reflexivity]. }
  destruct (_ && _ && _); [right; apply qstep_stop|]. destruct (_ && _ && _); [by left|]. right.
  destruct (_ && _); [reflexivity|]. etransitivity; [|apply qstep_wake_for_signal]. etransitivity; [|apply qstep_emit].
  apply qstep_upd. intros t _. split; try done. by apply signals_ok_add.
Qed.

Lemma queue_signal_keeps s p n info : valid_signal n = true → is_Some (tasks s !! p) → keeps s (queue_signal s p n info).
Proof.
  intros Hv Hp. destruct (queue_signal_cases s p n info Hv) as (s1&Q&[->|Q2]).
  - etransitivity; [by apply qstep_keeps|]. apply terminate_keeps. by eapply qstep_some.
  - apply qstep_keeps. by etransitivity.
Qed.

Lemma deliver_keeps s targets n info :
  valid_signal n = true → (∀ p, p ∈ targets → is_Some (tasks s !! p)) → keeps s (deliver_to_process s targets n info).
Proof.
  intros Hv Ht. unfold deliver_to_process. destruct (signal_target s targets n) as [p|] eqn:E; [|reflexivity].
  apply queue_signal_keeps; [done|]. apply Ht. revert E. unfold signal_target.
  destruct (list_find _ targets) as [[i q]|] eqn:E1.
  { intros [= <-]. apply list_find_Some in E1 as (E1&_). by eapply list_elem_of_lookup_2. }
  clear E1. destruct (list_find _ targets) as [[i q]|] eqn:E2.
  { intros [= <-]. apply list_find_Some in E2 as (E2&_). by eapply list_elem_of_lookup_2. }
  destruct targets; [done|]. intros [= <-]. by left.
Qed.

Lemma deliver_loop_keeps s all rest seen n info :
  valid_signal n = true → (∀ p, p ∈ all → is_Some (tasks s !! p)) → keeps s (deliver_loop s all rest seen n info).
Proof.
  intros Hv. revert s seen. induction rest as [|p rest IH]; intros s seen Ht; cbn [deliver_loop]; [reflexivity|].
  case_bool_decide; [by apply IH|]. intros Hok.
  assert (Hd : keeps s (deliver_to_process s (filter (λ q, tgid s q = tgid s p) all) n info)).
  { apply deliver_keeps; [done|]. intros q [_ Hq]%list_elem_of_filter. by apply Ht. }
  destruct (Hd Hok) as [Hok1 P1]. destruct (IH (deliver_to_process s (filter (λ q, tgid s q = tgid s p) all) n info) (seen ++ [tgid s p])) as [Hok2 P2].
  - intros q Hq. eapply keeps_some; [exact Hok|exact Hd|by apply Ht].
  - done.
  - split; [done|by etransitivity].
Qed.

Lemma live_some s p : p ∈ existing_tasks s → is_Some (tasks s !! p).
Proof. unfold existing_tasks. intros [H _]%list_elem_of_filter. by apply bool_decide_unpack in H. Qed.

Lemma kill_keeps s pid sig : keeps s (sys_kill s pid sig).1.
Proof.
  unfold sys_kill. destruct (negb (bool_decide (sig = 0)) && negb (valid_signal sig)) eqn:E0; [reflexivity|].
  match goal with |- context [match ?x with Some _ => _ | None => _ end] => assert (Hx : ∀ ts, x = Some ts → ∀ p, p ∈ ts → is_Some (tasks s !! p)) end.
  { intros ts. repeat case_bool_decide; try destruct (current s); try done; intros [= <-] q Hq;
      apply list_elem_of_filter in Hq as [_ Hq]; by apply live_some. }
  destruct (if bool_decide (0 < pid) then _ else _) as [ts|]; [|reflexivity].
  destruct (bool_decide (ts = [])); [reflexivity|]. destruct (bool_decide (sig = 0)); [reflexivity|].
  apply deliver_loop_keeps; [|by apply Hx]. by apply negb_false_iff in E0.
Qed.

Lemma thread_kill_keeps s tg tid sig : keeps s (thread_kill s tg tid sig).1.
Proof.
  unfold thread_kill. destruct (_ || _); [reflexivity|].
  destruct (negb (bool_decide (sig = 0)) && negb (valid_signal sig)) eqn:E0; [reflexivity|].
  unfold find_live_task. destruct (list_find _ (existing_tasks s)) as [[i p]|] eqn:Ef; [|reflexivity]. cbn [fmap option_fmap option_map snd].
  destruct (_ || _); [reflexivity|]. destruct (bool_decide (sig = 0)); [reflexivity|]. apply queue_signal_keeps.
  - by apply negb_false_iff in E0.
  - apply list_find_Some in Ef as (Ef&_). apply live_some. by eapply list_elem_of_lookup_2.
Qed.

(** ** Exit of the current task *)

Lemma run_next_keeps b s : keeps s (run_next b s).
Proof. unfold run_next. destruct b; [reflexivity|apply qstep_keeps, qstep_emit]. Qed.

Lemma leave_keeps s p : keeps s (pemit (with_current s None) [ReleaseRunningCpu p]).
Proof. intros [Hch Hnd Hpa Hme Hgr Hex Hsi Hac Hre Hpi Hnx]. split; [by split|]. split; simpl; eauto. Qed.

Lemma exit_current_keeps b s code :
  (∀ p, current s = Some p → is_Some (tasks s !! p)) → keeps s (exit_current_and_run_next b s code).
Proof.
  intros Hc Hok. unfold exit_current_and_run_next. destruct (current s) as [p|]; [|by apply run_next_keeps].
  specialize (Hc p eq_refl). destruct (is_kernel s p) eqn:Ek.
  { apply qstep_keeps; [|done]. etransitivity; [|apply qstep_emit]. apply qstep_upd. intros t _. by split. }
  set (s1 := finish_task_exit s p code). assert (Q1 : qstep s s1) by apply qstep_finish.
  set (s2 := if all_user_members_zombie s1 (tgid s1 p) then _ else _).
  assert (H2 : keeps s1 s2).
  { unfold s2. destruct (all_user_members_zombie s1 (tgid s1 p)) eqn:Ez; [|reflexivity]. intros Hok1. apply finish_process_ok; [done|by eapply qstep_some|].
    intros q t Ht Htg Hk. unfold all_user_members_zombie in Ez. apply andb_true_iff in Ez as [_ Ez].
    rewrite forallb_forall in Ez. pose proof (elem_of_user_members s1 q t Hok1 Ht Hk) as Hin. rewrite Htg in Hin.
    specialize (Ez q (proj1 (list_elem_of_In _ _) Hin)). apply bool_decide_eq_true_1 in Ez. unfold status in Ez.
    by rewrite (task_Some _ _ _ Ht) in Ez. }
  revert Hok. change (keeps s (run_next b (pemit (with_current s2 None) [ReleaseRunningCpu p]))).
  etransitivity; [by apply qstep_keeps|]. etransitivity; [exact H2|]. etransitivity; [apply leave_keeps|apply run_next_keeps].
Qed.

Lemma exit_group_keeps b s code :
  (∀ p, current s = Some p → is_Some (tasks s !! p)) → keeps s (exit_thread_group_and_run_next b s code).
Proof.
  intros Hc. unfold exit_thread_group_and_run_next. destruct (current s) as [p|] eqn:Ec; [|apply run_next_keeps].
  destruct (is_kernel s p); [apply exit_current_keeps; by rewrite Ec|]. specialize (Hc p eq_refl).
  etransitivity; [|apply run_next_keeps]. etransitivity; [|apply leave_keeps]. intros Hok.
  set (s1 := foldl _ _ _). assert (Q : qstep s s1) by (apply qstep_foldl; intros; apply qstep_exit_member).
  assert (Q2 : qstep s (pemit s1 [NotifyRunnable])) by (etransitivity; [exact Q|apply qstep_emit]).
  destruct (finish_process_ok (pemit s1 [NotifyRunnable]) p code) as [Hok' Hpe].
  - by eapply qstep_ok.
  - by eapply qstep_some.
  - rewrite (qstep_tgid _ _ _ Q2) by done. by apply (exit_members_dead (Some p) code s).
  - split; [done|]. etransitivity; [by apply qstep_persist|done].
Qed.

Lemma peers_keeps s p : keeps s (terminate_thread_group_peers_for_exec s p).
Proof.
  unfold terminate_thread_group_peers_for_exec. destruct (is_kernel s p); [reflexivity|]. apply qstep_keeps.
  etransitivity; [|apply qstep_emit]. apply qstep_foldl. intros s' m _. unfold terminate_peer.
  destruct (_ && _); [apply qstep_request|reflexivity].
Qed.

(** ** Waiting *)

Lemma reap_keeps s w target : keeps s (reap_zombie_child s w target).1.
Proof.
  intros Hok. unfold reap_zombie_child. destruct (reap_loop_tstep s (user_members s (tgid s w)) target) as [Hts Ht].
  split; [|by apply tstep_persist]. apply (tstep_ok s); [done|done|]. by apply Ht, ps_tree_ok.
Qed.

Lemma event_children_qstep s cs target ws wc cons : qstep s (event_children s cs target ws wc cons).1.
Proof.
  induction cs as [|c cs IH]; cbn [event_children]; [reflexivity|]. destruct (child_matches_wait_target s c target); [|done].
  destruct (group_wait_event _ _ _ _) as [w [e|]]; [|done]. simpl. by apply qstep_group.
Qed.

Lemma event_loop_qstep s owners target ws wc cons : qstep s (event_loop s owners target ws wc cons).1.
Proof.
  revert s. induction owners as [|o owners IH]; intros s; cbn [event_loop]; [reflexivity|].
  pose proof (event_children_qstep s (children (task s o)) target ws wc cons) as Hq.
  destruct (event_children _ _ _ _ _ _) as [s1 [r|]]; [done|]. etransitivity; [exact Hq|apply IH].
Qed.

(** ** Signals of one task *)

Lemma store_signals_qstep s p x :
  (∀ t, tasks s !! p = Some t → sig_ok (signal_state t) → sig_ok x) → qstep s (store_signals s p x).
Proof.
  intros Hx. unfold store_signals. apply qstep_upd. intros t Ht. split; try done. intros [Hs _]. split; simpl; [by apply (Hx t)|].
  unfold hint_of. intros Hp. by rewrite bool_decide_eq_false_2.
Qed.

Lemma actions_of_ok s p : ps_ok s → table_ok (actions_of s p).
Proof.
  intros Hok. unfold actions_of. destruct (action_tables s !! _) as [tb|] eqn:E; simpl; [by apply (ok_actions s Hok (signal_actions (task s p)) tb)|].
  split; [done|]. split; [apply Forall_replicate; simpl; unfold is_mask; lia|].
  unfold cannot_catch_or_ignore. intros n [->%bool_decide_eq_true_1| ->%bool_decide_eq_true_1]%orb_true_iff; done.
Qed.

Lemma set_action_ok tb n a :
  table_ok tb → is_mask (sa_mask a) → cannot_catch_or_ignore n = false ∧ 0 ≤ n ∨ handler a = SIG_DFL → table_ok (set_action tb n a).
Proof.
  intros (Hl&Hf&Hd) Ha Hn. split; [by rewrite <-Hl; apply length_insert|]. split; [by apply Forall_insert|].
  intros k Hk. specialize (Hd k Hk). unfold get_action, set_action in *. unfold SignalActions in *. destruct (decide (Z.to_nat k = Z.to_nat n)) as [E|E].
  - destruct (decide (Z.to_nat n < length tb)%nat).
    + rewrite E, list_lookup_insert_eq by done. simpl. destruct Hn as [[Hn H0]|]; [|done].
      assert (k = n); [|congruence]. assert (0 ≤ k); [|lia]. unfold cannot_catch_or_ignore, SIGKILL, SIGSTOP in Hk.
      apply orb_true_iff in Hk as [->%bool_decide_eq_true_1| ->%bool_decide_eq_true_1]; lia.
    + rewrite list_insert_ge by lia. done.
  - by rewrite list_lookup_insert_ne.
Qed.

Lemma get_action_mask tb n : table_ok tb → is_mask (sa_mask (get_action tb n)).
Proof.
  intros (_&Hf&_). unfold get_action. destruct (tb !! Z.to_nat n) as [a|] eqn:E; simpl; [by eapply Forall_lookup_1 in Hf|].
  unfold is_mask. lia.
Qed.

Lemma with_actions_keeps s k tb : table_ok tb → keeps s (with_actions s (<[k := tb]> (action_tables s))).
Proof.
  intros Htb [Hch Hnd Hpa Hme Hgr Hex Hsi Hac Hre Hpi Hnx]. split; [|split; simpl; eauto]. split; try done.
  cbn [with_actions action_tables]. intros k' tb'. rewrite lookup_insert_Some. intros [[_ <-]|[_ H]]; [done|by eapply Hac].
Qed.

Lemma deliver_signal_keeps s p n : is_Some (tasks s !! p) → valid_signal n = true → keeps s (deliver_signal s p n).1.
Proof.
  intros Hp Hv Hok. pose proof Hp as [t Ht]. pose proof (ok_signals s Hok p t Ht) as [Hsig _].
  unfold deliver_signal. rewrite (task_Some _ _ _ Ht). cbv zeta.
  set (s1 := store_signals s p (clear_pending_signal (signal_state t) n)).
  assert (Q1 : qstep s s1) by (apply store_signals_qstep; intros; by apply clear_pending_ok).
  assert (Hp1 : is_Some (tasks s1 !! p)) by (by eapply qstep_some).
  destruct (_ && _). { apply qstep_keeps; [|done]. etransitivity; [exact Q1|apply qstep_stop]. }
  destruct (bool_decide _).
  { cut (keeps s (terminate_task_group s1 p (signal_exit_code n))); [by auto|].
    etransitivity; [by apply qstep_keeps|by apply terminate_keeps]. }
  destruct (enter_handler _ _ _) as [[sg old] info] eqn:Ee. cbn [fst].
  destruct (enter_handler_ok _ _ _ _ _ _ Hsig Hv (get_action_mask _ _ (actions_of_ok s p Hok)) Ee) as [Hsg _].
  assert (Q2 : qstep s (store_signals s p sg)) by (by apply store_signals_qstep).
  destruct (_ && _); [|by apply qstep_keeps].
  cut (keeps s (with_actions (store_signals s p sg) (<[signal_actions (task (store_signals s p sg) p) :=
    set_action (actions_of (store_signals s p sg) p) n DEFAULT_SIGACTION]> (action_tables (store_signals s p sg))))); [by auto|].
  etransitivity; [by apply qstep_keeps|]. apply with_actions_keeps. apply set_action_ok; [|simpl; unfold is_mask; lia|by right].
  apply actions_of_ok. by eapply qstep_ok.
Qed.

Lemma pending_loop_keeps fuel s p : is_Some (tasks s !! p) → keeps s (pending_loop fuel s p).1.
Proof.
  revert s. induction fuel as [|fuel IH]; intros s Hp Hok; cbn [pending_loop]; [by split|].
  pose proof Hp as [t Ht]. pose proof (ok_signals s Hok p t Ht) as [Hsig _].
  pose proof (next_unblocked_spec _ Hsig) as Hn. rewrite (task_Some _ _ _ Ht).
  destruct (next_unblocked_pending (signal_state t)) as [n|]; [|by split]. destruct Hn as [(Hv&_&_) _].
  destruct (skips _ _); [|by apply deliver_signal_keeps].
  set (s1 := store_signals s p (clear_pending_signal (signal_state t) n)).
  assert (Q1 : qstep s s1) by (apply store_signals_qstep; intros; by apply clear_pending_ok).
  cut (keeps s (pending_loop fuel s1 p).1); [by auto|]. etransitivity; [by apply qstep_keeps|]. apply IH. by eapply qstep_some.
Qed.

Lemma next_delivery_keeps s p : is_Some (tasks s !! p) → keeps s (next_delivery s p).1.
Proof.
  intros Hp. unfold next_delivery. destruct (is_kernel s p); [reflexivity|]. repeat (case_bool_decide; [reflexivity|]).
  by apply pending_loop_keeps.
Qed.

(** ** Clone *)

Lemma task_pid_lt s p t : ps_ok s → tasks s !! p = Some t → p < next_pid s.
Proof.
  intros Hok Ht. destruct (ok_member s Hok p t Ht) as (g&Hg&Hin). by apply (ok_group s Hok _ g Hg).
Qed.

Lemma register_child_ok s pp par bits tid :
  ps_ok s → tasks s !! pp = Some par → t_is_kernel (tcb par) = false → t_status (tcb par) ≠ Zombie →
  let s' := register_child s pp bits tid in
  let c := next_pid s in
  ps_ok s' ∧ persist s s' ∧ tasks s !! c = None ∧ tasks s' = <[c := new_child par pp c bits tid]> (tasks s) ∧
  current s' = current s.
Proof.
  intros Hok Hpp Hk Hz s' c. pose proof Hok as [Hch Hnd Hpa Hme Hgr Hex Hsi Hac Hre Hpi Hnx].
  assert (Hfresh : ∀ q, is_Some (tasks s !! q) → q ≠ c).
  { intros q [t Ht]. pose proof (task_pid_lt s q t Hok Ht). unfold c. lia. }
  assert (Hnone : tasks s !! c = None).
  { destruct (tasks s !! c) eqn:E; [|done]. destruct (Hfresh c); [by eexists|done]. }
  assert (Hgnone : groups s !! c = None).
  { destruct (groups s !! c) eqn:E; [|done]. pose proof (Hpi c ltac:(by eexists)). unfold c in *. lia. }
  set (t := new_child par pp c bits tid) in *. set (tg := t_tgid (tcb t)).
  assert (Htasks : tasks s' = <[c := t]> (tasks s)).
  { unfold s', register_child. rewrite (task_Some _ _ _ Hpp). by destruct (_ && _). }
  destruct (Hme pp par Hpp) as (g0&Hg0&Hin0).
  assert (Hgrp : ∃ g, (g = new_group ∧ tg = c ∨ groups s !! tg = Some g) ∧ process_zombie g = false ∧
    ∀ q, groups s' !! q = if bool_decide (q = tg)
      then Some (mkGroup (members g ++ [c]) (tg_exit_code g) (process_zombie g) (tg_stopped g) (child_wait g))
      else groups s !! q).
  { assert (Hs' : ∀ q, groups s' !! q = if bool_decide (q = tg)
      then (λ g, mkGroup (members g ++ [c]) (tg_exit_code g) (process_zombie g) (tg_stopped g) (child_wait g)) <$>
           ((if has_flag bits CLONE_THREAD then groups s else <[c := new_group]> (groups s)) !! q)
      else (if has_flag bits CLONE_THREAD then groups s else <[c := new_group]> (groups s)) !! q).
    { intros q. unfold s', register_child. rewrite (task_Some _ _ _ Hpp). fold c. fold t. fold tg.
      destruct (_ && _); unfold pemit, add_member; cbn [groups]; rewrite groups_upd; done. }
    assert (Htg : tg = if has_flag bits CLONE_THREAD then t_tgid (tcb par) else c) by (unfold tg, t, new_child; simpl; done).
    destruct (has_flag bits CLONE_THREAD).
    - exists g0. rewrite Htg in *. split; [by right|]. split.
      + destruct (process_zombie g0) eqn:E; [|done]. destruct Hz. by apply (Hex pp par g0).
      + intros q. rewrite Hs'. case_bool_decide as Eq; [|done]. by rewrite Eq, Hg0.
    - exists new_group. rewrite Htg in *. split; [by left|]. split; [done|]. intros q. rewrite Hs'.
      case_bool_decide as Eq; [|by rewrite lookup_insert_ne]. by rewrite Eq, lookup_insert_eq. }
  destruct Hgrp as (g&Hg&Hgz&Hgs).
  assert (Hgm : NoDup (members g) ∧ ∀ q, q ∈ members g → q < c ∧ ∀ tq, tasks s !! q = Some tq → t_tgid (tcb tq) = tg).
  { destruct Hg as [[-> _]|Hg]; [split; [constructor|by intros q ?%elem_of_nil]|]. by apply Hgr. }
  assert (Hrest : next_pid s' = c + 1 ∧ reaper s' = reaper s ∧ current s' = current s ∧
    action_tables s' = if has_flag bits CLONE_SIGHAND then action_tables s else <[c := actions_of s pp]> (action_tables s)).
  { unfold s', register_child. rewrite (task_Some _ _ _ Hpp). destruct (_ && _); done. }
  destruct Hrest as (En&Er&Ecu&Ea).
  assert (Hlk : ∀ q tq, tasks s' !! q = Some tq → q = c ∧ tq = t ∨ q ≠ c ∧ tasks s !! q = Some tq).
  { intros q tq. rewrite Htasks, lookup_insert_Some. intros [[<- <-]|[? ?]]; [by left|by right]. }
  assert (Hold : ∀ q tq, tasks s !! q = Some tq → tasks s' !! q = Some tq).
  { intros q tq Hq. rewrite Htasks, lookup_insert_ne; [done|]. intros <-. congruence. }
  assert (Hppn : pp < c) by (by eapply task_pid_lt).
  split; [split|split; [split|done]].
  - intros p tp d Hp Hd. destruct (Hlk _ _ Hp) as [[_ ->]|[_ Htp]]; [by apply elem_of_nil in Hd|].
    destruct (Hch p tp d Htp Hd) as (td&Htd&Hpd). exists td. split; [by apply Hold|done].
  - intros p tp Hp. destruct (Hlk _ _ Hp) as [[_ ->]|[_ Htp]]; [constructor|by eapply Hnd].
  - intros d td p Hd Hp. destruct (Hlk _ _ Hd) as [[_ ->]|[_ Htd]].
    + unfold t, new_child in Hp. simpl in Hp. destruct (has_flag bits CLONE_THREAD).
      * destruct (Hpa pp par p Hpp Hp) as [tp Htp]. by exists tp; apply Hold.
      * injection Hp as <-. exists par. by apply Hold.
    + destruct (Hpa d td p Htd Hp) as [tp Htp]. by exists tp; apply Hold.
  - intros p tp Hp. rewrite Hgs. destruct (Hlk _ _ Hp) as [[-> ->]|[_ Htp]].
    + rewrite bool_decide_eq_true_2 by done. eexists. split; [done|]. simpl. rewrite elem_of_app. right. by left.
    + destruct (Hme p tp Htp) as (gp&Hgp&Hin). case_bool_decide as E; [|by exists gp]. eexists. split; [done|]. simpl.
      rewrite elem_of_app. left. destruct Hg as [[-> Etg]|Hg]; [|congruence]. rewrite E, Etg in Hgp. congruence.
  - intros tg' g'. rewrite Hgs, En. case_bool_decide as E.
    + subst tg'. intros [= <-]. simpl. destruct Hgm as [Hnm Hm]. split.
      * apply NoDup_app. split; [done|]. split; [|apply NoDup_singleton]. intros q Hq ->%list_elem_of_singleton.
        destruct (Hm c Hq). lia.
      * intros q Hq. apply elem_of_app in Hq as [Hq| ->%list_elem_of_singleton].
        -- destruct (Hm q Hq) as [Hlt Ht]. split; [lia|]. intros tq Htq. destruct (Hlk _ _ Htq) as [[-> _]|[_ ?]]; [lia|by apply Ht].
        -- split; [lia|]. intros tq Htq. destruct (Hlk _ _ Htq) as [[_ ->]|[? _]]; [|done]. done.
    + intros Hg'. destruct (Hgr tg' g' Hg') as [Hnm Hm]. split; [done|]. intros q Hq. destruct (Hm q Hq) as [Hlt Ht].
      split; [fold c in Hlt; lia|]. intros tq Htq. destruct (Hlk _ _ Htq) as [[-> _]|[_ ?]]; [unfold c in Hlt; lia|by apply Ht].
  - intros p tp gp Hp Hgp Hzp Hkp. rewrite Hgs in Hgp. case_bool_decide as E.
    + injection Hgp as <-. simpl in Hzp. congruence.
    + destruct (Hlk _ _ Hp) as [[_ ->]|[_ Htp]]; [done|]. by eapply Hex.
  - intros p tp Hp. destruct (Hlk _ _ Hp) as [[_ ->]|[_ Htp]]; [|by eapply Hsi]. split; [|done].
    apply fork_from_ok. destruct (Hsi pp par Hpp) as [Hs _]. apply (sig_blocked _ Hs).
  - rewrite Ea. destruct (has_flag bits CLONE_SIGHAND); [done|]. intros k tb. rewrite lookup_insert_Some.
    intros [[_ <-]|[_ H]]; [by apply actions_of_ok|by eapply Hac].
  - rewrite Er. intros r Hr. destruct (Hre r Hr) as [tr Htr]. by exists tr; apply Hold.
  - intros q. rewrite Hgs, En. case_bool_decide as E; [|intros Hq; pose proof (Hpi q Hq); unfold c; lia].
    intros _. subst q. destruct Hg as [[_ ->]|Hg]; [|pose proof (Hpi tg ltac:(by eexists)); unfold c; lia].
    pose proof (Hpi _ ltac:(by exists g0)). unfold c. lia.
  - rewrite En. unfold c. lia.
  - intros p tp Hp. exists tp. split; [by apply Hold|done].
  - intros tg' g' Hg'. rewrite Hgs. case_bool_decide as E; [|by exists g'].
    destruct Hg as [[-> Etg]|Hg]; [subst tg'; rewrite Etg in Hg'; congruence|]. subst tg'. eexists. split; [done|].
    simpl. assert (g' = g) as -> by congruence. split; [by eexists|done].
Qed.

(** A failed [clone] leaves a dead weak reference at most. *)
Lemma drop_child_keeps s pp par bits tid :
  ps_ok s → tasks s !! pp = Some par → t_is_kernel (tcb par) = false → t_status (tcb par) ≠ Zombie →
  let s' := drop_child (register_child s pp bits tid) (next_pid s) bits in
  ps_ok s' ∧ persist s s' ∧ tasks s' = tasks s.
Proof.
  intros Hok Hpp Hk Hz s'. destruct (register_child_ok s pp par bits tid Hok Hpp Hk Hz) as (Hok1&_&Hnone&Ht1&_).
  set (c := next_pid s) in *. pose proof Hok as [Hch Hnd Hpa Hme Hgr Hex Hsi Hac Hre Hpi Hnx].
  assert (Ht : tasks s' = tasks s).
  { unfold s', drop_child. cbn [tasks]. rewrite Ht1. by apply delete_insert_id. }
  assert (Hgnone : groups s !! c = None).
  { destruct (groups s !! c) eqn:E; [|done]. pose proof (Hpi c ltac:(by eexists)). unfold c in *. lia. }
  assert (Hg : ∀ q, groups s' !! q = groups s !! q ∨
    ∃ g, groups s !! q = Some g ∧
         groups s' !! q = Some (mkGroup (members g ++ [c]) (tg_exit_code g) (process_zombie g) (tg_stopped g) (child_wait g))).
  { intros q. unfold s', drop_child, register_child. rewrite (task_Some _ _ _ Hpp). fold c.
    assert (Htg : t_tgid (tcb (new_child par pp c bits tid)) = if has_flag bits CLONE_THREAD then t_tgid (tcb par) else c) by done.
    rewrite Htg. destruct (has_flag bits CLONE_THREAD).
    - destruct (_ && _); unfold pemit, add_member; cbn [groups]; rewrite groups_upd; cbn [groups];
        (case_bool_decide as E; [|by left]); destruct (groups s !! q) as [g|]; [right; by exists g|by left|right; by exists g|by left].
    - left. destruct (_ && _); unfold pemit, add_member, upd_group, with_groups; cbn [groups];
        (destruct (decide (q = c)) as [->|]; [by rewrite lookup_delete_eq|by rewrite lookup_delete_ne, lookup_alter_ne, lookup_insert_ne]). }
  assert (Ha : ∀ k tb, action_tables s' !! k = Some tb → action_tables s !! k = Some tb).
  { intros k tb. unfold s', drop_child, register_child. rewrite (task_Some _ _ _ Hpp). fold c.
    destruct (has_flag bits CLONE_SIGHAND), (_ && negb _); unfold pemit, add_member, upd_group, with_groups; cbn [action_tables];
      try done; intros [Hkc H]%lookup_delete_Some; by rewrite lookup_insert_ne in H. }
  assert (Hr : reaper s' = reaper s ∧ next_pid s' = c + 1).
  { unfold s', drop_child, register_child. rewrite (task_Some _ _ _ Hpp). by destruct (_ && _). }
  destruct Hr as [Er En].
  assert (Hback : ∀ q g', groups s' !! q = Some g' → ∃ g, groups s !! q = Some g ∧ process_zombie g' = process_zombie g ∧
    (members g' = members g ∨ members g' = members g ++ [c])).
  { intros q g' Hq. destruct (Hg q) as [E|(g&Hgq&E)]; rewrite E in Hq; [by exists g'; auto|]. injection Hq as <-. exists g. auto. }
  split; [|split; [|done]].
  - split; rewrite ?Ht; try done.
    + intros p t Hp. destruct (Hme p t Hp) as (g&Hgq&Hin). destruct (Hg (t_tgid (tcb t))) as [->|(g2&Hg2&->)]; [by exists g|].
      eexists. split; [done|]. simpl. rewrite elem_of_app. left. congruence.
    + intros tg g' Hg'. destruct (Hback _ _ Hg') as (g&Hgq&_&Em). destruct (Hgr tg g Hgq) as [Hnm Hm]. rewrite En.
      destruct Em as [->| ->]; (split; [|]).
      * done.
      * intros p Hp. destruct (Hm p Hp). split; [unfold c; lia|done].
      * apply NoDup_app. split; [done|]. split; [|apply NoDup_singleton]. intros q Hq ->%list_elem_of_singleton.
        destruct (Hm c Hq). unfold c in *. lia.
      * intros p Hp. apply elem_of_app in Hp as [Hp| ->%list_elem_of_singleton].
        -- destruct (Hm p Hp). split; [unfold c; lia|done].
        -- split; [lia|]. intros t Htc. congruence.
    + intros p t g' Hp Hg' Hzg. destruct (Hback _ _ Hg') as (g&Hgq&E&_). rewrite E in Hzg. by apply (Hex p t g).
    + intros k tb Hk'. apply (Hac k tb). by apply Ha.
    + by rewrite Er.
    + intros p [g' Hg']. destruct (Hback _ _ Hg') as (g&Hgq&_). rewrite En. pose proof (Hpi p ltac:(by eexists)). unfold c. lia.
    + rewrite En. unfold c. lia.
  - split.
    + intros p t Hp. rewrite Ht. eauto.
    + intros tg g Hgq. destruct (Hg tg) as [->|(g2&Hg2&->)]; [by exists g|]. eexists. split; [done|]. simpl.
      assert (g2 = g) as -> by congruence. split; [by eexists|done].
Qed.

(** The child joins its parent's list. *)
Lemma push_child_ok s p c :
  ps_ok s → (∃ tc, tasks s !! c = Some tc ∧ parent tc = Some p) → (∀ q t, tasks s !! q = Some t → c ∉ children t) →
  ps_ok (upd s p (λ t, with_children t (children t ++ [c]))).
Proof.
  intros Hok (tc&Htc&Hpc) Hfree. set (s' := upd _ _ _). assert (Hts : tstep s s') by (by apply tstep_upd).
  apply (tstep_ok s); [done|done|]. destruct (ps_tree_ok _ Hok) as (T1&T2&T3).
  assert (Hl : ∀ q t', tasks s' !! q = Some t' → ∃ t, tasks s !! q = Some t ∧ parent t' = parent t ∧
    children t' = if bool_decide (q = p) then children t ++ [c] else children t).
  { intros q t'. unfold s'. rewrite tasks_upd. case_bool_decide; [intros (t&Ht&->)%fmap_Some|]; eauto. }
  assert (Hr : ∀ q t, tasks s !! q = Some t → ∃ t', tasks s' !! q = Some t' ∧ parent t' = parent t).
  { intros q t Ht. unfold s'. rewrite tasks_upd, Ht. case_bool_decide; by eexists. }
  split; [|split].
  - intros q t' d Hq Hd. destruct (Hl _ _ Hq) as (t&Ht&_&E). rewrite E in Hd.
    assert (Hcase : (d = c ∧ q = p) ∨ d ∈ children t).
    { case_bool_decide; [|by right]. apply elem_of_app in Hd as [?|?%list_elem_of_singleton]; [by right|by left]. }
    destruct Hcase as [[-> ->]|Hdt].
    + destruct (Hr _ _ Htc) as (tc'&?&E'). exists tc'. by rewrite E'.
    + destruct (T1 q t d Ht Hdt) as (td&Htd&Hpd). destruct (Hr _ _ Htd) as (td'&?&E'). exists td'. by rewrite E'.
  - intros q t' Hq. destruct (Hl _ _ Hq) as (t&Ht&_&->). case_bool_decide; [|by eapply T2].
    apply NoDup_app. split; [by eapply T2|]. split; [|apply NoDup_singleton]. intros d Hd ->%list_elem_of_singleton.
    by destruct (Hfree _ _ Ht).
  - intros q t' r Hq Hr'. destruct (Hl _ _ Hq) as (t&Ht&E&_). rewrite E in Hr'. destruct (T3 q t r Ht Hr') as [tr Htr].
    destruct (Hr _ _ Htr) as (?&?&_). by eexists.
Qed.

Lemma clone_keeps cpu s flags tid fork settid :
  (∀ p, current s = Some p → ∃ t, tasks s !! p = Some t ∧ t_is_kernel (tcb t) = false ∧ t_status (tcb t) ≠ Zombie) →
  keeps s (sys_clone cpu s flags tid fork settid).1.
Proof.
  intros Hc Hok. unfold sys_clone. destruct (current s) as [pp|]; [|by split].
  destruct (Hc pp eq_refl) as (par&Hpp&Hk&Hz). set (bits := Z.ldiff flags CSIGNAL).
  destruct (negb (clone_flags_ok bits)); [by split|]. destruct (if _ && _ then _ else _) as [?|e]; [|by split].
  destruct (register_child_ok s pp par bits tid Hok Hpp Hk Hz) as (Hok1&P1&Hnone&Ht1&Hcu).
  destruct settid as [?|e].
  2:{ destruct (drop_child_keeps s pp par bits tid Hok Hpp Hk Hz) as (?&?&_). by split. }
  set (c := next_pid s) in *. set (s1 := register_child s pp bits tid) in *.
  set (s2 := if has_flag bits CLONE_THREAD then s1 else _).
  assert (H2 : keeps s1 s2).
  { unfold s2. destruct (has_flag bits CLONE_THREAD) eqn:Eth; [reflexivity|]. intros _. split; [|by apply tstep_persist, tstep_upd].
    apply push_child_ok; [done| |].
    - eexists. rewrite Ht1, lookup_insert_eq. split; [done|]. unfold new_child. simpl. by rewrite Eth.
    - intros q t. rewrite Ht1, lookup_insert_Some. intros [[<- <-]|[_ Ht]] Hin; [by apply elem_of_nil in Hin|].
      destruct (ok_child s Hok q t c Ht Hin) as (tc&Htc&_). congruence. }
  clearbody s2. destruct (H2 Hok1) as [Hok2 P2].
  assert (Hend : ∀ s3, qstep s2 s3 → ps_ok s3 ∧ persist s s3).
  { intros s3 Q. split; [by eapply qstep_ok|]. etransitivity; [exact P1|]. etransitivity; [exact P2|]. by apply qstep_persist. }
  destruct (has_flag bits CLONE_VFORK); cbn [fst]; [|apply Hend, qstep_emit]. apply Hend.
  assert (Qa : qstep s2 (pemit (prepare_deferred s2 pp ChildExit) [AddTaskFront c])).
  { etransitivity; [|apply qstep_emit]. apply qstep_upd. intros t _. by split. }
  etransitivity; [exact Qa|]. unfold commit_deferred. destruct (negb _); [reflexivity|].
  case_bool_decide; [apply qstep_upd; intros t _; by split|]. case_bool_decide as Er; apply qstep_upd; intros t Ht; [|by split].
  unfold status in Er. rewrite (task_Some _ _ _ Ht) in Er. split; try done. simpl. congruence.
Qed.

End steps.
