(* ===== verification/ProcessCorrect.v ===== *)
(** * Processes and signals are correct

    The steps of the process system and what holds of every state they reach: the process
    tree, the end of a process, the reaping of children, and which signal is delivered. *)

From S2P Require Import Prelude Task Signals Process ProcessInv ProcessSteps.

(** ** Steps *)

(** The last reference to the block of a task that exited goes away. *)
Definition unreferenced (s : PS) (p : Z) : Prop :=
  (∀ q t, tasks s !! q = Some t → parent t ≠ Some p ∧ p ∉ children t) ∧ reaper s ≠ Some p ∧ current s ≠ Some p.
Definition drop_task (s : PS) (p : Z) : PS :=
  mkPS (delete p (tasks s)) (groups s) (action_tables s) (reaper s) (current s) (next_pid s) (registry s) (plog s).

(** The operations of the process system, and what others do to its state: the scheduler
    sets the status of tasks that have not exited and chooses the current one. *)
Inductive proc_step (s : PS) : PS → Prop :=
  | StSpawn kernel affinity : proc_step s (spawn_task s kernel affinity)
  | StReaper p : is_Some (tasks s !! p) → proc_step s (set_orphan_reaper s p)
  | StClone cpu flags tid fork settid :
      (∀ p, current s = Some p → ∃ t, tasks s !! p = Some t ∧ t_is_kernel (tcb t) = false ∧ t_status (tcb t) ≠ Zombie) →
      proc_step s (sys_clone cpu s flags tid fork settid).1
  | StExit foreground code :
      (∀ p, current s = Some p → is_Some (tasks s !! p)) → proc_step s (exit_current_and_run_next foreground s code)
  | StExitGroup foreground code :
      (∀ p, current s = Some p → is_Some (tasks s !! p)) → proc_step s (exit_thread_group_and_run_next foreground s code)
  | StPeers p : proc_step s (terminate_thread_group_peers_for_exec s p)
  | StReap p target : proc_step s (reap_zombie_child s p target).1
  | StEvent p target ws wc consume : proc_step s (take_child_wait_event s p target ws wc consume).1
  | StKill pid sig : proc_step s (sys_kill s pid sig).1
  | StThreadKill tg tid sig : proc_step s (thread_kill s tg tid sig).1
  | StQueue p n info : valid_signal n = true → is_Some (tasks s !! p) → proc_step s (queue_signal s p n info)
  | StDeliver p : is_Some (tasks s !! p) → proc_step s (next_delivery s p).1
  | StMask p how set :
      (∀ m, set = Some m → is_mask m) → proc_step s (set_signals s p (change_mask (signal_state (task s p)) how set).1)
  | StSuspend p m : is_mask m → proc_step s (set_signals s p (suspend_mask (signal_state (task s p)) (sanitize_mask m)))
  | StUnsuspend p : proc_step s (set_signals s p (unsuspend_mask (signal_state (task s p))))
  | StTake p m x r :
      is_mask m → take_pending_from_mask (signal_state (task s p)) m = (x, Some r) → proc_step s (store_signals s p x)
  | StAction p n a :
      valid_signal n = true → cannot_catch_or_ignore n = false → is_mask (sa_mask a) →
      proc_step s (with_actions s (<[signal_actions (task s p) := set_action (actions_of s p) n (kernel_action a)]> (action_tables s)))
  | StResetHandlers p :
      proc_step s (with_actions s (<[signal_actions (task s p) := reset_handlers (actions_of s p)]> (action_tables s)))
  | StSchedule p x :
      status s p ≠ Zombie → x ≠ Zombie → proc_step s (upd s p (set_task_status x))
  | StCurrent p : proc_step s (with_current s p)
  | StDrop p : status s p = Zombie → unreferenced s p → proc_step s (drop_task s p).

Notation reachable := (rtc proc_step no_processes).

(** An exited process stays exited, with its exit code. *)
Definition exits_kept (s s' : PS) : Prop :=
  ∀ tg g, groups s !! tg = Some g → ∃ g', groups s' !! tg = Some g' ∧
    (process_zombie g = true → process_zombie g' = true ∧ tg_exit_code g' = tg_exit_code g).

#[export] Instance exits_kept_preorder : PreOrder exits_kept.
Proof.
  split; [intros s tg g Hg; by exists g|]. intros s1 s2 s3 H1 H2 tg g Hg. destruct (H1 tg g Hg) as (g2&Hg2&Hz2).
  destruct (H2 tg g2 Hg2) as (g3&Hg3&Hz3). exists g3. split; [done|]. intros Hz. destruct (Hz2 Hz) as [Hz' <-]. by apply Hz3.
Qed.

Section correct.
Implicit Types (s : PS) (p c : Z) (t : ProcTask).

Lemma persist_exits s s' : persist s s' → exits_kept s s'.
Proof. intros [_ Hg] tg g Htg. destruct (Hg tg g Htg) as (g'&?&_&?). by exists g'. Qed.

(** ** Every step keeps the invariant *)

Lemma spawn_ok s kernel affinity : ps_ok s → ps_ok (spawn_task s kernel affinity) ∧ exits_kept s (spawn_task s kernel affinity).
Proof.
  intros Hok. pose proof Hok as [Hch Hnd Hpa Hme Hgr Hex Hsi Hac Hre Hpi Hnx]. set (c := next_pid s). set (s' := spawn_task _ _ _).
  assert (Hold : ∀ q t, tasks s !! q = Some t → q ≠ c ∧ tasks s' !! q = Some t).
  { intros q t Ht. pose proof (task_pid_lt s q t Hok Ht) as Hlt. assert (q ≠ c) by (unfold c; lia). split; [done|]. unfold s', spawn_task. simpl.
    by rewrite lookup_insert_ne. }
  assert (Hlk : ∀ q t, tasks s' !! q = Some t → q = c ∧ t = first_task c kernel affinity ∨ q ≠ c ∧ tasks s !! q = Some t).
  { intros q t. unfold s', spawn_task. simpl. rewrite lookup_insert_Some. intros [[<- <-]|[? ?]]; [by left|by right]. }
  assert (Hgs : ∀ q, groups s' !! q = if bool_decide (q = c) then Some (mkGroup [c] 0 false false (mkWait None true None true)) else groups s !! q).
  { intros q. unfold s', spawn_task, add_member. rewrite groups_upd. cbn [groups]. fold c. case_bool_decide as E.
    - by rewrite E, lookup_insert_eq.
    - by rewrite lookup_insert_ne. }
  assert (Hgo : ∀ q g, groups s !! q = Some g → q ≠ c).
  { intros q g Hg. pose proof (Hpi q ltac:(by eexists)). unfold c. lia. }
  split; [split|].
  - intros p t d Hp Hd. destruct (Hlk _ _ Hp) as [[_ ->]|[_ Htp]]; [by apply elem_of_nil in Hd|].
    destruct (Hch p t d Htp Hd) as (td&Htd&?). exists td. split; [by apply Hold|done].
  - intros p t Hp. destruct (Hlk _ _ Hp) as [[_ ->]|[_ Htp]]; [constructor|by eapply Hnd].
  - intros d t p Hd Hp. destruct (Hlk _ _ Hd) as [[_ ->]|[_ Htd]]; [done|]. destruct (Hpa d t p Htd Hp) as [tp Htp].
    exists tp. by apply Hold.
  - intros p t Hp. rewrite Hgs. destruct (Hlk _ _ Hp) as [[-> ->]|[_ Htp]].
    + rewrite bool_decide_eq_true_2 by done. eexists. split; [done|]. by left.
    + destruct (Hme p t Htp) as (g&Hg&Hin). rewrite bool_decide_eq_false_2 by (by eapply Hgo). by exists g.
  - intros tg g. rewrite Hgs. change (next_pid s') with (c + 1). case_bool_decide as E.
    + intros [= <-]. split; [apply NoDup_singleton|]. intros p ->%list_elem_of_singleton. split; [lia|]. intros t Ht.
      destruct (Hlk _ _ Ht) as [[_ ->]|[? _]]; done.
    + intros Hg. destruct (Hgr tg g Hg) as [Hn Hm]. split; [done|]. intros p Hp. destruct (Hm p Hp) as [Hlt Ht].
      split; [unfold c; lia|]. intros t Htp. destruct (Hlk _ _ Htp) as [[-> _]|[_ ?]]; [unfold c in Hlt; lia|by apply Ht].
  - intros p t g Hp Hg Hz Hk. rewrite Hgs in Hg. case_bool_decide; [by injection Hg as <-|].
    destruct (Hlk _ _ Hp) as [[_ ->]|[_ Htp]]; [done|by eapply Hex].
  - intros p t Hp. destruct (Hlk _ _ Hp) as [[_ ->]|[_ Htp]]; [|by eapply Hsi]. split; [apply new_signal_state_ok|done].
  - intros k tb. unfold s', spawn_task. simpl. rewrite lookup_insert_Some. intros [[_ <-]|[_ H]]; [|by eapply Hac].
    split; [done|]. split; [apply Forall_replicate; simpl; unfold is_mask; lia|].
    unfold cannot_catch_or_ignore. intros n [->%bool_decide_eq_true_1| ->%bool_decide_eq_true_1]%orb_true_iff; done.
  - intros r Hr. destruct (Hre r Hr) as [t Ht]. exists t. by apply Hold.
  - intros q. rewrite Hgs. change (next_pid s') with (c + 1). case_bool_decide as E; [intros _; unfold c in *; lia|].
    intros Hq. pose proof (Hpi q Hq). unfold c. lia.
  - change (next_pid s') with (c + 1). unfold c. lia.
  - intros tg g Hg. exists g. rewrite Hgs, bool_decide_eq_false_2 by (by eapply Hgo). done.
Qed.

Lemma drop_ok s p : ps_ok s → unreferenced s p → ps_ok (drop_task s p) ∧ exits_kept s (drop_task s p).
Proof.
  intros [Hch Hnd Hpa Hme Hgr Hex Hsi Hac Hre Hpi Hnx] (Hun&Hnr&_).
  assert (Hl : ∀ q t, tasks (drop_task s p) !! q = Some t → tasks s !! q = Some t) by (by intros q t; unfold drop_task; cbn [tasks]; intros [_ ?]%lookup_delete_Some).
  assert (Hr : ∀ q t, tasks s !! q = Some t → q ≠ p → tasks (drop_task s p) !! q = Some t) by (intros; by apply lookup_delete_Some).
  split; [split; cbn [drop_task groups action_tables reaper next_pid]; eauto|intros tg g Hg; by exists g].
  - intros q t c Hq Hc. destruct (Hch q t c (Hl _ _ Hq) Hc) as (tc&Htc&?). exists tc. split; [|done]. apply Hr; [done|].
    intros ->. by destruct (Hun q t (Hl _ _ Hq)).
  - intros c t q Hc Hq. destruct (Hpa c t q (Hl _ _ Hc) Hq) as [tq Htq]. exists tq. apply Hr; [done|]. intros ->.
    by destruct (Hun c t (Hl _ _ Hc)).
  - intros tg g Hg. destruct (Hgr tg g Hg) as [Hn Hm]. split; [done|]. intros q Hq. destruct (Hm q Hq) as [? Ht]. eauto.
  - intros r Hr'. destruct (Hre r Hr') as [t Ht]. exists t. apply Hr; [done|]. by intros ->.
Qed.

Lemma queue_step s p x : (sig_ok (signal_state (task s p)) → sig_ok x) → qstep s (store_signals s p x).
Proof. intros Hx. apply store_signals_qstep. intros t Ht. by rewrite (task_Some _ _ _ Ht) in Hx. Qed.

Lemma set_step s p x :
  (sig_ok (signal_state (task s p)) → sig_ok x) → pending x = pending (signal_state (task s p)) → qstep s (set_signals s p x).
Proof.
  intros Hx Hp. apply qstep_upd. intros t Ht. rewrite (task_Some _ _ _ Ht) in *. split; try done. intros [Hs Hh].
  split; simpl; [by apply Hx|by rewrite Hp].
Qed.

Lemma change_mask_pending x how set : pending (change_mask x how set).1 = pending x.
Proof. unfold change_mask. destruct set; [|done]. by repeat case_bool_decide. Qed.

Lemma unsuspend_pending x : pending (unsuspend_mask x) = pending x.
Proof. unfold unsuspend_mask. by destruct (suspend_old_mask x). Qed.

Lemma take_pending_ok x m : sig_ok x → is_mask m → sig_ok (take_pending_from_mask x m).1.
Proof.
  intros Hx Hm. unfold take_pending_from_mask. case_bool_decide as E; [done|]. apply clear_pending_ok; [done|].
  apply lowest_signal_spec; [|done]. pose proof (sig_pending _ Hx) as Hp. apply is_mask_bits; [apply Z.land_nonneg; left; apply Hp|].
  intros i Hi. rewrite Z.land_spec, (proj1 (is_mask_bits _ (proj1 Hp)) Hp) by done. done.
Qed.

Lemma reset_handlers_ok tb : table_ok tb → table_ok (reset_handlers tb).
Proof.
  unfold reset_handlers. generalize (seqZ 1 MAX_SIGNAL). intros l. revert tb. induction l as [|n l IH]; intros tb Htb; [done|]. simpl.
  apply IH. case_bool_decide; [|done]. apply set_action_ok; [done|simpl; unfold is_mask; lia|by right].
Qed.

Lemma proc_step_ok s s' : proc_step s s' → ps_ok s → ps_ok s' ∧ exits_kept s s'.
Proof.
  assert (Hkeeps : ∀ s', keeps s s' → ps_ok s → ps_ok s' ∧ exits_kept s s').
  { intros s1 Hk Hok. destruct (Hk Hok). split; [done|by apply persist_exits]. }
  assert (Hq : ∀ s', qstep s s' → ps_ok s → ps_ok s' ∧ exits_kept s s') by (intros s1 Hq; apply Hkeeps; by apply qstep_keeps).
  intros [].
  - by apply spawn_ok.
  - intros [Hch Hnd Hpa Hme Hgr Hex Hsi Hac Hre Hpi Hnx]. split; [split; try done; by intros r [= <-]|intros tg g Hg; by exists g].
  - apply Hkeeps. by apply clone_keeps.
  - apply Hkeeps. by apply exit_current_keeps.
  - apply Hkeeps. by apply exit_group_keeps.
  - apply Hkeeps. by apply peers_keeps.
  - apply Hkeeps. by apply reap_keeps.
  - apply Hq, event_loop_qstep.
  - apply Hkeeps. by apply kill_keeps.
  - apply Hkeeps. by apply thread_kill_keeps.
  - apply Hkeeps. by apply queue_signal_keeps.
  - apply Hkeeps. by apply next_delivery_keeps.
  - apply Hq, set_step; intros; [by apply change_mask_ok|apply change_mask_pending].
  - apply Hq, set_step; intros; [apply suspend_mask_ok; [done|by apply mask_ok_sanitize]|done].
  - apply Hq, set_step; intros; [by apply unsuspend_mask_ok|apply unsuspend_pending].
  - apply Hq, queue_step; intros Hs. change x with (x, Some r).1.
    match goal with E : _ = (x, Some r) |- _ => rewrite <-E end. by apply take_pending_ok.
  - intros Hok. apply Hkeeps; [|done]. apply with_actions_keeps, set_action_ok; [by apply actions_of_ok|by apply is_mask_sanitize|].
    left. split; [done|]. unfold valid_signal in *. destruct (bool_decide (0 < n)) eqn:E; [|done]. apply bool_decide_eq_true_1 in E. lia.
  - intros Hok. apply Hkeeps; [|done]. apply with_actions_keeps, reset_handlers_ok. by apply actions_of_ok.
  - apply Hq, qstep_upd. intros t Ht. unfold status in *. rewrite (task_Some _ _ _ Ht) in *. by split.
  - intros [Hch Hnd Hpa Hme Hgr Hex Hsi Hac Hre Hpi Hnx]. split; [by split|intros tg g Hg; by exists g].
  - intros. by apply drop_ok.
Qed.

Lemma no_processes_ok : ps_ok no_processes.
Proof. split; simpl; try (intros *; rewrite lookup_empty; by intros); try done. Qed.

Lemma steps_ok s s' : rtc proc_step s s' → ps_ok s → ps_ok s' ∧ exits_kept s s'.
Proof.
  induction 1 as [s|s s1 s2 Hs _ IH]; intros Hok; [by split|]. destruct (proc_step_ok _ _ Hs Hok) as [Hok1 E1].
  destruct (IH Hok1) as [Hok2 E2]. split; [done|by etransitivity].
Qed.

Lemma reachable_ok s : reachable s → ps_ok s.
Proof. intros Hr. apply (steps_ok _ _ Hr no_processes_ok). Qed.

(** ** The end of a process *)

Lemma user_members_qstep s s' tg : qstep s s' → user_members s' tg = user_members s tg.
Proof.
  intros Hq. unfold user_members, group, is_kernel.
  assert (Em : members (groups s' !!! tg) = members (groups s !!! tg)).
  { pose proof (qs_groups _ _ Hq tg) as Hg. rewrite !lookup_total_alt. inversion Hg as [g g' (E&_)|]; [done|done]. }
  rewrite Em. apply list_filter_iff. intros p. pose proof (qs_tasks _ _ Hq p) as Hp. unfold task. rewrite !lookup_total_alt.
  destruct (tasks s !! p), (tasks s' !! p); inversion Hp as [? ? Q|]; subst; [|done]. simpl. by rewrite (q_kernel _ _ Q).
Qed.

Lemma take_orphans_all s ms m c : NoDup ms → m ∈ ms → c ∈ children (task s m) → c ∈ (take_orphans s ms).2.
Proof.
  revert s. induction ms as [|x ms IH]; intros s Hnd Hm Hc; [by apply elem_of_nil in Hm|]. cbn [take_orphans].
  apply NoDup_cons in Hnd as [Hx Hnd]. specialize (IH (upd s x (λ t, with_children t [])) Hnd).
  destruct (take_orphans _ ms) as [s' rest]. simpl. apply elem_of_app. destruct (decide (m = x)) as [->|Hne]; [by left|].
  right. apply IH; [by apply elem_of_cons in Hm as [?|?]|]. unfold task in *. rewrite lookup_total_alt, tasks_upd, bool_decide_eq_false_2 by done.
  by rewrite <-lookup_total_alt.
Qed.

Lemma adopt_all_parent r cs s c tc :
  (c ∈ cs ∨ ∀ t, tasks s !! c = Some t → parent t = Some r) → tasks (foldl (adopt r) s cs) !! c = Some tc → parent tc = Some r.
Proof.
  revert s. induction cs as [|x cs IH]; intros s Hc Ht; simpl in Ht.
  { destruct Hc as [Hc|Hc]; [by apply elem_of_nil in Hc|by apply Hc]. }
  apply (IH (adopt r s x)); [|done]. destruct (decide (c ∈ cs)) as [|Hn]; [by left|]. right. intros t Ht1.
  destruct (adopt_lookup _ _ _ _ _ Ht1) as (t0&Ht0&E&_). rewrite E. case_bool_decide as Ex; [done|].
  destruct Hc as [[->|?]%elem_of_cons|Hc]; [done|done|by apply Hc].
Qed.

Lemma abandon_all_parent cs s c tc :
  (c ∈ cs ∨ ∀ t, tasks s !! c = Some t → parent t = None) →
  tasks (foldl (λ s c, upd s c (λ t, with_parent t None)) s cs) !! c = Some tc → parent tc = None.
Proof.
  revert s. induction cs as [|x cs IH]; intros s Hc Ht; simpl in Ht.
  { destruct Hc as [Hc|Hc]; [by apply elem_of_nil in Hc|by apply Hc]. }
  eapply IH; [|exact Ht]. destruct (decide (c ∈ cs)) as [|Hn]; [by left|]. right. intros t. rewrite tasks_upd.
  case_bool_decide as Ex; [by intros (?&_&->)%fmap_Some|]. destruct Hc as [[->|?]%elem_of_cons|Hc]; [done|done|by apply Hc].
Qed.

Lemma reparent_parent s cs c tc : c ∈ cs → tasks (reparent s cs) !! c = Some tc → parent tc = reaper s.
Proof.
  unfold reparent. intros Hc. destruct (reaper s) as [r|]; [apply adopt_all_parent; by left|apply abandon_all_parent; by left].
Qed.

Lemma qstep_children s s' m : qstep s s' → children (task s' m) = children (task s m).
Proof.
  intros Hq. pose proof (qs_tasks _ _ Hq m) as Hm. unfold task. rewrite !lookup_total_alt.
  inversion Hm as [t t' Q|]; [apply (q_children _ _ Q)|done].
Qed.

(** The end of a process that had not ended: its exit code is recorded and every child of
    its threads goes to the reaper. *)
Lemma finish_process_spec s p code :
  ps_ok s → is_Some (tasks s !! p) → group_dead s (tgid s p) → is_process_zombie s (tgid s p) = false →
  (∃ g, groups (finish_process_exit s p code) !! tgid s p = Some g ∧ process_zombie g = true ∧ tg_exit_code g = code) ∧
  ∀ m c tc, m ∈ user_members s (tgid s p) → c ∈ children (task s m) →
    tasks (finish_process_exit s p code) !! c = Some tc → parent tc = reaper s.
Proof.
  intros Hok Hp Hd Hz. destruct Hp as [t Ht]. destruct (ok_member s Hok p t Ht) as (g&Hg&_).
  pose proof (task_Some _ _ _ Ht) as Etask. assert (Etg : tgid s p = t_tgid (tcb t)) by (unfold tgid; by rewrite Etask).
  destruct (mark_process_zombie s (tgid s p) code) as [s1 first] eqn:Em.
  destruct (mark_zombie_ok _ _ _ _ _ Em Hok Hd) as [Hok1 _].
  unfold finish_process_exit. rewrite Em. unfold mark_process_zombie in Em. rewrite Hz in Em. injection Em as Es1 <-.
  assert (Htg1 : tgid s1 p = tgid s p) by (by rewrite <-Es1).
  assert (Hum : user_members s1 (tgid s p) = user_members s (tgid s p)).
  { rewrite <-Es1. unfold user_members, group, is_kernel, task, upd_group, with_groups. simpl.
    rewrite Etg. rewrite !lookup_total_alt, lookup_alter_eq, Hg. done. }
  assert (Hg1 : ∃ g1, groups s1 !! tgid s p = Some g1 ∧ process_zombie g1 = true ∧ tg_exit_code g1 = code).
  { rewrite <-Es1, groups_upd, bool_decide_eq_true_2, Etg, Hg by done. by eexists. }
  assert (Hrest : reaper s1 = reaper s ∧ tasks s1 = tasks s) by (by rewrite <-Es1). destruct Hrest as [Er1 Et1]. clear Es1.
  set (s2 := release_vfork_parent s1 p) in *. assert (Q2 : qstep s1 s2) by apply qstep_vfork.
  assert (Htg2 : tgid s2 p = tgid s p) by (rewrite (qstep_tgid _ _ _ Q2); [done|rewrite Et1; by eexists]).
  rewrite Htg2. set (ms := user_members s2 (tgid s p)). assert (Ems : ms = user_members s (tgid s p)).
  { unfold ms. by rewrite (user_members_qstep _ _ _ Q2). }
  assert (Hnd : NoDup ms) by (rewrite Ems; by apply user_members_nodup). clearbody s2 ms.
  set (s3 := pemit s2 _). assert (Q3 : qstep s2 s3) by apply qstep_emit. clearbody s3.
  set (s4 := detach_loop s3 ms []). assert (Q4 : qstep s3 s4) by apply qstep_detach. clearbody s4.
  set (s5 := release_process_runtime_resources s4 ms). assert (Q5 : qstep s4 s5) by apply qstep_release. clearbody s5.
  set (s6 := notify_child_exit s5 p). assert (Q6 : qstep s5 s6) by apply qstep_notify. clearbody s6.
  assert (Q : qstep s1 s6) by (etransitivity; [exact Q2|]; etransitivity; [exact Q3|]; etransitivity; [exact Q4|];
    etransitivity; [exact Q5|exact Q6]).
  pose proof (qstep_ok _ _ Q Hok1) as Hok6. clear Q2 Q3 Q4 Q5 Q6.
  pose proof (take_orphans_all s6 ms) as Hall. pose proof (take_orphans_tstep s6 ms) as Hts.
  pose proof (take_orphans_ok s6 ms (ps_tree_ok _ Hok6) Hnd) as Ho.
  destruct (take_orphans s6 ms) as [s7 cs]. cbn [fst snd] in *. destruct Ho as (Ht7&Hndc&Hfree&_&_).
  pose proof (tstep_ok _ _ Hts Hok6 Ht7) as Hok7.
  destruct (reparent_ok s7 cs Ht7 Hndc) as [_ Hts8]; [intros c Hc; by apply Hfree|apply Hok7|].
  pose proof (reparent_parent s7 cs) as Hpar. set (s8 := reparent s7 cs) in *. clearbody s8.
  set (s9 := match parent (task s1 p) with Some _ => _ | None => _ end).
  assert (Q9 : qstep s8 s9).
  { unfold s9. destruct (parent _); [|reflexivity]. case_bool_decide; [apply qstep_wake|reflexivity]. }
  clearbody s9. assert (Q10 : qstep s8 (pemit s9 [WakeChildWaiters])) by (etransitivity; [exact Q9|apply qstep_emit]).
  split.
  - destruct Hg1 as (g1&Hg1&Hz1&Hc1). destruct (qstep_group_some _ _ _ _ Q Hg1) as (g6&Hg6&(_&Ez6&Ec6)).
    assert (Hg8 : groups s8 !! tgid s p = Some g6).
    { destruct (ts_rest _ _ Hts8) as [-> _]. by destruct (ts_rest _ _ Hts) as [-> _]. }
    destruct (qstep_group_some _ _ _ _ Q10 Hg8) as (g9&Hg9&(_&Ez9&Ec9)). exists g9. split; [done|]. split; congruence.
  - intros m c tc Hm Hc Htc. destruct (qstep_task_back _ _ _ _ Q10 Htc) as (t8&Ht8&Qt). rewrite (q_parent _ _ Qt).
    rewrite (Hpar c t8); [|apply (Hall m c Hnd); [by rewrite Ems|]|done].
    + destruct (ts_rest _ _ Hts) as (_&_&->&_). by destruct (qs_rest _ _ Q) as (_&->&_).
    + rewrite (qstep_children _ _ _ Q). unfold task. by rewrite Et1.
Qed.


(** What is left of a process that ended: its exit code, no thread that can run, and its
    children with the reaper. *)
Record process_ended s s' (tg code : Z) : Prop := {
  pn_group : ∃ g, groups s' !! tg = Some g ∧ process_zombie g = true ∧ tg_exit_code g = code;
  pn_dead : group_dead s' tg;
  pn_children : ∀ m c tc, m ∈ user_members s tg → c ∈ children (task s m) → tasks s' !! c = Some tc → parent tc = reaper s
}.

Lemma ok_exited_dead s tg g : ps_ok s → groups s !! tg = Some g → process_zombie g = true → group_dead s tg.
Proof. intros Hok Hg Hz p t Ht <- Hk. by apply (ok_exited s Hok p t g). Qed.

(** All members exit, then the process ends. *)
Lemma members_then_process who s p code evs :
  ps_ok s → is_Some (tasks s !! p) → is_process_zombie s (tgid s p) = false →
  process_ended s (finish_process_exit (pemit (foldl (exit_member who code) s (user_members s (tgid s p))) evs) p code) (tgid s p) code.
Proof.
  intros Hok Hp Hz. set (s1 := pemit _ evs).
  assert (Q : qstep s s1) by (etransitivity; [|apply qstep_emit]; apply qstep_foldl; intros; apply qstep_exit_member).
  assert (Ht1 : tgid s1 p = tgid s p) by (by apply qstep_tgid).
  assert (Hp1 : is_Some (tasks s1 !! p)) by (by eapply qstep_some).
  pose proof (qstep_ok _ _ Q Hok) as Hok1. assert (Hd : group_dead s1 (tgid s1 p)).
  { rewrite Ht1. by apply (exit_members_dead who code s). }
  assert (Hz1 : is_process_zombie s1 (tgid s1 p) = false).
  { rewrite Ht1. unfold is_process_zombie, group in *. pose proof (qs_groups _ _ Q (tgid s p)) as Hg. rewrite lookup_total_alt in *.
    destruct (groups s !! tgid s p), (groups s1 !! tgid s p); inversion Hg as [? ? (_&E&_)|]; subst; simpl in *; [congruence|done]. }
  destruct (finish_process_spec s1 p code Hok1 Hp1 Hd Hz1) as [(g&Hg&Hgz&Hgc) Hch].
  destruct (finish_process_ok s1 p code Hok1 Hp1 Hd) as [Hok2 _]. rewrite Ht1 in *. split; [by exists g|by eapply ok_exited_dead|].
  intros m c tc Hm Hc Htc. rewrite (Hch m c tc); [by destruct (qs_rest _ _ Q) as (_&->&_)| |by rewrite (qstep_children _ _ _ Q)|done].
  by rewrite (user_members_qstep _ _ _ Q).
Qed.

Lemma terminate_spec s p t code :
  ps_ok s → tasks s !! p = Some t → t_is_kernel (tcb t) = false → is_process_zombie s (tgid s p) = false →
  process_ended s (terminate_task_group s p code) (tgid s p) code.
Proof.
  intros Hok Ht Hk Hz. unfold terminate_task_group, is_kernel. rewrite (task_Some _ _ _ Ht), Hk.
  apply members_then_process; [done|by eexists|done].
Qed.

(** [SIGKILL] cannot be blocked, caught or ignored. *)
Lemma queue_sigkill s p t info :
  ps_ok s → tasks s !! p = Some t → queue_signal s p SIGKILL info = terminate_task_group s p (signal_exit_code SIGKILL).
Proof.
  intros Hok Ht. unfold queue_signal, queue_signal_with. change (bool_decide (SIGKILL = SIGCONT)) with false. cbv zeta iota.
  destruct (actions_of_ok s p Hok) as (_&_&Hd). rewrite (Hd SIGKILL) by done.
  destruct (ok_signals s Hok p t Ht) as [[(_&Hkill&_) _ _ _] _]. rewrite unblocked_bit by (unfold SIGKILL; lia).
  by rewrite (task_Some _ _ _ Ht), Hkill.
Qed.

Lemma signal_target_in s targets n q : signal_target s targets n = Some q → q ∈ targets.
Proof.
  unfold signal_target. destruct (list_find _ targets) as [[i x]|] eqn:E1.
  { intros [= <-]. apply list_find_Some in E1 as (E1&_). by eapply list_elem_of_lookup_2. }
  clear E1. destruct (list_find _ targets) as [[i x]|] eqn:E2.
  { intros [= <-]. apply list_find_Some in E2 as (E2&_). by eapply list_elem_of_lookup_2. }
  destruct targets; [done|]. intros [= <-]. by left.
Qed.

Lemma signal_target_some s targets n : targets ≠ [] → is_Some (signal_target s targets n).
Proof. intros Hne. unfold signal_target. destruct (list_find _ _) as [[]|]; [by eexists|]. destruct (list_find _ _) as [[]|]; [by eexists|]. destruct targets; [done|by eexists]. Qed.

Lemma filter_all {A} (P : A → Prop) `{!∀ x, Decision (P x)} (l : list A) : (∀ x, x ∈ l → P x) → filter P l = l.
Proof.
  induction l as [|x l IH]; intros Hl; [done|]. rewrite filter_cons, decide_True by (apply Hl; by left). f_equal.
  apply IH. intros y Hy. apply Hl. by right.
Qed.

(** Once the process got the signal, its other threads do not get it again. *)
Lemma deliver_loop_seen s all rest seen n info tg :
  (∀ q, q ∈ rest → tgid s q = tg) → tg ∈ seen → deliver_loop s all rest seen n info = s.
Proof.
  intros Hr Hs. induction rest as [|q rest IH]; cbn [deliver_loop]; [done|]. rewrite bool_decide_eq_true_2 by (by rewrite (Hr q ltac:(by left))).
  apply IH. intros x Hx. apply Hr. by right.
Qed.

Lemma deliver_one_process s targets n info tg q :
  valid_signal n = true → ps_ok s → (∀ p, p ∈ targets → is_Some (tasks s !! p) ∧ tgid s p = tg) →
  signal_target s targets n = Some q → deliver_to_processes s targets n info = queue_signal s q n info.
Proof.
  intros Hv Hok Ht Hq. pose proof (signal_target_in _ _ _ _ Hq) as Hin. unfold deliver_to_processes.
  destruct targets as [|p rest]; [by apply elem_of_nil in Hin|]. cbn [deliver_loop].
  rewrite (proj2 (Ht p ltac:(by left))). rewrite bool_decide_eq_false_2 by (by apply not_elem_of_nil).
  assert (Ef : filter (λ q, tgid s q = tg) (p :: rest) = p :: rest) by (apply filter_all; intros x Hx; by apply Ht).
  rewrite Ef. unfold deliver_to_process. rewrite Hq. apply (deliver_loop_seen _ _ _ _ _ _ tg); [|by left].
  intros x Hx. destruct (Ht x ltac:(by right)) as [[t Htx] Htg].
  destruct (queue_signal_keeps s q n info Hv (proj1 (Ht q Hin)) Hok) as [_ [Hpt _]].
  destruct (Hpt x t Htx) as (t'&Ht'&E&_). unfold tgid in *. rewrite (task_Some _ _ _ Ht'), E. by rewrite (task_Some _ _ _ Htx) in Htg.
Qed.

(** C6: In every reachable state [kill] with [SIGKILL] ends the process it names, whatever its
    threads block, catch or ignore: the process reports termination by signal 9, none of its
    threads can run again, and its children go to the reaper. *)
Theorem sigkill_ends_process s tg p :
  reachable s → 0 < tg → p ∈ group_tasks s tg → is_process_zombie s tg = false →
  ∃ s', sys_kill s tg SIGKILL = (s', Ok 0) ∧ process_ended s s' tg (signal_exit_code SIGKILL) ∧
        wait_status_from_exit_code (signal_exit_code SIGKILL) = SIGKILL.
Proof.
  intros Hr Htg Hp Hz. pose proof (reachable_ok _ Hr) as Hok. eexists. unfold sys_kill.
  change (negb (bool_decide (SIGKILL = 0)) && negb (valid_signal SIGKILL)) with false. cbv iota.
  rewrite (bool_decide_eq_true_2 (0 < tg)) by done. rewrite (bool_decide_eq_false_2 (group_tasks s tg = [])).
  2:{ intros E. rewrite E in Hp. by apply elem_of_nil in Hp. }
  change (bool_decide (SIGKILL = 0)) with false. cbv iota. split; [done|]. split; [|by vm_compute].
  assert (Hall : ∀ q, q ∈ group_tasks s tg → is_kernel s q = false ∧ is_Some (tasks s !! q) ∧ tgid s q = tg).
  { intros q [Hb Hq]%list_elem_of_filter. apply Is_true_true, andb_true_iff in Hb as [E%bool_decide_eq_true_1 Hk%negb_true_iff].
    split; [done|]. split; [by apply live_some|done]. }
  destruct (signal_target_some s (group_tasks s tg) SIGKILL) as [q Hq]; [by intros E; rewrite E in Hp; apply elem_of_nil in Hp|].
  rewrite (deliver_one_process _ _ _ _ tg q); [|done|done|by intros x Hx; apply Hall|done].
  destruct (Hall q (signal_target_in _ _ _ _ Hq)) as (Hk&[t Ht]&Etg). rewrite (queue_sigkill s q t) by done.
  rewrite <-Etg in *. apply (terminate_spec s q t); [done|done| |done]. unfold is_kernel in Hk. by rewrite (task_Some _ _ _ Ht) in Hk.
Qed.

(** ** Reaping *)

Lemma reap_loop_spec s owners target :
  match (reap_loop s owners target).2 with
  | Some (pid, code) => ∃ o i c, o ∈ owners ∧ children (task s o) !! i = Some c ∧ reapable s target c = true ∧
      pid = tgid s c ∧ code = tg_exit_code (group s pid) ∧
      (reap_loop s owners target).1 = upd s o (λ t, with_children t (delete i (children t)))
  | None => (reap_loop s owners target).1 = s ∧ ∀ o c, o ∈ owners → c ∈ children (task s o) → reapable s target c = false
  end.
Proof.
  induction owners as [|o owners IH]; cbn [reap_loop]; [split; [done|by intros ? ? ?%elem_of_nil]|].
  destruct (list_find _ (children (task s o))) as [[i c]|] eqn:E.
  - apply list_find_Some in E as (Ei&Hr&_). exists o, i, c. split_and!; try done. by left.
  - destruct (reap_loop s owners target) as [s' [[pid code]|]]; cbn [fst snd] in *.
    + destruct IH as (o'&i&c&Ho&H). exists o', i, c. split; [by right|done].
    + destruct IH as [-> IH]. split; [done|]. intros o' c Ho Hc. apply elem_of_cons in Ho as [->|Ho]; [|by eapply IH].
      apply list_find_None in E. rewrite Forall_forall in E. apply list_elem_of_In in Hc. specialize (E c).
      destruct (reapable s target c); [|done]. by destruct E; [apply list_elem_of_In|].
Qed.

Lemma task_children_some s o c : c ∈ children (task s o) → ∃ t, tasks s !! o = Some t ∧ c ∈ children t.
Proof.
  unfold task. rewrite lookup_total_alt. destruct (tasks s !! o) as [t|]; simpl; [eauto|by intros ?%elem_of_nil].
Qed.

(** What [reap_zombie_child] takes. *)
Lemma reap_zombie_child_ok s w target :
  ps_ok s →
  match reap_zombie_child s w target with
  | (s', Some (pid, code)) =>
      ∃ o to c g, o ∈ user_members s (tgid s w) ∧ tasks s !! o = Some to ∧ c ∈ children to ∧
        child_matches_wait_target s c target = true ∧ pid = tgid s c ∧
        groups s !! pid = Some g ∧ process_zombie g = true ∧ code = tg_exit_code g ∧
        (∀ q t, tasks s' !! q = Some t → c ∉ children t) ∧
        (∀ q t d, tasks s !! q = Some t → d ∈ children t → d ≠ c → ∃ t', tasks s' !! q = Some t' ∧ d ∈ children t')
  | (s', None) =>
      s' = s ∧ ∀ o c, o ∈ user_members s (tgid s w) → c ∈ children (task s o) →
        child_matches_wait_target s c target = true → is_process_zombie s (tgid s c) = false
  end.
Proof.
  intros Hok. unfold reap_zombie_child.
  pose proof (reap_loop_spec s (user_members s (tgid s w)) target) as Hl.
  destruct (reap_loop _ _ _) as [s' [[pid code]|]]; cbn [fst snd] in Hl.
  2:{ destruct Hl as [-> Hn]. split; [done|]. intros o c Ho Hc Hm. specialize (Hn o c Ho Hc). unfold reapable in Hn. by rewrite Hm in Hn. }
  destruct Hl as (o&i&c&Ho&Hi&Hrp&->&->&->). pose proof (list_elem_of_lookup_2 _ _ _ Hi) as Hc.
  destruct (task_children_some _ _ _ Hc) as (to&Hto&Hcc). apply andb_true_iff in Hrp as [Hm Hz].
  destruct (ok_child s Hok o to c Hto Hcc) as (tc&Htc&Hpc). destruct (ok_member s Hok c tc Htc) as (g&Hg&_).
  assert (Etg : tgid s c = t_tgid (tcb tc)) by (unfold tgid; by rewrite (task_Some _ _ _ Htc)).
  rewrite (task_Some _ _ _ Hto) in Hi. rewrite <-Etg in Hg. unfold is_process_zombie in Hz. rewrite (group_Some _ _ _ Hg) in *.
  pose proof (ok_nodup s Hok o to Hto) as Hnd.
  exists o, to, c, g. split_and!; try done.
  - intros q t. rewrite tasks_upd. case_bool_decide as Eq.
    + subst q. rewrite Hto. intros [= <-]. simpl. intros (j&Hj)%list_elem_of_lookup_1.
      assert (Hj2 : ∃ k, k ≠ i ∧ children to !! k = Some c).
      { destruct (decide (j < i)%nat); [rewrite list_lookup_delete_lt in Hj by done; exists j; split; [lia|done]|].
        rewrite list_lookup_delete_ge in Hj by lia. exists (S j). split; [lia|done]. }
      destruct Hj2 as (k&Hk&Hkc). destruct Hk. by eapply (NoDup_lookup (children to)).
    + intros Ht Hin. destruct (ok_child s Hok q t c Ht Hin) as (tc2&Htc2&Hp2). congruence.
  - intros q t d Ht Hd Hne. rewrite tasks_upd, Ht. case_bool_decide as Eq; [|by exists t]. eexists. split; [done|]. simpl.
    subst q. assert (t = to) as -> by congruence. apply list_elem_of_lookup_1 in Hd as (j&Hj).
    destruct (decide (j < i)%nat).
    + apply (list_elem_of_lookup_2 _ j). by rewrite list_lookup_delete_lt.
    + assert (j ≠ i) by (intros ->; congruence). apply (list_elem_of_lookup_2 _ (j - 1)).
      rewrite list_lookup_delete_ge by lia. by replace (S (j - 1)) with j by lia.
Qed.

(** In every reachable state [reap_zombie_child] takes a matching child of a thread of the
    caller whose process exited, and returns its process id and exit code; afterwards the
    child is in no list of children, so it is reaped once, and every other child is where
    it was.  It takes none only when no matching child has exited. *)
Theorem reap_zombie_child_correct s w target :
  reachable s →
  match reap_zombie_child s w target with
  | (s', Some (pid, code)) =>
      ∃ o to c g, o ∈ user_members s (tgid s w) ∧ tasks s !! o = Some to ∧ c ∈ children to ∧
        child_matches_wait_target s c target = true ∧ pid = tgid s c ∧
        groups s !! pid = Some g ∧ process_zombie g = true ∧ code = tg_exit_code g ∧
        (∀ q t, tasks s' !! q = Some t → c ∉ children t) ∧
        (∀ q t d, tasks s !! q = Some t → d ∈ children t → d ≠ c → ∃ t', tasks s' !! q = Some t' ∧ d ∈ children t')
  | (s', None) =>
      s' = s ∧ ∀ o c, o ∈ user_members s (tgid s w) → c ∈ children (task s o) →
        child_matches_wait_target s c target = true → is_process_zombie s (tgid s c) = false
  end.
Proof. intros Hr. apply reap_zombie_child_ok. by apply reachable_ok. Qed.

(** ** Delivery *)

(** The pending signals of [p] that may be delivered are discarded below [upto]. *)
Definition swept s p (sg : SignalState) s1 (x : SignalState) (upto : Z) : Prop :=
  (s1 = s ∧ x = sg ∨ s1 = store_signals s p x) ∧
  sig_ok x ∧ blocked x = blocked sg ∧ suspend_old_mask x = suspend_old_mask sg ∧
  (∀ k, valid_signal k = true → Z.testbit (pending x) (k - 1) =
    Z.testbit (pending sg) (k - 1) && (Z.testbit (blocked sg) (k - 1) || bool_decide (upto ≤ k))) ∧
  (∀ k, upto ≤ k → k ≤ 64 → pending_info x !! Z.to_nat k = pending_info sg !! Z.to_nat k).

Lemma valid_signal_iff n : valid_signal n = true ↔ 1 ≤ n ≤ 64.
Proof. unfold valid_signal, MAX_SIGNAL. rewrite andb_true_iff, !bool_decide_eq_true. lia. Qed.

Lemma clear_pending_deliverable sg n k : 1 ≤ n → deliverable (clear_pending_signal sg n) k ↔ deliverable sg k ∧ k ≠ n.
Proof.
  intros Hn. unfold deliverable, clear_pending_signal. cbn [pending blocked]. rewrite Z.ldiff_spec, signal_bit_spec by done. split.
  - intros (Hv&[Hp Hb%negb_true_iff%bool_decide_eq_false_1]%andb_true_iff&Hbl). split; [done|]. intros ->. by apply Hb.
  - intros [(Hv&Hp&Hb) Hne]. split; [done|]. split; [|done]. rewrite Hp, bool_decide_eq_false_2; [done|lia].
Qed.

Lemma store_signals_twice s p x y : store_signals (store_signals s p x) p y = store_signals s p y.
Proof.
  unfold store_signals, upd, with_tasks. simpl. f_equal. apply map_eq. intros q.
  destruct (decide (q = p)) as [->|]; [|by rewrite !lookup_alter_ne]. rewrite !lookup_alter_eq. by destruct (tasks s !! p).
Qed.

Lemma store_signals_task s p t x : tasks s !! p = Some t → tasks (store_signals s p x) !! p = Some (with_signals t x (hint_of x)).
Proof. intros Ht. unfold store_signals. by rewrite tasks_upd, bool_decide_eq_true_2, Ht by done. Qed.

Lemma store_signals_actions s p t x : tasks s !! p = Some t → actions_of (store_signals s p x) p = actions_of s p.
Proof. intros Ht. unfold actions_of. by rewrite (task_Some _ _ _ (store_signals_task _ _ _ x Ht)), (task_Some _ _ _ Ht). Qed.

Lemma pending_loop_spec fuel s p t :
  tasks s !! p = Some t → sig_ok (signal_state t) → (∀ k, deliverable (signal_state t) k → 65 - Z.of_nat fuel < k) →
  ∃ s1 x upto, swept s p (signal_state t) s1 x upto ∧
    (∀ k, deliverable (signal_state t) k → k < upto → skips (actions_of s p) k = true) ∧
    (upto = 65 ∧ pending_loop fuel s p = (s1, NothingPending) ∨
     deliverable (signal_state t) upto ∧ skips (actions_of s p) upto = false ∧ pending_loop fuel s p = deliver_signal s1 p upto).
Proof.
  revert s t. induction fuel as [|fuel IH]; intros s t Ht Hsig Hlow.
  { assert (Hnone : ∀ k, ¬ deliverable (signal_state t) k).
    { intros k Hk. specialize (Hlow k Hk). destruct Hk as (Hv%valid_signal_iff&_). lia. }
    exists s, (signal_state t), 65. split; [|split; [|by left]].
    - split; [by left|]. split; [done|]. split; [done|]. split; [done|]. split; [|done]. intros k Hv. destruct (Z.testbit (pending _) _) eqn:Ep; [|done].
      destruct (Z.testbit (blocked _) _) eqn:Eb; [done|]. by destruct (Hnone k).
    - intros k Hk. by destruct (Hnone k). }
  cbn [pending_loop]. rewrite (task_Some _ _ _ Ht). pose proof (next_unblocked_spec _ Hsig) as Hn.
  destruct (next_unblocked_pending (signal_state t)) as [n|].
  2:{ exists s, (signal_state t), 65. split; [|split; [|by left]].
      - split; [by left|]. split; [done|]. split; [done|]. split; [done|]. split; [|done]. intros k Hv. destruct (Z.testbit (pending _) _) eqn:Ep; [|done].
        destruct (Z.testbit (blocked _) _) eqn:Eb; [done|]. by destruct (Hn k).
      - intros k Hk. by destruct (Hn k). }
  destruct Hn as [Hdn Hmin]. pose proof Hdn as (Hv&_&_). apply valid_signal_iff in Hv as Hv'.
  destruct (skips (actions_of s p) n) eqn:Esk.
  2:{ exists s, (signal_state t), n. split; [|split; [|by right]].
      - split; [by left|]. split; [done|]. split; [done|]. split; [done|]. split; [|done]. intros k Hvk. destruct (Z.testbit (pending _) _) eqn:Ep; [|done].
        destruct (Z.testbit (blocked _) _) eqn:Eb; [done|]. simpl. symmetry. apply bool_decide_eq_true_2. by apply Hmin.
      - intros k Hk Hlt. specialize (Hmin k Hk). lia. }
  set (x1 := clear_pending_signal (signal_state t) n). set (s2 := store_signals s p x1).
  assert (Hx1 : sig_ok x1) by (by apply clear_pending_ok).
  pose proof (store_signals_task s p t x1 Ht) as Ht2. destruct (IH s2 (with_signals t x1 (hint_of x1)) Ht2 Hx1) as (s1&x&upto&Hsw&Hskip&Hres).
  { intros k [Hk Hne]%clear_pending_deliverable; [|lia]. specialize (Hmin k Hk). specialize (Hlow n Hdn). lia. }
  unfold s2 in Hskip, Hres. rewrite (store_signals_actions s p t x1 Ht) in Hskip, Hres. fold s2 in Hres. cbn [signal_state with_signals] in *.
  assert (Hup : n < upto).
  { destruct Hres as [[-> _]|[[Hd Hne]%clear_pending_deliverable _]]; [lia| |lia]. specialize (Hmin _ Hd). lia. }
  exists s1, x, upto. split; [|split].
  - destruct Hsw as (Hs&Hxo&Hb&Hsu&Hp&Hi). split.
    { right. destruct Hs as [[-> ->]| ->]; [done|apply store_signals_twice]. }
    split; [done|]. split; [done|]. split; [done|]. split.
    + intros k Hk. rewrite Hp by done. unfold x1, clear_pending_signal. cbn [pending blocked]. rewrite Z.ldiff_spec, signal_bit_spec by lia.
      destruct (decide (k = n)) as [->|Hne].
      * destruct Hdn as (_&_&Hbn). rewrite Hbn, bool_decide_eq_true_2, (bool_decide_eq_false_2 (upto ≤ n)) by lia. by rewrite !andb_false_r.
      * rewrite (bool_decide_eq_false_2 (k - 1 = n - 1)) by lia. by rewrite andb_true_r.
    + intros k Hk1 Hk2. rewrite Hi by done. unfold x1, clear_pending_signal. cbn [pending_info]. apply list_lookup_insert_ne. lia.
  - intros k Hk Hlt. destruct (decide (k = n)) as [->|Hne]; [done|]. apply Hskip; [|done]. apply clear_pending_deliverable; [lia|done].
  - destruct Hres as [[-> Hres]|(Hd&Hsk&Hres)]; [by left|right]. split; [|done]. apply clear_pending_deliverable in Hd; [tauto|lia].
Qed.

(** A stopped process: its parent can see the signal, and no thread of it runs. *)
Lemma stop_spec s p t n :
  ps_ok s → tasks s !! p = Some t → t_is_kernel (tcb t) = false → is_process_zombie s (tgid s p) = false →
  (∃ g, groups (stop_task_group s p n) !! tgid s p = Some g ∧ tg_stopped g = true ∧ child_wait g = mkWait (Some n) false None true) ∧
  ∀ m tm, m ∈ user_members s (tgid s p) → tasks (stop_task_group s p n) !! m = Some tm →
    t_status (tcb tm) = Stopped ∨ t_status (tcb tm) = Zombie.
Proof.
  intros Hok Ht Hk Hz. unfold stop_task_group, is_kernel. rewrite (task_Some _ _ _ Ht), Hk, Hz. cbn [orb].
  destruct (ok_member s Hok p t Ht) as (g&Hg&_). assert (Etg : tgid s p = t_tgid (tcb t)) by (unfold tgid; by rewrite (task_Some _ _ _ Ht)).
  set (s1 := mark_stopped s (tgid s p) n). assert (Etg1 : tgid s1 p = tgid s p) by done.
  assert (Q1 : qstep s s1) by (by apply qstep_group). rewrite Etg1, (user_members_qstep _ _ _ Q1). cbn [pemit tasks groups].
  assert (Hg1 : groups s1 !! tgid s p = Some (mkGroup (members g) (tg_exit_code g) (process_zombie g) true (mkWait (Some n) false None true))).
  { unfold s1, mark_stopped. by rewrite groups_upd, bool_decide_eq_true_2, Etg, Hg by done. }
  clearbody s1. generalize (user_members s (tgid s p)). intros ms. split.
  - assert (Hs : groups (foldl stop_member s1 ms) = groups s1).
    { clear. revert s1. induction ms as [|m ms IH]; intros s1; simpl; [done|]. rewrite IH. unfold stop_member. by case_bool_decide. }
    rewrite Hs, Hg1. by eexists.
  - clear Etg1 Hg1 Q1. assert (Hst : ∀ s1 m ms, (∀ tm, tasks s1 !! m = Some tm → t_status (tcb tm) = Stopped ∨ t_status (tcb tm) = Zombie) →
      ∀ tm, tasks (foldl stop_member s1 ms) !! m = Some tm → t_status (tcb tm) = Stopped ∨ t_status (tcb tm) = Zombie).
    { clear. intros s1 m ms. revert s1. induction ms as [|x ms IH]; intros s1 Hm; simpl; [done|]. apply IH. intros tm.
      unfold stop_member. case_bool_decide; [by apply Hm|]. rewrite tasks_upd. case_bool_decide; [|by apply Hm].
      intros (t0&_&->)%fmap_Some. by left. }
    intros m tm Hm. revert s1. induction ms as [|x ms IH]; intros s1; simpl; [by apply elem_of_nil in Hm|].
    apply elem_of_cons in Hm as [<-|Hm]; [|by apply IH]. apply Hst. intros t0. unfold stop_member. case_bool_decide as E.
    + intros Ht0. right. unfold status in E. by rewrite (task_Some _ _ _ Ht0) in E.
    + rewrite tasks_upd, bool_decide_eq_true_2 by done. intros (t1&_&->)%fmap_Some. by left.
Qed.

Lemma process_ended_qstep s s1 s' tg code : qstep s s1 → process_ended s1 s' tg code → process_ended s s' tg code.
Proof.
  intros Q [Hg Hd Hc]. split; [done|done|]. intros m c tc Hm Hcm Htc. destruct (qs_rest _ _ Q) as (_&<-&_).
  apply (Hc m c tc); [by rewrite (user_members_qstep _ _ _ Q)|by rewrite (qstep_children _ _ _ Q)|done].
Qed.

(** What entering a handler does to the task. *)
Definition handler_entered s p (sg : SignalState) s' (n : Z) (a : KernelSigAction) (old : Z) (info : PendingSignalInfo) : Prop :=
  a = get_action (actions_of s p) n ∧ handler a ≠ SIG_DFL ∧ handler a ≠ SIG_IGN ∧
  old = default (blocked sg) (suspend_old_mask sg) ∧ info = default empty_info (pending_info sg !! Z.to_nat n) ∧
  (∃ t', tasks s' !! p = Some t' ∧ suspend_old_mask (signal_state t') = None ∧
    Z.testbit (pending (signal_state t')) (n - 1) = false ∧
    ∀ k, valid_signal k = true → Z.testbit (blocked (signal_state t')) (k - 1) =
      (Z.testbit old (k - 1) || Z.testbit (sa_mask a) (k - 1) ||
       bool_decide (k = n) && bool_decide (Z.land (sa_flags a) SA_NODEFER = 0)) && negb (cannot_catch_or_ignore k)) ∧
  get_action (actions_of s' p) n = if bool_decide (Z.land (sa_flags a) SA_RESETHAND = 0) then a else DEFAULT_SIGACTION.

Lemma handled_spec s p t s1 x n :
  ps_ok s → tasks s !! p = Some t → swept s p (signal_state t) s1 x n → deliverable (signal_state t) n →
  skips (actions_of s p) n = false → handler (get_action (actions_of s p) n) ≠ SIG_DFL →
  ∃ s' a old info, deliver_signal s1 p n = (s', EnterHandler n a old info) ∧ handler_entered s p (signal_state t) s' n a old info.
Proof.
  intros Hok Ht (Hs&Hxo&Hb&Hsu&Hp&Hi) (Hv&_&_) Hsk Hdfl. pose proof Hv as Hv'. apply valid_signal_iff in Hv'.
  assert (Ht1 : ∃ t1, tasks s1 !! p = Some t1 ∧ signal_state t1 = x ∧ signal_actions t1 = signal_actions t).
  { destruct Hs as [[-> ->]| ->]; [by exists t|]. eexists. split; [by apply store_signals_task|done]. }
  destruct Ht1 as (t1&Ht1&Ex&Ea). assert (Eact : actions_of s1 p = actions_of s p).
  { destruct Hs as [[-> _]| ->]; [done|by eapply store_signals_actions]. }
  unfold deliver_signal. rewrite (task_Some _ _ _ Ht1), Ex, Eact. set (a := get_action (actions_of s p) n) in *.
  rewrite (bool_decide_eq_false_2 (handler a = SIG_DFL)) by done. cbn [andb].
  assert (Hign : handler a ≠ SIG_IGN).
  { intros E. unfold skips in Hsk. fold a in Hsk. by rewrite bool_decide_eq_true_2 in Hsk. }
  assert (Hcc : cannot_catch_or_ignore n = false).
  { destruct (cannot_catch_or_ignore n) eqn:E; [|done]. destruct Hdfl. by apply (actions_of_ok s p Hok). }
  rewrite Hcc. unfold enter_handler. rewrite Hb, Hsu, (Hi n) by lia.
  set (old := default (blocked (signal_state t)) (suspend_old_mask (signal_state t))).
  set (sg' := mkSig _ _ _ None). pose proof (store_signals_task s1 p t1 sg' Ht1) as Ht2.
  do 4 eexists. split; [done|]. split_and!; try done.
  - exists (with_signals t1 sg' (hint_of sg')). split; [by destruct (_ && _)|]. cbn [signal_state with_signals]. split; [done|]. split.
    + unfold sg'. cbn [pending]. by rewrite Z.ldiff_spec, signal_bit_spec, bool_decide_eq_true_2, andb_false_r by lia.
    + intros k Hk%valid_signal_iff. unfold sg'. cbn [blocked]. rewrite sanitize_spec. unfold cannot_catch_or_ignore. f_equal.
      * case_bool_decide as Hnd; rewrite ?Z.lor_spec, ?andb_true_r, ?andb_false_r, ?orb_false_r; [|done].
        rewrite signal_bit_spec by lia. f_equal. apply bool_decide_ext. lia.
      * rewrite <-bool_decide_or. f_equal. apply bool_decide_ext. lia.
  - rewrite andb_true_r. destruct (bool_decide (Z.land (sa_flags a) SA_RESETHAND = 0)); cbn [negb].
    + by rewrite (store_signals_actions s1 p t1), Eact.
    + rewrite (store_signals_actions s1 p t1) by done. rewrite Eact. unfold actions_of at 1. cbn [with_actions action_tables tasks].
      unfold task at 1. cbn [with_actions tasks]. rewrite lookup_insert_eq. cbn [default from_option id].
      destruct (actions_of_ok s p Hok) as (Hl&_). unfold get_action, set_action, SignalActions in *. rewrite list_lookup_insert_eq; [done|lia].
Qed.

(** What [next_delivery] comes to. *)
Lemma next_delivery_ok s p t :
  ps_ok s → tasks s !! p = Some t → t_is_kernel (tcb t) = false → t_status (tcb t) ≠ Zombie →
  let sg := signal_state t in
  let first n := deliverable sg n ∧ skips (actions_of s p) n = false ∧
    ∀ k, deliverable sg k → k < n → skips (actions_of s p) k = true in
  match next_delivery s p with
  | (s', NothingPending) =>
      (∀ k, deliverable sg k → skips (actions_of s p) k = true) ∧
      (∀ t' k, tasks s' !! p = Some t' → ¬ deliverable (signal_state t') k) ∧ ∀ q, q ≠ p → tasks s' !! q = tasks s !! q
  | (s', TaskGone) => ∃ n, first n ∧ handler (get_action (actions_of s p) n) = SIG_DFL ∧
      if default_stops n then
        (∃ g, groups s' !! tgid s p = Some g ∧ tg_stopped g = true ∧ child_wait g = mkWait (Some n) false None true) ∧
        ∀ m tm, m ∈ user_members s (tgid s p) → tasks s' !! m = Some tm → t_status (tcb tm) = Stopped ∨ t_status (tcb tm) = Zombie
      else process_ended s s' (tgid s p) (signal_exit_code n)
  | (s', EnterHandler n a old info) => first n ∧ handler_entered s p sg s' n a old info
  end.
Proof.
  intros Hok Ht Hk Hst sg first. pose proof (ok_signals s Hok p t Ht) as [Hsig Hhint].
  unfold next_delivery, is_kernel, status. rewrite (task_Some _ _ _ Ht), Hk, (bool_decide_eq_false_2 (_ = Zombie)) by done.
  case_bool_decide as Eh.
  { assert (Hp0 : pending sg = 0) by (destruct (decide (pending sg = 0)) as [|Hne]; [done|by destruct (Hhint Hne)]).
    assert (Hnd : ∀ k, ¬ deliverable sg k) by (intros k (_&Hb&_); by rewrite Hp0, Z.bits_0 in Hb).
    split; [intros k Hd; by destruct (Hnd k)|]. split; [|done]. intros t' k Ht'. assert (t' = t) as -> by congruence. apply Hnd. }
  destruct (pending_loop_spec 65 s p t Ht Hsig) as (s1&x&upto&Hsw&Hskip&Hres); [intros k (Hv%valid_signal_iff&_); lia|].
  destruct Hres as [[-> ->]|(Hd&Hsk&->)].
  - destruct Hsw as (Hs&Hxo&Hb&Hsu&Hp&_). split; [|split].
    + intros k Hd. apply Hskip; [done|]. destruct Hd as (Hv%valid_signal_iff&_). lia.
    + intros t' k Ht' (Hv&Hpk&Hbk). assert (signal_state t' = x) as E.
      { destruct Hs as [[-> ->]| ->]; [by rewrite Ht in Ht'; injection Ht' as <-|].
        rewrite (store_signals_task s p t x Ht) in Ht'. by injection Ht' as <-. }
      rewrite E in *. rewrite Hp in Hpk by done. rewrite Hb in Hbk. apply valid_signal_iff in Hv.
      rewrite Hbk, bool_decide_eq_false_2, andb_false_r in Hpk by lia. done.
    + intros q Hq. destruct Hs as [[-> _]| ->]; [done|]. unfold store_signals. by rewrite tasks_upd, bool_decide_eq_false_2.
  - assert (Hfirst : first upto) by (split; [done|]; split; [done|]; intros k Hdk; by apply Hskip).
    assert (Hz : is_process_zombie s (tgid s p) = false).
    { destruct (is_process_zombie s (tgid s p)) eqn:Ez; [|done]. destruct Hst. destruct (ok_member s Hok p t Ht) as (g&Hg&_).
      unfold is_process_zombie, tgid in Ez. rewrite (task_Some _ _ _ Ht), (group_Some _ _ _ Hg) in Ez. by apply (ok_exited s Hok p t g). }
    destruct (decide (handler (get_action (actions_of s p) upto) = SIG_DFL)) as [Hdfl|Hdfl].
    2:{ destruct (handled_spec s p t s1 x upto Hok Ht Hsw Hd Hsk Hdfl) as (s'&a&old&info&->&Hh). done. }
    assert (Q1 : qstep s s1).
    { destruct Hsw as ([[-> _]| ->]&Hxo&_); [reflexivity|]. apply store_signals_qstep. done. }
    destruct (qstep_task _ _ _ _ Q1 Ht) as (t1&Ht1&Qt). assert (Eact : actions_of s1 p = actions_of s p).
    { destruct Hsw as ([[-> _]| ->]&_); [done|by eapply store_signals_actions]. }
    pose proof (ok_signals s1 (qstep_ok _ _ Q1 Hok) p t1 Ht1) as [Hsig1 _].
    unfold deliver_signal. rewrite (task_Some _ _ _ Ht1), Eact, Hdfl. rewrite (bool_decide_eq_true_2 (SIG_DFL = SIG_DFL)) by done. cbn [andb].
    set (s2 := store_signals s1 p _). assert (Q2 : qstep s1 s2).
    { apply store_signals_qstep. intros t0 Ht0 _. apply clear_pending_ok; [done|]. by destruct Hd as (?&_). }
    assert (Q : qstep s s2) by (etransitivity; [exact Q1|exact Q2]). clearbody s2. clear Q1 Q2 t1 Ht1 Qt Eact Hsig1.
    destruct (qstep_task _ _ _ _ Q Ht) as (t2&Ht2&Qt). assert (Etg : tgid s2 p = tgid s p) by (apply (qstep_tgid _ _ _ Q); by eexists).
    assert (Hk2 : t_is_kernel (tcb t2) = false) by (by rewrite (q_kernel _ _ Qt)).
    assert (Hz2 : is_process_zombie s2 (tgid s2 p) = false).
    { rewrite Etg. unfold is_process_zombie, group in *. pose proof (qs_groups _ _ Q (tgid s p)) as Hg. rewrite lookup_total_alt in *.
      destruct (groups s !! tgid s p), (groups s2 !! tgid s p); inversion Hg as [? ? (_&E&_)|]; subst; simpl in *; [congruence|done]. }
    destruct (default_stops upto) eqn:Ed; exists upto; (split; [done|]; split; [done|]); rewrite Ed.
    + pose proof (stop_spec s2 p t2 upto (qstep_ok _ _ Q Hok) Ht2 Hk2 Hz2) as [Hg Hm]. rewrite Etg in *. split; [done|].
      intros m tm Hmm. apply Hm. by rewrite (user_members_qstep _ _ _ Q).
    + apply (process_ended_qstep _ s2); [done|]. rewrite <-Etg. apply (terminate_spec s2 p t2); [by apply (qstep_ok _ _ Q)|done|done|done].
Qed.

(** Entering a handler changes no thread group. *)
Lemma enter_groups s p s' n a old info : next_delivery s p = (s', EnterHandler n a old info) → groups s' = groups s.
Proof.
  unfold next_delivery. destruct (is_kernel s p); [done|]. do 2 (case_bool_decide; [done|]). generalize 65%nat. intros fuel. clear.
  revert s. induction fuel as [|fuel IH]; intros s; cbn [pending_loop]; [done|]. destruct (next_unblocked_pending _) as [k|]; [|done].
  destruct (skips _ _); [intros H; by rewrite (IH _ H)|]. unfold deliver_signal. destruct (_ && _); [done|]. destruct (bool_decide _); [done|].
  destruct (enter_handler _ _ _) as [[sg o] i]. intros [= <- _ _ _ _]. by destruct (_ && _).
Qed.

(** C7: On the way to user mode of a thread in any reachable state, the loop over its pending
    signals ends: it discards the ignored ones and delivers the lowest of the others that is
    not blocked.  A default action stops the process, visibly to its parent, or ends it with
    that signal; a handler is entered with the mask the action asks for, never blocking
    [SIGKILL] or [SIGSTOP].  With nothing to deliver no other task changes and no
    deliverable signal is left. *)
Theorem next_delivery_correct s p t :
  reachable s → tasks s !! p = Some t → t_is_kernel (tcb t) = false → t_status (tcb t) ≠ Zombie →
  let sg := signal_state t in
  let first n := deliverable sg n ∧ skips (actions_of s p) n = false ∧
    ∀ k, deliverable sg k → k < n → skips (actions_of s p) k = true in
  match next_delivery s p with
  | (s', NothingPending) =>
      (∀ k, deliverable sg k → skips (actions_of s p) k = true) ∧
      (∀ t' k, tasks s' !! p = Some t' → ¬ deliverable (signal_state t') k) ∧ ∀ q, q ≠ p → tasks s' !! q = tasks s !! q
  | (s', TaskGone) => ∃ n, first n ∧ handler (get_action (actions_of s p) n) = SIG_DFL ∧
      if default_stops n then
        (∃ g, groups s' !! tgid s p = Some g ∧ tg_stopped g = true ∧ child_wait g = mkWait (Some n) false None true) ∧
        ∀ m tm, m ∈ user_members s (tgid s p) → tasks s' !! m = Some tm → t_status (tcb tm) = Stopped ∨ t_status (tcb tm) = Zombie
      else process_ended s s' (tgid s p) (signal_exit_code n)
  | (s', EnterHandler n a old info) => first n ∧ handler_entered s p sg s' n a old info
  end.
Proof. intros Hr. apply next_delivery_ok. by apply reachable_ok. Qed.


End correct.

(** ** Examples *)

(** Exit codes and signals as [wait4] reports them. *)
Example wait_statuses :
  wait_status_from_exit_code 3 = 0x300 ∧ wait_status_from_exit_code (-1) = 0xff00 ∧
  wait_status_from_exit_code (signal_exit_code SIGSEGV) = SIGSEGV.
Proof. by vm_compute. Qed.

(** A process that calls [exit] with -0x1009 is reported as killed by signal 9. *)
Example exit_looks_like_kill : wait_status_from_exit_code (-0x1009) = SIGKILL.
Proof. by vm_compute. Qed.

(** Task 1 is the reaper; it forks 2, which forks 3. *)
Definition three_tasks : PS :=
  (sys_clone 0 (with_current (sys_clone 0 (with_current (set_orphan_reaper (spawn_task no_processes false 1) 1) (Some 1))
     17 0 (Ok tt) (Ok tt)).1 (Some 2)) 17 0 (Ok tt) (Ok tt)).1.
(** Task 2 has a handler for signal 10 that blocks 9 and 12, and got the signals 17 and 10. *)
Definition with_handler : PS :=
  with_actions three_tasks (<[signal_actions (task three_tasks 2) :=
    set_action (actions_of three_tasks 2) 10 (kernel_action (mkAction 0x4000 0 0 0x900))]> (action_tables three_tasks)).
Definition signalled : PS := (thread_kill (thread_kill with_handler None 2 17).1 None 2 10).1.

Definition live_user (s : PS) : bool :=
  match current s with
  | Some p => match tasks s !! p with
              | Some t => negb (t_is_kernel (tcb t)) && negb (bool_decide (t_status (tcb t) = Zombie))
              | None => false
              end
  | None => true
  end.
Lemma live_user_spec s :
  live_user s = true → ∀ p, current s = Some p → ∃ t, tasks s !! p = Some t ∧ t_is_kernel (tcb t) = false ∧ t_status (tcb t) ≠ Zombie.
Proof.
  unfold live_user. intros Hl p E. rewrite E in Hl. destruct (tasks s !! p) as [t|]; [|done].
  apply andb_true_iff in Hl as [Hk%negb_true_iff Hz%negb_true_iff%bool_decide_eq_false_1]. by exists t.
Qed.

Lemma three_tasks_reachable : reachable three_tasks.
Proof.
  unfold three_tasks. eapply rtc_r; [|apply StClone, live_user_spec; by vm_compute]. eapply rtc_r; [|apply StCurrent].
  eapply rtc_r; [|apply StClone, live_user_spec; by vm_compute]. eapply rtc_r; [|apply StCurrent].
  eapply rtc_r; [|apply StReaper; by eexists]. eapply rtc_r; [|apply StSpawn]. reflexivity.
Qed.

Lemma signalled_reachable : reachable signalled.
Proof.
  unfold signalled. eapply rtc_r; [|apply StThreadKill]. eapply rtc_r; [|apply StThreadKill]. unfold with_handler.
  eapply rtc_r; [|apply StAction; by vm_compute]. apply three_tasks_reachable.
Qed.


Lemma sigkill_ends_process_witness :
  ∃ s', sys_kill signalled 2 SIGKILL = (s', Ok 0) ∧ process_ended signalled s' 2 (-0x1009) ∧ parent (task s' 3) = Some 1.
Proof.
  destruct (sigkill_ends_process signalled 2 2 signalled_reachable) as (s'&Hs&Hp&_); [lia| |by vm_compute|].
  { apply list_elem_of_filter. split; [by vm_compute|]. apply list_elem_of_filter. split; [by vm_compute|].
    assert (registry signalled = [1; 2; 3]) as -> by (by vm_compute). set_solver. }
  exists s'. split; [exact Hs|]. split; [exact Hp|]. change s' with (s', Ok (E := SysErrNo) 0).1. rewrite <-Hs. by vm_compute.
Defined.

Lemma reap_zombie_child_witness :
  ∃ s' c, reap_zombie_child (sys_kill signalled 2 SIGKILL).1 1 AnyChild = (s', Some (2, -0x1009)) ∧
        children (task s' 1) = [3] ∧ 2 = tgid (sys_kill signalled 2 SIGKILL).1 c ∧ ∀ q t, tasks s' !! q = Some t → c ∉ children t.
Proof.
  assert (Hr : reachable (sys_kill signalled 2 SIGKILL).1) by (eapply rtc_r; [apply signalled_reachable|apply StKill]).
  pose proof (reap_zombie_child_correct (sys_kill signalled 2 SIGKILL).1 1 AnyChild Hr) as Hw.
  assert (Hc : children (task (reap_zombie_child (sys_kill signalled 2 SIGKILL).1 1 AnyChild).1 1) = [3]) by (by vm_compute).
  assert (Er : (reap_zombie_child (sys_kill signalled 2 SIGKILL).1 1 AnyChild).2 = Some (2, -0x1009)) by (by vm_compute).
  destruct (reap_zombie_child (sys_kill signalled 2 SIGKILL).1 1 AnyChild) as [s' r]. cbn [fst snd] in *.
  subst r. destruct Hw as (o&to&c&g&_&_&_&_&Hpid&_&_&_&Hgone&_). exists s', c.
  split; [reflexivity|]. split; [exact Hc|]. split; [exact Hpid|exact Hgone].
Defined.

Lemma next_delivery_witness :
  ∃ s' info, next_delivery signalled 2 = (s', EnterHandler 10 (mkAction 0x4000 0 0 0x800) 0 info) ∧
    (∃ t', tasks s' !! 2 = Some t' ∧ Z.testbit (blocked (signal_state t')) 11 = true ∧ Z.testbit (blocked (signal_state t')) 8 = false) ∧
    info = mkInfo SI_TKILL 2 0.
Proof.
  assert (Ht : ∃ t, tasks signalled !! 2 = Some t ∧ t_is_kernel (tcb t) = false ∧ t_status (tcb t) ≠ Zombie).
  { apply live_user_spec; by vm_compute. }
  destruct Ht as (t&Ht&Hk&Hz). pose proof (next_delivery_correct signalled 2 t signalled_reachable Ht Hk Hz) as Hw. cbv zeta in Hw.
  assert (Ed : (next_delivery signalled 2).2 = EnterHandler 10 (mkAction 0x4000 0 0 0x800) 0 (mkInfo SI_TKILL 2 0)) by (by vm_compute).
  destruct (next_delivery signalled 2) as [s' d]. cbn [snd] in Ed. subst d. exists s', (mkInfo SI_TKILL 2 0). split; [done|]. split; [|done].
  destruct Hw as [_ (_&_&_&_&_&(t'&Ht'&_&_&Hb)&_)]. exists t'. split; [done|].
  split; [exact (Hb 12 eq_refl)|exact (Hb 9 eq_refl)].
Defined.
