(* ===== verification/SignalCalls.v ===== *)
(** * Signal system calls and handler frames (src/os/src/syscall/signal.rs)

    The calls that read and write user memory, and the frame a handler runs on: what
    [setup_signal_frame] writes below the stack pointer is what [sys_sigreturn] reads back.
    The frame is modelled byte for byte, with the layout of the [repr(C)] structures. *)

From S2P Require Import Prelude BTree Frame Flags FileDesc ResidentSet MapArea VmaList MemorySet MsInv.
From S2P Require Import Buddy FrameAlloc Sv39 MsInsert Machine MsUnmap MsCow MsFork MsCache MsFault MsBytes UserCopy UserVa.
From S2P Require Import Task Signals Process ProcessInv ProcessSteps ProcessCorrect.

(** ** Registers and structures *)

(** [TrapFrame] of src/patch/polyhal-trap/src/trapframe/riscv64.rs *)
Record TrapFrame := mkTrapFrame {
  tf_x : list Z;
  tf_sstatus : Z;
  tf_sepc : Z;
  tf_fsx : list Z;
  tf_f : list Z;
  tf_fcsr : Z
}.
(** The registers of [TrapFrameArgs]. *)
Definition RA : nat := 1.
Definition SP : nat := 2.
Definition ARG0 : nat := 10.
Definition ARG1 : nat := 11.
Definition ARG2 : nat := 12.

Definition xreg (tf : TrapFrame) (r : nat) : Z := tf_x tf !!! r.
Definition set_xreg (tf : TrapFrame) (r : nat) (v : Z) : TrapFrame :=
  mkTrapFrame (<[r := v]> (tf_x tf)) (tf_sstatus tf) (tf_sepc tf) (tf_fsx tf) (tf_f tf) (tf_fcsr tf).
Definition set_sepc (tf : TrapFrame) (v : Z) : TrapFrame :=
  mkTrapFrame (tf_x tf) (tf_sstatus tf) v (tf_fsx tf) (tf_f tf) (tf_fcsr tf).

(** The bytes of words and of 32-bit integers, and the words of bytes. *)
Definition words (l : list Z) : list Z := l ≫= le_bytes 8.
Definition i32 (x : Z) : list Z := le_bytes 4 (x mod 2 ^ 32).
Fixpoint words_of (n : nat) (bs : list Z) : list Z :=
  match n with O => [] | S n => of_le_bytes (take 8 bs) :: words_of n (drop 8 bs) end.
(** [n] words at byte [off]. *)
Definition words_at (bs : list Z) (off n : nat) : list Z := words_of n (drop off bs).
Definition word_at (bs : list Z) (off : nat) : Z := of_le_bytes (take 8 (drop off bs)).
(** A 32-bit integer, sign extended. *)
Definition i32_at (bs : list Z) (off : nat) : Z :=
  let v := of_le_bytes (take 4 (drop off bs)) in if bool_decide (v < 2 ^ 31) then v else v - 2 ^ 32.

(** [UserSigAction] *)
Definition sigaction_bytes (a : KernelSigAction) : list Z := words [handler a; sa_flags a; restorer a; sa_mask a].
Definition sigaction_of (bs : list Z) : KernelSigAction :=
  mkAction (word_at bs 0) (word_at bs 8) (word_at bs 16) (word_at bs 24).
Definition SIGACTION_SIZE : Z := 32.

(** [user_siginfo]: the 128 bytes of [UserSigInfo]. *)
Definition user_siginfo (info : PendingSignalInfo) (signum : Z) : list Z :=
  i32 signum ++ i32 0 ++ i32 (si_code info) ++ i32 0 ++ i32 (sender_pid info) ++ i32 (sender_uid info) ++ replicate 104 0.

(** [UserMContext]: the general registers with the program counter first, and the
    floating-point ones. *)
Definition user_mcontext_from_trapframe (tf : TrapFrame) : list Z :=
  words (<[0%nat := tf_sepc tf]> (tf_x tf)) ++ words (tf_f tf ++ [tf_fcsr tf] ++ replicate 33 0).

(** [UserUContext]: flags, link, stack, mask, padding before the 16-byte aligned registers.
    Padding keeps whatever the memory of the structure held. *)
Definition user_ucontext_from_trapframe (tf : TrapFrame) (old_mask : Z) (padding : list Z) : list Z :=
  words [0; 0] ++ (words [0] ++ i32 0 ++ i32 0 ++ words [0]) ++ words (old_mask :: replicate 15 0) ++ padding ++
  user_mcontext_from_trapframe tf.

Definition arch_extra_from_trapframe (tf : TrapFrame) : list Z := words (tf_sstatus tf :: tf_fsx tf).

Definition SIGNAL_FRAME_MAGIC : Z := 0x574c4c5f53494746.
Definition FRAME_SIZE : Z := 1152.
(** [offset_of!] of [siginfo] and [ucontext] *)
Definition SIGINFO_OFFSET : Z := 32.
Definition UCONTEXT_OFFSET : Z := 160.

(** [SignalFrame]; [padding] are the two gaps of its layout. *)
Definition signal_frame (tf : TrapFrame) (signum old_mask : Z) (info : PendingSignalInfo) (padding : list Z * list Z) : list Z :=
  words [SIGNAL_FRAME_MAGIC; FRAME_SIZE; signum; old_mask] ++ user_siginfo info signum ++
  user_ucontext_from_trapframe tf old_mask padding.1 ++ arch_extra_from_trapframe tf ++ padding.2.

(** [signal_trampoline_addr] *)
Definition signal_trampoline_addr : Z := USER_STACK_TOP.
Definition SIGNAL_TRAMPOLINE_CODE : list Z := [0x93; 0x08; 0xb0; 0x08; 0x73; 0; 0; 0; 0x73; 0; 0x10; 0].

(** [restore_trapframe], from the bytes of a frame *)
Definition restore_trapframe (bs : list Z) : TrapFrame :=
  let gregs := words_at bs 336 32 in
  let fpregs := words_at bs 592 66 in
  mkTrapFrame (<[0%nat := 0]> gregs) (word_at bs 1120) (gregs !!! 0%nat) (words_at bs 1128 2) (take 32 fpregs) (fpregs !!! 32%nat).

Section calls.
Context {PT F : Type} `{HPT : PageTableOps PT, HF : FrameService F, HL : FileLayer F}.
Implicit Types (st : St F) (ps : PS).
Abbreviation Mem := (option (MemorySet PT)).

(** [install_signal_trampoline] *)
Definition install_signal_trampoline st (ms : MemorySet PT) : outcome (St F * MemorySet PT * result unit SysErrNo) :=
  let start := signal_trampoline_addr in
  let write st ms := Ret (write_bytes st ms start SIGNAL_TRAMPOLINE_CODE) in
  if is_mapped ms start then write st ms
  else
    '(sm, r) ←! insert_framed_area st ms start (start + PAGE_SIZE) (Z.lor PTE_U (Z.lor PTE_R (Z.lor PTE_X PTE_V)));
    match r with Err e => Ret (sm, Err e) | Ok _ => write sm.1 sm.2 end.

(** [setup_signal_frame] *)
Definition setup_signal_frame st (mem : Mem) (tf : TrapFrame) (signum : Z) (action : KernelSigAction) (old_mask : Z)
    (info : PendingSignalInfo) (padding : list Z * list Z) : outcome (St F * Mem * result TrapFrame SysErrNo) :=
  match checked_sub (xreg tf SP) FRAME_SIZE with
  | None => Ret (st, mem, Err EFAULT)
  | Some a =>
      let frame_addr := Z.ldiff a 0xf in
      '(sm, r) ←! copy_to_user st mem frame_addr (signal_frame tf signum old_mask info padding);
      match r with
      | Err e => Ret (sm, Err e)
      | Ok _ =>
          let tf := set_sepc (set_xreg tf SP frame_addr) (handler action) in
          let tf := set_xreg tf RA
            (if negb (bool_decide (Z.land (sa_flags action) SA_RESTORER = 0)) && negb (bool_decide (restorer action = 0))
             then restorer action else signal_trampoline_addr) in
          let tf := set_xreg tf ARG0 signum in
          let tf := set_xreg tf ARG1
            (if bool_decide (Z.land (sa_flags action) SA_SIGINFO = 0) then 0 else frame_addr + SIGINFO_OFFSET) in
          Ret (sm, Ok (set_xreg tf ARG2 (frame_addr + UCONTEXT_OFFSET)))
      end
  end.

(** [handle_pending_for_task]: the flag says whether the task goes on to user mode. *)
Definition handle_pending_for_task ps st (mem : Mem) (tf : TrapFrame) (pid : Z) (padding : list Z * list Z)
    : outcome (PS * St F * Mem * TrapFrame * bool) :=
  match next_delivery ps pid with
  | (ps, NothingPending) => Ret (ps, st, mem, tf, true)
  | (ps, TaskGone) => Ret (ps, st, mem, tf, false)
  | (ps, EnterHandler signum action old_mask info) =>
      '(sm, r) ←! setup_signal_frame st mem tf signum action old_mask info padding;
      match r with
      | Ok tf => Ret (ps, sm.1, sm.2, tf, true)
      | Err _ => Ret (terminate_task_group ps pid (signal_exit_code SIGSEGV), sm.1, sm.2, tf, false)
      end
  end.

Definition handle_pending_for_user ps st (mem : Mem) (tf : TrapFrame) (padding : list Z * list Z)
    : outcome (PS * St F * Mem * TrapFrame * bool) :=
  match current ps with
  | None => Ret (ps, st, mem, tf, true)
  | Some pid =>
      if bool_decide (status ps pid = Zombie) then Ret (ps, st, mem, tf, false)
      else handle_pending_for_task ps st mem tf pid padding
  end.

Definition handle_synchronous_fault_for_user ps st (mem : Mem) (tf : TrapFrame) (signum : Z) (padding : list Z * list Z)
    : outcome (PS * St F * Mem * TrapFrame * bool) :=
  match current ps with
  | None => Ret (ps, st, mem, tf, false)
  | Some pid =>
      if is_kernel ps pid || bool_decide (status ps pid = Zombie) || negb (valid_signal signum) then Ret (ps, st, mem, tf, false)
      else if bool_decide (handler (get_action (actions_of ps pid) signum) = SIG_IGN) ||
              negb (signal_is_unblocked (signal_state (task ps pid)) signum) then
        Ret (terminate_task_group ps pid (signal_exit_code signum), st, mem, tf, false)
      else handle_pending_for_user (queue_signal ps pid signum (mkInfo SI_KERNEL 0 0)) st mem tf padding
  end.

(** [sys_sigreturn]; [ctx] is the trap frame of the call, if there is one. *)
Definition sys_sigreturn ps st (mem : Mem) (ctx : option TrapFrame) : outcome (PS * St F * Mem * result TrapFrame SysErrNo) :=
  match ctx with
  | None => Ret (ps, st, mem, Err EINVAL)
  | Some tf =>
      '(sm, r) ←! copy_from_user st mem (xreg tf SP) FRAME_SIZE;
      match r with
      | Err e => Ret (ps, sm.1, sm.2, Err e)
      | Ok bs =>
          if negb (bool_decide (word_at bs 0 = SIGNAL_FRAME_MAGIC)) || negb (bool_decide (word_at bs 8 = FRAME_SIZE)) then
            Ret (ps, sm.1, sm.2, Err EINVAL)
          else
            match current ps with
            | None => Ret (ps, sm.1, sm.2, Err ESRCH)
            | Some pid =>
                let sg := signal_state (task ps pid) in
                let sg' := mkSig (sanitize_mask (word_at bs 200)) (pending sg) (pending_info sg) (suspend_old_mask sg) in
                Ret (set_signals ps pid sg', sm.1, sm.2, Ok (restore_trapframe bs))
            end
      end
  end.

(** [copy_object_to_user] when the pointer is not null. *)
Definition copy_out st (mem : Mem) (addr : Z) (bytes : list Z) : outcome (St F * Mem * result unit SysErrNo) :=
  if bool_decide (addr = 0) then Ret (st, mem, Ok tt) else copy_to_user st mem addr bytes.

Definition sys_sigaction ps st (mem : Mem) (signum act oldact sigset_size : Z) : outcome (PS * St F * Mem * result Z SysErrNo) :=
  if negb (valid_signal signum) || cannot_catch_or_ignore signum || negb (bool_decide (sigset_size = KERNEL_SIGSET_SIZE)) then
    Ret (ps, st, mem, Err EINVAL)
  else
    '(sm, new) ←! (if bool_decide (act = 0) then Ret (st, mem, Ok None)
                   else '(sm, r) ←! copy_from_user st mem act SIGACTION_SIZE;
                        Ret (sm, match r with Ok bs => Ok (Some (kernel_action (sigaction_of bs))) | Err e => Err e end));
    match new with
    | Err e => Ret (ps, sm.1, sm.2, Err e)
    | Ok new =>
        match current ps with
        | None => Ret (ps, sm.1, sm.2, Err ESRCH)
        | Some pid =>
            let old_action := get_action (actions_of ps pid) signum in
            '(sm, r) ←! copy_out sm.1 sm.2 oldact (sigaction_bytes old_action);
            match r with
            | Err e => Ret (ps, sm.1, sm.2, Err e)
            | Ok _ =>
                let ps := match new with
                          | Some a => with_actions ps (<[signal_actions (task ps pid) := set_action (actions_of ps pid) signum a]> (action_tables ps))
                          | None => ps
                          end in
                Ret (ps, sm.1, sm.2, Ok 0)
            end
        end
    end.

Definition sys_sigprocmask ps st (mem : Mem) (how set oldset sigset_size : Z) : outcome (PS * St F * Mem * result Z SysErrNo) :=
  if negb (bool_decide (sigset_size = KERNEL_SIGSET_SIZE)) then Ret (ps, st, mem, Err EINVAL)
  else
    match current ps with
    | None => Ret (ps, st, mem, Err ESRCH)
    | Some pid =>
        '(sm, new) ←! (if bool_decide (set = 0) then Ret (st, mem, Ok None)
                       else '(sm, r) ←! copy_from_user st mem set KERNEL_SIGSET_SIZE;
                            Ret (sm, match r with Ok bs => Ok (Some (of_le_bytes bs)) | Err e => Err e end));
        match new with
        | Err e => Ret (ps, sm.1, sm.2, Err e)
        | Ok new =>
            let sg := signal_state (task ps pid) in
            '(sm, r) ←! copy_out sm.1 sm.2 oldset (le_bytes 8 (blocked sg));
            match r with
            | Err e => Ret (ps, sm.1, sm.2, Err e)
            | Ok _ =>
                let '(sg', r) := change_mask sg how new in
                Ret (set_signals ps pid sg', sm.1, sm.2, r)
            end
        end
    end.

(** [read_sigset] *)
Definition read_sigset st (mem : Mem) (addr : Z) : outcome (St F * Mem * result Z SysErrNo) :=
  '(sm, r) ←! copy_from_user st mem addr KERNEL_SIGSET_SIZE;
  Ret (sm, match r with Ok bs => Ok (sanitize_mask (of_le_bytes bs)) | Err e => Err e end).

(** [TimeSpec] and [duration_us_from_timespec]; the words are signed. *)
Definition isize_of (x : Z) : Z := if bool_decide (x < 2 ^ 63) then x else x - 2 ^ 64.
Definition duration_us_from_timespec (tv_sec tv_nsec : Z) : result Z SysErrNo :=
  if bool_decide (tv_sec < 0) || bool_decide (tv_nsec < 0) || bool_decide (1000000000 ≤ tv_nsec) then Err EINVAL
  else Ok (Z.min (Z.min (tv_sec * 1000000) USIZE_MAX + (tv_nsec + 999) / 1000) USIZE_MAX).

(** What a call that waits comes to: it is done, or sleeps for the given time. *)
Inductive WaitStep : Set := Finished (r : result Z SysErrNo) | Sleep.

(** The start of [sys_sigtimedwait]: the mask and the time to wait. *)
Definition sigtimedwait_enter st (mem : Mem) (set timeout sigset_size : Z)
    : outcome (St F * Mem * result (Z * option Z) SysErrNo) :=
  if bool_decide (set = 0) then Ret (st, mem, Err EFAULT)
  else if negb (bool_decide (sigset_size = KERNEL_SIGSET_SIZE)) then Ret (st, mem, Err EINVAL)
  else
    '(sm, m) ←! read_sigset st mem set;
    match m with
    | Err e => Ret (sm, Err e)
    | Ok mask =>
        if bool_decide (timeout = 0) then Ret (sm, Ok (mask, None))
        else
          '(sm, r) ←! copy_from_user sm.1 sm.2 timeout 16;
          Ret (sm, match r with
                   | Err e => Err e
                   | Ok bs =>
                       match duration_us_from_timespec (isize_of (word_at bs 0)) (isize_of (word_at bs 8)) with
                       | Err e => Err e
                       | Ok d => Ok (mask, Some d)
                       end
                   end)
    end.

(** One turn of its loop. *)
Definition sigtimedwait_turn ps st (mem : Mem) (mask info : Z) : outcome (PS * St F * Mem * WaitStep) :=
  match current ps with
  | None => Ret (ps, st, mem, Finished (Err ESRCH))
  | Some pid =>
      match take_pending_from_mask (signal_state (task ps pid)) mask with
      | (_, None) => Ret (ps, st, mem, Sleep)
      | (sg', Some (signum, pi)) =>
          '(sm, r) ←! copy_out st mem info (user_siginfo pi signum);
          Ret (store_signals ps pid sg', sm.1, sm.2, Finished (match r with Ok _ => Ok signum | Err e => Err e end))
      end
  end.

(** The start of [sys_sigsuspend], a turn of its loop, and its end when the sleep fails. *)
Definition sigsuspend_enter ps st (mem : Mem) (mask sigset_size : Z) : outcome (PS * St F * Mem * result unit SysErrNo) :=
  if bool_decide (mask = 0) then Ret (ps, st, mem, Err EFAULT)
  else if negb (bool_decide (sigset_size = KERNEL_SIGSET_SIZE)) then Ret (ps, st, mem, Err EINVAL)
  else
    '(sm, m) ←! read_sigset st mem mask;
    match m with
    | Err e => Ret (ps, sm.1, sm.2, Err e)
    | Ok m =>
        match current ps with
        | None => Ret (ps, sm.1, sm.2, Err ESRCH)
        | Some pid => Ret (set_signals ps pid (suspend_mask (signal_state (task ps pid)) m), sm.1, sm.2, Ok tt)
        end
    end.
Definition sigsuspend_turn ps (pid : Z) : WaitStep :=
  if has_deliverable_pending (actions_of ps pid) (signal_state (task ps pid)) then Finished (Err EINTR) else Sleep.
Definition sigsuspend_fail ps (pid : Z) : PS := set_signals ps pid (unsuspend_mask (signal_state (task ps pid))).

End calls.

(** ** The layout of the frame *)

Lemma length_le_bytes n x : length (le_bytes n x) = n.
Proof. revert x. induction n as [|n IH]; intros x; simpl; [done|by rewrite IH]. Qed.

Lemma of_le_bytes_le n x : 0 ≤ x < 2 ^ (8 * Z.of_nat n) → of_le_bytes (le_bytes n x) = x.
Proof.
  revert x. induction n as [|n IH]; intros x Hx; cbn [le_bytes of_le_bytes]; [simpl in Hx; lia|].
  rewrite IH; [pose proof (Z.div_mod x 256); lia|]. replace (8 * Z.of_nat (S n)) with (8 * Z.of_nat n + 8) in Hx by lia.
  rewrite Z.pow_add_r in Hx by lia. change (2 ^ 8) with 256 in Hx. split; [apply Z.div_pos; lia|apply Z.div_lt_upper_bound; lia].
Qed.

Lemma length_words l : length (words l) = (8 * length l)%nat.
Proof. induction l as [|x l IH]; [done|]. unfold words in *. cbn [mbind list_bind]. rewrite length_app, length_le_bytes, IH. simpl. lia. Qed.

Lemma words_of_words n l rest : length l = n → Forall is_mask l → words_of n (words l ++ rest) = l.
Proof.
  intros <- Hl. induction Hl as [|x l Hx Hl IH]; [done|]. unfold words in *. cbn [length words_of mbind list_bind].
  rewrite <-app_assoc, take_app_length', drop_app_length' by (by rewrite length_le_bytes). rewrite IH. f_equal.
  apply (of_le_bytes_le 8). exact Hx.
Qed.

Lemma drop_skip {A} (a b : list A) off k : length a = k → (k ≤ off)%nat → drop off (a ++ b) = drop (off - k) b.
Proof. intros <- Hk. rewrite drop_app_ge; [done|lia]. Qed.

(** The registers of a task in user mode. *)
Record tf_ok (tf : TrapFrame) : Prop := {
  tfo_x : length (tf_x tf) = 32%nat ∧ Forall is_mask (tf_x tf) ∧ tf_x tf !! 0%nat = Some 0;
  tfo_f : length (tf_f tf) = 32%nat ∧ Forall is_mask (tf_f tf);
  tfo_fsx : length (tf_fsx tf) = 2%nat ∧ Forall is_mask (tf_fsx tf);
  tfo_words : is_mask (tf_sstatus tf) ∧ is_mask (tf_sepc tf) ∧ is_mask (tf_fcsr tf)
}.
Definition padding_ok (padding : list Z * list Z) : Prop := length padding.1 = 8%nat ∧ length padding.2 = 8%nat.

Section layout.
Context (tf : TrapFrame) (signum old_mask : Z) (info : PendingSignalInfo) (padding : list Z * list Z).
Hypotheses (Htf : tf_ok tf) (Hpad : padding_ok padding).

Definition fpregs_of : list Z := tf_f tf ++ [tf_fcsr tf] ++ replicate 33 0.

Lemma frame_flat :
  signal_frame tf signum old_mask info padding =
  words [SIGNAL_FRAME_MAGIC; FRAME_SIZE; signum; old_mask] ++ user_siginfo info signum ++
  (words [0; 0] ++ words [0] ++ i32 0 ++ i32 0 ++ words [0]) ++ words (old_mask :: replicate 15 0) ++ padding.1 ++
  words (<[0%nat := tf_sepc tf]> (tf_x tf)) ++ words fpregs_of ++ words (tf_sstatus tf :: tf_fsx tf) ++ padding.2.
Proof.
  unfold signal_frame, user_ucontext_from_trapframe, user_mcontext_from_trapframe, arch_extra_from_trapframe, fpregs_of.
  by rewrite <-!app_assoc.
Qed.

Lemma siginfo_len : length (user_siginfo info signum) = 128%nat.
Proof. unfold user_siginfo, i32. rewrite !length_app, !length_le_bytes, length_replicate. done. Qed.

Lemma ucontext_head_len : length (words [0; 0] ++ words [0] ++ i32 0 ++ i32 0 ++ words [0]) = 40%nat.
Proof. done. Qed.

Lemma gregs_len : length (words (<[0%nat := tf_sepc tf]> (tf_x tf))) = 256%nat.
Proof. rewrite length_words, length_insert. by destruct Htf as [(->&_) _ _ _]. Qed.

Lemma fpregs_len : length (words fpregs_of) = 528%nat.
Proof. rewrite length_words. unfold fpregs_of. rewrite !length_app, length_replicate. by destruct Htf as [_ (->&_) _ _]. Qed.

Lemma extra_len : length (words (tf_sstatus tf :: tf_fsx tf)) = 24%nat.
Proof. rewrite length_words. simpl. by destruct Htf as [_ _ (->&_) _]. Qed.

Lemma frame_len : length (signal_frame tf signum old_mask info padding) = 1152%nat.
Proof.
  rewrite frame_flat, !length_app, gregs_len, fpregs_len, extra_len, siginfo_len, !length_words. destruct Hpad as [-> ->]. done.
Qed.

(** The parts of the frame that [sys_sigreturn] reads. *)
Lemma frame_magic : word_at (signal_frame tf signum old_mask info padding) 0 = SIGNAL_FRAME_MAGIC.
Proof. reflexivity. Qed.
Lemma frame_declares_size : word_at (signal_frame tf signum old_mask info padding) 8 = FRAME_SIZE.
Proof. reflexivity. Qed.

Lemma frame_sigmask : is_mask old_mask → word_at (signal_frame tf signum old_mask info padding) 200 = old_mask.
Proof.
  intros Ho. unfold word_at. rewrite frame_flat.
  rewrite (drop_skip (words [_; _; _; _]) _ 200 32), (drop_skip (user_siginfo _ _) _ _ 128) by (first [apply siginfo_len|done|lia]).
  rewrite (drop_skip _ _ _ 40) by (first [apply ucontext_head_len|simpl; lia]). cbn [Nat.sub]. rewrite drop_0.
  unfold words at 1. cbn [mbind list_bind]. rewrite <-app_assoc, take_app_length' by (by rewrite length_le_bytes).
  apply (of_le_bytes_le 8). exact Ho.
Qed.

Lemma drop_to_gregs rest :
  drop 336 (words [SIGNAL_FRAME_MAGIC; FRAME_SIZE; signum; old_mask] ++ user_siginfo info signum ++
  (words [0; 0] ++ words [0] ++ i32 0 ++ i32 0 ++ words [0]) ++ words (old_mask :: replicate 15 0) ++ padding.1 ++ rest) = rest.
Proof.
  rewrite (drop_skip (words [_; _; _; _]) _ 336 32), (drop_skip (user_siginfo _ _) _ _ 128) by (first [apply siginfo_len|done|lia]).
  rewrite (drop_skip _ _ _ 40) by (first [apply ucontext_head_len|simpl; lia]).
  rewrite (drop_skip (words (_ :: _)) _ _ 128) by (first [by rewrite length_words|simpl; lia]).
  rewrite (drop_skip padding.1 _ _ 8) by (first [apply Hpad|simpl; lia]). by cbn [Nat.sub]; rewrite drop_0.
Qed.

Lemma frame_tail off : drop (336 + off) (signal_frame tf signum old_mask info padding) =
  drop off (words (<[0%nat := tf_sepc tf]> (tf_x tf)) ++ words fpregs_of ++ words (tf_sstatus tf :: tf_fsx tf) ++ padding.2).
Proof. rewrite frame_flat, <-drop_drop, drop_to_gregs. done. Qed.

Lemma frame_restored : restore_trapframe (signal_frame tf signum old_mask info padding) = tf.
Proof.
  destruct Htf as [(Hxl&Hxm&Hx0) (Hfl&Hfm) (Hsl&Hsm) (Hst&Hpc&Hcsr)]. unfold restore_trapframe.
  assert (Eg : words_at (signal_frame tf signum old_mask info padding) 336 32 = <[0%nat := tf_sepc tf]> (tf_x tf)).
  { unfold words_at. pose proof (frame_tail 0) as Et. rewrite drop_0 in Et. cbn [Nat.add] in Et. rewrite Et. apply words_of_words; [by rewrite length_insert|]. by apply Forall_insert. }
  assert (Ef : words_at (signal_frame tf signum old_mask info padding) 592 66 = fpregs_of).
  { unfold words_at. change 592%nat with (336 + 256)%nat. rewrite frame_tail, (drop_skip _ _ _ 256) by (first [apply gregs_len|lia]). rewrite Nat.sub_diag, drop_0.
    apply words_of_words; [unfold fpregs_of; by rewrite !length_app, length_replicate, Hfl|].
    unfold fpregs_of. apply Forall_app. split; [done|]. constructor; [done|]. apply Forall_replicate. by vm_compute. }
  assert (Ee : ∀ off, drop (1120 + off) (signal_frame tf signum old_mask info padding) = drop off (words (tf_sstatus tf :: tf_fsx tf) ++ padding.2)).
  { intros off. change (1120 + off)%nat with (336 + (784 + off))%nat. rewrite frame_tail, (drop_skip _ _ _ 256) by (first [apply gregs_len|lia]).
    rewrite (drop_skip _ _ _ 528) by (first [apply fpregs_len|lia]). f_equal. lia. }
  rewrite Eg, Ef. unfold word_at, words_at. change 1128%nat with (1120 + 8)%nat. pose proof (Ee 0%nat) as E0. rewrite drop_0 in E0. change (1120 + 0)%nat with 1120%nat in E0.
  rewrite E0, (Ee 8%nat).
  unfold words at 1 2. cbn [mbind list_bind]. fold (words (tf_fsx tf)). rewrite <-!app_assoc, take_app_length', drop_app_length' by (by rewrite length_le_bytes).
  rewrite (of_le_bytes_le 8) by exact Hst. rewrite words_of_words by done. rewrite list_lookup_total_insert_eq by lia.
  unfold fpregs_of. rewrite take_app_length' by done. destruct tf as [x ss pc fx f fc]. cbn in *. f_equal.
  - rewrite list_insert_insert_eq. by apply list_insert_id.
  - rewrite list_lookup_total_alt, lookup_app_r by lia. by rewrite Hfl.
Qed.

End layout.

(** ** A handler runs and returns *)

Section returns.
Context {PT F : Type} `{HPT : PageTableOps PT, !PageTableLaws PT,
                        HF : FrameService F, !FrameServiceLaws F, HL : FileLayer F, !FileLayerLaws F}.
Implicit Types (st : St F) (ms : MemorySet PT) (ps : PS) (X : list Z).

(** What the handler finds: its arguments, an aligned stack that leaves the frame alone, and
    the place to return to. *)
Definition handler_starts (tf tf1 : TrapFrame) (n : Z) (a : KernelSigAction) : Prop :=
  tf_sepc tf1 = handler a ∧ xreg tf1 ARG0 = n ∧ xreg tf1 SP mod 16 = 0 ∧ 0 ≤ xreg tf1 SP ≤ xreg tf SP - FRAME_SIZE ∧
  xreg tf1 ARG1 = (if bool_decide (Z.land (sa_flags a) SA_SIGINFO = 0) then 0 else xreg tf1 SP + SIGINFO_OFFSET) ∧
  xreg tf1 ARG2 = xreg tf1 SP + UCONTEXT_OFFSET ∧
  xreg tf1 RA = (if negb (bool_decide (Z.land (sa_flags a) SA_RESTORER = 0)) && negb (bool_decide (restorer a = 0))
                 then restorer a else signal_trampoline_addr) ∧
  ∀ r, (13 ≤ r ∨ 3 ≤ r < 10)%nat → xreg tf1 r = xreg tf r.

(** A return through a frame that is still in memory: the registers and the mask come back. *)
Definition returns_to ps st ms X (pid : Z) (tf tf2 : TrapFrame) (old : Z) : Prop :=
  ∃ ps' st' ms' r, sys_sigreturn ps st (Some ms) (Some tf2) = Ret (ps', st', Some ms', r) ∧ prepared st st' ms ms' X ∧
    match r with
    | Ok tf3 => tf3 = tf ∧ blocked (signal_state (task ps' pid)) = old ∧
                pending (signal_state (task ps' pid)) = pending (signal_state (task ps pid))
    | Err e => ps' = ps ∧ copy_from_user st (Some ms) (xreg tf2 SP) FRAME_SIZE = Ret (st', Some ms', Err e)
    end.

Lemma ldiff_15 x : 0 ≤ x → Z.ldiff x 15 = x - x mod 16.
Proof.
  intros Hx. change 15 with (Z.ones 4). rewrite Z.ldiff_ones_r by lia. rewrite Z.shiftl_mul_pow2, Z.shiftr_div_pow2 by lia.
  change (2 ^ 4) with 16. lia.
Qed.

Lemma mask_ok_fixed m : mask_ok m → sanitize_mask m = m.
Proof.
  intros (Hm&H1&H2). apply Z.bits_inj. intros i. rewrite sanitize_spec. case_bool_decide as E; [|by rewrite andb_true_r].
  destruct E as [->| ->]; [by rewrite H1|by rewrite H2].
Qed.

Lemma sigreturn_ok ps st ms X pid t tf tf2 n old info padding :
  ms_inv st ms (file_cache (st_frames st) ++ X) → zlen X ≤ 2 ^ 31 → 0 ≤ xreg tf2 SP →
  current ps = Some pid → tasks ps !! pid = Some t → tf_ok tf → padding_ok padding → mask_ok old →
  reads st ms (xreg tf2 SP) (signal_frame tf n old info padding) → returns_to ps st ms X pid tf tf2 old.
Proof.
  intros Hi HX Hsp Hcur Ht Htf Hpad Hold Hreads. unfold returns_to, sys_sigreturn, copy_from_user.
  rewrite (bool_decide_eq_false_2 (FRAME_SIZE = 0)) by done. rewrite andb_true_r.
  case_bool_decide as E0. { eexists ps, st, ms, (Err EFAULT). split; [done|]. split; [by apply prepared_refl|done]. }
  destruct (copy_from_user_ok st ms X (xreg tf2 SP) FRAME_SIZE Hi HX Hsp) as (st'&ms'&r&->&Hp&Hr); [done|]. cbn [fst snd].
  destruct r as [bs|e]; [|eexists ps, st', ms', (Err e); split; [done|split; [done|done]]].
  destruct Hr as (Hlen&Hbs&_). apply (reads_kept _ _ _ _ _ _ _ Hp) in Hreads.
  assert (Hbf : bs = signal_frame tf n old info padding).
  { eapply reads_unique; [exact Hbs|exact Hreads|]. rewrite frame_len by done. unfold zlen, FRAME_SIZE in Hlen. lia. }
  subst bs. rewrite frame_magic, frame_declares_size, !bool_decide_eq_true_2 by done. cbn [negb orb].
  rewrite Hcur. do 4 eexists. split; [done|]. split; [done|]. split; [by apply frame_restored|].
  unfold set_signals, task. rewrite lookup_total_alt, tasks_upd, bool_decide_eq_true_2, Ht by done.
  cbn [fmap option_fmap option_map from_option default id with_signals signal_state blocked pending].
  rewrite frame_sigmask by (done || apply Hold). split; [by apply mask_ok_fixed|]. by rewrite (lookup_total_correct _ _ _ Ht).
Qed.

Lemma xreg_set tf r v r' : (r < length (tf_x tf))%nat → xreg (set_xreg tf r v) r' = if bool_decide (r' = r) then v else xreg tf r'.
Proof.
  intros Hr. unfold xreg, set_xreg. cbn [tf_x]. case_bool_decide as E; [subst r'; by apply list_lookup_total_insert_eq|].
  by apply list_lookup_total_insert_ne.
Qed.

Lemma xlen_set tf r v : length (tf_x (set_xreg tf r v)) = length (tf_x tf).
Proof. unfold set_xreg. cbn [tf_x]. apply length_insert. Qed.

(** The registers a handler starts with. *)
Lemma xreg_handler tf sp pc ra a0 a1 a2 r :
  length (tf_x tf) = 32%nat →
  xreg (set_xreg (set_xreg (set_xreg (set_xreg (set_sepc (set_xreg tf SP sp) pc) RA ra) ARG0 a0) ARG1 a1) ARG2 a2) r =
  if bool_decide (r = ARG2) then a2 else if bool_decide (r = ARG1) then a1 else if bool_decide (r = ARG0) then a0
  else if bool_decide (r = RA) then ra else if bool_decide (r = SP) then sp else xreg tf r.
Proof.
  intros Hl. unfold SP, RA, ARG0, ARG1, ARG2.
  assert (Hs : ∀ tf v pc, length (tf_x (set_sepc (set_xreg tf 2 v) pc)) = length (tf_x tf)) by (intros; apply xlen_set).
  rewrite !xreg_set by (rewrite ?xlen_set, ?Hs, Hl; lia).
  change (xreg (set_sepc (set_xreg tf 2 sp) pc) r) with (xreg (set_xreg tf 2 sp) r). by rewrite xreg_set by (rewrite Hl; lia).
Qed.

Lemma setup_ok st ms X tf n a old info padding :
  ms_inv st ms (file_cache (st_frames st) ++ X) → zlen X ≤ 2 ^ 31 → tf_ok tf →
  ∃ st1 ms1 r, setup_signal_frame st (Some ms) tf n a old info padding = Ret (st1, Some ms1, r) ∧
    match r with
    | Ok tf1 => handler_starts tf tf1 n a ∧ copied_in st st1 ms ms1 X (xreg tf1 SP) (signal_frame tf n old info padding) (Ok tt)
    | Err _ => ms_inv st1 ms1 (file_cache (st_frames st1) ++ X)
    end.
Proof.
  intros Hi HX Htf. unfold setup_signal_frame. destruct (tfo_x _ Htf) as (Hxl&Hxm&_).
  destruct (checked_sub (xreg tf SP) FRAME_SIZE) as [b|] eqn:Eb.
  2:{ eexists st, ms, (Err EFAULT). split; [done|done]. }
  assert (Hb : 0 ≤ b ∧ b = xreg tf SP - FRAME_SIZE) by (unfold checked_sub in Eb; case_bool_decide; [injection Eb as <-; lia|done]).
  change 0xf with 15. rewrite (ldiff_15 b) by lia. set (sp := b - b mod 16).
  assert (Hsp : 0 ≤ sp ≤ b ∧ sp mod 16 = 0) by (unfold sp; lia). unfold copy_to_user.
  assert (Hfr : signal_frame tf n old info padding ≠ []) by done.
  rewrite (bool_decide_eq_false_2 (_ = [])) by done. rewrite andb_true_r.
  case_bool_decide as E0. { eexists st, ms, (Err EFAULT). split; [done|done]. }
  destruct (copy_to_user_ok st ms X sp (signal_frame tf n old info padding) Hi HX) as (st1&ms1&r&->&Hc); [lia|]. cbn [fst snd].
  destruct r as [[]|e]; eexists st1, ms1, _; (split; [done|]).
  - unfold handler_starts. rewrite !xreg_handler by done. split; [|exact Hc].
    split; [done|]. split; [done|]. split; [apply Hsp|]. split; [simpl; lia|]. split; [done|]. split; [done|]. split; [done|].
    intros r Hr. rewrite xreg_handler by done. unfold SP, RA, ARG0, ARG1, ARG2. by rewrite !bool_decide_eq_false_2 by lia.
  - destruct Hc as (st0&Hp&[->|(_&Hi1&Hcache&_)]); [apply Hp|]. by rewrite Hcache.
Qed.


End returns.

(** ** A concrete delivery *)

Definition demo_tf : TrapFrame :=
  mkTrapFrame (0 :: 7 :: 0x11808 :: seqZ 3 29) 0x6020 0x10400 [5; 6] (seqZ 100 32) 1.
Definition demo_padding : list Z * list Z := (replicate 8 0xaa, replicate 8 0).

Lemma masks_checked l : forallb (λ x, bool_decide (0 ≤ x) && bool_decide (x < 2 ^ 64)) l = true → Forall is_mask l.
Proof.
  intros H. apply Forall_forall. intros x Hx%list_elem_of_In. rewrite forallb_forall in H. specialize (H x Hx).
  apply andb_true_iff in H as [H1%bool_decide_eq_true_1 H2%bool_decide_eq_true_1]. by split.
Qed.

Lemma demo_tf_ok : tf_ok demo_tf.
Proof.
  split; split_and?; first [by apply masks_checked; vm_compute|vm_compute; reflexivity|split; vm_compute; [discriminate|reflexivity]].
Qed.

Definition demo_delivery := handle_pending_for_task signalled demo_st0 (Some demo_lazy_ms) demo_tf 2 demo_padding.

(** The handler at 0x4000 runs with signal 10, and its return restores the registers. *)
Example demo_return :
  match demo_delivery with
  | Ret (ps, st, mem, tf, true) =>
      bool_decide (tf_sepc tf = 0x4000) && bool_decide (xreg tf ARG0 = 10) &&
      match sys_sigreturn ps st mem (Some tf) with
      | Ret (_, _, _, Ok tf) => bool_decide (tf_x tf = tf_x demo_tf) && bool_decide (tf_sepc tf = 0x10400)
      | _ => false
      end
  | _ => false
  end = true.
Proof. vm_compute. reflexivity. Qed.

