(* ===== verification/WaitCalls.v ===== *)
(** * Waiting for children (src/os/src/syscall/process.rs)

    [wait4] and [waitid] over user memory.  A call that has to wait is a sequence of turns:
    each turn finishes the call or sleeps until a child changes state. *)

From S2P Require Import Prelude BTree Frame Flags FileDesc ResidentSet MapArea VmaList MemorySet MsInv.
From S2P Require Import Buddy FrameAlloc Sv39 MsInsert Machine MsUnmap MsCow MsFork MsCache MsFault MsBytes UserCopy UserVa.
From S2P Require Import Task Signals Process ProcessInv ProcessSteps ProcessCorrect SignalCalls.

Definition WNOHANG : Z := 0x1.
Definition WSTOPPED : Z := 0x2.
Definition WEXITED : Z := 0x4.
Definition WCONTINUED : Z := 0x8.
Definition WNOWAIT : Z := 0x1000000.
Definition WAITID_SUPPORTED : Z := Z.lor WEXITED (Z.lor WSTOPPED (Z.lor WCONTINUED (Z.lor WNOHANG WNOWAIT))).
Definition P_ALL : Z := 0.
Definition P_PID : Z := 1.
Definition P_PGID : Z := 2.
Definition CLD_KILLED : Z := 2.
Definition CLD_STOPPED : Z := 5.
Definition CLD_CONTINUED : Z := 6.

(** The target of [sys_wait4_thread_group_inner]. *)
Definition wait4_target (pid : Z) : option WaitTarget :=
  if bool_decide (pid = -1) || bool_decide (pid = 0) then Some AnyChild
  else if bool_decide (0 < pid) then Some (Tgid pid)
  else None.

Definition waitid_target (ps : PS) (idtype id : Z) : result WaitTarget SysErrNo :=
  if bool_decide (idtype = P_ALL) then Ok AnyChild
  else if bool_decide (idtype = P_PID) then Ok (Tgid id)
  else if bool_decide (idtype = P_PGID) then
    if bool_decide (id = 0) then
      match current ps with Some p => Ok (Pgid (t_pgid (tcb (task ps p)))) | None => Err ESRCH end
    else Ok (Pgid id)
  else Err EINVAL.

(** [UserWaitSigInfo]: 128 bytes. *)
Definition wait_siginfo (code pid status : Z) : list Z :=
  i32 SIGCHLD ++ i32 0 ++ i32 code ++ i32 0 ++ i32 pid ++ i32 0 ++ i32 status ++ replicate 100 0.
Definition waitid_siginfo (pid exit_code : Z) : list Z :=
  if bool_decide (exit_code < SIGNAL_EXIT_CODE_BASE) then wait_siginfo CLD_KILLED pid (SIGNAL_EXIT_CODE_BASE - exit_code)
  else wait_siginfo CLD_EXITED pid (Z.land exit_code 0xff).
Definition child_event_siginfo (pid : Z) (event : ChildWaitEvent) : list Z :=
  match event with
  | EvStopped signum => wait_siginfo CLD_STOPPED pid signum
  | EvContinued signum => wait_siginfo CLD_CONTINUED pid signum
  end.

Section calls.
Context {PT F : Type} `{HPT : PageTableOps PT, HF : FrameService F, HL : FileLayer F}.
Implicit Types (st : St F) (ps : PS).
Abbreviation Mem := (option (MemorySet PT)).

(** A turn of [wait4]: the child is reaped before its status is written. *)
Definition wait4_turn ps st (mem : Mem) (waiter : Z) (target : WaitTarget) (status : Z) : outcome (PS * St F * Mem * WaitStep) :=
  match reap_zombie_child ps waiter target with
  | (ps, Some (cpid, exit_code)) =>
      '(sm, r) ←! (if bool_decide (status = 0) then Ret (st, mem, Ok tt)
                   else write_i32 st mem status (wait_status_from_exit_code exit_code));
      Ret (ps, sm.1, sm.2, Finished (match r with Ok _ => Ok cpid | Err e => Err e end))
  | (ps, None) =>
      Ret (ps, st, mem, if has_matching_child ps waiter target then Sleep else Finished (Err ECHILD))
  end.

(** The call up to its first sleep; after every sleep, interrupted or not, another
    [wait4_turn] follows. *)
Definition sys_wait4 ps st (mem : Mem) (pid status options : Z) : outcome (PS * St F * Mem * WaitStep) :=
  match current ps with
  | None => Ret (ps, st, mem, Finished (Err ESRCH))
  | Some waiter =>
      match wait4_target pid with
      | None => Ret (ps, st, mem, Finished (Err ECHILD))
      | Some target =>
          '(r, step) ←! wait4_turn ps st mem waiter target status;
          Ret (r, match step with
                  | Sleep => if bool_decide (Z.land options WNOHANG = 0) then Sleep else Finished (Ok 0)
                  | _ => step
                  end)
      end
  end.

(** A turn of [waitid]: stop and continue events first, then exited children. *)
Definition waitid_turn ps st (mem : Mem) (waiter : Z) (target : WaitTarget) (infop options : Z) : outcome (PS * St F * Mem * WaitStep) :=
  let nowait := has_flag options WNOWAIT in
  let finish ps bytes :=
    '(sm, r) ←! copy_to_user st mem infop bytes;
    Ret (ps, sm.1, sm.2, Finished (match r with Ok _ => Ok 0 | Err e => Err e end)) in
  match take_child_wait_event ps waiter target (has_flag options WSTOPPED) (has_flag options WCONTINUED) (negb nowait) with
  | (ps, Some (cpid, event)) => finish ps (child_event_siginfo cpid event)
  | (ps, None) =>
      let '(ps, child) :=
        if has_flag options WEXITED then
          if nowait then (ps, peek_zombie_child ps waiter target) else reap_zombie_child ps waiter target
        else (ps, None) in
      match child with
      | Some (cpid, exit_code) => finish ps (waitid_siginfo cpid exit_code)
      | None => Ret (ps, st, mem, if has_matching_child ps waiter target then Sleep else Finished (Err ECHILD))
      end
  end.

Definition sys_waitid ps st (mem : Mem) (idtype id infop options : Z) : outcome (PS * St F * Mem * WaitStep) :=
  let fail e := Ret (ps, st, mem, Finished (Err e)) in
  if bool_decide (infop = 0) then fail EFAULT
  else if negb (bool_decide (Z.ldiff options WAITID_SUPPORTED = 0)) ||
          bool_decide (Z.land options (Z.lor WEXITED (Z.lor WSTOPPED WCONTINUED)) = 0) then fail EINVAL
  else
    match current ps with
    | None => fail ESRCH
    | Some waiter =>
        match waitid_target ps idtype id with
        | Err e => fail e
        | Ok target =>
            '(r, step) ←! waitid_turn ps st mem waiter target infop options;
            Ret (r, match step with
                    | Sleep => if has_flag options WNOHANG then Finished (Ok 0) else Sleep
                    | _ => step
                    end)
        end
    end.

(** [sys_exit], [sys_exit_group], [sys_getpid] and [sys_getppid] *)
Definition sys_exit (foreground : bool) ps (exit_code : Z) : PS := exit_current_and_run_next foreground ps exit_code.
Definition sys_exit_group (foreground : bool) ps (exit_code : Z) : PS := exit_thread_group_and_run_next foreground ps exit_code.
Definition sys_getpid ps : result Z SysErrNo := match current ps with Some p => Ok (tgid ps p) | None => Err ESRCH end.
Definition sys_getppid ps : result Z SysErrNo :=
  match current ps with
  | Some p => Ok (match parent (task ps p) with Some q => tgid ps q | None => 1 end)
  | None => Err ESRCH
  end.

End calls.

Section correct.
Context {PT F : Type} `{HPT : PageTableOps PT, !PageTableLaws PT,
                        HF : FrameService F, !FrameServiceLaws F, HL : FileLayer F, !FileLayerLaws F}.
Implicit Types (st : St F) (ms : MemorySet PT) (ps : PS) (X : list Z).

Lemma has_matching_child_spec ps w target :
  has_matching_child ps w target = true ↔
  ∃ o c, o ∈ user_members ps (tgid ps w) ∧ c ∈ children (task ps o) ∧ child_matches_wait_target ps c target = true.
Proof.
  unfold has_matching_child. rewrite existsb_exists. split.
  - intros (o&Ho%list_elem_of_In&(c&Hc%list_elem_of_In&Hm)%existsb_exists). by exists o, c.
  - intros (o&c&Ho&Hc&Hm). exists o. split; [by apply list_elem_of_In|]. apply existsb_exists. exists c.
    split; [by apply list_elem_of_In|done].
Qed.

(** A child of the caller's process that the call waits for. *)
Definition awaited ps (w : Z) (target : WaitTarget) (c : Z) : Prop :=
  ∃ o, o ∈ user_members ps (tgid ps w) ∧ c ∈ children (task ps o) ∧ child_matches_wait_target ps c target = true.

(** The child was taken: it is in no list of children any more. *)
Definition reaped ps ps' (w : Z) (target : WaitTarget) (c : Z) : Prop :=
  awaited ps w target c ∧ is_process_zombie ps (tgid ps c) = true ∧ ∀ q t, tasks ps' !! q = Some t → c ∉ children t.


End correct.

