(* ===== verification/MemFile.v ===== *)
(** * Contents of in-memory files (src/os/src/fs/fd.rs, [MemFileContent])

    A file of at most [MEM_FILE_INLINE_LIMIT] bytes is one vector; a larger one is a vector
    of chunks of [MEM_FILE_CHUNK_SIZE] bytes in which a missing chunk, and the tail that a
    short chunk lacks, read as zeroes.  The specification is the flat list of bytes
    [content_bytes]. *)

From S2P Require Import Prelude.

Definition MEM_FILE_INLINE_LIMIT : Z := 1024 * 1024.
Definition MEM_FILE_CHUNK_SIZE : Z := 64 * 1024.

(** ** The data and its operations *)

Inductive MemFileContent :=
  | Inline (content : list Z)
  | Chunked (len : Z) (chunks : list (option (list Z))).

Definition content_new : MemFileContent := Inline [].

Section operations.
(** The two constants; the source's values are positive. *)
Context (limit chunk : Z).

Definition chunk_nat : nat := Z.to_nat chunk.

(** [content.chunks(MEM_FILE_CHUNK_SIZE)] with all-zero parts left out *)
Fixpoint chunks_of (fuel : nat) (l : list Z) : list (option (list Z)) :=
  match fuel, l with
  | S fuel, _ :: _ =>
      let part := take chunk_nat l in
      (if forallb (Z.eqb 0) part then None else Some part) :: chunks_of fuel (drop chunk_nat l)
  | _, _ => []
  end.

Definition from_slice (content : list Z) : MemFileContent :=
  if bool_decide (zlen content ≤ limit) then Inline content
  else Chunked (zlen content) (chunks_of (length content) content).

Definition content_len (c : MemFileContent) : Z :=
  match c with Inline content => zlen content | Chunked len _ => len end.

(** [buf[at..at + data.len()].copy_from_slice(data)] *)
Definition splice (at_ : Z) (data buf : list Z) : list Z :=
  take (Z.to_nat at_) buf ++ data ++ drop (Z.to_nat (at_ + zlen data)) buf.

(** [data[from..from + n]] *)
Definition subslice (from n : Z) (data : list Z) : list Z := take (Z.to_nat n) (drop (Z.to_nat from) data).

(** [vec.resize(n, 0)] *)
Definition resize_vec (n : Z) (l : list Z) : list Z := take (Z.to_nat n) l ++ replicate (Z.to_nat n - length l) 0.

Fixpoint read_chunks (fuel : nat) (chunks : list (option (list Z))) (offset to_read copied : Z) (buf : list Z) : list Z :=
  match fuel with
  | O => buf
  | S fuel =>
      if bool_decide (copied < to_read) then
        let pos := offset + copied in
        let chunk_idx := pos / chunk in
        let chunk_off := pos mod chunk in
        let n := Z.min (to_read - copied) (chunk - chunk_off) in
        let buf :=
          match chunks !! Z.to_nat chunk_idx with
          | Some (Some data) =>
              if bool_decide (chunk_off < zlen data) then
                splice copied (subslice chunk_off (Z.min n (zlen data - chunk_off)) data) buf
              else buf
          | _ => buf
          end in
        read_chunks fuel chunks offset to_read (copied + n) buf
      else buf
  end.

(** [read_at]: the new buffer and the number of bytes read *)
Definition content_read_at (c : MemFileContent) (offset : Z) (buf : list Z) : list Z * Z :=
  let len := content_len c in
  if bool_decide (len ≤ offset) || bool_decide (buf = []) then (buf, 0)
  else
    let to_read := Z.min (zlen buf) (len - offset) in
    match c with
    | Inline content => (splice 0 (subslice offset to_read content) buf, to_read)
    | Chunked _ chunks =>
        (read_chunks (Z.to_nat to_read) chunks offset to_read 0
           (splice 0 (replicate (Z.to_nat to_read) 0) buf), to_read)
    end.

Definition to_vec (c : MemFileContent) : list Z :=
  match c with
  | Inline content => content
  | Chunked len _ => (content_read_at c 0 (replicate (Z.to_nat len) 0)).1
  end.

(** [chunks] padded with [None] to [n] elements *)
Definition pad_chunks (n : nat) (chunks : list (option (list Z))) : list (option (list Z)) :=
  chunks ++ replicate (n - length chunks) None.

(** The truncation of the last chunk *)
Definition trim_last (new_len : Z) (needed : nat) (chunks : list (option (list Z))) : list (option (list Z)) :=
  match last chunks with
  | Some (Some data) =>
      let start := (Z.of_nat needed - 1) * chunk in
      let target := Z.min (new_len - start) chunk in
      <[(length chunks - 1)%nat := Some (take (Z.to_nat target) data)]> chunks
  | _ => chunks
  end.

Definition resize_chunked (new_len : Z) (chunks : list (option (list Z))) : MemFileContent :=
  let needed := Z.to_nat (if bool_decide (new_len = 0) then 0 else wrap (new_len + chunk - 1) / chunk) in
  let chunks := trim_last new_len needed (take needed (pad_chunks needed chunks)) in
  let c := Chunked new_len chunks in
  if bool_decide (new_len ≤ limit) then Inline (to_vec c) else c.

Definition content_resize (c : MemFileContent) (new_len : Z) : MemFileContent :=
  match c with
  | Inline content =>
      if bool_decide (new_len ≤ limit) then Inline (resize_vec new_len content)
      else resize_chunked new_len (chunks_of (length content) content)
  | Chunked _ chunks => resize_chunked new_len chunks
  end.

Fixpoint write_chunks (fuel : nat) (chunks : list (option (list Z))) (offset copied : Z) (buf : list Z)
    : list (option (list Z)) :=
  match fuel with
  | O => chunks
  | S fuel =>
      if bool_decide (copied < zlen buf) then
        let pos := offset + copied in
        let chunk_idx := Z.to_nat (pos / chunk) in
        let chunk_off := pos mod chunk in
        let n := Z.min (zlen buf - copied) (chunk - chunk_off) in
        let chunks := pad_chunks (S chunk_idx) chunks in
        let data := default [] (chunks !!! chunk_idx) in
        let data := if bool_decide (zlen data < chunk_off + n) then resize_vec (chunk_off + n) data else data in
        let chunks := <[chunk_idx := Some (splice chunk_off (subslice copied n buf) data)]> chunks in
        write_chunks fuel chunks offset (copied + n) buf
      else chunks
  end.

(** [write_at]: the new content and the end of the write *)
Definition content_write_at (c : MemFileContent) (offset : Z) (buf : list Z) : MemFileContent * Z :=
  let end_ := wrap (offset + zlen buf) in
  let c := if bool_decide (content_len c < end_) then content_resize c end_ else c in
  match c with
  | Inline content => (Inline (splice offset buf content), end_)
  | Chunked len chunks => (Chunked len (write_chunks (length buf) chunks offset 0 buf), end_)
  end.

Definition is_elf_image (c : MemFileContent) : bool :=
  let '(magic, n) := content_read_at c 0 [0; 0; 0; 0] in
  bool_decide (n = 4) && bool_decide (magic = [0x7f; 0x45; 0x4c; 0x46]).

(** ** The flat contents *)

(** The byte at [pos]. *)
Definition chunk_byte (chunks : list (option (list Z))) (pos : Z) : Z :=
  match chunks !! Z.to_nat (pos / chunk) with
  | Some (Some data) => default 0 (data !! Z.to_nat (pos mod chunk))
  | _ => 0
  end.

Definition content_bytes (c : MemFileContent) : list Z :=
  match c with
  | Inline content => content
  | Chunked len chunks => chunk_byte chunks <$> seqZ 0 len
  end.

End operations.

(** ** Byte lists indexed by Z *)

Definition byte_at (l : list Z) (pos : Z) : Z := default 0 (l !! Z.to_nat pos).

Lemma bytes_ext l1 l2 :
  zlen l1 = zlen l2 → (∀ pos, 0 ≤ pos < zlen l1 → byte_at l1 pos = byte_at l2 pos) → l1 = l2.
Proof.
  intros Hl H. unfold zlen in *. apply list_eq. intros i.
  destruct (decide (i < length l1)%nat) as [Hi|Hi];
    [|rewrite !lookup_ge_None_2 by lia; done].
  destruct (lookup_lt_is_Some_2 l1 i Hi) as [x Hx].
  destruct (lookup_lt_is_Some_2 l2 i) as [y Hy]; [lia|].
  specialize (H (Z.of_nat i) ltac:(lia)). unfold byte_at in H.
  rewrite Nat2Z.id, Hx, Hy in H. simpl in H. by rewrite Hx, Hy, H.
Qed.

Lemma byte_at_ge l pos : zlen l ≤ pos → byte_at l pos = 0.
Proof. unfold byte_at, zlen. intros H. by rewrite lookup_ge_None_2 by lia. Qed.

Lemma byte_at_app l1 l2 pos :
  0 ≤ pos → byte_at (l1 ++ l2) pos = if bool_decide (pos < zlen l1) then byte_at l1 pos else byte_at l2 (pos - zlen l1).
Proof.
  unfold byte_at, zlen. intros Hp. case_bool_decide.
  - by rewrite lookup_app_l by lia.
  - rewrite lookup_app_r by lia. do 2 f_equal. lia.
Qed.

Lemma byte_at_take l n pos :
  0 ≤ pos → byte_at (take (Z.to_nat n) l) pos = if bool_decide (pos < n) then byte_at l pos else 0.
Proof.
  unfold byte_at. intros Hp. case_bool_decide.
  - by rewrite lookup_take_lt by lia.
  - by rewrite lookup_take_ge by lia.
Qed.

Lemma byte_at_drop l n pos : 0 ≤ pos → 0 ≤ n → byte_at (drop (Z.to_nat n) l) pos = byte_at l (n + pos).
Proof. unfold byte_at. intros. rewrite lookup_drop. do 2 f_equal. lia. Qed.

Lemma byte_at_zeroes n pos : byte_at (replicate n 0) pos = 0.
Proof.
  unfold byte_at. destruct (replicate n 0 !! Z.to_nat pos) as [x|] eqn:Hx; [|done].
  by apply lookup_replicate in Hx as [-> _].
Qed.

Lemma zlen_take (l : list Z) n : 0 ≤ n → zlen (take (Z.to_nat n) l) = Z.min n (zlen l).
Proof. unfold zlen. rewrite length_take. lia. Qed.

Lemma zlen_drop (l : list Z) n : 0 ≤ n → zlen (drop (Z.to_nat n) l) = Z.max 0 (zlen l - n).
Proof. unfold zlen. rewrite length_drop. lia. Qed.

Lemma zlen_replicate (n : nat) : zlen (replicate n 0) = Z.of_nat n.
Proof. unfold zlen. by rewrite length_replicate. Qed.

(** [splice] replaces the bytes from [at_] on, and nothing else. *)
Lemma zlen_splice at_ data buf : 0 ≤ at_ → at_ + zlen data ≤ zlen buf → zlen (splice at_ data buf) = zlen buf.
Proof.
  intros. pose proof (zlen_nonneg data). unfold splice. rewrite !zlen_app, zlen_take, zlen_drop by lia. lia.
Qed.

Lemma byte_at_splice at_ data buf pos :
  0 ≤ at_ → at_ + zlen data ≤ zlen buf → 0 ≤ pos →
  byte_at (splice at_ data buf) pos =
    if bool_decide (at_ ≤ pos < at_ + zlen data) then byte_at data (pos - at_) else byte_at buf pos.
Proof.
  intros Ha Hd Hp. pose proof (zlen_nonneg data). unfold splice.
  rewrite byte_at_app by lia. rewrite zlen_take by lia. rewrite Z.min_l by lia.
  destruct (decide (pos < at_)).
  - rewrite bool_decide_true by lia. rewrite bool_decide_false by lia.
    rewrite byte_at_take by lia. by rewrite bool_decide_true by lia.
  - rewrite bool_decide_false by lia. rewrite byte_at_app by lia.
    case_bool_decide.
    + by rewrite bool_decide_true by lia.
    + rewrite bool_decide_false by lia. rewrite byte_at_drop by lia. f_equal. lia.
Qed.

Lemma zlen_subslice from n data : 0 ≤ from → 0 ≤ n → from + n ≤ zlen data → zlen (subslice from n data) = n.
Proof. intros. unfold subslice. rewrite zlen_take, zlen_drop by lia. lia. Qed.

Lemma byte_at_subslice from n data pos :
  0 ≤ from → 0 ≤ pos < n → byte_at (subslice from n data) pos = byte_at data (from + pos).
Proof. intros. unfold subslice. rewrite byte_at_take by lia. rewrite bool_decide_true by lia. by rewrite byte_at_drop by lia. Qed.

Lemma zlen_resize_vec n l : 0 ≤ n → zlen (resize_vec n l) = n.
Proof.
  intros. unfold resize_vec. rewrite zlen_app, zlen_take, zlen_replicate by lia. unfold zlen. lia.
Qed.

Lemma byte_at_resize_vec n l pos :
  0 ≤ pos < n → byte_at (resize_vec n l) pos = byte_at l pos.
Proof.
  intros. unfold resize_vec. rewrite byte_at_app by lia. rewrite zlen_take by lia.
  case_bool_decide.
  - rewrite byte_at_take by lia. by rewrite bool_decide_true by lia.
  - rewrite byte_at_zeroes. by rewrite byte_at_ge by lia.
Qed.

(** ** Chunk tables *)

Section chunks.
Context (limit chunk : Z) (Hchunk : 0 < chunk) (Hlimit : 0 ≤ limit).

Definition chunk_data (chunks : list (option (list Z))) (i : nat) : list Z := default [] (mjoin (chunks !! i)).

Definition chunks_bounded (len : Z) (chunks : list (option (list Z))) : Prop :=
  ∀ i, zlen (chunk_data chunks i) ≤ chunk ∧ (chunk_data chunks i ≠ [] → Z.of_nat i * chunk + zlen (chunk_data chunks i) ≤ len).

Lemma chunk_byte_data chunks pos :
  chunk_byte chunk chunks pos = byte_at (chunk_data chunks (Z.to_nat (pos / chunk))) (pos mod chunk).
Proof. unfold chunk_byte, chunk_data, byte_at. by destruct (chunks !! _) as [[d|]|]. Qed.

Lemma chunk_pos q r d : 0 ≤ r + d < chunk → (chunk * q + r + d) / chunk = q ∧ (chunk * q + r + d) mod chunk = r + d.
Proof.
  intros H. split; [symmetry; apply (Z.div_unique_pos _ _ _ (r + d)); lia|].
  symmetry. apply (Z.mod_unique_pos _ _ q (r + d)); lia.
Qed.

(** The positions [pos .. pos + n) of one chunk. *)
Lemma chunk_pos_from pos d :
  0 ≤ pos → 0 ≤ d < chunk - pos mod chunk →
  (pos + d) / chunk = pos / chunk ∧ (pos + d) mod chunk = pos mod chunk + d.
Proof.
  intros Hp Hd. pose proof (Z.mod_pos_bound pos chunk Hchunk).
  pose proof (chunk_pos (pos / chunk) (pos mod chunk) d ltac:(lia)) as H1.
  rewrite <-(Z.div_mod pos chunk) in H1 by lia. exact H1.
Qed.

Lemma chunk_idx_inj pos p : 0 ≤ pos → 0 ≤ p → Z.to_nat (p / chunk) = Z.to_nat (pos / chunk) → p / chunk = pos / chunk.
Proof. intros. pose proof (Z.div_pos pos chunk). pose proof (Z.div_pos p chunk). lia. Qed.

Lemma read_chunks_spec chunks offset to_read : 0 ≤ offset →
  (∀ i, zlen (chunk_data chunks i) ≤ chunk) →
  ∀ fuel copied buf, 0 ≤ copied → to_read ≤ zlen buf → to_read - copied ≤ Z.of_nat fuel →
  (∀ p, copied ≤ p < to_read → byte_at buf p = 0) →
  zlen (read_chunks chunk fuel chunks offset to_read copied buf) = zlen buf ∧
  ∀ p, 0 ≤ p → byte_at (read_chunks chunk fuel chunks offset to_read copied buf) p =
    if bool_decide (copied ≤ p < to_read) then chunk_byte chunk chunks (offset + p) else byte_at buf p.
Proof.
  intros Ho Hd. induction fuel as [|fuel IH]; intros copied buf Hc Hb Hf Hz; simpl.
  { split; [done|]. intros p Hp. by rewrite bool_decide_false by lia. }
  case_bool_decide as Hlt; [|split; [done|]; intros p Hp; by rewrite bool_decide_false by lia].
  set (pos := offset + copied). set (off := pos mod chunk).
  set (n := Z.min (to_read - copied) (chunk - off)).
  pose proof (Z.mod_pos_bound pos chunk Hchunk) as Hoff. fold off in Hoff.
  set (buf' := match chunks !! Z.to_nat (pos / chunk) with Some (Some data) => _ | _ => _ end).
  assert (zlen buf' = zlen buf ∧ ∀ p, 0 ≤ p → byte_at buf' p =
    if bool_decide (copied ≤ p < copied + n) then chunk_byte chunk chunks (offset + p) else byte_at buf p) as [Hl' Hb'].
  { assert (∀ p, copied ≤ p < copied + n →
      chunk_byte chunk chunks (offset + p) = byte_at (chunk_data chunks (Z.to_nat (pos / chunk))) (off + (p - copied))) as Hin.
    { intros p Hp. destruct (chunk_pos_from pos (p - copied)) as [E1 E2]; [subst pos; lia|fold off; lia|].
      replace (pos + (p - copied)) with (offset + p) in E1, E2 by (subst pos; lia).
      by rewrite chunk_byte_data, E1, E2. }
    pose proof (Hd (Z.to_nat (pos / chunk))) as Hdl.
    unfold chunk_data in Hin, Hdl. subst buf'.
    destruct (chunks !! Z.to_nat (pos / chunk)) as [[data|]|] eqn:E; simpl in Hin, Hdl.
    2,3: split; [done|]; intros p Hp; case_bool_decide; [rewrite Hin by done|done]; rewrite Hz by lia; by rewrite byte_at_ge by (rewrite zlen_nil; lia).
    case_bool_decide as Hol.
    - pose proof (zlen_nonneg data).
      assert (zlen (subslice off (Z.min n (zlen data - off)) data) = Z.min n (zlen data - off)) as Hsl by (apply zlen_subslice; lia).
      split; [apply zlen_splice; lia|]. intros p Hp. rewrite byte_at_splice by lia. rewrite Hsl.
      case_bool_decide as H1.
      + rewrite byte_at_subslice by lia. rewrite bool_decide_true by lia. by rewrite Hin by lia.
      + case_bool_decide as H2; [|done]. rewrite Hin, Hz by lia. by rewrite byte_at_ge by lia.
    - split; [done|]. intros p Hp. case_bool_decide; [rewrite Hin by done|done]. rewrite Hz by lia. by rewrite byte_at_ge by lia. }
  destruct (IH (copied + n) buf') as [Hl2 Hb2]; [lia|lia|lia| |].
  { intros p Hp. rewrite Hb' by lia. rewrite bool_decide_false by lia. apply Hz. lia. }
  split; [lia|]. intros p Hp. rewrite Hb2 by done. rewrite Hb' by done.
  repeat case_bool_decide; done || lia.
Qed.

Lemma chunk_data_insert chunks i d j :
  (i < length chunks)%nat →
  chunk_data (<[i := Some d]> chunks) j = if bool_decide (i = j) then d else chunk_data chunks j.
Proof.
  intros Hi. unfold chunk_data. case_bool_decide as E.
  - subst j. by rewrite list_lookup_insert_eq.
  - by rewrite list_lookup_insert_ne.
Qed.

Lemma pad_chunks_id n (chunks : list (option (list Z))) : (n ≤ length chunks)%nat → pad_chunks n chunks = chunks.
Proof. intros H. unfold pad_chunks. replace (n - length chunks)%nat with 0%nat by lia. apply app_nil_r. Qed.

Lemma chunk_data_lookup_total (chunks : list (option (list Z))) i : default [] (chunks !!! i) = chunk_data chunks i.
Proof. unfold chunk_data. rewrite list_lookup_total_alt. by destruct (chunks !! i) as [[d|]|]. Qed.

(** The data of a chunk after [n] bytes were written at [off]. *)
Definition patched (off n : Z) (bytes data : list Z) : list Z :=
  splice off bytes (if bool_decide (zlen data < off + n) then resize_vec (off + n) data else data).

Lemma patched_spec off n bytes data :
  0 ≤ off → zlen bytes = n →
  zlen (patched off n bytes data) = Z.max (zlen data) (off + n) ∧
  ∀ p, 0 ≤ p → byte_at (patched off n bytes data) p =
    if bool_decide (off ≤ p < off + n) then byte_at bytes (p - off) else byte_at data p.
Proof.
  intros Ho Hn. pose proof (zlen_nonneg bytes). unfold patched. case_bool_decide as H1.
  - assert (zlen (resize_vec (off + n) data) = off + n) as Hl by (apply zlen_resize_vec; lia).
    split; [rewrite zlen_splice; lia|]. intros p Hp. rewrite byte_at_splice by lia. rewrite Hn.
    case_bool_decide; [done|]. destruct (decide (p < off + n)); [apply byte_at_resize_vec; lia|].
    by rewrite !byte_at_ge by lia.
  - split; [rewrite zlen_splice; lia|]. intros p Hp. rewrite byte_at_splice by lia. by rewrite Hn.
Qed.

Lemma chunk_idx_bound pos n len : 0 ≤ pos → pos < len → (len + chunk - 1) / chunk = Z.of_nat n → (Z.to_nat (pos / chunk) < n)%nat.
Proof.
  intros Hp Hl Hn. assert (pos / chunk < (len + chunk - 1) / chunk); [|lia].
  apply Z.lt_le_trans with (pos / chunk + 1); [lia|].
  replace (pos / chunk + 1) with ((pos + 1 * chunk) / chunk) by (rewrite Z.div_add by lia; lia).
  apply Z.div_le_mono; lia.
Qed.

Lemma write_chunks_spec len offset buf : 0 ≤ offset → offset + zlen buf ≤ len →
  ∀ fuel copied chunks, 0 ≤ copied → zlen buf - copied ≤ Z.of_nat fuel →
  (len + chunk - 1) / chunk = Z.of_nat (length chunks) → chunks_bounded len chunks →
  let chunks' := write_chunks chunk fuel chunks offset copied buf in
  length chunks' = length chunks ∧ chunks_bounded len chunks' ∧
  ∀ p, 0 ≤ p → chunk_byte chunk chunks' p =
    if bool_decide (offset + copied ≤ p < offset + zlen buf) then byte_at buf (p - offset) else chunk_byte chunk chunks p.
Proof.
  intros Ho Hlen. induction fuel as [|fuel IH]; intros copied chunks Hc Hf Hn Hw; simpl.
  { split_and!; [done..|]. intros p Hp. by rewrite bool_decide_false by lia. }
  case_bool_decide as Hlt; [|split_and!; [done..|]; intros p Hp; by rewrite bool_decide_false by lia].
  set (pos := offset + copied). set (off := pos mod chunk). set (idx := Z.to_nat (pos / chunk)).
  set (n := Z.min (zlen buf - copied) (chunk - off)).
  pose proof (Z.mod_pos_bound pos chunk Hchunk) as Hoff. fold off in Hoff.
  assert (idx < length chunks)%nat as Hidx by (eapply chunk_idx_bound; [| |done]; lia).
  rewrite pad_chunks_id by lia. rewrite chunk_data_lookup_total.
  set (data := chunk_data chunks idx). fold (patched off n (subslice copied n buf) data).
  destruct (patched_spec off n (subslice copied n buf) data) as [Hpl Hpb]; [lia|apply zlen_subslice; lia|].
  set (data' := patched off n (subslice copied n buf) data) in *.
  set (chunks' := <[idx := Some data']> chunks).
  assert (pos = chunk * (pos / chunk) + off) as Epos by (apply Z.div_mod; lia).
  assert (0 ≤ pos / chunk) as Hq by (apply Z.div_pos; lia).
  assert (∀ p, 0 ≤ p → chunk_byte chunk chunks' p =
    if bool_decide (pos ≤ p < pos + n) then byte_at buf (p - offset) else chunk_byte chunk chunks p) as Hb'.
  { intros p Hp. rewrite !chunk_byte_data. unfold chunks'. rewrite chunk_data_insert by lia.
    pose proof (Z.mod_pos_bound p chunk Hchunk). pose proof (Z.div_mod p chunk ltac:(lia)) as Ep.
    case_bool_decide as E1; [apply eq_sym, chunk_idx_inj in E1; [|lia..]|].
    - rewrite E1 in Ep |- *. fold idx data. rewrite Hpb by lia.
      case_bool_decide as E2.
      + rewrite bool_decide_true by lia. rewrite byte_at_subslice by lia. f_equal. lia.
      + by rewrite bool_decide_false by lia.
    - rewrite bool_decide_false; [done|]. intros E2. apply E1. unfold idx. f_equal.
      destruct (chunk_pos_from pos (p - pos)) as [E3 _]; [lia|fold off; lia|].
      by replace (pos + (p - pos)) with p in E3 by lia. }
  destruct (IH (copied + n) chunks') as (Hl2 & Hw2 & Hb2); [lia|lia| | |].
  { unfold chunks'. by rewrite length_insert. }
  { intros i. unfold chunks'. rewrite chunk_data_insert by done. case_bool_decide as E; [|apply Hw].
    subst i. specialize (Hw idx). fold data in Hw. destruct Hw as [Hw1 Hw2]. split; [lia|]. intros _.
    destruct (decide (data = [])) as [E|E]; [rewrite E, zlen_nil in *|specialize (Hw2 E)]; lia. }
  unfold chunks' in Hl2. rewrite length_insert in Hl2. split_and!; [done..|].
  intros p Hp. rewrite Hb2, Hb' by done. repeat case_bool_decide; done || lia.
Qed.

Lemma chunks_of_spec fuel : ∀ l, (length l ≤ fuel)%nat →
  Z.of_nat (length (chunks_of chunk fuel l)) = (zlen l + chunk - 1) / chunk ∧
  chunks_bounded (zlen l) (chunks_of chunk fuel l) ∧
  ∀ p, 0 ≤ p → chunk_byte chunk (chunks_of chunk fuel l) p = byte_at l p.
Proof.
  assert ((0 + chunk - 1) / chunk = 0) as E0 by (apply Z.div_small; lia).
  induction fuel as [|fuel IH]; intros [|x l0] Hl; simpl in Hl.
  1,3: cbn [chunks_of length]; rewrite (zlen_nil (A:=Z)), E0; split_and!; [done|intros i; unfold chunk_data; rewrite lookup_nil; cbn; unfold zlen; simpl; split; [lia|done]|intros p _; by rewrite chunk_byte_data].
  { lia. }
  assert (∃ l, l = x :: l0) as [l El] by eauto. simpl. rewrite <-El.
  assert (0 < zlen l) as Hpos by (subst; rewrite zlen_cons; pose proof (zlen_nonneg l0); lia).
  unfold chunk_nat. set (part := take (Z.to_nat chunk) l). set (rest := drop (Z.to_nat chunk) l).
  assert (zlen part = Z.min chunk (zlen l)) as Hpl by (apply zlen_take; lia).
  assert (zlen rest = Z.max 0 (zlen l - chunk)) as Hrl by (apply zlen_drop; lia).
  destruct (IH rest) as (Hn & Hw & Hb).
  { unfold rest. rewrite length_drop. subst l. simpl. lia. }
  set (o := if forallb (Z.eqb 0) part then None else Some part).
  assert ((default [] o = part ∨ default [] o = []) ∧ ∀ p, 0 ≤ p → byte_at (default [] o) p = byte_at part p) as [Ho1 Ho2].
  { unfold o. destruct (forallb (Z.eqb 0) part) eqn:E; simpl; [|by split; [left|]].
    split; [by right|]. intros p _. unfold byte_at.
    destruct (part !! Z.to_nat p) as [y|] eqn:Ey; [simpl|by rewrite lookup_nil].
    rewrite forallb_forall in E. symmetry. symmetry. apply Z.eqb_eq, E. by eapply list_elem_of_In, list_elem_of_lookup_2. }
  split_and!.
  - simpl. rewrite Nat2Z.inj_succ, Hn, Hrl. destruct (decide (chunk ≤ zlen l)).
    + rewrite Z.max_r by lia. replace (zlen l + chunk - 1) with (zlen l - chunk + chunk - 1 + 1 * chunk) by lia.
      rewrite Z.div_add by lia. lia.
    + rewrite Z.max_l, E0 by lia. apply (Z.div_unique_pos _ _ _ (zlen l - 1)); lia.
  - intros [|i]; simpl.
    + change (chunk_data (o :: _) 0) with (default [] o). destruct Ho1 as [->| ->]; [split; [lia|intros _; lia]|rewrite zlen_nil; split; [lia|done]].
    + change (chunk_data (o :: ?t) (S i)) with (chunk_data t i). destruct (Hw i) as [H1 H2]. split; [done|].
      intros Hne. specialize (H2 Hne). rewrite Hrl in H2.
      assert (0 < zlen (chunk_data (chunks_of chunk fuel rest) i)) by by apply zlen_pos. lia.
  - intros p Hp. rewrite chunk_byte_data. destruct (decide (p < chunk)).
    + rewrite Z.div_small, Z.mod_small by lia. change (chunk_data (o :: _) _) with (default [] o). rewrite Ho2 by lia.
      unfold part. rewrite byte_at_take by lia. by rewrite bool_decide_true by lia.
    + assert (p = p - chunk + 1 * chunk) as Ep by lia. rewrite Ep at 1 2. rewrite Z.div_add, Z_mod_plus_full by lia.
      replace (Z.to_nat ((p - chunk) / chunk + 1)) with (S (Z.to_nat ((p - chunk) / chunk))) by (pose proof (Z.div_pos (p - chunk) chunk); lia).
      change (chunk_data (o :: ?t) (S ?i)) with (chunk_data t i). rewrite <-chunk_byte_data, Hb by lia.
      unfold rest. rewrite byte_at_drop by lia. f_equal. lia.
Qed.

Lemma chunk_data_take_pad n chunks i :
  chunk_data (take n (pad_chunks n chunks)) i = if bool_decide (i < n)%nat then chunk_data chunks i else [].
Proof.
  unfold chunk_data, pad_chunks. case_bool_decide as Hi; [|by rewrite lookup_take_ge by lia].
  rewrite lookup_take_lt by lia. destruct (decide (i < length chunks)%nat).
  - by rewrite lookup_app_l by lia.
  - rewrite lookup_app_r by lia. rewrite (lookup_ge_None_2 chunks) by lia.
    by destruct (replicate _ None !! _) as [o|] eqn:E; [apply lookup_replicate in E as [-> _]|].
Qed.

Lemma length_take_pad n (chunks : list (option (list Z))) : length (take n (pad_chunks n chunks)) = n.
Proof. unfold pad_chunks. rewrite length_take, length_app, length_replicate. lia. Qed.

Lemma trim_last_spec new_len needed chunks :
  length chunks = needed → (0 < needed)%nat →
  let target := Z.min (new_len - (Z.of_nat needed - 1) * chunk) chunk in
  length (trim_last chunk new_len needed chunks) = needed ∧
  ∀ i, chunk_data (trim_last chunk new_len needed chunks) i =
    if bool_decide (S i = needed) then take (Z.to_nat target) (chunk_data chunks i) else chunk_data chunks i.
Proof.
  intros Hl Hn target. unfold trim_last. rewrite last_lookup, Hl.
  assert (∀ i, S i = needed → i = Nat.pred needed) as Hi by lia.
  destruct (chunks !! Nat.pred needed) as [[data|]|] eqn:E; simpl.
  - split; [by rewrite length_insert|]. intros i. rewrite chunk_data_insert by lia.
    case_bool_decide as E1; case_bool_decide as E2; try lia; [|done].
    rewrite (Hi i) by done. unfold chunk_data. by rewrite E.
  - split; [done|]. intros i. case_bool_decide as E2; [|done]. rewrite (Hi i) by done.
    unfold chunk_data. rewrite E. simpl. by rewrite take_nil.
  - apply lookup_ge_None_1 in E. lia.
Qed.

(** The chunk table that [resize_chunked] builds. *)
Definition resized (new_len : Z) (chunks : list (option (list Z))) : list (option (list Z)) :=
  let needed := Z.to_nat (if bool_decide (new_len = 0) then 0 else wrap (new_len + chunk - 1) / chunk) in
  trim_last chunk new_len needed (take needed (pad_chunks needed chunks)).

Lemma resized_spec len new_len chunks :
  0 ≤ new_len → new_len + chunk ≤ USIZE_MAX → chunks_bounded len chunks →
  Z.of_nat (length (resized new_len chunks)) = (new_len + chunk - 1) / chunk ∧
  chunks_bounded new_len (resized new_len chunks) ∧
  ∀ p, 0 ≤ p < new_len → chunk_byte chunk (resized new_len chunks) p = chunk_byte chunk chunks p.
Proof.
  intros H0 Hmax Hw. destruct (decide (new_len = 0)) as [->|Hz].
  { assert (resized 0 chunks = []) as -> by reflexivity.
    assert ((0 + chunk - 1) / chunk = 0) as -> by (apply Z.div_small; lia).
    split_and!; [done| |lia]. intros i. unfold chunk_data. rewrite lookup_nil. simpl.
    unfold zlen. simpl. split; [lia|done]. }
  unfold resized. rewrite bool_decide_false by done.
  rewrite wrap_small by (unfold is_usize; lia).
  set (q := (new_len + chunk - 1) / chunk). set (needed := Z.to_nat q).
  assert (chunk * q ≤ new_len + chunk - 1 < chunk * (q + 1)) as Hq.
  { pose proof (Z.div_mod (new_len + chunk - 1) chunk ltac:(lia)) as E. fold q in E.
    pose proof (Z.mod_pos_bound (new_len + chunk - 1) chunk Hchunk). lia. }
  assert (0 < q) by nia. assert (Z.of_nat needed = q) as Eq by lia.
  destruct (trim_last_spec new_len needed (take needed (pad_chunks needed chunks))) as [Hl Hd];
    [apply length_take_pad|lia|].
  rewrite Hl. split_and!; [done| |].
  - intros i. rewrite Hd. rewrite chunk_data_take_pad.
    destruct (Hw i) as [Hw1 _]. pose proof (zlen_nonneg (chunk_data chunks i)).
    case_bool_decide as E1.
    + rewrite bool_decide_true by lia. rewrite zlen_take by nia. split; [lia|]. intros _. nia.
    + case_bool_decide; [|unfold zlen; simpl; split; [lia|done]]. split; [done|]. intros _. nia.
  - intros p Hp. rewrite !chunk_byte_data, Hd, chunk_data_take_pad.
    assert (Z.to_nat (p / chunk) < needed)%nat as Hi by (eapply chunk_idx_bound; [| |by rewrite Eq]; lia).
    rewrite (bool_decide_true (Z.to_nat (p / chunk) < needed)%nat) by done.
    case_bool_decide as E1; [|done]. pose proof (Z.mod_pos_bound p chunk Hchunk).
    rewrite byte_at_take by lia. rewrite bool_decide_true; [done|].
    pose proof (Z.div_mod p chunk ltac:(lia)). pose proof (Z.div_pos p chunk). nia.
Qed.

(** ** Refinement of flat byte lists *)

(** Small files are inline; large ones have exactly the chunks they need, none longer than
    a chunk or reaching past the end. *)
Definition content_wf (c : MemFileContent) : Prop :=
  match c with
  | Inline content => zlen content ≤ limit
  | Chunked len chunks =>
      limit < len ∧ Z.of_nat (length chunks) = (len + chunk - 1) / chunk ∧ chunks_bounded len chunks
  end.

Lemma zlen_chunk_bytes (f : Z → Z) len : 0 ≤ len → zlen (f <$> seqZ 0 len) = len.
Proof. intros. rewrite zlen_fmap. unfold zlen. rewrite length_seqZ. lia. Qed.

Lemma byte_at_chunk_bytes (f : Z → Z) len p : 0 ≤ p < len → byte_at (f <$> seqZ 0 len) p = f p.
Proof.
  intros. unfold byte_at. rewrite list_lookup_fmap, lookup_seqZ_lt by lia. simpl. f_equal. lia.
Qed.

Lemma content_bytes_len c : content_wf c → zlen (content_bytes chunk c) = content_len c.
Proof. destruct c as [l|len chunks]; simpl; [done|]. intros (H & _). apply zlen_chunk_bytes. lia. Qed.

(** Any chunk table, of whatever length, reads as its flat bytes. *)
Lemma chunked_read_bytes len chunks offset buf :
  0 ≤ len → 0 ≤ offset → (∀ i, zlen (chunk_data chunks i) ≤ chunk) →
  let bytes := content_bytes chunk (Chunked len chunks) in
  content_read_at chunk (Chunked len chunks) offset buf =
    if bool_decide (len ≤ offset) then (buf, 0)
    else let n := Z.min (zlen buf) (len - offset) in (subslice offset n bytes ++ drop (Z.to_nat n) buf, n).
Proof.
  intros Hl Ho Hd bytes. unfold content_read_at. simpl. case_bool_decide as H1; [done|].
  pose proof (zlen_nonneg buf). case_bool_decide as H2.
  { subst buf. simpl. rewrite Z.min_l by (unfold zlen; simpl; lia). done. }
  simpl. set (n := Z.min (zlen buf) (len - offset)).
  assert (zlen (replicate (Z.to_nat n) 0) = n) as Hr by (rewrite zlen_replicate; lia).
  destruct (read_chunks_spec chunks offset n Ho Hd (Z.to_nat n) 0 (splice 0 (replicate (Z.to_nat n) 0) buf)) as [E1 E2];
    [lia|rewrite zlen_splice; lia|lia| |].
  { intros p Hp. rewrite byte_at_splice by lia. rewrite bool_decide_true by lia. apply byte_at_zeroes. }
  f_equal. assert (zlen bytes = len) as Hb by by apply zlen_chunk_bytes.
  assert (zlen (subslice offset n bytes) = n) as Hs by (apply zlen_subslice; lia).
  apply bytes_ext.
  { rewrite E1, zlen_splice, zlen_app, zlen_drop, Hs by lia. lia. }
  intros p Hp. rewrite E2 by lia. rewrite byte_at_app by lia. rewrite Hs. case_bool_decide as E3.
  - rewrite bool_decide_true by lia. rewrite byte_at_subslice by lia. unfold bytes. simpl.
    by rewrite byte_at_chunk_bytes by lia.
  - rewrite bool_decide_false by lia. rewrite byte_at_splice by lia. rewrite bool_decide_false by lia.
    rewrite byte_at_drop by lia. f_equal. lia.
Qed.

Lemma chunked_to_vec len chunks :
  0 ≤ len → (∀ i, zlen (chunk_data chunks i) ≤ chunk) →
  to_vec chunk (Chunked len chunks) = content_bytes chunk (Chunked len chunks).
Proof.
  intros Hl Hd. unfold to_vec. rewrite chunked_read_bytes by (done || lia). case_bool_decide.
  - simpl. by assert (len = 0) as -> by lia.
  - assert (zlen (content_bytes chunk (Chunked len chunks)) = len) as Hb by by apply zlen_chunk_bytes.
    simpl. rewrite zlen_replicate. rewrite Z.min_l by lia. rewrite drop_ge by (rewrite length_replicate; lia).
    rewrite app_nil_r. unfold subslice. simpl. apply take_ge. unfold zlen in Hb. simpl in Hb. lia.
Qed.

Lemma resize_chunked_spec len new_len chunks :
  0 ≤ len → 0 ≤ new_len → new_len + chunk ≤ USIZE_MAX → chunks_bounded len chunks →
  content_wf (resize_chunked limit chunk new_len chunks) ∧
  content_len (resize_chunked limit chunk new_len chunks) = new_len ∧
  content_bytes chunk (resize_chunked limit chunk new_len chunks) =
    resize_vec new_len (content_bytes chunk (Chunked len chunks)).
Proof.
  intros Hl Hn Hm Hw. destruct (resized_spec len new_len chunks Hn Hm Hw) as (R1 & R2 & R3).
  assert (content_bytes chunk (Chunked new_len (resized new_len chunks)) =
      resize_vec new_len (content_bytes chunk (Chunked len chunks))) as Hb.
  { apply bytes_ext; simpl; rewrite zlen_chunk_bytes by lia; [by rewrite zlen_resize_vec|].
    intros p Hp. rewrite byte_at_chunk_bytes, R3, byte_at_resize_vec by lia.
    destruct (decide (p < len)); [by rewrite byte_at_chunk_bytes by lia|].
    rewrite byte_at_ge by (rewrite zlen_chunk_bytes; lia). rewrite chunk_byte_data.
    destruct (Hw (Z.to_nat (p / chunk))) as [_ H2]. set (d := chunk_data chunks _) in *.
    destruct (decide (d = [])) as [->|Hne]; [by unfold byte_at; rewrite lookup_nil|].
    specialize (H2 Hne). apply byte_at_ge. pose proof (Z.div_mod p chunk ltac:(lia)).
    pose proof (Z.div_pos p chunk). lia. }
  unfold resize_chunked. fold (resized new_len chunks). case_bool_decide as Hi.
  - rewrite chunked_to_vec by (done || intros i; apply R2). rewrite Hb. simpl.
    rewrite zlen_resize_vec by lia. split_and!; done.
  - split_and!; [|done..]. simpl. split_and!; [lia|done|done].
Qed.

Lemma content_len_nonneg c : content_wf c → 0 ≤ content_len c.
Proof. destruct c; simpl; [intros _; apply zlen_nonneg|lia]. Qed.

Lemma content_resize_spec c new_len :
  content_wf c → 0 ≤ new_len → new_len + chunk ≤ USIZE_MAX →
  content_wf (content_resize limit chunk c new_len) ∧
  content_len (content_resize limit chunk c new_len) = new_len ∧
  content_bytes chunk (content_resize limit chunk c new_len) = resize_vec new_len (content_bytes chunk c).
Proof.
  destruct c as [l|len chunks]; simpl; intros Hw Hn Hm.
  - case_bool_decide as Hi; [simpl; rewrite zlen_resize_vec by done; done|].
    destruct (chunks_of_spec (length l) l) as (_ & Hb & Hg); [lia|]. pose proof (zlen_nonneg l).
    destruct (resize_chunked_spec (zlen l) new_len (chunks_of chunk (length l) l)) as (R1 & R2 & R3); [done..|].
    split_and!; [done..|]. rewrite R3. f_equal. simpl.
    apply bytes_ext; rewrite zlen_chunk_bytes by done; [done|]. intros p Hp.
    rewrite byte_at_chunk_bytes by lia. apply Hg. lia.
  - destruct Hw as (H1 & H2 & H3). apply resize_chunked_spec; done || lia.
Qed.

Lemma from_slice_spec l :
  content_wf (from_slice limit chunk l) ∧ content_bytes chunk (from_slice limit chunk l) = l.
Proof.
  unfold from_slice. case_bool_decide as Hl; [done|].
  destruct (chunks_of_spec (length l) l) as (H1 & H2 & H3); [lia|]. pose proof (zlen_nonneg l).
  split; [simpl; split_and!; done || lia|]. simpl.
  apply bytes_ext; rewrite zlen_chunk_bytes by done; [done|]. intros p Hp.
  rewrite byte_at_chunk_bytes by lia. apply H3. lia.
Qed.

Lemma content_read_spec c offset buf :
  content_wf c → 0 ≤ offset →
  content_read_at chunk c offset buf =
    if bool_decide (content_len c ≤ offset) then (buf, 0)
    else let n := Z.min (zlen buf) (content_len c - offset) in
         (subslice offset n (content_bytes chunk c) ++ drop (Z.to_nat n) buf, n).
Proof.
  intros Hw Ho. destruct c as [l|len chunks].
  - unfold content_read_at. simpl. case_bool_decide as H1; [done|]. pose proof (zlen_nonneg buf).
    case_bool_decide as H2.
    { subst. simpl. rewrite Z.min_l by (unfold zlen in *; simpl; lia). done. }
    simpl. set (n := Z.min (zlen buf) (zlen l - offset)). f_equal. unfold splice.
    rewrite zlen_subslice by lia. simpl. done.
  - destruct Hw as (Hl & _ & Hw). apply chunked_read_bytes; [simpl; lia|done|]. intros i. apply Hw.
Qed.

Lemma content_to_vec_spec c : content_wf c → to_vec chunk c = content_bytes chunk c.
Proof.
  destruct c as [l|len chunks]; [done|]. intros (Hl & _ & Hw). apply chunked_to_vec; [simpl; lia|].
  intros i. apply Hw.
Qed.

Lemma content_write_spec c offset buf :
  content_wf c → 0 ≤ offset → offset + zlen buf + chunk ≤ USIZE_MAX →
  let end_ := offset + zlen buf in
  let '(c', e) := content_write_at limit chunk c offset buf in
  e = end_ ∧ content_wf c' ∧
  content_bytes chunk c' = splice offset buf (resize_vec (Z.max (content_len c) end_) (content_bytes chunk c)).
Proof.
  intros Hw Ho Hm end_. pose proof (zlen_nonneg buf). unfold content_write_at.
  rewrite wrap_small by (unfold is_usize; lia). fold end_.
  set (c1 := if bool_decide (content_len c < end_) then _ else c).
  assert (content_wf c1 ∧ content_len c1 = Z.max (content_len c) end_ ∧
    content_bytes chunk c1 = resize_vec (Z.max (content_len c) end_) (content_bytes chunk c)) as (W & L & B).
  { unfold c1. case_bool_decide.
    - rewrite Z.max_r by lia. apply content_resize_spec; done || lia.
    - rewrite Z.max_l by lia. split_and!; [done..|]. unfold resize_vec.
      pose proof (content_bytes_len c Hw) as E. unfold zlen in E.
      rewrite take_ge by lia. replace (Z.to_nat _ - _)%nat with 0%nat by lia. simpl. by rewrite app_nil_r. }
  rewrite <-B. clearbody c1. destruct c1 as [l|len chunks]; simpl in L.
  - split_and!; [done| |done]. simpl in *. rewrite zlen_splice by lia. done.
  - destruct W as (W1 & W2 & W3).
    destruct (write_chunks_spec len offset buf Ho ltac:(lia) (length buf) 0 chunks) as (R1 & R2 & R3);
      [lia|unfold zlen; lia|done|done|].
    split_and!; [done| |].
    + simpl. rewrite R1. done.
    + simpl. apply bytes_ext.
      { rewrite zlen_splice by (rewrite ?zlen_chunk_bytes by lia; lia). by rewrite !zlen_chunk_bytes by lia. }
      intros p Hp. rewrite zlen_chunk_bytes in Hp by lia.
      rewrite byte_at_chunk_bytes, R3 by lia.
      rewrite byte_at_splice by (rewrite ?zlen_chunk_bytes by lia; lia).
      rewrite byte_at_chunk_bytes by lia. rewrite Z.add_0_r. done.
Qed.

End chunks.

(** C37: the contents of an in-memory file implement a flat byte vector, whichever of the two
    representations holds them: the length, the flattened bytes and a read are those of the
    vector (a read past the end returns 0 and leaves the buffer), [resize] truncates it or
    extends it with zeroes, a write replaces exactly the written range after extending the
    file to the end of the write, and every operation keeps the representation well formed
    (so a sparse file never reads stale bytes after it shrank and grew). *)
Theorem mem_content_refines limit chunk c :
  0 < chunk → 0 ≤ limit → content_wf limit chunk c →
  let bytes := content_bytes chunk c in
  content_len c = zlen bytes ∧
  to_vec chunk c = bytes ∧
  (∀ offset buf, 0 ≤ offset →
     content_read_at chunk c offset buf =
       if bool_decide (zlen bytes ≤ offset) then (buf, 0)
       else let n := Z.min (zlen buf) (zlen bytes - offset) in
            (subslice offset n bytes ++ drop (Z.to_nat n) buf, n)) ∧
  (∀ n, 0 ≤ n → n + chunk ≤ USIZE_MAX →
     content_wf limit chunk (content_resize limit chunk c n) ∧
     content_bytes chunk (content_resize limit chunk c n) = resize_vec n bytes) ∧
  (∀ offset buf, 0 ≤ offset → offset + zlen buf + chunk ≤ USIZE_MAX →
     let '(c', e) := content_write_at limit chunk c offset buf in
     e = offset + zlen buf ∧ content_wf limit chunk c' ∧
     content_bytes chunk c' = splice offset buf (resize_vec (Z.max (zlen bytes) (offset + zlen buf)) bytes)) ∧
  (∀ l, content_wf limit chunk (from_slice limit chunk l) ∧ content_bytes chunk (from_slice limit chunk l) = l).
Proof.
  intros Hc Hl Hw bytes. assert (zlen bytes = content_len c) as E by by apply (content_bytes_len limit).
  split_and!.
  - done.
  - by apply (content_to_vec_spec limit).
  - intros offset buf Ho. rewrite E. by apply (content_read_spec limit).
  - intros n Hn Hm. destruct (content_resize_spec limit chunk Hc Hl c n) as (H1 & _ & H2); done.
  - intros offset buf Ho Hm. rewrite E. by apply content_write_spec.
  - intros l. by apply from_slice_spec.
Qed.

(** A file of 10 bytes with an inline limit of 4 and chunks of 3 bytes: it shrinks to 7 and a
    write at 11 makes it grow again. *)
Lemma mem_content_refines_witness :
  let c := Chunked 10 [Some [1; 2; 3]; None; Some [7]; None] in
  let c' := content_resize 4 3 c 7 in
  content_wf 4 3 c ∧
  content_bytes 3 c = [1; 2; 3; 0; 0; 0; 7; 0; 0; 0] ∧
  content_bytes 3 c' = [1; 2; 3; 0; 0; 0; 7] ∧
  (content_write_at 4 3 c' 11 [8; 9]).2 = 13 ∧
  content_bytes 3 (content_write_at 4 3 c' 11 [8; 9]).1 = [1; 2; 3; 0; 0; 0; 7; 0; 0; 0; 0; 8; 9].
Proof.
  intros c c'.
  assert (content_wf 4 3 c) as Hw.
  { simpl. split_and!; [lia|reflexivity|]. intros [|[|[|[|i]]]]; unfold chunk_data, zlen; simpl; (split; [lia|]); intros H; try done; lia. }
  destruct (mem_content_refines 4 3 c ltac:(lia) ltac:(lia) Hw) as (_ & _ & _ & Hr & _).
  destruct (Hr 7 ltac:(lia) ltac:(unfold USIZE_MAX; lia)) as [Hw' Hb'].
  destruct (mem_content_refines 4 3 c' ltac:(lia) ltac:(lia) Hw') as (_ & _ & _ & _ & Hwr & _).
  specialize (Hwr 11 [8; 9] ltac:(lia) ltac:(unfold USIZE_MAX, zlen; simpl; lia)).
  destruct (content_write_at 4 3 c' 11 [8; 9]) as [c2 e] eqn:E2. destruct Hwr as (-> & _ & Hb2).
  split_and!; [done|reflexivity|unfold c'; rewrite Hb'; reflexivity|reflexivity|].
  cbn [fst]. rewrite Hb2. unfold c'. rewrite Hb'. reflexivity.
Defined.
