(* ===== verification/IoStore.v ===== *)
(** * The objects open descriptors share (src/os/src/fs/fd.rs)

    Descriptors refer to pipes, event counters, sockets and the backing of in-memory files
    through [Arc<Mutex<..>>]; here a store maps the handles to the objects.  The store also
    records, in order, the wake-ups the operations issue and the characters they print.
    What descriptors use of the ext4 volume and of the loop devices is the class
    [BackingFiles]. *)

From S2P Require Import Prelude FileDesc MemFile.

(** ** Constants *)

Definition MAX_FD_NUM : Z := 1024.
Definition FD_CLOEXEC : Z := 1.
Definition CONSOLE_LINE_CAP : Z := 512.
Definition MAX_FILE_OFFSET : Z := 2 ^ 63 - 1.
Definition PIPE_CAPACITY : Z := 64 * 1024.
Definition PIPE_SMALL_COPY : Z := 64.
Definition U64_MAX : Z := 2 ^ 64 - 1.
Definition SOCK_STREAM : Z := 1.
Definition SOCK_DGRAM : Z := 2.
Definition SOCK_SEQPACKET : Z := 5.
Definition PIPE_WAIT_READABLE : Z := 1.
Definition PIPE_WAIT_WRITABLE : Z := 2.
Definition EVENTFD_WAIT_READABLE : Z := 1.
Definition EVENTFD_WAIT_WRITABLE : Z := 2.
Definition SOCKET_WAIT_READABLE : Z := 1.
Definition O_APPEND : Z := 0x400.
Definition O_NONBLOCK : Z := 0x800.

(** ** The shared objects *)

Record PipeState := mkPipe { pipe_buf : list Z; pipe_readers : Z; pipe_writers : Z }.

(** [PipeState::new] *)
Definition pipe_new : PipeState := mkPipe [] 1 1.

Record EventFdState := mkEventFd { ev_counter : Z; ev_semaphore : bool; ev_nonblock : bool }.

Record SocketPacket := mkPacket { pk_data : list Z; pk_addr : list Z }.

(** The fields of [SocketState] that the descriptor operations use; [so_peer] is the handle
    of a [Weak] reference. *)
Record SocketState := mkSocket {
  so_type : Z; so_nonblock : bool; so_listening : bool; so_connected : bool;
  so_shutdown_read : bool; so_shutdown_write : bool;
  so_peer : option handle; so_peer_write_closed : bool; so_peer_read_closed : bool;
  so_rx_buf : list Z; so_dgram_queue : list SocketPacket; so_pending : list handle;
  so_recv_timeout_us : option Z; so_error : Z
}.

Definition so_set_queues (s : SocketState) (rx : list Z) (dgrams : list SocketPacket) : SocketState :=
  mkSocket (so_type s) (so_nonblock s) (so_listening s) (so_connected s) (so_shutdown_read s)
    (so_shutdown_write s) (so_peer s) (so_peer_write_closed s) (so_peer_read_closed s) rx dgrams
    (so_pending s) (so_recv_timeout_us s) (so_error s).

Definition so_set_nonblock (s : SocketState) (nonblock : bool) : SocketState :=
  mkSocket (so_type s) nonblock (so_listening s) (so_connected s) (so_shutdown_read s)
    (so_shutdown_write s) (so_peer s) (so_peer_write_closed s) (so_peer_read_closed s) (so_rx_buf s)
    (so_dgram_queue s) (so_pending s) (so_recv_timeout_us s) (so_error s).

Definition so_close_peer (s : SocketState) : SocketState :=
  mkSocket (so_type s) (so_nonblock s) (so_listening s) (so_connected s) (so_shutdown_read s)
    (so_shutdown_write s) (so_peer s) true true (so_rx_buf s) (so_dgram_queue s) (so_pending s)
    (so_recv_timeout_us s) (so_error s).

Definition is_stream (s : SocketState) : bool := bool_decide (so_type s = SOCK_STREAM).
Definition is_datagram (s : SocketState) : bool := bool_decide (so_type s = SOCK_DGRAM).
Definition is_seqpacket (s : SocketState) : bool := bool_decide (so_type s = SOCK_SEQPACKET).
Definition is_connection_oriented (s : SocketState) : bool := is_stream s || is_seqpacket s.
Definition is_message_oriented (s : SocketState) : bool := is_datagram s || is_seqpacket s.

(** [SocketState::new] for the fields above *)
Definition socket_new (sock_type : Z) (nonblock : bool) : SocketState :=
  mkSocket sock_type nonblock false false false false None false false [] [] [] None 0.

(** [FileTimes] (src/os/src/fs/mod.rs) *)
Record FileTimes := mkTimes {
  atime_sec : Z; atime_nsec : Z; mtime_sec : Z; mtime_nsec : Z; ctime_sec : Z; ctime_nsec : Z
}.

Record MemFileBacking := mkBacking { bk_content : MemFileContent; bk_times : FileTimes }.

(** The wake-ups: the waiters on one key [WaitKey::new(Arc::as_ptr(state), event)], or all
    waiters for I/O. *)
Inductive Wake :=
  | WakeKey (object : handle) (event : Z)
  | WakeIo.

#[export] Instance Wake_eq_dec : EqDecision Wake.
Proof. solve_decision. Defined.

#[export] Instance PipeState_inhabited : Inhabited PipeState := populate pipe_new.
#[export] Instance EventFdState_inhabited : Inhabited EventFdState := populate (mkEventFd 0 false false).
#[export] Instance SocketState_inhabited : Inhabited SocketState := populate (socket_new 0 false).
#[export] Instance MemFileBacking_inhabited : Inhabited MemFileBacking :=
  populate (mkBacking content_new (mkTimes 0 0 0 0 0 0)).

(** What descriptors use of the ext4 volume (src/os/src/fs/ext4_vol.rs) and of the loop
    devices (src/os/src/fs/block_dev.rs).  A read returns the buffer it filled. *)
Class BackingFiles (E : Type) := {
  ext4_read_at : E → Z → Z → list Z → E * list Z * result Z SysErrNo;
  ext4_write_at : E → Z → Z → list Z → E * result Z SysErrNo;
  regular_file_size : E → Z → result Z SysErrNo;
  truncate_regular_ino : E → Z → Z → E * result unit SysErrNo;
  flush_cached_ino : E → Z → E * result unit SysErrNo;
  ext4_list_dir_by_ino : E → Z → result (list (Z * string * bool)) SysErrNo;
  open_regular_ino : E → Z → E;
  close_regular_ino : E → Z → E;
  loop_read_at : E → Z → Z → list Z → E * list Z * result Z SysErrNo;
  loop_write_at : E → Z → Z → list Z → E * result Z SysErrNo;
  loop_size : E → Z → result Z SysErrNo
}.

Section store.
Context {E : Type}.

(** [io_console] is [CONSOLE_LINE_BUFFERS], [io_pid] the id of the running thread group,
    [io_clock] the time of day in seconds and microseconds, [io_input] what successive calls
    of [getchar] return. *)
Record Io := mkIo {
  io_backings : gmap handle MemFileBacking;
  io_pipes : gmap handle PipeState;
  io_eventfds : gmap handle EventFdState;
  io_sockets : gmap handle SocketState;
  io_leases : gmap handle Z;
  io_files : E;
  io_console : list (Z * list Z);
  io_output : list Z;
  io_input : list (option Z);
  io_pid : Z;
  io_clock : Z * Z;
  io_wakes : list Wake
}.

Definition set_backings (io : Io) m : Io :=
  mkIo m (io_pipes io) (io_eventfds io) (io_sockets io) (io_leases io) (io_files io) (io_console io) (io_output io)
    (io_input io) (io_pid io) (io_clock io) (io_wakes io).
Definition set_pipes (io : Io) m : Io :=
  mkIo (io_backings io) m (io_eventfds io) (io_sockets io) (io_leases io) (io_files io) (io_console io) (io_output io)
    (io_input io) (io_pid io) (io_clock io) (io_wakes io).
Definition set_eventfds (io : Io) m : Io :=
  mkIo (io_backings io) (io_pipes io) m (io_sockets io) (io_leases io) (io_files io) (io_console io) (io_output io)
    (io_input io) (io_pid io) (io_clock io) (io_wakes io).
Definition set_sockets (io : Io) m : Io :=
  mkIo (io_backings io) (io_pipes io) (io_eventfds io) m (io_leases io) (io_files io) (io_console io) (io_output io)
    (io_input io) (io_pid io) (io_clock io) (io_wakes io).
Definition set_leases (io : Io) m : Io :=
  mkIo (io_backings io) (io_pipes io) (io_eventfds io) (io_sockets io) m (io_files io) (io_console io) (io_output io)
    (io_input io) (io_pid io) (io_clock io) (io_wakes io).
Definition set_files (io : Io) e : Io :=
  mkIo (io_backings io) (io_pipes io) (io_eventfds io) (io_sockets io) (io_leases io) e (io_console io) (io_output io)
    (io_input io) (io_pid io) (io_clock io) (io_wakes io).
Definition set_console (io : Io) buffers out : Io :=
  mkIo (io_backings io) (io_pipes io) (io_eventfds io) (io_sockets io) (io_leases io) (io_files io) buffers out
    (io_input io) (io_pid io) (io_clock io) (io_wakes io).
Definition set_input (io : Io) input : Io :=
  mkIo (io_backings io) (io_pipes io) (io_eventfds io) (io_sockets io) (io_leases io) (io_files io) (io_console io)
    (io_output io) input (io_pid io) (io_clock io) (io_wakes io).
Definition wake (io : Io) (w : list Wake) : Io :=
  mkIo (io_backings io) (io_pipes io) (io_eventfds io) (io_sockets io) (io_leases io) (io_files io) (io_console io)
    (io_output io) (io_input io) (io_pid io) (io_clock io) (io_wakes io ++ w).

Definition set_pipe (io : Io) (h : handle) (p : PipeState) : Io := set_pipes io (<[h := p]> (io_pipes io)).
Definition set_eventfd (io : Io) (h : handle) (s : EventFdState) : Io := set_eventfds io (<[h := s]> (io_eventfds io)).
Definition set_socket (io : Io) (h : handle) (s : SocketState) : Io := set_sockets io (<[h := s]> (io_sockets io)).
Definition set_backing (io : Io) (h : handle) (b : MemFileBacking) : Io := set_backings io (<[h := b]> (io_backings io)).

(** [wake_pipe_readers], [wake_pipe_writers] *)
Definition wake_pipe_readers (io : Io) (h : handle) : Io := wake io [WakeKey h PIPE_WAIT_READABLE].
Definition wake_pipe_writers (io : Io) (h : handle) : Io := wake io [WakeKey h PIPE_WAIT_WRITABLE].
(** [wake_eventfd_readers], [wake_eventfd_writers] *)
Definition wake_eventfd_readers (io : Io) (h : handle) : Io := wake io [WakeKey h EVENTFD_WAIT_READABLE].
Definition wake_eventfd_writers (io : Io) (h : handle) : Io := wake io [WakeKey h EVENTFD_WAIT_WRITABLE].
Definition wake_socket_readers (io : Io) (h : handle) : Io := wake io [WakeKey h SOCKET_WAIT_READABLE].
Definition wake_io_waiters (io : Io) : Io := wake io [WakeIo].

(** [self.peer.as_ref().and_then(Weak::upgrade)]: the peer while it is alive *)
Definition upgrade (io : Io) (peer : option handle) : option handle :=
  match peer with
  | Some h => match io_sockets io !! h with Some _ => Some h | None => None end
  | None => None
  end.

(** [receive_eof] *)
Definition receive_eof (io : Io) (s : SocketState) : bool :=
  is_connection_oriented s && so_connected s &&
  (so_peer_write_closed s || bool_decide (upgrade io (so_peer s) = None)).

(** [FileTimes::touch_modified] *)
Definition touch_modified (io : Io) (t : FileTimes) : FileTimes :=
  let '(sec, usec) := io_clock io in
  mkTimes (atime_sec t) (atime_nsec t) sec (usec * 1000) sec (usec * 1000).

(** [impl Drop for SocketState]: the socket at [h] goes away *)
Definition drop_socket (io : Io) (h : handle) : Io :=
  let peer := so_peer (io_sockets io !!! h) in
  let io := set_sockets io (delete h (io_sockets io)) in
  match upgrade io peer with
  | Some p => wake_io_waiters (wake_socket_readers (set_socket io p (so_close_peer (io_sockets io !!! p))) p)
  | None => io
  end.

End store.
Arguments Io E : clear implicits.

(** A machine without a volume or loop devices, and nothing open. *)
#[export] Instance no_files : BackingFiles unit := {
  ext4_read_at e _ _ buf := (e, buf, Err ENOENT);
  ext4_write_at e _ _ _ := (e, Err ENOENT);
  regular_file_size _ _ := Err ENOENT;
  truncate_regular_ino e _ _ := (e, Err ENOENT);
  flush_cached_ino e _ := (e, Err ENOENT);
  ext4_list_dir_by_ino _ _ := Err ENOENT;
  open_regular_ino e _ := e;
  close_regular_ino e _ := e;
  loop_read_at e _ _ buf := (e, buf, Err ENXIO);
  loop_write_at e _ _ _ := (e, Err ENXIO);
  loop_size _ _ := Err ENXIO
}.

Definition empty_io : Io unit := mkIo ∅ ∅ ∅ ∅ ∅ () [] [] [] 1 (0, 0) [].
