(* ===== verification/FdOps.v ===== *)
(** * The operations of open descriptors (src/os/src/fs/fd.rs, [FileDescriptor])

    Reading, writing, seeking, resizing and polling, one function per method with an arm per
    kind of descriptor.  A method that changes the descriptor returns the new one; the
    shared objects are those of the store of IoStore.v.  The interactive console of a
    demonstration build ([WLL_INTERACTIVE]) is not modelled: [interactive_stdin_enabled] is
    false. *)

From S2P Require Import Prelude FileDesc MemFile IoStore.

Definition content_at (c : MemFileContent) (offset : Z) (buf : list Z) : list Z * Z :=
  content_read_at MEM_FILE_CHUNK_SIZE c offset buf.

(** [is_dev_null_path], [is_dev_zero_path] *)
Definition is_dev_null_path (path : string) : bool :=
  bool_decide (path = "/dev/null"%string) || bool_decide (path = "/glibc/dev/null"%string) ||
  bool_decide (path = "/musl/dev/null"%string).
Definition is_dev_zero_path (path : string) : bool :=
  bool_decide (path = "/dev/zero"%string) || bool_decide (path = "/glibc/dev/zero"%string) ||
  bool_decide (path = "/musl/dev/zero"%string).

(** [checked_file_end] *)
Definition checked_file_end (offset len : Z) : result Z SysErrNo :=
  match checked_add offset len with
  | None => Err EFBIG
  | Some end_ => if bool_decide (MAX_FILE_OFFSET < end_) then Err EFBIG else Ok end_
  end.

(** [checked_seek_from]; [delta] is an [isize] *)
Definition checked_seek_from (base delta : Z) : result Z SysErrNo :=
  match (if bool_decide (0 ≤ delta) then checked_add base delta else checked_sub base (- delta)) with
  | None => Err EINVAL
  | Some next => if bool_decide (MAX_FILE_OFFSET < next) then Err EINVAL else Ok next
  end.

(** [pipe_read_buffer]: the pipe, the buffer and the count; small reads pop byte by byte,
    large ones copy the two halves of the ring and drain them. *)
Fixpoint pop_bytes (n : nat) (queue : list Z) : list Z * list Z :=
  match n with
  | O => ([], queue)
  | S n =>
      match queue with
      | b :: queue => let '(popped, rest) := pop_bytes n queue in (b :: popped, rest)
      | [] => let '(popped, rest) := pop_bytes n [] in (0 :: popped, rest)
      end
  end.

Definition pipe_read_buffer (pipe : PipeState) (buf : list Z) : PipeState * list Z * Z :=
  let n := Z.min (zlen buf) (zlen (pipe_buf pipe)) in
  if bool_decide (n ≤ PIPE_SMALL_COPY) then
    let '(popped, rest) := pop_bytes (Z.to_nat n) (pipe_buf pipe) in
    (mkPipe rest (pipe_readers pipe) (pipe_writers pipe), splice 0 popped buf, n)
  else
    (mkPipe (drop (Z.to_nat n) (pipe_buf pipe)) (pipe_readers pipe) (pipe_writers pipe),
     splice 0 (take (Z.to_nat n) (pipe_buf pipe)) buf, n).

(** [pipe_write_buffer] *)
Definition pipe_write_buffer (pipe : PipeState) (buf : list Z) (available : Z) : PipeState * Z :=
  let n := Z.min (zlen buf) available in
  let bytes := take (Z.to_nat n) buf in
  let queue :=
    if bool_decide (n ≤ PIPE_SMALL_COPY) then foldl (λ q b, q ++ [b]) (pipe_buf pipe) bytes
    else pipe_buf pipe ++ bytes in
  (mkPipe queue (pipe_readers pipe) (pipe_writers pipe), n).

(** One character through [write_console_buffered]: the line is printed at a newline or when
    it reaches the cap. *)
Definition console_byte (acc : list Z * list Z) (byte : Z) : list Z * list Z :=
  let '(line, out) := acc in
  let line := line ++ [byte] in
  if bool_decide (byte = 10) || bool_decide (CONSOLE_LINE_CAP ≤ zlen line) then ([], out ++ line)
  else (line, out).

Section operations.
Context {E : Type} `{!BackingFiles E}.

(** [write_console_buffered]: the buffer of the running thread group, made if absent *)
Fixpoint console_update (buffers : list (Z * list Z)) (pid : Z) (f : list Z → list Z) : list (Z * list Z) :=
  match buffers with
  | [] => [(pid, f [])]
  | (owner, line) :: rest =>
      if bool_decide (owner = pid) then (owner, f line) :: rest else (owner, line) :: console_update rest pid f
  end.
Definition console_line (buffers : list (Z * list Z)) (pid : Z) : list Z :=
  default [] (snd <$> (head (filter (λ e, e.1 = pid) buffers))).

Definition write_console_buffered (io : Io E) (buf : list Z) : Io E :=
  let '(line, out) := foldl console_byte (console_line (io_console io) (io_pid io), []) buf in
  set_console io (console_update (io_console io) (io_pid io) (λ _, line)) (io_output io ++ out).

(** [flush_console_buffer_for_pid] *)
Fixpoint console_remove (buffers : list (Z * list Z)) (pid : Z) : list (Z * list Z) :=
  match buffers with
  | [] => []
  | (owner, line) :: rest => if bool_decide (owner = pid) then rest else (owner, line) :: console_remove rest pid
  end.
Definition flush_console_buffer_for_pid (io : Io E) (pid : Z) : Io E :=
  set_console io (console_remove (io_console io) pid) (io_output io ++ console_line (io_console io) pid).

(** ** Non-blocking mode, leases, identity *)

Definition pipe_read_nonblocking (fd : FileDescriptor) : bool := match fd with PipeRead _ n => n | _ => false end.
Definition is_pipe_read (fd : FileDescriptor) : bool := match fd with PipeRead _ _ => true | _ => false end.
Definition pipe_write_nonblocking (fd : FileDescriptor) : bool := match fd with PipeWrite _ n => n | _ => false end.
Definition is_pipe_write (fd : FileDescriptor) : bool := match fd with PipeWrite _ _ => true | _ => false end.

Definition eventfd_set_nonblock (io : Io E) (h : handle) (nonblock : bool) : Io E :=
  let s := io_eventfds io !!! h in set_eventfd io h (mkEventFd (ev_counter s) (ev_semaphore s) nonblock).
Definition socket_set_nonblock (io : Io E) (h : handle) (nonblock : bool) : Io E :=
  set_socket io h (so_set_nonblock (io_sockets io !!! h) nonblock).

Definition ioctl_set_nonblocking (io : Io E) (fd : FileDescriptor) (nonblock : bool)
    : Io E * FileDescriptor * result unit SysErrNo :=
  match fd with
  | PipeRead h _ => (io, PipeRead h nonblock, Ok ())
  | PipeWrite h _ => (io, PipeWrite h nonblock, Ok ())
  | Socket h => (socket_set_nonblock io h nonblock, fd, Ok ())
  | EventFd h => (eventfd_set_nonblock io h nonblock, fd, Ok ())
  | _ => (io, fd, Err ENOTTY)
  end.

Definition set_status_flags (io : Io E) (fd : FileDescriptor) (flags : Z) : Io E * FileDescriptor :=
  let append := negb (bool_decide (Z.land flags O_APPEND = 0)) in
  let nonblock := negb (bool_decide (Z.land flags O_NONBLOCK = 0)) in
  match fd with
  | MemFile name b off own r w _ linked node => (io, MemFile name b off own r w append linked node)
  | Ext4Regular ino off own r w _ => (io, Ext4Regular ino off own r w append)
  | PipeRead h _ => (io, PipeRead h nonblock)
  | PipeWrite h _ => (io, PipeWrite h nonblock)
  | Socket h => (socket_set_nonblock io h nonblock, fd)
  | EventFd h => (eventfd_set_nonblock io h nonblock, fd)
  | _ => (io, fd)
  end.

Definition pipe_buffered_len (io : Io E) (fd : FileDescriptor) : option Z :=
  match fd with
  | PipeRead h _ | PipeWrite h _ => Some (zlen (pipe_buf (io_pipes io !!! h)))
  | _ => None
  end.

Definition ofd_owner_id (fd : FileDescriptor) : option handle :=
  match fd with
  | MemFile _ _ _ own _ _ _ _ _ | Ext4Regular _ _ own _ _ _ => Some own
  | _ => None
  end.

Definition lease_owner (fd : FileDescriptor) : option handle :=
  match fd with
  | MemFile name _ _ own _ _ _ _ _ =>
      if negb (is_dev_null_path name) && negb (is_dev_zero_path name) then Some own else None
  | Ext4Regular _ _ own _ _ _ => Some own
  | _ => None
  end.
(** a new owner's lease is 2 ([new_open_file_description_owner]) *)
Definition lease (io : Io E) (fd : FileDescriptor) : option Z :=
  own ← lease_owner fd; Some (default 2 (io_leases io !! own)).
Definition set_lease (io : Io E) (fd : FileDescriptor) (l : Z) : Io E * result unit SysErrNo :=
  match lease_owner fd with
  | Some own => (set_leases io (<[own := l]> (io_leases io)), Ok ())
  | None => (io, Err EINVAL)
  end.

(** ** Readiness *)

Definition pipe_read_would_block (io : Io E) (fd : FileDescriptor) : bool :=
  match fd with
  | PipeRead h _ => let pipe := io_pipes io !!! h in bool_decide (pipe_buf pipe = []) && bool_decide (0 < pipe_writers pipe)
  | _ => false
  end.
Definition pipe_write_would_block (io : Io E) (fd : FileDescriptor) : bool :=
  match fd with
  | PipeWrite h _ =>
      let pipe := io_pipes io !!! h in
      bool_decide (0 < pipe_readers pipe) && bool_decide (PIPE_CAPACITY ≤ zlen (pipe_buf pipe))
  | _ => false
  end.
Definition pipe_read_wait_key (fd : FileDescriptor) : option Wake :=
  match fd with PipeRead h _ => Some (WakeKey h PIPE_WAIT_READABLE) | _ => None end.
Definition pipe_write_wait_key (fd : FileDescriptor) : option Wake :=
  match fd with PipeWrite h _ => Some (WakeKey h PIPE_WAIT_WRITABLE) | _ => None end.

Definition eventfd_nonblocking (io : Io E) (fd : FileDescriptor) : bool :=
  match fd with EventFd h => ev_nonblock (io_eventfds io !!! h) | _ => false end.
Definition eventfd_read_would_block (io : Io E) (fd : FileDescriptor) : bool :=
  match fd with EventFd h => bool_decide (ev_counter (io_eventfds io !!! h) = 0) | _ => false end.
Definition eventfd_write_would_block (io : Io E) (fd : FileDescriptor) : bool :=
  match fd with EventFd h => bool_decide (ev_counter (io_eventfds io !!! h) ≠ 0) | _ => false end.
Definition eventfd_read_wait_key (fd : FileDescriptor) : option Wake :=
  match fd with EventFd h => Some (WakeKey h EVENTFD_WAIT_READABLE) | _ => None end.
Definition eventfd_write_wait_key (fd : FileDescriptor) : option Wake :=
  match fd with EventFd h => Some (WakeKey h EVENTFD_WAIT_WRITABLE) | _ => None end.

Definition socket_read_nonblocking (io : Io E) (fd : FileDescriptor) : bool :=
  match fd with Socket h => so_nonblock (io_sockets io !!! h) | _ => false end.
Definition socket_read_would_block (io : Io E) (fd : FileDescriptor) : bool :=
  match fd with
  | Socket h =>
      let socket := io_sockets io !!! h in
      if so_shutdown_read socket then false
      else if is_message_oriented socket then bool_decide (zlen (so_dgram_queue socket) = 0) && negb (receive_eof io socket)
      else so_connected socket && bool_decide (so_rx_buf socket = []) && negb (receive_eof io socket)
  | _ => false
  end.
Definition socket_read_wait_key (fd : FileDescriptor) : option Wake :=
  match fd with Socket h => Some (WakeKey h SOCKET_WAIT_READABLE) | _ => None end.
Definition socket_recv_timeout_us (io : Io E) (fd : FileDescriptor) : option Z :=
  match fd with Socket h => so_recv_timeout_us (io_sockets io !!! h) | _ => None end.

Definition peer_gone (io : Io E) (socket : SocketState) : bool := bool_decide (upgrade io (so_peer socket) = None).

Definition poll_hup (io : Io E) (fd : FileDescriptor) : bool :=
  match fd with
  | PipeRead h _ => bool_decide (pipe_writers (io_pipes io !!! h) = 0)
  | Socket h =>
      let socket := io_sockets io !!! h in
      so_shutdown_read socket && so_shutdown_write socket ||
      is_connection_oriented socket && so_connected socket && peer_gone io socket
  | _ => false
  end.
Definition poll_error (io : Io E) (fd : FileDescriptor) : bool :=
  match fd with
  | PipeWrite h _ => bool_decide (pipe_readers (io_pipes io !!! h) = 0)
  | Socket h => bool_decide (so_error (io_sockets io !!! h) ≠ 0)
  | _ => false
  end.
Definition poll_read_ready (io : Io E) (fd : FileDescriptor) : bool :=
  match fd with
  | Stdin => true
  | MemFile _ _ _ _ readable _ _ _ _ => readable
  | Ext4Regular _ _ _ readable _ _ => readable
  | LoopDevice _ _ readable _ => readable
  | PipeRead h _ =>
      let pipe := io_pipes io !!! h in negb (bool_decide (pipe_buf pipe = [])) || bool_decide (pipe_writers pipe = 0)
  | EventFd h => bool_decide (ev_counter (io_eventfds io !!! h) ≠ 0)
  | Socket h =>
      let socket := io_sockets io !!! h in
      so_shutdown_read socket || negb (bool_decide (so_rx_buf socket = [])) ||
      negb (bool_decide (zlen (so_dgram_queue socket) = 0)) || negb (bool_decide (so_pending socket = [])) ||
      is_connection_oriented socket && so_connected socket && (so_peer_write_closed socket || peer_gone io socket)
  | _ => false
  end.
Definition poll_write_ready (io : Io E) (fd : FileDescriptor) : bool :=
  match fd with
  | Stdout | Stderr => true
  | MemFile _ _ _ _ _ writable _ _ _ => writable
  | Ext4Regular _ _ _ _ writable _ => writable
  | LoopDevice _ _ _ writable => writable
  | PipeWrite h _ =>
      let pipe := io_pipes io !!! h in
      bool_decide (0 < pipe_readers pipe) && bool_decide (zlen (pipe_buf pipe) < PIPE_CAPACITY)
  | EventFd h => bool_decide (ev_counter (io_eventfds io !!! h) < U64_MAX - 1)
  | Socket h =>
      let socket := io_sockets io !!! h in
      (so_connected socket || is_datagram socket) && negb (so_shutdown_write socket) && negb (so_peer_read_closed socket) &&
      (negb (is_connection_oriented socket) || negb (peer_gone io socket)) && bool_decide (so_error socket = 0)
  | _ => false
  end.

Definition fd_readable (fd : FileDescriptor) : bool :=
  match fd with
  | Stdin | PipeRead _ _ | Socket _ | EventFd _ => true
  | MemFile _ _ _ _ readable _ _ _ _ | Ext4Regular _ _ _ readable _ _ | LoopDevice _ _ readable _ => readable
  | _ => false
  end.
Definition fd_writable (fd : FileDescriptor) : bool :=
  match fd with
  | Stdout | Stderr | PipeWrite _ _ | Socket _ | EventFd _ => true
  | MemFile _ _ _ _ _ writable _ _ _ | Ext4Regular _ _ _ _ writable _ | LoopDevice _ _ _ writable => writable
  | _ => false
  end.

(** ** Reading *)

Definition set_mem_offset (fd : FileDescriptor) (off : Z) : FileDescriptor :=
  match fd with
  | MemFile name b _ own r w a linked node => MemFile name b off own r w a linked node
  | Ext4Regular ino _ own r w a => Ext4Regular ino off own r w a
  | LoopDevice i _ r w => LoopDevice i off r w
  | MemDir p hp entries _ => MemDir p hp entries off
  | Ext4Dir p ino _ => Ext4Dir p ino off
  | _ => fd
  end.

(** The [Stdin] arm of [read] *)
Definition read_stdin (io : Io E) (buf : list Z) : Io E * list Z * result Z SysErrNo :=
  let io' := set_input io (tail (io_input io)) in
  match head (io_input io) with
  | Some (Some c) => if bool_decide (buf = []) then (io', buf, Ok 0) else (io', splice 0 [c] buf, Ok 1)
  | _ => (io', buf, Ok 0)
  end.

(** The [PipeRead] arm *)
Definition read_pipe (io : Io E) (h : handle) (buf : list Z) : Io E * list Z * result Z SysErrNo :=
  if bool_decide (buf = []) then (io, buf, Ok 0)
  else
    let pipe := io_pipes io !!! h in
    if bool_decide (pipe_buf pipe = []) then
      if bool_decide (pipe_writers pipe = 0) then (io, buf, Ok 0) else (io, buf, Err EAGAIN)
    else
      let was_full := bool_decide (zlen (pipe_buf pipe) = PIPE_CAPACITY) in
      let '(pipe, buf, n) := pipe_read_buffer pipe buf in
      let io := set_pipe io h pipe in
      let io := if was_full && bool_decide (zlen (pipe_buf pipe) < PIPE_CAPACITY) then wake_pipe_writers io h else io in
      (io, buf, Ok n).

(** The [EventFd] arm *)
Definition read_eventfd (io : Io E) (h : handle) (buf : list Z) : Io E * list Z * result Z SysErrNo :=
  if bool_decide (zlen buf < 8) then (io, buf, Err EINVAL)
  else
    let s := io_eventfds io !!! h in
    if bool_decide (ev_counter s = 0) then (io, buf, Err EAGAIN)
    else
      let '(counter, value) := if ev_semaphore s then (ev_counter s - 1, 1) else (0, ev_counter s) in
      let io := wake_eventfd_writers (set_eventfd io h (mkEventFd counter (ev_semaphore s) (ev_nonblock s))) h in
      (io, splice 0 (le_bytes 8 value) buf, Ok 8).

(** The [Socket] arm *)
Definition read_socket (io : Io E) (h : handle) (buf : list Z) : Io E * list Z * result Z SysErrNo :=
  if bool_decide (buf = []) then (io, buf, Ok 0)
  else
    let socket := io_sockets io !!! h in
    if so_shutdown_read socket then (io, buf, Ok 0)
    else if is_connection_oriented socket && negb (so_connected socket) then (io, buf, Err ENOTCONN)
    else
      let finish io (data : list Z) n :=
        let io := if bool_decide (0 < n) then wake_io_waiters io else io in
        (io, splice 0 data buf, Ok n) in
      let empty := if receive_eof io socket then (io, buf, Ok 0) else (io, buf, Err EAGAIN) in
      if is_message_oriented socket then
        match so_dgram_queue socket with
        | packet :: rest =>
            let n := Z.min (zlen buf) (zlen (pk_data packet)) in
            finish (set_socket io h (so_set_queues socket (so_rx_buf socket) rest)) (take (Z.to_nat n) (pk_data packet)) n
        | [] => empty
        end
      else
        match so_rx_buf socket with
        | [] => empty
        | _ :: _ =>
            let n := Z.min (zlen buf) (zlen (so_rx_buf socket)) in
            finish (set_socket io h (so_set_queues socket (drop (Z.to_nat n) (so_rx_buf socket)) (so_dgram_queue socket)))
              (take (Z.to_nat n) (so_rx_buf socket)) n
        end.

(** [read]: the store, the descriptor, the buffer and the count *)
Definition fd_read (io : Io E) (fd : FileDescriptor) (buf : list Z)
    : Io E * FileDescriptor * list Z * result Z SysErrNo :=
  let keep r := match r with (io, buf, res) => (io, fd, buf, res) end in
  match fd with
  | Stdin => keep (read_stdin io buf)
  | MemFile name b off _ readable _ _ _ _ =>
      if negb readable then (io, fd, buf, Err EBADF)
      else if is_dev_null_path name then (io, fd, buf, Ok 0)
      else if is_dev_zero_path name then
        (io, set_mem_offset fd (sat_add off (zlen buf)), replicate (length buf) 0, Ok (zlen buf))
      else
        let content := bk_content (io_backings io !!! b) in
        if bool_decide (content_len content ≤ off) then (io, fd, buf, Ok 0)
        else
          let '(buf, to_read) := content_at content off buf in
          (io, set_mem_offset fd (wrap (off + to_read)), buf, Ok to_read)
  | MemDir _ _ _ _ | Ext4Dir _ _ _ => (io, fd, buf, Err EISDIR)
  | Ext4Regular ino off _ readable _ _ =>
      if negb readable then (io, fd, buf, Err EBADF)
      else
        let '(e, buf, res) := ext4_read_at (io_files io) ino off buf in
        let io := set_files io e in
        match res with
        | Err err => (io, fd, buf, Err err)
        | Ok n => (io, set_mem_offset fd (wrap (off + n)), buf, Ok n)
        end
  | PathFd _ _ _ _ => (io, fd, buf, Err EBADF)
  | LoopControl => (io, fd, buf, Err ENXIO)
  | LoopDevice index off readable _ =>
      if negb readable then (io, fd, buf, Err EBADF)
      else
        let '(e, buf, res) := loop_read_at (io_files io) index off buf in
        let io := set_files io e in
        match res with
        | Err err => (io, fd, buf, Err err)
        | Ok n => (io, set_mem_offset fd (sat_add off n), buf, Ok n)
        end
  | PipeRead h _ => keep (read_pipe io h buf)
  | PipeWrite _ _ => (io, fd, buf, Err EBADF)
  | EventFd h => keep (read_eventfd io h buf)
  | Socket h => keep (read_socket io h buf)
  | _ => (io, fd, buf, Err EBADF)
  end.

(** [read_at] *)
Definition fd_read_at (io : Io E) (fd : FileDescriptor) (offset : Z) (buf : list Z)
    : Io E * list Z * result Z SysErrNo :=
  match fd with
  | MemFile name b _ _ readable _ _ _ _ =>
      if negb readable then (io, buf, Err EBADF)
      else if is_dev_null_path name then (io, buf, Ok 0)
      else if is_dev_zero_path name then (io, replicate (length buf) 0, Ok (zlen buf))
      else
        let content := bk_content (io_backings io !!! b) in
        if bool_decide (content_len content ≤ offset) then (io, buf, Ok 0)
        else let '(buf, to_read) := content_at content offset buf in (io, buf, Ok to_read)
  | Ext4Regular ino _ _ readable _ _ =>
      if negb readable then (io, buf, Err EBADF)
      else let '(e, buf, res) := ext4_read_at (io_files io) ino offset buf in (set_files io e, buf, res)
  | MemDir _ _ _ _ | Ext4Dir _ _ _ => (io, buf, Err EISDIR)
  | PathFd _ _ _ _ => (io, buf, Err EBADF)
  | LoopControl => (io, buf, Err ENXIO)
  | LoopDevice index _ readable _ =>
      if negb readable then (io, buf, Err EBADF)
      else let '(e, buf, res) := loop_read_at (io_files io) index offset buf in (set_files io e, buf, res)
  | PipeRead _ _ | PipeWrite _ _ | Socket _ => (io, buf, Err ESPIPE)
  | _ => (io, buf, Err EBADF)
  end.

(** ** Writing *)

(** [backing.content.write_at] followed by [touch_modified] *)
Definition write_backing (io : Io E) (b : handle) (offset : Z) (buf : list Z) : Io E :=
  let backing := io_backings io !!! b in
  set_backing io b
    (mkBacking (content_write_at MEM_FILE_INLINE_LIMIT MEM_FILE_CHUNK_SIZE (bk_content backing) offset buf).1
       (touch_modified io (bk_times backing))).

Definition resize_backing (io : Io E) (b : handle) (new_len : Z) : Io E :=
  let backing := io_backings io !!! b in
  set_backing io b
    (mkBacking (content_resize MEM_FILE_INLINE_LIMIT MEM_FILE_CHUNK_SIZE (bk_content backing) new_len)
       (touch_modified io (bk_times backing))).

(** [write_at] *)
Definition fd_write_at (io : Io E) (fd : FileDescriptor) (offset : Z) (buf : list Z) : Io E * result Z SysErrNo :=
  match fd with
  | MemFile name b _ _ _ writable _ _ _ =>
      if negb writable then (io, Err EBADF)
      else if is_dev_null_path name || is_dev_zero_path name then (io, Ok (zlen buf))
      else if bool_decide (buf = []) then (io, Ok 0)
      else
        match checked_file_end offset (zlen buf) with
        | Err e => (io, Err e)
        | Ok _ => (write_backing io b offset buf, Ok (zlen buf))
        end
  | Ext4Regular ino _ _ _ writable _ =>
      if negb writable then (io, Err EBADF)
      else
        match checked_file_end offset (zlen buf) with
        | Err e => (io, Err e)
        | Ok _ => let '(e, res) := ext4_write_at (io_files io) ino offset buf in (set_files io e, res)
        end
  | MemDir _ _ _ _ | Ext4Dir _ _ _ => (io, Err EISDIR)
  | PathFd _ _ _ _ => (io, Err EBADF)
  | LoopControl => (io, Err ENXIO)
  | LoopDevice index _ _ writable =>
      if negb writable then (io, Err EBADF)
      else
        match checked_file_end offset (zlen buf) with
        | Err e => (io, Err e)
        | Ok _ => let '(e, res) := loop_write_at (io_files io) index offset buf in (set_files io e, res)
        end
  | PipeRead _ _ | PipeWrite _ _ | Socket _ => (io, Err ESPIPE)
  | _ => (io, Err EBADF)
  end.

(** The [PipeWrite] arm of [write] *)
Definition write_pipe (io : Io E) (h : handle) (buf : list Z) : Io E * result Z SysErrNo :=
  if bool_decide (buf = []) then (io, Ok 0)
  else
    let pipe := io_pipes io !!! h in
    if bool_decide (pipe_readers pipe = 0) then (io, Err EPIPE)
    else
      let available := sat_sub PIPE_CAPACITY (zlen (pipe_buf pipe)) in
      if bool_decide (available = 0) then (io, Err EAGAIN)
      else
        let was_empty := bool_decide (pipe_buf pipe = []) in
        let '(pipe, written) := pipe_write_buffer pipe buf available in
        let io := set_pipe io h pipe in
        let io := if was_empty && negb (bool_decide (written = 0)) then wake_pipe_readers io h else io in
        (io, Ok written).

(** The [EventFd] arm *)
Definition write_eventfd (io : Io E) (h : handle) (buf : list Z) : Io E * result Z SysErrNo :=
  if bool_decide (zlen buf < 8) then (io, Err EINVAL)
  else
    let value := of_le_bytes (take 8 buf) in
    if bool_decide (value = U64_MAX) then (io, Err EINVAL)
    else
      let s := io_eventfds io !!! h in
      let available := sat_sub (U64_MAX - 1) (ev_counter s) in
      if bool_decide (available < value) then (io, Err EAGAIN)
      else
        let was_empty := bool_decide (ev_counter s = 0) in
        let io := set_eventfd io h (mkEventFd (wrap (ev_counter s + value)) (ev_semaphore s) (ev_nonblock s)) in
        let io := if was_empty && negb (bool_decide (value = 0)) then wake_eventfd_readers io h else io in
        (io, Ok 8).

(** The [Socket] arm *)
Definition write_socket (io : Io E) (h : handle) (buf : list Z) : Io E * result Z SysErrNo :=
  if bool_decide (buf = []) then (io, Ok 0)
  else
    let socket := io_sockets io !!! h in
    if so_shutdown_write socket then (io, Err EPIPE)
    else if is_connection_oriented socket && negb (so_connected socket) then (io, Err ENOTCONN)
    else if so_peer_read_closed socket then (io, Err EPIPE)
    else
      match upgrade io (so_peer socket) with
      | None => (io, Err EPIPE)
      | Some p =>
          let peer := io_sockets io !!! p in
          if so_shutdown_read peer then (io, Err EPIPE)
          else
            let peer :=
              if is_message_oriented peer then so_set_queues peer (so_rx_buf peer) (so_dgram_queue peer ++ [mkPacket buf []])
              else so_set_queues peer (so_rx_buf peer ++ buf) (so_dgram_queue peer) in
            (wake_socket_readers (set_socket io p peer) p, Ok (zlen buf))
      end.

(** [write] *)
Definition fd_write (io : Io E) (fd : FileDescriptor) (buf : list Z) : Io E * FileDescriptor * result Z SysErrNo :=
  let keep r := match r with (io, res) => (io, fd, res) end in
  match fd with
  | Stdout | Stderr => (write_console_buffered io buf, fd, Ok (zlen buf))
  | MemDir _ _ _ _ => (io, fd, Err EISDIR)
  | MemFile name b off _ _ writable append _ _ =>
      if negb writable then (io, fd, Err EBADF)
      else if is_dev_null_path name || is_dev_zero_path name then (io, fd, Ok (zlen buf))
      else if bool_decide (buf = []) then (io, fd, Ok 0)
      else
        let start := if append then content_len (bk_content (io_backings io !!! b)) else off in
        match checked_file_end start (zlen buf) with
        | Err e => (io, set_mem_offset fd start, Err e)
        | Ok end_ => (write_backing io b start buf, set_mem_offset fd end_, Ok (zlen buf))
        end
  | Ext4Regular ino off _ _ writable append =>
      if negb writable then (io, fd, Err EBADF)
      else
        match (if append then regular_file_size (io_files io) ino else Ok off) with
        | Err e => (io, fd, Err e)
        | Ok off =>
            let fd := set_mem_offset fd off in
            match checked_file_end off (zlen buf) with
            | Err e => (io, fd, Err e)
            | Ok _ =>
                let '(e, res) := ext4_write_at (io_files io) ino off buf in
                let io := set_files io e in
                match res with
                | Err err => (io, fd, Err err)
                | Ok n => (io, set_mem_offset fd (wrap (off + n)), Ok n)
                end
            end
        end
  | Ext4Dir _ _ _ => (io, fd, Err EISDIR)
  | PathFd _ _ _ _ => (io, fd, Err EBADF)
  | LoopControl => (io, fd, Err ENXIO)
  | LoopDevice index off _ writable =>
      if negb writable then (io, fd, Err EBADF)
      else if bool_decide (buf = []) then (io, fd, Ok 0)
      else
        match checked_file_end off (zlen buf) with
        | Err e => (io, fd, Err e)
        | Ok _ =>
            let '(e, res) := loop_write_at (io_files io) index off buf in
            let io := set_files io e in
            match res with
            | Err err => (io, fd, Err err)
            | Ok n => (io, set_mem_offset fd (sat_add off n), Ok n)
            end
        end
  | PipeWrite h _ => keep (write_pipe io h buf)
  | PipeRead _ _ => (io, fd, Err EBADF)
  | EventFd h => keep (write_eventfd io h buf)
  | Socket h => keep (write_socket io h buf)
  | _ => (io, fd, Err EBADF)
  end.

(** ** Offsets and sizes *)

(** [checked_seek_from] by [whence] *)
Definition seek_from (whence current size delta : Z) : result Z SysErrNo :=
  if bool_decide (whence = 0) then checked_seek_from 0 delta
  else if bool_decide (whence = 1) then checked_seek_from current delta
  else if bool_decide (whence = 2) then checked_seek_from size delta
  else Err EINVAL.

Definition seek_to (fd : FileDescriptor) (r : result Z SysErrNo) : FileDescriptor * result Z SysErrNo :=
  match r with Ok off => (set_mem_offset fd off, Ok off) | Err e => (fd, Err e) end.

Definition seek_signed (io : Io E) (fd : FileDescriptor) (offset whence : Z) : FileDescriptor * result Z SysErrNo :=
  match fd with
  | MemFile _ b current _ _ _ _ _ _ =>
      seek_to fd (seek_from whence current (content_len (bk_content (io_backings io !!! b))) offset)
  | Ext4Regular ino current _ _ _ _ =>
      match regular_file_size (io_files io) ino with
      | Err e => (fd, Err e)
      | Ok sz => seek_to fd (seek_from whence current sz offset)
      end
  | PipeRead _ _ | PipeWrite _ _ => (fd, Err ESPIPE)
  | MemDir _ _ entries current =>
      match seek_from whence current (zlen entries) offset with
      | Err e => (fd, Err e)
      | Ok off => if bool_decide (zlen entries < off) then (fd, Err EINVAL) else seek_to fd (Ok off)
      end
  | Ext4Dir _ _ _ => (fd, Err ESPIPE)
  | PathFd _ _ _ _ => (fd, Err EBADF)
  | LoopControl => (fd, Err ESPIPE)
  | LoopDevice index current _ _ =>
      match loop_size (io_files io) index with
      | Err e => (fd, Err e)
      | Ok sz => seek_to fd (seek_from whence current sz offset)
      end
  | _ => (fd, Err ESPIPE)
  end.

Definition fd_seek (io : Io E) (fd : FileDescriptor) (offset whence : Z) : FileDescriptor * result Z SysErrNo :=
  if bool_decide (MAX_FILE_OFFSET < offset) then (fd, Err EINVAL) else seek_signed io fd offset whence.

(** [size] *)
Definition fd_size (io : Io E) (fd : FileDescriptor) : Z :=
  match fd with
  | MemFile name b _ _ _ _ _ _ _ =>
      if is_dev_null_path name || is_dev_zero_path name then 0 else content_len (bk_content (io_backings io !!! b))
  | MemDir _ _ entries _ => zlen entries
  | Ext4Regular ino _ _ _ _ _ => match regular_file_size (io_files io) ino with Ok n => n | Err _ => 0 end
  | LoopDevice index _ _ _ => match loop_size (io_files io) index with Ok n => n | Err _ => 0 end
  | PipeRead h _ | PipeWrite h _ => zlen (pipe_buf (io_pipes io !!! h))
  | EventFd _ => 8
  | _ => 0
  end.

Definition truncate_with_readonly_errno (io : Io E) (fd : FileDescriptor) (new_len : Z) (readonly_errno : SysErrNo)
    : Io E * result unit SysErrNo :=
  if bool_decide (MAX_FILE_OFFSET < new_len) then (io, Err EFBIG)
  else
    match fd with
    | MemFile name b _ _ _ writable _ _ _ =>
        if negb writable then (io, Err readonly_errno)
        else if is_dev_null_path name || is_dev_zero_path name then (io, Ok ())
        else (resize_backing io b new_len, Ok ())
    | Ext4Regular ino _ _ _ writable _ =>
        if negb writable then (io, Err readonly_errno)
        else let '(e, res) := truncate_regular_ino (io_files io) ino new_len in (set_files io e, res)
    | MemDir _ _ _ _ | Ext4Dir _ _ _ => (io, Err EISDIR)
    | PathFd _ _ _ _ => (io, Err EBADF)
    | _ => (io, Err EINVAL)
    end.

Definition fd_truncate (io : Io E) (fd : FileDescriptor) (new_len : Z) := truncate_with_readonly_errno io fd new_len EBADF.
Definition fd_ftruncate (io : Io E) (fd : FileDescriptor) (new_len : Z) := truncate_with_readonly_errno io fd new_len EINVAL.

(** [allocate] (the resource limit and sealing checks are the caller's) *)
Definition fd_allocate (io : Io E) (fd : FileDescriptor) (offset len : Z) (keep_size : bool) : Io E * result unit SysErrNo :=
  if bool_decide (len = 0) then (io, Err EINVAL)
  else
    match checked_file_end offset len with
    | Err e => (io, Err e)
    | Ok end_ =>
        match fd with
        | MemFile _ _ _ _ _ _ _ _ _ | Ext4Regular _ _ _ _ _ _ =>
            let current_size := fd_size io fd in
            fd_truncate io fd (if keep_size then current_size else Z.max end_ current_size)
        | MemDir _ _ _ _ | Ext4Dir _ _ _ => (io, Err EISDIR)
        | PathFd _ _ _ _ => (io, Err EBADF)
        | LoopControl | LoopDevice _ _ _ _ => (io, Err EINVAL)
        | PipeRead _ _ | PipeWrite _ _ => (io, Err ESPIPE)
        | _ => (io, Err EINVAL)
        end
    end.

(** [sync] *)
Definition fd_sync (io : Io E) (fd : FileDescriptor) : Io E * result unit SysErrNo :=
  match fd with
  | Ext4Regular ino _ _ _ _ _ => let '(e, res) := flush_cached_ino (io_files io) ino in (set_files io e, res)
  | PipeRead _ _ | PipeWrite _ _ => (io, Err EINVAL)
  | _ => (io, Ok ())
  end.

(** ** Directory entries *)

(** One [linux_dirent64] record; [name] are the bytes of the name. *)
Definition dirent_reclen (name : list Z) : Z := Z.land (19 + zlen name + 1 + 7) (Z.lnot 7).
Definition dirent_record (ino off d_type : Z) (name : list Z) : list Z :=
  le_bytes 8 ino ++ le_bytes 8 off ++ le_bytes 2 (dirent_reclen name) ++ [d_type] ++ name ++
  replicate (Z.to_nat (dirent_reclen name - 19 - zlen name)) 0.

(** The loop over the entries from [offset]: the buffer, the new offset and the bytes
    written; [entries] gives the inode number, the bytes of the name and whether it is a
    directory. *)
Fixpoint dirents_loop (entries : list (Z * list Z * bool)) (offset written : Z) (buf : list Z) : list Z * Z * Z :=
  match entries with
  | [] => (buf, offset, written)
  | (ino, name, is_dir) :: rest =>
      let reclen := dirent_reclen name in
      if bool_decide (zlen buf < written + reclen) then (buf, offset, written)
      else
        dirents_loop rest (offset + 1) (written + reclen)
          (splice written (dirent_record ino (offset + 1) (if is_dir then 4 else 8) name) buf)
  end.

(** [as_bytes] *)
Definition name_bytes (name : string) : list Z :=
  (λ a, Z.of_N (Ascii.N_of_ascii a)) <$> String.list_ascii_of_string name.

Definition mem_entries (entries : list DirEntryRecord) : list (Z * list Z * bool) :=
  imap (λ i e, (Z.of_nat i + 1, name_bytes (de_name e), de_is_dir e)) entries.

(** [read_dirents64] *)
Definition read_dirents64 (io : Io E) (fd : FileDescriptor) (buf : list Z)
    : FileDescriptor * list Z * result Z SysErrNo :=
  match fd with
  | MemDir _ _ entries offset =>
      let '(buf, offset, written) := dirents_loop (drop (Z.to_nat offset) (mem_entries entries)) offset 0 buf in
      (set_mem_offset fd offset, buf, Ok written)
  | Ext4Dir _ ino offset =>
      match ext4_list_dir_by_ino (io_files io) ino with
      | Err e => (fd, buf, Err e)
      | Ok entries =>
          let entries := (λ e, (e.1.1, name_bytes e.1.2, e.2)) <$> entries in
          let '(buf, offset, written) := dirents_loop (drop (Z.to_nat offset) entries) offset 0 buf in
          (set_mem_offset fd offset, buf, Ok written)
      end
  | PathFd _ _ _ _ => (fd, buf, Err EBADF)
  | _ => (fd, buf, Err ENOTDIR)
  end.

(** ** Duplicating, closing and creating *)

Definition pipe_add (pipe : PipeState) (dr dw : Z) : PipeState :=
  mkPipe (pipe_buf pipe) (pipe_readers pipe + dr) (pipe_writers pipe + dw).

(** [impl Clone for FileDescriptor] *)
Definition fd_clone (io : Io E) (fd : FileDescriptor) : Io E * FileDescriptor :=
  match fd with
  | Ext4Regular ino _ _ _ _ _ => (set_files io (open_regular_ino (io_files io) ino), fd)
  | PipeRead h _ => (set_pipe io h (pipe_add (io_pipes io !!! h) 1 0), fd)
  | PipeWrite h _ => (set_pipe io h (pipe_add (io_pipes io !!! h) 0 1), fd)
  | _ => (io, fd)
  end.

(** [impl Drop for FileDescriptor] *)
Definition fd_drop (io : Io E) (fd : FileDescriptor) : Io E :=
  match fd with
  | PipeRead h _ =>
      let pipe := io_pipes io !!! h in
      if bool_decide (0 < pipe_readers pipe) then
        let pipe := pipe_add pipe (-1) 0 in
        let io := set_pipe io h pipe in
        if bool_decide (pipe_readers pipe = 0) then wake_pipe_writers (wake_pipe_readers io h) h
        else wake_pipe_readers io h
      else io
  | PipeWrite h _ =>
      let pipe := io_pipes io !!! h in
      if bool_decide (0 < pipe_writers pipe) then
        let pipe := pipe_add pipe 0 (-1) in
        let io := set_pipe io h pipe in
        if bool_decide (pipe_writers pipe = 0) then wake_pipe_writers (wake_pipe_readers io h) h
        else wake_pipe_writers io h
      else io
  | Socket _ => wake_io_waiters io
  | EventFd h => wake_io_waiters (wake_eventfd_writers (wake_eventfd_readers io h) h)
  | Ext4Regular ino _ _ _ _ _ => set_files io (close_regular_ino (io_files io) ino)
  | _ => io
  end.

(** [create_pipe]; [h] is the address of the new state *)
Definition create_pipe (io : Io E) (h : handle) (nonblock : bool) : Io E * FileDescriptor * FileDescriptor :=
  (set_pipe io h pipe_new, PipeRead h nonblock, PipeWrite h nonblock).

(** [create_eventfd] *)
Definition create_eventfd (io : Io E) (h : handle) (counter : Z) (semaphore nonblock : bool) : Io E * FileDescriptor :=
  (set_eventfd io h (mkEventFd counter semaphore nonblock), EventFd h).

End operations.
