(* ===== verification/Pipe.v ===== *)
(** * Pipes and event counters (src/os/src/fs/fd.rs)

    What the descriptor operations of FdOps.v guarantee of the shared objects, over every
    sequence of operations on any descriptors: a pipe is a bounded queue of bytes, and an
    operation that lets a blocked reader or writer proceed issues the wake-up that reader or
    writer sleeps on. *)

From S2P Require Import Prelude FileDesc MemFile IoStore FdOps.

(** ** Sequences of operations *)

Inductive FdOp :=
  | OpRead (fd : FileDescriptor) (buf : list Z)
  | OpWrite (fd : FileDescriptor) (data : list Z)
  | OpClone (fd : FileDescriptor)
  | OpDrop (fd : FileDescriptor).

Section pipes.
Context {E : Type} `{!BackingFiles E}.
Implicit Types (io : Io E) (fd : FileDescriptor) (h : handle).

Definition fd_step io (op : FdOp) : Io E :=
  match op with
  | OpRead fd buf => (fd_read io fd buf).1.1.1
  | OpWrite fd data => (fd_write io fd data).1.1
  | OpClone fd => (fd_clone io fd).1
  | OpDrop fd => fd_drop io fd
  end.

(** The bytes an operation puts into the pipe [h] and takes out of it. *)
Definition sent h io (op : FdOp) : list Z :=
  match op with
  | OpWrite (PipeWrite h' _ as fd) data =>
      if bool_decide (h' = h) then
        match (fd_write io fd data).2 with Ok n => take (Z.to_nat n) data | Err _ => [] end
      else []
  | _ => []
  end.
Definition received h io (op : FdOp) : list Z :=
  match op with
  | OpRead (PipeRead h' _ as fd) buf =>
      if bool_decide (h' = h) then
        match fd_read io fd buf with
        | (_, _, buf, Ok n) => take (Z.to_nat n) buf
        | _ => []
        end
      else []
  | _ => []
  end.

Fixpoint fd_run io (ops : list FdOp) : Io E :=
  match ops with [] => io | op :: ops => fd_run (fd_step io op) ops end.
Fixpoint sent_run h io (ops : list FdOp) : list Z :=
  match ops with [] => [] | op :: ops => sent h io op ++ sent_run h (fd_step io op) ops end.
Fixpoint received_run h io (ops : list FdOp) : list Z :=
  match ops with [] => [] | op :: ops => received h io op ++ received_run h (fd_step io op) ops end.

(** ** The buffer *)

Lemma pop_bytes_spec n queue : (n ≤ length queue)%nat → pop_bytes n queue = (take n queue, drop n queue).
Proof.
  revert queue. induction n as [|n IH]; intros [|b queue] Hn; simpl in *; try done; [lia|].
  by rewrite IH by lia.
Qed.

Lemma foldl_snoc {A} (l q : list A) : foldl (λ q b, q ++ [b]) q l = q ++ l.
Proof. revert q. induction l as [|x l IH]; intros q; simpl; [by rewrite app_nil_r|]. by rewrite IH, <-app_assoc. Qed.

Lemma pipe_read_buffer_spec pipe buf :
  let n := Z.min (zlen buf) (zlen (pipe_buf pipe)) in
  pipe_read_buffer pipe buf =
    (mkPipe (drop (Z.to_nat n) (pipe_buf pipe)) (pipe_readers pipe) (pipe_writers pipe),
     splice 0 (take (Z.to_nat n) (pipe_buf pipe)) buf, n).
Proof.
  intros n. unfold pipe_read_buffer. fold n. case_bool_decide; [|done].
  rewrite pop_bytes_spec; [done|]. subst n. unfold zlen. lia.
Qed.

Lemma pipe_write_buffer_spec pipe buf available :
  let n := Z.min (zlen buf) available in
  pipe_write_buffer pipe buf available =
    (mkPipe (pipe_buf pipe ++ take (Z.to_nat n) buf) (pipe_readers pipe) (pipe_writers pipe), n).
Proof. intros n. unfold pipe_write_buffer. fold n. case_bool_decide; [|done]. by rewrite foldl_snoc. Qed.

(** The pipes an operation leaves alone. *)
Lemma wake_pipes io w : io_pipes (wake io w) = io_pipes io.
Proof. done. Qed.

Lemma wake_wakes io w : io_wakes (wake io w) = io_wakes io ++ w.
Proof. done. Qed.

Lemma set_pipe_lookup io h p h' :
  io_pipes (set_pipe io h p) !!! h' = if bool_decide (h = h') then p else io_pipes io !!! h'.
Proof.
  unfold set_pipe. simpl. case_bool_decide as E1; [subst; apply lookup_total_insert_eq|].
  by apply lookup_total_insert_ne.
Qed.

(** What reading through a descriptor does to a pipe and which pipe wake-ups it issues. *)
Lemma read_pipe_spec io h buf io' buf' res :
  read_pipe io h buf = (io', buf', res) →
  let p := io_pipes io !!! h in
  let n := Z.min (zlen buf) (zlen (pipe_buf p)) in
  if bool_decide (n = 0) then
    io' = io ∧ buf' = buf ∧
    res = (if bool_decide (buf = []) || bool_decide (pipe_writers p = 0) then Ok 0 else Err EAGAIN)
  else
    io' = wake (set_pipe io h (mkPipe (drop (Z.to_nat n) (pipe_buf p)) (pipe_readers p) (pipe_writers p)))
            (if bool_decide (zlen (pipe_buf p) = PIPE_CAPACITY) then [WakeKey h PIPE_WAIT_WRITABLE] else []) ∧
    buf' = splice 0 (take (Z.to_nat n) (pipe_buf p)) buf ∧ res = Ok n.
Proof.
  intros Hr p n. unfold read_pipe in Hr. fold p in Hr.
  assert (n = 0 ↔ buf = [] ∨ pipe_buf p = []) as Hn.
  { unfold n, zlen. destruct buf, (pipe_buf p); simpl; naive_solver lia. }
  destruct (decide (buf = [])) as [Eb|Eb].
  { rewrite (bool_decide_true (buf = [])) in Hr by done. rewrite (bool_decide_true (n = 0)) by tauto.
    rewrite (bool_decide_true (buf = [])) by done. injection Hr as <- <- <-. done. }
  rewrite (bool_decide_false (buf = [])) in * by done.
  destruct (decide (pipe_buf p = [])) as [Ep|Ep].
  { rewrite (bool_decide_true (pipe_buf p = [])) in Hr by done. rewrite (bool_decide_true (n = 0)) by tauto.
    simpl. case_bool_decide; injection Hr as <- <- <-; done. }
  rewrite (bool_decide_false (pipe_buf p = [])) in Hr by done. rewrite (bool_decide_false (n = 0)) by tauto.
  rewrite pipe_read_buffer_spec in Hr. fold n in Hr. injection Hr as <- <- <-. split; [|done].
  assert (0 < n) by (assert (n ≠ 0) by tauto; unfold n, zlen in *; lia).
  cbn [pipe_buf]. case_bool_decide as E1; simpl; [|by unfold wake; rewrite app_nil_r].
  rewrite bool_decide_true; [done|]. unfold zlen in *. rewrite length_drop. lia.
Qed.

Lemma write_pipe_spec io h buf io' res :
  write_pipe io h buf = (io', res) → 
  let p := io_pipes io !!! h in
  let n := Z.min (zlen buf) (sat_sub PIPE_CAPACITY (zlen (pipe_buf p))) in
  if bool_decide (pipe_readers p = 0) || bool_decide (n = 0) then
    io' = io ∧ res = (if bool_decide (buf = []) then Ok 0 else if bool_decide (pipe_readers p = 0) then Err EPIPE else Err EAGAIN)
  else
    io' = wake (set_pipe io h (mkPipe (pipe_buf p ++ take (Z.to_nat n) buf) (pipe_readers p) (pipe_writers p)))
            (if bool_decide (pipe_buf p = []) then [WakeKey h PIPE_WAIT_READABLE] else []) ∧
    res = Ok n.
Proof.
  intros Hw p n. unfold write_pipe in Hw. fold p in Hw.
  assert (0 ≤ sat_sub PIPE_CAPACITY (zlen (pipe_buf p))) by (unfold sat_sub; lia).
  assert (n = 0 ↔ buf = [] ∨ sat_sub PIPE_CAPACITY (zlen (pipe_buf p)) = 0) as Hn.
  { unfold n, zlen in *. destruct buf; simpl; naive_solver lia. }
  destruct (decide (buf = [])) as [Eb|Eb].
  { rewrite (bool_decide_true (buf = [])) in Hw by done. rewrite (bool_decide_true (n = 0)) by tauto.
    rewrite orb_true_r. rewrite (bool_decide_true (buf = [])) by done. by injection Hw as <- <-. }
  rewrite (bool_decide_false (buf = [])) in * by done.
  case_bool_decide as Er; [by injection Hw as <- <-|]. simpl.
  destruct (decide (sat_sub PIPE_CAPACITY (zlen (pipe_buf p)) = 0)) as [Ea|Ea].
  { rewrite (bool_decide_true _ Ea) in Hw. rewrite (bool_decide_true (n = 0)) by tauto. by injection Hw as <- <-. }
  rewrite (bool_decide_false _ Ea) in Hw. rewrite (bool_decide_false (n = 0)) by tauto.
  rewrite pipe_write_buffer_spec in Hw. fold n in Hw. injection Hw as <- <-. split; [|done].
  rewrite (bool_decide_false (n = 0)) by tauto. rewrite andb_true_r.
  case_bool_decide; [done|]. unfold wake. by rewrite app_nil_r.
Qed.

(** The other arms leave every pipe alone. *)
Lemma fd_read_other io fd buf : is_pipe_read fd = false → io_pipes (fd_read io fd buf).1.1.1 = io_pipes io.
Proof.
  destruct fd; try done; intros _; unfold fd_read, read_stdin, read_eventfd, read_socket; repeat case_match; simplify_eq/=; done.
Qed.

Lemma fd_write_other io fd buf : is_pipe_write fd = false → io_pipes (fd_write io fd buf).1.1 = io_pipes io.
Proof.
  destruct fd; try done; intros _; unfold fd_write, write_console_buffered, write_eventfd, write_socket, write_backing;
    repeat case_match; simplify_eq/=; done.
Qed.

Lemma take_splice n data buf : zlen data = n → n ≤ zlen buf → take (Z.to_nat n) (splice 0 data buf) = data.
Proof.
  intros Hd Hb. unfold splice. simpl. apply take_app_length'. unfold zlen in Hd. lia.
Qed.

(** The buffer of [h], as a queue, and its bound. *)
Lemma fd_step_fifo io op h :
  let q := pipe_buf (io_pipes io !!! h) in
  let q' := pipe_buf (io_pipes (fd_step io op) !!! h) in
  zlen q ≤ PIPE_CAPACITY →
  q ++ sent h io op = received h io op ++ q' ∧ zlen q' ≤ PIPE_CAPACITY.
Proof.
  intros q q' Hq. assert (q ++ [] = [] ++ q ∧ zlen q ≤ PIPE_CAPACITY) as Hsame by (by rewrite app_nil_r).
  subst q'. destruct op as [fd buf|fd data|fd|fd]; cbn [fd_step].
  - destruct (is_pipe_read fd) eqn:Hf; [|rewrite fd_read_other by done; destruct fd; done || exact Hsame].
    destruct fd as [| | | | | | | | | |h0 nb| | | |]; try done. simpl.
    destruct (read_pipe io h0 buf) as [[io' buf'] res] eqn:Hr. simpl.
    apply read_pipe_spec in Hr. case_bool_decide as Hn.
    { destruct Hr as (-> & -> & ->).
      repeat case_bool_decide; simpl; exact Hsame. }
    destruct Hr as (-> & -> & ->). rewrite wake_pipes, set_pipe_lookup. case_bool_decide; [subst h0|exact Hsame].
    cbn [pipe_buf]. fold q in Hn |- *. pose proof (zlen_nonneg buf). pose proof (zlen_nonneg q).
    rewrite take_splice by (rewrite ?zlen_take; lia). rewrite app_nil_r, take_drop, zlen_drop by lia. split; [done|lia].
  - destruct (is_pipe_write fd) eqn:Hf; [|rewrite fd_write_other by done; destruct fd; done || exact Hsame].
    destruct fd as [| | | | | | | | | | |h0 nb| | |]; try done. simpl.
    destruct (write_pipe io h0 data) as [io' res] eqn:Hr. simpl.
    apply write_pipe_spec in Hr. destruct (_ || _) eqn:Hn.
    { destruct Hr as (-> & ->).
      repeat case_bool_decide; simpl; exact Hsame. }
    destruct Hr as (-> & ->). rewrite wake_pipes, set_pipe_lookup.
    destruct (decide (h0 = h)) as [->|Hne]; [rewrite !(bool_decide_true (h = h)) by done|by rewrite !(bool_decide_false (h0 = h)) by done].
    simpl. fold q. split; [done|]. apply orb_false_iff in Hn as [_ Hn]. apply bool_decide_eq_false in Hn.
    rewrite zlen_app, zlen_take by (unfold sat_sub, zlen in *; lia). unfold sat_sub, zlen in *. lia.
  - destruct fd; cbn [fd_clone fst sent received]; try exact Hsame;
      rewrite set_pipe_lookup; case_bool_decide; subst; exact Hsame.
  - destruct fd; cbn [fd_drop sent received]; try exact Hsame; (case_bool_decide; [|exact Hsame]);
      (case_bool_decide; unfold wake_pipe_readers, wake_pipe_writers; rewrite ?wake_pipes, set_pipe_lookup;
       case_bool_decide; subst; exact Hsame).
Qed.

(** ** Wake-ups *)

(** The wake-ups issued between two states. *)
Definition new_wakes io io' : list Wake := drop (length (io_wakes io)) (io_wakes io').

Lemma new_wakes_wake io io1 w : io_wakes io1 = io_wakes io → new_wakes io (wake io1 w) = w.
Proof. intros H. unfold new_wakes. rewrite wake_wakes, H. apply drop_app_length. Qed.

Lemma new_wakes_wake2 io io1 w1 w2 : io_wakes io1 = io_wakes io → new_wakes io (wake (wake io1 w1) w2) = w1 ++ w2.
Proof. intros H. unfold new_wakes. rewrite !wake_wakes, H, <-app_assoc. apply drop_app_length. Qed.

Definition reader_blocked (p : PipeState) : Prop := pipe_buf p = [] ∧ 0 < pipe_writers p.
Definition writer_blocked (p : PipeState) : Prop := 0 < pipe_readers p ∧ PIPE_CAPACITY ≤ zlen (pipe_buf p).

Lemma step_pipe_wakes io op h :
  let p := io_pipes io !!! h in
  let p' := io_pipes (fd_step io op) !!! h in
  zlen (pipe_buf p) ≤ PIPE_CAPACITY →
  (reader_blocked p → ¬ reader_blocked p' → WakeKey h PIPE_WAIT_READABLE ∈ new_wakes io (fd_step io op)) ∧
  (writer_blocked p → ¬ writer_blocked p' → WakeKey h PIPE_WAIT_WRITABLE ∈ new_wakes io (fd_step io op)).
Proof.
  intros p p' Hp. unfold reader_blocked, writer_blocked.
  assert (∀ P Q : Prop, (pipe_buf p = [] ∧ 0 < pipe_writers p → ¬ (pipe_buf p = [] ∧ 0 < pipe_writers p) → P) ∧
    (0 < pipe_readers p ∧ PIPE_CAPACITY ≤ zlen (pipe_buf p) → ¬ (0 < pipe_readers p ∧ PIPE_CAPACITY ≤ zlen (pipe_buf p)) → Q)) as Hsame
    by tauto.
  subst p'. destruct op as [fd buf|fd data|fd|fd]; cbn [fd_step].
  - destruct (is_pipe_read fd) eqn:Hf; [|rewrite fd_read_other by done; exact (Hsame _ _)].
    destruct fd as [| | | | | | | | | |h0 nb| | | |]; try done. simpl.
    destruct (read_pipe io h0 buf) as [[io' buf'] res] eqn:Hr. simpl.
    apply read_pipe_spec in Hr. case_bool_decide as Hn; destruct Hr as (-> & -> & ->); [exact (Hsame _ _)|].
    rewrite wake_pipes, set_pipe_lookup. destruct (decide (h0 = h)) as [->|Hne];
      [rewrite bool_decide_true by done|rewrite bool_decide_false by done; exact (Hsame _ _)].
    rewrite new_wakes_wake by done. fold p in Hn |- *. split.
    + intros [Hb _]. rewrite Hb in Hn. unfold zlen in Hn. simpl in Hn. lia.
    + intros [_ Hfull] _. rewrite bool_decide_true by lia. apply list_elem_of_singleton. done.
  - destruct (is_pipe_write fd) eqn:Hf; [|rewrite fd_write_other by done; exact (Hsame _ _)].
    destruct fd as [| | | | | | | | | | |h0 nb| | |]; try done. simpl.
    destruct (write_pipe io h0 data) as [io' res] eqn:Hr. simpl.
    apply write_pipe_spec in Hr. destruct (_ || _) eqn:Hn; destruct Hr as (-> & ->); [exact (Hsame _ _)|].
    rewrite wake_pipes, set_pipe_lookup. destruct (decide (h0 = h)) as [->|Hne];
      [rewrite bool_decide_true by done|rewrite bool_decide_false by done; exact (Hsame _ _)].
    rewrite new_wakes_wake by done. fold p in Hn |- *. split.
    + intros [Hb _] _. rewrite bool_decide_true by done. by apply list_elem_of_singleton.
    + intros [Hrd Hfull] []. simpl. split; [done|]. rewrite zlen_app. pose proof (zlen_nonneg (take (Z.to_nat (Z.min (zlen data) (sat_sub PIPE_CAPACITY (zlen (pipe_buf p))))) data)). lia.
  - destruct fd; cbn [fd_clone fst]; try exact (Hsame _ _); rewrite set_pipe_lookup;
      (case_bool_decide; [subst; fold p|exact (Hsame _ _)]); unfold pipe_add; simpl; (split; [intros [? ?] []|intros [? ?] []]); split; done || lia.
  - destruct fd; cbn [fd_drop]; try exact (Hsame _ _); (case_bool_decide; [|exact (Hsame _ _)]);
      unfold wake_pipe_readers, wake_pipe_writers; (case_bool_decide as Hlast;
      rewrite ?wake_pipes, set_pipe_lookup, ?new_wakes_wake2, ?new_wakes_wake by done;
      (case_bool_decide; [subst; subst p|exact (Hsame _ _)])); unfold pipe_add in *; simpl in *; (split; intros [? ?] Hx; [..]);
      try (apply list_elem_of_In; simpl; tauto); exfalso; apply Hx; split; done || lia.
Qed.

(** ** Event counters *)

Lemma fd_read_eventfds io fd buf : (∀ h, fd ≠ EventFd h) → io_eventfds (fd_read io fd buf).1.1.1 = io_eventfds io.
Proof.
  destruct fd; intros Hf; try (by specialize (Hf state)); unfold fd_read, read_stdin, read_pipe, read_socket;
    repeat case_match; simplify_eq/=; done.
Qed.

Lemma fd_write_eventfds io fd buf : (∀ h, fd ≠ EventFd h) → io_eventfds (fd_write io fd buf).1.1 = io_eventfds io.
Proof.
  destruct fd; intros Hf; try (by specialize (Hf state)); unfold fd_write, write_console_buffered, write_pipe, write_socket, write_backing;
    repeat case_match; simplify_eq/=; done.
Qed.

Lemma of_le_bytes_bounds l : Forall (λ b, 0 ≤ b < 256) l → 0 ≤ of_le_bytes l < 256 ^ zlen l.
Proof.
  induction 1 as [|b l Hb _ IH]; [unfold zlen; simpl; lia|]. cbn [of_le_bytes]. rewrite zlen_cons, Z.pow_add_r by (unfold zlen; lia).
  change (256 ^ 1) with 256. lia.
Qed.

Definition eventfd_ok (s : EventFdState) : Prop := 0 ≤ ev_counter s ≤ U64_MAX - 1.

(** The data an operation writes are bytes. *)
Definition op_bytes (op : FdOp) : Prop :=
  match op with OpWrite _ data => Forall (λ b, 0 ≤ b < 256) data | _ => True end.

Lemma set_eventfd_lookup io h s h' :
  io_eventfds (set_eventfd io h s) !!! h' = if bool_decide (h = h') then s else io_eventfds io !!! h'.
Proof.
  unfold set_eventfd. simpl. case_bool_decide as E1; [subst; apply lookup_total_insert_eq|].
  by apply lookup_total_insert_ne.
Qed.

Lemma read_eventfd_spec io h buf :
  let s := io_eventfds io !!! h in
  if bool_decide (zlen buf < 8) || bool_decide (ev_counter s = 0) then (read_eventfd io h buf).1.1 = io
  else (read_eventfd io h buf).1.1 =
    wake_eventfd_writers (set_eventfd io h
      (mkEventFd (if ev_semaphore s then ev_counter s - 1 else 0) (ev_semaphore s) (ev_nonblock s))) h.
Proof. unfold read_eventfd. repeat case_bool_decide; try done. simpl. by destruct (ev_semaphore _). Qed.

Lemma write_eventfd_spec io h buf :
  let s := io_eventfds io !!! h in
  let value := of_le_bytes (take 8 buf) in
  Forall (λ b, 0 ≤ b < 256) buf → eventfd_ok s →
  (write_eventfd io h buf).1 = io ∨
  0 ≤ value ∧ ev_counter s + value ≤ U64_MAX - 1 ∧
  (write_eventfd io h buf).1 =
    wake (set_eventfd io h (mkEventFd (ev_counter s + value) (ev_semaphore s) (ev_nonblock s)))
      (if bool_decide (ev_counter s = 0) && negb (bool_decide (value = 0)) then [WakeKey h EVENTFD_WAIT_READABLE] else []).
Proof.
  intros s value Hb Hs. unfold eventfd_ok, U64_MAX in Hs.
  pose proof (of_le_bytes_bounds (take 8 buf) (Forall_take _ 8 _ Hb)) as Hv. fold value in Hv.
  unfold write_eventfd. fold s value. unfold U64_MAX, sat_sub.
  repeat case_bool_decide; simpl; try (by left); right; unfold wrap; rewrite Z.mod_small by lia;
    (split; [lia|split; [lia|]]); unfold wake_eventfd_readers, wake; rewrite ?app_nil_r; done.
Qed.

Lemma eventfd_case fd : (∃ h, fd = EventFd h) ∨ ∀ h, fd ≠ EventFd h.
Proof. destruct fd; try (by right); left; eauto. Qed.

Lemma step_eventfd_wakes io op h :
  let s := io_eventfds io !!! h in
  let s' := io_eventfds (fd_step io op) !!! h in
  op_bytes op → eventfd_ok s →
  eventfd_ok s' ∧
  (ev_counter s = 0 → ev_counter s' ≠ 0 → WakeKey h EVENTFD_WAIT_READABLE ∈ new_wakes io (fd_step io op)) ∧
  (ev_counter s ≠ 0 → ev_counter s' = 0 → WakeKey h EVENTFD_WAIT_WRITABLE ∈ new_wakes io (fd_step io op)).
Proof.
  intros s s' Hop Hs.
  assert (∀ P Q : Prop, eventfd_ok s ∧ (ev_counter s = 0 → ev_counter s ≠ 0 → P) ∧ (ev_counter s ≠ 0 → ev_counter s = 0 → Q)) as Hsame
    by tauto.
  subst s'. destruct op as [fd buf|fd data|fd|fd]; cbn [fd_step].
  - destruct (eventfd_case fd) as [[h0 ->]|Hf];
      [|rewrite fd_read_eventfds by done; exact (Hsame _ _)].
    cbn [fd_read]. pose proof (read_eventfd_spec io h0 buf) as Hr. destruct (read_eventfd io h0 buf) as [[io' buf'] res].
    simpl in Hr |- *. destruct (_ || _) eqn:Hn; subst io'; [exact (Hsame _ _)|].
    unfold wake_eventfd_writers. rewrite new_wakes_wake by done. simpl io_eventfds.
    change (<[h0 := ?x]> (io_eventfds io)) with (io_eventfds (set_eventfd io h0 x)). rewrite set_eventfd_lookup.
    destruct (decide (h0 = h)) as [->|Hne]; [rewrite bool_decide_true by done|rewrite bool_decide_false by done; exact (Hsame _ _)].
    fold s in Hn |- *. apply orb_false_iff in Hn as [_ Hn].
    apply bool_decide_eq_false in Hn. unfold eventfd_ok in *. simpl. split; [destruct (ev_semaphore s); lia|].
    split; [done|]. intros _ _. by apply list_elem_of_singleton.
  - destruct (eventfd_case fd) as [[h0 ->]|Hf];
      [|rewrite fd_write_eventfds by done; exact (Hsame _ _)].
    destruct (decide (h0 = h)) as [->|Hne].
    + cbn [fd_write]. pose proof (write_eventfd_spec io h data Hop Hs) as Hr. destruct (write_eventfd io h data) as [io' res].
      simpl in Hr |- *. destruct Hr as [->|(Hv & Hc & ->)]; [exact (Hsame _ _)|]. rewrite new_wakes_wake by done.
      simpl io_eventfds. rewrite lookup_total_insert_eq. fold s in Hv, Hc |- *. unfold eventfd_ok in *. simpl.
      split; [lia|]. split; [|lia]. intros Hz Hnz. rewrite bool_decide_true by done. rewrite bool_decide_false by lia.
      by apply list_elem_of_singleton.
    + assert (io_eventfds (fd_write io (EventFd h0) data).1.1 !!! h = s) as ->; [|exact (Hsame _ _)].
      cbn [fd_write]. unfold write_eventfd. repeat case_bool_decide; simpl; try done; by rewrite lookup_total_insert_ne.
  - destruct fd; exact (Hsame _ _).
  - destruct fd; cbn [fd_drop]; try exact (Hsame _ _); repeat case_bool_decide; exact (Hsame _ _).
Qed.

Definition objects_ok io : Prop :=
  (∀ h, zlen (pipe_buf (io_pipes io !!! h)) ≤ PIPE_CAPACITY) ∧ (∀ h, eventfd_ok (io_eventfds io !!! h)).

End pipes.

(** C36: whoever sleeps on a pipe or an event counter is woken by the operation that lets it go
    on.  A task whose read or write found [.._would_block] sleeps on the wait key of its
    descriptor; any operation, on any descriptor, after which the predicate no longer holds
    (data arrived, room was made, the last writer or reader went away, the counter changed)
    has issued a wake-up of exactly that key.  Buffers and counters stay within their
    bounds. *)
Theorem blocked_io_is_woken {E : Type} `{!BackingFiles E} (io : Io E) op w :
  op_bytes op → objects_ok io →
  let io' := fd_step io op in
  let woken (k : option Wake) := ∃ key, k = Some key ∧ key ∈ new_wakes io io' in
  objects_ok io' ∧
  (pipe_read_would_block io w = true → pipe_read_would_block io' w = false → woken (pipe_read_wait_key w)) ∧
  (pipe_write_would_block io w = true → pipe_write_would_block io' w = false → woken (pipe_write_wait_key w)) ∧
  (eventfd_read_would_block io w = true → eventfd_read_would_block io' w = false → woken (eventfd_read_wait_key w)) ∧
  (eventfd_write_would_block io w = true → eventfd_write_would_block io' w = false → woken (eventfd_write_wait_key w)).
Proof.
  intros Hop [Hp He] io' woken. split_and!.
  - split; intros h; [apply (fd_step_fifo io op h (Hp h))|apply (step_eventfd_wakes io op h Hop (He h))].
  - destruct w; try done. simpl. rewrite andb_true_iff, andb_false_iff, !bool_decide_eq_true, !bool_decide_eq_false.
    intros Hb Hn. eexists. split; [done|]. apply (step_pipe_wakes io op state (Hp state)); unfold reader_blocked; tauto.
  - destruct w; try done. simpl. rewrite andb_true_iff, andb_false_iff, !bool_decide_eq_true, !bool_decide_eq_false.
    intros Hb Hn. eexists. split; [done|]. apply (step_pipe_wakes io op state (Hp state)); unfold writer_blocked; tauto.
  - destruct w; try done. simpl. rewrite bool_decide_eq_true, bool_decide_eq_false. intros Hb Hn. eexists. split; [done|].
    by apply (step_eventfd_wakes io op state Hop (He state)).
  - destruct w; try done. simpl. rewrite bool_decide_eq_true, bool_decide_eq_false. intros Hb Hn. eexists. split; [done|].
    apply (step_eventfd_wakes io op state Hop (He state)); [done|]. by apply dec_stable.
Qed.

(** C35: a pipe is a bounded first-in first-out queue of bytes, whoever holds its ends: over
    every sequence of reads, writes, duplications and closings of any descriptors, the bytes
    its readers received, followed by the bytes still in its buffer, are exactly the bytes
    that were in the buffer followed by those its writers were told were written, in order,
    and the buffer never exceeds the capacity. *)
Theorem pipe_is_bounded_fifo {E : Type} `{!BackingFiles E} (io : Io E) h ops :
  zlen (pipe_buf (io_pipes io !!! h)) ≤ PIPE_CAPACITY →
  let io' := fd_run io ops in
  pipe_buf (io_pipes io !!! h) ++ sent_run h io ops = received_run h io ops ++ pipe_buf (io_pipes io' !!! h) ∧
  zlen (pipe_buf (io_pipes io' !!! h)) ≤ PIPE_CAPACITY.
Proof.
  revert io. induction ops as [|op ops IH]; intros io Hq; simpl; [by rewrite app_nil_r|].
  destruct (fd_step_fifo io op h Hq) as [E1 Hq']. destruct (IH (fd_step io op) Hq') as [E2 H2].
  split; [|done]. rewrite app_assoc, E1, <-!app_assoc. by rewrite E2.
Qed.

(** One pipe, written in two pieces and read in two pieces while its ends are duplicated and
    closed. *)
Definition demo_pipe_ops : list FdOp :=
  [OpWrite (PipeWrite 7 false) [1; 2; 3]; OpRead (PipeRead 7 false) [0; 0]; OpClone (PipeWrite 7 true);
   OpWrite (PipeWrite 7 true) [4]; OpDrop (PipeWrite 7 false); OpRead (PipeRead 7 false) [0; 0; 0; 0]].

Definition demo_pipe_io : Io unit := (create_pipe empty_io 7 false).1.1.

Lemma pipe_is_bounded_fifo_witness :
  sent_run 7 demo_pipe_io demo_pipe_ops = [1; 2; 3; 4] ∧ received_run 7 demo_pipe_io demo_pipe_ops = [1; 2; 3; 4] ∧
  pipe_buf (io_pipes (fd_run demo_pipe_io demo_pipe_ops) !!! 7) = [].
Proof.
  destruct (pipe_is_bounded_fifo demo_pipe_io 7 demo_pipe_ops) as [H _]; [vm_compute; discriminate|].
  assert (received_run 7 demo_pipe_io demo_pipe_ops = [1; 2; 3; 4]) as Hr by (vm_compute; reflexivity).
  assert (pipe_buf (io_pipes (fd_run demo_pipe_io demo_pipe_ops) !!! 7) = []) as Hb by (vm_compute; reflexivity).
  rewrite Hr, Hb in H. split_and!; [exact H|exact Hr|exact Hb].
Defined.

Lemma objects_ok_demo : objects_ok demo_pipe_io.
Proof.
  split; intros h; unfold demo_pipe_io; simpl.
  - destruct (decide (h = 7)) as [->|Hne]; [rewrite lookup_total_insert_eq; vm_compute; discriminate|].
    rewrite lookup_total_insert_ne by done. rewrite lookup_total_empty. vm_compute. discriminate.
  - rewrite lookup_total_empty. vm_compute. split; discriminate.
Qed.

Lemma blocked_io_is_woken_witness :
  let op := OpWrite (PipeWrite 7 false) [5] in
  pipe_read_would_block demo_pipe_io (PipeRead 7 false) = true ∧
  pipe_read_would_block (fd_step demo_pipe_io op) (PipeRead 7 false) = false ∧
  WakeKey 7 PIPE_WAIT_READABLE ∈ new_wakes demo_pipe_io (fd_step demo_pipe_io op).
Proof.
  intros op.
  assert (pipe_read_would_block demo_pipe_io (PipeRead 7 false) = true) as H1 by (vm_compute; reflexivity).
  assert (pipe_read_would_block (fd_step demo_pipe_io op) (PipeRead 7 false) = false) as H2 by (vm_compute; reflexivity).
  assert (op_bytes op) as Hop by (repeat constructor; lia).
  destruct (blocked_io_is_woken demo_pipe_io op (PipeRead 7 false) Hop objects_ok_demo) as (_ & Hw & _).
  destruct (Hw H1 H2) as (key & [= <-] & Hk). done.
Defined.
