(* ===== verification/FdTable.v ===== *)
(** * Descriptor tables (src/os/src/fs/fd.rs, [FileDescriptorTable])

    A table has [MAX_FD_NUM] slots, a close-on-exec flag per slot, a hint below which every
    slot is taken and a count of the flags set.  Dropping and cloning a descriptor changes
    the object behind it, so the operations thread the store of IoStore.v, and a value that
    the code drops implicitly (the argument of a failed allocation) is dropped here.
    Indices are natural numbers. *)

From S2P Require Import Prelude FileDesc MemFile IoStore FdOps Pipe.

Definition MAX_FDS : nat := Z.to_nat MAX_FD_NUM.

Record FileDescriptorTable := mkFdTable {
  fds : list (option FileDescriptor);
  fd_flag_words : list Z;
  next_fd_hint : nat;
  cloexec_count : Z
}.

(** [FileDescriptorTable::new] *)
Definition fd_table_new : FileDescriptorTable :=
  mkFdTable (Some Stdin :: Some Stdout :: Some Stderr :: replicate (MAX_FDS - 3) None) (replicate MAX_FDS 0) 3 0.

(** [usize::from((flags & FD_CLOEXEC) != 0)] *)
Definition count_cloexec (flags : Z) : Z := if bool_decide (Z.land flags FD_CLOEXEC = 0) then 0 else 1.

(** The descriptor in a slot. *)
Definition fd_get (t : FileDescriptorTable) (fd : nat) : option FileDescriptor :=
  if bool_decide (MAX_FDS ≤ fd)%nat then None else fds t !!! fd.
Definition flag_at (t : FileDescriptorTable) (i : nat) : Z := default 0 (fd_flag_words t !! i).

(** [fds.get_mut(fd)]: the slot after the method. *)
Definition put_fd (t : FileDescriptorTable) (i : nat) (fd : FileDescriptor) : FileDescriptorTable :=
  mkFdTable (<[i := Some fd]> (fds t)) (fd_flag_words t) (next_fd_hint t) (cloexec_count t).

Lemma fd_get_put t i j fd : i ≠ j → fd_get (put_fd t i fd) j = fd_get t j.
Proof. intros Hne. unfold fd_get, put_fd. cbn. case_bool_decide; [done|]. by apply list_lookup_total_insert_ne. Qed.

Lemma fd_get_put_same t i fd fd' : fd_get t i = Some fd → fd_get (put_fd t i fd') i = Some fd'.
Proof.
  unfold fd_get, put_fd. cbn. case_bool_decide; [done|]. intros H0. apply list_lookup_total_insert_eq.
  apply lookup_lt_is_Some. rewrite list_lookup_total_alt in H0. by destruct (fds t !! i).
Qed.

Section table.
Context {E : Type} `{!BackingFiles E}.
Implicit Types (io : Io E) (t : FileDescriptorTable).

Definition drop_option_fd io (o : option FileDescriptor) : Io E :=
  match o with Some fd => fd_drop io fd | None => io end.

Definition set_slot io t (index : nat) (fd : FileDescriptor) (flags : Z) : Io E * FileDescriptorTable :=
  let count := sat_sub (cloexec_count t) (count_cloexec (flag_at t index)) in
  let old := fds t !!! index in
  let flag := Z.land flags FD_CLOEXEC in
  let hint :=
    if bool_decide (next_fd_hint t = MAX_FDS) || bool_decide (index ≤ next_fd_hint t)%nat then Nat.min (S index) MAX_FDS
    else next_fd_hint t in
  (drop_option_fd io old,
   mkFdTable (<[index := Some fd]> (fds t)) (<[index := flag]> (fd_flag_words t)) hint (count + count_cloexec flag)).

Definition clear_slot t (index : nat) : FileDescriptorTable * option FileDescriptor :=
  (mkFdTable (<[index := None]> (fds t)) (<[index := 0]> (fd_flag_words t))
     (if bool_decide (index < next_fd_hint t)%nat then index else next_fd_hint t)
     (sat_sub (cloexec_count t) (count_cloexec (flag_at t index))),
   fds t !!! index).

(** [iter().enumerate().take(limit).skip(from).find_map(..)]: the first empty slot *)
Definition find_empty t (from limit : nat) : option nat :=
  head (filter (λ i, fds t !!! i = None) (seq from (limit - from))).

Definition alloc_slot_from io t (start limit : nat) (fd : FileDescriptor) (flags : Z)
    : Io E * FileDescriptorTable * option nat :=
  let limit := Nat.min limit MAX_FDS in
  if bool_decide (limit ≤ start)%nat then (fd_drop io fd, t, None)
  else
    let scan_start := if bool_decide (start = 0%nat) then Nat.min (next_fd_hint t) limit else start in
    match find_empty t scan_start limit with
    | Some index => (set_slot io t index fd flags, Some index)
    | None =>
        match (if bool_decide (start < scan_start)%nat then find_empty t start scan_start else None) with
        | Some index => (set_slot io t index fd flags, Some index)
        | None => (fd_drop io fd, t, None)
        end
    end.

Definition alloc_with_flags_below io t fd flags limit := alloc_slot_from io t 0 limit fd flags.
Definition alloc_with_flags io t fd flags := alloc_with_flags_below io t fd flags MAX_FDS.
Definition fd_alloc io t fd := alloc_with_flags io t fd 0.
Definition alloc_from_with_flags_below io t start fd flags limit := alloc_slot_from io t start limit fd flags.
Definition alloc_from_with_flags io t start fd flags := alloc_from_with_flags_below io t start fd flags MAX_FDS.
Definition alloc_from io t start fd := alloc_from_with_flags io t start fd 0.

Definition alloc_at io t (index : nat) fd : Io E * FileDescriptorTable * result unit SysErrNo :=
  if bool_decide (MAX_FDS ≤ index)%nat then (fd_drop io fd, t, Err EBADF) else (set_slot io t index fd 0, Ok ()).

(** [self.fds[fd].is_none()] or out of range *)
Definition bad_fd t (fd : nat) : bool := bool_decide (MAX_FDS ≤ fd)%nat || bool_decide (fds t !!! fd = None).

Definition remove t (fd : nat) : FileDescriptorTable * result FileDescriptor SysErrNo :=
  if bad_fd t fd then (t, Err EBADF)
  else match clear_slot t fd with (t, Some old) => (t, Ok old) | (t, None) => (t, Err EBADF) end.

Definition free io t (fd : nat) : Io E * FileDescriptorTable * result unit SysErrNo :=
  match remove t fd with
  | (t, Ok old) => (fd_drop io old, t, Ok ())
  | (t, Err e) => (io, t, Err e)
  end.

Definition fd_flags t (fd : nat) : result Z SysErrNo := if bad_fd t fd then Err EBADF else Ok (flag_at t fd).

Definition set_fd_flags t (fd : nat) (flags : Z) : FileDescriptorTable * result unit SysErrNo :=
  if bad_fd t fd then (t, Err EBADF)
  else
    let flag := Z.land flags FD_CLOEXEC in
    (mkFdTable (fds t) (<[fd := flag]> (fd_flag_words t)) (next_fd_hint t)
       (sat_sub (cloexec_count t) (count_cloexec (flag_at t fd)) + count_cloexec flag), Ok ()).

(** The loop of [close_on_exec] over the slots from [index] on. *)
Fixpoint close_loop t (n index : nat) (closed : list FileDescriptor) : FileDescriptorTable * list FileDescriptor :=
  match n with
  | O => (t, closed)
  | S n =>
      if bool_decide (is_Some (fds t !!! index)) && negb (bool_decide (Z.land (flag_at t index) FD_CLOEXEC = 0)) then
        match clear_slot t index with
        | (t, Some file) => close_loop t n (S index) (closed ++ [file])
        | (t, None) => close_loop t n (S index) closed
        end
      else close_loop t n (S index) closed
  end.
Definition close_on_exec t : FileDescriptorTable * list FileDescriptor :=
  if bool_decide (cloexec_count t = 0) then (t, []) else close_loop t MAX_FDS 0 [].

(** [self.fds[index] = None] for every slot, in order *)
Fixpoint drop_slots io (slots : list (option FileDescriptor)) : Io E :=
  match slots with [] => io | o :: slots => drop_slots (drop_option_fd io o) slots end.
Definition close_all io t : Io E * FileDescriptorTable :=
  (drop_slots io (fds t), mkFdTable (replicate MAX_FDS None) (replicate MAX_FDS 0) 0 0).

Definition dup_below io t (old_fd limit : nat) : Io E * FileDescriptorTable * result nat SysErrNo :=
  match fd_get t old_fd with
  | None => (io, t, Err EBADF)
  | Some old =>
      let '(io, fd) := fd_clone io old in
      match alloc_with_flags_below io t fd 0 limit with
      | (io, t, Some new_fd) => (io, t, Ok new_fd)
      | (io, t, None) => (io, t, Err EMFILE)
      end
  end.
Definition dup io t old_fd := dup_below io t old_fd MAX_FDS.

Definition dup2_below io t (old_fd new_fd limit : nat) : Io E * FileDescriptorTable * result nat SysErrNo :=
  match fd_get t old_fd with
  | None => (io, t, Err EBADF)
  | Some old =>
      if bool_decide (Nat.min limit MAX_FDS ≤ new_fd)%nat then (io, t, Err EBADF)
      else if bool_decide (old_fd = new_fd) then (io, t, Ok new_fd)
      else
        let '(io, t) := if bool_decide (is_Some (fds t !!! new_fd)) then (free io t new_fd).1 else (io, t) in
        let '(io, fd) := fd_clone io old in
        (set_slot io t new_fd fd 0, Ok new_fd)
  end.
Definition dup2 io t old_fd new_fd := dup2_below io t old_fd new_fd MAX_FDS.

(** [#[derive(Clone)]]: every slot is cloned, in order *)
Fixpoint clone_slots io (slots : list (option FileDescriptor)) : Io E * list (option FileDescriptor) :=
  match slots with
  | [] => (io, [])
  | o :: slots =>
      let '(io, o) := match o with Some fd => let '(io, fd) := fd_clone io fd in (io, Some fd) | None => (io, None) end in
      let '(io, slots) := clone_slots io slots in (io, o :: slots)
  end.
Definition clone_table io t : Io E * FileDescriptorTable :=
  let '(io, slots) := clone_slots io (fds t) in (io, mkFdTable slots (fd_flag_words t) (next_fd_hint t) (cloexec_count t)).

(** [len] *)
Definition table_len t : Z := zlen (filter (λ o, is_Some o) (fds t)).

(** ** The invariant of a table *)

Definition sum_flags (l : list Z) : Z := foldr Z.add 0 l.

Record table_wf t : Prop := {
  tw_fds : length (fds t) = MAX_FDS;
  tw_flags : length (fd_flag_words t) = MAX_FDS;
  tw_hint : (next_fd_hint t ≤ MAX_FDS)%nat;
  tw_taken : ∀ i, (i < next_fd_hint t)%nat → is_Some (fds t !!! i);
  tw_flag : ∀ i, flag_at t i = 0 ∨ flag_at t i = 1 ∧ is_Some (fds t !!! i);
  tw_count : cloexec_count t = sum_flags (fd_flag_words t)
}.

Lemma sum_flags_insert l i x : (i < length l)%nat → sum_flags (<[i := x]> l) = sum_flags l - default 0 (l !! i) + x.
Proof.
  revert i. induction l as [|y l IH]; intros [|i] Hi; simpl in *; [lia|lia|unfold sum_flags; simpl; lia|].
  unfold sum_flags in *. simpl. rewrite IH by lia. lia.
Qed.

Lemma sum_flags_ge l : (∀ j, 0 ≤ default 0 (l !! j)) → 0 ≤ sum_flags l ∧ ∀ i, default 0 (l !! i) ≤ sum_flags l.
Proof.
  unfold sum_flags. induction l as [|y l IH]; intros Hl; simpl; [by split|].
  pose proof (Hl 0%nat) as H0. simpl in H0. destruct (IH (λ j, Hl (S j))) as [H1 H2].
  split; [lia|]. intros [|i]; simpl; [lia|]. specialize (H2 i). lia.
Qed.

Lemma count_cloexec_flag f : count_cloexec (Z.land f FD_CLOEXEC) = Z.land f FD_CLOEXEC ∧ (Z.land f FD_CLOEXEC = 0 ∨ Z.land f FD_CLOEXEC = 1).
Proof.
  assert (∀ x, Z.land x FD_CLOEXEC = x mod 2) as Hl by (intros x; apply (Z.land_ones x 1); lia).
  unfold count_cloexec. rewrite !Hl. case_bool_decide; lia.
Qed.

Lemma flag_count t i : table_wf t → count_cloexec (flag_at t i) = flag_at t i ∧ 0 ≤ flag_at t i ≤ cloexec_count t.
Proof.
  intros Hw. assert (∀ j, 0 ≤ default 0 (fd_flag_words t !! j)) as Hp.
  { intros j. destruct (tw_flag _ Hw j) as [H|[H _]]; unfold flag_at in H; lia. }
  rewrite (tw_count _ Hw). destruct (sum_flags_ge (fd_flag_words t) Hp) as [_ Hle]. specialize (Hle i).
  fold (flag_at t i) in Hle. destruct (tw_flag _ Hw i) as [H|[H _]]; rewrite H in *; (split; [done|lia]).
Qed.

Lemma fds_insert t i x j : table_wf t → (i < MAX_FDS)%nat →
  <[i := x]> (fds t) !!! j = if bool_decide (i = j) then x else fds t !!! j.
Proof.
  intros Hw Hi. rewrite list_lookup_total_alt. case_bool_decide as Hj.
  - subst j. rewrite list_lookup_insert_eq; [done|]. by rewrite (tw_fds _ Hw).
  - rewrite list_lookup_insert_ne by done. by rewrite list_lookup_total_alt.
Qed.

Lemma flags_insert t i x j : table_wf t → (i < MAX_FDS)%nat →
  default 0 (<[i := x]> (fd_flag_words t) !! j) = if bool_decide (i = j) then x else flag_at t j.
Proof.
  intros Hw Hi. unfold flag_at. case_bool_decide as Hj.
  - subst j. rewrite list_lookup_insert_eq; [done|]. by rewrite (tw_flags _ Hw).
  - by rewrite list_lookup_insert_ne by done.
Qed.

Lemma set_slot_wf io t i fd flags : table_wf t → (i < MAX_FDS)%nat →
  let t' := (set_slot io t i fd flags).2 in
  table_wf t' ∧ (∀ j, fds t' !!! j = if bool_decide (i = j) then Some fd else fds t !!! j) ∧
  (∀ j, flag_at t' j = if bool_decide (i = j) then Z.land flags FD_CLOEXEC else flag_at t j).
Proof.
  intros Hw Hi t'. destruct (count_cloexec_flag flags) as [Hc Hf]. destruct (flag_count t i Hw) as [Hci Hle].
  assert (∀ j, fds t' !!! j = if bool_decide (i = j) then Some fd else fds t !!! j) as Hfds by (intros j; by apply fds_insert).
  assert (∀ j, flag_at t' j = if bool_decide (i = j) then Z.land flags FD_CLOEXEC else flag_at t j) as Hfl
    by (intros j; by apply flags_insert).
  split_and!; [|done..]. pose proof (tw_hint _ Hw). split.
  - unfold t'. simpl. by rewrite length_insert, (tw_fds _ Hw).
  - unfold t'. simpl. by rewrite length_insert, (tw_flags _ Hw).
  - unfold t'. cbn [set_slot snd next_fd_hint]. case_match; lia.
  - intros j Hj. rewrite Hfds. case_bool_decide; [done|]. apply (tw_taken _ Hw). unfold t' in Hj. cbn [set_slot snd next_fd_hint] in Hj.
    destruct (bool_decide (next_fd_hint t = MAX_FDS)) eqn:E1; simpl in Hj; reflect_bools; [lia|].
    revert Hj. case_bool_decide; lia.
  - intros j. rewrite Hfl, Hfds. case_bool_decide; [naive_solver|apply (tw_flag _ Hw)].
  - unfold t'. simpl. rewrite Hci, Hc, sum_flags_insert by (by rewrite (tw_flags _ Hw)). unfold sat_sub. fold (flag_at t i).
    rewrite (tw_count _ Hw) in *. lia.
Qed.

Lemma clear_slot_wf t i : table_wf t → (i < MAX_FDS)%nat →
  let t' := (clear_slot t i).1 in
  table_wf t' ∧ (∀ j, fds t' !!! j = if bool_decide (i = j) then None else fds t !!! j) ∧
  (∀ j, flag_at t' j = if bool_decide (i = j) then 0 else flag_at t j).
Proof.
  intros Hw Hi t'. destruct (flag_count t i Hw) as [Hci Hle].
  assert (∀ j, fds t' !!! j = if bool_decide (i = j) then None else fds t !!! j) as Hfds by (intros j; by apply fds_insert).
  assert (∀ j, flag_at t' j = if bool_decide (i = j) then 0 else flag_at t j) as Hfl
    by (intros j; by apply flags_insert).
  split_and!; [|done..]. pose proof (tw_hint _ Hw). split.
  - unfold t'. simpl. by rewrite length_insert, (tw_fds _ Hw).
  - unfold t'. simpl. by rewrite length_insert, (tw_flags _ Hw).
  - unfold t'. cbn [clear_slot fst next_fd_hint]. case_bool_decide; lia.
  - intros j Hj. unfold t' in Hj. cbn [clear_slot fst next_fd_hint] in Hj.
    assert (j < next_fd_hint t ∧ i ≠ j)%nat as [Hj1 Hj2] by (case_bool_decide; lia).
    rewrite Hfds, bool_decide_false by done. by apply (tw_taken _ Hw).
  - intros j. rewrite Hfl, Hfds. case_bool_decide; [naive_solver|apply (tw_flag _ Hw)].
  - unfold t'. simpl. rewrite Hci, sum_flags_insert by (by rewrite (tw_flags _ Hw)). unfold sat_sub. fold (flag_at t i).
    rewrite (tw_count _ Hw) in *. lia.
Qed.

(** ** Allocation *)

Lemma find_empty_spec t from limit :
  match find_empty t from limit with
  | Some i => (from ≤ i < limit)%nat ∧ fds t !!! i = None ∧ ∀ j, (from ≤ j < i)%nat → is_Some (fds t !!! j)
  | None => ∀ j, (from ≤ j < limit)%nat → is_Some (fds t !!! j)
  end.
Proof.
  unfold find_empty. remember (limit - from)%nat as n eqn:En. revert from En.
  induction n as [|n IH]; intros from En; simpl; [intros j; lia|].
  rewrite filter_cons. case_decide as E1; simpl; [split_and!; [lia|lia|done|intros j; lia]|].
  assert (is_Some (fds t !!! from)) as Hs by (by apply not_eq_None_Some).
  specialize (IH (S from) ltac:(lia)). destruct (head _) as [i|].
  - destruct IH as (H1 & H2 & H3). split_and!; [lia|lia|done|]. intros j Hj.
    destruct (decide (j = from)) as [->|]; [done|]. apply H3. lia.
  - intros j Hj. destruct (decide (j = from)) as [->|]; [done|]. apply IH. lia.
Qed.

(** The slot [alloc_slot_from] takes. *)
Lemma alloc_slot_spec io t start limit fd flags : table_wf t →
  let limit' := Nat.min limit MAX_FDS in
  match alloc_slot_from io t start limit fd flags with
  | (io', t', Some i) =>
      (start ≤ i < limit')%nat ∧ fds t !!! i = None ∧ (∀ j, (start ≤ j < i)%nat → is_Some (fds t !!! j)) ∧
      (io', t') = set_slot io t i fd flags ∧ io' = io
  | (io', t', None) => (∀ j, (start ≤ j < limit')%nat → is_Some (fds t !!! j)) ∧ t' = t ∧ io' = fd_drop io fd
  end.
Proof.
  intros Hw limit'. unfold alloc_slot_from. fold limit'. case_bool_decide as Hlim; [split; [intros j; lia|done]|].
  set (scan := if bool_decide (start = 0%nat) then _ else _).
  assert (start ≤ scan ∧ ∀ j, (start ≤ j < scan)%nat → is_Some (fds t !!! j))%nat as [Hscan Hbelow].
  { unfold scan. case_bool_decide; [|split; intros; lia]. split; [lia|]. intros j Hj. apply (tw_taken _ Hw). lia. }
  pose proof (find_empty_spec t scan limit') as H1. destruct (find_empty t scan limit') as [i|].
  - destruct H1 as (Hi & Hn & Hb). split_and!; [lia|lia|done| |done|].
    + intros j Hj. destruct (decide (j < scan)%nat); [apply Hbelow|apply Hb]; lia.
    + simpl. by rewrite Hn.
  - case_bool_decide as Hlt.
    + pose proof (find_empty_spec t start scan) as H2. destruct (find_empty t start scan) as [i|].
      * destruct H2 as (Hi & Hn & _). exfalso. destruct (Hbelow i ltac:(lia)). congruence.
      * split; [|done]. intros j Hj. destruct (decide (j < scan)%nat); [apply Hbelow|apply H1]; lia.
    + split; [|done]. intros j Hj. apply H1. lia.
Qed.

End table.

(** A new descriptor gets the lowest free number.  [alloc_slot_from], behind open, dup,
    fcntl(F_DUPFD), pipe and socket, takes the least free slot at or above [start] and below
    the limit, whatever its hint says, installs the descriptor with its close-on-exec flag
    and changes nothing else; when there is none it reports so, leaves the table as it was
    and drops the descriptor. *)
Theorem fd_alloc_lowest {E : Type} `{!BackingFiles E} (io : Io E) t start limit fd flags :
  table_wf t →
  let limit' := Nat.min limit MAX_FDS in
  match alloc_slot_from io t start limit fd flags with
  | (io', t', Some i) =>
      (start ≤ i < limit')%nat ∧ fds t !!! i = None ∧ (∀ j, (start ≤ j < i)%nat → is_Some (fds t !!! j)) ∧
      io' = io ∧ table_wf t' ∧
      (∀ j, fds t' !!! j = if bool_decide (i = j) then Some fd else fds t !!! j) ∧
      (∀ j, flag_at t' j = if bool_decide (i = j) then Z.land flags FD_CLOEXEC else flag_at t j)
  | (io', t', None) => (∀ j, (start ≤ j < limit')%nat → is_Some (fds t !!! j)) ∧ t' = t ∧ io' = fd_drop io fd
  end.
Proof.
  intros Hw limit'. pose proof (alloc_slot_spec io t start limit fd flags Hw) as H.
  destruct (alloc_slot_from io t start limit fd flags) as [[io' t'] [i|]]; [|done].
  destruct H as (Hi & Hn & Hb & Ht & ->). destruct (set_slot_wf io t i fd flags Hw) as (W & F & G); [lia|].
  rewrite <-Ht in W, F, G. done.
Qed.

Lemma fd_table_new_wf : table_wf fd_table_new.
Proof.
  assert (∀ i, (3 ≤ i)%nat → fds fd_table_new !!! i = None) as Hhi.
  { intros [|[|[|i]]] Hi; try lia. rewrite list_lookup_total_alt. cbn [fd_table_new fds lookup list_lookup].
    destruct (replicate (MAX_FDS - 3) None !! i) as [o|] eqn:Eo; [by apply lookup_replicate in Eo as [-> _]|done]. }
  assert (∀ i, flag_at fd_table_new i = 0) as Hfl.
  { intros i. unfold flag_at. cbn [fd_table_new fd_flag_words]. destruct (replicate MAX_FDS 0 !! i) as [o|] eqn:Eo; [by apply lookup_replicate in Eo as [-> _]|done]. }
  split.
  - reflexivity.
  - reflexivity.
  - vm_compute. lia.
  - intros [|[|[|i]]] Hi; simpl in Hi; by eauto || lia.
  - intros i. left. apply Hfl.
  - reflexivity.
Qed.

(** A new table: the first allocation above 5 takes 5, the next one without a bound takes 3. *)
Lemma fd_alloc_lowest_witness :
  let t := fd_table_new in
  (alloc_slot_from empty_io t 5 1024 (EventFd 9) 1).2 = Some 5%nat ∧
  (alloc_slot_from empty_io (alloc_slot_from empty_io t 5 1024 (EventFd 9) 1).1.2 0 1024 (EventFd 8) 0).2 = Some 3%nat ∧
  fds t !!! 3%nat = None.
Proof.
  intros t. pose proof (fd_alloc_lowest empty_io t 5 1024 (EventFd 9) 1 fd_table_new_wf) as H1.
  assert ((alloc_slot_from empty_io t 5 1024 (EventFd 9) 1).2 = Some 5%nat) as E1 by (vm_compute; reflexivity).
  destruct (alloc_slot_from empty_io t 5 1024 (EventFd 9) 1) as [[io1 t1] o1]. simpl in E1. subst o1.
  destruct H1 as (_ & _ & _ & -> & W & F & _). simpl.
  pose proof (fd_alloc_lowest empty_io t1 0 1024 (EventFd 8) 0 W) as H2.
  split; [reflexivity|]. 
  destruct (alloc_slot_from empty_io t1 0 1024 (EventFd 8) 0) as [[io2 t2] [i|]]; simpl in *.
  - destruct H2 as (Hi & Hn & Hb & _). split; [|reflexivity].
    assert (fds t1 !!! 3%nat = None) as H3 by (by rewrite F).
    assert (is_Some (fds t1 !!! 0%nat) ∧ is_Some (fds t1 !!! 1%nat) ∧ is_Some (fds t1 !!! 2%nat)) as (S0 & S1 & S2)
      by (rewrite !F; simpl; eauto).
    assert (¬ (3 < i)%nat) by (intros Hlt; destruct (Hb 3%nat) as [x Hx]; [lia|congruence]).
    destruct i as [|[|[|[|i]]]]; [..|lia]; try done; rewrite Hn in *; by destruct S0, S1, S2.
  - destruct H2 as (Hall & _). destruct (Hall 3%nat) as [x Hx]; [vm_compute; lia|]. by rewrite F in Hx.
Defined.
