(* ===== verification/FdLedger.v ===== *)
(** * Who holds the ends of a pipe

    The counts of readers and writers in a pipe decide between end of file, an error and
    waiting.  This file follows every descriptor of every table, and those that code holds
    outside of a table, through all operations on tables and descriptors, and relates their
    number to the counts.  When the last reference to an epoll instance goes away its interest
    list is dropped, which is a further drop of descriptors held outside of tables. *)

From S2P Require Import Prelude FileDesc MemFile IoStore FdOps Pipe FdTable.

Definition reads_of (h : handle) (fd : FileDescriptor) : bool :=
  match fd with PipeRead h' _ => bool_decide (h' = h) | _ => false end.
Definition writes_of (h : handle) (fd : FileDescriptor) : bool :=
  match fd with PipeWrite h' _ => bool_decide (h' = h) | _ => false end.
Definition ends (f : FileDescriptor → bool) (l : list FileDescriptor) : Z := zlen (filter (λ fd, f fd = true) l).
Definition table_fds (t : FileDescriptorTable) : list FileDescriptor := omap id (fds t).

Lemma ends_cons f fd l : ends f (fd :: l) = (if f fd then 1 else 0) + ends f l.
Proof.
  unfold ends. rewrite filter_cons. destruct (f fd); [rewrite decide_True by done; rewrite zlen_cons; lia|].
  by rewrite decide_False.
Qed.

Lemma ends_app f l1 l2 : ends f (l1 ++ l2) = ends f l1 + ends f l2.
Proof. unfold ends. by rewrite filter_app, zlen_app. Qed.

Lemma ends_nonneg f l : 0 ≤ ends f l.
Proof. apply zlen_nonneg. Qed.

Lemma ends_pos f fd l : fd ∈ l → f fd = true → 0 < ends f l.
Proof. intros Hin Hf. apply zlen_pos. intros Hn. by apply (filter_nil_not_elem_of _ _ _ Hn Hf) in Hin. Qed.

Lemma ends_zero f l : ends f l = 0 → ∀ fd, fd ∈ l → f fd = false.
Proof. intros Hz fd Hin. destruct (f fd) eqn:Hf; [|done]. pose proof (ends_pos f fd l Hin Hf). lia. Qed.

#[export] Instance ends_perm f : Proper ((≡ₚ) ==> (=)) (ends f).
Proof. intros l l' H. unfold ends. by rewrite H. Qed.

(** A method through [get_mut] keeps the kind and the object of its descriptor. *)
Inductive Method :=
  | MRead (buf : list Z)
  | MWrite (data : list Z)
  | MSeek (offset whence : Z)
  | MDirents (buf : list Z)
  | MStatusFlags (flags : Z)
  | MNonblock (nonblock : bool).

Section ledger.
Context {E : Type} `{!BackingFiles E}.
Implicit Types (io : Io E) (t : FileDescriptorTable) (l : list FileDescriptor).

Definition run_method io (m : Method) fd : Io E * FileDescriptor :=
  match m with
  | MRead buf => (fd_read io fd buf).1.1
  | MWrite data => (fd_write io fd data).1
  | MSeek offset whence => (io, (seek_signed io fd offset whence).1)
  | MDirents buf => (io, (read_dirents64 io fd buf).1.1)
  | MStatusFlags flags => set_status_flags io fd flags
  | MNonblock nonblock => (ioctl_set_nonblocking io fd nonblock).1
  end.

(** The counts of every pipe are the numbers of its ends in [l]. *)
Definition ledger io l : Prop :=
  ∀ h, match io_pipes io !! h with
       | Some p => pipe_readers p = ends (reads_of h) l ∧ pipe_writers p = ends (writes_of h) l
       | None => ends (reads_of h) l = 0 ∧ ends (writes_of h) l = 0
       end.

#[export] Instance ledger_perm io : Proper ((≡ₚ) ==> iff) (ledger io).
Proof.
  intros l l' H. split; intros Hl h; specialize (Hl h); destruct (io_pipes io !! h); by rewrite H in Hl || rewrite H.
Qed.

(** Stores whose pipes have the same counts. *)
Definition same_counts io io' : Prop :=
  ∀ h, (λ p, (pipe_readers p, pipe_writers p)) <$> io_pipes io' !! h = (λ p, (pipe_readers p, pipe_writers p)) <$> io_pipes io !! h.

Lemma ledger_same io io' l : same_counts io io' → ledger io l → ledger io' l.
Proof.
  intros Hs Hl h. specialize (Hs h). specialize (Hl h). destruct (io_pipes io !! h), (io_pipes io' !! h); simpl in Hs; try done.
  injection Hs as -> ->. exact Hl.
Qed.

Lemma same_counts_pipes io io' : io_pipes io' = io_pipes io → same_counts io io'.
Proof. intros H h. by rewrite H. Qed.

(** Two descriptors with the same pipe ends. *)
Definition same_end fd fd' : Prop := ∀ h, reads_of h fd' = reads_of h fd ∧ writes_of h fd' = writes_of h fd.

Lemma ledger_same_end io fd fd' l : same_end fd fd' → ledger io (fd :: l) → ledger io (fd' :: l).
Proof. intros Hs Hl h. specialize (Hl h). destruct (Hs h) as [H1 H2]. rewrite !ends_cons in *. by rewrite H1, H2. Qed.

Lemma set_mem_offset_end fd off : same_end fd (set_mem_offset fd off).
Proof. by destruct fd. Qed.

(** A ledger names every pipe it counts. *)
Lemma ledger_known io l fd h : ledger io l → fd ∈ l → reads_of h fd = true ∨ writes_of h fd = true → is_Some (io_pipes io !! h).
Proof.
  intros Hl Hin Hf. specialize (Hl h). destruct (io_pipes io !! h); [by eexists|]. destruct Hl as [Hr Hw].
  destruct Hf as [Hf|Hf]; [pose proof (ends_pos _ _ _ Hin Hf)|pose proof (ends_pos _ _ _ Hin Hf)]; lia.
Qed.

Lemma set_pipe_counts io h p p' : io_pipes io !! h = Some p → pipe_readers p' = pipe_readers p → pipe_writers p' = pipe_writers p →
  same_counts io (set_pipe io h p').
Proof.
  intros Hp Hr Hw h'. simpl. destruct (decide (h = h')) as [<-|].
  - rewrite lookup_insert_eq, Hp. simpl. by rewrite Hr, Hw.
  - by rewrite lookup_insert_ne.
Qed.

Lemma lookup_total_of io h p : io_pipes io !! h = Some p → io_pipes io !!! h = p.
Proof. intros H. by rewrite lookup_total_alt, H. Qed.

Lemma method_same_end io m fd : same_end fd (run_method io m fd).2.
Proof.
  destruct m; simpl.
  - destruct fd; try done; simpl; repeat case_match; simplify_eq/=; done.
  - destruct fd; try done; simpl; repeat case_match; simplify_eq/=; done.
  - destruct fd; try done; simpl; repeat case_match; simplify_eq/=; unfold seek_to; repeat case_match; done.
  - destruct fd; try done; simpl; repeat case_match; simplify_eq/=; done.
  - by destruct fd.
  - by destruct fd.
Qed.

Lemma method_counts io m fd l : ledger io (fd :: l) → same_counts io (run_method io m fd).1.
Proof.
  intros Hl. destruct m as [buf|data| | | |]; simpl; try (by apply same_counts_pipes).
  - destruct (is_pipe_read fd) eqn:Hf; [|by apply same_counts_pipes, fd_read_other].
    destruct fd as [| | | | | | | | | |h nb| | | |]; try done. simpl.
    destruct (ledger_known io _ (PipeRead h nb) h Hl) as [p Hp]; [left|left; simpl; by apply bool_decide_eq_true|].
    destruct (read_pipe io h buf) as [[io' buf'] res] eqn:Hr. apply read_pipe_spec in Hr.
    rewrite (lookup_total_of _ _ _ Hp) in Hr. case_bool_decide; destruct Hr as (-> & _); [by apply same_counts_pipes|].
    by apply (set_pipe_counts io h p).
  - destruct (is_pipe_write fd) eqn:Hf; [|by apply same_counts_pipes, fd_write_other].
    destruct fd as [| | | | | | | | | | |h nb| | |]; try done. simpl.
    destruct (ledger_known io _ (PipeWrite h nb) h Hl) as [p Hp]; [left|right; simpl; by apply bool_decide_eq_true|].
    destruct (write_pipe io h data) as [io' res] eqn:Hr. apply write_pipe_spec in Hr.
    rewrite (lookup_total_of _ _ _ Hp) in Hr. destruct (_ || _); destruct Hr as (-> & _); [by apply same_counts_pipes|].
    by apply (set_pipe_counts io h p).
  - destruct fd; by apply same_counts_pipes.
  - destruct fd; by apply same_counts_pipes.
Qed.

(** Replacing one pipe, with the counts its ends in [l'] call for. *)
Lemma ledger_set_pipe io h p l l' :
  ledger io l →
  (∀ h', h' ≠ h → ends (reads_of h') l' = ends (reads_of h') l ∧ ends (writes_of h') l' = ends (writes_of h') l) →
  pipe_readers p = ends (reads_of h) l' → pipe_writers p = ends (writes_of h) l' →
  ledger (set_pipe io h p) l'.
Proof.
  intros Hl Ho Hr Hw h'. simpl. destruct (decide (h' = h)) as [->|Hne].
  - by rewrite lookup_insert_eq.
  - rewrite lookup_insert_ne by done. specialize (Hl h'). destruct (Ho h' Hne) as [-> ->]. exact Hl.
Qed.

Lemma ends_other_pipe h h' fd l : h' ≠ h → (∀ h', h' ≠ h → reads_of h' fd = false ∧ writes_of h' fd = false) →
  ends (reads_of h') (fd :: l) = ends (reads_of h') l ∧ ends (writes_of h') (fd :: l) = ends (writes_of h') l.
Proof. intros Hne Hf. destruct (Hf h' Hne) as [H1 H2]. rewrite !ends_cons, H1, H2. lia. Qed.

Lemma ledger_not_pipe io fd l : is_pipe_read fd = false → is_pipe_write fd = false → ledger io (fd :: l) ↔ ledger io l.
Proof.
  intros H1 H2. split; intros Hl h; specialize (Hl h); rewrite !ends_cons in *; destruct fd; done || (simpl in *; exact Hl).
Qed.

(** Cloning adds an end, dropping removes one. *)
Lemma clone_ledger io fd l : fd ∈ l → ledger io l → ledger (fd_clone io fd).1 (fd :: l).
Proof.
  intros Hin Hl. destruct fd; try (apply ledger_not_pipe; [done..|]; eapply ledger_same; [by apply same_counts_pipes|done]).
  - destruct (ledger_known io l (PipeRead state nonblock) state Hl Hin) as [p Hp]; [left; simpl; by apply bool_decide_eq_true|].
    cbn [fd_clone fst]. rewrite (lookup_total_of _ _ _ Hp). pose proof (Hl state) as Hs. rewrite Hp in Hs.
    apply (ledger_set_pipe _ _ _ l); [done| |simpl; rewrite ends_cons; simpl; rewrite ?bool_decide_true by done; lia..].
    intros h' Hne. apply (ends_other_pipe state); [done|]. intros h2 H2. simpl. split; [by apply bool_decide_eq_false|done].
  - destruct (ledger_known io l (PipeWrite state nonblock) state Hl Hin) as [p Hp]; [right; simpl; by apply bool_decide_eq_true|].
    cbn [fd_clone fst]. rewrite (lookup_total_of _ _ _ Hp). pose proof (Hl state) as Hs. rewrite Hp in Hs.
    apply (ledger_set_pipe _ _ _ l); [done| |simpl; rewrite ends_cons; simpl; rewrite ?bool_decide_true by done; lia..].
    intros h' Hne. apply (ends_other_pipe state); [done|]. intros h2 H2. simpl. split; [done|by apply bool_decide_eq_false].
Qed.

Lemma clone_same_fd io fd : (fd_clone io fd).2 = fd.
Proof. by destruct fd. Qed.

Lemma drop_ledger io fd l : ledger io (fd :: l) → ledger (fd_drop io fd) l.
Proof.
  intros Hl.
  destruct fd; try (apply ledger_not_pipe in Hl; [|done..]; eapply ledger_same; [by apply same_counts_pipes|done]);
    pose proof (Hl state) as Hs; rewrite !ends_cons in Hs; simpl in Hs; rewrite bool_decide_true in Hs by done;
    pose proof (ends_nonneg (reads_of state) l); pose proof (ends_nonneg (writes_of state) l);
    (destruct (io_pipes io !! state) as [p|] eqn:Hp; [|lia]);
    cbn [fd_drop]; rewrite (lookup_total_of _ _ _ Hp); rewrite bool_decide_true by lia.
  - assert (ledger (set_pipe io state (pipe_add p (-1) 0)) l) as Hset.
    { apply (ledger_set_pipe _ _ _ (PipeRead state nonblock :: l)); [done| |simpl; lia..].
      intros h' Hne. apply and_comm; split; symmetry; apply (ends_other_pipe state); try done;
        intros h2 H2; simpl; (split; [by apply bool_decide_eq_false|done]). }
    case_bool_decide; (eapply ledger_same; [|exact Hset]); by apply same_counts_pipes.
  - assert (ledger (set_pipe io state (pipe_add p 0 (-1))) l) as Hset.
    { apply (ledger_set_pipe _ _ _ (PipeWrite state nonblock :: l)); [done| |simpl; lia..].
      intros h' Hne. apply and_comm; split; symmetry; apply (ends_other_pipe state); try done;
        intros h2 H2; simpl; (split; [done|by apply bool_decide_eq_false]). }
    case_bool_decide; (eapply ledger_same; [|exact Hset]); by apply same_counts_pipes.
Qed.

(** ** Tables *)

Lemma omap_insert_perm {A} (l : list (option A)) i x y :
  l !! i = Some y → option_list y ++ omap id (<[i := x]> l) ≡ₚ option_list x ++ omap id l.
Proof.
  revert i. induction l as [|z l IH]; intros [|i] Hi; simpl in *; [done|done| |].
  - injection Hi as ->. destruct x as [x|], y as [y|]; simpl; try done. by rewrite Permutation_swap.
  - specialize (IH i Hi). destruct z as [z|]; simpl; [|done]. rewrite <-!Permutation_middle. by rewrite IH.
Qed.

Lemma slot_lookup t i : table_wf t → (i < MAX_FDS)%nat → fds t !! i = Some (fds t !!! i).
Proof. intros Hw Hi. apply list_lookup_lookup_total_lt. by rewrite (tw_fds _ Hw). Qed.

Lemma slot_in_range t i fd : table_wf t → fds t !!! i = Some fd → (i < MAX_FDS)%nat.
Proof.
  intros Hw Hs. destruct (decide (i < MAX_FDS)%nat); [done|]. rewrite list_lookup_total_alt in Hs.
  rewrite lookup_ge_None_2 in Hs by (rewrite (tw_fds _ Hw); lia). done.
Qed.

Lemma slot_in_table t i fd : table_wf t → fds t !!! i = Some fd → fd ∈ table_fds t.
Proof.
  intros Hw Hs. apply list_elem_of_omap. exists (Some fd). split; [|done].
  apply list_elem_of_lookup_2 with i. rewrite slot_lookup; [by rewrite Hs|done|by eapply slot_in_range].
Qed.

Lemma fd_get_slot t i fd : fd_get t i = Some fd ↔ (i < MAX_FDS)%nat ∧ fds t !!! i = Some fd.
Proof. unfold fd_get. case_bool_decide; split; [done|lia|by split; [lia|]|by intros [_ ?]]. Qed.

Lemma drop_option_ledger io o l : ledger io (option_list o ++ l) → ledger (drop_option_fd io o) l.
Proof. destruct o as [fd|]; [apply drop_ledger|done]. Qed.

Lemma set_slot_ledger io t i fd flags l : table_wf t → (i < MAX_FDS)%nat →
  ledger io (fd :: table_fds t ++ l) →
  let '(io', t') := set_slot io t i fd flags in table_wf t' ∧ ledger io' (table_fds t' ++ l).
Proof.
  intros Hw Hi Hl. destruct (set_slot_wf io t i fd flags Hw Hi) as [Hw' _]. simpl in Hw' |- *. split; [done|].
  apply drop_option_ledger. rewrite app_assoc. unfold table_fds. simpl.
  by rewrite (omap_insert_perm _ _ _ _ (slot_lookup t i Hw Hi)).
Qed.

Lemma clear_slot_perm t i : table_wf t → (i < MAX_FDS)%nat →
  option_list (fds t !!! i) ++ table_fds (clear_slot t i).1 ≡ₚ table_fds t.
Proof. intros Hw Hi. unfold table_fds. simpl. by rewrite (omap_insert_perm _ _ _ _ (slot_lookup t i Hw Hi)). Qed.

Lemma alloc_ledger io t start limit fd flags l : table_wf t → ledger io (fd :: table_fds t ++ l) →
  let '(io', t', _) := alloc_slot_from io t start limit fd flags in table_wf t' ∧ ledger io' (table_fds t' ++ l).
Proof.
  intros Hw Hl. pose proof (alloc_slot_spec io t start limit fd flags Hw) as H.
  destruct (alloc_slot_from io t start limit fd flags) as [[io' t'] [i|]].
  - destruct H as (Hi & _ & _ & Hs & _). pose proof (set_slot_ledger io t i fd flags l Hw ltac:(lia) Hl) as H.
    rewrite <-Hs in H. exact H.
  - destruct H as (_ & -> & ->). split; [done|]. by apply drop_ledger.
Qed.

Lemma alloc_at_ledger io t i fd l : table_wf t → ledger io (fd :: table_fds t ++ l) →
  let '(io', t', _) := alloc_at io t i fd in table_wf t' ∧ ledger io' (table_fds t' ++ l).
Proof.
  intros Hw Hl. unfold alloc_at. case_bool_decide; [split; [done|by apply drop_ledger]|].
  pose proof (set_slot_ledger io t i fd 0 l Hw ltac:(lia) Hl). by destruct (set_slot io t i fd 0).
Qed.

Lemma remove_perm t i : table_wf t →
  match remove t i with
  | (t', Ok fd) => table_wf t' ∧ fd :: table_fds t' ≡ₚ table_fds t ∧ fds t !!! i = Some fd ∧ t' = (clear_slot t i).1
  | (t', Err e) => t' = t ∧ e = EBADF
  end.
Proof.
  intros Hw. unfold remove, bad_fd. case_bool_decide as H1; [done|]. case_bool_decide as H2; [done|]. simpl.
  destruct (fds t !!! i) as [fd|] eqn:Hs; [|done]. assert (i < MAX_FDS)%nat as Hi by lia.
  pose proof (clear_slot_wf t i Hw Hi) as [Hw' _]. pose proof (clear_slot_perm t i Hw Hi) as Hp. rewrite Hs in Hp. done.
Qed.

Lemma free_ledger io t i l : table_wf t → ledger io (table_fds t ++ l) →
  let '(io', t', _) := free io t i in table_wf t' ∧ ledger io' (table_fds t' ++ l).
Proof.
  intros Hw Hl. unfold free. pose proof (remove_perm t i Hw) as H. destruct (remove t i) as [t' [fd|e]].
  - destruct H as (Hw' & Hp & _). split; [done|]. apply drop_ledger. rewrite app_comm_cons. by rewrite Hp.
  - by destruct H as [-> _].
Qed.

Lemma set_fd_flags_wf t i flags : table_wf t → table_wf (set_fd_flags t i flags).1 ∧ fds (set_fd_flags t i flags).1 = fds t.
Proof.
  intros Hw. unfold set_fd_flags, bad_fd. case_bool_decide as H1; [done|]. case_bool_decide as H2; [done|]. simpl.
  assert (i < MAX_FDS)%nat as Hi by lia. destruct (fds t !!! i) as [fd|] eqn:Hs; [|done].
  (* the same as storing the descriptor again *)
  destruct (set_slot_wf (E := unit) empty_io t i fd flags Hw Hi) as (W & F & G). split; [|done].
  assert (fds (set_slot (E := unit) empty_io t i fd flags).2 = fds t) as Hf.
  { simpl. apply list_insert_id. rewrite slot_lookup by done. by rewrite Hs. }
  split; [apply Hw|apply W|apply Hw|apply Hw| |apply W].
  intros j. pose proof (tw_flag _ W j) as Hj. rewrite Hf in Hj. exact Hj.
Qed.

(** What [close_on_exec] removes, from [index] on. *)
Lemma close_loop_spec n : ∀ t index closed, table_wf t → (index + n ≤ MAX_FDS)%nat →
  let '(t', closed') := close_loop t n index closed in
  ∃ files, closed' = closed ++ files ∧ table_wf t' ∧ files ++ table_fds t' ≡ₚ table_fds t ∧
  (∀ j, fds t' !!! j = if bool_decide (index ≤ j < index + n)%nat && bool_decide (flag_at t j = 1) then None else fds t !!! j) ∧
  (∀ j, flag_at t' j = if bool_decide (index ≤ j < index + n)%nat then 0 else flag_at t j) ∧
  files = omap (λ j, if bool_decide (flag_at t j = 1) then fds t !!! j else None) (seq index n).
Proof.
  induction n as [|n IH]; intros t index closed Hw Hn; simpl.
  { exists []. rewrite app_nil_r. split_and!; try done; intros j; rewrite bool_decide_false by lia; done. }
  assert (Z.land (flag_at t index) FD_CLOEXEC = flag_at t index) as Hland
    by (destruct (tw_flag _ Hw index) as [->|[-> _]]; reflexivity).
  rewrite Hland. assert (index < MAX_FDS)%nat as Hi by lia.
  destruct (decide (flag_at t index = 1)) as [Hf|Hf].
  - destruct (tw_flag _ Hw index) as [?|[_ [fd Hs]]]; [lia|].
    rewrite (bool_decide_true (is_Some _)) by (rewrite Hs; eauto). rewrite (bool_decide_false (flag_at t index = 0)) by lia. simpl.
    pose proof (clear_slot_wf t index Hw Hi) as (Hw1 & F1 & G1). pose proof (clear_slot_perm t index Hw Hi) as Hp.
    unfold clear_slot in *. cbn [fst] in *. set (t1 := mkFdTable _ _ _ _) in *. rewrite Hs in Hp |- *.
    specialize (IH t1 (S index) (closed ++ [fd]) Hw1 ltac:(lia)).
    destruct (close_loop t1 n (S index) (closed ++ [fd])) as [t' closed']. destruct IH as (files & -> & W & P & F & G & Hfiles).
    exists (fd :: files). rewrite <-app_assoc. split_and!; [done|done| | | |].
    + simpl. rewrite P. exact Hp.
    + intros j. rewrite F, F1, G1. destruct (decide (index = j)) as [->|Hne].
      * rewrite (bool_decide_true (j = j)) by done. rewrite (bool_decide_false (S j ≤ j < S j + n)%nat) by lia.
        rewrite (bool_decide_true (j ≤ j < j + S n)%nat) by lia. by rewrite (bool_decide_true (flag_at t j = 1)).
      * rewrite (bool_decide_false (index = j)) by done.
        by rewrite (bool_decide_ext (S index ≤ j < S index + n)%nat (index ≤ j < index + S n)%nat) by lia.
    + intros j. rewrite G, G1. destruct (decide (index = j)) as [->|Hne].
      * rewrite (bool_decide_true (j = j)) by done. rewrite (bool_decide_true (j ≤ j < j + S n)%nat) by lia. by case_match.
      * rewrite (bool_decide_false (index = j)) by done.
        by rewrite (bool_decide_ext (S index ≤ j < S index + n)%nat (index ≤ j < index + S n)%nat) by lia.
    + rewrite (bool_decide_true (flag_at t index = 1)) by done. simpl. f_equal. rewrite Hfiles.
      apply list_omap_ext, Forall_Forall2_diag, Forall_forall. intros j Hj. apply elem_of_seq in Hj. rewrite G1, F1.
      by rewrite !(bool_decide_false (index = j)) by lia.
  - rewrite (bool_decide_true (flag_at t index = 0)) by (destruct (tw_flag _ Hw index) as [?|[? _]]; [done|lia]).
    rewrite andb_false_r. specialize (IH t (S index) closed Hw ltac:(lia)).
    destruct (close_loop t n (S index) closed) as [t' closed']. destruct IH as (files & -> & W & P & F & G & Hfiles).
    assert (flag_at t index = 0) as Hf0 by (destruct (tw_flag _ Hw index) as [?|[? _]]; [done|lia]).
    exists files. split_and!; [done|done|done| | |].
    + intros j. rewrite F. destruct (decide (index = j)) as [->|Hne].
      * rewrite (bool_decide_false (flag_at t j = 1)) by lia. by rewrite !andb_false_r.
      * by rewrite (bool_decide_ext (S index ≤ j < S index + n)%nat (index ≤ j < index + S n)%nat) by lia.
    + intros j. rewrite G. destruct (decide (index = j)) as [->|Hne].
      * rewrite (bool_decide_false (S j ≤ j < S j + n)%nat) by lia. by rewrite (bool_decide_true (j ≤ j < j + S n)%nat) by lia.
      * by rewrite (bool_decide_ext (S index ≤ j < S index + n)%nat (index ≤ j < index + S n)%nat) by lia.
    + rewrite (bool_decide_false (flag_at t index = 1)) by lia. done.
Qed.

Lemma close_on_exec_spec t : table_wf t →
  let '(t', closed) := close_on_exec t in
  table_wf t' ∧ closed ++ table_fds t' ≡ₚ table_fds t ∧
  (∀ j, fds t' !!! j = if bool_decide (flag_at t j = 1) then None else fds t !!! j) ∧ (∀ j, flag_at t' j = 0) ∧
  closed = omap (λ j, if bool_decide (flag_at t j = 1) then fds t !!! j else None) (seq 0 MAX_FDS).
Proof.
  intros Hw. unfold close_on_exec. case_bool_decide as Hc.
  - assert (∀ j, flag_at t j = 0) as Hz by (intros j; destruct (flag_count t j Hw); lia).
    split_and!; [done..| |done|].
    + intros j. by rewrite Hz.
    + symmetry. generalize (seq 0 MAX_FDS). intros l. induction l as [|j l IH]; simpl; [done|]. by rewrite Hz.
  - pose proof (close_loop_spec MAX_FDS t 0 [] Hw ltac:(lia)) as H. destruct (close_loop t MAX_FDS 0 []) as [t' closed].
    destruct H as (files & -> & W & P & F & G & ->). split_and!; [done|done| | |done].
    + intros j. rewrite F. destruct (decide (flag_at t j = 1)) as [Hj|Hj]; [|by rewrite (bool_decide_false _ Hj), andb_false_r].
      rewrite (bool_decide_true _ Hj). destruct (tw_flag _ Hw j) as [?|[_ [fd Hs]]]; [lia|].
      rewrite bool_decide_true; [done|]. apply (slot_in_range t j fd Hw) in Hs. lia.
    + intros j. rewrite G. case_bool_decide as Hj; [done|]. destruct (tw_flag _ Hw j) as [?|[_ [fd Hs]]]; [done|].
      apply (slot_in_range t j fd Hw) in Hs. lia.
Qed.

Lemma drop_slots_ledger slots io l : ledger io (omap id slots ++ l) → ledger (drop_slots io slots) l.
Proof.
  revert io. induction slots as [|o slots IH]; intros io Hl; simpl; [done|]. apply IH, drop_option_ledger.
  by destruct o.
Qed.

Lemma close_all_ledger io t l : ledger io (table_fds t ++ l) →
  let '(io', t') := close_all io t in table_wf t' ∧ ledger io' (table_fds t' ++ l).
Proof.
  intros Hl. unfold close_all. split.
  - assert (∀ i, flag_at (mkFdTable (replicate MAX_FDS None) (replicate MAX_FDS 0) 0 0) i = 0) as Hz.
    { intros i. unfold flag_at. cbn [fd_flag_words]. destruct (replicate MAX_FDS 0 !! i) eqn:Eo; [by apply lookup_replicate in Eo as [-> _]|done]. }
    split; [reflexivity|reflexivity|simpl; lia|simpl; lia| |reflexivity]. intros i. left. apply Hz.
  - assert (table_fds (mkFdTable (replicate MAX_FDS None) (replicate MAX_FDS 0) 0 0) = []) as -> by reflexivity.
    by apply drop_slots_ledger.
Qed.

Lemma dup_ledger io t old limit l : table_wf t → ledger io (table_fds t ++ l) →
  let '(io', t', _) := dup_below io t old limit in table_wf t' ∧ ledger io' (table_fds t' ++ l).
Proof.
  intros Hw Hl. unfold dup_below. destruct (fd_get t old) as [fd|] eqn:Hg; [|done]. apply fd_get_slot in Hg as [Hi Hs].
  pose proof (clone_ledger io fd (table_fds t ++ l)) as Hc. rewrite elem_of_app in Hc.
  specialize (Hc (or_introl (slot_in_table t old fd Hw Hs)) Hl). pose proof (clone_same_fd io fd) as Hsame.
  destruct (fd_clone io fd) as [io1 fd1]. simpl in Hsame, Hc. subst fd1.
  pose proof (alloc_ledger io1 t 0 limit fd 0 l Hw Hc) as Ha. unfold alloc_with_flags_below.
  by destruct (alloc_slot_from io1 t 0 limit fd 0) as [[io2 t2] [i|]].
Qed.

Lemma dup2_ledger io t old new limit l : table_wf t → ledger io (table_fds t ++ l) →
  let '(io', t', _) := dup2_below io t old new limit in table_wf t' ∧ ledger io' (table_fds t' ++ l).
Proof.
  intros Hw Hl. unfold dup2_below. destruct (fd_get t old) as [fd|] eqn:Hg; [|done]. apply fd_get_slot in Hg as [Hi Hs].
  case_bool_decide as Hn; [done|]. case_bool_decide as Heq; [done|].
  set (st := if bool_decide (is_Some (fds t !!! new)) then (free io t new).1 else (io, t)).
  assert (table_wf st.2 ∧ ledger st.1 (table_fds st.2 ++ l) ∧ fds st.2 !!! old = Some fd) as (Hw1 & Hl1 & Hs1).
  { unfold st. case_bool_decide; [|done]. pose proof (free_ledger io t new l Hw Hl) as Hf.
    pose proof (remove_perm t new Hw) as Hr. unfold free in *. destruct (remove t new) as [t1 [fd1|e]]; simpl in *.
    - destruct Hf as [Hf1 Hf2]. destruct Hr as (_ & _ & _ & ->). split_and!; [done..|].
      destruct (clear_slot_wf t new Hw ltac:(lia)) as (_ & F & _). by rewrite F, bool_decide_false by done.
    - by destruct Hr as [-> _]. }
  destruct st as [io1 t1]. simpl in Hw1, Hl1, Hs1.
  pose proof (clone_ledger io1 fd (table_fds t1 ++ l)) as Hc. rewrite elem_of_app in Hc.
  specialize (Hc (or_introl (slot_in_table t1 old fd Hw1 Hs1)) Hl1). pose proof (clone_same_fd io1 fd) as Hsame.
  destruct (fd_clone io1 fd) as [io2 fd1]. simpl in Hsame, Hc. subst fd1.
  pose proof (set_slot_ledger io2 t1 new fd 0 l Hw1 ltac:(lia) Hc) as Ha. by destruct (set_slot io2 t1 new fd 0).
Qed.

Lemma clone_slots_spec slots : ∀ io l, (∀ fd, fd ∈ omap id slots → fd ∈ l) → ledger io l →
  (clone_slots io slots).2 = slots ∧ ledger (clone_slots io slots).1 (omap id slots ++ l).
Proof.
  induction slots as [|o slots IH]; intros io l Hin Hl; simpl; [done|]. destruct o as [fd|]; simpl in *.
  - pose proof (clone_ledger io fd l (Hin fd (list_elem_of_here _ _)) Hl) as Hc. pose proof (clone_same_fd io fd) as Hsame.
    destruct (fd_clone io fd) as [io1 fd1]. simpl in Hc, Hsame. subst fd1.
    destruct (IH io1 (fd :: l)) as [H1 H2]; [|done|].
    { intros fd' Hfd'. apply list_elem_of_further, Hin. by apply list_elem_of_further. }
    destruct (clone_slots io1 slots) as [io2 slots2]. simpl in *. subst. split; [done|]. by rewrite Permutation_middle.
  - destruct (IH io l Hin Hl) as [H1 H2]. destruct (clone_slots io slots) as [io2 slots2]. simpl in *. by subst.
Qed.

Lemma clone_table_ledger io t l : table_wf t → ledger io (table_fds t ++ l) →
  let '(io', t') := clone_table io t in t' = t ∧ ledger io' (table_fds t' ++ table_fds t ++ l).
Proof.
  intros Hw Hl. unfold clone_table. destruct (clone_slots_spec (fds t) io (table_fds t ++ l)) as [H1 H2];
    [intros fd Hfd; rewrite elem_of_app; by left|done|].
  destruct (clone_slots io (fds t)) as [io' slots]. simpl in *. subst. by destruct t.
Qed.

(** A method through [get_mut]: the slot keeps the descriptor the method returns. *)
Definition method_at io t (i : nat) (m : Method) : Io E * FileDescriptorTable :=
  match fd_get t i with
  | None => (io, t)
  | Some fd =>
      let '(io, fd) := run_method io m fd in
      (io, mkFdTable (<[i := Some fd]> (fds t)) (fd_flag_words t) (next_fd_hint t) (cloexec_count t))
  end.

Lemma method_at_ledger io t i m l : table_wf t → ledger io (table_fds t ++ l) →
  let '(io', t') := method_at io t i m in table_wf t' ∧ ledger io' (table_fds t' ++ l).
Proof.
  intros Hw Hl. unfold method_at. destruct (fd_get t i) as [fd|] eqn:Hg; [|done]. apply fd_get_slot in Hg as [Hi Hs].
  pose proof (method_same_end io m fd) as He. pose proof (method_counts io m fd) as Hc.
  destruct (run_method io m fd) as [io' fd']. simpl in He, Hc. split.
  - pose proof (fds_insert t i (Some fd') : ∀ j, _ → _ → _) as Hf. split; simpl.
    + by rewrite length_insert, (tw_fds _ Hw).
    + apply Hw.
    + apply Hw.
    + intros j Hj. rewrite Hf by done. case_bool_decide; [by eexists|by apply (tw_taken _ Hw)].
    + intros j. rewrite Hf by done. destruct (tw_flag _ Hw j) as [H|[H1 H2]]; [by left|right].
      split; [done|]. case_bool_decide; [by eexists|done].
    + apply Hw.
  - pose proof (omap_insert_perm _ _ None _ (slot_lookup t i Hw Hi)) as Hp. rewrite Hs in Hp. simpl in Hp.
    pose proof (omap_insert_perm (<[i := None]> (fds t)) i (Some fd') None) as Hp'.
    rewrite list_insert_insert_eq in Hp'.
    specialize (Hp' ltac:(apply list_lookup_insert_eq; by rewrite (tw_fds _ Hw))). simpl in Hp'.
    unfold table_fds. simpl. rewrite Hp'. unfold table_fds in Hl. rewrite <-Hp in Hl. simpl in Hl |- *.
    eapply ledger_same_end; [exact He|]. eapply ledger_same; [|exact Hl]. by eapply Hc.
Qed.

(** ** All tables together *)

Record World := mkWorld { w_io : Io E; w_tables : list FileDescriptorTable; w_loose : list FileDescriptor }.

(** Every descriptor there is. *)
Definition held (w : World) : list FileDescriptor := w_loose w ++ (w_tables w ≫= table_fds).

(** The operations; the first argument of most is the index of the table. *)
Inductive WorldOp :=
  | WNewTable
  | WPipe (h : handle) (nonblock : bool)
  | WOpen (fd : FileDescriptor)
  | WAlloc (k start limit : nat) (flags : Z)
  | WAllocAt (k index : nat)
  | WRemove (k fd : nat)
  | WFree (k fd : nat)
  | WDrop
  | WSetFlags (k fd : nat) (flags : Z)
  | WDup (k old limit : nat)
  | WDup2 (k old new limit : nat)
  | WCloseOnExec (k : nat)
  | WCloseAll (k : nat)
  | WFork (k : nat)
  | WMethod (k fd : nat) (m : Method).

Definition on_table (w : World) (k : nat) (f : FileDescriptorTable → Io E * FileDescriptorTable * list FileDescriptor) : World :=
  match w_tables w !! k with
  | None => w
  | Some t => let '(io, t, loose) := f t in mkWorld io (<[k := t]> (w_tables w)) loose
  end.

(** [WPipe] needs an address that no live pipe has; [WOpen] stands for opening anything that
    is not a pipe; [WAlloc] and [WAllocAt] install the loose descriptor made last. *)
Definition world_step (w : World) (op : WorldOp) : World :=
  let io := w_io w in
  match op with
  | WNewTable => mkWorld io (w_tables w ++ [fd_table_new]) (w_loose w)
  | WPipe h nonblock =>
      match io_pipes io !! h with
      | Some _ => w
      | None => let '(io, r, wr) := create_pipe io h nonblock in mkWorld io (w_tables w) (r :: wr :: w_loose w)
      end
  | WOpen fd => if is_pipe_read fd || is_pipe_write fd then w else mkWorld io (w_tables w) (fd :: w_loose w)
  | WAlloc k start limit flags =>
      match w_loose w with
      | fd :: loose => on_table w k (λ t, let '(io, t, _) := alloc_slot_from io t start limit fd flags in (io, t, loose))
      | [] => w
      end
  | WAllocAt k index =>
      match w_loose w with
      | fd :: loose => on_table w k (λ t, let '(io, t, _) := alloc_at io t index fd in (io, t, loose))
      | [] => w
      end
  | WRemove k fd =>
      on_table w k (λ t, match remove t fd with (t, Ok old) => (io, t, old :: w_loose w) | (t, Err _) => (io, t, w_loose w) end)
  | WFree k fd => on_table w k (λ t, ((free io t fd).1, w_loose w))
  | WDrop => match w_loose w with fd :: loose => mkWorld (fd_drop io fd) (w_tables w) loose | [] => w end
  | WSetFlags k fd flags => on_table w k (λ t, (io, (set_fd_flags t fd flags).1, w_loose w))
  | WDup k old limit => on_table w k (λ t, ((dup_below io t old limit).1, w_loose w))
  | WDup2 k old new limit => on_table w k (λ t, ((dup2_below io t old new limit).1, w_loose w))
  | WCloseOnExec k => on_table w k (λ t, let '(t, closed) := close_on_exec t in (io, t, closed ++ w_loose w))
  | WCloseAll k => on_table w k (λ t, (close_all io t, w_loose w))
  | WFork k =>
      match w_tables w !! k with
      | None => w
      | Some t => let '(io, child) := clone_table io t in mkWorld io (w_tables w ++ [child]) (w_loose w)
      end
  | WMethod k fd m => on_table w k (λ t, (method_at io t fd m, w_loose w))
  end.

Definition world_run (w : World) (ops : list WorldOp) : World := foldl world_step w ops.

Definition world_ok (w : World) : Prop := Forall table_wf (w_tables w) ∧ ledger (w_io w) (held w).

Lemma bind_snoc (ts : list FileDescriptorTable) t : (ts ++ [t]) ≫= table_fds = (ts ≫= table_fds) ++ table_fds t.
Proof. rewrite bind_app. f_equal. apply app_nil_r. Qed.

(** The descriptors of the tables other than [k]. *)
Lemma bind_split (ts : list FileDescriptorTable) k t :
  ts !! k = Some t → ∃ rest, (ts ≫= table_fds) ≡ₚ table_fds t ++ rest ∧ ∀ t', (<[k := t']> ts ≫= table_fds) ≡ₚ table_fds t' ++ rest.
Proof.
  revert k. induction ts as [|t0 ts IH]; intros [|k] Hk; simpl in *; [done|done| |].
  - injection Hk as ->. by exists (ts ≫= table_fds).
  - destruct (IH k Hk) as (rest & H1 & H2). exists (table_fds t0 ++ rest). split; [|intros t']; rewrite ?H1, ?H2, !app_assoc;
      apply Permutation_app_tail, Permutation_app_comm.
Qed.

(** An operation on one table that moves descriptors between it and the loose ones. *)
Lemma on_table_ok w k f : world_ok w →
  (∀ t l, table_wf t → ledger (w_io w) (table_fds t ++ w_loose w ++ l) →
     let '(io', t', loose') := f t in table_wf t' ∧ ledger io' (table_fds t' ++ loose' ++ l)) →
  world_ok (on_table w k f).
Proof.
  intros [Hw Hl] Hf. unfold on_table. destruct (w_tables w !! k) as [t|] eqn:Hk; [|done].
  destruct (bind_split _ _ _ Hk) as (rest & H1 & H2). rewrite Forall_lookup in Hw.
  specialize (Hf t rest (Hw k t Hk)). unfold held in Hl. rewrite H1 in Hl.
  assert (∀ a b : list FileDescriptor, a ++ b ++ rest ≡ₚ b ++ a ++ rest) as Hp
    by (intros a b; rewrite !app_assoc; apply Permutation_app_tail, Permutation_app_comm).
  rewrite Hp in Hf. specialize (Hf Hl). destruct (f t) as [[io' t'] loose']. destruct Hf as [Hw' Hl']. split; simpl.
  - apply Forall_insert; [by apply Forall_lookup|done].
  - unfold held. simpl. by rewrite H2, Hp.
Qed.

(** An operation that leaves the loose descriptors alone. *)
Lemma on_table_keep w k f : world_ok w →
  (∀ t l, table_wf t → ledger (w_io w) (table_fds t ++ l) → let '(io', t') := f t in table_wf t' ∧ ledger io' (table_fds t' ++ l)) →
  world_ok (on_table w k (λ t, (f t, w_loose w))).
Proof.
  intros Hok Hf. apply on_table_ok; [done|]. intros t l Hw Hl. specialize (Hf t (w_loose w ++ l) Hw Hl). by destruct (f t).
Qed.

Lemma create_pipe_ledger io h nonblock l : io_pipes io !! h = None → ledger io l →
  ledger (create_pipe io h nonblock).1.1 (PipeRead h nonblock :: PipeWrite h nonblock :: l).
Proof.
  intros Hn Hl. pose proof (Hl h) as Hh. rewrite Hn in Hh. apply (ledger_set_pipe _ _ _ l); [done| | |].
  - intros h' Hne. rewrite !ends_cons. simpl. by rewrite !bool_decide_false by done.
  - rewrite !ends_cons. simpl. rewrite bool_decide_true by done. lia.
  - rewrite !ends_cons. simpl. rewrite bool_decide_true by done. lia.
Qed.

Lemma world_step_ok w op : world_ok w → world_ok (world_step w op).
Proof.
  intros Hok. pose proof Hok as [Hw Hl]. destruct op; cbn [world_step].
  - split; simpl; [apply Forall_app; split; [done|]; apply Forall_singleton, fd_table_new_wf|].
    unfold held. cbn [w_loose w_tables]. rewrite bind_snoc, app_assoc.
    assert (table_fds fd_table_new = [Stdin; Stdout; Stderr]) as -> by reflexivity.
    rewrite Permutation_app_comm. simpl. by do 3 (apply ledger_not_pipe; [done..|]).
  - destruct (io_pipes (w_io w) !! h) eqn:Hn; [done|]. split; simpl; [done|]. by apply (create_pipe_ledger (w_io w) h nonblock).
  - destruct (is_pipe_read fd) eqn:H1; [done|]. destruct (is_pipe_write fd) eqn:H2; [done|]. split; simpl; [done|].
    by apply ledger_not_pipe.
  - destruct (w_loose w) as [|fd loose] eqn:He; [done|].
    apply (on_table_ok w k); [done|]. intros t l Hwt Hlt. rewrite He in Hlt. simpl in Hlt. rewrite <-Permutation_middle in Hlt.
    pose proof (alloc_ledger (w_io w) t start limit fd flags (loose ++ l) Hwt Hlt) as H.
    by destruct (alloc_slot_from (w_io w) t start limit fd flags) as [[io' t'] o].
  - destruct (w_loose w) as [|fd loose] eqn:He; [done|].
    apply (on_table_ok w k); [done|]. intros t l Hwt Hlt. rewrite He in Hlt. simpl in Hlt. rewrite <-Permutation_middle in Hlt.
    pose proof (alloc_at_ledger (w_io w) t index fd (loose ++ l) Hwt Hlt) as H.
    by destruct (alloc_at (w_io w) t index fd) as [[io' t'] o].
  - apply on_table_ok; [done|]. intros t l Hwt Hlt. pose proof (remove_perm t fd Hwt) as Hr.
    destruct (remove t fd) as [t' [old|e]]; [|by destruct Hr as [-> _]].
    destruct Hr as (Hw' & Hp & _). split; [done|]. simpl. rewrite <-Permutation_middle, app_comm_cons. by rewrite Hp.
  - apply on_table_keep; [done|]. intros t l Hwt Hlt. pose proof (free_ledger (w_io w) t fd l Hwt Hlt) as H.
    by destruct (free (w_io w) t fd) as [[io' t'] r].
  - destruct (w_loose w) as [|fd loose] eqn:He; [done|]. split; simpl; [done|]. unfold held in *. rewrite He in Hl.
    by apply drop_ledger.
  - apply on_table_ok; [done|]. intros t l Hwt Hlt. destruct (set_fd_flags_wf t fd flags Hwt) as [H1 H2]. split; [done|].
    unfold table_fds. by rewrite H2.
  - apply on_table_keep; [done|]. intros t l Hwt Hlt. pose proof (dup_ledger (w_io w) t old limit l Hwt Hlt) as H.
    by destruct (dup_below (w_io w) t old limit) as [[io' t'] r].
  - apply on_table_keep; [done|]. intros t l Hwt Hlt. pose proof (dup2_ledger (w_io w) t old new limit l Hwt Hlt) as H.
    by destruct (dup2_below (w_io w) t old new limit) as [[io' t'] r].
  - apply on_table_ok; [done|]. intros t l Hwt Hlt. pose proof (close_on_exec_spec t Hwt) as H.
    destruct (close_on_exec t) as [t' closed]. destruct H as (Hw' & Hp & _). split; [done|].
    assert (table_fds t' ++ (closed ++ w_loose w) ++ l ≡ₚ table_fds t ++ w_loose w ++ l) as ->; [|done].
    rewrite <-Hp, <-!app_assoc, app_assoc, (app_assoc closed). apply Permutation_app_tail, Permutation_app_comm.
  - apply on_table_keep; [done|]. intros t l Hwt Hlt. pose proof (close_all_ledger (w_io w) t l Hlt) as H.
    by destruct (close_all (w_io w) t).
  - destruct (w_tables w !! k) as [t|] eqn:Hk; [|done]. destruct (bind_split _ _ _ Hk) as (rest & H1 & _).
    assert (table_wf t) as Hwt by by eapply Forall_lookup_1. unfold held in Hl. rewrite H1 in Hl.
    assert (w_loose w ++ table_fds t ++ rest ≡ₚ table_fds t ++ w_loose w ++ rest) as Hp
      by (rewrite !app_assoc; apply Permutation_app_tail, Permutation_app_comm).
    rewrite Hp in Hl. pose proof (clone_table_ledger (w_io w) t _ Hwt Hl) as Hc.
    destruct (clone_table (w_io w) t) as [io' t']. destruct Hc as [-> Hc]. split; simpl.
    + apply Forall_app. split; [done|]. by apply Forall_singleton.
    + unfold held. cbn [w_loose w_tables]. rewrite bind_snoc, H1.
      assert (w_loose w ++ (table_fds t ++ rest) ++ table_fds t ≡ₚ table_fds t ++ table_fds t ++ w_loose w ++ rest) as ->; [|done].
      rewrite app_assoc, Permutation_app_comm, Hp. done.
  - apply on_table_keep; [done|]. intros t l Hwt Hlt. by apply method_at_ledger.
Qed.

Lemma world_run_ok w ops : world_ok w → world_ok (world_run w ops).
Proof. revert w. induction ops as [|op ops IH]; intros w Hok; simpl; [done|]. by apply IH, world_step_ok. Qed.

End ledger.
Arguments World E : clear implicits.

(** The machine before the first process. *)
Definition empty_world {E : Type} (io : Io E) : World E := mkWorld io [] [].

(** C34: end of file and broken pipes are told exactly when the other side is gone.  Whatever
    processes do with their tables (open, dup, dup2, fork, close, exec, exit, reading and
    writing), every table keeps its invariant and the counts of every pipe are the numbers
    of its open ends in all tables together; hence a read of an empty pipe reports end of
    file if and only if no write end is open anywhere, it asks to wait if and only if one
    is, and a write reports a broken pipe if and only if no read end is open. *)
Theorem pipe_ends_counted {E : Type} `{!BackingFiles E} (io : Io E) ops :
  io_pipes io = ∅ →
  let w := world_run (empty_world io) ops in
  Forall table_wf (w_tables w) ∧
  ∀ h p, io_pipes (w_io w) !! h = Some p →
    pipe_readers p = ends (reads_of h) (held w) ∧ pipe_writers p = ends (writes_of h) (held w) ∧
    (∀ nonblock buf, buf ≠ [] →
       ((fd_read (w_io w) (PipeRead h nonblock) buf).2 = Ok 0 ↔
          pipe_buf p = [] ∧ ∀ fd, fd ∈ held w → writes_of h fd = false) ∧
       ((fd_read (w_io w) (PipeRead h nonblock) buf).2 = Err EAGAIN ↔
          pipe_buf p = [] ∧ ∃ fd, fd ∈ held w ∧ writes_of h fd = true)) ∧
    (∀ nonblock data, data ≠ [] →
       ((fd_write (w_io w) (PipeWrite h nonblock) data).2 = Err EPIPE ↔ ∀ fd, fd ∈ held w → reads_of h fd = false)).
Proof.
  intros He w. assert (world_ok w) as [Hw Hl].
  { apply world_run_ok. split; [constructor|]. intros h. unfold held. simpl. by rewrite He, lookup_empty. }
  split; [done|]. intros h p Hp. pose proof (Hl h) as Hh. rewrite Hp in Hh. destruct Hh as [Hr Hwr].
  assert (∀ f, (ends f (held w) = 0 ↔ ∀ fd, fd ∈ held w → f fd = false) ∧ (ends f (held w) ≠ 0 ↔ ∃ fd, fd ∈ held w ∧ f fd = true)) as Hends.
  { intros f. split; split.
    - apply ends_zero.
    - intros Hn. unfold ends. rewrite filter_drop_all; [done|]. apply Forall_forall. intros fd Hfd. by rewrite (Hn fd Hfd).
    - intros Hn. unfold ends in Hn. destruct (filter _ (held w)) as [|fd r] eqn:Ef; [done|]. exists fd.
      apply and_comm, (list_elem_of_filter (λ fd, f fd = true)). rewrite Ef. apply list_elem_of_here.
    - intros (fd & Hfd & Hf). pose proof (ends_pos f fd _ Hfd Hf). lia. }
  split_and!; [done|done| |].
  - intros nonblock buf Hb. simpl. destruct (read_pipe (w_io w) h buf) as [[io' buf'] res] eqn:Hread. simpl.
    apply read_pipe_spec in Hread. rewrite (lookup_total_of _ _ _ Hp), (bool_decide_false (buf = [])) in Hread by done. simpl in Hread.
    assert (Z.min (zlen buf) (zlen (pipe_buf p)) = 0 ↔ pipe_buf p = []) as Hn
      by (unfold zlen; destruct buf, (pipe_buf p); simpl; naive_solver lia).
    destruct (Hends (writes_of h)) as [Hz Hnz]. rewrite <-Hz, <-Hnz, <-Hwr.
    case_bool_decide as Hc; destruct Hread as (_ & _ & ->).
    + case_bool_decide; naive_solver.
    + split; (split; [intros Hx; simplify_eq|]); tauto || (intros [? _]; tauto).
  - intros nonblock data Hd. simpl. destruct (write_pipe (w_io w) h data) as [io' res] eqn:Hwrite. simpl.
    apply write_pipe_spec in Hwrite. rewrite (lookup_total_of _ _ _ Hp), (bool_decide_false (data = [])) in Hwrite by done.
    destruct (Hends (reads_of h)) as [Hz _]. rewrite <-Hz, <-Hr.
    destruct (decide (pipe_readers p = 0)) as [H0|H0].
    + rewrite (bool_decide_true _ H0) in Hwrite. simpl in Hwrite. by destruct Hwrite as [_ ->].
    + rewrite (bool_decide_false _ H0) in Hwrite. simpl in Hwrite. case_bool_decide; destruct Hwrite as [_ ->]; naive_solver.
Qed.

(** A pipe set up by a parent that forks: parent keeps the read end, the child the write
    end; after the child closed it too, the parent reads end of file. *)
Definition demo_world_ops : list WorldOp :=
  [WNewTable; WPipe 7 false; WAlloc 0 0 1024 0; WAlloc 0 0 1024 0; WFork 0; WFree 0 4; WFree 1 3;
   WDup 1 4 1024; WFree 1 4].

Lemma pipe_ends_counted_witness :
  let w := world_run (empty_world empty_io) demo_world_ops in
  let w' := world_run (empty_world empty_io) (demo_world_ops ++ [WCloseAll 1]) in
  (fd_read (w_io w) (PipeRead 7 false) [0]).2 = Err EAGAIN ∧ (fd_read (w_io w') (PipeRead 7 false) [0]).2 = Ok 0 ∧
  (∃ fd, fd ∈ held w ∧ writes_of 7 fd = true) ∧ (∀ fd, fd ∈ held w' → writes_of 7 fd = false).
Proof.
  intros w w'.
  assert ((fd_read (w_io w) (PipeRead 7 false) [0]).2 = Err EAGAIN) as H1 by (vm_compute; reflexivity).
  assert ((fd_read (w_io w') (PipeRead 7 false) [0]).2 = Ok 0) as H2 by (vm_compute; reflexivity).
  assert (io_pipes (w_io w) !! 7 = Some (mkPipe [] 1 1)) as P1 by (vm_compute; reflexivity).
  assert (io_pipes (w_io w') !! 7 = Some (mkPipe [] 1 0)) as P2 by (vm_compute; reflexivity).
  destruct (pipe_ends_counted empty_io demo_world_ops eq_refl) as [_ Q1].
  destruct (pipe_ends_counted empty_io (demo_world_ops ++ [WCloseAll 1]) eq_refl) as [_ Q2].
  destruct (Q1 7 _ P1) as (_ & _ & R1 & _). destruct (Q2 7 _ P2) as (_ & _ & R2 & _).
  destruct (R1 false [0] ltac:(done)) as [_ S1]. destruct (R2 false [0] ltac:(done)) as [S2 _].
  split_and!; [exact H1|exact H2|by apply S1|by apply S2].
Defined.

(** Exec closes exactly the descriptors marked close-on-exec, whether the table takes the
    shortcut of its count or scans: they are returned in ascending order for closing, their
    slots are empty, no other slot changes and no flag remains. *)
Theorem close_on_exec_exact t :
  table_wf t →
  let '(t', closed) := close_on_exec t in
  table_wf t' ∧
  closed = omap (λ j, if bool_decide (flag_at t j = 1) then fds t !!! j else None) (seq 0 MAX_FDS) ∧
  (∀ j, fds t' !!! j = if bool_decide (flag_at t j = 1) then None else fds t !!! j) ∧
  (∀ j, flag_at t' j = 0).
Proof. intros Hw. pose proof (close_on_exec_spec t Hw) as H. destruct (close_on_exec t). tauto. Qed.

Lemma close_on_exec_exact_witness :
  let t := (set_slot (E := unit) empty_io fd_table_new 5 (EventFd 9) 1).2 in
  table_wf t ∧ (close_on_exec t).2 = [EventFd 9] ∧ fds (close_on_exec t).1 !!! 5%nat = None ∧
  fds (close_on_exec t).1 !!! 2%nat = Some Stderr.
Proof.
  intros t. assert (table_wf t) as Hw by (apply (set_slot_wf (E := unit)); [apply fd_table_new_wf|vm_compute; lia]).
  pose proof (close_on_exec_exact t Hw) as H. split; [done|].
  assert ((close_on_exec t).2 = [EventFd 9]) as Hc by (vm_compute; reflexivity).
  destruct (close_on_exec t) as [t' closed]. simpl in Hc |- *. destruct H as (_ & _ & F & _). split_and!; [done|by rewrite F|by rewrite F].
Defined.
