(* ===== verification/Mmap.v ===== *)
(** * Memory-mapping system calls (src/os/src/syscall/mm.rs)

    [brk], [mmap], [mprotect], [madvise], [munmap] and [msync] of the running process: a
    memory set, the cursors of [MmContext] (src/os/src/task/mod.rs) and a descriptor table.
    [sys_mmap] takes the lock of the memory set twice, to select a place and to commit; the
    two steps are separate functions, so that the theorems about the commit hold for any
    memory set other threads may have left in between. *)

From S2P Require Import Prelude BTree Frame Flags FileDesc ResidentSet MapArea VmaList MemorySet MsInv.
From S2P Require Import Buddy FrameAlloc Sv39 MsInsert Machine MsUnmap MsCow MsFault MsBytes UserVa.
From S2P Require Import MemFile IoStore FdOps Pipe FdTable.

(** [FileDescriptor::write_at] and [FileDescriptor::sync] *)
Class FileWrites (F : Type) := {
  file_write_at : F → FileDescriptor → Z → list Z → F * result Z SysErrNo;
  file_sync : F → FileDescriptor → F * result unit SysErrNo
}.

(** [MmContext] *)
Record MmContext := mkMm { program_break : Z; mapped_break : Z; next_mmap : Z; next_mmap_high : Z }.

(** ** Flags *)

Definition PROT_READ : Z := 0x1.
Definition PROT_WRITE : Z := 0x2.
Definition PROT_EXEC : Z := 0x4.
Definition PROT_MASK : Z := Z.lor (Z.lor PROT_READ PROT_WRITE) PROT_EXEC.
Definition MAP_SHARED : Z := 0x01.
Definition MAP_PRIVATE : Z := 0x02.
Definition MAP_SHARED_VALIDATE : Z := 0x03.
Definition MAP_TYPE : Z := 0x0f.
Definition MAP_FIXED : Z := 0x10.
Definition MAP_ANONYMOUS : Z := 0x20.
Definition MAP_LOCKED : Z := 0x2000.
Definition MAP_POPULATE : Z := 0x8000.
Definition MAP_HUGETLB : Z := 0x40000.
Definition MAP_SYNC : Z := 0x80000.
Definition MAP_FIXED_NOREPLACE : Z := 0x100000.
Definition MAP_COMPAT_IGNORED : Z :=
  Z.lor 0x0800 (Z.lor 0x1000 (Z.lor MAP_LOCKED (Z.lor 0x4000 (Z.lor MAP_POPULATE (Z.lor 0x10000 0x20000))))).
Definition MAP_SUPPORTED : Z :=
  Z.lor MAP_TYPE (Z.lor MAP_FIXED (Z.lor MAP_ANONYMOUS (Z.lor MAP_FIXED_NOREPLACE MAP_COMPAT_IGNORED))).
Definition MS_ASYNC : Z := 0x1.
Definition MS_INVALIDATE : Z := 0x2.
Definition MS_SYNC : Z := 0x4.
Definition MS_SUPPORTED : Z := Z.lor MS_ASYNC (Z.lor MS_INVALIDATE MS_SYNC).
Definition MADV_DONTNEED : Z := 4.

(** Some bit of [mask] is set. *)
Definition has_bits (flags mask : Z) : bool := negb (bool_decide (Z.land flags mask = 0)).

(** [align_up] of this file: overflow is [EINVAL]. *)
Definition align_up_or_einval (value : Z) : result Z SysErrNo :=
  match align_up value with Some v => Ok v | None => Err EINVAL end.
Definition checked_add_or_einval (a b : Z) : result Z SysErrNo :=
  match checked_add a b with Some v => Ok v | None => Err EINVAL end.

(** [checked_range] *)
Definition checked_range (start length_ : Z) : result (Z * Z) SysErrNo :=
  end_ ←? checked_add_or_einval start length_;
  end_ ←? align_up_or_einval end_;
  Ok (start, end_).

Definition ranges_overlap (left_start left_end right_start right_end : Z) : bool :=
  bool_decide (left_start < right_end) && bool_decide (right_start < left_end).

Definition validate_mmap_flags (flags : Z) : result unit SysErrNo :=
  if negb (has_bits flags (Z.lnot MAP_SUPPORTED)) then Ok ()
  else if bool_decide (Z.land flags MAP_TYPE = MAP_SHARED_VALIDATE) then Err EOPNOTSUPP
  else Err EINVAL.

Definition mmap_type (flags : Z) : result bool SysErrNo :=
  let type := Z.land flags MAP_TYPE in
  if bool_decide (type = MAP_SHARED) || bool_decide (type = MAP_SHARED_VALIDATE) then Ok true
  else if bool_decide (type = MAP_PRIVATE) then Ok false
  else Err EINVAL.

(** A write permission carries a read permission. *)
Definition prot_to_pte_flags (prot : Z) : result Z SysErrNo :=
  if has_bits prot (Z.lnot PROT_MASK) then Err EINVAL
  else
    let flags := Z.lor PTE_U PTE_V in
    let flags := if has_bits prot PROT_READ then Z.lor flags PTE_R else flags in
    let flags := if has_bits prot PROT_WRITE then Z.lor flags (Z.lor PTE_R PTE_W) else flags in
    Ok (if has_bits prot PROT_EXEC then Z.lor flags PTE_X else flags).

(** ** Requests *)

(** What [sys_mmap] derives from its arguments before it looks at the process. *)
Record MmapReq := mkReq {
  rq_shared : bool;
  rq_map_fixed : bool;
  rq_no_replace : bool;
  rq_anonymous : bool;
  rq_populate : bool;
  rq_pte_flags : Z;
  rq_len : Z
}.
Definition rq_fixed_addr (rq : MmapReq) : bool := rq_map_fixed rq || rq_no_replace rq.
(** [MAP_FIXED] without [MAP_FIXED_NOREPLACE] replaces what is there. *)
Definition rq_replaces (rq : MmapReq) : bool := rq_map_fixed rq && negb (rq_no_replace rq).
Definition rq_lazy_anonymous (rq : MmapReq) : bool := rq_anonymous rq && negb (rq_shared rq) && negb (rq_populate rq).

Definition mmap_request (addr length_ prot flags_arg fd offset : Z) : result MmapReq SysErrNo :=
  if bool_decide (length_ = 0) then Err EINVAL
  else
    let flags := wrap flags_arg in
    _ ←? validate_mmap_flags flags;
    shared ←? mmap_type flags;
    let map_fixed := has_bits flags MAP_FIXED in
    let no_replace := has_bits flags MAP_FIXED_NOREPLACE in
    let anonymous := has_bits flags MAP_ANONYMOUS in
    pte_flags ←? prot_to_pte_flags prot;
    map_len ←? align_up_or_einval length_;
    if negb anonymous && negb (bool_decide (offset mod PAGE_SIZE = 0)) then Err EINVAL
    else if negb anonymous && bool_decide (fd < 0) then Err EBADF
    else if (map_fixed || no_replace) && negb (bool_decide (addr mod PAGE_SIZE = 0)) then Err EINVAL
    else
      Ok (mkReq shared map_fixed no_replace anonymous (has_bits flags (Z.lor MAP_POPULATE MAP_LOCKED)) pte_flags map_len).

(** The selection, under the first lock. *)
Definition mmap_select (areas : list MapArea) (mm : MmContext) (addr : Z) (rq : MmapReq) : result Z SysErrNo :=
  let search :=
    match find_mmap_area_with_hints areas (next_mmap mm) (next_mmap_high mm) (rq_len rq) with
    | Some start => Ok start
    | None => Err ENOMEM
    end in
  if rq_fixed_addr rq then Ok addr
  else if bool_decide (addr = 0) then search
  else
    hint ←? align_up_or_einval addr;
    end_ ←? checked_add_or_einval hint (rq_len rq);
    if is_user_mappable_range hint end_ && negb (range_overlaps areas hint end_) then Ok hint else search.

(** The checks of the selected place: its end. *)
Definition mmap_place (start : Z) (rq : MmapReq) : result Z SysErrNo :=
  end_ ←? checked_add_or_einval start (rq_len rq);
  if bool_decide (start < PAGE_SIZE) then Err EPERM
  else if negb (is_user_mappable_range start end_) then Err ENOMEM
  else Ok end_.

(** The cursors after a mapping at [start .. end_). *)
Definition mmap_advance (mm : MmContext) (start end_ : Z) : MmContext :=
  if contains_range HIGH_MMAP_ARENA start end_ then
    mkMm (program_break mm) (mapped_break mm) (next_mmap mm) (Z.max (next_mmap_high mm) end_)
  else mkMm (program_break mm) (mapped_break mm) (Z.max (next_mmap mm) end_) (next_mmap_high mm).

Section mmap.
Context {PT F : Type} `{HPT : PageTableOps PT, HF : FrameService F, HL : FileLayer F, HW : FileWrites F}.
Implicit Types (st : St F) (ms : MemorySet PT).

(** What the system calls use of the running process. *)
Record Proc := mkProc { p_ms : MemorySet PT; p_mm : MmContext; p_fds : FileDescriptorTable }.
Definition set_ms (p : Proc) (ms : MemorySet PT) : Proc := mkProc ms (p_mm p) (p_fds p).
Definition set_mm (p : Proc) (mm : MmContext) : Proc := mkProc (p_ms p) mm (p_fds p).

(** ** Write-back of shared file mappings *)

(** The pages of one area, by [collect_shared_file_writes_for]. *)
Definition area_file_writes st (area : MapArea) (file : FileDescriptor) (offset start end_ : Z)
    : list (FileDescriptor * Z * list Z) :=
  let copy_start := Z.max start (start_va area) in
  let copy_end := Z.min end_ (end_va area) in
  let first_vpn := (align_down copy_start - start_va area) / PAGE_SIZE in
  let end_vpn := sat_add (sat_sub copy_end (start_va area)) (PAGE_SIZE - 1) / PAGE_SIZE in
  omap (λ '(vpn, page),
    let page_start := sat_add (start_va area) (vpn * PAGE_SIZE) in
    let write_start := Z.max copy_start page_start in
    let write_end := Z.min copy_end (sat_add page_start PAGE_SIZE) in
    if bool_decide (write_end ≤ write_start) then None
    else
      Some (file, sat_add offset (write_start - start_va area),
            take (Z.to_nat (write_end - write_start))
              (drop (Z.to_nat (write_start - page_start)) (svc_page (st_frames st) (frame_no (rp_frame page))))))
    (rs_iter_range (area_resident area) first_vpn end_vpn).

(** [collect_shared_file_writes_for] *)
Fixpoint collect_shared_file_writes_for st (areas : list MapArea) (start end_ : Z) (target : option FileDescriptor)
    : list (FileDescriptor * Z * list Z) :=
  match areas with
  | [] => []
  | area :: rest =>
      (if negb (ranges_overlap start end_ (start_va area) (end_va area)) then []
       else
         match area_backing area with
         | FileBacked file offset shared =>
             if negb shared || negb (flags_contains (area_flags area) PTE_W) then []
             else if match target with Some t => negb (same_file_identity file t) | None => false end then []
             else if rs_is_empty (area_resident area) then []
             else area_file_writes st area file offset start end_
         | _ => []
         end) ++ collect_shared_file_writes_for st rest start end_ target
  end.

Definition collect_shared_file_writes st (areas : list MapArea) (start end_ : Z) :=
  collect_shared_file_writes_for st areas start end_ None.

(** The first loop of [write_back_shared_files]: the files written, in order. *)
Fixpoint write_back_loop st (writes : list (FileDescriptor * Z * list Z)) (dirty : list FileDescriptor)
    : St F * result (list FileDescriptor) SysErrNo :=
  match writes with
  | [] => (st, Ok dirty)
  | (file, offset, data) :: rest =>
      if bool_decide (data = []) then write_back_loop st rest dirty
      else
        let '(f, r) := file_write_at (st_frames st) file offset data in
        let st := set_frames st f in
        match r with
        | Err e => (st, Err e)
        | Ok written =>
            if negb (bool_decide (written = zlen data)) then (st, Err EIO)
            else
              write_back_loop st rest
                (if existsb (λ d, same_file_identity d file) dirty then dirty else dirty ++ [file])
        end
  end.

(** The second loop: each file once. *)
Fixpoint sync_loop st (files : list FileDescriptor) : St F * result unit SysErrNo :=
  match files with
  | [] => (st, Ok ())
  | file :: rest =>
      let '(f, r) := file_sync (st_frames st) file in
      match r with
      | Err e => (set_frames st f, Err e)
      | Ok _ => sync_loop (set_frames st f) rest
      end
  end.

Definition write_back_shared_files st (writes : list (FileDescriptor * Z * list Z)) : St F * result unit SysErrNo :=
  let '(st, r) := write_back_loop st writes [] in
  match r with
  | Err e => (st, Err e)
  | Ok dirty => sync_loop st dirty
  end.

(** [write_back_shared_mappings_for_file] and [write_back_all_shared_file_mappings]: the
    address spaces of all user tasks, with a target file or without. *)
Fixpoint write_back_shared_mappings st (tasks : list (MemorySet PT)) (target : option FileDescriptor)
    : St F * result unit SysErrNo :=
  match tasks with
  | [] => (st, Ok ())
  | ms :: rest =>
      let '(st, r) := write_back_shared_files st
        (collect_shared_file_writes_for st (areas ms) 0 USER_ADDRESS_LIMIT target) in
      match r with
      | Err e => (st, Err e)
      | Ok _ => write_back_shared_mappings st rest target
      end
  end.

(** ** [sys_brk] *)

Definition sys_brk st (p : Proc) (new_brk : Z) : outcome (St F * Proc * Z) :=
  let mm := p_mm p in
  let current_break := program_break mm in
  let mapped := mapped_break mm in
  let refuse := Ret (st, p, current_break) in
  if bool_decide (new_brk = 0) || bool_decide (new_brk < USER_HEAP_START) then refuse
  else
    match align_up new_brk with
    | None => refuse
    | Some new_mapped_end =>
        if bool_decide (USER_STACK_TOP < new_mapped_end) then refuse
        else
          let commit st ms :=
            Ret (st, mkProc ms (mkMm new_brk new_mapped_end (next_mmap mm) (next_mmap_high mm)) (p_fds p), new_brk) in
          if bool_decide (new_mapped_end = mapped) then commit st (p_ms p)
          else if bool_decide (mapped < new_mapped_end) then
            if range_overlaps (areas (p_ms p)) mapped new_mapped_end then refuse
            else
              '(ms, r) ←! insert_lazy_area_with_backing (p_ms p) mapped new_mapped_end
                            (Z.lor PTE_U (Z.lor PTE_R (Z.lor PTE_W PTE_V))) Anonymous;
              match r with
              | Err _ => Ret (st, set_ms p ms, current_break)
              | Ok _ => commit st ms
              end
          else
            '(sm, r) ←! unmap_range st (p_ms p) new_mapped_end mapped;
            let '(st, ms) := sm in
            match r with
            | Err _ => Ret (st, set_ms p ms, current_break)
            | Ok _ => commit st ms
            end
    end.

(** ** [sys_mmap] *)

(** The backing of the mapping, the bytes an eager file mapping starts with, and whether
    the pages come from the clean page cache on demand. *)
Definition mmap_backing st (t : FileDescriptorTable) (length_ prot fd offset : Z) (rq : MmapReq)
    : St F * result (MapAreaBacking * option (list Z) * bool) SysErrNo :=
  if rq_anonymous rq then (st, Ok (if rq_shared rq then AnonymousShared else Anonymous, None, false))
  else
    match fd_get t (Z.to_nat fd) with
    | None => (st, Err EBADF)
    | Some file_desc =>
        if negb (fd_readable file_desc) then (st, Err EACCES)
        else if rq_shared rq && has_bits prot PROT_WRITE && negb (fd_writable file_desc) then (st, Err EACCES)
        else
          let leaf := has_leaf_permission (rq_pte_flags rq) in
          let use_clean_page_cache :=
            leaf && negb (has_bits prot PROT_WRITE) &&
            match file_desc with
            | Ext4Regular ino _ _ _ _ _ => can_use_clean_page_cache (st_frames st) ino
            | _ => false
            end in
          let backing := FileBacked file_desc offset (rq_shared rq) in
          if leaf && negb use_clean_page_cache then
            let '(f, r) := file_read_at (st_frames st) file_desc offset length_ in
            (set_frames st f, data ←? r; Ok (backing, Some data, use_clean_page_cache))
          else (st, Ok (backing, None, use_clean_page_cache))
    end.

(** The insertion: lazy, or eager with the file's bytes. *)
Definition mmap_insert st ms (rq : MmapReq) (backing : MapAreaBacking) (file_data : option (list Z)) (lazy_clean : bool)
    (start end_ : Z) : outcome (St F * MemorySet PT * result (Z * Z) SysErrNo) :=
  if lazy_clean || rq_lazy_anonymous rq then
    '(ms, r) ←! insert_lazy_area_with_backing ms start end_ (rq_pte_flags rq) backing;
    Ret (st, ms, match r with Ok _ => Ok (start, end_) | Err e => Err e end)
  else
    '(sm, r) ←! insert_framed_area_with_backing st ms start end_ (rq_pte_flags rq) backing;
    let '(st, ms) := sm in
    match r with
    | Err e => Ret (st, ms, Err e)
    | Ok _ =>
        match file_data with
        | None => Ret (st, ms, Ok (start, end_))
        | Some data =>
            let '(st, ms, r) := write_bytes st ms start data in
            Ret (st, ms, match r with Ok _ => Ok (start, end_) | Err e => Err e end)
        end
    end.

(** The commit, under the second lock: the range mapped. *)
Definition mmap_commit st ms (rq : MmapReq) (start end_ : Z) (backing : MapAreaBacking)
    (file_data : option (list Z)) (lazy_clean : bool) : outcome (St F * MemorySet PT * result (Z * Z) SysErrNo) :=
  let insert st ms start end_ := mmap_insert st ms rq backing file_data lazy_clean start end_ in
  if rq_no_replace rq && range_overlaps (areas ms) start end_ then Ret (st, ms, Err EEXIST)
  else if rq_replaces rq then
    '(sm, r) ←! unmap_range st ms start end_;
    let '(st, ms) := sm in
    match r with
    | Err e => Ret (st, ms, Err e)
    | Ok _ => insert st ms start end_
    end
  else if negb (rq_fixed_addr rq) && range_overlaps (areas ms) start end_ then
    match find_mmap_area_with_hints (areas ms) DEFAULT_MMAP_BASE DEFAULT_HIGH_MMAP_BASE (rq_len rq) with
    | None => Ret (st, ms, Err ENOMEM)
    | Some start =>
        match checked_add start (rq_len rq) with
        | None => Ret (st, ms, Err EINVAL)
        | Some end_ =>
            if negb (is_user_mappable_range start end_) || range_overlaps (areas ms) start end_
            then Ret (st, ms, Err ENOMEM)
            else insert st ms start end_
        end
    end
  else insert st ms start end_.

(** The steps of [sys_mmap] up to the commit: the request, the place, the backing, and the
    write-back of what a fixed mapping replaces. *)
Definition mmap_prepare st (p : Proc) (addr length_ prot flags_arg fd offset : Z)
    : St F * result (MmapReq * Z * Z * (MapAreaBacking * option (list Z) * bool)) SysErrNo :=
  match (rq ←? mmap_request addr length_ prot flags_arg fd offset;
         start ←? mmap_select (areas (p_ms p)) (p_mm p) addr rq;
         end_ ←? mmap_place start rq;
         Ok (rq, start, end_)) with
  | Err e => (st, Err e)
  | Ok (rq, start, end_) =>
      let '(st, r) := mmap_backing st (p_fds p) length_ prot fd offset rq in
      match r with
      | Err e => (st, Err e)
      | Ok b =>
          if rq_replaces rq then
            let '(st, r) := write_back_shared_files st (collect_shared_file_writes st (areas (p_ms p)) start end_) in
            (st, _ ←? r; Ok (rq, start, end_, b))
          else (st, Ok (rq, start, end_, b))
      end
  end.

Definition sys_mmap st (p : Proc) (addr length_ prot flags_arg fd offset : Z)
    : outcome (St F * Proc * result Z SysErrNo) :=
  let '(st, r) := mmap_prepare st p addr length_ prot flags_arg fd offset in
  match r with
  | Err e => Ret (st, p, Err e)
  | Ok (rq, start, end_, (backing, data, lazy_clean)) =>
      '(sm, r) ←! mmap_commit st (p_ms p) rq start end_ backing data lazy_clean;
      let '(st, ms) := sm in
      match r with
      | Err e => Ret (st, set_ms p ms, Err e)
      | Ok (start, end_) => Ret (st, mkProc ms (mmap_advance (p_mm p) start end_) (p_fds p), Ok start)
      end
  end.

(** ** The other calls on ranges *)

Definition sys_mprotect st (p : Proc) (addr len prot : Z) : outcome (St F * Proc * result Z SysErrNo) :=
  if negb (bool_decide (addr mod PAGE_SIZE = 0)) || bool_decide (len = 0) then Ret (st, p, Err EINVAL)
  else
    match (flags ←? prot_to_pte_flags prot; range ←? checked_range addr len; Ok (flags, range)) with
    | Err e => Ret (st, p, Err e)
    | Ok (flags, (start, end_)) =>
        '(sm, r) ←! protect_range st (p_ms p) start end_ flags;
        Ret (sm.1, set_ms p sm.2, match r with Ok _ => Ok 0 | Err e => Err e end)
    end.

Definition sys_madvise st (p : Proc) (addr len advice : Z) : outcome (St F * Proc * result Z SysErrNo) :=
  if negb (bool_decide (addr mod PAGE_SIZE = 0)) then Ret (st, p, Err EINVAL)
  else if bool_decide (len = 0) then Ret (st, p, Ok 0)
  else if negb (bool_decide (advice = MADV_DONTNEED)) then Ret (st, p, Ok 0)
  else
    match checked_range addr len with
    | Err e => Ret (st, p, Err e)
    | Ok (start, end_) =>
        '(sm, r) ←! discard_anonymous_range st (p_ms p) start end_;
        Ret (sm.1, set_ms p sm.2, match r with Ok _ => Ok 0 | Err e => Err e end)
    end.

(** The rounded range of [munmap] and [msync]. *)
Definition rounded_range (addr length_ : Z) : result (Z * Z) SysErrNo :=
  end_ ←? checked_add_or_einval addr length_;
  end_ ←? align_up_or_einval end_;
  Ok (align_down addr, end_).

Definition sys_munmap st (p : Proc) (addr length_ : Z) : outcome (St F * Proc * result Z SysErrNo) :=
  if negb (bool_decide (addr mod PAGE_SIZE = 0)) || bool_decide (length_ = 0) then Ret (st, p, Err EINVAL)
  else
    match rounded_range addr length_ with
    | Err e => Ret (st, p, Err e)
    | Ok (start, end_) =>
        let '(st, r) := write_back_shared_files st (collect_shared_file_writes st (areas (p_ms p)) start end_) in
        match r with
        | Err e => Ret (st, p, Err e)
        | Ok _ =>
            '(sm, r) ←! unmap_range st (p_ms p) start end_;
            Ret (sm.1, set_ms p sm.2, match r with Ok _ => Ok 0 | Err e => Err e end)
        end
    end.

Definition sys_msync st (p : Proc) (addr length_ flags : Z) : outcome (St F * Proc * result Z SysErrNo) :=
  if negb (bool_decide (addr mod PAGE_SIZE = 0)) || has_bits flags (Z.lnot MS_SUPPORTED) then Ret (st, p, Err EINVAL)
  else if has_bits flags MS_ASYNC && has_bits flags MS_SYNC then Ret (st, p, Err EINVAL)
  else if bool_decide (length_ = 0) then Ret (st, p, Ok 0)
  else
    match rounded_range addr length_ with
    | Err e => Ret (st, p, Err e)
    | Ok (start, end_) =>
        if negb (range_covered (areas (p_ms p)) start end_) then Ret (st, p, Err ENOMEM)
        else
          let '(st, r) := write_back_shared_files st (collect_shared_file_writes st (areas (p_ms p)) start end_) in
          match r with
          | Err e => Ret (st, p, Err e)
          | Ok _ =>
              if has_bits flags MS_INVALIDATE then
                '(sm, r) ←! invalidate_file_range st (p_ms p) start end_;
                Ret (sm.1, set_ms p sm.2, match r with Ok _ => Ok 0 | Err e => Err e end)
              else Ret (st, p, Ok 0)
          end
    end.

End mmap.

Arguments Proc : clear implicits.
Arguments mkProc {PT}.
Arguments p_ms {PT}.
Arguments p_mm {PT}.
Arguments p_fds {PT}.
