(* ===== verification/MmapCorrect.v ===== *)
(** * What the memory-mapping calls guarantee

    [mmap] maps exactly the range it returns, over addresses that were free unless it was
    told to replace them, with the bytes of the file or zeroes behind it; [munmap] removes
    exactly its range after the dirty file pages are written; [brk] moves the end of the
    heap or refuses.  All keep the invariant of the address space. *)

From S2P Require Import Prelude BTree Frame Flags FileDesc ResidentSet MapArea VmaList MemorySet MsInv.
From S2P Require Import Buddy FrameAlloc Sv39 MsInsert Machine MsUnmap MsCow MsFault MsBytes UserVa.
From S2P Require Import MemFile IoStore FdOps Pipe FdTable Mmap.

(** Writing a file leaves the frames of the address spaces alone; the page cache may drop
    or reload pages of its own. *)
Class FileWritesLaws (F : Type) `{FrameServiceLaws F, !FileLayer F, !FileLayerLaws F, !FileWrites F} := {
  file_write_ok : ∀ f X fd off data f' r, svc_inv f (file_cache f ++ X) → file_write_at f fd off data = (f', r) →
    svc_inv f' (file_cache f' ++ X) ∧ (∀ q, q ∈ X → svc_page f' q = svc_page f q);
  file_sync_ok : ∀ f X fd f' r, svc_inv f (file_cache f ++ X) → file_sync f fd = (f', r) →
    svc_inv f' (file_cache f' ++ X) ∧ (∀ q, q ∈ X → svc_page f' q = svc_page f q)
}.

Lemma good_range s e : s < e → page_aligned s → page_aligned e → bad_range s e = false.
Proof.
  unfold bad_range, page_aligned. intros. rewrite (bool_decide_eq_false_2 (e ≤ s)) by lia.
  by rewrite !bool_decide_eq_true_2.
Qed.

Section mmap.
Context {PT F : Type} `{HPT : PageTableOps PT, !PageTableLaws PT,
  HF : FrameService F, !FrameServiceLaws F, HL : FileLayer F, !FileLayerLaws F, HW : FileWrites F, !FileWritesLaws F}.
Implicit Types (st : St F) (ms : MemorySet PT) (T X : list Z) (rq : MmapReq) (p : Proc PT).

(** ** The outcome of a mapping *)

(** What lies outside of [start .. end_) is as it was: views, translations and bytes. *)
Definition outside_same st st' ms ms' (start end_ : Z) : Prop :=
  ∀ va, ¬ (start ≤ va < end_) →
    vma_page (areas ms') va ≡ vma_page (areas ms) va ∧
    get_byte (cell (areas ms')) (svc_page (st_frames st')) va =
      get_byte (cell (areas ms)) (svc_page (st_frames st)) va ∧
    (user_page va → pt_translate (page_table ms') va = pt_translate (page_table ms) va).

(** The address [va] of a mapping at [start]: an eager mapping has the bytes of [data],
    then zeroes, in frames of its own; otherwise nothing is resident. *)
Definition mapped_at st' ms' T (perm : Z) (eager : bool) (backing : MapAreaBacking) (data : list Z) (start va : Z) : Prop :=
  ∃ o, vma_page (areas ms') va ≡ Some (mkView perm (split_right backing (align_down va - start)) o) ∧
    if eager && has_leaf_permission perm then
      get_byte (cell (areas ms')) (svc_page (st_frames st')) va = Some (default 0 (data !! Z.to_nat (va - start))) ∧
      ∃ pg, o = Some pg ∧ owners (frame_no (rp_frame pg)) (owned (areas ms') ++ T) = 1 ∧
        (page_aligned va → pt_translate (page_table ms') va = eager_leaf perm pg)
    else o = None ∧ (page_aligned va → pt_translate (page_table ms') va = None).

Lemma cell_equiv l l' va : vma_page l' va ≡ vma_page l va → cell l' va = cell l va.
Proof. unfold cell, page_at. intros [v w (_&_&E)|]; simpl; [by rewrite E|done]. Qed.

Lemma cell_owned l va c : vmas_wf l → cell l va = Some c → c.1 ∈ owned l ∧ c.2 = va mod PAGE_SIZE.
Proof.
  intros Hw (p&Hp&->)%fmap_Some. simpl. split; [|done]. unfold page_at in Hp.
  destruct (vma_page l va) as [v|] eqn:Ev; [|done].
  destruct (proj1 (vma_page_is_Some l va)) as (i&a&Hi&Hin); [by eexists|].
  rewrite (vma_page_at l i a), area_page_Some in Ev by done. injection Ev as <-. simpl in Hp. by eapply resident_owned.
Qed.

Lemma get_byte_same l l' m m' va :
  vmas_wf l → vma_page l' va ≡ vma_page l va → (∀ q, q ∈ owned l → m' q = m q) →
  get_byte (cell l') m' va = get_byte (cell l) m va.
Proof.
  intros Hw Hv Hm. unfold get_byte. rewrite (cell_equiv _ _ _ Hv). destruct (cell l va) as [c|] eqn:Ec; [|done]. simpl.
  rewrite Hm; [done|]. by eapply cell_owned.
Qed.

Lemma outside_refl st ms s e : outside_same st st ms ms s e.
Proof. by intros va _. Qed.

Lemma outside_trans st st1 st' ms ms1 ms' s e :
  outside_same st st1 ms ms1 s e → outside_same st1 st' ms1 ms' s e → outside_same st st' ms ms' s e.
Proof.
  intros H1 H2 va Hva. destruct (H1 va Hva) as (V1&B1&T1), (H2 va Hva) as (V2&B2&T2).
  split_and!; [by etransitivity|congruence|]. intros Hu. rewrite T2, T1 by done. done.
Qed.

(** The area that a commit inserts. *)
Definition place_ok ms (start end_ : Z) (backing : MapAreaBacking) : Prop :=
  page_aligned start ∧ page_aligned end_ ∧ is_user_mappable_range start end_ = true ∧
  range_overlaps (areas ms) start end_ = false ∧ backing_ok backing.

Lemma place_request ms start end_ backing : place_ok ms start end_ backing → request_ok ms start end_ backing start end_.
Proof.
  intros (Hs&He&Hm&Hno&Hb). apply mappable_user in Hm as (Hlt&H0&Hmax&Hu). unfold request_ok.
  split_and!; [by rewrite align_down_id|apply align_up_id|done..];
    unfold PAGE_SIZE, VA_LIMIT, USIZE_MAX in *; (done || lia).
Qed.

Lemma insert_lazy_ok st ms T start end_ perm backing :
  ms_inv st ms T → place_ok ms start end_ backing →
  ∃ ms', insert_lazy_area_with_backing ms start end_ perm backing = Ret (ms', Ok tt) ∧ ms_inv st ms' T ∧
    outside_same st st ms ms' start end_ ∧
    ∀ data va, start ≤ va < end_ → mapped_at st ms' T perm false backing data start va.
Proof.
  intros Hi Hp. pose proof (place_request _ _ _ _ Hp) as Hr.
  destruct (push_empty st ms T start end_ perm backing start end_ Hi Hr) as (l'&Hpush&Hi'&Hv&Hn&_).
  pose proof Hr as (Hd&Hup&Hlt&_&Hu&_). exists (set_areas ms l').
  unfold insert_lazy_area_with_backing. rewrite Hup, <-Hd, bool_decide_eq_false_2, Hpush by lia.
  split_and!; [done|done| |].
  - intros va Hout. specialize (Hv va). rewrite bool_decide_eq_false_2 in Hv by done.
    split_and!; [done|by apply get_byte_same; [apply Hi| |]|done].
  - intros data va Hin. specialize (Hv va). rewrite bool_decide_eq_true_2 in Hv by done.
    exists None. split; [done|]. split; [done|]. intros Hal. apply Hn; [|done]. split; [done|by apply Hu].
Qed.

Lemma zero_page_byte o : 0 ≤ o < PAGE_SIZE → zero_page !! Z.to_nat o = Some 0.
Proof. intros Ho. unfold zero_page. apply lookup_replicate. split; [done|]. lia. Qed.

Lemma insert_eager_ok st ms T start end_ perm backing :
  ms_inv st ms T → place_ok ms start end_ backing →
  ∃ st' ms' r, insert_framed_area_with_backing st ms start end_ perm backing = Ret (st', ms', r) ∧ ms_inv st' ms' T ∧
    (∀ q, q ∈ T → svc_page (st_frames st') q = svc_page (st_frames st) q) ∧ outside_same st st' ms ms' start end_ ∧
    match r with
    | Ok _ => ∀ va, start ≤ va < end_ → mapped_at st' ms' T perm true backing [] start va
    | Err e => e = ENOMEM ∧ areas ms' = areas ms ∧ outside_same st st' ms ms' 0 0
    end.
Proof.
  intros Hi Hp. pose proof (place_request _ _ _ _ Hp) as Hr.
  destruct (insert_framed_area_strong st ms T start end_ perm backing start end_ Hi Hr)
    as (st'&ms'&r&He&Hi'&Hsame&Hout&Hfresh&Hres). exists st', ms', r.
  assert (Hkeep : ∀ va, vma_page (areas ms') va ≡ vma_page (areas ms) va →
     get_byte (cell (areas ms')) (svc_page (st_frames st')) va = get_byte (cell (areas ms)) (svc_page (st_frames st)) va).
  { intros va Hv. apply get_byte_same; [apply Hi|done|]. intros q Hq. apply Hsame. rewrite elem_of_app. by left. }
  split_and!; [done|done| | |].
  - intros q Hq. apply Hsame. rewrite elem_of_app. by right.
  - intros va Hva. destruct (Hout va Hva) as [Hv Ht]. split_and!; [done|by apply Hkeep|done].
  - destruct r as [?|e].
    + intros va Hin. destruct (Hres va Hin) as (o&Hv&Hpg). exists o. split; [done|]. unfold eager_page in Hpg.
      rewrite lookup_nil, andb_true_l. destruct (has_leaf_permission perm); [|done].
      destruct Hpg as (pg&->&Hn&Hz&Ht).
      assert (Hce : cell (areas ms') va = Some (frame_no (rp_frame pg), va mod PAGE_SIZE)).
      { unfold cell, page_at. inversion Hv as [v w (_&_&Epg) E1 E2|]; subst. simpl in *. by rewrite Epg. }
      split.
      * unfold get_byte. rewrite Hce. simpl. rewrite Hz. apply zero_page_byte. unfold PAGE_SIZE. lia.
      * exists pg. split_and!; [done| |done].
        apply cell_owned in Hce as [Ho _]; [|apply Hi']. by destruct (Hfresh _ Ho).
    + destruct Hres as (->&Ha&Ht). split_and!; [done|done|]. intros va _. rewrite Ha.
      split_and!; [done| |by apply Ht]. rewrite <-Ha at 1. apply Hkeep. by rewrite Ha.
Qed.

(** A file's bytes into the frames of an eager mapping. *)
Lemma fill_file_ok st ms T start end_ perm backing data :
  ms_inv st ms T → 0 ≤ start → page_aligned start → page_aligned end_ → has_leaf_permission perm = true → zlen data ≤ end_ - start →
  (∀ va, start ≤ va < end_ → mapped_at st ms T perm true backing [] start va) →
  ∃ st' ms', write_bytes st ms start data = (st', ms', Ok tt) ∧ ms_inv st' ms' T ∧
    (∀ q, q ∈ T → svc_page (st_frames st') q = svc_page (st_frames st) q) ∧ outside_same st st' ms ms' start end_ ∧
    ∀ va, start ≤ va < end_ → mapped_at st' ms' T perm true backing data start va.
Proof.
  intros Hi H0 Hals Hale Hleaf Hlen Hm.
  assert (Hpage : ∀ va, start ≤ va < end_ → ∃ v pg, vma_page (areas ms) va = Some v ∧ pv_page v = Some pg ∧
     page_at (areas ms) va = Some pg ∧
     page_view_equiv v (mkView perm (split_right backing (align_down va - start)) (Some pg)) ∧
     get_byte (cell (areas ms)) (svc_page (st_frames st)) va = Some 0 ∧
     owners (frame_no (rp_frame pg)) (owned (areas ms) ++ T) = 1 ∧
     (page_aligned va → pt_translate (page_table ms) va = eager_leaf perm pg)).
  { intros va Hva. destruct (Hm va Hva) as (o&Hv&Hx). rewrite Hleaf, lookup_nil, andb_true_l in Hx.
    destruct Hx as (Hb&pg&->&Hown&Ht). inversion Hv as [v w Heq E1 E2|]; subst. exists v, pg.
    pose proof Heq as (_&_&Epg). simpl in Epg. unfold page_at. rewrite <-E1. simpl. by split_and!. }
  assert (Hcell : ∀ va, start ≤ va < end_ → ∃ pg, page_at (areas ms) va = Some pg ∧
     owners (frame_no (rp_frame pg)) (owned (areas ms) ++ T) = 1).
  { intros va Hva. destruct (Hpage va Hva) as (v&pg&_&_&?&_&_&?&_). by exists pg. }
  destruct (write_bytes_ok st ms T start data Hi H0) as (st'&ms'&He&[Hi' Hre Hoth Hown' Hpt _ Hb _]).
  { intros va Hva. destruct (Hcell va) as (pg&->&_); [lia|by eexists]. }
  assert (Hget : ∀ va, get_byte (cell (areas ms')) (svc_page (st_frames st')) va =
     if bool_decide (start ≤ va < start + zlen data) then data !! Z.to_nat (va - start)
     else get_byte (cell (areas ms)) (svc_page (st_frames st)) va).
  { intros va. rewrite <-(put_get (cell (areas ms)) (svc_page (st_frames st)) start data).
    - unfold get_byte. rewrite (retagged_cell _ _ va Hre). destruct (cell (areas ms) va) as [c|]; [|done].
      simpl. by rewrite Hb.
    - by eapply cell_ok.
    - intros x y c Hx. unfold cell. intros (px&Hpx&Ex)%fmap_Some (py&Hpy&Ey)%fmap_Some.
      rewrite Ex in Ey. injection Ey as Ef Eo. destruct (decide (align_down x = align_down y)) as [Ed|Ed].
      { unfold align_down, PAGE_SIZE in *. lia. }
      exfalso. pose proof (shared_owners (areas ms) x y px py (inv_vmas _ _ _ Hi) Hpx Hpy Ed Ef) as H2.
      destruct (Hcell x) as (pg&Hpg&Hown); [lia|]. rewrite Hpx in Hpg. injection Hpg as <-.
      rewrite owners_app in Hown. unfold owners at 2 in Hown. pose proof (zlen_nonneg (filter (λ x, x = frame_no (rp_frame px)) T)). lia.
    - intros x Hx. destruct (Hcell x) as (pg&Hpg&_); [lia|]. unfold cell. rewrite Hpg. by eexists. }
  exists st', ms'. split_and!; [done|done| | |].
  - intros q Hq. rewrite Hb. apply put_bytes_frame. intros x c Hx. unfold cell. intros (px&Hpx&->)%fmap_Some. simpl.
    destruct (Hcell x) as (pg&Hpg&Hown); [lia|]. rewrite Hpx in Hpg. injection Hpg as <-. intros <-.
    assert (Hc2 : cell (areas ms) x = Some (frame_no (rp_frame px), x mod PAGE_SIZE)) by (unfold cell; by rewrite Hpx).
    apply cell_owned in Hc2 as [Hc2 _]; [|apply Hi]. simpl in Hc2.
    apply list_elem_of_split in Hq as (l1&l2&->). apply list_elem_of_split in Hc2 as (l3&l4&Hc2). rewrite Hc2 in Hown.
    rewrite !owners_app in Hown. unfold owners in Hown. rewrite !filter_cons, !decide_True, !zlen_cons in Hown by done.
    repeat match goal with H : context [zlen ?k] |- _ => lazymatch goal with | _ : 0 ≤ zlen k |- _ => fail | _ => pose proof (zlen_nonneg k) end end.
    lia.
  - intros va Hva. split_and!.
    + rewrite Hoth; [done|]. intros y Hy. unfold align_down, page_aligned, PAGE_SIZE in *. lia.
    + rewrite Hget, bool_decide_eq_false_2; [done|lia].
    + by rewrite Hpt.
  - intros va Hva. destruct (Hpage va Hva) as (v&pg&Hv&Hpv&_&(Ef&Eb&_)&H0b&Hown&Ht). simpl in Ef, Eb.
    specialize (Hget va). specialize (Hre va). rewrite Hv in Hre. inversion Hre as [v1 w (Ef'&Eb'&Ep') E1 E2|]; subst.
    assert (Hw : ∃ pg', pv_page w = Some pg' ∧ rp_frame pg' = rp_frame pg).
    { destruct Ep' as [Ep'|(q&Eq&Ep')]; [exists pg; by rewrite Ep', Hpv|]. rewrite Hpv in Eq. injection Eq as <-. by eexists. }
    destruct Hw as (pg'&Hpg'&Hfr). exists (Some pg'). split.
    { rewrite <-E2. constructor. split_and!; [by rewrite <-Ef'|by rewrite <-Eb'|done]. }
    rewrite Hleaf. cbn [andb]. split.
    + rewrite Hget. case_bool_decide as Hin.
      * destruct (lookup_lt_is_Some_2 data (Z.to_nat (va - start))) as [b ->]; [unfold zlen in *; lia|done].
      * rewrite H0b, lookup_ge_None_2; [done|unfold zlen in *; lia].
    + exists pg'. rewrite Hfr, Hown', Hpt. split_and!; [done|done|]. intros Hal. rewrite Ht by done.
      unfold eager_leaf, page_pa. by rewrite Hfr.
Qed.

(** ** The commit *)

(** What the steps before the commit guarantee of its arguments. *)
Definition commit_args rq (start end_ : Z) (backing : MapAreaBacking) (data : option (list Z)) (lazy : bool) : Prop :=
  0 < rq_len rq ∧ page_aligned (rq_len rq) ∧ page_aligned start ∧ end_ = start + rq_len rq ∧
  is_user_mappable_range start end_ = true ∧ backing_ok backing ∧
  match data with
  | Some d => has_leaf_permission (rq_pte_flags rq) = true ∧ lazy || rq_lazy_anonymous rq = false ∧ zlen d ≤ rq_len rq
  | None => True
  end.

(** The pages of the request are mapped at [start .. end_). *)
Definition mmap_mapped st' ms' T rq (backing : MapAreaBacking) (data : option (list Z)) (lazy : bool) (start end_ : Z) : Prop :=
  page_aligned start ∧ end_ = start + rq_len rq ∧ is_user_mappable_range start end_ = true ∧
  ∀ va, start ≤ va < end_ →
    mapped_at st' ms' T (rq_pte_flags rq) (negb (lazy || rq_lazy_anonymous rq)) backing (default [] data) start va.

Lemma mmap_insert_ok st ms T rq start end_ backing data lazy :
  ms_inv st ms T → commit_args rq start end_ backing data lazy → range_overlaps (areas ms) start end_ = false →
  ∃ st' ms' r, mmap_insert st ms rq backing data lazy start end_ = Ret (st', ms', r) ∧ ms_inv st' ms' T ∧
    (∀ q, q ∈ T → svc_page (st_frames st') q = svc_page (st_frames st) q) ∧
    match r with
    | Ok se => se = (start, end_) ∧ mmap_mapped st' ms' T rq backing data lazy start end_ ∧ outside_same st st' ms ms' start end_
    | Err e => e = ENOMEM ∧ areas ms' = areas ms ∧ outside_same st st' ms ms' 0 0
    end.
Proof.
  intros Hi (Hlen&Hla&Hs&->&Hmap&Hb&Hdata) Hno.
  assert (Hpl : place_ok ms start (start + rq_len rq) backing) by (split_and!; auto with kernel).
  pose proof (mappable_user _ _ Hmap) as (_&H0&_&_). unfold mmap_insert.
  destruct (lazy || rq_lazy_anonymous rq) eqn:Elazy.
  { destruct (insert_lazy_ok st ms T start _ (rq_pte_flags rq) backing Hi Hpl) as (ms'&->&Hi'&Hout&Hm).
    eexists _, _, _. split; [reflexivity|]. unfold mmap_mapped. split_and!; try done.
    intros va Hva. rewrite Elazy. by apply Hm. }
  destruct (insert_eager_ok st ms T start _ (rq_pte_flags rq) backing Hi Hpl) as (st1&ms1&r&->&Hi1&Hq1&Hout1&Hr).
  destruct r as [?|e].
  2:{ destruct Hr as (->&?&?). eexists _, _, _. split; [reflexivity|]. by split_and!. }
  destruct data as [data|].
  - destruct Hdata as (Hleaf&_&Hdl).
    destruct (fill_file_ok st1 ms1 T start (start + rq_len rq) (rq_pte_flags rq) backing data)
      as (st2&ms2&->&Hi2&Hq2&Hout2&Hm2); [done|done|done|by apply page_aligned_add|done|lia|done|].
    eexists _, _, _. split; [reflexivity|].
    unfold mmap_mapped. split_and!; try done.
    + intros q Hq. by rewrite Hq2, Hq1.
    + intros va Hva. rewrite Elazy. by apply Hm2.
    + by eapply outside_trans.
  - eexists _, _, _. split; [reflexivity|]. unfold mmap_mapped. split_and!; try done.
    intros va Hva. rewrite Elazy. by apply Hr.
Qed.

Lemma free_range l s e : vmas_wf l → range_overlaps l s e = false ↔ ∀ va, s ≤ va < e → vma_page l va = None.
Proof.
  intros Hw. split.
  - intros Hno va Hva. destruct (vma_page l va) eqn:E; [|done].
    assert (range_overlaps l s e = true); [|congruence]. apply range_overlaps_ok; [done|]. exists va. by rewrite E.
  - intros Hn. destruct (range_overlaps l s e) eqn:E; [|done].
    apply range_overlaps_ok in E as (va&Hva&[v Hv]); [|done]. by rewrite Hn in Hv.
Qed.

(** What a commit does: success maps a range, which was free unless the request replaces
    it and is the requested one for a fixed address; failure changes nothing, but may
    leave a replaced range unmapped. *)
Definition commit_result st st' ms ms' T rq (start end_ : Z) backing data lazy (r : result (Z * Z) SysErrNo) : Prop :=
  match r with
  | Ok (s, e) => mmap_mapped st' ms' T rq backing data lazy s e ∧ outside_same st st' ms ms' s e ∧
      (rq_fixed_addr rq = true → s = start) ∧
      (rq_replaces rq = false → ∀ va, s ≤ va < e → vma_page (areas ms) va = None)
  | Err err =>
      if rq_replaces rq then err = ENOMEM ∧ outside_same st st' ms ms' start end_ ∧
        ∀ va, start ≤ va < end_ → vma_page (areas ms') va = None
      else err = (if rq_no_replace rq && range_overlaps (areas ms) start end_ then EEXIST else ENOMEM) ∧
        outside_same st st' ms ms' 0 0
  end.

(** The insertion into a free range, when nothing is replaced. *)
Lemma commit_plain_ok st ms T rq start end_ s e backing data lazy :
  ms_inv st ms T → commit_args rq s e backing data lazy → range_overlaps (areas ms) s e = false →
  rq_replaces rq = false → (rq_fixed_addr rq = true → s = start) →
  rq_no_replace rq && range_overlaps (areas ms) start end_ = false →
  ∃ st' ms' r, mmap_insert st ms rq backing data lazy s e = Ret (st', ms', r) ∧ ms_inv st' ms' T ∧
    (∀ q, q ∈ T → svc_page (st_frames st') q = svc_page (st_frames st) q) ∧
    commit_result st st' ms ms' T rq start end_ backing data lazy r.
Proof.
  intros Hi Ha Hno Hrep Hfix Hnr.
  destruct (mmap_insert_ok st ms T rq s e backing data lazy Hi Ha Hno) as (st'&ms'&r&He&Hi'&Hq&Hr).
  exists st', ms', r. split_and!; [done|done|done|]. unfold commit_result. rewrite Hrep, Hnr. destruct r as [se|err].
  - destruct Hr as (->&?&?). split_and!; [done|done|done|]. intros _. by apply free_range; [apply Hi|].
  - by destruct Hr as (->&_&?).
Qed.

(** Replacing: the range is unmapped first. *)
Lemma commit_replace_ok st ms T rq start end_ backing data lazy :
  ms_inv st ms T → commit_args rq start end_ backing data lazy → rq_replaces rq = true →
  ∃ st1 ms1 st' ms' r, unmap_range st ms start end_ = Ret (st1, ms1, Ok tt) ∧
    mmap_insert st1 ms1 rq backing data lazy start end_ = Ret (st', ms', r) ∧ ms_inv st' ms' T ∧
    (∀ q, q ∈ T → svc_page (st_frames st') q = svc_page (st_frames st) q) ∧
    commit_result st st' ms ms' T rq start end_ backing data lazy r.
Proof.
  intros Hi Hargs Hrep. pose proof Hargs as (Hlen&Hla&Hs&He&Hmap&_).
  pose proof (unmap_range_ok st ms start end_ T Hi) as Hun.
  rewrite good_range in Hun; [|lia|done|subst; by apply page_aligned_add]. destruct Hun as (st1&ms1&Hun&Hi1&Hv1&Ht1&Hp1&_).
  assert (Hout1 : outside_same st st1 ms ms1 start end_).
  { intros va Hva. specialize (Hv1 va). specialize (Ht1 va). rewrite bool_decide_eq_false_2 in Hv1, Ht1 by done.
    split; [exact Hv1|]. split; [|exact Ht1]. apply get_byte_same; [apply Hi|done|]. intros q _. apply Hp1. }
  assert (Hgone : ∀ va, start ≤ va < end_ → vma_page (areas ms1) va = None).
  { intros va Hva. specialize (Hv1 va). rewrite bool_decide_eq_true_2 in Hv1 by done. by inversion Hv1. }
  destruct (mmap_insert_ok st1 ms1 T rq start end_ backing data lazy Hi1 Hargs) as (st2&ms2&r&Hins&Hi2&Hq2&Hr).
  { by apply free_range; [apply Hi1|]. }
  exists st1, ms1, st2, ms2, r. split; [done|]. split; [done|]. split; [done|].
  split; [intros q Hq; by rewrite Hq2, Hp1|]. unfold commit_result. rewrite Hrep. destruct r as [se|err].
  - destruct Hr as (->&Hm&Hout2). split; [done|]. split; [by eapply outside_trans|]. done.
  - destruct Hr as (->&Ha&Hout2). split; [done|]. split; [|intros va Hva; rewrite Ha; by apply Hgone].
    eapply outside_trans; [exact Hout1|]. intros va Hva. apply Hout2. lia.
Qed.

(** The second lock finds any memory set that satisfies the invariant. *)
Lemma mmap_commit_ok st ms T rq start end_ backing data lazy :
  ms_inv st ms T → commit_args rq start end_ backing data lazy →
  ∃ st' ms' r, mmap_commit st ms rq start end_ backing data lazy = Ret (st', ms', r) ∧ ms_inv st' ms' T ∧
    (∀ q, q ∈ T → svc_page (st_frames st') q = svc_page (st_frames st) q) ∧
    commit_result st st' ms ms' T rq start end_ backing data lazy r.
Proof.
  intros Hi Hargs. unfold mmap_commit. cbv zeta.
  destruct (rq_replaces rq) eqn:Erep.
  { assert (rq_no_replace rq = false) as ->.
    { unfold rq_replaces in Erep. apply andb_true_iff in Erep as [_ Erep]. by destruct (rq_no_replace rq). }
    destruct (commit_replace_ok st ms T rq start end_ backing data lazy Hi Hargs Erep) as (st1&ms1&st'&ms'&r&->&Hins&?).
    cbn [andb]. cbn match. rewrite Hins. by exists st', ms', r. }
  assert (Hstay : ∀ err, err = (if rq_no_replace rq && range_overlaps (areas ms) start end_ then EEXIST else ENOMEM) →
    commit_result st st ms ms T rq start end_ backing data lazy (Err err)).
  { intros err ->. unfold commit_result. rewrite Erep. split; [done|apply outside_refl]. }
  destruct (rq_no_replace rq && range_overlaps (areas ms) start end_) eqn:Enr.
  { eexists _, _, _. split; [reflexivity|]. split_and!; [done|done|by apply Hstay]. }
  destruct (negb (rq_fixed_addr rq) && range_overlaps (areas ms) start end_) eqn:Ere.
  - apply andb_true_iff in Ere as [Efix _]. apply negb_true_iff in Efix. pose proof Hargs as (Hlen&Hla&Hs&He&Hmap&Hb&Hd).
    destruct (find_mmap_area_with_hints _ _ _ _) as [s|] eqn:Ef.
    2:{ eexists _, _, _. split; [reflexivity|]. split_and!; [done|done|by apply Hstay]. }
    destruct (find_mmap_area_ok (areas ms) DEFAULT_MMAP_BASE DEFAULT_HIGH_MMAP_BASE (rq_len rq) s)
      as (arena&Hin&Hsa&Hsr&Hno); [apply Hi|done| |done|].
    { unfold hints_ok, DEFAULT_MMAP_BASE, DEFAULT_HIGH_MMAP_BASE. simpl. lia. }
    assert (Hmap' : is_user_mappable_range s (s + rq_len rq) = true).
    { apply arena_range. unfold MMAP_ARENAS in Hin. rewrite !elem_of_cons in Hin.
      destruct Hin as [-> |[-> |[]%elem_of_nil]]; auto. }
    pose proof (mappable_user _ _ Hmap') as (_&H0&Hmax&_).
    assert (checked_add s (rq_len rq) = Some (s + rq_len rq)) as ->.
    { apply checked_add_Some. unfold VA_LIMIT, USIZE_MAX in *. lia. }
    rewrite Hmap', Hno. cbn [negb orb]. apply commit_plain_ok; [done|by split_and!|done|done|congruence|done].
  - apply commit_plain_ok; [done|done| |done|done|done]. destruct (range_overlaps (areas ms) start end_) eqn:E; [|done].
    rewrite andb_true_r in Enr, Ere. unfold rq_replaces in Erep. unfold rq_fixed_addr in Ere. rewrite Enr in *.
    by destruct (rq_map_fixed rq).
Qed.

(** ** Before the commit *)

Lemma svc_inv_cache st ms X :
  svc_inv (st_frames st) (owned (areas ms) ++ file_cache (st_frames st) ++ X) ↔
  svc_inv (st_frames st) (file_cache (st_frames st) ++ owned (areas ms) ++ X).
Proof. apply svc_inv_proper. rewrite !app_assoc. by rewrite (Permutation_app_comm (owned _)). Qed.

(** The file layer runs: the address space, its bytes and its log stay. *)
Definition file_step st st' ms X : Prop :=
  ms_inv st' ms (file_cache (st_frames st') ++ X) ∧
  (∀ q, q ∈ owned (areas ms) ++ X → svc_page (st_frames st') q = svc_page (st_frames st) q) ∧
  st_current_root st' = st_current_root st ∧ st_log st' = st_log st.

Lemma file_step_trans st st1 st' ms X : file_step st st1 ms X → file_step st1 st' ms X → file_step st st' ms X.
Proof. intros (_&Q1&R1&L1) (I2&Q2&R2&L2). split_and!; [done| |congruence|congruence]. intros q Hq. by rewrite Q2, Q1. Qed.

Lemma file_step_refl st ms X : ms_inv st ms (file_cache (st_frames st) ++ X) → file_step st st ms X.
Proof. done. Qed.

Lemma file_step_frames st ms X f :
  ms_inv st ms (file_cache (st_frames st) ++ X) →
  (svc_inv (st_frames st) (file_cache (st_frames st) ++ owned (areas ms) ++ X) →
     svc_inv f (file_cache f ++ owned (areas ms) ++ X) ∧
     ∀ q, q ∈ owned (areas ms) ++ X → svc_page f q = svc_page (st_frames st) q) →
  file_step st (set_frames st f) ms X.
Proof.
  intros [Hw Hu Hc Hf] Hstep. apply svc_inv_cache in Hf. destruct (Hstep Hf) as [Hf' Hq].
  split_and!; [|done|done|done]. split; [done|done|done|]. by apply svc_inv_cache.
Qed.

Lemma write_back_loop_ok st ms X writes dirty st' r :
  ms_inv st ms (file_cache (st_frames st) ++ X) → write_back_loop st writes dirty = (st', r) → file_step st st' ms X.
Proof.
  revert st dirty. induction writes as [|[[file off] data] writes IH]; intros st dirty Hi; cbn [write_back_loop].
  { intros [= <- <-]. by apply file_step_refl. }
  case_bool_decide; [by apply IH|]. destruct (file_write_at (st_frames st) file off data) as [f r1] eqn:Ew.
  assert (Hs : file_step st (set_frames st f) ms X).
  { apply file_step_frames; [done|]. intros Hf. by eapply file_write_ok. }
  destruct r1 as [n|e]; [|by intros [= <- <-]]. destruct (negb (bool_decide (n = zlen data))); [by intros [= <- <-]|].
  intros Hrest. eapply file_step_trans; [exact Hs|]. eapply IH; [apply Hs|exact Hrest].
Qed.

Lemma sync_loop_ok st ms X files st' r :
  ms_inv st ms (file_cache (st_frames st) ++ X) → sync_loop st files = (st', r) → file_step st st' ms X.
Proof.
  revert st. induction files as [|file files IH]; intros st Hi; cbn [sync_loop].
  { intros [= <- <-]. by apply file_step_refl. }
  destruct (file_sync (st_frames st) file) as [f r1] eqn:Ew.
  assert (Hs : file_step st (set_frames st f) ms X).
  { apply file_step_frames; [done|]. intros Hf. by eapply file_sync_ok. }
  destruct r1 as [?|e]; [|by intros [= <- <-]].
  intros Hrest. eapply file_step_trans; [exact Hs|]. eapply IH; [apply Hs|exact Hrest].
Qed.

Lemma write_back_ok st ms X writes st' r :
  ms_inv st ms (file_cache (st_frames st) ++ X) → write_back_shared_files st writes = (st', r) → file_step st st' ms X.
Proof.
  intros Hi. unfold write_back_shared_files. destruct (write_back_loop st writes []) as [st1 r1] eqn:E.
  pose proof (write_back_loop_ok _ _ _ _ _ _ _ Hi E) as H1. destruct r1 as [dirty|e]; [|by intros [= <- <-]].
  intros Hs. eapply file_step_trans; [exact H1|]. eapply sync_loop_ok; [apply H1|exact Hs].
Qed.

Lemma mmap_backing_ok st ms X t length_ prot fd offset rq st' r :
  ms_inv st ms (file_cache (st_frames st) ++ X) → 0 ≤ length_ → is_usize offset →
  mmap_backing st t length_ prot fd offset rq = (st', r) →
  file_step st st' ms X ∧
  ∀ backing data lazy, r = Ok (backing, data, lazy) → backing_ok backing ∧
    match data with
    | Some d => has_leaf_permission (rq_pte_flags rq) = true ∧ lazy || rq_lazy_anonymous rq = false ∧ zlen d ≤ length_
    | None => True
    end.
Proof.
  intros Hi Hlen Hoff. unfold mmap_backing, rq_lazy_anonymous. destruct (rq_anonymous rq).
  { intros [= <- <-]. split; [by apply file_step_refl|]. intros ??? [= <- <- <-]. split; [by destruct (rq_shared rq)|done]. }
  destruct (fd_get t (Z.to_nat fd)) as [file|]; [|intros [= <- <-]; split; [by apply file_step_refl|done]].
  destruct (negb (fd_readable file)); [intros [= <- <-]; split; [by apply file_step_refl|done]|].
  destruct (rq_shared rq && _ && _); [intros [= <- <-]; split; [by apply file_step_refl|done]|].
  cbv zeta. set (clean := has_leaf_permission _ && negb (has_bits prot PROT_WRITE) && _).
  destruct (has_leaf_permission (rq_pte_flags rq)) eqn:Eleaf; cbn [andb];
    [|intros [= <- <-]; split; [by apply file_step_refl|]; intros ??? [= <- <- <-]; done].
  destruct clean eqn:Ecl; cbn [negb].
  { intros [= <- <-]. split; [by apply file_step_refl|]. intros ??? [= <- <- <-]. done. }
  destruct (file_read_at (st_frames st) file offset length_) as [f r1] eqn:Er. intros [= <- <-].
  pose proof (file_read_cache (st_frames st) file offset length_) as Hc. rewrite Er in Hc. simpl in Hc.
  pose proof (inv_frames _ _ _ Hi) as Hf. apply svc_inv_cache in Hf.
  destruct (file_read_ok _ _ _ _ _ _ _ Hf Hlen Er) as (Hf'&Hp&Hb). split.
  - apply file_step_frames; [done|]. intros _. rewrite Hc. split; [done|]. intros q _. apply Hp.
  - intros ???. destruct r1 as [bytes|e]; [|done]. intros [= <- <- <-]. split; [done|]. split_and!; [done|done|by apply Hb].
Qed.

Lemma mmap_request_ok addr length_ prot flags_arg fd offset rq :
  is_usize length_ → mmap_request addr length_ prot flags_arg fd offset = Ok rq →
  0 < rq_len rq ∧ page_aligned (rq_len rq) ∧ length_ ≤ rq_len rq ∧ (rq_fixed_addr rq = true → page_aligned addr).
Proof.
  intros Hu. unfold mmap_request. case_bool_decide as H0; [done|].
  destruct (validate_mmap_flags _); [|done]. destruct (mmap_type _); [|done]. destruct (prot_to_pte_flags _); [|done].
  unfold align_up_or_einval. destruct (align_up length_) as [len|] eqn:Ea; [|done]. apply align_up_Some in Ea as (Hal&Hle&_).
  repeat (destruct (negb _ && _); [done|]).
  destruct ((_ || _) && _) eqn:Efix; [done|]. intros [= <-]. simpl. unfold is_usize in Hu.
  split_and!; [lia|done|lia|]. unfold rq_fixed_addr. simpl. intros Hf. rewrite Hf in Efix. cbn [andb] in Efix.
  apply negb_false_iff, bool_decide_eq_true_1 in Efix. exact Efix.
Qed.

Lemma mmap_select_ok l mm addr rq start :
  vmas_wf l → hints_ok (next_mmap mm) (next_mmap_high mm) → 0 < rq_len rq →
  (rq_fixed_addr rq = true → page_aligned addr) → mmap_select l mm addr rq = Ok start →
  page_aligned start ∧ (rq_fixed_addr rq = true → start = addr).
Proof.
  intros Hw Hh Hlen Hfix. unfold mmap_select. destruct (rq_fixed_addr rq); [intros [= <-]; auto|].
  assert (Hsearch : ∀ s, match find_mmap_area_with_hints l (next_mmap mm) (next_mmap_high mm) (rq_len rq) with
     | Some start => Ok start | None => Err ENOMEM end = Ok s → page_aligned s).
  { intros s. destruct (find_mmap_area_with_hints _ _ _ _) as [s1|] eqn:E; [|done]. intros [= <-].
    by destruct (find_mmap_area_ok l _ _ _ _ Hw Hlen Hh E) as (arena&_&?&_). }
  case_bool_decide; [intros E; split; [by apply Hsearch|done]|].
  unfold align_up_or_einval. destruct (align_up addr) as [hint|] eqn:Ea; [|done]. apply align_up_Some in Ea as (Hal&_).
  unfold checked_add_or_einval. destruct (checked_add hint (rq_len rq)) as [e|]; [|done].
  destruct (_ && _); [by intros [= <-]|intros E; split; [by apply Hsearch|done]].
Qed.

Lemma mmap_place_ok start rq end_ :
  mmap_place start rq = Ok end_ → end_ = start + rq_len rq ∧ is_user_mappable_range start end_ = true.
Proof.
  unfold mmap_place, checked_add_or_einval. destruct (checked_add _ _) as [e|] eqn:E; [|done].
  apply checked_add_Some in E as [-> _]. case_bool_decide; [done|].
  destruct (is_user_mappable_range start (start + rq_len rq)) eqn:Em; [|done]. by intros [= <-].
Qed.

Definition request_prefix (p : Proc PT) addr length_ prot flags_arg fd offset : result (MmapReq * Z * Z) SysErrNo :=
  rq ←? mmap_request addr length_ prot flags_arg fd offset;
  start ←? mmap_select (areas (p_ms p)) (p_mm p) addr rq;
  end_ ←? mmap_place start rq;
  Ok (rq, start, end_).

Lemma mmap_prepare_ok st p X addr length_ prot flags_arg fd offset st' r :
  ms_inv st (p_ms p) (file_cache (st_frames st) ++ X) → hints_ok (next_mmap (p_mm p)) (next_mmap_high (p_mm p)) →
  is_usize length_ → is_usize offset → mmap_prepare st p addr length_ prot flags_arg fd offset = (st', r) →
  file_step st st' (p_ms p) X ∧
  ∀ rq start end_ backing data lazy, r = Ok (rq, start, end_, (backing, data, lazy)) →
    mmap_request addr length_ prot flags_arg fd offset = Ok rq ∧
    commit_args rq start end_ backing data lazy ∧ (rq_fixed_addr rq = true → start = addr).
Proof.
  intros Hi Hh Hlen Hoff. unfold mmap_prepare. fold (request_prefix p addr length_ prot flags_arg fd offset).
  destruct (request_prefix p addr length_ prot flags_arg fd offset) as [[[rq start] end_]|e] eqn:Epre;
    [|intros [= <- <-]; split; [by apply file_step_refl|done]].
  unfold request_prefix in Epre. destruct (mmap_request _ _ _ _ _ _) as [rq'|] eqn:Erq; [|done].
  destruct (mmap_select _ _ _ _) as [start'|] eqn:Esel; [|done]. destruct (mmap_place _ _) as [end'|] eqn:Epl; [|done].
  injection Epre as -> -> ->.
  destruct (mmap_request_ok _ _ _ _ _ _ _ Hlen Erq) as (Hpos&Hla&Hle&Hfix).
  destruct (mmap_select_ok _ _ _ _ _ (inv_vmas _ _ _ Hi) Hh Hpos Hfix Esel) as (Hsa&Hsf).
  destruct (mmap_place_ok _ _ _ Epl) as (He&Hmap).
  destruct (mmap_backing st (p_fds p) length_ prot fd offset rq) as [st1 rb] eqn:Eb.
  destruct (mmap_backing_ok _ _ _ _ _ _ _ _ _ _ _ Hi (proj1 Hlen) Hoff Eb) as (Hs1&Hb).
  destruct rb as [[[backing data] lazy]|e]; [|intros [= <- <-]; done].
  destruct (Hb _ _ _ eq_refl) as (Hbok&Hdata).
  assert (Hargs : mmap_request addr length_ prot flags_arg fd offset = Ok rq ∧
    commit_args rq start end_ backing data lazy ∧ (rq_fixed_addr rq = true → start = addr)).
  { split; [done|]. split; [|done]. split_and!; try done. destruct data; [|done]. split_and!; [apply Hdata..|lia]. }
  destruct (rq_replaces rq).
  - destruct (write_back_shared_files st1 _) as [st2 rw] eqn:Ew. intros [= <- <-]. split.
    + eapply file_step_trans; [exact Hs1|]. eapply write_back_ok; [apply Hs1|exact Ew].
    + intros ??????. destruct rw; [|done]. intros Heq. injection Heq as <- <- <- <- <- <-. split; [done|apply Hargs].
  - intros [= <- <-]. split; [done|]. intros ?????? Heq. injection Heq as <- <- <- <- <- <-. split; [done|apply Hargs].
Qed.

Lemma file_step_outside st st' ms X s e : ms_inv st ms (file_cache (st_frames st) ++ X) → file_step st st' ms X → outside_same st st' ms ms s e.
Proof.
  intros Hi (_&Hq&_) va _. split_and!; [done| |done]. apply get_byte_same; [apply Hi|done|].
  intros q Hin. apply Hq. rewrite elem_of_app. by left.
Qed.

(** The successful and the failed [mmap]. *)
Definition mmap_done st st' (p p' : Proc PT) T addr length_ prot flags_arg fd offset (s : Z) : Prop :=
  ∃ rq start end_ e backing data lazy,
    (mmap_prepare st p addr length_ prot flags_arg fd offset).2 = Ok (rq, start, end_, (backing, data, lazy)) ∧
    mmap_mapped st' (p_ms p') T rq backing data lazy s e ∧
    outside_same st st' (p_ms p) (p_ms p') s e ∧
    (rq_fixed_addr rq = true → s = addr) ∧
    (rq_replaces rq = false → ∀ va, s ≤ va < e → vma_page (areas (p_ms p)) va = None) ∧
    p_mm p' = mmap_advance (p_mm p) s e.

Definition mmap_failed st st' (p p' : Proc PT) addr length_ prot flags_arg fd offset (err : SysErrNo) : Prop :=
  p_mm p' = p_mm p ∧
  (outside_same st st' (p_ms p) (p_ms p') 0 0 ∨
   ∃ rq, mmap_request addr length_ prot flags_arg fd offset = Ok rq ∧ rq_replaces rq = true ∧ err = ENOMEM ∧
     outside_same st st' (p_ms p) (p_ms p') addr (addr + rq_len rq) ∧
     ∀ va, addr ≤ va < addr + rq_len rq → vma_page (areas (p_ms p')) va = None).

Lemma mmap_advance_hints mm s e :
  hints_ok (next_mmap mm) (next_mmap_high mm) → 0 ≤ e → e ≤ range_end HIGH_MMAP_ARENA →
  hints_ok (next_mmap (mmap_advance mm s e)) (next_mmap_high (mmap_advance mm s e)).
Proof. unfold hints_ok, mmap_advance. intros ? ? ?. destruct (contains_range _ _ _); cbn [next_mmap next_mmap_high]; lia. Qed.

Lemma sys_mmap_ok st p X addr length_ prot flags_arg fd offset :
  ms_inv st (p_ms p) (file_cache (st_frames st) ++ X) → hints_ok (next_mmap (p_mm p)) (next_mmap_high (p_mm p)) →
  is_usize length_ → is_usize offset →
  ∃ st' p' r C, sys_mmap st p addr length_ prot flags_arg fd offset = Ret (st', p', r) ∧
    ms_inv st' (p_ms p') (C ++ X) ∧ hints_ok (next_mmap (p_mm p')) (next_mmap_high (p_mm p')) ∧ p_fds p' = p_fds p ∧
    (∀ q, q ∈ X → svc_page (st_frames st') q = svc_page (st_frames st) q) ∧
    match r with
    | Ok s => mmap_done st st' p p' (C ++ X) addr length_ prot flags_arg fd offset s
    | Err err => mmap_failed st st' p p' addr length_ prot flags_arg fd offset err
    end.
Proof.
  intros Hi Hh Hlen Hoff. unfold sys_mmap, mmap_done.
  destruct (mmap_prepare st p addr length_ prot flags_arg fd offset) as [st1 r1] eqn:Ep. cbn [snd].
  destruct (mmap_prepare_ok _ _ _ _ _ _ _ _ _ _ _ Hi Hh Hlen Hoff Ep) as (Hs1&Hargs).
  assert (HX1 : ∀ q, q ∈ X → svc_page (st_frames st1) q = svc_page (st_frames st) q).
  { intros q Hq. apply Hs1. rewrite elem_of_app. by right. }
  destruct r1 as [[[[rq start] end_] [[backing data] lazy]]|err].
  2:{ eexists _, _, _, _. split; [reflexivity|]. split; [apply Hs1|]. split_and!; [done|done|done|split; [done|left]].
      by apply (file_step_outside _ _ _ X). }
  destruct (Hargs _ _ _ _ _ _ eq_refl) as (Hrq&Hca&Hfix).
  destruct (mmap_commit_ok st1 (p_ms p) _ rq start end_ backing data lazy (proj1 Hs1) Hca) as (st2&ms2&r2&->&Hi2&Hq2&Hr2).
  assert (HX2 : ∀ q, q ∈ X → svc_page (st_frames st2) q = svc_page (st_frames st) q).
  { intros q Hq. rewrite Hq2, HX1; [done|done|]. rewrite elem_of_app. by right. }
  assert (Hout : ∀ s e, outside_same st st1 (p_ms p) (p_ms p) s e) by (intros; by apply (file_step_outside _ _ _ X)).
  destruct r2 as [[s e]|err].
  - destruct Hr2 as (Hm&Hout2&Hfx&Hfree). pose proof Hm as (_&He&Hmap&_).
    eexists _, _, _, _. split; [reflexivity|]. split; [exact Hi2|]. split_and!; [|done|done|].
    + cbn [p_mm]. unfold is_user_mappable_range in Hmap. apply orb_true_iff in Hmap. rewrite !contains_range_iff in Hmap.
      unfold LOW_USER_RANGE, HIGH_MMAP_ARENA, USER_STACK_TOP, PAGE_SIZE in Hmap. cbn [range_start range_end] in Hmap.
      apply mmap_advance_hints; [done|..]; unfold HIGH_MMAP_ARENA; cbn [range_end]; lia.
    + exists rq, start, end_, e, backing, data, lazy. split; [done|]. split; [done|]. split; [by eapply outside_trans|].
      split; [intros Hx; by rewrite (Hfx Hx), (Hfix Hx)|]. split; [done|done].
  - eexists _, _, _, _. split; [reflexivity|]. split; [exact Hi2|]. split_and!; [done|done|done|split; [done|]].
    unfold commit_result in Hr2. destruct (rq_replaces rq) eqn:Erep.
    + right. exists rq. destruct Hr2 as (->&Hout2&Hgone). destruct Hca as (_&_&_&->&_).
      assert (start = addr) as ->. { apply Hfix. unfold rq_fixed_addr. unfold rq_replaces in Erep. by apply andb_true_iff in Erep as [-> _]. }
      split_and!; [done|done|done|by eapply outside_trans|done].
    + left. destruct Hr2 as (_&Hout2). by eapply outside_trans.
Qed.

(** ** [brk] *)

(** The mapped end of the heap is its break rounded up. *)
Definition heap_ok (mm : MmContext) : Prop :=
  align_up (program_break mm) = Some (mapped_break mm) ∧ USER_HEAP_START ≤ program_break mm ∧ mapped_break mm ≤ USER_STACK_TOP.

(** The requests that leave the break where it is. *)
Definition brk_refused (p : Proc PT) (new_brk : Z) : bool :=
  bool_decide (new_brk < USER_HEAP_START) ||
  match align_up new_brk with
  | None => true
  | Some e => bool_decide (USER_STACK_TOP < e) || range_overlaps (areas (p_ms p)) (mapped_break (p_mm p)) e
  end.

Definition HEAP_FLAGS : Z := Z.lor PTE_U (Z.lor PTE_R (Z.lor PTE_W PTE_V)).

(** The heap has moved to [new_brk]. *)
Definition brk_moved st st' (p p' : Proc PT) T (new_brk : Z) : Prop :=
  let old := mapped_break (p_mm p) in
  let new := mapped_break (p_mm p') in
  program_break (p_mm p') = new_brk ∧ align_up new_brk = Some new ∧
  outside_same st st' (p_ms p) (p_ms p') (Z.min old new) (Z.max old new) ∧
  (∀ va, old ≤ va < new → vma_page (areas (p_ms p)) va = None ∧
     mapped_at st' (p_ms p') T HEAP_FLAGS false Anonymous [] old va) ∧
  (∀ va, new ≤ va < old → vma_page (areas (p_ms p')) va = None).

Lemma low_mappable s e : PAGE_SIZE ≤ s → s < e → e ≤ USER_STACK_TOP → is_user_mappable_range s e = true.
Proof.
  intros. unfold is_user_mappable_range. apply orb_true_iff. left. apply contains_range_iff.
  cbn [LOW_USER_RANGE range_start range_end]. lia.
Qed.

Lemma unmap_outside st st' ms ms' s e :
  vmas_wf (areas ms) →
  (∀ va, vma_page (areas ms') va ≡ if bool_decide (s ≤ va < e) then None else vma_page (areas ms) va) →
  (∀ va, user_page va → pt_translate (page_table ms') va =
     if bool_decide (s ≤ va < e) then None else pt_translate (page_table ms) va) →
  same_pages st st' →
  outside_same st st' ms ms' s e ∧ ∀ va, s ≤ va < e → vma_page (areas ms') va = None.
Proof.
  intros Hw Hv Ht Hp. split.
  - intros va Hva. specialize (Hv va). specialize (Ht va). rewrite bool_decide_eq_false_2 in Hv, Ht by done.
    split; [exact Hv|]. split; [|exact Ht]. apply get_byte_same; [done|done|]. intros q _. apply Hp.
  - intros va Hva. specialize (Hv va). rewrite bool_decide_eq_true_2 in Hv by done. by inversion Hv.
Qed.

Lemma sys_brk_ok st p T new_brk :
  ms_inv st (p_ms p) T → heap_ok (p_mm p) → is_usize new_brk →
  ∃ st' p' r, sys_brk st p new_brk = Ret (st', p', r) ∧ r = program_break (p_mm p') ∧ ms_inv st' (p_ms p') T ∧ heap_ok (p_mm p') ∧
    if brk_refused p new_brk then st' = st ∧ p' = p else brk_moved st st' p p' T new_brk.
Proof.
  intros Hi Hh Hu. pose proof Hh as (Hup&Hlo&Hhi). pose proof (align_up_Some _ _ Hup) as (Hma&Hmr&_).
  unfold sys_brk, brk_refused. case_bool_decide as H0; cbn [orb].
  { rewrite bool_decide_eq_true_2 by (unfold USER_HEAP_START; lia). cbn [orb]. by exists st, p, (program_break (p_mm p)). }
  case_bool_decide as H1; cbn [orb]; [by exists st, p, (program_break (p_mm p))|].
  destruct (align_up new_brk) as [e|] eqn:Ee; [|by exists st, p, (program_break (p_mm p))].
  case_bool_decide as H2; cbn [orb]; [by exists st, p, (program_break (p_mm p))|]. pose proof (align_up_Some _ _ Ee) as (Hea&Her&_).
  unfold USER_HEAP_START, USER_STACK_TOP in Hlo, Hhi, H1, H2.
  assert (Hnew : heap_ok (mkMm new_brk e (next_mmap (p_mm p)) (next_mmap_high (p_mm p)))).
  { unfold heap_ok, USER_HEAP_START, USER_STACK_TOP. simpl. split_and!; [done|lia|lia]. }
  case_bool_decide as H3.
  { subst e. unfold range_overlaps at 1. rewrite bool_decide_eq_true_2 by lia.
    eexists _, _, _. split; [reflexivity|]. split; [done|]. split; [done|]. split; [done|]. unfold brk_moved. simpl.
    split; [done|]. split; [done|]. split; [apply outside_refl|]. split; intros va; lia. }
  case_bool_decide as H4.
  - destruct (range_overlaps (areas (p_ms p)) (mapped_break (p_mm p)) e) eqn:Eo; [by exists st, p, (program_break (p_mm p))|].
    destruct (insert_lazy_ok st (p_ms p) T (mapped_break (p_mm p)) e HEAP_FLAGS Anonymous Hi) as (ms'&He&Hi'&Hout&Hm).
    { split_and!; [done|done|apply low_mappable; unfold PAGE_SIZE, USER_STACK_TOP; lia|done|done]. }
    unfold HEAP_FLAGS in He. rewrite He. eexists _, _, _. split; [reflexivity|]. split; [done|]. split; [exact Hi'|]. split; [done|].
    unfold brk_moved. cbn [p_mm p_ms program_break mapped_break]. rewrite Z.min_l, Z.max_r by lia.
    split; [done|]. split; [done|]. split; [done|]. split; [|intros va; lia]. intros va Hva. split; [|by apply Hm].
    by apply (proj1 (free_range _ _ _ (inv_vmas _ _ _ Hi)) Eo).
  - unfold range_overlaps at 1. rewrite bool_decide_eq_true_2 by lia.
    pose proof (unmap_range_ok st (p_ms p) e (mapped_break (p_mm p)) T Hi) as Hun.
    rewrite good_range in Hun by (done || lia). destruct Hun as (st'&ms'&->&Hi'&Hv&Ht&Hp&_).
    destruct (unmap_outside st st' (p_ms p) ms' _ _ (inv_vmas _ _ _ Hi) Hv Ht Hp) as [Hout Hgone].
    eexists _, _, _. split; [reflexivity|]. split; [done|]. split; [exact Hi'|]. split; [done|].
    unfold brk_moved. cbn [p_mm p_ms program_break mapped_break]. rewrite Z.min_r, Z.max_l by lia.
    split; [done|]. split; [done|]. split; [exact Hout|]. split; [intros va; lia|exact Hgone].
Qed.

End mmap.
