(* ===== verification/Writeback.v ===== *)
(** * Writing shared file mappings back

    [munmap], [msync] and replacing mappings first write the resident pages of shared,
    writable file mappings to their files.  The writes collected are exactly the bytes of
    those pages at their file positions; [munmap] then removes exactly its range. *)

From S2P Require Import Prelude BTree Frame Flags FileDesc ResidentSet MapArea VmaList MemorySet MsInv.
From S2P Require Import Buddy FrameAlloc Sv39 MsInsert Machine MsUnmap MsCow MsFault MsBytes UserVa.
From S2P Require Import MemFile IoStore FdOps Pipe FdTable Mmap MmapCorrect.

Lemma in_page P x : page_aligned P → P ≤ x < P + PAGE_SIZE → align_down x = P ∧ x mod PAGE_SIZE = x - P.
Proof. unfold align_down, page_aligned, PAGE_SIZE. lia. Qed.

Lemma page_of_index s v x :
  page_aligned s → s + v * PAGE_SIZE ≤ x < s + v * PAGE_SIZE + PAGE_SIZE → (align_down x - s) / PAGE_SIZE = v.
Proof. unfold align_down, page_aligned, PAGE_SIZE. lia. Qed.

Lemma index_of_page s x :
  page_aligned s → s ≤ x → let v := (align_down x - s) / PAGE_SIZE in
  s + v * PAGE_SIZE = align_down x ∧ 0 ≤ v ∧ align_down x ≤ x < align_down x + PAGE_SIZE.
Proof. unfold align_down, page_aligned, PAGE_SIZE. lia. Qed.

(** The indices an area's range covers. *)
Lemma index_in_range s cs ce v x :
  page_aligned s → s ≤ cs → cs ≤ x < ce → ce ≤ 2 ^ 40 → s + v * PAGE_SIZE ≤ x < s + v * PAGE_SIZE + PAGE_SIZE → 0 ≤ s →
  (align_down cs - s) / PAGE_SIZE ≤ v < sat_add (sat_sub ce s) (PAGE_SIZE - 1) / PAGE_SIZE.
Proof. unfold align_down, page_aligned, sat_add, sat_sub, USIZE_MAX, PAGE_SIZE. lia. Qed.

Section writeback.
Context {PT F : Type} `{HPT : PageTableOps PT, !PageTableLaws PT,
  HF : FrameService F, !FrameServiceLaws F, HL : FileLayer F, !FileLayerLaws F, HW : FileWrites F, !FileWritesLaws F}.
Implicit Types (st : St F) (ms : MemorySet PT) (T X : list Z) (p : Proc PT).

(** ** Write-back and [munmap] *)

(** The file position of an address of a shared writable file mapping. *)
Definition file_position (l : list MapArea) (va : Z) : option (FileDescriptor * Z) :=
  match vma_page l va with
  | Some (mkView flags (FileBacked file off true) (Some _)) =>
      if flags_contains flags PTE_W then Some (file, off + va mod PAGE_SIZE) else None
  | _ => None
  end.

(** A list of writes puts byte [b] at a position of a file. *)
Definition writes_byte (writes : list (FileDescriptor * Z * list Z)) (file : FileDescriptor) (pos b : Z) : Prop :=
  ∃ off data, (file, off, data) ∈ writes ∧ off ≤ pos ∧ data !! Z.to_nat (pos - off) = Some b.

(** File positions fit a machine word. *)
Definition positions_ok (l : list MapArea) : Prop :=
  ∀ va file off v, vma_page l va = Some v → pv_backing v = FileBacked file off true → off + PAGE_SIZE ≤ USIZE_MAX.

Lemma area_file_writes_byte st ms T i a file offset s e f pos b :
  ms_inv st ms T → positions_ok (areas ms) → areas ms !! i = Some a → area_backing a = FileBacked file offset true →
  flags_contains (area_flags a) PTE_W = true → s < e → 0 ≤ s → e ≤ VA_LIMIT → s < end_va a → start_va a < e →
  writes_byte (area_file_writes st a file offset s e) f pos b ↔
  ∃ va, s ≤ va < e ∧ start_va a ≤ va < end_va a ∧ file_position (areas ms) va = Some (f, pos) ∧
    get_byte (cell (areas ms)) (svc_page (st_frames st)) va = Some b.
Proof.
  intros Hi Hpos Hai Hback Hwr Hse Hs0 Hemax Hov1 Hov2. pose proof Hi as [Hw Hu _ Hf].
  pose proof (vmas_area_ok _ _ _ Hw Hai) as [Hwa Hba]. rewrite Hback in Hba. simpl in Hba.
  pose proof (Forall_lookup_1 _ _ _ _ Hu Hai) as Hua. pose proof (area_user_bound a Hwa Hua) as Hend.
  pose proof Hwa as [Ha0 Halt Hamax Has Hae Hrs Hins]. unfold VA_LIMIT in Hend, Hemax.
  assert (Hview : ∀ va, start_va a ≤ va < end_va a → vma_page (areas ms) va =
     Some (mkView (area_flags a) (FileBacked file (sat_add offset (align_down va - start_va a)) true)
       (rmap (area_resident a) !! ((align_down va - start_va a) / PAGE_SIZE)))).
  { intros va Hva. by rewrite (vma_page_at (areas ms) i a), area_page_Some, Hback by done. }
  assert (Hoff : ∀ va, start_va a ≤ va < end_va a →
     sat_add offset (align_down va - start_va a) = offset + (align_down va - start_va a) ∧
     offset + (align_down va - start_va a) + PAGE_SIZE ≤ USIZE_MAX).
  { intros va Hva. specialize (Hpos va _ _ _ (Hview va Hva) eq_refl). simpl in Hpos.
    unfold sat_add, PAGE_SIZE, USIZE_MAX, is_usize in *. lia. }
  assert (Hlow : ∀ v pg, rmap (area_resident a) !! v = Some pg →
    sat_add (start_va a) (v * PAGE_SIZE) = start_va a + v * PAGE_SIZE ∧
    sat_add (start_va a + v * PAGE_SIZE) PAGE_SIZE = start_va a + v * PAGE_SIZE + PAGE_SIZE).
  { intros v pg Hv. pose proof (area_resident_bounds a v pg Hwa Hv) as Hb. clear - Hb Hend Ha0 Has Hae.
    unfold area_page_count, area_size in *. unfold sat_add, page_aligned, USIZE_MAX, PAGE_SIZE in *. lia. }
  assert (Hsat : ∀ x, start_va a ≤ x < end_va a → sat_add offset (x - start_va a) = offset + (x - start_va a)).
  { intros x Hx. destruct (Hoff x Hx) as [_ Hm]. clear - Hm Hba Hx. unfold sat_add, align_down, USIZE_MAX, PAGE_SIZE in *. lia. }
  clear Hpos Hemax.
  unfold writes_byte, area_file_writes. cbv zeta. set (cs := Z.max s (start_va a)). set (ce := Z.min e (end_va a)).
  split.
  - intros (off&data&Hin&Hle&Hb). apply list_elem_of_omap in Hin as ([v pg]&Hin&Hx).
    apply elem_of_rs_iter_range in Hin as [_ Hv]; [|done]. destruct (Hlow v pg Hv) as (E1&E2).
    rewrite E1, E2 in Hx. case_bool_decide as Hlt; [done|]. injection Hx as <- <- <-.
    set (P := start_va a + v * PAGE_SIZE) in *. set (ws := Z.max cs P) in *. set (we := Z.min ce (P + PAGE_SIZE)) in *.
    pose proof (lookup_lt_Some _ _ _ Hb) as Hk. rewrite length_take in Hk.
    rewrite lookup_take_lt, lookup_drop in Hb by lia. rewrite Hsat in * by lia.
    set (k := pos - (offset + (ws - start_va a))) in *.
    assert (Hva : start_va a ≤ ws + k < end_va a) by lia. assert (Hp : P ≤ ws + k < P + PAGE_SIZE) by lia.
    destruct (in_page P (ws + k)) as [Hdn Hmod]; [unfold P; auto with kernel|done|].
    pose proof (page_of_index (start_va a) v (ws + k) Has Hp) as Hidx.
    exists (ws + k). split; [lia|]. split; [done|]. split.
    + unfold file_position. rewrite (Hview _ Hva), Hidx, Hv, Hwr. destruct (Hoff _ Hva) as [-> _].
      rewrite Hdn, Hmod. clear Hdn Hmod Hidx. do 2 f_equal. lia.
    + unfold get_byte, cell, page_at. rewrite (Hview _ Hva). cbn [mbind option_bind pv_page]. rewrite Hidx, Hv. simpl.
      rewrite Hmod, <-Hb. clear Hdn Hmod Hidx. f_equal. lia.
  - intros (va&Hva&Hina&Hfp&Hb). unfold file_position in Hfp. rewrite (Hview va Hina) in Hfp.
    unfold get_byte, cell, page_at in Hb. rewrite (Hview va Hina) in Hb. cbn [mbind option_bind pv_page] in Hb.
    destruct (index_of_page (start_va a) va Has (proj1 Hina)) as (HP&Hv0&Hpin).
    set (v := (align_down va - start_va a) / PAGE_SIZE) in *.
    destruct (rmap (area_resident a) !! v) as [pg|] eqn:Ev; [|done]. simpl in Hb. rewrite Hwr in Hfp. injection Hfp as <- Hp.
    destruct (Hlow v pg Ev) as (E1&E2). destruct (Hoff va Hina) as [Eo _]. rewrite Eo in Hp.
    destruct (in_page (align_down va) va (align_down_aligned va) Hpin) as [_ Hmod].
    set (ws := Z.max cs (start_va a + v * PAGE_SIZE)). set (we := Z.min ce (start_va a + v * PAGE_SIZE + PAGE_SIZE)).
    eexists (offset + (ws - start_va a)), _. split; [|split].
    + apply list_elem_of_omap. exists (v, pg). split.
      * apply elem_of_rs_iter_range; [done|]. split; [|done].
        apply (index_in_range _ _ _ _ va); clear Hmod; [done|lia|lia|lia|lia|done].
      * cbv beta iota. rewrite E1, E2. fold ws we. rewrite bool_decide_eq_false_2 by lia. rewrite Hsat by lia. reflexivity.
    + rewrite Hmod in Hp. lia.
    + rewrite Hmod in Hp, Hb. clear Hmod Hview Hoff.
      assert (Hws : ws = Z.max cs (align_down va)) by (unfold ws; by rewrite HP).
      assert (Hwe : we = Z.min ce (align_down va + PAGE_SIZE)) by (unfold we; by rewrite HP).
      clearbody ws we. rewrite HP. clear HP. clearbody v.
      rewrite lookup_take_lt, lookup_drop by lia. rewrite <-Hb. f_equal. lia.
Qed.

Lemma writes_byte_app w1 w2 f pos b : writes_byte (w1 ++ w2) f pos b ↔ writes_byte w1 f pos b ∨ writes_byte w2 f pos b.
Proof. unfold writes_byte. setoid_rewrite elem_of_app. naive_solver. Qed.

Lemma writes_byte_nil f pos b : ¬ writes_byte [] f pos b.
Proof. intros (?&?&Hin&_). by apply elem_of_nil in Hin. Qed.

(** Only resident pages of shared writable file mappings have a position. *)
Lemma file_position_area l i a va fp :
  vmas_wf l → l !! i = Some a → start_va a ≤ va < end_va a → file_position l va = Some fp →
  ∃ file offset, area_backing a = FileBacked file offset true ∧ flags_contains (area_flags a) PTE_W = true ∧
    rs_is_empty (area_resident a) = false.
Proof.
  intros Hw Hi Hva. unfold file_position. rewrite (vma_page_at l i a), area_page_Some by done.
  pose proof (vmas_area_ok _ _ _ Hw Hi) as [Hwa _].
  destruct (area_backing a) as [| |file offset [|]|]; simpl; try done;
    destruct (rmap (area_resident a) !! _) as [pg|] eqn:Ep; try done.
  destruct (flags_contains (area_flags a) PTE_W) eqn:EW; [|done]. intros _. exists file, offset. split_and!; [done|done|].
  destruct (rs_is_empty (area_resident a)) eqn:Ee; [|done]. exfalso.
  rewrite rs_is_empty_rmap in Ee by apply Hwa. by rewrite Ee, lookup_empty in Ep.
Qed.

(** What the collection writes: exactly the bytes of the range that have a file position. *)
Lemma collect_writes_ok st ms T s e f pos b :
  ms_inv st ms T → positions_ok (areas ms) → s < e → 0 ≤ s → e ≤ VA_LIMIT →
  writes_byte (collect_shared_file_writes st (areas ms) s e) f pos b ↔
  ∃ va, s ≤ va < e ∧ file_position (areas ms) va = Some (f, pos) ∧
    get_byte (cell (areas ms)) (svc_page (st_frames st)) va = Some b.
Proof.
  intros Hi Hpos Hse H0 Hmax. pose proof (inv_vmas _ _ _ Hi) as Hw. unfold collect_shared_file_writes.
  assert (Hsub : ∀ l, (∀ a, a ∈ l → a ∈ areas ms) →
    writes_byte (collect_shared_file_writes_for st l s e None) f pos b ↔
    ∃ a va, a ∈ l ∧ start_va a ≤ va < end_va a ∧ s ≤ va < e ∧ file_position (areas ms) va = Some (f, pos) ∧
      get_byte (cell (areas ms)) (svc_page (st_frames st)) va = Some b).
  { induction l as [|a l IH]; intros Hl; cbn [collect_shared_file_writes_for].
    { split; [by intros ?%writes_byte_nil|intros (?&?&Hin&_); by apply elem_of_nil in Hin]. }
    rewrite writes_byte_app, IH by (intros x Hx; apply Hl; by right).
    assert (Ha : a ∈ areas ms) by (apply Hl; by left). apply list_elem_of_lookup in Ha as [i Hai].
    assert (Hhead : writes_byte
      (if negb (ranges_overlap s e (start_va a) (end_va a)) then []
       else match area_backing a with
         | FileBacked file offset shared =>
             if negb shared || negb (flags_contains (area_flags a) PTE_W) then []
             else if false then [] else if rs_is_empty (area_resident a) then []
             else area_file_writes st a file offset s e
         | _ => [] end) f pos b ↔
      ∃ va, start_va a ≤ va < end_va a ∧ s ≤ va < e ∧ file_position (areas ms) va = Some (f, pos) ∧
        get_byte (cell (areas ms)) (svc_page (st_frames st)) va = Some b).
    { unfold ranges_overlap. destruct (decide (s < end_va a ∧ start_va a < e)) as [[H1 H2]|Hno].
      2:{ assert (bool_decide (s < end_va a) && bool_decide (start_va a < e) = false) as ->.
          { apply andb_false_iff. rewrite !bool_decide_eq_false. lia. }
          split; [by intros ?%writes_byte_nil|intros (va&?&?&_); lia]. }
      rewrite !bool_decide_eq_true_2 by done. cbn [negb andb].
      assert (Hfile : ∀ va fp, start_va a ≤ va < end_va a → file_position (areas ms) va = Some fp → _)
        by exact (λ va fp, file_position_area (areas ms) i a va fp Hw Hai).
      destruct (area_backing a) as [| |file offset [|]|] eqn:Eb;
        try (split; [by intros ?%writes_byte_nil|intros (va&Hva&_&Hfp&_); by destruct (Hfile va _ Hva Hfp) as (?&?&?&_)]).
      cbn [negb orb].
      destruct (flags_contains (area_flags a) PTE_W) eqn:EW; cbn [negb];
        [|split; [by intros ?%writes_byte_nil|intros (va&Hva&_&Hfp&_); by destruct (Hfile va _ Hva Hfp) as (?&?&_&?&_)]].
      destruct (rs_is_empty (area_resident a)) eqn:Ere;
        [split; [by intros ?%writes_byte_nil|intros (va&Hva&_&Hfp&_); by destruct (Hfile va _ Hva Hfp) as (?&?&_&_&?)]|].
      rewrite (area_file_writes_byte st ms T i a file offset s e f pos b) by done. naive_solver. }
    rewrite Hhead. setoid_rewrite elem_of_cons. naive_solver. }
  rewrite Hsub by done. split; [naive_solver|]. intros (va&Hva&Hfp&Hb).
  assert (is_Some (vma_page (areas ms) va)) as (i&a&Hai&Hin)%vma_page_is_Some.
  { unfold file_position in Hfp. destruct (vma_page (areas ms) va); [by eexists|done]. }
  exists a, va. split; [by eapply list_elem_of_lookup_2|done].
Qed.

(** ** [munmap] *)

Lemma sys_munmap_ok st p X addr length_ :
  ms_inv st (p_ms p) (file_cache (st_frames st) ++ X) → is_usize addr → is_usize length_ →
  let write_back e := write_back_shared_files st (collect_shared_file_writes st (areas (p_ms p)) addr e) in
  ∃ st' p' r C, sys_munmap st p addr length_ = Ret (st', p', r) ∧ ms_inv st' (p_ms p') (C ++ X) ∧
    p_mm p' = p_mm p ∧ p_fds p' = p_fds p ∧ (∀ q, q ∈ X → svc_page (st_frames st') q = svc_page (st_frames st) q) ∧
    match r with
    | Ok n => n = 0 ∧ ∃ e st1, align_up (addr + length_) = Some e ∧ write_back e = (st1, Ok tt) ∧
        outside_same st st' (p_ms p) (p_ms p') addr e ∧ ∀ va, addr ≤ va < e → vma_page (areas (p_ms p')) va = None
    | Err err => p' = p ∧ outside_same st st' (p_ms p) (p_ms p') 0 0 ∧
        (err = EINVAL ∧ st' = st ∨ ∃ e, align_up (addr + length_) = Some e ∧ write_back e = (st', Err err))
    end.
Proof.
  intros Hi [Ha0 _] [Hl0 _] write_back. unfold sys_munmap, rounded_range, checked_add_or_einval, align_up_or_einval.
  assert (Herr : ∃ st' p' r C, Ret (st, p, Err EINVAL) = Ret (st', p', r) ∧ ms_inv st' (p_ms p') (C ++ X) ∧
    p_mm p' = p_mm p ∧ p_fds p' = p_fds p ∧ (∀ q, q ∈ X → svc_page (st_frames st') q = svc_page (st_frames st) q) ∧
    match r : result Z SysErrNo with
    | Ok n => n = 0 ∧ ∃ e st1, align_up (addr + length_) = Some e ∧ write_back e = (st1, Ok tt) ∧
        outside_same st st' (p_ms p) (p_ms p') addr e ∧ ∀ va, addr ≤ va < e → vma_page (areas (p_ms p')) va = None
    | Err err => p' = p ∧ outside_same st st' (p_ms p) (p_ms p') 0 0 ∧
        (err = EINVAL ∧ st' = st ∨ ∃ e, align_up (addr + length_) = Some e ∧ write_back e = (st', Err err))
    end).
  { eexists _, _, _, _. split; [reflexivity|]. split; [exact Hi|]. do 3 (split; [done|]). split; [done|].
    split; [apply outside_refl|by left]. }
  destruct (negb (bool_decide (addr mod PAGE_SIZE = 0)) || bool_decide (length_ = 0)) eqn:Ebad; [exact Herr|].
  apply orb_false_iff in Ebad as [Eal Elen]. apply negb_false_iff, bool_decide_eq_true_1 in Eal.
  apply bool_decide_eq_false_1 in Elen. fold (page_aligned addr) in Eal.
  destruct (checked_add addr length_) as [e0|] eqn:Eadd; [|exact Herr]. apply checked_add_Some in Eadd as [-> _].
  destruct (align_up (addr + length_)) as [e|] eqn:Eup; [|exact Herr]. clear Herr.
  pose proof (align_up_Some _ _ Eup) as (Hea&Her&_). rewrite (align_down_id addr) by done.
  change (write_back_shared_files st (collect_shared_file_writes st (areas (p_ms p)) addr e)) with (write_back e).
  destruct (write_back e) as [st1 r1] eqn:Ew. pose proof (write_back_ok _ _ X _ _ _ Hi Ew) as Hs1.
  pose proof (λ s e, file_step_outside st st1 (p_ms p) X s e Hi Hs1) as Hout1.
  assert (HX : ∀ q, q ∈ X → svc_page (st_frames st1) q = svc_page (st_frames st) q).
  { intros q Hq. apply Hs1. rewrite elem_of_app. by right. }
  destruct r1 as [[]|err].
  - pose proof (unmap_range_ok st1 (p_ms p) addr e _ (proj1 Hs1)) as Hun. rewrite good_range in Hun by (done || lia).
    destruct Hun as (st2&ms2&->&Hi2&Hv&Ht&Hp&_).
    destruct (unmap_outside st1 st2 (p_ms p) ms2 addr e (inv_vmas _ _ _ Hi) Hv Ht Hp) as [Hout2 Hgone].
    eexists _, _, _, _. split; [reflexivity|]. split; [exact Hi2|]. do 2 (split; [done|]).
    split; [intros q Hq; cbn [fst]; by rewrite Hp, HX|]. split; [done|]. exists e, st1. split; [done|]. split; [done|].
    split; [by eapply outside_trans|exact Hgone].
  - eexists _, _, _, _. split; [reflexivity|]. split; [apply Hs1|]. do 3 (split; [done|]). split; [done|].
    split; [apply Hout1|]. right. by exists e.
Qed.



(** [brk] never fails.  It returns the break of the process afterwards: the old one,
    with nothing changed, exactly when the request is below the heap, above the stack or
    would grow over another mapping; otherwise the requested one, and the heap, mapped
    read-write and lazily zeroed, ends at the break rounded up to a page: the pages the
    heap grows by were free and are added, those it shrinks by are removed, and nothing
    else changes.  The mapped end stays the rounded break. *)
Theorem brk_correct st p T new_brk :
  ms_inv st (p_ms p) T → heap_ok (p_mm p) → is_usize new_brk →
  ∃ st' p' r, sys_brk st p new_brk = Ret (st', p', r) ∧ r = program_break (p_mm p') ∧ ms_inv st' (p_ms p') T ∧
    heap_ok (p_mm p') ∧ if brk_refused p new_brk then st' = st ∧ p' = p else brk_moved st st' p p' T new_brk.
Proof. apply sys_brk_ok. Qed.

End writeback.

(** ** Concrete calls *)

(** Files that accept every write and keep nothing. *)
#[export] Instance null_writes : FileWrites (LocalFrames Buddy) := {
  file_write_at f _ _ data := (f, Ok (zlen data));
  file_sync f _ := (f, Ok tt)
}.

#[export] Instance null_writes_laws : FileWritesLaws (LocalFrames Buddy).
Proof. split; [by intros f X fd off data f' r Hi [= <- <-]|by intros f X fd f' r Hi [= <- <-]]. Qed.

Definition demo_mm : MmContext := mkMm USER_HEAP_START USER_HEAP_START DEFAULT_MMAP_BASE DEFAULT_HIGH_MMAP_BASE.
Definition demo_proc : Proc Sv39 := mkProc demo_ms demo_mm fd_table_new.

Lemma demo_hints : hints_ok (next_mmap demo_mm) (next_mmap_high demo_mm).
Proof. vm_compute. repeat split; discriminate. Qed.

Definition mmap_ok_at {PT F : Type} (o : outcome (St F * Proc PT * result Z SysErrNo)) (start : Z) : bool :=
  match o with Ret (_, _, Ok s) => bool_decide (s = start) | _ => false end.


Lemma no_file_positions l :
  vmas_wf l → forallb (λ a, match area_backing a with FileBacked _ _ _ => false | _ => true end) l = true → positions_ok l.
Proof.
  intros Hw Hl va file off v Hv Hb. exfalso. destruct (proj1 (vma_page_is_Some l va)) as (i&a&Hai&Hin); [by eexists|].
  rewrite (vma_page_at l i a va Hw Hai Hin), area_page_Some in Hv by done. injection Hv as <-.
  rewrite forallb_forall in Hl. specialize (Hl a (proj1 (list_elem_of_In _ _) (list_elem_of_lookup_2 _ _ _ Hai))).
  simpl in Hb. by destruct (area_backing a).
Qed.


Lemma brk_correct_witness :
  ∃ st' p', sys_brk demo_st demo_proc 0x10000123 = Ret (st', p', 0x10000123) ∧ mapped_break (p_mm p') = 0x10001000 ∧
    brk_moved demo_st st' demo_proc p' [] 0x10000123.
Proof.
  destruct (brk_correct demo_st demo_proc [] 0x10000123) as (st'&p'&r&He&Hr&_&_&Hm).
  - exact demo_inv.
  - unfold heap_ok. vm_compute. repeat split; discriminate.
  - unfold is_usize, USIZE_MAX. lia.
  - assert (Hno : brk_refused demo_proc 0x10000123 = false) by (vm_compute; reflexivity). rewrite Hno in Hm.
    pose proof Hm as (Hb&Hup&_). rewrite Hb in Hr. subst r. exists st', p'. split; [exact He|]. split; [|exact Hm].
    assert (Hend : Some 0x10001000 = Some (mapped_break (p_mm p'))) by exact Hup. injection Hend as Hend. symmetry. exact Hend.
Defined.

(** A file of 100 bytes, mapped shared and writable, is written back a page long. *)
Example writeback_extends_file :
  let file := MemFile "f" 0 0 0 true true false true None in
  let st0 := demo_st in
  let ms0 := set_areas demo_ms
    (match areas demo_ms with
     | a :: l => mkArea (start_va a) (end_va a) (Z.lor PTE_U (Z.lor PTE_R PTE_W)) (area_resident a) (FileBacked file 0 true) :: l
     | [] => [] end) in
  (λ w, (w.1.2, zlen w.2)) <$> collect_shared_file_writes st0 (areas ms0) 0x10000 0x10064 = [(0, 100)] ∧
  (λ w, (w.1.2, zlen w.2)) <$> collect_shared_file_writes st0 (areas ms0) 0x10000 0x11000 = [(0, 4096)].
Proof. split; vm_compute; reflexivity. Qed.
