(* ===== verification/IoCalls.v ===== *)
(** * Reading and writing (src/os/src/syscall/fs.rs)

    [read], [write], [pread64], [pwrite64], [lseek], [ftruncate], [pipe2] and
    [eventfd2]: the descriptors of FdTable.v joined with user memory.  A call that has to wait
    is a sequence of turns, as in FileLockCalls.v. *)

From S2P Require Import Prelude BTree Frame Flags FileDesc ResidentSet MapArea VmaList MemorySet MsInv.
From S2P Require Import Buddy FrameAlloc Sv39 MsInsert Machine MsUnmap MsCow MsFork MsCache MsFault MsBytes UserCopy UserVa.
From S2P Require Import MemFile IoStore FdOps Pipe FdTable.

Definition SMALL_IO_STACK_BUF : Z := 4096.
Definition ISIZE_MAX : Z := 2 ^ 63 - 1.
Definition PIPE_O_CLOEXEC : Z := 0x80000.
Definition EFD_SEMAPHORE : Z := 1.
Definition EFD_NONBLOCK : Z := 0x800.
Definition EFD_CLOEXEC : Z := 0x80000.

(** A turn of [read] ends the call, sleeps on a key with a deadline, or is tried again. *)
Inductive ReadTurn : Type :=
  | ReadDone (r : result Z SysErrNo)
  | ReadWait (key : Wake) (deadline : option Z) (kbuf : list Z)
  | ReadAgain (kbuf : list Z).

(** A turn of [write]; [sigpipe]: the signal is sent to the caller. *)
Inductive WriteTurn : Type :=
  | WriteDone (r : result Z SysErrNo) (sigpipe : bool)
  | WriteWait (key : Wake)
  | WriteMore (written : Z).

(** What follows [EAGAIN]: an error, another turn at once, or a sleep. *)
Inductive WaitPlan : Type := PlanErr (e : SysErrNo) | PlanAgain | PlanSleep (key : Wake) (deadline : option Z).

(** [/dev/null] and [/dev/zero] are served without a buffer of the kernel. *)
Definition is_direct (fd : FileDescriptor) : bool :=
  match fd with MemFile name _ _ _ _ _ _ _ _ => is_dev_null_path name || is_dev_zero_path name | _ => false end.

Section waits.
Context {E : Type} `{!BackingFiles E}.
Implicit Types (io : Io E) (t : FileDescriptorTable).

(** The plan when the descriptor is of a kind that can wait. *)
Definition wait_plan (nonblocking would_block : bool) (key : Wake) (deadline : option Z) : WaitPlan :=
  if nonblocking then PlanErr EAGAIN else if would_block then PlanSleep key deadline else PlanAgain.

(** [now] is the time in microseconds. *)
Definition wait_read_after_eagain io t (now : Z) (fd : nat) : WaitPlan :=
  match fd_get t fd with
  | None => PlanErr EBADF
  | Some file_desc =>
      match pipe_read_wait_key file_desc, eventfd_read_wait_key file_desc, socket_read_wait_key file_desc with
      | Some key, _, _ => wait_plan (pipe_read_nonblocking file_desc) (pipe_read_would_block io file_desc) key None
      | None, Some key, _ => wait_plan (eventfd_nonblocking io file_desc) (eventfd_read_would_block io file_desc) key None
      | None, None, Some key =>
          wait_plan (socket_read_nonblocking io file_desc) (socket_read_would_block io file_desc) key
            (sat_add now <$> socket_recv_timeout_us io file_desc)
      | None, None, None => PlanErr EAGAIN
      end
  end.

Definition wait_write_after_eagain io t (fd : nat) : WaitPlan :=
  match fd_get t fd with
  | None => PlanErr EBADF
  | Some file_desc =>
      match pipe_write_wait_key file_desc, eventfd_write_wait_key file_desc with
      | Some key, _ => wait_plan (pipe_write_nonblocking file_desc) (pipe_write_would_block io file_desc) key None
      | None, Some key => wait_plan (eventfd_nonblocking io file_desc) (eventfd_write_would_block io file_desc) key None
      | None, None => PlanErr EAGAIN
      end
  end.

(** The predicates of the sleeps: whether the descriptor still blocks on that key. *)
Definition read_still_blocks io t (fd : nat) (key : Wake) : result bool SysErrNo :=
  match fd_get t fd with
  | None => Err EBADF
  | Some file_desc =>
      Ok (if is_pipe_read file_desc then
            bool_decide (pipe_read_wait_key file_desc = Some key) && pipe_read_would_block io file_desc
          else if bool_decide (eventfd_read_wait_key file_desc = Some key) then eventfd_read_would_block io file_desc
          else if bool_decide (socket_read_wait_key file_desc = Some key) then socket_read_would_block io file_desc
          else false)
  end.
Definition write_still_blocks io t (fd : nat) (key : Wake) : result bool SysErrNo :=
  match fd_get t fd with
  | None => Err EBADF
  | Some file_desc =>
      Ok (if is_pipe_write file_desc then
            bool_decide (pipe_write_wait_key file_desc = Some key) && pipe_write_would_block io file_desc
          else if bool_decide (eventfd_write_wait_key file_desc = Some key) then eventfd_write_would_block io file_desc
          else false)
  end.

(** A turn of the loop of [sys_write] over the bytes not yet written. *)
Definition write_turn io t (fd : nat) (kbuf : list Z) (written : Z) : Io E * FileDescriptorTable * WriteTurn :=
  match fd_get t fd with
  | None => (io, t, WriteDone (if bool_decide (written = 0) then Err EBADF else Ok written) false)
  | Some file_desc =>
      let '(io, file_desc, res) := fd_write io file_desc (drop (Z.to_nat written) kbuf) in
      let t := put_fd t fd file_desc in
      (io, t,
       match res with
       | Ok n =>
           let written := written + n in
           if bool_decide (written = zlen kbuf) || bool_decide (n = 0) then WriteDone (Ok written) false else WriteMore written
       | Err EAGAIN =>
           if negb (bool_decide (written = 0)) then WriteDone (Ok written) false
           else match wait_write_after_eagain io t fd with
                | PlanErr e => WriteDone (Err e) false
                | PlanAgain => WriteMore written
                | PlanSleep key _ => WriteWait key
                end
       | Err e =>
           if bool_decide (written = 0) then WriteDone (Err e) (bool_decide (e = EPIPE)) else WriteDone (Ok written) false
       end)
  end.

(** The turns until the call ends or sleeps; every turn but the last writes a byte. *)
Fixpoint write_loop (fuel : nat) io t (fd : nat) (kbuf : list Z) (written : Z) : Io E * FileDescriptorTable * WriteTurn :=
  match write_turn io t fd kbuf written, fuel with
  | (io, t, WriteMore written), S fuel => write_loop fuel io t fd kbuf written
  | r, _ => r
  end.
End waits.

(** After the sleep of [read]: whether it timed out, or an error; [None] is another turn. *)
Definition read_after_sleep (slept : result bool SysErrNo) : option (result Z SysErrNo) :=
  match slept with Ok timed_out => if timed_out then Some (Err EAGAIN) else None | Err e => Some (Err e) end.
(** After that of [write], with nothing written yet. *)
Definition write_after_sleep (slept : result bool SysErrNo) : option (result Z SysErrNo) :=
  match slept with Ok _ => None | Err e => Some (Err e) end.

Section calls.
Context {PT F : Type} `{HPT : PageTableOps PT, HF : FrameService F, HL : FileLayer F}.
Context {E : Type} `{!BackingFiles E}.
Implicit Types (st : St F) (io : Io E) (t : FileDescriptorTable).
Abbreviation Mem := (option (MemorySet PT)).

(** [direct_read_fd_to_user] and [direct_read_at_fd_to_user]: the latter keeps the offset. *)
Definition direct_read st (mem : Mem) (file_desc : FileDescriptor) (dst count : Z) (advance : bool)
    : outcome (St F * Mem * FileDescriptor * result (option Z) SysErrNo) :=
  match file_desc with
  | MemFile name _ off _ readable _ _ _ _ =>
      if negb (is_direct file_desc) then Ret (st, mem, file_desc, Ok None)
      else if negb readable then Ret (st, mem, file_desc, Err EBADF)
      else if is_dev_null_path name then Ret (st, mem, file_desc, Ok (Some 0))
      else
        '(sm, r) ←! clear_user st mem dst count;
        Ret (sm.1, sm.2,
             match r with Ok _ => if advance then set_mem_offset file_desc (sat_add off count) else file_desc | Err _ => file_desc end,
             match r with Ok _ => Ok (Some count) | Err e => Err e end)
  | _ => Ret (st, mem, file_desc, Ok None)
  end.

(** [direct_write_fd_from_user] and [direct_write_at_fd_from_user] *)
Definition direct_write st (mem : Mem) (file_desc : FileDescriptor) (src count : Z)
    : outcome (St F * Mem * result (option Z) SysErrNo) :=
  match file_desc with
  | MemFile _ _ _ _ _ writable _ _ _ =>
      if negb (is_direct file_desc) then Ret (st, mem, Ok None)
      else if negb writable then Ret (st, mem, Err EBADF)
      else
        '(sm, r) ←! check_user_readable st mem src count;
        Ret (sm, match r with Ok _ => Ok (Some count) | Err e => Err e end)
  | _ => Ret (st, mem, Ok None)
  end.

(** A copy to the user of what was read, and the count. *)
Definition deliver st (mem : Mem) (buf : Z) (bytes : list Z) (n : Z) : outcome (St F * Mem * result Z SysErrNo) :=
  '(sm, r) ←! copy_to_user st mem buf bytes;
  Ret (sm, match r with Ok _ => Ok n | Err e => Err e end).

(** The loop body of [sys_read]; [kbuf] is the buffer of the kernel. *)
Definition read_turn st (mem : Mem) io t (now : Z) (fd : nat) (buf count : Z) (kbuf : list Z)
    : outcome (St F * Mem * Io E * FileDescriptorTable * ReadTurn) :=
  match fd_get t fd with
  | None => Ret (st, mem, io, t, ReadDone (Err EBADF))
  | Some file_desc =>
      '(smf, d) ←! (if bool_decide (count ≤ SMALL_IO_STACK_BUF) then direct_read st mem file_desc buf count true
                    else Ret (st, mem, file_desc, Ok None));
      let '(st, mem, file_desc) := smf in
      let '(io, file_desc, kbuf, res) :=
        match d with
        | Ok (Some n) => (io, file_desc, kbuf, Ok n)
        | Ok None => fd_read io file_desc kbuf
        | Err e => (io, file_desc, kbuf, Err e)
        end in
      let t := put_fd t fd file_desc in
      match d, res with
      | Ok (Some n), _ => Ret (st, mem, io, t, ReadDone (Ok n))
      | _, Ok n => '(sm, r) ←! deliver st mem buf (take (Z.to_nat n) kbuf) n; Ret (sm.1, sm.2, io, t, ReadDone r)
      | _, Err EAGAIN =>
          Ret (st, mem, io, t,
               match wait_read_after_eagain io t now fd with
               | PlanErr e => ReadDone (Err e)
               | PlanAgain => ReadAgain kbuf
               | PlanSleep key deadline => ReadWait key deadline kbuf
               end)
      | _, Err e => Ret (st, mem, io, t, ReadDone (Err e))
      end
  end.

(** [sys_read] up to its first turn; [task] tells whether there is a current task. *)
Definition sys_read st (mem : Mem) io t (task : bool) (now : Z) (fd : nat) (buf count : Z)
    : outcome (St F * Mem * Io E * FileDescriptorTable * ReadTurn) :=
  if bool_decide (count = 0) then
    if negb task then Ret (st, mem, io, t, ReadDone (Err ESRCH))
    else
      match fd_get t fd with
      | None => Ret (st, mem, io, t, ReadDone (Err EBADF))
      | Some file_desc =>
          let '(io, file_desc, _, res) := fd_read io file_desc [] in Ret (st, mem, io, put_fd t fd file_desc, ReadDone res)
      end
  else if bool_decide (buf = 0) then Ret (st, mem, io, t, ReadDone (Err EFAULT))
  else if bool_decide (ISIZE_MAX < count) then Ret (st, mem, io, t, ReadDone (Err EINVAL))
  else if negb task then Ret (st, mem, io, t, ReadDone (Err ESRCH))
  else read_turn st mem io t now fd buf count (replicate (Z.to_nat count) 0).

(** [sys_write] until it ends or sleeps. *)
Definition sys_write st (mem : Mem) io t (task : bool) (fd : nat) (buf count : Z)
    : outcome (St F * Mem * Io E * FileDescriptorTable * WriteTurn) :=
  let fail e := Ret (st, mem, io, t, WriteDone (Err e) false) in
  if bool_decide (count = 0) then
    if negb task then fail ESRCH
    else
      match fd_get t fd with
      | None => fail EBADF
      | Some file_desc =>
          let '(io, file_desc, res) := fd_write io file_desc [] in Ret (st, mem, io, put_fd t fd file_desc, WriteDone res false)
      end
  else if bool_decide (buf = 0) then fail EFAULT
  else if bool_decide (ISIZE_MAX < count) then fail EINVAL
  else if negb task then fail ESRCH
  else
    '(sm, d) ←!
      (if bool_decide (count ≤ SMALL_IO_STACK_BUF) then
         match fd_get t fd with
         | None => Ret (st, mem, Err EBADF)
         | Some file_desc => direct_write st mem file_desc buf count
         end
       else Ret (st, mem, Ok None));
    match d with
    | Err e => Ret (sm.1, sm.2, io, t, WriteDone (Err e) false)
    | Ok (Some n) => Ret (sm.1, sm.2, io, t, WriteDone (Ok n) false)
    | Ok None =>
        '(sm, r) ←! copy_from_user sm.1 sm.2 buf count;
        match r with
        | Err e => Ret (sm.1, sm.2, io, t, WriteDone (Err e) false)
        | Ok kbuf => let '(io, t, turn) := write_loop (length kbuf) io t fd kbuf 0 in Ret (sm.1, sm.2, io, t, turn)
        end
    end.

(** ** At a position *)

Definition sys_pread64 st (mem : Mem) io t (task : bool) (fd : nat) (buf count offset : Z)
    : outcome (St F * Mem * Io E * result Z SysErrNo) :=
  let fixed (f : FileDescriptor → outcome (St F * Mem * Io E * result Z SysErrNo)) :=
    if negb task then Ret (st, mem, io, Err ESRCH)
    else match fd_get t fd with None => Ret (st, mem, io, Err EBADF) | Some file_desc => f file_desc end in
  if bool_decide (count = 0) then
    fixed (λ file_desc, let '(io, _, res) := fd_read_at io file_desc offset [] in Ret (st, mem, io, res))
  else if bool_decide (buf = 0) then Ret (st, mem, io, Err EFAULT)
  else if bool_decide (ISIZE_MAX < count) then Ret (st, mem, io, Err EINVAL)
  else
    fixed (λ file_desc,
      '(smf, d) ←! (if bool_decide (count ≤ SMALL_IO_STACK_BUF) then direct_read st mem file_desc buf count false
                    else Ret (st, mem, file_desc, Ok None));
      let '(st, mem, _) := smf in
      match d with
      | Err e => Ret (st, mem, io, Err e)
      | Ok (Some n) => Ret (st, mem, io, Ok n)
      | Ok None =>
          let '(io, kbuf, res) := fd_read_at io file_desc offset (replicate (Z.to_nat count) 0) in
          match res with
          | Err e => Ret (st, mem, io, Err e)
          | Ok n =>
              if bool_decide (count ≤ SMALL_IO_STACK_BUF) && bool_decide (n = 0) then Ret (st, mem, io, Ok n)
              else '(sm, r) ←! deliver st mem buf (take (Z.to_nat n) kbuf) n; Ret (sm.1, sm.2, io, r)
          end
      end).

Definition sys_pwrite64 st (mem : Mem) io t (task : bool) (fd : nat) (buf count offset : Z)
    : outcome (St F * Mem * Io E * result Z SysErrNo) :=
  let fixed st (mem : Mem) (f : FileDescriptor → outcome (St F * Mem * Io E * result Z SysErrNo)) :=
    if negb task then Ret (st, mem, io, Err ESRCH)
    else match fd_get t fd with None => Ret (st, mem, io, Err EBADF) | Some file_desc => f file_desc end in
  let buffered st (mem : Mem) :=
    '(sm, r) ←! copy_from_user st mem buf count;
    match r with
    | Err e => Ret (sm.1, sm.2, io, Err e)
    | Ok kbuf => fixed sm.1 sm.2 (λ file_desc, let '(io, res) := fd_write_at io file_desc offset kbuf in Ret (sm.1, sm.2, io, res))
    end in
  if bool_decide (count = 0) then
    fixed st mem (λ file_desc, let '(io, res) := fd_write_at io file_desc offset [] in Ret (st, mem, io, res))
  else if bool_decide (buf = 0) then Ret (st, mem, io, Err EFAULT)
  else if bool_decide (ISIZE_MAX < count) then Ret (st, mem, io, Err EINVAL)
  else if bool_decide (count ≤ SMALL_IO_STACK_BUF) then
    fixed st mem (λ file_desc,
      '(sm, d) ←! direct_write st mem file_desc buf count;
      match d with
      | Err e => Ret (sm.1, sm.2, io, Err e)
      | Ok (Some n) => Ret (sm.1, sm.2, io, Ok n)
      | Ok None => buffered sm.1 sm.2
      end)
  else buffered st mem.

(** ** Other calls on descriptors *)

Definition sys_lseek io t (task : bool) (fd : nat) (offset whence : Z) : FileDescriptorTable * result Z SysErrNo :=
  if negb task then (t, Err ESRCH)
  else
    match fd_get t fd with
    | None => (t, Err EBADF)
    | Some file_desc => let '(file_desc, r) := seek_signed io file_desc offset whence in (put_fd t fd file_desc, r)
    end.

Definition sys_ftruncate io t (task : bool) (fd : nat) (length rlimit_fsize : Z) : Io E * result Z SysErrNo :=
  if bool_decide (ISIZE_MAX < length) then (io, Err EINVAL)
  else if negb task then (io, Err ESRCH)
  else if bool_decide (rlimit_fsize < length) then (io, Err EFBIG)
  else
    match fd_get t fd with
    | None => (io, Err EBADF)
    | Some file_desc => let '(io, r) := fd_ftruncate io file_desc length in (io, match r with Ok _ => Ok 0 | Err e => Err e end)
    end.

(** [pipe2]; [h] is the address of the new pipe.  The descriptors stay when their numbers
    cannot be written. *)
Definition sys_pipe2 st (mem : Mem) io t (task : bool) (h : handle) (pipefd flags : Z) (nofile_limit : nat)
    : outcome (St F * Mem * Io E * FileDescriptorTable * result Z SysErrNo) :=
  if bool_decide (pipefd = 0) then Ret (st, mem, io, t, Err EFAULT)
  else if negb (bool_decide (Z.ldiff flags (Z.lor O_NONBLOCK PIPE_O_CLOEXEC) = 0)) then Ret (st, mem, io, t, Err EINVAL)
  else if negb task then Ret (st, mem, io, t, Err ESRCH)
  else
    let fd_flag := if bool_decide (Z.land flags PIPE_O_CLOEXEC = 0) then 0 else FD_CLOEXEC in
    let '(io, read_end, write_end) := create_pipe io h (negb (bool_decide (Z.land flags O_NONBLOCK = 0))) in
    match alloc_with_flags_below io t read_end fd_flag nofile_limit with
    | (io, t, None) => Ret (st, mem, fd_drop io write_end, t, Err EMFILE)
    | (io, t, Some read_fd) =>
        match alloc_with_flags_below io t write_end fd_flag nofile_limit with
        | (io, t, None) => let '(io, t, _) := free io t read_fd in Ret (st, mem, io, t, Err EMFILE)
        | (io, t, Some write_fd) =>
            '(sm, r) ←! copy_to_user st mem pipefd (le_bytes 4 (Z.of_nat read_fd) ++ le_bytes 4 (Z.of_nat write_fd));
            Ret (sm.1, sm.2, io, t, match r with Ok _ => Ok 0 | Err e => Err e end)
        end
    end.

Definition sys_eventfd2 io t (task : bool) (h : handle) (initval flags : Z) (nofile_limit : nat)
    : Io E * FileDescriptorTable * result nat SysErrNo :=
  if negb (bool_decide (Z.ldiff flags (Z.lor EFD_SEMAPHORE (Z.lor EFD_NONBLOCK EFD_CLOEXEC)) = 0)) then (io, t, Err EINVAL)
  else
    let fd_flag := if bool_decide (Z.land flags EFD_CLOEXEC = 0) then 0 else FD_CLOEXEC in
    let '(io, eventfd) :=
      create_eventfd io h initval (negb (bool_decide (Z.land flags EFD_SEMAPHORE = 0))) (negb (bool_decide (Z.land flags EFD_NONBLOCK = 0))) in
    if negb task then (fd_drop io eventfd, t, Err ESRCH)
    else
      match alloc_with_flags_below io t eventfd fd_flag nofile_limit with
      | (io, t, Some fd) => (io, t, Ok fd)
      | (io, t, None) => (io, t, Err EMFILE)
      end.
End calls.

(** ** Through a pipe from memory to memory *)

Section pipes.
Context {E : Type} `{!BackingFiles E}.
Implicit Types (io : Io E) (t : FileDescriptorTable).

(** A write into an empty pipe with readers puts in as much as the pipe holds, and returns
    when it is full, whether the descriptor blocks or not. *)
Lemma write_loop_pipe io t fd h nb kbuf readers writers :
  fd_get t fd = Some (PipeWrite h nb) → io_pipes io !!! h = mkPipe [] readers writers → readers ≠ 0 → kbuf ≠ [] →
  let k := Z.min (zlen kbuf) PIPE_CAPACITY in
  ∃ io' t', write_loop (length kbuf) io t fd kbuf 0 = (io', t', WriteDone (Ok k) false) ∧
    io_pipes io' !!! h = mkPipe (take (Z.to_nat k) kbuf) readers writers ∧
    ∀ j, j ≠ fd → fd_get t' j = fd_get t j.
Proof.
  intros Hfd Hp Hr Hne k. assert (Hlen : 0 < zlen kbuf) by (destruct kbuf; [done|unfold zlen; simpl; lia]).
  assert (Hk : 0 < k) by (unfold k, PIPE_CAPACITY; lia).
  assert (Hturn : ∃ io1, write_pipe io h kbuf = (io1, Ok k) ∧ io_pipes io1 !!! h = mkPipe (take (Z.to_nat k) kbuf) readers writers).
  { destruct (write_pipe io h kbuf) as [io1 r] eqn:Ew. apply write_pipe_spec in Ew. rewrite Hp in Ew. cbn [pipe_buf pipe_readers pipe_writers] in Ew.
    replace (Z.min (zlen kbuf) (sat_sub PIPE_CAPACITY (zlen (@nil Z)))) with k in Ew by (unfold k, sat_sub, zlen; simpl; lia).
    rewrite !bool_decide_eq_false_2 in Ew by lia. cbn [orb] in Ew. destruct Ew as [-> ->]. eexists. split; [done|].
    rewrite wake_pipes, app_nil_l. apply lookup_total_insert_eq. }
  destruct Hturn as (io1&Hw1&Hp1). destruct (length kbuf) as [|fuel] eqn:El; [unfold zlen in Hlen; lia|].
  cbn [write_loop]. unfold write_turn at 1. rewrite Hfd. cbn [fd_write]. change (drop (Z.to_nat 0) kbuf) with kbuf. rewrite Hw1. cbn [fst snd].
  rewrite (bool_decide_eq_false_2 (k = 0)) by lia. rewrite orb_false_r, Z.add_0_l.
  destruct (decide (k = zlen kbuf)) as [Ek|Ek].
  { rewrite bool_decide_eq_true_2 by done. eexists _, _. split; [reflexivity|]. split; [done|]. intros j Hj. by apply fd_get_put. }
  rewrite bool_decide_eq_false_2 by done. assert (Hcap : k = PIPE_CAPACITY) by (unfold k in *; lia).
  assert (Hrest : drop (Z.to_nat k) kbuf ≠ []).
  { intros Hd. apply (f_equal length) in Hd. rewrite length_drop in Hd. cbn [length] in Hd.
    assert (k < zlen kbuf) by lia. clear -H Hd Hk. unfold zlen in *. lia. }
  destruct fuel as [|fuel]; [exfalso; assert (k ≤ zlen kbuf) by (unfold k; lia); clearbody k; unfold zlen, PIPE_CAPACITY in *; lia|].
  cbn [write_loop]. unfold write_turn at 1.
  rewrite (fd_get_put_same _ _ _ _ Hfd). cbn [fd_write]. destruct (write_pipe io1 h (drop (Z.to_nat k) kbuf)) as [io2 r] eqn:Ew2.
  apply write_pipe_spec in Ew2. rewrite Hp1 in Ew2. cbn [pipe_buf pipe_readers pipe_writers] in Ew2.
  assert (Hfull : zlen (take (Z.to_nat k) kbuf) = PIPE_CAPACITY) by (rewrite zlen_take by lia; unfold k in *; lia).
  rewrite Hfull in Ew2. unfold sat_sub in Ew2. rewrite Z.sub_diag, Z.max_id, Z.min_r in Ew2 by apply zlen_nonneg.
  rewrite (bool_decide_eq_true_2 (0 = 0)), orb_true_r in Ew2 by done. rewrite !bool_decide_eq_false_2 in Ew2 by done.
  destruct Ew2 as [-> ->]. rewrite bool_decide_eq_false_2 by lia. cbn [negb].
  eexists _, _. split; [reflexivity|]. split; [done|]. intros j Hj. by rewrite !fd_get_put.
Qed.

(** A read takes the oldest bytes of a pipe that has some. *)
Lemma read_pipe_front io h nb (n : nat) p :
  io_pipes io !!! h = p → pipe_buf p ≠ [] → n ≠ 0%nat →
  let j := Z.min (Z.of_nat n) (zlen (pipe_buf p)) in
  ∃ io' kbuf, fd_read io (PipeRead h nb) (replicate n 0) = (io', PipeRead h nb, kbuf, Ok j) ∧
    take (Z.to_nat j) kbuf = take (Z.to_nat j) (pipe_buf p) ∧
    io_pipes io' !!! h = mkPipe (drop (Z.to_nat j) (pipe_buf p)) (pipe_readers p) (pipe_writers p).
Proof.
  intros Hp Hne Hn j. assert (0 < zlen (pipe_buf p)) by (destruct (pipe_buf p); [done|unfold zlen; simpl; lia]).
  cbn [fd_read]. destruct (read_pipe io h (replicate n 0)) as [[io' kbuf] r] eqn:Er. apply read_pipe_spec in Er.
  rewrite Hp, zlen_replicate in Er. fold j in Er. rewrite bool_decide_eq_false_2 in Er by lia. destruct Er as (->&->&->).
  eexists _, _. split; [reflexivity|]. split.
  - apply take_splice; [rewrite zlen_take by lia; lia|rewrite zlen_replicate; lia].
  - rewrite wake_pipes. apply lookup_total_insert_eq.
Qed.
End pipes.

Section correct.
Context {PT F : Type} `{HPT : PageTableOps PT, !PageTableLaws PT,
  HF : FrameService F, HL : FileLayer F, HSL : !FrameServiceLaws F, HFL : !FileLayerLaws F}.
Context {E : Type} `{!BackingFiles E}.
Implicit Types (st : St F) (ms : MemorySet PT) (io : Io E) (t : FileDescriptorTable).

(** The copies of the calls, on an address space in good order. *)
Lemma copy_in_ok st ms X src len :
  ms_inv st ms (file_cache (st_frames st) ++ X) → zlen X ≤ 2 ^ 31 → 0 < src → 0 ≤ len →
  ∃ st' ms' r, copy_from_user st (Some ms) src len = Ret (st', Some ms', r) ∧ copied_out st st' ms ms' X src len r.
Proof.
  intros Hi HX Hs Hl. unfold copy_from_user. rewrite (bool_decide_eq_false_2 (src = 0)) by lia. cbn [andb].
  destruct (copy_from_user_ok st ms X src len Hi HX ltac:(lia) Hl) as (st'&ms'&r&->&Hc). by eexists _, _, _.
Qed.

Lemma deliver_ok st ms X buf bytes n :
  ms_inv st ms (file_cache (st_frames st) ++ X) → zlen X ≤ 2 ^ 31 → 0 < buf →
  ∃ st' ms' r, deliver st (Some ms) buf bytes n = Ret (st', Some ms', match r with Ok _ => Ok n | Err e => Err e end) ∧
    copied_in st st' ms ms' X buf bytes r.
Proof.
  intros Hi HX Hb. unfold deliver, copy_to_user. rewrite (bool_decide_eq_false_2 (buf = 0)) by lia. cbn [andb].
  destruct (copy_to_user_ok st ms X buf bytes Hi HX ltac:(lia)) as (st'&ms'&r&->&Hc). by eexists _, _, _.
Qed.

Lemma delivered_reads st st' ms ms' X buf bytes r n j :
  copied_in st st' ms ms' X buf bytes r →
  (match r with Ok _ => Ok n | Err e => Err e end : result Z SysErrNo) = Ok j → NoDup (owned (areas ms')) →
  j = n ∧ reads st' ms' buf bytes.
Proof. destruct r as [[]|]; [|done]. intros Hc [= ->] Hnd. split; [done|]. by eapply copied_in_reads. Qed.


(** The byte vector of the file behind a descriptor. *)
Definition file_bytes io (b : handle) : list Z := content_bytes MEM_FILE_CHUNK_SIZE (bk_content (io_backings io !!! b)).
Definition backing_wf io (b : handle) : Prop := content_wf MEM_FILE_INLINE_LIMIT MEM_FILE_CHUNK_SIZE (bk_content (io_backings io !!! b)).

Lemma subslice_splice offset data buf :
  0 ≤ offset → offset + zlen data ≤ zlen buf → subslice offset (zlen data) (splice offset data buf) = data.
Proof.
  intros Ho Hl. unfold subslice, splice.
  rewrite drop_app_length' by (rewrite length_take; unfold zlen in *; lia). apply take_app_length'. unfold zlen. lia.
Qed.

(** A write at a position that succeeds replaces the bytes there, after extending the file. *)
Lemma fd_write_at_mem io name b off own readable append linked node offset data io' r :
  backing_wf io b → 0 ≤ offset → is_dev_null_path name || is_dev_zero_path name = false → data ≠ [] →
  fd_write_at io (MemFile name b off own readable true append linked node) offset data = (io', Ok r) →
  r = zlen data ∧ backing_wf io' b ∧ offset + zlen data ≤ MAX_FILE_OFFSET ∧
  file_bytes io' b = splice offset data (resize_vec (Z.max (zlen (file_bytes io b)) (offset + zlen data)) (file_bytes io b)).
Proof.
  intros Hw Ho Hd Hne. cbn [fd_write_at negb]. rewrite Hd, bool_decide_eq_false_2 by done.
  unfold checked_file_end. destruct (checked_add offset (zlen data)) as [e|] eqn:Ea; [|done]. apply checked_add_Some in Ea as [-> _].
  case_bool_decide as Hm; [done|]. intros [= <- <-]. split; [done|].
  assert (Hb : io_backings (write_backing io b offset data) !!! b =
    mkBacking (content_write_at MEM_FILE_INLINE_LIMIT MEM_FILE_CHUNK_SIZE (bk_content (io_backings io !!! b)) offset data).1
      (touch_modified io (bk_times (io_backings io !!! b)))) by apply lookup_total_insert_eq.
  unfold file_bytes, backing_wf in *. rewrite Hb. cbn [bk_content].
  assert (Hc : 0 < MEM_FILE_CHUNK_SIZE) by done. assert (Hlim : 0 ≤ MEM_FILE_INLINE_LIMIT) by done.
  pose proof (content_write_spec MEM_FILE_INLINE_LIMIT MEM_FILE_CHUNK_SIZE Hc Hlim (bk_content (io_backings io !!! b)) offset data Hw Ho) as Hs.
  destruct (content_write_at _ _ _ _ _) as [c' e']. destruct Hs as (_&Hw'&Hb'); [unfold MAX_FILE_OFFSET, USIZE_MAX, MEM_FILE_CHUNK_SIZE in *; lia|].
  cbn [fst]. split; [done|]. split; [lia|]. by rewrite Hb', (content_bytes_len MEM_FILE_INLINE_LIMIT MEM_FILE_CHUNK_SIZE Hlim).
Qed.

(** A read at a position that the file has bytes for. *)
Lemma fd_read_at_mem io name b off own writable append linked node offset (n : nat) :
  backing_wf io b → 0 ≤ offset → is_dev_null_path name || is_dev_zero_path name = false → n ≠ 0%nat →
  offset + Z.of_nat n ≤ zlen (file_bytes io b) →
  fd_read_at io (MemFile name b off own true writable append linked node) offset (replicate n 0) =
    (io, subslice offset (Z.of_nat n) (file_bytes io b), Ok (Z.of_nat n)).
Proof.
  intros Hw Ho [Hn Hz]%orb_false_iff Hn0 Hl. cbn [fd_read_at negb]. rewrite Hn, Hz. unfold file_bytes, content_at in *.
  assert (Hc : 0 < MEM_FILE_CHUNK_SIZE) by done. assert (Hlim : 0 ≤ MEM_FILE_INLINE_LIMIT) by done.
  rewrite (content_bytes_len MEM_FILE_INLINE_LIMIT MEM_FILE_CHUNK_SIZE Hlim) in Hl by done.
  rewrite (content_read_spec MEM_FILE_INLINE_LIMIT MEM_FILE_CHUNK_SIZE Hc Hlim) by done.
  rewrite !bool_decide_eq_false_2 by lia. cbn zeta. rewrite zlen_replicate, Z.min_l by lia.
  by rewrite drop_ge, app_nil_r by (rewrite length_replicate; lia).
Qed.

End correct.

(** ** Concrete calls *)

(** Descriptors 3 and 4 are the ends of pipe 7, descriptor 5 an empty file. *)
Definition demo_file_fd : FileDescriptor := MemFile "f"%string 9 0 1 true true false true None.
Definition demo_table : FileDescriptorTable :=
  mkFdTable [None; None; None; Some (PipeRead 7 false); Some (PipeWrite 7 false); Some demo_file_fd] [0; 0; 0; 0; 0; 0] 0 0.



(** *** What the calls do not promise *)

(** A write of 16 bytes to an event counter adds both words, where 8 bytes are one write. *)
Lemma eventfd_write_repeats :
  let io := (create_eventfd empty_io 3 0 false false).1 in
  let t := mkFdTable [Some (EventFd 3)] [0] 0 0 in
  let '(io, _, turn) := write_loop 16 io t 0 (le_bytes 8 5 ++ le_bytes 8 6) 0 in
  turn = WriteDone (Ok 16) false ∧ ev_counter (io_eventfds io !!! 3) = 11.
Proof. vm_compute. split; reflexivity. Qed.

(** A read from a pipe to an address that cannot be written fails and loses the bytes. *)
Lemma failed_read_drains :
  let io := (fd_write demo_pipe_io (PipeWrite 7 false) [1; 2; 3]).1.1 in
  match sys_read demo_st0 (Some demo_lazy_ms) io demo_table true 0 3 0x999000 3 with
  | Ret (_, _, io', _, turn) => turn = ReadDone (Err EFAULT) ∧ pipe_buf (io_pipes io' !!! 7) = []
  | _ => False
  end.
Proof. vm_compute. split; reflexivity. Qed.

(** [pipe2] that cannot report its descriptors fails and leaves them open. *)
Lemma failed_pipe2_leaks :
  match sys_pipe2 demo_st0 (Some demo_lazy_ms) empty_io fd_table_new true 7 0x999000 0 100 with
  | Ret (_, _, _, t, r) => r = Err EFAULT ∧ fd_get t 3 = Some (PipeRead 7 false) ∧ fd_get t 4 = Some (PipeWrite 7 false)
  | _ => False
  end.
Proof. vm_compute. repeat split; reflexivity. Qed.
