(* ===== verification/FileLocks.v ===== *)
(** * File locks (src/os/src/syscall/fs.rs)

    The table of byte-range locks behind [fcntl], the table of whole-file locks behind
    [flock], and the record of which owner waits for which, with the search for deadlocks.
    A range ends before [rg_end], or nowhere.  The calls are in FileLockCalls.v. *)

From S2P Require Import Prelude FileDesc MemFile IoStore FdOps.

Inductive FileLockKey : Set := MemInode (ino : Z) | MemPath (name : string) | Ext4 (ino : Z).
Inductive FileLockOwner : Set := Posix (pid : Z) | Ofd (id : Z).
Inductive FileLockKind : Set := Read | Write.

#[export] Instance FileLockKey_eq_dec : EqDecision FileLockKey.
Proof. solve_decision. Defined.
#[export] Instance FileLockOwner_eq_dec : EqDecision FileLockOwner.
Proof. solve_decision. Defined.
#[export] Instance FileLockKind_eq_dec : EqDecision FileLockKind.
Proof. solve_decision. Defined.

Record FileLockRange := mkRange { rg_start : Z; rg_end : option Z }.

Record FileRecordLock := mkRecordLock {
  rl_file : FileLockKey; rl_owner : FileLockOwner; rl_pid : Z; rl_kind : FileLockKind; rl_range : FileLockRange
}.
Definition with_range (l : FileRecordLock) (r : FileLockRange) : FileRecordLock :=
  mkRecordLock (rl_file l) (rl_owner l) (rl_pid l) (rl_kind l) r.

Record WholeFileLock := mkWholeLock { wl_file : FileLockKey; wl_owner : Z; wl_kind : FileLockKind }.

Record FileLockWaiter := mkWaiter { wt_waiter : FileLockOwner; wt_waiting_for : FileLockOwner }.

(** The three tables and the keys of the wait queue woken so far. *)
Record LockTables := mkLocks {
  file_record_locks : list FileRecordLock;
  file_lock_waiters : list FileLockWaiter;
  whole_file_locks : list WholeFileLock;
  lock_wakes : list (Z * Z)
}.
Definition set_record_locks (s : LockTables) x := mkLocks x (file_lock_waiters s) (whole_file_locks s) (lock_wakes s).
Definition set_waiters (s : LockTables) x := mkLocks (file_record_locks s) x (whole_file_locks s) (lock_wakes s).
Definition set_whole_locks (s : LockTables) x := mkLocks (file_record_locks s) (file_lock_waiters s) x (lock_wakes s).
Definition no_locks : LockTables := mkLocks [] [] [] [].

(** ** Keys *)

Definition file_lock_hash_bytes (hash : Z) (bytes : list Z) : Z :=
  foldl (λ hash byte, wrap (Z.lxor hash byte * 0x100000001b3)) hash bytes.

(** The key of the wait queue ([WaitKey::new]). *)
Definition file_lock_wait_key (file : FileLockKey) : Z * Z :=
  (match file with
   | MemInode ino => file_lock_hash_bytes 0xcbf29ce484222325 (le_bytes 8 ino)
   | MemPath name => file_lock_hash_bytes 0x9ce484222325cbf2 (name_bytes name)
   | Ext4 ino => file_lock_hash_bytes 0x84222325cbf29ce4 (le_bytes 4 ino)
   end, 0x464c4f43).

(** [mem_inode] is [MEM_FS.lock().inode(name)]. *)
Definition fd_lock_key (mem_inode : string → option Z) (fd : FileDescriptor) : option FileLockKey :=
  match fd with
  | MemFile name _ _ _ _ _ _ _ node =>
      let ino := match node with
                 | Some metadata => if bool_decide (node_ino metadata = 0) then mem_inode name else Some (node_ino metadata)
                 | None => mem_inode name
                 end in
      Some (match ino with Some ino => MemInode ino | None => MemPath name end)
  | Ext4Regular ino _ _ _ _ _ => Some (Ext4 ino)
  | _ => None
  end.

Definition fd_lock_offset (fd : FileDescriptor) : Z :=
  match fd with MemFile _ _ offset _ _ _ _ _ _ | Ext4Regular _ offset _ _ _ _ => offset | _ => 0 end.

(** ** Ranges *)

(** [end.map(f).unwrap_or(d)] *)
Definition end_or (d : bool) (f : Z → bool) (e : option Z) : bool := match e with Some e => f e | None => d end.

Definition lock_ranges_overlap (l r : FileLockRange) : bool :=
  let left_before_right := end_or false (λ e, bool_decide (e ≤ rg_start r)) (rg_end l) in
  let right_before_left := end_or false (λ e, bool_decide (e ≤ rg_start l)) (rg_end r) in
  negb left_before_right && negb right_before_left.

Definition lock_ranges_touch_or_overlap (l r : FileLockRange) : bool :=
  let left_before_right := end_or false (λ e, bool_decide (e < rg_start r)) (rg_end l) in
  let right_before_left := end_or false (λ e, bool_decide (e < rg_start l)) (rg_end r) in
  negb left_before_right && negb right_before_left.

Definition merge_lock_ranges (l r : FileLockRange) : FileLockRange :=
  mkRange (Z.min (rg_start l) (rg_start r))
    (match rg_end l, rg_end r with Some le, Some re => Some (Z.max le re) | _, _ => None end).

Definition lock_overlap_start (l r : FileLockRange) : option Z :=
  if lock_ranges_overlap l r then Some (Z.max (rg_start l) (rg_start r)) else None.

Definition lock_kinds_conflict (l r : FileLockKind) : bool := negb (bool_decide (l = Read) && bool_decide (r = Read)).

Definition lock_range_nonempty (r : FileLockRange) : bool := end_or true (λ e, bool_decide (rg_start r < e)) (rg_end r).

Definition subtract_lock_range (old cut : FileLockRange) : list FileLockRange :=
  (if bool_decide (rg_start old < rg_start cut) then
     let l := mkRange (rg_start old) (Some (rg_start cut)) in if lock_range_nonempty l then [l] else []
   else []) ++
  (match rg_end cut with
   | Some cut_end =>
       if end_or true (λ e, bool_decide (cut_end < e)) (rg_end old) then
         let r := mkRange (Z.max cut_end (rg_start old)) (rg_end old) in if lock_range_nonempty r then [r] else []
       else []
   | None => []
   end).

(** ** Record locks *)

(** One turn of the loop of [find_lock_conflict]. *)
Definition conflict_step (file : FileLockKey) (owner : FileLockOwner) (kind : FileLockKind) (range : FileLockRange)
    (best : option (Z * FileRecordLock)) (lock : FileRecordLock) : option (Z * FileRecordLock) :=
  if bool_decide (rl_file lock ≠ file) || bool_decide (rl_owner lock = owner) || negb (lock_kinds_conflict (rl_kind lock) kind)
  then best
  else
    match lock_overlap_start (rl_range lock) range with
    | None => best
    | Some overlap_start =>
        let replace :=
          match best with
          | Some (best_start, best_lock) =>
              bool_decide (overlap_start < best_start) ||
              bool_decide (overlap_start = best_start) && bool_decide (rg_start (rl_range lock) < rg_start (rl_range best_lock))
          | None => true
          end in
        if replace then Some (overlap_start, lock) else best
    end.
Definition find_lock_conflict (locks : list FileRecordLock) file owner kind range : option FileRecordLock :=
  snd <$> foldl (conflict_step file owner kind range) None locks.

(** The test of the loop of [apply_file_unlock]. *)
Definition unlock_hit (file : FileLockKey) (owner : FileLockOwner) (range : FileLockRange) (lock : FileRecordLock) : bool :=
  bool_decide (rl_file lock = file) && bool_decide (rl_owner lock = owner) && lock_ranges_overlap (rl_range lock) range.

(** The loop itself: what is left of a removed lock goes to the end of the table and is looked
    at again; [fuel] bounds the turns. *)
Fixpoint unlock_loop (fuel : nat) (file : FileLockKey) (owner : FileLockOwner) (range : FileLockRange)
    (locks : list FileRecordLock) (index : nat) (changed : bool) : list FileRecordLock * bool :=
  match fuel with
  | O => (locks, changed)
  | S fuel =>
      match locks !! index with
      | None => (locks, changed)
      | Some lock =>
          if unlock_hit file owner range lock then
            unlock_loop fuel file owner range
              (delete index locks ++ (with_range lock <$> subtract_lock_range (rl_range lock) range)) index true
          else unlock_loop fuel file owner range locks (S index) changed
      end
  end.
Definition apply_file_unlock (locks : list FileRecordLock) file owner range : list FileRecordLock * bool :=
  unlock_loop (S (3 * length locks)) file owner range locks 0 false.

(** The loop of [push_merged_file_lock] over the locks from an index on. *)
Fixpoint lock_merge_loop (locks : list FileRecordLock) (new_lock : FileRecordLock) : list FileRecordLock * FileRecordLock :=
  match locks with
  | [] => ([], new_lock)
  | lock :: locks =>
      if bool_decide (rl_file lock = rl_file new_lock) && bool_decide (rl_owner lock = rl_owner new_lock) &&
         bool_decide (rl_kind lock = rl_kind new_lock) && lock_ranges_touch_or_overlap (rl_range lock) (rl_range new_lock)
      then lock_merge_loop locks (with_range new_lock (merge_lock_ranges (rl_range new_lock) (rl_range lock)))
      else let '(locks, new_lock) := lock_merge_loop locks new_lock in (lock :: locks, new_lock)
  end.
Definition push_merged_file_lock (locks : list FileRecordLock) (new_lock : FileRecordLock) : list FileRecordLock :=
  let '(locks, new_lock) := lock_merge_loop locks new_lock in locks ++ [new_lock].

(** [apply_file_lock]: the owner of a conflicting lock, or none and the new table. *)
Definition apply_file_lock (s : LockTables) file owner (pid : Z) (kind : option FileLockKind) range
    : LockTables * result (option FileLockOwner) SysErrNo :=
  let locks := file_record_locks s in
  match kind with
  | Some kind =>
      match find_lock_conflict locks file owner kind range with
      | Some conflict => (s, Ok (Some (rl_owner conflict)))
      | None =>
          let locks := (apply_file_unlock locks file owner range).1 in
          (set_record_locks s (push_merged_file_lock locks (mkRecordLock file owner pid kind range)), Ok None)
      end
  | None => (set_record_locks s (apply_file_unlock locks file owner range).1, Ok None)
  end.

(** ** Waiting owners *)

Definition remove_lock_waiter (s : LockTables) (owner : FileLockOwner) : LockTables :=
  set_waiters s (filter (λ w, wt_waiter w ≠ owner) (file_lock_waiters s)).

(** [iter_mut().find(..)] and the assignment, or [push]. *)
Fixpoint set_waiting (ws : list FileLockWaiter) (waiter waiting_for : FileLockOwner) : list FileLockWaiter :=
  match ws with
  | [] => [mkWaiter waiter waiting_for]
  | w :: ws =>
      if bool_decide (wt_waiter w = waiter) then mkWaiter waiter waiting_for :: ws
      else w :: set_waiting ws waiter waiting_for
  end.
Definition set_lock_waiter (s : LockTables) waiter waiting_for : LockTables :=
  set_waiters s (set_waiting (file_lock_waiters s) waiter waiting_for).

(** [iter().find(..).map(..)] *)
Fixpoint waiting_for (ws : list FileLockWaiter) (owner : FileLockOwner) : option FileLockOwner :=
  match ws with
  | [] => None
  | w :: ws => if bool_decide (wt_waiter w = owner) then Some (wt_waiting_for w) else waiting_for ws owner
  end.

(** The loop [while depth <= waiters.len()] *)
Fixpoint deadlock_loop (turns : nat) (ws : list FileLockWaiter) (waiter owner : FileLockOwner) : bool :=
  match turns with
  | O => false
  | S turns =>
      if bool_decide (owner = waiter) then true
      else match waiting_for ws owner with
           | None => false
           | Some next => deadlock_loop turns ws waiter next
           end
  end.
Definition file_lock_would_deadlock (s : LockTables) (waiter target : FileLockOwner) : bool :=
  if bool_decide (waiter = target) then true
  else deadlock_loop (S (length (file_lock_waiters s))) (file_lock_waiters s) waiter target.

(** ** Releasing *)

Definition wake_file_lock_waiters (s : LockTables) (file : FileLockKey) : LockTables :=
  mkLocks (file_record_locks s) (file_lock_waiters s) (whole_file_locks s) (lock_wakes s ++ [file_lock_wait_key file]).

(** [Vec::retain] with a predicate of what goes: what stays and what goes. *)
Definition drop_if {A} (p : A → bool) (l : list A) : list A := filter (λ x, p x = false) l.
Definition dropped {A} (p : A → bool) (l : list A) : list A := filter (λ x, p x = true) l.

Definition release_posix_locks_for_file (s : LockTables) (pid : Z) (file : FileLockKey) : LockTables :=
  let p lock := bool_decide (rl_file lock = file) && bool_decide (rl_owner lock = Posix pid) in
  let changed := negb (bool_decide (dropped p (file_record_locks s) = [])) in
  let s := remove_lock_waiter (set_record_locks s (drop_if p (file_record_locks s))) (Posix pid) in
  if changed then wake_file_lock_waiters s file else s.

Definition release_file_locks_for_pid (s : LockTables) (pid : Z) : LockTables :=
  let p lock := bool_decide (rl_owner lock = Posix pid) in
  let files := rl_file <$> dropped p (file_record_locks s) in
  let s := remove_lock_waiter (set_record_locks s (drop_if p (file_record_locks s))) (Posix pid) in
  foldl wake_file_lock_waiters s files.

(** [if !files.iter().any(..) { files.push(..) }] *)
Definition push_unique {A} `{EqDecision A} (l : list A) (x : A) : list A := if bool_decide (x ∈ l) then l else l ++ [x].

Definition release_file_locks_for_ofd (s : LockTables) (id : Z) : LockTables :=
  let p lock := bool_decide (rl_owner lock = Ofd id) in
  let q lock := bool_decide (wl_owner lock = id) in
  let files := foldl push_unique [] (rl_file <$> dropped p (file_record_locks s)) in
  let files := foldl push_unique files (wl_file <$> dropped q (whole_file_locks s)) in
  let s := set_record_locks s (drop_if p (file_record_locks s)) in
  let s := set_whole_locks s (drop_if q (whole_file_locks s)) in
  foldl wake_file_lock_waiters (remove_lock_waiter s (Ofd id)) files.

Definition release_posix_locks_for_closed_files (mem_inode : string → option Z) (s : LockTables) (pid : Z)
    (files : list FileDescriptor) : LockTables :=
  let keys := foldl push_unique [] (omap (fd_lock_key mem_inode) files) in
  foldl (λ s key, release_posix_locks_for_file s pid key) s keys.

(** ** Whole-file locks *)

Definition whole_file_lock_conflicts (locks : list WholeFileLock) (file : FileLockKey) (owner : Z) (kind : FileLockKind) : bool :=
  existsb (λ lock, bool_decide (wl_file lock = file) && negb (bool_decide (wl_owner lock = owner)) &&
                   lock_kinds_conflict (wl_kind lock) kind) locks.
Definition own_whole_lock (file : FileLockKey) (owner : Z) (lock : WholeFileLock) : bool :=
  bool_decide (wl_file lock = file) && bool_decide (wl_owner lock = owner).

(** [flock] with [LOCK_UN] *)
Definition whole_file_unlock (s : LockTables) file owner : LockTables :=
  let p := own_whole_lock file owner in
  let changed := negb (bool_decide (dropped p (whole_file_locks s) = [])) in
  let s := set_whole_locks s (drop_if p (whole_file_locks s)) in
  if changed then wake_file_lock_waiters s file else s.

(** A turn of the loop of [sys_flock]: whether the lock was taken. *)
Definition whole_file_lock_turn (s : LockTables) file owner kind (released_previous : bool) : LockTables * bool :=
  let locks := whole_file_locks s in
  let locks := if released_previous then locks else drop_if (own_whole_lock file owner) locks in
  if whole_file_lock_conflicts locks file owner kind then (set_whole_locks s locks, false)
  else (set_whole_locks s (locks ++ [mkWholeLock file owner kind]), true).

(** ** Ranges as sets of bytes *)

#[export] Instance range_elem_of : ElemOf Z FileLockRange :=
  λ b r, rg_start r ≤ b ∧ match rg_end r with Some e => b < e | None => True end.

#[export] Instance range_elem_of_dec (b : Z) (r : FileLockRange) : Decision (b ∈ r).
Proof. unfold elem_of, range_elem_of. destruct (rg_end r); apply _. Defined.

(** Decides facts about concrete operations on ranges. *)
Ltac range_solve :=
  unfold elem_of, range_elem_of, lock_ranges_overlap, lock_ranges_touch_or_overlap, lock_range_nonempty, merge_lock_ranges,
    end_or in *;
  repeat match goal with r : FileLockRange |- _ => destruct r as [? [?|]] end;
  simplify_eq/=; cbn [rg_start rg_end negb andb] in *;
  repeat (case_bool_decide; cbn [negb andb] in * ); try discriminate; try done; intuition lia.

Lemma overlap_common b l r : b ∈ l → b ∈ r → lock_ranges_overlap l r = true.
Proof. intros Hl Hr. range_solve. Qed.

Lemma overlap_sym l r : lock_ranges_overlap l r = lock_ranges_overlap r l.
Proof. unfold lock_ranges_overlap. apply andb_comm. Qed.

Lemma touch_sym l r : lock_ranges_touch_or_overlap l r = lock_ranges_touch_or_overlap r l.
Proof. unfold lock_ranges_touch_or_overlap. apply andb_comm. Qed.

(** Two ranges that overlap share the first byte at which both have begun. *)
Lemma overlap_start_common l r s :
  lock_range_nonempty l = true → lock_range_nonempty r = true → lock_overlap_start l r = Some s →
  s ∈ l ∧ s ∈ r ∧ ∀ b, b ∈ l → b ∈ r → s ≤ b.
Proof.
  unfold lock_overlap_start. intros Hl Hr. destruct (lock_ranges_overlap l r) eqn:E; [|done]. intros [= <-].
  range_solve.
Qed.

Lemma overlap_start_overlaps l r : is_Some (lock_overlap_start l r) ↔ lock_ranges_overlap l r = true.
Proof. unfold lock_overlap_start. destruct (lock_ranges_overlap l r); split; intros H; try done; by destruct H. Qed.

(** Merging loses and adds no byte. *)
Lemma merge_bytes b l r :
  lock_ranges_touch_or_overlap l r = true → b ∈ merge_lock_ranges l r ↔ b ∈ l ∨ b ∈ r.
Proof. intros Ht. range_solve. Qed.

Lemma subtract_cases old cut p :
  p ∈ subtract_lock_range old cut ↔
  (rg_start old < rg_start cut ∧ p = mkRange (rg_start old) (Some (rg_start cut))) ∨
  (∃ c, rg_end cut = Some c ∧ lock_range_nonempty (mkRange (Z.max c (rg_start old)) (rg_end old)) = true ∧
        p = mkRange (Z.max c (rg_start old)) (rg_end old)).
Proof.
  unfold subtract_lock_range. rewrite elem_of_app. apply Morphisms_Prop.or_iff_morphism.
  - unfold lock_range_nonempty. cbn [rg_start rg_end end_or]. repeat case_bool_decide; try lia;
      rewrite ?elem_of_nil, ?list_elem_of_singleton; naive_solver.
  - destruct (rg_end cut) as [c|]; [|rewrite elem_of_nil; naive_solver].
    destruct (end_or true _ (rg_end old)) eqn:E1.
    + destruct (lock_range_nonempty _) eqn:E2; rewrite ?elem_of_nil, ?list_elem_of_singleton; split;
        [by intros ->; exists c|by intros (c'&[= <-]&_&->)|done|intros (c'&[= <-]&?&_); congruence].
    + rewrite elem_of_nil. split; [done|]. intros (c'&[= <-]&Hn&_). unfold lock_range_nonempty in Hn.
      destruct (rg_end old); [|done]. cbn in *. reflect_bools. lia.
Qed.

(** Subtracting a range that overlaps leaves the bytes outside of it, in pieces that have
    bytes and do not overlap it. *)
Lemma subtract_bytes b old cut :
  lock_ranges_overlap old cut = true →
  (∃ p, p ∈ subtract_lock_range old cut ∧ b ∈ p) ↔ b ∈ old ∧ b ∉ cut.
Proof.
  intros Ho. setoid_rewrite subtract_cases. split.
  - intros (p & [[Hs ->]|(c&Hc&_&->)] & Hb); range_solve.
  - intros [Hb Hn]. destruct (decide (b < rg_start cut)) as [Hlt|Hge].
    + exists (mkRange (rg_start old) (Some (rg_start cut))). split; [left; split; [|done]|]; range_solve.
    + destruct (rg_end cut) as [c|] eqn:Ec; [|destruct Hn; unfold elem_of, range_elem_of in *; rewrite Ec; lia].
      assert (c ≤ b) by (destruct (decide (c ≤ b)); [done|]; destruct Hn; unfold elem_of, range_elem_of; rewrite Ec; lia).
      exists (mkRange (Z.max c (rg_start old)) (rg_end old)). split; [right; exists c; split; [done|split; [|done]]|]; range_solve.
Qed.

Lemma subtract_pieces old cut p :
  p ∈ subtract_lock_range old cut → lock_range_nonempty p = true ∧ lock_ranges_overlap p cut = false.
Proof.
  rewrite subtract_cases. intros [[Hs ->]|(c&Hc&Hn&->)].
  - range_solve.
  - split; [done|]. unfold lock_ranges_overlap. rewrite Hc. cbn. rewrite (bool_decide_eq_true_2 (c ≤ _)) by lia.
    by rewrite andb_false_r.
Qed.

(** ** Unlocking *)

Section unlock.
Context (file : FileLockKey) (owner : FileLockOwner) (range : FileLockRange).
Abbreviation hit := (unlock_hit file owner range).

Definition remainders (l : FileRecordLock) : list FileRecordLock :=
  with_range l <$> subtract_lock_range (rl_range l) range.

(** The turns the loop still needs for [rest]. *)
Definition unlock_turns (rest : list FileRecordLock) : nat := foldr (λ l n, ((if hit l then 3 else 1) + n)%nat) 0%nat rest.

Lemma unlock_hit_spec l :
  hit l = true ↔ rl_file l = file ∧ rl_owner l = owner ∧ lock_ranges_overlap (rl_range l) range = true.
Proof. unfold unlock_hit. rewrite !andb_true_iff, !bool_decide_eq_true. tauto. Qed.

Lemma remainders_miss l x : x ∈ remainders l → hit x = false.
Proof.
  unfold remainders. intros (p&->&Hp)%list_elem_of_fmap. apply subtract_pieces in Hp as [_ Hp].
  unfold unlock_hit. cbn. by rewrite Hp, andb_false_r.
Qed.

Lemma drop_if_all {A} (p : A → bool) l : (∀ x, x ∈ l → p x = false) → drop_if p l = l ∧ dropped p l = [].
Proof.
  intros H. unfold drop_if, dropped. induction l as [|x l IH]; [done|]. rewrite !filter_cons, (H x) by left.
  destruct IH as [-> ->]; [intros; apply H; by right|]. by rewrite decide_True, decide_False.
Qed.

Lemma elem_of_drop_if {A} (p : A → bool) x l : x ∈ drop_if p l ↔ p x = false ∧ x ∈ l.
Proof. unfold drop_if, dropped. by rewrite list_elem_of_filter. Qed.
Lemma elem_of_dropped {A} (p : A → bool) x l : x ∈ dropped p l ↔ p x = true ∧ x ∈ l.
Proof. unfold drop_if, dropped. by rewrite list_elem_of_filter. Qed.

Lemma drop_if_cons {A} (p : A → bool) x l : drop_if p (x :: l) = if p x then drop_if p l else x :: drop_if p l.
Proof. unfold drop_if. rewrite filter_cons. by destruct (p x), (decide _). Qed.
Lemma dropped_cons {A} (p : A → bool) x l : dropped p (x :: l) = if p x then x :: dropped p l else dropped p l.
Proof. unfold dropped. rewrite filter_cons. by destruct (p x), (decide _). Qed.

Lemma unlock_turns_app l1 l2 : unlock_turns (l1 ++ l2) = (unlock_turns l1 + unlock_turns l2)%nat.
Proof. unfold unlock_turns. induction l1 as [|x l1 IH]; simpl; [done|]. rewrite IH. lia. Qed.

Lemma unlock_turns_remainders l : (unlock_turns (remainders l) ≤ 2)%nat.
Proof.
  assert (H : ∀ xs, (∀ x, x ∈ xs → hit x = false) → unlock_turns xs = length xs).
  { induction xs as [|x xs IH]; intros Hx; [done|]. unfold unlock_turns in *. simpl. rewrite Hx, IH; [done| |by left].
    intros. apply Hx. by right. }
  rewrite H by apply remainders_miss. unfold remainders, subtract_lock_range. rewrite length_fmap, length_app.
  repeat (cases_goal; simpl; try lia).
Qed.

(** The loop ends and computes this: the locks it does not touch, in their order, and then
    what is left of the others. *)
Lemma unlock_loop_spec fuel pre rest changed :
  (unlock_turns rest ≤ fuel)%nat →
  unlock_loop fuel file owner range (pre ++ rest) (length pre) changed =
    (pre ++ drop_if hit rest ++ (dropped hit rest ≫= remainders), changed || negb (bool_decide (dropped hit rest = []))).
Proof.
  revert pre rest changed. induction fuel as [|fuel IH]; intros pre [|l rest] changed Hf.
  1, 3: cbn; rewrite ?lookup_app_r, ?Nat.sub_diag by lia; cbn; by rewrite ?app_nil_r, orb_false_r.
  - unfold unlock_turns in Hf. simpl in Hf. destruct (hit l); lia.
  - cbn [unlock_loop]. rewrite list_lookup_middle by done. rewrite drop_if_cons, dropped_cons.
    unfold unlock_turns in Hf. simpl in Hf. fold (unlock_turns rest) in Hf. destruct (hit l) eqn:Eh.
    + rewrite delete_middle, <-(assoc_L (++)). fold (remainders l). rewrite IH.
      2: { rewrite unlock_turns_app. pose proof (unlock_turns_remainders l). lia. }
      destruct (drop_if_all hit (remainders l) (remainders_miss l)) as [E1 E2].
      unfold drop_if, dropped in *. rewrite !filter_app, E1, E2, app_nil_r. cbn. rewrite <-(assoc_L (++)). f_equal.
      by rewrite orb_true_r.
    + change (pre ++ l :: rest) with (pre ++ [l] ++ rest). rewrite (assoc_L (++)).
      replace (S (length pre)) with (length (pre ++ [l])) by (rewrite length_app; simpl; lia). rewrite IH by lia.
      by rewrite <-(assoc_L (++)).
Qed.

Lemma apply_file_unlock_eq locks :
  apply_file_unlock locks file owner range =
    (drop_if hit locks ++ (dropped hit locks ≫= remainders), negb (bool_decide (dropped hit locks = []))).
Proof.
  unfold apply_file_unlock. apply (unlock_loop_spec _ [] locks false).
  assert (unlock_turns locks ≤ 3 * length locks)%nat; [|lia].
  unfold unlock_turns. induction locks as [|l locks IH]; simpl; [lia|]. destruct (hit l); lia.
Qed.

Lemma elem_of_unlocked locks x :
  x ∈ (apply_file_unlock locks file owner range).1 ↔
    x ∈ locks ∧ hit x = false ∨
    ∃ l p, l ∈ locks ∧ hit l = true ∧ p ∈ subtract_lock_range (rl_range l) range ∧ x = with_range l p.
Proof.
  rewrite apply_file_unlock_eq. cbn. unfold drop_if, dropped, remainders. rewrite elem_of_app, list_elem_of_filter, list_elem_of_bind.
  setoid_rewrite list_elem_of_fmap. setoid_rewrite list_elem_of_filter. naive_solver.
Qed.
End unlock.

(** Owner [owner] holds a lock of this kind on byte [b]. *)
Definition holds (locks : list FileRecordLock) (file : FileLockKey) (owner : FileLockOwner) (kind : FileLockKind) (b : Z) : Prop :=
  ∃ l, l ∈ locks ∧ rl_file l = file ∧ rl_owner l = owner ∧ rl_kind l = kind ∧ b ∈ rl_range l.

(** Unlocking takes the bytes of the range from the owner, and nothing else from anyone. *)
Lemma unlock_holds locks file owner range f o k b :
  holds (apply_file_unlock locks file owner range).1 f o k b ↔
    holds locks f o k b ∧ ¬ (f = file ∧ o = owner ∧ b ∈ range).
Proof.
  unfold holds. setoid_rewrite elem_of_unlocked. split.
  - intros (x & [[Hx Hm]|(l&p&Hl&(E1&E2&E3)%unlock_hit_spec&Hp&->)] & Hf & Ho & Hk & Hb).
    + split; [by exists x|]. intros (->&->&Hr). apply not_true_iff_false in Hm. apply Hm, unlock_hit_spec.
      split_and!; [done..|]. by eapply overlap_common.
    + cbn in *. destruct (proj1 (subtract_bytes b (rl_range l) range E3)) as [Hb1 Hb2]; [by exists p|].
      split; [by exists l|]. by intros (_&_&?).
  - intros [(l&Hl&Hf&Ho&Hk&Hb) Hn]. destruct (unlock_hit file owner range l) eqn:Eh.
    + pose proof Eh as (E1&E2&E3)%unlock_hit_spec.
      destruct (proj2 (subtract_bytes b (rl_range l) range E3)) as (p&Hp&Hbp); [split; [done|naive_solver]|].
      exists (with_range l p). split; [|done]. right. by exists l, p.
    + exists l. split; [by left|done].
Qed.

(** ** Merging *)

(** The test of the loop of [push_merged_file_lock]. *)
Definition merges (lock new_lock : FileRecordLock) : bool :=
  bool_decide (rl_file lock = rl_file new_lock) && bool_decide (rl_owner lock = rl_owner new_lock) &&
  bool_decide (rl_kind lock = rl_kind new_lock) && lock_ranges_touch_or_overlap (rl_range lock) (rl_range new_lock).

Lemma merges_spec l n :
  merges l n = true ↔ rl_file l = rl_file n ∧ rl_owner l = rl_owner n ∧ rl_kind l = rl_kind n ∧
    lock_ranges_touch_or_overlap (rl_range l) (rl_range n) = true.
Proof. unfold merges. rewrite !andb_true_iff, !bool_decide_eq_true. tauto. Qed.

Definition merged_with (n l : FileRecordLock) : FileRecordLock := with_range n (merge_lock_ranges (rl_range n) (rl_range l)).

Lemma lock_merge_loop_cons l locks n :
  lock_merge_loop (l :: locks) n =
    if merges l n then lock_merge_loop locks (merged_with n l)
    else (l :: (lock_merge_loop locks n).1, (lock_merge_loop locks n).2).
Proof. cbn. unfold merges. cases_goal; [done|]. by destruct (lock_merge_loop locks n). Qed.

Lemma push_merged_eq locks n : push_merged_file_lock locks n = (lock_merge_loop locks n).1 ++ [(lock_merge_loop locks n).2].
Proof. unfold push_merged_file_lock. by destruct (lock_merge_loop locks n). Qed.

Lemma holds_cons l locks f o k b :
  holds (l :: locks) f o k b ↔ (rl_file l = f ∧ rl_owner l = o ∧ rl_kind l = k ∧ b ∈ rl_range l) ∨ holds locks f o k b.
Proof. unfold holds. setoid_rewrite elem_of_cons. naive_solver. Qed.

Lemma holds_app l1 l2 f o k b : holds (l1 ++ l2) f o k b ↔ holds l1 f o k b ∨ holds l2 f o k b.
Proof. unfold holds. setoid_rewrite elem_of_app. naive_solver. Qed.

Lemma holds_nil f o k b : ¬ holds [] f o k b.
Proof. intros (l&Hl&_). by apply elem_of_nil in Hl. Qed.

(** Merging adds the bytes of the new lock and no others. *)
Lemma push_merged_holds locks n f o k b :
  holds (push_merged_file_lock locks n) f o k b ↔
    holds locks f o k b ∨ (rl_file n = f ∧ rl_owner n = o ∧ rl_kind n = k ∧ b ∈ rl_range n).
Proof.
  rewrite push_merged_eq. revert n. induction locks as [|l locks IH]; intros n.
  - cbn. rewrite holds_cons. pose proof (holds_nil f o k b). tauto.
  - rewrite lock_merge_loop_cons, holds_cons. destruct (merges l n) eqn:E.
    + apply merges_spec in E as (Ef&Eo&Ek&Et). rewrite touch_sym in Et. rewrite IH. cbn. rewrite (merge_bytes b _ _ Et), Ef, Eo, Ek. tauto.
    + cbn. rewrite holds_cons, IH. tauto.
Qed.

(** ** The search for a conflict *)

(** Lock [l] stands in the way of the request. *)
Definition in_the_way (file : FileLockKey) (owner : FileLockOwner) (kind : FileLockKind) (range : FileLockRange)
    (l : FileRecordLock) : Prop :=
  rl_file l = file ∧ rl_owner l ≠ owner ∧ lock_kinds_conflict (rl_kind l) kind = true ∧
  lock_ranges_overlap (rl_range l) range = true.

Definition overlap_at (range : FileLockRange) (l : FileRecordLock) : Z := Z.max (rg_start (rl_range l)) (rg_start range).

(** [l] begins to overlap the range no later than [m], and if at the same byte begins no later. *)
Definition no_later (range : FileLockRange) (l m : FileRecordLock) : Prop :=
  overlap_at range l < overlap_at range m ∨
  overlap_at range l = overlap_at range m ∧ rg_start (rl_range l) ≤ rg_start (rl_range m).

Definition first_conflict file owner kind range (locks : list FileRecordLock) (l : FileRecordLock) : Prop :=
  l ∈ locks ∧ in_the_way file owner kind range l ∧ ∀ m, m ∈ locks → in_the_way file owner kind range m → no_later range l m.

Lemma first_conflict_snoc file owner kind range locks x l :
  (l ∈ locks ∨ l = x) → in_the_way file owner kind range l →
  (∀ m, m ∈ locks → in_the_way file owner kind range m → no_later range l m) →
  (in_the_way file owner kind range x → no_later range l x) →
  first_conflict file owner kind range (locks ++ [x]) l.
Proof.
  intros Hl Hw Hf Hx. unfold first_conflict. setoid_rewrite elem_of_app. setoid_rewrite list_elem_of_singleton.
  split; [done|]. split; [done|]. intros m [Hm| ->]; auto.
Qed.

Lemma find_lock_conflict_spec locks file owner kind range :
  match find_lock_conflict locks file owner kind range with
  | Some l => first_conflict file owner kind range locks l
  | None => ∀ l, l ∈ locks → ¬ in_the_way file owner kind range l
  end.
Proof.
  unfold find_lock_conflict.
  assert (H : match foldl (conflict_step file owner kind range) None locks with
    | Some (s, l) => s = overlap_at range l ∧ first_conflict file owner kind range locks l
    | None => ∀ l, l ∈ locks → ¬ in_the_way file owner kind range l
    end); [|destruct (foldl _ None locks) as [[s l]|]; [apply H|done]].
  induction locks as [|x locks IH] using rev_ind; [by intros l ?%elem_of_nil|].
  rewrite foldl_app. cbn [foldl]. set (best := foldl _ None locks) in *. clearbody best. unfold conflict_step.
  assert (Hkeep : ¬ in_the_way file owner kind range x → match best with
    | Some (s, l) => s = overlap_at range l ∧ first_conflict file owner kind range (locks ++ [x]) l
    | None => ∀ l, l ∈ locks ++ [x] → ¬ in_the_way file owner kind range l
    end).
  { intros Hn. destruct best as [[s l]|].
    - destruct IH as (->&Hl&Hw&Hf). split; [done|]. apply first_conflict_snoc; tauto.
    - intros l [Hl|Hl]%elem_of_app; [by apply IH|]. by apply list_elem_of_singleton in Hl as ->. }
  destruct (_ || _) eqn:E1.
  { apply Hkeep. intros (H1&H2&H3&_). rewrite !bool_decide_eq_false_2, H3 in E1 by tauto. done. }
  reflect_bools. assert (rl_file x = file) by (by destruct (decide (rl_file x = file))).
  unfold lock_overlap_start. destruct (lock_ranges_overlap (rl_range x) range) eqn:Eo.
  2: { apply Hkeep. intros (_&_&_&?). congruence. }
  assert (Hw : in_the_way file owner kind range x) by done. clear Hkeep. fold (overlap_at range x).
  destruct best as [[s l]|].
  - destruct IH as (->&Hl&Hwl&Hf). destruct (_ || _) eqn:Er; (split; [done|]); apply first_conflict_snoc; auto.
    + intros m Hm Hwm. specialize (Hf m Hm Hwm). unfold no_later in *.
      apply orb_true_iff in Er as [Er|[Er1 Er2]%andb_true_iff];
        [apply bool_decide_eq_true_1 in Er|apply bool_decide_eq_true_1 in Er1, Er2]; lia.
    + unfold no_later. lia.
    + intros _. apply orb_false_iff in Er as [Er1 Er2]. apply bool_decide_eq_false_1 in Er1. unfold no_later.
      apply andb_false_iff in Er2 as [Er2|Er2]; apply bool_decide_eq_false_1 in Er2; lia.
  - split; [done|]. apply first_conflict_snoc; [by right|done| |unfold no_later; lia]. intros m Hm Hwm. by destruct (IH m Hm).
Qed.

(** ** Well-formed tables *)

(** A range of 64-bit offsets that has bytes. *)
Definition range_ok (r : FileLockRange) : Prop :=
  is_usize (rg_start r) ∧ match rg_end r with Some e => rg_start r < e ≤ USIZE_MAX | None => True end.

Definition lock_ok (l : FileRecordLock) : Prop :=
  range_ok (rl_range l) ∧ ∀ pid, rl_owner l = Posix pid → rl_pid l = pid.

(** Two locks of one owner on one file share no byte, and when they are of one kind there are
    bytes between them. *)
Definition separated (l m : FileRecordLock) : Prop :=
  rl_file l = rl_file m → rl_owner l = rl_owner m →
  lock_ranges_overlap (rl_range l) (rl_range m) = false ∧
  (rl_kind l = rl_kind m → lock_ranges_touch_or_overlap (rl_range l) (rl_range m) = false).

Definition locks_wf (locks : list FileRecordLock) : Prop := Forall lock_ok locks ∧ StronglySorted separated locks.

#[export] Instance separated_sym : Symmetric separated.
Proof.
  intros l m H Hf Ho. rewrite overlap_sym, touch_sym. destruct H as [H1 H2]; [done..|].
  split; [done|]. intros Hk. by apply H2.
Qed.

Lemma range_ok_nonempty r : range_ok r → lock_range_nonempty r = true.
Proof. unfold range_ok, is_usize. intros H. range_solve. Qed.

Lemma merge_range_ok l r : range_ok l → range_ok r → range_ok (merge_lock_ranges l r).
Proof. unfold range_ok, is_usize. intros Hl Hr. range_solve. Qed.

(** [p] lies within [r]. *)
Definition within (p r : FileLockRange) : Prop :=
  rg_start r ≤ rg_start p ∧ match rg_end r, rg_end p with Some e, Some e' => e' ≤ e | Some _, None => False | None, _ => True end.

Lemma within_apart l p r :
  within p r → (lock_ranges_overlap l r = false → lock_ranges_overlap l p = false) ∧
  (lock_ranges_touch_or_overlap l r = false → lock_ranges_touch_or_overlap l p = false).
Proof. unfold within. intros H. split; intros Ho; range_solve. Qed.

Lemma subtract_within old cut p :
  range_ok old → lock_ranges_overlap old cut = true → range_ok cut → p ∈ subtract_lock_range old cut → within p old ∧ range_ok p.
Proof.
  rewrite subtract_cases. unfold range_ok, is_usize, within. intros Hok Ho Hc [[Hs ->]|(c&Hr&Hn&->)]; range_solve.
Qed.

Lemma separated_within l m p : separated l m → within p (rl_range m) → separated l (with_range m p).
Proof.
  intros H Hw Hf Ho. destruct (H Hf Ho) as [H1 H2]. destruct (within_apart (rl_range l) p (rl_range m) Hw) as [W1 W2]. cbn. auto.
Qed.

Lemma merged_apart l n m :
  lock_range_nonempty l = true → lock_ranges_touch_or_overlap n m = true →
  lock_ranges_overlap l n = false → lock_ranges_overlap l m = false →
  lock_ranges_overlap l (merge_lock_ranges n m) = false ∧
  (lock_ranges_touch_or_overlap l n = false → lock_ranges_touch_or_overlap l m = false →
   lock_ranges_touch_or_overlap l (merge_lock_ranges n m) = false).
Proof. intros Hl Ht H1 H2. split; [range_solve|intros H3 H4; range_solve]. Qed.

Lemma StronglySorted_perm {A} (R : relation A) `{!Symmetric R} l1 l2 : l1 ≡ₚ l2 → StronglySorted R l1 → StronglySorted R l2.
Proof.
  induction 1 as [|x l1 l2 Hp IH|x y l|l1 l2 l3 _ IH1 _ IH2]; intros Hs; [done| | |auto].
  - apply StronglySorted_cons in Hs as [Hx Hs]. apply StronglySorted_cons. split; [by rewrite <-Hp|auto].
  - apply StronglySorted_cons in Hs as [Hy Hs]. apply StronglySorted_cons in Hs as [Hx Hs].
    apply Forall_cons in Hy as [Hyx Hy]. apply StronglySorted_cons. split.
    + apply Forall_cons. split; [by symmetry|done].
    + apply StronglySorted_cons. by split.
Qed.

Lemma drop_if_perm {A} (p : A → bool) l : drop_if p l ++ dropped p l ≡ₚ l.
Proof.
  induction l as [|x l IH]; [done|]. rewrite drop_if_cons, dropped_cons. destruct (p x); [|cbn; by f_equiv].
  rewrite <-Permutation_middle. by f_equiv.
Qed.

Lemma remainders_separated range l : range_ok range → StronglySorted separated (remainders range l).
Proof.
  intros Hr. unfold remainders, subtract_lock_range. rewrite fmap_app. apply StronglySorted_app_2.
  - intros x y. case_bool_decide; [|by intros ?%elem_of_nil]. destruct (lock_range_nonempty _); [|by intros ?%elem_of_nil].
    cbn. intros ->%list_elem_of_singleton. unfold range_ok in Hr. destruct (rg_end range) as [c|]; [|by intros ?%elem_of_nil].
    destruct (end_or _ _ _); [|by intros ?%elem_of_nil]. destruct (lock_range_nonempty _); [|by intros ?%elem_of_nil].
    cbn. intros ->%list_elem_of_singleton _ _. unfold lock_ranges_overlap, lock_ranges_touch_or_overlap. cbn.
    rewrite !bool_decide_eq_true_2 by lia. done.
  - repeat case_match; repeat constructor.
  - repeat case_match; repeat constructor.
Qed.

(** What is left of separated locks is separated. *)
Lemma remainders_wf range locks :
  range_ok range → locks_wf locks → (∀ l, l ∈ locks → lock_ranges_overlap (rl_range l) range = true) →
  locks_wf (locks ≫= remainders range).
Proof.
  intros Hr [Hok Hs] Ho. assert (Hin : ∀ l x, l ∈ locks → x ∈ remainders range l →
    ∃ p, x = with_range l p ∧ within p (rl_range l) ∧ range_ok p).
  { intros l x Hl (p&->&Hp)%list_elem_of_fmap. exists p. split; [done|]. rewrite Forall_forall in Hok.
    apply (subtract_within _ range); [by apply Hok|by apply Ho|done|done]. }
  split.
  - apply Forall_forall. intros x (l&Hx&Hl)%list_elem_of_bind. destruct (Hin l x Hl Hx) as (p&->&Hw&Hp).
    rewrite Forall_forall in Hok. destruct (Hok l Hl). by split.
  - clear Hok. induction locks as [|l locks IH]; [constructor|]. apply StronglySorted_cons in Hs as [Hl Hs]. cbn.
    apply StronglySorted_app_2.
    + intros x y Hx (m&Hy&Hm)%list_elem_of_bind. destruct (Hin l x) as (p&->&Hwp&_); [by left|done|].
      destruct (Hin m y) as (q&->&Hwq&_); [by right|done|]. rewrite Forall_forall in Hl.
      symmetry. apply separated_within; [|done]. symmetry. apply separated_within; [by apply Hl|done].
    + by apply remainders_separated.
    + apply IH; [done|intros; apply Ho; by right|intros; apply Hin; [by right|done]].
Qed.

Lemma locks_wf_app l1 l2 :
  locks_wf (l1 ++ l2) ↔ locks_wf l1 ∧ locks_wf l2 ∧ ∀ l m, l ∈ l1 → m ∈ l2 → separated l m.
Proof. unfold locks_wf. rewrite Forall_app, StronglySorted_app. tauto. Qed.

Lemma locks_wf_perm l1 l2 : l1 ≡ₚ l2 → locks_wf l1 → locks_wf l2.
Proof. intros Hp [Hf Hs]. split; [by rewrite <-Hp|by apply (StronglySorted_perm separated l1)]. Qed.

Lemma locks_wf_drop p locks : locks_wf locks → locks_wf (drop_if p locks).
Proof. intros Hw. eapply locks_wf_perm in Hw; [|symmetry; apply (drop_if_perm p)]. by apply locks_wf_app in Hw as [? _]. Qed.

Lemma unlock_wf locks file owner range :
  range_ok range → locks_wf locks → locks_wf (apply_file_unlock locks file owner range).1.
Proof.
  intros Hr Hw. rewrite apply_file_unlock_eq. cbn. set (hit := unlock_hit file owner range).
  eapply locks_wf_perm in Hw; [|symmetry; apply (drop_if_perm hit)]. apply locks_wf_app in Hw as (H1&H2&H12).
  assert (Ho : ∀ l, l ∈ dropped hit locks → lock_ranges_overlap (rl_range l) range = true).
  { intros l (Hh&_)%elem_of_dropped. by apply unlock_hit_spec in Hh as (_&_&?). }
  apply locks_wf_app. split; [done|]. split; [by apply remainders_wf|].
  intros x y Hx (l&Hy&Hl)%list_elem_of_bind. apply list_elem_of_fmap in Hy as (p&->&Hp).
  apply separated_within; [by apply H12|]. destruct H2 as [Hok _]. rewrite Forall_forall in Hok.
  apply (subtract_within _ range); [by apply Hok|by apply Ho|done|done].
Qed.

Lemma unlock_clears locks file owner range l :
  l ∈ (apply_file_unlock locks file owner range).1 → rl_file l = file → rl_owner l = owner →
  lock_ranges_overlap (rl_range l) range = false.
Proof.
  intros [[_ Hm]|(m&p&_&_&Hp&->)]%elem_of_unlocked Hf Ho.
  - apply not_true_iff_false. intros Ht. apply not_true_iff_false in Hm. by apply Hm, unlock_hit_spec.
  - by apply subtract_pieces in Hp as [_ ?].
Qed.

(** A lock apart from the new one and from those it is merged with is apart from the result. *)
Lemma lock_merge_loop_apart l locks n :
  lock_ok l → separated l n → Forall (separated l) locks → separated l (lock_merge_loop locks n).2.
Proof.
  intros [Hl _]. revert n. induction locks as [|m locks IH]; intros n Hn Hs; [done|].
  apply Forall_cons in Hs as [Hm Hs]. rewrite lock_merge_loop_cons. destruct (merges m n) eqn:E; [|by apply IH].
  apply merges_spec in E as (Ef&Eo&Ek&Et). rewrite touch_sym in Et. apply IH; [|done]. intros Hf Ho. cbn in *.
  destruct (Hn Hf Ho) as [N1 N2], (Hm ltac:(congruence) ltac:(congruence)) as [M1 M2].
  destruct (merged_apart (rl_range l) (rl_range n) (rl_range m)) as [A1 A2]; [by apply range_ok_nonempty|done..|].
  split; [done|]. intros Hk. apply A2; [auto|apply M2; congruence].
Qed.

(** A new lock that overlaps none of its owner's leaves the table well-formed. *)
Lemma push_merged_wf locks n :
  locks_wf locks → lock_ok n →
  (∀ l, l ∈ locks → rl_file l = rl_file n → rl_owner l = rl_owner n → lock_ranges_overlap (rl_range l) (rl_range n) = false) →
  locks_wf (push_merged_file_lock locks n).
Proof.
  rewrite push_merged_eq. intros [Hok Hs]. revert n. induction locks as [|l locks IH]; intros n Hn Ho.
  - cbn. split; [by apply Forall_singleton|by repeat constructor].
  - apply Forall_cons in Hok as [Hl Hok]. apply StronglySorted_cons in Hs as [Hls Hs]. rewrite lock_merge_loop_cons.
    destruct (merges l n) eqn:E.
    + apply merges_spec in E as (Ef&Eo&Ek&Et). rewrite touch_sym in Et. apply IH; [done|done| |].
      * destruct Hn as [Hr Hp], Hl as [Hlr _]. split; [by apply merge_range_ok|exact Hp].
      * intros x Hx Hf Hxo. cbn in *. rewrite Forall_forall in Hok, Hls. destruct (Hok x Hx) as [Hxr _].
        destruct (Hls x Hx) as [M1 _]; [congruence..|]. rewrite overlap_sym in M1.
        apply merged_apart; [by apply range_ok_nonempty|done| |done]. apply Ho; [by right|done..].
    + cbn. assert (Hrest : locks_wf ((lock_merge_loop locks n).1 ++ [(lock_merge_loop locks n).2])) by (apply IH; [done..|intros; apply Ho; [by right|done..]]).
      destruct Hrest as [R1 R2]. split; [by constructor|]. apply StronglySorted_cons. split; [|done].
      apply Forall_app. split.
      * clear -Hls. revert n. induction locks as [|m locks IH]; intros n; [constructor|]. apply Forall_cons in Hls as [Hm Hls].
        rewrite lock_merge_loop_cons. destruct (merges m n); [by apply IH|]. constructor; [done|by apply IH].
      * apply Forall_singleton. apply lock_merge_loop_apart; [done| |done]. intros Hf Hxo. split; [apply Ho; [by left|done..]|].
        intros Hk. apply not_true_iff_false. intros Ht. apply not_true_iff_false in E. by apply E, merges_spec.
Qed.

(** [request] cannot be granted: another owner holds a conflicting lock on a byte of it. *)
Definition contended (locks : list FileRecordLock) file owner kind (range : FileLockRange) : Prop :=
  ∃ o k b, o ≠ owner ∧ lock_kinds_conflict k kind = true ∧ b ∈ range ∧ holds locks file o k b.

Lemma no_conflict_uncontended locks file owner kind range :
  find_lock_conflict locks file owner kind range = None → ¬ contended locks file owner kind range.
Proof.
  intros E. pose proof (find_lock_conflict_spec locks file owner kind range) as H. rewrite E in H.
  intros (o&k&b&Ho&Hk&Hb&l&Hl&<-&<-&<-&Hbl). apply (H l Hl). split; [done|]. split; [done|]. split; [done|]. by eapply overlap_common.
Qed.

(** A reported lock holds the first byte of the request that is contended. *)
Lemma conflict_contended locks file owner kind range l :
  locks_wf locks → range_ok range → find_lock_conflict locks file owner kind range = Some l →
  l ∈ locks ∧ rl_file l = file ∧ rl_owner l ≠ owner ∧ lock_kinds_conflict (rl_kind l) kind = true ∧
  ∃ b, b ∈ range ∧ b ∈ rl_range l ∧
    ∀ o k b', o ≠ owner → lock_kinds_conflict k kind = true → b' ∈ range → holds locks file o k b' → b ≤ b'.
Proof.
  intros [Hok _] Hr E. pose proof (find_lock_conflict_spec locks file owner kind range) as H. rewrite E in H.
  destruct H as (Hl&(Hf&Ho&Hk&Hov)&Hmin). rewrite Forall_forall in Hok. destruct (Hok l Hl) as [Hlr _].
  split_and!; [done..|]. exists (overlap_at range l).
  destruct (overlap_start_common (rl_range l) range (overlap_at range l)) as (B1&B2&_);
    [by apply range_ok_nonempty..|by unfold lock_overlap_start; rewrite Hov|].
  split_and!; [done|done|]. intros o k b' Ho' Hk' Hb' (m&Hm&<-&<-&<-&Hbm). destruct (Hok m Hm) as [Hmr _].
  assert (Hw : in_the_way (rl_file m) owner kind range m).
  { split; [done|]. split; [done|]. split; [done|]. by eapply overlap_common. }
  assert (Hle : overlap_at range m ≤ b') by (unfold overlap_at; unfold elem_of, range_elem_of in *; lia).
  destruct (Hmin m Hm) as [H|[H _]]; [by rewrite <-Hf; rewrite <-Hf in *|lia|lia].
Qed.

(** ** What a request does to the table *)

Lemma set_lock_holds locks file owner pid kind range f o k b :
  holds (push_merged_file_lock (apply_file_unlock locks file owner range).1 (mkRecordLock file owner pid kind range)) f o k b ↔
    (f = file ∧ o = owner ∧ b ∈ range ∧ k = kind) ∨ (¬ (f = file ∧ o = owner ∧ b ∈ range) ∧ holds locks f o k b).
Proof. rewrite push_merged_holds, unlock_holds. cbn. naive_solver. Qed.

(** The table a granted request leaves is well-formed. *)
Lemma set_lock_wf locks file owner pid kind range :
  locks_wf locks → range_ok range → (∀ p, owner = Posix p → pid = p) →
  locks_wf (push_merged_file_lock (apply_file_unlock locks file owner range).1 (mkRecordLock file owner pid kind range)).
Proof.
  intros Hw Hr Hp. apply push_merged_wf; [by apply unlock_wf|by split|]. intros l Hl Hf Ho. by eapply unlock_clears.
Qed.

Lemma find_lock_conflict_iff locks file owner kind range :
  locks_wf locks → range_ok range → is_Some (find_lock_conflict locks file owner kind range) ↔ contended locks file owner kind range.
Proof.
  intros Hw Hr. split.
  - intros [l E]. destruct (conflict_contended _ _ _ _ _ _ Hw Hr E) as (Hl&Hf&Ho&Hk&b&Hb&Hbl&_).
    exists (rl_owner l), (rl_kind l), b. split_and!; [done..|]. by exists l.
  - intros Hc. destruct (find_lock_conflict _ _ _ _ _) eqn:E; [done|]. by apply no_conflict_uncontended in E.
Qed.

(** C11: a request for a lock is refused exactly when another owner holds a conflicting lock on
    a byte of the range, and then changes nothing and names the owner of the lock that holds
    the first such byte.  Otherwise the owner holds the range, and only the range, in the
    requested kind, whatever it held there before; every other byte of every owner is as
    before.  Unlocking frees the bytes of the range and no others.  The table stays
    well-formed: the locks of an owner are disjoint, have bytes, and are joined where they
    touch. *)
Theorem apply_file_lock_correct s file owner pid kind range :
  locks_wf (file_record_locks s) → range_ok range → (∀ p, owner = Posix p → pid = p) →
  let '(s', r) := apply_file_lock s file owner pid kind range in
  locks_wf (file_record_locks s') ∧ s' = set_record_locks s (file_record_locks s') ∧
  match kind with
  | Some k =>
      (contended (file_record_locks s) file owner k range ∧ s' = s ∧
       ∃ l b, r = Ok (Some (rl_owner l)) ∧ l ∈ file_record_locks s ∧ rl_file l = file ∧ rl_owner l ≠ owner ∧
         lock_kinds_conflict (rl_kind l) k = true ∧ b ∈ range ∧ b ∈ rl_range l ∧
         ∀ o k' b', o ≠ owner → lock_kinds_conflict k' k = true → b' ∈ range → holds (file_record_locks s) file o k' b' → b ≤ b') ∨
      (¬ contended (file_record_locks s) file owner k range ∧ r = Ok None ∧
       ∀ f o k' b, holds (file_record_locks s') f o k' b ↔
         (f = file ∧ o = owner ∧ b ∈ range ∧ k' = k) ∨
         (¬ (f = file ∧ o = owner ∧ b ∈ range) ∧ holds (file_record_locks s) f o k' b))
  | None =>
      r = Ok None ∧
      ∀ f o k' b, holds (file_record_locks s') f o k' b ↔
        holds (file_record_locks s) f o k' b ∧ ¬ (f = file ∧ o = owner ∧ b ∈ range)
  end.
Proof.
  intros Hw Hr Hp. unfold apply_file_lock. destruct kind as [k|].
  - destruct (find_lock_conflict _ _ _ _ _) as [l|] eqn:E.
    + split; [done|]. split; [by destruct s|]. left. split; [by apply find_lock_conflict_iff; rewrite ?E|]. split; [done|].
      destruct (conflict_contended _ _ _ _ _ _ Hw Hr E) as (Hl&Hf&Ho&Hk&b&Hb&Hbl&Hmin). by exists l, b.
    + split; [by apply set_lock_wf|]. split; [done|]. right. split; [by apply no_conflict_uncontended|]. split; [done|].
      intros. apply set_lock_holds.
  - split; [by apply unlock_wf|]. split; [done|]. split; [done|]. intros. apply unlock_holds.
Qed.

(** ** Steps of the lock tables *)

(** One operation of a task on the tables, with ranges of the given sort. *)
Inductive lock_step (valid : FileLockRange → Prop) (s : LockTables) : LockTables → Prop :=
  | LsApply file owner pid kind range : valid range → (∀ p, owner = Posix p → pid = p) →
      lock_step valid s (apply_file_lock s file owner pid kind range).1
  | LsDropWaiter owner : lock_step valid s (remove_lock_waiter s owner)
  | LsWait waiter target : lock_step valid s (set_lock_waiter s waiter target)
  | LsWake file : lock_step valid s (wake_file_lock_waiters s file)
  | LsReleaseFile pid file : lock_step valid s (release_posix_locks_for_file s pid file)
  | LsReleasePid pid : lock_step valid s (release_file_locks_for_pid s pid)
  | LsReleaseOfd id : lock_step valid s (release_file_locks_for_ofd s id)
  | LsReleaseClosed ino pid files : lock_step valid s (release_posix_locks_for_closed_files ino s pid files)
  | LsFlockUn file owner : lock_step valid s (whole_file_unlock s file owner)
  | LsFlock file owner kind released : lock_step valid s (whole_file_lock_turn s file owner kind released).1.

Definition lock_reachable (valid : FileLockRange → Prop) (s : LockTables) : Prop := rtc (lock_step valid) no_locks s.

(** Two owners never hold conflicting locks on a byte, and one owner holds a byte in one kind. *)
Definition exclusive (locks : list FileRecordLock) : Prop :=
  ∀ f o1 o2 k1 k2 b, holds locks f o1 k1 b → holds locks f o2 k2 b →
    (o1 ≠ o2 → lock_kinds_conflict k1 k2 = false) ∧ (o1 = o2 → k1 = k2).
Definition whole_exclusive (locks : list WholeFileLock) : Prop :=
  ∀ l m, l ∈ locks → m ∈ locks → wl_file l = wl_file m → wl_owner l ≠ wl_owner m → lock_kinds_conflict (wl_kind l) (wl_kind m) = false.

Lemma kinds_conflict_sym k1 k2 : lock_kinds_conflict k1 k2 = lock_kinds_conflict k2 k1.
Proof. by destruct k1, k2. Qed.

(** Every step but [apply_file_lock] and [flock] only takes locks away. *)
Definition no_new_locks (s s' : LockTables) : Prop :=
  (∃ p, file_record_locks s' = drop_if p (file_record_locks s)) ∧ (∃ q, whole_file_locks s' = drop_if q (whole_file_locks s)).

Lemma drop_if_false {A} (l : list A) : drop_if (λ _, false) l = l.
Proof. by apply (drop_if_all (λ _, false)). Qed.

Lemma drop_if_twice {A} (p q : A → bool) l : drop_if q (drop_if p l) = drop_if (λ x, p x || q x) l.
Proof.
  induction l as [|x l IH]; [done|]. rewrite !drop_if_cons. destruct (p x); cbn [orb]; [done|]. rewrite drop_if_cons.
  by destruct (q x); rewrite IH.
Qed.

#[export] Instance no_new_locks_preorder : PreOrder no_new_locks.
Proof.
  split.
  - intros s. split; exists (λ _, false); by rewrite drop_if_false.
  - intros s1 s2 s3 [[p Hp] [q Hq]] [[p' Hp'] [q' Hq']]. split.
    + exists (λ x, p x || p' x). by rewrite Hp', Hp, drop_if_twice.
    + exists (λ x, q x || q' x). by rewrite Hq', Hq, drop_if_twice.
Qed.

Lemma wake_all_frame s files :
  file_record_locks (foldl wake_file_lock_waiters s files) = file_record_locks s ∧
  whole_file_locks (foldl wake_file_lock_waiters s files) = whole_file_locks s ∧
  lock_wakes (foldl wake_file_lock_waiters s files) = lock_wakes s ++ (file_lock_wait_key <$> files).
Proof.
  revert s. induction files as [|f files IH]; intros s; cbn; [by rewrite app_nil_r|].
  destruct (IH (wake_file_lock_waiters s f)) as (->&->&->). cbn. by rewrite <-(assoc_L (++)).
Qed.

Lemma release_file_takes s pid file : no_new_locks s (release_posix_locks_for_file s pid file).
Proof. unfold release_posix_locks_for_file. destruct (negb _); (split; [by eexists|exists (λ _, false); by rewrite drop_if_false]). Qed.

Lemma release_closed_takes ino s pid files : no_new_locks s (release_posix_locks_for_closed_files ino s pid files).
Proof.
  unfold release_posix_locks_for_closed_files. generalize (foldl push_unique [] (omap (fd_lock_key ino) files)). intros keys.
  revert s. induction keys as [|key keys IH]; intros s; cbn; [done|].
  etrans; [apply release_file_takes|apply IH].
Qed.

Lemma lock_step_cases valid s s' :
  lock_step valid s s' → no_new_locks s s' ∨
  (∃ file owner pid kind range, valid range ∧ (∀ p, owner = Posix p → pid = p) ∧ s' = (apply_file_lock s file owner pid kind range).1) ∨
  (∃ file owner kind released, s' = (whole_file_lock_turn s file owner kind released).1).
Proof.
  destruct 1; try (left; split; exists (λ _, false); by rewrite drop_if_false).
  - right. left. by do 5 eexists.
  - left. apply release_file_takes.
  - left. unfold release_file_locks_for_pid, no_new_locks. destruct (wake_all_frame (remove_lock_waiter (set_record_locks s
      (drop_if (λ lock, bool_decide (rl_owner lock = Posix pid)) (file_record_locks s))) (Posix pid))
      (rl_file <$> dropped (λ lock, bool_decide (rl_owner lock = Posix pid)) (file_record_locks s))) as (->&->&_).
    split; [by eexists|exists (λ _, false); by rewrite drop_if_false].
  - left. unfold release_file_locks_for_ofd, no_new_locks. rewrite (proj1 (wake_all_frame _ _)), (proj1 (proj2 (wake_all_frame _ _))).
    split; by eexists.
  - left. apply release_closed_takes.
  - left. unfold whole_file_unlock. destruct (negb _); (split; [exists (λ _, false); by rewrite drop_if_false|by eexists]).
  - right. right. by do 4 eexists.
Qed.

Lemma holds_drop p locks f o k b : holds (drop_if p locks) f o k b → holds locks f o k b.
Proof. intros (l&(_&Hl)%elem_of_drop_if&H). by exists l. Qed.

Lemma exclusive_drop p locks : exclusive locks → exclusive (drop_if p locks).
Proof. intros He f o1 o2 k1 k2 b H1%holds_drop H2%holds_drop. by eapply He. Qed.

Lemma exclusive_apply s file owner pid kind range :
  exclusive (file_record_locks s) → exclusive (file_record_locks (apply_file_lock s file owner pid kind range).1).
Proof.
  intros He. unfold apply_file_lock. destruct kind as [k|]; [destruct (find_lock_conflict _ _ _ _ _) eqn:E; [done|]|]; cbn.
  - pose proof (no_conflict_uncontended _ _ _ _ _ E) as Hn.
    assert (Hout : ∀ o k' b, o ≠ owner → b ∈ range → holds (file_record_locks s) file o k' b → lock_kinds_conflict k' k = false).
    { intros o k' b Ho Hb Hh. apply not_true_iff_false. intros Hc. apply Hn. by exists o, k', b. }
    intros f o1 o2 k1 k2 b H1 H2. apply set_lock_holds in H1, H2.
    destruct H1 as [(->&->&Hb&->)|[N1 H1]], H2 as [(E1&E2&Hb'&->)|[N2 H2]].
    + by subst.
    + split; [|by intros <-; destruct N2]. intros Hne. rewrite kinds_conflict_sym. by eapply Hout.
    + subst. split; [|by intros ->; destruct N1]. intros Hne. by eapply Hout.
    + by eapply He.
  - intros f o1 o2 k1 k2 b [H1 _]%unlock_holds [H2 _]%unlock_holds. by eapply He.
Qed.

Lemma whole_exclusive_turn s file owner kind released :
  whole_exclusive (whole_file_locks s) → whole_exclusive (whole_file_locks (whole_file_lock_turn s file owner kind released).1).
Proof.
  intros He. unfold whole_file_lock_turn. set (locks := if released then _ else _).
  assert (Hl : whole_exclusive locks).
  { unfold locks. destruct released; [done|]. intros l m [_ Hl]%elem_of_drop_if [_ Hm]%elem_of_drop_if. by apply He. }
  clearbody locks. destruct (whole_file_lock_conflicts locks file owner kind) eqn:E; [done|]. cbn.
  assert (Hn : ∀ l, l ∈ locks → wl_file l = file → wl_owner l ≠ owner → lock_kinds_conflict (wl_kind l) kind = false).
  { intros l Hin Hf Ho. apply not_true_iff_false. intros Hc. apply not_true_iff_false in E. apply E.
    unfold whole_file_lock_conflicts. apply existsb_exists. exists l. split; [by apply list_elem_of_In|].
    by rewrite bool_decide_eq_true_2, bool_decide_eq_false_2, Hc. }
  intros l m [Hl1|Hl1]%elem_of_app [Hm|Hm]%elem_of_app Hf Ho;
    repeat match goal with H : _ ∈ [_] |- _ => apply list_elem_of_singleton in H as -> end; cbn in *.
  - by apply Hl.
  - by apply Hn.
  - rewrite kinds_conflict_sym. apply Hn; [done|by symmetry|congruence].
  - done.
Qed.

(** C10: whatever calls the tasks make, on whatever ranges, no two owners ever hold locks that
    conflict on a byte of a file, an owner holds each byte in at most one kind, and no two open
    files ever hold conflicting whole-file locks. *)
Theorem locks_never_conflict s :
  lock_reachable (λ _, True) s → exclusive (file_record_locks s) ∧ whole_exclusive (whole_file_locks s).
Proof.
  unfold lock_reachable. revert s. apply (rtc_ind_r (λ s, exclusive (file_record_locks s) ∧ whole_exclusive (whole_file_locks s)) no_locks); [|intros s s' _ Hs [IH1 IH2]].
  - split; [|by intros l m Hl%elem_of_nil]. intros f o1 o2 k1 k2 b []%holds_nil.
  - apply lock_step_cases in Hs as [[[p ->] [q ->]]|[(file&owner&pid&kind&range&_&_&->)|(file&owner&kind&released&->)]].
    + split; [by apply exclusive_drop|]. intros l m [_ Hl]%elem_of_drop_if [_ Hm]%elem_of_drop_if. by apply IH2.
    + split; [by apply exclusive_apply|]. unfold apply_file_lock. by repeat case_match.
    + split; [|by apply whole_exclusive_turn]. unfold whole_file_lock_turn. by repeat case_match.
Qed.

(** C12: as long as no call asks for a range that is empty or leaves 64 bits, every reachable
    table of byte-range locks is well-formed: ranges of 64-bit offsets with bytes in them, a
    process's lock under its own id, and the locks of one owner on one file disjoint, and
    apart when of one kind. *)
Theorem lock_table_well_formed s : lock_reachable range_ok s → locks_wf (file_record_locks s).
Proof.
  unfold lock_reachable. revert s.
  apply (rtc_ind_r (λ s, locks_wf (file_record_locks s)) no_locks); [by repeat constructor|intros s s' _ Hs IH].
  apply lock_step_cases in Hs as [[[p ->] _]|[(file&owner&pid&kind&range&Hr&Hp&->)|(file&owner&kind&released&->)]].
  - by apply locks_wf_drop.
  - unfold apply_file_lock. destruct kind as [k|]; [destruct (find_lock_conflict _ _ _ _ _); [done|by apply set_lock_wf]|by apply unlock_wf].
  - unfold whole_file_lock_turn. by repeat case_match.
Qed.

(** ** Deadlocks *)

(** [o] waits for [o']. *)
Definition waits (ws : list FileLockWaiter) (o o' : FileLockOwner) : Prop := waiting_for ws o = Some o'.
Definition deadlock_free (ws : list FileLockWaiter) : Prop := ∀ o, ¬ tc (waits ws) o o.

(** The owner reached after [n] hops. *)
Definition hop (ws : list FileLockWaiter) (n : nat) (o : FileLockOwner) : option FileLockOwner :=
  Nat.iter n (λ x, x ≫= waiting_for ws) (Some o).

Lemma no_hops ws n : Nat.iter n (λ x, x ≫= waiting_for ws) None = None.
Proof. induction n as [|n IH]; [done|]. by rewrite Nat.iter_succ, IH. Qed.

Lemma hop_add ws n m o o' : hop ws m o = Some o' → hop ws (n + m) o = hop ws n o'.
Proof. unfold hop. intros H. by rewrite Nat.iter_add, H. Qed.

Lemma hop_rtc ws o o' : rtc (waits ws) o o' ↔ ∃ n, hop ws n o = Some o'.
Proof.
  split.
  - intros H. induction H as [o|o1 o2 o3 H12 _ [n IH]]; [by exists 0%nat|]. exists (n + 1)%nat. by rewrite (hop_add ws n 1 o1 o2).
  - intros [n H]. revert o H. induction n as [|n IH]; intros o H; [by injection H as ->|].
    rewrite <-Nat.add_1_r in H. destruct (waiting_for ws o) as [o1|] eqn:E.
    + rewrite (hop_add ws n 1 o o1) in H by done. eapply rtc_l; [exact E|]. by apply IH.
    + unfold hop in H. rewrite Nat.iter_add in H. change (Nat.iter 1 _ (Some o)) with (waiting_for ws o) in H. by rewrite E, no_hops in H.
Qed.

Lemma deadlock_loop_spec turns ws w o :
  deadlock_loop turns ws w o = true ↔ ∃ n, (n < turns)%nat ∧ hop ws n o = Some w.
Proof.
  revert o. induction turns as [|turns IH]; intros o; cbn; [split; [done|intros (n&?&_); lia]|].
  case_bool_decide as E.
  - split; [|done]. intros _. exists 0%nat. split; [lia|]. by subst.
  - destruct (waiting_for ws o) as [o'|] eqn:Ew.
    + rewrite IH. split; intros (n&Hn&H).
      * exists (n + 1)%nat. split; [lia|]. by rewrite (hop_add ws n 1 o o').
      * destruct n as [|n]; [by injection H|]. rewrite <-Nat.add_1_r, (hop_add ws n 1 o o') in H by done. exists n. split; [lia|done].
    + split; [done|]. intros (n&Hn&H). assert (Hr : rtc (waits ws) o w) by (apply hop_rtc; by exists n).
      inversion Hr as [|o1 o2 o3 H12]; subst; [done|]. unfold waits in H12. congruence.
Qed.

Lemma waiting_for_elem ws o o' : waiting_for ws o = Some o' → o ∈ wt_waiter <$> ws.
Proof.
  induction ws as [|w ws IH]; [done|]. cbn. rewrite elem_of_cons. case_bool_decide; [by left|]. intros Hw. right. by apply IH.
Qed.

(** A shortest path to [w] leaves every recorded waiter at most once. *)
Lemma short_path ws o w n : hop ws n o = Some w → ∃ m, (m ≤ length ws)%nat ∧ hop ws m o = Some w.
Proof.
  induction n as [n IH] using (well_founded_induction lt_wf). intros Hn.
  destruct (decide (Exists (λ j, hop ws j o = Some w) (seq 0 n))) as [(j&Hj%elem_of_seq&Hw)%Exists_exists|Hmin]; [by apply (IH j); [lia|]|].
  assert (Hno : ∀ j, (j < n)%nat → hop ws j o ≠ Some w).
  { intros j Hj H. apply Hmin, Exists_exists. exists j. split; [apply elem_of_seq; lia|done]. }
  exists n. split; [|done].
  assert (Hnd : NoDup ((λ j, hop ws j o) <$> seq 0 n)).
  { apply NoDup_fmap_2_strong; [|apply NoDup_seq].
    assert (Hlt : ∀ i j, (i < j < n)%nat → hop ws i o ≠ hop ws j o).
    { intros i j Hij He. apply (Hno (n - j + i)%nat); [lia|]. unfold hop in *. rewrite Nat.iter_add, He, <-Nat.iter_add.
      by replace (n - j + j)%nat with n by lia. }
    intros i j Hi%elem_of_seq Hj%elem_of_seq He. destruct (decide (i < j)%nat); [by destruct (Hlt i j); [lia|]|].
    destruct (decide (j < i)%nat); [by destruct (Hlt j i); [lia|]|lia]. }
  apply NoDup_submseteq with (k := Some <$> (wt_waiter <$> ws)) in Hnd.
  - apply submseteq_length in Hnd. by rewrite !length_fmap, length_seq in Hnd.
  - intros x (j&->&Hj%elem_of_seq)%list_elem_of_fmap.
    assert (E : hop ws n o = Nat.iter (n - j) (λ x, x ≫= waiting_for ws) (hop ws j o)).
    { unfold hop. rewrite <-Nat.iter_add. by replace (n - j + j)%nat with n by lia. }
    destruct (n - j)%nat as [|d] eqn:Ed; [lia|]. rewrite <-Nat.add_1_r, Nat.iter_add in E.
    change (Nat.iter 1 _ (hop ws j o)) with (hop ws j o ≫= waiting_for ws) in E. destruct (hop ws j o) as [y|].
    + apply list_elem_of_fmap. exists y. split; [done|]. destruct (waiting_for ws y) eqn:Ey; [by eapply waiting_for_elem|].
      change (Some y ≫= waiting_for ws) with (waiting_for ws y) in E. by rewrite Ey, Hn, no_hops in E.
    + change (None ≫= waiting_for ws) with (@None FileLockOwner) in E. by rewrite Hn, no_hops in E.
Qed.

Lemma would_deadlock_iff s w t : file_lock_would_deadlock s w t = true ↔ rtc (waits (file_lock_waiters s)) t w.
Proof.
  unfold file_lock_would_deadlock. case_bool_decide as E; [by subst|]. rewrite deadlock_loop_spec, hop_rtc. split.
  - intros (n&_&H). by exists n.
  - intros (n&H). apply short_path in H as (m&Hm&H). exists m. split; [lia|done].
Qed.

Lemma waiting_for_set ws w t o : waiting_for (set_waiting ws w t) o = if bool_decide (w = o) then Some t else waiting_for ws o.
Proof. induction ws as [|x ws IH]; cbn; [done|]. repeat case_bool_decide; cbn; repeat case_bool_decide; congruence. Qed.

(** An edge from [w] added to a relation: a path that is new goes through it. *)
Lemma rtc_edge {A} (R R' : relation A) w t a b :
  (∀ x y, R' x y → R x y ∨ x = w ∧ y = t) → rtc R' a b → rtc R a b ∨ rtc R a w ∧ rtc R t b.
Proof.
  intros Hsub H. induction H as [a|a a' b Ha _ IH]; [by left|]. destruct (Hsub _ _ Ha) as [Hr|[-> ->]].
  - destruct IH as [IH|[IH1 IH2]]; [left|right; split; [|done]]; by eapply rtc_l.
  - right. split; [done|]. by destruct IH as [IH|[_ IH]].
Qed.

Lemma tc_first {A} (R : relation A) a b : tc R a b → ∃ m, R a m ∧ rtc R m b.
Proof. destruct 1 as [a b H|a m b H Hm]; [by exists b|exists m; split; [done|by apply tc_rtc]]. Qed.

Lemma set_waiting_paths ws w t a : rtc (waits ws) a w → rtc (waits (set_waiting ws w t)) a w.
Proof.
  intros H. remember w as w' eqn:E in H. induction H as [a|a a' b Ha Hp IH]; subst; [done|].
  destruct (decide (a = w)) as [->|Hne]; [done|]. eapply rtc_l; [|by apply IH].
  unfold waits in *. by rewrite waiting_for_set, bool_decide_eq_false_2.
Qed.

Lemma set_waiting_free ws w t : deadlock_free ws → ¬ rtc (waits ws) t w → deadlock_free (set_waiting ws w t).
Proof.
  intros Hf Hn o (m&Hom&Hmo)%tc_first.
  assert (Hsub : ∀ x y, waits (set_waiting ws w t) x y → waits ws x y ∨ x = w ∧ y = t).
  { unfold waits. intros x y. rewrite waiting_for_set. case_bool_decide; [|by left]. intros [= ->]. by right. }
  destruct (rtc_edge _ _ _ _ _ _ Hsub Hmo) as [P|[P1 P2]], (Hsub _ _ Hom) as [Q|[-> ->]].
  - apply (Hf o). by eapply tc_rtc_r; [apply tc_once|].
  - done.
  - apply Hn. etrans; [exact P2|]. by eapply rtc_l.
  - done.
Qed.

Lemma waiting_for_remove ws o x :
  waiting_for (filter (λ w, wt_waiter w ≠ o) ws) x = if bool_decide (x = o) then None else waiting_for ws x.
Proof.
  induction ws as [|w ws IH]; [by case_bool_decide|]. rewrite filter_cons. cbn.
  destruct (decide (wt_waiter w ≠ o)) as [Hw|Hw%dec_stable]; cbn; rewrite IH; repeat case_bool_decide; congruence.
Qed.

Lemma remove_waiter_free s o : deadlock_free (file_lock_waiters s) → deadlock_free (file_lock_waiters (remove_lock_waiter s o)).
Proof.
  intros Hf x Hx. apply (Hf x). revert Hx. apply (tc_congruence (λ y, y)). unfold waits. cbn. intros a b. rewrite waiting_for_remove.
  by case_bool_decide.
Qed.

(** C14: the search finds a deadlock exactly when the owner to wait for waits, through any
    number of others, for the waiter: it misses no cycle though it takes at most one turn
    more than there are recorded waiters.  While the record is free of cycles it stays so
    exactly when a wait is recorded that the search allowed. *)
Theorem deadlock_check_exact s waiter target :
  (file_lock_would_deadlock s waiter target = true ↔ rtc (waits (file_lock_waiters s)) target waiter) ∧
  (deadlock_free (file_lock_waiters s) →
   file_lock_would_deadlock s waiter target = false ↔ deadlock_free (file_lock_waiters (set_lock_waiter s waiter target))).
Proof.
  split; [apply would_deadlock_iff|]. intros Hf. rewrite <-not_true_iff_false, would_deadlock_iff. cbn.
  set (ws := file_lock_waiters s) in *. split; [by apply set_waiting_free|].
  intros Hd Hp. apply (Hd waiter). eapply tc_rtc_r; [|by apply set_waiting_paths].
  apply tc_once. unfold waits. by rewrite waiting_for_set, bool_decide_eq_true_2.
Qed.

(** ** Wake-ups *)

(** The operations that release locks; [fcntl] with [F_UNLCK] forgets the wait and wakes. *)
Inductive release_step (s : LockTables) : LockTables → Prop :=
  | RelRange file owner pid range :
      release_step s (wake_file_lock_waiters (remove_lock_waiter (apply_file_lock s file owner pid None range).1 owner) file)
  | RelFile pid file : release_step s (release_posix_locks_for_file s pid file)
  | RelPid pid : release_step s (release_file_locks_for_pid s pid)
  | RelOfd id : release_step s (release_file_locks_for_ofd s id)
  | RelClosed ino pid files : release_step s (release_posix_locks_for_closed_files ino s pid files)
  | RelFlock file owner : release_step s (whole_file_unlock s file owner).

(** The files of the locks that went have had their waiters woken. *)
Definition freed_woken (s s' : LockTables) : Prop :=
  ∃ new, lock_wakes s' = lock_wakes s ++ new ∧
    (∀ f o k b, holds (file_record_locks s) f o k b → holds (file_record_locks s') f o k b ∨ file_lock_wait_key f ∈ new) ∧
    (∀ l, l ∈ whole_file_locks s → l ∈ whole_file_locks s' ∨ file_lock_wait_key (wl_file l) ∈ new).

#[export] Instance freed_woken_preorder : PreOrder freed_woken.
Proof.
  split.
  - intros s. exists []. rewrite app_nil_r. split_and!; [done|by left|by left].
  - intros s1 s2 s3 (n1&E1&R1&W1) (n2&E2&R2&W2). exists (n1 ++ n2). rewrite E2, E1, (assoc_L (++)). setoid_rewrite elem_of_app. split; [done|]. split.
    + intros f o k b H. destruct (R1 _ _ _ _ H) as [H'|]; [|tauto]. destruct (R2 _ _ _ _ H'); tauto.
    + intros l H. destruct (W1 _ H) as [H'|]; [|tauto]. destruct (W2 _ H'); tauto.
Qed.

Lemma drop_keeps {A} (p : A → bool) l x : x ∈ l → x ∈ drop_if p l ∨ x ∈ dropped p l.
Proof. rewrite elem_of_drop_if, elem_of_dropped. destruct (p x); tauto. Qed.

Lemma holds_dropped p locks f o k b :
  holds locks f o k b → holds (drop_if p locks) f o k b ∨ ∃ l, l ∈ dropped p locks ∧ rl_file l = f.
Proof. intros (l&Hl&Hf&H). destruct (drop_keeps p _ _ Hl); [left; by exists l|right; by exists l]. Qed.

Lemma elem_of_push_unique {A} `{EqDecision A} (l k : list A) x : x ∈ foldl push_unique k l ↔ x ∈ k ∨ x ∈ l.
Proof.
  revert k. induction l as [|y l IH]; intros k; cbn; [rewrite elem_of_nil; tauto|]. rewrite IH, elem_of_cons. unfold push_unique.
  case_bool_decide; [naive_solver|]. rewrite elem_of_app, list_elem_of_singleton. tauto.
Qed.

Lemma release_file_wakes s pid file : freed_woken s (release_posix_locks_for_file s pid file).
Proof.
  unfold release_posix_locks_for_file. set (p := λ lock, _). case_bool_decide as E; cbn.
  - exists []. cbn. rewrite app_nil_r. split_and!; [done| |by left]. intros f o k b H.
    destruct (holds_dropped p _ _ _ _ _ H) as [|(l&Hl&_)]; [by left|]. rewrite E in Hl. by apply elem_of_nil in Hl.
  - eexists. cbn. split_and!; [done| |by left]. intros f o k b H.
    destruct (holds_dropped p _ _ _ _ _ H) as [|(l&(Hp&_)%elem_of_dropped&<-)]; [by left|right].
    apply andb_true_iff in Hp as [->%bool_decide_eq_true_1 _]. by apply list_elem_of_singleton.
Qed.

(** Nothing is released in silence: whenever an unlock, a close, an exit or [execve] takes
    a lock from a byte or from a file, the waiters for locks on that file are woken. *)
Theorem released_locks_wake s s' : release_step s s' → freed_woken s s'.
Proof.
  destruct 1 as [file owner pid range|pid file|pid|id|ino pid files|file owner].
  - exists [file_lock_wait_key file]. split; [done|]. split; [|by left]. intros f o k b H. cbn.
    destruct (decide (f = file)) as [->|Hne]; [right; by apply list_elem_of_singleton|left]. apply unlock_holds. naive_solver.
  - apply release_file_wakes.
  - unfold release_file_locks_for_pid. set (p := λ lock, _). set (s1 := remove_lock_waiter _ _).
    destruct (wake_all_frame s1 (rl_file <$> dropped p (file_record_locks s))) as (E1&E2&E3).
    eexists. split; [exact E3|]. rewrite E1, E2. split; [|by left]. intros f o k b H.
    destruct (holds_dropped p _ _ _ _ _ H) as [|(l&Hl&<-)]; [by left|right]. apply list_elem_of_fmap_2, list_elem_of_fmap_2, Hl.
  - unfold release_file_locks_for_ofd. set (p := λ lock, _). set (q := λ lock, _). set (files := foldl _ (foldl _ _ _) _).
    set (s1 := remove_lock_waiter _ _). destruct (wake_all_frame s1 files) as (E1&E2&E3).
    eexists. split; [exact E3|]. rewrite E1, E2. split.
    + intros f o k b H. destruct (holds_dropped p _ _ _ _ _ H) as [|(l&Hl&<-)]; [by left|right].
      apply list_elem_of_fmap_2, elem_of_push_unique. left. apply elem_of_push_unique. right. by apply list_elem_of_fmap_2.
    + intros l Hl. destruct (drop_keeps q _ _ Hl) as [|Hd]; [by left|right].
      apply list_elem_of_fmap_2, elem_of_push_unique. right. by apply list_elem_of_fmap_2.
  - unfold release_posix_locks_for_closed_files. generalize (foldl push_unique [] (omap (fd_lock_key ino) files)). intros keys.
    revert s. induction keys as [|key keys IH]; intros s; cbn; [done|]. etrans; [apply release_file_wakes|apply IH].
  - unfold whole_file_unlock. set (p := own_whole_lock file owner). case_bool_decide as E; cbn.
    + exists []. rewrite app_nil_r. cbn. split_and!; [done|by left|]. intros l Hl.
      destruct (drop_keeps p _ _ Hl) as [|Hd]; [by left|]. rewrite E in Hd. by apply elem_of_nil in Hd.
    + eexists. cbn. split_and!; [done|by left|]. intros l Hl. destruct (drop_keeps p _ _ Hl) as [|[Hp _]%elem_of_dropped]; [by left|right].
      apply andb_true_iff in Hp as [->%bool_decide_eq_true_1 _]. by apply list_elem_of_singleton.
Qed.

(** ** Concrete tables *)

(** Process 1 writes the first hundred bytes of a file, process 2 reads from byte 200 on. *)
Definition demo_locks : LockTables :=
  mkLocks [mkRecordLock (Ext4 12) (Posix 1) 1 Write (mkRange 0 (Some 100)); mkRecordLock (Ext4 12) (Posix 2) 2 Read (mkRange 200 None)]
    [] [] [].

Lemma demo_locks_wf : locks_wf (file_record_locks demo_locks).
Proof.
  split.
  - apply Forall_forall. intros l Hl. apply elem_of_cons in Hl as [->|Hl%list_elem_of_singleton]; [|subst];
      (split; [unfold range_ok, is_usize, USIZE_MAX; cbn; lia|by intros p [= <-]]).
  - repeat constructor; intros _ Ho; discriminate Ho.
Qed.

(** Process 1 turns the middle of its lock into a read lock: three locks. *)
Lemma apply_file_lock_correct_witness :
  let s := (apply_file_lock demo_locks (Ext4 12) (Posix 1) 1 (Some Read) (mkRange 40 (Some 50))).1 in
  locks_wf (file_record_locks s) ∧ length (file_record_locks s) = 4%nat ∧
  holds (file_record_locks s) (Ext4 12) (Posix 1) Read 45 ∧ ¬ holds (file_record_locks s) (Ext4 12) (Posix 1) Write 45 ∧
  holds (file_record_locks s) (Ext4 12) (Posix 1) Write 50.
Proof.
  assert (Hr : range_ok (mkRange 40 (Some 50))) by (unfold range_ok, is_usize, USIZE_MAX; cbn; lia).
  assert (Hp : ∀ p, Posix 1 = Posix p → 1 = p) by (by intros p [= <-]).
  pose proof (apply_file_lock_correct demo_locks (Ext4 12) (Posix 1) 1 (Some Read) (mkRange 40 (Some 50)) demo_locks_wf Hr Hp) as H.
  cbn zeta. destruct (apply_file_lock demo_locks (Ext4 12) (Posix 1) 1 (Some Read) (mkRange 40 (Some 50))) as [s r] eqn:E.
  assert (Hl : length (file_record_locks s) = 4%nat) by (pose proof (f_equal (λ x, length (file_record_locks x.1)) E) as Hx; by vm_compute in Hx).
  cbn [fst]. destruct H as (Hw&_&[(_&->&_)|(_&_&Hh)]); [done|]. split; [done|]. split; [done|].
  split; [apply Hh; left; split; [done|split; [done|split; [by apply (bool_decide_unpack _)|done]]]|]. split.
  - intros [(_&_&_&Hk)|[Hn _]]%Hh; [done|]. apply Hn. split; [done|]. split; [done|by apply (bool_decide_unpack _)].
  - apply Hh. right. split; [intros (_&_&_&H50); cbn in H50; lia|].
    eexists. split; [by left|]. cbn. split_and!; [done..|]. by apply (bool_decide_unpack _).
Defined.

(** Process 2 asks for a byte of process 1 and is refused; beyond it it is served. *)
Example demo_refused : (apply_file_lock demo_locks (Ext4 12) (Posix 2) 2 (Some Read) (mkRange 99 None)).2 = Ok (Some (Posix 1)).
Proof. reflexivity. Qed.
Example demo_served :
  file_record_locks (apply_file_lock demo_locks (Ext4 12) (Posix 2) 2 (Some Read) (mkRange 100 (Some 200))).1 =
    [mkRecordLock (Ext4 12) (Posix 1) 1 Write (mkRange 0 (Some 100)); mkRecordLock (Ext4 12) (Posix 2) 2 Read (mkRange 100 None)].
Proof. reflexivity. Qed.

Lemma demo_locks_reachable valid :
  valid (mkRange 0 (Some 100)) → valid (mkRange 200 None) → lock_reachable valid demo_locks.
Proof.
  intros H1 H2.
  apply (rtc_l _ _ (apply_file_lock no_locks (Ext4 12) (Posix 1) 1 (Some Write) (mkRange 0 (Some 100))).1);
    [apply LsApply; [done|by intros p [= <-]]|].
  apply (rtc_l _ _ (apply_file_lock (apply_file_lock no_locks (Ext4 12) (Posix 1) 1 (Some Write) (mkRange 0 (Some 100))).1
    (Ext4 12) (Posix 2) 2 (Some Read) (mkRange 200 None)).1); [apply LsApply; [done|by intros p [= <-]]|].
  apply rtc_refl.
Qed.

Lemma locks_never_conflict_witness : exclusive (file_record_locks demo_locks) ∧ whole_exclusive (whole_file_locks demo_locks).
Proof. apply locks_never_conflict. by apply demo_locks_reachable. Defined.

Lemma lock_table_well_formed_witness : locks_wf (file_record_locks demo_locks).
Proof. apply lock_table_well_formed. apply demo_locks_reachable; unfold range_ok, is_usize, USIZE_MAX; cbn; lia. Defined.

(** The exit of process 1 wakes the file's waiters. *)
Lemma released_locks_wake_witness : freed_woken demo_locks (release_file_locks_for_pid demo_locks 1).
Proof. apply released_locks_wake. apply RelPid. Defined.

(** *** What the tables do not promise *)

(** Turning a write lock into a read lock, by [fcntl] or by [flock], wakes nobody, though a
    waiting reader could go on. *)
Lemma downgrade_wakes_nobody :
  find_lock_conflict (file_record_locks demo_locks) (Ext4 12) (Posix 3) Read (mkRange 0 (Some 10)) ≠ None ∧
  let s := (apply_file_lock demo_locks (Ext4 12) (Posix 1) 1 (Some Read) (mkRange 0 (Some 100))).1 in
  find_lock_conflict (file_record_locks s) (Ext4 12) (Posix 3) Read (mkRange 0 (Some 10)) = None ∧ lock_wakes s = [].
Proof. by vm_compute. Qed.

Lemma flock_downgrade_wakes_nobody :
  let s := set_whole_locks no_locks [mkWholeLock (Ext4 12) 7 Write] in
  whole_file_lock_conflicts (whole_file_locks s) (Ext4 12) 8 Read = true ∧
  let s' := (whole_file_lock_turn s (Ext4 12) 7 Read false).1 in
  whole_file_lock_conflicts (whole_file_locks s') (Ext4 12) 8 Read = false ∧ lock_wakes s' = [].
Proof. by vm_compute. Qed.

(** The search and the record are two steps: two processes that search before either
    records close a cycle that no search saw. *)
Lemma racing_searches_deadlock :
  file_lock_would_deadlock no_locks (Posix 1) (Posix 2) = false ∧ file_lock_would_deadlock no_locks (Posix 2) (Posix 1) = false ∧
  ¬ deadlock_free (file_lock_waiters (set_lock_waiter (set_lock_waiter no_locks (Posix 1) (Posix 2)) (Posix 2) (Posix 1))).
Proof.
  split; [done|]. split; [done|]. intros H. apply (H (Posix 1)). eapply tc_l; [|apply tc_once]; done.
Qed.

(** 1 waits for 2 and 2 for 3: 3 may not wait for 1, though 4 may. *)
Lemma deadlock_check_exact_witness :
  let s := set_waiters no_locks [mkWaiter (Posix 1) (Posix 2); mkWaiter (Posix 2) (Posix 3)] in
  rtc (waits (file_lock_waiters s)) (Posix 1) (Posix 3) ∧ ¬ rtc (waits (file_lock_waiters s)) (Posix 1) (Posix 4).
Proof.
  split.
  - apply (deadlock_check_exact (set_waiters no_locks [mkWaiter (Posix 1) (Posix 2); mkWaiter (Posix 2) (Posix 3)])). reflexivity.
  - intros H. apply (deadlock_check_exact (set_waiters no_locks [mkWaiter (Posix 1) (Posix 2); mkWaiter (Posix 2) (Posix 3)])) in H. discriminate H.
Defined.
