(* ===== verification/FileLockCalls.v ===== *)
(** * The calls on file locks (src/os/src/syscall/fs.rs)

    [fcntl], [flock], [close], [dup] and [dup3] over the lock tables of FileLocks.v, the
    descriptors of FdTable.v and user memory.  A call that has to wait is a sequence of turns:
    a turn ends the call or sleeps on the file's key, and the sleep ends in another turn or in
    an error. *)

From S2P Require Import Prelude BTree Frame Flags FileDesc ResidentSet MapArea VmaList MemorySet MsInv.
From S2P Require Import Buddy FrameAlloc Sv39 MsInsert Machine MsUnmap MsCow MsFork MsCache MsFault MsBytes UserCopy UserVa.
From S2P Require Import Task Signals Process ProcessInv SignalCalls MemFile IoStore FdOps Pipe FdTable FileLocks.

Definition F_DUPFD : Z := 0.
Definition F_GETFD : Z := 1.
Definition F_SETFD : Z := 2.
Definition F_GETFL : Z := 3.
Definition F_SETFL : Z := 4.
Definition F_GETLK : Z := 5.
Definition F_SETLK : Z := 6.
Definition F_SETLKW : Z := 7.
Definition F_OFD_GETLK : Z := 36.
Definition F_OFD_SETLK : Z := 37.
Definition F_OFD_SETLKW : Z := 38.
Definition F_RDLCK : Z := 0.
Definition F_WRLCK : Z := 1.
Definition F_UNLCK : Z := 2.
Definition O_RDONLY : Z := 0.
Definition O_WRONLY : Z := 1.
Definition O_RDWR : Z := 2.
Definition O_DIRECTORY : Z := 0x10000.
Definition O_CLOEXEC : Z := 0x80000.
Definition F_DUPFD_CLOEXEC : Z := 1030.
Definition F_SETLEASE : Z := 1024.
Definition F_GETLEASE : Z := 1025.
Definition LOCK_SH : Z := 1.
Definition LOCK_EX : Z := 2.
Definition LOCK_NB : Z := 4.
Definition LOCK_UN : Z := 8.

(** ** The structure [flock] *)

(** A word of [n] bytes as a signed number ([from_ne_bytes], [as i64]). *)
Definition signed (n : nat) (x : Z) : Z :=
  let m := x mod 2 ^ (8 * Z.of_nat n) in
  if bool_decide (m < 2 ^ (8 * Z.of_nat n - 1)) then m else m - 2 ^ (8 * Z.of_nat n).

Record UserFlock64 := mkFlock { l_type : Z; l_whence : Z; l_start : Z; l_len : Z; l_pid : Z }.

(** [flock_i16], [flock_i32] and [flock_i64] *)
Definition flock_field (n : nat) (bytes : list Z) (offset : nat) : Z := signed n (of_le_bytes (take n (drop offset bytes))).
Definition to_ne_bytes (n : nat) (x : Z) : list Z := le_bytes n (x mod 2 ^ (8 * Z.of_nat n)).

Definition parse_flock (bytes : list Z) : UserFlock64 :=
  mkFlock (flock_field 2 bytes 0) (flock_field 2 bytes 2) (flock_field 8 bytes 8) (flock_field 8 bytes 16) (flock_field 4 bytes 24).
Definition flock_bytes (f : UserFlock64) : list Z :=
  to_ne_bytes 2 (l_type f) ++ to_ne_bytes 2 (l_whence f) ++ replicate 4 0 ++ to_ne_bytes 8 (l_start f) ++
  to_ne_bytes 8 (l_len f) ++ to_ne_bytes 4 (l_pid f) ++ replicate 4 0.

Definition flock_kind (lock_type : Z) : result (option FileLockKind) SysErrNo :=
  if bool_decide (lock_type = F_RDLCK) then Ok (Some Read)
  else if bool_decide (lock_type = F_WRLCK) then Ok (Some Write)
  else if bool_decide (lock_type = F_UNLCK) then Ok None
  else Err EINVAL.

Definition signed_lock_base (whence current_offset file_size : Z) : result Z SysErrNo :=
  if bool_decide (whence = 0) then Ok 0
  else if bool_decide (whence = 1) then Ok current_offset
  else if bool_decide (whence = 2) then Ok file_size
  else Err EINVAL.

(** The sums are of 128 bits and cannot overflow; the casts to [u64] wrap around. *)
Definition flock_range (flock : UserFlock64) (current_offset file_size : Z) : result FileLockRange SysErrNo :=
  base ←? signed_lock_base (l_whence flock) current_offset file_size;
  let start := base + l_start flock in
  let len := l_len flock in
  let '(start, end_) :=
    if bool_decide (0 < len) then (start, Some (start + len))
    else if bool_decide (len < 0) then (start + len, Some start)
    else (start, None) in
  if bool_decide (start < 0) || end_or false (λ e, bool_decide (e < 0)) end_ then Err EINVAL
  else Ok (mkRange (wrap start) (wrap <$> end_)).

Definition file_lock_conflict_pid (conflict : FileRecordLock) : Z :=
  match rl_owner conflict with Posix _ => signed 4 (rl_pid conflict) | Ofd _ => -1 end.

Definition flock_from_record (lock : FileRecordLock) : UserFlock64 :=
  mkFlock (match rl_kind lock with Read => F_RDLCK | Write => F_WRLCK end) 0
    (signed 8 (rg_start (rl_range lock)))
    (match rg_end (rl_range lock) with Some e => signed 8 (sat_sub e (rg_start (rl_range lock))) | None => 0 end)
    (file_lock_conflict_pid lock).

(** ** Requests and turns *)

(** What [sys_fcntl_file_lock] works out under the lock of the table. *)
Record LockRequest := mkLockReq {
  lq_file : FileLockKey; lq_range : FileLockRange; lq_owner : FileLockOwner; lq_pid : Z
}.

(** A turn ends the call or sleeps on the key of the request's file. *)
Inductive LockTurn : Type := LockDone (r : result Z SysErrNo) | LockSleep (rq : LockRequest).

Definition is_ofd_cmd (cmd : Z) : bool := bool_decide (cmd = F_OFD_GETLK) || bool_decide (cmd = F_OFD_SETLK) || bool_decide (cmd = F_OFD_SETLKW).
Definition is_blocking_cmd (cmd : Z) : bool := bool_decide (cmd = F_SETLKW) || bool_decide (cmd = F_OFD_SETLKW).
Definition is_getlk_cmd (cmd : Z) : bool := bool_decide (cmd = F_GETLK) || bool_decide (cmd = F_OFD_GETLK).

(** The body of the loop of [sys_fcntl_file_lock]. *)
Definition setlk_turn (s : LockTables) (rq : LockRequest) (kind : FileLockKind) (cmd : Z) : LockTables * LockTurn :=
  let owner := lq_owner rq in
  match apply_file_lock s (lq_file rq) owner (lq_pid rq) (Some kind) (lq_range rq) with
  | (s, Err e) => (s, LockDone (Err e))
  | (s, Ok None) => (remove_lock_waiter s owner, LockDone (Ok 0))
  | (s, Ok (Some conflict_owner)) =>
      if negb (is_blocking_cmd cmd) then (remove_lock_waiter s owner, LockDone (Err EAGAIN))
      else if is_ofd_cmd cmd then (s, LockSleep rq)
      else if file_lock_would_deadlock s owner conflict_owner then (remove_lock_waiter s owner, LockDone (Err EDEADLK))
      else (set_lock_waiter s owner conflict_owner, LockSleep rq)
  end.

(** The predicate of the sleep, evaluated before the task blocks. *)
Definition setlk_should_sleep (s : LockTables) (rq : LockRequest) (kind : FileLockKind) : bool :=
  bool_decide (is_Some (find_lock_conflict (file_record_locks s) (lq_file rq) (lq_owner rq) kind (lq_range rq))).

(** After the sleep: [Ok] when it was not needed or was ended by a wake-up. *)
Definition setlk_after_sleep (s : LockTables) (rq : LockRequest) (kind : FileLockKind) (cmd : Z) (slept : result unit SysErrNo)
    : LockTables * LockTurn :=
  match slept with
  | Ok _ => setlk_turn s rq kind cmd
  | Err ERESTARTSYS => (s, LockDone (Err ERESTARTSYS))
  | Err e => (remove_lock_waiter s (lq_owner rq), LockDone (Err e))
  end.

(** A turn of the loop of [sys_flock]. *)
Definition flock_turn (s : LockTables) (file : FileLockKey) (owner : Z) (kind : FileLockKind) (nonblock released_previous : bool)
    : LockTables * option (result Z SysErrNo) :=
  let '(s, taken) := whole_file_lock_turn s file owner kind released_previous in
  (s, if taken then Some (Ok 0) else if nonblock then Some (Err EAGAIN) else None).

(** [kind] of [sys_flock] *)
Definition flock_operation (operation : Z) : result (option FileLockKind) SysErrNo :=
  if negb (bool_decide (Z.ldiff operation (Z.lor LOCK_SH (Z.lor LOCK_EX (Z.lor LOCK_NB LOCK_UN))) = 0)) then Err EINVAL
  else
    let op := Z.ldiff operation LOCK_NB in
    if bool_decide (op = LOCK_SH) then Ok (Some Read)
    else if bool_decide (op = LOCK_EX) then Ok (Some Write)
    else if bool_decide (op = LOCK_UN) then Ok None
    else Err EINVAL.

Section calls.
Context {PT F : Type} `{HPT : PageTableOps PT, HF : FrameService F, HL : FileLayer F}.
Context {E : Type} `{!BackingFiles E} (mem_inode : string → option Z).
Implicit Types (st : St F) (io : Io E) (t : FileDescriptorTable) (s : LockTables).
Abbreviation Mem := (option (MemorySet PT)).

Definition copy_flock_from_user st (mem : Mem) (arg : Z) : outcome (St F * Mem * result UserFlock64 SysErrNo) :=
  if bool_decide (arg = 0) then Ret (st, mem, Err EFAULT)
  else
    '(sm, r) ←! copy_from_user st mem arg 32;
    Ret (sm, match r with Ok bytes => Ok (parse_flock bytes) | Err e => Err e end).

Definition copy_flock_to_user st (mem : Mem) (arg : Z) (flock : UserFlock64) : outcome (St F * Mem * result unit SysErrNo) :=
  if bool_decide (arg = 0) then Ret (st, mem, Err EFAULT) else copy_to_user st mem arg (flock_bytes flock).

(** The block of [sys_fcntl_file_lock] that looks at the descriptor. *)
Definition fcntl_lock_request io t (tgid : Z) (fd : nat) (flock : UserFlock64) (kind : option FileLockKind) (cmd : Z)
    : result LockRequest SysErrNo :=
  match fd_get t fd with
  | None => Err EBADF
  | Some file_desc =>
      match fd_lock_key mem_inode file_desc with
      | None => Err EINVAL
      | Some file =>
          range ←? flock_range flock (fd_lock_offset file_desc) (fd_size io file_desc);
          if negb (is_getlk_cmd cmd) &&
             match kind with
             | Some Read => negb (fd_readable file_desc)
             | Some Write => negb (fd_writable file_desc)
             | None => false
             end
          then Err EBADF
          else if is_ofd_cmd cmd then
            match ofd_owner_id file_desc with
            | None => Err EINVAL
            | Some id => Ok (mkLockReq file range (Ofd id) 0)
            end
          else Ok (mkLockReq file range (Posix tgid) tgid)
      end
  end.

(** What [F_GETLK] reports. *)
Definition getlk_answer s (rq : LockRequest) (flock : UserFlock64) (kind : FileLockKind) : UserFlock64 :=
  match find_lock_conflict (file_record_locks s) (lq_file rq) (lq_owner rq) kind (lq_range rq) with
  | Some conflict => flock_from_record conflict
  | None => mkFlock F_UNLCK (l_whence flock) (l_start flock) (l_len flock) (l_pid flock)
  end.

(** The call up to its first sleep; [tgid] is the thread group of the current task. *)
Definition sys_fcntl_file_lock st (mem : Mem) io t s (tgid : option Z) (fd : nat) (cmd arg : Z)
    : outcome (St F * Mem * LockTables * LockTurn) :=
  match tgid with
  | None => Ret (st, mem, s, LockDone (Err ESRCH))
  | Some tgid =>
      '(sm, flock) ←! copy_flock_from_user st mem arg;
      let fail e := Ret (sm.1, sm.2, s, LockDone (Err e)) in
      match flock with
      | Err e => fail e
      | Ok flock =>
          match flock_kind (l_type flock) with
          | Err e => fail e
          | Ok kind =>
              if is_ofd_cmd cmd && negb (bool_decide (l_pid flock = 0)) then fail EINVAL
              else if is_getlk_cmd cmd && bool_decide (kind = None) then fail EINVAL
              else
                match fcntl_lock_request io t tgid fd flock kind cmd, kind with
                | Err e, _ => fail e
                | Ok rq, Some kind =>
                    if is_getlk_cmd cmd then
                      '(sm, r) ←! copy_flock_to_user sm.1 sm.2 arg (getlk_answer s rq flock kind);
                      Ret (sm.1, sm.2, s, LockDone (match r with Ok _ => Ok 0 | Err e => Err e end))
                    else let '(s, turn) := setlk_turn s rq kind cmd in Ret (sm.1, sm.2, s, turn)
                | Ok rq, None =>
                    let '(s, _) := apply_file_lock s (lq_file rq) (lq_owner rq) (lq_pid rq) None (lq_range rq) in
                    let s := wake_file_lock_waiters (remove_lock_waiter s (lq_owner rq)) (lq_file rq) in
                    Ret (sm.1, sm.2, s, LockDone (Ok 0))
                end
          end
      end
  end.

(** [flock] up to its first sleep: the owner and file of the loop when it sleeps. *)
Definition sys_flock t s (task : bool) (fd : nat) (operation : Z) : LockTables * result (option (FileLockKey * Z * FileLockKind)) SysErrNo :=
  match flock_operation operation with
  | Err e => (s, Err e)
  | Ok kind =>
      if negb task then (s, Err ESRCH)
      else
        match fd_get t fd with
        | None => (s, Err EBADF)
        | Some file_desc =>
            match fd_lock_key mem_inode file_desc, ofd_owner_id file_desc with
            | Some file, Some owner =>
                match kind with
                | None => (whole_file_unlock s file owner, Ok None)
                | Some kind =>
                    match flock_turn s file owner kind (negb (bool_decide (Z.land operation LOCK_NB = 0))) false with
                    | (s, Some (Ok _)) => (s, Ok None)
                    | (s, Some (Err e)) => (s, Err e)
                    | (s, None) => (s, Ok (Some (file, owner, kind)))
                    end
                end
            | _, _ => (s, Err EINVAL)
            end
        end
  end.

(** ** Closing and duplicating *)

Definition release_key s (tgid : Z) (key : option FileLockKey) : LockTables :=
  match key with Some key => release_posix_locks_for_file s tgid key | None => s end.

Definition sys_close io t s (tgid : option Z) (fd : nat) : Io E * FileDescriptorTable * LockTables * result Z SysErrNo :=
  match tgid with
  | None => (io, t, s, Err ESRCH)
  | Some tgid =>
      match remove t fd with
      | (t, Err e) => (io, t, s, Err e)
      | (t, Ok old) => (fd_drop io old, t, release_key s tgid (fd_lock_key mem_inode old), Ok 0)
      end
  end.

Definition sys_dup io t (task : bool) (old_fd nofile_limit : nat) : Io E * FileDescriptorTable * result nat SysErrNo :=
  if negb task then (io, t, Err ESRCH) else dup_below io t old_fd nofile_limit.

Definition sys_dup3 io t s (tgid : option Z) (old_fd new_fd : nat) (flags : Z) (nofile_limit : nat)
    : Io E * FileDescriptorTable * LockTables * result nat SysErrNo :=
  if bool_decide (old_fd = new_fd) || negb (bool_decide (Z.ldiff flags O_CLOEXEC = 0)) then (io, t, s, Err EINVAL)
  else
    let fd_flag := if bool_decide (Z.land flags O_CLOEXEC = 0) then 0 else FD_CLOEXEC in
    match tgid with
    | None => (io, t, s, Err ESRCH)
    | Some tgid =>
        let replaced_key := fd_get t new_fd ≫= fd_lock_key mem_inode in
        match dup2_below io t old_fd new_fd nofile_limit with
        | (io, t, Err e) => (io, t, s, Err e)
        | (io, t, Ok new_fd) =>
            match set_fd_flags t new_fd fd_flag with
            | (t, Err e) => (io, t, s, Err e)
            | (t, Ok _) => (io, t, release_key s tgid replaced_key, Ok new_fd)
            end
        end
    end.

(** ** [fcntl] *)

Definition access_flags (readable writable : bool) : Z :=
  match readable, writable with true, true => O_RDWR | false, true => O_WRONLY | _, _ => O_RDONLY end.
Definition or_flag (b : bool) (flag flags : Z) : Z := if b then Z.lor flags flag else flags.

Definition fd_status_flags io (fd : FileDescriptor) : Z :=
  match fd with
  | Stdin => O_RDONLY
  | Stdout | Stderr => O_WRONLY
  | MemFile _ _ _ _ readable writable append _ _ | Ext4Regular _ _ _ readable writable append =>
      or_flag append O_APPEND (access_flags readable writable)
  | MemDir _ _ _ _ | Ext4Dir _ _ _ => Z.lor O_RDONLY O_DIRECTORY
  | PathFd _ _ _ flags => Z.ldiff flags O_CLOEXEC
  | LoopControl => O_RDWR
  | LoopDevice _ _ readable writable => access_flags readable writable
  | PipeRead _ nonblock => or_flag nonblock O_NONBLOCK O_RDONLY
  | PipeWrite _ nonblock => or_flag nonblock O_NONBLOCK O_WRONLY
  | Socket h => or_flag (so_nonblock (io_sockets io !!! h)) O_NONBLOCK O_RDWR
  | EventFd h => or_flag (ev_nonblock (io_eventfds io !!! h)) O_NONBLOCK O_RDWR
  | Epoll _ => O_RDWR
  end.

(** [F_SETLEASE] *)
Definition setlease io (fd : FileDescriptor) (arg : Z) : Io E * result Z SysErrNo :=
  let set l := let '(io, r) := set_lease io fd l in (io, match r with Ok _ => Ok 0 | Err e => Err e end) in
  if bool_decide (arg = F_RDLCK) then if fd_readable fd then set F_RDLCK else (io, Err EBADF)
  else if bool_decide (arg = F_WRLCK) then if fd_writable fd then set F_WRLCK else (io, Err EBADF)
  else if bool_decide (arg = F_UNLCK) then set F_UNLCK
  else (io, Err EINVAL).

(** [sys_fcntl] for the commands other than those on locks. *)
Definition sys_fcntl io t (task : bool) (fd : nat) (cmd arg : Z) (nofile_limit : nat)
    : Io E * FileDescriptorTable * result Z SysErrNo :=
  let with_fd (f : FileDescriptor → Io E * FileDescriptorTable * result Z SysErrNo) :=
    match fd_get t fd with Some file_desc => f file_desc | None => (io, t, Err EBADF) end in
  if negb task then (io, t, Err ESRCH)
  else if bool_decide (cmd = F_DUPFD) || bool_decide (cmd = F_DUPFD_CLOEXEC) then
    if bool_decide (Z.of_nat (Nat.min nofile_limit MAX_FDS) ≤ arg) then (io, t, Err EINVAL)
    else
      with_fd (λ file_desc,
        let '(io, file_desc) := fd_clone io file_desc in
        let flags := if bool_decide (cmd = F_DUPFD_CLOEXEC) then FD_CLOEXEC else 0 in
        match alloc_from_with_flags_below io t (Z.to_nat arg) file_desc flags nofile_limit with
        | (io, t, Some fd) => (io, t, Ok (Z.of_nat fd))
        | (io, t, None) => (io, t, Err EMFILE)
        end)
  else if bool_decide (cmd = F_GETFD) then (io, t, fd_flags t fd)
  else if bool_decide (cmd = F_SETFD) then
    let '(t, r) := set_fd_flags t fd arg in (io, t, match r with Ok _ => Ok 0 | Err e => Err e end)
  else if bool_decide (cmd = F_GETFL) then with_fd (λ file_desc, (io, t, Ok (fd_status_flags io file_desc)))
  else if bool_decide (cmd = F_SETFL) then
    with_fd (λ file_desc,
      let '(io, file_desc) := set_status_flags io file_desc arg in
      (io, put_fd t fd file_desc, Ok 0))
  else if bool_decide (cmd = F_SETLEASE) then with_fd (λ file_desc, let '(io, r) := setlease io file_desc arg in (io, t, r))
  else if bool_decide (cmd = F_GETLEASE) then
    with_fd (λ file_desc, (io, t, match lease io file_desc with Some l => Ok (wrap l) | None => Err EINVAL end))
  else (io, t, Err EINVAL).
End calls.

(** ** The structure read back *)

Definition is_signed (n : nat) (x : Z) : Prop := - 2 ^ (8 * Z.of_nat n - 1) ≤ x < 2 ^ (8 * Z.of_nat n - 1).

Lemma signed_mod n x : (0 < n)%nat → is_signed n x → signed n (x mod 2 ^ (8 * Z.of_nat n)) = x.
Proof.
  intros Hn. unfold is_signed, signed. set (b := 8 * Z.of_nat n) in *. assert (Hb : 0 < b) by lia.
  assert (E : 2 ^ b = 2 * 2 ^ (b - 1)) by (rewrite <-Z.pow_succ_r by lia; f_equal; lia).
  assert (0 < 2 ^ (b - 1)) by (apply Z.pow_pos_nonneg; lia). clearbody b. intros Hx.
  rewrite Z.mod_mod by lia. destruct (decide (0 ≤ x)) as [H0|H0].
  - rewrite Z.mod_small by lia. by rewrite bool_decide_eq_true_2 by lia.
  - replace (x mod 2 ^ b) with (x + 2 ^ b) by (apply Z.mod_unique with (-1); lia).
    rewrite bool_decide_eq_false_2 by lia. lia.
Qed.

Lemma signed_range n x : (0 < n)%nat → is_signed n (signed n x).
Proof.
  intros Hn. unfold is_signed, signed. set (b := 8 * Z.of_nat n) in *. assert (Hb : 0 < b) by lia.
  assert (E : 2 ^ b = 2 * 2 ^ (b - 1)) by (rewrite <-Z.pow_succ_r by lia; f_equal; lia).
  pose proof (Z.mod_pos_bound x (2 ^ b) ltac:(apply Z.pow_pos_nonneg; lia)). case_bool_decide; lia.
Qed.

Lemma to_ne_bytes_length n x : length (to_ne_bytes n x) = n.
Proof. apply length_le_bytes. Qed.

Lemma field_to_ne_bytes n x pre post offset :
  (0 < n)%nat → is_signed n x → offset = length pre → flock_field n (pre ++ to_ne_bytes n x ++ post) offset = x.
Proof.
  intros Hn Hx ->. unfold flock_field. rewrite drop_app_length, take_app_length' by (by rewrite to_ne_bytes_length).
  unfold to_ne_bytes. rewrite of_le_bytes_le by (apply Z.mod_pos_bound, Z.pow_pos_nonneg; lia). by apply signed_mod.
Qed.

(** The fields of the structure fit their widths. *)
Record flock_ok (f : UserFlock64) : Prop := {
  fo_type : is_signed 2 (l_type f); fo_whence : is_signed 2 (l_whence f); fo_start : is_signed 8 (l_start f);
  fo_len : is_signed 8 (l_len f); fo_pid : is_signed 4 (l_pid f)
}.

Lemma parse_flock_ok bytes : flock_ok (parse_flock bytes).
Proof. split; apply signed_range; lia. Qed.

Lemma flock_bytes_length f : length (flock_bytes f) = 32%nat.
Proof. done. Qed.

Lemma parse_flock_bytes f : flock_ok f → parse_flock (flock_bytes f) = f.
Proof.
  intros [H1 H2 H3 H4 H5]. destruct f as [ty wh st ln pid]. unfold parse_flock, flock_bytes. cbn [l_type l_whence l_start l_len l_pid] in *.
  f_equal.
  - by apply (field_to_ne_bytes 2 ty []); [lia| |].
  - by apply (field_to_ne_bytes 2 wh (to_ne_bytes 2 ty)); [lia| |].
  - rewrite !(assoc_L (++)). rewrite <-!(assoc_L (++) _ (to_ne_bytes 8 st)).
    apply (field_to_ne_bytes 8 st ((to_ne_bytes 2 ty ++ to_ne_bytes 2 wh) ++ replicate 4 0)); [lia|done|done].
  - rewrite !(assoc_L (++)). rewrite <-!(assoc_L (++) _ (to_ne_bytes 8 ln)).
    apply (field_to_ne_bytes 8 ln (((to_ne_bytes 2 ty ++ to_ne_bytes 2 wh) ++ replicate 4 0) ++ to_ne_bytes 8 st)); [lia|done|done].
  - rewrite !(assoc_L (++)). rewrite <-!(assoc_L (++) _ (to_ne_bytes 4 pid)).
    apply (field_to_ne_bytes 4 pid ((((to_ne_bytes 2 ty ++ to_ne_bytes 2 wh) ++ replicate 4 0) ++ to_ne_bytes 8 st) ++ to_ne_bytes 8 ln)); [lia|done|done].
Qed.

(** ** The range of a request *)

(** The bytes the structure names, counted from [base]; [None]: to the end of every file. *)
Definition named_bytes (base start len : Z) : Z * option Z :=
  if bool_decide (0 < len) then (base + start, Some (base + start + len))
  else if bool_decide (len < 0) then (base + start + len, Some (base + start))
  else (base + start, None).

Lemma flock_range_eq f offset size :
  flock_range f offset size =
    match signed_lock_base (l_whence f) offset size with
    | Ok base =>
        let '(start, end_) := named_bytes base (l_start f) (l_len f) in
        if bool_decide (start < 0) || end_or false (λ e, bool_decide (e < 0)) end_ then Err EINVAL
        else Ok (mkRange (wrap start) (wrap <$> end_))
    | Err e => Err e
    end.
Proof. done. Qed.

Lemma signed_lock_base_cases whence offset size :
  match signed_lock_base whence offset size with
  | Ok base => base = 0 ∨ base = offset ∨ base = size
  | Err e => e = EINVAL ∧ ¬ 0 ≤ whence ≤ 2
  end.
Proof. unfold signed_lock_base. repeat (case_bool_decide; [tauto|]). split; [done|lia]. Qed.

(** A file of at most [isize::MAX] bytes and a structure of 64-bit fields: the range is that of
    the structure, unless it begins before the file; only the end can leave 64 bits. *)
Lemma flock_range_correct f offset size :
  flock_ok f → 0 ≤ offset < 2 ^ 63 → 0 ≤ size < 2 ^ 63 →
  match signed_lock_base (l_whence f) offset size with
  | Err e => flock_range f offset size = Err e ∧ e = EINVAL ∧ ¬ 0 ≤ l_whence f ≤ 2
  | Ok base =>
      let '(start, end_) := named_bytes base (l_start f) (l_len f) in
      if bool_decide (start < 0) then flock_range f offset size = Err EINVAL
      else is_usize start ∧ ∃ e, flock_range f offset size = Ok (mkRange start e) ∧
        (from_option (λ e, e ≤ USIZE_MAX) True end_ → e = end_ ∧ range_ok (mkRange start e))
  end.
Proof.
  intros [_ _ Hs Hl _] Ho Hz. unfold is_signed in Hs, Hl. cbn in Hs, Hl. rewrite flock_range_eq.
  pose proof (signed_lock_base_cases (l_whence f) offset size) as Hb. destruct (signed_lock_base _ _ _) as [base|e]; [|by destruct Hb as [-> ?]].
  assert (Hbb : 0 ≤ base < 2 ^ 63) by lia. clear Hb. destruct (named_bytes base (l_start f) (l_len f)) as [start end_] eqn:En.
  assert (Hend : start ≤ 2 ^ 64 - 2 ∧ from_option (λ e, start < e) True end_).
  { unfold named_bytes in En. repeat case_bool_decide; injection En as <- <-; cbn; lia. }
  clear En. destruct Hend as [Hu He]. case_bool_decide; [done|]. cbn [orb].
  assert (Hst : is_usize start) by (unfold is_usize, USIZE_MAX; lia). split; [done|]. rewrite (wrap_small start) by done.
  destruct end_ as [e|]; cbn in *.
  - rewrite bool_decide_eq_false_2 by lia. eexists. split; [done|]. intros Hle.
    rewrite wrap_small by (unfold is_usize in *; lia). split; [done|]. by split.
  - eexists. split; [done|]. intros _. split; [done|]. by split.
Qed.

(** The answer to [F_GETLK], read as a request from the beginning of the file, names the range
    of the lock that is in the way, as far as signed 64-bit fields reach. *)
Lemma flock_from_record_range l offset size :
  range_ok (rl_range l) → rg_start (rl_range l) < 2 ^ 63 →
  from_option (λ e, e - rg_start (rl_range l) < 2 ^ 63) True (rg_end (rl_range l)) →
  flock_range (flock_from_record l) offset size = Ok (rl_range l).
Proof.
  destruct l as [file owner pid kind [start end_]]. unfold range_ok, is_usize. cbn [rl_range rg_start rg_end]. intros [H0 He] Hs Hl.
  assert (S8 : ∀ x, 0 ≤ x < 2 ^ 63 → signed 8 x = x).
  { intros x Hx. unfold signed. change (2 ^ (8 * Z.of_nat 8)) with (2 ^ 64). change (2 ^ (8 * Z.of_nat 8 - 1)) with (2 ^ 63).
    rewrite Z.mod_small by lia. by rewrite bool_decide_eq_true_2 by lia. }
  rewrite flock_range_eq. unfold flock_from_record, named_bytes. cbn [l_whence l_start l_len rl_range rg_start rg_end].
  rewrite (S8 start) by lia. change (signed_lock_base 0 offset size) with (@Ok Z SysErrNo 0). cbn iota beta.
  destruct end_ as [e|]; cbn [from_option] in Hl.
  - unfold sat_sub. rewrite Z.max_l, S8 by lia. rewrite (bool_decide_eq_true_2 (0 < _)) by lia. cbn iota.
    rewrite (bool_decide_eq_false_2 (0 + start < 0)) by lia. cbn [end_or orb]. rewrite (bool_decide_eq_false_2 (_ < 0)) by lia.
    cbn [fmap option_fmap option_map]. rewrite !wrap_small by (unfold is_usize; lia). do 3 f_equal. lia.
  - rewrite !(bool_decide_eq_false_2 (_ < _)) by lia. cbn [end_or orb fmap option_fmap option_map]. by rewrite wrap_small by (unfold is_usize; lia).
Qed.

Lemma flock_from_record_ok l : flock_ok (flock_from_record l).
Proof.
  assert (Hz : ∀ n, (0 < n)%nat → is_signed n 0).
  { intros n Hn. unfold is_signed. assert (0 < 2 ^ (8 * Z.of_nat n - 1)) by (apply Z.pow_pos_nonneg; lia). lia. }
  split; unfold flock_from_record, file_lock_conflict_pid; cbn [l_type l_whence l_start l_len l_pid].
  - destruct (rl_kind l); unfold is_signed, F_RDLCK, F_WRLCK; cbn; lia.
  - apply Hz. lia.
  - apply signed_range. lia.
  - destruct (rg_end (rl_range l)); [apply signed_range|apply Hz]; lia.
  - destruct (rl_owner l); [apply signed_range; lia|unfold is_signed; cbn; lia].
Qed.

Section correct.
Context {PT F : Type} `{HPT : PageTableOps PT, !PageTableLaws PT,
  HF : FrameService F, HL : FileLayer F, HSL : !FrameServiceLaws F, HFL : !FileLayerLaws F}.
Implicit Types (st : St F) (ms : MemorySet PT).

(** What [F_GETLK] writes for a lock in the way is what a later [fcntl] reads there, and
    as a request it names exactly the lock's range, whatever the position and size of the
    file, when start and length of the lock fit signed 64-bit fields. *)
Theorem getlk_roundtrip st ms X arg l st1 ms1 st2 c2 f offset size :
  ms_inv st ms (file_cache (st_frames st) ++ X) → zlen X ≤ 2 ^ 31 → 0 < arg →
  range_ok (rl_range l) → rg_start (rl_range l) < 2 ^ 63 →
  from_option (λ e, e - rg_start (rl_range l) < 2 ^ 63) True (rg_end (rl_range l)) →
  copy_flock_to_user st (Some ms) arg (flock_from_record l) = Ret (st1, Some ms1, Ok tt) → NoDup (owned (areas ms1)) →
  copy_flock_from_user st1 (Some ms1) arg = Ret (st2, c2, Ok f) →
  f = flock_from_record l ∧ flock_range f offset size = Ok (rl_range l).
Proof.
  intros Hi HX Ha Hr Hs Hl. unfold copy_flock_to_user, copy_flock_from_user. rewrite !bool_decide_eq_false_2 by lia.
  intros Hto Hnd Hfrom.
  destruct (copy_from_user st1 (Some ms1) arg 32) as [[sm [bytes|e]]|] eqn:Ec; [|done|done]. injection Hfrom as -> <-.
  change 32 with (zlen (flock_bytes (flock_from_record l))) in Ec.
  apply (copy_back_ok st ms X arg _ st1 ms1 _ _ bytes Hi HX ltac:(lia) Hto Hnd) in Ec as ->.
  rewrite parse_flock_bytes by apply flock_from_record_ok. split; [done|]. by apply flock_from_record_range.
Qed.
End correct.

(** ** A turn of [F_SETLK] and [F_SETLKW] *)

(** Another owner holds a lock in the way of the request. *)
Definition blocks_request (locks : list FileRecordLock) (rq : LockRequest) (kind : FileLockKind) (o : FileLockOwner) : Prop :=
  ∃ k b, o ≠ lq_owner rq ∧ lock_kinds_conflict k kind = true ∧ b ∈ lq_range rq ∧ holds locks (lq_file rq) o k b.

(** C13: a turn of a locking [fcntl].  It succeeds exactly when no other owner blocks the
    request, and then the owner holds exactly the range in the requested kind and every other
    lock is as before.  A blocked request changes no lock: without waiting it fails with
    EAGAIN; a process waits for an owner that blocks it, and fails with EDEADLK exactly when
    that owner waits, directly or through others, for it; an open file description waits
    unconditionally.  The task that sleeps finds the request still blocked, the tables stay
    well-formed, and the record of waiting owners stays free of cycles. *)
Theorem setlk_turn_correct s rq kind cmd :
  locks_wf (file_record_locks s) → deadlock_free (file_lock_waiters s) → range_ok (lq_range rq) →
  (∀ p, lq_owner rq = Posix p → lq_pid rq = p) →
  let '(s', turn) := setlk_turn s rq kind cmd in
  locks_wf (file_record_locks s') ∧ deadlock_free (file_lock_waiters s') ∧
  whole_file_locks s' = whole_file_locks s ∧ lock_wakes s' = lock_wakes s ∧
  match turn with
  | LockDone (Ok n) =>
      n = 0 ∧ (∀ o, ¬ blocks_request (file_record_locks s) rq kind o) ∧
      (∀ f o k b, holds (file_record_locks s') f o k b ↔
        (f = lq_file rq ∧ o = lq_owner rq ∧ b ∈ lq_range rq ∧ k = kind) ∨
        (¬ (f = lq_file rq ∧ o = lq_owner rq ∧ b ∈ lq_range rq) ∧ holds (file_record_locks s) f o k b))
  | LockDone (Err e) =>
      file_record_locks s' = file_record_locks s ∧
      ∃ o, blocks_request (file_record_locks s) rq kind o ∧
        (e = EAGAIN ∧ is_blocking_cmd cmd = false ∨
         e = EDEADLK ∧ cmd = F_SETLKW ∧ rtc (waits (file_lock_waiters s)) o (lq_owner rq))
  | LockSleep rq' =>
      rq' = rq ∧ is_blocking_cmd cmd = true ∧ file_record_locks s' = file_record_locks s ∧ setlk_should_sleep s' rq kind = true ∧
      ∃ o, blocks_request (file_record_locks s) rq kind o ∧
        (is_ofd_cmd cmd = true ∨
         waiting_for (file_lock_waiters s') (lq_owner rq) = Some o ∧ ¬ rtc (waits (file_lock_waiters s)) o (lq_owner rq))
  end.
Proof.
  intros Hw Hf Hr Hp. unfold setlk_turn, apply_file_lock, setlk_should_sleep.
  destruct (find_lock_conflict _ _ _ _ _) as [l|] eqn:Ec.
  2: { cbn. split; [by apply set_lock_wf|]. split; [by apply remove_waiter_free|]. split; [done|]. split; [done|]. split; [done|]. split.
       - intros o (k&b&H). apply (no_conflict_uncontended _ _ _ _ _ Ec). by exists o, k, b.
       - intros. apply set_lock_holds. }
  destruct (conflict_contended _ _ _ _ _ _ Hw Hr Ec) as (Hl&Hlf&Hlo&Hlk&b&Hb&Hbl&_).
  assert (Hbl' : blocks_request (file_record_locks s) rq kind (rl_owner l)).
  { exists (rl_kind l), b. split; [done|]. split; [done|]. split; [done|]. by exists l. }
  destruct (is_blocking_cmd cmd) eqn:Eb; cbn [negb].
  2: { split; [done|]. split; [by apply remove_waiter_free|]. do 3 (split; [done|]). exists (rl_owner l). split; [done|by left]. }
  destruct (is_ofd_cmd cmd) eqn:Eo.
  { do 4 (split; [done|]). do 3 (split; [done|]). split; [by rewrite ?Ec|]. exists (rl_owner l). by split; [|left]. }
  destruct (file_lock_would_deadlock s (lq_owner rq) (rl_owner l)) eqn:Ed.
  - apply would_deadlock_iff in Ed. split; [done|]. split; [by apply remove_waiter_free|]. do 3 (split; [done|]).
    exists (rl_owner l). split; [done|]. right. split; [done|]. split; [|done].
    unfold is_blocking_cmd, is_ofd_cmd in *. apply orb_true_iff in Eb as [Eb|Eb]; [by apply bool_decide_eq_true_1 in Eb|].
    rewrite Eb in Eo. by rewrite orb_true_r in Eo.
  - apply not_true_iff_false in Ed. rewrite would_deadlock_iff in Ed. split; [done|]. split; [by apply set_waiting_free|].
    do 2 (split; [done|]). do 3 (split; [done|]). cbn [file_lock_waiters set_lock_waiter set_waiters file_record_locks].
    split; [by rewrite Ec|]. exists (rl_owner l). split; [done|]. right.
    split; [|done]. by rewrite waiting_for_set, bool_decide_eq_true_2.
Qed.

(** ** Concrete calls *)

(** In the table [demo_locks], where process 2 waits for process 1, process 1 may not wait for
    process 2. *)
Definition demo_waiting : LockTables := set_lock_waiter demo_locks (Posix 2) (Posix 1).
Definition demo_request : LockRequest := mkLockReq (Ext4 12) (mkRange 150 (Some 250)) (Posix 1) 1.

Lemma demo_waiting_free : deadlock_free (file_lock_waiters demo_waiting).
Proof. apply set_waiting_free; [intros o (m&H&_)%tc_first; discriminate H|]. intros H. by apply (would_deadlock_iff demo_locks) in H. Qed.

Lemma setlk_turn_correct_witness :
  match setlk_turn demo_waiting demo_request Write F_SETLKW with
  | (s', LockDone (Err e)) => e = EDEADLK ∧ locks_wf (file_record_locks s') ∧ deadlock_free (file_lock_waiters s')
  | _ => False
  end.
Proof.
  assert (Hr : range_ok (lq_range demo_request)) by (unfold range_ok, is_usize, USIZE_MAX; cbn; lia).
  assert (Hp : ∀ p, lq_owner demo_request = Posix p → lq_pid demo_request = p) by (by intros p [= <-]).
  pose proof (setlk_turn_correct demo_waiting demo_request Write F_SETLKW demo_locks_wf demo_waiting_free Hr Hp) as H.
  assert (E : (setlk_turn demo_waiting demo_request Write F_SETLKW).2 = LockDone (Err EDEADLK)) by reflexivity.
  destruct (setlk_turn demo_waiting demo_request Write F_SETLKW) as [s' turn]. cbn in E. subst turn.
  destruct H as (H1&H2&_). by split.
Defined.

Definition demo_lock : FileRecordLock := mkRecordLock (Ext4 12) (Posix 1) 1 Write (mkRange 40 (Some 50)).

(** The answer is written across a page border and read back. *)
Lemma getlk_roundtrip_witness :
  match copy_flock_to_user demo_st0 (Some demo_lazy_ms) 0x10ff0 (flock_from_record demo_lock) with
  | Ret (st1, Some ms1, Ok _) =>
      match copy_flock_from_user st1 (Some ms1) 0x10ff0 with
      | Ret (_, _, Ok f) => f = flock_from_record demo_lock ∧ flock_range f 7 4096 = Ok (mkRange 40 (Some 50))
      | _ => False
      end
  | _ => False
  end.
Proof.
  assert (Hok : match copy_flock_to_user demo_st0 (Some demo_lazy_ms) 0x10ff0 (flock_from_record demo_lock) with
    | Ret (st1, Some ms1, Ok _) =>
        bool_decide (NoDup (owned (areas ms1))) &&
        match copy_flock_from_user st1 (Some ms1) 0x10ff0 with Ret (_, _, Ok _) => true | _ => false end
    | _ => false
    end = true) by (vm_compute; reflexivity).
  destruct (copy_flock_to_user demo_st0 (Some demo_lazy_ms) 0x10ff0 (flock_from_record demo_lock)) as [[[st1 [ms1|]] [[]|]]|] eqn:E1; try discriminate Hok.
  apply andb_true_iff in Hok as [Hnd Hok]. apply bool_decide_eq_true_1 in Hnd.
  destruct (copy_flock_from_user st1 (Some ms1) 0x10ff0) as [[[st2 c2] [f|]]|] eqn:E2; try discriminate Hok.
  apply (getlk_roundtrip demo_st0 demo_lazy_ms [] 0x10ff0 demo_lock st1 ms1 st2 c2 f 7 4096).
  - exact demo_lazy_inv.
  - rewrite zlen_nil. lia.
  - lia.
  - unfold range_ok, is_usize, USIZE_MAX. cbn. lia.
  - cbn. lia.
  - cbn. lia.
  - exact E1.
  - exact Hnd.
  - exact E2.
Defined.

(** *** What the calls do not promise *)

(** A range that leaves 64 bits wraps around: the end lies before the beginning, where Linux
    reports EOVERFLOW. *)
Lemma range_end_wraps :
  flock_range (mkFlock F_WRLCK 1 (2 ^ 63 - 1) (2 ^ 63 - 1) 0) 10 0 = Ok (mkRange (2 ^ 63 + 9) (Some 8)).
Proof. reflexivity. Qed.

(** A signal that interrupts the sleep leaves the wait on record: if the program does not
    repeat the call, the process that held the lock is refused with EDEADLK when it asks for
    another one of the interrupted process. *)
Lemma interrupted_wait_stays :
  let rq := mkLockReq (Ext4 12) (mkRange 0 (Some 1)) (Posix 2) 2 in
  let s := (setlk_after_sleep (setlk_turn demo_locks rq Read F_SETLKW).1 rq Read F_SETLKW (Err ERESTARTSYS)).1 in
  waiting_for (file_lock_waiters s) (Posix 2) = Some (Posix 1) ∧
  (setlk_turn s demo_request Write F_SETLKW).2 = LockDone (Err EDEADLK).
Proof. by split. Qed.
