(* ===== verification/Futex.v ===== *)
(** * Futex waiters (src/os/src/syscall/other.rs, src/os/src/timer.rs)

    The list of tasks that wait on a word of user memory, the list of deadlines, and the
    calls that move tasks between them: registering, waking, requeueing, giving up.  A
    task is woken by [wake_task_token_with] of src/os/src/task/mod.rs; how it blocks is
    BlockWake.v.  The user memory is added in FutexCalls.v. *)

From S2P Require Import Prelude Task.

(** [FutexWaiter]: [fw_uaddr] and [fw_key] name the word. *)
Record FutexWaiter := mkFutexWaiter {
  fw_uaddr : Z;
  fw_key : Z;
  fw_bitset : Z;
  fw_task : TaskRef;
  fw_token : Z
}.

(** [TimerWaiter] *)
Record TimerWaiter := mkTimerWaiter { tw_deadline : Z; tw_task : TaskRef; tw_token : Z }.

#[export] Instance FutexWaiter_eq_dec : EqDecision FutexWaiter.
Proof. solve_decision. Defined.

(** [manager::add_task] and [platform::notify_cpu], in the order of the calls. *)
Inductive WakeEvent : Set := WakeAdd (t : TaskRef) | WakeNotify (cpu : Z).

(** [FUTEX_WAITERS], [TIMER_WAITERS], the task blocks and the calls to the scheduler. *)
Record Futexes := mkFutexes {
  fx_waiters : list FutexWaiter;
  fx_timers : list TimerWaiter;
  fx_tasks : Store;
  fx_log : list WakeEvent
}.

Definition FUTEX_SHARED_KEY : Z := USIZE_MAX.

Implicit Types (s : Futexes) (w : FutexWaiter) (t : TaskRef).

Definition set_fx_waiters s l : Futexes := mkFutexes l (fx_timers s) (fx_tasks s) (fx_log s).
Definition set_fx_timers s l : Futexes := mkFutexes (fx_waiters s) l (fx_tasks s) (fx_log s).
Definition fx_task s t : Tcb := fx_tasks s !!! t.
Definition upd_task s t (f : Tcb → Tcb) : Futexes :=
  mkFutexes (fx_waiters s) (fx_timers s) (<[t := f (fx_task s t)]> (fx_tasks s)) (fx_log s).
Definition log_wake s (e : WakeEvent) : Futexes :=
  mkFutexes (fx_waiters s) (fx_timers s) (fx_tasks s) (fx_log s ++ [e]).

(** [position] and [remove]: the first element that satisfies [P], and the others. *)
Fixpoint pop_first {A} (P : A → bool) (l : list A) : option (A * list A) :=
  match l with
  | [] => None
  | x :: l => if P x then Some (x, l) else match pop_first P l with Some (y, r) => Some (y, x :: r) | None => None end
  end.

(** ** Waking a task *)

(** [wake_task_token_with]: whether the task still waits under this token. *)
Definition wake_task_token_with s t (token : Z) (outcome : WaitOutcome) : Futexes * bool :=
  let task := fx_task s t in
  if negb (bool_decide (t_wait_token task = token)) then (s, false)
  else if negb (bool_decide (t_status task = Blocked)) then
    match t_block_reason task with
    | Some _ => (upd_task s t (λ task, set_wait_outcome task (Some outcome)), true)
    | None => (s, false)
    end
  else
    let s := upd_task s t (λ task, set_wait_outcome (set_block_reason (set_status task Ready) None) (Some outcome)) in
    let owner := t_blocking_cpu task in
    (log_wake s (if bool_decide (owner = NO_CPU) then WakeAdd t else WakeNotify owner), true).

(** ** The word of a waiter *)

Definition on_word (uaddr key : Z) w : bool := bool_decide (fw_uaddr w = uaddr) && bool_decide (fw_key w = key).
Definition futex_match (uaddr key bitset : Z) w : bool :=
  on_word uaddr key w && negb (bool_decide (Z.land (fw_bitset w) bitset = 0)).

(** The loop of [futex_wake_addr_key]; every turn removes a waiter. *)
Fixpoint futex_wake_loop (fuel : nat) s (uaddr key n bitset woke : Z) : Futexes * Z :=
  match fuel with
  | O => (s, woke)
  | S fuel =>
      if negb (bool_decide (woke < n)) then (s, woke)
      else
        match pop_first (futex_match uaddr key bitset) (fx_waiters s) with
        | None => (s, woke)
        | Some (w, rest) =>
            let '(s, ok) := wake_task_token_with (set_fx_waiters s rest) (fw_task w) (fw_token w) Woken in
            futex_wake_loop fuel s uaddr key n bitset (if ok : bool then woke + 1 else woke)
        end
  end.

Definition futex_wake_addr_key s (uaddr key n bitset : Z) : Futexes * Z :=
  if bool_decide (uaddr = 0) || bool_decide (n = 0) then (s, 0)
  else futex_wake_loop (S (length (fx_waiters s))) s uaddr key n bitset 0.

(** ** Requeueing *)

(** The first [n] waiters of the word, and the others. *)
Fixpoint take_word (uaddr key n : Z) (l : list FutexWaiter) : list FutexWaiter * list FutexWaiter :=
  match l with
  | [] => ([], [])
  | w :: l =>
      if bool_decide (0 < n) && on_word uaddr key w then let '(a, b) := take_word uaddr key (n - 1) l in (w :: a, b)
      else let '(a, b) := take_word uaddr key n l in (a, w :: b)
  end.

(** The list with the first [n] waiters of the word at another one, and their number. *)
Fixpoint move_word (uaddr key uaddr2 key2 n : Z) (l : list FutexWaiter) : list FutexWaiter * Z :=
  match l with
  | [] => ([], 0)
  | w :: l =>
      if bool_decide (0 < n) && on_word uaddr key w then
        let '(r, m) := move_word uaddr key uaddr2 key2 (n - 1) l in
        (mkFutexWaiter uaddr2 key2 (fw_bitset w) (fw_task w) (fw_token w) :: r, m + 1)
      else let '(r, m) := move_word uaddr key uaddr2 key2 n l in (w :: r, m)
  end.

(** The wake-ups of [futex_requeue_addr], after the lock of the list. *)
Fixpoint wake_each s (l : list FutexWaiter) (woke : Z) : Futexes * Z :=
  match l with
  | [] => (s, woke)
  | w :: l =>
      let '(s, ok) := wake_task_token_with s (fw_task w) (fw_token w) Woken in
      wake_each s l (if ok : bool then woke + 1 else woke)
  end.

(** [futex_requeue_addr] once both words have their keys. *)
Definition requeue_words s (addr key addr2 key2 nr_wake nr_requeue : Z) : Futexes * Z :=
  let '(to_wake, rest) := take_word addr key nr_wake (fx_waiters s) in
  let '(rest, requeued) := move_word addr key addr2 key2 nr_requeue rest in
  let '(s, woke) := wake_each (set_fx_waiters s rest) to_wake 0 in
  (s, woke + requeued).

(** ** Registering and giving up *)

Definition of_task s (pid token : Z) w : bool :=
  bool_decide (t_pid (fx_task s (fw_task w)) = pid) && bool_decide (fw_token w = token).

Definition remove_futex_waiter s (pid token : Z) : Futexes * bool :=
  match pop_first (of_task s pid token) (fx_waiters s) with
  | Some (_, rest) => (set_fx_waiters s rest, true)
  | None => (s, false)
  end.

(** [timer::remove_timeout] *)
Definition remove_timeout s (pid token : Z) : Futexes * bool :=
  match pop_first (λ tw, bool_decide (t_pid (fx_task s (tw_task tw)) = pid) && bool_decide (tw_token tw = token)) (fx_timers s) with
  | Some (_, rest) => (set_fx_timers s rest, true)
  | None => (s, false)
  end.

(** Whether an entry is of another task than [t]. *)
Definition of_other s t (u : TaskRef) : bool := negb (bool_decide (u = t)) && negb (bool_decide (t_pid (fx_task s u) = t_pid (fx_task s t))).

Definition remove_futex_waiters_for_task s t : Futexes :=
  set_fx_waiters s (filter (λ w, of_other s t (fw_task w) = true) (fx_waiters s)).
Definition remove_task_timeouts s t : Futexes :=
  set_fx_timers s (filter (λ tw, of_other s t (tw_task tw) = true) (fx_timers s)).

(** [timer::add_timeout] without the next interrupt of the clock. *)
Definition add_timeout s (deadline : Z) t (token : Z) : Futexes :=
  set_fx_timers s (fx_timers s ++ [mkTimerWaiter deadline t token]).

(** The registration of [futex_wait_addr]: the new token. *)
Definition futex_register s t (addr key bitset : Z) : Futexes * Z :=
  let s := remove_task_timeouts (remove_futex_waiters_for_task s t) t in
  let token := (next_wait_token (fx_task s t)).2 in
  let s := upd_task s t (λ task, set_block_reason (set_wait_outcome (next_wait_token task).1 None) (Some Futex)) in
  (set_fx_waiters s (fx_waiters s ++ [mkFutexWaiter addr key bitset t token]), token).

(** The exits of [futex_wait_addr] after the registration and before the task blocks. *)
Definition futex_cancel s t (token : Z) : Futexes :=
  upd_task (remove_futex_waiter s (t_pid (fx_task s t)) token).1 t (λ task, set_wait_outcome (set_block_reason task None) None).

(** The timers that have run out, and the others. *)
Fixpoint split_expired (now : Z) (l : list TimerWaiter) : list TimerWaiter * list TimerWaiter :=
  match l with
  | [] => ([], [])
  | w :: l =>
      let '(a, b) := split_expired now l in
      if bool_decide (tw_deadline w ≤ now) then (w :: a, b) else (a, w :: b)
  end.
Definition wake_timer s (tw : TimerWaiter) : Futexes := (wake_task_token_with s (tw_task tw) (tw_token tw) TimedOut).1.
(** [wake_expired_timers] without the interval timers. *)
Definition wake_expired_timers s (now : Z) : Futexes :=
  let '(expired, rest) := split_expired now (fx_timers s) in
  foldl wake_timer (set_fx_timers s rest) expired.

(** ** Blocking *)

(** [block_current_for_reason_until] and the start of [block_current_and_run_next] for a
    user task, without a race (BlockWake.v has the races): whether the task blocks. *)
Definition block_current s t (cpu : Z) (reason : BlockReason) : Futexes * bool :=
  match t_wait_outcome (fx_task s t) with
  | Some _ => (s, false)
  | None =>
      if bool_decide (t_status (fx_task s t) = Running) then
        (upd_task s t (λ task, set_blocking_cpu (set_status (set_block_reason task (Some reason)) Blocked) cpu), true)
      else (upd_task s t (λ task, set_blocking_cpu (set_block_reason task (Some reason)) NO_CPU), false)
  end.

(** [finish_wait] of src/os/src/task/wait_queue.rs; [pending]: an unblocked signal. *)
Definition finish_wait s t (still_waiting : bool) (deadline : option Z) (now : Z) (pending : bool) : Futexes * WaitOutcome :=
  match t_wait_outcome (fx_task s t) with
  | Some o => (upd_task s t (λ task, set_wait_outcome task None), o)
  | None =>
      (s, if pending then Interrupted
          else if still_waiting && match deadline with Some d => bool_decide (d ≤ now) | None => false end then TimedOut
          else Woken)
  end.

(** ** What a wake-up does *)

(** The waiter still waits under its token: it sleeps, or is on its way to. *)
Definition live s w : bool :=
  bool_decide (t_wait_token (fx_task s (fw_task w)) = fw_token w) &&
  (bool_decide (t_status (fx_task s (fw_task w)) = Blocked) || bool_decide (is_Some (t_block_reason (fx_task s (fw_task w))))).

(** The block of a task that was woken, and what the scheduler is told. *)
Definition woken (o : WaitOutcome) (task : Tcb) : Tcb :=
  if bool_decide (t_status task = Blocked) then set_wait_outcome (set_block_reason (set_status task Ready) None) (Some o)
  else set_wait_outcome task (Some o).
Definition wake_events s t : list WakeEvent :=
  let task := fx_task s t in
  if bool_decide (t_status task = Blocked) then
    [if bool_decide (t_blocking_cpu task = NO_CPU) then WakeAdd t else WakeNotify (t_blocking_cpu task)]
  else [].

(** The waiters served when [n] live ones are to be woken, in order, and those after them. *)
Fixpoint served (lv : FutexWaiter → bool) (n : Z) (l : list FutexWaiter) : list FutexWaiter :=
  match l with
  | [] => []
  | w :: l => if bool_decide (0 < n) then w :: served lv (if lv w then n - 1 else n) l else []
  end.

(** A task has one waiter at most ([remove_futex_waiters_for_task] in [futex_wait_addr]). *)
Definition one_waiter s : Prop := NoDup (fw_task <$> fx_waiters s).

Lemma wake_live s w o :
  live s w = true →
  wake_task_token_with s (fw_task w) (fw_token w) o =
    (mkFutexes (fx_waiters s) (fx_timers s) (<[fw_task w := woken o (fx_task s (fw_task w))]> (fx_tasks s))
       (fx_log s ++ wake_events s (fw_task w)), true).
Proof.
  unfold live, wake_task_token_with, woken, wake_events. intros [Ht Hb]%andb_prop. rewrite Ht. simpl.
  case_bool_decide as Es; simpl.
  - unfold log_wake, upd_task. simpl. by case_bool_decide.
  - simpl in Hb. apply bool_decide_eq_true in Hb as [r Hr]. rewrite Hr. unfold upd_task. by rewrite app_nil_r.
Qed.

Lemma wake_dead s w o : live s w = false → wake_task_token_with s (fw_task w) (fw_token w) o = (s, false).
Proof.
  unfold live, wake_task_token_with. case_bool_decide; simpl; [|done]. case_bool_decide; simpl; [done|].
  intros Hr%bool_decide_eq_false. by destruct (t_block_reason _); [destruct Hr|].
Qed.

Lemma pop_first_spec {A} (P : A → bool) l :
  match pop_first P l with
  | Some (x, r) => ∃ l1 l2, l = l1 ++ x :: l2 ∧ r = l1 ++ l2 ∧ P x = true ∧ Forall (λ y, P y = false) l1
  | None => Forall (λ y, P y = false) l
  end.
Proof.
  induction l as [|x l IH]; simpl; [constructor|]. destruct (P x) eqn:Ex.
  - exists [], l. repeat split; auto.
  - destruct (pop_first P l) as [[y r]|].
    + destruct IH as (l1 & l2 & -> & -> & Hy & Hl). exists (x :: l1), l2. repeat split; auto.
    + by constructor.
Qed.

Lemma served_ext f g n l : (∀ w, w ∈ l → f w = g w) → served f n l = served g n l.
Proof.
  revert n. induction l as [|w l IH]; intros n H; simpl; [done|]. rewrite (H w) by left.
  rewrite IH; [done|]. intros w' ?. apply H. by right.
Qed.
Lemma served_nil lv n l : n ≤ 0 → served lv n l = [].
Proof. destruct l; simpl; [done|]. intros. by rewrite bool_decide_false by lia. Qed.
Lemma served_prefix lv n l : served lv n l `prefix_of` l.
Proof.
  revert n. induction l as [|w l IH]; intros n; simpl; [done|]. case_bool_decide; [by apply prefix_cons|apply prefix_nil].
Qed.
Lemma served_count lv n l : 0 ≤ n → zlen (filter (λ w, lv w = true) (served lv n l)) = Z.min n (zlen (filter (λ w, lv w = true) l)).
Proof.
  unfold zlen. revert n. induction l as [|w l IH]; intros n Hn; simpl; [lia|]. case_bool_decide as E.
  - rewrite !filter_cons. destruct (lv w) eqn:Ew; simpl.
    + specialize (IH (n - 1)). lia.
    + apply IH. lia.
  - simpl. lia.
Qed.

Lemma filter_false {A} (P : A → bool) l : Forall (λ y, P y = false) l → filter (λ y, P y = true) l = [].
Proof. induction 1 as [|x l Hx _ IH]; [done|]. rewrite filter_cons. by rewrite Hx; simpl. Qed.

Lemma filter_notin_all {A} `{EqDecision A} (k l : list A) : (∀ x, x ∈ l → x ∉ k) → filter (λ x, x ∉ k) l = l.
Proof.
  induction l as [|x l IH]; intros H; [done|]. rewrite filter_cons, decide_True by (apply H; left).
  f_equal. apply IH. intros y ?. apply H. by right.
Qed.

(** The tasks after the waiters of [l] were woken. *)
Definition woken_tasks s s' (l : list FutexWaiter) : Prop :=
  ∀ u, fx_task s' u = if bool_decide (u ∈ fw_task <$> l) then woken Woken (fx_task s u) else fx_task s u.

Lemma fx_task_insert s t u x l m g : fx_task (mkFutexes l m (<[t := x]> (fx_tasks s)) g) u = if bool_decide (u = t) then x else fx_task s u.
Proof.
  unfold fx_task. simpl. case_bool_decide as E; [subst; by rewrite lookup_total_insert_eq|by rewrite lookup_total_insert_ne].
Qed.

Lemma live_other s t x l m g w : fw_task w ≠ t → live (mkFutexes l m (<[t := x]> (fx_tasks s)) g) w = live s w.
Proof. intros Hne. unfold live. rewrite !fx_task_insert. by rewrite (bool_decide_false (fw_task w = t)). Qed.

Lemma filter_ext_in {A} (f g : A → bool) (l : list A) : (∀ x, x ∈ l → f x = g x) → filter (λ x, f x = true) l = filter (λ x, g x = true) l.
Proof.
  induction l as [|x l IH]; intros H; [done|]. rewrite !filter_cons, (H x) by left. rewrite IH; [done|]. intros y ?. apply H. by right.
Qed.

Lemma filter_notin_cons {A} `{EqDecision A} (x : A) (k l : list A) : x ∉ l → filter (λ y, y ∉ k) l = filter (λ y, y ∉ x :: k) l.
Proof.
  induction l as [|y l IH]; intros Hx; [done|]. apply not_elem_of_cons in Hx as [Hy Hx]. rewrite !filter_cons, IH by done.
  destruct (decide (y ∉ k)) as [Hk|Hk]; [rewrite decide_True by (by apply not_elem_of_cons)|rewrite decide_False by (rewrite not_elem_of_cons; tauto)]; done.
Qed.

Lemma list_bind_ext_in {A B} (f g : A → list B) (l : list A) : (∀ x, x ∈ l → f x = g x) → l ≫= f = l ≫= g.
Proof. induction l as [|x l IH]; intros H; [done|]. rewrite !bind_cons, (H x) by left. rewrite IH; [done|]. intros y ?. apply H. by right. Qed.

(** The tasks, the log and the count when [l] is served. *)
Definition woke_up s s' (l : list FutexWaiter) (woke r : Z) : Prop :=
  let up := filter (λ w, live s w = true) l in
  woken_tasks s s' up ∧ fx_log s' = fx_log s ++ (up ≫= λ w, wake_events s (fw_task w)) ∧ r = woke + zlen up.

(** What the loop leaves and reports when [taken] is served. *)
Definition wake_result s s' (taken : list FutexWaiter) (woke r : Z) : Prop :=
  fx_waiters s' = filter (λ w, w ∉ taken) (fx_waiters s) ∧ fx_timers s' = fx_timers s ∧ woke_up s s' taken woke r.

Lemma woke_up_nil s woke : woke_up s s [] woke woke.
Proof.
  split_and!; [|by rewrite app_nil_r|unfold zlen; simpl; lia]. intros u. by rewrite bool_decide_false by apply not_elem_of_nil.
Qed.
Lemma wake_result_nil s woke : wake_result s s [] woke woke.
Proof. split_and!; [by rewrite filter_notin_all by (intros ? _; apply not_elem_of_nil)|done|apply woke_up_nil]. Qed.

Lemma one_waiter_split s l1 w l2 :
  one_waiter s → fx_waiters s = l1 ++ w :: l2 →
  NoDup (fw_task <$> (l1 ++ l2)) ∧ ∀ w', w' ∈ l1 ++ l2 → fw_task w' ≠ fw_task w.
Proof.
  unfold one_waiter. intros Hone Ew. rewrite Ew, fmap_app, fmap_cons, <-Permutation_middle, <-fmap_app in Hone.
  apply NoDup_cons in Hone as [Hnw Hone]. split; [done|]. intros w' Hin E. apply Hnw. rewrite <-E. by apply list_elem_of_fmap_2.
Qed.

(** A turn that serves [w]. *)
Lemma wake_turn s w rest :
  let '(s1, ok) := wake_task_token_with (set_fx_waiters s rest) (fw_task w) (fw_token w) Woken in
  ok = live s w ∧ fx_waiters s1 = rest ∧ fx_timers s1 = fx_timers s ∧ (∀ w', fw_task w' ≠ fw_task w → live s1 w' = live s w') ∧
  fx_log s1 = fx_log s ++ (if live s w then wake_events s (fw_task w) else []) ∧
  (∀ u, fx_task s1 u = if live s w && bool_decide (u = fw_task w) then woken Woken (fx_task s u) else fx_task s u).
Proof.
  destruct (live s w) eqn:Elw.
  - rewrite (wake_live (set_fx_waiters s rest) w Woken Elw). cbn [fx_waiters fx_timers fx_log set_fx_waiters andb].
    split_and!; [done|done|done| |done|].
    + intros w' Hne. by apply (live_other s).
    + intros u. etrans; [apply (fx_task_insert s)|]. by case_bool_decide; subst.
  - rewrite (wake_dead (set_fx_waiters s rest) w Woken Elw). cbn [fx_waiters fx_timers fx_log set_fx_waiters andb].
    split_and!; [done|done|done|done|by rewrite app_nil_r|done].
Qed.

(** The result of a turn and of those after it. *)
Lemma woke_up_cons s s1 s' w T woke r :
  (∀ w', w' ∈ T → fw_task w' ≠ fw_task w) →
  (∀ w', fw_task w' ≠ fw_task w → live s1 w' = live s w') →
  fx_log s1 = fx_log s ++ (if live s w then wake_events s (fw_task w) else []) →
  (∀ u, fx_task s1 u = if live s w && bool_decide (u = fw_task w) then woken Woken (fx_task s u) else fx_task s u) →
  woke_up s1 s' T (if live s w then woke + 1 else woke) r → woke_up s s' (w :: T) woke r.
Proof.
  intros HT Hlive Hlog Htask (Qk & Ql & Qr).
  assert (Hup : filter (λ w, live s1 w = true) T = filter (λ w, live s w = true) T) by (apply filter_ext_in; auto).
  assert (Hev : ∀ w', w' ∈ T → wake_events s1 (fw_task w') = wake_events s (fw_task w')).
  { intros w' Hin. unfold wake_events. rewrite Htask, (bool_decide_false (fw_task w' = fw_task w)) by auto. by rewrite andb_false_r. }
  assert (Hcons : filter (λ w, live s w = true) (w :: T) = (if live s w then [w] else []) ++ filter (λ w, live s w = true) T).
  { rewrite filter_cons. by destruct (live s w). }
  rewrite Hup in *. set (up := filter _ T) in *. assert (HupT : ∀ w', w' ∈ up → w' ∈ T) by (by intros w' [_ ?]%list_elem_of_filter).
  unfold woke_up. rewrite Hcons. fold up. split_and!.
  - intros u. rewrite Qk, Htask. destruct (live s w); [|done]. cbn [app fmap list_fmap andb].
    destruct (decide (u = fw_task w)) as [->|Hu].
    + rewrite (bool_decide_true (fw_task w = _)) by done. rewrite bool_decide_false, bool_decide_true; [done|left|].
      intros (w' & E & Hin)%list_elem_of_fmap_1. by apply (HT w'); auto.
    + rewrite (bool_decide_false (u = _)) by done. rewrite (bool_decide_ext (u ∈ fw_task w :: (fw_task <$> up)) (u ∈ fw_task <$> up)); [done|].
      rewrite elem_of_cons. tauto.
  - rewrite Ql, Hlog. rewrite bind_app, <-app_assoc. f_equal. f_equal; [by destruct (live s w); [simpl; rewrite app_nil_r|]|].
    apply list_bind_ext_in. intros w' ?. auto.
  - rewrite Qr. unfold zlen. rewrite length_app. destruct (live s w); simpl; lia.
Qed.

Lemma wake_loop_spec fuel s uaddr key n bitset woke :
  (length (fx_waiters s) < fuel)%nat → one_waiter s →
  let '(s', r) := futex_wake_loop fuel s uaddr key n bitset woke in
  wake_result s s' (served (live s) (n - woke) (filter (λ w, futex_match uaddr key bitset w = true) (fx_waiters s))) woke r.
Proof.
  revert s woke. induction fuel as [|fuel IH]; intros s woke Hf Hone; [lia|]. cbn [futex_wake_loop].
  destruct (decide (woke < n)) as [Hlt|Hge]; cycle 1.
  { rewrite (bool_decide_false (woke < n)) by lia. rewrite served_nil by lia. apply wake_result_nil. }
  rewrite (bool_decide_true (woke < n)) by lia. cbn [negb].
  pose proof (pop_first_spec (futex_match uaddr key bitset) (fx_waiters s)) as Hp.
  destruct (pop_first _ (fx_waiters s)) as [[w rest]|]; cycle 1.
  { rewrite (filter_false _ _ Hp). apply wake_result_nil. }
  destruct Hp as (l1 & l2 & Ew & -> & Hw & Hl1). destruct (one_waiter_split s l1 w l2 Hone Ew) as [Hone' Hne].
  pose proof (wake_turn s w (l1 ++ l2)) as Hturn.
  destruct (wake_task_token_with _ _ _ _) as [s1 ok]. destruct Hturn as (-> & Ew1 & Et & Hlive & Hlog & Htask).
  set (woke1 := if live s w then woke + 1 else woke). specialize (IH s1 woke1). rewrite Ew1 in IH.
  unfold one_waiter in IH. rewrite Ew1 in IH. specialize (IH ltac:(rewrite Ew, length_app in Hf; simpl in Hf; rewrite length_app; lia) Hone').
  destruct (futex_wake_loop _ _ _ _ _ _ _) as [s' r].
  set (M := filter (λ w, futex_match uaddr key bitset w = true) (l1 ++ l2)) in *.
  assert (HM : filter (λ w, futex_match uaddr key bitset w = true) (fx_waiters s) = w :: M).
  { rewrite Ew, filter_app, (filter_false _ _ Hl1), filter_cons, Hw. subst M. by rewrite filter_app, (filter_false _ _ Hl1). }
  assert (HMin : ∀ w', w' ∈ M → w' ∈ l1 ++ l2) by (by intros w' [_ ?]%list_elem_of_filter).
  rewrite HM. cbn [served]. rewrite bool_decide_true by lia.
  rewrite (served_ext (live s1) (live s)) in IH by (intros; apply Hlive; auto).
  replace (n - woke1) with (if live s w then n - woke - 1 else n - woke) in IH by (subst woke1; destruct (live s w); lia).
  assert (HTin : ∀ w', w' ∈ served (live s) (if live s w then n - woke - 1 else n - woke) M → w' ∈ l1 ++ l2).
  { intros w' Hin. apply HMin. destruct (served_prefix (live s) (if live s w then n - woke - 1 else n - woke) M) as [q ->]. apply elem_of_app. by left. }
  destruct IH as (Qw & Qt & Qup). split_and!; [|by rewrite Qt|eapply woke_up_cons; eauto].
  rewrite Qw, Ew1, Ew, !filter_app, filter_cons, decide_False by (intros Hn; apply Hn; left).
  rewrite <-!filter_app. apply filter_notin_cons. intros Hin. by destruct (Hne w Hin).
Qed.

Lemma one_waiter_NoDup s : one_waiter s → NoDup (fx_waiters s).
Proof. apply NoDup_fmap_1. Qed.

Lemma futex_wake_result s uaddr key n bitset :
  one_waiter s → uaddr ≠ 0 → 0 ≤ n →
  let '(s', r) := futex_wake_addr_key s uaddr key n bitset in
  wake_result s s' (served (live s) n (filter (λ w, futex_match uaddr key bitset w = true) (fx_waiters s))) 0 r.
Proof.
  intros Hone Hu Hn. unfold futex_wake_addr_key. rewrite (bool_decide_false (uaddr = 0)) by done. cbn [orb].
  case_bool_decide as E; [subst; rewrite served_nil by lia; apply wake_result_nil|].
  pose proof (wake_loop_spec (S (length (fx_waiters s))) s uaddr key n bitset 0) as Hs. rewrite Z.sub_0_r in Hs.
  apply Hs; [lia|done].
Qed.

(** ** The result of a requeue *)

(** The first [n] waiters of a word. *)
Definition first_on (uaddr key n : Z) (l : list FutexWaiter) : list FutexWaiter :=
  take (Z.to_nat n) (filter (λ w, on_word uaddr key w = true) l).
Definition relocate (uaddr2 key2 : Z) w : FutexWaiter := mkFutexWaiter uaddr2 key2 (fw_bitset w) (fw_task w) (fw_token w).

Lemma first_on_cons uaddr key n w l :
  first_on uaddr key n (w :: l) =
    if bool_decide (0 < n) && on_word uaddr key w then w :: first_on uaddr key (n - 1) l else first_on uaddr key n l.
Proof.
  unfold first_on. rewrite filter_cons. case_bool_decide as En; simpl.
  - destruct (on_word uaddr key w); simpl; [|done]. by replace (Z.to_nat n) with (S (Z.to_nat (n - 1))) by lia.
  - replace (Z.to_nat n) with 0%nat by lia. by destruct (on_word uaddr key w).
Qed.
Lemma first_on_in uaddr key n l w : w ∈ first_on uaddr key n l → w ∈ l ∧ on_word uaddr key w = true.
Proof. unfold first_on. intros Hin%elem_of_take. destruct Hin as (i & Hi & _). apply list_elem_of_lookup_2, list_elem_of_filter in Hi. tauto. Qed.

Lemma take_word_spec uaddr key n l :
  NoDup l → take_word uaddr key n l = (first_on uaddr key n l, filter (λ w, w ∉ first_on uaddr key n l) l).
Proof.
  revert n. induction l as [|w l IH]; intros n Hnd; [unfold first_on; by rewrite filter_nil, take_nil|].
  apply NoDup_cons in Hnd as [Hw Hnd]. cbn [take_word]. rewrite first_on_cons, filter_cons.
  destruct (bool_decide (0 < n) && on_word uaddr key w).
  - rewrite IH, decide_False by (done || intros Hn; apply Hn; left). by rewrite (filter_notin_cons w _ l Hw).
  - rewrite IH by done. rewrite decide_True; [done|]. intros [Hin _]%first_on_in. done.
Qed.

Lemma move_word_spec uaddr key uaddr2 key2 n l :
  NoDup l → move_word uaddr key uaddr2 key2 n l =
    ((λ w, if bool_decide (w ∈ first_on uaddr key n l) then relocate uaddr2 key2 w else w) <$> l, zlen (first_on uaddr key n l)).
Proof.
  revert n. induction l as [|w l IH]; intros n Hnd; [unfold first_on; by rewrite filter_nil, take_nil|].
  apply NoDup_cons in Hnd as [Hw Hnd]. cbn [move_word]. rewrite first_on_cons. cbn [fmap list_fmap].
  destruct (bool_decide (0 < n) && on_word uaddr key w).
  - rewrite IH by done. rewrite bool_decide_true by left. f_equal; [|unfold zlen; cbn [length]; lia]. unfold relocate at 1. f_equal.
    apply list_fmap_ext. intros i w' Hi. rewrite (bool_decide_ext (w' ∈ w :: _) (w' ∈ first_on uaddr key (n - 1) l)); [done|].
    rewrite elem_of_cons. apply list_elem_of_lookup_2 in Hi. naive_solver.
  - rewrite IH by done. rewrite (bool_decide_false (w ∈ _)) by (intros [Hin _]%first_on_in; done). done.
Qed.

Lemma wake_each_spec l s woke :
  NoDup (fw_task <$> l) →
  let '(s', r) := wake_each s l woke in
  fx_waiters s' = fx_waiters s ∧ fx_timers s' = fx_timers s ∧ woke_up s s' l woke r.
Proof.
  revert s woke. induction l as [|w l IH]; intros s woke Hnd; [split_and!; [done|done|apply woke_up_nil]|].
  cbn [fmap list_fmap] in Hnd. apply NoDup_cons in Hnd as [Hw Hnd]. cbn [wake_each].
  pose proof (wake_turn s w (fx_waiters s)) as Hturn. replace (set_fx_waiters s (fx_waiters s)) with s in Hturn by (by destruct s).
  destruct (wake_task_token_with _ _ _ _) as [s1 ok]. destruct Hturn as (-> & Ew1 & Et & Hlive & Hlog & Htask).
  specialize (IH s1 (if live s w then woke + 1 else woke) Hnd). destruct (wake_each _ _ _) as [s' r].
  destruct IH as (Qw & Qt & Qup). split_and!; [by rewrite Qw|by rewrite Qt|]. eapply woke_up_cons; eauto.
  intros w' Hin E. apply Hw. rewrite <-E. by apply list_elem_of_fmap_2.
Qed.

(** C19: a wake-up serves the waiters of its word in the order they came.  Of those on the
    word whose bits meet the mask, [futex_wake_addr_key] takes the shortest prefix with [n]
    that still wait (or all); it wakes these, hands each that sleeps to the scheduler once,
    drops the stale ones among them, keeps every other waiter in its place and every other
    task as it is, and returns how many it woke. *)
Theorem futex_wake_correct s uaddr key n bitset :
  one_waiter s → uaddr ≠ 0 → 0 ≤ n →
  let queue := filter (λ w, futex_match uaddr key bitset w = true) (fx_waiters s) in
  let taken := served (live s) n queue in
  let up := filter (λ w, live s w = true) taken in
  let '(s', r) := futex_wake_addr_key s uaddr key n bitset in
  taken `prefix_of` queue ∧ fx_waiters s' = filter (λ w, w ∉ taken) (fx_waiters s) ∧
  r = zlen up ∧ r = Z.min n (zlen (filter (λ w, live s w = true) queue)) ∧
  woken_tasks s s' up ∧ fx_log s' = fx_log s ++ (up ≫= λ w, wake_events s (fw_task w)) ∧ fx_timers s' = fx_timers s.
Proof.
  intros Hone Hu Hn queue taken up. pose proof (futex_wake_result s uaddr key n bitset Hone Hu Hn) as Hr.
  destruct (futex_wake_addr_key _ _ _ _ _) as [s' r]. destruct Hr as (Hw & Ht & Hk & Hl & Hr).
  split_and!; [apply served_prefix|done|exact Hr| |done|done|done].
  rewrite Hr. by apply served_count.
Qed.

Lemma first_on_tasks uaddr key n s : one_waiter s → NoDup (fw_task <$> first_on uaddr key n (fx_waiters s)).
Proof.
  unfold one_waiter, first_on. intros Hone. eapply sublist_NoDup; [exact Hone|].
  apply fmap_sublist. etrans; [apply sublist_take|apply sublist_filter].
Qed.

Lemma one_waiter_moved s P (moved : list FutexWaiter) uaddr2 key2 `{∀ w, Decision (P w)} :
  one_waiter s →
  one_waiter (set_fx_waiters s ((λ w, if bool_decide (w ∈ moved) then relocate uaddr2 key2 w else w) <$> filter P (fx_waiters s))).
Proof.
  intros Hone. unfold one_waiter. cbn [fx_waiters set_fx_waiters].
  rewrite <-list_fmap_compose. rewrite (list_fmap_ext _ fw_task) by (intros i w _; simpl; by case_bool_decide).
  eapply sublist_NoDup; [exact Hone|]. apply fmap_sublist, sublist_filter.
Qed.

(** A requeue wakes the first [nr_wake] waiters of the first word that still wait and
    moves the [nr_requeue] after them to the second word, in order and without a change to
    their tasks, tokens and bits; nothing else moves. *)
Theorem futex_requeue_correct s addr key addr2 key2 nr_wake nr_requeue :
  one_waiter s →
  let taken := first_on addr key nr_wake (fx_waiters s) in
  let rest := filter (λ w, w ∉ taken) (fx_waiters s) in
  let moved := first_on addr key nr_requeue rest in
  let up := filter (λ w, live s w = true) taken in
  let '(s', r) := requeue_words s addr key addr2 key2 nr_wake nr_requeue in
  fx_waiters s' = (λ w, if bool_decide (w ∈ moved) then relocate addr2 key2 w else w) <$> rest ∧
  r = zlen up + zlen moved ∧ woken_tasks s s' up ∧ fx_log s' = fx_log s ++ (up ≫= λ w, wake_events s (fw_task w)) ∧
  fx_timers s' = fx_timers s ∧ one_waiter s'.
Proof.
  intros Hone taken rest moved up. pose proof (one_waiter_NoDup s Hone) as Hnd.
  unfold requeue_words. rewrite (take_word_spec _ _ _ _ Hnd). fold taken. fold rest.
  assert (Hnd' : NoDup rest) by (by apply NoDup_filter). rewrite (move_word_spec _ _ _ _ _ _ Hnd'). fold moved.
  set (l := (λ w, if bool_decide (w ∈ moved) then relocate addr2 key2 w else w) <$> rest).
  pose proof (wake_each_spec taken (set_fx_waiters s l) 0 (first_on_tasks _ _ _ _ Hone)) as He.
  destruct (wake_each _ _ _) as [s' r]. destruct He as (Hw & Ht & Hk & Hl & Hr).
  change (filter (λ w, live (set_fx_waiters s l) w = true) taken) with up in *.
  split_and!; [done|by rewrite Hr|done|done|done|].
  unfold one_waiter. rewrite Hw. by apply one_waiter_moved.
Qed.

(** ** No waiter is out of reach *)

(** What other tasks hold between two accesses: waiters popped and not yet woken, and
    timers that have run out. *)
Abbreviation FxRun := (Futexes * list FutexWaiter * list TimerWaiter)%type.

(** The accesses to the lists and to the block of the task [me] while it waits, one lock
    at a time.  [StepOther] is any change of another task's block; a task pushes a waiter
    only when it has none ([StepPush], after [StepPurge]). *)
Inductive fx_step (me : TaskRef) : FxRun → FxRun → Prop :=
  | StepPop s h d uaddr key bitset w rest :
      pop_first (futex_match uaddr key bitset) (fx_waiters s) = Some (w, rest) →
      fx_step me (s, h, d) (set_fx_waiters s rest, w :: h, d)
  | StepRequeue s h d uaddr key uaddr2 key2 n m to_wake rest rest' k :
      take_word uaddr key n (fx_waiters s) = (to_wake, rest) → move_word uaddr key uaddr2 key2 m rest = (rest', k) →
      fx_step me (s, h, d) (set_fx_waiters s rest', to_wake ++ h, d)
  | StepWake s h1 w h2 d :
      fx_step me (s, h1 ++ w :: h2, d) ((wake_task_token_with s (fw_task w) (fw_token w) Woken).1, h1 ++ h2, d)
  | StepExpire s h d now expired rest :
      split_expired now (fx_timers s) = (expired, rest) → fx_step me (s, h, d) (set_fx_timers s rest, h, expired ++ d)
  | StepTimeout s h d1 tw d2 : fx_step me (s, h, d1 ++ tw :: d2) (wake_timer s tw, h, d1 ++ d2)
  | StepOther s h d u f :
      u ≠ me → is_Some (fx_tasks s !! u) → (∀ task, t_pid (f task) = t_pid task) → fx_step me (s, h, d) (upd_task s u f, h, d)
  | StepPush s h d w :
      fw_task w ≠ me → fw_task w ∉ fw_task <$> fx_waiters s → fx_step me (s, h, d) (set_fx_waiters s (fx_waiters s ++ [w]), h, d)
  | StepRemove s h d u token :
      u ≠ me → is_Some (fx_tasks s !! u) → fx_step me (s, h, d) ((remove_futex_waiter s (t_pid (fx_task s u)) token).1, h, d)
  | StepPurge s h d u :
      u ≠ me → is_Some (fx_tasks s !! u) → fx_step me (s, h, d) (remove_task_timeouts (remove_futex_waiters_for_task s u) u, h, d)
  | StepTimer s h d deadline u token : fx_step me (s, h, d) (add_timeout s deadline u token, h, d)
  | StepSignal s h d :
      t_status (fx_task s me) = Blocked → fx_step me (s, h, d) (upd_task s me (woken Interrupted), h, d)
  | StepBlock s h d cpu : fx_step me (s, h, d) ((block_current s me cpu Futex).1, h, d)
  | StepUnwind s h d cpu : fx_step me (s, h, d) (upd_task s me (λ task, set_blocking_cpu task cpu), h, d).

(** Other tasks have other pids. *)
Definition pid_apart s (me : TaskRef) : Prop := ∀ u, is_Some (fx_tasks s !! u) → u ≠ me → t_pid (fx_task s u) ≠ t_pid (fx_task s me).

(** The task has an outcome, or a waker can find its waiter and will not find it stale. *)
Definition reachable_waiter (me : TaskRef) (token : Z) (r : FxRun) : Prop :=
  let '(s, h, d) := r in
  is_Some (t_wait_outcome (fx_task s me)) ∨
  ∃ w, w ∈ fx_waiters s ++ h ∧ fw_task w = me ∧ fw_token w = token ∧ live s w = true.

(** The invariant of a wait under [token]. *)
Record waiting (me : TaskRef) (token : Z) (r : FxRun) : Prop := {
  wg_apart : pid_apart r.1.1 me;
  wg_known : is_Some (fx_tasks r.1.1 !! me);
  wg_token : t_wait_token (fx_task r.1.1 me) = token;
  wg_reach : is_Some (t_wait_outcome (fx_task r.1.1 me)) ∨
    is_Some (t_block_reason (fx_task r.1.1 me)) ∧ ∃ w, w ∈ fx_waiters r.1.1 ++ r.1.2 ∧ fw_task w = me ∧ fw_token w = token;
  wg_one : one_waiter r.1.1
}.

(** Only the two lists and the block of [me] matter. *)
Lemma fx_task_upd s t f u : fx_task (upd_task s t f) u = if bool_decide (u = t) then f (fx_task s t) else fx_task s u.
Proof. apply (fx_task_insert s). Qed.

(** The lists change: what is of [me] stays in one of them. *)
Lemma waiting_lists me token s h d s' h' d' :
  waiting me token (s, h, d) → fx_tasks s' = fx_tasks s → one_waiter s' →
  (∀ w, w ∈ fx_waiters s ++ h → fw_task w = me →
    ∃ w', w' ∈ fx_waiters s' ++ h' ∧ fw_task w' = me ∧ fw_token w' = fw_token w) →
  waiting me token (s', h', d').
Proof.
  intros [Ha Hk Ht Hr Ho] E Ho' Hkeep. cbn [fst snd] in *.
  split; cbn [fst snd]; unfold pid_apart, fx_task in *; rewrite ?E; try done.
  destruct Hr as [?|[? (w & Hin & Ew & Et)]]; [by left|right; split; [done|]].
  destruct (Hkeep w Hin Ew) as (w' & ? & ? & ?). exists w'. split_and!; congruence.
Qed.

(** A block changes: that of [me] keeps pid and token, and gets an outcome or keeps a reason. *)
Lemma waiting_upd me token s h d u f l :
  waiting me token (s, h, d) → is_Some (fx_tasks s !! u) → (∀ task, t_pid (f task) = t_pid task) →
  (u = me → ∀ task, t_wait_token (f task) = t_wait_token task ∧
    (is_Some (t_wait_outcome (f task)) ∨
     t_wait_outcome (f task) = t_wait_outcome task ∧ (is_Some (t_block_reason task) → is_Some (t_block_reason (f task))))) →
  waiting me token (mkFutexes (fx_waiters s) (fx_timers s) (<[u := f (fx_task s u)]> (fx_tasks s)) l, h, d).
Proof.
  intros [Ha Hk Ht Hr Ho] Hu Hpid Hme. cbn [fst snd] in *.
  set (s' := mkFutexes _ _ _ _). assert (Htask : ∀ v, fx_task s' v = if bool_decide (v = u) then f (fx_task s u) else fx_task s v) by exact (λ v, fx_task_insert s u v _ _ _ _).
  assert (Hp : ∀ v, t_pid (fx_task s' v) = t_pid (fx_task s v)) by (intros v; rewrite Htask; case_bool_decide; [subst; apply Hpid|done]).
  assert (Hdom : ∀ v, is_Some (fx_tasks s' !! v) → is_Some (fx_tasks s !! v)).
  { intros v. unfold s'. cbn [fx_tasks]. destruct (decide (v = u)) as [->|]; [done|by rewrite lookup_insert_ne by done]. }
  split; cbn [fst snd].
  - intros v Hv Hne. rewrite !Hp. auto.
  - unfold s'. cbn [fx_tasks]. rewrite lookup_insert_is_Some. destruct (decide (u = me)); auto.
  - rewrite Htask. case_bool_decide as E; [|done]. subst u. by rewrite (proj1 (Hme eq_refl _)).
  - rewrite Htask. case_bool_decide as E; [|done]. subst u. destruct (Hme eq_refl (fx_task s me)) as [_ [?|[-> Hb]]]; [by left|].
    destruct Hr as [?|[? ?]]; [by left|right; auto].
  - done.
Qed.

(** A waiter leaves the hand of its waker. *)
Lemma waiting_hand me token s h1 w h2 d :
  waiting me token (s, h1 ++ w :: h2, d) → (fw_task w = me → fw_token w = token → is_Some (t_wait_outcome (fx_task s me)) ∨ t_block_reason (fx_task s me) = None) →
  waiting me token (s, h1 ++ h2, d).
Proof.
  intros [Ha Hk Ht Hr Ho] Hw. cbn [fst snd] in *. split; cbn [fst snd]; try done.
  destruct Hr as [?|[Hb (w' & Hin & Ew & Et)]]; [by left|]. destruct (decide (w' = w)) as [->|Hne].
  - destruct (Hw Ew Et) as [?|E]; [by left|]. rewrite E in Hb. by destruct Hb.
  - right. split; [done|]. exists w'. split_and!; [|done|done]. rewrite !elem_of_app, elem_of_cons in *. naive_solver.
Qed.

(** A wake-up changes nothing, because the entry is stale, or gives an outcome. *)
Lemma wake_cases s t token o :
  (live s (mkFutexWaiter 0 0 0 t token) = false ∧ wake_task_token_with s t token o = (s, false)) ∨
  (live s (mkFutexWaiter 0 0 0 t token) = true ∧ is_Some (fx_tasks s !! t) ∧
   wake_task_token_with s t token o =
     (mkFutexes (fx_waiters s) (fx_timers s) (<[t := woken o (fx_task s t)]> (fx_tasks s)) (fx_log s ++ wake_events s t), true)).
Proof.
  pose proof (wake_live s (mkFutexWaiter 0 0 0 t token) o) as Hl. pose proof (wake_dead s (mkFutexWaiter 0 0 0 t token) o) as Hd.
  destruct (live _ _) eqn:E; [right|left; auto]. split_and!; [done| |by apply Hl].
  unfold live in E. cbn [fw_task fw_token] in E. apply andb_prop in E as [_ E]. unfold fx_task in E. rewrite lookup_total_alt in E.
  by destruct (fx_tasks s !! t).
Qed.

Lemma woken_facts o task :
  t_pid (woken o task) = t_pid task ∧ t_wait_token (woken o task) = t_wait_token task ∧ t_wait_outcome (woken o task) = Some o.
Proof. unfold woken. by case_bool_decide. Qed.

Lemma waiting_wake me token s h d t k o :
  waiting me token (s, h, d) → waiting me token ((wake_task_token_with s t k o).1, h, d).
Proof.
  intros Hw. destruct (wake_cases s t k o) as [[_ ->]|(_ & Hd & ->)]; [done|]. cbn [fst].
  apply (waiting_upd me token s h d t (woken o)); [done|done|apply woken_facts|].
  intros _ task. destruct (woken_facts o task) as (_ & -> & ->). split; [done|left; eauto].
Qed.

(** Once its own waiter is served, the task has an outcome, unless it is not waiting. *)
Lemma wake_own me token s o :
  t_wait_token (fx_task s me) = token →
  is_Some (t_wait_outcome (fx_task (wake_task_token_with s me token o).1 me)) ∨
  t_block_reason (fx_task (wake_task_token_with s me token o).1 me) = None.
Proof.
  intros Ht. destruct (wake_cases s me token o) as [[Hl ->]|(_ & _ & ->)]; cbn [fst].
  - right. unfold live in Hl. cbn [fw_task fw_token] in Hl. rewrite bool_decide_true in Hl by done. simpl in Hl.
    apply orb_false_elim in Hl as [_ Hl%bool_decide_eq_false]. destruct (t_block_reason _); [by destruct Hl; eauto|done].
  - left. rewrite fx_task_insert, bool_decide_true by done. destruct (woken_facts o (fx_task s me)) as (_ & _ & ->). eauto.
Qed.

(** A task with another pid gives up. *)
Lemma waiting_removed me token s h d u tk :
  waiting me token (s, h, d) → u ≠ me → is_Some (fx_tasks s !! u) →
  waiting me token ((remove_futex_waiter s (t_pid (fx_task s u)) tk).1, h, d).
Proof.
  intros Hw Hne Hu. assert (Hpid := wg_apart _ _ _ Hw u Hu Hne). assert (Ho : one_waiter s) by apply (wg_one _ _ _ Hw). cbn [fst snd] in *.
  unfold remove_futex_waiter. pose proof (pop_first_spec (of_task s (t_pid (fx_task s u)) tk) (fx_waiters s)) as Hp.
  destruct (pop_first _ _) as [[w rest]|]; [|done]. destruct Hp as (l1 & l2 & El & -> & Hm & _). cbn [fst].
  destruct (one_waiter_split s l1 w l2 Ho El) as [Ho' _]. eapply waiting_lists; [exact Hw|done|exact Ho'|].
  intros w' Hin Ew. exists w'. cbn [fx_waiters set_fx_waiters]. split_and!; [|done|done]. rewrite El in Hin.
  repeat rewrite ?elem_of_app, ?elem_of_cons in *. destruct Hin as [[?|[->|?]]|?]; auto.
  unfold of_task in Hm. rewrite Ew in Hm. apply andb_prop in Hm as [Hm%bool_decide_eq_true _]. congruence.
Qed.

Lemma waiting_step me token r r' : waiting me token r → fx_step me r r' → waiting me token r'.
Proof.
  intros Hw Hstep. assert (Ho : one_waiter r.1.1) by apply Hw. assert (Hnd := one_waiter_NoDup _ Ho). assert (Hk := wg_known _ _ _ Hw).
  destruct Hstep as [s h d uaddr key bitset w rest E|s h d uaddr key uaddr2 key2 n m to_wake rest rest' k E1 E2|s h1 w h2 d|
    s h d now expired rest E|s h d1 tw d2|s h d u f Hne Hu Hf|s h d w Hne Hnew|s h d u tk Hne Hu|s h d u Hne Hu|s h d dl u tk|s h d Hb|s h d cpu|s h d cpu];
    cbn [fst snd] in *.
  - pose proof (pop_first_spec (futex_match uaddr key bitset) (fx_waiters s)) as Hp. rewrite E in Hp. destruct Hp as (l1 & l2 & El & -> & _).
    destruct (one_waiter_split s l1 w l2 Ho El) as [Ho' _]. eapply waiting_lists; [exact Hw|done|exact Ho'|].
    intros w' Hin Ew. exists w'. cbn [fx_waiters set_fx_waiters]. rewrite El in Hin. repeat rewrite ?elem_of_app, ?elem_of_cons in *. naive_solver.
  - rewrite (take_word_spec _ _ _ _ Hnd) in E1. injection E1 as <- <-. set (taken := first_on uaddr key n (fx_waiters s)) in *.
    assert (Hnd' : NoDup (filter (λ w, w ∉ taken) (fx_waiters s))) by (by apply NoDup_filter).
    rewrite (move_word_spec _ _ _ _ _ _ Hnd') in E2. injection E2 as <- <-. eapply waiting_lists; [exact Hw|done|by apply one_waiter_moved|].
    intros w Hin Ew. cbn [fx_waiters set_fx_waiters]. destruct (decide (w ∈ taken)) as [Ht|Ht].
    { exists w. rewrite !elem_of_app. auto. }
    apply elem_of_app in Hin as [Hin|Hin]; [|exists w; rewrite !elem_of_app; auto].
    eexists. split; [apply elem_of_app; left; apply list_elem_of_fmap_2, list_elem_of_filter; done|]. by case_bool_decide.
  - destruct (decide (fw_task w = me ∧ fw_token w = token)) as [[Ew Et]|Hno].
    + apply (waiting_hand _ _ _ _ w); [by apply waiting_wake|]. intros _ _. rewrite Ew, Et. apply wake_own. by apply (wg_token _ _ _ Hw).
    + apply (waiting_hand _ _ _ _ w); [by apply waiting_wake|]. intros Ew Et. by destruct Hno.
  - apply (waiting_lists me token s h d); [exact Hw|done|done|eauto].
  - apply waiting_wake. by apply (waiting_lists me token s h (d1 ++ tw :: d2)); eauto.
  - apply (waiting_upd me token s h d u f); auto. by intros ->.
  - eapply waiting_lists; [exact Hw|done| |].
    + unfold one_waiter. cbn [fx_waiters set_fx_waiters]. rewrite fmap_app. apply NoDup_app. split_and!; [done| |apply NoDup_singleton].
      intros x Hx ->%list_elem_of_singleton. done.
    + intros w' Hin Ew. exists w'. cbn [fx_waiters set_fx_waiters]. rewrite !elem_of_app in *. tauto.
  - by apply waiting_removed.
  - assert (Hpid := wg_apart _ _ _ Hw u Hu Hne). eapply waiting_lists; [exact Hw|done| |].
    + unfold one_waiter. eapply sublist_NoDup; [exact Ho|]. apply fmap_sublist, sublist_filter.
    + intros w Hin Ew. exists w. split_and!; [|done|done]. apply elem_of_app in Hin as [Hin|Hin]; apply elem_of_app; [left|by right].
      apply list_elem_of_filter. split; [|done]. unfold of_other. rewrite Ew, !bool_decide_false; auto.
  - apply (waiting_lists me token s h d); [exact Hw|done|done|eauto].
  - apply (waiting_upd me token s h d me (woken Interrupted)); [done|done|apply woken_facts|].
    intros _ task. destruct (woken_facts Interrupted task) as (_ & -> & ->). split; [done|left; eauto].
  - unfold block_current. destruct (t_wait_outcome (fx_task s me)); [done|]. case_bool_decide; cbn [fst].
    + apply (waiting_upd me token s h d me); [done|done|done|]. intros _ task. split; [done|right]. split; [done|]. simpl. eauto.
    + apply (waiting_upd me token s h d me); [done|done|done|]. intros _ task. split; [done|right]. split; [done|]. simpl. eauto.
  - apply (waiting_upd me token s h d me (λ task, set_blocking_cpu task cpu)); auto.
Qed.

(** Every operation keeps at most one waiter per task. *)
Lemma one_waiter_sublist s s' : one_waiter s → fx_waiters s' `sublist_of` fx_waiters s → one_waiter s'.
Proof. unfold one_waiter. intros Ho Hs. eapply sublist_NoDup; [exact Ho|]. by apply fmap_sublist. Qed.

Lemma wake_token_waiters s t k o : fx_waiters (wake_task_token_with s t k o).1 = fx_waiters s.
Proof. destruct (wake_cases s t k o) as [[_ ->]|(_ & _ & ->)]; done. Qed.

Lemma pop_first_sublist {A} (P : A → bool) l x r : pop_first P l = Some (x, r) → r `sublist_of` l.
Proof.
  intros E. pose proof (pop_first_spec P l) as Hp. rewrite E in Hp. destruct Hp as (l1 & l2 & -> & -> & _).
  apply sublist_app; [done|by apply sublist_cons].
Qed.

Lemma wake_loop_sublist fuel s uaddr key n bitset woke :
  fx_waiters (futex_wake_loop fuel s uaddr key n bitset woke).1 `sublist_of` fx_waiters s.
Proof.
  revert s woke. induction fuel as [|fuel IH]; intros s woke; cbn [futex_wake_loop]; [done|].
  destruct (negb _); [done|]. destruct (pop_first _ _) as [[w rest]|] eqn:E; [|done].
  pose proof (wake_token_waiters (set_fx_waiters s rest) (fw_task w) (fw_token w) Woken) as Hw.
  destruct (wake_task_token_with _ _ _ _) as [s1 ok]. cbn [fst fx_waiters set_fx_waiters] in Hw.
  etrans; [apply IH|]. rewrite Hw. by eapply pop_first_sublist.
Qed.

Lemma wake_keeps_one s uaddr key n bitset : one_waiter s → one_waiter (futex_wake_addr_key s uaddr key n bitset).1.
Proof.
  intros Ho. eapply one_waiter_sublist; [exact Ho|]. unfold futex_wake_addr_key. destruct (_ || _); [done|apply wake_loop_sublist].
Qed.

Lemma requeue_keeps_one s addr key addr2 key2 n m : one_waiter s → one_waiter (requeue_words s addr key addr2 key2 n m).1.
Proof.
  intros Ho. pose proof (one_waiter_NoDup s Ho) as Hnd. unfold requeue_words. rewrite (take_word_spec _ _ _ _ Hnd).
  set (taken := first_on _ _ _ _). assert (Hnd' : NoDup (filter (λ w, w ∉ taken) (fx_waiters s))) by (by apply NoDup_filter).
  rewrite (move_word_spec _ _ _ _ _ _ Hnd'). set (l := fmap _ _).
  pose proof (wake_each_spec taken (set_fx_waiters s l) 0 (first_on_tasks _ _ _ _ Ho)) as He.
  destruct (wake_each _ _ _) as [s' r]. destruct He as [Hw _]. unfold one_waiter. cbn [fst]. rewrite Hw. by apply one_waiter_moved.
Qed.

Lemma remove_keeps_one s pid token : one_waiter s → one_waiter (remove_futex_waiter s pid token).1.
Proof.
  intros Ho. eapply one_waiter_sublist; [exact Ho|]. unfold remove_futex_waiter. destruct (pop_first _ _) as [[w rest]|] eqn:E; [|done].
  by eapply pop_first_sublist.
Qed.

Lemma register_keeps_one s t addr key bitset : one_waiter s → one_waiter (futex_register s t addr key bitset).1.
Proof.
  intros Ho. unfold one_waiter, futex_register.
  cbn [fst fx_waiters set_fx_waiters upd_task remove_task_timeouts set_fx_timers remove_futex_waiters_for_task].
  rewrite fmap_app. apply NoDup_app. split_and!; [|intros x Hx|apply NoDup_singleton].
  - eapply sublist_NoDup; [exact Ho|]. apply fmap_sublist, sublist_filter.
  - intros ->%list_elem_of_singleton. apply list_elem_of_fmap_1 in Hx as (w & E & [Hw _]%list_elem_of_filter). simpl in E.
    unfold of_other in Hw. by rewrite <-E, bool_decide_true in Hw by done.
Qed.

Lemma waiting_registered s me addr key bitset s1 token :
  one_waiter s → pid_apart s me → is_Some (fx_tasks s !! me) → futex_register s me addr key bitset = (s1, token) →
  waiting me token (s1, [], []).
Proof.
  intros Ho Ha Hk E. unfold futex_register in E. set (f := λ task, set_block_reason (set_wait_outcome (next_wait_token task).1 None) (Some Futex)) in E.
  change (fx_task (remove_task_timeouts (remove_futex_waiters_for_task s me) me) me) with (fx_task s me) in E.
  injection E as <- <-. set (s0 := upd_task _ me f).
  assert (Htask : ∀ v, fx_task s0 v = if bool_decide (v = me) then f (fx_task s me) else fx_task s v) by exact (λ v, fx_task_insert s me v _ _ _ _).
  split; cbn [fst snd].
  - intros v Hv Hne. change (t_pid (fx_task s0 v) ≠ t_pid (fx_task s0 me)). rewrite !Htask, (bool_decide_true (me = me)), bool_decide_false by done.
    apply Ha; [|done]. cbn [fx_tasks set_fx_waiters s0 upd_task] in Hv. by rewrite lookup_insert_ne in Hv by done.
  - cbn [fx_tasks set_fx_waiters s0 upd_task]. rewrite lookup_insert_is_Some. auto.
  - change (t_wait_token (fx_task s0 me) = (next_wait_token (fx_task s me)).2). by rewrite Htask, bool_decide_true by done.
  - right. split; [change (is_Some (t_block_reason (fx_task s0 me))); rewrite Htask, bool_decide_true by done; simpl; eauto|].
    eexists. split; [rewrite app_nil_r; cbn [fx_waiters set_fx_waiters]; apply elem_of_app; right; by left|]. done.
  - by apply (register_keeps_one s me addr key bitset).
Qed.

Lemma served_all lv n l : zlen l ≤ n → served lv n l = l.
Proof.
  unfold zlen. revert n. induction l as [|w l IH]; intros n Hn; [done|]. cbn [served length] in *.
  rewrite bool_decide_true by lia. f_equal. apply IH. destruct (lv w); lia.
Qed.

(** A wake-up of as many as wait reaches every live waiter of the word. *)
Lemma wake_all_reaches s w n b :
  one_waiter s → w ∈ fx_waiters s → live s w = true → fw_uaddr w ≠ 0 → zlen (fx_waiters s) ≤ n → Z.land (fw_bitset w) b ≠ 0 →
  t_wait_outcome (fx_task (futex_wake_addr_key s (fw_uaddr w) (fw_key w) n b).1 (fw_task w)) = Some Woken.
Proof.
  intros Ho Hin Hl Hu Hn Hb. pose proof (futex_wake_result s (fw_uaddr w) (fw_key w) n b Ho Hu) as Hr.
  destruct (futex_wake_addr_key _ _ _ _ _) as [s' r]. destruct Hr as (_ & _ & Hk & _); [unfold zlen in *; lia|].
  cbn [fst]. rewrite Hk, bool_decide_true; [apply woken_facts|]. apply list_elem_of_fmap_2, list_elem_of_filter. split; [done|].
  rewrite served_all.
  - apply list_elem_of_filter. split; [|done]. unfold futex_match, on_word. rewrite !bool_decide_true, bool_decide_false by done. done.
  - unfold zlen in *. pose proof (sublist_length _ _ (sublist_filter (λ w0, futex_match (fw_uaddr w) (fw_key w) b w0 = true) (fx_waiters s))). lia.
Qed.


(** ** Concrete lists *)

Definition demo_waiter (uaddr : Z) (t : TaskRef) (token : Z) : FutexWaiter := mkFutexWaiter uaddr 7 USIZE_MAX t token.
Definition demo_tcb (pid : Z) (status : TaskStatus) (reason : option BlockReason) (token : Z) : Tcb :=
  mkTcb pid pid 1 false status reason None token 0 0 1 NO_CPU.
(** Tasks 1, 2 and 4 wait on 0x1000, task 3 on 0x2000; the waiter of task 2 is stale. *)
Definition demo_futexes : Futexes :=
  mkFutexes [demo_waiter 0x1000 1 5; demo_waiter 0x1000 2 5; demo_waiter 0x2000 3 5; demo_waiter 0x1000 4 5] []
    {[1%nat := demo_tcb 11 Blocked (Some Futex) 5; 2%nat := demo_tcb 12 Ready None 6;
      3%nat := demo_tcb 13 Blocked (Some Futex) 5; 4%nat := demo_tcb 14 Blocked (Some Futex) 5]} [].

Lemma demo_one_waiter : one_waiter demo_futexes.
Proof. apply (bool_decide_unpack _). vm_compute. exact I. Qed.

(** Two are woken, and the stale waiter between them goes. *)
Lemma futex_wake_correct_witness :
  let '(s', r) := futex_wake_addr_key demo_futexes 0x1000 7 2 USIZE_MAX in
  r = 2 ∧ (fw_task <$> fx_waiters s') = [3%nat] ∧ fx_log s' = [WakeAdd 1; WakeAdd 4].
Proof.
  pose proof (futex_wake_correct demo_futexes 0x1000 7 2 USIZE_MAX demo_one_waiter ltac:(lia) ltac:(lia)) as H. cbv zeta in H.
  destruct (futex_wake_addr_key demo_futexes 0x1000 7 2 USIZE_MAX) as [s' r]. destruct H as (_ & Hw & Hr & _ & _ & Hl & _).
  rewrite Hw, Hr, Hl. split; [vm_compute; reflexivity|]. split; vm_compute; reflexivity.
Defined.

Lemma futex_requeue_correct_witness :
  let '(s', r) := requeue_words demo_futexes 0x1000 7 0x3000 8 1 5 in
  r = 3 ∧ fx_waiters s' = [mkFutexWaiter 0x3000 8 USIZE_MAX 2 5; demo_waiter 0x2000 3 5; mkFutexWaiter 0x3000 8 USIZE_MAX 4 5].
Proof.
  pose proof (futex_requeue_correct demo_futexes 0x1000 7 0x3000 8 1 5 demo_one_waiter) as H. cbv zeta in H.
  destruct (requeue_words demo_futexes 0x1000 7 0x3000 8 1 5) as [s' r]. destruct H as (Hw & Hr & _).
  rewrite Hw, Hr. split; vm_compute; reflexivity.
Defined.

(** Task 1 registers, a requeue moves its waiter, the task blocks. *)
Definition demo_idle : Futexes := mkFutexes [] [] {[1%nat := demo_tcb 11 Running None 5; 2%nat := demo_tcb 12 Ready None 6]} [].


(** *** What the calls do not promise *)

(** A requeue that finds a stale waiter first spends its wake-up on it: task 4 sleeps on. *)
Lemma stale_waiter_takes_requeue_wake :
  let s := set_fx_waiters demo_futexes [demo_waiter 0x1000 2 5; demo_waiter 0x1000 4 5] in
  (requeue_words s 0x1000 7 0x3000 8 1 0).2 = 0 ∧ (futex_wake_addr_key s 0x1000 7 1 USIZE_MAX).2 = 1.
Proof. vm_compute. split; reflexivity. Qed.

(** A task that was woken between its registration and the check for signals gives up with
    [EINTR] all the same: the wake-up was counted, and nobody has it. *)
Lemma cancelled_wait_takes_wake :
  let s := (futex_register (set_fx_waiters demo_futexes [demo_waiter 0x1000 4 5]) 2 0x1000 7 USIZE_MAX).1 in
  let s := set_fx_waiters s (rev (fx_waiters s)) in
  let '(s, woke) := futex_wake_addr_key s 0x1000 7 1 USIZE_MAX in
  let s := futex_cancel s 2 7 in
  woke = 1 ∧ t_wait_outcome (fx_task s 2) = None ∧ t_wait_outcome (fx_task s 4) = None ∧ (fw_task <$> fx_waiters s) = [4%nat].
Proof. vm_compute. repeat split; reflexivity. Qed.
