(* ===== verification/FutexCalls.v ===== *)
(** * Futex calls (src/os/src/syscall/other.rs)

    [futex] with every command, and what a dying thread does for its peers: the robust list
    and the word of [set_tid_address].  The lists are Futex.v, user memory is UserCopy.v.
    [futex_wait_addr] is cut where the task blocks; a parked call starts again and ends in
    [finish_resumed_futex_wait]. *)

From S2P Require Import Prelude BTree Frame Flags FileDesc ResidentSet MapArea VmaList MemorySet MsInv.
From S2P Require Import Buddy FrameAlloc Sv39 MsInsert Machine MsUnmap MsCow MsFork MsCache MsFault MsBytes UserCopy.
From S2P Require Import Task Futex.

(** ** Words of 32 bits *)

Definition as_i32 (x : Z) : Z := let v := x mod 2 ^ 32 in if bool_decide (v < 2 ^ 31) then v else v - 2 ^ 32.
Definition i32_to_le_bytes (x : Z) : list Z := le_bytes 4 (x mod 2 ^ 32).

Definition sign_extend_12 (value : Z) : Z :=
  let value := Z.land value 0xfff in
  if bool_decide (Z.land value 0x800 = 0) then value else Z.lor value (Z.lnot 0xfff).

Definition futex_wake_op_arg (encoded : Z) : option (Z * Z * Z * Z) :=
  let op := Z.land (Z.shiftr encoded 28) 0xf in
  let cmp := Z.land (Z.shiftr encoded 24) 0xf in
  let raw_oparg := Z.land (Z.shiftr encoded 12) 0xfff in
  let cmparg := sign_extend_12 encoded in
  let shift_oparg := negb (bool_decide (Z.land op 8 = 0)) in
  let op := Z.ldiff op 8 in
  if shift_oparg then
    if bool_decide (32 ≤ raw_oparg) then None else Some (op, as_i32 (Z.shiftl 1 raw_oparg), cmp, cmparg)
  else Some (op, sign_extend_12 raw_oparg, cmp, cmparg).

(** The new value of the word and the comparison with the old one. *)
Definition wake_op_value (op oparg old : Z) : option Z :=
  if bool_decide (op = 0) then Some oparg
  else if bool_decide (op = 1) then Some (as_i32 (old + oparg))
  else if bool_decide (op = 2) then Some (Z.lor old oparg)
  else if bool_decide (op = 3) then Some (Z.ldiff old oparg)
  else if bool_decide (op = 4) then Some (Z.lxor old oparg)
  else None.
Definition wake_op_cmp (cmp old cmparg : Z) : option bool :=
  if bool_decide (cmp = 0) then Some (bool_decide (old = cmparg))
  else if bool_decide (cmp = 1) then Some (negb (bool_decide (old = cmparg)))
  else if bool_decide (cmp = 2) then Some (bool_decide (old < cmparg))
  else if bool_decide (cmp = 3) then Some (bool_decide (old ≤ cmparg))
  else if bool_decide (cmp = 4) then Some (bool_decide (cmparg < old))
  else if bool_decide (cmp = 5) then Some (bool_decide (cmparg ≤ old))
  else None.

(** [isize] and [usize::saturating_mul] *)
Definition as_isize (x : Z) : Z := if bool_decide (x < 2 ^ 63) then x else x - 2 ^ 64.
Definition sat_mul (a b : Z) : Z := Z.min (a * b) USIZE_MAX.

(** [duration_us_from_timespec] *)
Definition timespec_us (tv_sec tv_nsec : Z) : result Z SysErrNo :=
  if bool_decide (tv_sec < 0) || bool_decide (tv_nsec < 0) || bool_decide (1000000000 ≤ tv_nsec) then Err EINVAL
  else Ok (sat_add (sat_mul tv_sec 1000000) ((tv_nsec + 999) / 1000)).

Definition FUTEX_WAIT : Z := 0.
Definition FUTEX_WAKE : Z := 1.
Definition FUTEX_REQUEUE : Z := 3.
Definition FUTEX_CMP_REQUEUE : Z := 4.
Definition FUTEX_WAKE_OP : Z := 5.
Definition FUTEX_WAIT_BITSET : Z := 9.
Definition FUTEX_WAKE_BITSET : Z := 10.
Definition FUTEX_CMD_MASK : Z := 0x7f.
Definition FUTEX_PRIVATE_FLAG : Z := 0x80.
Definition FUTEX_TID_MASK : Z := 0x3fffffff.
Definition FUTEX_OWNER_DIED : Z := 0x40000000.
Definition FUTEX_WAITERS_BIT : Z := -0x80000000.
Definition ROBUST_LIST_HEAD_SIZE : Z := 24.
Definition MAX_ROBUST_ENTRIES : nat := 2048.

(** Where a call ends or blocks. *)
Inductive FutexTurn : Type :=
  | FutexReturn (r : Z)
  | FutexBlock (addr key token : Z) (deadline : option Z).

(** The wait of a task that came back from a park. *)
Definition outcome_result (o : WaitOutcome) : result Z SysErrNo :=
  match o with TimedOut => Err ETIMEDOUT | Interrupted => Err EINTR | Woken => Ok 0 end.

Section calls.
Context {PT F : Type} `{HPT : PageTableOps PT, HF : FrameService F, HL : FileLayer F}.

(** Memory of the current task (none without a task) and the lists; code over them may
    panic or fail. *)
Abbreviation World := (St F * option (MemorySet PT) * Futexes)%type.
Definition Code (A : Type) : Type := World → outcome (World * result A SysErrNo).

#[export] Instance code_ret : MRet Code := λ A a w, Ret (w, Ok a).
#[export] Instance code_bind : MBind Code := λ A B k m w,
  '(w, r) ←! m w; match r with Ok a => k a w | Err e => Ret (w, Err e) end.
Definition fail {A} (e : SysErrNo) : Code A := λ w, Ret (w, Err e).
(** A [Result] that the caller looks at. *)
Definition attempt {A} (m : Code A) : Code (result A SysErrNo) := λ w, '(w, r) ←! m w; Ret (w, Ok r).
Definition on_futexes {A} (f : Futexes → Futexes * A) : Code A := λ '(st, mem, fx), let '(fx, a) := f fx in Ret (st, mem, fx, Ok a).
Definition change (f : Futexes → Futexes) : Code unit := on_futexes (λ fx, (f fx, tt)).
Definition current_task : Code unit := λ '(st, mem, fx), Ret (st, mem, fx, match mem with Some _ => Ok tt | None => Err ESRCH end).

Definition user_in (addr len : Z) : Code (list Z) := λ '(st, mem, fx), '(sm, r) ←! copy_from_user st mem addr len; Ret (sm.1, sm.2, fx, r).
Definition user_out (addr : Z) (bytes : list Z) : Code unit := λ '(st, mem, fx), '(sm, r) ←! copy_to_user st mem addr bytes; Ret (sm.1, sm.2, fx, r).

Definition read_user_i32 (addr : Z) : Code Z := bytes ← user_in addr 4; mret (as_i32 (of_le_bytes bytes)).
Definition write_user_i32 (addr value : Z) : Code unit := user_out addr (i32_to_le_bytes value).

(** ** The word and its key *)

Definition validate_futex_uaddr (uaddr : Z) : Code unit :=
  if bool_decide (uaddr = 0) then fail EFAULT
  else if negb (bool_decide (uaddr mod 4 = 0)) then fail EINVAL
  else user_in uaddr 4 ≫= λ _, mret tt.

(** [space] is [futex_key_for_task], the address of the task's memory set.  A word of a
    shared mapping is named by its physical address. *)
Definition futex_addr_key_for_op (space uaddr : Z) (private : bool) : Code (Z * Z) := λ '(st, mem, fx),
  if private then Ret (st, mem, fx, Ok (uaddr, space))
  else
    match mem with
    | None => Ret (st, mem, fx, Err ESRCH)
    | Some ms =>
        '(sm, r) ←! prepare_read st ms uaddr 4;
        Ret (sm.1, Some sm.2, fx,
             match r with
             | Err e => Err e
             | Ok _ =>
                 match translate sm.2 uaddr with
                 | None => Err EFAULT
                 | Some paddr => if is_shared_mapping_at sm.2 uaddr then Ok (paddr, FUTEX_SHARED_KEY) else Ok (uaddr, space)
                 end
             end)
    end.

(** ** Waking *)

Definition futex_wake_addr_private_and_shared (space uaddr n : Z) : Code Z :=
  private_woke ← on_futexes (λ fx, futex_wake_addr_key fx uaddr space n USIZE_MAX);
  let remaining := Z.max 0 (n - private_woke) in
  shared_woke ←
    (if bool_decide (remaining = 0) then mret 0
     else
       r ← attempt (futex_addr_key_for_op space uaddr false);
       match r with
       | Ok (addr, key) => on_futexes (λ fx, futex_wake_addr_key fx addr key remaining USIZE_MAX)
       | Err _ => mret 0
       end);
  mret (private_woke + shared_woke).

Definition futex_wake_addr_bitset (space uaddr : Z) (private : bool) (n bitset : Z) : Code Z :=
  if bool_decide (uaddr = 0) || bool_decide (n = 0) then mret 0
  else
    current_task ≫= λ _,
    ak ← futex_addr_key_for_op space uaddr private;
    on_futexes (λ fx, futex_wake_addr_key fx ak.1 ak.2 n bitset).

Definition futex_requeue_addr (space uaddr uaddr2 : Z) (private : bool) (nr_wake nr_requeue : Z) (cmp : option Z) : Code Z :=
  validate_futex_uaddr uaddr ≫= λ _,
  (if bool_decide (nr_requeue = 0) then mret tt else validate_futex_uaddr uaddr2) ≫= λ _,
  match cmp with
  | None => mret tt
  | Some expected => v ← read_user_i32 uaddr; if bool_decide (v = expected) then mret tt else fail EAGAIN
  end ≫= λ _,
  current_task ≫= λ _,
  ak ← futex_addr_key_for_op space uaddr private;
  ak2 ← (if bool_decide (nr_requeue = 0) then mret (uaddr2, ak.2) else futex_addr_key_for_op space uaddr2 private);
  on_futexes (λ fx, requeue_words fx ak.1 ak.2 ak2.1 ak2.2 nr_wake nr_requeue).

Definition futex_wake_op (space uaddr uaddr2 : Z) (private : bool) (nr_wake nr_wake2 encoded_op : Z) : Code Z :=
  validate_futex_uaddr uaddr ≫= λ _,
  validate_futex_uaddr uaddr2 ≫= λ _,
  match futex_wake_op_arg encoded_op with
  | None => fail EINVAL
  | Some (op, oparg, cmp, cmparg) =>
      old ← read_user_i32 uaddr2;
      match wake_op_value op oparg old with
      | None => fail EINVAL
      | Some new =>
          write_user_i32 uaddr2 new ≫= λ _,
          match wake_op_cmp cmp old cmparg with
          | None => fail EINVAL
          | Some cmp_matches =>
              woke ← futex_wake_addr_bitset space uaddr private nr_wake USIZE_MAX;
              if cmp_matches then
                woke2 ← futex_wake_addr_bitset space uaddr2 private nr_wake2 USIZE_MAX;
                mret (woke + woke2)
              else mret woke
          end
      end
  end.

(** ** Waiting *)

(** [me] is the current task. *)
Definition finish_resumed_futex_wait (me : TaskRef) (space uaddr : Z) (private : bool) : Code (option (result Z SysErrNo)) :=
  outcome ← on_futexes (λ fx, (upd_task fx me (λ task, set_wait_outcome task None), t_wait_outcome (fx_task fx me)));
  match outcome with
  | None => mret None
  | Some outcome =>
      change (λ fx, upd_task fx me (λ task, set_block_reason task None)) ≫= λ _,
      attempt (futex_addr_key_for_op space uaddr private) ≫= λ _,
      change (λ fx, (remove_futex_waiter fx (t_pid (fx_task fx me)) (t_wait_token (fx_task fx me))).1) ≫= λ _,
      change (λ fx, (remove_timeout fx (t_pid (fx_task fx me)) (t_wait_token (fx_task fx me))).1) ≫= λ _,
      mret (Some (outcome_result outcome))
  end.

(** [futex_wait_addr] up to the registration of the waiter: the result of a wait that was
    parked, or the key of the word and the token; [now] is the time. *)
Definition futex_wait_start (me : TaskRef) (space uaddr val : Z) (deadline : option Z) (bitset : Z) (private : bool) (now : Z)
    : Code (Z + Z * Z * Z) :=
  current_task ≫= λ _,
  resumed ← finish_resumed_futex_wait me space uaddr private;
  match resumed with
  | Some (Ok r) => mret (inl r)
  | Some (Err e) => fail e
  | None =>
      if bool_decide (bitset = 0) then fail EINVAL
      else
        validate_futex_uaddr uaddr ≫= λ _,
        v ← read_user_i32 uaddr;
        if negb (bool_decide (v = as_i32 val)) then fail EAGAIN
        else if match deadline with Some d => bool_decide (d ≤ now) | None => false end then fail ETIMEDOUT
        else
          ak ← futex_addr_key_for_op space uaddr private;
          token ← on_futexes (λ fx, futex_register fx me ak.1 ak.2 bitset);
          mret (inr (ak.1, ak.2, token))
  end.

(** From there until the task blocks; [pending] tells whether an unblocked signal is. *)
Definition futex_wait_commit (me : TaskRef) (uaddr val : Z) (deadline : option Z) (pending : bool) (addr key token : Z) : Code FutexTurn :=
  r ← attempt (read_user_i32 uaddr);
  match r with
  | Err e => change (λ fx, futex_cancel fx me token) ≫= λ _, fail e
  | Ok current =>
      if negb (bool_decide (current = as_i32 val)) then change (λ fx, futex_cancel fx me token) ≫= λ _, fail EAGAIN
      else if pending then change (λ fx, futex_cancel fx me token) ≫= λ _, fail EINTR
      else
        match deadline with Some d => change (λ fx, add_timeout fx d me token) | None => mret tt end ≫= λ _,
        mret (FutexBlock addr key token deadline)
  end.

(** The two together, when nothing else happens between. *)
Definition futex_wait_addr (me : TaskRef) (space uaddr val : Z) (deadline : option Z) (bitset : Z) (private : bool) (now : Z) (pending : bool)
    : Code FutexTurn :=
  r ← futex_wait_start me space uaddr val deadline bitset private now;
  match r with
  | inl r => mret (FutexReturn r)
  | inr (addr, key, token) => futex_wait_commit me uaddr val deadline pending addr key token
  end.

(** The end of [futex_wait_addr] when the task was not parked. *)
Definition futex_wait_end (me : TaskRef) (token : Z) (deadline : option Z) (now : Z) (pending : bool) : Code Z :=
  change (λ fx, upd_task fx me (λ task, set_block_reason task None)) ≫= λ _,
  still_waiting ← on_futexes (λ fx, remove_futex_waiter fx (t_pid (fx_task fx me)) token);
  match deadline with Some _ => change (λ fx, (remove_timeout fx (t_pid (fx_task fx me)) token).1) | None => mret tt end ≫= λ _,
  outcome ← on_futexes (λ fx, finish_wait fx me still_waiting deadline now pending);
  match outcome_result outcome with Ok r => mret r | Err e => fail e end.

Definition read_timespec (ptr : Z) : Code Z :=
  bytes ← user_in ptr 16;
  match timespec_us (as_isize (of_le_bytes (take 8 bytes))) (as_isize (of_le_bytes (drop 8 bytes))) with
  | Ok us => mret us
  | Err e => fail e
  end.
Definition deadline_from_timespec_ptr (ptr now : Z) : Code (option Z) :=
  if bool_decide (ptr = 0) then mret None else us ← read_timespec ptr; mret (Some (sat_add now us)).
Definition deadline_from_absolute_timespec_ptr (ptr : Z) : Code (option Z) :=
  if bool_decide (ptr = 0) then mret None else us ← read_timespec ptr; mret (Some us).

(** [sys_futex_stub]; [now0] is the time when the timeout is read. *)
Definition sys_futex (me : TaskRef) (space now0 now : Z) (pending : bool) (uaddr futex_op val timeout uaddr2 val3 : Z) : Code FutexTurn :=
  let op := Z.land futex_op FUTEX_CMD_MASK in
  let private := negb (bool_decide (Z.land futex_op FUTEX_PRIVATE_FLAG = 0)) in
  let wake n bitset := r ← futex_wake_addr_bitset space uaddr private n bitset; mret (FutexReturn r) in
  let requeue cmp := r ← futex_requeue_addr space uaddr uaddr2 private val timeout cmp; mret (FutexReturn r) in
  if bool_decide (op = FUTEX_WAIT) then
    deadline ← deadline_from_timespec_ptr timeout now0;
    futex_wait_addr me space uaddr val deadline USIZE_MAX private now pending
  else if bool_decide (op = FUTEX_WAKE) then validate_futex_uaddr uaddr ≫= λ _, wake val USIZE_MAX
  else if bool_decide (op = FUTEX_REQUEUE) then requeue None
  else if bool_decide (op = FUTEX_CMP_REQUEUE) then requeue (Some (as_i32 val3))
  else if bool_decide (op = FUTEX_WAKE_OP) then
    r ← futex_wake_op space uaddr uaddr2 private val timeout val3; mret (FutexReturn r)
  else if bool_decide (op = FUTEX_WAIT_BITSET) then
    deadline ← deadline_from_absolute_timespec_ptr timeout;
    futex_wait_addr me space uaddr val deadline val3 private now pending
  else if bool_decide (op = FUTEX_WAKE_BITSET) then
    validate_futex_uaddr uaddr ≫= λ _, if bool_decide (val3 = 0) then fail EINVAL else wake val val3
  else fail ENOSYS.

(** ** A dying thread *)

(** [mark_entry] of [process_robust_list_on_exit] *)
Definition mark_entry (tid space head futex_offset entry : Z) : Code unit :=
  if bool_decide (entry = 0) || bool_decide (entry = head) then mret tt
  else
    let futex_addr := as_isize entry + futex_offset in
    if negb (bool_decide (0 ≤ futex_addr < 2 ^ 63)) then mret tt
    else
      r ← attempt (read_user_i32 futex_addr);
      match r with
      | Err _ => mret tt
      | Ok value =>
          if negb (bool_decide (Z.land value FUTEX_TID_MASK = as_i32 tid)) then mret tt
          else
            let new_value := Z.lor (Z.land value FUTEX_WAITERS_BIT) FUTEX_OWNER_DIED in
            w ← attempt (write_user_i32 futex_addr new_value);
            match w with
            | Ok _ => futex_wake_addr_private_and_shared space futex_addr 1 ≫= λ _, mret tt
            | Err _ => mret tt
            end
      end.

Definition read_usize_at (addr : Z) : Code Z := bytes ← user_in addr 8; mret (wrap (of_le_bytes bytes)).

(** The loop over the list, at most [MAX_ROBUST_ENTRIES] entries. *)
Fixpoint robust_loop (fuel : nat) (tid space head futex_offset next : Z) : Code unit :=
  match fuel with
  | O => mret tt
  | S fuel =>
      if bool_decide (next = 0) || bool_decide (next = head) then mret tt
      else
        mark_entry tid space head futex_offset next ≫= λ _,
        r ← attempt (read_usize_at next);
        match r with Ok new_next => robust_loop fuel tid space head futex_offset new_next | Err _ => mret tt end
  end.

(** [process_robust_list_on_exit]; the arguments are the fields [take_robust_exit_state]
    takes from the task.  Failures to read end it without an error. *)
Definition process_robust_list_on_exit (tid space head len : Z) : Code unit :=
  if bool_decide (head = 0) || negb (bool_decide (len = ROBUST_LIST_HEAD_SIZE)) then mret tt
  else
    offset ← attempt (read_usize_at (wrap (head + 8)));
    match offset with
    | Err _ => mret tt
    | Ok raw =>
        pending ← attempt (read_usize_at (wrap (head + 16)));
        next ← attempt (read_usize_at head);
        match next with
        | Err _ => mret tt
        | Ok next =>
            mark_entry tid space head (as_isize raw) (match pending with Ok p => p | Err _ => 0 end) ≫= λ _,
            robust_loop MAX_ROBUST_ENTRIES tid space head (as_isize raw) next
        end
    end.

(** [finish_task_exit] up to the notice of the parent. *)
Definition exit_words (tid space head len clear_child_tid : Z) : Code unit :=
  process_robust_list_on_exit tid space head len ≫= λ _,
  if bool_decide (clear_child_tid = 0) then mret tt
  else
    attempt (write_user_i32 clear_child_tid 0) ≫= λ _,
    futex_wake_addr_private_and_shared space clear_child_tid USIZE_MAX ≫= λ _, mret tt.
End calls.

(** ** A wait *)

(** The equations of the monad. *)
Ltac run_code := unfold mbind, code_bind, mret, code_ret; cbv beta iota.

Section correct.
Context {PT F : Type} `{HPT : PageTableOps PT, !PageTableLaws PT,
  HF : FrameService F, HL : FileLayer F, HSL : !FrameServiceLaws F, HFL : !FileLayerLaws F}.
Implicit Types (st : St F) (ms : MemorySet PT) (fx : Futexes).

Lemma upd_task_id fx me f : is_Some (fx_tasks fx !! me) → f (fx_task fx me) = fx_task fx me → upd_task fx me f = fx.
Proof.
  intros [task Hk] Hf. unfold upd_task. rewrite Hf. unfold fx_task. rewrite (lookup_total_correct _ _ _ Hk), insert_id by done. by destruct fx.
Qed.

Lemma user_in_code st ms X fx addr len :
  ms_inv st ms (file_cache (st_frames st) ++ X) → zlen X ≤ 2 ^ 31 → 0 ≤ addr → 0 ≤ len →
  ∃ st' ms' r, user_in addr len (st, Some ms, fx) = Ret (st', Some ms', fx, r) ∧ copied_out st st' ms ms' X addr len r.
Proof.
  intros Hi HX Ha Hl. unfold user_in, copy_from_user. destruct (_ && _) eqn:E.
  - eexists _, _, _. split; [reflexivity|]. split; [by apply prepared_refl|done].
  - destruct (copy_from_user_ok st ms X addr len Hi HX Ha Hl) as (st'&ms'&r&->&Hc). by eexists _, _, _.
Qed.

(** What the word of a program holds, before and after the kernel read it. *)
Definition holds st ms X (addr : Z) (bytes : list Z) : Prop :=
  ms_inv st ms (file_cache (st_frames st) ++ X) ∧ reads st ms addr bytes.

Lemma read_word st ms X fx addr bytes :
  holds st ms X addr bytes → zlen X ≤ 2 ^ 31 → 0 ≤ addr → zlen bytes = 4 →
  ∃ st' ms' r, read_user_i32 addr (st, Some ms, fx) = Ret (st', Some ms', fx, r) ∧ holds st' ms' X addr bytes ∧
    match r with Ok v => v = as_i32 (of_le_bytes bytes) | Err _ => True end.
Proof.
  intros [Hi Hr] HX Ha Hb. unfold read_user_i32. run_code.
  destruct (user_in_code st ms X fx addr 4 Hi HX Ha) as (st'&ms'&r&->&Hp&Hc); [lia|].
  assert (Hr' : reads st' ms' addr bytes) by (by eapply reads_kept). destruct r as [bs|e].
  - eexists _, _, _. split; [reflexivity|]. split; [split; [apply Hp|done]|]. destruct Hc as (Hl & Hbs & _).
    f_equal. f_equal. eapply reads_unique; [done|done|]. unfold zlen in *. lia.
  - eexists _, _, _. split; [reflexivity|]. split; [split; [apply Hp|done]|done].
Qed.

Lemma validate_word st ms X fx addr bytes :
  holds st ms X addr bytes → zlen X ≤ 2 ^ 31 → 0 ≤ addr →
  ∃ st' ms' r, validate_futex_uaddr addr (st, Some ms, fx) = Ret (st', Some ms', fx, r) ∧ holds st' ms' X addr bytes ∧
    match r with Ok _ => addr ≠ 0 ∧ addr mod 4 = 0 | Err _ => True end.
Proof.
  intros [Hi Hr] HX Ha. unfold validate_futex_uaddr. case_bool_decide; [by eexists _, _, _|]. case_bool_decide as Em; cbn [negb]; [|by eexists _, _, _].
  run_code. destruct (user_in_code st ms X fx addr 4 Hi HX Ha) as (st'&ms'&r&->&Hp&Hc); [lia|].
  destruct r; (eexists _, _, _; split; [reflexivity|]; split; [split; [apply Hp|by eapply reads_kept]|done]).
Qed.

Lemma wait_start_ok st ms X fx me space uaddr val deadline bitset now bytes :
  holds st ms X uaddr bytes → zlen X ≤ 2 ^ 31 → 0 ≤ uaddr → zlen bytes = 4 →
  is_Some (fx_tasks fx !! me) → t_wait_outcome (fx_task fx me) = None →
  ∃ st' ms' fx' r,
    futex_wait_start me space uaddr val deadline bitset true now (st, Some ms, fx) = Ret (st', Some ms', fx', r) ∧
    holds st' ms' X uaddr bytes ∧
    match r with
    | Ok start =>
        as_i32 (of_le_bytes bytes) = as_i32 val ∧ bitset ≠ 0 ∧ uaddr ≠ 0 ∧ uaddr mod 4 = 0 ∧ (∀ d, deadline = Some d → now < d) ∧
        let '(fx1, token) := futex_register fx me uaddr space bitset in start = inr (uaddr, space, token) ∧ fx' = fx1
    | Err _ => fx' = fx
    end.
Proof.
  intros Hh HX Ha Hb Hk Ho. destruct (futex_register fx me uaddr space bitset) as [fx1 token] eqn:Ereg.
  unfold futex_wait_start, finish_resumed_futex_wait, current_task, on_futexes. run_code. rewrite Ho.
  rewrite upd_task_id by (done || (unfold set_wait_outcome; destruct (fx_task fx me) eqn:E; simpl in Ho; by subst)).
  cbv beta iota. case_bool_decide as Ebs; [by eexists _, _, _, _; split; [reflexivity|]; auto|].
  destruct (validate_word st ms X fx uaddr bytes Hh HX Ha) as (st1&ms1&r1&->&Hh1&Hr1).
  destruct r1 as [u|e]; [|by eexists _, _, _, _; split; [reflexivity|]; auto]. destruct Hr1 as [Hu Hm].
  destruct (read_word st1 ms1 X fx uaddr bytes Hh1 HX Ha Hb) as (st2&ms2&r2&->&Hh2&Hr2).
  destruct r2 as [v|e]; [|by eexists _, _, _, _; split; [reflexivity|]; auto]. subst v.
  case_bool_decide as Ev; cbn [negb]; [|by eexists _, _, _, _; split; [reflexivity|]; auto].
  destruct (match deadline with Some d => bool_decide (d ≤ now) | None => false end) eqn:Ed; [by eexists _, _, _, _; split; [reflexivity|]; auto|].
  unfold futex_addr_key_for_op. cbn [fst snd]. rewrite Ereg.
  eexists _, _, _, _. split; [reflexivity|]. split; [done|]. split_and!; try done.
  intros d ->. apply bool_decide_eq_false in Ed. lia.
Qed.

Lemma wait_commit_ok st ms X fx me uaddr val deadline pending addr key token bytes :
  holds st ms X uaddr bytes → zlen X ≤ 2 ^ 31 → 0 ≤ uaddr → zlen bytes = 4 →
  ∃ st' ms' fx' r,
    futex_wait_commit me uaddr val deadline pending addr key token (st, Some ms, fx) = Ret (st', Some ms', fx', r) ∧
    holds st' ms' X uaddr bytes ∧
    match r with
    | Ok turn =>
        as_i32 (of_le_bytes bytes) = as_i32 val ∧ pending = false ∧ turn = FutexBlock addr key token deadline ∧
        fx' = match deadline with Some d => add_timeout fx d me token | None => fx end
    | Err _ => fx' = futex_cancel fx me token
    end.
Proof.
  intros Hh HX Ha Hb. unfold futex_wait_commit, attempt, change, on_futexes, fail. run_code.
  destruct (read_word st ms X fx uaddr bytes Hh HX Ha Hb) as (st3&ms3&r3&->&Hh3&Hr3).
  destruct r3 as [v|e]; [|by eexists _, _, _, _]. subst v.
  case_bool_decide; cbn [negb]; [|by eexists _, _, _, _].
  destruct pending; [by eexists _, _, _, _|]. destruct deadline as [d|]; by eexists _, _, _, _.
Qed.


Create HintDb keeps.

(** ** Every call keeps the invariants *)

(** From an address space in order and lists with one waiter per task, [m] does not panic
    and leaves both so; a result satisfies [Q]. *)
Definition keeps X {A} (Q : A → Prop) (m : Code A) : Prop := ∀ st ms fx,
  ms_inv st ms (file_cache (st_frames st) ++ X) → one_waiter fx →
  ∃ st' ms' fx' r, m (st, Some ms, fx) = Ret (st', Some ms', fx', r) ∧
    ms_inv st' ms' (file_cache (st_frames st') ++ X) ∧ one_waiter fx' ∧ (∀ a, r = Ok a → Q a).

Section keeps.
Context (X : list Z) (HX : zlen X ≤ 2 ^ 31).

Lemma keeps_ret {A} (Q : A → Prop) a : Q a → keeps X Q (mret a).
Proof. intros HQ st ms fx Hi Ho. eexists _, _, _, _. split; [reflexivity|]. split_and!; [done|done|]. by intros ? [= <-]. Qed.
Lemma keeps_fail {A} (Q : A → Prop) e : keeps X Q (fail e).
Proof. intros st ms fx Hi Ho. by eexists _, _, _, _. Qed.
Lemma keeps_bind {A B} (Q : A → Prop) (R : B → Prop) m (k : A → Code B) :
  keeps X Q m → (∀ a, Q a → keeps X R (k a)) → keeps X R (m ≫= k).
Proof.
  intros Hm Hk st ms fx Hi Ho. destruct (Hm st ms fx Hi Ho) as (st1&ms1&fx1&r&E&Hi1&Ho1&Hr). run_code. rewrite E.
  destruct r as [a|e]; [by apply (Hk a (Hr a eq_refl))|]. by eexists _, _, _, _.
Qed.
Lemma keeps_attempt {A} (Q : A → Prop) (m : Code A) : keeps X Q m → keeps X (λ r, ∀ a, r = Ok a → Q a) (attempt m).
Proof.
  intros Hm st ms fx Hi Ho. destruct (Hm st ms fx Hi Ho) as (st1&ms1&fx1&r&E&Hi1&Ho1&Hr). unfold attempt. rewrite E.
  eexists _, _, _, _. split; [reflexivity|]. split_and!; [done|done|]. by intros ? [= <-].
Qed.
Lemma keeps_futexes {A} (f : Futexes → Futexes * A) :
  (∀ fx, one_waiter fx → one_waiter (f fx).1) → keeps X (λ _, True) (on_futexes f).
Proof.
  intros Hf st ms fx Hi Ho. specialize (Hf fx Ho). unfold on_futexes. destruct (f fx) as [fx' a]. by eexists _, _, _, _.
Qed.
Lemma keeps_task : keeps X (λ _, True) current_task.
Proof. intros st ms fx Hi Ho. by eexists _, _, _, _. Qed.
Lemma keeps_user_in addr len : 0 ≤ addr → 0 ≤ len → keeps X (λ _, True) (user_in addr len).
Proof.
  intros Ha Hl st ms fx Hi Ho. destruct (user_in_code st ms X fx addr len Hi HX Ha Hl) as (st'&ms'&r&->&Hp&_).
  eexists _, _, _, _. split; [reflexivity|]. split; [apply Hp|done].
Qed.
Lemma keeps_user_out addr bytes : 0 ≤ addr → keeps X (λ _, True) (user_out addr bytes).
Proof.
  intros Ha st ms fx Hi Ho. unfold user_out, copy_to_user. destruct (_ && _); [by eexists _, _, _, _|].
  destruct (copy_to_user_ok st ms X addr bytes Hi HX Ha) as (st'&ms'&r&->&Hc). eexists _, _, _, _. split; [reflexivity|].
  split; [|done]. destruct Hc as (st1&Hp&Hc). destruct r as [u|e].
  - destruct Hc as (_&Hi1&Hcache&_). rewrite <-Hcache in Hi1. exact Hi1.
  - destruct Hc as [->|(_&Hi1&Hcache&_)]; [apply Hp|rewrite <-Hcache in Hi1; exact Hi1].
Qed.
Lemma keeps_key space uaddr private : 0 ≤ uaddr → keeps X (λ _, True) (futex_addr_key_for_op space uaddr private).
Proof.
  intros Ha st ms fx Hi Ho. unfold futex_addr_key_for_op. destruct private; [by eexists _, _, _, _|].
  destruct (prepare_read_ok st ms X uaddr 4 Hi HX Ha) as (st'&ms'&r&->&Hp&_). eexists _, _, _, _. split; [reflexivity|]. split; [apply Hp|done].
Qed.
End keeps.

Lemma upd_keeps_one fx t f : one_waiter fx → one_waiter (upd_task fx t f).
Proof. done. Qed.
Lemma timeout_keeps_one fx pid token : one_waiter fx → one_waiter (remove_timeout fx pid token).1.
Proof. unfold remove_timeout. by destruct (pop_first _ _) as [[]|]. Qed.
Lemma add_timeout_keeps_one fx d t token : one_waiter fx → one_waiter (add_timeout fx d t token).
Proof. done. Qed.
Lemma cancel_keeps_one fx t token : one_waiter fx → one_waiter (futex_cancel fx t token).
Proof. intros. by apply upd_keeps_one, remove_keeps_one. Qed.
Lemma finish_keeps_one fx t still d now pending : one_waiter fx → one_waiter (finish_wait fx t still d now pending).1.
Proof. unfold finish_wait. by destruct (t_wait_outcome _). Qed.

#[local] Hint Resolve upd_keeps_one timeout_keeps_one add_timeout_keeps_one cancel_keeps_one finish_keeps_one : keeps.
#[local] Hint Resolve keeps_fail keeps_task keeps_user_in keeps_user_out keeps_key keeps_futexes : keeps.
#[local] Hint Resolve wake_keeps_one requeue_keeps_one remove_keeps_one register_keeps_one : keeps.
#[local] Hint Extern 1 (_ ≤ _) => lia : keeps.

Lemma keeps_any X {A} (Q : A → Prop) (m : Code A) : keeps X Q m → keeps X (λ _, True) m.
Proof.
  intros Hm st ms fx Hi Ho. destruct (Hm st ms fx Hi Ho) as (st1&ms1&fx1&r&E&Hi1&Ho1&_). by eexists _, _, _, _.
Qed.

(** A step along the code: its binds, tests and calls. *)
Ltac keeps_step :=
  match goal with
  | |- keeps _ _ (mret _) => apply keeps_ret; exact I
  | |- keeps _ _ (fail _) => apply keeps_fail
  | |- keeps ?X _ (attempt _ ≫= _) => apply (keeps_bind X (λ _, True)); [eapply keeps_any, keeps_attempt|intros ? _]
  | |- keeps ?X _ (_ ≫= _) => apply (keeps_bind X (λ _, True)); [|intros ? _]
  | |- keeps _ _ (if bool_decide _ then _ else _) => case_bool_decide
  | |- keeps _ _ (if negb (bool_decide _) then _ else _) => case_bool_decide; cbn [negb]
  | |- keeps _ _ (if ?b then _ else _) => destruct b eqn:?
  | |- keeps _ _ (match ?x with _ => _ end) => destruct x eqn:?
  | |- keeps _ _ (let _ := _ in _) => cbv zeta
  | |- keeps _ _ (change _) => apply keeps_futexes; intros ? ?; cbn [fst]
  | |- keeps _ _ (on_futexes _) => apply keeps_futexes; intros ? ?; cbn [fst]
  end.
Ltac keeps_auto := repeat (keeps_step || (solve [eauto with keeps])).

Section composed.
Context (X : list Z) (HX : zlen X ≤ 2 ^ 31).

Lemma keeps_read_word addr : 0 ≤ addr → keeps X (λ _, True) (read_user_i32 addr).
Proof. intros. unfold read_user_i32. keeps_auto. Qed.
Lemma keeps_write_word addr v : 0 ≤ addr → keeps X (λ _, True) (write_user_i32 addr v).
Proof. intros. unfold write_user_i32. keeps_auto. Qed.
Lemma keeps_validate addr : 0 ≤ addr → keeps X (λ _, True) (validate_futex_uaddr addr).
Proof. intros. unfold validate_futex_uaddr. keeps_auto. Qed.
Lemma keeps_timespec ptr : 0 ≤ ptr → keeps X (λ _, True) (read_timespec ptr).
Proof. intros. unfold read_timespec. keeps_auto. Qed.
#[local] Hint Resolve keeps_read_word keeps_write_word keeps_validate keeps_timespec : keeps.

Lemma keeps_wake space uaddr private n bitset : 0 ≤ uaddr → keeps X (λ _, True) (futex_wake_addr_bitset space uaddr private n bitset).
Proof. intros. unfold futex_wake_addr_bitset. keeps_auto. Qed.
Lemma keeps_wake_both space uaddr n : 0 ≤ uaddr → keeps X (λ _, True) (futex_wake_addr_private_and_shared space uaddr n).
Proof. intros. unfold futex_wake_addr_private_and_shared. keeps_auto. Qed.
#[local] Hint Resolve keeps_wake keeps_wake_both : keeps.

Lemma keeps_requeue space uaddr uaddr2 private n m cmp :
  0 ≤ uaddr → 0 ≤ uaddr2 → keeps X (λ _, True) (futex_requeue_addr space uaddr uaddr2 private n m cmp).
Proof. intros. unfold futex_requeue_addr. keeps_auto. Qed.
Lemma keeps_wake_op space uaddr uaddr2 private n m e :
  0 ≤ uaddr → 0 ≤ uaddr2 → keeps X (λ _, True) (futex_wake_op space uaddr uaddr2 private n m e).
Proof. intros. unfold futex_wake_op. keeps_auto. Qed.
Lemma keeps_resumed me space uaddr private : 0 ≤ uaddr → keeps X (λ _, True) (finish_resumed_futex_wait me space uaddr private).
Proof. intros. unfold finish_resumed_futex_wait. keeps_auto. Qed.
#[local] Hint Resolve keeps_requeue keeps_wake_op keeps_resumed : keeps.

Lemma keeps_start me space uaddr val d bitset private now :
  0 ≤ uaddr → keeps X (λ _, True) (futex_wait_start me space uaddr val d bitset private now).
Proof. intros. unfold futex_wait_start. keeps_auto. Qed.
Lemma keeps_commit me uaddr val d pending addr key token :
  0 ≤ uaddr → keeps X (λ _, True) (futex_wait_commit me uaddr val d pending addr key token).
Proof. intros. unfold futex_wait_commit. keeps_auto. Qed.
#[local] Hint Resolve keeps_start keeps_commit : keeps.

Lemma keeps_wait me space uaddr val d bitset private now pending :
  0 ≤ uaddr → keeps X (λ _, True) (futex_wait_addr me space uaddr val d bitset private now pending).
Proof. intros. unfold futex_wait_addr. keeps_auto. Qed.
Lemma keeps_wait_end me token d now pending : keeps X (λ _, True) (futex_wait_end me token d now pending).
Proof. unfold futex_wait_end. keeps_auto. Qed.
#[local] Hint Resolve keeps_wait : keeps.

Lemma keeps_futex me space now0 now pending uaddr op val timeout uaddr2 val3 :
  0 ≤ uaddr → 0 ≤ timeout → 0 ≤ uaddr2 → keeps X (λ _, True) (sys_futex me space now0 now pending uaddr op val timeout uaddr2 val3).
Proof.
  intros. unfold sys_futex, deadline_from_timespec_ptr, deadline_from_absolute_timespec_ptr. keeps_auto.
Qed.

Lemma keeps_mark tid space head off entry : keeps X (λ _, True) (mark_entry tid space head off entry).
Proof. unfold mark_entry. keeps_auto. Qed.
Lemma keeps_read_usize addr : 0 ≤ addr → keeps X (λ v, 0 ≤ v) (read_usize_at addr).
Proof.
  intros Ha. unfold read_usize_at. apply (keeps_bind X (λ _, True)); [auto with keeps|]. intros bs _. apply keeps_ret.
  unfold wrap. apply Z.mod_pos_bound. lia.
Qed.
Lemma keeps_robust_loop fuel tid space head off next : 0 ≤ next → keeps X (λ _, True) (robust_loop fuel tid space head off next).
Proof.
  revert next. induction fuel as [|fuel IH]; intros next Hn; cbn [robust_loop]; [keeps_auto|]. keeps_step; [keeps_auto|].
  apply (keeps_bind X (λ _, True)); [apply keeps_mark|intros _ _].
  eapply keeps_bind; [apply keeps_attempt, keeps_read_usize; done|]. intros [v|e] Hv; [|keeps_auto]. apply IH. by apply Hv.
Qed.
Lemma keeps_exit tid space head len clear_child_tid :
  0 ≤ head → 0 ≤ clear_child_tid → keeps X (λ _, True) (exit_words tid space head len clear_child_tid).
Proof.
  intros Hh Hc. unfold exit_words. apply (keeps_bind X (λ _, True)); [|intros _ _; keeps_auto].
  unfold process_robust_list_on_exit. keeps_step; [keeps_auto|].
  assert (Hw : ∀ v, 0 ≤ wrap v) by (intros v; unfold wrap; apply Z.mod_pos_bound; lia).
  apply (keeps_bind X (λ _, True)); [eapply keeps_any, keeps_attempt, keeps_read_usize; apply Hw|intros [raw|e] _; [|keeps_auto]].
  apply (keeps_bind X (λ _, True)); [eapply keeps_any, keeps_attempt, keeps_read_usize; apply Hw|intros pending _].
  eapply keeps_bind; [apply keeps_attempt, keeps_read_usize; done|]. intros [next|e] Hn; [|keeps_auto].
  apply (keeps_bind X (λ _, True)); [apply keeps_mark|intros _ _]. apply keeps_robust_loop. by apply Hn.
Qed.
End composed.

(** A run that ends without a panic, with the invariants. *)
Definition in_order X {A} (o : outcome (St F * option (MemorySet PT) * Futexes * result A SysErrNo)) : Prop :=
  ∃ st' ms' fx' r, o = Ret (st', Some ms', fx', r) ∧ ms_inv st' ms' (file_cache (st_frames st') ++ X) ∧ one_waiter fx'.

End correct.

(** ** The argument of [FUTEX_WAKE_OP] *)

(** How programs encode it. *)
Definition futex_op_encode (shift : bool) (op oparg cmp cmparg : Z) : Z :=
  ((if shift then 8 else 0) + op) * 2 ^ 28 + cmp * 2 ^ 24 + oparg mod 4096 * 2 ^ 12 + cmparg mod 4096.

Lemma sign_extend_12_spec v : sign_extend_12 v = (v + 2048) mod 4096 - 2048.
Proof.
  assert (Hall : forallb (λ n, sign_extend_12 (Z.of_nat n) =? (Z.of_nat n + 2048) mod 4096 - 2048) (seq 0 4096) = true) by (vm_compute; reflexivity).
  assert (Hm : sign_extend_12 v = sign_extend_12 (v mod 4096)).
  { unfold sign_extend_12. change 0xfff with (Z.ones 12). by rewrite !Z.land_ones, Z.mod_mod by lia. }
  rewrite forallb_forall in Hall. specialize (Hall (Z.to_nat (v mod 4096))). rewrite Hm.
  rewrite Z2Nat.id in Hall by lia. rewrite (proj1 (Z.eqb_eq _ _) (Hall ltac:(apply in_seq; lia))). lia.
Qed.

Lemma futex_wake_op_arg_roundtrip (shift : bool) op oparg cmp cmparg :
  0 ≤ op < 8 → 0 ≤ cmp < 16 → -2048 ≤ cmparg < 2048 → (if shift then 0 ≤ oparg < 32 else -2048 ≤ oparg < 2048) →
  futex_wake_op_arg (futex_op_encode shift op oparg cmp cmparg) = Some (op, if shift then as_i32 (2 ^ oparg) else oparg, cmp, cmparg).
Proof.
  intros Hop Hcmp Hca Hoa. set (e := futex_op_encode shift op oparg cmp cmparg).
  assert (E1 : Z.land (Z.shiftr e 28) 0xf = (if shift then 8 else 0) + op).
  { change 0xf with (Z.ones 4). rewrite Z.land_ones, Z.shiftr_div_pow2 by lia. unfold e, futex_op_encode. clear -Hop Hcmp Hca Hoa. destruct shift; lia. }
  assert (E2 : Z.land (Z.shiftr e 24) 0xf = cmp).
  { change 0xf with (Z.ones 4). rewrite Z.land_ones, Z.shiftr_div_pow2 by lia. unfold e, futex_op_encode. clear -Hop Hcmp Hca Hoa. destruct shift; lia. }
  assert (E3 : Z.land (Z.shiftr e 12) 0xfff = oparg mod 4096).
  { change 0xfff with (Z.ones 12). rewrite Z.land_ones, Z.shiftr_div_pow2 by lia. unfold e, futex_op_encode. clear -Hop Hcmp Hca Hoa. destruct shift; lia. }
  assert (E4 : sign_extend_12 e = cmparg).
  { rewrite sign_extend_12_spec. unfold e, futex_op_encode. clear -Hop Hcmp Hca Hoa. destruct shift; lia. }
  assert (Hbits : Z.land ((if shift then 8 else 0) + op) 8 = (if shift then 8 else 0) ∧ Z.ldiff ((if shift then 8 else 0) + op) 8 = op).
  { clear E1 E2 E3 E4. assert (Hc : op = 0 ∨ op = 1 ∨ op = 2 ∨ op = 3 ∨ op = 4 ∨ op = 5 ∨ op = 6 ∨ op = 7) by lia.
    repeat (destruct Hc as [->|Hc]; [destruct shift; split; reflexivity|]). subst. destruct shift; split; reflexivity. }
  unfold futex_wake_op_arg. rewrite E1, E2, E3, E4, (proj1 Hbits), (proj2 Hbits). clear E1 E2 E3 E4; destruct shift; cbn [bool_decide negb].
  - rewrite (bool_decide_false (8 = 0)), bool_decide_false by lia. cbn [negb]. rewrite Z.shiftl_1_l. by replace (oparg mod 4096) with oparg by lia.
  - rewrite bool_decide_true by done. cbn [negb]. rewrite sign_extend_12_spec. do 4 f_equal. lia.
Qed.

(** ** A concrete wait *)

Lemma demo_word : holds demo_st demo_ms [] 0x10100 [0; 0; 0; 0].
Proof.
  split; [exact demo_inv|]. intros i b Hb. do 4 (destruct i as [|i]; [simpl in Hb; injection Hb as <-; vm_compute; reflexivity|]).
  by destruct i.
Qed.

(** The wait starts on a word that holds 0.  If another thread stores 1 before the check,
    the registration is taken back. *)
Definition demo_changed : St (LocalFrames Buddy) :=
  match copy_to_user_in_memory_set demo_st demo_ms 0x10100 [1; 0; 0; 0] with Ret (st, _, _) => st | Panic => demo_st end.

Lemma demo_copied : copy_to_user_in_memory_set demo_st demo_ms 0x10100 [1; 0; 0; 0] = Ret (demo_changed, demo_ms, Ok tt).
Proof. vm_compute. reflexivity. Qed.

Lemma demo_changed_word : holds demo_changed demo_ms [] 0x10100 [1; 0; 0; 0].
Proof.
  destruct (copy_to_user_ok demo_st demo_ms [] 0x10100 [1; 0; 0; 0]) as (st'&ms'&r&He&Hc); [exact demo_inv|rewrite zlen_nil; lia|lia|].
  rewrite demo_copied in He. apply Ret_inj, pair_equal_spec in He as [He Hr]. apply pair_equal_spec in He as [Hst Hms].
  rewrite <-Hst, <-Hms, <-Hr in Hc. clear Hst Hms Hr. split.
  - destruct Hc as (st0&_&_&Hi1&Hcache&_). rewrite <-Hcache in Hi1. exact Hi1.
  - apply (copied_in_reads demo_st demo_changed demo_ms demo_ms []); [exact Hc|]. apply (bool_decide_unpack _). vm_compute. exact I.
Qed.


