(* ===== verification/Paths.v ===== *)
(** * Path names (src/os/src/fs/mod.rs, src/os/src/syscall/fs.rs)

    The arithmetic of paths: normalisation with its fast path, resolution against a working
    directory, the root of a process, parents, children and prefixes.  Nothing here looks
    at a file system.  A path is a string; the list of its components is what the theorems
    speak about. *)

From S2P Require Import Prelude.
From Stdlib Require Import Ascii.

Open Scope string_scope.
Open Scope list_scope.

(** ** Strings *)

Definition slash : ascii := "/"%char.
Definition dot : ascii := "."%char.

(** [starts_with('/')], [ends_with('/')], [trim_start_matches('/')] and [trim_end_matches('/')] *)
Definition starts_slash (s : string) : bool := match s with String c _ => bool_decide (c = slash) | "" => false end.
Fixpoint ends_slash (s : string) : bool :=
  match s with "" => false | String c "" => bool_decide (c = slash) | String _ s => ends_slash s end.
Fixpoint trim_start (s : string) : string :=
  match s with "" => "" | String c r => if bool_decide (c = slash) then trim_start r else s end.
Fixpoint trim_end (s : string) : string :=
  match s with
  | "" => ""
  | String c r => match trim_end r with "" => if bool_decide (c = slash) then "" else String c "" | r => String c r end
  end.

(** [split('/')] and [join("/")] *)
Fixpoint split (s : string) : list string :=
  match s with
  | "" => [""]
  | String c s =>
      if bool_decide (c = slash) then "" :: split s
      else match split s with p :: ps => String c p :: ps | [] => [String c ""] end
  end.
Fixpoint join (parts : list string) : string :=
  match parts with [] => "" | [p] => p | p :: ps => p +:+ String slash (join ps) end.

(** [strip_prefix] and [rfind('/')] *)
Fixpoint strip_prefix (p s : string) : option string :=
  match p, s with
  | "", s => Some s
  | String a p, String b s => if bool_decide (a = b) then strip_prefix p s else None
  | String _ _, "" => None
  end.
Definition starts_with (p s : string) : bool := match strip_prefix p s with Some _ => true | None => false end.
Fixpoint rfind_slash (s : string) : option nat :=
  match s with
  | "" => None
  | String c s =>
      match rfind_slash s with Some n => Some (S n) | None => if bool_decide (c = slash) then Some 0%nat else None end
  end.

(** ** Normalisation *)

(** What follows a slash is [//], [/.] or [/..] as a whole component. *)
Definition bad_after_slash (s : string) : bool :=
  match s with
  | "" => false
  | String c r =>
      if bool_decide (c = slash) then true
      else if bool_decide (c = dot) then
        match r with
        | "" => true
        | String c2 r2 =>
            if bool_decide (c2 = slash) then true
            else if bool_decide (c2 = dot) then match r2 with "" => true | String c3 _ => bool_decide (c3 = slash) end
            else false
        end
      else false
  end.

(** The loop of [path_is_already_normalized]. *)
Fixpoint scan_normalized (s : string) : bool :=
  match s with
  | "" => true
  | String c s => if bool_decide (c = slash) && bad_after_slash s then false else scan_normalized s
  end.

Definition path_is_already_normalized (path : string) : bool :=
  if bool_decide (path = "") || bool_decide (path = ".") || bool_decide (path = "..") then false
  else if bool_decide (1 < String.length path)%nat && ends_slash path then false
  else if starts_with "./" path || starts_with "../" path then false
  else scan_normalized path.

(** A turn of the loop over the parts. *)
Definition norm_step (parts : list string) (part : string) : list string :=
  if bool_decide (part = "") || bool_decide (part = ".") then parts
  else if bool_decide (part = "..") then removelast parts
  else parts ++ [part].

(** [normalize_path] after the fast path. *)
Definition normalize_slow (path : string) : string :=
  let parts := foldl norm_step [] (split path) in
  let normalized := (if starts_slash path then "/" else "") +:+ join parts in
  if bool_decide (normalized = "") then "."
  else if bool_decide (1 < String.length normalized)%nat && ends_slash normalized then trim_end normalized
  else normalized.

Definition normalize_path (path : string) : string :=
  if path_is_already_normalized path then path else normalize_slow path.

(** ** Resolution *)

Definition resolve_path (cwd path : string) : string :=
  if starts_slash path then normalize_path path
  else if bool_decide (cwd = "/") then normalize_path ("/" +:+ path)
  else normalize_path (cwd +:+ "/" +:+ path).

Definition apply_root (root logical_path : string) : string :=
  let logical_path := normalize_path logical_path in
  if bool_decide (root = "/") then logical_path
  else
    let root := normalize_path root in
    if bool_decide (root = "/") then logical_path
    else if bool_decide (logical_path = "/") then root
    else normalize_path (root +:+ "/" +:+ trim_start logical_path).

Definition resolve_path_with_root (root cwd path : string) : string := apply_root root (resolve_path cwd path).

(** ** Names *)

Definition non_empty (s : string) : bool := negb (bool_decide (s = "")).

Definition file_name (path : string) : string :=
  default "" (head (filter (λ p, non_empty p = true) (rev (split path)))).

Definition parent_path (path : string) : string :=
  let trimmed := trim_end (normalize_path path) in
  if bool_decide (trimmed = "") || bool_decide (trimmed = "/") then "/"
  else match rfind_slash trimmed with
       | Some O | None => "/"
       | Some pos => String.substring 0 pos trimmed
       end.

Definition contains_slash (s : string) : bool := match rfind_slash s with Some _ => true | None => false end.

Definition child_name (parent child : string) : option string :=
  if bool_decide (child = parent) || negb (starts_with parent child) then None
  else
    rest ← (if bool_decide (parent = "/") then strip_prefix "/" child
            else r ← strip_prefix parent child; strip_prefix "/" r);
    if bool_decide (rest = "") || contains_slash rest then None else Some rest.

Definition is_descendant (parent child : string) : bool :=
  bool_decide (is_Some (r ← strip_prefix parent child; strip_prefix "/" r)).

(** [path_is_under] of src/os/src/fs/vfs.rs, [path_is_under_or_same] of the calls *)
Definition path_is_under (path parent : string) : bool :=
  let path := normalize_path path in
  let parent := normalize_path parent in
  bool_decide (path = parent) ||
  (negb (bool_decide (parent = "/")) && match strip_prefix parent path with Some tail => starts_slash tail | None => false end).

Definition path_has_parent_component (path : string) : bool := bool_decide (".." ∈ split path).

Definition NAME_MAX : Z := 255.
Definition check_path_component_lengths (path : string) : result unit SysErrNo :=
  if forallb (λ part, bool_decide (part = "") || bool_decide (part = ".") || bool_decide (part = "..") ||
                      bool_decide (Z.of_nat (String.length part) ≤ NAME_MAX)%Z) (split path)
  then Ok tt else Err ENAMETOOLONG.

(** [resolve_path_in_root_str] of [openat2]; [base] is the directory the call starts from. *)
Definition in_root_step (root_len : nat) (parts : list string) (part : string) : list string :=
  if bool_decide (part = "") || bool_decide (part = ".") then parts
  else if bool_decide (part = "..") then (if bool_decide (root_len < length parts)%nat then removelast parts else parts)
  else parts ++ [part].

Definition resolve_path_in_root_str (base : result string SysErrNo) (path : string) : result string SysErrNo :=
  if bool_decide (path = "") then Err ENOENT
  else
    _ ←? check_path_component_lengths path;
    base ←? base;
    let parts := filter (λ p, non_empty p = true) (split (trim_end (trim_start base))) in
    let parts := foldl (in_root_step (length parts)) parts (split path) in
    if bool_decide (parts = []) then Ok "/" else Ok (normalize_path ("/" +:+ join parts)).

(** [resolve_path_str]; [base] is [resolve_base_dir]. *)
Definition resolve_path_str (base : result string SysErrNo) (path : string) : result string SysErrNo :=
  if bool_decide (path = "") then Err ENOENT
  else
    _ ←? check_path_component_lengths path;
    if starts_slash path then Ok (normalize_path path) else base ←? base; Ok (resolve_path base path).

(** ** Splitting and joining *)

Lemma app_cons_s c a b : String c a +:+ b = String c (a +:+ b).
Proof. done. Qed.
Lemma app_nil_s s : s +:+ "" = s.
Proof. induction s as [|c s IH]; [done|]. by rewrite app_cons_s, IH. Qed.
Lemma app_assoc_s a b c : (a +:+ b) +:+ c = a +:+ b +:+ c.
Proof. induction a as [|x a IH]; [done|]. by rewrite !app_cons_s, IH. Qed.
Lemma length_app_s a b : String.length (a +:+ b) = (String.length a + String.length b)%nat.
Proof. induction a as [|x a IH]; [done|]. rewrite app_cons_s. cbn [String.length]. by rewrite IH. Qed.

Lemma split_ne s : split s ≠ [].
Proof. destruct s as [|c s]; [done|]. cbn. case_bool_decide; [done|]. by destruct (split s). Qed.

Lemma split_app a b : split (a +:+ String slash b) = split a ++ split b.
Proof.
  induction a as [|c a IH]; [done|]. rewrite app_cons_s. cbn [split]. rewrite IH. case_bool_decide; [done|].
  pose proof (split_ne a). by destruct (split a).
Qed.

Lemma join_split s : join (split s) = s.
Proof.
  induction s as [|c s IH]; [done|]. cbn [split]. pose proof (split_ne s) as Hne.
  case_bool_decide as Hc; [subst c|]; destruct (split s) as [|p ps]; try done.
  - change (join ("" :: p :: ps)) with (String slash (join (p :: ps))). by rewrite IH.
  - rewrite <-IH. by destruct ps.
Qed.

(** A component has no slash; a name is one that stays. *)
Definition no_slash (p : string) : Prop := split p = [p].
Record name (p : string) : Prop := { name_slash : no_slash p; name_ok : p ≠ "" ∧ p ≠ "." ∧ p ≠ ".." }.

Lemma split_no_slash s : Forall no_slash (split s).
Proof.
  induction s as [|c s IH]; [by constructor|]. cbn [split]. case_bool_decide as Hc; [by constructor|].
  pose proof (split_ne s). destruct (split s) as [|p ps]; [done|]. inversion IH as [|? ? Hp Hps]; subst. constructor; [|done].
  unfold no_slash in *. cbn [split]. by rewrite bool_decide_false, Hp.
Qed.

Lemma split_join ps : ps ≠ [] → Forall no_slash ps → split (join ps) = ps.
Proof.
  induction ps as [|p ps IH]; intros Hne Hf; [done|]. inversion Hf as [|? ? Hp Hps]; subst. destruct ps as [|q ps]; [done|].
  change (join (p :: q :: ps)) with (p +:+ String slash (join (q :: ps))). by rewrite split_app, IH, Hp.
Qed.

Lemma join_cons p ps : ps ≠ [] → join (p :: ps) = p +:+ String slash (join ps).
Proof. by destruct ps. Qed.
Lemma join_app ps qs : ps ≠ [] → qs ≠ [] → join (ps ++ qs) = join ps +:+ String slash (join qs).
Proof.
  intros Hp Hq. induction ps as [|p ps IH]; [done|]. destruct ps as [|p' ps]; [by apply join_cons|].
  change ((p :: p' :: ps) ++ qs) with (p :: ((p' :: ps) ++ qs)). rewrite !join_cons by done. rewrite IH by done. by rewrite app_assoc_s.
Qed.

Lemma ends_slash_app a c b : ends_slash (a +:+ String c b) = ends_slash (String c b).
Proof. induction a as [|x a IH]; [done|]. rewrite app_cons_s, <-IH. cbn [ends_slash]. by destruct (a +:+ String c b) eqn:E; [destruct a|]. Qed.

Lemma ends_slash_inv s : ends_slash s = true → ∃ q, s = q +:+ "/".
Proof.
  induction s as [|c s IH]; [done|]. destruct s as [|d s].
  - cbn. intros ->%bool_decide_eq_true. by exists "".
  - intros H. destruct IH as [q E]; [exact H|]. exists (String c q). by rewrite E.
Qed.

Lemma name_ends p : name p → ends_slash p = false.
Proof.
  intros [Hs _]. destruct (ends_slash p) eqn:E; [|done]. apply ends_slash_inv in E as [q ->]. unfold no_slash in Hs.
  rewrite split_app in Hs. pose proof (split_ne q). by destruct (split q) as [|? [|]].
Qed.
Lemma name_starts p : name p → starts_slash p = false.
Proof.
  intros [Hs [Hne _]]. destruct p as [|c p]; [done|]. cbn. case_bool_decide as Hc; [|done]. subst c. unfold no_slash in Hs. cbn in Hs.
  pose proof (split_ne p). by destruct (split p).
Qed.

Lemma join_names_ends ps : Forall name ps → ends_slash (join ps) = false.
Proof.
  induction ps as [|p ps IH]; intros Hf; [done|]. inversion Hf as [|? ? Hp Hps]; subst. destruct ps as [|q ps]; [by apply name_ends|].
  rewrite join_cons by done. rewrite ends_slash_app. specialize (IH Hps). cbn [ends_slash].
  destruct (join (q :: ps)) as [|d r] eqn:E; [|done]. exfalso. inversion Hps as [|? ? [Hq [Hn _]] Hr]; subst.
  destruct ps; cbn in E; [by subst|]. by destruct q.
Qed.
Lemma join_names_starts ps : Forall name ps → starts_slash (join ps) = false.
Proof.
  intros Hf. destruct ps as [|p ps]; [done|]. inversion Hf as [|? ? Hp Hps]; subst. pose proof (name_starts p Hp) as Hs.
  destruct ps; [done|]. rewrite join_cons by done. destruct p; [by destruct Hp as [_ [? _]]|]. done.
Qed.
Lemma join_names_ne ps : Forall name ps → ps ≠ [] → join ps ≠ "".
Proof.
  intros Hf Hne E. destruct ps as [|p ps]; [done|]. inversion Hf as [|? ? [_ [Hp _]] Hps]; subst.
  destruct ps; cbn in E; [done|]. by destruct p.
Qed.

(** ** What normalisation computes *)

(** The components a path names, as a stack, and the path of components. *)
Definition components (path : string) : list string := foldl norm_step [] (split path).
Definition render (absolute : bool) (parts : list string) : string :=
  if absolute then "/" +:+ join parts else if bool_decide (parts = []) then "." else join parts.

Lemma removelast_Forall {A} (P : A → Prop) l : Forall P l → Forall P (removelast l).
Proof. induction 1 as [|x l Hx Hl IH]; [constructor|]. cbn. destruct l; [constructor|]. by constructor. Qed.

Lemma norm_step_names parts p : Forall name parts → no_slash p → Forall name (norm_step parts p).
Proof.
  intros Hf Hp. unfold norm_step. case_bool_decide; [done|]. case_bool_decide; [done|]. cbn [orb].
  case_bool_decide; [by apply removelast_Forall|]. apply Forall_app. split; [done|]. constructor; [|constructor]. by split.
Qed.
Lemma norm_steps_names parts l : Forall name parts → Forall no_slash l → Forall name (foldl norm_step parts l).
Proof. intros Hf Hl. revert parts Hf. induction Hl as [|p l Hp _ IH]; intros parts Hf; [done|]. cbn. by apply IH, norm_step_names. Qed.
Lemma components_names path : Forall name (components path).
Proof. apply norm_steps_names; [constructor|apply split_no_slash]. Qed.

(** Names are pushed as they are. *)
Lemma norm_steps_push parts l : Forall name l → foldl norm_step parts l = parts ++ l.
Proof.
  intros Hl. revert parts. induction Hl as [|p l [_ (H1 & H2 & H3)] _ IH]; intros parts; [by rewrite app_nil_r|]. cbn [foldl].
  unfold norm_step at 2. rewrite !bool_decide_false by done. cbn [orb]. by rewrite IH, <-app_assoc.
Qed.

Lemma trim_end_keeps s : ends_slash s = false → trim_end s = s.
Proof.
  induction s as [|c s IH]; intros H; [done|]. cbn [trim_end]. destruct s as [|d s].
  - cbn in H |- *. by rewrite H.
  - rewrite IH by exact H. done.
Qed.

Lemma normalize_slow_render path : normalize_slow path = render (starts_slash path) (components path).
Proof.
  unfold normalize_slow, render. fold (components path). pose proof (components_names path) as Hf.
  set (ps := components path) in *. destruct (starts_slash path).
  - rewrite bool_decide_false by done. destruct ps as [|p ps]; [done|].
    assert (He : ends_slash ("/" +:+ join (p :: ps)) = false).
    { pose proof (join_names_ends _ Hf) as He. pose proof (join_names_ne _ Hf ltac:(done)). rewrite app_cons_s. cbn [ends_slash].
      change ("" +:+ join (p :: ps)) with (join (p :: ps)). by destruct (join (p :: ps)). }
    by rewrite He, andb_false_r.
  - change ("" +:+ join ps) with (join ps). rewrite join_names_ends, andb_false_r by done.
    destruct (decide (ps = [])) as [->|Hne]; [done|]. rewrite bool_decide_false by (by apply join_names_ne). by rewrite bool_decide_false.
Qed.

(** What the scan accepts: names, and perhaps a slash at the end. *)
Definition comp_ok (p : string) : Prop := p ≠ "" ∧ p ≠ "." ∧ p ≠ "..".

Lemma bad_after_slash_spec s : bad_after_slash s = false → s = "" ∨ ∃ p ps, split s = p :: ps ∧ comp_ok p.
Proof.
  destruct s as [|c r]; [by left|]. intros H. right. cbn [bad_after_slash] in H. cbn [split].
  case_bool_decide as Hc; [done|]. pose proof (split_ne r) as Hne. destruct (split r) as [|p ps] eqn:Er; [done|].
  exists (String c p), ps. split; [done|]. case_bool_decide as Hd.
  2: { split_and!; [done|intros [= -> _]; done|intros [= -> _]; done]. }
  subst c. destruct r as [|c2 r2]; [done|]. cbn [split] in Er. case_bool_decide as Hc2; [done|].
  pose proof (split_ne r2). destruct (split r2) as [|p2 ps2] eqn:Er2; [done|]. injection Er as <- <-.
  case_bool_decide as Hd2; [subst c2|split_and!; [done|done|intros [= ->]; done]].
  destruct r2 as [|c3 r3]; [done|]. case_bool_decide as Hc3; [done|]. cbn [split] in Er2. rewrite bool_decide_false in Er2 by done.
  destruct (split r3); injection Er2 as <- <-; split_and!; done.
Qed.

Lemma scan_spec s : scan_normalized s = true →
  Forall comp_ok (tail (split s)) ∨ ∃ l, tail (split s) = l ++ [""] ∧ Forall comp_ok l.
Proof.
  induction s as [|c s IH]; intros H; [by left; constructor|]. cbn [scan_normalized] in H. cbn [split].
  case_bool_decide as Hc; cbn [andb] in H.
  - destruct (bad_after_slash s) eqn:Eb; [done|]. apply bad_after_slash_spec in Eb as [->|(p & ps & Es & Hp)].
    + right. by exists [].
    + cbn [tail]. rewrite Es in *. destruct (IH H) as [Hf|(l & El & Hf)]; cbn [tail] in *; [left; by constructor|right].
      exists (p :: l). rewrite El. split; [done|by constructor].
  - pose proof (split_ne s). specialize (IH H). by destruct (split s).
Qed.

Lemma ends_slash_split s l : split s = l ++ [""] → l ≠ [] → ends_slash s = true.
Proof. intros E Hne. rewrite <-(join_split s), E, join_app by done. by rewrite ends_slash_app. Qed.

Lemma forall_names l : Forall no_slash l → Forall comp_ok l → Forall name l.
Proof. intros Hn. induction Hn as [|p l Hp _ IH]; intros Hc; [constructor|]. inversion Hc; subst. constructor; [by split|by apply IH]. Qed.

Lemma fast_path path : path_is_already_normalized path = true → normalize_slow path = path.
Proof.
  intros H. rewrite normalize_slow_render. unfold path_is_already_normalized in H.
  case_bool_decide as H0; [done|]. case_bool_decide as H1; [done|]. case_bool_decide as H2; [done|]. cbn [orb] in H.
  destruct (bool_decide (1 < String.length path)%nat && ends_slash path) eqn:Ee; [done|].
  destruct (starts_with "./" path) eqn:Ep1; [done|]. destruct (starts_with "../" path) eqn:Ep2; [done|]. cbn [orb] in H.
  pose proof (scan_spec path H) as Hscan. pose proof (split_no_slash path) as Hns. unfold components.
  assert (Hlong : ∀ l, split path = l ++ [""] → l ≠ [] → (1 < String.length path)%nat → False).
  { intros l El Hl Hlen. by rewrite (ends_slash_split path l El Hl), bool_decide_true in Ee. }
  destruct path as [|c r]; [done|]. cbn [starts_slash]. destruct (decide (c = slash)) as [->|Hc].
  - rewrite (bool_decide_true (slash = slash)) by done. change (split (String slash r)) with ("" :: split r) in *. cbn [tail] in Hscan. apply Forall_inv_tail in Hns.
    change (foldl norm_step [] ("" :: split r)) with (foldl norm_step [] (split r)).
    destruct Hscan as [Hf|(l & El & Hf)].
    + rewrite norm_steps_push by (by apply forall_names). unfold render. by rewrite app_nil_l, join_split.
    + destruct l as [|q l]; [|exfalso].
      * assert (r = "") as -> by (by rewrite <-(join_split r), El). done.
      * apply (Hlong ("" :: q :: l)); [by rewrite El|done|]. destruct r; [by destruct l|]. cbn [String.length]. lia.
  - rewrite (bool_decide_false (c = slash)) by done. pose proof (split_ne (String c r)) as Hne. destruct (split (String c r)) as [|p ps] eqn:Es; [done|]. cbn [tail] in Hscan.
    assert (Ejoin : join (p :: ps) = String c r) by (rewrite <-Es; apply join_split).
    assert (Hp : comp_ok p).
    { destruct ps as [|q ps]; [cbn in Ejoin; rewrite Ejoin; by split_and!|]. rewrite join_cons in Ejoin by done.
      split_and!; intros ->.
      - by injection Ejoin as <- _.
      - rewrite <-Ejoin in Ep1. by change (true = false) in Ep1.
      - rewrite <-Ejoin in Ep2. by change (true = false) in Ep2. }
    destruct Hscan as [Hf|(l & -> & Hf)].
    + rewrite norm_steps_push by (apply forall_names; [done|by constructor]). unfold render. cbn [app]. rewrite bool_decide_false by done. exact Ejoin.
    + exfalso. apply (Hlong (p :: l)); [done|done|]. rewrite <-Ejoin. change (p :: l ++ [""]) with ((p :: l) ++ [""]).
      rewrite join_app by done. rewrite length_app_s. cbn [String.length]. destruct Hp as [Hp _]. destruct p as [|x p]; [done|].
      destruct l; [cbn [join String.length]; lia|]. rewrite join_cons by done. rewrite length_app_s. cbn [String.length]. lia.
Qed.

Lemma normalize_render path : normalize_path path = render (starts_slash path) (components path).
Proof.
  rewrite <-normalize_slow_render. unfold normalize_path. destruct (path_is_already_normalized path) eqn:E; [|done].
  symmetry. by apply fast_path.
Qed.

Lemma split_slash s : split ("/" +:+ s) = "" :: split s.
Proof. done. Qed.
Lemma norm_step_empty parts : norm_step parts "" = parts.
Proof. done. Qed.
Lemma components_slash s : components ("/" +:+ s) = components s.
Proof. unfold components. rewrite split_slash. cbn [foldl]. by rewrite norm_step_empty. Qed.

Lemma components_join ps : Forall name ps → components (join ps) = ps.
Proof.
  intros Hf. destruct (decide (ps = [])) as [->|Hne]; [reflexivity|]. unfold components.
  rewrite split_join; [by rewrite norm_steps_push|done|]. eapply Forall_impl; [exact Hf|]. by intros p [? _].
Qed.
Lemma components_render b ps : Forall name ps → components (render b ps) = ps.
Proof.
  intros Hf. unfold render. destruct b; [by rewrite components_slash, components_join|]. case_bool_decide as E; [by subst|by apply components_join].
Qed.
Lemma starts_render b ps : Forall name ps → starts_slash (render b ps) = b.
Proof. intros Hf. destruct b; [done|]. unfold render. case_bool_decide; [done|]. by apply join_names_starts. Qed.
Lemma normalize_of_render b ps : Forall name ps → normalize_path (render b ps) = render b ps.
Proof. intros Hf. by rewrite normalize_render, starts_render, components_render. Qed.

(** Paths are equal when their kind and their components are. *)
Lemma render_inj b ps qs : Forall name ps → Forall name qs → render b ps = render b qs → ps = qs.
Proof. intros Hp Hq E. by rewrite <-(components_render b ps), E, components_render. Qed.


(** ** Resolution of components *)

Lemma components_app a b : components (a +:+ "/" +:+ b) = foldl norm_step (components a) (split b).
Proof. unfold components. change (a +:+ "/" +:+ b) with (a +:+ String slash b). by rewrite split_app, foldl_app. Qed.

Lemma starts_app a b : a ≠ "" → starts_slash (a +:+ b) = starts_slash a.
Proof. by destruct a. Qed.
Lemma absolute_ne a : starts_slash a = true → a ≠ "".
Proof. by destruct a. Qed.

(** An absolute path and the root of all. *)
Lemma normalize_is_root p : starts_slash p = true → normalize_path p = "/" ↔ components p = [].
Proof.
  intros Hs. rewrite normalize_render, Hs. split; [|by intros ->]. intros E.
  apply (render_inj true); [apply components_names|constructor|exact E].
Qed.

Lemma trim_start_names ps : Forall name ps → trim_start (render true ps) = join ps.
Proof.
  intros Hf. unfold render. change ("/" +:+ join ps) with (String slash (join ps)). cbn [trim_start]. rewrite bool_decide_true by done.
  pose proof (join_names_starts ps Hf) as Hs. destruct (join ps) as [|c r]; [done|]. cbn in Hs |- *. by rewrite Hs.
Qed.

(** The components of a resolved path. *)
Lemma resolve_path_components cwd path :
  starts_slash cwd = true →
  resolve_path cwd path = render true (foldl norm_step (if starts_slash path then [] else components cwd) (split path)).
Proof.
  intros Hc. unfold resolve_path. destruct (starts_slash path) eqn:Ep; [by rewrite normalize_render, Ep|].
  case_bool_decide as E.
  - subst. by rewrite normalize_render, components_slash.
  - rewrite normalize_render, components_app, starts_app by (by apply absolute_ne). by rewrite Hc.
Qed.

Lemma apply_root_components root p :
  starts_slash root = true → starts_slash p = true → apply_root root p = render true (components root ++ components p).
Proof.
  intros Hr Hp. unfold apply_root. pose proof (components_names root) as Fr. pose proof (components_names p) as Fp.
  case_bool_decide as E1; [subst; by rewrite normalize_render, Hp|].
  case_bool_decide as E2; [apply normalize_is_root in E2; [|done]; by rewrite E2, normalize_render, Hp|].
  case_bool_decide as E3; [apply normalize_is_root in E3; [|done]; by rewrite E3, app_nil_r, normalize_render, Hr|].
  rewrite (normalize_render p), (normalize_render root), Hp, Hr, trim_start_names by done.
  rewrite normalize_render, components_app, components_render by done. rewrite starts_app by done. rewrite starts_render by done.
  rewrite split_join, norm_steps_push; [done|done| |].
  - intros E. apply E3. by apply normalize_is_root.
  - eapply Forall_impl; [exact Fp|]. by intros q [? _].
Qed.

Lemma strip_prefix_spec p s t : strip_prefix p s = Some t ↔ s = p +:+ t.
Proof.
  revert s. induction p as [|a p IH]; intros s; [cbn; split; [by intros [= ->]|by intros ->]|]. rewrite app_cons_s. destruct s as [|b s]; [done|].
  cbn [strip_prefix]. case_bool_decide as E; [subst b; rewrite IH; split; [by intros ->|by intros [= ->]]|]. split; [done|by intros [= -> _]].
Qed.

(** A proper prefix of components is a prefix of the string that ends at a slash. *)
Lemma prefix_components ps qs :
  Forall name ps → Forall name qs → qs ≠ [] →
  (∃ t, render true ps = render true qs +:+ String slash t) ↔ ∃ r, r ≠ [] ∧ ps = qs ++ r.
Proof.
  intros Hp Hq Hne. assert (Hns : ∀ l, Forall name l → Forall no_slash l) by (intros l Hl; eapply Forall_impl; [exact Hl|by intros ? []]).
  unfold render. split.
  - intros [t E]. apply (f_equal split) in E. rewrite app_assoc_s, !split_slash, split_app in E. injection E as E.
    rewrite (split_join qs) in E by auto. destruct (decide (ps = [])) as [->|Hpe].
    + cbn [join] in E. destruct qs as [|q qs]; [done|]. injection E as Eq _. inversion Hq as [|? ? [_ [Hqe _]] _]; subst. done.
    + rewrite split_join in E by auto. exists (split t). split; [apply split_ne|done].
  - intros (r & Hr & ->). exists (join r). by rewrite join_app, app_assoc_s by done.
Qed.

Lemma path_is_under_components p q :
  starts_slash p = true → starts_slash q = true →
  path_is_under p q = bool_decide (components p = components q ∨ (components q ≠ [] ∧ components q `prefix_of` components p)).
Proof.
  intros Hp Hq. unfold path_is_under. pose proof (components_names p) as Fp. pose proof (components_names q) as Fq.
  rewrite (normalize_render p), (normalize_render q), Hp, Hq. apply eq_true_iff_eq. rewrite orb_true_iff, andb_true_iff, !bool_decide_eq_true, negb_true_iff, bool_decide_eq_false.
  assert (Hroot : render true (components q) = "/" ↔ components q = []).
  { split; [intros E; apply (render_inj true); [done|constructor|exact E]|by intros ->]. }
  rewrite Hroot. split.
  - intros [E|[Hne Ht]]; [left; by apply (render_inj true)|right]. split; [done|].
    destruct (strip_prefix _ _) as [t|] eqn:Es; [|done]. apply strip_prefix_spec in Es. destruct t as [|c t]; [done|]. cbn in Ht.
    apply bool_decide_eq_true in Ht as ->. destruct (proj1 (prefix_components _ _ Fp Fq Hne)) as (r & _ & ->); [by exists t|]. by exists r.
  - intros [->|[Hne [r Er]]]; [by left|]. destruct r as [|x r]; [left; by rewrite Er, app_nil_r|right]. split; [done|].
    destruct (proj2 (prefix_components _ _ Fp Fq Hne)) as [t Et]; [by exists (x :: r)|]. apply strip_prefix_spec in Et. by rewrite Et.
Qed.

(** ** Parents *)

Lemma rfind_none p : no_slash p → rfind_slash p = None.
Proof.
  unfold no_slash. induction p as [|c p IH]; intros H; [done|]. cbn [split] in H. cbn [rfind_slash].
  pose proof (split_ne p). case_bool_decide as Hc; [by destruct (split p)|]. destruct (split p) as [|q qs] eqn:E; [done|].
  injection H as -> ->. by rewrite IH.
Qed.
Lemma rfind_app a p : no_slash p → rfind_slash (a +:+ String slash p) = Some (String.length a).
Proof.
  intros Hp. induction a as [|c a IH]; [|by rewrite app_cons_s; cbn [rfind_slash String.length]; rewrite IH].
  change ("" +:+ String slash p) with (String slash p). cbn [rfind_slash]. rewrite rfind_none by done. by rewrite bool_decide_true.
Qed.
Lemma substring_app a b : String.substring 0 (String.length a) (a +:+ b) = a.
Proof. induction a as [|c a IH]; [by destruct b|]. rewrite app_cons_s. cbn [String.length String.substring]. by rewrite IH. Qed.

Lemma render_ends ps : Forall name ps → ps ≠ [] → ends_slash (render true ps) = false.
Proof.
  intros Hf Hne. unfold render. change ("/" +:+ join ps) with (String slash (join ps)). pose proof (join_names_ends _ Hf) as He.
  pose proof (join_names_ne _ Hf Hne). cbn [ends_slash]. by destruct (join ps).
Qed.

Lemma parent_path_components p : starts_slash p = true → parent_path p = render true (removelast (components p)).
Proof.
  intros Hp. unfold parent_path. pose proof (components_names p) as Fp. rewrite normalize_render, Hp.
  destruct (decide (components p = [])) as [->|Hne]; [reflexivity|]. rewrite trim_end_keeps by (by apply render_ends).
  assert (Hr : render true (components p) ≠ "/") by (intros E; apply Hne; by apply (render_inj true)).
  rewrite !bool_decide_false by done. cbn [orb].
  destruct (exists_last Hne) as (l & x & E). rewrite E in *. rewrite removelast_last. apply Forall_app in Fp as [Fl Fx].
  inversion Fx as [|? ? [Hx _] _]; subst. destruct l as [|q l].
  - cbn [app]. unfold render at 1. cbn [join]. change ("/" +:+ x) with ("" +:+ String slash x). by rewrite rfind_app by done.
  - unfold render at 1 2. rewrite join_app by done. cbn [join]. change (join [x]) with x. rewrite <-app_assoc_s. rewrite rfind_app by done.
    rewrite substring_app. by rewrite app_cons_s.
Qed.

(** ** The root of [openat2] *)

(** Above the root nothing is dropped. *)
Lemma in_root_steps base parts l :
  Forall name parts → base `prefix_of` parts → Forall no_slash l →
  base `prefix_of` foldl (in_root_step (length base)) parts l ∧ Forall name (foldl (in_root_step (length base)) parts l).
Proof.
  intros Hf Hb Hl. revert parts Hf Hb. induction Hl as [|p l Hp _ IH]; intros parts Hf Hb; [done|]. cbn [foldl].
  assert (Hstep : base `prefix_of` in_root_step (length base) parts p ∧ Forall name (in_root_step (length base) parts p)).
  { unfold in_root_step. case_bool_decide; [done|]. case_bool_decide; [done|]. cbn [orb].
    case_bool_decide; [case_bool_decide as Hlen; [|done]|].
    - split; [|by apply removelast_Forall]. destruct Hb as [r ->]. rewrite length_app in Hlen. destruct r as [|x r]; [simpl in Hlen; lia|].
      rewrite removelast_app by done. by eexists.
    - split; [destruct Hb as [r ->]; eexists; by rewrite <-app_assoc|]. apply Forall_app. split; [done|]. constructor; [by split|constructor]. }
  apply IH; apply Hstep.
Qed.

Lemma filter_names ps : Forall name ps → filter (λ p, non_empty p = true) ps = ps.
Proof.
  induction 1 as [|p ps [_ [Hp _]] _ IH]; [done|]. rewrite filter_cons_True by (unfold non_empty; by rewrite bool_decide_false). by rewrite IH.
Qed.

(** The components of a normal directory, as [resolve_path_in_root_str] takes them apart. *)
Lemma base_components bs : Forall name bs → filter (λ p, non_empty p = true) (split (trim_end (trim_start (render true bs)))) = bs.
Proof.
  intros Hf. rewrite trim_start_names by done. destruct (decide (bs = [])) as [->|Hne]; [reflexivity|].
  rewrite trim_end_keeps by (by apply join_names_ends). rewrite split_join; [by apply filter_names|done|].
  eapply Forall_impl; [exact Hf|]. by intros p [? _].
Qed.

Lemma in_root_result bs path r :
  Forall name bs → resolve_path_in_root_str (Ok (render true bs)) path = Ok r →
  ∃ rs, r = render true rs ∧ Forall name rs ∧ bs `prefix_of` rs.
Proof.
  intros Hf. unfold resolve_path_in_root_str. case_bool_decide; [done|]. destruct (check_path_component_lengths path); [|done].
  rewrite base_components by done. cbv zeta.
  destruct (in_root_steps bs bs (split path) Hf ltac:(reflexivity) (split_no_slash path)) as [Hp Hn].
  set (rs := foldl _ _ _) in *. case_bool_decide as E; intros [= <-].
  - exists []. rewrite E in Hp. split_and!; [done|constructor|done].
  - exists rs. split_and!; [|done|done]. rewrite normalize_render, components_slash. by rewrite components_join.
Qed.

(** C23: a path stays below its root.  A path is resolved against the root of the process to
    the components of the root followed by its own, so that no number of [..] climbs above
    it; [path_is_under] holds of the result.  [openat2] with RESOLVE_IN_ROOT yields a path
    below the directory it starts from, whatever the path says; what passes its check for
    RESOLVE_BENEATH is below too; and the parent of a path drops its last component. *)
Theorem paths_are_confined root p base path r :
  starts_slash root = true → starts_slash p = true → starts_slash base = true →
  resolve_path_in_root_str (Ok (normalize_path base)) path = Ok r →
  apply_root root p = render true (components root ++ components p) ∧
  (components root ≠ [] → path_is_under (apply_root root p) root = true) ∧
  starts_slash r = true ∧ components base `prefix_of` components r ∧
  (path_is_under p base = true → components base `prefix_of` components p) ∧
  parent_path p = render true (removelast (components p)).
Proof.
  intros Hr Hp Hb E. pose proof (components_names root) as Fr. pose proof (components_names p) as Fp. pose proof (components_names base) as Fb.
  rewrite (normalize_render base), Hb in E. destruct (in_root_result _ _ _ Fb E) as (rs & -> & Hrs & Hpre).
  assert (Fall : Forall name (components root ++ components p)) by (by apply Forall_app).
  split_and!.
  - by apply apply_root_components.
  - intros Hne. rewrite apply_root_components by done. rewrite path_is_under_components by done. apply bool_decide_eq_true.
    rewrite components_render by done. right. split; [done|by eexists].
  - by apply starts_render.
  - by rewrite components_render.
  - rewrite path_is_under_components by done. intros [->|[_ ?]]%bool_decide_eq_true; done.
  - by apply parent_path_components.
Qed.

(** ** Concrete paths *)

Example normalize_examples :
  normalize_path "/a/./b//../c/" = "/a/c" ∧ normalize_path "../../x" = "x" ∧ normalize_path "/.." = "/" ∧ normalize_path "a/.." = "." ∧
  path_is_already_normalized "/a/..b" = true ∧ file_name "/a/b/" = "b" ∧ child_name "/" "/x" = Some "x" ∧ child_name "/a" "/ab" = None.
Proof. vm_compute. repeat split; reflexivity. Qed.

Lemma paths_are_confined_witness :
  resolve_path_in_root_str (Ok (normalize_path "/box/in")) "../../../etc/x" = Ok "/box/in/etc/x" ∧
  apply_root "/musl" "/../../etc" = "/musl/etc" ∧ components "/box/in" `prefix_of` components "/box/in/etc/x".
Proof.
  destruct (paths_are_confined "/musl" "/../../etc" "/box/in" "../../../etc/x" "/box/in/etc/x") as (E & _ & _ & Hp & _).
  - reflexivity.
  - reflexivity.
  - reflexivity.
  - vm_compute. reflexivity.
  - split; [vm_compute; reflexivity|]. split; [rewrite E; vm_compute; reflexivity|exact Hp].
Defined.

(** *** What the checks do not do *)

(** Nothing but [/] is under [/]: [openat2] with RESOLVE_BENEATH refuses every file of a
    directory that is the root, and a read-only root mount makes no file read-only. *)
Lemma nothing_under_root : path_is_under "/etc/passwd" "/" = false.
Proof. vm_compute. reflexivity. Qed.
