(* ===== verification/Access.v ===== *)
(** * Credentials and permissions (src/os/src/task/mod.rs, src/os/src/fs/vfs.rs, src/os/src/syscall/other.rs)

    The user and group identifiers of a task, the calls that change them, and the checks of
    the file layer against the metadata of a node.  The current task is an option: the
    checks of a context without one are those of root. *)

From S2P Require Import Prelude BTree Frame Flags FileDesc ResidentSet MapArea VmaList MemorySet MsInv.
From S2P Require Import Buddy FrameAlloc Sv39 MsInsert Machine MsUnmap MsCow MsFork MsCache MsFault MsBytes UserCopy.

(** ** Credentials *)

Record Credentials : Type := {
  real_uid : Z; effective_uid : Z; saved_uid : Z; fsuid : Z;
  real_gid : Z; effective_gid : Z; saved_gid : Z; fsgid : Z;
  supplementary_groups : list Z;
}.

Definition LINUX_NGROUPS_MAX : Z := 65536.
Definition MAX_SUPPLEMENTARY_GROUPS : Z := 32.

Definition root_credentials : Credentials := Build_Credentials 0 0 0 0 0 0 0 0 [0].

Definition has_uid (c : Credentials) (uid : Z) : bool :=
  bool_decide (uid = real_uid c) || bool_decide (uid = effective_uid c) || bool_decide (uid = saved_uid c).
Definition has_gid (c : Credentials) (gid : Z) : bool :=
  bool_decide (gid = real_gid c) || bool_decide (gid = effective_gid c) || bool_decide (gid = saved_gid c).
Definition has_uid_or_fsuid (c : Credentials) (uid : Z) : bool := has_uid c uid || bool_decide (uid = fsuid c).
Definition has_gid_or_fsgid (c : Credentials) (gid : Z) : bool := has_gid c gid || bool_decide (gid = fsgid c).
Definition is_root_capable (c : Credentials) : bool := bool_decide (effective_uid c = 0).
Definition is_in_group (c : Credentials) (gid : Z) (effective : bool) : bool :=
  bool_decide ((if effective then effective_gid c else real_gid c) = gid) || bool_decide (gid ∈ supplementary_groups c).
Definition is_in_filesystem_group (c : Credentials) (gid : Z) : bool :=
  bool_decide (fsgid c = gid) || bool_decide (gid ∈ supplementary_groups c).

Definition set_uids (c : Credentials) (r e s f : Z) : Credentials :=
  Build_Credentials r e s f (real_gid c) (effective_gid c) (saved_gid c) (fsgid c) (supplementary_groups c).
Definition set_gids (c : Credentials) (r e s f : Z) : Credentials :=
  Build_Credentials (real_uid c) (effective_uid c) (saved_uid c) (fsuid c) r e s f (supplementary_groups c).
Definition set_supplementary_groups (c : Credentials) (groups : list Z) : Credentials :=
  Build_Credentials (real_uid c) (effective_uid c) (saved_uid c) (fsuid c) (real_gid c) (effective_gid c) (saved_gid c) (fsgid c) groups.

(** ** The calls on identifiers *)

(** Code over the credentials of the current task. *)
Definition Call (A : Type) : Type := option Credentials → option Credentials * result A SysErrNo.
#[export] Instance call_ret : MRet Call := λ A a cur, (cur, Ok a).
#[export] Instance call_bind : MBind Call := λ A B k m cur,
  let '(cur, r) := m cur in match r with Ok a => k a cur | Err e => (cur, Err e) end.
Definition refuse {A} (e : SysErrNo) : Call A := λ cur, (cur, Err e).
Definition credentials : Call Credentials := λ cur, (cur, match cur with Some c => Ok c | None => Err ESRCH end).
Definition set_credentials (c : Credentials) : Call unit := λ cur, (Some c, Ok tt).

Definition parse_id_arg (raw : Z) : Call (option Z) :=
  if bool_decide (raw = USIZE_MAX) || bool_decide (raw = U32_MAX) then mret None
  else if bool_decide (U32_MAX < raw) then refuse EINVAL else mret (Some raw).
Definition parse_required_id (raw : Z) : Call Z := if bool_decide (U32_MAX < raw) then refuse EINVAL else mret raw.
Definition parse_filesystem_id_arg (raw : Z) : option Z :=
  if bool_decide (raw = USIZE_MAX) || bool_decide (raw = U32_MAX) || bool_decide (U32_MAX < raw) then None else Some raw.

Definition sys_getuid : Call Z := c ← credentials; mret (real_uid c).
Definition sys_geteuid : Call Z := c ← credentials; mret (effective_uid c).
Definition sys_getgid : Call Z := c ← credentials; mret (real_gid c).
Definition sys_getegid : Call Z := c ← credentials; mret (effective_gid c).

Definition sys_setuid (uid : Z) : Call Z :=
  uid ← parse_required_id uid;
  c ← credentials;
  if is_root_capable c then _ ← set_credentials (set_uids c uid uid uid uid); mret 0
  else if has_uid c uid then _ ← set_credentials (set_uids c (real_uid c) uid (saved_uid c) uid); mret 0
  else refuse EPERM.

Definition sys_setgid (gid : Z) : Call Z :=
  gid ← parse_required_id gid;
  c ← credentials;
  if is_root_capable c then _ ← set_credentials (set_gids c gid gid gid gid); mret 0
  else if has_gid c gid then _ ← set_credentials (set_gids c (real_gid c) gid (saved_gid c) gid); mret 0
  else refuse EPERM.

(** [map(..).unwrap_or(false)] *)
Definition some_and (o : option Z) (p : Z → bool) : bool := match o with Some x => p x | None => false end.

Definition sys_setreuid (ruid euid : Z) : Call Z :=
  new_ruid ← parse_id_arg ruid;
  new_euid ← parse_id_arg euid;
  old ← credentials;
  if negb (is_root_capable old) && some_and new_ruid (λ uid, negb (bool_decide (uid = real_uid old)) && negb (bool_decide (uid = effective_uid old)))
  then refuse EPERM
  else if negb (is_root_capable old) && some_and new_euid (λ uid, negb (has_uid old uid)) then refuse EPERM
  else
    let r := default (real_uid old) new_ruid in
    let e := default (effective_uid old) new_euid in
    let f := match new_euid with Some e => e | None => fsuid old end in
    let s := if bool_decide (is_Some new_ruid) || some_and new_euid (λ uid, negb (bool_decide (uid = real_uid old))) then e else saved_uid old in
    _ ← set_credentials (set_uids old r e s f); mret 0.

Definition sys_setregid (rgid egid : Z) : Call Z :=
  new_rgid ← parse_id_arg rgid;
  new_egid ← parse_id_arg egid;
  old ← credentials;
  if negb (is_root_capable old) && some_and new_rgid (λ gid, negb (bool_decide (gid = real_gid old)) && negb (bool_decide (gid = effective_gid old)))
  then refuse EPERM
  else if negb (is_root_capable old) && some_and new_egid (λ gid, negb (has_gid old gid)) then refuse EPERM
  else
    let r := default (real_gid old) new_rgid in
    let e := default (effective_gid old) new_egid in
    let f := match new_egid with Some e => e | None => fsgid old end in
    let s := if bool_decide (is_Some new_rgid) || some_and new_egid (λ gid, negb (bool_decide (gid = real_gid old))) then e else saved_gid old in
    _ ← set_credentials (set_gids old r e s f); mret 0.

Definition sys_setresuid (ruid euid suid : Z) : Call Z :=
  new_ruid ← parse_id_arg ruid;
  new_euid ← parse_id_arg euid;
  new_suid ← parse_id_arg suid;
  old ← credentials;
  if negb (is_root_capable old) && existsb (λ o, some_and o (λ uid, negb (has_uid old uid))) [new_ruid; new_euid; new_suid] then refuse EPERM
  else
    let f := match new_euid with Some e => e | None => fsuid old end in
    _ ← set_credentials (set_uids old (default (real_uid old) new_ruid) (default (effective_uid old) new_euid) (default (saved_uid old) new_suid) f);
    mret 0.

Definition sys_setresgid (rgid egid sgid : Z) : Call Z :=
  new_rgid ← parse_id_arg rgid;
  new_egid ← parse_id_arg egid;
  new_sgid ← parse_id_arg sgid;
  old ← credentials;
  if negb (is_root_capable old) && existsb (λ o, some_and o (λ gid, negb (has_gid old gid))) [new_rgid; new_egid; new_sgid] then refuse EPERM
  else
    let f := match new_egid with Some e => e | None => fsgid old end in
    _ ← set_credentials (set_gids old (default (real_gid old) new_rgid) (default (effective_gid old) new_egid) (default (saved_gid old) new_sgid) f);
    mret 0.

Definition sys_setfsuid (uid : Z) : Call Z :=
  c ← credentials;
  _ ← match parse_filesystem_id_arg uid with
      | Some uid =>
          if is_root_capable c || has_uid_or_fsuid c uid
          then set_credentials (set_uids c (real_uid c) (effective_uid c) (saved_uid c) uid) else mret tt
      | None => mret tt
      end;
  mret (fsuid c).

Definition sys_setfsgid (gid : Z) : Call Z :=
  c ← credentials;
  _ ← match parse_filesystem_id_arg gid with
      | Some gid =>
          if is_root_capable c || has_gid_or_fsgid c gid
          then set_credentials (set_gids c (real_gid c) (effective_gid c) (saved_gid c) gid) else mret tt
      | None => mret tt
      end;
  mret (fsgid c).

Definition parse_group_count (raw : Z) : Call Z := if bool_decide (2 ^ 31 - 1 < raw) then refuse EINVAL else mret raw.

(** The calls that copy identifiers from and to user memory. *)
Section user_calls.
Context {PT F : Type} `{HPT : PageTableOps PT, HF : FrameService F, HL : FileLayer F}.

Abbreviation World := (St F * option (MemorySet PT) * option Credentials)%type.
Definition UCall (A : Type) : Type := World → outcome (World * result A SysErrNo).
#[export] Instance ucall_ret : MRet UCall := λ A a w, Ret (w, Ok a).
#[export] Instance ucall_bind : MBind UCall := λ A B k m w,
  '(w, r) ←! m w; match r with Ok a => k a w | Err e => Ret (w, Err e) end.
Definition on_task {A} (m : Call A) : UCall A := λ '(st, mem, cur), let '(cur, r) := m cur in Ret (st, mem, cur, r).

(** [copy_object_to_user] and [copy_object_from_user] of a [u32] *)
Definition put_id (addr id : Z) : UCall unit := λ '(st, mem, cur), '(sm, r) ←! copy_to_user st mem addr (le_bytes 4 id); Ret (sm.1, sm.2, cur, r).
Definition take_id (addr : Z) : UCall Z := λ '(st, mem, cur),
  '(sm, r) ←! copy_from_user st mem addr 4; Ret (sm.1, sm.2, cur, bytes ←? r; Ok (of_le_bytes bytes)).

Definition sys_getresuid (ruid euid suid : Z) : UCall Z :=
  c ← on_task credentials;
  _ ← put_id ruid (real_uid c); _ ← put_id euid (effective_uid c); _ ← put_id suid (saved_uid c); mret 0.
Definition sys_getresgid (rgid egid sgid : Z) : UCall Z :=
  c ← on_task credentials;
  _ ← put_id rgid (real_gid c); _ ← put_id egid (effective_gid c); _ ← put_id sgid (saved_gid c); mret 0.

(** The loops over the array at [ptr]; [index] is the first element left. *)
Fixpoint put_groups (ptr index : Z) (groups : list Z) : UCall unit :=
  match groups with
  | [] => mret tt
  | g :: groups => _ ← put_id (wrap (ptr + index * 4)) g; put_groups ptr (index + 1) groups
  end.
Fixpoint take_groups (ptr index : Z) (n : nat) : UCall (list Z) :=
  match n with
  | O => mret []
  | S n => g ← take_id (wrap (ptr + index * 4)); groups ← take_groups ptr (index + 1) n; mret (g :: groups)
  end.

Definition sys_getgroups (size ptr : Z) : UCall Z :=
  size ← on_task (parse_group_count size);
  c ← on_task credentials;
  let count := zlen (supplementary_groups c) in
  if bool_decide (size = 0) then mret count
  else if bool_decide (size < count) then on_task (refuse EINVAL)
  else if bool_decide (ptr = 0) && negb (bool_decide (count = 0)) then on_task (refuse EFAULT)
  else _ ← put_groups ptr 0 (supplementary_groups c); mret count.

Definition sys_setgroups (size ptr : Z) : UCall Z :=
  size ← on_task (parse_group_count size);
  if bool_decide (LINUX_NGROUPS_MAX < size) then on_task (refuse EINVAL)
  else
    c ← on_task credentials;
    if negb (is_root_capable c) then on_task (refuse EPERM)
    else if negb (bool_decide (size = 0)) && bool_decide (ptr = 0) then on_task (refuse EFAULT)
    else
      groups ← take_groups ptr 0 (Z.to_nat size);
      if bool_decide (MAX_SUPPLEMENTARY_GROUPS < size) then on_task (refuse EINVAL)
      else _ ← on_task (c ← credentials; set_credentials (set_supplementary_groups c groups)); mret 0.

End user_calls.

(** ** Nodes and the checks

    Octal constants of the source are in hexadecimal: 0o7777 is 0xfff, 0o111 is 0x49. *)

Record VfsMetadata : Type := {
  m_ino : Z; m_kind : VfsNodeKind; m_mode : Z; m_nlink : Z; m_uid : Z; m_gid : Z;
  m_rdev_major : Z; m_rdev_minor : Z; m_size : Z; m_blocks : Z;
  m_atime_sec : Z; m_atime_nsec : Z; m_mtime_sec : Z; m_mtime_nsec : Z; m_ctime_sec : Z; m_ctime_nsec : Z;
  m_file_flags : Z;
}.

Inductive CredentialIdentity : Type := Real | Effective | Filesystem.
Inductive TimesUpdatePermission : Type := TimesNone | TimesCurrent | TimesExplicit.

Definition from_effective_flag (effective : bool) : CredentialIdentity := if effective then Effective else Real.
Definition identity_uid (i : CredentialIdentity) (c : Credentials) : Z :=
  match i with Real => real_uid c | Effective => effective_uid c | Filesystem => fsuid c end.
Definition identity_in_group (i : CredentialIdentity) (c : Credentials) (gid : Z) : bool :=
  match i with Real => is_in_group c gid false | Effective => is_in_group c gid true | Filesystem => is_in_filesystem_group c gid end.

Definition R_OK : Z := 4.
Definition W_OK : Z := 2.
Definition X_OK : Z := 1.
Definition S_ISUID : Z := 0x800.
Definition S_ISGID : Z := 0x400.
Definition S_ISVTX : Z := 0x200.
Definition current_credentials (cur : option Credentials) : Credentials := default root_credentials cur.

(** The bits asked for. *)
Definition required_bits (access_mode : Z) : Z :=
  let required := if bool_decide (Z.land access_mode R_OK ≠ 0) then 4 else 0 in
  let required := if bool_decide (Z.land access_mode W_OK ≠ 0) then Z.lor required 2 else required in
  if bool_decide (Z.land access_mode X_OK ≠ 0) then Z.lor required 1 else required.

Definition check_metadata_access_with_identity (cur : option Credentials) (meta : VfsMetadata) (access_mode : Z) (identity : CredentialIdentity)
    : result unit SysErrNo :=
  let c := current_credentials cur in
  let uid := identity_uid identity c in
  if bool_decide (uid = 0) then
    if bool_decide (Z.land access_mode X_OK ≠ 0) && bool_decide (m_kind meta = NodeRegular) && bool_decide (Z.land (m_mode meta) 0x49 = 0)
    then Err EACCES else Ok tt
  else
    let class_shift := if bool_decide (uid = m_uid meta) then 6 else if identity_in_group identity c (m_gid meta) then 3 else 0 in
    let perm := Z.land (Z.shiftr (m_mode meta) class_shift) 7 in
    let required := required_bits access_mode in
    if bool_decide (Z.land perm required ≠ required) then Err EACCES else Ok tt.

Definition check_metadata_access cur meta access_mode := check_metadata_access_with_identity cur meta access_mode Real.
Definition check_metadata_access_with_effective cur meta access_mode effective :=
  check_metadata_access_with_identity cur meta access_mode (from_effective_flag effective).

Definition check_noatime_permission (cur : option Credentials) (meta : VfsMetadata) : result unit SysErrNo :=
  let c := current_credentials cur in
  if bool_decide (fsuid c = 0) || bool_decide (fsuid c = m_uid meta) then Ok tt else Err EPERM.

Definition check_chmod_permission (cur : option Credentials) (meta : VfsMetadata) : result unit SysErrNo :=
  let c := current_credentials cur in
  if is_root_capable c || bool_decide (fsuid c = 0) || bool_decide (fsuid c = m_uid meta) then Ok tt else Err EPERM.

Definition chmod_mode_after_permission (cur : option Credentials) (mode : Z) (meta : VfsMetadata) : Z :=
  let c := current_credentials cur in
  let next := Z.land mode 0xfff in
  if bool_decide (Z.land next S_ISGID ≠ 0) && negb (is_root_capable c) && negb (bool_decide (fsuid c = 0)) && negb (is_in_filesystem_group c (m_gid meta))
  then Z.ldiff next S_ISGID else next.

Definition check_times_permission (cur : option Credentials) (meta : VfsMetadata) (permission : TimesUpdatePermission) : result unit SysErrNo :=
  let c := current_credentials cur in
  let owner := bool_decide (effective_uid c = 0) || bool_decide (effective_uid c = m_uid meta) in
  match permission with
  | TimesNone => Ok tt
  | TimesCurrent => if owner then Ok tt else check_metadata_access_with_identity cur meta W_OK Effective
  | TimesExplicit => if owner then Ok tt else Err EPERM
  end.

Definition check_chown_permission (cur : option Credentials) (meta : VfsMetadata) (uid gid : option Z) : result unit SysErrNo :=
  match uid, gid with
  | None, None => Ok tt
  | _, _ =>
      let c := current_credentials cur in
      if bool_decide (effective_uid c = 0) || bool_decide (effective_uid c = m_uid meta) then Ok tt else Err EPERM
  end.

Definition chown_mode_after_owner_update (mode : Z) (is_regular owner_update_requested : bool) : Z :=
  if negb is_regular || negb owner_update_requested then mode
  else
    let next := Z.ldiff mode S_ISUID in
    if bool_decide (Z.land mode 0x8 ≠ 0) then Z.ldiff next S_ISGID else next.

(** The last part of [check_delete_access]: the sticky bit of the directory. *)
Definition check_sticky (cur : option Credentials) (parent target : VfsMetadata) : result unit SysErrNo :=
  let uid := fsuid (current_credentials cur) in
  if negb (bool_decide (uid = 0)) && bool_decide (Z.land (m_mode parent) S_ISVTX ≠ 0) && negb (bool_decide (uid = m_uid parent)) && negb (bool_decide (uid = m_uid target))
  then Err EPERM else Ok tt.

(** The metadata of a new node in memory; [parent] is its directory's. *)
Definition new_for_current (cur : option Credentials) (mode : Z) : MemNodeMetadata :=
  let c := current_credentials cur in mkMeta (Z.land mode 0xfff) (fsuid c) (fsgid c) 0 0.

Definition new_child_for_current (cur : option Credentials) (parent : option MemNodeMetadata) (mode : Z) (is_dir : bool) : MemNodeMetadata :=
  let c := current_credentials cur in
  let parent_setgid := match parent with Some meta => bool_decide (Z.land (node_mode meta) S_ISGID ≠ 0) | None => false end in
  let child_mode := Z.land mode 0xfff in
  let child_mode := if is_dir && parent_setgid then Z.lor child_mode S_ISGID else child_mode in
  let parent_gid := match parent with Some meta => node_gid meta | None => 0 end in
  let child_mode :=
    if negb is_dir && parent_setgid && bool_decide (Z.land child_mode S_ISGID ≠ 0) && negb (is_root_capable c) && negb (is_in_filesystem_group c parent_gid)
    then Z.ldiff child_mode S_ISGID else child_mode in
  mkMeta child_mode (fsuid c) (match parent with Some meta => if parent_setgid then node_gid meta else fsgid c | None => fsgid c end) 0 0.

(** ** Identifiers of an unprivileged task *)

(** [c'] has only identifiers [c] could name. *)
Record ids_within (c c' : Credentials) : Prop := {
  within_ruid : has_uid c (real_uid c') = true;
  within_euid : has_uid c (effective_uid c') = true;
  within_suid : has_uid c (saved_uid c') = true;
  within_fsuid : has_uid_or_fsuid c (fsuid c') = true;
  within_rgid : has_gid c (real_gid c') = true;
  within_egid : has_gid c (effective_gid c') = true;
  within_sgid : has_gid c (saved_gid c') = true;
  within_fsgid : has_gid_or_fsgid c (fsgid c') = true;
  within_groups : supplementary_groups c' = supplementary_groups c;
}.

Ltac id_bools := repeat first
  [ rewrite orb_true_iff in * | rewrite orb_false_iff in * | rewrite andb_true_iff in * | rewrite negb_true_iff in * | rewrite negb_false_iff in *
  | rewrite bool_decide_eq_true in * | rewrite bool_decide_eq_false in * ].

Lemma ids_within_refl c : ids_within c c.
Proof. split; unfold has_uid_or_fsuid, has_gid_or_fsgid, has_uid, has_gid; id_bools; tauto. Qed.

Lemma has_uid_within c c' x : ids_within c c' → has_uid c' x = true → has_uid c x = true.
Proof. intros [H1 H2 H3 _ _ _ _ _ _]. unfold has_uid at 1. id_bools. by intros [[->| ->]| ->]. Qed.
Lemma has_gid_within c c' x : ids_within c c' → has_gid c' x = true → has_gid c x = true.
Proof. intros [_ _ _ _ H1 H2 H3 _ _]. unfold has_gid at 1. id_bools. by intros [[->| ->]| ->]. Qed.

Lemma ids_within_trans c1 c2 c3 : ids_within c1 c2 → ids_within c2 c3 → ids_within c1 c3.
Proof.
  intros H [A1 A2 A3 A4 B1 B2 B3 B4 G]. pose proof (has_uid_within c1 c2) as Hu. pose proof (has_gid_within c1 c2) as Hg.
  split; try (by apply Hu); try (by apply Hg); [| |by rewrite G; apply H].
  - unfold has_uid_or_fsuid in A4. apply orb_true_iff in A4 as [A4|E]; [unfold has_uid_or_fsuid; by rewrite Hu|].
    apply bool_decide_eq_true in E as ->. apply H.
  - unfold has_gid_or_fsgid in B4. apply orb_true_iff in B4 as [B4|E]; [unfold has_gid_or_fsgid; by rewrite Hg|].
    apply bool_decide_eq_true in E as ->. apply H.
Qed.

(** The calls that set identifiers. *)
Inductive IdCall : Type :=
  | Setuid (u : Z) | Setgid (g : Z) | Setreuid (r e : Z) | Setregid (r e : Z) | Setresuid (r e s : Z) | Setresgid (r e s : Z)
  | Setfsuid (u : Z) | Setfsgid (g : Z).
Definition id_call (k : IdCall) : Call Z :=
  match k with
  | Setuid u => sys_setuid u | Setgid g => sys_setgid g | Setreuid r e => sys_setreuid r e | Setregid r e => sys_setregid r e
  | Setresuid r e s => sys_setresuid r e s | Setresgid r e s => sys_setresgid r e s | Setfsuid u => sys_setfsuid u | Setfsgid g => sys_setfsgid g
  end.

Lemma set_uids_within c r e s f :
  has_uid c r = true → has_uid c e = true → has_uid c s = true → has_uid_or_fsuid c f = true → ids_within c (set_uids c r e s f).
Proof. intros ????. pose proof (ids_within_refl c) as [_ _ _ _ ? ? ? ? ?]. by split. Qed.
Lemma set_gids_within c r e s f :
  has_gid c r = true → has_gid c e = true → has_gid c s = true → has_gid_or_fsgid c f = true → ids_within c (set_gids c r e s f).
Proof. intros ????. pose proof (ids_within_refl c) as [? ? ? ? _ _ _ _ ?]. by split. Qed.

(** An argument parser touches nothing. *)
Definition pure_call {A} (m : Call A) : Prop := ∀ cur, ∃ r, m cur = (cur, r).
Lemma parse_id_pure raw : pure_call (parse_id_arg raw).
Proof. intros cur. unfold parse_id_arg. repeat case_match; by eexists. Qed.
Lemma parse_required_pure raw : pure_call (parse_required_id raw).
Proof. intros cur. unfold parse_required_id. case_match; by eexists. Qed.

(** What a call may do to [c] without privilege. *)
Definition stays {A} (c : Credentials) (m : Call A) : Prop := ∃ c' r, m (Some c) = (Some c', r) ∧ ids_within c c'.

Section stays.
Context (c : Credentials).

Lemma stays_ret {A} (a : A) : stays c (mret a).
Proof. exists c, (Ok a). split; [done|apply ids_within_refl]. Qed.
Lemma stays_refuse {A} e : stays c (refuse e : Call A).
Proof. exists c, (Err e). split; [done|apply ids_within_refl]. Qed.
Lemma stays_parse {A B} (m : Call A) (k : A → Call B) : pure_call m → (∀ a, stays c (k a)) → stays c (m ≫= k).
Proof.
  intros Hm Hk. unfold stays, mbind, call_bind. destruct (Hm (Some c)) as [[a|e] ->]; [apply Hk|]. exists c, (Err e).
  split; [done|apply ids_within_refl].
Qed.
Lemma stays_credentials {B} (k : Credentials → Call B) : stays c (k c) → stays c (credentials ≫= k).
Proof. done. Qed.
Lemma stays_set {B} c' (b : B) : ids_within c c' → stays c (_ ← set_credentials c'; mret b).
Proof. intros H. by exists c', (Ok b). Qed.

(** An optional argument is absent, or one that the caller may name. *)
Lemma named_default o (p : Z → bool) d : some_and o (λ x, negb (p x)) = false → p d = true → p (default d o) = true.
Proof. destruct o; cbn; [by intros ->%negb_false_iff|done]. Qed.

Lemma own_uids : has_uid c (real_uid c) = true ∧ has_uid c (effective_uid c) = true ∧ has_uid c (saved_uid c) = true ∧ has_uid_or_fsuid c (fsuid c) = true.
Proof. by destruct (ids_within_refl c). Qed.
Lemma own_gids : has_gid c (real_gid c) = true ∧ has_gid c (effective_gid c) = true ∧ has_gid c (saved_gid c) = true ∧ has_gid_or_fsgid c (fsgid c) = true.
Proof. by destruct (ids_within_refl c). Qed.
Lemma fsuid_named x : has_uid c x = true → has_uid_or_fsuid c x = true.
Proof. unfold has_uid_or_fsuid. by intros ->. Qed.
Lemma fsgid_named x : has_gid c x = true → has_gid_or_fsgid c x = true.
Proof. unfold has_gid_or_fsgid. by intros ->. Qed.

Context (Hc : is_root_capable c = false).

Lemma setuid_stays u : stays c (sys_setuid u).
Proof.
  apply stays_parse; [apply parse_required_pure|intros x]. apply stays_credentials. rewrite Hc.
  destruct (has_uid c x) eqn:E; [|apply stays_refuse]. pose proof own_uids as (?&?&?&?).
  apply stays_set, set_uids_within; try done. by apply fsuid_named.
Qed.
Lemma setgid_stays g : stays c (sys_setgid g).
Proof.
  apply stays_parse; [apply parse_required_pure|intros x]. apply stays_credentials. rewrite Hc.
  destruct (has_gid c x) eqn:E; [|apply stays_refuse]. pose proof own_gids as (?&?&?&?).
  apply stays_set, set_gids_within; try done. by apply fsgid_named.
Qed.

(** The filesystem identifier that follows an optional effective one. *)
Lemma fsuid_follows o : some_and o (λ x, negb (has_uid c x)) = false → has_uid_or_fsuid c (match o with Some e => e | None => fsuid c end) = true.
Proof. destruct o; cbn; [intros ?%negb_false_iff; by apply fsuid_named|intros _; apply own_uids]. Qed.
Lemma fsgid_follows o : some_and o (λ x, negb (has_gid c x)) = false → has_gid_or_fsgid c (match o with Some e => e | None => fsgid c end) = true.
Proof. destruct o; cbn; [intros ?%negb_false_iff; by apply fsgid_named|intros _; apply own_gids]. Qed.

Lemma setreuid_stays r e : stays c (sys_setreuid r e).
Proof.
  apply stays_parse; [apply parse_id_pure|intros nr]. apply stays_parse; [apply parse_id_pure|intros ne]. apply stays_credentials.
  rewrite Hc. cbn [negb andb]. destruct (some_and nr _) eqn:Er; [apply stays_refuse|]. destruct (some_and ne _) eqn:Ee; [apply stays_refuse|].
  pose proof own_uids as (?&?&?&?). assert (Hr : has_uid c (default (real_uid c) nr) = true).
  { destruct nr as [x|]; [|done]. cbn in *. apply andb_false_iff in Er as [E|E]; apply negb_false_iff, bool_decide_eq_true in E; by subst. }
  assert (He : has_uid c (default (effective_uid c) ne) = true) by (by apply named_default).
  apply stays_set, set_uids_within; [done|done| |by apply fsuid_follows]. by case_match.
Qed.
Lemma setregid_stays r e : stays c (sys_setregid r e).
Proof.
  apply stays_parse; [apply parse_id_pure|intros nr]. apply stays_parse; [apply parse_id_pure|intros ne]. apply stays_credentials.
  rewrite Hc. cbn [negb andb]. destruct (some_and nr _) eqn:Er; [apply stays_refuse|]. destruct (some_and ne _) eqn:Ee; [apply stays_refuse|].
  pose proof own_gids as (?&?&?&?). assert (Hr : has_gid c (default (real_gid c) nr) = true).
  { destruct nr as [x|]; [|done]. cbn in *. apply andb_false_iff in Er as [E|E]; apply negb_false_iff, bool_decide_eq_true in E; by subst. }
  assert (He : has_gid c (default (effective_gid c) ne) = true) by (by apply named_default).
  apply stays_set, set_gids_within; [done|done| |by apply fsgid_follows]. by case_match.
Qed.

Lemma setresuid_stays r e s : stays c (sys_setresuid r e s).
Proof.
  do 3 (apply stays_parse; [apply parse_id_pure|intros ?]). apply stays_credentials. rewrite Hc. cbn [negb andb].
  destruct (existsb _ _) eqn:E; [apply stays_refuse|]. cbn in E. rewrite !orb_false_iff in E. destruct E as (?&?&?&_). pose proof own_uids as (?&?&?&?).
  apply stays_set, set_uids_within; [by apply named_default..|by apply fsuid_follows].
Qed.
Lemma setresgid_stays r e s : stays c (sys_setresgid r e s).
Proof.
  do 3 (apply stays_parse; [apply parse_id_pure|intros ?]). apply stays_credentials. rewrite Hc. cbn [negb andb].
  destruct (existsb _ _) eqn:E; [apply stays_refuse|]. cbn in E. rewrite !orb_false_iff in E. destruct E as (?&?&?&_). pose proof own_gids as (?&?&?&?).
  apply stays_set, set_gids_within; [by apply named_default..|by apply fsgid_follows].
Qed.

Lemma setfsuid_stays u : stays c (sys_setfsuid u).
Proof.
  apply stays_credentials. destruct (parse_filesystem_id_arg u) as [x|]; [|apply stays_ret]. rewrite Hc. cbn [orb].
  destruct (has_uid_or_fsuid c x) eqn:E; [|apply stays_ret]. pose proof own_uids as (?&?&?&?). by apply stays_set, set_uids_within.
Qed.
Lemma setfsgid_stays g : stays c (sys_setfsgid g).
Proof.
  apply stays_credentials. destruct (parse_filesystem_id_arg g) as [x|]; [|apply stays_ret]. rewrite Hc. cbn [orb].
  destruct (has_gid_or_fsgid c x) eqn:E; [|apply stays_ret]. pose proof own_gids as (?&?&?&?). by apply stays_set, set_gids_within.
Qed.

Lemma id_call_stays k : stays c (id_call k).
Proof.
  destruct k; [apply setuid_stays|apply setgid_stays|apply setreuid_stays|apply setregid_stays|apply setresuid_stays|apply setresgid_stays
    |apply setfsuid_stays|apply setfsgid_stays].
Qed.

End stays.

(** ** Histories of credentials *)

Section history.
Context {PT F : Type} `{HPT : PageTableOps PT, HF : FrameService F, HL : FileLayer F}.

(** A call of the task that changes its credentials. *)
Inductive cred_step (c c' : Credentials) : Prop :=
  | step_id_call k r : id_call k (Some c) = (Some c', r) → cred_step c c'
  | step_setgroups size ptr (st st' : St F) (mem mem' : option (MemorySet PT)) r :
      sys_setgroups size ptr (st, mem, Some c) = Ret (st', mem', Some c', r) → cred_step c c'.

Lemma setgroups_refused c size ptr (st : St F) (mem : option (MemorySet PT)) :
  is_root_capable c = false → ∃ e, sys_setgroups size ptr (st, mem, Some c) = Ret (st, mem, Some c, Err e).
Proof.
  intros Hc. unfold sys_setgroups, mbind, ucall_bind, on_task, parse_group_count. case_bool_decide; [by eexists|]. cbn. case_bool_decide; [by eexists|].
  cbn. rewrite Hc. by eexists.
Qed.

Lemma cred_step_within c c' : is_root_capable c = false → cred_step c c' → ids_within c c'.
Proof.
  intros Hc [k r E|size ptr st st' mem mem' r E].
  - destruct (id_call_stays c Hc k) as (c1 & r1 & E1 & H). rewrite E1 in E. by injection E as -> _.
  - destruct (setgroups_refused c size ptr st mem Hc) as [e E1]. rewrite E1 in E. injection E as _ _ -> _. apply ids_within_refl.
Qed.

Lemma not_zero_not_root c : has_uid c 0 = false → is_root_capable c = false.
Proof. unfold has_uid, is_root_capable. rewrite !orb_false_iff. intros [[_ H] _]. apply bool_decide_eq_false in H. by apply bool_decide_eq_false. Qed.

Lemma within_not_zero c c' : has_uid c 0 = false → ids_within c c' → has_uid c' 0 = false.
Proof. intros H0 H. destruct (has_uid c' 0) eqn:E; [|done]. rewrite <-H0. symmetry. by eapply has_uid_within. Qed.

Lemma history_within c c' : has_uid c 0 = false → rtc cred_step c c' → ids_within c c'.
Proof.
  intros H0. apply (rtc_ind_r (R := cred_step) (λ c', ids_within c c') c); [apply ids_within_refl|].
  intros y z _ Hstep Hy. eapply ids_within_trans; [done|]. apply cred_step_within; [|done]. by eapply not_zero_not_root, within_not_zero.
Qed.

(** C24: a task without privilege never gains any.  If no user identifier of a task is 0, then
    after any sequence of the calls that set identifiers or groups, with any arguments,
    every identifier it has is one it had, its groups are unchanged, and no identifier is 0;
    and the files whose mode or owner it may then change belong to one of the users it was. *)
Theorem credentials_confined c c' :
  has_uid c 0 = false → fsuid c ≠ 0 → rtc cred_step c c' →
  ids_within c c' ∧ is_root_capable c' = false ∧ (∀ i, identity_uid i c' ≠ 0) ∧
  (∀ meta, check_chmod_permission (Some c') meta = Ok tt → has_uid_or_fsuid c (m_uid meta) = true) ∧
  (∀ meta uid gid, (uid, gid) ≠ (None, None) → check_chown_permission (Some c') meta uid gid = Ok tt → has_uid c (m_uid meta) = true).
Proof.
  intros H0 Hf Hsteps. pose proof (history_within c c' H0 Hsteps) as Hw. pose proof (within_not_zero c c' H0 Hw) as H0'.
  pose proof (not_zero_not_root c' H0') as Hr.
  assert (Hf' : fsuid c' ≠ 0).
  { pose proof (within_fsuid _ _ Hw) as H. unfold has_uid_or_fsuid in H. intros E. rewrite E, H0 in H. by apply bool_decide_eq_true in H. }
  split_and!; [done|done| | |].
  - unfold has_uid in H0'. rewrite !orb_false_iff, !bool_decide_eq_false in H0'. destruct H0' as [[? ?] ?]. intros []; cbn; congruence.
  - intros meta. unfold check_chmod_permission. cbn. rewrite Hr, bool_decide_false by done. cbn [orb]. case_bool_decide as E; [|done].
    intros _. rewrite <-E. apply Hw.
  - intros meta uid gid Hne H. unfold is_root_capable in Hr. unfold check_chown_permission in H.
    assert (E : effective_uid c' = m_uid meta).
    { destruct uid, gid; [| | |done]; cbn in H; rewrite Hr in H; cbn in H; by case_bool_decide. }
    rewrite <-E. apply Hw.
Qed.

(** [setuid] of root: every user identifier is the new one. *)
Lemma setuid_of_root c u :
  is_root_capable c = true → 0 ≤ u ≤ U32_MAX → sys_setuid u (Some c) = (Some (set_uids c u u u u), Ok 0).
Proof.
  intros Hc Hu. unfold sys_setuid, parse_required_id. rewrite bool_decide_false by lia. unfold mbind, call_bind, mret, call_ret, credentials.
  by rewrite Hc.
Qed.

Lemma parse_id_small u cur : 0 ≤ u < U32_MAX → parse_id_arg u cur = (cur, Ok (Some u)).
Proof.
  intros Hu. unfold parse_id_arg, U32_MAX, USIZE_MAX in *. rewrite !bool_decide_false by lia. done.
Qed.
Lemma parse_id_none cur : parse_id_arg USIZE_MAX cur = (cur, Ok None).
Proof. done. Qed.

Lemma setresuid_effective c u : 0 ≤ u < U32_MAX →
  sys_setresuid USIZE_MAX u USIZE_MAX (Some c) =
    if negb (is_root_capable c) && negb (has_uid c u) then (Some c, Err EPERM) else (Some (set_uids c (real_uid c) u (saved_uid c) u), Ok 0).
Proof.
  intros Hu. unfold sys_setresuid, mbind, call_bind. rewrite parse_id_none. cbv beta iota. rewrite parse_id_small by done. cbv beta iota.
  rewrite parse_id_none. cbv beta iota zeta delta [credentials set_credentials mret call_ret refuse existsb some_and default from_option id orb].
  by destruct (is_root_capable c), (has_uid c u).
Qed.

(** How root gives up its privilege.  After [setuid u] with [u] not 0 every user identifier
    is [u] and stays so for good, whatever the task calls; after [setresuid(-1, u, -1)] from
    credentials with a real or saved 0 the task has no privilege, and the same call with 0
    gives it back the credentials it had.  Without privilege neither call to 0 succeeds
    otherwise. *)
Theorem privilege_drop c u :
  is_root_capable c = true → 0 < u < U32_MAX →
  (∃ c1, sys_setuid u (Some c) = (Some c1, Ok 0) ∧
    ∀ c', rtc cred_step c1 c' → real_uid c' = u ∧ effective_uid c' = u ∧ saved_uid c' = u ∧ fsuid c' = u) ∧
  (real_uid c = 0 ∨ saved_uid c = 0 → fsuid c = 0 →
    ∃ c1, sys_setresuid USIZE_MAX u USIZE_MAX (Some c) = (Some c1, Ok 0) ∧ is_root_capable c1 = false ∧ fsuid c1 = u ∧
          sys_setresuid USIZE_MAX 0 USIZE_MAX (Some c1) = (Some c, Ok 0)) ∧
  (∀ c', has_uid c' 0 = false → sys_setuid 0 (Some c') = (Some c', Err EPERM) ∧ sys_setresuid USIZE_MAX 0 USIZE_MAX (Some c') = (Some c', Err EPERM)).
Proof.
  intros Hc Hu. split_and!.
  - eexists. split; [apply setuid_of_root; [done|lia]|]. intros c' Hsteps.
    assert (H0 : has_uid (set_uids c u u u u) 0 = false) by by (unfold has_uid; rewrite !orb_false_iff, !bool_decide_eq_false; cbn; lia).
    destruct (history_within _ _ H0 Hsteps) as [H1 H2 H3 H4 _ _ _ _ _]. unfold has_uid_or_fsuid, has_uid in *.
    rewrite !orb_true_iff, !bool_decide_eq_true in *. cbn in *. intuition.
  - intros H0 Hf. exists (set_uids c (real_uid c) u (saved_uid c) u). pose proof Hc as He0. unfold is_root_capable in He0. apply bool_decide_eq_true in He0.
    assert (Hz : is_root_capable (set_uids c (real_uid c) u (saved_uid c) u) = false) by (apply bool_decide_eq_false; cbn; lia).
    split_and!; [|done|done|].
    + rewrite setresuid_effective by lia. by rewrite Hc.
    + rewrite setresuid_effective by (unfold U32_MAX; lia). rewrite Hz.
      assert (E : has_uid (set_uids c (real_uid c) u (saved_uid c) u) 0 = true).
      { unfold has_uid. rewrite !orb_true_iff, !bool_decide_eq_true. cbn. intuition. }
      rewrite E. cbn. destruct c; cbn in *. by subst.
  - intros c' H0. pose proof (not_zero_not_root c' H0) as Hr. split.
    + unfold sys_setuid, parse_required_id, mbind, call_bind. rewrite bool_decide_false by (unfold U32_MAX; lia).
      cbv beta iota delta [credentials mret call_ret]. by rewrite Hr, H0.
    + rewrite setresuid_effective by (unfold U32_MAX; lia). by rewrite Hr, H0.
Qed.

End history.

(** ** Permission bits *)

Lemma bit_set x b n : 0 ≤ n → b = 2 ^ n → bool_decide (Z.land x b ≠ 0) = Z.testbit x n.
Proof.
  intros Hn ->. destruct (Z.testbit x n) eqn:E.
  - apply bool_decide_eq_true. intros H. apply (f_equal (λ z, Z.testbit z n)) in H. rewrite Z.land_spec, E, Z.pow2_bits_true, Z.bits_0 in H by done. done.
  - apply bool_decide_eq_false. intros H. apply H, Z.bits_inj'. intros k Hk. rewrite Z.land_spec, Z.bits_0, Z.pow2_bits_eqb by done.
    destruct (Z.eqb_spec n k) as [->|]; [by rewrite E|by rewrite andb_false_r].
Qed.

Lemma clear_bit x n i : 0 ≤ n → Z.testbit (Z.ldiff x (2 ^ n)) i = Z.testbit x i && negb (bool_decide (i = n)).
Proof.
  intros Hn. rewrite Z.ldiff_spec, Z.pow2_bits_eqb by done. f_equal. f_equal. destruct (Z.eqb_spec n i) as [->|]; [by rewrite bool_decide_true|].
  by rewrite bool_decide_false by congruence.
Qed.
Lemma set_bit x n i : 0 ≤ n → Z.testbit (Z.lor x (2 ^ n)) i = Z.testbit x i || bool_decide (i = n).
Proof.
  intros Hn. rewrite Z.lor_spec, Z.pow2_bits_eqb by done. f_equal. destruct (Z.eqb_spec n i) as [->|]; [by rewrite bool_decide_true|].
  by rewrite bool_decide_false by congruence.
Qed.
Lemma low_bits x n i : 0 ≤ n → 0 ≤ i → Z.testbit (Z.land x (2 ^ n - 1)) i = Z.testbit x i && bool_decide (i < n).
Proof.
  intros Hn Hi. replace (2 ^ n - 1) with (Z.ones n) by (rewrite Z.ones_equiv; lia).
  rewrite Z.land_spec. f_equal. case_bool_decide; [apply Z.ones_spec_low; lia|apply Z.ones_spec_high; lia].
Qed.

Lemma required_spec a i : 0 ≤ i → Z.testbit (required_bits a) i = Z.testbit a i && bool_decide (i < 3).
Proof.
  intros Hi. assert (E : required_bits a = Z.land a (2 ^ 3 - 1)); [|rewrite E; by apply low_bits].
  apply Z.bits_inj'. intros k Hk. rewrite low_bits by done. unfold required_bits, R_OK, W_OK, X_OK.
  rewrite (bit_set a 4 2), (bit_set a 2 1), (bit_set a 1 0) by done.
  assert (k = 0 ∨ k = 1 ∨ k = 2 ∨ 3 ≤ k) as [->|[->|[->|Hk3]]] by lia.
  1-3: by destruct (Z.testbit a 2), (Z.testbit a 1), (Z.testbit a 0).
  rewrite (bool_decide_false (k < 3)), andb_false_r by lia. apply Z.bits_above_log2; [by repeat case_match|].
  apply (Z.le_lt_trans _ 2); [|lia]. by repeat case_match.
Qed.

Lemma contained_bits x y : Z.land x y = y ↔ ∀ i, 0 ≤ i → Z.testbit y i = true → Z.testbit x i = true.
Proof.
  split.
  - intros E i Hi Hy. rewrite <-E, Z.land_spec in Hy. by apply andb_true_iff in Hy as [-> _].
  - intros H. apply Z.bits_inj'. intros i Hi. rewrite Z.land_spec. destruct (Z.testbit y i) eqn:E; [by rewrite H|by rewrite andb_false_r].
Qed.

Lemma execute_bits x : Z.land x 0x49 = 0 ↔ Z.testbit x 0 = false ∧ Z.testbit x 3 = false ∧ Z.testbit x 6 = false.
Proof.
  change 0x49 with (Z.lor (Z.lor (2 ^ 0) (2 ^ 3)) (2 ^ 6)). rewrite !Z.land_lor_distr_r, !Z.lor_eq_0_iff.
  rewrite <-(bit_set x (2 ^ 0) 0), <-(bit_set x (2 ^ 3) 3), <-(bit_set x (2 ^ 6) 6), !bool_decide_eq_false by done.
  split; [intros [[-> ->] ->]|intros (H1 & H2 & H3)]; [by repeat split; intros H; apply H|]. split_and!; by apply dec_stable.
Qed.

(** The triple of permission bits for an identity. *)
Definition access_class (c : Credentials) (identity : CredentialIdentity) (meta : VfsMetadata) : Z :=
  if bool_decide (identity_uid identity c = m_uid meta) then 6 else if identity_in_group identity c (m_gid meta) then 3 else 0.

(** C25: the permission check is the rule of owner, group and others.  For a user other than
    0 exactly one triple of bits counts, the first that fits, and every right asked for must
    be in it; what the other triples allow does not matter.  User 0 may do anything except
    execute a regular file that nobody may execute. *)
Theorem access_rule cur meta access_mode identity :
  let c := current_credentials cur in
  let check := check_metadata_access_with_identity cur meta access_mode identity in
  (check = Ok tt ∨ check = Err EACCES) ∧
  (check = Ok tt ↔
    if bool_decide (identity_uid identity c = 0)
    then Z.testbit access_mode 0 = true → m_kind meta = NodeRegular → ∃ i, (i = 0 ∨ i = 3 ∨ i = 6) ∧ Z.testbit (m_mode meta) i = true
    else ∀ i, 0 ≤ i < 3 → Z.testbit access_mode i = true → Z.testbit (m_mode meta) (access_class c identity meta + i) = true).
Proof.
  cbv zeta. unfold check_metadata_access_with_identity. set (c := current_credentials cur). fold (access_class c identity meta).
  destruct (decide (identity_uid identity c = 0)) as [E0|E0]; [rewrite (bool_decide_true (_ = 0)) by done|rewrite (bool_decide_false (_ = 0)) by done].
  - unfold X_OK. rewrite (bit_set access_mode 1 0) by done.
    pose proof (execute_bits (m_mode meta)) as Hx. set (x := m_mode meta) in *.
    destruct (Z.testbit access_mode 0); [|split; [by left|done]]. case_bool_decide as Hk; [|split; [by left|done]].
    case_bool_decide as Hm; cbn [andb]; (split; [auto|]); (split; [done || (intros _ _ _)|done || intros H]).
    + destruct (proj1 Hx Hm) as (?&?&?), (H eq_refl Hk) as (i & [->|[->| ->]] & ?); congruence.
    + destruct (Z.testbit x 0) eqn:?; [by exists 0; auto|]. destruct (Z.testbit x 3) eqn:?; [by exists 3; auto|].
      destruct (Z.testbit x 6) eqn:?; [by exists 6; auto|]. exfalso. by apply Hm, Hx.
  - case_bool_decide as Hp; (split; [auto|]).
    + split; [done|]. intros H. exfalso. apply Hp, contained_bits. intros i Hi. rewrite required_spec by done. intros [Ha Hi3%bool_decide_eq_true]%andb_true_iff.
      change 7 with (2 ^ 3 - 1). rewrite low_bits, Z.shiftr_spec by done. rewrite (bool_decide_true (i < 3)), andb_true_r by done.
      rewrite Z.add_comm. apply H; [lia|done].
    + split; [|done]. intros _ i Hi Ha. rewrite contained_bits in Hp. specialize (Hp i ltac:(lia)).
      rewrite required_spec, Ha, bool_decide_true in Hp by lia. specialize (Hp eq_refl). change 7 with (2 ^ 3 - 1) in Hp.
      rewrite low_bits, Z.shiftr_spec in Hp by lia. apply andb_true_iff in Hp as [Hp _]. by rewrite Z.add_comm.
Qed.

(** The set-group-identifier bit of a mode needs privilege or membership. *)
Definition setgid_allowed (c : Credentials) (gid : Z) : bool :=
  is_root_capable c || bool_decide (fsuid c = 0) || is_in_filesystem_group c gid.
(** New files do without the second clause. *)
Definition setgid_allowed_new (c : Credentials) (gid : Z) : bool := is_root_capable c || is_in_filesystem_group c gid.

(** C26: the modes that the file layer stores.  Of the mode given to [chmod] the low twelve bits
    are kept, the set-group-identifier bit only for the privileged and the members of the
    file's group; a change of owner clears the set-user-identifier bit of a regular file, and
    the set-group-identifier bit when the group may execute it, and no other; a new node
    belongs to the filesystem user of the caller, a node in a set-group-identifier directory
    to the directory's group, and a directory inherits the bit. *)
Theorem mode_updates cur meta parent mode is_regular requested is_dir i :
  0 ≤ i →
  let c := current_credentials cur in
  let inherits := match parent with Some p => Z.testbit (node_mode p) 10 | None => false end in
  let gid := match parent with Some p => node_gid p | None => 0 end in
  let child := new_child_for_current cur parent mode is_dir in
  Z.testbit (chmod_mode_after_permission cur mode meta) i =
    Z.testbit mode i && bool_decide (i < 12) && (negb (bool_decide (i = 10)) || setgid_allowed c (m_gid meta)) ∧
  Z.testbit (chown_mode_after_owner_update mode is_regular requested) i =
    Z.testbit mode i && negb (is_regular && requested && (bool_decide (i = 11) || bool_decide (i = 10) && Z.testbit mode 3)) ∧
  Z.testbit (node_mode child) i =
    (Z.testbit mode i && bool_decide (i < 12) || is_dir && inherits && bool_decide (i = 10)) &&
    negb (bool_decide (i = 10) && negb is_dir && inherits && negb (setgid_allowed_new c gid)) ∧
  node_uid child = fsuid c ∧ node_gid child = (if inherits then gid else fsgid c).
Proof.
  intros Hi c inherits gid child.
  assert (Hlow : ∀ k, 0 ≤ k → Z.testbit (Z.land mode 0xfff) k = Z.testbit mode k && bool_decide (k < 12)) by (intros k Hk; by apply (low_bits mode 12)).
  assert (Hset : ∀ x, bool_decide (Z.land x S_ISGID ≠ 0) = Z.testbit x 10) by (intros x; by apply bit_set).
  assert (Hclear : ∀ x, Z.testbit (Z.ldiff x S_ISGID) i = Z.testbit x i && negb (bool_decide (i = 10))) by (intros x; by apply (clear_bit x 10)).
  split_and!.
  - unfold chmod_mode_after_permission. fold c. rewrite Hset, Hlow by done. unfold setgid_allowed.
    generalize (is_root_capable c) (bool_decide (fsuid c = 0)) (is_in_filesystem_group c (m_gid meta)). intros r z g.
    rewrite (bool_decide_true (10 < 12)) by done. rewrite andb_true_r. destruct (Z.testbit mode 10) eqn:E10.
    + destruct r, z, g; cbn [andb orb negb]; rewrite ?Hclear, Hlow by done; by rewrite ?orb_true_r, ?orb_false_r, ?andb_true_r.
    + cbn [andb]. rewrite Hlow by done. destruct (decide (i = 10)) as [->|Hne]; [by rewrite E10|].
      rewrite (bool_decide_false (i = 10)) by done. by rewrite andb_true_r.
  - unfold chown_mode_after_owner_update. destruct is_regular, requested; cbn [negb orb andb]; try by rewrite andb_true_r.
    rewrite (bit_set mode 8 3) by done. change S_ISUID with (2 ^ 11). destruct (Z.testbit mode 3); rewrite ?Hclear, clear_bit by done.
    + rewrite andb_true_r, negb_orb. by rewrite andb_assoc.
    + by rewrite andb_false_r, orb_false_r.
  - unfold child, new_child_for_current. fold c. fold gid. cbn [node_mode]. rewrite !Hset.
    assert (Ei : match parent with Some p => bool_decide (Z.land (node_mode p) S_ISGID ≠ 0) | None => false end = inherits).
    { unfold inherits. destruct parent; [apply Hset|done]. }
    rewrite Ei. unfold setgid_allowed_new. generalize (is_root_capable c) (is_in_filesystem_group c gid). intros r g.
    destruct is_dir, inherits; cbn [negb andb].
    + change S_ISGID with (2 ^ 10). rewrite set_bit, Hlow by done. by rewrite andb_false_r, andb_true_r.
    + rewrite Hlow by done. by rewrite andb_false_r, orb_false_r, andb_true_r.
    + rewrite Hlow by done. rewrite (bool_decide_true (10 < 12)), andb_true_r, orb_false_r by done. destruct (Z.testbit mode 10) eqn:E10.
      * destruct r, g; cbn [andb orb negb]; rewrite ?Hclear, Hlow by done; by rewrite ?andb_false_r, ?andb_true_r.
      * cbn [andb]. rewrite Hlow by done. destruct (decide (i = 10)) as [->|Hne]; [by rewrite E10|].
        rewrite (bool_decide_false (i = 10)) by done. by rewrite andb_true_r.
    + rewrite Hlow by done. by rewrite andb_false_r, orb_false_r, andb_true_r.
  - done.
  - unfold child, new_child_for_current, inherits, gid. fold c. cbn [node_gid]. destruct parent; [|done]. by rewrite Hset.
Qed.

(** ** Concrete credentials *)

Definition demo_user : Credentials := Build_Credentials 1000 1000 1000 1000 100 100 100 100 [27].
Definition demo_meta (uid gid mode : Z) : VfsMetadata := Build_VfsMetadata 1 NodeRegular mode 1 uid gid 0 0 0 0 0 0 0 0 0 0 0.

Example access_examples :
  check_metadata_access_with_identity (Some demo_user) (demo_meta 1000 100 0x3f) R_OK Filesystem = Err EACCES ∧
  check_metadata_access_with_identity (Some demo_user) (demo_meta 0 27 0x28) R_OK Filesystem = Ok tt ∧
  check_metadata_access_with_identity None (demo_meta 1000 100 0) W_OK Real = Ok tt.
Proof. vm_compute. by repeat split. Qed.

Definition demo_after : Credentials := set_uids demo_user 1000 1000 1000 1000.
Lemma credentials_confined_witness :
  is_root_capable demo_after = false ∧ ids_within demo_user demo_after ∧ fst (id_call (Setreuid USIZE_MAX 0) (Some demo_user)) = Some demo_user.
Proof.
  destruct (credentials_confined (PT := Sv39) (F := LocalFrames Buddy) demo_user demo_after) as (Hw & Hr & _).
  - reflexivity.
  - discriminate.
  - apply rtc_once. apply (step_id_call _ _ (Setresuid 1000 1000 USIZE_MAX) (Ok 0)). vm_compute. reflexivity.
  - split; [exact Hr|]. split; [exact Hw|]. vm_compute. reflexivity.
Defined.

Example privilege_drop_example :
  ∃ c1, sys_setresuid USIZE_MAX 1000 USIZE_MAX (Some root_credentials) = (Some c1, Ok 0) ∧ is_root_capable c1 = false ∧
        sys_setresuid USIZE_MAX 0 USIZE_MAX (Some c1) = (Some root_credentials, Ok 0).
Proof.
  destruct (privilege_drop (PT := Sv39) (F := LocalFrames Buddy) root_credentials 1000) as (_ & H & _).
  - reflexivity.
  - vm_compute. split; reflexivity.
  - destruct (H (or_introl eq_refl) eq_refl) as (c1 & H1 & H2 & _ & H3). exists c1. split; [exact H1|]. split; [exact H2|exact H3].
Qed.

Lemma mode_updates_witness :
  Z.testbit (chmod_mode_after_permission (Some demo_user) 0xded (demo_meta 1000 50 0)) 10 = false ∧
  Z.testbit (chown_mode_after_owner_update 0xded true true) 11 = false.
Proof.
  destruct (mode_updates (Some demo_user) (demo_meta 1000 50 0) None 0xded true true false 10 ltac:(lia)) as (H1 & _).
  destruct (mode_updates (Some demo_user) (demo_meta 1000 50 0) None 0xded true true false 11 ltac:(lia)) as (_ & H2 & _).
  split; [rewrite H1; vm_compute; reflexivity|rewrite H2; vm_compute; reflexivity].
Defined.

(** The owner of a file may give it to anyone: the new owner is not looked at. *)
Lemma owner_gives_away : check_chown_permission (Some demo_user) (demo_meta 1000 100 0x1a4) (Some 0) (Some 0) = Ok tt.
Proof. vm_compute. reflexivity. Qed.
